(* ===== verification/_CoqProject ===== *)
-Q . S2P
Prelude.v
Text.v
Scan.v
Float64.v
Breaker.v
Resilience.v
Eventbus.v
Mq.v
Governed.v
Saga.v
Outbox.v
Inbox.v
Graph.v
Workflow.v
Runner.v
Balance.v
Registry.v
Migration.v
Permission.v
RateLimit.v
Health.v
ApiParser.v
ApiFormat.v
ApiRound.v
Naming.v
Contract.v
Errors.v
Policy.v
Context.v
Propagation.v
Guards.v
GuardLife.v
Idempotency.v
RpcCall.v
ConfigAdmin.v
ConfigDiff.v
ConfigWatch.v
HttpTypes.v
Cors.v
GatewayRoute.v
GatewayUpstream.v
Auth.v
ClientIp.v
GatewaySocket.v
GatewayAuth.v
GatewayProxy.v
Gateway.v
GatewayTrace.v
Flight.v
Lifecycle.v
Router.v
Async.v
Agent.v
Team.v
AiRuntime.v
Rag.v
Kafka.v
KafkaBroker.v
OpenApi.v
SearchSchema.v
GateDiff.v
Gate.v
Jump.v
Shard.v
Query.v
Job.v
