(* ===== verification/Prelude.v ===== *)
(** * Roze: a verification development (root file)

    Roze is a framework of Rust crates for services: resilience and messaging
    primitives, transactional messaging, RPC with discovery and load balancing,
    migrations, access rules, health, and AI workflows (the directories of src/crates),
    with applications over them (src/apps). This library models the core logic
    of those crates as executable functions and proves what makes it correct.

    ** The parts and how they interact

    A request carries a context (roze-context) through every hop. It is admitted
    by the governance layer (rate limit, breaker, shedding, retry budget:
    roze-resilience) as its configuration says (roze-config), which the guards of
    routes and methods (roze-middleware, roze-rpc), the client's retry loop and
    the consumer loop of the message crate (roze-mq) thread around a handler; an
    idempotent request executes once (roze-middleware). What a service
    publishes goes through the outbox (roze-transaction), whose relay claims
    messages under a lease and publishes them to a broker (roze-mq) as events
    (roze-eventbus); the receiver's inbox drops repetitions. The gateway (roze-gateway)
    puts authentication (roze-auth, roze-jwt), identity headers, the limiter, the
    breaker and the shedder before upstreams of the registry. A client finds its
    peers through a registry and a balancer (roze-rpc), peers say whether they
    are ready (roze-health), and the schema they need is migrated first
    (roze-migration). roze-rate-limit and roze-permission decide on single
    requests. roze-ai runs graphs of nodes, with checkpoints a review can
    interrupt. rozectl compiles contracts written in a language of its own.

    ** The files

    - Prelude.v (this file): machine integers, strings, results, automation and
      the list and map lemmas the components share.
    - Text.v, Scan.v: the [str], [BTreeMap] and UTF-8 operations of the Rust
      library, and its splitting and trimming of text; Float64.v: [f64].
    - Breaker.v, Resilience.v (roze-resilience/src/lib.rs): [BreakerRegistry];
      operation keys, back-off, retry budgets, token buckets, load shedding.
      [breaker_refines_spec] relates the breaker to a three-state contract.
    - Eventbus.v (roze-eventbus/src/lib.rs): envelopes and their headers.
    - Mq.v, Governed.v (roze-mq/src/lib.rs): messages, the in-memory broker with
      acknowledgement, retries, scheduling and dead letters; governed delivery
      over Breaker.v and Resilience.v.
    - Saga.v, Outbox.v, Inbox.v (roze-transaction/src/lib.rs): compensation
      plans; the outbox interface, its in-memory store, the relay; the inbox.
    - Graph.v, Workflow.v, Runner.v (roze-ai/src/compose.rs): graph compilation,
      execution in two modes and as an event stream, checkpointed runs over an
      interface of stores.
    - Balance.v, Registry.v (roze-rpc/src/balance.rs, registry.rs): balancers and
      attempt leases; registries, etcd keys, the caching resolver.
    - Migration.v (roze-migration/src/lib.rs): plans, execution, shards.
    - Permission.v (roze-permission/src/lib.rs): access rules.
    - RateLimit.v (roze-rate-limit/src/lib.rs): request keys, limiter, bucket.
    - Health.v (roze-health/src/lib.rs, roze-rpc/src/health.rs): reports, phases,
      the gRPC health reporter.
    - ApiParser.v (apps/rozectl/src/parser.rs), ApiFormat.v, ApiRound.v, Contract.v
      (apps/rozectl/src/main.rs), Naming.v (generator/mod.rs): the contract
      language, its parser, formatter, validators and comparison of versions.
    - Errors.v (roze-error/src/lib.rs); Policy.v (roze-config/src/lib.rs): the
      governance configuration, its validation and resolution.
    - Context.v, Propagation.v (roze-context/src/context.rs): the request context,
      its shared cells, its transport in headers.
    - Guards.v, GuardLife.v (roze-middleware/src/lib.rs, roze-rpc/src/rpc.rs): the
      guards of routes and methods over Breaker.v and Resilience.v, and the
      executions of many requests; Idempotency.v (roze-middleware/src/lib.rs);
      RpcCall.v (roze-rpc/src/rpc.rs): the client's retry loop.
    - ConfigAdmin.v, ConfigDiff.v, ConfigWatch.v (roze-config/src/config_center.rs):
      signed versions and their rollout; differences, sections and events; the
      watch loop with its debounce.
    - HttpTypes.v (headers and responses, with the http crate's laws as a class);
      Auth.v (roze-auth/src/lib.rs, roze-jwt/src/lib.rs): principals, tokens, API keys,
      OIDC; ClientIp.v (roze-http/src/client_ip.rs): trusted proxies.
    - Cors.v, GatewayRoute.v, GatewayUpstream.v, GatewaySocket.v, GatewayAuth.v,
      GatewayProxy.v, Gateway.v, GatewayTrace.v (roze-gateway/src/lib.rs): the policy of
      origins; validation, routes and matching; instances, ejection, health and
      stream permits; WebSocket handshakes and tunnels; identity headers; one
      request to an upstream; the handler, building and reloading; what a handled
      request does to the states it shares.
    - Async.v: asynchronous calls as resumptions. Flight.v (roze-singleflight/src/lib.rs):
      calls that share one load. Lifecycle.v (roze-service/src/lib.rs, roze-shutdown):
      the life of a service group.
    - Router.v (roze-http/src/router.rs, router/, route_params.rs): routers, nesting,
      merging, fallbacks, method routers and their Allow headers.
    - Agent.v, Team.v, AiRuntime.v, Rag.v (roze-ai/src/schema.rs, model.rs, tool.rs,
      agent.rs, team.rs, runtime.rs, prompt.rs, rag.rs): tools, schemas and the agent's
      loop; teams and delegation; runtimes from configuration; templates, chunks
      and the retrieval pipeline.
    - Kafka.v, KafkaBroker.v (roze-kafka/src/lib.rs): records and their transport,
      recovery of rejected records; the in-memory broker.
    - OpenApi.v, SearchSchema.v, GateDiff.v, Gate.v (rozectl's generator/mod.rs,
      generator/search.rs, gate.rs): the OpenAPI document of a contract; search schemas;
      the release gate, its comparisons and acknowledgements.
    - Jump.v, Shard.v (roze-db/src/lib.rs, roze-config/src/lib.rs): jump consistent
      hashing with its [f64] steps; databases, replicas, shards and their transactions.
    - Query.v (roze-query/src/lib.rs): named calls run at once under a semaphore and two
      timeouts. Job.v (roze-job/src/lib.rs): governed jobs and the job service.

    Definitions carry the names of the source, a method being prefixed by its
    type where the name alone would be taken ([InMemoryOutbox_enqueue]).

    ** What the theorems show

    - Breaker.v, Resilience.v: at most one probe of a half-open breaker is out;
      the breaker implements its contract and trips at its threshold; keys are
      canonical; jitter, budget and shedding stay within their bounds.
    - Eventbus.v, Mq.v, Governed.v: envelopes survive their transport; the broker
      accounts for every delivery, bounds attempts, drops duplicates and sends a
      rejected message again, to its own topic, until it is a dead letter; governed
      delivery releases what it took.
    - Saga.v, Outbox.v, Inbox.v: plans are all or nothing; a relay batch settles
      what it claimed by what the publisher answered, for any lawful store; leases exclude; claims are complete;
      a message is let in once per failure.
    - Graph.v, Workflow.v, Runner.v: exactly the well-formed graphs compile; runs
      never fail on wiring; both modes agree; the stream reports the run;
      checkpoints, interruptions and failures do not change what repeatable nodes
      compute.
    - Balance.v, Registry.v: integer roots are exact, weights are honoured, the
      better of two instances is taken, in-flight counts are exact; discovery is
      scoped and exact, and a cache never hides the registry's last word.
    - Migration.v, Permission.v, RateLimit.v, Health.v: plans are sound and
      complete, migration is atomic and idempotent and a rollback undoes it;
      access rules hold exactly under their conditions; requests share a bucket
      only if the policy says so; readiness is reported exactly when it holds.
    - ApiParser.v to Contract.v: parsing ends; what is formatted parses back; the
      validators accept exactly the sound contracts and the comparison reports
      exactly the breaking changes it defines.
    - Policy.v, Guards.v, GuardLife.v: a valid configuration never degenerates;
      guards account for every slot and probe; a probe the shedder refuses blocks
      its operation for good.
    - ConfigAdmin.v to ConfigWatch.v: what is saved loads again; only permitted calls
      change the active version; differences are exact; a config center keeps the
      last valid snapshot and decides a stable one.
    - Auth.v, ClientIp.v: tokens verify as issued and a provider's only under its keys,
      issuer and audience; a client cannot forge its address.
    - Cors.v and the Gateway files: preflights are answered exactly; the longest route
      wins; shares follow weights; health has hysteresis; streams are counted;
      handshakes read back; and over whole requests, with other requests at every
      await: permits and slots are given back, sends are bounded in number and time,
      only established identities are forwarded, the last accepted configuration
      is in force and its routes are served.
    - Context.v, Propagation.v, RpcCall.v, Idempotency.v: a portable context survives its
      transport and its retry budget is conserved; calls are refused exactly when
      their breaker refuses them and bounded by their budgets and deadline; an execution is exclusive during its lease and its
      response is replayed ever after.
    - Flight.v, Lifecycle.v: calls for one key share one load and all of them are
      served; what a group does to its services is read off its inputs in one go, in
      order ([whole_life]), and the group ends.
    - Router.v: a router is the map of paths and methods it was written as; a nested
      router sees the rest of the path; Allow lists exactly what is served.
    - Agent.v to Rag.v: an agent's run is its rounds and acts by permitted tools only; a
      team's outputs are in the order of its tasks and delegation stays in the team;
      templates render exactly, chunks rebuild their text, answers come from the
      retrieved context.
    - Kafka.v, KafkaBroker.v: records survive the wire; rejected ones end as dead
      letters; the broker's counters and offsets are exact.
    - OpenApi.v to Gate.v: the document has one operation per documented route, its
      references resolve and its making ends; schemas are read as they are meant;
      the gate counts exactly what blocks and is not acknowledged, its comparison
      of contracts is exact, and days are counted by the calendar.
    - Jump.v, Shard.v: the hash is in range, equals its integer reading below 2^22
      buckets, and a new shard takes keys without moving others; a connected database
      routes every key; transactions stay on their shard; replicas take turns.
    - Query.v, Job.v: no more calls run at once than allowed, results are in the order
      of the calls, and a composition ends; jobs settle what they were granted unless
      they are aborted, and start in order.

    ** Conventions

    - Unsigned integers are [N] with their saturating or wrapping operations at
      the width of the type; [i64] is [Z] with its wrap-around. [usize] is 64 bits.
    - [Duration] and [Instant] are nanoseconds; a reading of the clock, a random
      draw and a fresh identifier are arguments of the call that makes them.
    - Shared state ([DashMap], atomics, values under a lock) is passed explicitly.
      A method that holds its lock throughout is one step, so every interleaving
      of threads is a list of calls and the theorems quantify over such lists; a
      method that takes a lock twice is also given as its steps (the registry's
      [deregister]). Objects shared by reference are entries of a store: the
      settlement cells of deliveries, the loads of attempt leases.
    - A Rust [Result] is [result], a panic is [None]; where it cannot happen that
      is proved. [BTreeMap] and [HashMap] are [gmap]; a [BTreeMap] is iterated in
      the order of its keys, a [HashMap] in one order it may choose.
    - An [async] call is a function of the world it acts on, or a resumption ([io] of
      Async.v) that runs among the actions of others at every await. Code outside the
      repository (handlers, nodes, databases, SHA-256, [exp]) is a parameter.

    ** Bounds and fuel

    [layers_loop] has as much fuel as nodes and [bfs_loop] one more than edges:
    every round takes a node, or an edge, that was not taken before
    ([compile_correct]). [sqrt_loop] has 64, one per bit of the interval
    ([integer_sqrt_floor]). [dec_digits] has the binary size of the number. The
    retry loops recurse on the attempts that are left, the parser's loops on the
    number of lines plus one ([parse_api_total]), [jump_loop] on the buckets plus one
    ([jump_in_range]). Counters that would wrap after
    2^64 steps are bounded in the statements that need it.

    ** What is not modelled

    Sockets, HTTP and gRPC transports, database drivers and Redis scripts, task
    spawning and timers, logging and metrics. Within the modelled files: the
    relay's wake-ups, the chunk streams of workflows, the network calls of the
    etcd and Consul registries, the Redis scripts of the rate-limit and
    idempotency stores, the surface report of contract comparison; the tables of
    Unicode case are a parameter. The compare-exchange loop of the latency
    average is one uncontended round.

    Of the gateway: TLS material, the repeated health task and the tunnel without an
    idle timeout, which is tokio's copy.

    Left out as parts: HTTP extractors and tower layers (deserialization and library
    glue), model providers and storage clients (requests to external APIs), the text
    that code generators write, configuration files and remote sources, model
    operations (queries run in drivers), caches and sessions in Redis, cron and worker
    loops, and the exporters. PROJECT.json lists each with its reason. *)

From Stdlib Require Export Lia.
From Stdlib Require Ascii String.
From stdpp Require Export strings base numbers gmap sorting option list.

#[global] Open Scope N_scope.

(** ** Machine integers

    Unsigned Rust integers are [N] together with the width of their type.
    [saturating_sub] is [N.sub], which stops at zero. *)

Abbreviation U32_MAX := 4294967295%N.
Abbreviation U64_MAX := 18446744073709551615%N.
Abbreviation U128_MAX := 340282366920938463463374607431768211455%N.

Definition sat_add (mx a b : N) : N := N.min (a + b) mx.
Definition sat_mul (mx a b : N) : N := N.min (a * b) mx.
Definition sat_pow (mx a b : N) : N := N.min (a ^ b) mx.
Definition wrap (bits a : N) : N := a mod 2 ^ bits.

(** [Duration] is a number of nanoseconds, at most [DURATION_MAX]; an
    [Instant] is a number of nanoseconds since some origin; the difference of
    two instants ([duration_since]) stops at zero. *)
Abbreviation DURATION_MAX := 18446744073709551615999999999%N.
Definition from_secs (s : N) : N := s * 1000000000.
Definition from_millis (ms : N) : N := ms * 1000000.

(** ** Strings

    A Rust [String] or [&str] is the list of its Unicode scalar values. *)
Abbreviation rstr := (list N).

Definition lit (s : String.string) : rstr := Ascii.N_of_ascii <$> String.list_ascii_of_string s.
Arguments lit s%_string.

(** ** Results

    [result E] is a monad over stdpp's [MRet], [MBind] and [FMap], so that
    Rust's [?] reads [x ← r; k]. *)

Inductive result (E A : Type) : Type :=
| Ok (a : A)
| Err (e : E).
Arguments Ok {E A} a.
Arguments Err {E A} e.

#[export] Instance result_eq_dec {E A} `{EqDecision E, EqDecision A} : EqDecision (result E A).
Proof. solve_decision. Defined.
#[export] Instance result_ret {E} : MRet (result E) := λ A a, Ok a.
#[export] Instance result_bind {E} : MBind (result E) := λ A B f r,
  match r with Ok a => f a | Err e => Err e end.
#[export] Instance result_fmap {E} : FMap (result E) := λ A B f r,
  match r with Ok a => Ok (f a) | Err e => Err e end.

Definition is_ok {E A} (r : result E A) : bool :=
  match r with Ok _ => true | Err _ => false end.

(** [Option::ok_or] *)
Definition ok_or {E A} (o : option A) (e : E) : result E A :=
  match o with Some a => Ok a | None => Err e end.

(** [Result::map_err] *)
Definition map_err {E F A} (f : E → F) (r : result E A) : result F A :=
  match r with Ok a => Ok a | Err e => Err (f e) end.

(** Iterators collected into a [Result]: the first error, left to right. *)
Fixpoint collect {E A B} (f : A → result E B) (l : list A) : result E (list B) :=
  match l with
  | [] => Ok []
  | a :: l' => b ← f a; bs ← collect f l'; Ok (b :: bs)
  end.

Lemma bind_Ok {E A B} (r : result E A) (f : A → result E B) b : r ≫= f = Ok b → ∃ a, r = Ok a ∧ f a = Ok b.
Proof. destruct r as [a|]; [by exists a|done]. Qed.

Lemma collect_Forall2 {E A B} (f : A → result E B) l bs : collect f l = Ok bs → Forall2 (λ a b, f a = Ok b) l bs.
Proof.
  revert bs. induction l as [|a l IH]; cbn; intros bs.
  - intros [= <-]. constructor.
  - intros (b & Hb & (bs' & Hbs & [= <-])%bind_Ok)%bind_Ok. constructor; [done|by apply IH].
Qed.

(** ** Automation *)

Create HintDb roze.

(** Case analysis on the booleans and options a handler's guards branch on. *)
Ltac split_guard :=
  match goal with
  | |- context [if ?b then _ else _] => let H := fresh "Hg" in destruct b eqn:H
  | |- context [match ?x with _ => _ end] => let H := fresh "Hg" in destruct x eqn:H
  end.

(** Turn the comparisons of [N] a guard evaluated into propositions. *)
Ltac guard_prop :=
  repeat match goal with
  | H : (_ <? _)%N = true |- _ => apply N.ltb_lt in H
  | H : (_ <? _)%N = false |- _ => apply N.ltb_ge in H
  | H : (_ <=? _)%N = true |- _ => apply N.leb_le in H
  | H : (_ <=? _)%N = false |- _ => apply N.leb_gt in H
  | H : (_ =? _)%N = true |- _ => apply N.eqb_eq in H
  | H : (_ =? _)%N = false |- _ => apply N.eqb_neq in H
  | H : _ && _ = true |- _ => apply andb_true_iff in H as [? ?]
  | H : _ || _ = false |- _ => apply orb_false_iff in H as [? ?]
  | H : negb _ = true |- _ => apply negb_true_iff in H
  | H : negb _ = false |- _ => apply negb_false_iff in H
  | H : bool_decide _ = true |- _ => apply bool_decide_eq_true in H
  | H : bool_decide _ = false |- _ => apply bool_decide_eq_false in H
  end.

(** Decide a closed proposition by evaluation. *)
Ltac decide_closed := refine (bool_decide_unpack _ _); vm_compute; exact I.

(** Linear arithmetic over the quotients and remainders by constants in a goal:
    each pair is replaced by two numbers with their defining equation. *)
Ltac name_div a b :=
  let Hd := fresh "Hd" in let Hm := fresh "Hm" in let q := fresh "q" in let r := fresh "r" in
  pose proof (N.div_mod a b ltac:(done)) as Hd; pose proof (N.mod_lt a b ltac:(done)) as Hm;
  set (q := N.div a b) in *; set (r := N.modulo a b) in *; clearbody q r.
Ltac div_lia :=
  repeat match goal with
  | |- context [N.div ?a ?b] => name_div a b
  | |- context [N.modulo ?a ?b] => name_div a b
  | _ : context [N.div ?a ?b] |- _ => name_div a b
  | _ : context [N.modulo ?a ?b] |- _ => name_div a b
  end; lia.

(** Unfold the saturating arithmetic and close by linear arithmetic. *)
Ltac sat_lia := unfold sat_add, sat_mul, from_secs, from_millis in *; lia.

(** ** Saturating arithmetic *)

Lemma sat_add_le mx a b : sat_add mx a b ≤ mx.
Proof. unfold sat_add. lia. Qed.
Lemma sat_mul_le mx a b : sat_mul mx a b ≤ mx.
Proof. unfold sat_mul. lia. Qed.
Lemma sat_pow_le mx a b : sat_pow mx a b ≤ mx.
Proof. unfold sat_pow. lia. Qed.
Lemma sat_add_small mx a b : a + b ≤ mx → sat_add mx a b = a + b.
Proof. unfold sat_add. lia. Qed.
Lemma sat_mul_mono_l mx a a' b : a ≤ a' → sat_mul mx a b ≤ sat_mul mx a' b.
Proof. intros Ha. pose proof (N.mul_le_mono_r a a' b Ha). unfold sat_mul. lia. Qed.
Lemma sat_mul_mono_r mx a b b' : b ≤ b' → sat_mul mx a b ≤ sat_mul mx a b'.
Proof. intros Hb. pose proof (N.mul_le_mono_l b b' a Hb). unfold sat_mul. lia. Qed.
#[export] Hint Resolve sat_add_le sat_mul_le sat_pow_le : roze.

(** ** Maps *)

(** [if let Some(x) = map.get_mut(k) { *x = f(x) }] *)
Lemma alter_get_mut `{Countable K} {A} (f : A → A) (m : gmap K A) k :
  alter f k m = match m !! k with Some x => <[k := f x]> m | None => m end.
Proof.
  apply map_eq. intros j. destruct (decide (k = j)) as [<-|Hne].
  - rewrite lookup_alter_eq. destruct (m !! k) eqn:E; simpl; by rewrite ?lookup_insert_eq, ?E.
  - rewrite lookup_alter_ne by done. destruct (m !! k); by rewrite ?lookup_insert_ne.
Qed.

(** ** Lists *)

Lemma existsb_elem_of {A} (f : A → bool) l : existsb f l = true ↔ ∃ x, x ∈ l ∧ f x = true.
Proof.
  induction l as [|y l IH]; simpl; [split; [done|]; by intros (x & Hx%not_elem_of_nil & _)|].
  rewrite orb_true_iff, IH. setoid_rewrite elem_of_cons. naive_solver.
Qed.

(** [iter.find_map(f)] *)
Fixpoint find_map {A B} (f : A → option B) (l : list A) : option B :=
  match l with
  | [] => None
  | a :: l' => match f a with Some b => Some b | None => find_map f l' end
  end.

Lemma find_map_Some {A B} (f : A → option B) l b : find_map f l = Some b → ∃ a, a ∈ l ∧ f a = Some b.
Proof.
  induction l as [|a l IH]; simpl; [done|]. destruct (f a) eqn:E.
  - intros [= <-]. exists a. by split; [left|].
  - intros (a' & ? & ?)%IH. exists a'. by split; [right|].
Qed.

(** How many elements satisfy a decidable predicate. *)
Definition countp {A} (P : A → Prop) `{∀ x, Decision (P x)} (l : list A) : nat :=
  length (filter P l).

Section countp.
Context {A : Type} (P : A → Prop) `{∀ x, Decision (P x)}.

Lemma countp_nil : countp P [] = 0%nat.
Proof. done. Qed.

Lemma countp_cons x l : countp P (x :: l) = ((if decide (P x) then 1 else 0) + countp P l)%nat.
Proof. unfold countp. rewrite filter_cons. by destruct (decide (P x)). Qed.

Lemma countp_app l1 l2 : countp P (l1 ++ l2) = (countp P l1 + countp P l2)%nat.
Proof. unfold countp. by rewrite filter_app, length_app. Qed.

Lemma countp_le l : (countp P l ≤ length l)%nat.
Proof. apply length_filter. Qed.

Lemma countp_pos l : (0 < countp P l)%nat ↔ ∃ x, x ∈ l ∧ P x.
Proof.
  induction l as [|y l IH].
  - split; [unfold countp; simpl; lia|]. by intros (x & Hx%not_elem_of_nil & _).
  - rewrite countp_cons. setoid_rewrite elem_of_cons. destruct (decide (P y)) as [Hy|Hy].
    + split; [eauto|lia].
    + rewrite Nat.add_0_l, IH. naive_solver.
Qed.

Lemma countp_zero l : countp P l = 0%nat ↔ ∀ x, x ∈ l → ¬ P x.
Proof.
  pose proof (countp_pos l) as Hp. split.
  - intros H0 x Hx HP. assert (0 < countp P l)%nat by (apply Hp; eauto). lia.
  - intros Hn. destruct (countp P l) eqn:E; [done|]. destruct Hp as [(x & Hx & HP) _]; [lia|].
    by destruct (Hn x).
Qed.
End countp.

Lemma countp_ext {A} (P Q : A → Prop) `{∀ x, Decision (P x), ∀ x, Decision (Q x)} l :
  (∀ x, x ∈ l → P x ↔ Q x) → countp P l = countp Q l.
Proof.
  induction l as [|x l IH]; intros Hl; [done|]. rewrite !countp_cons, IH.
  - assert (P x ↔ Q x) by (apply Hl; by left). repeat case_decide; tauto.
  - intros y Hy. apply Hl. by right.
Qed.
