(* ===== verification/Text.v ===== *)
(** * Strings and ordered maps of the Rust standard library

    The [str], [char] and [BTreeMap] operations the modelled crates call. A
    string is the list of its Unicode scalar values ([Prelude.rstr]); a
    [BTreeMap<String, V>] is a [gmap] whose iteration order is the ascending
    order of its keys ([btree_iter]). UTF-8 preserves the order of scalar
    values, so comparing the lists lexicographically is comparing the byte
    strings, as Rust does. *)

From S2P Require Import Prelude.

(** ** [char] *)

Definition is_ascii_lowercase (c : N) : bool := (97 <=? c) && (c <=? 122).
Definition is_ascii_uppercase (c : N) : bool := (65 <=? c) && (c <=? 90).
Definition is_ascii_digit (c : N) : bool := (48 <=? c) && (c <=? 57).
Definition is_ascii_alphanumeric (c : N) : bool :=
  is_ascii_lowercase c || is_ascii_uppercase c || is_ascii_digit c.
Definition to_ascii_lowercase (c : N) : N := if is_ascii_uppercase c then c + 32 else c.

(** The Unicode property [White_Space]. *)
Definition is_whitespace (c : N) : bool :=
  ((9 <=? c) && (c <=? 13)) || (c =? 32) || (c =? 133) || (c =? 160) || (c =? 5760)
  || ((8192 <=? c) && (c <=? 8202)) || (c =? 8232) || (c =? 8233) || (c =? 8239)
  || (c =? 8287) || (c =? 12288).

(** ** [str] *)

Section drop_while.
Context {A : Type} (p : A → bool).

Fixpoint drop_while (l : list A) : list A :=
  match l with
  | [] => []
  | x :: l' => if p x then drop_while l' else l
  end.

Definition trim_start_matches (l : list A) : list A := drop_while l.
Definition trim_end_matches (l : list A) : list A := reverse (drop_while (reverse l)).
Definition trim_matches (l : list A) : list A := trim_end_matches (trim_start_matches l).

Lemma drop_while_suffix l : ∃ k, l = k ++ drop_while l ∧ Forall (λ x, p x = true) k.
Proof.
  induction l as [|x l [k [Hk HF]]]; simpl; [by exists []|].
  destruct (p x) eqn:Hx.
  - exists (x :: k). simpl. split; [by f_equal | by constructor].
  - by exists [].
Qed.

Lemma drop_while_head x l l' : drop_while l = x :: l' → p x = false.
Proof.
  induction l as [|y l IH]; simpl; [done|].
  destruct (p y) eqn:Hy; [done|]. by intros [= -> ->].
Qed.

Lemma drop_while_id l : (∀ x l', l = x :: l' → p x = false) → drop_while l = l.
Proof. destruct l as [|x l]; simpl; [done|]. intros H. by rewrite (H x l). Qed.

Lemma trim_end_prefix l : ∃ k, l = trim_end_matches l ++ k ∧ Forall (λ x, p x = true) k.
Proof.
  unfold trim_end_matches.
  destruct (drop_while_suffix (reverse l)) as [k [Hk HF]].
  exists (reverse k). split; [|by apply Forall_reverse].
  rewrite <- (reverse_involutive l) at 1. rewrite Hk at 1. by rewrite reverse_app.
Qed.

Lemma trim_matches_infix l : ∃ k1 k2, l = k1 ++ trim_matches l ++ k2.
Proof.
  unfold trim_matches, trim_start_matches.
  destruct (drop_while_suffix l) as [k1 [H1 _]].
  destruct (trim_end_prefix (drop_while l)) as [k2 [H2 _]].
  exists k1, k2. rewrite <- H2. done.
Qed.

Lemma trim_matches_head x l l' : trim_matches l = x :: l' → p x = false.
Proof.
  unfold trim_matches, trim_start_matches. intros H.
  destruct (trim_end_prefix (drop_while l)) as [k [Hk _]].
  rewrite H in Hk. simpl in Hk. by eapply drop_while_head.
Qed.

Lemma trim_matches_last x l l' : trim_matches l = l' ++ [x] → p x = false.
Proof.
  unfold trim_matches, trim_end_matches. intros H.
  apply (f_equal reverse) in H. rewrite reverse_involutive, reverse_snoc in H.
  by eapply drop_while_head.
Qed.

Lemma trim_matches_Forall (P : A → Prop) l : Forall P l → Forall P (trim_matches l).
Proof.
  intros HF. destruct (trim_matches_infix l) as (k1 & k2 & Hl). rewrite Hl in HF.
  by apply Forall_app in HF as [_ [HF _]%Forall_app].
Qed.

Lemma trim_matches_length l : (length (trim_matches l) ≤ length l)%nat.
Proof.
  destruct (trim_matches_infix l) as (k1 & k2 & Hl).
  rewrite Hl at 2. rewrite !length_app. lia.
Qed.

(** Trimming is idempotent: what neither starts nor ends with a match stays. *)
Lemma trim_matches_id l :
  (∀ x l', l = x :: l' → p x = false) → (∀ x l', l = l' ++ [x] → p x = false) →
  trim_matches l = l.
Proof.
  intros Hh Hl. unfold trim_matches, trim_end_matches, trim_start_matches.
  rewrite (drop_while_id l Hh), drop_while_id; [by rewrite reverse_involutive|].
  intros x l' Heq. apply (Hl x (reverse l')).
  apply (f_equal reverse) in Heq. by rewrite reverse_involutive, reverse_cons in Heq.
Qed.
End drop_while.

Definition trim (s : rstr) : rstr := trim_matches is_whitespace s.

(** [str::to_ascii_lowercase] *)
Definition str_to_ascii_lowercase (s : rstr) : rstr := to_ascii_lowercase <$> s.

(** [str::strip_prefix] *)
Fixpoint strip_prefix (pre s : rstr) : option rstr :=
  match pre, s with
  | [], _ => Some s
  | x :: pre', y :: s' => if x =? y then strip_prefix pre' s' else None
  | _ :: _, [] => None
  end.

Definition starts_with (pre s : rstr) : bool :=
  match strip_prefix pre s with Some _ => true | None => false end.

Lemma strip_prefix_Some pre s r : strip_prefix pre s = Some r ↔ s = pre ++ r.
Proof.
  revert s. induction pre as [|x pre IH]; intros s; simpl; [naive_solver|].
  destruct s as [|y s]; [naive_solver|].
  destruct (N.eqb_spec x y) as [->|Hne]; [rewrite IH; naive_solver | naive_solver].
Qed.

(** ** Ordering of strings *)

Fixpoint str_leb (a b : rstr) : bool :=
  match a, b with
  | [], _ => true
  | _ :: _, [] => false
  | x :: a', y :: b' => if x =? y then str_leb a' b' else x <? y
  end.

Definition str_le (a b : rstr) : Prop := str_leb a b = true.

#[export] Instance str_le_dec : RelDecision str_le.
Proof. intros a b. unfold str_le. apply _. Defined.

#[export] Instance str_le_refl : Reflexive str_le.
Proof. intros a. unfold str_le. induction a as [|x a IH]; simpl; [done|]. by rewrite N.eqb_refl. Qed.

#[export] Instance str_le_total : Total str_le.
Proof.
  intros a. unfold str_le. induction a as [|x a IH]; intros [|y b]; simpl; auto.
  rewrite (N.eqb_sym y x). destruct (N.eqb_spec x y); [apply IH|]. rewrite !N.ltb_lt. lia.
Qed.

#[export] Instance str_le_antisymm : AntiSymm (=) str_le.
Proof.
  intros a. unfold str_le. induction a as [|x a IH]; intros [|y b]; simpl; try done.
  rewrite (N.eqb_sym y x). destruct (N.eqb_spec x y) as [->|]; [|rewrite !N.ltb_lt; lia].
  intros H1 H2. f_equal. by apply IH.
Qed.

#[export] Instance str_le_trans : Transitive str_le.
Proof.
  intros a. unfold str_le. induction a as [|x a IH]; intros [|y b] [|z c]; simpl; try done.
  destruct (N.eqb_spec x y) as [->|]; destruct (N.eqb_spec y z) as [->|]; simpl.
  - apply IH.
  - by rewrite N.ltb_lt.
  - intros Hlt _. destruct (N.eqb_spec x z); [done|]. done.
  - rewrite !N.ltb_lt. intros H1 H2. destruct (N.eqb_spec x z); [lia|]. by rewrite N.ltb_lt; lia.
Qed.

(** ** [BTreeMap] and [BTreeSet] iteration *)

Definition btree_keys {V} (m : gmap rstr V) : list rstr :=
  merge_sort str_le (fst <$> map_to_list m).

Definition btree_iter {V} (m : gmap rstr V) : list (rstr * V) :=
  omap (λ k, pair k <$> m !! k) (btree_keys m).

Definition btree_values {V} (m : gmap rstr V) : list V := snd <$> btree_iter m.

Definition bset_iter (s : gset rstr) : list rstr := merge_sort str_le (elements s).

Lemma elem_of_btree_keys {V} (m : gmap rstr V) k : k ∈ btree_keys m ↔ is_Some (m !! k).
Proof.
  unfold btree_keys. rewrite merge_sort_Permutation, list_elem_of_fmap. split.
  - intros ((k' & v) & -> & H%elem_of_map_to_list). by exists v.
  - intros [v Hv]. exists (k, v). split; [done|]. by apply elem_of_map_to_list.
Qed.

Lemma NoDup_btree_keys {V} (m : gmap rstr V) : NoDup (btree_keys m).
Proof. unfold btree_keys. rewrite merge_sort_Permutation. apply NoDup_fst_map_to_list. Qed.

Lemma btree_keys_sorted {V} (m : gmap rstr V) : StronglySorted str_le (btree_keys m).
Proof. apply StronglySorted_merge_sort; apply _. Qed.

Lemma StronglySorted_sublist {A} (R : relation A) l1 l2 :
  l1 `sublist_of` l2 → StronglySorted R l2 → StronglySorted R l1.
Proof.
  induction 1 as [|x l1 l2 Hsub IH|x l1 l2 Hsub IH]; [done|..]; intros [HS HF]%StronglySorted_inv.
  - constructor; [by apply IH|]. rewrite Forall_forall in HF |- *. intros y Hy.
    apply HF. by eapply elem_of_sublist.
  - by apply IH.
Qed.

Lemma btree_keys_length {V} (m : gmap rstr V) : length (btree_keys m) = size m.
Proof. unfold btree_keys. by rewrite merge_sort_Permutation, length_fmap, length_map_to_list. Qed.

Lemma elem_of_bset_iter (s : gset rstr) k : k ∈ bset_iter s ↔ k ∈ s.
Proof. unfold bset_iter. by rewrite merge_sort_Permutation, elem_of_elements. Qed.

Lemma NoDup_bset_iter (s : gset rstr) : NoDup (bset_iter s).
Proof. unfold bset_iter. rewrite merge_sort_Permutation. apply NoDup_elements. Qed.

Lemma length_bset_iter (s : gset rstr) : length (bset_iter s) = size s.
Proof. unfold bset_iter. by rewrite merge_sort_Permutation. Qed.

(** [Vec::dedup] *)
Fixpoint dedup (l : list rstr) : list rstr :=
  match l with
  | x :: ((y :: _) as l') => if bool_decide (x = y) then dedup l' else x :: dedup l'
  | _ => l
  end.

Lemma elem_of_dedup k l : k ∈ dedup l ↔ k ∈ l.
Proof.
  induction l as [|x [|y l] IH]; [done..|]. cbn [dedup] in *. case_bool_decide as Hxy.
  - rewrite IH, (elem_of_cons (y :: l)). subst. split; [auto|]. intros [->|?]; [by left|done].
  - by rewrite !elem_of_cons, IH, elem_of_cons.
Qed.

Lemma dedup_sublist l : dedup l `sublist_of` l.
Proof.
  induction l as [|x [|y l] IH]; [done..|]. cbn [dedup] in *. case_bool_decide; [by apply sublist_cons|by apply sublist_skip].
Qed.

Lemma NoDup_dedup l : StronglySorted str_le l → NoDup (dedup l).
Proof.
  induction l as [|x [|y l] IH]; [by intros; constructor|by intros; cbn; apply NoDup_singleton|].
  intros [HS HF]%StronglySorted_inv. change (dedup (x :: y :: l)) with (if bool_decide (x = y) then dedup (y :: l) else x :: dedup (y :: l)).
  case_bool_decide as Hxy; [by apply IH|]. constructor; [|by apply IH]. rewrite elem_of_dedup, elem_of_cons. intros [->|Hx]; [done|]. apply StronglySorted_inv in HS as [_ HS]. rewrite Forall_forall in HS, HF.
  apply Hxy, (anti_symm str_le); [apply HF; by left|by apply HS].
Qed.

(** Sorting and removing repeats enumerates the set. *)
Lemma dedup_sort l : dedup (merge_sort str_le l) = bset_iter (list_to_set l).
Proof.
  assert (StronglySorted str_le (merge_sort str_le l)) as HS by (apply StronglySorted_merge_sort; apply _).
  apply (StronglySorted_unique str_le).
  - eapply StronglySorted_sublist; [apply dedup_sublist|done].
  - apply StronglySorted_merge_sort; apply _.
  - apply NoDup_Permutation; [by apply NoDup_dedup|apply NoDup_bset_iter|].
    intros k. by rewrite elem_of_dedup, merge_sort_Permutation, elem_of_bset_iter, elem_of_list_to_set.
Qed.

(** Two sorted enumerations of the same keys are the same list. *)
Lemma btree_keys_unique {V W : Type} (m1 : gmap rstr V) (m2 : gmap rstr W) :
  (∀ k, is_Some (m1 !! k) ↔ is_Some (m2 !! k)) → btree_keys m1 = btree_keys m2.
Proof.
  intros H. apply (StronglySorted_unique str_le); [apply btree_keys_sorted..|].
  apply NoDup_Permutation; [apply NoDup_btree_keys..|].
  intros k. by rewrite !elem_of_btree_keys.
Qed.

Lemma elem_of_btree_iter {V} (m : gmap rstr V) k v : (k, v) ∈ btree_iter m ↔ m !! k = Some v.
Proof.
  unfold btree_iter. rewrite list_elem_of_omap. split.
  - intros (k' & _ & H). destruct (m !! k') eqn:E; simplify_eq/=. done.
  - intros H. exists k. rewrite elem_of_btree_keys, H. simpl. eauto.
Qed.

Lemma btree_iter_keys {V} (m : gmap rstr V) : (btree_iter m).*1 = btree_keys m.
Proof.
  unfold btree_iter. assert (∀ k, k ∈ btree_keys m → is_Some (m !! k)) as H
    by (intros k; apply elem_of_btree_keys).
  induction (btree_keys m) as [|k ks IH]; [done|]. cbn.
  destruct (H k) as [v Hv]; [by left|]. rewrite Hv. cbn. f_equal. apply IH. intros. apply H. by right.
Qed.

Lemma btree_iter_empty {V} : btree_iter (∅ : gmap rstr V) = [].
Proof. reflexivity. Qed.


(** ** Decimal integers *)

(** [to_string] of an unsigned integer: the decimal digits, most significant
    first. [N.size_nat n] digits are always enough. *)
Fixpoint dec_digits (fuel : nat) (n : N) (acc : rstr) : rstr :=
  match fuel with
  | O => acc
  | S fuel' =>
      let acc' := (48 + n mod 10) :: acc in
      if n / 10 =? 0 then acc' else dec_digits fuel' (n / 10) acc'
  end.

Definition dec (n : N) : rstr := dec_digits (S (N.size_nat n)) n [].

(** [to_string] of a signed integer. *)
Definition dec_Z (z : Z) : rstr :=
  if (z <? 0)%Z then 45 :: dec (Z.abs_N z) else dec (Z.abs_N z).

Definition digits_value (s : rstr) (acc : N) : option N :=
  foldl (λ acc c, a ← acc; if is_ascii_digit c then Some (10 * a + (c - 48)) else None) (Some acc) s.

(** [str::parse::<uN>()]: an optional [+], at least one digit, only digits, and
    a value of at most [mx]. *)
Definition parse_uint (mx : N) (s : rstr) : option N :=
  let s := match s with 43 :: s' => s' | _ => s end in
  match s with
  | [] => None
  | _ => v ← digits_value s 0; if v <=? mx then Some v else None
  end.

Definition I64_MIN : Z := -9223372036854775808.
Definition I64_MAX : Z := 9223372036854775807.

(** [str::parse::<i64>] *)
Definition parse_i64 (s : rstr) : option Z :=
  match s with
  | 45 :: s' => match s' with
                | [] => None
                | _ => v ← digits_value s' 0;
                       if bool_decide (I64_MIN ≤ - Z.of_N v)%Z then Some (- Z.of_N v)%Z else None
                end
  | _ => Z.of_N <$> parse_uint (Z.to_N I64_MAX) s
  end.

Lemma digits_value_app s1 s2 acc :
  digits_value (s1 ++ s2) acc = v ← digits_value s1 acc; digits_value s2 v.
Proof.
  unfold digits_value. rewrite foldl_app. destruct (foldl _ (Some acc) s1) as [v|]; [done|].
  simpl. induction s2 as [|c s2 IH]; [done|]. exact IH.
Qed.

Lemma digit_ok d : d < 10 → is_ascii_digit (48 + d) = true.
Proof. intros. unfold is_ascii_digit. apply andb_true_iff. rewrite !N.leb_le. lia. Qed.

Lemma dec_digits_spec fuel n acc :
  n < 10 ^ N.of_nat fuel → (0 < fuel)%nat →
  ∃ ds, dec_digits fuel n acc = ds ++ acc ∧ ds ≠ [] ∧
        Forall (λ c, is_ascii_digit c = true) ds ∧ digits_value ds 0 = Some n.
Proof.
  revert n acc. induction fuel as [|fuel IH]; intros n acc Hn Hf; [lia|]. cbn [dec_digits].
  assert (n mod 10 < 10) as Hm by (by apply N.mod_lt).
  pose proof (N.Div0.div_mod n 10) as Hdm.
  destruct (N.eqb_spec (n / 10) 0) as [H0|H0].
  - exists [48 + n mod 10]. split_and!; [done..| |].
    + constructor; [by apply digit_ok | constructor].
    + unfold digits_value. cbn [foldl mbind option_bind]. rewrite digit_ok by done. f_equal. lia.
  - rewrite Nat2N.inj_succ, N.pow_succ_r' in Hn.
    assert (n / 10 < 10 ^ N.of_nat fuel) as Hd by (apply N.Div0.div_lt_upper_bound; lia).
    destruct fuel as [|fuel]; [change (10 ^ N.of_nat 0) with 1 in Hd; lia|].
    destruct (IH (n / 10) (48 + n mod 10 :: acc) Hd) as (ds & -> & Hne & HF & Hv); [lia|].
    exists (ds ++ [48 + n mod 10]). split_and!.
    + by rewrite <- app_assoc.
    + by destruct ds.
    + apply Forall_app; split; [done|]. constructor; [by apply digit_ok | constructor].
    + rewrite digits_value_app, Hv. unfold digits_value. cbn [foldl mbind option_bind].
      rewrite digit_ok by done. f_equal. clear -Hdm. generalize dependent (n `mod` 10). generalize (n `div` 10). lia.
Qed.

Lemma dec_spec n :
  dec n ≠ [] ∧ Forall (λ c, is_ascii_digit c = true) (dec n) ∧ digits_value (dec n) 0 = Some n.
Proof.
  unfold dec. destruct (dec_digits_spec (S (N.size_nat n)) n []) as (ds & -> & Hne & HF & Hv); [|lia|].
  - assert (n < 2 ^ N.of_nat (N.size_nat n)) as H2.
    { assert (N.of_nat (N.size_nat n) = N.size n) as ->; [|apply N.size_gt].
      destruct n as [|p]; [done|]. simpl.
      induction p as [p IH|p IH|]; [..|done]; cbn -[N.of_nat]; by rewrite Nat2N.inj_succ, IH. }
    rewrite Nat2N.inj_succ, N.pow_succ_r'.
    assert (2 ^ N.of_nat (N.size_nat n) ≤ 10 ^ N.of_nat (N.size_nat n)) by (apply N.pow_le_mono_l; lia).
    lia.
  - by rewrite app_nil_r.
Qed.

Lemma dec_inj m n : dec m = dec n → m = n.
Proof.
  intros Heq. destruct (dec_spec m) as (_ & _ & Hm). destruct (dec_spec n) as (_ & _ & Hn).
  rewrite Heq in Hm. congruence.
Qed.

(** Parsing what was printed gives the integer back. *)
Lemma parse_uint_dec mx n : n ≤ mx → parse_uint mx (dec n) = Some n.
Proof.
  intros Hn. destruct (dec_spec n) as (Hne & HF & Hv). unfold parse_uint.
  destruct (dec n) as [|c s] eqn:E; [done|].
  assert (match c :: s with 43 :: s' => s' | _ => c :: s end = c :: s) as ->.
  { inversion HF as [|? ? Hc]; subst. unfold is_ascii_digit in Hc. guard_prop.
    destruct (N.eq_dec c 43) as [->|Hc43]; [lia|].
    destruct c as [|p]; [done|]. do 7 (destruct p as [p|p|]; try done). }
  rewrite Hv. simpl. by rewrite (proj2 (N.leb_le _ _) Hn).
Qed.

(** ** UTF-8 *)

(** [str::as_bytes]: the UTF-8 encoding. *)
Definition utf8_char (c : N) : list N :=
  if c <? 128 then [c]
  else if c <? 2048 then [192 + c / 64; 128 + c mod 64]
  else if c <? 65536 then [224 + c / 4096; 128 + (c / 64) mod 64; 128 + c mod 64]
  else [240 + c / 262144; 128 + (c / 4096) mod 64; 128 + (c / 64) mod 64; 128 + c mod 64].
Definition as_bytes (s : rstr) : list N := s ≫= utf8_char.

Definition is_bytes (l : list N) : Prop := Forall (λ b, b < 256) l.

Definition valid_str (s : rstr) : Prop := Forall (λ c, c < 1114112) s.

Lemma utf8_char_bytes c : c < 1114112 → is_bytes (utf8_char c).
Proof.
  intros Hc. unfold utf8_char, is_bytes. repeat case_match; guard_prop;
    repeat (apply Forall_cons; split); try apply Forall_nil; try done; div_lia.
Qed.

Lemma as_bytes_app s t : as_bytes (s ++ t) = as_bytes s ++ as_bytes t.
Proof. apply bind_app. Qed.

Lemma as_bytes_is_bytes s : valid_str s → is_bytes (as_bytes s).
Proof.
  induction 1 as [|c s Hc _ IH]; [by apply Forall_nil|]. unfold as_bytes. rewrite bind_cons.
  apply Forall_app. split; [by apply utf8_char_bytes|done].
Qed.

Lemma utf8_char_ascii c d : d < 128 → d ∈ utf8_char c → c = d.
Proof.
  unfold utf8_char. intros Hd. repeat case_match; guard_prop;
    rewrite ?elem_of_cons, ?elem_of_nil; intros Hin;
    repeat destruct Hin as [Hin|Hin]; try done; div_lia.
Qed.

(** An ASCII byte of the encoding is that character. *)
Lemma as_bytes_ascii s d : d < 128 → d ∈ as_bytes s → d ∈ s.
Proof.
  unfold as_bytes. intros Hd. rewrite list_elem_of_bind. intros (c & Hc & Hin).
  apply utf8_char_ascii in Hc; [|done]. by subst.
Qed.

Lemma utf8_char_inj c c' r r' :
  c < 1114112 → c' < 1114112 → utf8_char c ++ r = utf8_char c' ++ r' → c = c' ∧ r = r'.
Proof.
  intros Hc Hc'. unfold utf8_char. repeat case_match; guard_prop; simpl; intros Heq; injection Heq; intros;
    try (exfalso; clear Heq; div_lia); (split; [clear Heq; div_lia|done]).
Qed.

Lemma as_bytes_inj s t : valid_str s → valid_str t → as_bytes s = as_bytes t → s = t.
Proof.
  intros Hs. revert t. induction Hs as [|c s Hc Hs IH]; intros [|d t] Ht; unfold as_bytes;
    rewrite ?bind_cons; [done|..].
  - intros Heq. unfold utf8_char in Heq. by repeat case_match.
  - intros Heq. unfold utf8_char in Heq. by repeat case_match.
  - apply Forall_cons in Ht as [Hd Ht]. intros Heq.
    apply utf8_char_inj in Heq as [-> Heq]; [|done..]. f_equal. by apply IH.
Qed.

(** [str::from_utf8]: the well-formed sequences of the Unicode standard. *)
Definition continuation (b : N) : bool := (128 <=? b) && (b <? 192).
Fixpoint from_utf8 (l : list N) : option rstr :=
  match l with
  | [] => Some []
  | b0 :: l0 =>
      if b0 <? 128 then cons b0 <$> from_utf8 l0
      else
        match l0 with
        | b1 :: l1 =>
            if negb (continuation b1) then None
            else if (194 <=? b0) && (b0 <? 224) then cons ((b0 - 192) * 64 + (b1 - 128)) <$> from_utf8 l1
            else
              match l1 with
              | b2 :: l2 =>
                  if negb (continuation b2) then None
                  else if (224 <=? b0) && (b0 <? 240)
                  then let c := (b0 - 224) * 4096 + (b1 - 128) * 64 + (b2 - 128) in
                       if (c <? 2048) || ((55296 <=? c) && (c <? 57344)) then None else cons c <$> from_utf8 l2
                  else
                    match l2 with
                    | b3 :: l3 =>
                        if negb (continuation b3) then None
                        else if (240 <=? b0) && (b0 <? 245)
                        then let c := (b0 - 240) * 262144 + (b1 - 128) * 4096 + (b2 - 128) * 64 + (b3 - 128) in
                             if (c <? 65536) || (1114112 <=? c) then None else cons c <$> from_utf8 l3
                        else None
                    | [] => None
                    end
              | [] => None
              end
        | [] => None
        end
  end.

(** The characters of a string are scalar values. *)
Definition scalar (c : N) : Prop := c < 55296 ∨ 57344 ≤ c < 1114112.
Definition text_ok (s : rstr) : Prop := Forall scalar s.

(** Evaluate the comparisons of a goal by linear arithmetic. *)
Ltac compare :=
  repeat match goal with
  | |- context [N.leb ?a ?b] =>
      first [rewrite (proj2 (N.leb_le a b)) by div_lia | rewrite (proj2 (N.leb_gt a b)) by div_lia]
  | |- context [N.ltb ?a ?b] =>
      first [rewrite (proj2 (N.ltb_lt a b)) by div_lia | rewrite (proj2 (N.ltb_ge a b)) by div_lia]
  end; cbn [andb orb negb].

Lemma from_utf8_char c l : scalar c → from_utf8 (utf8_char c ++ l) = cons c <$> from_utf8 l.
Proof.
  intros Hc. unfold utf8_char, scalar in *. destruct (N.ltb_spec c 128) as [H1|H1]; cbn [app from_utf8].
  { by compare. }
  destruct (N.ltb_spec c 2048) as [H2|H2]; cbn [app from_utf8]; unfold continuation.
  { compare. do 2 f_equal. div_lia. }
  assert (c / 4096 = c / 64 / 64) as H4 by by rewrite N.Div0.div_div.
  destruct (N.ltb_spec c 65536) as [H3|H3]; cbn [app from_utf8]; unfold continuation; rewrite H4.
  - replace ((224 + c / 64 / 64 - 224) * 4096 + (128 + (c / 64) mod 64 - 128) * 64 + (128 + c mod 64 - 128)) with c by div_lia.
    compare. by rewrite (proj2 (andb_false_iff _ _)) by (rewrite N.leb_gt, N.ltb_ge; lia).
  - assert (c / 262144 = c / 64 / 64 / 64) as H5 by by rewrite !N.Div0.div_div. rewrite H5.
    replace ((240 + c / 64 / 64 / 64 - 240) * 262144 + (128 + (c / 64 / 64) mod 64 - 128) * 4096 +
      (128 + (c / 64) mod 64 - 128) * 64 + (128 + c mod 64 - 128)) with c by div_lia.
    compare. done.
Qed.

(** Decoding gives back what was encoded. *)
Lemma from_utf8_bytes s : text_ok s → from_utf8 (as_bytes s) = Some s.
Proof.
  induction 1 as [|c s Hc _ IH]; [done|]. unfold as_bytes. rewrite bind_cons.
  rewrite from_utf8_char by done. fold (as_bytes s). by rewrite IH.
Qed.

(** What stands before the first occurrence of a separator. *)
Lemma split_at_first {A} (x : A) (a b r s : list A) :
  x ∉ a → x ∉ b → a ++ x :: r = b ++ x :: s → a = b.
Proof.
  revert b. induction a as [|y a IH]; intros [|z b] Ha Hb; simpl; [done|..].
  - intros [= -> _]. by destruct Hb; left.
  - intros [= <- _]. by destruct Ha; left.
  - rewrite elem_of_cons in Ha, Hb. intros [= <- Heq]. f_equal. apply IH; [tauto..|done].
Qed.

(** ** Hexadecimal *)

(** [{byte:02x}] *)
Definition hex_digit (n : N) : N := if n <? 10 then 48 + n else 87 + n.
Definition hex_byte (b : N) : rstr := [hex_digit (b / 16); hex_digit (b mod 16)].

Lemma hex_inj a b : is_bytes a → is_bytes b → a ≫= hex_byte = b ≫= hex_byte → a = b.
Proof.
  intros Ha. revert b. induction Ha as [|x a Hx _ IH]; intros [|y b] Hb; rewrite ?bind_cons; [done|done|done|].
  apply Forall_cons in Hb as [Hy Hb]. unfold hex_byte at 1 3. simpl. intros [= H1 H2 H3].
  f_equal; [|by apply IH]. unfold hex_digit in H1, H2.
  pose proof (N.div_mod x 16 ltac:(done)). pose proof (N.div_mod y 16 ltac:(done)).
  pose proof (N.mod_lt x 16 ltac:(done)). pose proof (N.mod_lt y 16 ltac:(done)).
  assert (x / 16 = y / 16 ∧ x mod 16 = y mod 16) as [E1 E2]; [|congruence].
  repeat case_match; guard_prop; lia.
Qed.
