(* ===== verification/Scan.v ===== *)
(** * Searching, splitting and trimming strings

    The [str] operations that the text-processing parts of the program call:
    [strip_suffix], [split_once], [split], [split_whitespace], [lines],
    [replace], [join]. Positions are never modelled: [find] followed by slicing
    is the split of the string at that place. *)

From S2P Require Import Prelude Text.

(** ** Equality *)

Fixpoint str_eqb (a b : rstr) : bool :=
  match a, b with
  | [], [] => true
  | x :: a', y :: b' => (x =? y) && str_eqb a' b'
  | _, _ => false
  end.

Lemma str_eqb_spec a b : reflect (a = b) (str_eqb a b).
Proof.
  apply iff_reflect. revert b. induction a as [|x a IH]; intros [|y b]; simpl; [done..|].
  rewrite andb_true_iff, N.eqb_eq, <- IH. naive_solver.
Qed.

Lemma str_eqb_eq a b : str_eqb a b = true ↔ a = b.
Proof. destruct (str_eqb_spec a b); naive_solver. Qed.

Lemma str_eqb_neq a b : str_eqb a b = false ↔ a ≠ b.
Proof. destruct (str_eqb_spec a b); naive_solver. Qed.

Lemma str_eqb_refl a : str_eqb a a = true.
Proof. by apply str_eqb_eq. Qed.

Definition str_is_empty (s : rstr) : bool := match s with [] => true | _ => false end.

(** Membership in a list of strings ([matches!] on literals, [slice::contains]). *)
Definition str_in (l : list rstr) (s : rstr) : bool := existsb (str_eqb s) l.

Lemma str_in_spec l s : str_in l s = true ↔ s ∈ l.
Proof.
  unfold str_in. rewrite existsb_elem_of. setoid_rewrite str_eqb_eq. naive_solver.
Qed.

(** [str::eq_ignore_ascii_case] *)
Definition eq_ignore_ascii_case (a b : rstr) : bool :=
  bool_decide (str_to_ascii_lowercase a = str_to_ascii_lowercase b).

(** ** Affixes *)

Definition strip_suffix (suf s : rstr) : option rstr :=
  reverse <$> strip_prefix (reverse suf) (reverse s).

Definition ends_with (suf s : rstr) : bool :=
  match strip_suffix suf s with Some _ => true | None => false end.

Definition trim_start (s : rstr) : rstr := trim_start_matches is_whitespace s.
Definition trim_end (s : rstr) : rstr := trim_end_matches is_whitespace s.

Lemma strip_prefix_app pre r : strip_prefix pre (pre ++ r) = Some r.
Proof. by apply strip_prefix_Some. Qed.

Lemma strip_suffix_Some suf s r : strip_suffix suf s = Some r ↔ s = r ++ suf.
Proof.
  unfold strip_suffix. rewrite fmap_Some. split.
  - intros (t & Ht & ->). apply strip_prefix_Some in Ht.
    rewrite <- (reverse_involutive s), Ht, reverse_app, reverse_involutive. done.
  - intros ->. exists (reverse r). rewrite reverse_app, strip_prefix_app, reverse_involutive. done.
Qed.

Lemma strip_suffix_app suf r : strip_suffix suf (r ++ suf) = Some r.
Proof. by apply strip_suffix_Some. Qed.

(** ** Searching *)

(** Before the first character satisfying [p], and from it on. *)
Fixpoint take_until (p : N → bool) (s : rstr) : rstr :=
  match s with [] => [] | c :: s' => if p c then [] else c :: take_until p s' end.

Fixpoint drop_until (p : N → bool) (s : rstr) : rstr :=
  match s with [] => [] | c :: s' => if p c then s else drop_until p s' end.

(** [str::split_once] *)
Fixpoint split_once (pat s : rstr) : option (rstr * rstr) :=
  match strip_prefix pat s with
  | Some rest => Some ([], rest)
  | None => match s with
            | [] => None
            | c :: s' => p ← split_once pat s'; Some (c :: p.1, p.2)
            end
  end.

(** [pat] occurs in [s]. *)
Definition contains (pat s : rstr) : bool :=
  match split_once pat s with Some _ => true | None => false end.

(** ** Splitting *)

(** [str::split] on a class of characters: at least one piece. *)
Fixpoint split_on (p : N → bool) (s : rstr) : list rstr :=
  match s with
  | [] => [[]]
  | c :: s' =>
      if p c then [] :: split_on p s'
      else match split_on p s' with
           | [] => [[c]]
           | piece :: pieces => (c :: piece) :: pieces
           end
  end.

Definition nonempty (s : rstr) : bool := negb (str_is_empty s).

Definition str_filter (p : rstr → bool) (l : list rstr) : list rstr := filter (λ s, p s = true) l.

(** [str::split_whitespace] *)
Definition split_whitespace (s : rstr) : list rstr := str_filter nonempty (split_on is_whitespace s).

(** [slice::join] *)
Fixpoint join (sep : rstr) (l : list rstr) : rstr :=
  match l with
  | [] => []
  | [s] => s
  | s :: l' => s ++ sep ++ join sep l'
  end.

(** [str::replace] of a character by a string. *)
Definition replace_char (p : N → bool) (by_ : rstr) (s : rstr) : rstr :=
  s ≫= λ c, if p c then by_ else [c].

(** [str::lines]: the newlines end lines, a carriage return before one belongs
    to it. [acc] is the current line, reversed. *)
Definition strip_cr (racc : rstr) : rstr :=
  match racc with c :: racc' => if c =? 13 then racc' else racc | [] => [] end.

Fixpoint lines_from (s racc : rstr) : list rstr :=
  match s with
  | [] => match racc with [] => [] | _ => [reverse racc] end
  | c :: s' => if c =? 10 then reverse (strip_cr racc) :: lines_from s' []
               else lines_from s' (c :: racc)
  end.

Definition str_lines (s : rstr) : list rstr := lines_from s [].

(** Lines, each ended by a newline. *)
Definition unlines (ls : list rstr) : rstr := ls ≫= λ l, l ++ [10].

Lemma forallb_Forall {A} (p : A → bool) l : forallb p l = true ↔ Forall (λ x, p x = true) l.
Proof.
  induction l as [|x l IH]; simpl; [split; [constructor | done]|].
  by rewrite andb_true_iff, Forall_cons, IH.
Qed.

(** ** Lemmas on trimming *)

Definition starts_solid (s : rstr) : bool := match s with c :: _ => negb (is_whitespace c) | [] => false end.
Definition ends_solid (s : rstr) : bool := match last s with Some c => negb (is_whitespace c) | None => false end.

Definition blank (s : rstr) : Prop := Forall (λ c, is_whitespace c = true) s.

Lemma starts_solid_app a b : starts_solid a = true → starts_solid (a ++ b) = true.
Proof. by destruct a. Qed.

Lemma ends_solid_app a b : ends_solid b = true → ends_solid (a ++ b) = true.
Proof. unfold ends_solid. rewrite last_app. by destruct (last b). Qed.

Lemma ends_solid_cons c s : ends_solid s = true → ends_solid (c :: s) = true.
Proof. apply (ends_solid_app [c]). Qed.

Lemma drop_while_app {A} (p : A → bool) k l : Forall (λ x, p x = true) k → drop_while p (k ++ l) = drop_while p l.
Proof. induction 1 as [|x k Hx _ IH]; simpl; [done|]. by rewrite Hx. Qed.

(** Trimming removes exactly the blanks around a solid string. *)
Lemma trim_pad a s b :
  blank a → blank b → starts_solid s = true → ends_solid s = true → trim (a ++ s ++ b) = s.
Proof.
  intros Ha Hb Hs He. unfold trim, trim_matches, trim_start_matches, trim_end_matches.
  rewrite drop_while_app by done.
  rewrite (drop_while_id _ (s ++ b)).
  - rewrite reverse_app, drop_while_app by by apply Forall_reverse.
    rewrite drop_while_id; [apply reverse_involutive|].
    intros x l' Hx. apply (f_equal reverse) in Hx. rewrite reverse_involutive, reverse_cons in Hx.
    subst s. unfold ends_solid in He. rewrite last_snoc in He. by apply negb_true_iff.
  - intros x l' Hx. destruct s as [|c s]; [done|]. simplify_eq/=. by apply negb_true_iff.
Qed.

Lemma trim_solid s : starts_solid s = true → ends_solid s = true → trim s = s.
Proof.
  intros Hs He. pose proof (trim_pad [] s [] (Forall_nil_2 _) (Forall_nil_2 _) Hs He) as Ht.
  by rewrite app_nil_r in Ht.
Qed.

Lemma trim_indent a s : blank a → starts_solid s = true → ends_solid s = true → trim (a ++ s) = s.
Proof.
  intros Ha Hs He. pose proof (trim_pad a s [] Ha (Forall_nil_2 _) Hs He) as Ht.
  by rewrite app_nil_r in Ht.
Qed.

Lemma trim_fixed_solid s : nonempty s = true → trim s = s → starts_solid s = true ∧ ends_solid s = true.
Proof.
  intros Hn Ht. split.
  - destruct s as [|c s]; [done|]. simpl. apply negb_true_iff. by apply (trim_matches_head is_whitespace c (c :: s) s).
  - destruct s as [|c s _] using rev_ind; [done|]. unfold ends_solid. rewrite last_snoc.
    apply negb_true_iff. by apply (trim_matches_last is_whitespace c (s ++ [c]) s).
Qed.

Lemma trim_start_solid s : starts_solid s = true → trim_start s = s.
Proof. destruct s as [|c s]; simpl; [done|]. unfold trim_start, trim_start_matches. simpl. by intros ->%negb_true_iff. Qed.

Lemma trim_start_pad a s : blank a → starts_solid s = true → trim_start (a ++ s) = s.
Proof.
  intros Ha Hs. unfold trim_start, trim_start_matches. rewrite drop_while_app by done.
  by apply trim_start_solid.
Qed.

(** ** Lemmas on searching *)

Lemma take_until_app p a b : forallb (λ c, negb (p c)) a = true → take_until p (a ++ b) = a ++ take_until p b.
Proof.
  induction a as [|c a IH]; simpl; [done|]. intros [->%negb_true_iff Ha]%andb_true_iff. by rewrite IH.
Qed.

Lemma drop_until_app p a b : forallb (λ c, negb (p c)) a = true → drop_until p (a ++ b) = drop_until p b.
Proof.
  induction a as [|c a IH]; simpl; [done|]. intros [->%negb_true_iff Ha]%andb_true_iff. by rewrite IH.
Qed.

(** The characters other than one. *)
Definition lacks (c : N) (s : rstr) : bool := forallb (λ d, negb (d =? c)) s.

Lemma lacks_app c a b : lacks c (a ++ b) = lacks c a && lacks c b.
Proof. apply forallb_app. Qed.

Lemma lacks_not_in c s : lacks c s = true ↔ c ∉ s.
Proof.
  unfold lacks. rewrite forallb_forall. setoid_rewrite <- list_elem_of_In. split.
  - intros H Hin. specialize (H c Hin). by rewrite N.eqb_refl in H.
  - intros Hn x Hx. apply negb_true_iff, N.eqb_neq. by intros ->.
Qed.

Lemma split_once_cons c pat x s :
  c ≠ x → split_once (c :: pat) (x :: s) = p ← split_once (c :: pat) s; Some (x :: p.1, p.2).
Proof. intros Hne. simpl. by rewrite (proj2 (N.eqb_neq _ _) Hne). Qed.

Lemma split_once_char c a b : lacks c a = true → split_once [c] (a ++ c :: b) = Some (a, b).
Proof.
  induction a as [|x a IH]; simpl; [by rewrite N.eqb_refl|].
  intros [Hx Ha]%andb_true_iff. rewrite N.eqb_sym. apply negb_true_iff in Hx. rewrite Hx. by rewrite (IH Ha).
Qed.

Lemma split_once_char_none c s : lacks c s = true → split_once [c] s = None.
Proof.
  induction s as [|x s IH]; simpl; [done|].
  intros [Hx Hs]%andb_true_iff. apply negb_true_iff in Hx. by rewrite N.eqb_sym, Hx, (IH Hs).
Qed.

(** A pattern that is a prefix of [a ++ c :: b] without using [c] is a prefix of [a]. *)
Lemma strip_prefix_before pat a c b :
  lacks c pat = true → strip_prefix pat a = None → strip_prefix pat (a ++ c :: b) = None.
Proof.
  revert a. induction pat as [|x pat IH]; intros [|y a]; simpl; [done..| |].
  - intros [Hx _]%andb_true_iff _. apply negb_true_iff in Hx. by rewrite Hx.
  - intros [_ Hp]%andb_true_iff. destruct (x =? y); [by apply IH | done].
Qed.

(** The first occurrence after a text without one and a character foreign to
    the pattern. *)
Lemma split_once_after pat a c s :
  lacks c pat = true → nonempty pat = true → split_once pat a = None →
  split_once pat (a ++ c :: s) = p ← split_once pat s; Some (a ++ c :: p.1, p.2).
Proof.
  intros Hc Hne. destruct pat as [|x pat]; [done|]. induction a as [|y a IH].
  - intros _. cbn [app]. rewrite split_once_cons; [done|]. intros ->.
    simpl in Hc. by rewrite N.eqb_refl in Hc.
  - intros Hn. cbn [split_once app] in Hn |- *.
    destruct (strip_prefix (x :: pat) (y :: a)) eqn:E; [done|].
    rewrite (strip_prefix_before _ (y :: a) c s Hc E : strip_prefix _ (y :: (a ++ c :: s)) = None).
    rewrite IH by (destruct (split_once (x :: pat) a); [done | done]).
    by destruct (split_once (x :: pat) s).
Qed.

Lemma split_once_unfold pat s :
  split_once pat s =
    match strip_prefix pat s with
    | Some rest => Some ([], rest)
    | None => match s with
              | [] => None
              | c :: s' => p ← split_once pat s'; Some (c :: p.1, p.2)
              end
    end.
Proof. by destruct s. Qed.

Lemma split_once_Some pat s a b : split_once pat s = Some (a, b) → s = a ++ pat ++ b.
Proof.
  revert a. induction s as [|c s IH]; intros a; rewrite split_once_unfold;
    destruct (strip_prefix pat _) as [r|] eqn:E.
  1,3: intros [= <- <-]; by apply strip_prefix_Some in E.
  - done.
  - destruct (split_once pat s) as [[a' b']|] eqn:E'; [|done]. intros [= <- <-]. cbn. by rewrite (IH a').
Qed.

Lemma split_once_here pat s : split_once pat (pat ++ s) = Some ([], s).
Proof. by rewrite split_once_unfold, strip_prefix_app. Qed.

(** ** Lemmas on a pattern that ends with a character it has once *)

Section needle.
Context (w : rstr) (q : N) (Hw : lacks q w = true).

Lemma strip_needle_none s : lacks q s = true → strip_prefix (w ++ [q]) s = None.
Proof.
  revert s. clear Hw. induction w as [|x w' IH]; intros [|y s]; simpl; [done| |done|].
  - intros [Hy _]%andb_true_iff. apply negb_true_iff in Hy. by rewrite N.eqb_sym, Hy.
  - intros [_ Hs]%andb_true_iff. destruct (x =? y); [by apply IH | done].
Qed.

(** Before the first [q], the pattern can only be a suffix of the text. *)
Lemma strip_needle_first a b :
  lacks q a = true →
  strip_prefix (w ++ [q]) (a ++ q :: b) = if str_eqb w a then Some b else None.
Proof.
  revert a Hw. induction w as [|x w' IH]; intros [|y a]; simpl; intros Hx Ha.
  - by rewrite N.eqb_refl.
  - apply andb_true_iff in Ha as [Hy _]. apply negb_true_iff in Hy. by rewrite N.eqb_sym, Hy.
  - apply andb_true_iff in Hx as [Hx _]. apply negb_true_iff in Hx. by rewrite Hx.
  - apply andb_true_iff in Ha as [_ Ha]. apply andb_true_iff in Hx as [_ Hx].
    destruct (x =? y); simpl; [by apply IH | done].
Qed.

Lemma split_needle_none s : lacks q s = true → split_once (w ++ [q]) s = None.
Proof.
  induction s as [|y s IH]; intros Hs.
  - cbn [split_once]. by rewrite strip_needle_none.
  - cbn [split_once]. rewrite strip_needle_none by done. simpl in Hs.
    apply andb_true_iff in Hs as [_ Hs]. by rewrite IH.
Qed.

Lemma split_needle_found a b : lacks q a = true → split_once (w ++ [q]) (a ++ w ++ q :: b) = Some (a, b).
Proof.
  induction a as [|y a IH]; intros Ha.
  - simpl. pose proof (split_once_here (w ++ [q]) b) as H. by rewrite <- app_assoc in H.
  - assert (strip_prefix (w ++ [q]) ((y :: a) ++ w ++ q :: b) = None) as Hn.
    { rewrite app_assoc. rewrite strip_needle_first.
      - destruct (str_eqb_spec w ((y :: a) ++ w)) as [Heq|_]; [|done].
        apply (f_equal length) in Heq. rewrite length_app in Heq. simpl in Heq. lia.
      - by rewrite lacks_app, Ha, Hw. }
    rewrite split_once_unfold, Hn. cbn [app]. simpl in Ha. apply andb_true_iff in Ha as [_ Ha].
    by rewrite IH.
Qed.

(** A part ended by [q] that the pattern does not end is skipped. *)
Lemma split_needle_skip a b :
  lacks q a = true → strip_suffix w a = None →
  split_once (w ++ [q]) (a ++ q :: b) = p ← split_once (w ++ [q]) b; Some (a ++ q :: p.1, p.2).
Proof.
  induction a as [|y a IH]; intros Ha Hs.
  - rewrite split_once_unfold, strip_needle_first by done. by destruct w.
  - rewrite split_once_unfold, strip_needle_first by done.
    destruct (str_eqb_spec w (y :: a)) as [Heq|_].
    { rewrite Heq in Hs. pose proof (strip_suffix_app (y :: a) []) as H. simpl in H. congruence. }
    cbn [app]. simpl in Ha. apply andb_true_iff in Ha as [_ Ha]. rewrite IH; [by destruct (split_once _ b)|done|].
    destruct (strip_suffix w a) as [r|] eqn:E; [|done]. apply strip_suffix_Some in E.
    assert (strip_suffix w (y :: a) = Some (y :: r)) as E' by (apply strip_suffix_Some; by rewrite E).
    congruence.
Qed.
End needle.

(** ** Lemmas on splitting *)

Lemma split_on_piece p a : forallb (λ c, negb (p c)) a = true → split_on p a = [a].
Proof.
  induction a as [|c a IH]; simpl; [done|]. intros [->%negb_true_iff Ha]%andb_true_iff. by rewrite IH.
Qed.

Lemma split_on_app p a c b :
  forallb (λ c, negb (p c)) a = true → p c = true → split_on p (a ++ c :: b) = a :: split_on p b.
Proof.
  intros Ha Hc. induction a as [|x a IH]; simpl in *; [by rewrite Hc|].
  apply andb_true_iff in Ha as [->%negb_true_iff Ha]. by rewrite IH.
Qed.

(** ** Lemmas on lines *)

(** A line that [lines] gives back as it is. *)
Definition line_ok (l : rstr) : bool := lacks 10 l && negb (bool_decide (last l = Some 13)).

Lemma lines_from_line l s racc :
  lacks 10 l = true → lines_from (l ++ 10 :: s) racc = reverse (strip_cr (reverse l ++ racc)) :: lines_from s [].
Proof.
  revert racc. induction l as [|c l IH]; intros racc; simpl; [done|].
  intros [->%negb_true_iff Hl]%andb_true_iff. rewrite IH by done. by rewrite reverse_cons, <- app_assoc.
Qed.

Lemma str_lines_unlines ls : Forall (λ l, line_ok l = true) ls → str_lines (unlines ls) = ls.
Proof.
  unfold str_lines. induction 1 as [|l ls Hl _ IH]; [done|]. unfold unlines. rewrite bind_cons.
  fold (unlines ls). apply andb_true_iff in Hl as [Hl Hcr].
  rewrite <- app_assoc. cbn [app]. rewrite lines_from_line, app_nil_r, IH by done. f_equal.
  destruct l as [|c l _] using rev_ind; [done|]. rewrite last_snoc in Hcr. rewrite reverse_snoc. simpl.
  destruct (N.eqb_spec c 13) as [->|]; [done|]. by rewrite reverse_cons, reverse_involutive.
Qed.

Lemma unlines_app a b : unlines (a ++ b) = unlines a ++ unlines b.
Proof. apply bind_app. Qed.

(** Two strings that differ within the shorter one, read from their ends. *)
Fixpoint clash_from (a b : rstr) : bool :=
  match a, b with
  | x :: a', y :: b' => negb (x =? y) || clash_from a' b'
  | _, _ => false
  end.
Definition clash (a b : rstr) : bool := clash_from (reverse a) (reverse b).

Lemma clash_from_prefix a b r : clash_from a b = true → strip_prefix a (b ++ r) = None.
Proof.
  revert b. induction a as [|x a IH]; intros [|y b]; simpl; [done..|].
  destruct (x =? y); [by apply IH | done].
Qed.

Lemma clash_suffix a b pre : clash a b = true → strip_suffix a (pre ++ b) = None.
Proof. intros Hc. unfold strip_suffix. by rewrite reverse_app, clash_from_prefix. Qed.

Lemma split_whitespace_cons a r :
  nonempty a = true → forallb (λ c, negb (is_whitespace c)) a = true →
  split_whitespace (a ++ 32 :: r) = a :: split_whitespace r.
Proof.
  intros Hn Ha. unfold split_whitespace, str_filter. rewrite split_on_app by done.
  by rewrite filter_cons_True.
Qed.

Lemma split_whitespace_one a :
  nonempty a = true → forallb (λ c, negb (is_whitespace c)) a = true → split_whitespace a = [a].
Proof.
  intros Hn Ha. unfold split_whitespace, str_filter. rewrite split_on_piece by done.
  by rewrite filter_cons_True.
Qed.

(** The first piece starts with the first character, if that is no space. *)
Lemma split_whitespace_head c s :
  is_whitespace c = false → ∃ piece pieces, split_whitespace (c :: s) = (c :: piece) :: pieces.
Proof.
  intros Hc. unfold split_whitespace, str_filter. cbn [split_on]. rewrite Hc.
  destruct (split_on is_whitespace s) as [|piece pieces]; rewrite filter_cons_True; eauto.
Qed.
