(* ===== verification/Float64.v ===== *)
(** * IEEE 754 binary64

    Rust's [f64] as the executable specification floats of the Rocq kernel
    library, at 53 bits of precision and maximal exponent 1024, with rounding
    to nearest, ties to even: the semantics of [+], [-], [*], [/], of the
    comparisons and of [as f64] on integers. *)

From S2P Require Import Prelude.
From Stdlib Require Import SpecFloat.

Abbreviation f64 := spec_float.

Definition f64_prec : Z := 53.
Definition f64_emax : Z := 1024.

(** [n as f64] for an unsigned [n]; exact below [2^53]. *)
Definition f64_of_N (n : N) : f64 := binary_normalize f64_prec f64_emax (Z.of_N n) 0 false.
Definition f64_add : f64 → f64 → f64 := SFadd f64_prec f64_emax.
Definition f64_sub : f64 → f64 → f64 := SFsub f64_prec f64_emax.
Definition f64_mul : f64 → f64 → f64 := SFmul f64_prec f64_emax.
Definition f64_div : f64 → f64 → f64 := SFdiv f64_prec f64_emax.
Definition f64_ltb : f64 → f64 → bool := SFltb.
Definition f64_leb : f64 → f64 → bool := SFleb.

(** [f64::min]: a NaN operand is ignored. *)
Definition f64_min (a b : f64) : f64 :=
  match a, b with
  | S754_nan, _ => b
  | _, S754_nan => a
  | _, _ => if f64_leb a b then a else b
  end.

(** [Duration::as_secs_f64] *)
Definition as_secs_f64 (d : N) : f64 :=
  f64_add (f64_of_N (d / 1000000000)) (f64_div (f64_of_N (d mod 1000000000)) (f64_of_N 1000000000)).
