(* ===== verification/Breaker.v ===== *)
(** * Circuit breaker ([BreakerRegistry] of crates/roze-resilience/src/lib.rs)

    One [BreakerState] per operation key, kept in a [DashMap]. Every method
    holds the key's entry for its whole body, so a concurrent execution is a
    sequence of the calls below; [Instant::now()] is the argument [now] of the
    call that reads the clock. *)

From S2P Require Import Prelude.

Inductive BreakerPhase := Closed | Open | HalfOpen.
Inductive BreakerPermit := PermitClosed | PermitProbe.
Inductive BreakerDecision := Allow (permit : BreakerPermit) | Reject.

#[export] Instance BreakerPhase_eq_dec : EqDecision BreakerPhase.
Proof. solve_decision. Defined.
#[export] Instance BreakerPermit_eq_dec : EqDecision BreakerPermit.
Proof. solve_decision. Defined.
#[export] Instance BreakerDecision_eq_dec : EqDecision BreakerDecision.
Proof. solve_decision. Defined.

Record BreakerConfig := { failure_threshold : N; reset_timeout : N }.

Record BreakerState := { failures : N; phase : BreakerPhase; open_until : option N }.

(** [BreakerSnapshot] has the fields of the state. *)
Record BreakerSnapshot :=
  { snap_failures : N; snap_phase : BreakerPhase; snap_open_until : option N }.

Definition BreakerState_default : BreakerState :=
  {| failures := 0; phase := Closed; open_until := None |}.

Abbreviation BreakerRegistry := (gmap rstr BreakerState).

Definition BreakerRegistry_new : BreakerRegistry := ∅.

(** The instant of [open_until] is not bounded here; Rust panics when
    [Instant::now() + reset_timeout] leaves the platform's range. *)
Definition open_breaker (now reset_timeout : N) : BreakerState :=
  {| failures := 0; phase := Open; open_until := Some (now + reset_timeout) |}.

(** [self.states.entry(key).or_default()] *)
Definition breaker_entry (reg : BreakerRegistry) (key : rstr) : BreakerState :=
  default BreakerState_default (reg !! key).

(** The bodies of the methods, on the entry they hold. *)
Definition allow_entry (state : BreakerState) (now : N) : BreakerDecision * BreakerState :=
  match phase state with
  | Closed => (Allow PermitClosed, state)
  | Open =>
      if match open_until state with Some until => now <? until | None => false end
      then (Reject, state)
      else (Allow PermitProbe,
            {| failures := failures state; phase := HalfOpen; open_until := None |})
  | HalfOpen => (Reject, state)
  end.

Definition record_success_entry (state : BreakerState) (permit : BreakerPermit) : BreakerState :=
  match permit, phase state with
  | PermitClosed, Closed =>
      {| failures := 0; phase := phase state; open_until := open_until state |}
  | PermitProbe, HalfOpen => {| failures := 0; phase := Closed; open_until := None |}
  | _, _ => state
  end.

Definition record_failure_entry (state : BreakerState) (permit : BreakerPermit)
    (config : BreakerConfig) (now : N) : BreakerState :=
  match permit, phase state with
  | PermitClosed, Closed =>
      let failures' := sat_add U32_MAX (failures state) 1 in
      if N.max (failure_threshold config) 1 <=? failures'
      then open_breaker now (reset_timeout config)
      else {| failures := failures'; phase := phase state; open_until := open_until state |}
  | PermitProbe, HalfOpen => open_breaker now (reset_timeout config)
  | _, _ => state
  end.

Definition cancel_entry (state : BreakerState) (permit : BreakerPermit)
    (config : BreakerConfig) (now : N) : BreakerState :=
  match permit, phase state with
  | PermitProbe, HalfOpen => open_breaker now (reset_timeout config)
  | _, _ => state
  end.

Definition BreakerRegistry_allow (reg : BreakerRegistry) (key : rstr) (now : N)
    : BreakerDecision * BreakerRegistry :=
  let '(decision, state) := allow_entry (breaker_entry reg key) now in
  (decision, <[key := state]> reg).

Definition BreakerRegistry_record_success (reg : BreakerRegistry) (key : rstr)
    (permit : BreakerPermit) : BreakerRegistry :=
  <[key := record_success_entry (breaker_entry reg key) permit]> reg.

Definition BreakerRegistry_record_failure (reg : BreakerRegistry) (key : rstr)
    (permit : BreakerPermit) (config : BreakerConfig) (now : N) : BreakerRegistry :=
  <[key := record_failure_entry (breaker_entry reg key) permit config now]> reg.

(** [cancel] looks the key up without creating it. *)
Definition BreakerRegistry_cancel (reg : BreakerRegistry) (key : rstr)
    (permit : BreakerPermit) (config : BreakerConfig) (now : N) : BreakerRegistry :=
  if bool_decide (permit ≠ PermitProbe) then reg
  else match reg !! key with
       | Some state => <[key := cancel_entry state permit config now]> reg
       | None => reg
       end.

Definition BreakerRegistry_snapshot (reg : BreakerRegistry) (key : rstr) : option BreakerSnapshot :=
  (λ state, {| snap_failures := failures state; snap_phase := phase state;
               snap_open_until := open_until state |}) <$> reg !! key.

Definition BreakerRegistry_retry_after (reg : BreakerRegistry) (key : rstr) (now : N) : option N :=
  state ← reg !! key;
  match phase state with
  | Open => (λ until, N.max (until - now) (from_millis 1)) <$> open_until state
  | HalfOpen => Some (from_secs 1)
  | Closed => None
  end.

(** ** Executions *)

Inductive breaker_call :=
| CallAllow
| CallSuccess (permit : BreakerPermit)
| CallFailure (permit : BreakerPermit) (config : BreakerConfig)
| CallCancel (permit : BreakerPermit) (config : BreakerConfig).

Record breaker_event := { ev_key : rstr; ev_now : N; ev_call : breaker_call }.

Definition breaker_step (reg : BreakerRegistry) (e : breaker_event)
    : option BreakerDecision * BreakerRegistry :=
  match ev_call e with
  | CallAllow => let '(d, reg') := BreakerRegistry_allow reg (ev_key e) (ev_now e) in (Some d, reg')
  | CallSuccess p => (None, BreakerRegistry_record_success reg (ev_key e) p)
  | CallFailure p c => (None, BreakerRegistry_record_failure reg (ev_key e) p c (ev_now e))
  | CallCancel p c => (None, BreakerRegistry_cancel reg (ev_key e) p c (ev_now e))
  end.

Fixpoint breaker_run (reg : BreakerRegistry) (es : list breaker_event)
    : list (option BreakerDecision) * BreakerRegistry :=
  match es with
  | [] => ([], reg)
  | e :: es' =>
      let '(d, reg') := breaker_step reg e in
      let '(ds, reg'') := breaker_run reg' es' in (d :: ds, reg'')
  end.

(** The registries an execution can reach from the empty one. *)
Inductive breaker_reachable : BreakerRegistry → Prop :=
| breaker_reachable_new : breaker_reachable BreakerRegistry_new
| breaker_reachable_step reg e :
    breaker_reachable reg → breaker_reachable (breaker_step reg e).2.

(** ** Lemmas on single calls *)

(** A settlement of a half-open probe on [key]. *)
Definition settles_probe (key : rstr) (e : breaker_event) : bool :=
  bool_decide (ev_key e = key) &&
  match ev_call e with
  | CallSuccess PermitProbe | CallFailure PermitProbe _ | CallCancel PermitProbe _ => true
  | _ => false
  end.

Definition breaker_state_wf (s : BreakerState) : Prop :=
  failures s ≤ U32_MAX ∧
  (phase s ≠ Closed → failures s = 0) ∧
  (phase s = Open ↔ is_Some (open_until s)).

Lemma breaker_state_default_wf : breaker_state_wf BreakerState_default.
Proof. split_and!; simpl; [lia | done | split; [done | by intros []]]. Qed.

Lemma open_breaker_wf now t : breaker_state_wf (open_breaker now t).
Proof. split_and!; simpl; [lia | done | split; eauto]. Qed.
#[export] Hint Resolve breaker_state_default_wf open_breaker_wf : roze.

Lemma breaker_entry_insert reg key s : breaker_entry (<[key := s]> reg) key = s.
Proof. unfold breaker_entry. by rewrite lookup_insert_eq. Qed.

Lemma breaker_entry_insert_ne reg key key' s :
  key ≠ key' → breaker_entry (<[key := s]> reg) key' = breaker_entry reg key'.
Proof. intros. unfold breaker_entry. by rewrite lookup_insert_ne. Qed.

(** A call only touches the state of its own key. *)
Lemma breaker_step_frame reg e key :
  ev_key e ≠ key → breaker_entry (breaker_step reg e).2 key = breaker_entry reg key.
Proof.
  intros Hne. unfold breaker_step. destruct (ev_call e); simpl.
  - unfold BreakerRegistry_allow. destruct (allow_entry _ _); simpl. by apply breaker_entry_insert_ne.
  - by apply breaker_entry_insert_ne.
  - by apply breaker_entry_insert_ne.
  - unfold BreakerRegistry_cancel. destruct (bool_decide _); [done|].
    destruct (reg !! ev_key e); [by apply breaker_entry_insert_ne | done].
Qed.

(** The state of a key after a call on it. *)
Definition breaker_next (s : BreakerState) (e : breaker_event) : BreakerState :=
  match ev_call e with
  | CallAllow => (allow_entry s (ev_now e)).2
  | CallSuccess p => record_success_entry s p
  | CallFailure p c => record_failure_entry s p c (ev_now e)
  | CallCancel p c => cancel_entry s p c (ev_now e)
  end.

Lemma breaker_step_next reg e :
  breaker_entry (breaker_step reg e).2 (ev_key e) = breaker_next (breaker_entry reg (ev_key e)) e.
Proof.
  unfold breaker_step, breaker_next. destruct (ev_call e) as [|p|p c|p c]; simpl.
  - unfold BreakerRegistry_allow. destruct (allow_entry _ _) eqn:E. simpl. apply breaker_entry_insert.
  - apply breaker_entry_insert.
  - apply breaker_entry_insert.
  - unfold BreakerRegistry_cancel. destruct p; simpl; [done|].
    destruct (reg !! ev_key e) eqn:E; simpl; [rewrite breaker_entry_insert|];
      unfold breaker_entry; by rewrite E.
Qed.

Lemma breaker_next_wf s e : breaker_state_wf s → breaker_state_wf (breaker_next s e).
Proof.
  intros (Hf & Hz & Ho). unfold breaker_next.
  destruct s as [f ph ou], (ev_call e) as [|p|p c|p c]; simpl in *;
    unfold allow_entry, record_success_entry, record_failure_entry, cancel_entry; simpl;
    try destruct p; destruct ph; simpl; repeat split_guard; auto with roze;
    split_and!; simpl; auto using sat_add_le; try lia; try naive_solver.
Qed.

Lemma breaker_reachable_wf reg key : breaker_reachable reg → breaker_state_wf (breaker_entry reg key).
Proof.
  induction 1 as [|reg e _ IH]; [apply breaker_state_default_wf|].
  destruct (decide (ev_key e = key)) as [<-|Hne].
  - rewrite breaker_step_next. by apply breaker_next_wf.
  - by rewrite breaker_step_frame.
Qed.

Lemma breaker_run_cons reg e es :
  breaker_run reg (e :: es) =
    ((breaker_step reg e).1 :: (breaker_run (breaker_step reg e).2 es).1,
     (breaker_run (breaker_step reg e).2 es).2).
Proof. simpl. destruct (breaker_step reg e); simpl. by destruct (breaker_run _ es). Qed.

Lemma breaker_run_app reg es es' :
  (breaker_run reg (es ++ es')).2 = (breaker_run (breaker_run reg es).2 es').2.
Proof.
  revert reg. induction es as [|e es IH]; intros reg; [done|].
  change ((e :: es) ++ es') with (e :: (es ++ es')). rewrite !breaker_run_cons. simpl. apply IH.
Qed.

(** An invariant of one key's state, kept by every event satisfying [Q], holds
    before each event of the execution; [R] is what it says of the event. *)
Lemma breaker_run_inv (key : rstr) (P : BreakerState → Prop) (Q : breaker_event → Prop)
    (R : breaker_event → option BreakerDecision → Prop) es reg :
  (∀ reg e, P (breaker_entry reg key) → Q e → ev_key e = key →
     P (breaker_entry (breaker_step reg e).2 key) ∧ R e (breaker_step reg e).1) →
  P (breaker_entry reg key) → Forall Q es →
  P (breaker_entry (breaker_run reg es).2 key) ∧
  ∀ i e, es !! i = Some e → ev_key e = key →
    ∃ d, (breaker_run reg es).1 !! i = Some d ∧ R e d.
Proof.
  intros Hstep. revert reg. induction es as [|e es IH]; intros reg HP HQ; [done|].
  apply Forall_cons in HQ as [HQe HQ]. rewrite breaker_run_cons. cbn [fst snd].
  assert (P (breaker_entry (breaker_step reg e).2 key) ∧
          (ev_key e = key → R e (breaker_step reg e).1)) as [HP' HR].
  { destruct (decide (ev_key e = key)) as [Hk|Hk]; [naive_solver|].
    by rewrite breaker_step_frame. }
  destruct (IH _ HP' HQ) as [HP'' Hd]. split; [done|].
  intros [|i] e' Hi Hk; simpl in Hi; [|by apply Hd]. simplify_eq. eauto.
Qed.

Lemma allow_entry_probe s now s' : allow_entry s now = (Allow PermitProbe, s') → phase s' = HalfOpen.
Proof.
  unfold allow_entry. destruct (phase s); [done| |done].
  destruct (match open_until s with Some until => now <? until | None => false end);
    intros; by simplify_eq.
Qed.

(** ** The contract of the breaker, as a transition system *)

Inductive breaker_spec :=
| SpecClosed (consecutive_failures : N)
| SpecOpen (until : N)
| SpecProbing.

(** [spec_step s now call decision s']: what a call at instant [now] may
    answer and where it leads. *)
Inductive spec_step : breaker_spec → N → breaker_call → option BreakerDecision → breaker_spec → Prop :=
| spec_admit n now :
    spec_step (SpecClosed n) now CallAllow (Some (Allow PermitClosed)) (SpecClosed n)
| spec_refuse until now :
    now < until → spec_step (SpecOpen until) now CallAllow (Some Reject) (SpecOpen until)
| spec_probe until now :
    until ≤ now → spec_step (SpecOpen until) now CallAllow (Some (Allow PermitProbe)) SpecProbing
| spec_probing now :
    spec_step SpecProbing now CallAllow (Some Reject) SpecProbing
| spec_success n now :
    spec_step (SpecClosed n) now (CallSuccess PermitClosed) None (SpecClosed 0)
| spec_recover now :
    spec_step SpecProbing now (CallSuccess PermitProbe) None (SpecClosed 0)
| spec_count n now c :
    n + 1 < N.max (failure_threshold c) 1 →
    spec_step (SpecClosed n) now (CallFailure PermitClosed c) None (SpecClosed (n + 1))
| spec_trip n now c :
    N.max (failure_threshold c) 1 ≤ n + 1 →
    spec_step (SpecClosed n) now (CallFailure PermitClosed c) None (SpecOpen (now + reset_timeout c))
| spec_probe_failed now c :
    spec_step SpecProbing now (CallFailure PermitProbe c) None (SpecOpen (now + reset_timeout c))
| spec_probe_cancelled now c :
    spec_step SpecProbing now (CallCancel PermitProbe c) None (SpecOpen (now + reset_timeout c))
| spec_stale s now call :
    (* a settlement whose permit is not of the current phase changes nothing *)
    match call, s with
    | (CallSuccess PermitClosed | CallFailure PermitClosed _), (SpecOpen _ | SpecProbing) => True
    | (CallSuccess PermitProbe | CallFailure PermitProbe _), (SpecClosed _ | SpecOpen _) => True
    | CallCancel PermitClosed _, _ => True
    | CallCancel PermitProbe _, (SpecClosed _ | SpecOpen _) => True
    | _, _ => False
    end → spec_step s now call None s.
#[export] Hint Constructors spec_step : roze.

Definition breaker_abs (s : BreakerState) : breaker_spec :=
  match phase s with
  | Closed => SpecClosed (failures s)
  | Open => SpecOpen (default 0 (open_until s))
  | HalfOpen => SpecProbing
  end.

(** A permit's threshold is a [u32]. *)
Definition call_in_range (call : breaker_call) : Prop :=
  match call with CallFailure _ c => failure_threshold c ≤ U32_MAX | _ => True end.

Lemma breaker_next_spec s e :
  breaker_state_wf s → call_in_range (ev_call e) →
  spec_step (breaker_abs s) (ev_now e) (ev_call e)
    (match ev_call e with CallAllow => Some (allow_entry s (ev_now e)).1 | _ => None end)
    (breaker_abs (breaker_next s e)).
Proof.
  intros (Hf & Hz & Ho) Hr. destruct s as [f ph ou], e as [k now call]; simpl in *.
  unfold breaker_abs, breaker_next; simpl.
  destruct call as [|p|p c|p c]; simpl in *;
    unfold allow_entry, record_success_entry, record_failure_entry, cancel_entry; simpl;
    try destruct p; destruct ph; simpl; auto with roze.
  - destruct ou as [u|]; simpl; [|naive_solver].
    destruct (N.ltb_spec now u); simpl; auto with roze.
  - destruct (N.leb_spec (N.max (failure_threshold c) 1) (sat_add U32_MAX f 1)); simpl.
    + apply spec_trip. sat_lia.
    + rewrite sat_add_small by sat_lia. apply spec_count. sat_lia.
Qed.

(** ** Properties *)

Section single_key.
Context (key : rstr) (config : BreakerConfig).

(** Events of an execution in which the key's breaker only sees admissions and
    failures of closed permits under [config]; other keys are unrestricted. *)
Definition only_failures (e : breaker_event) : Prop :=
  ev_key e = key → ev_call e = CallAllow ∨ ev_call e = CallFailure PermitClosed config.

Definition is_failure (e : breaker_event) : bool :=
  bool_decide (ev_key e = key) && match ev_call e with CallFailure _ _ => true | _ => false end.

Definition count_failures (es : list breaker_event) : N :=
  N.of_nat (length (filter (λ e, is_failure e = true) es)).

Lemma count_failures_cons e es :
  count_failures (e :: es) = (if is_failure e then 1 else 0) + count_failures es.
Proof.
  unfold count_failures. rewrite filter_cons.
  destruct (is_failure e) eqn:E; case_decide; try done; simpl length; lia.
Qed.

Lemma breaker_counts_failures es reg f :
  breaker_entry reg key = {| failures := f; phase := Closed; open_until := None |} →
  failure_threshold config ≤ U32_MAX →
  Forall only_failures es →
  f + count_failures es < N.max (failure_threshold config) 1 →
  breaker_entry (breaker_run reg es).2 key =
    {| failures := f + count_failures es; phase := Closed; open_until := None |}.
Proof.
  revert reg f. induction es as [|e es IH]; intros reg f Hs Ht HF Hlt;
    [simpl; rewrite N.add_0_r; done|].
  apply Forall_cons in HF as [He HF]. rewrite breaker_run_cons. cbn [snd].
  rewrite count_failures_cons in *. unfold is_failure in *.
  destruct (decide (ev_key e = key)) as [Hk|Hk].
  - pose proof (breaker_step_next reg e) as Hn. rewrite Hk, Hs in Hn.
    rewrite (bool_decide_true _ Hk) in *. unfold breaker_next in Hn.
    destruct (He Hk) as [Hc|Hc]; rewrite Hc in *; simpl in *.
    + apply IH; done.
    + unfold record_failure_entry in Hn; simpl in Hn.
      rewrite (proj2 (N.leb_gt _ _)) in Hn by sat_lia.
      rewrite sat_add_small in Hn by lia.
      rewrite (IH _ (f + 1)); [f_equal; lia | done.. | lia].
  - rewrite (bool_decide_false _ Hk) in *. simpl in *.
    apply IH; try done. by rewrite breaker_step_frame.
Qed.
End single_key.

(** C1: while a half-open probe is outstanding every admission is rejected.
    Once [allow] has granted the probe of [key], and until a call settles it
    with the probe permit ([record_success], [record_failure] or [cancel]),
    each later [allow] on [key] answers [Reject], whatever else happens on any
    key and however much time passes. *)
Theorem breaker_probe_exclusive reg key now reg' es :
  BreakerRegistry_allow reg key now = (Allow PermitProbe, reg') →
  Forall (λ e, settles_probe key e = false) es →
  ∀ i e, es !! i = Some e → ev_key e = key → ev_call e = CallAllow →
    (breaker_run reg' es).1 !! i = Some (Some Reject).
Proof.
  intros Ha HF i e Hi Hk Hc.
  assert (phase (breaker_entry reg' key) = HalfOpen) as Hs.
  { unfold BreakerRegistry_allow in Ha. destruct (allow_entry _ now) as [d s] eqn:E.
    simplify_eq. rewrite breaker_entry_insert. by eapply allow_entry_probe. }
  destruct (breaker_run_inv key (λ s, phase s = HalfOpen) (λ e, settles_probe key e = false)
    (λ e d, ev_call e = CallAllow → d = Some Reject) es reg') as [_ Hr]; [..|done|].
  - clear. intros reg e HP HQ Hk. rewrite <- Hk at 1. rewrite breaker_step_next, Hk.
    unfold breaker_next, breaker_step, settles_probe, BreakerRegistry_allow in *.
    rewrite (bool_decide_true _ Hk) in HQ. rewrite Hk. simpl in HQ.
    destruct (breaker_entry reg key) as [f ph ou]; simpl in *; subst ph.
    destruct (ev_call e) as [|[]|[] c|[] c]; done.
  - done.
  - destruct (Hr i e Hi Hk) as (d & Hd & Hrej). by rewrite Hd, Hrej.
Qed.

(** C2: every registry reachable from the empty one refines the three-state
    contract [spec_step]: a call on a key makes the key's abstract state take a
    step of the contract with the answer the code gives, and leaves every other
    key's abstract state alone. *)
Theorem breaker_refines_spec reg e key :
  breaker_reachable reg → call_in_range (ev_call e) →
  spec_step (breaker_abs (breaker_entry reg (ev_key e))) (ev_now e) (ev_call e)
    (breaker_step reg e).1
    (breaker_abs (breaker_entry (breaker_step reg e).2 (ev_key e))) ∧
  (key ≠ ev_key e →
   breaker_abs (breaker_entry (breaker_step reg e).2 key) = breaker_abs (breaker_entry reg key)).
Proof.
  intros Hreach Hr. split; [|intros; by rewrite breaker_step_frame].
  rewrite breaker_step_next.
  pose proof (breaker_next_spec (breaker_entry reg (ev_key e)) e
    (breaker_reachable_wf _ _ Hreach) Hr) as Hs.
  unfold breaker_step, BreakerRegistry_allow. destruct (ev_call e); try done.
  by destruct (allow_entry _ _).
Qed.

(** The breaker trips at the threshold, not before and not after. From a
    closed breaker without failures, executions on [key] made of admissions and
    closed failures keep it closed while they hold fewer than
    [failure_threshold.max(1)] failures; the failure that reaches the threshold
    opens it until [now + reset_timeout]; from then on [allow] rejects exactly
    the instants before that one. *)
Theorem breaker_trips_at_threshold reg key config es now t :
  breaker_entry reg key = BreakerState_default →
  failure_threshold config ≤ U32_MAX →
  Forall (only_failures key config) es →
  count_failures key es + 1 = N.max (failure_threshold config) 1 →
  let reg1 := (breaker_run reg es).2 in
  let reg2 := BreakerRegistry_record_failure reg1 key PermitClosed config now in
  (BreakerRegistry_allow reg1 key t).1 = Allow PermitClosed ∧
  breaker_entry reg2 key =
    {| failures := 0; phase := Open; open_until := Some (now + reset_timeout config) |} ∧
  (BreakerRegistry_allow reg2 key t).1 =
    if t <? now + reset_timeout config then Reject else Allow PermitProbe.
Proof.
  intros Hd Ht HF Hc reg1 reg2.
  assert (breaker_entry reg1 key =
          {| failures := count_failures key es; phase := Closed; open_until := None |}) as H1
    by (apply (breaker_counts_failures key config es reg 0); [done..|lia]).
  assert (breaker_entry reg2 key = open_breaker now (reset_timeout config)) as H2.
  { unfold reg2, BreakerRegistry_record_failure. rewrite breaker_entry_insert, H1.
    unfold record_failure_entry; simpl. rewrite (proj2 (N.leb_le _ _)); [done|sat_lia]. }
  split_and!; [|done|]; unfold BreakerRegistry_allow, allow_entry; rewrite ?H1, ?H2; simpl; [done|].
  by destruct (t <? _).
Qed.

(** ** Witnesses *)

Definition ex_config : BreakerConfig := {| failure_threshold := 2; reset_timeout := 5 |}.
Definition ex_open : BreakerRegistry :=
  {[ lit "k" := {| failures := 0; phase := Open; open_until := Some 10 |} ]}.
Definition ex_event (now : N) (call : breaker_call) : breaker_event :=
  {| ev_key := lit "k"; ev_now := now; ev_call := call |}.

Lemma breaker_probe_exclusive_witness :
  (breaker_run (BreakerRegistry_allow ex_open (lit "k") 10).2
     [ex_event 11 (CallSuccess PermitClosed); ex_event 900 CallAllow]).1 !! 1%nat = Some (Some Reject).
Proof.
  refine (breaker_probe_exclusive ex_open (lit "k") 10 _ _ _ _ 1%nat (ex_event 900 CallAllow) _ _ _).
  - vm_compute; reflexivity.
  - repeat constructor.
  - reflexivity.
  - reflexivity.
  - reflexivity.
Defined.

Lemma breaker_refines_spec_witness :
  spec_step (SpecClosed 0) 3 (CallFailure PermitClosed ex_config) None (SpecClosed 1).
Proof.
  refine (proj1 (breaker_refines_spec BreakerRegistry_new (ex_event 3 (CallFailure PermitClosed ex_config))
    (lit "other") breaker_reachable_new _)).
  vm_compute. discriminate.
Defined.

Lemma breaker_trips_at_threshold_witness :
  (BreakerRegistry_allow (BreakerRegistry_record_failure
     (breaker_run BreakerRegistry_new [ex_event 1 (CallFailure PermitClosed ex_config)]).2
     (lit "k") PermitClosed ex_config 7) (lit "k") 11).1 = Reject.
Proof.
  refine (proj2 (proj2 (breaker_trips_at_threshold BreakerRegistry_new (lit "k") ex_config
    [ex_event 1 (CallFailure PermitClosed ex_config)] 7 11 _ _ _ _))).
  - reflexivity.
  - vm_compute. discriminate.
  - constructor; [intros _; by right | constructor].
  - vm_compute. reflexivity.
Defined.
