(* ===== verification/Resilience.v ===== *)
(** * Governance primitives (the rest of crates/roze-resilience/src/lib.rs)

    Operation keys, the policy records, retry back-off with full jitter, and
    the registries for retry budgets, token buckets and load shedding. The
    registries are [DashMap]s whose methods hold the key's entry, so each
    method is one step; [Instant::now()] is the argument [now]. *)

From S2P Require Import Prelude Text Float64 Breaker.

(** ** Operation keys *)

Inductive GovernanceBoundary := Rest | Rpc | Gateway | Mq | Job.

Definition GovernanceBoundary_as_str (b : GovernanceBoundary) : rstr :=
  match b with
  | Rest => lit "rest" | Rpc => lit "rpc" | Gateway => lit "gateway" | Mq => lit "mq" | Job => lit "job"
  end.

Definition MAX_LEN : nat := 160.

(** [ch.is_ascii_alphanumeric() || matches!(ch, '-' | '_' | '.' | '/' | ':' | '{' | '}')] *)
Definition operation_char (ch : N) : bool :=
  is_ascii_alphanumeric ch || (ch =? 45) || (ch =? 95) || (ch =? 46) || (ch =? 47) || (ch =? 58)
  || (ch =? 123) || (ch =? 125).

Fixpoint canonical_chars (chars : list N) (previous_separator : bool) : rstr :=
  match chars with
  | [] => []
  | ch :: chars' =>
      if operation_char ch then to_ascii_lowercase ch :: canonical_chars chars' false
      else if negb previous_separator then 95 :: canonical_chars chars' true
      else canonical_chars chars' previous_separator
  end.

Definition canonical_operation_part (value : rstr) : rstr :=
  let canonical := trim_matches (λ c, c =? 95) (canonical_chars (take MAX_LEN value) false) in
  match canonical with [] => lit "unknown" | _ => canonical end.

Abbreviation OperationKey := rstr.

Definition OperationKey_new (service : rstr) (boundary : GovernanceBoundary) (operation : rstr)
    : OperationKey :=
  canonical_operation_part service ++ lit ":" ++ GovernanceBoundary_as_str boundary ++ lit ":"
  ++ canonical_operation_part operation.

(** ** Policies *)

Record RetryPolicy :=
  { max_attempts : N; backoff : N; max_backoff : N; budget_percent : option N }.

Definition RetryPolicy_default : RetryPolicy :=
  {| max_attempts := 1; backoff := 0; max_backoff := 0; budget_percent := None |}.

Record RateLimitConfig := { burst : N; refill : N; tokens_per_refill : N }.

Record SheddingConfig :=
  { concurrency : N; window : N; min_samples : N; max_avg_latency : N;
    max_failure_ratio_per_mille : N; cool_down : N }.

(** [Value] stands for [serde_json::Value]. *)
Record GovernanceFallback (Value : Type) :=
  { fb_status : N; fb_body : option Value; fb_headers : gmap rstr rstr }.

Record GovernancePolicy (Value : Type) :=
  { timeout : option N; retry : option RetryPolicy; rate_limit : option RateLimitConfig;
    breaker : option BreakerConfig; shedding : option SheddingConfig;
    fallback : option (GovernanceFallback Value) }.
Arguments timeout {Value}. Arguments retry {Value}. Arguments rate_limit {Value}.
Arguments breaker {Value}. Arguments shedding {Value}. Arguments fallback {Value}.

Definition GovernancePolicy_default (Value : Type) : GovernancePolicy Value :=
  {| timeout := None; retry := None; rate_limit := None; breaker := None; shedding := None;
     fallback := None |}.

(** ** Retry back-off *)

Definition exponential_backoff_cap (base max : N) (attempt : N) : N :=
  let exponent := N.min (attempt - 1) 31 in
  N.min (sat_mul DURATION_MAX base (N.shiftl 1 exponent)) max.

Definition full_jitter_delay_with_sample (base max attempt sample : N) : N :=
  let cap := exponential_backoff_cap base max attempt in
  let cap_nanos := N.min cap U64_MAX in
  if cap_nanos =? U64_MAX then sample else sample mod (cap_nanos + 1).

(** The static [RETRY_JITTER_STATE] is threaded through; the compare-exchange
    loop retries until its step is applied to the current value. *)
Definition RETRY_JITTER_SEED : N := 11400714819323198485.

Definition next_retry_jitter (current : N) : N * N :=
  let next := current in
  let next := N.lxor next (wrap 64 (N.shiftl next 13)) in
  let next := N.lxor next (N.shiftr next 7) in
  let next := N.lxor next (wrap 64 (N.shiftl next 17)) in
  (next, next).

Definition full_jitter_delay (jitter base max attempt : N) : N * N :=
  let '(sample, jitter') := next_retry_jitter jitter in
  (full_jitter_delay_with_sample base max attempt sample, jitter').

(** ** Retry budgets *)

Record RetryBudgetState := { window_start : N; calls : N; retries : N }.
Record RetryBudgetRegistry := { rb_states : gmap rstr RetryBudgetState; rb_window : N }.

Definition RetryBudgetRegistry_new (w : N) : RetryBudgetRegistry :=
  {| rb_states := ∅; rb_window := w |}.
Definition RetryBudgetRegistry_default : RetryBudgetRegistry :=
  RetryBudgetRegistry_new (from_secs 60).

Definition reset_retry_budget_window (state : RetryBudgetState) (now window : N) : RetryBudgetState :=
  if window <? now - window_start state
  then {| window_start := now; calls := 0; retries := 0 |}
  else state.

Definition RetryBudgetRegistry_record_call (reg : RetryBudgetRegistry) (key : rstr) (now : N)
    : RetryBudgetRegistry :=
  let state := default {| window_start := now; calls := 0; retries := 0 |} (rb_states reg !! key) in
  let state := reset_retry_budget_window state now (rb_window reg) in
  {| rb_states := <[key := {| window_start := window_start state;
                              calls := sat_add U64_MAX (calls state) 1;
                              retries := retries state |}]> (rb_states reg);
     rb_window := rb_window reg |}.

(** The retries a window's calls are worth. *)
Definition retry_budget (calls budget_percent : N) : N :=
  sat_mul U64_MAX calls (N.min budget_percent 100) / 100.

Definition RetryBudgetRegistry_allow_retry (reg : RetryBudgetRegistry) (key : rstr)
    (budget_percent : option N) (now : N) : bool * RetryBudgetRegistry :=
  match budget_percent with
  | None => (true, reg)
  | Some budget_percent =>
      let state := default {| window_start := now; calls := 1; retries := 0 |}
                     (rb_states reg !! key) in
      let state := reset_retry_budget_window state now (rb_window reg) in
      let allowed := retries state <? N.max (retry_budget (calls state) budget_percent) 1 in
      let state := if allowed
                   then {| window_start := window_start state; calls := calls state;
                           retries := sat_add U64_MAX (retries state) 1 |}
                   else state in
      (allowed, {| rb_states := <[key := state]> (rb_states reg); rb_window := rb_window reg |})
  end.

(** ** Token buckets *)

Record RateLimitState := { tokens : f64; last_refill : N }.
Abbreviation RateLimitRegistry := (gmap rstr RateLimitState).

Definition refill_tokens (state : RateLimitState) (config : RateLimitConfig) (now : N)
    : RateLimitState :=
  let refill_secs := as_secs_f64 (refill config) in
  if f64_leb refill_secs (f64_of_N 0)
  then {| tokens := f64_of_N (burst config); last_refill := now |}
  else
    let elapsed := as_secs_f64 (now - last_refill state) in
    let tokens_to_add := f64_mul (f64_div elapsed refill_secs) (f64_of_N (tokens_per_refill config)) in
    if f64_ltb (f64_of_N 0) tokens_to_add
    then {| tokens := f64_min (f64_add (tokens state) tokens_to_add) (f64_of_N (burst config));
            last_refill := now |}
    else state.

Definition RateLimitRegistry_allow (reg : RateLimitRegistry) (key : rstr)
    (config : RateLimitConfig) (now : N) : bool * RateLimitRegistry :=
  let state := default {| tokens := f64_of_N (burst config); last_refill := now |} (reg !! key) in
  let state := refill_tokens state config now in
  if f64_leb (f64_of_N 1) (tokens state)
  then (true, <[key := {| tokens := f64_sub (tokens state) (f64_of_N 1);
                          last_refill := last_refill state |}]> reg)
  else (false, <[key := state]> reg).

(** ** Load shedding *)

Record SheddingBucket :=
  { started_at : N; samples : N; bucket_failures : N; total_latency : N }.
Record SheddingState :=
  { in_flight : N; buckets : list SheddingBucket; shed_open_until : option N }.
Abbreviation SheddingRegistry := (gmap rstr SheddingState).

Definition SHEDDING_BUCKETS : nat := 50.

Definition SheddingState_default : SheddingState :=
  {| in_flight := 0; buckets := []; shed_open_until := None |}.

Definition shedding_is_open (state : SheddingState) (now : N) : bool * SheddingState :=
  match shed_open_until state with
  | Some open_until =>
      if now <? open_until then (true, state)
      else (false, {| in_flight := in_flight state; buckets := buckets state;
                      shed_open_until := None |})
  | None => (false, state)
  end.

Definition shedding_bucket_duration (window : N) : N :=
  N.max (window / N.of_nat SHEDDING_BUCKETS) (from_millis 1).

Definition prune_shedding_buckets (state : SheddingState) (now window : N) : SheddingState :=
  let effective_window := N.max window (shedding_bucket_duration window) in
  {| in_flight := in_flight state;
     buckets := drop_while (λ b, effective_window <=? now - started_at b) (buckets state);
     shed_open_until := shed_open_until state |}.

(** [while buckets.len() > SHEDDING_BUCKETS { buckets.pop_front() }] *)
Definition cap_shedding_buckets (bs : list SheddingBucket) : list SheddingBucket :=
  drop (length bs - SHEDDING_BUCKETS) bs.

Definition bucket_add (b : SheddingBucket) (success : bool) (latency : N) : SheddingBucket :=
  {| started_at := started_at b; samples := sat_add U64_MAX (samples b) 1;
     bucket_failures := sat_add U64_MAX (bucket_failures b) (if success then 0 else 1);
     total_latency := sat_add DURATION_MAX (total_latency b) latency |}.

Definition record_shedding_sample (state : SheddingState) (now : N) (success : bool)
    (latency window : N) : SheddingState :=
  let state := prune_shedding_buckets state now window in
  let bucket_duration := shedding_bucket_duration window in
  let fresh := {| started_at := now; samples := 1;
                  bucket_failures := if success then 0 else 1; total_latency := latency |} in
  let bs := buckets state in
  let bs' :=
    match last bs with
    | Some b => if now - started_at b <? bucket_duration
                then take (pred (length bs)) bs ++ [bucket_add b success latency]
                else cap_shedding_buckets (bs ++ [fresh])
    | None => cap_shedding_buckets (bs ++ [fresh])
    end in
  {| in_flight := in_flight state; buckets := bs'; shed_open_until := shed_open_until state |}.

(** [sum::<u64>()] wraps (a build with overflow checks panics instead). *)
Definition sum_u64 (f : SheddingBucket → N) (bs : list SheddingBucket) : N :=
  foldl (λ acc b, wrap 64 (acc + f b)) 0 bs.

Definition should_shed (state : SheddingState) (config : SheddingConfig) : bool :=
  let sample_count := sum_u64 samples (buckets state) in
  if sample_count <? N.max (min_samples config) 1 then false
  else
    let total := foldl (λ acc b, sat_add DURATION_MAX acc (total_latency b)) 0 (buckets state) in
    if max_avg_latency config <? total / sample_count then true
    else
      let failures := sum_u64 bucket_failures (buckets state) in
      let failure_ratio := sat_mul U64_MAX failures 1000 / N.max sample_count 1 in
      max_failure_ratio_per_mille config <? failure_ratio.

Definition SheddingRegistry_allow (reg : SheddingRegistry) (key : rstr) (config : SheddingConfig)
    (now : N) : bool * SheddingRegistry :=
  let state := default SheddingState_default (reg !! key) in
  let state := prune_shedding_buckets state now (window config) in
  let '(is_open, state) := shedding_is_open state now in
  if is_open then (false, <[key := state]> reg)
  else if N.max (concurrency config) 1 <=? in_flight state then (false, <[key := state]> reg)
  else (true, <[key := {| in_flight := sat_add U64_MAX (in_flight state) 1;
                          buckets := buckets state;
                          shed_open_until := shed_open_until state |}]> reg).

Definition SheddingRegistry_record (reg : SheddingRegistry) (key : rstr) (success : bool)
    (latency : N) (config : SheddingConfig) (now : N) : SheddingRegistry :=
  let state := default SheddingState_default (reg !! key) in
  let state := {| in_flight := in_flight state - 1; buckets := buckets state;
                  shed_open_until := shed_open_until state |} in
  let state := record_shedding_sample state now success latency (window config) in
  let state := if should_shed state config
               then {| in_flight := in_flight state; buckets := buckets state;
                       shed_open_until := Some (now + cool_down config) |}
               else state in
  <[key := state]> reg.

Definition SheddingRegistry_release (reg : SheddingRegistry) (key : rstr) : SheddingRegistry :=
  match reg !! key with
  | Some state => <[key := {| in_flight := in_flight state - 1; buckets := buckets state;
                              shed_open_until := shed_open_until state |}]> reg
  | None => reg
  end.

Record SheddingSnapshot :=
  { shed_snap_in_flight : N; shed_snap_samples : N; shed_snap_buckets : N;
    shed_snap_open_until : option N }.

Definition SheddingRegistry_snapshot (reg : SheddingRegistry) (key : rstr)
    : option SheddingSnapshot :=
  (λ state, {| shed_snap_in_flight := in_flight state;
               shed_snap_samples := sum_u64 samples (buckets state);
               shed_snap_buckets := N.of_nat (length (buckets state));
               shed_snap_open_until := shed_open_until state |}) <$> reg !! key.

(** ** Lemmas on operation keys *)

(** What a canonical part may contain: accepted characters without capitals. *)
Definition canonical_char (c : N) : bool := operation_char c && negb (is_ascii_uppercase c).

Lemma to_ascii_lowercase_canonical c :
  operation_char c = true → canonical_char (to_ascii_lowercase c) = true.
Proof.
  unfold canonical_char, to_ascii_lowercase. intros H.
  destruct (is_ascii_uppercase c) eqn:Hu; [|by rewrite H, Hu].
  unfold operation_char, is_ascii_alphanumeric, is_ascii_lowercase, is_ascii_uppercase,
    is_ascii_digit in *.
  guard_prop.
  destruct (97 <=? c + 32) eqn:E1; guard_prop; [|lia].
  destruct (c + 32 <=? 122) eqn:E2; guard_prop; [|lia].
  destruct (65 <=? c + 32) eqn:E3; guard_prop; [|done].
  destruct (c + 32 <=? 90) eqn:E4; guard_prop; [lia|]. done.
Qed.

Lemma canonical_chars_Forall chars prev :
  Forall (λ c, canonical_char c = true) (canonical_chars chars prev).
Proof.
  revert prev. induction chars as [|ch chars IH]; intros prev; simpl; [constructor|].
  destruct (operation_char ch) eqn:E.
  - constructor; [by apply to_ascii_lowercase_canonical | apply IH].
  - destruct prev; simpl; [apply IH | constructor; [done | apply IH]].
Qed.

Lemma canonical_chars_length chars prev :
  (length (canonical_chars chars prev) ≤ length chars)%nat.
Proof.
  revert prev. induction chars as [|ch chars IH]; intros prev; simpl; [lia|].
  destruct (operation_char ch); simpl; [specialize (IH false); lia|].
  destruct prev; simpl; [specialize (IH true); lia | specialize (IH true); lia].
Qed.

Lemma canonical_chars_id chars prev :
  Forall (λ c, canonical_char c = true) chars → canonical_chars chars prev = chars.
Proof.
  intros HF. revert prev. induction HF as [|c chars Hc HF IH]; intros prev; simpl; [done|].
  apply andb_true_iff in Hc as [Ho Hu]. rewrite Ho, IH. unfold to_ascii_lowercase.
  by rewrite (proj1 (negb_true_iff _) Hu).
Qed.

(** The shape of a canonical part. *)
Record canonical_part (s : rstr) : Prop :=
  { cp_chars : Forall (λ c, canonical_char c = true) s;
    cp_length : (length s ≤ MAX_LEN)%nat;
    cp_nonempty : s ≠ [];
    cp_head : head s ≠ Some 95;
    cp_last : last s ≠ Some 95 }.

Lemma canonical_operation_part_shape value : canonical_part (canonical_operation_part value).
Proof.
  unfold canonical_operation_part.
  set (t := trim_matches _ _).
  assert (t = [] ∨ canonical_part t) as [->|Ht].
  - destruct (decide (t = [])) as [|Hne]; [by left|right]. split; [..|done| |].
    + apply trim_matches_Forall, canonical_chars_Forall.
    + etrans; [apply trim_matches_length|]. etrans; [apply canonical_chars_length|].
      rewrite length_take. lia.
    + destruct t as [|x t'] eqn:E; simpl; [done|]. intros [= ->].
      by apply trim_matches_head in E.
    + intros Hl. apply last_Some in Hl as [l' Hl]. unfold t in Hl. by apply trim_matches_last in Hl.
  - split; [by repeat constructor | vm_compute; lia | done..].
  - by destruct t; [destruct Ht|].
Qed.

Lemma canonical_operation_part_fixed s : canonical_part s → canonical_operation_part s = s.
Proof.
  intros [Hc Hlen Hne Hh Hl]. unfold canonical_operation_part.
  rewrite take_ge by done. rewrite canonical_chars_id by done.
  rewrite trim_matches_id; [by destruct s | |].
  - intros x l' ->. simpl in Hh. destruct (N.eqb_spec x 95); [by subst|done].
  - intros x l' ->. rewrite last_snoc in Hl. destruct (N.eqb_spec x 95); [by subst|done].
Qed.

(** ** Lemmas on back-off *)

Lemma exponential_backoff_cap_le base max attempt : exponential_backoff_cap base max attempt ≤ max.
Proof. unfold exponential_backoff_cap. lia. Qed.

Lemma exponential_backoff_cap_mono base max a a' :
  a ≤ a' → exponential_backoff_cap base max a ≤ exponential_backoff_cap base max a'.
Proof.
  intros H. unfold exponential_backoff_cap. apply N.min_le_compat_r, sat_mul_mono_r.
  rewrite !N.shiftl_1_l. apply N.pow_le_mono_r; lia.
Qed.

Lemma full_jitter_le base max attempt sample :
  sample ≤ U64_MAX →
  full_jitter_delay_with_sample base max attempt sample ≤
    N.min (exponential_backoff_cap base max attempt) U64_MAX.
Proof.
  intros Hs. unfold full_jitter_delay_with_sample.
  set (cap := N.min _ U64_MAX). destruct (N.eqb_spec cap U64_MAX) as [->|]; [done|].
  pose proof (N.mod_lt sample (cap + 1)). lia.
Qed.

Lemma full_jitter_onto base max attempt d :
  d ≤ N.min (exponential_backoff_cap base max attempt) U64_MAX →
  full_jitter_delay_with_sample base max attempt d = d.
Proof.
  intros Hd. unfold full_jitter_delay_with_sample.
  set (cap := N.min _ U64_MAX) in *. destruct (N.eqb_spec cap U64_MAX) as [|]; [done|].
  apply N.mod_small. lia.
Qed.

(** ** Lemmas on the xorshift generator *)

Lemma xorshift_left_nonzero x k : 0 < k → x < 2 ^ 64 → N.lxor x (wrap 64 (N.shiftl x k)) = 0 → x = 0.
Proof.
  intros Hk Hx H. apply N.lxor_eq in H.
  assert (∀ i, N.testbit x i = false) as Hb.
  { intros i. induction (N.lt_wf_0 i) as [i _ IH]. rewrite H. unfold wrap.
    destruct (N.lt_ge_cases i 64).
    - rewrite N.mod_pow2_bits_low by done. destruct (N.lt_ge_cases i k).
      + by apply N.shiftl_spec_low.
      + rewrite N.shiftl_spec_high' by done. apply IH. lia.
    - by apply N.mod_pow2_bits_high. }
  apply N.bits_inj_0. exact Hb.
Qed.

Lemma xorshift_right_nonzero x k : 0 < k → N.lxor x (N.shiftr x k) = 0 → x = 0.
Proof.
  intros Hk H. apply N.lxor_eq in H. rewrite N.shiftr_div_pow2 in H.
  destruct (N.eq_dec x 0) as [|Hne]; [done|].
  assert (x / 2 ^ k < x); [|lia]. apply N.div_lt; [lia|]. apply N.pow_gt_1; lia.
Qed.

Lemma lxor_lt_pow2 a b n : a < 2 ^ n → b < 2 ^ n → N.lxor a b < 2 ^ n.
Proof.
  intros Ha Hb. destruct (N.eq_dec (N.lxor a b) 0) as [->|Hne]; [lia|].
  apply N.log2_lt_pow2; [lia|]. pose proof (N.log2_lxor a b).
  destruct (N.eq_dec n 0) as [->|]; [replace a with 0 in * by lia; replace b with 0 in * by lia; done|].
  destruct (N.eq_dec a 0) as [->|]; destruct (N.eq_dec b 0) as [->|]; [done|..].
  - rewrite N.lxor_0_l in *. apply N.log2_lt_pow2; lia.
  - rewrite N.lxor_0_r in *. apply N.log2_lt_pow2; lia.
  - assert (N.log2 a < n) by (apply N.log2_lt_pow2; lia).
    assert (N.log2 b < n) by (apply N.log2_lt_pow2; lia). lia.
Qed.

Lemma next_retry_jitter_range x : x < 2 ^ 64 → (next_retry_jitter x).1 < 2 ^ 64.
Proof.
  intros Hx. simpl. unfold wrap.
  assert (∀ y, N.shiftr y 7 ≤ y) as Hr.
  { intros y. rewrite N.shiftr_div_pow2. apply N.Div0.div_le_upper_bound. lia. }
  repeat apply lxor_lt_pow2; try apply N.mod_lt; try done.
  eapply N.le_lt_trans; [apply Hr|]. apply lxor_lt_pow2; [done|]. by apply N.mod_lt.
Qed.

(** The generator never falls into its fixed point zero. *)
Lemma next_retry_jitter_nonzero x : x < 2 ^ 64 → (next_retry_jitter x).1 = 0 → x = 0.
Proof.
  intros Hx H. unfold next_retry_jitter in H; cbn [fst] in H.
  set (a := N.lxor x (wrap 64 (N.shiftl x 13))) in *.
  assert (a < 2 ^ 64) as Ha by (apply lxor_lt_pow2; [done | by apply N.mod_lt]).
  apply xorshift_left_nonzero in H; [|done|].
  - apply xorshift_right_nonzero in H; [|done]. by apply xorshift_left_nonzero in H.
  - apply lxor_lt_pow2; [done|]. eapply N.le_lt_trans; [|exact Ha].
    rewrite N.shiftr_div_pow2. apply N.Div0.div_le_upper_bound. lia.
Qed.

(** ** Executions of a retry budget *)

Inductive budget_call := RecordCall | AllowRetry (budget_percent : option N).
Record budget_event := { be_key : rstr; be_now : N; be_call : budget_call }.

Definition budget_step (reg : RetryBudgetRegistry) (e : budget_event) : bool * RetryBudgetRegistry :=
  match be_call e with
  | RecordCall => (false, RetryBudgetRegistry_record_call reg (be_key e) (be_now e))
  | AllowRetry pct => RetryBudgetRegistry_allow_retry reg (be_key e) pct (be_now e)
  end.

(** The answers of an execution, [false] for the calls that answer nothing. *)
Fixpoint budget_run (reg : RetryBudgetRegistry) (es : list budget_event)
    : list (budget_event * bool) * RetryBudgetRegistry :=
  match es with
  | [] => ([], reg)
  | e :: es' =>
      let '(b, reg') := budget_step reg e in
      let '(bs, reg'') := budget_run reg' es' in ((e, b) :: bs, reg'')
  end.

Lemma budget_run_cons reg e es :
  budget_run reg (e :: es) =
    ((e, (budget_step reg e).1) :: (budget_run (budget_step reg e).2 es).1,
     (budget_run (budget_step reg e).2 es).2).
Proof. simpl. destruct (budget_step reg e); simpl. by destruct (budget_run _ es). Qed.

Lemma budget_step_window reg e : rb_window (budget_step reg e).2 = rb_window reg.
Proof.
  unfold budget_step, RetryBudgetRegistry_allow_retry. by destruct (be_call e) as [|[]].
Qed.

Lemma budget_step_frame reg e key :
  be_key e ≠ key → rb_states (budget_step reg e).2 !! key = rb_states reg !! key.
Proof.
  intros Hne. unfold budget_step, RetryBudgetRegistry_allow_retry.
  destruct (be_call e) as [|[]]; simpl; by rewrite ?lookup_insert_ne.
Qed.

Lemma retry_budget_mono c c' p : c ≤ c' → retry_budget c p ≤ retry_budget c' p.
Proof. intros H. apply N.Div0.div_le_mono. by apply sat_mul_mono_l. Qed.

Section retry_budget_window.
Context (key : rstr) (p t0 : N).

Definition is_record_call (e : budget_event) : bool :=
  bool_decide (be_key e = key) && match be_call e with RecordCall => true | _ => false end.
Definition is_granted (a : budget_event * bool) : bool := bool_decide (be_key a.1 = key) && a.2.

Definition count_calls (es : list budget_event) : N :=
  N.of_nat (length (filter (λ e, is_record_call e = true) es)).
Definition count_granted (l : list (budget_event * bool)) : N :=
  N.of_nat (length (filter (λ a, is_granted a = true) l)).

(** Events of [key] ask for percentage [p] and fall in the window begun at [t0]. *)
Definition in_budget_window (w : N) (e : budget_event) : Prop :=
  be_key e = key →
  t0 ≤ be_now e ≤ t0 + w ∧ (be_call e = RecordCall ∨ be_call e = AllowRetry (Some p)).

Lemma count_calls_cons e es :
  count_calls (e :: es) = (if is_record_call e then 1 else 0) + count_calls es.
Proof.
  unfold count_calls. rewrite filter_cons. case_decide as H; destruct (is_record_call e);
    try done; simpl length; lia.
Qed.

Lemma count_granted_cons a l :
  count_granted (a :: l) = (if is_granted a then 1 else 0) + count_granted l.
Proof.
  unfold count_granted. rewrite filter_cons. case_decide as H; destruct (is_granted a);
    try done; simpl length; lia.
Qed.

Lemma reset_in_window s now w :
  window_start s = t0 → t0 ≤ now ≤ t0 + w → reset_retry_budget_window s now w = s.
Proof.
  intros Hs Hn. unfold reset_retry_budget_window. rewrite (proj2 (N.ltb_ge _ _)); [done|lia].
Qed.

(** Inside a window the state counts the calls and the granted retries. *)
Lemma budget_run_counts es reg c r :
  rb_states reg !! key = Some {| window_start := t0; calls := c; retries := r |} →
  c + count_calls es ≤ U64_MAX →
  r ≤ N.max (retry_budget c p) 1 →
  Forall (in_budget_window (rb_window reg)) es →
  let out := budget_run reg es in
  rb_states out.2 !! key =
    Some {| window_start := t0; calls := c + count_calls es; retries := r + count_granted out.1 |} ∧
  rb_window out.2 = rb_window reg ∧
  r + count_granted out.1 ≤ N.max (retry_budget (c + count_calls es) p) 1.
Proof.
  revert reg c r. induction es as [|e es IH]; intros reg c r Hs Hsat Hr HF;
    [simpl; by rewrite !N.add_0_r|cbv zeta].
  apply Forall_cons in HF as [He HF]. rewrite <- (budget_step_window reg e) in HF.
  rewrite budget_run_cons. cbn [fst snd]. rewrite count_calls_cons in *. rewrite count_granted_cons.
  rewrite <- (budget_step_window reg e). unfold is_record_call, is_granted in *; cbn [fst snd] in *.
  destruct (decide (be_key e = key)) as [Hk|Hk].
  2: { rewrite (bool_decide_false _ Hk) in *. simpl in *. rewrite !N.add_0_l in *.
       apply IH; [by rewrite budget_step_frame | done..]. }
  rewrite (bool_decide_true _ Hk) in *. simpl andb in *.
  destruct (He Hk) as [Hn [Hc|Hc]]; unfold budget_step in *; rewrite Hc, ?Hk in *; simpl in *.
  - destruct (IH (RetryBudgetRegistry_record_call reg key (be_now e)) (c + 1) r) as (H1 & H2 & H3).
    + simpl. rewrite lookup_insert_eq, Hs. simpl. rewrite reset_in_window by done. simpl.
      rewrite sat_add_small by lia. done.
    + lia.
    + pose proof (retry_budget_mono c (c + 1) p). lia.
    + done.
    + rewrite (N.add_assoc c 1). rewrite N.add_0_l. done.
  - rewrite Hs in *. simpl in *. rewrite reset_in_window in * by done. simpl in *. rewrite N.add_0_l in *.
    assert (retry_budget c p ≤ U64_MAX) as Hb.
    { unfold retry_budget. etrans; [apply N.Div0.div_le_upper_bound|exact (sat_mul_le U64_MAX c (N.min p 100))]. lia. }
    set (reg' := {| rb_states := _; rb_window := rb_window reg |}) in *.
    destruct (N.ltb_spec r (N.max (retry_budget c p) 1)) as [Hlt|Hge].
    + rewrite N.add_assoc. apply (IH reg' c (r + 1)); [|lia..|done].
      unfold reg'; simpl. rewrite lookup_insert_eq. simpl. by rewrite sat_add_small by lia.
    + apply (IH reg' c r); [|lia..|done]. unfold reg'; simpl. by rewrite lookup_insert_eq.
Qed.
End retry_budget_window.

(** ** Executions of a load shedder *)

(** [shed_exec key config reg n]: an execution reaches [reg] with [n] calls of
    [key] admitted and not yet settled; each settlement ([record], [release])
    of [key] settles an admitted call. Calls on other keys are free. *)
Inductive shed_exec (key : rstr) (config : SheddingConfig) : SheddingRegistry → N → Prop :=
| shed_new : shed_exec key config ∅ 0
| shed_admit reg n now reg' :
    shed_exec key config reg n → SheddingRegistry_allow reg key config now = (true, reg') →
    shed_exec key config reg' (n + 1)
| shed_refuse reg n now reg' :
    shed_exec key config reg n → SheddingRegistry_allow reg key config now = (false, reg') →
    shed_exec key config reg' n
| shed_record reg n success latency now :
    shed_exec key config reg (n + 1) →
    shed_exec key config (SheddingRegistry_record reg key success latency config now) n
| shed_release reg n :
    shed_exec key config reg (n + 1) → shed_exec key config (SheddingRegistry_release reg key) n
| shed_other_allow reg n key' config' now :
    shed_exec key config reg n → key' ≠ key →
    shed_exec key config (SheddingRegistry_allow reg key' config' now).2 n
| shed_other_record reg n key' success latency config' now :
    shed_exec key config reg n → key' ≠ key →
    shed_exec key config (SheddingRegistry_record reg key' success latency config' now) n
| shed_other_release reg n key' :
    shed_exec key config reg n → key' ≠ key →
    shed_exec key config (SheddingRegistry_release reg key') n.

Definition shed_entry (reg : SheddingRegistry) (key : rstr) : SheddingState :=
  default SheddingState_default (reg !! key).

Lemma shed_entry_insert reg key s : shed_entry (<[key := s]> reg) key = s.
Proof. unfold shed_entry. by rewrite lookup_insert_eq. Qed.
Lemma shed_entry_insert_ne reg key key' s :
  key' ≠ key → shed_entry (<[key' := s]> reg) key = shed_entry reg key.
Proof. intros. unfold shed_entry. by rewrite lookup_insert_ne. Qed.

(** The answer of [allow] and the state it leaves. *)
Lemma SheddingRegistry_allow_spec reg key config now :
  let s := shed_entry reg key in
  let admitted := negb (match shed_open_until s with Some u => now <? u | None => false end)
                  && (in_flight s <? N.max (concurrency config) 1) in
  (SheddingRegistry_allow reg key config now).1 = admitted ∧
  let s' := shed_entry (SheddingRegistry_allow reg key config now).2 key in
  in_flight s' = (if admitted then sat_add U64_MAX (in_flight s) 1 else in_flight s) ∧
  buckets s' = buckets (prune_shedding_buckets s now (window config)) ∧
  ∀ key', key ≠ key' →
    shed_entry (SheddingRegistry_allow reg key config now).2 key' = shed_entry reg key'.
Proof.
  unfold SheddingRegistry_allow. fold (shed_entry reg key).
  destruct (shed_entry reg key) as [fl bs ou]; unfold shedding_is_open; simpl.
  destruct ou as [u|]; [destruct (now <? u)|]; simpl;
    try (destruct (N.leb_spec (N.max (concurrency config) 1) fl);
         [rewrite (proj2 (N.ltb_ge _ _)) by lia | rewrite (proj2 (N.ltb_lt _ _)) by lia]); simpl;
    rewrite shed_entry_insert; (split_and!; [done..|intros; by apply shed_entry_insert_ne]).
Qed.

Lemma cap_shedding_buckets_length bs : (length (cap_shedding_buckets bs) ≤ SHEDDING_BUCKETS)%nat.
Proof. unfold cap_shedding_buckets. rewrite length_drop. lia. Qed.

Lemma drop_while_length {A} (p : A → bool) l : (length (drop_while p l) ≤ length l)%nat.
Proof. destruct (drop_while_suffix p l) as (k & Hk & _). rewrite Hk at 2. rewrite length_app. lia. Qed.

Lemma record_shedding_sample_buckets s now success latency w :
  (length (buckets s) ≤ SHEDDING_BUCKETS)%nat →
  (length (buckets (record_shedding_sample s now success latency w)) ≤ SHEDDING_BUCKETS)%nat.
Proof.
  intros Hl. unfold record_shedding_sample; cbn [buckets].
  assert (length (buckets (prune_shedding_buckets s now w)) ≤ SHEDDING_BUCKETS)%nat as Hp
    by (simpl; etrans; [apply drop_while_length|done]).
  destruct (last _) as [b|] eqn:E; [|apply cap_shedding_buckets_length].
  destruct (_ <? _); [|apply cap_shedding_buckets_length].
  apply last_Some in E as [l' E]. rewrite E in *. rewrite length_app in *; simpl in *.
  rewrite length_take, length_app in *. simpl. lia.
Qed.

Lemma shed_exec_inv key config reg n :
  concurrency config ≤ U64_MAX → shed_exec key config reg n →
  in_flight (shed_entry reg key) = n ∧ n ≤ N.max (concurrency config) 1 ∧
  (length (buckets (shed_entry reg key)) ≤ SHEDDING_BUCKETS)%nat.
Proof.
  intros Hc. induction 1 as [|reg n now reg' _ (Hf & Hn & Hb) Ha|reg n now reg' _ (Hf & Hn & Hb) Ha
    |reg n ok lat now _ (Hf & Hn & Hb)|reg n _ (Hf & Hn & Hb)|reg n key' c' now _ IH Hne
    |reg n key' ok lat c' now _ IH Hne|reg n key' _ IH Hne].
  - split_and!; [done | lia | apply Nat.le_0_l].
  - destruct (SheddingRegistry_allow_spec reg key config now) as (H1 & H2 & H3 & _).
    rewrite Ha in *; cbn [fst snd] in *. rewrite <- H1 in H2.
    symmetry in H1. apply andb_true_iff in H1 as [_ Hlt]. guard_prop.
    rewrite H2, H3. rewrite sat_add_small by lia.
    split_and!; [lia | lia | etrans; [apply drop_while_length | done]].
  - destruct (SheddingRegistry_allow_spec reg key config now) as (H1 & H2 & H3 & _).
    rewrite Ha in *; cbn [fst snd] in *. rewrite <- H1 in H2. rewrite H2, H3.
    split_and!; [done..| etrans; [apply drop_while_length | done]].
  - unfold SheddingRegistry_record. rewrite shed_entry_insert. fold (shed_entry reg key).
    split_and!; [| lia |].
    + destruct (should_shed _ _); simpl; lia.
    + match goal with |- context [record_shedding_sample ?s] =>
        pose proof (record_shedding_sample_buckets s now ok lat (window config) Hb) end.
      by destruct (should_shed _ _).
  - unfold SheddingRegistry_release, shed_entry in *.
    destruct (reg !! key) as [s|] eqn:E; simpl in *.
    + rewrite lookup_insert_eq; simpl. split_and!; [lia..|done].
    + lia.
  - destruct (SheddingRegistry_allow_spec reg key' c' now) as (_ & _ & _ & H).
    by rewrite H.
  - unfold SheddingRegistry_record. by rewrite shed_entry_insert_ne.
  - unfold SheddingRegistry_release. destruct (reg !! key'); [by rewrite shed_entry_insert_ne|done].
Qed.

(** ** Properties *)

(** The canonical part of an operation key is well formed (1 to 160
    characters among lower-case letters, digits and [-_./:{}], without a
    leading or trailing separator), and canonicalising it again gives it back. *)
Theorem canonical_operation_part_idempotent value :
  let c := canonical_operation_part value in
  canonical_part c ∧ canonical_operation_part c = c.
Proof.
  pose proof (canonical_operation_part_shape value) as Hs.
  split; [done|]. by apply canonical_operation_part_fixed.
Qed.

(** Full jitter draws from exactly the interval between zero and the
    exponential cap. The cap is [base * 2^(attempt-1)] (the exponent stops at
    31, the product at [Duration::MAX]), never above [max], and does not
    decrease with the attempt; every 64-bit sample gives a delay of at most the
    cap (and of at most [u64::MAX] nanoseconds), and every such delay is drawn. *)
Theorem full_jitter_range base max attempt :
  let cap := exponential_backoff_cap base max attempt in
  cap = N.min (N.min (base * 2 ^ N.min (attempt - 1) 31) DURATION_MAX) max ∧
  (∀ attempt', attempt ≤ attempt' → cap ≤ exponential_backoff_cap base max attempt') ∧
  ∀ d, d ≤ N.min cap U64_MAX ↔
       ∃ sample, sample ≤ U64_MAX ∧ full_jitter_delay_with_sample base max attempt sample = d.
Proof.
  intros cap. split_and!.
  - unfold cap, exponential_backoff_cap, sat_mul. by rewrite N.shiftl_1_l.
  - intros a' Ha. by apply exponential_backoff_cap_mono.
  - intros d. split.
    + intros Hd. exists d. split; [lia|]. by apply full_jitter_onto.
    + intros (sample & Hs & <-). by apply full_jitter_le.
Qed.

(** A retry budget is spent exactly. In the window opened by the first
    [record_call] of a key, with [c] further calls and any interleaving of
    calls on other keys, the retries granted number at most
    [max (calls * min(pct, 100) / 100) 1], and the next [allow_retry] in the
    window is granted exactly while fewer than that have been. *)
Theorem retry_budget_window_exact key p t0 w es t :
  let reg := RetryBudgetRegistry_record_call (RetryBudgetRegistry_new w) key t0 in
  let out := budget_run reg es in
  1 + count_calls key es ≤ U64_MAX →
  Forall (in_budget_window key p t0 w) es →
  t0 ≤ t ≤ t0 + w →
  let allowance := N.max (retry_budget (1 + count_calls key es) p) 1 in
  count_granted key out.1 ≤ allowance ∧
  (RetryBudgetRegistry_allow_retry out.2 key (Some p) t).1 =
    (count_granted key out.1 <? allowance).
Proof.
  intros reg out Hsat HF Ht allowance.
  assert (rb_states reg !! key = Some {| window_start := t0; calls := 1; retries := 0 |}) as H0.
  { unfold reg; simpl. rewrite lookup_insert_eq, lookup_empty; simpl.
    by rewrite (reset_in_window t0) by (simpl; lia). }
  destruct (budget_run_counts key p t0 es reg 1 0 H0 Hsat) as (H1 & H2 & H3); [lia|done|].
  fold out in H1, H2, H3. rewrite N.add_0_l in *. split; [done|].
  unfold RetryBudgetRegistry_allow_retry. rewrite H1. simpl. rewrite H2.
  by rewrite (reset_in_window t0).
Qed.

(** Load shedding bounds concurrency. In every execution that settles only
    admitted calls, the registry's [in_flight] is the number of calls admitted
    and not yet settled, that number never exceeds [concurrency.max(1)], and at
    most [SHEDDING_BUCKETS] buckets are kept; an [allow] is granted exactly when
    the key is not cooling down and a slot is free. *)
Theorem shedding_bounds_concurrency key config reg n now :
  concurrency config ≤ U64_MAX → shed_exec key config reg n →
  in_flight (shed_entry reg key) = n ∧ n ≤ N.max (concurrency config) 1 ∧
  (length (buckets (shed_entry reg key)) ≤ SHEDDING_BUCKETS)%nat ∧
  ((SheddingRegistry_allow reg key config now).1 = true ↔
   (∀ u, shed_open_until (shed_entry reg key) = Some u → u ≤ now) ∧
   n < N.max (concurrency config) 1).
Proof.
  intros Hc He. destruct (shed_exec_inv _ _ _ _ Hc He) as (Hf & Hn & Hb).
  split_and!; [done..|].
  destruct (SheddingRegistry_allow_spec reg key config now) as [-> _]. rewrite Hf.
  rewrite andb_true_iff, N.ltb_lt, negb_true_iff.
  apply and_iff_compat_r. destruct (shed_open_until _) as [u|].
  - rewrite N.ltb_ge. naive_solver.
  - naive_solver.
Qed.

(** ** Witnesses *)

Definition ex_budget_events : list budget_event :=
  [ {| be_key := lit "k"; be_now := 12; be_call := AllowRetry (Some 50) |};
    {| be_key := lit "other"; be_now := 900; be_call := RecordCall |};
    {| be_key := lit "k"; be_now := 13; be_call := AllowRetry (Some 50) |} ].

Lemma retry_budget_window_exact_witness :
  count_granted (lit "k")
    (budget_run (RetryBudgetRegistry_record_call (RetryBudgetRegistry_new 60) (lit "k") 10)
       ex_budget_events).1 ≤ 1.
Proof.
  refine (proj1 (retry_budget_window_exact (lit "k") 50 10 60 ex_budget_events 14 _ _ _)).
  - vm_compute. discriminate.
  - repeat (apply Forall_cons; split); [| | |by apply Forall_nil]; intros Hk;
      [split; [vm_compute; split; discriminate | by right] | discriminate Hk |
       split; [vm_compute; split; discriminate | by right]].
  - vm_compute. split; discriminate.
Defined.

Definition ex_shedding : SheddingConfig :=
  {| concurrency := 1; window := from_secs 10; min_samples := 5; max_avg_latency := from_secs 1;
     max_failure_ratio_per_mille := 500; cool_down := from_secs 5 |}.

Lemma shedding_bounds_concurrency_witness :
  in_flight (shed_entry (SheddingRegistry_allow ∅ (lit "k") ex_shedding 7).2 (lit "k")) = 1.
Proof.
  refine (proj1 (shedding_bounds_concurrency (lit "k") ex_shedding _ 1 9 _ _)).
  - vm_compute. discriminate.
  - exact (shed_admit (lit "k") ex_shedding ∅ 0 7 _ (shed_new _ _) eq_refl).
Defined.
