(* ===== verification/Eventbus.v ===== *)
(** * Event envelopes (crates/roze-eventbus/src/lib.rs)

    The envelope, its builder, and its transport over string headers
    ([transport_headers] / [from_transport]). A [HashMap<String, String>] is a
    [gmap]; where the code takes the first match of an iteration, the order is
    the map's own enumeration, one of those [HashMap] may choose. The event-id
    sequence is threaded as [seq], the clock as [now] (milliseconds). *)

From S2P Require Import Prelude Text Scan.

Record EventEnvelope (Value : Type) :=
  { env_event_id : rstr; env_event_type : rstr; env_version : N; env_schema_revision : rstr;
    env_topic : rstr; env_key : option rstr; env_headers : gmap rstr rstr;
    env_trace_context : gmap rstr rstr; env_tenant_id : option rstr;
    env_idempotency_key : option rstr; env_producer : rstr; env_attempt : N;
    env_occurred_at : Z; env_payload : Value }.
Arguments env_event_id {Value}. Arguments env_event_type {Value}. Arguments env_version {Value}.
Arguments env_schema_revision {Value}. Arguments env_topic {Value}. Arguments env_key {Value}.
Arguments env_headers {Value}. Arguments env_trace_context {Value}. Arguments env_tenant_id {Value}.
Arguments env_idempotency_key {Value}. Arguments env_producer {Value}. Arguments env_attempt {Value}.
Arguments env_occurred_at {Value}. Arguments env_payload {Value}.

(** [!value.trim().is_empty()] *)
Definition non_blank (s : rstr) : bool := negb (bool_decide (trim s = [])).

(** [headers.iter().find(..)] *)
Definition find_header (headers : gmap rstr rstr) (name : rstr) : option (rstr * rstr) :=
  snd <$> list_find (λ kv, eq_ignore_ascii_case kv.1 name && non_blank kv.2 = true)
            (map_to_list headers).

Definition required_header (headers : gmap rstr rstr) (name : rstr) : option rstr :=
  snd <$> find_header headers name.

Definition is_trace_context_header (name : rstr) : bool :=
  existsb (eq_ignore_ascii_case name)
    [lit "traceparent"; lit "tracestate"; lit "baggage"; lit "x-trace-id"].

Definition next_event_id (now seq : N) : rstr * N :=
  (lit "evt-" ++ dec now ++ lit "-" ++ dec seq, wrap 64 (seq + 1)).

Section envelope.
Context {Value : Type}.

Definition EventEnvelope_new (now seq : N) (topic : rstr) (payload : Value)
    : EventEnvelope Value * N :=
  let '(id, seq) := next_event_id now seq in
  ({| env_event_id := id; env_event_type := topic; env_version := 1;
      env_schema_revision := lit "1"; env_topic := topic; env_key := None; env_headers := ∅;
      env_trace_context := ∅; env_tenant_id := None; env_idempotency_key := None;
      env_producer := lit "unknown"; env_attempt := 0; env_occurred_at := Z.of_N now;
      env_payload := payload |}, seq).

Definition insert_opt (k : rstr) (v : option rstr) (m : gmap rstr rstr) : gmap rstr rstr :=
  match v with Some v => <[k := v]> m | None => m end.

Definition transport_headers (e : EventEnvelope Value) : gmap rstr rstr :=
  let headers := env_headers e in
  let headers := <[lit "x-roze-event-id" := env_event_id e]> headers in
  let headers := <[lit "x-roze-event-type" := env_event_type e]> headers in
  let headers := <[lit "x-roze-event-version" := dec (env_version e)]> headers in
  let headers := <[lit "x-roze-schema-revision" := env_schema_revision e]> headers in
  let headers := <[lit "x-roze-producer" := env_producer e]> headers in
  let headers := insert_opt (lit "x-roze-tenant-id") (env_tenant_id e) headers in
  let headers := insert_opt (lit "x-roze-idempotency-key") (env_idempotency_key e) headers in
  env_trace_context e ∪ headers.

Definition from_transport (now seq : N) (topic : rstr) (payload : Value) (key : option rstr)
    (headers : gmap rstr rstr) (attempt : N) : EventEnvelope Value * N :=
  let '(event, seq) := EventEnvelope_new now seq topic payload in
  let '(event_id, seq) :=
    match required_header headers (lit "x-roze-event-id") with
    | Some id => (id, seq)
    | None => next_event_id now seq
    end in
  ({| env_event_id := event_id;
      env_event_type :=
        default (env_topic event) (required_header headers (lit "x-roze-event-type"));
      env_version :=
        default 1 (required_header headers (lit "x-roze-event-version") ≫= parse_uint U32_MAX);
      env_schema_revision :=
        default (lit "1") (required_header headers (lit "x-roze-schema-revision"));
      env_topic := env_topic event;
      env_key := key;
      env_headers := headers;
      env_trace_context := filter (λ kv, is_trace_context_header kv.1 = true) headers;
      env_tenant_id := required_header headers (lit "x-roze-tenant-id");
      env_idempotency_key := required_header headers (lit "x-roze-idempotency-key");
      env_producer := default (lit "unknown") (required_header headers (lit "x-roze-producer"));
      env_attempt := attempt;
      env_occurred_at := env_occurred_at event;
      env_payload := env_payload event |}, seq).

Definition with_version (e : EventEnvelope Value) (version : N) (schema_revision : rstr)
    : EventEnvelope Value :=
  {| env_event_id := env_event_id e; env_event_type := env_event_type e;
     env_version := N.max version 1; env_schema_revision := schema_revision;
     env_topic := env_topic e; env_key := env_key e; env_headers := env_headers e;
     env_trace_context := env_trace_context e; env_tenant_id := env_tenant_id e;
     env_idempotency_key := env_idempotency_key e; env_producer := env_producer e;
     env_attempt := env_attempt e; env_occurred_at := env_occurred_at e;
     env_payload := env_payload e |}.

(** ** Lemmas on headers *)

(** No two header names differ only in case. *)
Definition headers_unambiguous (h : gmap rstr rstr) : Prop :=
  ∀ k k', is_Some (h !! k) → is_Some (h !! k') →
    str_to_ascii_lowercase k = str_to_ascii_lowercase k' → k = k'.

Lemma required_header_found h name v :
  headers_unambiguous h → h !! name = Some v → non_blank v = true →
  required_header h name = Some v.
Proof.
  intros Hu Hv Hb. unfold required_header, find_header.
  destruct (list_find _ _) as [[i [k w]]|] eqn:E.
  - apply list_find_Some in E as (Hi & Hp & _). simpl in *.
    apply list_elem_of_lookup_2, elem_of_map_to_list in Hi.
    apply andb_true_iff in Hp as [Hk%bool_decide_eq_true _].
    assert (k = name) as -> by (apply Hu; [by exists w | by exists v | done]). congruence.
  - apply list_find_None in E. rewrite Forall_forall in E.
    apply elem_of_map_to_list in Hv. destruct (E _ Hv). simpl.
    unfold eq_ignore_ascii_case. by rewrite bool_decide_true, Hb.
Qed.

Lemma required_header_missing h name :
  (∀ k, is_Some (h !! k) → str_to_ascii_lowercase k ≠ str_to_ascii_lowercase name) →
  required_header h name = None.
Proof.
  intros Hn. unfold required_header, find_header.
  destruct (list_find _ _) as [[i [k w]]|] eqn:E; [|done].
  apply list_find_Some in E as (Hi & Hp & _). simpl in *.
  apply list_elem_of_lookup_2, elem_of_map_to_list in Hi.
  apply andb_true_iff in Hp as [Hk%bool_decide_eq_true _]. destruct (Hn k); [by exists w|done].
Qed.

(** ** The transport of an envelope *)

Definition reserved_names : list rstr :=
  [lit "x-roze-event-id"; lit "x-roze-event-type"; lit "x-roze-event-version";
   lit "x-roze-schema-revision"; lit "x-roze-producer"; lit "x-roze-tenant-id";
   lit "x-roze-idempotency-key"].

(** The envelopes whose metadata survives a transport: the fields the receiver
    requires are not blank, the trace context holds trace headers only and all
    those of [headers], and [headers] does not shadow a reserved name. *)
Record transportable (e : EventEnvelope Value) : Prop :=
  { tr_id : non_blank (env_event_id e) = true;
    tr_type : non_blank (env_event_type e) = true;
    tr_revision : non_blank (env_schema_revision e) = true;
    tr_producer : non_blank (env_producer e) = true;
    tr_version : env_version e ≤ U32_MAX;
    tr_tenant : ∀ t, env_tenant_id e = Some t → non_blank t = true;
    tr_idempotency : ∀ t, env_idempotency_key e = Some t → non_blank t = true;
    tr_trace : ∀ k, is_Some (env_trace_context e !! k) → is_trace_context_header k = true;
    tr_trace_all : ∀ k, is_Some (env_headers e !! k) → is_trace_context_header k = true →
      is_Some (env_trace_context e !! k);
    tr_unambiguous : headers_unambiguous (env_trace_context e ∪ env_headers e);
    tr_reserved : ∀ k, is_Some (env_headers e !! k) → str_to_ascii_lowercase k ∈ reserved_names →
      k ∈ reserved_names ∧ (k = lit "x-roze-tenant-id" → is_Some (env_tenant_id e)) ∧
      (k = lit "x-roze-idempotency-key" → is_Some (env_idempotency_key e)) }.

Lemma reserved_lowercase r : r ∈ reserved_names → str_to_ascii_lowercase r = r.
Proof. unfold reserved_names. rewrite !elem_of_cons, elem_of_nil. intros H. destruct_or!; by subst. Qed.

Lemma reserved_not_trace r : r ∈ reserved_names → is_trace_context_header r = false.
Proof. unfold reserved_names. rewrite !elem_of_cons, elem_of_nil. intros H. destruct_or!; by subst. Qed.

Lemma is_trace_context_header_lower k k' :
  str_to_ascii_lowercase k = str_to_ascii_lowercase k' →
  is_trace_context_header k = is_trace_context_header k'.
Proof. intros H. unfold is_trace_context_header, eq_ignore_ascii_case. by rewrite H. Qed.

Lemma trace_not_reserved k :
  is_trace_context_header k = true → str_to_ascii_lowercase k ∉ reserved_names.
Proof.
  intros Ht Hr. pose proof (reserved_not_trace _ Hr) as Hf.
  rewrite (is_trace_context_header_lower _ k) in Hf by (by apply reserved_lowercase).
  congruence.
Qed.

(** The headers an envelope is transported with, under the reserved names. *)
Definition reserved_value (e : EventEnvelope Value) (r : rstr) : option rstr :=
  if decide (r = lit "x-roze-event-id") then Some (env_event_id e)
  else if decide (r = lit "x-roze-event-type") then Some (env_event_type e)
  else if decide (r = lit "x-roze-event-version") then Some (dec (env_version e))
  else if decide (r = lit "x-roze-schema-revision") then Some (env_schema_revision e)
  else if decide (r = lit "x-roze-producer") then Some (env_producer e)
  else if decide (r = lit "x-roze-tenant-id") then env_tenant_id e
  else if decide (r = lit "x-roze-idempotency-key") then env_idempotency_key e
  else None.

Lemma insert_opt_lookup (k : rstr) (v : option rstr) (m : gmap rstr rstr) (k' : rstr) :
  insert_opt k v m !! k' = if decide (k = k') then match v with Some x => Some x | None => m !! k' end
                           else m !! k'.
Proof.
  destruct v as [x|]; simpl; [apply lookup_insert|]. by destruct (decide _).
Qed.

Lemma transport_headers_other e k :
  env_trace_context e !! k = None → k ∉ reserved_names →
  transport_headers e !! k = env_headers e !! k.
Proof.
  intros Ht Hk. unfold transport_headers. rewrite lookup_union_r by done.
  unfold reserved_names in Hk. rewrite !not_elem_of_cons in Hk. destruct_and!.
  rewrite !insert_opt_lookup, !lookup_insert. by repeat (rewrite decide_False by done).
Qed.

Lemma transport_headers_reserved e k :
  transportable e → k ∈ reserved_names → transport_headers e !! k = reserved_value e k.
Proof.
  intros He Hk.
  assert (env_trace_context e !! k = None) as Ht.
  { apply eq_None_not_Some. intros Hs%(tr_trace _ He). rewrite reserved_not_trace in Hs; done. }
  unfold transport_headers. rewrite lookup_union_r by done.
  rewrite !insert_opt_lookup, !lookup_insert. unfold reserved_value.
  assert (∀ (o : option rstr) r, r ∈ reserved_names → (is_Some (env_headers e !! r) → is_Some o) →
    match o with Some x => Some x | None => env_headers e !! r end = o) as Hopt.
  { intros [x|] r _ Hs; [done|]. destruct (env_headers e !! r); [by destruct Hs; eauto|done]. }
  unfold reserved_names in Hk. rewrite !elem_of_cons, elem_of_nil in Hk.
  destruct_or!; subst; simpl; try done.
  - apply (Hopt _ (lit "x-roze-tenant-id")); [by decide_closed|]. intros Hs.
    by destruct (tr_reserved _ He _ Hs) as (_ & H & _); [decide_closed | apply H].
  - apply (Hopt _ (lit "x-roze-idempotency-key")); [by decide_closed|]. intros Hs.
    by destruct (tr_reserved _ He _ Hs) as (_ & _ & H); [decide_closed | apply H].
Qed.

Lemma transport_headers_dom e k :
  is_Some (transport_headers e !! k) →
  is_Some ((env_trace_context e ∪ env_headers e) !! k) ∨ k ∈ reserved_names.
Proof.
  intros Hs. destruct (decide (k ∈ reserved_names)); [by right|left].
  destruct (env_trace_context e !! k) as [v|] eqn:E.
  - exists v. by apply lookup_union_Some_l.
  - rewrite lookup_union_r by done. by rewrite <- (transport_headers_other e k).
Qed.

Lemma transport_headers_unambiguous e :
  transportable e → headers_unambiguous (transport_headers e).
Proof.
  intros He.
  assert (∀ k k', is_Some ((env_trace_context e ∪ env_headers e) !! k) → k' ∈ reserved_names →
    str_to_ascii_lowercase k = str_to_ascii_lowercase k' → k = k') as Hmix.
  { intros k k' Hk Hk' Heq. rewrite (reserved_lowercase _ Hk') in Heq.
    destruct (env_trace_context e !! k) as [v|] eqn:E.
    - exfalso. apply (trace_not_reserved k); [by apply (tr_trace _ He); exists v | by rewrite Heq].
    - rewrite lookup_union_r in Hk by done.
      destruct (tr_reserved _ He k Hk) as [Hr _]; [by rewrite Heq|].
      by rewrite <- (reserved_lowercase _ Hr). }
  intros k k' [Hk|Hk]%transport_headers_dom [Hk'|Hk']%transport_headers_dom Heq.
  - by apply (tr_unambiguous _ He).
  - by apply Hmix.
  - symmetry. by apply Hmix.
  - by rewrite <- (reserved_lowercase _ Hk), Heq, (reserved_lowercase _ Hk').
Qed.

Lemma required_header_reserved e r :
  transportable e → r ∈ reserved_names →
  (∀ v, reserved_value e r = Some v → non_blank v = true) →
  required_header (transport_headers e) r = reserved_value e r.
Proof.
  intros He Hr Hb. pose proof (transport_headers_reserved _ _ He Hr) as Hl.
  destruct (reserved_value e r) as [v|] eqn:E.
  - apply required_header_found; [by apply transport_headers_unambiguous | done | by apply Hb].
  - apply required_header_missing. intros k Hk Heq.
    assert (k = r) as ->; [|rewrite Hl in Hk; by destruct Hk].
    apply transport_headers_dom in Hk as [Hk|Hk];
      [|by rewrite <- (reserved_lowercase _ Hk), Heq, (reserved_lowercase _ Hr)].
    rewrite (reserved_lowercase _ Hr) in Heq.
    destruct (env_trace_context e !! k) as [v|] eqn:Et.
    + exfalso. apply (trace_not_reserved k); [by apply (tr_trace _ He); exists v | by rewrite Heq].
    + rewrite lookup_union_r in Hk by done.
      destruct (tr_reserved _ He k Hk) as [Hr' _]; [by rewrite Heq|].
      by rewrite <- (reserved_lowercase _ Hr').
Qed.

Lemma transport_trace_context e :
  transportable e →
  filter (λ kv, is_trace_context_header kv.1 = true) (transport_headers e) = env_trace_context e.
Proof.
  intros He. apply map_eq. intros k.
  destruct (env_trace_context e !! k) as [v|] eqn:E.
  - apply map_lookup_filter_Some. split.
    + unfold transport_headers. by apply lookup_union_Some_l.
    + simpl. apply (tr_trace _ He). by exists v.
  - apply map_lookup_filter_None. right. intros v Hv Ht. simpl in Ht.
    assert (k ∉ reserved_names) as Hk by (intros Hk; rewrite reserved_not_trace in Ht; done).
    rewrite transport_headers_other in Hv by done.
    destruct (tr_trace_all _ He k) as [w Hw]; [by exists v | done | congruence].
Qed.

Lemma digit_not_whitespace c : is_ascii_digit c = true → is_whitespace c = false.
Proof.
  unfold is_ascii_digit, is_whitespace. intros H. guard_prop.
  repeat (apply orb_false_iff; split); try apply andb_false_iff;
    rewrite ?N.eqb_neq, ?N.leb_gt; lia.
Qed.

Lemma non_blank_dec n : non_blank (dec n) = true.
Proof.
  destruct (dec_spec n) as (Hne & HF & _). unfold non_blank, trim.
  rewrite trim_matches_id; [by rewrite bool_decide_false| |];
    intros x l' Hl; rewrite Hl in HF; apply digit_not_whitespace.
  - by apply Forall_cons in HF as [? _].
  - by apply Forall_app in HF as [_ [? _]%Forall_cons].
Qed.
End envelope.

(** ** Properties *)

(** An envelope survives its transport. Rebuilding a transportable envelope
    from its topic, payload, key, attempt and transport headers gives the same
    envelope back, except that [headers] are the transport headers and
    [occurred_at] is the time of reception. *)
Theorem envelope_transport_roundtrip {Value} (e : EventEnvelope Value) now seq :
  transportable e →
  (from_transport now seq (env_topic e) (env_payload e) (env_key e) (transport_headers e)
     (env_attempt e)).1 =
  {| env_event_id := env_event_id e; env_event_type := env_event_type e;
     env_version := env_version e; env_schema_revision := env_schema_revision e;
     env_topic := env_topic e; env_key := env_key e; env_headers := transport_headers e;
     env_trace_context := env_trace_context e; env_tenant_id := env_tenant_id e;
     env_idempotency_key := env_idempotency_key e; env_producer := env_producer e;
     env_attempt := env_attempt e; env_occurred_at := Z.of_N now;
     env_payload := env_payload e |}.
Proof.
  intros He. unfold from_transport, EventEnvelope_new, next_event_id.
  assert (∀ r v, r ∈ reserved_names → reserved_value e r = Some v → non_blank v = true →
    required_header (transport_headers e) r = Some v) as Hreq.
  { intros r v Hr Hv Hb. rewrite required_header_reserved; [done..|]. congruence. }
  rewrite (Hreq (lit "x-roze-event-id") (env_event_id e)); [|decide_closed|done|apply He].
  rewrite (Hreq (lit "x-roze-event-type") (env_event_type e)); [|decide_closed|done|apply He].
  rewrite (Hreq (lit "x-roze-event-version") (dec (env_version e)));
    [|decide_closed|done|apply non_blank_dec].
  rewrite (Hreq (lit "x-roze-schema-revision") (env_schema_revision e)); [|decide_closed|done|apply He].
  rewrite (Hreq (lit "x-roze-producer") (env_producer e)); [|decide_closed|done|apply He].
  rewrite !required_header_reserved, transport_trace_context; try done; try decide_closed;
    [|apply He..].
  simpl. by rewrite parse_uint_dec by apply He.
Qed.

(** ** Witnesses *)

Definition ex_envelope : EventEnvelope N :=
  {| env_event_id := lit "evt-1-0"; env_event_type := lit "order.created"; env_version := 2;
     env_schema_revision := lit "order-v2"; env_topic := lit "orders"; env_key := None;
     env_headers := {[ lit "x-user" := lit "u1" ]};
     env_trace_context := {[ lit "traceparent" := lit "00-a-b-01" ]};
     env_tenant_id := Some (lit "t1"); env_idempotency_key := None;
     env_producer := lit "shop"; env_attempt := 0; env_occurred_at := 5; env_payload := 7 |}.

Lemma ex_envelope_dom k (v : rstr) :
  (env_trace_context ex_envelope ∪ env_headers ex_envelope) !! k = Some v →
  k = lit "traceparent" ∨ k = lit "x-user".
Proof.
  unfold ex_envelope; cbn.
  intros [H|[_ H]]%lookup_union_Some_raw;
    apply lookup_singleton_Some in H as [<- _]; auto.
Qed.

Lemma ex_envelope_transportable : transportable ex_envelope.
Proof.
  unfold ex_envelope; split; cbn; try reflexivity.
  - done.
  - intros t [= <-]. reflexivity.
  - done.
  - intros k [v [<- _]%lookup_singleton_Some]. reflexivity.
  - intros k [v [<- _]%lookup_singleton_Some]. done.
  - intros k k' [v Hk%ex_envelope_dom] [v' Hk'%ex_envelope_dom].
    destruct Hk as [-> | ->], Hk' as [-> | ->]; done.
  - intros k [v [<- _]%lookup_singleton_Some] Hr.
    assert (str_to_ascii_lowercase (lit "x-user") ∉ reserved_names) by decide_closed. done.
Qed.

Lemma envelope_transport_roundtrip_witness :
  env_tenant_id (from_transport 9 0 (lit "orders") 7 None (transport_headers ex_envelope) 0).1
    = Some (lit "t1").
Proof.
  exact (f_equal env_tenant_id (envelope_transport_roundtrip ex_envelope 9 0 ex_envelope_transportable)).
Defined.
