(* ===== verification/Mq.v ===== *)
(** * Messages, deliveries and the in-memory broker (crates/roze-mq/src/lib.rs)

    The broker's shared state is the record [InMemoryBroker]; the clones the
    code makes of it share that one state. A [Delivery] and its clones share one
    settlement cell, an entry of [cells]. What a topic's [broadcast] channel
    receives is appended to [sent]; the channel itself (lagging and dropped
    receivers) is tokio's. A delayed route is an entry of [scheduled] until its
    timer fires. The clock is the argument [now] in milliseconds, a fresh trace
    id the argument [fresh] (a version 7 UUID in the code). *)

From S2P Require Import Prelude Text Eventbus Breaker Resilience.

Record Message (Value : Type) :=
  { event_id : rstr; event_type : rstr; version : N; schema_revision : rstr; topic : rstr;
    key : option rstr; headers : gmap rstr rstr; trace_context : gmap rstr rstr;
    tenant_id : option rstr; producer : rstr; occurred_at : Z; timestamp_millis : N;
    partition : option Z; offset : option Z; group : option rstr; attempt : N;
    dead_letter_topic : option rstr; idempotency_key : option rstr;
    available_at_millis : option N; payload : Value }.
Arguments event_id {Value}. Arguments event_type {Value}. Arguments version {Value}.
Arguments schema_revision {Value}. Arguments topic {Value}. Arguments key {Value}.
Arguments headers {Value}. Arguments trace_context {Value}. Arguments tenant_id {Value}.
Arguments producer {Value}. Arguments occurred_at {Value}. Arguments timestamp_millis {Value}.
Arguments partition {Value}. Arguments offset {Value}. Arguments group {Value}.
Arguments attempt {Value}. Arguments dead_letter_topic {Value}. Arguments idempotency_key {Value}.
Arguments available_at_millis {Value}. Arguments payload {Value}.

(** Records of [Message] with some fields assigned. *)
Definition set_headers {V} (m : Message V) (h tc : gmap rstr rstr) : Message V :=
  {| event_id := event_id m; event_type := event_type m; version := version m;
     schema_revision := schema_revision m; topic := topic m; key := key m; headers := h;
     trace_context := tc; tenant_id := tenant_id m; producer := producer m;
     occurred_at := occurred_at m; timestamp_millis := timestamp_millis m;
     partition := partition m; offset := offset m; group := group m; attempt := attempt m;
     dead_letter_topic := dead_letter_topic m; idempotency_key := idempotency_key m;
     available_at_millis := available_at_millis m; payload := payload m |}.

(** Assign the fields that routing changes. *)
Definition set_route {V} (m : Message V) (tp : rstr) (ts : N) (part off : option Z) (att : N)
    (idem : option rstr) (avail : option N) : Message V :=
  {| event_id := event_id m; event_type := event_type m; version := version m;
     schema_revision := schema_revision m; topic := tp; key := key m; headers := headers m;
     trace_context := trace_context m; tenant_id := tenant_id m; producer := producer m;
     occurred_at := occurred_at m; timestamp_millis := ts; partition := part; offset := off;
     group := group m; attempt := att; dead_letter_topic := dead_letter_topic m;
     idempotency_key := idem; available_at_millis := avail; payload := payload m |}.

Definition set_attempt {V} (m : Message V) (att : N) : Message V :=
  set_route m (topic m) (timestamp_millis m) (partition m) (offset m) att (idempotency_key m)
    (available_at_millis m).

(** [routed.topic = dead_letter_topic; routed.attempt = 0] *)
Definition to_dead_letter_topic {V} (m : Message V) (tp : rstr) : Message V :=
  set_route m tp (timestamp_millis m) (partition m) (offset m) 0 (idempotency_key m)
    (available_at_millis m).

Definition clear_available {V} (m : Message V) : Message V :=
  set_route m (topic m) (timestamp_millis m) (partition m) (offset m) (attempt m)
    (idempotency_key m) None.

Definition TRACE_ID_HEADER : rstr := lit "x-trace-id".

Definition Message_with_trace_id {V} (now seq : N) (tp : rstr) (value : V) (trace_id : rstr)
    : Message V * N :=
  let '(envelope, seq) := EventEnvelope_new now seq tp value in
  ({| event_id := env_event_id envelope; event_type := env_event_type envelope;
      version := env_version envelope; schema_revision := env_schema_revision envelope;
      topic := env_topic envelope; key := None; headers := {[ TRACE_ID_HEADER := trace_id ]};
      trace_context := {[ TRACE_ID_HEADER := trace_id ]}; tenant_id := None;
      producer := lit "unknown"; occurred_at := env_occurred_at envelope;
      timestamp_millis := now; partition := None; offset := None; group := None; attempt := 0;
      dead_letter_topic := None; idempotency_key := None; available_at_millis := None;
      payload := env_payload envelope |}, seq).

(** [Message::new], with the generated trace id [fresh]. *)
Definition Message_new {V} (now seq : N) (fresh tp : rstr) (value : V) : Message V * N :=
  Message_with_trace_id now seq tp value fresh.

(** [ensure_trace_id]: the trace id found, or [fresh] inserted. *)
Definition ensure_trace_id {V} (m : Message V) (fresh : rstr) : rstr * Message V :=
  match find_header (headers m) TRACE_ID_HEADER with
  | Some (_, value) => (value, m)
  | None => (fresh, set_headers m (<[TRACE_ID_HEADER := fresh]> (headers m)) (trace_context m))
  end.

Definition into_event_envelope {V} (m : Message V) : EventEnvelope V :=
  {| env_event_id := event_id m; env_event_type := event_type m; env_version := version m;
     env_schema_revision := schema_revision m; env_topic := topic m; env_key := key m;
     env_headers := headers m; env_trace_context := trace_context m;
     env_tenant_id := tenant_id m; env_idempotency_key := idempotency_key m;
     env_producer := producer m; env_attempt := attempt m; env_occurred_at := occurred_at m;
     env_payload := payload m |}.

Definition from_event_envelope {V} (event : EventEnvelope V) (now : N) : Message V :=
  {| event_id := env_event_id event; event_type := env_event_type event;
     version := env_version event; schema_revision := env_schema_revision event;
     topic := env_topic event; key := env_key event; headers := transport_headers event;
     trace_context := env_trace_context event; tenant_id := env_tenant_id event;
     producer := env_producer event; occurred_at := env_occurred_at event;
     timestamp_millis := now; partition := None; offset := None; group := None;
     attempt := env_attempt event; dead_letter_topic := None;
     idempotency_key := env_idempotency_key event; available_at_millis := None;
     payload := env_payload event |}.

Record DeadLetterRecord (Value : Type) :=
  { dl_id : N; original_topic : rstr; reason : rstr; failed_at_millis : N; replay_count : N;
    dl_message : Message Value }.
Arguments dl_id {Value}. Arguments original_topic {Value}. Arguments reason {Value}.
Arguments failed_at_millis {Value}. Arguments replay_count {Value}. Arguments dl_message {Value}.

Record DeadLetterQuery :=
  { q_topic : option rstr; q_group : option rstr; q_offset : N; q_limit : N }.

(** The counters of the broker, [AtomicU64]s of which [fetch_add] wraps. *)
Record MqCounters :=
  { published : N; delivered : N; acked : N; nacked : N; duplicated : N; dead_lettered : N;
    replayed : N }.

Inductive MqCounter := Published | Delivered | Acked | Nacked | Duplicated | DeadLettered | Replayed.

Definition fetch_add (c : MqCounter) (s : MqCounters) : MqCounters :=
  {| published := if c is Published then wrap 64 (published s + 1) else published s;
     delivered := if c is Delivered then wrap 64 (delivered s + 1) else delivered s;
     acked := if c is Acked then wrap 64 (acked s + 1) else acked s;
     nacked := if c is Nacked then wrap 64 (nacked s + 1) else nacked s;
     duplicated := if c is Duplicated then wrap 64 (duplicated s + 1) else duplicated s;
     dead_lettered := if c is DeadLettered then wrap 64 (dead_lettered s + 1) else dead_lettered s;
     replayed := if c is Replayed then wrap 64 (replayed s + 1) else replayed s |}.

Record MqStats := { stat_counters : MqCounters; dead_letter_pending : N }.

(** [DeliveryState]: one [AtomicU8]. *)
Definition DELIVERY_PENDING : N := 0.
Definition DELIVERY_ACKED : N := 1.
Definition DELIVERY_NACKED : N := 2.

Record Delivery (Value : Type) := { d_message : Message Value; d_state : N }.
Arguments d_message {Value}. Arguments d_state {Value}.

Record InMemoryBroker (Value : Type) :=
  { topics : gset rstr; topic_offsets : gmap rstr Z;
    dead_letters : list (DeadLetterRecord Value); seen_idempotency_keys : gset rstr;
    broker_dead_letter_topic : option rstr; broker_max_attempts : N; next_dead_letter_id : N;
    counters : MqCounters; cells : list (Delivery Value); sent : list (rstr * nat);
    scheduled : list (N * Message Value) }.
Arguments topics {Value}. Arguments topic_offsets {Value}. Arguments dead_letters {Value}.
Arguments seen_idempotency_keys {Value}. Arguments broker_dead_letter_topic {Value}.
Arguments broker_max_attempts {Value}. Arguments next_dead_letter_id {Value}.
Arguments counters {Value}. Arguments cells {Value}. Arguments sent {Value}.
Arguments scheduled {Value}.

Section broker.
Context {Value : Type}.
Implicit Types (b : InMemoryBroker Value) (message : Message Value).

Definition set_counters b (c : MqCounters) : InMemoryBroker Value :=
  {| topics := topics b; topic_offsets := topic_offsets b; dead_letters := dead_letters b;
     seen_idempotency_keys := seen_idempotency_keys b;
     broker_dead_letter_topic := broker_dead_letter_topic b;
     broker_max_attempts := broker_max_attempts b; next_dead_letter_id := next_dead_letter_id b;
     counters := c; cells := cells b; sent := sent b; scheduled := scheduled b |}.

Definition count b (c : MqCounter) : InMemoryBroker Value :=
  set_counters b (fetch_add c (counters b)).

Definition set_dead_letters b (l : list (DeadLetterRecord Value)) (next : N) : InMemoryBroker Value :=
  {| topics := topics b; topic_offsets := topic_offsets b; dead_letters := l;
     seen_idempotency_keys := seen_idempotency_keys b;
     broker_dead_letter_topic := broker_dead_letter_topic b;
     broker_max_attempts := broker_max_attempts b; next_dead_letter_id := next;
     counters := counters b; cells := cells b; sent := sent b; scheduled := scheduled b |}.

Definition set_offsets b (o : gmap rstr Z) (seen : gset rstr) : InMemoryBroker Value :=
  {| topics := topics b; topic_offsets := o; dead_letters := dead_letters b;
     seen_idempotency_keys := seen; broker_dead_letter_topic := broker_dead_letter_topic b;
     broker_max_attempts := broker_max_attempts b; next_dead_letter_id := next_dead_letter_id b;
     counters := counters b; cells := cells b; sent := sent b; scheduled := scheduled b |}.

Definition set_channels b (t : gset rstr) (cs : list (Delivery Value)) (s : list (rstr * nat))
    (sch : list (N * Message Value)) : InMemoryBroker Value :=
  {| topics := t; topic_offsets := topic_offsets b; dead_letters := dead_letters b;
     seen_idempotency_keys := seen_idempotency_keys b;
     broker_dead_letter_topic := broker_dead_letter_topic b;
     broker_max_attempts := broker_max_attempts b; next_dead_letter_id := next_dead_letter_id b;
     counters := counters b; cells := cs; sent := s; scheduled := sch |}.

Definition MqCounters_zero : MqCounters :=
  {| published := 0; delivered := 0; acked := 0; nacked := 0; duplicated := 0;
     dead_lettered := 0; replayed := 0 |}.

Definition InMemoryBroker_new : InMemoryBroker Value :=
  {| topics := ∅; topic_offsets := ∅; dead_letters := []; seen_idempotency_keys := ∅;
     broker_dead_letter_topic := None; broker_max_attempts := 3; next_dead_letter_id := 1;
     counters := MqCounters_zero; cells := []; sent := []; scheduled := [] |}.

Definition InMemoryBroker_with_dead_letter (tp : rstr) (max_attempts : N) : InMemoryBroker Value :=
  {| topics := ∅; topic_offsets := ∅; dead_letters := []; seen_idempotency_keys := ∅;
     broker_dead_letter_topic := Some tp; broker_max_attempts := N.max max_attempts 1;
     next_dead_letter_id := 1; counters := MqCounters_zero; cells := []; sent := [];
     scheduled := [] |}.

Definition sender_for b (tp : rstr) : InMemoryBroker Value :=
  set_channels b ({[ tp ]} ∪ topics b) (cells b) (sent b) (scheduled b).

(** [sender_for(topic).send(Delivery::new(message, self.clone()))]: a pending
    delivery with its own settlement cell reaches the topic's channel. *)
Definition send_delivery b (tp : rstr) message : InMemoryBroker Value :=
  let b := sender_for b tp in
  set_channels b (topics b) (cells b ++ [{| d_message := message; d_state := DELIVERY_PENDING |}])
    (sent b ++ [(tp, length (cells b))]) (scheduled b).

Definition push_dead_letter b message (why : rstr) (now : N) : InMemoryBroker Value :=
  let record := {| dl_id := next_dead_letter_id b; original_topic := topic message; reason := why;
                   failed_at_millis := now; replay_count := 0; dl_message := message |} in
  count (set_dead_letters b (dead_letters b ++ [record]) (wrap 64 (next_dead_letter_id b + 1)))
    DeadLettered.

Definition prepare_delivery_metadata b message (now : N) : Message Value * InMemoryBroker Value :=
  let ts := if timestamp_millis message =? 0 then now else timestamp_millis message in
  let part := match partition message with None => Some 0%Z | p => p end in
  match offset message with
  | None =>
      let next := default 0%Z (topic_offsets b !! topic message) in
      (set_route message (topic message) ts part (Some next) (attempt message)
         (idempotency_key message) (available_at_millis message),
       set_offsets b (<[topic message := Z.min (next + 1) I64_MAX]> (topic_offsets b))
         (seen_idempotency_keys b))
  | Some off =>
      (set_route message (topic message) ts part (Some off) (attempt message)
         (idempotency_key message) (available_at_millis message), b)
  end.

Definition route_delivery_now b message (now : N) : InMemoryBroker Value :=
  let '(message, b) := prepare_delivery_metadata b message now in
  let message := set_attempt message (sat_add U32_MAX (attempt message) 1) in
  if broker_max_attempts b <? attempt message then
    let b := push_dead_letter b message (lit "max_attempts_exceeded") now in
    match dead_letter_topic message with
    | Some tp => send_delivery b tp (to_dead_letter_topic message tp)
    | None => b
    end
  else count (send_delivery b (topic message) message) Delivered.

Definition is_duplicate b message : bool * InMemoryBroker Value :=
  match idempotency_key message with
  | None => (false, b)
  | Some k =>
      let duplicate := bool_decide (k ∈ seen_idempotency_keys b) in
      let b := set_offsets b (topic_offsets b) ({[ k ]} ∪ seen_idempotency_keys b) in
      (duplicate, if duplicate then count b Duplicated else b)
  end.

Definition delivery_delay message (now : N) : option N :=
  available_at ← available_at_millis message;
  if now <? available_at then Some (available_at - now) else None.

Definition route_delivery b message (now : N) : InMemoryBroker Value :=
  let '(duplicate, b) := is_duplicate b message in
  if duplicate then b
  else match delivery_delay message now with
       | Some delay =>
           set_channels b (topics b) (cells b) (sent b)
             (scheduled b ++ [(now + delay, clear_available message)])
       | None => route_delivery_now b message now
       end.

Definition requeue_or_dead_letter b message (now : N) : InMemoryBroker Value :=
  let b := count b Nacked in
  let next := set_attempt message (sat_add U32_MAX (attempt message) 1) in
  if broker_max_attempts b <? attempt next then
    let b := push_dead_letter b next (lit "nack_max_attempts_exceeded") now in
    match (match dead_letter_topic next with
           | Some tp => Some tp | None => broker_dead_letter_topic b end) with
    | Some tp => send_delivery b tp (to_dead_letter_topic next tp)
    | None => b
    end
  else count (send_delivery b (topic next) next) Delivered.

(** [Publisher::publish] *)
Definition InMemoryBroker_publish b message (now : N) (fresh : rstr) : InMemoryBroker Value :=
  route_delivery (count b Published) (ensure_trace_id message fresh).2 now.

(** [compare_exchange(DELIVERY_PENDING, to)] on the cell of a delivery. *)
Definition settle b (cell : nat) (to : N) : bool * InMemoryBroker Value :=
  match cells b !! cell with
  | Some d =>
      if d_state d =? DELIVERY_PENDING
      then (true, set_channels b (topics b)
                    (<[cell := {| d_message := d_message d; d_state := to |}]> (cells b))
                    (sent b) (scheduled b))
      else (false, b)
  | None => (false, b)
  end.

Definition Delivery_ack b (cell : nat) : InMemoryBroker Value :=
  let '(transitioned, b) := settle b cell DELIVERY_ACKED in
  if transitioned then count b Acked else b.

Definition Delivery_nack b (cell : nat) (now : N) : InMemoryBroker Value :=
  let '(transitioned, b) := settle b cell DELIVERY_NACKED in
  if transitioned
  then match cells b !! cell with
       | Some d => requeue_or_dead_letter b (d_message d) now
       | None => b
       end
  else b.

Definition is_acked b (cell : nat) : bool :=
  match cells b !! cell with Some d => d_state d =? DELIVERY_ACKED | None => false end.
Definition is_nacked b (cell : nat) : bool :=
  match cells b !! cell with Some d => d_state d =? DELIVERY_NACKED | None => false end.

(** The spawned task of a delayed message, when its sleep is over. *)
Definition fire_scheduled b (i : nat) (now : N) : InMemoryBroker Value :=
  match scheduled b !! i with
  | Some (due, message) =>
      if due <=? now
      then route_delivery_now
             (set_channels b (topics b) (cells b) (sent b) (delete i (scheduled b))) message now
      else b
  | None => b
  end.

(** ** [MqAdmin] *)

Definition InMemoryBroker_stats b : MqStats :=
  {| stat_counters := counters b; dead_letter_pending := N.of_nat (length (dead_letters b)) |}.

Definition InMemoryBroker_dead_letters b (skip limit : N) : list (DeadLetterRecord Value) :=
  take (N.to_nat (N.min (N.max limit 1) 500)) (drop (N.to_nat skip) (dead_letters b)).

Definition dead_letters_query b (query : DeadLetterQuery) : list (DeadLetterRecord Value) :=
  filter (λ r, match q_group query with
               | Some g => bool_decide (group (dl_message r) = Some g) | None => true end = true)
    (filter (λ r, match q_topic query with
                  | Some t => bool_decide (original_topic r = t) | None => true end = true)
       (InMemoryBroker_dead_letters b (q_offset query) (q_limit query))).

Definition replay_message (r : DeadLetterRecord Value) : Message Value :=
  set_route (dl_message r) (original_topic r) (timestamp_millis (dl_message r))
    (partition (dl_message r)) (offset (dl_message r)) 0 None None.

Definition count_replay (r : DeadLetterRecord Value) : DeadLetterRecord Value :=
  {| dl_id := dl_id r; original_topic := original_topic r; reason := reason r;
     failed_at_millis := failed_at_millis r; replay_count := sat_add U32_MAX (replay_count r) 1;
     dl_message := dl_message r |}.

Definition replay_dead_letter b (id : N) (now : N) (fresh : rstr)
    : option (Message Value) * InMemoryBroker Value :=
  match list_find (λ r, dl_id r = id) (dead_letters b) with
  | None => (None, b)
  | Some (i, r) =>
      let b := set_dead_letters b (<[i := count_replay r]> (dead_letters b))
                 (next_dead_letter_id b) in
      let message := (ensure_trace_id (replay_message r) fresh).2 in
      (Some message, route_delivery (count b Replayed) message now)
  end.

Definition purge_dead_letter b (id : N) : option (DeadLetterRecord Value) * InMemoryBroker Value :=
  match list_find (λ r, dl_id r = id) (dead_letters b) with
  | None => (None, b)
  | Some (i, r) =>
      (Some r, set_dead_letters b (delete i (dead_letters b)) (next_dead_letter_id b))
  end.

Definition clear_dead_letters b : N * InMemoryBroker Value :=
  (N.of_nat (length (dead_letters b)), set_dead_letters b [] (next_dead_letter_id b)).

(** ** Executions *)

Inductive broker_call :=
| DoPublish (message : Message Value) (fresh : rstr)
| DoSubscribe (tp : rstr)
| DoAck (cell : nat)
| DoNack (cell : nat)
| DoFire (i : nat)
| DoReplay (id : N) (fresh : rstr)
| DoPurge (id : N)
| DoClear.

(** One call, at [now]. *)
Definition broker_step b (now : N) (c : broker_call) : InMemoryBroker Value :=
  match c with
  | DoPublish message fresh => InMemoryBroker_publish b message now fresh
  | DoSubscribe tp => sender_for b tp
  | DoAck cell => Delivery_ack b cell
  | DoNack cell => Delivery_nack b cell now
  | DoFire i => fire_scheduled b i now
  | DoReplay id fresh => (replay_dead_letter b id now fresh).2
  | DoPurge id => (purge_dead_letter b id).2
  | DoClear => (clear_dead_letters b).2
  end.

Definition broker_run b (cs : list (N * broker_call)) : InMemoryBroker Value :=
  foldl (λ b c, broker_step b c.1 c.2) b cs.

(** ** Accounting *)

(** Counters without wrap-around, and what [AtomicU64] keeps of them. *)
Definition wrap_counters (u : MqCounters) : MqCounters :=
  {| published := wrap 64 (published u); delivered := wrap 64 (delivered u);
     acked := wrap 64 (acked u); nacked := wrap 64 (nacked u);
     duplicated := wrap 64 (duplicated u); dead_lettered := wrap 64 (dead_lettered u);
     replayed := wrap 64 (replayed u) |}.

Definition bump (c : MqCounter) (s : MqCounters) : MqCounters :=
  {| published := if c is Published then published s + 1 else published s;
     delivered := if c is Delivered then delivered s + 1 else delivered s;
     acked := if c is Acked then acked s + 1 else acked s;
     nacked := if c is Nacked then nacked s + 1 else nacked s;
     duplicated := if c is Duplicated then duplicated s + 1 else duplicated s;
     dead_lettered := if c is DeadLettered then dead_lettered s + 1 else dead_lettered s;
     replayed := if c is Replayed then replayed s + 1 else replayed s |}.

Definition count_state (s : N) (cs : list (Delivery Value)) : N :=
  N.of_nat (length (filter (λ d, d_state d = s) cs)).

(** [balanced k u b]: the broker counted [u] so far and has [k] messages in
    hand that a call under way still has to route. *)
Record balanced (k : N) (u : MqCounters) b : Prop :=
  { bal_counters : counters b = wrap_counters u;
    bal_acked : acked u = count_state DELIVERY_ACKED (cells b);
    bal_nacked : nacked u = count_state DELIVERY_NACKED (cells b);
    bal_messages :
      delivered u + dead_lettered u + duplicated u + N.of_nat (length (scheduled b)) + k =
      published u + replayed u + nacked u }.

Lemma wrap_succ x : wrap 64 (wrap 64 x + 1) = wrap 64 (x + 1).
Proof. unfold wrap. by rewrite N.Div0.add_mod_idemp_l. Qed.

Lemma fetch_add_wrap c u : fetch_add c (wrap_counters u) = wrap_counters (bump c u).
Proof. destruct c; unfold fetch_add, wrap_counters; simpl; by rewrite wrap_succ. Qed.

Lemma count_state_app s l1 l2 : count_state s (l1 ++ l2) = count_state s l1 + count_state s l2.
Proof. unfold count_state. rewrite filter_app, length_app. lia. Qed.

Lemma count_state_settle s l i d to :
  l !! i = Some d → d_state d = DELIVERY_PENDING → s ≠ DELIVERY_PENDING →
  count_state s (<[i := {| d_message := d_message d; d_state := to |}]> l) =
    count_state s l + (if to =? s then 1 else 0).
Proof.
  intros Hi Hd Hs. rewrite insert_take_drop by (by eapply lookup_lt_Some).
  rewrite <- (take_drop_middle l i d Hi) at 3. rewrite !count_state_app.
  assert (∀ x l', count_state s (x :: l') = (if d_state x =? s then 1 else 0) + count_state s l') as Hc.
  { intros x l'. unfold count_state. rewrite filter_cons.
    destruct (N.eqb_spec (d_state x) s); case_decide; try done; simpl length; lia. }
  rewrite !Hc. simpl. rewrite Hd. destruct (N.eqb_spec DELIVERY_PENDING s); [congruence|]. lia.
Qed.

Lemma balanced_count c k u b :
  balanced k u b →
  match c with
  | Published | Replayed => balanced (k + 1) (bump c u) (count b c)
  | Delivered | Duplicated | DeadLettered => 0 < k → balanced (k - 1) (bump c u) (count b c)
  | Acked | Nacked => True
  end.
Proof.
  intros [Hc Ha Hn Hm]. destruct c; try done; try intros Hk;
    (split; simpl in *; [by rewrite Hc, fetch_add_wrap | done.. | lia]).
Qed.

Lemma balanced_same k u b b' :
  balanced k u b → counters b' = counters b → cells b' = cells b →
  length (scheduled b') = length (scheduled b) → balanced k u b'.
Proof. intros [Hc Ha Hn Hm] H1 H2 H3. split; rewrite ?H1, ?H2, ?H3; done. Qed.

Lemma balanced_send k u b tp m : balanced k u b → balanced k u (send_delivery b tp m).
Proof.
  intros [Hc Ha Hn Hm]. split; simpl; [done|..|done]; rewrite count_state_app.
  - by rewrite Ha, N.add_0_r.
  - by rewrite Hn, N.add_0_r.
Qed.

Lemma balanced_dead_letter k u b m why now :
  balanced (k + 1) u b → balanced k (bump DeadLettered u) (push_dead_letter b m why now).
Proof.
  intros Hb. unfold push_dead_letter. rewrite <- (N.add_sub k 1).
  apply (balanced_count DeadLettered); [|lia]. by eapply balanced_same.
Qed.

Lemma balanced_delivered k u b tp m :
  balanced (k + 1) u b → balanced k (bump Delivered u) (count (send_delivery b tp m) Delivered).
Proof.
  intros Hb. rewrite <- (N.add_sub k 1). apply (balanced_count Delivered); [|lia].
  by apply balanced_send.
Qed.

Lemma balanced_route_now k u b m now :
  balanced (k + 1) u b → ∃ u', balanced k u' (route_delivery_now b m now).
Proof.
  intros Hb. unfold route_delivery_now.
  destruct (prepare_delivery_metadata b m now) as [m' b'] eqn:E.
  assert (balanced (k + 1) u b') as Hb'.
  { unfold prepare_delivery_metadata in E. destruct (offset m); simplify_eq; [done|].
    by eapply balanced_same. }
  destruct (_ <? _); [|eexists; by apply balanced_delivered].
  destruct (dead_letter_topic _); eexists; [apply balanced_send|]; by apply balanced_dead_letter.
Qed.

Lemma balanced_route k u b m now :
  balanced (k + 1) u b → ∃ u', balanced k u' (route_delivery b m now).
Proof.
  intros Hb. unfold route_delivery.
  destruct (is_duplicate b m) as [dup b'] eqn:E. unfold is_duplicate in E.
  assert (if dup then ∃ u', balanced k u' b' else balanced (k + 1) u b') as Hb'.
  { destruct (idempotency_key m) as [kk|]; simplify_eq; [|done].
    destruct (bool_decide _); [|by eapply balanced_same].
    exists (bump Duplicated u). rewrite <- (N.add_sub k 1).
    apply (balanced_count Duplicated); [|lia]. by eapply balanced_same. }
  destruct dup; [done|]. destruct (delivery_delay m now) as [d|]; [|by eapply balanced_route_now].
  exists u. destruct Hb' as [Hc Ha Hn Hm]. split; simpl; [done..|]. rewrite length_app. simpl. lia.
Qed.

Lemma settle_spec b i to :
  settle b i to =
    match cells b !! i with
    | Some d => if d_state d =? DELIVERY_PENDING
                then (true, set_channels b (topics b)
                        (<[i := {| d_message := d_message d; d_state := to |}]> (cells b))
                        (sent b) (scheduled b))
                else (false, b)
    | None => (false, b)
    end.
Proof. reflexivity. Qed.

Lemma balanced_ack u b i : balanced 0 u b → ∃ u', balanced 0 u' (Delivery_ack b i).
Proof.
  intros [Hc Ha Hn Hm]. unfold Delivery_ack, settle.
  destruct (cells b !! i) as [d|] eqn:Hi; [|by exists u].
  destruct (N.eqb_spec (d_state d) DELIVERY_PENDING) as [Hd|]; [|by exists u].
  exists (bump Acked u). split; simpl; [by rewrite Hc, fetch_add_wrap|..|done];
    rewrite (count_state_settle _ _ _ _ _ Hi Hd) by done; simpl; lia.
Qed.

Lemma balanced_nack u b i now : balanced 0 u b → ∃ u', balanced 0 u' (Delivery_nack b i now).
Proof.
  intros [Hc Ha Hn Hm]. unfold Delivery_nack, settle.
  destruct (cells b !! i) as [d|] eqn:Hi; [|by exists u].
  destruct (N.eqb_spec (d_state d) DELIVERY_PENDING) as [Hd|]; [|by exists u].
  simpl. rewrite list_lookup_insert_eq by (by eapply lookup_lt_Some). simpl.
  set (b1 := set_channels _ _ _ _ _).
  assert (balanced (0 + 1) (bump Nacked u) (count b1 Nacked)) as Hb.
  { split; simpl; [by rewrite Hc, fetch_add_wrap|..|lia];
      rewrite (count_state_settle _ _ _ _ _ Hi Hd) by done; simpl; lia. }
  unfold requeue_or_dead_letter. destruct (_ <? _); [|eexists; by apply balanced_delivered].
  match goal with |- context [match ?o with Some _ => _ | None => push_dead_letter _ _ _ _ end] =>
    destruct o end; eexists; [apply balanced_send|]; by apply balanced_dead_letter.
Qed.

Lemma balanced_step u b now c : balanced 0 u b → ∃ u', balanced 0 u' (broker_step b now c).
Proof.
  intros Hb. destruct c as [m fresh|tp|i|i|i|id fresh|id|]; simpl.
  - eapply balanced_route, (balanced_count Published). exact Hb.
  - exists u. by eapply balanced_same.
  - by apply (balanced_ack u).
  - by apply (balanced_nack u).
  - unfold fire_scheduled. destruct (scheduled b !! i) as [[due m]|] eqn:Hi; [|by exists u].
    destruct (due <=? now); [|by exists u]. apply (balanced_route_now 0 u).
    destruct Hb as [Hc Ha Hn Hm]. split; simpl; [done..|].
    rewrite length_delete by (by exists (due, m)).
    apply lookup_lt_Some in Hi. lia.
  - unfold replay_dead_letter. destruct (list_find _ _) as [[i r]|]; [|by exists u].
    eapply balanced_route, (balanced_count Replayed). by eapply balanced_same.
  - unfold purge_dead_letter. destruct (list_find _ _) as [[i r]|]; exists u;
      [by eapply balanced_same | done].
  - exists u. by eapply balanced_same.
Qed.

Lemma balanced_run u b cs : balanced 0 u b → ∃ u', balanced 0 u' (broker_run b cs).
Proof.
  revert u b. induction cs as [|[now c] cs IH]; intros u b Hb; [by exists u|].
  destruct (balanced_step u b now c Hb) as [u' Hb']. by apply (IH u').
Qed.

(** ** Attempts and dead letters *)

Definition exhausted b (r : DeadLetterRecord Value) : Prop :=
  broker_max_attempts b < attempt (dl_message r) ∧ dl_id r < next_dead_letter_id b.

(** [bounded n b]: after at most [n] dead letters. *)
Record bounded (n : N) b : Prop :=
  { bd_cells : Forall (λ d, attempt (d_message d) ≤ broker_max_attempts b) (cells b);
    bd_letters : Forall (exhausted b) (dead_letters b);
    bd_unique : NoDup (dl_id <$> dead_letters b);
    bd_next : next_dead_letter_id b ≤ 1 + n }.

Lemma bounded_same n b b' :
  bounded n b → cells b' = cells b → dead_letters b' = dead_letters b →
  next_dead_letter_id b' = next_dead_letter_id b →
  broker_max_attempts b' = broker_max_attempts b → bounded n b'.
Proof.
  intros [H1 H2 H3 H4] E1 E2 E3 E4. split; rewrite ?E1, ?E2, ?E3, ?E4; try done.
  unfold exhausted. by rewrite E3, E4.
Qed.

Lemma bounded_count n b c : bounded n b → bounded n (count b c).
Proof. intros Hb. by eapply bounded_same. Qed.

Lemma bounded_mono n n' b : bounded n b → n ≤ n' → bounded n' b.
Proof. intros [H1 H2 H3 H4] Hn. split; try done. lia. Qed.

Lemma bounded_send n b tp m :
  bounded n b → attempt m ≤ broker_max_attempts b → bounded n (send_delivery b tp m).
Proof.
  intros [H1 H2 H3 H4] Hm. split; simpl; [|done..]. apply Forall_app. split; [done|].
  by repeat constructor.
Qed.

Lemma bounded_dead_letter n b m why now :
  bounded n b → broker_max_attempts b < attempt m → n < 2 ^ 64 - 2 →
  bounded (n + 1) (push_dead_letter b m why now).
Proof.
  intros [H1 H2 H3 H4] Hm Hn. unfold push_dead_letter. split; simpl.
  - done.
  - unfold exhausted; simpl. unfold wrap. rewrite N.mod_small by lia.
    apply Forall_app. split; [|repeat constructor; simpl; lia].
    eapply Forall_impl; [exact H2|]. intros r [? ?]. split; [done|lia].
  - rewrite fmap_app, NoDup_app. split_and!; [done| |by apply NoDup_singleton].
    intros x Hx. simpl. rewrite list_elem_of_singleton. intros ->.
    apply list_elem_of_fmap in Hx as (r & Hr & Hin). rewrite Forall_forall in H2.
    destruct (H2 r Hin) as [_ Hlt]. lia.
  - unfold wrap. rewrite N.mod_small by lia. lia.
Qed.

(** Exhausting a message: a dead letter and perhaps a delivery to a
    dead-letter topic, whose attempt starts over. *)
Lemma bounded_exhaust n b m why now (otp : option rstr) :
  bounded n b → broker_max_attempts b < attempt m → n < 2 ^ 64 - 2 →
  bounded (n + 1)
    match otp with
    | Some tp => send_delivery (push_dead_letter b m why now) tp (to_dead_letter_topic m tp)
    | None => push_dead_letter b m why now
    end.
Proof.
  intros Hb Hm Hn. pose proof (bounded_dead_letter n b m why now Hb Hm Hn) as Hb'.
  destruct otp; [|done]. apply bounded_send; [done|]. apply N.le_0_l.
Qed.

Lemma bounded_route_now n b m now :
  bounded n b → n < 2 ^ 64 - 2 → bounded (n + 1) (route_delivery_now b m now).
Proof.
  intros Hb Hn. unfold route_delivery_now.
  destruct (prepare_delivery_metadata b m now) as [m' b'] eqn:E.
  assert (bounded n b') as Hb'.
  { unfold prepare_delivery_metadata in E. destruct (offset m); simplify_eq; [done|].
    by eapply bounded_same. }
  destruct (N.ltb_spec (broker_max_attempts b') (attempt (set_attempt m' (sat_add U32_MAX (attempt m') 1)))).
  - by apply bounded_exhaust.
  - apply (bounded_mono n); [|lia]. by apply bounded_count, bounded_send.
Qed.

Lemma bounded_requeue n b m now :
  bounded n b → n < 2 ^ 64 - 2 → bounded (n + 1) (requeue_or_dead_letter b m now).
Proof.
  intros Hb Hn. unfold requeue_or_dead_letter.
  assert (bounded n (count b Nacked)) as Hb' by (by eapply bounded_same).
  destruct (N.ltb_spec (broker_max_attempts (count b Nacked))
    (attempt (set_attempt m (sat_add U32_MAX (attempt m) 1)))).
  - by apply bounded_exhaust.
  - apply (bounded_mono n); [|lia]. by apply bounded_count, bounded_send.
Qed.

Lemma bounded_route n b m now :
  bounded n b → n < 2 ^ 64 - 2 → bounded (n + 1) (route_delivery b m now).
Proof.
  intros Hb Hn. unfold route_delivery. destruct (is_duplicate b m) as [dup b'] eqn:E.
  assert (bounded n b') as Hb'.
  { unfold is_duplicate in E. destruct (idempotency_key m); simplify_eq; [|done].
    destruct (bool_decide _); by eapply bounded_same. }
  destruct dup; [apply (bounded_mono n); [done|lia]|].
  destruct (delivery_delay m now); [|by apply bounded_route_now].
  apply (bounded_mono n); [by eapply bounded_same|lia].
Qed.

Lemma bounded_set_cell n b i d to :
  bounded n b → cells b !! i = Some d →
  bounded n (set_channels b (topics b)
    (<[i := {| d_message := d_message d; d_state := to |}]> (cells b)) (sent b) (scheduled b)).
Proof.
  intros [H1 H2 H3 H4] Hi. split; simpl; [|done..]. apply Forall_insert; [done|]. simpl.
  by eapply (Forall_lookup_1 _ _ _ _ H1).
Qed.

Lemma bounded_step n b now c :
  bounded n b → n < 2 ^ 64 - 2 → bounded (n + 1) (broker_step b now c).
Proof.
  intros Hb Hn.
  assert (bounded (n + 1) b) as Hb1 by (eapply bounded_mono; [done|lia]).
  destruct c as [m fresh|tp|i|i|i|id fresh|id|]; simpl.
  - apply bounded_route; [by eapply bounded_same | done].
  - by eapply bounded_same.
  - unfold Delivery_ack, settle. destruct (cells b !! i) as [d|] eqn:Hi; [|done].
    destruct (_ =? _); [|done].
    eapply bounded_same; [by apply (bounded_set_cell _ b i d DELIVERY_ACKED)|done..].
  - unfold Delivery_nack, settle. destruct (cells b !! i) as [d|] eqn:Hi; [|done].
    destruct (_ =? _); [|done]. simpl.
    rewrite list_lookup_insert_eq by (by eapply lookup_lt_Some). simpl.
    apply bounded_requeue; [by apply bounded_set_cell | done].
  - unfold fire_scheduled. destruct (scheduled b !! i) as [[due m]|]; [|done].
    destruct (due <=? now); [|done]. apply bounded_route_now; [by eapply bounded_same | done].
  - unfold replay_dead_letter. destruct (list_find _ _) as [[i r]|] eqn:E; [|done].
    apply bounded_route; [|done]. apply list_find_Some in E as (Hi & _ & _).
    destruct Hb as [H1 H2 H3 H4]. split; simpl; [done| | |done].
    + apply Forall_insert; [done|]. by apply (Forall_lookup_1 _ _ _ _ H2 Hi).
    + rewrite list_fmap_insert. simpl.
      rewrite list_insert_id; [done|]. by rewrite list_lookup_fmap, Hi.
  - unfold purge_dead_letter. destruct (list_find _ _) as [[i r]|] eqn:E; [|done].
    destruct Hb1 as [H1 H2 H3 H4]. split; simpl; [done| | |done].
    + by apply Forall_delete.
    + eapply sublist_NoDup; [exact H3|]. by apply fmap_sublist, sublist_delete.
  - destruct Hb1 as [H1 H2 H3 H4]. split; simpl; try done; constructor.
Qed.

Lemma bounded_run n b cs :
  bounded n b → n + N.of_nat (length cs) < 2 ^ 64 - 1 →
  bounded (n + N.of_nat (length cs)) (broker_run b cs).
Proof.
  revert n b. induction cs as [|[now c] cs IH]; intros n b Hb Hn; cbn [length] in *;
    [by rewrite N.add_0_r|].
  unfold broker_run; cbn [foldl]. fold (broker_run (broker_step b now c) cs).
  replace (n + N.of_nat (S (length cs))) with (n + 1 + N.of_nat (length cs)) by lia.
  apply IH; [apply bounded_step; [done|lia] | lia].
Qed.

(** ** Idempotency keys *)

Lemma route_now_seen b m now :
  seen_idempotency_keys (route_delivery_now b m now) = seen_idempotency_keys b.
Proof.
  unfold route_delivery_now, prepare_delivery_metadata.
  destruct (offset m); destruct (_ <? _); try done; by destruct (dead_letter_topic (_ : Message Value)).
Qed.

Lemma requeue_seen b m now :
  seen_idempotency_keys (requeue_or_dead_letter b m now) = seen_idempotency_keys b.
Proof.
  unfold requeue_or_dead_letter. destruct (_ <? _); [|done].
  by destruct (match dead_letter_topic _ with Some _ => _ | None => _ end).
Qed.

Lemma route_seen b m now :
  seen_idempotency_keys (route_delivery b m now) =
    match idempotency_key m with
    | Some k => {[ k ]} ∪ seen_idempotency_keys b | None => seen_idempotency_keys b end.
Proof.
  unfold route_delivery, is_duplicate. destruct (idempotency_key m) as [k|].
  - destruct (bool_decide _); [done|]. destruct (delivery_delay m now); [done|].
    by rewrite route_now_seen.
  - destruct (delivery_delay m now); [done|]. by rewrite route_now_seen.
Qed.

Lemma ensure_trace_id_key (m : Message Value) (fresh : rstr) : idempotency_key (ensure_trace_id m fresh).2 = idempotency_key m.
Proof. unfold ensure_trace_id. by destruct (find_header _ _) as [[]|]. Qed.

Lemma broker_step_seen b now c k :
  k ∈ seen_idempotency_keys b → k ∈ seen_idempotency_keys (broker_step b now c).
Proof.
  intros Hk. destruct c as [m fresh|tp|i|i|i|id fresh|id|]; simpl; try done.
  - unfold InMemoryBroker_publish. rewrite route_seen, ensure_trace_id_key. simpl.
    destruct (idempotency_key m); set_solver.
  - unfold Delivery_ack, settle. destruct (cells b !! i); [|done]. by destruct (_ =? _).
  - unfold Delivery_nack, settle. destruct (cells b !! i) eqn:E; [|done]. destruct (_ =? _); [|done].
    destruct (cells (set_channels _ _ _ _ _) !! i); [|done]. by rewrite requeue_seen.
  - unfold fire_scheduled. destruct (scheduled b !! i) as [[due m]|]; [|done].
    destruct (due <=? now); [|done]. by rewrite route_now_seen.
  - unfold replay_dead_letter. destruct (list_find _ _) as [[i r]|]; [|done].
    cbn [snd]. by rewrite route_seen, ensure_trace_id_key.
  - unfold purge_dead_letter. by destruct (list_find _ _) as [[i r]|].
Qed.

Lemma broker_run_seen b cs k :
  k ∈ seen_idempotency_keys b → k ∈ seen_idempotency_keys (broker_run b cs).
Proof.
  revert b. induction cs as [|[now c] cs IH]; intros b Hk; [done|].
  apply IH. by apply broker_step_seen.
Qed.

(** ** Redelivery *)

(** [n] consumers in a row reject the newest delivery. *)
Fixpoint nack_newest (n : nat) b (now : N) : InMemoryBroker Value :=
  match n with
  | O => b
  | S n => let b := nack_newest n b now in Delivery_nack b (pred (length (cells b))) now
  end.

Lemma nack_last b prior m now :
  cells b = prior ++ [{| d_message := m; d_state := DELIVERY_PENDING |}] →
  ∃ b1, Delivery_nack b (pred (length (cells b))) now = requeue_or_dead_letter b1 m now ∧
    cells b1 = prior ++ [{| d_message := m; d_state := DELIVERY_NACKED |}] ∧ sent b1 = sent b ∧
    dead_letters b1 = dead_letters b ∧ next_dead_letter_id b1 = next_dead_letter_id b ∧
    broker_max_attempts b1 = broker_max_attempts b ∧
    broker_dead_letter_topic b1 = broker_dead_letter_topic b.
Proof.
  intros Hc. unfold Delivery_nack, settle. rewrite Hc, length_app. simpl.
  replace (pred (length prior + 1)) with (length prior) by lia.
  rewrite list_lookup_middle by done. simpl.
  rewrite insert_app_r_alt, Nat.sub_diag by done. simpl.
  rewrite list_lookup_middle by done. eexists; split_and!; [done|..]; done.
Qed.

(** The copies of [m] with the attempts 1 to [n], all in state [st]. *)
Definition copies m (st : N) (n : nat) : list (Delivery Value) :=
  (λ i, {| d_message := set_attempt m (N.of_nat i); d_state := st |}) <$> seq 1 n.
(** The channel sends of [n] deliveries to [tp] whose cells are numbered from [first]. *)
Definition sends (tp : rstr) (first n : nat) : list (rstr * nat) := pair tp <$> seq first n.

Lemma copies_S m st n :
  copies m st (S n) = copies m st n ++ [{| d_message := set_attempt m (N.of_nat n + 1); d_state := st |}].
Proof. unfold copies. rewrite seq_S, fmap_app. simpl. do 4 f_equal. lia. Qed.
Lemma sends_S tp first n : sends tp first (S n) = sends tp first n ++ [(tp, (first + n)%nat)].
Proof. unfold sends. by rewrite seq_S, fmap_app. Qed.
Lemma copies_length m st n : length (copies m st n) = n.
Proof. unfold copies. by rewrite length_fmap, length_seq. Qed.

Lemma redelivery_chain b prior m now j :
  cells b = prior ++ [{| d_message := m; d_state := DELIVERY_PENDING |}] →
  attempt m = 1 → N.of_nat j < broker_max_attempts b → broker_max_attempts b < U32_MAX →
  let b' := nack_newest j b now in
  cells b' = (prior ++ copies m DELIVERY_NACKED j) ++
    [{| d_message := set_attempt m (N.of_nat j + 1); d_state := DELIVERY_PENDING |}] ∧
  sent b' = sent b ++ sends (topic m) (S (length prior)) j ∧
  dead_letters b' = dead_letters b ∧ next_dead_letter_id b' = next_dead_letter_id b ∧
  broker_max_attempts b' = broker_max_attempts b ∧
  broker_dead_letter_topic b' = broker_dead_letter_topic b.
Proof.
  intros Hc Ha Hj HM. cbv zeta. induction j as [|j IH].
  - simpl. rewrite !app_nil_r. split_and!; try done. rewrite Hc.
    destruct m; simpl in *. by subst.
  - destruct IH as (Hc' & Hs' & Hd' & Hi' & Hm' & Ht'); [lia|]. cbn [nack_newest].
    destruct (nack_last _ _ _ now Hc') as (b1 & -> & Hc1 & Hs1 & Hd1 & Hi1 & Hm1 & Ht1).
    unfold requeue_or_dead_letter. cbn [attempt set_attempt set_route].
    rewrite sat_add_small by lia. simpl broker_max_attempts.
    rewrite (proj2 (N.ltb_ge _ _)) by (rewrite Hm1, Hm'; lia).
    simpl. rewrite Hc1, Hd1, Hi1, Hm1, Ht1, Hs1, Hs', copies_S, sends_S, !length_app, copies_length. simpl.
    rewrite <- !app_assoc. split_and!; try done; repeat f_equal; lia.
Qed.

End broker.

(** ** Properties *)

Section properties.
Context {Value : Type}.
Implicit Types (b : InMemoryBroker Value) (m : Message Value).

(** C3: the broker keeps its accounts. In every execution of a new broker
    (publishing, settling clones of deliveries in any order and any number of
    times, firing timers, administering dead letters) there are exact counts
    [u], which the [AtomicU64]s hold modulo 2^64, such that [acked] and [nacked]
    are the numbers of deliveries whose settlement cell is acknowledged and
    rejected (so each delivery has at most one effect, that of its first
    settlement), and no message is lost: what was published, replayed or
    rejected was delivered, dead-lettered, dropped as a duplicate, or waits for
    its timer. *)
Theorem broker_accounting b cs :
  b = InMemoryBroker_new ∨ (∃ tp max, b = InMemoryBroker_with_dead_letter tp max) →
  let b' := broker_run b cs in
  ∃ u, counters b' = wrap_counters u ∧
    acked u = count_state DELIVERY_ACKED (cells b') ∧
    nacked u = count_state DELIVERY_NACKED (cells b') ∧
    delivered u + dead_lettered u + duplicated u + N.of_nat (length (scheduled b')) =
      published u + replayed u + nacked u.
Proof.
  intros Hb. destruct (balanced_run MqCounters_zero b cs) as [u [H1 H2 H3 H4]].
  - by destruct Hb as [->|(tp & max & ->)].
  - exists u. split_and!; try done. lia.
Qed.

(** Attempts are bounded and dead letters are identified. In every
    execution of fewer than 2^64 - 1 calls, no delivery ever sent has an attempt
    above [max_attempts], every dead letter has one above it, and the dead
    letters kept have pairwise different ids, below the next one. *)
Theorem broker_attempts_bounded b cs :
  b = InMemoryBroker_new ∨ (∃ tp max, b = InMemoryBroker_with_dead_letter tp max) →
  N.of_nat (length cs) < 2 ^ 64 - 1 →
  let b' := broker_run b cs in
  Forall (λ d, attempt (d_message d) ≤ broker_max_attempts b') (cells b') ∧
  Forall (λ r, broker_max_attempts b' < attempt (dl_message r) ∧
               dl_id r < next_dead_letter_id b') (dead_letters b') ∧
  NoDup (dl_id <$> dead_letters b').
Proof.
  intros Hb Hn. destruct (bounded_run 0 b cs) as [H1 H2 H3 H4]; [|lia|done].
  destruct Hb as [->|(tp & max & ->)]; split; simpl; try constructor; lia.
Qed.

(** Publishing is idempotent. Once a message with an idempotency key was
    published, whatever happened since, publishing a message with the same key
    only counts a publication and a duplicate: nothing is sent, scheduled or
    dead-lettered. *)
Theorem duplicate_publish_dropped b m m' k now fresh cs now' fresh' :
  idempotency_key m = Some k → idempotency_key m' = Some k →
  let b1 := broker_run (InMemoryBroker_publish b m now fresh) cs in
  let b2 := InMemoryBroker_publish b1 m' now' fresh' in
  cells b2 = cells b1 ∧ sent b2 = sent b1 ∧ scheduled b2 = scheduled b1 ∧
  dead_letters b2 = dead_letters b1 ∧ topic_offsets b2 = topic_offsets b1 ∧
  counters b2 = fetch_add Duplicated (fetch_add Published (counters b1)).
Proof.
  intros Hm Hm' b1 b2.
  assert (k ∈ seen_idempotency_keys b1) as Hk.
  { apply broker_run_seen. unfold InMemoryBroker_publish.
    rewrite route_seen, ensure_trace_id_key, Hm. set_solver. }
  unfold b2, InMemoryBroker_publish, route_delivery, is_duplicate.
  rewrite ensure_trace_id_key, Hm'. simpl. by rewrite (bool_decide_true _ Hk).
Qed.

(** C4: a message that keeps being rejected is delivered exactly
    [max_attempts] times and then dead-lettered. A first delivery (attempt 1) and its
    redeliveries, each rejected once, are sent to the topic of the message, carry
    attempts 1 to [max_attempts] and add no dead letter. The last rejection adds
    exactly one, with the message at attempt [max_attempts + 1] and its topic, and
    sends one more copy, at attempt 0, only if the message or else the broker names a
    dead-letter topic, and to that topic. Nothing else is sent, and every earlier
    delivery is left as it was. *)
Theorem rejected_message_dead_letters b prior m now :
  cells b = prior ++ [{| d_message := m; d_state := DELIVERY_PENDING |}] →
  attempt m = 1 → 0 < broker_max_attempts b < U32_MAX →
  let M := N.to_nat (broker_max_attempts b) in
  (∀ j, (j < M)%nat →
     let b' := nack_newest j b now in
     cells b' = prior ++ copies m DELIVERY_NACKED j ++
       [{| d_message := set_attempt m (N.of_nat j + 1); d_state := DELIVERY_PENDING |}] ∧
     sent b' = sent b ++ sends (topic m) (S (length prior)) j ∧ dead_letters b' = dead_letters b) ∧
  let b' := nack_newest M b now in
  let rejected := set_attempt m (broker_max_attempts b + 1) in
  dead_letters b' = dead_letters b ++
    [{| dl_id := next_dead_letter_id b; original_topic := topic m; reason := lit "nack_max_attempts_exceeded";
        failed_at_millis := now; replay_count := 0; dl_message := rejected |}] ∧
  match (match dead_letter_topic m with Some tp => Some tp | None => broker_dead_letter_topic b end) with
  | Some tp =>
      cells b' = prior ++ copies m DELIVERY_NACKED M ++
        [{| d_message := to_dead_letter_topic rejected tp; d_state := DELIVERY_PENDING |}] ∧
      sent b' = sent b ++ sends (topic m) (S (length prior)) (M - 1) ++ [(tp, (length prior + M)%nat)]
  | None =>
      cells b' = prior ++ copies m DELIVERY_NACKED M ∧
      sent b' = sent b ++ sends (topic m) (S (length prior)) (M - 1)
  end.
Proof.
  intros Hc Ha HM M. split.
  - intros j Hj. cbv zeta.
    destruct (redelivery_chain b prior m now j) as (Hc' & Hs' & Hd' & _); try done; [lia|lia|].
    by rewrite Hc', <- app_assoc.
  - subst M. destruct (N.to_nat (broker_max_attempts b)) as [|j] eqn:EM; [lia|]. cbn [nack_newest].
    destruct (redelivery_chain b prior m now j) as (Hc' & Hs' & Hd & Hi & Hm & Ht); try done; [lia..|].
    destruct (nack_last _ _ _ now Hc') as (b1 & -> & Hc1 & Hs1 & Hd1 & Hi1 & Hm1 & Ht1).
    unfold requeue_or_dead_letter. cbn [attempt set_attempt set_route].
    rewrite sat_add_small by lia. simpl broker_max_attempts.
    rewrite (proj2 (N.ltb_lt _ _)) by (rewrite Hm1, Hm; lia).
    replace (N.of_nat j + 1 + 1) with (broker_max_attempts b + 1) by lia. simpl dead_letter_topic.
    simpl broker_dead_letter_topic. rewrite Ht1, Ht, copies_S, Nat.sub_succ, Nat.sub_0_r.
    destruct (dead_letter_topic m) as [tp|], (broker_dead_letter_topic b) as [tp'|]; simpl;
      rewrite Hd1, Hd, Hi1, Hi, Hc1, Hs1, Hs', ?length_app, ?copies_length, <- ?app_assoc; simpl;
      (split; [done|split; [done|]]); try done;
      by replace (length prior + S j)%nat with (length prior + j + 1)%nat by lia.
Qed.
End properties.

(** ** Witnesses *)

Definition ex_message : Message N := (Message_new 5 0 (lit "trace") (lit "orders") 7).1.
Definition ex_keyed (k : rstr) : Message N :=
  set_route ex_message (lit "orders") 5 None None 0 (Some k) None.
Definition ex_broker : InMemoryBroker N := InMemoryBroker_with_dead_letter (lit "dead") 2.

Lemma broker_accounting_witness :
  ∃ u, counters (broker_run ex_broker [(1, DoPublish ex_message (lit "t")); (2, DoNack 0); (3, DoAck 0)])
         = wrap_counters u ∧ acked u = 0.
Proof.
  destruct (broker_accounting ex_broker
    [(1, DoPublish ex_message (lit "t")); (2, DoNack 0); (3, DoAck 0)]) as (u & H1 & H2 & _);
    [right; exists (lit "dead"), 2; reflexivity|].
  exists u. split; [exact H1|]. rewrite H2. vm_compute. reflexivity.
Defined.

Lemma broker_attempts_bounded_witness :
  NoDup (dl_id <$> dead_letters (broker_run ex_broker
    [(1, DoPublish ex_message (lit "t")); (2, DoNack 0); (3, DoNack 1); (4, DoNack 2)])).
Proof.
  refine (proj2 (proj2 (broker_attempts_bounded ex_broker
    [(1, DoPublish ex_message (lit "t")); (2, DoNack 0); (3, DoNack 1); (4, DoNack 2)] _ _))).
  - right. exists (lit "dead"), 2. reflexivity.
  - vm_compute. reflexivity.
Defined.

Lemma duplicate_publish_dropped_witness :
  let b1 := broker_run (InMemoryBroker_publish ex_broker (ex_keyed (lit "o-1")) 1 (lit "t"))
              [(2, DoAck 0)] in
  sent (InMemoryBroker_publish b1 (ex_keyed (lit "o-1")) 3 (lit "t")) = sent b1.
Proof.
  refine (proj1 (proj2 (duplicate_publish_dropped ex_broker (ex_keyed (lit "o-1"))
    (ex_keyed (lit "o-1")) (lit "o-1") 1 (lit "t") [(2, DoAck 0)] 3 (lit "t") _ _))); reflexivity.
Defined.

Lemma rejected_message_dead_letters_witness :
  let b := InMemoryBroker_publish ex_broker ex_message 1 (lit "t") in
  dead_letters (nack_newest 1 b 9) = [].
Proof.
  refine (proj2 (proj2 (proj1 (rejected_message_dead_letters
    (InMemoryBroker_publish ex_broker ex_message 1 (lit "t")) [] _ 9 _ _ _) 1%nat _))).
  - vm_compute. reflexivity.
  - vm_compute. reflexivity.
  - vm_compute. split; reflexivity.
  - vm_compute. reflexivity.
Defined.
