(* ===== verification/Governed.v ===== *)
(** * Governed message consumption (crates/roze-mq/src/lib.rs)

    [execute_governed_delivery] threads the process-wide registries of
    Resilience.v through rate limiting, circuit breaking, load shedding and the
    retry loop around a message handler. The handler is the application's: a
    function of its own state and the instant it is called at, giving its
    result, how long it ran, and its new state. Under a timeout a handler that
    runs longer than the limit is cut at the limit. Metrics are not modelled. *)

From S2P Require Import Prelude Text Breaker Resilience.

Record Governance :=
  { rate_limiters : RateLimitRegistry; breakers : BreakerRegistry; shedders : SheddingRegistry;
    retry_budgets : RetryBudgetRegistry; jitter_state : N }.

Inductive DeliveryError (E : Type) :=
| RejectedByRateLimit | RejectedByBreaker | RejectedByShedding | HandlerTimedOut
| HandlerFailed (e : E).
Arguments RejectedByRateLimit {E}. Arguments RejectedByBreaker {E}.
Arguments RejectedByShedding {E}. Arguments HandlerTimedOut {E}. Arguments HandlerFailed {E}.

Definition set_rate (g : Governance) (r : RateLimitRegistry) : Governance :=
  {| rate_limiters := r; breakers := breakers g; shedders := shedders g;
     retry_budgets := retry_budgets g; jitter_state := jitter_state g |}.
Definition set_breakers (g : Governance) (r : BreakerRegistry) : Governance :=
  {| rate_limiters := rate_limiters g; breakers := r; shedders := shedders g;
     retry_budgets := retry_budgets g; jitter_state := jitter_state g |}.
Definition set_shedders (g : Governance) (r : SheddingRegistry) : Governance :=
  {| rate_limiters := rate_limiters g; breakers := breakers g; shedders := r;
     retry_budgets := retry_budgets g; jitter_state := jitter_state g |}.
Definition set_budgets (g : Governance) (r : RetryBudgetRegistry) (j : N) : Governance :=
  {| rate_limiters := rate_limiters g; breakers := breakers g; shedders := shedders g;
     retry_budgets := r; jitter_state := j |}.

Section governed.
Context {Value E St : Type}.
Context (policy : GovernancePolicy Value) (handler : St → N → result E unit * N * St) (key : rstr).

(** [tokio::time::timeout(timeout.max(1ms), future)] *)
Definition call_handler (st : St) (now : N) : result (DeliveryError E) unit * N * St :=
  let '(r, d, st') := handler st now in
  let r' := match r with Ok tt => Ok tt | Err e => Err (HandlerFailed e) end in
  match timeout policy with
  | Some t => let limit := N.max t (from_millis 1) in
              if limit <? d then (Err HandlerTimedOut, now + limit, st') else (r', now + d, st')
  | None => (r', now + d, st')
  end.

(** The [loop]: [remaining] is [max_attempts - attempt]. *)
Fixpoint attempt_loop (remaining : nat) (retry : RetryPolicy) (attempt : N) (g : Governance)
    (st : St) (now : N) : result (DeliveryError E) unit * Governance * St * N :=
  let '(result, now, st) := call_handler st now in
  match remaining with
  | O => (result, g, st, now)
  | S remaining =>
      if is_ok result then (result, g, st, now)
      else
        let '(allowed, budgets) :=
          RetryBudgetRegistry_allow_retry (retry_budgets g) key (budget_percent retry) now in
        if negb allowed then (result, set_budgets g budgets (jitter_state g), st, now)
        else
          let '(delay, jitter) :=
            full_jitter_delay (jitter_state g) (backoff retry) (max_backoff retry) attempt in
          attempt_loop remaining retry (attempt + 1) (set_budgets g budgets jitter) st (now + delay)
  end.

Definition rate_limit_gate (g : Governance) (now : N) : bool * Governance :=
  match rate_limit policy with
  | Some config =>
      let '(allowed, r) := RateLimitRegistry_allow (rate_limiters g) key config now in
      (allowed, set_rate g r)
  | None => (true, g)
  end.

Definition breaker_gate (g : Governance) (now : N) : option (option BreakerPermit) * Governance :=
  match breaker policy with
  | Some _ =>
      let '(decision, r) := BreakerRegistry_allow (breakers g) key now in
      (match decision with Allow permit => Some (Some permit) | Reject => None end, set_breakers g r)
  | None => (Some None, g)
  end.

Definition shedding_gate (g : Governance) (now : N) : bool * Governance :=
  match shedding policy with
  | Some config =>
      let '(allowed, r) := SheddingRegistry_allow (shedders g) key config now in
      (allowed, set_shedders g r)
  | None => (true, g)
  end.

Definition cancel_permit (g : Governance) (permit : option BreakerPermit) (now : N) : Governance :=
  match breaker policy, permit with
  | Some config, Some permit =>
      set_breakers g (BreakerRegistry_cancel (breakers g) key permit config now)
  | _, _ => g
  end.

Definition settle_permit (g : Governance) (permit : option BreakerPermit) (success : bool) (now : N)
    : Governance :=
  match breaker policy, permit with
  | Some config, Some permit =>
      set_breakers g
        (if success then BreakerRegistry_record_success (breakers g) key permit
         else BreakerRegistry_record_failure (breakers g) key permit config now)
  | _, _ => g
  end.

Definition settle_shedding (g : Governance) (success : bool) (elapsed now : N) : Governance :=
  match shedding policy with
  | Some config =>
      set_shedders g (SheddingRegistry_record (shedders g) key success elapsed config now)
  | None => g
  end.

Definition execute_governed_delivery (g : Governance) (st : St) (started : N)
    : result (DeliveryError E) unit * Governance * St * N :=
  let '(allowed, g) := rate_limit_gate g started in
  if negb allowed then (Err RejectedByRateLimit, g, st, started)
  else
    let '(admitted, g) := breaker_gate g started in
    match admitted with
    | None => (Err RejectedByBreaker, g, st, started)
    | Some permit =>
        let '(allowed, g) := shedding_gate g started in
        if negb allowed
        then (Err RejectedByShedding, cancel_permit g permit started, st, started)
        else
          let retry := default RetryPolicy_default (retry policy) in
          let max_attempts := N.max (max_attempts retry) 1 in
          let g := set_budgets g
                     (RetryBudgetRegistry_record_call (retry_budgets g) key started) (jitter_state g) in
          let '(result, g, st, now) :=
            attempt_loop (N.to_nat (max_attempts - 1)) retry 1 g st started in
          let success := is_ok result in
          let g := settle_permit g permit success now in
          let g := settle_shedding g success (now - started) now in
          (result, g, st, now)
    end.

(** ** Lemmas *)

(** The loop only spends retry budget. *)
Lemma attempt_loop_registries remaining retry attempt g st now r g' st' now' :
  attempt_loop remaining retry attempt g st now = (r, g', st', now') →
  rate_limiters g' = rate_limiters g ∧ breakers g' = breakers g ∧ shedders g' = shedders g.
Proof.
  revert attempt g st now. induction remaining as [|n IH]; intros attempt g st now; simpl;
    destruct (call_handler st now) as [[res now1] st1]; [by intros; simplify_eq|].
  destruct (is_ok res); [by intros; simplify_eq|].
  destruct (RetryBudgetRegistry_allow_retry _ _ _ _) as [[] bud]; simpl; [|by intros; simplify_eq].
  intros H. by apply IH in H.
Qed.

(** It calls the handler at most [remaining + 1] times. *)
Lemma attempt_loop_calls (calls : St → N) remaining retry attempt g st now r g' st' now' :
  (∀ st now, calls (handler st now).2 ≤ calls st + 1) →
  attempt_loop remaining retry attempt g st now = (r, g', st', now') →
  calls st' ≤ calls st + N.of_nat remaining + 1.
Proof.
  intros Hc. assert (∀ st now, calls (call_handler st now).2 ≤ calls st + 1) as Hch.
  { intros st0 now0. unfold call_handler. specialize (Hc st0 now0).
    destruct (handler st0 now0) as [[res d] st1]. simpl in *.
    destruct (timeout policy); [destruct (_ <? _)|]; done. }
  revert attempt g st now. induction remaining as [|n IH]; intros attempt g st now; simpl;
    specialize (Hch st now) as Hst; destruct (call_handler st now) as [[res now1] st1]; simpl in Hst;
    [intros; simplify_eq; lia|].
  destruct (is_ok res); [intros; simplify_eq; lia|].
  destruct (RetryBudgetRegistry_allow_retry _ _ _ _) as [[] bud]; simpl; [|intros; simplify_eq; lia].
  intros H. apply IH in H. lia.
Qed.
End governed.

(** Phases around an admission and its settlement. *)
Lemma allow_entry_phase s now :
  match allow_entry s now with
  | (Allow PermitClosed, s') => phase s' = Closed
  | (Allow PermitProbe, s') => phase s' = HalfOpen
  | (Reject, s') => phase s' = phase s
  end.
Proof.
  unfold allow_entry. destruct (phase s) eqn:E; simpl; try done.
  by destruct (match open_until s with Some until => now <? until | None => false end).
Qed.

Lemma settled_not_half_open s permit config now :
  (phase s = HalfOpen → permit = PermitProbe) →
  phase (record_success_entry s permit) ≠ HalfOpen ∧
  phase (record_failure_entry s permit config now) ≠ HalfOpen ∧
  phase (cancel_entry s permit config now) ≠ HalfOpen.
Proof.
  intros H. unfold record_success_entry, record_failure_entry, cancel_entry.
  destruct s as [f ph ou], permit, ph; simpl in *; try destruct (_ <=? _); naive_solver.
Qed.

Lemma breaker_cancel_entry reg key permit config now :
  breaker_entry (BreakerRegistry_cancel reg key permit config now) key =
    cancel_entry (breaker_entry reg key) permit config now.
Proof.
  exact (breaker_step_next reg {| ev_key := key; ev_now := now; ev_call := CallCancel permit config |}).
Qed.

Lemma shedding_record_in_flight reg key success latency config now :
  in_flight (shed_entry (SheddingRegistry_record reg key success latency config now) key) =
    in_flight (shed_entry reg key) - 1.
Proof.
  unfold SheddingRegistry_record. rewrite shed_entry_insert. by destruct (should_shed _ _).
Qed.

Section gates.
Context {Value : Type} (policy : GovernancePolicy Value) (key : rstr).

Lemma rate_limit_gate_frame g now :
  breakers (rate_limit_gate policy key g now).2 = breakers g ∧
  shedders (rate_limit_gate policy key g now).2 = shedders g.
Proof.
  unfold rate_limit_gate. destruct (rate_limit policy); [|done].
  by destruct (RateLimitRegistry_allow _ _ _ _).
Qed.

(** What the breaker gate leaves to settle: a probe permit exactly when it made
    the breaker half-open. *)
Lemma breaker_gate_spec g now :
  let '(admitted, g') := breaker_gate policy key g now in
  shedders g' = shedders g ∧
  match admitted with
  | None => phase (breaker_entry (breakers g') key) = phase (breaker_entry (breakers g) key)
  | Some None => breakers g' = breakers g ∧ breaker policy = None
  | Some (Some permit) =>
      is_Some (breaker policy) ∧
      (phase (breaker_entry (breakers g') key) = HalfOpen → permit = PermitProbe)
  end.
Proof.
  unfold breaker_gate. destruct (breaker policy) as [config|]; [|done].
  unfold BreakerRegistry_allow.
  pose proof (allow_entry_phase (breaker_entry (breakers g) key) now) as Hp.
  destruct (allow_entry _ now) as [[permit|] s]; simpl; rewrite breaker_entry_insert;
    (split; [done|]); [|done].
  split; [done|]. destruct permit; [rewrite Hp; done | done].
Qed.

Lemma shedding_gate_spec g now :
  (∀ config, shedding policy = Some config → concurrency config ≤ U64_MAX) →
  let '(allowed, g') := shedding_gate policy key g now in
  breakers g' = breakers g ∧
  in_flight (shed_entry (shedders g') key) =
    in_flight (shed_entry (shedders g) key) +
      (if allowed && bool_decide (is_Some (shedding policy)) then 1 else 0).
Proof.
  intros Hc. unfold shedding_gate. destruct (shedding policy) as [config|];
    [|simpl; by rewrite N.add_0_r].
  specialize (Hc config eq_refl).
  destruct (SheddingRegistry_allow_spec (shedders g) key config now) as (H1 & H2 & _).
  rewrite <- H1 in H2. destruct (SheddingRegistry_allow _ _ _ _) as [[] r]; simpl in *;
    (split; [done|]); rewrite H2; [|lia].
  symmetry in H1. apply andb_true_iff in H1 as [_ H1]. guard_prop. apply sat_add_small. lia.
Qed.

Lemma settle_permit_not_half_open g permit success now :
  is_Some (breaker policy) →
  (phase (breaker_entry (breakers g) key) = HalfOpen → permit = PermitProbe) →
  phase (breaker_entry (breakers (settle_permit policy key g (Some permit) success now)) key) ≠ HalfOpen.
Proof.
  intros [config Hb] Hp. unfold settle_permit. rewrite Hb.
  destruct (settled_not_half_open _ _ config now Hp) as (H1 & H2 & _).
  destruct success; simpl; unfold BreakerRegistry_record_success, BreakerRegistry_record_failure;
    by rewrite breaker_entry_insert.
Qed.

Lemma cancel_permit_not_half_open g permit now :
  is_Some (breaker policy) →
  (phase (breaker_entry (breakers g) key) = HalfOpen → permit = PermitProbe) →
  phase (breaker_entry (breakers (cancel_permit policy key g (Some permit) now)) key) ≠ HalfOpen.
Proof.
  intros [config Hb] Hp. unfold cancel_permit. rewrite Hb. simpl. rewrite breaker_cancel_entry.
  by apply settled_not_half_open.
Qed.

Lemma settle_permit_shedders g permit success now :
  shedders (settle_permit policy key g permit success now) = shedders g.
Proof. unfold settle_permit. by destruct (breaker policy), permit. Qed.

Lemma cancel_permit_shedders g permit now :
  shedders (cancel_permit policy key g permit now) = shedders g.
Proof. unfold cancel_permit. by destruct (breaker policy), permit. Qed.

Lemma settle_shedding_spec g success elapsed now :
  breakers (settle_shedding policy key g success elapsed now) = breakers g ∧
  in_flight (shed_entry (shedders (settle_shedding policy key g success elapsed now)) key) =
    in_flight (shed_entry (shedders g) key) -
      (if bool_decide (is_Some (shedding policy)) then 1 else 0).
Proof.
  unfold settle_shedding. destruct (shedding policy) as [config|]; simpl.
  - by rewrite shedding_record_in_flight.
  - by rewrite N.sub_0_r.
Qed.
End gates.

(** The loop's results are the handler's. *)
Lemma attempt_loop_result {Value E St} (policy : GovernancePolicy Value)
    (handler : St → N → result E unit * N * St) key remaining retry attempt g st now :
  ∃ st0 now0, (attempt_loop policy handler key remaining retry attempt g st now).1.1.1 =
              (call_handler policy handler st0 now0).1.1.
Proof.
  revert attempt g st now. induction remaining as [|n IH]; intros attempt g st now; simpl;
    destruct (call_handler policy handler st now) as [[res now1] st1] eqn:Ec.
  - exists st, now. by rewrite Ec.
  - destruct (is_ok res); [exists st, now; by rewrite Ec|].
    destruct (RetryBudgetRegistry_allow_retry _ _ _ _) as [[] bud]; simpl; [apply IH|].
    exists st, now. by rewrite Ec.
Qed.

Definition rejected {E} (r : result (DeliveryError E) unit) : bool :=
  match r with
  | Err RejectedByRateLimit | Err RejectedByBreaker | Err RejectedByShedding => true
  | _ => false
  end.

Lemma call_handler_not_rejected {Value E St} (policy : GovernancePolicy Value)
    (handler : St → N → result E unit * N * St) st now :
  rejected (call_handler policy handler st now).1.1 = false.
Proof.
  unfold call_handler. destruct (handler st now) as [[[[]|e] d] st'];
    destruct (timeout policy); try done; by destruct (_ <? _).
Qed.

(** ** Properties *)

(** An execution settles what it was granted. *)
Lemma execution_settles {Value E St : Type} (policy : GovernancePolicy Value)
    (handler : St → N → result E unit * N * St) (calls : St → N) key g st started r g' st' now' :
  (∀ config, shedding policy = Some config → concurrency config ≤ U64_MAX) →
  (∀ st now, calls (handler st now).2 ≤ calls st + 1) →
  execute_governed_delivery policy handler key g st started = (r, g', st', now') →
  (phase (breaker_entry (breakers g) key) ≠ HalfOpen →
   phase (breaker_entry (breakers g') key) ≠ HalfOpen) ∧
  in_flight (shed_entry (shedders g') key) = in_flight (shed_entry (shedders g) key) ∧
  calls st' ≤ calls st + N.max (max_attempts (default RetryPolicy_default (retry policy))) 1 ∧
  (rejected r = true → st' = st).
Proof.
  intros Hconc Hcalls. unfold execute_governed_delivery.
  destruct (rate_limit_gate_frame policy key g started) as [Hb1 Hs1].
  destruct (rate_limit_gate policy key g started) as [[] g1]; cbn [fst snd negb] in *;
    [|intros [= <- <- <- <-]; rewrite Hb1, Hs1; split_and!; [done..|lia|done]].
  pose proof (breaker_gate_spec policy key g1 started) as Hb.
  destruct (breaker_gate policy key g1 started) as [admitted g2].
  destruct Hb as [Hs2 Hb2]. rewrite Hb1 in Hb2. rewrite Hs1 in Hs2.
  destruct admitted as [permit|];
    [|intros [= <- <- <- <-]; rewrite Hb2, Hs2; split_and!; [done..|lia|done]].
  pose proof (shedding_gate_spec policy key g2 started Hconc) as Hs.
  destruct (shedding_gate policy key g2 started) as [allowed g3]. destruct Hs as [Hb3 Hs3].
  rewrite Hs2 in Hs3.
  destruct allowed; cbn [negb andb] in *.
  - set (g4 := set_budgets g3 _ _).
    destruct (attempt_loop _ _ _ _ _ _ _ _ _) as [[[res g5] st5] now5] eqn:El.
    pose proof (attempt_loop_registries _ _ _ _ _ _ _ _ _ _ _ _ _ El) as (_ & Hb5 & Hs5).
    pose proof (attempt_loop_calls _ _ _ calls _ _ _ _ _ _ _ _ _ _ Hcalls El) as Hc5.
    destruct (attempt_loop_result policy handler key
      (N.to_nat (N.max (max_attempts (default RetryPolicy_default (retry policy))) 1 - 1))
      (default RetryPolicy_default (retry policy)) 1 g4 st started) as (st0 & now0 & Hres).
    rewrite El in Hres. cbn [fst] in Hres.
    intros [= <- <- <- <-].
    pose proof (call_handler_not_rejected policy handler st0 now0) as Hnr. rewrite <- Hres in Hnr.
    destruct (settle_shedding_spec policy key (settle_permit policy key g5 permit (is_ok res) now5)
      (is_ok res) (now5 - started) now5) as [Hb6 Hs6].
    rewrite Hb6, Hs6. split_and!; [| |lia|congruence].
    + intros Hne. destruct permit as [permit|].
      * destruct Hb2 as [Hsome Hp]. apply settle_permit_not_half_open; [done|].
        rewrite Hb5; simpl. by rewrite Hb3.
      * destruct Hb2 as [Hb2 Hnone]. unfold settle_permit. rewrite Hnone, Hb5; simpl. by rewrite Hb3, Hb2.
    + rewrite settle_permit_shedders, Hs5. simpl. destruct (bool_decide _); lia.
  - intros [= <- <- <- <-]. split_and!; [| |lia|done].
    + intros Hne. destruct permit as [permit|].
      * destruct Hb2 as [Hsome Hp]. apply cancel_permit_not_half_open; [done|]. by rewrite Hb3.
      * destruct Hb2 as [Hb2 Hnone]. unfold cancel_permit. by rewrite Hnone, Hb3, Hb2.
    + rewrite cancel_permit_shedders. lia.
Qed.

(** C5: a governed delivery settles everything it was granted. Whatever the
    policy and the handler do, after [execute_governed_delivery] the breaker of
    the operation is not left half-open (unless it was before), the load
    shedder's [in_flight] is what it was, the handler ran at most
    [max_attempts.max(1)] times, and not at all when a gate rejected the
    delivery. [calls] is any counter in the handler's state that one run
    increments at most once. *)
Theorem governed_delivery_settles {Value E St : Type} (policy : GovernancePolicy Value)
    (handler : St → N → result E unit * N * St) (calls : St → N) key g st started r g' st' now' :
  (∀ config, shedding policy = Some config → concurrency config ≤ U64_MAX) →
  (∀ st now, calls (handler st now).2 ≤ calls st + 1) →
  execute_governed_delivery policy handler key g st started = (r, g', st', now') →
  (phase (breaker_entry (breakers g) key) ≠ HalfOpen →
   phase (breaker_entry (breakers g') key) ≠ HalfOpen) ∧
  in_flight (shed_entry (shedders g') key) = in_flight (shed_entry (shedders g) key) ∧
  calls st' ≤ calls st + N.max (max_attempts (default RetryPolicy_default (retry policy))) 1 ∧
  (rejected r = true → st' = st).
Proof. apply execution_settles. Qed.

(** ** Witnesses *)

Definition ex_governance : Governance :=
  {| rate_limiters := ∅;
     breakers := {[ lit "k" := {| failures := 0; phase := Open; open_until := Some 10 |} ]};
     shedders := ∅; retry_budgets := RetryBudgetRegistry_default;
     jitter_state := RETRY_JITTER_SEED |}.
Definition ex_policy : GovernancePolicy unit :=
  {| timeout := Some (from_secs 1);
     retry := Some {| max_attempts := 2; backoff := 100; max_backoff := 1000; budget_percent := Some 50 |};
     rate_limit := Some {| burst := 5; refill := from_secs 1; tokens_per_refill := 1 |};
     breaker := Some {| failure_threshold := 1; reset_timeout := from_secs 3 |};
     shedding := Some ex_shedding; fallback := None |}.
(** A handler that always fails after 5 ns and counts its runs. *)
Definition ex_handler (st now : N) : result unit unit * N * N := (Err tt, 5, st + 1).

Lemma governed_delivery_settles_witness :
  let out := execute_governed_delivery ex_policy ex_handler (lit "k") ex_governance 0 20 in
  phase (breaker_entry (breakers out.1.1.2) (lit "k")) ≠ HalfOpen.
Proof.
  refine (proj1 (governed_delivery_settles ex_policy ex_handler (λ n, n) (lit "k") ex_governance 0 20
    _ _ _ _ _ _ (eq_trans (surjective_pairing _) (f_equal (λ x, (x, _))
      (eq_trans (surjective_pairing _) (f_equal (λ x, (x, _)) (surjective_pairing _)))))) _).
  - intros config [= <-]. vm_compute. discriminate.
  - intros st now. reflexivity.
  - vm_compute. discriminate.
Defined.
