(* ===== verification/Saga.v ===== *)
(** * Compensation plans (TransactionPlan of crates/roze-transaction/src/lib.rs)

    An action is a pair of fallible state transformers over the world [W] its
    closures act on; errors are values of [E]. Sleeping between retries is
    recorded as the list of delays in milliseconds. *)

From S2P Require Import Prelude.

Record TransactionAction (W E : Type) :=
  { act_name : rstr; apply : W → result E unit * W; rollback : W → result E unit * W }.
Arguments act_name {W E}. Arguments apply {W E}. Arguments rollback {W E}.

Record SagaRetryPolicy :=
  { saga_max_attempts : N; initial_backoff_millis : N; max_backoff_millis : N }.

Definition SagaRetryPolicy_default : SagaRetryPolicy :=
  {| saga_max_attempts := 3; initial_backoff_millis := 100; max_backoff_millis := 5000 |}.

Section saga.
Context {W E : Type}.
Abbreviation action := (TransactionAction W E).

(** [TransactionPlan]: its steps in the order they were pushed. *)
Abbreviation TransactionPlan := (list action).

Definition TransactionPlan_push (plan : TransactionPlan) (a : action) : TransactionPlan := plan ++ [a].

(** [for previous in applied.iter().rev() { let _ = previous.rollback().await; }]
    where [applied] holds the most recent action first. *)
Definition rollback_all (applied : list action) (w : W) : W :=
  foldl (λ w a, (rollback a w).2) w applied.

Fixpoint execute_from (steps applied : list action) (w : W) : result E unit * W :=
  match steps with
  | [] => (Ok tt, w)
  | a :: steps' =>
      match apply a w with
      | (Err err, w) => (Err err, rollback_all applied w)
      | (Ok _, w) => execute_from steps' (a :: applied) w
      end
  end.

Definition TransactionPlan_execute (plan : TransactionPlan) (w : W) : result E unit * W :=
  execute_from plan [] w.

Definition retry_delay (policy : SagaRetryPolicy) (attempt : N) : N :=
  let multiplier := sat_pow U64_MAX 2 (N.min attempt 6) in
  N.min (sat_mul U64_MAX (initial_backoff_millis policy) multiplier) (max_backoff_millis policy).

(** The [for attempt in 0..attempts] loop; [todo] attempts are left. [None] is
    the [unreachable!] after the loop. *)
Fixpoint retry_loop (todo : nat) (plan : TransactionPlan) (policy : SagaRetryPolicy)
    (attempt attempts : N) (w : W) (slept : list N) : option (result E unit * W * list N) :=
  match todo with
  | O => None
  | S todo' =>
      match TransactionPlan_execute plan w with
      | (Ok _, w) => Some (Ok tt, w, slept)
      | (Err err, w) =>
          if attempt + 1 =? attempts then Some (Err err, w, slept)
          else
            let delay := retry_delay policy attempt in
            let slept := if 0 <? delay then slept ++ [delay] else slept in
            retry_loop todo' plan policy (attempt + 1) attempts w slept
      end
  end.

Definition execute_with_retry (plan : TransactionPlan) (policy : SagaRetryPolicy) (w : W)
    : option (result E unit * W * list N) :=
  let attempts := N.max (saga_max_attempts policy) 1 in
  retry_loop (N.to_nat attempts) plan policy 0 attempts w [].

(** ** Reference semantics *)

(** The world after applying [l] in order, when every application succeeds. *)
Fixpoint apply_all (l : list action) (w : W) : option W :=
  match l with
  | [] => Some w
  | a :: l' => match apply a w with (Ok _, w) => apply_all l' w | (Err _, _) => None end
  end.

Lemma apply_all_app l1 l2 w : apply_all (l1 ++ l2) w = w' ← apply_all l1 w; apply_all l2 w'.
Proof.
  revert w. induction l1 as [|a l1 IH]; intros w; simpl; [done|].
  destruct (apply a w) as [[[]|err] w']; [apply IH|done].
Qed.

Lemma execute_from_ok steps applied w w' :
  execute_from steps applied w = (Ok tt, w') ↔ apply_all steps w = Some w'.
Proof.
  revert applied w. induction steps as [|a steps IH]; intros applied w; simpl; [naive_solver|].
  destruct (apply a w) as [[[]|err] w1]; [apply IH|naive_solver].
Qed.

Lemma execute_from_err steps applied w err w' :
  execute_from steps applied w = (Err err, w') ↔
  ∃ dn a rest w1 w2, steps = dn ++ a :: rest ∧ apply_all dn w = Some w1 ∧
    apply a w1 = (Err err, w2) ∧ w' = rollback_all (reverse dn ++ applied) w2.
Proof.
  revert applied w. induction steps as [|a steps IH]; intros applied w; simpl.
  - split; [done|]. intros ([] & ? & ? & ? & ? & ? & ?); done.
  - destruct (apply a w) as [[[]|e1] w1] eqn:Ea.
    + rewrite IH. split.
      * intros (dn & b & rest & u1 & u2 & -> & Hd & Hb & ->).
        exists (a :: dn), b, rest, u1, u2. simpl. rewrite Ea, reverse_cons, <- app_assoc. done.
      * intros (dn & b & rest & u1 & u2 & Hs & Hd & Hb & ->).
        destruct dn as [|a' dn]; simplify_eq/=; [congruence|].
        rewrite Ea in Hd. exists dn, b, rest, u1, u2. by rewrite reverse_cons, <- app_assoc.
    + split.
      * intros [= <- <-]. exists [], a, steps, w, w1. done.
      * intros (dn & b & rest & u1 & u2 & Hs & Hd & Hb & ->).
        destruct dn as [|a' dn]; simpl in Hs, Hd; injection Hs as <- ->.
        -- injection Hd as <-. rewrite Ea in Hb. by injection Hb as <- <-.
        -- by rewrite Ea in Hd.
Qed.

(** What the plan is about: the part of the world that [abs] shows. The rest (a
    network, a clock, a call counter) may change freely. An action is compensable
    when its rollback restores what it changed there, wherever the rest of the
    world has moved, and a failed application changes nothing there. *)
Section abstraction.
Context {D : Type} (abs : W → D).

Definition compensable (a : action) : Prop :=
  (∀ w w' u, apply a w = (Ok tt, w') → abs u = abs w' → abs (rollback a u).2 = abs w) ∧
  (∀ w err w', apply a w = (Err err, w') → abs w' = abs w).

Lemma rollback_all_undoes l w w' u :
  Forall compensable l → apply_all l w = Some w' → abs u = abs w' →
  abs (rollback_all (reverse l) u) = abs w.
Proof.
  intros HF. revert w. induction HF as [|a l [Ha _] HF IH]; intros w; simpl; [by intros [= ->]|].
  destruct (apply a w) as [[[]|err] w1] eqn:Ea; [|done]. intros H Hu.
  rewrite reverse_cons. unfold rollback_all. rewrite foldl_app. simpl.
  fold (rollback_all (reverse l) u). eapply Ha; [done|]. by apply IH.
Qed.

Lemma execute_err_restores plan w err w' :
  Forall compensable plan → TransactionPlan_execute plan w = (Err err, w') → abs w' = abs w.
Proof.
  intros HF (dn & a & rest & w1 & w2 & -> & Hd & Ha & ->)%execute_from_err.
  apply Forall_app in HF as [HF [[_ Hfail] _]%Forall_cons]. rewrite app_nil_r.
  eapply rollback_all_undoes; [done..|]. by eapply Hfail.
Qed.
End abstraction.

Definition run_fails (plan : TransactionPlan) (w : W) : bool :=
  negb (is_ok (TransactionPlan_execute plan w).1).

Fixpoint world_after (n : nat) (plan : TransactionPlan) (w : W) : W :=
  match n with O => w | S n' => world_after n' plan (TransactionPlan_execute plan w).2 end.

Lemma world_after_S n plan w :
  world_after (S n) plan w = (TransactionPlan_execute plan (world_after n plan w)).2.
Proof. revert w. induction n as [|n IH]; intros w; [done|]. apply IH. Qed.

Lemma retry_loop_spec todo plan policy attempt attempts w slept :
  attempt + N.of_nat todo = attempts → (0 < todo)%nat →
  ∃ n r, (n < todo)%nat ∧
    retry_loop todo plan policy attempt attempts w slept =
      Some (r, world_after (S n) plan w,
            slept ++ filter (λ d, 0 < d) ((λ i, retry_delay policy (attempt + N.of_nat i)) <$> seq 0 n)) ∧
    r = (TransactionPlan_execute plan (world_after n plan w)).1 ∧
    (∀ i, (i < n)%nat → run_fails plan (world_after i plan w) = true) ∧
    (is_ok r = true ∨ S n = todo).
Proof.
  revert attempt w slept. induction todo as [|todo IH]; intros attempt w slept Ht Hpos; [lia|].
  cbn [retry_loop].
  destruct (TransactionPlan_execute plan w) as [[[]|err] w1] eqn:Ee.
  - exists 0%nat, (Ok tt). simpl. rewrite Ee, app_nil_r. split_and!; [lia|done..|intros; lia|by left].
  - destruct (N.eqb_spec (attempt + 1) attempts) as [Heq|Hne].
    + exists 0%nat, (Err err). simpl. rewrite Ee, app_nil_r.
      split_and!; [lia|done..|intros; lia|right; lia].
    + destruct (IH (attempt + 1) w1
        (if 0 <? retry_delay policy attempt then slept ++ [retry_delay policy attempt] else slept))
        as (n & r & Hn & Hl & Hr & Hf & He); [lia..|].
      exists (S n), r. rewrite Hl. cbn [world_after]. rewrite Ee. cbn [snd]. split_and!.
      * lia.
      * do 2 f_equal. cbn [seq]. rewrite fmap_cons, filter_cons. change (N.of_nat 0) with 0. rewrite N.add_0_r.
        assert ((λ i, retry_delay policy (attempt + N.of_nat i)) <$> seq 1 n =
                (λ i, retry_delay policy (attempt + 1 + N.of_nat i)) <$> seq 0 n) as ->.
        { rewrite <- fmap_S_seq, <- list_fmap_compose. apply list_fmap_ext. intros ? i _.
          unfold compose. f_equal. lia. }
        destruct (N.ltb_spec 0 (retry_delay policy attempt)); case_decide; try lia; [|done].
        by rewrite <- app_assoc.
      * done.
      * intros [|i] Hi; [unfold run_fails; simpl; by rewrite Ee|].
        cbn [world_after]. rewrite Ee. apply Hf. lia.
      * destruct He; [by left|right; lia].
Qed.

(** ** Properties *)

(** Executing a plan, on every branch. It succeeds exactly when every step
    applies in order, and leaves that world; it fails with [err] exactly when a
    step fails with [err] after the steps before it were applied, and then those
    steps, and no others, are rolled back, most recent first. *)
Theorem saga_execute_spec plan (w : W) :
  (∀ w', TransactionPlan_execute plan w = (Ok tt, w') ↔ apply_all plan w = Some w') ∧
  (∀ err w', TransactionPlan_execute plan w = (Err err, w') ↔
     ∃ dn a rest w1 w2, plan = dn ++ a :: rest ∧ apply_all dn w = Some w1 ∧
       apply a w1 = (Err err, w2) ∧ w' = rollback_all (reverse dn) w2).
Proof.
  split; intros *; unfold TransactionPlan_execute; [apply execute_from_ok|].
  rewrite execute_from_err. setoid_rewrite app_nil_r. done.
Qed.

(** Retrying a compensable plan is all or nothing on what the plan is about
    ([abs]). The call returns (the code after the loop is unreachable) after
    [n + 1] executions with [n + 1 <= max(1, max_attempts)], sleeping the
    positive delays [min(initial * 2^min(i,6), max)] in between; on success all
    steps were applied, in order, to a world that shows what the initial one
    did; on failure all attempts were used and the world shows what it did. *)
Theorem saga_retry_atomic {D} (abs : W → D) plan policy (w : W) :
  Forall (compensable abs) plan →
  ∃ n r w', execute_with_retry plan policy w =
      Some (r, w', filter (λ d, 0 < d) ((λ i, retry_delay policy (N.of_nat i)) <$> seq 0 n)) ∧
    N.of_nat n + 1 ≤ N.max (saga_max_attempts policy) 1 ∧
    match r with
    | Ok _ => ∃ w0, abs w0 = abs w ∧ apply_all plan w0 = Some w'
    | Err _ => abs w' = abs w ∧ N.of_nat n + 1 = N.max (saga_max_attempts policy) 1
    end.
Proof.
  intros Hc. unfold execute_with_retry. set (attempts := N.max _ 1).
  destruct (retry_loop_spec (N.to_nat attempts) plan policy 0 attempts w [])
    as (n & r & Hn & Hl & Hr & Hf & He); [lia..|].
  assert (∀ i, (i ≤ n)%nat → abs (world_after i plan w) = abs w) as Habs.
  { intros i Hi. induction i as [|i IH]; [done|]. rewrite world_after_S.
    specialize (Hf i Hi). unfold run_fails in Hf.
    destruct (TransactionPlan_execute plan (world_after i plan w)) as [[[]|err] u'] eqn:Ee; [done|].
    rewrite <- IH by lia. by eapply execute_err_restores. }
  exists n, r, (world_after (S n) plan w). split_and!; [exact Hl | lia |].
  rewrite world_after_S. specialize (Habs n (le_n n)).
  destruct (TransactionPlan_execute plan (world_after n plan w)) as [[[]|err] u'] eqn:Ee;
    simpl in Hr; subst r.
  - exists (world_after n plan w). split; [done|]. by apply execute_from_ok in Ee.
  - split; [rewrite <- Habs; by eapply execute_err_restores|]. destruct He; [done|lia].
Qed.
End saga.

(** ** Witnesses *)

(** Two counters and a count of calls; the second action fails on its first
    call. *)
Definition ex_add (f : N → bool) : TransactionAction (N * N) unit :=
  {| act_name := lit "add";
     apply := λ w, if f w.2 then (Ok tt, (w.1 + 1, w.2 + 1)) else (Err tt, (w.1, w.2 + 1));
     rollback := λ w, (Ok tt, (w.1 - 1, w.2)) |}.
Definition ex_plan : list (TransactionAction (N * N) unit) :=
  [ex_add (λ _, true); ex_add (λ n, negb (n =? 1))].

Lemma ex_add_compensable f : compensable fst (ex_add f).
Proof.
  split; simpl.
  - intros w w' u. destruct (f w.2); [|done]. intros [= <-]. simpl. lia.
  - intros w err w'. destruct (f w.2); [done|]. by intros [= _ <-].
Qed.

Lemma saga_retry_atomic_witness :
  ∃ n r w', execute_with_retry ex_plan SagaRetryPolicy_default (0, 0) =
    Some (r, w', filter (λ d, 0 < d) ((λ i, retry_delay SagaRetryPolicy_default (N.of_nat i)) <$> seq 0 n))
    ∧ N.of_nat n + 1 ≤ 3.
Proof.
  destruct (saga_retry_atomic fst ex_plan SagaRetryPolicy_default (0, 0)) as (n & r & w' & H & Hn & _).
  - apply Forall_cons; split; [apply ex_add_compensable|].
    apply Forall_cons; split; [apply ex_add_compensable|]. apply Forall_nil; exact I.
  - exists n, r, w'. split; [exact H | exact Hn].
Defined.

Example ex_retry_succeeds :
  execute_with_retry ex_plan SagaRetryPolicy_default (0, 0) = Some (Ok tt, (2, 4), [100]).
Proof. vm_compute. reflexivity. Qed.
