(* ===== verification/Outbox.v ===== *)
(** * Transactional outbox (crates/roze-transaction/src/lib.rs)

    [OutboxStore] is the trait as a type class: the operations of a store over
    its state, which may fail with an error text. [outbox_laws] is what the
    relay relies on, stated on the messages a store holds ([outbox_view]); the
    in-memory store satisfies them. A [BTreeMap] is a [gmap] iterated in the
    order of its keys. Wake-ups ([Notify]) are only a latency hint and are not
    modelled. *)

From S2P Require Import Prelude Text Eventbus Mq.

Inductive OutboxStatus := Pending | Publishing | OutboxPublished | Failed.
#[export] Instance OutboxStatus_eq_dec : EqDecision OutboxStatus.
Proof. solve_decision. Defined.

Record OutboxMessage (Value : Type) :=
  { ob_id : rstr; ob_topic : rstr; ob_key : option rstr; ob_headers : gmap rstr rstr;
    ob_idempotency_key : rstr; ob_payload : Value; ob_status : OutboxStatus; ob_attempts : N;
    ob_next_attempt_millis : option N; ob_lease_until_millis : option N;
    ob_last_error : option rstr }.
Arguments ob_id {Value}. Arguments ob_topic {Value}. Arguments ob_key {Value}.
Arguments ob_headers {Value}. Arguments ob_idempotency_key {Value}. Arguments ob_payload {Value}.
Arguments ob_status {Value}. Arguments ob_attempts {Value}.
Arguments ob_next_attempt_millis {Value}. Arguments ob_lease_until_millis {Value}.
Arguments ob_last_error {Value}.

Section message.
Context {Value : Type}.
Implicit Types m : OutboxMessage Value.

Definition OutboxMessage_new (id tp idem : rstr) (value : Value) : OutboxMessage Value :=
  {| ob_id := id; ob_topic := tp; ob_key := None; ob_headers := ∅; ob_idempotency_key := idem;
     ob_payload := value; ob_status := Pending; ob_attempts := 0; ob_next_attempt_millis := None;
     ob_lease_until_millis := None; ob_last_error := None |}.

(** Assign the delivery state of a message. *)
Definition set_delivery m (st : OutboxStatus) (att : N) (next lease : option N) (err : option rstr)
    : OutboxMessage Value :=
  {| ob_id := ob_id m; ob_topic := ob_topic m; ob_key := ob_key m; ob_headers := ob_headers m;
     ob_idempotency_key := ob_idempotency_key m; ob_payload := ob_payload m; ob_status := st;
     ob_attempts := att; ob_next_attempt_millis := next; ob_lease_until_millis := lease;
     ob_last_error := err |}.

Definition mark_publishing m (lease_until : N) : OutboxMessage Value :=
  set_delivery m Publishing (ob_attempts m) (ob_next_attempt_millis m) (Some lease_until)
    (ob_last_error m).

Definition OutboxMessage_mark_published m : OutboxMessage Value :=
  set_delivery m OutboxPublished (ob_attempts m) None None None.

Definition OutboxMessage_mark_failed m (error : rstr) (next : option N) : OutboxMessage Value :=
  set_delivery m Failed (sat_add U32_MAX (ob_attempts m) 1) next None (Some error).

(** The message a relay hands to the broker; [now], [seq] and [fresh] feed the
    envelope's event id, its time, and the trace id when the headers hold none. *)
Definition to_mq_message m (now seq : N) (fresh0 fresh : rstr) : Message Value * N :=
  let '(msg, seq) := Message_new now seq fresh0 (ob_topic m) (ob_payload m) in
  let msg :=
    {| event_id := event_id msg; event_type := ob_topic m; version := N.max 1 1;
       schema_revision := lit "1"; topic := topic msg; key := ob_key m; headers := ob_headers m;
       trace_context := ob_headers m; tenant_id := tenant_id msg; producer := lit "outbox";
       occurred_at := occurred_at msg; timestamp_millis := 0; partition := partition msg;
       offset := offset msg; group := group msg; attempt := ob_attempts m;
       dead_letter_topic := dead_letter_topic msg;
       idempotency_key := Some (ob_idempotency_key m);
       available_at_millis := ob_next_attempt_millis m; payload := payload msg |} in
  ((ensure_trace_id msg fresh).2, seq).

Definition claimable m (now : N) : bool :=
  let retry_ready := match ob_next_attempt_millis m with Some next => next <=? now | None => true end in
  let lease_expired := match ob_lease_until_millis m with Some l => l <=? now | None => true end in
  match ob_status m with
  | Pending | Failed => retry_ready
  | Publishing => lease_expired
  | OutboxPublished => false
  end.
End message.

(** ** The store interface *)

Class OutboxStore (S Value : Type) :=
  { enqueue : S → OutboxMessage Value → result rstr bool * S;
    claim_pending : S → N → N → N → result rstr (list (OutboxMessage Value)) * S;
    store_mark_published : S → rstr → result rstr unit * S;
    store_mark_failed : S → rstr → rstr → option N → result rstr unit * S;
    outbox_view : S → gmap rstr (OutboxMessage Value) }.

(** Every message is kept under its own id. *)
Definition view_wf {Value} (v : gmap rstr (OutboxMessage Value)) : Prop :=
  ∀ id m, v !! id = Some m → ob_id m = id.

Definition add_claimed {Value} (l : list (OutboxMessage Value)) (v : gmap rstr (OutboxMessage Value))
    : gmap rstr (OutboxMessage Value) :=
  list_to_map ((λ m, (ob_id m, m)) <$> l) ∪ v.

Class outbox_laws (S Value : Type) `{OutboxStore S Value} : Prop :=
  { law_claim s now limit lease l s' :
      view_wf (outbox_view s) → claim_pending s now limit lease = (Ok l, s') →
      NoDup (ob_id <$> l) ∧ N.of_nat (length l) ≤ N.max limit 1 ∧
      outbox_view s' = add_claimed l (outbox_view s) ∧
      Forall (λ m, ∃ m0, outbox_view s !! ob_id m = Some m0 ∧ claimable m0 now = true ∧
                         m = mark_publishing m0 lease) l;
    law_published s id s' :
      store_mark_published s id = (Ok tt, s') →
      outbox_view s' = alter OutboxMessage_mark_published id (outbox_view s);
    law_failed s id err next s' :
      store_mark_failed s id err next = (Ok tt, s') →
      outbox_view s' = alter (λ m, OutboxMessage_mark_failed m err next) id (outbox_view s) }.

(** ** The in-memory store *)

Section in_memory.
Context {Value : Type}.

Record InMemoryOutbox := { ob_messages : gmap rstr (OutboxMessage Value) }.

Definition InMemoryOutbox_new : InMemoryOutbox := {| ob_messages := ∅ |}.

Definition InMemoryOutbox_enqueue (s : InMemoryOutbox) (m : OutboxMessage Value)
    : bool * InMemoryOutbox :=
  (bool_decide (ob_messages s !! ob_id m = None), {| ob_messages := <[ob_id m := m]> (ob_messages s) |}).

Definition InMemoryOutbox_get (s : InMemoryOutbox) (id : rstr) : option (OutboxMessage Value) :=
  ob_messages s !! id.

(** The loop over [values_mut()], the keys in ascending order. *)
Fixpoint claim_loop (keys : list rstr) (now limit lease : N) (ms : gmap rstr (OutboxMessage Value))
    (claimed : list (OutboxMessage Value)) : list (OutboxMessage Value) * gmap rstr (OutboxMessage Value) :=
  match keys with
  | [] => (claimed, ms)
  | k :: keys' =>
      match ms !! k with
      | None => claim_loop keys' now limit lease ms claimed
      | Some m =>
          if claimable m now then
            let m' := mark_publishing m lease in
            let claimed' := claimed ++ [m'] in
            if N.max limit 1 <=? N.of_nat (length claimed') then (claimed', <[k := m']> ms)
            else claim_loop keys' now limit lease (<[k := m']> ms) claimed'
          else claim_loop keys' now limit lease ms claimed
      end
  end.

Definition InMemoryOutbox_claim_pending (s : InMemoryOutbox) (now limit lease : N)
    : list (OutboxMessage Value) * InMemoryOutbox :=
  let '(claimed, ms) := claim_loop (btree_keys (ob_messages s)) now limit lease (ob_messages s) [] in
  (claimed, {| ob_messages := ms |}).

Definition InMemoryOutbox_mark_published (s : InMemoryOutbox) (id : rstr) : InMemoryOutbox :=
  match ob_messages s !! id with
  | Some m => {| ob_messages := <[id := OutboxMessage_mark_published m]> (ob_messages s) |}
  | None => s
  end.

Definition InMemoryOutbox_mark_failed (s : InMemoryOutbox) (id err : rstr) (next : option N)
    : InMemoryOutbox :=
  match ob_messages s !! id with
  | Some m => {| ob_messages := <[id := OutboxMessage_mark_failed m err next]> (ob_messages s) |}
  | None => s
  end.

#[global] Instance in_memory_outbox : OutboxStore InMemoryOutbox Value :=
  {| enqueue s m := let '(b, s') := InMemoryOutbox_enqueue s m in (Ok b, s');
     claim_pending s now limit lease :=
       let '(l, s') := InMemoryOutbox_claim_pending s now limit lease in (Ok l, s');
     store_mark_published s id := (Ok tt, InMemoryOutbox_mark_published s id);
     store_mark_failed s id err next := (Ok tt, InMemoryOutbox_mark_failed s id err next);
     outbox_view := ob_messages |}.

(** ** Lemmas on claiming *)

(** What the loop over [keys] claims on top of [claimed]. *)
Definition claim_post (keys : list rstr) (now limit lease : N)
    (ms : gmap rstr (OutboxMessage Value)) (claimed : list (OutboxMessage Value))
    (out : list (OutboxMessage Value) * gmap rstr (OutboxMessage Value)) : Prop :=
  ∃ new, out.1 = claimed ++ new ∧ N.of_nat (length out.1) ≤ N.max limit 1 ∧
    out.2 = add_claimed new ms ∧ NoDup (ob_id <$> new) ∧ (ob_id <$> new) `sublist_of` keys ∧
    Forall (λ m, ∃ m0, ms !! ob_id m = Some m0 ∧ claimable m0 now = true ∧
                       m = mark_publishing m0 lease) new ∧
    (N.of_nat (length out.1) < N.max limit 1 →
     ∀ k m, k ∈ keys → ms !! k = Some m → claimable m now = true → mark_publishing m lease ∈ new).

Lemma claim_post_skip k keys now limit lease ms claimed out :
  claim_post keys now limit lease ms claimed out →
  (∀ m, ms !! k = Some m → claimable m now = false) →
  claim_post (k :: keys) now limit lease ms claimed out.
Proof.
  intros (new & H0 & H1 & H2 & H3 & H4 & H5 & H6) Hno. exists new. split_and!; try done.
  - by apply sublist_cons.
  - intros Hl k' m [->|Hk']%elem_of_cons Hm Hc; [by rewrite (Hno m Hm) in Hc|]. by eapply H6.
Qed.

Lemma add_claimed_cons (m : OutboxMessage Value) (l : list (OutboxMessage Value)) (v : gmap rstr (OutboxMessage Value)) :
  ob_id m ∉ ob_id <$> l → add_claimed (m :: l) v = add_claimed l (<[ob_id m := m]> v).
Proof.
  intros Hm. unfold add_claimed. simpl. rewrite <- insert_union_l, insert_union_r; [done|].
  apply not_elem_of_list_to_map_1. by rewrite <- list_fmap_compose.
Qed.

Lemma claim_post_take k keys now limit lease ms claimed m m' out :
  k ∉ keys → ms !! k = Some m → ob_id m = k → claimable m now = true →
  m' = mark_publishing m lease →
  claim_post keys now limit lease (<[k := m']> ms) (claimed ++ [m']) out →
  claim_post (k :: keys) now limit lease ms claimed out.
Proof.
  intros Hk Hm Hid Hc Hm' (new & H0 & H1 & H2 & H3 & H4 & H5 & H6).
  assert (k ∉ ob_id <$> new) as Hkn.
  { intros Hin. apply Hk. by eapply elem_of_sublist. }
  assert (ob_id m' = k) as Hid' by (by rewrite Hm').
  exists (m' :: new). split_and!.
  - by rewrite H0, <- app_assoc.
  - done.
  - rewrite (add_claimed_cons m' new); by rewrite Hid'.
  - simpl. rewrite Hid'. by apply NoDup_cons.
  - simpl. rewrite Hid'. by apply sublist_skip.
  - constructor; [exists m; by rewrite Hid'|].
    rewrite Forall_forall in H5 |- *. intros x Hx. destruct (H5 x Hx) as (m0 & Hm0 & Hx').
    exists m0. split; [|done]. rewrite lookup_insert_ne in Hm0; [done|].
    intros ->. apply Hkn. by apply list_elem_of_fmap_2.
  - intros Hl k' x [->|Hk']%elem_of_cons Hx Hcx; [simplify_eq; by left|]. right.
    apply (H6 Hl k'); [done| |done]. rewrite lookup_insert_ne; [done|]. by intros ->.
Qed.

Lemma claim_loop_spec keys now limit lease ms claimed :
  NoDup keys → N.of_nat (length claimed) < N.max limit 1 → view_wf ms →
  claim_post keys now limit lease ms claimed (claim_loop keys now limit lease ms claimed).
Proof.
  intros HN. revert ms claimed. induction HN as [|k keys Hk HN IH]; intros ms claimed Hlen Hwf;
    cbn [claim_loop].
  { exists []. cbn [fst snd]. rewrite app_nil_r. split_and!; try done; [lia|..].
    - unfold add_claimed. simpl. by rewrite (left_id_L ∅ (∪)).
    - constructor.
    - intros _ k m Hk. by apply not_elem_of_nil in Hk. }
  destruct (ms !! k) as [m|] eqn:Em; [|apply claim_post_skip; [by apply IH|by rewrite Em]].
  destruct (claimable m now) eqn:Ec;
    [|apply claim_post_skip; [by apply IH|]; intros m'; rewrite Em; by intros [= <-]].
  pose proof (Hwf _ _ Em) as Hid. apply (claim_post_take _ _ _ _ _ _ _ m (mark_publishing m lease)); try done.
  destruct (N.leb_spec (N.max limit 1) (N.of_nat (length (claimed ++ [mark_publishing m lease])))) as [Hge|Hlt];
    rewrite length_app in *; simpl length in *.
  - exists []. cbn [fst snd]. rewrite app_nil_r, length_app. simpl length.
    split_and!; try done; [lia|..].
    + unfold add_claimed. simpl. by rewrite (left_id_L ∅ (∪)).
    + constructor.
    + apply sublist_nil_l.
    + lia.
  - apply IH; [rewrite length_app; simpl; lia|].
    intros id x. rewrite lookup_insert. case_decide; [intros [= <-]; by subst|apply Hwf].
Qed.

#[global] Instance in_memory_laws : outbox_laws InMemoryOutbox Value.
Proof.
  split.
  - intros s now limit lease l s' Hwf Hc.
    pose proof (claim_loop_spec (btree_keys (ob_messages s)) now limit lease (ob_messages s) []
      (NoDup_btree_keys _)) as (new & H0 & H1 & H2 & H3 & _ & H5 & _); [simpl; lia|done|].
    simpl in Hc. unfold InMemoryOutbox_claim_pending in Hc.
    destruct (claim_loop _ _ _ _ _ _) as [l' ms']. simplify_eq/=. done.
  - intros s id s' [= <-]. simpl. rewrite alter_get_mut. unfold InMemoryOutbox_mark_published.
    by destruct (ob_messages s !! id).
  - intros s id err next s' [= <-]. simpl. rewrite alter_get_mut. unfold InMemoryOutbox_mark_failed.
    by destruct (ob_messages s !! id).
Qed.
End in_memory.
Arguments InMemoryOutbox : clear implicits.

(** ** The relay *)

Record OutboxRelayConfig :=
  { relay_limit : N; lease_millis : N; relay_initial_backoff_millis : N;
    relay_max_backoff_millis : N }.
Record OutboxRelayReport := { report_published : N; report_failed : N }.

Definition OutboxRelayConfig_default : OutboxRelayConfig :=
  {| relay_limit := 100; lease_millis := 30000; relay_initial_backoff_millis := 1000;
     relay_max_backoff_millis := 60000 |}.

Definition next_attempt_millis (now attempts : N) (config : OutboxRelayConfig) : N :=
  let delay := N.min (sat_mul U64_MAX (relay_initial_backoff_millis config)
                        (sat_pow U64_MAX 2 (N.min attempts 6)))
                 (relay_max_backoff_millis config) in
  sat_add U64_MAX now delay.

Definition next_idle_delay (current maximum : N) : N :=
  N.min (sat_mul DURATION_MAX current 2) maximum.

(** The idle delay of [run_outbox_relay] after a batch. *)
Definition relay_idle_after (idle_min idle_max idle : N) (report : OutboxRelayReport) : N :=
  let min_idle := N.max idle_min (from_millis 1) in
  let max_idle := N.max idle_max min_idle in
  if (0 <? report_published report) || (0 <? report_failed report) then min_idle
  else next_idle_delay idle max_idle.

Section relay.
Context {S Value P : Type} `{outbox_laws S Value}.
(** The publisher ([roze_mq::Publisher]), and the message built for it. *)
Context (publish : P → Message Value → result rstr unit * P)
        (mq_message : OutboxMessage Value → Message Value).

Fixpoint relay_loop (claimed : list (OutboxMessage Value)) (now : N) (config : OutboxRelayConfig)
    (report : OutboxRelayReport) (s : S) (p : P) : result rstr OutboxRelayReport * S * P :=
  match claimed with
  | [] => (Ok report, s, p)
  | m :: claimed' =>
      match publish p (mq_message m) with
      | (Ok _, p) =>
          match store_mark_published (Value := Value) s (ob_id m) with
          | (Err e, s) => (Err e, s, p)
          | (Ok _, s) =>
              relay_loop claimed' now config
                {| report_published := report_published report + 1;
                   report_failed := report_failed report |} s p
          end
      | (Err error, p) =>
          let next := next_attempt_millis now (ob_attempts m) config in
          match store_mark_failed (Value := Value) s (ob_id m) error (Some next) with
          | (Err e, s) => (Err e, s, p)
          | (Ok _, s) =>
              relay_loop claimed' now config
                {| report_published := report_published report;
                   report_failed := report_failed report + 1 |} s p
          end
      end
  end.

Definition relay_outbox_batch (s : S) (p : P) (now : N) (config : OutboxRelayConfig)
    : result rstr OutboxRelayReport * S * P :=
  let lease_until := sat_add U64_MAX now (lease_millis config) in
  match claim_pending s now (relay_limit config) lease_until with
  | (Err e, s) => (Err e, s, p)
  | (Ok claimed, s) =>
      relay_loop claimed now config {| report_published := 0; report_failed := 0 |} s p
  end.

(** What a published or rejected claim becomes. *)
Definition settled (now : N) (config : OutboxRelayConfig) (o : OutboxMessage Value * result rstr unit)
    : OutboxMessage Value :=
  match o.2 with
  | Ok _ => OutboxMessage_mark_published o.1
  | Err e => OutboxMessage_mark_failed o.1 e (Some (next_attempt_millis now (ob_attempts o.1) config))
  end.

Definition count_ok (outs : list (OutboxMessage Value * result rstr unit)) : N :=
  N.of_nat (length (filter (λ o, is_ok o.2 = true) outs)).
Definition count_err (outs : list (OutboxMessage Value * result rstr unit)) : N :=
  N.of_nat (length (filter (λ o, is_ok o.2 = false) outs)).

Lemma count_ok_cons m r outs :
  count_ok ((m, r) :: outs) = (if is_ok r then 1 else 0) + count_ok outs ∧
  count_err ((m, r) :: outs) = (if is_ok r then 0 else 1) + count_err outs.
Proof.
  unfold count_ok, count_err. rewrite !filter_cons. simpl.
  destruct (is_ok r); simpl; (split; [|try done]); try done; simpl length; lia.
Qed.

(** What [publish] answers for each of [ms] in turn, and the publisher after them. *)
Fixpoint publish_all (p : P) (ms : list (OutboxMessage Value)) :
    list (OutboxMessage Value * result rstr unit) * P :=
  match ms with
  | [] => ([], p)
  | m :: ms =>
      let '(r, p) := publish p (mq_message m) in
      let '(outs, p) := publish_all p ms in ((m, r) :: outs, p)
  end.

Lemma relay_loop_spec claimed now config report s p report' s' p' :
  NoDup (ob_id <$> claimed) →
  relay_loop claimed now config report s p = (Ok report', s', p') →
  ∃ outs, publish_all p claimed = (outs, p') ∧ outs.*1 = claimed ∧
    report_published report' = report_published report + count_ok outs ∧
    report_failed report' = report_failed report + count_err outs ∧
    (∀ o, o ∈ outs → outbox_view s !! ob_id o.1 = Some o.1 →
       outbox_view s' !! ob_id o.1 = Some (settled now config o)) ∧
    (∀ id, id ∉ ob_id <$> claimed → outbox_view (Value := Value) s' !! id = outbox_view s !! id).
Proof.
  revert report s p. induction claimed as [|m claimed IH]; intros report s p HN; cbn [relay_loop].
  { intros [= <- <- <-]. exists []. split_and!; try done.
    - unfold count_ok; simpl. lia.
    - unfold count_err; simpl. lia.
    - intros o Ho. by apply not_elem_of_nil in Ho. }
  cbn [fmap list_fmap] in HN. apply NoDup_cons in HN as [Hm HN].
  assert (∀ r g report1 s1 p1, publish p (mq_message m) = (r, p1) → outbox_view s1 = alter g (ob_id m) (outbox_view s) →
    g m = settled now config (m, r) →
    relay_loop claimed now config report1 s1 p1 = (Ok report', s', p') →
    report_published report1 = report_published report + (if is_ok r then 1 else 0) →
    report_failed report1 = report_failed report + (if is_ok r then 0 else 1) →
    ∃ outs, publish_all p (m :: claimed) = (outs, p') ∧ outs.*1 = m :: claimed ∧
    report_published report' = report_published report + count_ok outs ∧
    report_failed report' = report_failed report + count_err outs ∧
    (∀ o, o ∈ outs → outbox_view s !! ob_id o.1 = Some o.1 →
       outbox_view s' !! ob_id o.1 = Some (settled now config o)) ∧
    (∀ id, id ∉ ob_id <$> (m :: claimed) → outbox_view (Value := Value) s' !! id = outbox_view s !! id)) as Hstep.
  { intros r g report1 s1 p1 Er Hv Hg Hl Hp Hf.
    destruct (IH report1 s1 p1 HN Hl) as (outs & Hall & H1 & H2 & H3 & H4 & H5).
    destruct (count_ok_cons m r outs) as [Hco Hce].
    exists ((m, r) :: outs). split_and!.
    - cbn [publish_all]. by rewrite Er, Hall.
    - change (m :: outs.*1 = m :: claimed). by rewrite H1.
    - rewrite H2, Hco. lia.
    - rewrite H3, Hce. lia.
    - intros o [->|Ho]%elem_of_cons Hs; simpl in *.
      + rewrite H5 by done. rewrite Hv, lookup_alter_eq, Hs. simpl. by rewrite Hg.
      + apply H4; [done|]. rewrite Hv, lookup_alter_ne; [done|]. intros Heq. apply Hm.
        rewrite Heq, <- H1, <- list_fmap_compose. by apply (list_elem_of_fmap_2 (ob_id ∘ fst)).
    - intros id Hid. cbn [fmap list_fmap] in Hid. apply not_elem_of_cons in Hid as [Hne Hid].
      rewrite H5 by done. by rewrite Hv, lookup_alter_ne. }
  destruct (publish p (mq_message m)) as [[[]|err] p1] eqn:Ep.
  - destruct (store_mark_published s (ob_id m)) as [[[]|e] s1] eqn:Es; [|done]. intros Hl.
    eapply (Hstep (Ok tt)); [done|by apply law_published|done|exact Hl|done|simpl; lia].
  - destruct (store_mark_failed _ _ _ _) as [[[]|e] s1] eqn:Es; [|done]. intros Hl.
    eapply (Hstep (Err err)); [done|by eapply law_failed|done|exact Hl|simpl; lia|done].
Qed.
End relay.

(** ** Executions of the in-memory store *)

Section executions.
Context {Value : Type}.
Abbreviation store := (InMemoryOutbox Value).

Inductive outbox_call :=
| OEnqueue (m : OutboxMessage Value)
| OClaim (now limit lease : N)
| OPublished (id : rstr)
| OFailed (id err : rstr) (next : option N).

(** The messages a call claims, and the store after it. *)
Definition outbox_step (s : store) (c : outbox_call) : list (OutboxMessage Value) * store :=
  match c with
  | OEnqueue m => ([], (InMemoryOutbox_enqueue s m).2)
  | OClaim now limit lease => InMemoryOutbox_claim_pending s now limit lease
  | OPublished id => ([], InMemoryOutbox_mark_published s id)
  | OFailed id err next => ([], InMemoryOutbox_mark_failed s id err next)
  end.

Fixpoint outbox_run (s : store) (cs : list outbox_call) : list (list (OutboxMessage Value)) * store :=
  match cs with
  | [] => ([], s)
  | c :: cs' =>
      let '(l, s) := outbox_step s c in
      let '(ls, s) := outbox_run s cs' in (l :: ls, s)
  end.

(** A call on message [id] other than a claim, or a claim at [lease] or later. *)
Definition disturbs (id : rstr) (lease : N) (c : outbox_call) : bool :=
  match c with
  | OEnqueue m => bool_decide (ob_id m = id)
  | OClaim now _ _ => lease <=? now
  | OPublished id' | OFailed id' _ _ => bool_decide (id' = id)
  end.

Lemma claim_pending_view (s : store) now limit lease :
  view_wf (ob_messages s) →
  let '(l, s') := InMemoryOutbox_claim_pending s now limit lease in
  claim_post (btree_keys (ob_messages s)) now limit lease (ob_messages s) [] (l, ob_messages s').
Proof.
  intros Hwf. unfold InMemoryOutbox_claim_pending.
  pose proof (claim_loop_spec (btree_keys (ob_messages s)) now limit lease (ob_messages s) []
    (NoDup_btree_keys _)) as H.
  destruct (claim_loop _ _ _ _ _ _) as [l ms]. simpl. apply H; [simpl; lia | done].
Qed.

Lemma add_claimed_lookup (l : list (OutboxMessage Value)) v id :
  NoDup (ob_id <$> l) →
  add_claimed l v !! id =
    match list_find (λ m, ob_id m = id) l with Some (_, m) => Some m | None => v !! id end.
Proof.
  intros HN. unfold add_claimed. destruct (list_find _ l) as [[i m]|] eqn:E.
  - apply list_find_Some in E as (Hi & <- & _). apply lookup_union_Some_l.
    apply elem_of_list_to_map_1; [by rewrite <- list_fmap_compose|].
    apply list_elem_of_fmap. exists m. split; [done|]. by eapply list_elem_of_lookup_2.
  - apply list_find_None in E. rewrite lookup_union_r; [done|].
    apply not_elem_of_list_to_map_1. rewrite <- list_fmap_compose.
    intros (m & -> & Hm)%list_elem_of_fmap. rewrite Forall_forall in E. by apply (E m).
Qed.

Lemma outbox_step_wf (s : store) c :
  view_wf (ob_messages s) → view_wf (ob_messages (outbox_step s c).2).
Proof.
  intros Hwf. destruct c as [m|now limit lease|id|id err next]; simpl.
  - intros id x. rewrite lookup_insert. case_decide; [by intros [= <-]|apply Hwf].
  - pose proof (claim_pending_view s now limit lease Hwf) as Hc.
    destruct (InMemoryOutbox_claim_pending s now limit lease) as [l s'].
    destruct Hc as (new & _ & _ & Hv & HN & _). cbn [fst snd] in *. rewrite Hv.
    intros id x. rewrite add_claimed_lookup by done.
    destruct (list_find _ new) as [[i m]|] eqn:E; [|apply Hwf].
    apply list_find_Some in E as (_ & <- & _). by intros [= ->].
  - unfold InMemoryOutbox_mark_published. destruct (ob_messages s !! id) as [m|] eqn:E; [|done].
    simpl. intros id' x. rewrite lookup_insert.
    case_decide; [intros [= <-]; subst; by apply Hwf in E|apply Hwf].
  - unfold InMemoryOutbox_mark_failed. destruct (ob_messages s !! id) as [m|] eqn:E; [|done].
    simpl. intros id' x. rewrite lookup_insert.
    case_decide; [intros [= <-]; subst; by apply Hwf in E|apply Hwf].
Qed.

Lemma outbox_step_leased (s : store) c m lease :
  view_wf (ob_messages s) → ob_messages s !! ob_id m = Some m →
  ob_status m = Publishing → ob_lease_until_millis m = Some lease →
  disturbs (ob_id m) lease c = false →
  ob_id m ∉ ob_id <$> (outbox_step s c).1 ∧ ob_messages (outbox_step s c).2 !! ob_id m = Some m.
Proof.
  intros Hwf Hm Hst Hl Hd. destruct c as [x|now limit l'|id|id err next]; simpl in *; guard_prop.
  - split; [by apply not_elem_of_nil|]. by rewrite lookup_insert_ne.
  - pose proof (claim_pending_view s now limit l' Hwf) as Hc.
    destruct (InMemoryOutbox_claim_pending s now limit l') as [l s'].
    destruct Hc as (new & Hnew & _ & Hv & HN & _ & HF & _). cbn [fst snd app] in *. subst l.
    assert (ob_id m ∉ ob_id <$> new) as Hnot.
    { intros (x & Hx & Hin)%list_elem_of_fmap. rewrite Forall_forall in HF.
      destruct (HF x Hin) as (m0 & Hm0 & Hc & _). rewrite <- Hx, Hm in Hm0. simplify_eq.
      unfold claimable in Hc. rewrite Hst, Hl in Hc. guard_prop. lia. }
    split; [done|]. rewrite Hv, add_claimed_lookup by done.
    destruct (list_find _ new) as [[i x]|] eqn:E; [|done].
    apply list_find_Some in E as (Hi & Hx & _). destruct Hnot. apply list_elem_of_fmap.
    exists x. split; [done|]. by eapply list_elem_of_lookup_2.
  - split; [by apply not_elem_of_nil|]. unfold InMemoryOutbox_mark_published.
    destruct (ob_messages s !! id); [|done]. simpl. by rewrite lookup_insert_ne.
  - split; [by apply not_elem_of_nil|]. unfold InMemoryOutbox_mark_failed.
    destruct (ob_messages s !! id); [|done]. simpl. by rewrite lookup_insert_ne.
Qed.

Lemma outbox_run_leased (s : store) cs m lease :
  view_wf (ob_messages s) → ob_messages s !! ob_id m = Some m →
  ob_status m = Publishing → ob_lease_until_millis m = Some lease →
  Forall (λ c, disturbs (ob_id m) lease c = false) cs →
  Forall (λ l, ob_id m ∉ ob_id <$> l) (outbox_run s cs).1.
Proof.
  intros Hwf Hm Hst Hl HF. revert s Hwf Hm. induction HF as [|c cs Hc HF IH]; intros s Hwf Hm; simpl;
    [constructor|].
  pose proof (outbox_step_wf s c Hwf) as Hwf'.
  destruct (outbox_step_leased s c m lease Hwf Hm Hst Hl Hc) as [Hno Hm'].
  destruct (outbox_step s c) as [l s']. specialize (IH s' Hwf' Hm').
  destruct (outbox_run s' cs) as [ls s'']. by constructor.
Qed.
End executions.

(** ** Properties *)

(** C6: a relayed batch settles exactly its claims by what the publisher
    answered, for any store that meets the laws. If the batch returns, the claims
    were claimable, have different ids and are at most [limit.max(1)]; each was
    given to [publish] once, in turn, and nothing else was. A claim for which
    [publish] returned [Ok] is left published; one for which it returned an error
    is left failed with that error, one more attempt, and its next attempt set
    from the exponential back-off. The report counts the two kinds, and every
    other message is as it was. *)
Theorem relay_batch_settles {S Value P} `{outbox_laws S Value}
    (publish : P → Message Value → result rstr unit * P)
    (mq_message : OutboxMessage Value → Message Value) s p now config report s' p' :
  view_wf (outbox_view s) →
  relay_outbox_batch publish mq_message s p now config = (Ok report, s', p') →
  ∃ claimed outs, publish_all publish mq_message p claimed = (outs, p') ∧
    outs.*1 = claimed ∧ NoDup (ob_id <$> claimed) ∧
    N.of_nat (length claimed) ≤ N.max (relay_limit config) 1 ∧
    report = {| report_published := count_ok outs; report_failed := count_err outs |} ∧
    (∀ o, o ∈ outs →
       (∃ m0, outbox_view s !! ob_id o.1 = Some m0 ∧ claimable m0 now = true ∧
              o.1 = mark_publishing m0 (sat_add U64_MAX now (lease_millis config))) ∧
       outbox_view s' !! ob_id o.1 = Some (settled now config o)) ∧
    (∀ id, id ∉ ob_id <$> claimed → outbox_view s' !! id = outbox_view s !! id).
Proof.
  intros Hwf. unfold relay_outbox_batch.
  destruct (claim_pending _ _ _ _) as [[claimed|e] s1] eqn:Ec; [|done]. intros Hl.
  destruct (law_claim _ _ _ _ _ _ Hwf Ec) as (HN & Hlen & Hv & HF).
  destruct (relay_loop_spec publish mq_message claimed now config _ s1 p report s' p' HN Hl)
    as (outs & Hall & H1 & H2 & H3 & H4 & H5). simpl in H2, H3.
  exists claimed, outs. split_and!; try done.
  - destruct report as [a b]. simpl in *. f_equal; lia.
  - intros o Ho.
    assert (o.1 ∈ claimed) as Hin by (rewrite <- H1; by apply list_elem_of_fmap_2).
    rewrite Forall_forall in HF. split; [by apply HF|]. apply H4; [done|].
    rewrite Hv. unfold add_claimed. apply lookup_union_Some_l.
    apply elem_of_list_to_map_1; [by rewrite <- list_fmap_compose|].
    apply list_elem_of_fmap. by exists o.1.
  - intros id Hid. rewrite H5, Hv by done. unfold add_claimed. apply lookup_union_r.
    apply not_elem_of_list_to_map_1. by rewrite <- list_fmap_compose.
Qed.

(** A claim is a lease. Once a message was claimed until [lease], no other
    claim made before that instant returns it, whatever is claimed, enqueued or
    settled on other ids in between; and from [lease] on it can be claimed
    again. *)
Theorem outbox_lease_exclusive {Value} (s : InMemoryOutbox Value) now limit lease l s' m cs :
  view_wf (ob_messages s) →
  InMemoryOutbox_claim_pending s now limit lease = (l, s') → m ∈ l →
  Forall (λ c, disturbs (ob_id m) lease c = false) cs →
  Forall (λ l', ob_id m ∉ ob_id <$> l') (outbox_run s' cs).1 ∧
  (∀ t, lease ≤ t → claimable m t = true).
Proof.
  intros Hwf Hc Hm HF.
  pose proof (outbox_step_wf s (OClaim now limit lease) Hwf) as Hwf'. simpl in Hwf'.
  pose proof (claim_pending_view s now limit lease Hwf) as Hp. rewrite Hc in Hwf', Hp.
  destruct Hp as (new & H1 & _ & Hv & HN & _ & Hall & _). cbn [fst snd app] in *. subst new.
  rewrite Forall_forall in Hall. destruct (Hall m Hm) as (m0 & _ & _ & Heq).
  assert (ob_status m = Publishing) as Hst by (by rewrite Heq).
  assert (ob_lease_until_millis m = Some lease) as Hl by (by rewrite Heq).
  split.
  - apply (outbox_run_leased s' cs m lease); try done.
    rewrite Hv. unfold add_claimed. apply lookup_union_Some_l.
    apply elem_of_list_to_map_1; [by rewrite <- list_fmap_compose|].
    apply list_elem_of_fmap. by exists m.
  - intros t Ht. unfold claimable. rewrite Hst, Hl. by apply N.leb_le.
Qed.

(** A claim takes the claimable messages in the order of their ids: only
    claimable ones, each once, ids ascending, never more than [limit.max(1)],
    and all of them when fewer than that were returned. *)
Theorem claim_pending_complete {Value} (s : InMemoryOutbox Value) now limit lease :
  view_wf (ob_messages s) →
  let l := (InMemoryOutbox_claim_pending s now limit lease).1 in
  StronglySorted str_le (ob_id <$> l) ∧ NoDup (ob_id <$> l) ∧
  N.of_nat (length l) ≤ N.max limit 1 ∧
  (∀ m, m ∈ l → ∃ m0, ob_messages s !! ob_id m = Some m0 ∧ claimable m0 now = true ∧
                      m = mark_publishing m0 lease) ∧
  (N.of_nat (length l) < N.max limit 1 →
   ∀ id m0, ob_messages s !! id = Some m0 → claimable m0 now = true → mark_publishing m0 lease ∈ l).
Proof.
  intros Hwf l. pose proof (claim_pending_view s now limit lease Hwf) as Hp. unfold l. clear l.
  destruct (InMemoryOutbox_claim_pending s now limit lease) as [l s'].
  destruct Hp as (new & H1 & H2 & H3 & H4 & H5 & H6 & H7). cbn [fst snd app] in *. subst new.
  split_and!; try done.
  - by eapply StronglySorted_sublist, btree_keys_sorted.
  - by rewrite Forall_forall in H6.
  - intros Hlt id m0 Hm0 Hc. apply (H7 Hlt id); [|done..]. by apply elem_of_btree_keys; exists m0.
Qed.

(** [enqueue] with the id of a stored message answers [false] but replaces the
    message: one that was published becomes claimable again. *)
Theorem enqueue_duplicate_rearms {Value} (s : InMemoryOutbox Value) m0 (m : OutboxMessage Value) now :
  ob_messages s !! ob_id m = Some m0 → ob_status m0 = OutboxPublished →
  ob_status m = Pending → ob_next_attempt_millis m = None →
  let '(inserted, s') := InMemoryOutbox_enqueue s m in
  inserted = false ∧ ∃ m1, ob_messages s' !! ob_id m = Some m1 ∧ claimable m1 now = true.
Proof.
  intros H0 _ Hst Hn. unfold InMemoryOutbox_enqueue. split; [by rewrite H0|].
  exists m. simpl. rewrite lookup_insert_eq. split; [done|]. unfold claimable. by rewrite Hst, Hn.
Qed.

(** ** Witnesses *)

Definition ex_ob (id : rstr) : OutboxMessage N := OutboxMessage_new id (lit "orders") id 7.
Definition ex_outbox : InMemoryOutbox N :=
  (outbox_step (outbox_step InMemoryOutbox_new (OEnqueue (ex_ob (lit "b")))).2
     (OEnqueue (ex_ob (lit "a")))).2.

Lemma ex_outbox_wf : view_wf (ob_messages ex_outbox).
Proof.
  apply outbox_step_wf, outbox_step_wf. intros id m. simpl. by rewrite lookup_empty.
Qed.

(** A publisher that takes every other message. *)
Definition ex_publish (p : bool) (m : Message N) : result rstr unit * bool :=
  (if p then Ok tt else Err (lit "down"), negb p).
Definition ex_mq_message (m : OutboxMessage N) : Message N :=
  (to_mq_message m 5 0 (lit "t0") (lit "t1")).1.

Lemma relay_batch_settles_witness :
  ∃ claimed p' outs, publish_all ex_publish ex_mq_message true claimed = (outs, p') ∧
    count_ok outs = 1 ∧ count_err outs = 1.
Proof.
  destruct (@relay_batch_settles _ _ _ in_memory_outbox in_memory_laws ex_publish ex_mq_message ex_outbox true 10 OutboxRelayConfig_default
    {| report_published := 1; report_failed := 1 |} _ _ ex_outbox_wf
    ltac:(vm_compute; reflexivity)) as (claimed & outs & Hp & _ & _ & _ & Hr & _).
  exists claimed. eexists. exists outs. split; [exact Hp|]. injection Hr as H1 H2. split; symmetry; assumption.
Defined.

Lemma outbox_lease_exclusive_witness :
  Forall (λ l', lit "a" ∉ ob_id <$> l')
    (outbox_run (InMemoryOutbox_claim_pending ex_outbox 10 1 50).2
       [OClaim 20 9 90; OPublished (lit "b"); OClaim 49 9 90]).1.
Proof.
  refine (proj1 (outbox_lease_exclusive ex_outbox 10 1 50 _ _
    (mark_publishing (ex_ob (lit "a")) 50)
    [OClaim 20 9 90; OPublished (lit "b"); OClaim 49 9 90] ex_outbox_wf
    (surjective_pairing _) _ _)).
  - replace (InMemoryOutbox_claim_pending ex_outbox 10 1 50).1
      with [mark_publishing (ex_ob (lit "a")) 50] by (vm_compute; reflexivity).
    apply list_elem_of_singleton. reflexivity.
  - repeat constructor.
Defined.

Lemma claim_pending_complete_witness :
  N.of_nat (length (InMemoryOutbox_claim_pending ex_outbox 10 1 50).1) ≤ 1.
Proof. exact (proj1 (proj2 (proj2 (claim_pending_complete ex_outbox 10 1 50 ex_outbox_wf)))). Defined.
