(* ===== verification/Inbox.v ===== *)
(** * Inbox deduplication (crates/roze-transaction/src/lib.rs)

    [InboxDeduper] and [InMemoryInbox]: per idempotency key, who may process a
    message. Every method holds the inbox lock, so it is one step. *)

From S2P Require Import Prelude Text.

(** [InboxDeduper] *)
Definition has_processed (processed : gset rstr) (k : rstr) : bool := bool_decide (k ∈ processed).
Definition InboxDeduper_mark_processed (processed : gset rstr) (k : rstr) : bool * gset rstr :=
  (bool_decide (k ∉ processed), {[ k ]} ∪ processed).

Inductive InboxStatus := Processing | Processed | InboxFailed.
#[export] Instance InboxStatus_eq_dec : EqDecision InboxStatus.
Proof. solve_decision. Defined.

Record InboxMessage :=
  { ib_idempotency_key : rstr; ib_topic : rstr; ib_group : option rstr; ib_status : InboxStatus;
    ib_attempts : N; first_seen_millis : N; updated_at_millis : N;
    ib_next_attempt_millis : option N; ib_last_error : option rstr }.

Definition InboxMessage_new (k tp : rstr) (grp : option rstr) (now : N) : InboxMessage :=
  {| ib_idempotency_key := k; ib_topic := tp; ib_group := grp; ib_status := Processing;
     ib_attempts := 1; first_seen_millis := now; updated_at_millis := now;
     ib_next_attempt_millis := None; ib_last_error := None |}.

Definition set_progress (m : InboxMessage) (st : InboxStatus) (att now : N) (next : option N)
    (err : option rstr) : InboxMessage :=
  {| ib_idempotency_key := ib_idempotency_key m; ib_topic := ib_topic m; ib_group := ib_group m;
     ib_status := st; ib_attempts := att; first_seen_millis := first_seen_millis m;
     updated_at_millis := now; ib_next_attempt_millis := next; ib_last_error := err |}.

Definition InboxMessage_mark_processed (m : InboxMessage) (now : N) : InboxMessage :=
  set_progress m Processed (ib_attempts m) now None None.
Definition InboxMessage_mark_failed (m : InboxMessage) (now : N) (err : rstr) (next : option N)
    : InboxMessage :=
  set_progress m InboxFailed (ib_attempts m) now next (Some err).
Definition begin_retry (m : InboxMessage) (now : N) : InboxMessage :=
  set_progress m Processing (sat_add U32_MAX (ib_attempts m) 1) now None (ib_last_error m).

Inductive InboxBegin := Started | DuplicateProcessed | AlreadyProcessing | RetryStarted.

Abbreviation InMemoryInbox := (gmap rstr InboxMessage).

(** A failed message whose next attempt is due. *)
Definition retry_due (m : InboxMessage) (now : N) : bool :=
  match ib_next_attempt_millis m with Some next => next <=? now | None => true end.

Definition InMemoryInbox_begin (messages : InMemoryInbox) (k tp : rstr) (grp : option rstr) (now : N)
    : InboxBegin * InMemoryInbox :=
  match messages !! k with
  | Some m =>
      match ib_status m with
      | Processed => (DuplicateProcessed, messages)
      | Processing => (AlreadyProcessing, messages)
      | InboxFailed =>
          if retry_due m now then (RetryStarted, <[k := begin_retry m now]> messages)
          else (AlreadyProcessing, messages)
      end
  | None => (Started, <[k := InboxMessage_new k tp grp now]> messages)
  end.

Definition InMemoryInbox_mark_processed (messages : InMemoryInbox) (k : rstr) (now : N)
    : bool * InMemoryInbox :=
  match messages !! k with
  | None => (false, messages)
  | Some m => (true, <[k := InboxMessage_mark_processed m now]> messages)
  end.

Definition InMemoryInbox_mark_failed (messages : InMemoryInbox) (k : rstr) (now : N) (err : rstr)
    (next : option N) : bool * InMemoryInbox :=
  match messages !! k with
  | None => (false, messages)
  | Some m => (true, <[k := InboxMessage_mark_failed m now err next]> messages)
  end.

Definition InMemoryInbox_get (messages : InMemoryInbox) (k : rstr) : option InboxMessage :=
  messages !! k.

Definition pending_retry (messages : InMemoryInbox) (now limit : N) : list InboxMessage :=
  take (N.to_nat (N.max limit 1))
    (filter (λ m, bool_decide (ib_status m = InboxFailed) && retry_due m now = true)
       (btree_values messages)).

(** ** Executions *)

Inductive inbox_call :=
| Begin (tp : rstr) (grp : option rstr)
| MarkProcessed
| MarkFailed (err : rstr) (next : option N).
Record inbox_event := { ie_key : rstr; ie_now : N; ie_call : inbox_call }.

Definition inbox_step (s : InMemoryInbox) (e : inbox_event) : option InboxBegin * InMemoryInbox :=
  match ie_call e with
  | Begin tp grp =>
      let '(b, s) := InMemoryInbox_begin s (ie_key e) tp grp (ie_now e) in (Some b, s)
  | MarkProcessed => (None, (InMemoryInbox_mark_processed s (ie_key e) (ie_now e)).2)
  | MarkFailed err next => (None, (InMemoryInbox_mark_failed s (ie_key e) (ie_now e) err next).2)
  end.

Fixpoint inbox_run (s : InMemoryInbox) (es : list inbox_event)
    : list (inbox_event * option InboxBegin) * InMemoryInbox :=
  match es with
  | [] => ([], s)
  | e :: es' =>
      let '(b, s) := inbox_step s e in
      let '(bs, s) := inbox_run s es' in ((e, b) :: bs, s)
  end.

Lemma inbox_run_cons s e es :
  inbox_run s (e :: es) =
    ((e, (inbox_step s e).1) :: (inbox_run (inbox_step s e).2 es).1,
     (inbox_run (inbox_step s e).2 es).2).
Proof. simpl. destruct (inbox_step s e); simpl. by destruct (inbox_run _ es). Qed.

Section one_key.
Context (k : rstr).

(** The handler is let in. *)
Definition is_start (a : inbox_event * option InboxBegin) : bool :=
  bool_decide (ie_key a.1 = k) &&
  match a.2 with Some Started | Some RetryStarted => true | _ => false end.
Definition is_failure_mark (a : inbox_event * option InboxBegin) : bool :=
  bool_decide (ie_key a.1 = k) && match ie_call a.1 with MarkFailed _ _ => true | _ => false end.

Definition count_if (f : inbox_event * option InboxBegin → bool)
    (l : list (inbox_event * option InboxBegin)) : N :=
  N.of_nat (length (filter (λ a, f a = true) l)).

Lemma count_if_cons f a l : count_if f (a :: l) = (if f a then 1 else 0) + count_if f l.
Proof.
  unfold count_if. rewrite filter_cons. destruct (f a) eqn:E; case_decide; try done; simpl length; lia.
Qed.

(** The starts a key still has in hand. *)
Definition credit (s : InMemoryInbox) : N :=
  match s !! k with
  | None => 1
  | Some m => match ib_status m with InboxFailed => 1 | _ => 0 end
  end.

Lemma inbox_step_credit s e :
  (if is_start (e, (inbox_step s e).1) then 1 else 0) + credit (inbox_step s e).2 ≤
  credit s + (if is_failure_mark (e, (inbox_step s e).1) then 1 else 0).
Proof.
  unfold is_start, is_failure_mark; cbn [fst snd]. destruct (decide (ie_key e = k)) as [Hk|Hk].
  - rewrite !(bool_decide_true _ Hk). cbn [andb]. unfold inbox_step, credit.
    destruct (ie_call e) as [tp grp| |err next]; rewrite Hk; cbn [snd].
    + unfold InMemoryInbox_begin. destruct (s !! k) as [m|] eqn:E; simpl.
      * destruct (ib_status m) eqn:Es; simpl; try (by rewrite E, Es).
        destruct (retry_due m (ie_now e)); simpl; [by rewrite lookup_insert_eq | by rewrite E, Es].
      * by rewrite lookup_insert_eq.
    + unfold InMemoryInbox_mark_processed. destruct (s !! k) as [m|] eqn:E; simpl;
        [rewrite lookup_insert_eq; simpl; destruct (ib_status m); lia|]. by rewrite E.
    + unfold InMemoryInbox_mark_failed. destruct (s !! k) as [m|] eqn:E; simpl;
        [rewrite lookup_insert_eq; simpl; destruct (ib_status m); lia|]. rewrite E. lia.
  - rewrite !(bool_decide_false _ Hk). cbn [andb]. rewrite N.add_0_l, N.add_0_r.
    unfold inbox_step, credit, InMemoryInbox_begin, InMemoryInbox_mark_processed,
      InMemoryInbox_mark_failed.
    destruct (ie_call e); destruct (s !! ie_key e) as [m|]; simpl; try done;
      try (destruct (ib_status m)); try destruct (retry_due _ _); simpl;
      by rewrite ?lookup_insert_ne.
Qed.

Lemma inbox_run_credit s es :
  count_if is_start (inbox_run s es).1 ≤ credit s + count_if is_failure_mark (inbox_run s es).1.
Proof.
  revert s. induction es as [|e es IH]; intros s; [unfold count_if; simpl; lia|].
  rewrite inbox_run_cons. cbn [fst]. rewrite !count_if_cons.
  pose proof (inbox_step_credit s e). specialize (IH (inbox_step s e).2). lia.
Qed.
End one_key.

(** ** Properties *)

(** The inbox lets a message in at most once per recorded failure. In every
    execution, on a key, the calls of [begin] answered [Started] or
    [RetryStarted] are at most one more than the failures recorded for it (none
    more, once the key is processing or processed); a retry starts only when
    its next attempt is due, and begins with one more attempt. *)
Theorem inbox_starts_bounded k s es tp grp now s' :
  count_if (is_start k) (inbox_run s es).1 ≤
    (match s !! k with
     | None => 1
     | Some m => if decide (ib_status m = InboxFailed) then 1 else 0
     end) + count_if (is_failure_mark k) (inbox_run s es).1 ∧
  (InMemoryInbox_begin s k tp grp now = (RetryStarted, s') →
   ∃ m, s !! k = Some m ∧ ib_status m = InboxFailed ∧
     (∀ next, ib_next_attempt_millis m = Some next → next ≤ now) ∧
     s' = <[k := begin_retry m now]> s).
Proof.
  split.
  - etrans; [apply inbox_run_credit|]. apply N.add_le_mono_r. unfold credit.
    destruct (s !! k) as [m|]; [|done]. by destruct (ib_status m).
  - unfold InMemoryInbox_begin. destruct (s !! k) as [m|]; [|done].
    destruct (ib_status m) eqn:Es; try done. destruct (retry_due m now) eqn:Hd; [|done].
    intros [= <-]. exists m. split_and!; try done. intros next Hn. unfold retry_due in Hd.
    rewrite Hn in Hd. by apply N.leb_le.
Qed.
