(* ===== verification/Graph.v ===== *)
(** * AI workflow graphs: construction and compilation (crates/roze-ai/src/compose.rs)

    [GraphBuilder] and [compile]: edge validation, Kahn's layering, reachability
    from START, incoming edges. The functions look at node names only, so a node
    is a type parameter. Code that would panic (an [expect] on a missing key, a
    [usize] underflow) is [None]; compilation is shown never to reach it. A
    [while] loop carries fuel, shown to be enough. *)

From S2P Require Import Prelude Text.

Inductive AiError :=
| InvalidRequest (message : rstr) | ModelNotFound (name : rstr) | ToolNotFound (name : rstr)
| PermissionDenied (message : rstr) | Cancelled | DeadlineExceeded
| ProviderUnavailable (message : rstr) | RateLimited (retry_after_seconds : N)
| Provider (message : rstr) | Tool (message : rstr) | MaxStepsExceeded (max_steps : N)
| InvalidWorkflow (message : rstr) | WorkflowNodeError (node message : rstr)
| WorkflowStreamLimit (max_chunks : N) | Checkpoint (message : rstr)
| CheckpointNotFound (run_id : rstr) | CheckpointScopeMismatch
| CheckpointRevisionMismatch (expected actual : rstr) | InvalidTeam (message : rstr)
| AgentNotFound (name : rstr) | Retrieval (message : rstr) | Indexing (message : rstr)
| Prompt (message : rstr) | Internal (message : rstr).

Definition START : rstr := lit "__start__".
Definition END : rstr := lit "__end__".

Definition quoted (pre : rstr) (name : rstr) (post : rstr) : rstr :=
  pre ++ lit "`" ++ name ++ lit "`" ++ post.

Abbreviation edge := (rstr * rstr)%type.

Definition validate_node_name (name : rstr) : result AiError unit :=
  match name with
  | [] => Err (InvalidWorkflow (lit "workflow node name cannot be empty"))
  | _ => if bool_decide (name = START) || bool_decide (name = END)
         then Err (InvalidWorkflow (quoted [] name (lit " is a reserved workflow node name")))
         else Ok tt
  end.

Section graph.
Context {Node : Type}.
Abbreviation node_map := (gmap rstr Node).

Record GraphBuilder := { gb_nodes : node_map; gb_edges : list edge }.

Definition GraphBuilder_new : GraphBuilder := {| gb_nodes := ∅; gb_edges := [] |}.

(** [insert_node], with the name the node reports. *)
Definition add_node (b : GraphBuilder) (node_name : rstr) (node : Node) : result AiError GraphBuilder :=
  let name := trim node_name in
  _ ← validate_node_name name;
  match gb_nodes b !! name with
  | Some _ => Err (InvalidWorkflow (quoted (lit "duplicate node ") name []))
  | None => Ok {| gb_nodes := <[name := node]> (gb_nodes b); gb_edges := gb_edges b |}
  end.

Definition add_edge (b : GraphBuilder) (source target : rstr) : result AiError GraphBuilder :=
  if bool_decide ((source, target) ∈ gb_edges b)
  then Err (InvalidWorkflow (quoted (lit "duplicate edge ") (source ++ lit " -> " ++ target) []))
  else Ok {| gb_nodes := gb_nodes b; gb_edges := gb_edges b ++ [(source, target)] |}.

(** The body of the [for (source, target) in edges] loop. *)
Definition validate_edge (nodes : node_map) (e : edge) : result AiError unit :=
  let '(source, target) := e in
  if bool_decide (source = END)
  then Err (InvalidWorkflow (lit "workflow END cannot have outgoing edges"))
  else if bool_decide (target = START)
  then Err (InvalidWorkflow (lit "workflow START cannot have incoming edges"))
  else if bool_decide (source ≠ START) && bool_decide (nodes !! source = None)
  then Err (InvalidWorkflow (quoted (lit "edge references missing source node ") source []))
  else if bool_decide (target ≠ END) && bool_decide (nodes !! target = None)
  then Err (InvalidWorkflow (quoted (lit "edge references missing target node ") target []))
  else Ok tt.

Definition validate_edges (nodes : node_map) (edges : list edge) : result AiError unit :=
  match edges with
  | [] => Err (InvalidWorkflow (lit "workflow requires at least one edge"))
  | _ =>
      _ ← collect (validate_edge nodes) edges;
      if negb (existsb (λ e, bool_decide (e.1 = START)) edges)
      then Err (InvalidWorkflow (lit "workflow requires an edge from START"))
      else if negb (existsb (λ e, bool_decide (e.2 = END)) edges)
      then Err (InvalidWorkflow (lit "workflow requires an edge to END"))
      else Ok tt
  end.

(** [map.entry(k).or_default().push(v)] *)
Definition push_entry (m : gmap rstr (list rstr)) (k v : rstr) : gmap rstr (list rstr) :=
  <[k := default [] (m !! k) ++ [v]]> m.

Definition incoming_edges (nodes : node_map) (edges : list edge) : gmap rstr (list rstr) :=
  let incoming := <[END := []]> ((λ _, []) <$> nodes) in
  foldl (λ inc e, push_entry inc e.2 e.1) incoming edges.

(** ** Topological layers *)

(** The loop over the edges that fills [indegree] and [outgoing]. *)
Fixpoint count_edges (edges : list edge) (indegree : gmap rstr N) (outgoing : gmap rstr (list rstr))
    : option (gmap rstr N * gmap rstr (list rstr)) :=
  match edges with
  | [] => Some (indegree, outgoing)
  | (source, target) :: edges' =>
      if bool_decide (target ≠ END) then
        indegree ← (if bool_decide (source ≠ START)
                    then d ← indegree !! target; Some (<[target := d + 1]> indegree)
                    else Some indegree);
        count_edges edges' indegree (push_entry outgoing source target)
      else count_edges edges' indegree outgoing
  end.

(** [*degree -= 1; if *degree == 0 { ready.insert(target) }] over the targets. *)
Fixpoint release_targets (targets : list rstr) (indegree : gmap rstr N) (ready : gset rstr)
    : option (gmap rstr N * gset rstr) :=
  match targets with
  | [] => Some (indegree, ready)
  | target :: targets' =>
      degree ← indegree !! target;
      if degree =? 0 then None
      else
        let degree := degree - 1 in
        release_targets targets' (<[target := degree]> indegree)
          (if degree =? 0 then {[ target ]} ∪ ready else ready)
  end.

(** The targets of a layer, node by node. *)
Definition layer_targets (outgoing : gmap rstr (list rstr)) (layer : list rstr) : list rstr :=
  layer ≫= λ name, default [] (outgoing !! name).

Fixpoint layers_loop (fuel : nat) (outgoing : gmap rstr (list rstr)) (indegree : gmap rstr N)
    (ready : gset rstr) (layers : list (list rstr)) (visited : nat)
    : option (list (list rstr) * nat) :=
  if bool_decide (ready = ∅) then Some (layers, visited)
  else
    match fuel with
    | O => None
    | S fuel' =>
        let layer := bset_iter ready in
        p ← release_targets (layer_targets outgoing layer) indegree ∅;
        let '(indegree, ready) := p in
        layers_loop fuel' outgoing indegree ready (layers ++ [layer]) (visited + length layer)
    end.

Definition topological_layers (nodes : node_map) (edges : list edge)
    : option (result AiError (list (list rstr))) :=
  p ← count_edges edges ((λ _, 0) <$> nodes) ∅;
  let '(indegree, outgoing) := p in
  let ready := dom (filter (λ kv, kv.2 = 0) indegree) in
  q ← layers_loop (size nodes) outgoing indegree ready [] 0;
  let '(layers, visited) := q in
  Some (if bool_decide (visited ≠ size nodes)
        then Err (InvalidWorkflow (lit "workflow contains a cycle"))
        else Ok layers).

(** ** Reachability *)

Definition all_outgoing (edges : list edge) : gmap rstr (list rstr) :=
  foldl (λ out e, push_entry out e.1 e.2) ∅ edges.

Fixpoint bfs_loop (fuel : nat) (outgoing : gmap rstr (list rstr)) (queue : list rstr)
    (visited : gset rstr) : option (gset rstr) :=
  match queue with
  | [] => Some visited
  | name :: queue' =>
      match fuel with
      | O => None
      | S fuel' =>
          if bool_decide (name ∈ visited) then bfs_loop fuel' outgoing queue' visited
          else bfs_loop fuel' outgoing (queue' ++ default [] (outgoing !! name)) ({[ name ]} ∪ visited)
      end
  end.

Definition validate_reachability (nodes : node_map) (edges : list edge) : option (result AiError unit) :=
  visited ← bfs_loop (S (length edges)) (all_outgoing edges) [START] ∅;
  match list_find (λ name, name ∉ visited) (btree_keys nodes) with
  | Some (_, name) =>
      Some (Err (InvalidWorkflow (quoted (lit "workflow node ") name (lit " is unreachable from START"))))
  | None =>
      Some (if bool_decide (END ∈ visited) then Ok tt
            else Err (InvalidWorkflow (lit "workflow END is unreachable from START")))
  end.

Record CompiledGraph :=
  { cg_nodes : node_map; incoming : gmap rstr (list rstr); topology : list rstr;
    layers : list (list rstr) }.

Definition compile (b : GraphBuilder) : option (result AiError CompiledGraph) :=
  match validate_edges (gb_nodes b) (gb_edges b) with
  | Err e => Some (Err e)
  | Ok _ =>
      r ← topological_layers (gb_nodes b) (gb_edges b);
      match r with
      | Err e => Some (Err e)
      | Ok layers =>
          r ← validate_reachability (gb_nodes b) (gb_edges b);
          match r with
          | Err e => Some (Err e)
          | Ok _ =>
              Some (Ok {| cg_nodes := gb_nodes b;
                          incoming := incoming_edges (gb_nodes b) (gb_edges b);
                          topology := concat layers; layers := layers |})
          end
      end
  end.
End graph.
Arguments GraphBuilder : clear implicits.
Arguments CompiledGraph : clear implicits.

(** ** What the checks mean *)

Section graph_spec.
Context {Node : Type} (nodes : gmap rstr Node) (edges : list edge).

Definition is_node (n : rstr) : Prop := is_Some (nodes !! n).

(** START and END are not node names. *)
Definition names_wf : Prop := nodes !! START = None ∧ nodes !! END = None.

Definition edges_valid : Prop :=
  (∀ s t, (s, t) ∈ edges → s ≠ END ∧ t ≠ START ∧ (s = START ∨ is_node s) ∧ (t = END ∨ is_node t)) ∧
  (∃ t, (START, t) ∈ edges) ∧ (∃ s, (s, END) ∈ edges).

(** An edge between two nodes. *)
Definition inner (s t : rstr) : Prop := (s, t) ∈ edges ∧ s ≠ START ∧ t ≠ END.

(** The nodes can be ranked so that every inner edge goes up; then no inner path
    returns to where it started. *)
Definition acyclic : Prop := ∃ rank : rstr → nat, ∀ s t, inner s t → (rank s < rank t)%nat.

Definition connected (n : rstr) : Prop := rtc (λ s t, (s, t) ∈ edges) START n.

Lemma acyclic_no_cycle n : acyclic → ¬ tc inner n n.
Proof.
  intros [rank Hr] Hc. assert (∀ x y, tc inner x y → (rank x < rank y)%nat) as H.
  { induction 1 as [x y Hxy|x y z Hxy _ IH]; [by apply Hr|]. apply Hr in Hxy. lia. }
  apply H in Hc. lia.
Qed.

Lemma validate_edge_ok e :
  validate_edge nodes e = Ok tt ↔
  e.1 ≠ END ∧ e.2 ≠ START ∧ (e.1 = START ∨ is_node e.1) ∧ (e.2 = END ∨ is_node e.2).
Proof.
  destruct e as [s t]. unfold validate_edge, is_node. cbn [fst snd].
  rewrite <- !not_eq_None_Some.
  destruct (decide (s = END)); [rewrite bool_decide_true by done; naive_solver|].
  rewrite (bool_decide_false (s = END)) by done.
  destruct (decide (t = START)); [rewrite bool_decide_true by done; naive_solver|].
  rewrite (bool_decide_false (t = START)) by done.
  destruct (decide (s ≠ START ∧ nodes !! s = None)) as [[? ?]|Hs].
  { rewrite !bool_decide_true by done. simpl. naive_solver. }
  replace (_ && _) with false
    by (symmetry; apply andb_false_iff; rewrite !bool_decide_eq_false; destruct (decide (s = START)); naive_solver).
  destruct (decide (t ≠ END ∧ nodes !! t = None)) as [[? ?]|Ht].
  { rewrite !bool_decide_true by done. simpl. naive_solver. }
  replace (_ && _) with false
    by (symmetry; apply andb_false_iff; rewrite !bool_decide_eq_false; destruct (decide (t = END)); naive_solver).
  split; [|done]. intros _. split_and!; [done..| |].
  - destruct (decide (s = START)); [by left|right]. naive_solver.
  - destruct (decide (t = END)); [by left|right]. naive_solver.
Qed.

Lemma collect_unit_ok {E A} (f : A → result E unit) l :
  is_ok (collect f l) = true ↔ ∀ x, x ∈ l → f x = Ok tt.
Proof.
  induction l as [|x l IH]; simpl; [split; [intros _ x Hx; by apply not_elem_of_nil in Hx|done]|].
  destruct (f x) as [[]|e] eqn:Ex; simpl.
  - destruct (collect f l) as [us|e]; simpl in *.
    + split; [|done]. intros _ y [->|Hy]%elem_of_cons; [done|]. by apply IH.
    + split; [done|]. intros H. apply IH. intros y Hy. apply H. by right.
  - split; [done|]. intros H. specialize (H x (list_elem_of_here _ _)). congruence.
Qed.

Lemma validate_edges_ok : is_ok (validate_edges nodes edges) = true ↔ edges_valid.
Proof.
  assert (is_ok (collect (validate_edge nodes) edges) = true ↔
    ∀ s t, (s, t) ∈ edges → s ≠ END ∧ t ≠ START ∧ (s = START ∨ is_node s) ∧ (t = END ∨ is_node t)) as Hc.
  { rewrite collect_unit_ok. split.
    - intros H s t Hst. by apply (validate_edge_ok (s, t)), H.
    - intros H [s t] Hst. apply validate_edge_ok. by apply H. }
  unfold validate_edges, edges_valid. rewrite <- Hc.
  assert (existsb (λ e : edge, bool_decide (e.1 = START)) edges = true ↔ ∃ t, (START, t) ∈ edges) as Hs.
  { rewrite existsb_elem_of. split.
    - intros ([s t] & Hin & Hb%bool_decide_eq_true). simpl in Hb. subst. eauto.
    - intros [t Ht]. exists (START, t). split; [done|]. by apply bool_decide_eq_true. }
  assert (existsb (λ e : edge, bool_decide (e.2 = END)) edges = true ↔ ∃ s, (s, END) ∈ edges) as Ht.
  { rewrite existsb_elem_of. split.
    - intros ([s t] & Hin & Hb%bool_decide_eq_true). simpl in Hb. subst. eauto.
    - intros [s Hs']. exists (s, END). split; [done|]. by apply bool_decide_eq_true. }
  rewrite <- Hs, <- Ht. clear Hs Ht Hc.
  destruct edges as [|e es]; [split; [done|by intros (_ & ? & _)]|].
  destruct (collect _ _) as [us|err]; cbn [is_ok mbind result_bind]; [|split; [done|by intros [? _]]].
  destruct (existsb _ _); cbn [negb is_ok]; [|split; [done|by intros (_ & ? & _)]].
  destruct (existsb _ _); cbn [negb is_ok]; split; try done. by intros (_ & _ & ?).
Qed.

(** ** Lemmas on Kahn's algorithm *)

(** Inner edges into [t] from outside [V]. *)
Definition remaining (V : gset rstr) (t : rstr) : nat :=
  countp (λ e : edge, e.2 = t ∧ e.1 ≠ START ∧ e.1 ∉ V) edges.

Abbreviation occ t l := (countp (λ x : rstr, x = t) l).

Lemma count_edges_spec (es : list edge) (d : gmap rstr N) (out : gmap rstr (list rstr)) :
  (∀ s t, (s, t) ∈ es → s ≠ START → t ≠ END → is_Some (d !! t)) →
  ∃ d' out', count_edges es d out = Some (d', out') ∧
    (∀ t, d' !! t =
       (λ n, n + N.of_nat (countp (λ e : edge, e.2 = t ∧ e.1 ≠ START ∧ e.2 ≠ END) es)) <$> d !! t) ∧
    (∀ s, default [] (out' !! s) =
       default [] (out !! s) ++ (filter (λ e : edge, e.1 = s ∧ e.2 ≠ END) es).*2).
Proof.
  revert d out. induction es as [|[s t] es IH]; intros d out Hd; cbn [count_edges].
  { exists d, out. split_and!; [done|..].
    - intros t. rewrite countp_nil. destruct (d !! t); simpl; [|done]. f_equal. lia.
    - intros s. simpl. by rewrite app_nil_r. }
  assert (∀ d1 out1, (∀ x, d1 !! x = (λ n, n + (if decide (t = x ∧ s ≠ START ∧ t ≠ END) then 1 else 0)) <$> d !! x) →
    (∀ x, default [] (out1 !! x) = default [] (out !! x) ++ (if decide (s = x ∧ t ≠ END) then [t] else [])) →
    ∃ d' out', count_edges es d1 out1 = Some (d', out') ∧
    (∀ x, d' !! x =
       (λ n, n + N.of_nat (countp (λ e : edge, e.2 = x ∧ e.1 ≠ START ∧ e.2 ≠ END) ((s, t) :: es))) <$> d !! x) ∧
    (∀ x, default [] (out' !! x) =
       default [] (out !! x) ++ (filter (λ e : edge, e.1 = x ∧ e.2 ≠ END) ((s, t) :: es)).*2)) as Hstep.
  { intros d1 out1 Hd1 Ho1.
    destruct (IH d1 out1) as (d' & out' & He & Hd' & Ho').
    { intros s' t' Hin Hs Ht. rewrite Hd1, fmap_is_Some. apply (Hd s'); [by right|done..]. }
    exists d', out'. split_and!; [done|..].
    - intros x. rewrite Hd', Hd1, countp_cons. cbn [fst snd].
      destruct (d !! x); cbn [fmap option_fmap option_map]; [|done]. f_equal.
      repeat case_decide; naive_solver lia.
    - intros x. rewrite Ho', Ho1, filter_cons. cbn [fst snd]. rewrite <- app_assoc. 
      repeat case_decide; try done; naive_solver. }
  case_bool_decide as Ht.
  - case_bool_decide as Hs.
    + destruct (Hd s t) as [n Hn]; [by left|done..|]. rewrite Hn. cbn [mbind option_bind].
      apply Hstep.
      * intros x. rewrite lookup_insert. destruct (decide (t = x)) as [<-|Hne].
        -- rewrite Hn. simpl. by rewrite decide_True.
        -- rewrite decide_False by naive_solver. destruct (d !! x); simpl; [|done]. f_equal; lia.
      * intros x. unfold push_entry. rewrite lookup_insert. destruct (decide (s = x)) as [<-|Hne].
        -- by rewrite decide_True.
        -- rewrite decide_False by naive_solver. by rewrite app_nil_r.
    + cbn [mbind option_bind]. apply Hstep.
      * intros x. rewrite decide_False by naive_solver. destruct (d !! x); simpl; [|done]. f_equal; lia.
      * intros x. unfold push_entry. rewrite lookup_insert. destruct (decide (s = x)) as [<-|Hne].
        -- by rewrite decide_True.
        -- rewrite decide_False by naive_solver. by rewrite app_nil_r.
  - apply Hstep.
    + intros x. rewrite decide_False by naive_solver. destruct (d !! x); simpl; [|done]. f_equal; lia.
    + intros x. rewrite decide_False by naive_solver. by rewrite app_nil_r.
Qed.

Lemma release_targets_spec (T : list rstr) (d : gmap rstr N) (r : gset rstr) :
  (∀ t, t ∈ T → ∃ n, d !! t = Some (N.of_nat n) ∧ (occ t T ≤ n)%nat) →
  ∃ d' r', release_targets T d r = Some (d', r') ∧
    (∀ t, d' !! t = (λ n, n - N.of_nat (occ t T)) <$> d !! t) ∧
    (∀ t, t ∈ r' ↔ t ∈ r ∨ (t ∈ T ∧ d !! t = Some (N.of_nat (occ t T)))).
Proof.
  revert d r. induction T as [|x T IH]; intros d r HT; cbn [release_targets].
  { exists d, r. split_and!; [done|..].
    - intros t. rewrite countp_nil. destruct (d !! t); simpl; [|done]. f_equal. lia.
    - intros t. rewrite elem_of_nil. naive_solver. }
  destruct (HT x) as (n & Hn & Hocc); [by left|]. rewrite Hn. cbn [mbind option_bind].
  rewrite countp_cons, decide_True in Hocc by done.
  destruct (N.eqb_spec (N.of_nat n) 0); [lia|].
  edestruct (IH (<[x := N.of_nat n - 1]> d)) as (d' & r' & He & Hd' & Hr').
  { intros t Ht. rewrite lookup_insert. destruct (decide (x = t)) as [<-|Hne].
    - exists (n - 1)%nat. split; [f_equal; lia|lia].
    - destruct (HT t) as (m & Hm & Hom); [by right|]. exists m. split; [done|].
      rewrite countp_cons, decide_False in Hom by done. lia. }
  exists d', r'. split_and!; [exact He|..].
  - intros t. rewrite Hd', lookup_insert, countp_cons. destruct (decide (x = t)) as [<-|Hne].
    + rewrite Hn. simpl. f_equal. lia.
    + destruct (d !! t); simpl; [|done]. f_equal; lia.
  - intros t. rewrite Hr', lookup_insert, elem_of_cons, countp_cons.
    destruct (decide (x = t)) as [<-|Hne].
    + destruct (decide (x ∈ T)) as [Hx|Hx].
      * assert (0 < occ x T)%nat by (apply countp_pos; eauto).
        destruct (N.eqb_spec (N.of_nat n - 1) 0); [lia|]. rewrite Hn.
        split; intros [?|[? ?]]; [by left | right; split; [by left|f_equal; naive_solver lia]
          | by left | right; split; [done|f_equal; naive_solver lia]].
      * assert (occ x T = 0)%nat as -> by (apply countp_zero; naive_solver).
        rewrite Hn. destruct (N.eqb_spec (N.of_nat n - 1) 0).
        -- split; [intros _; right; split; [by left|f_equal; lia]|]. intros _. left. set_solver.
        -- split; [intros [?|[? _]]; [by left|done]|]. intros [?|[_ ?]]; [by left|]. naive_solver lia.
    + assert (t ∈ (if N.of_nat n - 1 =? 0 then {[x]} ∪ r else r) ↔ t ∈ r) as ->
        by (destruct (_ =? 0); set_solver).
      naive_solver.
Qed.

Section kahn.
Context (Hnames : names_wf) (Hvalid : edges_valid).
Context (out : gmap rstr (list rstr))
  (Hout : ∀ s, default [] (out !! s) = (filter (λ e : edge, e.1 = s ∧ e.2 ≠ END) edges).*2).

Lemma node_not_special n : is_node n → n ≠ START ∧ n ≠ END.
Proof. destruct Hnames as [Hs He]. intros [x Hx]. split; intros ->; congruence. Qed.

Lemma out_targets s t : t ∈ default [] (out !! s) ↔ (s, t) ∈ edges ∧ t ≠ END.
Proof.
  rewrite Hout, list_elem_of_fmap. split.
  - intros ([s' t'] & -> & [[Hs Ht] Hin]%list_elem_of_filter). simpl in *. by subst.
  - intros [Hin Ht]. exists (s, t). split; [done|]. by apply list_elem_of_filter.
Qed.

Lemma occ_out s t : t ≠ END → occ t (default [] (out !! s)) = countp (λ e : edge, e = (s, t)) edges.
Proof.
  intros Ht. rewrite Hout. generalize edges as es.
  induction es as [|[s' t'] es IH]; [done|]. rewrite filter_cons, (countp_cons _ (s', t')), <- IH.
  cbn [fst snd]. repeat case_decide; cbn [fmap list_fmap snd]; rewrite ?countp_cons;
    repeat case_decide; try done; naive_solver.
Qed.

(** The targets of a layer count the inner edges that leave it. *)
Lemma occ_layer_targets layer t :
  NoDup layer → t ≠ END →
  occ t (layer_targets out layer) = countp (λ e : edge, e.2 = t ∧ e.1 ∈ layer) edges.
Proof.
  intros HN Ht. induction HN as [|s layer Hs HN IH].
  - simpl. symmetry. apply countp_zero. intros e _ [_ He]. by apply not_elem_of_nil in He.
  - unfold layer_targets. cbn [mbind list_bind]. rewrite countp_app. fold (layer_targets out layer).
    rewrite IH, (occ_out s t Ht). generalize edges as es.
    induction es as [|[s' t'] es IHes]; [done|]. rewrite !countp_cons, <- !IHes. cbn [fst snd].
    pose proof (elem_of_cons layer s' s) as Hc.
    repeat case_decide; try lia; exfalso; rewrite ?Hc in *; naive_solver.
Qed.

Lemma remaining_layer V (layer : list rstr) t :
  START ∉ layer → (∀ s, s ∈ layer → s ∉ V) →
  remaining V t =
    (countp (λ e : edge, e.2 = t ∧ e.1 ∈ layer) edges + remaining (V ∪ list_to_set layer) t)%nat.
Proof.
  intros Hst Hdis. unfold remaining. generalize edges as es.
  induction es as [|[s t'] es IH]; [done|]. rewrite !countp_cons, IH. cbn [fst snd].
  assert (s ∉ V ∪ list_to_set layer ↔ s ∉ V ∧ s ∉ layer) as Hiff by set_solver.
  pose proof (Hdis s) as Hs.
  repeat case_decide; try lia; exfalso; rewrite Hiff in *; destruct_and?;
    destruct (decide (s ∈ layer)); naive_solver.
Qed.

Lemma remaining_zero V t : remaining V t = 0%nat ↔ ∀ s, (s, t) ∈ edges → s = START ∨ s ∈ V.
Proof.
  unfold remaining. rewrite countp_zero. split.
  - intros H s Hin. destruct (decide (s = START)); [by left|]. destruct (decide (s ∈ V)); [by right|].
    destruct (H (s, t) Hin). done.
  - intros H [s t'] Hin (Ht & Hs & HV). simpl in *. subst. by destruct (H s Hin).
Qed.

(** Every layer's members have their inner predecessors in earlier layers. *)
Definition layers_sorted (ls : list (list rstr)) : Prop :=
  ∀ i layer t s, ls !! i = Some layer → t ∈ layer → (s, t) ∈ edges → s ≠ START →
    ∃ j layer', (j < i)%nat ∧ ls !! j = Some layer' ∧ s ∈ layer'.

Lemma layers_sorted_snoc ls layer :
  layers_sorted ls →
  (∀ t s, t ∈ layer → (s, t) ∈ edges → s ≠ START → s ∈ concat ls) →
  layers_sorted (ls ++ [layer]).
Proof.
  intros Hs Hl i layer' t s Hi Ht Hin Hne. apply lookup_app_Some in Hi as [Hi|[Hlen Hi]].
  - destruct (Hs i layer' t s Hi Ht Hin Hne) as (j & l & Hj & Hlj & Hsj).
    exists j, l. split_and!; [done| |done]. by apply lookup_app_l_Some.
  - destruct (i - length ls)%nat eqn:Ei; simpl in Hi; [|done]. simplify_eq.
    apply Hl in Hin as Hc; [|done..]. apply list_elem_of_In, in_concat in Hc as (l & Hlin & Hsl).
    apply list_elem_of_In in Hlin. apply list_elem_of_In in Hsl. apply list_elem_of_lookup in Hlin as [j Hj].
    exists j, l. pose proof (lookup_lt_Some _ _ _ Hj).
    split_and!; [lia| |done]. by apply lookup_app_l_Some.
Qed.

Record kahn_inv (V : gset rstr) (d : gmap rstr N) (ready : gset rstr) (ls : list (list rstr)) : Prop :=
  { ki_degree : ∀ t, d !! t = (λ _, N.of_nat (remaining V t)) <$> nodes !! t;
    ki_ready : ∀ t, t ∈ ready ↔ is_node t ∧ t ∉ V ∧ remaining V t = 0%nat;
    ki_visited : ∀ t, t ∈ V ↔ t ∈ concat ls;
    ki_nodes : ∀ t, t ∈ V → is_node t ∧ remaining V t = 0%nat;
    ki_nodup : NoDup (concat ls);
    ki_sorted : layers_sorted ls }.

Lemma remaining_mono V V' t : V ⊆ V' → remaining V t = 0%nat → remaining V' t = 0%nat.
Proof. rewrite !remaining_zero. intros HV H s Hin. destruct (H s Hin); [by left|right; set_solver]. Qed.

Lemma kahn_step V d ready ls :
  kahn_inv V d ready ls →
  ∃ d' ready', release_targets (layer_targets out (bset_iter ready)) d ∅ = Some (d', ready') ∧
    kahn_inv (V ∪ ready) d' ready' (ls ++ [bset_iter ready]).
Proof.
  intros [Hd Hr Hv Hn HN Hs]. set (layer := bset_iter ready).
  assert (∀ s, s ∈ layer ↔ s ∈ ready) as Hlayer by (intros; apply elem_of_bset_iter).
  assert (list_to_set layer = ready) as Hset by set_solver.
  assert (∀ t, t ≠ END → remaining V t =
    (occ t (layer_targets out layer) + remaining (V ∪ ready) t)%nat) as Hrem.
  { intros t Ht. rewrite occ_layer_targets by (done || apply NoDup_bset_iter).
    rewrite <- Hset. apply remaining_layer.
    - intros Hst. apply Hlayer, Hr in Hst as [Hst _]. by apply node_not_special in Hst as [? _].
    - intros s Hs'. by apply Hlayer, Hr in Hs' as (_ & ? & _). }
  assert (∀ t, t ∈ layer_targets out layer → is_node t ∧ (0 < remaining V t)%nat) as Htar.
  { intros t Ht. assert (0 < occ t (layer_targets out layer))%nat as Hpos by (apply countp_pos; eauto).
    apply list_elem_of_bind in Ht as (s & Hts & Hsl). apply out_targets in Hts as [Hin Hne].
    destruct Hvalid as [Hv' _]. destruct (Hv' s t Hin) as (_ & _ & _ & [?|Hnode]); [done|].
    split; [done|]. rewrite Hrem by done. lia. }
  destruct (release_targets_spec (layer_targets out layer) d ∅) as (d' & r' & He & Hd' & Hr').
  { intros t Ht. destruct (Htar t Ht) as [[x Hx] _]. exists (remaining V t).
    rewrite Hd, Hx. split; [done|]. rewrite Hrem; [lia|].
    intros ->. destruct Hnames as [_ Hend]. congruence. }
  exists d', r'. split; [exact He|]. split.
  - intros t. rewrite Hd', Hd. destruct (nodes !! t) as [x|] eqn:Ex; simpl; [|done]. f_equal.
    rewrite Hrem; [lia|]. apply node_not_special. by exists x.
  - intros t. rewrite Hr'. rewrite Hd. split.
    + intros [?%elem_of_empty|[Ht Hdt]]; [done|]. destruct (Htar t Ht) as [Hnode Hpos].
      destruct Hnode as [x Hx]. rewrite Hx in Hdt. simpl in Hdt.
      assert (t ≠ END) as Hne by (intros ->; destruct Hnames; congruence).
      specialize (Hrem t Hne). split_and!; [by exists x| |naive_solver lia].
      intros [Hin|Hin]%elem_of_union; [by apply Hn in Hin as [_ ?]; lia|].
      apply Hr in Hin as (_ & _ & ?). lia.
    + intros ([x Hx] & Hnot & Hz). right.
      assert (t ≠ END) as Hne by (intros ->; destruct Hnames; congruence).
      specialize (Hrem t Hne). rewrite Hx. simpl.
      assert (remaining V t ≠ 0%nat) as Hnz.
      { intros H0. apply Hnot, elem_of_union. right. apply Hr. split_and!; [by exists x|set_solver|done]. }
      split; [|f_equal; lia]. assert (0 < occ t (layer_targets out layer))%nat as Hpos by lia.
      apply countp_pos in Hpos as (y & Hy & ->). done.
  - intros t. rewrite elem_of_union, concat_app, elem_of_app, Hv. simpl. rewrite app_nil_r, Hlayer. done.
  - intros t [Ht|Ht]%elem_of_union.
    + destruct (Hn t Ht) as [? H0]. split; [done|]. eapply remaining_mono, H0. set_solver.
    + apply Hr in Ht as (? & _ & H0). split; [done|]. eapply remaining_mono, H0. set_solver.
  - rewrite concat_app. simpl. rewrite app_nil_r. apply NoDup_app. split_and!; [done| |apply NoDup_bset_iter].
    intros t Ht Htl. apply Hv in Ht. apply Hlayer, Hr in Htl as (_ & ? & _). done.
  - apply layers_sorted_snoc; [done|]. intros t s Ht Hin Hne. apply Hv.
    apply Hlayer, Hr in Ht as (_ & _ & H0). apply remaining_zero with (s := s) in H0; [|done].
    by destruct H0.
Qed.

(** A visited list as long as the node map covers it. *)
Lemma visited_all (l : list rstr) :
  NoDup l → (∀ t, t ∈ l → is_node t) → (size nodes ≤ length l)%nat → ∀ t, is_node t → t ∈ l.
Proof.
  intros HN Hl Hlen t Ht.
  assert ((list_to_set l : gset rstr) = dom nodes) as Heq.
  { apply set_subseteq_size_eq.
    - intros x Hx. apply elem_of_dom, Hl. by apply elem_of_list_to_set in Hx.
    - by rewrite size_list_to_set, size_dom. }
  apply elem_of_dom in Ht. rewrite <- Heq in Ht. by apply elem_of_list_to_set in Ht.
Qed.

Lemma visited_size (l : list rstr) :
  NoDup l → (∀ t, t ∈ l → is_node t) → (length l ≤ size nodes)%nat.
Proof.
  intros HN Hl. rewrite <- (size_list_to_set (C := gset rstr)), <- (size_dom (D := gset rstr)) by done.
  apply subseteq_size. intros x Hx. apply elem_of_dom, Hl. by apply elem_of_list_to_set in Hx.
Qed.

Lemma kahn_inv_nodes V d ready ls : kahn_inv V d ready ls → ∀ t, t ∈ concat ls → is_node t.
Proof. intros [Hd Hr Hv Hn HN Hs] t Ht. by apply Hn, Hv. Qed.

Lemma layers_loop_spec fuel V d ready ls visited :
  kahn_inv V d ready ls → (size nodes ≤ fuel + length (concat ls))%nat →
  visited = length (concat ls) →
  ∃ V' d' ls', layers_loop fuel out d ready ls visited = Some (ls', length (concat ls')) ∧
    kahn_inv V' d' ∅ ls'.
Proof.
  revert V d ready ls visited. induction fuel as [|fuel IH]; intros V d ready ls visited Hinv Hf ->;
    cbn [layers_loop]; case_bool_decide as He; subst.
  - exists V, d, ls. done.
  - exfalso. apply set_choose_L in He as [t Ht]. apply (ki_ready _ _ _ _ Hinv) in Ht as (Hnode & Hnot & _).
    apply Hnot, (ki_visited _ _ _ _ Hinv).
    apply (visited_all _ (ki_nodup _ _ _ _ Hinv)); [by eapply kahn_inv_nodes|lia|done].
  - exists V, d, ls. done.
  - destruct (kahn_step V d ready ls Hinv) as (d' & ready' & -> & Hinv'). cbn [mbind option_bind].
    eapply IH; [exact Hinv'| |].
    + rewrite concat_app, length_app. simpl. rewrite app_nil_r, length_bset_iter.
      assert (size ready ≠ 0%nat) by (rewrite size_empty_iff; by apply set_eq in He || set_solver). lia.
    + rewrite concat_app, length_app. simpl. by rewrite app_nil_r.
Qed.

(** A nonempty set of nodes each of which has an inner predecessor in it. *)
Lemma knot_not_acyclic (X : gset rstr) :
  X ≠ ∅ → (∀ t, t ∈ X → ∃ s, s ∈ X ∧ inner s t) → ¬ acyclic.
Proof.
  intros HX Hpred [rank Hrank]. apply set_choose_L in HX as [x Hx].
  assert (∀ n t, rank t = n → t ∉ X) as Hno; [|by eapply Hno].
  intros n. induction (lt_wf n) as [n _ IH]. intros t Hn Ht.
  destruct (Hpred t Ht) as (s & Hs & Hin). apply Hrank in Hin. subst n. by apply (IH _ Hin s).
Qed.

Lemma sorted_layers_acyclic ls :
  layers_sorted ls → NoDup (concat ls) → (∀ t, is_node t → t ∈ concat ls) → acyclic.
Proof.
  intros Hs HN Hall.
  exists (λ t, default 0%nat (fst <$> list_find (λ layer, t ∈ layer) ls)). intros s t (Hin & Hss & Ht).
  destruct Hvalid as [Hv _]. destruct (Hv s t Hin) as (_ & _ & _ & [?|Hnode]); [done|].
  apply Hall in Hnode. apply list_elem_of_In, in_concat in Hnode as (layer & Hl & Htl).
  apply list_elem_of_In in Hl. apply list_elem_of_In in Htl.
  destruct (list_find_elem_of (λ layer, t ∈ layer) ls layer Hl Htl) as [[i l] Hi]. rewrite Hi.
  apply list_find_Some in Hi as (Hi & Hti & _).
  destruct (Hs i l t s Hi Hti Hin Hss) as (j & l' & Hj & Hlj & Hsj).
  destruct (list_find (λ layer, s ∈ layer) ls) as [[k l2]|] eqn:Ek.
  - apply list_find_Some in Ek as (Hk & Hsk & Hmin). simpl.
    destruct (decide (j < k)%nat) as [Hjk|]; [|lia]. by destruct (Hmin j l' Hlj Hjk).
  - apply list_find_None in Ek. rewrite Forall_forall in Ek.
    by destruct (Ek l'); [eapply list_elem_of_lookup_2|].
Qed.
End kahn.

Lemma topological_layers_spec :
  names_wf → edges_valid →
  ∃ r, topological_layers nodes edges = Some r ∧
    match r with
    | Ok ls => acyclic ∧ layers_sorted ls ∧ NoDup (concat ls) ∧ (∀ t, t ∈ concat ls ↔ is_node t)
    | Err _ => ¬ acyclic
    end.
Proof.
  intros Hnames Hvalid. unfold topological_layers.
  destruct (count_edges_spec edges ((λ _, 0) <$> nodes) ∅) as (d & out & -> & Hd & Ho).
  { intros s t Hin _ Ht. destruct Hvalid as [Hv _]. destruct (Hv s t Hin) as (_ & _ & _ & [?|Hn]); [done|].
    rewrite lookup_fmap. by apply fmap_is_Some. }
  cbn [mbind option_bind]. setoid_rewrite lookup_empty in Ho. simpl in Ho.
  assert (kahn_inv ∅ d (dom (filter (λ kv, kv.2 = 0) d)) []) as Hinv.
  { assert (∀ t, d !! t = (λ _, N.of_nat (remaining ∅ t)) <$> nodes !! t) as Hd0.
    { intros t. rewrite Hd, lookup_fmap. destruct (nodes !! t) as [x|] eqn:Ex; simpl; [|done]. f_equal.
      rewrite N.add_0_l. f_equal. unfold remaining. apply countp_ext. intros [s' t'] _. cbn [fst snd].
      assert (t ≠ END) by (intros ->; destruct Hnames; congruence). set_solver. }
    split; [done| |set_solver|set_solver|constructor|intros i l t s; by rewrite lookup_nil].
    intros t. rewrite elem_of_dom. unfold is_Some. setoid_rewrite map_lookup_filter_Some. simpl.
    rewrite Hd0. unfold is_node, is_Some. split.
    - intros (n & Hn & ->). destruct (nodes !! t) as [x|]; simpl in Hn; [|done]. simplify_eq.
      split_and!; [by exists x|set_solver|lia].
    - intros ([x Hx] & _ & H0). exists 0. rewrite Hx, H0. done. }
  destruct (layers_loop_spec Hnames Hvalid out Ho (size nodes) ∅ d
    (dom (filter (λ kv, kv.2 = 0) d)) [] 0%nat Hinv) as (V & d' & ls & -> & Hend); [simpl; lia|done|].
  cbn [mbind option_bind]. eexists. split; [reflexivity|].
  assert (∀ t, t ∈ concat ls → is_node t) as Hnodes by (by eapply kahn_inv_nodes).
  case_bool_decide as Hsz.
  - apply (knot_not_acyclic (dom nodes ∖ V)).
    + intros Hemp. apply Hsz, Nat.le_antisymm.
      * apply visited_size; [apply Hend|done].
      * rewrite <- (size_list_to_set (C := gset rstr)), <- (size_dom (D := gset rstr)) by apply Hend.
        apply subseteq_size. intros x Hx. apply elem_of_list_to_set, (ki_visited _ _ _ _ Hend).
        destruct (decide (x ∈ V)); [done|]. set_solver.
    + intros t [Ht HtV]%elem_of_difference. apply elem_of_dom in Ht.
      destruct (decide (remaining V t = 0%nat)) as [H0|H0].
      { assert (t ∈ (∅ : gset rstr)) by (by apply (ki_ready _ _ _ _ Hend)). set_solver. }
      assert (0 < remaining V t)%nat as Hpos by lia.
      apply countp_pos in Hpos as ([s t'] & Hin & Hst & Hss & HsV). simpl in *. subst t'.
      destruct Hvalid as [Hv _]. destruct (Hv s t Hin) as (_ & _ & [?|Hs] & _); [done|].
      exists s. split; [apply elem_of_difference; split; [by apply elem_of_dom|done]|].
      split_and!; [done..|]. by apply node_not_special in Ht as [_ ?].
  - assert (∀ t, is_node t → t ∈ concat ls) as Hall
      by (apply visited_all; [apply Hend|done|lia]).
    split_and!; [|apply Hend|apply Hend|by split; auto].
    apply (sorted_layers_acyclic Hvalid ls); [apply Hend..|done].
Qed.

(** ** Lemmas on reachability *)

Lemma push_entries_lookup {A} (f g : A → rstr) (l : list A) (m : gmap rstr (list rstr)) k :
  default [] (foldl (λ m e, push_entry m (f e) (g e)) m l !! k) =
    default [] (m !! k) ++ (g <$> filter (λ e, f e = k) l) ∧
  (is_Some (m !! k) → is_Some (foldl (λ m e, push_entry m (f e) (g e)) m l !! k)).
Proof.
  revert m. induction l as [|e l IH]; intros m; cbn [foldl]; [by rewrite app_nil_r|].
  destruct (IH (push_entry m (f e) (g e))) as [Hd Hs]. unfold push_entry in *.
  rewrite Hd, filter_cons, lookup_insert. split.
  - destruct (decide (f e = k)) as [<-|Hne]; [|done]. simpl. by rewrite <- app_assoc.
  - intros Hm. apply Hs. rewrite lookup_insert. by destruct (decide (f e = k)).
Qed.

Lemma all_outgoing_lookup s : default [] (all_outgoing edges !! s) = (filter (λ e : edge, e.1 = s) edges).*2.
Proof. unfold all_outgoing. by rewrite (proj1 (push_entries_lookup fst snd edges ∅ s)). Qed.

Lemma all_outgoing_targets s t : t ∈ default [] (all_outgoing edges !! s) ↔ (s, t) ∈ edges.
Proof.
  rewrite all_outgoing_lookup, list_elem_of_fmap. split.
  - intros ([s' t'] & -> & [Hs Hin]%list_elem_of_filter). simpl in *. by subst.
  - intros Hin. exists (s, t). split; [done|]. by apply list_elem_of_filter.
Qed.

(** Edges whose source was not visited. *)
Definition unvisited (V : gset rstr) : nat := countp (λ e : edge, e.1 ∉ V) edges.

Lemma unvisited_visit V name :
  name ∉ V →
  unvisited V = (length (default [] (all_outgoing edges !! name)) + unvisited ({[ name ]} ∪ V))%nat.
Proof.
  intros Hn. rewrite all_outgoing_lookup, length_fmap. unfold unvisited.
  change (length (filter (λ e : edge, e.1 = name) edges)) with (countp (λ e : edge, e.1 = name) edges).
  generalize edges as es. induction es as [|[s t] es IH]; [done|]. rewrite !countp_cons, IH. cbn [fst].
  repeat case_decide; try lia; set_solver.
Qed.

Lemma bfs_loop_spec (fuel : nat) (queue : list rstr) (V : gset rstr) :
  (length queue + unvisited V ≤ fuel)%nat →
  (∀ v t, v ∈ V → (v, t) ∈ edges → t ∈ V ∨ t ∈ queue) →
  (∀ v, v ∈ V ∨ v ∈ queue → connected v) →
  ∃ W, bfs_loop fuel (all_outgoing edges) queue V = Some W ∧
    (∀ v, v ∈ V ∨ v ∈ queue → v ∈ W) ∧
    (∀ v t, v ∈ W → (v, t) ∈ edges → t ∈ W) ∧
    (∀ v, v ∈ W → connected v).
Proof.
  revert queue V. induction fuel as [|fuel IH]; intros [|name queue] V Hf Hclosed Hconn;
    cbn [bfs_loop]; try (exists V; split_and!; [done|set_solver|set_solver|naive_solver]);
    simpl in Hf; [lia|].
  case_bool_decide as Hin.
  - destruct (IH queue V) as (W & HW & H1 & H2 & H3); [lia| |set_solver|].
    + intros v t Hv Hvt. destruct (Hclosed v t Hv Hvt) as [?|[->|?]%elem_of_cons]; auto.
    + exists W. split_and!; [done|set_solver|done..].
  - pose proof (unvisited_visit V name Hin) as Hu.
    destruct (IH (queue ++ default [] (all_outgoing edges !! name)) ({[name]} ∪ V))
      as (W & HW & H1 & H2 & H3).
    + rewrite length_app. lia.
    + intros v t [->%elem_of_singleton|Hv]%elem_of_union Hvt.
      * right. apply elem_of_app. right. by apply all_outgoing_targets.
      * destruct (Hclosed v t Hv Hvt) as [?|[->|?]%elem_of_cons]; set_solver.
    + intros v Hv. rewrite elem_of_app, all_outgoing_targets in Hv.
      destruct Hv as [[->%elem_of_singleton|Hv]%elem_of_union|[Hv|Hv]].
      * apply Hconn. right. by left.
      * apply Hconn. by left.
      * apply Hconn. right. by right.
      * eapply rtc_r; [apply (Hconn name); right; by left|done].
    + exists W. split_and!; [done| |done..]. intros v [Hv|[->|Hv]%elem_of_cons]; apply H1; set_solver.
Qed.

Lemma validate_reachability_spec :
  edges_valid →
  ∃ r, validate_reachability nodes edges = Some r ∧
    (is_ok r = true ↔ ∀ n, is_node n → connected n).
Proof.
  intros (Hv & _ & (s & HsE)). unfold validate_reachability.
  destruct (bfs_loop_spec (S (length edges)) [START] ∅) as (W & -> & H1 & H2 & H3).
  - apply le_n_S, countp_le.
  - set_solver.
  - intros v [Hv0|Hv0]; [set_solver|]. apply list_elem_of_singleton in Hv0 as ->. apply rtc_refl.
  - cbn [mbind option_bind].
    assert (∀ v, connected v → v ∈ W) as Hall.
    { apply (rtc_ind_r (λ v, v ∈ W)).
      - apply H1. right. by left.
      - intros y z _ Hyz Hy. by eapply H2. }
    destruct (list_find _ _) as [[i n]|] eqn:E.
    + eexists. split; [done|]. split; [done|]. intros Hc. apply list_find_Some in E as (Hi & Hn & _).
      destruct Hn. apply Hall, Hc. apply list_elem_of_lookup_2, elem_of_btree_keys in Hi. done.
    + apply list_find_None in E. rewrite Forall_forall in E.
      assert (∀ n, is_node n → n ∈ W) as Hn.
      { intros n Hn. apply dec_stable. apply E. by apply elem_of_btree_keys. }
      assert (END ∈ W) as HE.
      { eapply H2; [|exact HsE]. destruct (Hv s END HsE) as (_ & _ & [->|Hs] & _); [|by apply Hn].
        apply H1. right. by left. }
      rewrite bool_decide_true by done. eexists. split; [done|]. split; [|done]. intros _ n Hnode.
      by apply H3, Hn.
Qed.

Definition inputs_of (n : rstr) : list rstr := (filter (λ e : edge, e.2 = n) edges).*1.

Lemma inputs_of_elem s n : s ∈ inputs_of n ↔ (s, n) ∈ edges.
Proof.
  unfold inputs_of. rewrite list_elem_of_fmap. split.
  - intros ([s' t'] & -> & [Hs Hin]%list_elem_of_filter). simpl in *. by subst.
  - intros Hin. exists (s, n). split; [done|]. by apply list_elem_of_filter.
Qed.

Lemma incoming_edges_lookup n :
  is_node n ∨ n = END → incoming_edges nodes edges !! n = Some (inputs_of n).
Proof.
  intros Hn. unfold incoming_edges.
  destruct (push_entries_lookup snd fst edges (<[END:=[]]> ((λ _, []) <$> nodes)) n) as [Hd Hs].
  assert (<[END:=[]]> ((λ _, []) <$> nodes) !! n = Some ([] : list rstr)) as H0.
  { rewrite lookup_insert. destruct (decide (END = n)); [done|]. rewrite lookup_fmap.
    destruct Hn as [[x ->]|]; done. }
  rewrite H0 in Hd, Hs. destruct Hs as [l Hl]; [done|]. rewrite Hl in Hd |- *. simpl in Hd. by rewrite Hd.
Qed.

Lemma connected_has_input n : connected n → n ≠ START → inputs_of n ≠ [].
Proof.
  intros Hc Hne. apply rtc_inv_r in Hc as [?|(s & _ & Hs)]; [done|].
  apply inputs_of_elem in Hs. intros Hnil. rewrite Hnil in Hs. by apply not_elem_of_nil in Hs.
Qed.
End graph_spec.

(** What a compiled graph guarantees to its execution. *)
Record graph_wf {Node} (es : list edge) (g : CompiledGraph Node) : Prop :=
  { gw_topology : topology g = concat (layers g);
    gw_nodup : NoDup (topology g);
    gw_nodes : ∀ n, n ∈ topology g ↔ is_Some (cg_nodes g !! n);
    gw_sorted : layers_sorted es (layers g);
    gw_incoming : ∀ n, n ∈ topology g ∨ n = END → incoming g !! n = Some (inputs_of es n);
    gw_has_input : ∀ n, n ∈ topology g ∨ n = END → inputs_of es n ≠ [];
    gw_source : ∀ s n, (s, n) ∈ es → s = START ∨ s ∈ topology g;
    gw_names : START ∉ topology g ∧ END ∉ topology g }.

(** Builders that [GraphBuilder::new], [add_node] and [add_edge] give. *)
Inductive built {Node} : GraphBuilder Node → Prop :=
| built_new : built GraphBuilder_new
| built_node b name node b' : built b → add_node b name node = Ok b' → built b'
| built_edge b s t b' : built b → add_edge b s t = Ok b' → built b'.

Lemma built_names {Node} (b : GraphBuilder Node) : built b → names_wf (gb_nodes b).
Proof.
  induction 1 as [|b name node b' _ IH Ha|b s t b' _ IH Ha]; [done|..].
  - unfold add_node, validate_node_name in Ha. destruct (trim name) as [|c n] eqn:En; [done|].
    destruct (bool_decide (c :: n = START)) eqn:E1; [done|].
    destruct (bool_decide (c :: n = END)) eqn:E2; [done|]. guard_prop. simpl in Ha.
    destruct (gb_nodes b !! (c :: n)); simplify_eq. destruct IH as [Hs He].
    split; simpl; by rewrite lookup_insert_ne.
  - unfold add_edge in Ha. case_bool_decide; by simplify_eq.
Qed.

Lemma compile_spec {Node} (b : GraphBuilder Node) :
  names_wf (gb_nodes b) →
  ∃ r, compile b = Some r ∧
    (is_ok r = true ↔ edges_valid (gb_nodes b) (gb_edges b) ∧ acyclic (gb_edges b) ∧
       ∀ n, is_node (gb_nodes b) n → connected (gb_edges b) n) ∧
    ∀ g, r = Ok g → graph_wf (gb_edges b) g ∧ cg_nodes g = gb_nodes b.
Proof.
  intros Hnames. unfold compile. pose proof (validate_edges_ok (gb_nodes b) (gb_edges b)) as Hve.
  destruct (validate_edges (gb_nodes b) (gb_edges b)) as [[]|e]; simpl in Hve.
  2: { eexists. split; [done|]. split; [|done]. naive_solver. }
  assert (edges_valid (gb_nodes b) (gb_edges b)) as Hv by (by apply Hve).
  destruct (topological_layers_spec _ _ Hnames Hv) as (r & -> & Hr). cbn [mbind option_bind].
  destruct r as [ls|e].
  2: { eexists. split; [done|]. split; [|done]. naive_solver. }
  destruct Hr as (Hac & Hsorted & HN & Hnodes).
  destruct (validate_reachability_spec _ _ Hv) as (r & -> & Hreach). cbn [mbind option_bind].
  destruct r as [[]|e]; simpl in Hreach.
  2: { eexists. split; [done|]. split; [|done]. naive_solver. }
  eexists. split; [done|]. split; [naive_solver|]. intros g [= <-]. split; [|done].
  destruct Hreach as [Hreach _]. specialize (Hreach eq_refl).
  destruct Hv as (Hv & _ & (s0 & HsE)).
  split; simpl; try done.
  - intros n [Hn|Hn]; apply incoming_edges_lookup; [left; by apply Hnodes|by right].
  - intros n [Hn| ->].
    + apply Hnodes in Hn. apply connected_has_input; [by apply Hreach|].
      by apply (node_not_special (gb_nodes b)) in Hn as [? _].
    + intros Hnil. apply inputs_of_elem in HsE. rewrite Hnil in HsE. by apply not_elem_of_nil in HsE.
  - intros s n Hin. destruct (Hv s n Hin) as (_ & _ & [?|Hs] & _); [by left|right; by apply Hnodes].
  - rewrite !Hnodes. destruct Hnames as [Hs He]. unfold is_node.
    split; [rewrite Hs | rewrite He]; by intros [].
Qed.

(** ** Properties *)

(** C7: [compile] accepts exactly the well-formed graphs. On a builder made by
    [new], [add_node] and [add_edge] it never panics; it succeeds if and only if
    the edges are valid (known endpoints, none out of END or into START, one
    from START and one to END), the inner edges are acyclic, and every node is
    reachable from START; the compiled graph then lists every node exactly once,
    in layers whose members only depend on earlier layers, with every node's
    inputs and at least one of them. *)
Theorem compile_correct {Node} (b : GraphBuilder Node) :
  built b →
  ∃ r, compile b = Some r ∧
    (is_ok r = true ↔ edges_valid (gb_nodes b) (gb_edges b) ∧ acyclic (gb_edges b) ∧
       ∀ n, is_node (gb_nodes b) n → connected (gb_edges b) n) ∧
    ∀ g, r = Ok g → graph_wf (gb_edges b) g ∧ cg_nodes g = gb_nodes b.
Proof. intros Hb. by apply compile_spec, built_names. Qed.

(** ** Witnesses *)

(** START -> a -> END. *)
Definition ex_chain : GraphBuilder unit :=
  {| gb_nodes := {[ lit "a" := tt ]}; gb_edges := [(START, lit "a"); (lit "a", END)] |}.

Lemma ex_chain_built : built ex_chain.
Proof.
  apply (built_edge {| gb_nodes := {[ lit "a" := tt ]}; gb_edges := [(START, lit "a")] |} (lit "a") END);
    [|vm_compute; reflexivity].
  apply (built_edge {| gb_nodes := {[ lit "a" := tt ]}; gb_edges := [] |} START (lit "a"));
    [|vm_compute; reflexivity].
  apply (built_node GraphBuilder_new (lit " a ") tt); [apply built_new|vm_compute; reflexivity].
Qed.

Lemma compile_correct_witness :
  ∃ g, compile ex_chain = Some (Ok g) ∧ topology g = [lit "a"] ∧ graph_wf (gb_edges ex_chain) g.
Proof.
  destruct (compile_correct ex_chain ex_chain_built) as (r & H & _ & Hg).
  revert H. vm_compute in Hg |- *. intros H. injection H as <-.
  eexists. split; [reflexivity|]. split; [reflexivity|]. apply (Hg _ eq_refl).
Defined.
