(* ===== verification/Workflow.v ===== *)
(** * AI workflow execution (crates/roze-ai/src/compose.rs)

    [CompiledGraph]'s sequential and layer-parallel execution, its event stream
    and the streaming-pipeline check; Runner.v has the checkpointed runs. The
    world [W] is what nodes, observers and the request context read and change;
    an [async] call is a function of it. The nodes of a parallel layer run on
    the same values; the model runs them in layer order, one of the orders
    [join_all] allows. [VNull] and [VArray] are serde_json's constructors. *)

From S2P Require Import Prelude Text Graph.

Definition START_VALUE {Value} (input : Value) : gmap rstr Value := {[ START := input ]}.

(** ** Inputs *)

Section inputs.
Context {Value : Type} (VArray : list Value → Value).

Definition collect_inputs (name : rstr) (inc : gmap rstr (list rstr)) (values : gmap rstr Value)
    : result AiError Value :=
  sources ← ok_or (inc !! name) (InvalidWorkflow (quoted (lit "missing inputs for ") name []));
  inputs ← collect (λ source, ok_or (values !! source)
             (InvalidWorkflow (quoted (lit "workflow value from ") source
                (quoted (lit " is unavailable for ") name [])))) sources;
  match inputs with
  | [] => Err (InvalidWorkflow (quoted (lit "workflow node ") name (lit " has no input")))
  | [v] => Ok v
  | _ => Ok (VArray inputs)
  end.
End inputs.

Definition collapse_chunks {Value} (VNull : Value) (VArray : list Value → Value)
    (chunks : list Value) : Value :=
  match chunks with [] => VNull | [v] => v | _ => VArray chunks end.

Inductive WorkflowExecutionMode := Sequential | ParallelLayers.

Inductive WorkflowEvent (Value : Type) :=
| RunStarted (run_id : rstr) (mode : WorkflowExecutionMode)
| NodeStarted (run_id node : rstr)
| NodeCompleted (run_id node : rstr) (output : Value)
| RunCompleted (run_id : rstr) (output : Value).
Arguments RunStarted {Value}. Arguments NodeStarted {Value}. Arguments NodeCompleted {Value}.
Arguments RunCompleted {Value}.

Section execution.
Context {Value W : Type} (VArray : list Value → Value).
(** The request context: cancelled, past its deadline. *)
Context (cancelled is_expired : W → bool).
(** The observers of the graph, in order. *)
Context (on_node_start on_node_end : rstr → W → W) (on_node_error : rstr → AiError → W → W).

Abbreviation Node := (Value → W → result AiError Value * W).
Abbreviation graph := (CompiledGraph Node).

Definition check_context (w : W) : result AiError unit :=
  if cancelled w then Err Cancelled
  else if is_expired w then Err DeadlineExceeded
  else Ok tt.

Definition execute_node (g : graph) (name : rstr) (values : gmap rstr Value)
    (input_override : option Value) (w : W) : result AiError Value * W :=
  match check_context w with
  | Err e => (Err e, w)
  | Ok _ =>
      match (match input_override with
             | Some input => Ok input
             | None => collect_inputs VArray name (incoming g) values
             end) with
      | Err e => (Err e, w)
      | Ok input =>
          match cg_nodes g !! name with
          | None => (Err (InvalidWorkflow (quoted (lit "missing node ") name [])), w)
          | Some node =>
              match node input (on_node_start name w) with
              | (Ok output, w) =>
                  match check_context w with
                  | Err e => (Err e, w)
                  | Ok _ => (Ok output, on_node_end name w)
                  end
              | (Err error, w) => (Err error, on_node_error name error w)
              end
          end
      end
  end.

(** [for name in &self.topology] *)
Fixpoint run_sequential (g : graph) (names : list rstr) (values : gmap rstr Value) (w : W)
    : result AiError (gmap rstr Value) * W :=
  match names with
  | [] => (Ok values, w)
  | name :: names' =>
      match execute_node g name values None w with
      | (Err e, w) => (Err e, w)
      | (Ok output, w) => run_sequential g names' (<[name := output]> values) w
      end
  end.

(** [join_all(executions).await] over one layer. *)
Fixpoint execute_layer (g : graph) (layer : list rstr) (values : gmap rstr Value) (w : W)
    : list (rstr * result AiError Value) * W :=
  match layer with
  | [] => ([], w)
  | name :: layer' =>
      let '(output, w) := execute_node g name values None w in
      let '(outputs, w) := execute_layer g layer' values w in
      ((name, output) :: outputs, w)
  end.

(** [for (name, output) in outputs { values.insert(name, output?); }] *)
Fixpoint insert_outputs (outputs : list (rstr * result AiError Value)) (values : gmap rstr Value)
    : result AiError (gmap rstr Value) :=
  match outputs with
  | [] => Ok values
  | (name, output) :: outputs' =>
      output ← output; insert_outputs outputs' (<[name := output]> values)
  end.

Fixpoint run_layers (g : graph) (ls : list (list rstr)) (values : gmap rstr Value) (w : W)
    : result AiError (gmap rstr Value) * W :=
  match ls with
  | [] => (Ok values, w)
  | layer :: ls' =>
      match check_context w with
      | Err e => (Err e, w)
      | Ok _ =>
          let '(outputs, w) := execute_layer g layer values w in
          match insert_outputs outputs values with
          | Err e => (Err e, w)
          | Ok values => run_layers g ls' values w
          end
      end
  end.

Definition invoke_with_mode (g : graph) (input : Value) (mode : WorkflowExecutionMode) (w : W)
    : result AiError Value * W :=
  match check_context w with
  | Err e => (Err e, w)
  | Ok _ =>
      let '(values, w) :=
        match mode with
        | Sequential => run_sequential g (topology g) (START_VALUE input) w
        | ParallelLayers => run_layers g (layers g) (START_VALUE input) w
        end in
      (values ← values; collect_inputs VArray END (incoming g) values, w)
  end.

Definition CompiledGraph_invoke (g : graph) (input : Value) (w : W) : result AiError Value * W :=
  invoke_with_mode g input Sequential w.

(** ** The event stream, in sequential mode: the events yielded before the
    stream ends, and its error if it ends with one. *)
Fixpoint stream_sequential (g : graph) (run_id : rstr) (names : list rstr) (values : gmap rstr Value)
    (w : W) : list (WorkflowEvent Value) * result AiError (gmap rstr Value) * W :=
  match names with
  | [] => ([], Ok values, w)
  | name :: names' =>
      match execute_node g name values None w with
      | (Err e, w) => ([NodeStarted run_id name], Err e, w)
      | (Ok output, w) =>
          let '(events, r, w) := stream_sequential g run_id names' (<[name := output]> values) w in
          (NodeStarted run_id name :: NodeCompleted run_id name output :: events, r, w)
      end
  end.

(** The completions a layer yields before its first error. *)
Fixpoint layer_events (run_id : rstr) (outputs : list (rstr * result AiError Value))
    : list (WorkflowEvent Value) :=
  match outputs with
  | (name, Ok output) :: outputs' => NodeCompleted run_id name output :: layer_events run_id outputs'
  | _ => []
  end.

Fixpoint stream_layers (g : graph) (run_id : rstr) (ls : list (list rstr)) (values : gmap rstr Value)
    (w : W) : list (WorkflowEvent Value) * result AiError (gmap rstr Value) * W :=
  match ls with
  | [] => ([], Ok values, w)
  | layer :: ls' =>
      match check_context w with
      | Err e => ([], Err e, w)
      | Ok _ =>
          let '(outputs, w) := execute_layer g layer values w in
          let events := (NodeStarted run_id <$> layer) ++ layer_events run_id outputs in
          match insert_outputs outputs values with
          | Err e => (events, Err e, w)
          | Ok values =>
              let '(events', r, w) := stream_layers g run_id ls' values w in
              (events ++ events', r, w)
          end
      end
  end.

Definition CompiledGraph_stream (g : graph) (run_id : rstr) (input : Value)
    (mode : WorkflowExecutionMode) (w : W)
    : list (WorkflowEvent Value) * result AiError unit * W :=
  match check_context w with
  | Err e => ([], Err e, w)
  | Ok _ =>
      let '(events, values, w) :=
        match mode with
        | Sequential => stream_sequential g run_id (topology g) (START_VALUE input) w
        | ParallelLayers => stream_layers g run_id (layers g) (START_VALUE input) w
        end in
      match values ← values; collect_inputs VArray END (incoming g) values with
      | Err e => (RunStarted run_id mode :: events, Err e, w)
      | Ok output => (RunStarted run_id mode :: events ++ [RunCompleted run_id output], Ok tt, w)
      end
  end.

(** ** [validate_streaming_pipeline] *)

(** How many edges leave each source. *)
Definition outgoing_counts (g : graph) : gmap rstr N :=
  foldl (λ m source, <[source := default 0 (m !! source) + 1]> m) ∅
    (concat (btree_values (incoming g))).

Definition validate_streaming_pipeline (g : graph) (max_chunks : N) : result AiError unit :=
  if max_chunks =? 0
  then Err (InvalidWorkflow (lit "workflow stream max_chunks must be greater than zero"))
  else
    _ ← collect (λ '(target, sources),
           if bool_decide (length sources ≠ 1%nat)
           then Err (InvalidWorkflow (quoted (lit "chunk streaming requires one input for ") target
                       (lit ", found " ++ dec (N.of_nat (length sources)))))
           else Ok tt) (btree_iter (incoming g));
    let outgoing := outgoing_counts g in
    if bool_decide (outgoing !! START ≠ Some 1)
    then Err (InvalidWorkflow (lit "chunk streaming requires one path from START"))
    else
      _ ← collect (λ name,
             if bool_decide (outgoing !! name ≠ Some 1)
             then Err (InvalidWorkflow
                         (quoted (lit "chunk streaming requires one output path from ") name []))
             else Ok tt) (topology g);
      Ok tt.
End execution.

(** ** Orders *)

Lemma elem_of_concat {A} (ls : list (list A)) x : x ∈ concat ls ↔ ∃ l, l ∈ ls ∧ x ∈ l.
Proof.
  rewrite list_elem_of_In, in_concat. split; intros (l & H1 & H2); exists l;
    by rewrite ?list_elem_of_In, <- ?list_elem_of_In in *.
Qed.

Lemma NoDup_concat_disjoint {A} (ls : list (list A)) i j a b x :
  NoDup (concat ls) → ls !! i = Some a → ls !! j = Some b → x ∈ a → x ∈ b → (i < j)%nat → False.
Proof.
  intros HN Hi Hj Ha Hb Hij.
  rewrite <- (take_drop_middle ls j b Hj), concat_app in HN. apply NoDup_app in HN as (_ & Hdis & _).
  apply (Hdis x).
  - apply elem_of_concat. exists a. split; [|done]. apply list_elem_of_lookup. exists i.
    by rewrite lookup_take_lt.
  - simpl. apply elem_of_app. by left.
Qed.

Section wiring.
Context {N0 : Type} (es : list edge) (g : CompiledGraph N0) (Hwf : graph_wf es g).

(** Before layer [i] runs, the inputs of its members are values of START or of
    earlier layers, and not of the layer itself. *)
Lemma layer_inputs i layer n s :
  layers g !! i = Some layer → n ∈ layer → s ∈ inputs_of es n →
  (s = START ∨ s ∈ concat (take i (layers g))) ∧ s ∉ layer.
Proof.
  intros Hi Hn Hs%inputs_of_elem. destruct Hwf as [Ht HN Hnodes Hsort _ _ Hsrc [Hst _]].
  rewrite Ht in *. destruct (decide (s = START)) as [->|Hne].
  - split; [by left|]. intros Hin. apply Hst, elem_of_concat. exists layer.
    split; [|done]. by eapply list_elem_of_lookup_2.
  - destruct (Hsort i layer n s Hi Hn Hs Hne) as (j & l & Hj & Hlj & Hsl). split.
    + right. apply elem_of_concat. exists l. split; [|done]. apply list_elem_of_lookup. exists j.
      by rewrite lookup_take_lt.
    + intros Hin. exact (NoDup_concat_disjoint _ _ _ _ _ _ HN Hlj Hi Hsl Hin Hj).
Qed.

(** In the topology the inputs of a node come before it. *)
Lemma topology_inputs pre n post s :
  topology g = pre ++ n :: post → s ∈ inputs_of es n → s = START ∨ s ∈ pre.
Proof.
  intros Heq Hs. assert (n ∈ topology g) as Hn by (rewrite Heq; set_solver).
  pose proof (gw_nodup _ _ Hwf) as HN. rewrite (gw_topology _ _ Hwf) in Heq, Hn, HN.
  apply elem_of_concat in Hn as (layer & Hl & Hn). apply list_elem_of_lookup in Hl as [i Hi].
  destruct (layer_inputs i layer n s Hi Hn Hs) as [[?|Hin] _]; [by left|right].
  rewrite <- (take_drop_middle _ i layer Hi), concat_app in Heq, HN. simpl in Heq, HN.
  apply list_elem_of_split in Hn as (a & b & ->).
  assert (pre = concat (take i (layers g)) ++ a) as ->; [|set_solver].
  rewrite <- app_assoc in Heq, HN. simpl in Heq, HN. rewrite app_assoc in Heq, HN.
  assert (length pre = length (concat (take i (layers g)) ++ a)) as Hlen.
  { eapply NoDup_lookup; [exact HN| |by apply list_lookup_middle].
    rewrite Heq. by apply list_lookup_middle. }
  symmetry in Heq. by apply app_inj_1 in Heq as [? _].
Qed.
End wiring.

Section collect_lemmas.
Context {Value : Type} (VArray : list Value → Value).

Lemma collect_some {E A B} (f : A → result E B) l :
  (∀ x, x ∈ l → ∃ y, f x = Ok y) → ∃ ys, collect f l = Ok ys ∧ length ys = length l.
Proof.
  induction l as [|x l IH]; intros Hl; simpl; [by exists []|].
  destruct (Hl x) as [y Hy]; [by left|]. destruct IH as (ys & Hys & Hlen); [intros z Hz; apply Hl; by right|].
  exists (y :: ys). rewrite Hy, Hys. simpl. split; [done|lia].
Qed.

Lemma collect_ext {E A B} (f g : A → result E B) l :
  (∀ x, x ∈ l → f x = g x) → collect f l = collect g l.
Proof.
  induction l as [|x l IH]; intros Hl; simpl; [done|]. rewrite Hl by (by left).
  rewrite IH; [done|]. intros y Hy. apply Hl. by right.
Qed.

Lemma collect_inputs_available {N0} (es : list edge) (g : CompiledGraph N0) (values : gmap rstr Value) (n : rstr) :
  graph_wf es g → n ∈ topology g ∨ n = END →
  (∀ s, s ∈ inputs_of es n → is_Some (values !! s)) →
  ∃ v, collect_inputs VArray n (incoming g) values = Ok v.
Proof.
  intros Hwf Hn Hv. unfold collect_inputs. rewrite (gw_incoming _ _ Hwf n Hn). cbn [ok_or mbind result_bind].
  pose proof (gw_has_input _ _ Hwf n Hn) as Hne.
  match goal with |- context [collect ?f _] => destruct (collect_some f (inputs_of es n)) as (ys & -> & Hlen) end.
  { intros s Hs. destruct (Hv s Hs) as [v ->]. by exists v. }
  cbn [mbind result_bind]. destruct ys as [|y [|y' ys]]; [|by eexists..].
  destruct (inputs_of es n); done.
Qed.

Lemma collect_inputs_ext {N0} (es : list edge) (g : CompiledGraph N0) (values values' : gmap rstr Value) (n : rstr) :
  graph_wf es g → n ∈ topology g ∨ n = END →
  (∀ s, s ∈ inputs_of es n → values !! s = values' !! s) →
  collect_inputs VArray n (incoming g) values = collect_inputs VArray n (incoming g) values'.
Proof.
  intros Hwf Hn Hv. unfold collect_inputs. rewrite (gw_incoming _ _ Hwf n Hn). cbn [ok_or mbind result_bind].
  f_equal. apply collect_ext. intros s Hs. by rewrite Hv.
Qed.
End collect_lemmas.

(** ** Lemmas on runs of a compiled graph *)

Section runs.
Context {Value W : Type} (VArray : list Value → Value).
Context (cancelled is_expired : W → bool).
Context (on_node_start on_node_end : rstr → W → W) (on_node_error : rstr → AiError → W → W).
Abbreviation Node := (Value → W → result AiError Value * W).
Context (es : list edge) (g : CompiledGraph Node) (Hwf : graph_wf es g).

Abbreviation check := (check_context cancelled is_expired).
Abbreviation exec_node :=
  (execute_node VArray cancelled is_expired on_node_start on_node_end on_node_error g).
Abbreviation run_seq :=
  (run_sequential VArray cancelled is_expired on_node_start on_node_end on_node_error g).
Abbreviation exec_layer :=
  (execute_layer VArray cancelled is_expired on_node_start on_node_end on_node_error g).
Abbreviation run_par :=
  (run_layers VArray cancelled is_expired on_node_start on_node_end on_node_error g).

(** The errors a run may end with: those of the context and of the nodes. *)
Definition run_error (e : AiError) : Prop :=
  e = Cancelled ∨ e = DeadlineExceeded ∨
  ∃ name node input w, cg_nodes g !! name = Some node ∧ (node input w).1 = Err e.

Lemma check_context_error w e : check w = Err e → run_error e.
Proof.
  unfold check_context. destruct (cancelled w); [intros [= <-]; by left|].
  destruct (is_expired w); [intros [= <-]; right; by left|done].
Qed.

Definition available (values : gmap rstr Value) (n : rstr) : Prop :=
  ∀ s, s ∈ inputs_of es n → is_Some (values !! s).

Lemma execute_node_error name values w e w' :
  name ∈ topology g → available values name → exec_node name values None w = (Err e, w') → run_error e.
Proof.
  intros Hn Hav. unfold execute_node.
  destruct (check w) as [[]|e1] eqn:Ec; [|intros [= <- _]; by eapply check_context_error].
  destruct (collect_inputs_available VArray es g values name Hwf (or_introl Hn) Hav) as [v ->].
  destruct (cg_nodes g !! name) as [node|] eqn:En.
  2: { apply (gw_nodes _ _ Hwf) in Hn as [x Hx]. congruence. }
  destruct (node v (on_node_start name w)) as [[o|e1] w1] eqn:Enode.
  - destruct (check w1) as [[]|e1] eqn:Ec1; [done|]. intros [= <- _]. by eapply check_context_error.
  - intros [= <- _]. right; right. exists name, node, v, (on_node_start name w). by rewrite Enode.
Qed.

Lemma run_sequential_available pre names values w :
  topology g = pre ++ names → (∀ s, s = START ∨ s ∈ pre → is_Some (values !! s)) →
  match run_seq names values w with
  | (Err e, _) => run_error e
  | (Ok values', _) => ∀ s, s = START ∨ s ∈ topology g → is_Some (values' !! s)
  end.
Proof.
  revert pre values w. induction names as [|n names IH]; intros pre values w Heq Hv;
    cbn [run_sequential]; [by rewrite Heq, app_nil_r|].
  destruct (exec_node n values None w) as [[o|e] w1] eqn:Ex.
  - apply (IH (pre ++ [n])); [by rewrite <- app_assoc|].
    intros s Hs. rewrite lookup_insert. destruct (decide (n = s)); [by eexists|].
    apply Hv. destruct Hs as [?|Hs]; [by left|right]. set_solver.
  - eapply execute_node_error; [| |exact Ex]; [rewrite Heq; set_solver|].
    intros s Hs. apply Hv. by eapply topology_inputs.
Qed.

Lemma execute_layer_fst layer values w : (exec_layer layer values w).1.*1 = layer.
Proof.
  revert w. induction layer as [|n layer IH]; intros w; simpl; [done|].
  destruct (exec_node n values None w) as [o w1]. specialize (IH w1).
  destruct (exec_layer layer values w1) as [os w2]. simpl in IH. change (n :: os.*1 = n :: layer). by rewrite IH.
Qed.

Lemma execute_layer_errors layer values w :
  (∀ n, n ∈ layer → n ∈ topology g ∧ available values n) →
  ∀ n e, (n, Err e) ∈ (exec_layer layer values w).1 → run_error e.
Proof.
  revert w. induction layer as [|n layer IH]; intros w Hl m e; simpl;
    [intros Hin; by apply not_elem_of_nil in Hin|].
  destruct (exec_node n values None w) as [o w1] eqn:Ex. specialize (IH w1).
  destruct (exec_layer layer values w1) as [os w2]. simpl in *. intros [Heq|Hin]%elem_of_cons.
  - injection Heq as -> <-. destruct (Hl n) as [Hn Hav]; [by left|].
    by eapply execute_node_error.
  - eapply IH; [|exact Hin]. intros k Hk. apply Hl. by right.
Qed.

Lemma insert_outputs_spec (outputs : list (rstr * result AiError Value)) (values : gmap rstr Value) :
  match insert_outputs outputs values with
  | Err e => ∃ n, (n, Err e) ∈ outputs
  | Ok values' => ∀ s, is_Some (values !! s) ∨ s ∈ outputs.*1 → is_Some (values' !! s)
  end.
Proof.
  revert values. induction outputs as [|[n [o|e]] outputs IH]; intros values; simpl.
  - intros s [?|Hs]; [done|by apply not_elem_of_nil in Hs].
  - specialize (IH (<[n := o]> values)). destruct (insert_outputs outputs _) as [values'|e].
    + intros s Hs. apply IH. rewrite lookup_insert. destruct (decide (n = s)) as [->|]; [left; by eexists|].
      destruct Hs as [?|[->|?]%elem_of_cons]; [by left|done|by right].
    + destruct IH as [k Hk]. exists k. by right.
  - exists n. by left.
Qed.

Lemma run_layers_available i values w :
  (∀ s, s = START ∨ s ∈ concat (take i (layers g)) → is_Some (values !! s)) →
  match run_par (drop i (layers g)) values w with
  | (Err e, _) => run_error e
  | (Ok values', _) => ∀ s, s = START ∨ s ∈ topology g → is_Some (values' !! s)
  end.
Proof.
  remember (drop i (layers g)) as ls eqn:Els. revert i values w Els.
  induction ls as [|layer ls IH]; intros i values w Els Hv; cbn [run_layers].
  - rewrite (gw_topology _ _ Hwf), <- (take_drop i (layers g)), <- Els, app_nil_r. done.
  - assert (layers g !! i = Some layer) as Hi by (by rewrite <- (Nat.add_0_r i), <- lookup_drop, <- Els).
    destruct (check w) as [[]|e] eqn:Ec; [|by eapply check_context_error].
    pose proof (execute_layer_fst layer values w) as Hfst.
    assert (∀ n e, (n, Err e) ∈ (exec_layer layer values w).1 → run_error e) as Herr.
    { apply execute_layer_errors. intros n Hn. split.
      - rewrite (gw_topology _ _ Hwf). apply elem_of_concat. exists layer.
        split; [by eapply list_elem_of_lookup_2|done].
      - intros s Hs. apply Hv. by eapply layer_inputs. }
    destruct (exec_layer layer values w) as [outputs w1]. simpl in Hfst, Herr.
    pose proof (insert_outputs_spec outputs values) as Hins.
    destruct (insert_outputs outputs values) as [values'|e]; [|destruct Hins as [n Hn]; by eapply Herr].
    apply (IH (S i)).
    + by rewrite <- Nat.add_1_r, <- drop_drop, <- Els.
    + intros s Hs. apply Hins. rewrite Hfst. rewrite (take_S_r _ _ _ Hi), concat_app in Hs. simpl in Hs.
      destruct Hs as [->|Hs]; [left; apply Hv; by left|].
      rewrite app_nil_r in Hs. apply elem_of_app in Hs as [Hs|Hs]; [left; apply Hv; by right|by right].
Qed.

Lemma invoke_wired input mode w e w' :
  invoke_with_mode VArray cancelled is_expired on_node_start on_node_end on_node_error
    g input mode w = (Err e, w') → run_error e.
Proof.
  unfold invoke_with_mode.
  destruct (check w) as [[]|e1] eqn:Ec; [|intros [= <- _]; by eapply check_context_error].
  assert (∀ s, s = START ∨ s ∈ ([] : list rstr) → is_Some (START_VALUE input !! s)) as H0.
  { intros s [->|Hs]; [|by apply not_elem_of_nil in Hs]. unfold START_VALUE.
    rewrite lookup_singleton_eq. by eexists. }
  assert (match (match mode with
      | Sequential => run_seq (topology g) (START_VALUE input) w
      | ParallelLayers => run_par (layers g) (START_VALUE input) w end) with
    | (Err e, _) => run_error e
    | (Ok values', _) => ∀ s, s = START ∨ s ∈ topology g → is_Some (values' !! s)
    end) as Hrun.
  { destruct mode; [by apply (run_sequential_available [])|].
    pose proof (run_layers_available 0 (START_VALUE input) w) as Hr. rewrite drop_0, take_0 in Hr.
    by apply Hr. }
  destruct (match mode with Sequential => _ | ParallelLayers => _ end) as [[values|e1] w1];
    simpl; [|intros [= <- _]; done].
  destruct (collect_inputs_available VArray es g values END Hwf (or_intror eq_refl)) as [v ->]; [|done].
  intros s Hs%inputs_of_elem. apply Hrun. by eapply (gw_source _ _ Hwf).
Qed.
End runs.

(** ** Stateless nodes *)

Section stateless.
Context {Value W : Type} (VArray : list Value → Value).
Context (cancelled is_expired : W → bool).
Context (on_node_start on_node_end : rstr → W → W) (on_node_error : rstr → AiError → W → W).
Abbreviation Node := (Value → W → result AiError Value * W).
Context (es : list edge) (g : CompiledGraph Node) (Hwf : graph_wf es g).

(** Each node's answer depends on its input only. *)
Definition stateless : Prop :=
  ∀ name node input w w', cg_nodes g !! name = Some node → (node input w).1 = (node input w').1.
(** The request is neither cancelled nor expired while it runs. *)
Definition live : Prop := ∀ w, check_context cancelled is_expired w = Ok tt.

Context (Hstateless : stateless) (Hlive : live).
Abbreviation exec_node :=
  (execute_node VArray cancelled is_expired on_node_start on_node_end on_node_error g).

(** What a node gives on the values computed so far. *)
Definition node_value (w0 : W) (values : gmap rstr Value) (name : rstr) : result AiError Value :=
  (exec_node name values None w0).1.

Lemma execute_node_pure name values w w' : (exec_node name values None w).1 = node_value w' values name.
Proof.
  unfold node_value, execute_node. rewrite !Hlive.
  destruct (collect_inputs VArray name (incoming g) values) as [v|e]; [|done].
  destruct (cg_nodes g !! name) as [node|] eqn:En; [|done].
  pose proof (Hstateless name node v (on_node_start name w) (on_node_start name w') En) as Heq.
  destruct (node v (on_node_start name w)) as [r1 w1], (node v (on_node_start name w')) as [r2 w2].
  simpl in Heq. subst r2. destruct r1; [|done]. by rewrite !Hlive.
Qed.

Lemma node_value_ext w0 values values' name :
  name ∈ topology g → (∀ s, s ∈ inputs_of es name → values !! s = values' !! s) →
  node_value w0 values name = node_value w0 values' name.
Proof.
  intros Hn Hv. unfold node_value, execute_node. rewrite !Hlive.
  by rewrite (collect_inputs_ext VArray es g values values' name Hwf (or_introl Hn) Hv).
Qed.

(** The nodes in order, without the world. *)
Fixpoint eval_nodes (w0 : W) (names : list rstr) (values : gmap rstr Value)
    : result AiError (gmap rstr Value) :=
  match names with
  | [] => Ok values
  | name :: names' => o ← node_value w0 values name; eval_nodes w0 names' (<[name := o]> values)
  end.

Lemma eval_nodes_app w0 l1 l2 values :
  eval_nodes w0 (l1 ++ l2) values = values' ← eval_nodes w0 l1 values; eval_nodes w0 l2 values'.
Proof.
  revert values. induction l1 as [|n l1 IH]; intros values; simpl; [done|].
  destruct (node_value w0 values n); simpl; [apply IH|done].
Qed.

Lemma run_sequential_pure w0 names values w :
  (run_sequential VArray cancelled is_expired on_node_start on_node_end on_node_error
     g names values w).1 = eval_nodes w0 names values.
Proof.
  revert values w. induction names as [|n names IH]; intros values w; simpl; [done|].
  rewrite <- (execute_node_pure n values w w0).
  destruct (exec_node n values None w) as [[o|e] w1]; simpl; [apply IH|done].
Qed.

Lemma execute_layer_pure w0 layer values w :
  (execute_layer VArray cancelled is_expired on_node_start on_node_end on_node_error
     g layer values w).1 = (λ n, (n, node_value w0 values n)) <$> layer.
Proof.
  revert w. induction layer as [|n layer IH]; intros w; simpl; [done|].
  rewrite <- (execute_node_pure n values w w0).
  destruct (exec_node n values None w) as [r w1]. specialize (IH w1).
  destruct (execute_layer _ _ _ _ _ _ _ _ _ _) as [os w2]. simpl in *. by rewrite IH.
Qed.

(** A layer's outputs, computed together or one after the other. *)
Lemma layer_pure w0 values0 rest values :
  (∀ n, n ∈ rest → n ∈ topology g ∧ ∀ s, s ∈ inputs_of es n → s ∉ rest ∧ values0 !! s = values !! s) →
  NoDup rest →
  insert_outputs ((λ n, (n, node_value w0 values0 n)) <$> rest) values = eval_nodes w0 rest values.
Proof.
  intros Hin HN. revert values Hin. induction HN as [|n rest Hn HN IH]; intros values Hin; [done|].
  cbn [fmap list_fmap insert_outputs eval_nodes].
  destruct (Hin n) as [Ht Hs]; [by left|].
  rewrite (node_value_ext w0 values0 values n Ht); [|intros s Hsn; by destruct (Hs s Hsn)].
  destruct (node_value w0 values n) as [o|e]; simpl; [|done]. apply IH. intros m Hm.
  destruct (Hin m) as [Htm Hsm]; [by right|]. split; [done|]. intros s Hsi.
  destruct (Hsm s Hsi) as [Hnot Heq]. apply not_elem_of_cons in Hnot as [Hne Hnot].
  split; [done|]. by rewrite lookup_insert_ne.
Qed.

Lemma run_layers_pure w0 i values w :
  (run_layers VArray cancelled is_expired on_node_start on_node_end on_node_error
     g (drop i (layers g)) values w).1 = eval_nodes w0 (concat (drop i (layers g))) values.
Proof.
  remember (drop i (layers g)) as ls eqn:Els. revert i values w Els.
  induction ls as [|layer ls IH]; intros i values w Els; cbn [run_layers concat]; [done|].
  assert (layers g !! i = Some layer) as Hi by (by rewrite <- (Nat.add_0_r i), <- lookup_drop, <- Els).
  rewrite Hlive, eval_nodes_app, <- (layer_pure w0 values layer values).
  - rewrite <- (execute_layer_pure w0 layer values w).
    destruct (execute_layer _ _ _ _ _ _ _ _ _ _) as [os w1]. simpl.
    destruct (insert_outputs os values) as [values'|e]; simpl; [|done].
    apply (IH (S i)). by rewrite <- Nat.add_1_r, <- drop_drop, <- Els.
  - intros n Hn. split.
    + rewrite (gw_topology _ _ Hwf). apply elem_of_concat. exists layer.
      split; [by eapply list_elem_of_lookup_2|done].
    + intros s Hs. split; [|done]. by eapply (layer_inputs es g Hwf).
  - pose proof (gw_nodup _ _ Hwf) as HN. rewrite (gw_topology _ _ Hwf) in HN.
    rewrite <- (take_drop_middle _ _ _ Hi), concat_app in HN. simpl in HN.
    by apply NoDup_app in HN as (_ & _ & [? _]%NoDup_app).
Qed.

(** The value a graph computes. *)
Definition graph_value (w0 : W) (input : Value) : result AiError Value :=
  values ← eval_nodes w0 (topology g) (START_VALUE input); collect_inputs VArray END (incoming g) values.

Lemma invoke_pure input mode w w0 :
  (invoke_with_mode VArray cancelled is_expired on_node_start on_node_end on_node_error
     g input mode w).1 = graph_value w0 input.
Proof.
  unfold invoke_with_mode, graph_value. rewrite Hlive. destruct mode.
  - rewrite <- (run_sequential_pure w0 _ _ w). by destruct (run_sequential _ _ _ _ _ _ _ _ _ _).
  - pose proof (run_layers_pure w0 0 (START_VALUE input) w) as Hr. rewrite drop_0 in Hr.
    rewrite (gw_topology _ _ Hwf), <- Hr. by destruct (run_layers _ _ _ _ _ _ _ _ _ _).
Qed.
End stateless.

(** ** The event stream and the run it reports *)

Definition completed_nodes {Value} (events : list (WorkflowEvent Value)) : list (rstr * Value) :=
  omap (λ e, match e with NodeCompleted _ n o => Some (n, o) | _ => None end) events.
Definition started_nodes {Value} (events : list (WorkflowEvent Value)) : list rstr :=
  omap (λ e, match e with NodeStarted _ n => Some n | _ => None end) events.
(** The values after some completions. *)
Definition add_values {Value} (completed : list (rstr * Value)) (values : gmap rstr Value) : gmap rstr Value :=
  foldl (λ m no, <[no.1 := no.2]> m) values completed.

Section streams.
Context {Value W : Type} (VArray : list Value → Value).
Context (cancelled is_expired : W → bool).
Context (on_node_start on_node_end : rstr → W → W) (on_node_error : rstr → AiError → W → W).
Context (g : CompiledGraph (Value → W → result AiError Value * W)) (run_id : rstr).

Lemma stream_sequential_spec names values w :
  let '(events, r, w1) :=
    stream_sequential VArray cancelled is_expired on_node_start on_node_end on_node_error g run_id names values w in
  run_sequential VArray cancelled is_expired on_node_start on_node_end on_node_error g names values w = (r, w1) ∧
  ∀ values', r = Ok values' → started_nodes events = names ∧ (completed_nodes events).*1 = names ∧
    values' = add_values (completed_nodes events) values.
Proof.
  revert values w. induction names as [|n names IH]; intros values w; cbn [stream_sequential run_sequential].
  { split; [done|]. by intros ? [= <-]. }
  destruct (execute_node _ _ _ _ _ _ g n values None w) as [[o|e] w1]; [|done].
  specialize (IH (<[n:=o]> values) w1).
  destruct (stream_sequential _ _ _ _ _ _ g run_id names (<[n:=o]> values) w1) as [[events r] w2].
  destruct IH as [-> IH]. split; [done|]. intros values' ->. destruct (IH values' eq_refl) as (H1 & H2 & H3).
  split_and!; [by rewrite <- H1|by rewrite <- H2|done].
Qed.

Lemma layer_events_spec (outputs : list (rstr * result AiError Value)) values values' :
  insert_outputs outputs values = Ok values' →
  (completed_nodes (layer_events run_id outputs)).*1 = outputs.*1 ∧
  started_nodes (layer_events run_id outputs) = [] ∧
  values' = add_values (completed_nodes (layer_events run_id outputs)) values.
Proof.
  revert values. induction outputs as [|[n [o|e]] outputs IH]; intros values; simpl; [|intros Hi|done].
  - intros [= <-]. done.
  - destruct (IH _ Hi) as (H1 & H2 & H3). split_and!; [exact (f_equal (cons n) H1)|done..].
Qed.

Lemma stream_layers_spec ls values w :
  let '(events, r, w1) :=
    stream_layers VArray cancelled is_expired on_node_start on_node_end on_node_error g run_id ls values w in
  run_layers VArray cancelled is_expired on_node_start on_node_end on_node_error g ls values w = (r, w1) ∧
  ∀ values', r = Ok values' → started_nodes events = concat ls ∧ (completed_nodes events).*1 = concat ls ∧
    values' = add_values (completed_nodes events) values.
Proof.
  revert values w. induction ls as [|layer ls IH]; intros values w; cbn [stream_layers run_layers].
  { split; [done|]. by intros ? [= <-]. }
  destruct (check_context cancelled is_expired w); [|done].
  pose proof (execute_layer_fst VArray cancelled is_expired on_node_start on_node_end on_node_error
    g layer values w) as Hfst.
  destruct (execute_layer _ _ _ _ _ _ g layer values w) as [outputs w1]. simpl in Hfst.
  destruct (insert_outputs outputs values) as [values1|e] eqn:Ei; [|done].
  specialize (IH values1 w1).
  destruct (stream_layers _ _ _ _ _ _ g run_id ls values1 w1) as [[events r] w2].
  destruct IH as [-> IH]. split; [done|]. intros values' ->. destruct (IH values' eq_refl) as (H1 & H2 & ->).
  destruct (layer_events_spec _ _ _ Ei) as (H4 & H5 & ->). unfold started_nodes, completed_nodes, add_values in *.
  rewrite !omap_app, H1, H5, !fmap_app, H2, H4, !foldl_app, Hfst. cbn [concat].
  assert (omap (λ e : WorkflowEvent Value, match e with NodeStarted _ n => Some n | _ => None end)
    (NodeStarted run_id <$> layer) = layer) as ->.
  { clear. induction layer as [|n l IH]; [done|]. exact (f_equal (cons n) IH). }
  assert (omap (λ e : WorkflowEvent Value, match e with NodeCompleted _ n o => Some (n, o) | _ => None end)
    (NodeStarted run_id <$> layer) = []) as ->.
  { clear. by induction layer as [|n l IH]. }
  by rewrite app_nil_r.
Qed.

End streams.

Lemma stream_end {Value W : Type} (VArray : list Value → Value) (inc : gmap rstr (list rstr)) (run_id : rstr)
    (mode : WorkflowExecutionMode) (events : list (WorkflowEvent Value))
    (r : result AiError (gmap rstr Value)) (values0 : gmap rstr Value) (order : list rstr) (w : W) :
  (∀ values', r = Ok values' → started_nodes events = order ∧ (completed_nodes events).*1 = order ∧
    values' = add_values (completed_nodes events) values0) →
  let '(events', r1, w1) :=
    match values ← r; collect_inputs VArray END inc values with
    | Err e => (RunStarted run_id mode :: events, Err e, w)
    | Ok output => (RunStarted run_id mode :: events ++ [RunCompleted run_id output], Ok tt, w)
    end in
  w1 = w ∧
  match values ← r; collect_inputs VArray END inc values with
  | Err e => r1 = Err e
  | Ok v => r1 = Ok tt ∧ head events' = Some (RunStarted run_id mode) ∧
      last events' = Some (RunCompleted run_id v) ∧
      started_nodes events' = order ∧ (completed_nodes events').*1 = order ∧
      collect_inputs VArray END inc (add_values (completed_nodes events') values0) = Ok v
  end.
Proof.
  intros Hr. destruct r as [values|e]; simpl; [|done].
  destruct (Hr values eq_refl) as (H1 & H2 & ->).
  destruct (collect_inputs _ _ _ _) as [v|e] eqn:Ec; [|done].
  assert (∀ l, completed_nodes (RunStarted run_id mode :: l ++ [RunCompleted run_id v]) = completed_nodes l) as Hc.
  { intros l. unfold completed_nodes. simpl. by rewrite omap_app, app_nil_r. }
  assert (∀ l, started_nodes (Value := Value) (RunStarted run_id mode :: l ++ [RunCompleted run_id v]) = started_nodes l) as Hst.
  { intros l. unfold started_nodes. simpl. by rewrite omap_app, app_nil_r. }
  rewrite Hc, Hst. split_and!; try done. by rewrite app_comm_cons, last_snoc.
Qed.

(** ** Properties *)

(** C8: a compiled graph never fails on its own wiring. Whatever its nodes do,
    in either mode, [invoke_with_mode] answers an error only if the request was
    cancelled or expired or a node answered that error: no input is ever
    missing and no node is unknown. *)
Theorem invoke_no_wiring_error {Value W} (VArray : list Value → Value) (cancelled is_expired : W → bool)
    on_node_start on_node_end on_node_error (b : GraphBuilder (Value → W → result AiError Value * W))
    g input mode w e w' :
  built b → compile b = Some (Ok g) →
  invoke_with_mode VArray cancelled is_expired on_node_start on_node_end on_node_error
    g input mode w = (Err e, w') →
  e = Cancelled ∨ e = DeadlineExceeded ∨
  ∃ name node v w0, gb_nodes b !! name = Some node ∧ (node v w0).1 = Err e.
Proof.
  intros Hb Hc Hi. destruct (compile_spec b (built_names b Hb)) as (r & Hr & _ & Hwf).
  rewrite Hc in Hr. destruct (Hwf g) as [Hg Hn]; [congruence|].
  rewrite <- Hn. by eapply (invoke_wired VArray cancelled is_expired _ _ _ _ _ Hg).
Qed.

(** C9: layer-parallel and sequential execution agree. For a compiled graph of
    stateless nodes and a live request, both modes give the same result, value
    or error, from any worlds. *)
Theorem invoke_modes_agree {Value W} (VArray : list Value → Value) (cancelled is_expired : W → bool)
    on_node_start on_node_end on_node_error (b : GraphBuilder (Value → W → result AiError Value * W))
    g input w w' :
  built b → compile b = Some (Ok g) → stateless g → live cancelled is_expired →
  (invoke_with_mode VArray cancelled is_expired on_node_start on_node_end on_node_error
     g input ParallelLayers w).1 =
  (invoke_with_mode VArray cancelled is_expired on_node_start on_node_end on_node_error
     g input Sequential w').1.
Proof.
  intros Hb Hc Hs Hl. destruct (compile_spec b (built_names b Hb)) as (r & Hr & _ & Hwf).
  rewrite Hc in Hr. destruct (Hwf g) as [Hg _]; [congruence|].
  by rewrite !(invoke_pure VArray cancelled is_expired _ _ _ _ g Hg Hs Hl _ _ _ w).
Qed.

(** C10: the event stream reports the run it makes. In either mode [stream] leaves
    the world as [invoke_with_mode] does and ends with its error or, after one
    start and one completion for every node in the order of the topology, with
    its output; the completions carry the values the run computed, from which
    the output is collected. *)
Theorem stream_reports_run {Value W} (VArray : list Value → Value) (cancelled is_expired : W → bool)
    on_node_start on_node_end on_node_error (g : CompiledGraph (Value → W → result AiError Value * W))
    run_id input mode w :
  let order := match mode with Sequential => topology g | ParallelLayers => concat (layers g) end in
  let '(events, r, w1) := CompiledGraph_stream VArray cancelled is_expired
    on_node_start on_node_end on_node_error g run_id input mode w in
  let '(r', w2) := invoke_with_mode VArray cancelled is_expired
    on_node_start on_node_end on_node_error g input mode w in
  w1 = w2 ∧
  match r' with
  | Err e => r = Err e
  | Ok v => r = Ok tt ∧ head events = Some (RunStarted run_id mode) ∧
      last events = Some (RunCompleted run_id v) ∧
      started_nodes events = order ∧ (completed_nodes events).*1 = order ∧
      collect_inputs VArray END (incoming g) (add_values (completed_nodes events) (START_VALUE input)) = Ok v
  end.
Proof.
  unfold CompiledGraph_stream, invoke_with_mode. cbv zeta.
  destruct (check_context cancelled is_expired w); [|done].
  pose proof (stream_sequential_spec VArray cancelled is_expired on_node_start on_node_end on_node_error
    g run_id (topology g) (START_VALUE input) w) as Hseq.
  pose proof (stream_layers_spec VArray cancelled is_expired on_node_start on_node_end on_node_error
    g run_id (layers g) (START_VALUE input) w) as Hpar.
  destruct mode.
  - destruct (stream_sequential _ _ _ _ _ _ g run_id _ _ w) as [[events r] w1]. destruct Hseq as [-> Hs].
    by apply stream_end.
  - destruct (stream_layers _ _ _ _ _ _ g run_id _ _ w) as [[events r] w1]. destruct Hpar as [-> Hs].
    by apply stream_end.
Qed.

(** ** Witnesses *)

(** Two nodes side by side between START and END; the second fails on input 0. *)
Inductive ex_json := ExNum (n : N) | ExArray (l : list ex_json).

Definition ex_left (v : ex_json) (w : N) : result AiError ex_json * N := (Ok (ExArray [v; v]), w + 1).
Definition ex_right (v : ex_json) (w : N) : result AiError ex_json * N :=
  match v with ExNum 0 => (Err (Internal (lit "zero")), w) | _ => (Ok v, w) end.

Definition ok_value {E A} (d : A) (r : result E A) : A := match r with Ok a => a | Err _ => d end.

Definition ex_b1 := ok_value GraphBuilder_new (add_node GraphBuilder_new (lit " left ") ex_left).
Definition ex_b2 := ok_value GraphBuilder_new (add_node ex_b1 (lit "right") ex_right).
Definition ex_b3 := ok_value GraphBuilder_new (add_edge ex_b2 START (lit "left")).
Definition ex_b4 := ok_value GraphBuilder_new (add_edge ex_b3 START (lit "right")).
Definition ex_b5 := ok_value GraphBuilder_new (add_edge ex_b4 (lit "left") END).
Definition ex_b6 := ok_value GraphBuilder_new (add_edge ex_b5 (lit "right") END).

Lemma ex_built : built ex_b6.
Proof.
  apply (built_edge ex_b5 (lit "right") END); [|vm_compute; reflexivity].
  apply (built_edge ex_b4 (lit "left") END); [|vm_compute; reflexivity].
  apply (built_edge ex_b3 START (lit "right")); [|vm_compute; reflexivity].
  apply (built_edge ex_b2 START (lit "left")); [|vm_compute; reflexivity].
  apply (built_node ex_b1 (lit "right") ex_right); [|vm_compute; reflexivity].
  apply (built_node GraphBuilder_new (lit " left ") ex_left); [apply built_new|vm_compute; reflexivity].
Qed.

Definition ex_compiled : CompiledGraph (ex_json → N → result AiError ex_json * N) :=
  {| cg_nodes := gb_nodes ex_b6; incoming := incoming_edges (gb_nodes ex_b6) (gb_edges ex_b6);
     topology := [lit "left"; lit "right"]; layers := [[lit "left"; lit "right"]] |}.

Lemma ex_compile : compile ex_b6 = Some (Ok ex_compiled).
Proof. vm_compute. reflexivity. Qed.

Lemma ex_nodes name node :
  cg_nodes ex_compiled !! name = Some node → node = ex_left ∨ node = ex_right.
Proof.
  change (cg_nodes ex_compiled) with (<[lit "right" := ex_right]> (<[lit "left" := ex_left]> (∅ : gmap rstr _))).
  rewrite !lookup_insert, lookup_empty. repeat case_decide; intros; simplify_eq; auto.
Qed.

Lemma invoke_no_wiring_error_witness :
  Internal (lit "zero") = Cancelled ∨ Internal (lit "zero") = DeadlineExceeded ∨
  ∃ name node v w0, gb_nodes ex_b6 !! name = Some node ∧ (node v w0).1 = Err (Internal (lit "zero")).
Proof.
  exact (invoke_no_wiring_error ExArray (λ _, false) (λ _, false) (λ _ w, w) (λ _ w, w) (λ _ _ w, w)
    ex_b6 ex_compiled (ExNum 0) ParallelLayers 5 _ 6 ex_built ex_compile
    ltac:(vm_compute; reflexivity)).
Defined.

Lemma invoke_modes_agree_witness :
  (invoke_with_mode ExArray (λ _, false) (λ _, false) (λ _ w, w) (λ _ w, w) (λ _ _ w, w)
     ex_compiled (ExNum 3) ParallelLayers 0).1 = Ok (ExArray [ExArray [ExNum 3; ExNum 3]; ExNum 3]).
Proof.
  rewrite (invoke_modes_agree ExArray (λ _, false) (λ _, false) (λ _ w, w) (λ _ w, w) (λ _ _ w, w)
    ex_b6 ex_compiled (ExNum 3) 0 9 ex_built ex_compile).
  - vm_compute. reflexivity.
  - intros name node v w w' Hn. apply ex_nodes in Hn as [-> | ->]; [reflexivity|].
    destruct v as [[|]|]; reflexivity.
  - intros w. reflexivity.
Defined.
