(* ===== verification/Runner.v ===== *)
(** * Checkpointed workflow runs (crates/roze-ai/src/compose.rs)

    [WorkflowRunner]: a run of a compiled graph whose progress is saved after
    every node, that stops before the nodes marked for review and goes on when
    it is resumed. [CheckpointStore] is a type class; its laws say what the
    runner relies on, and [MemoryCheckpointStore] is an instance. The store is
    a state of its own next to the world [W] of Workflow.v; [run_id] stands for
    the fresh identifier [Uuid::now_v7] gives. *)

From S2P Require Import Prelude Text Graph Workflow.

Record WorkflowCheckpoint (Value : Type) :=
  { ck_version : N; ck_run_id : rstr; ck_graph_revision : rstr; ck_tenant : option rstr;
    ck_subject : option rstr; next_node_index : nat; ck_values : gmap rstr Value;
    interrupted_before : option rstr }.
Arguments ck_version {Value}. Arguments ck_run_id {Value}. Arguments ck_graph_revision {Value}.
Arguments ck_tenant {Value}. Arguments ck_subject {Value}. Arguments next_node_index {Value}.
Arguments ck_values {Value}. Arguments interrupted_before {Value}.

(** ** The store *)

Class CheckpointStore (Value W S : Type) :=
  { ck_load : W → rstr → S → result AiError (option (WorkflowCheckpoint Value)) * S;
    ck_save : W → WorkflowCheckpoint Value → S → result AiError unit * S;
    ck_delete : W → rstr → S → result AiError unit * S }.

(** What the runner relies on: [stored] is the store's content. A call that
    fails may still have written. *)
Class CheckpointStoreLaws (Value W S : Type) `{CheckpointStore Value W S} :=
  { stored : S → gmap rstr (WorkflowCheckpoint Value);
    load_law w id s : stored (ck_load w id s).2 = stored s ∧
      ∀ o, (ck_load w id s).1 = Ok o → o = stored s !! id;
    save_law w c s : let s' := (ck_save w c s).2 in
      stored s' = <[ck_run_id c := c]> (stored s) ∨
      (is_ok (ck_save w c s).1 = false ∧ stored s' = stored s);
    delete_law w id s : let s' := (ck_delete w id s).2 in
      stored s' = delete id (stored s) ∨
      (is_ok (ck_delete w id s).1 = false ∧ stored s' = stored s) }.

Definition MemoryCheckpointStore (Value : Type) : Type := gmap rstr (WorkflowCheckpoint Value).
Definition MemoryCheckpointStore_new {Value} : MemoryCheckpointStore Value := ∅.
Definition MemoryCheckpointStore_load {Value} (run_id : rstr) (s : MemoryCheckpointStore Value)
    : result AiError (option (WorkflowCheckpoint Value)) * MemoryCheckpointStore Value :=
  (Ok (s !! run_id), s).
Definition MemoryCheckpointStore_save {Value} (c : WorkflowCheckpoint Value)
    (s : MemoryCheckpointStore Value) : result AiError unit * MemoryCheckpointStore Value :=
  (Ok tt, <[ck_run_id c := c]> s).
Definition MemoryCheckpointStore_delete {Value} (run_id : rstr) (s : MemoryCheckpointStore Value)
    : result AiError unit * MemoryCheckpointStore Value :=
  (Ok tt, delete run_id s).

#[export] Instance memory_store {Value W} : CheckpointStore Value W (MemoryCheckpointStore Value) :=
  { ck_load _ := MemoryCheckpointStore_load; ck_save _ := MemoryCheckpointStore_save;
    ck_delete _ := MemoryCheckpointStore_delete }.
#[export] Program Instance memory_store_laws {Value W} :
    CheckpointStoreLaws Value W (MemoryCheckpointStore Value) := { stored s := s }.
Next Obligation. intros Value W w id s. split; [done|]. by intros o [= <-]. Qed.
Next Obligation. intros. by left. Qed.
Next Obligation. intros. by left. Qed.

(** ** The runner *)

Record WorkflowInterrupt := { wi_run_id : rstr; before_node : rstr; wi_graph_revision : rstr }.
Inductive WorkflowRunResult (Value : Type) :=
| Completed (run_id : rstr) (output : Value)
| Interrupted (interrupt : WorkflowInterrupt).
Arguments Completed {Value}. Arguments Interrupted {Value}.

Record WorkflowRunner (Node : Type) :=
  { wr_graph : CompiledGraph Node; graph_revision : rstr; interrupt_before : gset rstr }.
Arguments wr_graph {Node}. Arguments graph_revision {Node}. Arguments interrupt_before {Node}.

Definition WorkflowRunner_new {Node} (graph : CompiledGraph Node) (revision : rstr)
    (interrupts : list rstr) : result AiError (WorkflowRunner Node) :=
  match trim revision with
  | [] => Err (InvalidWorkflow (lit "workflow graph revision cannot be empty"))
  | _ =>
      let interrupt_before := list_to_set interrupts : gset rstr in
      _ ← collect (λ name,
             if bool_decide (is_Some (cg_nodes graph !! name)) then Ok tt
             else Err (InvalidWorkflow
                         (quoted (lit "interrupt references missing workflow node ") name [])))
           (bset_iter interrupt_before);
      Ok {| wr_graph := graph; graph_revision := revision; interrupt_before := interrupt_before |}
  end.

Section runner.
Context {Value W S : Type} (VArray : list Value → Value).
Context (cancelled is_expired : W → bool).
Context (on_node_start on_node_end : rstr → W → W) (on_node_error : rstr → AiError → W → W).
Context (tenant subject : W → option rstr).
Context `{CheckpointStore Value W S}.
Abbreviation Node := (Value → W → result AiError Value * W).
Abbreviation outcome := (result AiError (WorkflowRunResult Value) * W * S)%type.

(** The [while] loop of [drive] over [topology[next_node_index..]]. *)
Fixpoint drive_loop (r : WorkflowRunner Node) (names : list rstr) (approved_node : option rstr)
    (checkpoint : WorkflowCheckpoint Value) (resume_input : option Value) (w : W) (s : S) : outcome :=
  match names with
  | [] =>
      match collect_inputs VArray END (incoming (wr_graph r)) (ck_values checkpoint) with
      | Err e => (Err e, w, s)
      | Ok output =>
          match ck_delete w (ck_run_id checkpoint) s with
          | (Err e, s) => (Err e, w, s)
          | (Ok _, s) => (Ok (Completed (ck_run_id checkpoint) output), w, s)
          end
      end
  | name :: names' =>
      match check_context cancelled is_expired w with
      | Err e => (Err e, w, s)
      | Ok _ =>
          let approved := bool_decide (approved_node = Some name) in
          if bool_decide (name ∈ interrupt_before r) && negb approved then
            let checkpoint :=
              {| ck_version := ck_version checkpoint; ck_run_id := ck_run_id checkpoint;
                 ck_graph_revision := ck_graph_revision checkpoint; ck_tenant := ck_tenant checkpoint;
                 ck_subject := ck_subject checkpoint; next_node_index := next_node_index checkpoint;
                 ck_values := ck_values checkpoint; interrupted_before := Some name |} in
            match ck_save w checkpoint s with
            | (Err e, s) => (Err e, w, s)
            | (Ok _, s) =>
                (Ok (Interrupted {| wi_run_id := ck_run_id checkpoint; before_node := name;
                                    wi_graph_revision := graph_revision r |}), w, s)
            end
          else
            let '(input_override, resume_input) :=
              if approved then (resume_input, None) else (None, resume_input) in
            match execute_node VArray cancelled is_expired on_node_start on_node_end on_node_error
                    (wr_graph r) name (ck_values checkpoint) input_override w with
            | (Err e, w) => (Err e, w, s)
            | (Ok output, w) =>
                let checkpoint :=
                  {| ck_version := ck_version checkpoint; ck_run_id := ck_run_id checkpoint;
                     ck_graph_revision := ck_graph_revision checkpoint; ck_tenant := ck_tenant checkpoint;
                     ck_subject := ck_subject checkpoint;
                     next_node_index := Datatypes.S (next_node_index checkpoint);
                     ck_values := <[name := output]> (ck_values checkpoint);
                     interrupted_before := None |} in
                match ck_save w checkpoint s with
                | (Err e, s) => (Err e, w, s)
                | (Ok _, s) => drive_loop r names' approved_node checkpoint resume_input w s
                end
            end
      end
  end.

Definition drive (r : WorkflowRunner Node) (checkpoint : WorkflowCheckpoint Value)
    (resume_input : option Value) (w : W) (s : S) : outcome :=
  drive_loop r (drop (next_node_index checkpoint) (topology (wr_graph r)))
    (interrupted_before checkpoint)
    {| ck_version := ck_version checkpoint; ck_run_id := ck_run_id checkpoint;
       ck_graph_revision := ck_graph_revision checkpoint; ck_tenant := ck_tenant checkpoint;
       ck_subject := ck_subject checkpoint; next_node_index := next_node_index checkpoint;
       ck_values := ck_values checkpoint; interrupted_before := None |}
    resume_input w s.

Definition first_checkpoint (r : WorkflowRunner Node) (run_id : rstr) (input : Value) (w : W)
    : WorkflowCheckpoint Value :=
  {| ck_version := 1; ck_run_id := run_id; ck_graph_revision := graph_revision r;
     ck_tenant := tenant w; ck_subject := subject w; next_node_index := 0;
     ck_values := START_VALUE input; interrupted_before := None |}.

Definition start (r : WorkflowRunner Node) (run_id : rstr) (input : Value) (w : W) (s : S) : outcome :=
  match check_context cancelled is_expired w with
  | Err e => (Err e, w, s)
  | Ok _ =>
      let checkpoint := first_checkpoint r run_id input w in
      match ck_save w checkpoint s with
      | (Err e, s) => (Err e, w, s)
      | (Ok _, s) => drive r checkpoint None w s
      end
  end.

Definition resume (r : WorkflowRunner Node) (run_id : rstr) (resume_input : option Value)
    (w : W) (s : S) : outcome :=
  match check_context cancelled is_expired w with
  | Err e => (Err e, w, s)
  | Ok _ =>
      match ck_load w run_id s with
      | (Err e, s) => (Err e, w, s)
      | (Ok None, s) => (Err (CheckpointNotFound run_id), w, s)
      | (Ok (Some checkpoint), s) =>
          if bool_decide (ck_version checkpoint ≠ 1)
          then (Err (Checkpoint (lit "unsupported checkpoint version " ++ dec (ck_version checkpoint))), w, s)
          else if bool_decide (ck_graph_revision checkpoint ≠ graph_revision r)
          then (Err (CheckpointRevisionMismatch (graph_revision r) (ck_graph_revision checkpoint)), w, s)
          else if bool_decide (ck_tenant checkpoint ≠ tenant w) || bool_decide (ck_subject checkpoint ≠ subject w)
          then (Err CheckpointScopeMismatch, w, s)
          else drive r checkpoint resume_input w s
      end
  end.
End runner.

(** ** A run and the graph it stands for *)

(** The graph in which every node marked for review takes the input its reviewer
    gave ([ov]), where one was given. *)
Definition reviewed {Value W} (r : WorkflowRunner (Value → W → result AiError Value * W))
    (ov : rstr → option Value) : CompiledGraph (Value → W → result AiError Value * W) :=
  {| cg_nodes := map_imap (λ name node,
       Some (if bool_decide (name ∈ interrupt_before r)
             then λ input w, node (default input (ov name)) w else node)) (cg_nodes (wr_graph r));
     incoming := incoming (wr_graph r); topology := topology (wr_graph r); layers := layers (wr_graph r) |}.

Section reviewed_lemmas.
Context {Value W : Type}.
Context (es : list edge) (r : WorkflowRunner (Value → W → result AiError Value * W)).
Context (ov : rstr → option Value).

Lemma reviewed_lookup n : cg_nodes (reviewed r ov) !! n =
  (λ node, if bool_decide (n ∈ interrupt_before r)
           then λ input w, node (default input (ov n)) w else node) <$> cg_nodes (wr_graph r) !! n.
Proof. simpl. rewrite map_lookup_imap. by destruct (cg_nodes (wr_graph r) !! n). Qed.

Lemma reviewed_wf : graph_wf es (wr_graph r) → graph_wf es (reviewed r ov).
Proof.
  intros [Ht HN Hn Hs Hi Hh Hsrc Hst]. split; simpl; try done.
  intros n. rewrite Hn. change (map_imap _ _) with (cg_nodes (reviewed r ov)).
  by rewrite reviewed_lookup, fmap_is_Some.
Qed.

Lemma reviewed_stateless : stateless (wr_graph r) → stateless (reviewed r ov).
Proof.
  intros Hs name node input w w' Hn. rewrite reviewed_lookup in Hn.
  destruct (cg_nodes (wr_graph r) !! name) as [node0|] eqn:E; simplify_eq/=.
  case_bool_decide; by eapply Hs.
Qed.
End reviewed_lemmas.

(** Successful answers of a node on the same input agree; failures are free. *)
Definition repeatable {Value W} (g : CompiledGraph (Value → W → result AiError Value * W)) : Prop :=
  ∀ name node input w w' o o', cg_nodes g !! name = Some node →
    (node input w).1 = Ok o → (node input w').1 = Ok o' → o = o'.

Lemma reviewed_repeatable {Value W} (r : WorkflowRunner (Value → W → result AiError Value * W)) ov :
  repeatable (wr_graph r) → repeatable (reviewed r ov).
Proof.
  intros Hs name node input w w' o o' Hn. rewrite reviewed_lookup in Hn.
  destruct (cg_nodes (wr_graph r) !! name) as [node0|] eqn:E; simplify_eq/=.
  case_bool_decide; by eapply Hs.
Qed.

Section computed.
Context {Value W : Type} (VArray : list Value → Value).
Context (cancelled is_expired : W → bool).
Context (on_node_start on_node_end : rstr → W → W) (on_node_error : rstr → AiError → W → W).
Abbreviation exec_node :=
  (execute_node VArray cancelled is_expired on_node_start on_node_end on_node_error).
Context (g : CompiledGraph (Value → W → result AiError Value * W)) (input : Value).

(** [values] comes from executing the nodes of [pre] one by one, at any worlds. *)
Inductive computed : list rstr → gmap rstr Value → Prop :=
| computed_nil : computed [] (START_VALUE input)
| computed_snoc pre name values w output w' :
    computed pre values → exec_node g name values None w = (Ok output, w') →
    computed (pre ++ [name]) (<[name := output]> values).

Lemma computed_available pre values s :
  computed pre values → s = START ∨ s ∈ pre → is_Some (values !! s).
Proof.
  intros Hc. revert s. induction Hc as [|pre n values w o w' _ IH _]; intros s Hs.
  - destruct Hs as [->|Hs%not_elem_of_nil]; [|done]. unfold START_VALUE.
    rewrite lookup_singleton_eq. by eexists.
  - rewrite elem_of_app, list_elem_of_singleton in Hs.
    destruct (decide (n = s)) as [->|Hne]; [rewrite lookup_insert_eq; by eexists|].
    rewrite lookup_insert_ne by done. apply IH. naive_solver.
Qed.

Lemma computed_fun pre values values' :
  repeatable g → computed pre values → computed pre values' → values = values'.
Proof.
  intros Hrep Hc. revert values'. induction Hc as [|pre n values w o w' _ IH He]; intros values' Hc'.
  - inversion Hc' as [|p ? ? ? ? ? ? ? Heq]; [done|]. by destruct p.
  - inversion Hc' as [Heq|pre' n' values1 w1 o1 w1' Hc1 He1 Heq Hv]; [by destruct pre|].
    apply app_inj_tail in Heq as [-> ->]. apply IH in Hc1. subst. f_equal.
    unfold execute_node in He, He1.
    destruct (check_context _ _ w) as [[]|]; [|done]. destruct (check_context _ _ w1) as [[]|]; [|done].
    destruct (collect_inputs VArray n (incoming g) values1) as [v|]; [|done].
    destruct (cg_nodes g !! n) as [node|] eqn:En; [|done].
    destruct (node v (on_node_start n w)) as [[o2|] w2] eqn:E2; [|done].
    destruct (node v (on_node_start n w1)) as [[o3|] w3] eqn:E3; [|done].
    assert (o2 = o3) as -> by (eapply (Hrep n node v); [done|by rewrite E2|by rewrite E3]).
    repeat case_match; by simplify_eq.
Qed.

Lemma computed_run names pre values w values' w' :
  computed pre values →
  run_sequential VArray cancelled is_expired on_node_start on_node_end on_node_error
    g names values w = (Ok values', w') → computed (pre ++ names) values'.
Proof.
  revert pre values w. induction names as [|n names IH]; intros pre values w Hc; cbn [run_sequential].
  - intros [= <- <-]. by rewrite app_nil_r.
  - destruct (exec_node g n values None w) as [[o|e] w1] eqn:E; [|done].
    intros Hr. rewrite cons_middle, app_assoc. eapply IH; [|done]. by econstructor.
Qed.

Lemma computed_eval w0 pre values :
  stateless g → live cancelled is_expired → computed pre values →
  eval_nodes VArray cancelled is_expired on_node_start on_node_end on_node_error
    g w0 pre (START_VALUE input) = Ok values.
Proof.
  intros Hs Hl. induction 1 as [|pre n values w o w' _ IH He]; [done|].
  rewrite eval_nodes_app, IH. simpl.
  rewrite <- (execute_node_pure VArray cancelled is_expired on_node_start on_node_end on_node_error
    g Hs Hl n values w w0), He. done.
Qed.
End computed.

(** ** One drive *)

Section drives.
Context {Value W S : Type} (VArray : list Value → Value).
Context (cancelled is_expired : W → bool).
Context (on_node_start on_node_end : rstr → W → W) (on_node_error : rstr → AiError → W → W).
Context (tenant subject : W → option rstr).
Context `{CheckpointStoreLaws Value W S}.
Context (es : list edge) (r : WorkflowRunner (Value → W → result AiError Value * W)).
Context (Hwf : graph_wf es (wr_graph r)) (ov : rstr → option Value) (id : rstr) (input : Value).
Abbreviation g := (wr_graph r).
Abbreviation ib := (interrupt_before r).
Abbreviation exec_node :=
  (execute_node VArray cancelled is_expired on_node_start on_node_end on_node_error).
Abbreviation computed_by :=
  (computed VArray cancelled is_expired on_node_start on_node_end on_node_error (reviewed r ov) input).
Abbreviation loop :=
  (drive_loop VArray cancelled is_expired on_node_start on_node_end on_node_error r).

(** A saved checkpoint of the run: the values of the first [next_node_index]
    nodes, stopped before the next node or not stopped. *)
Record progress (ck : WorkflowCheckpoint Value) : Prop :=
  { pr_id : ck_run_id ck = id;
    pr_next : (next_node_index ck ≤ length (topology g))%nat;
    pr_values : computed_by (take (next_node_index ck) (topology g)) (ck_values ck);
    pr_stop : ∀ n, interrupted_before ck = Some n →
      topology g !! next_node_index ck = Some n ∧ n ∈ ib }.

Definition saved (s : S) : Prop := ∀ ck, stored s !! id = Some ck → progress ck.

(** How a run fails: the request or the store fails, or a node does on the
    values of the nodes before it. *)
Inductive fails (e : AiError) : Prop :=
| fails_context w : check_context cancelled is_expired w = Err e → fails e
| fails_store w c s : (ck_save w c s).1 = Err e ∨ (ck_delete w id s).1 = Err e ∨
    (ck_load w id s).1 = Err e → fails e
| fails_node pre n post values w w' : topology g = pre ++ n :: post → computed_by pre values →
    exec_node (reviewed r ov) n values None w = (Err e, w') → fails e.

Lemma computed_inputs pre n post values :
  topology g = pre ++ n :: post → computed_by pre values →
  ∃ v, collect_inputs VArray n (incoming g) values = Ok v.
Proof.
  intros Ht Hc. apply (collect_inputs_available VArray es g values n Hwf).
  - left. rewrite Ht. apply elem_of_app. right. by left.
  - intros s Hs. eapply computed_available; [done|].
    by destruct (topology_inputs es g Hwf pre n post s Ht Hs) as [?|?]; [left|right].
Qed.

Lemma computed_output values :
  computed_by (topology g) values → ∃ v, collect_inputs VArray END (incoming g) values = Ok v.
Proof.
  intros Hc. apply (collect_inputs_available VArray es g values END Hwf); [by right|].
  intros s Hs%inputs_of_elem. eapply computed_available; [done|]. by eapply (gw_source _ _ Hwf).
Qed.

Lemma execute_reviewed pre n post values w :
  topology g = pre ++ n :: post → computed_by pre values →
  exec_node g n values (if bool_decide (n ∈ ib) then ov n else None) w =
  exec_node (reviewed r ov) n values None w.
Proof.
  intros Ht Hc. destruct (computed_inputs pre n post values Ht Hc) as [v Hv].
  unfold execute_node. rewrite reviewed_lookup. simpl. rewrite Hv.
  destruct (check_context _ _ w); [|done].
  assert (is_Some (cg_nodes g !! n)) as [node ->].
  { apply (gw_nodes _ _ Hwf). rewrite Ht. apply elem_of_app. right. by left. }
  simpl. case_bool_decide; [|done]. by destruct (ov n).
Qed.

Lemma save_spec w c s u s' : ck_save w c s = (Ok u, s') → stored s' = <[ck_run_id c := c]> (stored s).
Proof. intros He. pose proof (save_law w c s) as Hl. rewrite He in Hl. by destruct Hl as [?|[? _]]. Qed.

Lemma save_saved w c s r0 s' : ck_save w c s = (r0, s') → progress c → saved s → saved s'.
Proof.
  intros He Hp Hs ck Hck. pose proof (save_law w c s) as Hl. rewrite He in Hl. simpl in Hl.
  destruct Hl as [Hl|[_ Hl]]; rewrite Hl in Hck; [|by apply Hs].
  rewrite (pr_id _ Hp), lookup_insert_eq in Hck. by simplify_eq.
Qed.

Lemma delete_saved w s r0 s' : ck_delete w id s = (r0, s') → saved s → saved s'.
Proof.
  intros He Hs ck Hck. pose proof (delete_law w id s) as Hl. rewrite He in Hl. simpl in Hl.
  destruct Hl as [Hl|[_ Hl]]; rewrite Hl in Hck; [by rewrite lookup_delete_eq in Hck|by apply Hs].
Qed.

(** What a drive from [pre] over [names] ends with. *)
Definition drive_outcome (meta : WorkflowCheckpoint Value) (pre names : list rstr)
    (approved : option rstr) (res : result AiError (WorkflowRunResult Value)) (s' : S) : Prop :=
  match res with
  | Err e => fails e
  | Ok (Completed id' v) =>
      id' = id ∧ stored s' !! id = None ∧ (∀ n, n ∈ names → n ∈ ib → approved = Some n) ∧
      ∃ values, computed_by (topology g) values ∧
        collect_inputs VArray END (incoming g) values = Ok v
  | Ok (Interrupted i) =>
      i = {| wi_run_id := id; before_node := before_node i; wi_graph_revision := graph_revision r |} ∧
      ∃ skip post ck, names = skip ++ before_node i :: post ∧ before_node i ∈ ib ∧
        approved ≠ Some (before_node i) ∧ (∀ n, n ∈ skip → n ∈ ib → approved = Some n) ∧
        stored s' !! id = Some ck ∧ next_node_index ck = length (pre ++ skip) ∧
        interrupted_before ck = Some (before_node i) ∧
        ck_version ck = ck_version meta ∧ ck_graph_revision ck = ck_graph_revision meta ∧
        ck_tenant ck = ck_tenant meta ∧ ck_subject ck = ck_subject meta
  end.

Lemma drive_loop_spec names pre approved ck inp w s :
  topology g = pre ++ names → next_node_index ck = length pre → ck_run_id ck = id →
  computed_by pre (ck_values ck) → saved s →
  (∀ n, approved = Some n → n ∈ pre ∨ (head names = Some n ∧ n ∈ ib ∧ inp = ov n)) →
  let '(res, w', s') := loop names approved ck inp w s in
  saved s' ∧ drive_outcome ck pre names approved res s'.
Proof.
  revert pre ck inp w s. induction names as [|n names IH]; intros pre ck inp w s Ht Hnext Hid Hc Hs Ha;
    cbn [drive_loop].
  { rewrite app_nil_r in Ht. rewrite <- Ht in Hc.
    destruct (computed_output _ Hc) as [v Hv]. rewrite Hv, Hid.
    destruct (ck_delete w id s) as [[[]|e] s'] eqn:Ed; (split; [by eapply delete_saved|]); simpl.
    - split_and!; [done| |by intros ? ?%not_elem_of_nil|by eauto].
      pose proof (delete_law w id s) as Hl. rewrite Ed in Hl. simpl in Hl. destruct Hl as [->|[? _]]; [|done].
      by rewrite lookup_delete_eq.
    - eapply (fails_store e w ck s). rewrite Ed. auto. }
  assert (topology g !! length pre = Some n) as Hn by (by rewrite Ht, list_lookup_middle).
  assert (take (length pre) (topology g) = pre) as Htake by (by rewrite Ht, take_app_length).
  assert (length pre < length (topology g))%nat as Hlt by (by eapply lookup_lt_Some).
  destruct (check_context cancelled is_expired w) as [[]|e] eqn:Ec; [|split; [done|by eapply fails_context]].
  destruct (bool_decide (n ∈ ib) && negb (bool_decide (approved = Some n))) eqn:Hstop; guard_prop.
  { match goal with |- context [ck_save w ?c s] => set (c' := c) end.
    assert (progress c') as Hp.
    { split; simpl; rewrite ?Hnext, ?Htake; try done; [lia|]. by intros m [= <-]. }
    destruct (ck_save w c' s) as [[[]|e] s'] eqn:Es; (split; [by eapply save_saved|]).
    - apply save_spec in Es. rewrite (pr_id _ Hp) in Es. simpl. rewrite Hid. split; [done|].
      exists [], names, c'. rewrite app_nil_r, Es, lookup_insert_eq.
      split_and!; try done. by intros m ?%not_elem_of_nil.
    - eapply (fails_store e w c' s). rewrite Es. auto. }
  assert (∃ inp', (if bool_decide (approved = Some n) then (inp, None) else (None, inp)) =
    (if bool_decide (n ∈ ib) then ov n else None, inp')) as [inp' ->].
  { destruct (bool_decide (approved = Some n)) eqn:Ea; guard_prop.
    - destruct (Ha n Ea) as [Hin|(_ & Hib & ->)].
      + exfalso. pose proof (gw_nodup _ _ Hwf) as HN. rewrite Ht in HN.
        apply NoDup_app in HN as (_ & Hd & _). apply (Hd n Hin). by left.
      + rewrite bool_decide_true by done. by eexists.
    - rewrite andb_true_r in Hstop. guard_prop. rewrite bool_decide_false by done. by eexists. }
  assert (n ∈ ib → approved = Some n) as Happ.
  { intros Hib. rewrite bool_decide_true in Hstop by done. simpl in Hstop. by guard_prop. }
  rewrite (execute_reviewed pre n names _ w Ht Hc).
  destruct (exec_node (reviewed r ov) n (ck_values ck) None w) as [[o|e] w1] eqn:Ee;
    [|split; [done|by eapply fails_node]].
  match goal with |- context [ck_save w1 ?c s] => set (c' := c) end.
  assert (computed_by (pre ++ [n]) (ck_values c')) as Hc' by (by econstructor).
  assert (topology g = (pre ++ [n]) ++ names) as Ht' by (by rewrite <- app_assoc).
  assert (next_node_index c' = length (pre ++ [n])) as Hnext'
    by (rewrite length_app, Nat.add_comm; simpl; by rewrite Hnext).
  assert (progress c') as Hp.
  { split; [done| | |done]; rewrite Hnext', Ht'; [rewrite (length_app _ names); lia|by rewrite take_app_length]. }
  destruct (ck_save w1 c' s) as [[[]|e] s1] eqn:Es.
  2: { split; [by eapply save_saved|]. eapply (fails_store e w1 c' s). rewrite Es. auto. }
  assert (∀ m, approved = Some m → m ∈ pre ++ [n] ∨ (head names = Some m ∧ m ∈ ib ∧ inp' = ov m)) as Ha'.
  { intros m Hm. left. apply elem_of_app. destruct (Ha m Hm) as [?|([= <-] & _)]; [by left|right; by left]. }
  specialize (IH (pre ++ [n]) c' inp' w1 s1 Ht' Hnext' Hid Hc' (save_saved _ _ _ _ _ Es Hp Hs) Ha').
  destruct (loop names approved c' inp' w1 s1) as [[res w2] s2]. destruct IH as [Hs2 Hout].
  split; [done|]. destruct res as [[id' v|i]|e]; simpl in *; [..|done].
  - destruct Hout as (? & ? & Hall & ?). split_and!; try done.
    intros m [->|Hm]%elem_of_cons Hib; [by apply Happ|by apply Hall].
  - destruct Hout as (? & skip & post & ck' & -> & Hib & Hne & Hall & Hst & Hnx & ?). split; [done|].
    exists (n :: skip), post, ck'. rewrite <- app_assoc in Hnx. split_and!; try done; try naive_solver.
    intros m [->|Hm]%elem_of_cons Hib'; [by apply Happ|by apply Hall].
Qed.
Abbreviation start_run := (start VArray cancelled is_expired on_node_start on_node_end on_node_error
  tenant subject r id input).
Abbreviation resume_run := (resume VArray cancelled is_expired on_node_start on_node_end on_node_error
  tenant subject r id).

Lemma start_spec w s :
  saved s → let '(res, w', s') := start_run w s in
  saved s' ∧ drive_outcome (first_checkpoint tenant subject r id input w) [] (topology g) None res s'.
Proof.
  intros Hs. unfold start. destruct (check_context cancelled is_expired w) as [[]|e] eqn:Ec;
    [|split; [done|by eapply fails_context]].
  set (c := first_checkpoint _ _ _ _ _ _).
  assert (progress c) as Hp by (split; [done|simpl; lia|constructor|done]).
  destruct (ck_save w c s) as [[[]|e] s1] eqn:Es.
  - unfold drive. change (drop (next_node_index c) (topology g)) with (topology g).
    apply (drive_loop_spec (topology g) [] None); try done; [constructor|by eapply save_saved].
  - split; [by eapply save_saved|]. eapply (fails_store e w c s). rewrite Es. auto.
Qed.

(** The guards of [resume] that can reject a stored checkpoint. *)
Definition same_run (ck : WorkflowCheckpoint Value) (w : W) : Prop :=
  ck_version ck = 1 ∧ ck_graph_revision ck = graph_revision r ∧
  ck_tenant ck = tenant w ∧ ck_subject ck = subject w.

Lemma resume_spec ck inp w s :
  saved s → stored s !! id = Some ck →
  (∀ n, interrupted_before ck = Some n → inp = ov n) →
  let '(res, w', s') := resume_run inp w s in
  saved s' ∧ ((∃ e, res = Err e) ∧ ¬ same_run ck w ∨
    drive_outcome ck (take (next_node_index ck) (topology g)) (drop (next_node_index ck) (topology g))
      (interrupted_before ck) res s').
Proof.
  intros Hs Hck Hinp. unfold resume.
  destruct (check_context cancelled is_expired w) as [[]|e] eqn:Ec;
    [|split; [done|right; by eapply fails_context]].
  pose proof (load_law w id s) as [Hl1 Hl2].
  destruct (ck_load w id s) as [[o|e] s1] eqn:El; simpl in Hl1, Hl2.
  2: { split; [unfold saved in *; by rewrite Hl1|]. right. eapply (fails_store e w ck s). rewrite El. auto. }
  rewrite (Hl2 o eq_refl), Hck. assert (saved s1) as Hs1 by (unfold saved in *; by rewrite Hl1).
  destruct (decide (ck_version ck = 1)) as [Hv|Hv].
  2: { rewrite bool_decide_true by done. split; [done|]. left. split; [by eexists|]. by intros [? _]. }
  rewrite (bool_decide_false (ck_version ck ≠ 1)) by naive_solver.
  destruct (decide (ck_graph_revision ck = graph_revision r)) as [Hr|Hr].
  2: { rewrite bool_decide_true by done. split; [done|]. left. split; [by eexists|]. by intros (_ & ? & _). }
  rewrite (bool_decide_false (ck_graph_revision ck ≠ _)) by naive_solver.
  destruct (bool_decide _ || bool_decide _) eqn:Esc.
  { split; [done|]. left. split; [by eexists|]. intros (_ & _ & Ht & Hsu).
    rewrite Ht, Hsu, !bool_decide_false in Esc; naive_solver. }
  destruct (Hs ck Hck) as [Hid Hnx Hval Hstop]. unfold drive.
  pose proof (drive_loop_spec (drop (next_node_index ck) (topology g))
    (take (next_node_index ck) (topology g)) (interrupted_before ck)) as Hloop.
  match goal with |- context [loop _ _ ?c inp w s1] => specialize (Hloop c inp w s1) end.
  destruct (loop _ _ _ inp w s1) as [[res w'] s']. destruct Hloop as [Hs' Hout]; try done.
  - by rewrite take_drop.
  - simpl. rewrite length_take. lia.
  - intros n Hn. right. destruct (Hstop n Hn) as [Hln Hib]. split_and!; [|done|by apply Hinp].
    by rewrite (drop_S _ n).
  - split; [done|]. by right.
Qed.

(** ** Histories of a run *)

(** Any calls of one run, failed ones included, from any worlds; between two
    calls other runs may change the store. A resume of a run stopped before [n]
    passes the review input [ov n]. *)
Inductive served : result AiError (WorkflowRunResult Value) → S → Prop :=
| served_start w s res w' s' :
    stored s !! id = None → start_run w s = (res, w', s') → served res s'
| served_resume res0 s0 inp w s res w' s' :
    served res0 s0 → stored s !! id = stored s0 !! id →
    (∀ ck n, stored s !! id = Some ck → interrupted_before ck = Some n → inp = ov n) →
    resume_run inp w s = (res, w', s') → served res s'.

Lemma served_outcome res s :
  served res s → saved s ∧ ∀ id' v, res = Ok (Completed id' v) →
    id' = id ∧ ∃ values, computed_by (topology g) values ∧
      collect_inputs VArray END (incoming g) values = Ok v.
Proof.
  induction 1 as [w s res w' s' Hnone He|res0 s0 inp w s res w' s' _ [IH _] Hsame Hinp He].
  - assert (saved s) as Hs by (intros ck Hck; congruence).
    pose proof (start_spec w s Hs) as Hst. rewrite He in Hst. destruct Hst as [Hs' Hout].
    split; [done|]. intros id' v ->. by destruct Hout as (? & _ & _ & ?).
  - assert (saved s) as Hs by (unfold saved in *; by rewrite Hsame).
    destruct (stored s !! id) as [ck|] eqn:Eck.
    + pose proof (resume_spec ck inp w s Hs Eck (λ n, Hinp ck n eq_refl)) as Hre. rewrite He in Hre.
      destruct Hre as [Hs' Hout]. split; [done|]. intros id' v ->.
      destruct Hout as [[[e ?] _]|(? & _ & _ & ?)]; done.
    + revert He. unfold resume. destruct (check_context _ _ w); [|intros [= <- <- <-]; done].
      pose proof (load_law w id s) as [Hl1 Hl2].
      destruct (ck_load w id s) as [[o|e] s1]; simpl in Hl1, Hl2.
      * rewrite (Hl2 o eq_refl), Eck. intros [= <- <- <-]. split; [unfold saved in *; by rewrite Hl1|done].
      * intros [= <- <- <-]. split; [unfold saved in *; by rewrite Hl1|done].
Qed.

(** The nodes a run stops before, in order. *)
Definition stops : list rstr := filter (λ n, n ∈ ib) (topology g).

(** A start followed by [n] resumes, each after an interruption. *)
Inductive session : nat → result AiError (WorkflowRunResult Value) → S → Prop :=
| session_start w s res w' s' :
    stored s !! id = None → start_run w s = (res, w', s') → session 0 res s'
| session_resume n i s0 w s res w' s' :
    session n (Ok (Interrupted i)) s0 → stored s !! id = stored s0 !! id →
    resume_run (ov (before_node i)) w s = (res, w', s') → session (Datatypes.S n) res s'.

(** Where the [n]-th drive of a session is. *)
Definition session_at (n : nat) (res : result AiError (WorkflowRunResult Value)) (s : S) : Prop :=
  match res with
  | Err e => fails e
  | Ok (Completed id' v) => id' = id ∧ stored s !! id = None ∧ n = length stops ∧
      ∃ values, computed_by (topology g) values ∧
        collect_inputs VArray END (incoming g) values = Ok v
  | Ok (Interrupted i) =>
      i = {| wi_run_id := id; before_node := before_node i; wi_graph_revision := graph_revision r |} ∧
      ∃ pre post ck, topology g = pre ++ before_node i :: post ∧ before_node i ∈ ib ∧
        length (filter (λ m, m ∈ ib) pre) = n ∧
        stored s !! id = Some ck ∧ next_node_index ck = length pre ∧
        interrupted_before ck = Some (before_node i) ∧ ∀ w, same_run ck w
  end.

Lemma filter_none (l : list rstr) : (∀ m, m ∈ l → m ∉ ib) → filter (λ m, m ∈ ib) l = [].
Proof.
  intros Hl. induction l as [|m l IH]; [done|]. rewrite filter_cons.
  rewrite decide_False by (apply Hl; by left). apply IH. intros x Hx. apply Hl. by right.
Qed.

Lemma drive_session n ck pre names approved res s' :
  topology g = pre ++ names → (∀ w, same_run ck w) →
  match approved with
  | None => length (filter (λ m, m ∈ ib) pre) = n
  | Some a => head names = Some a ∧ a ∈ ib ∧ Datatypes.S (length (filter (λ m, m ∈ ib) pre)) = n
  end →
  drive_outcome ck pre names approved res s' → session_at n res s'.
Proof.
  intros Ht Hsame Ha Hout.
  assert (∀ l, (∃ t, names = l ++ t) → (∀ m, m ∈ l → m ∈ ib → approved = Some m) →
    (∀ a, approved = Some a → l ≠ []) → length (filter (λ m, m ∈ ib) (pre ++ l)) = n) as Hcount.
  { intros l [t Hlt] Hl Hne. rewrite filter_app, length_app. destruct approved as [a|].
    - destruct Ha as (Hh & Hib & <-). destruct l as [|a' l]; [by destruct (Hne a)|].
      subst names. injection Hh as ->. rewrite filter_cons, decide_True by done. simpl.
      rewrite (filter_none l); [simpl; lia|]. intros m Hm Hm'.
      assert (m = a) as -> by (assert (Some a = Some m) by (apply Hl; [by right|done]); congruence).
      pose proof (gw_nodup _ _ Hwf) as HN. rewrite Ht in HN. apply NoDup_app in HN as (_ & _ & HN).
      simpl in HN. apply NoDup_cons in HN as [HN _]. apply HN, elem_of_app. by left.
    - rewrite (filter_none l); [simpl; lia|]. intros m Hm Hm'. by specialize (Hl m Hm Hm'). }
  destruct res as [[id' v|i]|e]; simpl in *; [..|done].
  - destruct Hout as (-> & Hst & Hall & Hv). split_and!; [done|done| |done].
    unfold stops. rewrite Ht. symmetry. apply Hcount; [exists []; by rewrite app_nil_r|done|].
    intros a ->. destruct Ha as [Hh _]. by intros ->.
  - destruct Hout as (Hi & skip & post & ck' & -> & Hib & Hne & Hall & Hst & Hnx & Hstop & H1 & H2 & H3 & H4).
    split; [done|]. exists (pre ++ skip), post, ck'. rewrite <- app_assoc. split_and!; try done.
    + apply Hcount; [by eexists|done|]. intros a -> ->. destruct Ha as [Hh _]. by simplify_eq/=.
    + intros w. destruct (Hsame w) as (? & ? & ? & ?). unfold same_run. by rewrite H1, H2, H3, H4.
Qed.

Lemma session_outcome n res s :
  (∀ w w', tenant w = tenant w' ∧ subject w = subject w') → session n res s →
  saved s ∧ session_at n res s.
Proof.
  intros Hscope. induction 1 as [w s res w' s' Hnone He|n i s0 w s res w' s' _ [IHs IH] Hsame He].
  - assert (saved s) as Hs by (intros ck Hck; congruence).
    pose proof (start_spec w s Hs) as Hst. rewrite He in Hst. destruct Hst as [Hs' Hout].
    split; [done|]. eapply drive_session; [| | |done]; [done| |done].
    intros w1. unfold same_run, first_checkpoint. simpl. by destruct (Hscope w w1).
  - simpl in IH. destruct IH as (_ & pre & post & ck & Ht & Hib & Hn & Hst & Hnx & Hstop & Hsr).
    assert (saved s) as Hs by (unfold saved in *; by rewrite Hsame).
    rewrite <- Hsame in Hst.
    pose proof (resume_spec ck (ov (before_node i)) w s Hs Hst) as Hre. rewrite He in Hre.
    destruct Hre as [Hs' Hout]; [intros m Hm; congruence|]. split; [done|].
    destruct Hout as [[_ Hno]|Hout]; [by destruct (Hno (Hsr w))|].
    rewrite Hnx, Ht, take_app_length, drop_app_length in Hout.
    eapply drive_session; [| | |done]; [done|done|]. rewrite Hstop. split_and!; [done|done|by rewrite Hn].
Qed.
End drives.

Lemma invoke_computed {Value W} (VArray : list Value → Value) (cancelled is_expired : W → bool)
    on_node_start on_node_end on_node_error (g : CompiledGraph (Value → W → result AiError Value * W))
    input w v w' :
  CompiledGraph_invoke VArray cancelled is_expired on_node_start on_node_end on_node_error
    g input w = (Ok v, w') →
  ∃ values, computed VArray cancelled is_expired on_node_start on_node_end on_node_error
      g input (topology g) values ∧ collect_inputs VArray END (incoming g) values = Ok v.
Proof.
  unfold CompiledGraph_invoke, invoke_with_mode.
  destruct (check_context cancelled is_expired w); [|done].
  destruct (run_sequential _ _ _ _ _ _ g (topology g) (START_VALUE input) w) as [[values|e] w1] eqn:Er; simpl;
    [|done].
  intros [= Hc _]. exists values. split; [|done].
  by eapply (computed_run VArray cancelled is_expired _ _ _ g input (topology g) []); [constructor|].
Qed.

(** The store answers every call. *)
Definition reliable (Value W S : Type) `{CheckpointStore Value W S} : Prop :=
  ∀ w c id s, is_ok (ck_save w c s).1 = true ∧ is_ok (ck_delete w id s).1 = true ∧
    is_ok (ck_load w id s).1 = true.

Lemma fails_invoke {Value W S} (VArray : list Value → Value) (cancelled is_expired : W → bool)
    on_node_start on_node_end on_node_error `{CheckpointStoreLaws Value W S}
    (es : list edge) (r : WorkflowRunner (Value → W → result AiError Value * W)) ov id input e w :
  graph_wf es (wr_graph r) → stateless (wr_graph r) → live cancelled is_expired → reliable Value W S →
  fails (S := S) VArray cancelled is_expired on_node_start on_node_end on_node_error r ov id input e →
  (CompiledGraph_invoke VArray cancelled is_expired on_node_start on_node_end on_node_error
     (reviewed r ov) input w).1 = Err e.
Proof.
  intros Hwf Hs Hl Hrel [w1 He|w1 c s He|pre n post values w1 w1' Ht Hc He].
  - by rewrite Hl in He.
  - destruct (Hrel w1 c id s) as (H1 & H2 & H3).
    destruct He as [He|[He|He]]; [rewrite He in H1|rewrite He in H2|rewrite He in H3]; done.
  - pose proof (reviewed_stateless r ov Hs) as Hs'. unfold CompiledGraph_invoke.
    rewrite (invoke_pure VArray cancelled is_expired _ _ _ es _ (reviewed_wf es r ov Hwf) Hs' Hl _ _ w w).
    unfold graph_value. change (topology (reviewed r ov)) with (topology (wr_graph r)).
    rewrite Ht, eval_nodes_app. erewrite computed_eval by done. simpl.
    rewrite <- (execute_node_pure VArray cancelled is_expired on_node_start on_node_end on_node_error
      _ Hs' Hl n values w1 w), He. done.
Qed.

(** ** Properties *)

(** C11: checkpoints do not change the result of repeatable nodes. Hypotheses:
    the graph is compiled; its nodes are [repeatable] (a node that succeeds twice
    on one input gives the same output, in whatever world); and an uninterrupted
    [invoke] of the graph whose reviewed nodes take their review inputs succeeds.
    Take any history of one run of this graph, starts
    and resumes in any number, with cancelled requests, node failures and store
    failures (a failed save may or may not have been written), and other runs
    using the store in between. If the run completes, it is under its own
    identifier and with the output of that [invoke]. Nothing is claimed of nodes
    whose outputs vary, or when that [invoke] fails. *)
Theorem checkpointed_run_agrees {Value W S} (VArray : list Value → Value) (cancelled is_expired : W → bool)
    on_node_start on_node_end on_node_error tenant subject `{CheckpointStoreLaws Value W S}
    (b : GraphBuilder (Value → W → result AiError Value * W)) (r : WorkflowRunner _) ov id input
    id' v s w v' w' :
  built b → compile b = Some (Ok (wr_graph r)) → repeatable (wr_graph r) →
  served VArray cancelled is_expired on_node_start on_node_end on_node_error tenant subject
    r ov id input (Ok (Completed id' v)) s →
  CompiledGraph_invoke VArray cancelled is_expired on_node_start on_node_end on_node_error
    (reviewed r ov) input w = (Ok v', w') →
  id' = id ∧ v = v'.
Proof.
  intros Hb Hc Hrep Hsv Hinv. destruct (compile_spec b (built_names b Hb)) as (c & Hr & _ & Hwf).
  rewrite Hc in Hr. destruct (Hwf (wr_graph r)) as [Hg _]; [congruence|].
  destruct (served_outcome VArray cancelled is_expired _ _ _ _ _ _ r Hg ov id input _ s Hsv)
    as [_ Hcompl].
  destruct (Hcompl id' v eq_refl) as (-> & values & Hcv & Hv).
  destruct (invoke_computed VArray cancelled is_expired _ _ _ _ _ _ _ _ Hinv) as (values' & Hcv' & Hv').
  split; [done|]. change (incoming (reviewed r ov)) with (incoming (wr_graph r)) in Hv'.
  rewrite (computed_fun VArray _ _ _ _ _ _ _ _ _ _ (reviewed_repeatable r ov Hrep) Hcv Hcv') in Hv.
  congruence.
Qed.

(** The course of a reviewed run, step by step. With stateless nodes, live
    requests of one tenant and subject and a store that answers, the [n]-th
    drive of a run stops before the [n]-th node marked for review in topology
    order; after the last one the run completes with the output of an
    uninterrupted [invoke] and its checkpoint is gone; a drive that fails gives
    the error of that [invoke]. *)
Theorem reviewed_run_course {Value W S} (VArray : list Value → Value) (cancelled is_expired : W → bool)
    on_node_start on_node_end on_node_error tenant subject `{CheckpointStoreLaws Value W S}
    (b : GraphBuilder (Value → W → result AiError Value * W)) (r : WorkflowRunner _) ov id input n res s w :
  built b → compile b = Some (Ok (wr_graph r)) → stateless (wr_graph r) → live cancelled is_expired →
  reliable Value W S → (∀ w1 w2 : W, tenant w1 = tenant w2 ∧ subject w1 = subject w2) →
  session VArray cancelled is_expired on_node_start on_node_end on_node_error tenant subject
    r ov id input n res s →
  let whole := (CompiledGraph_invoke VArray cancelled is_expired on_node_start on_node_end on_node_error
                  (reviewed r ov) input w).1 in
  match res with
  | Ok (Interrupted i) => wi_run_id i = id ∧ stops r !! n = Some (before_node i)
  | Ok (Completed id' v) => id' = id ∧ n = length (stops r) ∧ stored s !! id = None ∧ whole = Ok v
  | Err e => whole = Err e
  end.
Proof.
  intros Hb Hc Hs Hl Hrel Hscope Hsess. destruct (compile_spec b (built_names b Hb)) as (c & Hr & _ & Hwf).
  rewrite Hc in Hr. destruct (Hwf (wr_graph r)) as [Hg _]; [congruence|].
  destruct (session_outcome VArray cancelled is_expired _ _ _ _ _ _ r Hg ov id input n res s Hscope Hsess)
    as [_ Hat].
  destruct res as [[id' v|i]|e]; simpl in *.
  - destruct Hat as (-> & Hst & -> & values & Hcv & Hv). split_and!; try done.
    pose proof (reviewed_stateless r ov Hs) as Hs'. unfold CompiledGraph_invoke.
    rewrite (invoke_pure VArray cancelled is_expired _ _ _ _ _ (reviewed_wf _ r ov Hg) Hs' Hl _ _ w w).
    unfold graph_value. change (topology (reviewed r ov)) with (topology (wr_graph r)).
    by erewrite computed_eval by done.
  - destruct Hat as (-> & pre & post & ck & Ht & Hib & Hn & _). split; [done|].
    unfold stops. rewrite Ht, filter_app, filter_cons, decide_True by done. subst n.
    by rewrite list_lookup_middle.
  - by eapply fails_invoke.
Qed.

(** ** Witnesses *)

(** The graph of Workflow.v, reviewed before its right node. *)
Definition ex_runner : WorkflowRunner (ex_json → N → result AiError ex_json * N) :=
  {| wr_graph := ex_compiled; graph_revision := lit "r1"; interrupt_before := {[ lit "right" ]} |}.
Definition ex_review (n : rstr) : option ex_json :=
  if bool_decide (n = lit "right") then Some (ExNum 7) else None.
Definition ex_interrupt : WorkflowInterrupt :=
  {| wi_run_id := lit "id"; before_node := lit "right"; wi_graph_revision := lit "r1" |}.

Abbreviation ex_start := (start (S := MemoryCheckpointStore ex_json) ExArray (λ _, false) (λ _, false)
  (λ _ w, w) (λ _ w, w) (λ _ _ w, w) (λ _, None) (λ _, None) ex_runner (lit "id") (ExNum 3) 0 ∅).
Abbreviation ex_resume inp := (resume (S := MemoryCheckpointStore ex_json) ExArray (λ _, false) (λ _, false)
  (λ _ w, w) (λ _ w, w) (λ _ _ w, w) (λ _, None) (λ _, None) ex_runner (lit "id") inp 5 ex_start.2).

Lemma checkpointed_run_agrees_witness :
  lit "id" = lit "id" ∧ ExArray [ExArray [ExNum 3; ExNum 3]; ExNum 7] =
    ExArray [ExArray [ExNum 3; ExNum 3]; ExNum 7].
Proof.
  refine (checkpointed_run_agrees (S := MemoryCheckpointStore ex_json) ExArray (λ _, false) (λ _, false)
    (λ _ w, w) (λ _ w, w) (λ _ _ w, w) (λ _, None) (λ _, None) ex_b6 ex_runner ex_review (lit "id") (ExNum 3)
    _ _ ∅ 9 _ 10 ex_built ex_compile _ _ ltac:(vm_compute; reflexivity)).
  - intros name node v w w' o o' Hn. apply ex_nodes in Hn as [-> | ->]; simpl.
    + intros [= <-] [= <-]. reflexivity.
    + destruct v as [[|]|]; simpl; congruence.
  - eapply (served_resume _ _ _ _ _ _ _ _ _ _ _ _ (Ok (Interrupted ex_interrupt)) ex_start.2
      (Some (ExNum 7)) 5 ex_start.2); [| |intros ck n|].
    + eapply (served_start _ _ _ _ _ _ _ _ _ _ _ _ 0 ∅); [reflexivity|vm_compute; reflexivity].
    + reflexivity.
    + vm_compute. intros [= <-] [= <-]. reflexivity.
    + vm_compute. reflexivity.
Defined.

Lemma reviewed_run_course_witness :
  let whole := (CompiledGraph_invoke ExArray (λ _, false) (λ _, false) (λ _ w, w) (λ _ w, w) (λ _ _ w, w)
     (reviewed ex_runner ex_review) (ExNum 3) 0).1 in
  lit "id" = lit "id" ∧ 1%nat = length (stops ex_runner) ∧
  (stored (∅ : MemoryCheckpointStore ex_json) (W := N)) !! lit "id" = None ∧
  whole = Ok (ExArray [ExArray [ExNum 3; ExNum 3]; ExNum 7]).
Proof.
  refine (reviewed_run_course (S := MemoryCheckpointStore ex_json) ExArray (λ _, false) (λ _, false)
    (λ _ w, w) (λ _ w, w) (λ _ _ w, w) (λ _, None) (λ _, None) ex_b6 ex_runner ex_review (lit "id") (ExNum 3)
    1 (Ok (Completed (lit "id") _)) ∅ 0 ex_built ex_compile _ _ _ _ _).
  - intros name node v w w' Hn. apply ex_nodes in Hn as [-> | ->]; [reflexivity|].
    destruct v as [[|]|]; reflexivity.
  - intros w. reflexivity.
  - intros w c id s. split; [reflexivity|split; reflexivity].
  - intros w1 w2. split; reflexivity.
  - eapply (session_resume _ _ _ _ _ _ _ _ _ _ _ _ 0 ex_interrupt ex_start.2 5 ex_start.2).
    + eapply (session_start _ _ _ _ _ _ _ _ _ _ _ _ 0 ∅); [reflexivity|vm_compute; reflexivity].
    + reflexivity.
    + vm_compute. reflexivity.
Defined.
