(* ===== verification/Balance.v ===== *)
(** * RPC load balancing (crates/roze-rpc/src/balance.rs, registry.rs)

    The balancers over a list of [ServiceInstance]s: round robin, weighted round
    robin, power of two choices, health aware, and the EWMA balancer with its
    per-instance loads and attempt leases. The loads, which leases share with
    the balancer ([Arc<InstanceLoad>]), live in a heap under locations, so a
    lease can outlive its entry in [states]. Atomics are single steps; [usize]
    is 64 bits wide; [exp] of the standard library, whose precision Rust leaves
    open, is a parameter. *)

From S2P Require Import Prelude Text Float64.
From Stdlib Require Import SpecFloat.

Record ServiceInstance :=
  { si_name : rstr; addr : rstr; weight : N; metadata : gmap rstr rstr }.

#[export] Instance ServiceInstance_eq_dec : EqDecision ServiceInstance.
Proof. solve_decision. Defined.

Definition ServiceInstance_new (name a : rstr) : ServiceInstance :=
  {| si_name := name; addr := a; weight := 1; metadata := ∅ |}.

(** ** Scores and weights *)

Definition weighted_instances (instances : list ServiceInstance) : list ServiceInstance :=
  instances ≫= λ i, replicate (N.to_nat (N.max (weight i) 1)) i.

(** [i64] arithmetic, which wraps in a release build. *)
Definition wrap_i64 (z : Z) : Z := ((z - I64_MIN) mod 2 ^ 64 + I64_MIN)%Z.
Definition i64_add (a b : Z) : Z := wrap_i64 (a + b).
Definition i64_sub (a b : Z) : Z := wrap_i64 (a - b).
Definition i64_mul (a b : Z) : Z := wrap_i64 (a * b).

Definition instance_score (instance : ServiceInstance) : Z :=
  let penalty key := default 0%Z (v ← metadata instance !! lit key; parse_i64 v) in
  let score :=
    i64_sub (i64_sub (i64_sub (i64_mul (Z.of_N (N.max (weight instance) 1)) 1000) (penalty "load"%string))
               (penalty "latency_ms"%string)) (i64_mul (penalty "errors"%string) 10) in
  match metadata instance !! lit "healthy" with
  | Some value =>
      if bool_decide (value = lit "false" ∨ value = lit "0" ∨ value = lit "no")
      then (I64_MIN / 2)%Z else score
  | None => score
  end.

(** ** Stateless and cursor balancers *)

Definition FirstAvailableBalancer_pick (instances : list ServiceInstance) : option ServiceInstance :=
  head instances.

(** [max_by_key]: the last of the greatest. *)
Definition HealthAwareBalancer_pick (instances : list ServiceInstance) : option ServiceInstance :=
  foldl (λ best i, match best with
                   | None => Some i
                   | Some b => if bool_decide (instance_score b ≤ instance_score i)%Z then Some i else Some b
                   end) None instances.

(** [fetch_add(1)] on a 64-bit cursor. *)
Definition fetch_add (cursor : N) : N := wrap 64 (cursor + 1).

Definition RoundRobinBalancer_pick (cursor : N) (instances : list ServiceInstance)
    : option ServiceInstance * N :=
  match instances with
  | [] => (None, cursor)
  | _ => (instances !! N.to_nat (cursor mod N.of_nat (length instances)), fetch_add cursor)
  end.

Definition WeightedRoundRobinBalancer_pick (cursor : N) (instances : list ServiceInstance)
    : option ServiceInstance * N :=
  let weighted := weighted_instances instances in
  match weighted with
  | [] => (None, cursor)
  | _ => (weighted !! N.to_nat (cursor mod N.of_nat (length weighted)), fetch_add cursor)
  end.

(** [len] is positive. *)
Definition mix_index (seed len : N) : N :=
  let value := N.lxor seed (N.shiftr seed 33) in
  let value := wrap 64 (value * 18397679294719823053) in
  let value := N.lxor value (N.shiftr value 33) in
  let value := wrap 64 (value * 14181476777654086739) in
  let value := N.lxor value (N.shiftr value 33) in
  value mod len.

(** The two indices both power-of-two-choices balancers compare. *)
Definition two_choices (seed len : N) : N * N :=
  let first_idx := mix_index seed len in
  let second_idx := mix_index (wrap 64 (seed + 2654435769)) (len - 1) in
  (first_idx, if first_idx <=? second_idx then second_idx + 1 else second_idx).

Definition PowerOfTwoChoicesBalancer_pick (cursor : N) (instances : list ServiceInstance)
    : option ServiceInstance * N :=
  match instances with
  | [] => (None, cursor)
  | [i] => (Some i, cursor)
  | _ =>
      let '(first_idx, second_idx) := two_choices cursor (N.of_nat (length instances)) in
      (first ← instances !! N.to_nat first_idx;
       second ← instances !! N.to_nat second_idx;
       Some (if bool_decide (instance_score second ≤ instance_score first)%Z then first else second),
       fetch_add cursor)
  end.

(** ** Loads *)

Record EwmaP2cConfig :=
  { decay : N; initial_latency : N; force_pick_after : N; stale_after : N }.
Definition EwmaP2cConfig_default : EwmaP2cConfig :=
  {| decay := from_secs 10; initial_latency := from_secs 1; force_pick_after := from_secs 1;
     stale_after := from_secs 30 |}.

Definition duration_nanos (d : N) : N := N.min d U64_MAX.

Record InstanceLoad :=
  { inflight : N; ewma_latency_nanos : N; success_per_mille : N; last_seen_nanos : N;
    last_updated_nanos : N; last_picked_nanos : N }.

Definition InstanceLoad_new (config : EwmaP2cConfig) (now_nanos : N) : InstanceLoad :=
  {| inflight := 0; ewma_latency_nanos := duration_nanos (initial_latency config);
     success_per_mille := 1000; last_seen_nanos := now_nanos; last_updated_nanos := 0;
     last_picked_nanos := now_nanos |}.

(** The [while left <= right] loop; [None] when the fuel runs out. *)
Fixpoint sqrt_loop (fuel : nat) (value left right : N) : option N :=
  if left <=? right then
    match fuel with
    | O => None
    | S fuel' =>
        let middle := left + (right - left) / 2 in
        let quotient := value / middle in
        if middle =? quotient then Some middle
        else if middle <? quotient then sqrt_loop fuel' value (middle + 1) right
        else sqrt_loop fuel' value left (middle - 1)
    end
  else Some right.

Definition integer_sqrt (value : N) : option N :=
  if value <? 2 then Some value else sqrt_loop 64 value 1 (N.min value U64_MAX).

(** [integer_sqrt] always returns ([integer_sqrt_floor]). *)
Definition load (l : InstanceLoad) : N :=
  let latency := N.max (ewma_latency_nanos l) 1 in
  let inflight := sat_add U64_MAX (inflight l) 1 in
  let success_penalty := N.max (2000 - N.min (success_per_mille l) 1000) 1000 in
  sat_mul U128_MAX (sat_mul U128_MAX (default 0 (integer_sqrt latency)) inflight) success_penalty.

Definition decrement_inflight (l : InstanceLoad) : InstanceLoad :=
  {| inflight := inflight l - 1; ewma_latency_nanos := ewma_latency_nanos l;
     success_per_mille := success_per_mille l; last_seen_nanos := last_seen_nanos l;
     last_updated_nanos := last_updated_nanos l; last_picked_nanos := last_picked_nanos l |}.

(** [.round().clamp(0.0, u64::MAX as f64) as u64]: half away from zero, NaN to 0. *)
Definition f64_round_u64 (x : f64) : N :=
  match x with
  | S754_infinity false => U64_MAX
  | S754_finite false m e =>
      N.min U64_MAX
        (if (0 <=? e)%Z then N.shiftl (N.pos m) (Z.to_N e)
         else N.shiftr (2 * N.pos m + N.shiftl 1 (Z.to_N (- e))) (Z.to_N (1 - e)))
  | _ => 0
  end.

Section ewma.
Context (exp : f64 → f64).

(** One uncontended round of the compare-exchange loop. *)
Definition update_ewma (previous sample elapsed_since_sample decay : N) (first_sample : bool) : N :=
  let decay_nanos := N.max (duration_nanos decay) 1 in
  let historical_weight :=
    if first_sample then f64_of_N 0
    else exp (f64_div (SFopp (f64_of_N elapsed_since_sample)) (f64_of_N decay_nanos)) in
  f64_round_u64 (f64_add (f64_mul (f64_of_N previous) historical_weight)
                   (f64_mul (f64_of_N sample) (f64_sub (f64_of_N 1) historical_weight))).

Inductive AttemptOutcome := Success | Failure | Timeout | Cancelled.

(** ** The EWMA balancer *)

Record EwmaP2cBalancer :=
  { config : EwmaP2cConfig; started : N; cursor : N; states : gmap rstr N;
    heap : gmap N InstanceLoad; next_loc : N }.

Definition EwmaP2cBalancer_new (cfg : EwmaP2cConfig) (now : N) : EwmaP2cBalancer :=
  {| config := cfg; started := now; cursor := 0; states := ∅; heap := ∅; next_loc := 0 |}.

Definition with_heap (h : gmap N InstanceLoad) (b : EwmaP2cBalancer) : EwmaP2cBalancer :=
  {| config := config b; started := started b; cursor := cursor b; states := states b; heap := h;
     next_loc := next_loc b |}.
Definition with_load (loc : N) (f : InstanceLoad → InstanceLoad) (b : EwmaP2cBalancer) : EwmaP2cBalancer :=
  with_heap (alter f loc (heap b)) b.

Definition instance_identity (i : ServiceInstance) : rstr := si_name i ++ [0] ++ addr i.

Definition now_nanos (b : EwmaP2cBalancer) (now : N) : N := duration_nanos (now - started b).

Definition state_for (key : rstr) (now : N) (b : EwmaP2cBalancer) : N * EwmaP2cBalancer :=
  match states b !! key with
  | Some loc => (loc, b)
  | None =>
      (next_loc b,
       {| config := config b; started := started b; cursor := cursor b;
          states := <[key := next_loc b]> (states b);
          heap := <[next_loc b := InstanceLoad_new (config b) now]> (heap b);
          next_loc := next_loc b + 1 |})
  end.

Definition store_last_seen (now : N) (l : InstanceLoad) : InstanceLoad :=
  {| inflight := inflight l; ewma_latency_nanos := ewma_latency_nanos l;
     success_per_mille := success_per_mille l; last_seen_nanos := now;
     last_updated_nanos := last_updated_nanos l; last_picked_nanos := last_picked_nanos l |}.

Definition see_instance (now : N) (b : EwmaP2cBalancer) (i : ServiceInstance) : EwmaP2cBalancer :=
  let '(loc, b) := state_for (instance_identity i) now b in with_load loc (store_last_seen now) b.

Definition synchronize (instances : list ServiceInstance) (now : N) (b : EwmaP2cBalancer) : EwmaP2cBalancer :=
  let b := foldl (see_instance now) b instances in
  let stale_nanos := duration_nanos (stale_after (config b)) in
  {| config := config b; started := started b; cursor := cursor b;
     states := filter (λ kl, match heap b !! kl.2 with
                             | Some l => now - last_seen_nanos l <=? stale_nanos
                             | None => false
                             end = true) (states b);
     heap := heap b; next_loc := next_loc b |}.

(** The entry of a state the balancer just looked up. *)
Definition load_at (loc : N) (b : EwmaP2cBalancer) : InstanceLoad :=
  default (InstanceLoad_new (config b) 0) (heap b !! loc).

Definition choose (instances : list ServiceInstance) (now : N) (b : EwmaP2cBalancer)
    : option ServiceInstance * EwmaP2cBalancer :=
  match instances with
  | [] => (None, b)
  | [i] => (Some i, b)
  | _ =>
      let '(first_idx, second_idx) := two_choices (cursor b) (N.of_nat (length instances)) in
      let b := {| config := config b; started := started b; cursor := fetch_add (cursor b);
                  states := states b; heap := heap b; next_loc := next_loc b |} in
      match instances !! N.to_nat first_idx, instances !! N.to_nat second_idx with
      | Some first, Some second =>
          let '(first_loc, b) := state_for (instance_identity first) now b in
          let '(second_loc, b) := state_for (instance_identity second) now b in
          let first_state := load_at first_loc b in
          let second_state := load_at second_loc b in
          let force_after := duration_nanos (force_pick_after (config b)) in
          let first_starved := force_after <? now - last_picked_nanos first_state in
          let second_starved := force_after <? now - last_picked_nanos second_state in
          (if xorb first_starved second_starved
           then Some (if first_starved then first else second)
           else Some (if load first_state <=? load second_state then first else second), b)
      | _, _ => (None, b)
      end
  end.

Definition EwmaP2cBalancer_pick (instances : list ServiceInstance) (now : N) (b : EwmaP2cBalancer)
    : option ServiceInstance * EwmaP2cBalancer :=
  let nn := now_nanos b now in choose instances nn (synchronize instances nn b).

Definition prune (now : N) (b : EwmaP2cBalancer) : EwmaP2cBalancer := synchronize [] (now_nanos b now) b.

(** ** Attempt leases *)

Record AttemptLease :=
  { al_instance : ServiceInstance; al_state : N; al_config : EwmaP2cConfig; al_started : N;
    clock_started : N; settled : bool }.

Definition pick_load (now : N) (l : InstanceLoad) : InstanceLoad :=
  {| inflight := wrap 64 (inflight l + 1); ewma_latency_nanos := ewma_latency_nanos l;
     success_per_mille := success_per_mille l; last_seen_nanos := last_seen_nanos l;
     last_updated_nanos := last_updated_nanos l; last_picked_nanos := now |}.

(** [now] and [lease_now] are the two readings of the clock. *)
Definition pick_tracked (instances : list ServiceInstance) (now lease_now : N) (b : EwmaP2cBalancer)
    : option AttemptLease * EwmaP2cBalancer :=
  let nn := now_nanos b now in
  match choose instances nn (synchronize instances nn b) with
  | (None, b) => (None, b)
  | (Some i, b) =>
      let '(loc, b) := state_for (instance_identity i) nn b in
      (Some {| al_instance := i; al_state := loc; al_config := config b; al_started := lease_now;
               clock_started := started b; settled := false |},
       with_load loc (pick_load nn) b)
  end.

Definition settle_load (lease : AttemptLease) (outcome : AttemptOutcome) (now : N) (l : InstanceLoad)
    : InstanceLoad :=
  let l := decrement_inflight l in
  let nn := duration_nanos (now - clock_started lease) in
  let previous_updated := last_updated_nanos l in
  let elapsed_since_sample := nn - previous_updated in
  let sample_latency := duration_nanos (now - al_started lease) in
  let success_sample := match outcome with Success => 1000 | Failure | Timeout | Cancelled => 0 end in
  let first := previous_updated =? 0 in
  {| inflight := inflight l;
     ewma_latency_nanos := update_ewma (ewma_latency_nanos l) sample_latency elapsed_since_sample
                             (decay (al_config lease)) first;
     success_per_mille := update_ewma (success_per_mille l) success_sample elapsed_since_sample
                            (decay (al_config lease)) first;
     last_seen_nanos := last_seen_nanos l; last_updated_nanos := nn;
     last_picked_nanos := last_picked_nanos l |}.

Definition AttemptLease_settle (lease : AttemptLease) (outcome : AttemptOutcome) (now : N) (b : EwmaP2cBalancer)
    : AttemptLease * EwmaP2cBalancer :=
  if settled lease then (lease, b)
  else
    ({| al_instance := al_instance lease; al_state := al_state lease; al_config := al_config lease;
        al_started := al_started lease; clock_started := clock_started lease; settled := true |},
     with_load (al_state lease) (settle_load lease outcome now) b).

(** [Drop for AttemptLease] *)
Definition drop_lease (lease : AttemptLease) (now : N) (b : EwmaP2cBalancer) : EwmaP2cBalancer :=
  (AttemptLease_settle lease Cancelled now b).2.

(** [finish(mut self, outcome)] settles, then drops the lease. *)
Definition finish (lease : AttemptLease) (outcome : AttemptOutcome) (now : N) (b : EwmaP2cBalancer)
    : EwmaP2cBalancer :=
  let '(lease, b) := AttemptLease_settle lease outcome now b in drop_lease lease now b.
End ewma.

(** ** The integer square root *)

Lemma middle_halves left right m w :
  1 ≤ left → left ≤ right → m = left + (right - left) / 2 →
  left ≤ m ∧ m ≤ right ∧
  (right + 1 - left < 2 * w → right + 1 - (m + 1) < w ∧ m - 1 + 1 - left < w).
Proof.
  intros H1 H2 Hm. pose proof (N.div_mod (right - left) 2 ltac:(done)) as Hd.
  pose proof (N.mod_lt (right - left) 2 ltac:(done)) as Hr.
  generalize dependent ((right - left) mod 2). generalize dependent ((right - left) / 2).
  intros X Hm r Hd Hr. split; [lia|]. split; [lia|]. intros. split; lia.
Qed.

Lemma quotient_square value m :
  1 ≤ m →
  (m = value / m → m * m ≤ value ∧ value < (m + 1) * (m + 1)) ∧
  (m < value / m → m * m ≤ value) ∧ (value / m < m → value < m * m).
Proof.
  intros Hm. pose proof (N.div_mod value m ltac:(lia)) as Hd. pose proof (N.mod_lt value m ltac:(lia)) as Hr.
  generalize dependent (value mod m). generalize dependent (value / m). intros q r -> Hr.
  split; [intros <-; lia|]. split; intros Hq; [nia|]. assert (q + 1 ≤ m) by lia. nia.
Qed.

Lemma sqrt_loop_spec fuel value left right :
  1 ≤ left → left ≤ right + 1 → right + 1 - left < 2 ^ N.of_nat fuel →
  (left - 1) * (left - 1) ≤ value → value < (right + 1) * (right + 1) →
  ∃ r, sqrt_loop fuel value left right = Some r ∧ r * r ≤ value ∧ value < (r + 1) * (r + 1).
Proof.
  revert left right. induction fuel as [|fuel IH]; intros left right H1 H2 Hf Hl Hr; cbn [sqrt_loop];
    (destruct (left <=? right) eqn:E; guard_prop;
       [|exists right; split; [done|]; replace (left - 1) with right in Hl by lia; done]).
  { change (2 ^ N.of_nat 0) with 1 in Hf. lia. }
  cbv zeta. set (m := left + (right - left) / 2).
  destruct (middle_halves left right m (2 ^ N.of_nat fuel)) as (Hm1 & Hm2 & Hw); [done..|].
  rewrite Nat2N.inj_succ, N.pow_succ_r' in Hf. destruct (Hw Hf) as [Hw1 Hw2]. clear Hw Hf. clearbody m.
  destruct (quotient_square value m ltac:(lia)) as (Heq & Hlt & Hgt).
  destruct (m =? value / m) eqn:E1; guard_prop; [by exists m; auto|].
  destruct (m <? value / m) eqn:E2; guard_prop.
  - apply IH; [lia|lia|done| |done]. rewrite N.add_sub. by apply Hlt.
  - apply IH; [lia|lia|done|done|]. rewrite N.sub_add by lia. apply Hgt. lia.
Qed.

Lemma integer_sqrt_spec value :
  value < 2 ^ 128 → ∃ r, integer_sqrt value = Some r ∧ r * r ≤ value ∧ value < (r + 1) * (r + 1).
Proof.
  intros Hv. unfold integer_sqrt. destruct (value <? 2) eqn:E; guard_prop.
  { exists value. split; [done|]. nia. }
  change (2 ^ 128) with 340282366920938463463374607431768211456 in Hv.
  apply sqrt_loop_spec; [lia|lia| |lia|].
  - change (2 ^ N.of_nat 64) with 18446744073709551616. lia.
  - destruct (N.le_ge_cases value U64_MAX); [rewrite N.min_l by done; nia|rewrite N.min_r by lia; lia].
Qed.

(** ** Two choices *)

Lemma two_choices_spec seed len i j :
  2 ≤ len → two_choices seed len = (i, j) → i < len ∧ j < len ∧ i ≠ j.
Proof.
  intros Hlen. unfold two_choices, mix_index.
  set (a := N.lxor _ _ mod len). set (b := N.lxor _ _ mod (len - 1)).
  assert (a < len) by (apply N.mod_lt; lia). assert (b < len - 1) by (apply N.mod_lt; lia).
  clearbody a b. intros [= <- <-]. destruct (a <=? b) eqn:E; guard_prop; lia.
Qed.

Lemma lookup_N_lt {A} (l : list A) i : i < N.of_nat (length l) → is_Some (l !! N.to_nat i).
Proof. intros Hi. apply lookup_lt_is_Some. lia. Qed.

(** ** Accounting of attempts *)

Inductive balance_event :=
| EvPickTracked (instances : list ServiceInstance) (now lease_now : N)
| EvPick (instances : list ServiceInstance) (now : N)
| EvFinish (k : nat) (outcome : AttemptOutcome) (now : N)
| EvDrop (k : nat) (now : N)
| EvSynchronize (instances : list ServiceInstance) (now_nanos : N)
| EvPrune (now : N).

Section accounting.
Context (exp : f64 → f64).

(** The balancer and the leases its callers hold. A lease is consumed by
    [finish] and by being dropped. *)
Definition balance_step (s : EwmaP2cBalancer * list AttemptLease) (e : balance_event)
    : EwmaP2cBalancer * list AttemptLease :=
  let '(b, leases) := s in
  match e with
  | EvPickTracked instances now lease_now =>
      match pick_tracked instances now lease_now b with
      | (Some lease, b) => (b, lease :: leases)
      | (None, b) => (b, leases)
      end
  | EvPick instances now => ((EwmaP2cBalancer_pick instances now b).2, leases)
  | EvFinish k outcome now =>
      match leases !! k with
      | Some lease => (finish exp lease outcome now b, delete k leases)
      | None => (b, leases)
      end
  | EvDrop k now =>
      match leases !! k with
      | Some lease => (drop_lease exp lease now b, delete k leases)
      | None => (b, leases)
      end
  | EvSynchronize instances now => (synchronize instances now b, leases)
  | EvPrune now => (prune now b, leases)
  end.

(** How many of the open leases are on a load. *)
Definition open_on (loc : N) (leases : list AttemptLease) : nat := countp (λ l, al_state l = loc) leases.

Record balance_wf (b : EwmaP2cBalancer) (leases : list AttemptLease) : Prop :=
  { bw_states : ∀ key loc, states b !! key = Some loc → is_Some (heap b !! loc);
    bw_fresh : ∀ loc, is_Some (heap b !! loc) → loc < next_loc b;
    bw_leases : ∀ l, l ∈ leases → is_Some (heap b !! al_state l) ∧ settled l = false;
    bw_inflight : ∀ loc l, heap b !! loc = Some l → inflight l = N.of_nat (open_on loc leases) }.

Lemma state_for_wf key now b leases loc b' :
  balance_wf b leases → state_for key now b = (loc, b') →
  balance_wf b' leases ∧ is_Some (heap b' !! loc) ∧ states b' !! key = Some loc ∧
  (∀ k, is_Some (states b !! k) → states b' !! k = states b !! k) ∧
  (∀ l, is_Some (heap b !! l) → heap b' !! l = heap b !! l).
Proof.
  intros [Hs Hf Hl Hi]. unfold state_for. destruct (states b !! key) as [loc0|] eqn:E; intros [= <- <-].
  { split_and!; try done; by eapply Hs. }
  assert (heap b !! next_loc b = None) as Hnew.
  { apply eq_None_not_Some. intros Hsome%Hf. lia. }
  assert (∀ l x, is_Some (heap b !! l) → <[next_loc b := x]> (heap b) !! l = heap b !! l) as Hold.
  { intros l x Hsome. rewrite lookup_insert_ne; [done|]. intros <-. rewrite Hnew in Hsome. by destruct Hsome. }
  split_and!; simpl.
  - split; simpl.
    + intros k loc0. rewrite !lookup_insert_is_Some'. destruct (decide (key = k)) as [->|Hne].
      * rewrite lookup_insert_eq. intros [= <-]. by left.
      * rewrite lookup_insert_ne by done. intros Hk%Hs. by right.
    + intros loc0. rewrite lookup_insert_is_Some'. intros [<-|Hsome%Hf]; lia.
    + intros l Hin. destruct (Hl l Hin) as [H1 H2]. split; [|done]. by rewrite Hold.
    + intros loc0 l. rewrite lookup_insert. case_decide as Hd.
      * intros [= <-]. simpl. unfold open_on. rewrite (proj2 (countp_zero _ _)); [done|].
        intros x Hx Hst. destruct (Hl x Hx) as [H1%Hf _]. lia.
      * apply Hi.
  - rewrite lookup_insert_eq. by eexists.
  - by rewrite lookup_insert_eq.
  - intros k [x Hk]. rewrite lookup_insert_ne; [done|]. congruence.
  - intros l Hsome. by apply Hold.
Qed.

Lemma lookup_alter_is_Some {A} (f : A → A) (m : gmap N A) i j :
  is_Some (alter f i m !! j) ↔ is_Some (m !! j).
Proof.
  destruct (decide (i = j)) as [->|Hne]; [by rewrite lookup_alter_eq, fmap_is_Some|].
  by rewrite lookup_alter_ne.
Qed.

(** Changing the load at a place, together with the leases on it. *)
Lemma with_load_wf loc f b leases leases' :
  balance_wf b leases →
  (∀ l, l ∈ leases' → (l ∈ leases ∨ al_state l = loc ∧ is_Some (heap b !! loc)) ∧ settled l = false) →
  (∀ loc' l, heap b !! loc' = Some l → inflight l = N.of_nat (open_on loc' leases) →
     inflight (if decide (loc' = loc) then f l else l) = N.of_nat (open_on loc' leases')) →
  balance_wf (with_load loc f b) leases'.
Proof.
  intros [Hs Hf Hl Hi] Hl' Hin. unfold with_load, with_heap. split; simpl.
  - intros k loc' Hk. rewrite lookup_alter_is_Some. by eapply Hs.
  - intros loc'. rewrite lookup_alter_is_Some. apply Hf.
  - intros l Hlin. destruct (Hl' l Hlin) as [Hor Hset]. split; [|done]. rewrite lookup_alter_is_Some.
    destruct Hor as [?|[-> ?]]; [by apply Hl|done].
  - intros loc' l. destruct (decide (loc' = loc)) as [->|Hne].
    + rewrite lookup_alter_eq. destruct (heap b !! loc) as [l0|] eqn:E; simpl; [|done]. intros [= <-].
      specialize (Hin loc l0 E (Hi _ _ E)). by rewrite decide_True in Hin.
    + rewrite lookup_alter_ne by done. intros E. specialize (Hin loc' l E (Hi _ _ E)).
      by rewrite decide_False in Hin.
Qed.

Lemma see_instance_wf now b i leases : balance_wf b leases → balance_wf (see_instance now b i) leases.
Proof.
  intros Hwf. unfold see_instance. destruct (state_for (instance_identity i) now b) as [loc b1] eqn:E.
  destruct (state_for_wf _ _ _ _ _ _ Hwf E) as (Hwf1 & _). apply (with_load_wf _ _ _ leases); [done|..].
  - intros l Hl. split; [by left|]. by apply (bw_leases _ _ Hwf1).
  - intros loc' l _ Hi. by case_decide.
Qed.

Lemma synchronize_wf instances now b leases :
  balance_wf b leases → balance_wf (synchronize instances now b) leases.
Proof.
  intros Hwf. unfold synchronize.
  assert (balance_wf (foldl (see_instance now) b instances) leases) as [Hs Hf Hl Hi].
  { revert b Hwf. induction instances as [|i rest IH]; intros b Hwf; [done|]. by apply IH, see_instance_wf. }
  split; simpl; try done. intros k loc [Hk _]%map_lookup_filter_Some. by eapply Hs.
Qed.

Lemma cursor_wf c b leases : balance_wf b leases →
  balance_wf {| config := config b; started := started b; cursor := c; states := states b;
                heap := heap b; next_loc := next_loc b |} leases.
Proof. by intros [? ? ? ?]. Qed.

(** The two instances [choose] compares, and what it knows of them. *)
Lemma choose_spec instances now b leases r b' :
  balance_wf b leases → (2 ≤ length instances)%nat → choose instances now b = (r, b') →
  balance_wf b' leases ∧
  ∃ i j x y lx ly, i ≠ j ∧ instances !! i = Some x ∧ instances !! j = Some y ∧ r = Some x ∧
    (loc ← states b' !! instance_identity x; heap b' !! loc) = Some lx ∧
    (loc ← states b' !! instance_identity y; heap b' !! loc) = Some ly ∧
    let starved l := duration_nanos (force_pick_after (config b')) <? now - last_picked_nanos l in
    (starved lx = true ∧ starved ly = false ∨ starved lx = starved ly ∧ load lx ≤ load ly).
Proof.
  intros Hwf Hlen. unfold choose.
  destruct instances as [|i0 [|i1 rest]]; [simpl in Hlen; lia|simpl in Hlen; lia|].
  set (instances := i0 :: i1 :: rest) in *. clearbody instances.
  destruct (two_choices (cursor b) (N.of_nat (length instances))) as [i j] eqn:Et.
  destruct (two_choices_spec (cursor b) (N.of_nat (length instances)) i j ltac:(lia) Et) as (Hi & Hj & Hij).
  destruct (lookup_N_lt instances i Hi) as [x Hx]. destruct (lookup_N_lt instances j Hj) as [y Hy].
  rewrite Hx, Hy. set (b0 := {| config := config b |}).
  assert (balance_wf b0 leases) as Hwf0 by (by apply cursor_wf).
  destruct (state_for (instance_identity x) now b0) as [lx b1] eqn:E1.
  destruct (state_for_wf _ _ _ _ _ _ Hwf0 E1) as (Hwf1 & Hlx & Hsx & _).
  destruct (state_for (instance_identity y) now b1) as [ly b2] eqn:E2.
  destruct (state_for_wf _ _ _ _ _ _ Hwf1 E2) as (Hwf2 & Hly & Hsy & Hkeep & Hheap).
  intros [= <- <-]. split; [done|].
  destruct Hly as [loy Hly]. pose proof Hlx as [lox Hlx']. 
  assert (heap b2 !! lx = Some lox) as Hlx2 by (by rewrite Hheap).
  assert (states b2 !! instance_identity x = Some lx) as Hsx2 by (rewrite Hkeep; rewrite Hsx; [done|by eexists]).
  unfold load_at. rewrite Hlx2, Hly. simpl default.
  set (sx := _ <? now - last_picked_nanos lox). set (sy := _ <? now - last_picked_nanos loy).
  assert (N.to_nat i ≠ N.to_nat j) as Hne by lia.
  destruct (xorb sx sy) eqn:Exor.
  - destruct sx eqn:Esx, sy eqn:Esy; try done.
    + exists (N.to_nat i), (N.to_nat j), x, y, lox, loy. rewrite Hsx2, Hsy. split_and!; try done. by left.
    + exists (N.to_nat j), (N.to_nat i), y, x, loy, lox. rewrite Hsx2, Hsy. split_and!; try done. by left.
  - assert (sx = sy) as Hsame by (by destruct sx, sy).
    destruct (load lox <=? load loy) eqn:El; guard_prop.
    + exists (N.to_nat i), (N.to_nat j), x, y, lox, loy. rewrite Hsx2, Hsy. split_and!; try done. by right.
    + exists (N.to_nat j), (N.to_nat i), y, x, loy, lox. rewrite Hsx2, Hsy. split_and!; try done. right.
      split; [done|lia].
Qed.

Lemma choose_wf instances now b leases : balance_wf b leases → balance_wf (choose instances now b).2 leases.
Proof.
  intros Hwf. destruct instances as [|i0 [|i1 rest]] eqn:Ei; [done|done|].
  destruct (choose (i0 :: i1 :: rest) now b) as [r b'] eqn:E.
  by apply (choose_spec _ _ _ _ _ _ Hwf) in E as [? _]; [|simpl; lia].
Qed.

Lemma finish_drop lease outcome now b : settled lease = false →
  finish exp lease outcome now b = with_load (al_state lease) (settle_load exp lease outcome now) b.
Proof. intros Hs. unfold finish, drop_lease, AttemptLease_settle. by rewrite Hs. Qed.

Lemma drop_lease_eq lease now b : settled lease = false →
  drop_lease exp lease now b = with_load (al_state lease) (settle_load exp lease Cancelled now) b.
Proof. intros Hs. unfold drop_lease, AttemptLease_settle. by rewrite Hs. Qed.

Lemma settle_wf k lease outcome now b leases :
  balance_wf b leases → leases !! k = Some lease →
  balance_wf (with_load (al_state lease) (settle_load exp lease outcome now) b) (delete k leases).
Proof.
  intros Hwf Hk. pose proof (delete_Permutation leases k lease Hk) as Hp.
  apply (with_load_wf _ _ _ leases); [done|..].
  - intros l Hl. assert (l ∈ leases) as Hin by (rewrite Hp; by right).
    split; [by left|]. by apply (bw_leases _ _ Hwf).
  - intros loc' l _ Hi. unfold open_on, countp in *. rewrite Hp, filter_cons in Hi.
    repeat case_decide; try congruence; subst; simpl in *; lia.
Qed.

Lemma balance_step_wf b leases e :
  balance_wf b leases → N.of_nat (length leases) + 1 < 2 ^ 64 →
  let '(b', leases') := balance_step (b, leases) e in
  balance_wf b' leases' ∧ (length leases' ≤ Datatypes.S (length leases))%nat.
Proof.
  intros Hwf Hlen. assert (∀ k, (length (delete k leases) ≤ Datatypes.S (length leases))%nat) as Hdel.
  { intros k. pose proof (sublist_length _ _ (sublist_delete leases k)). lia. }
  destruct e as [l now lnow|l now|k o now|k now|l nn|now]; cbn [balance_step].
  - unfold pick_tracked.
    pose proof (choose_wf l (now_nanos b now) _ _ (synchronize_wf l (now_nanos b now) b leases Hwf)) as Hwf1.
    destruct (choose l (now_nanos b now) _) as [[i|] b1]; simpl in Hwf1; [|split; [done|lia]].
    destruct (state_for (instance_identity i) (now_nanos b now) b1) as [loc b2] eqn:E.
    destruct (state_for_wf _ _ _ _ _ _ Hwf1 E) as (Hwf2 & Hloc & _). split; [|done].
    apply (with_load_wf _ _ _ leases); [done|..].
    + intros l0 [->|Hl]%elem_of_cons; [by split; [right|]|]. split; [by left|]. by apply (bw_leases _ _ Hwf2).
    + intros loc' l0 _ Hi. unfold open_on. rewrite countp_cons. simpl.
      pose proof (countp_le (λ l, al_state l = loc') leases).
      repeat case_decide; try congruence; subst; simpl; rewrite Hi; unfold open_on, wrap; [|done].
      rewrite N.mod_small; lia.
  - split; [|lia]. unfold EwmaP2cBalancer_pick. by apply choose_wf, synchronize_wf.
  - destruct (leases !! k) as [lease|] eqn:E; [|split; [done|lia]]. split; [|done].
    rewrite finish_drop; [by apply settle_wf|]. apply (bw_leases _ _ Hwf). by eapply list_elem_of_lookup_2.
  - destruct (leases !! k) as [lease|] eqn:E; [|split; [done|lia]]. split; [|done].
    rewrite drop_lease_eq; [by apply settle_wf|]. apply (bw_leases _ _ Hwf). by eapply list_elem_of_lookup_2.
  - split; [by apply synchronize_wf|lia].
  - split; [by apply synchronize_wf|lia].
Qed.

Lemma balance_run_wf es b leases :
  balance_wf b leases → N.of_nat (length leases) + N.of_nat (length es) < 2 ^ 64 →
  let '(b', leases') := foldl balance_step (b, leases) es in balance_wf b' leases'.
Proof.
  revert b leases. induction es as [|e es IH]; intros b leases Hwf Hlen; [done|]. cbn [foldl length] in *.
  pose proof (balance_step_wf b leases e Hwf ltac:(lia)) as Hstep.
  destruct (balance_step (b, leases) e) as [b1 leases1]. destruct Hstep as [Hwf1 Hl1].
  apply IH; [done|lia].
Qed.

Lemma balance_new_wf cfg now : balance_wf (EwmaP2cBalancer_new cfg now) [].
Proof.
  split; simpl; try by intros ? ?; rewrite lookup_empty.
  - intros loc. rewrite lookup_empty. by intros [].
  - intros l ?%not_elem_of_nil. done.
Qed.
End accounting.

(** ** Rotation *)

(** [n] picks in a row over the same instances. *)
Fixpoint picks {A} (pick : N → option A * N) (n : nat) (cursor : N) : list (option A) :=
  match n with
  | O => []
  | S n' => let '(r, cursor) := pick cursor in r :: picks pick n' cursor
  end.

(** A cursor balancer over a list of candidates. *)
Definition cursor_pick {A} (l : list A) (cursor : N) : option A * N :=
  (l !! N.to_nat (cursor mod N.of_nat (length l)), fetch_add cursor).

Lemma picks_lookup {A} (l : list A) n cursor k :
  cursor + N.of_nat n ≤ 2 ^ 64 → (k < n)%nat →
  picks (cursor_pick l) n cursor !! k = Some (l !! N.to_nat ((cursor + N.of_nat k) mod N.of_nat (length l))).
Proof.
  revert cursor k. induction n as [|n IH]; intros cursor k Hc Hk; [lia|]. cbn [picks cursor_pick].
  destruct k as [|k]; simpl; [by rewrite N.add_0_r|].
  destruct (decide (n = 0%nat)) as [->|Hn]; [lia|].
  unfold fetch_add, wrap. rewrite (N.mod_small (cursor + 1)) by lia. rewrite IH by lia.
  do 4 f_equal. lia.
Qed.

Lemma picks_length {A} (l : list A) n cursor : length (picks (cursor_pick l) n cursor) = n.
Proof. revert cursor. induction n as [|n IH]; intros cursor; simpl; [done|by rewrite IH]. Qed.

Lemma mod_rotate c n k : 0 < n → k < n →
  (c + k) mod n = if c mod n + k <? n then c mod n + k else c mod n + k - n.
Proof.
  intros Hn Hk. pose proof (N.mod_lt c n ltac:(lia)) as Hr.
  rewrite <- N.Div0.add_mod_idemp_l. destruct (c mod n + k <? n) eqn:E; guard_prop.
  - by rewrite N.mod_small.
  - replace (c mod n + k) with (c mod n + k - n + 1 * n) at 1 by lia.
    rewrite N.Div0.mod_add, N.mod_small; lia.
Qed.

(** A full turn is a rotation of the candidates. *)
Lemma picks_rotation {A} (l : list A) cursor :
  cursor + N.of_nat (length l) ≤ 2 ^ 64 →
  let r := N.to_nat (cursor mod N.of_nat (length l)) in
  picks (cursor_pick l) (length l) cursor = Some <$> (drop r l ++ take r l).
Proof.
  intros Hc r. apply list_eq. intros k.
  destruct (decide (k < length l)%nat) as [Hk|Hk].
  2: { rewrite !lookup_ge_None_2; [done| |by rewrite picks_length; lia].
       rewrite length_fmap, length_app, length_drop, length_take. lia. }
  rewrite picks_lookup by done. rewrite list_lookup_fmap.
  pose proof (N.mod_lt cursor (N.of_nat (length l)) ltac:(lia)) as Hr.
  rewrite mod_rotate by lia. destruct (_ <? _) eqn:E; guard_prop.
  - rewrite lookup_app_l by (rewrite length_drop; lia). rewrite lookup_drop.
    replace (N.to_nat (cursor mod N.of_nat (length l) + N.of_nat k)) with (r + k)%nat by lia.
    destruct (lookup_lt_is_Some_2 l (r + k)) as [x ->]; [lia|done].
  - rewrite lookup_app_r by (rewrite length_drop; lia). rewrite length_drop, lookup_take_lt by lia.
    replace (N.to_nat (cursor mod N.of_nat (length l) + N.of_nat k - N.of_nat (length l)))
      with (k - (length l - r))%nat by lia.
    destruct (lookup_lt_is_Some_2 l (k - (length l - r))) as [x ->]; [lia|done].
Qed.

Lemma picks_permutation {A} (l : list A) cursor :
  cursor + N.of_nat (length l) ≤ 2 ^ 64 → picks (cursor_pick l) (length l) cursor ≡ₚ Some <$> l.
Proof.
  intros Hc. rewrite picks_rotation by done.
  apply fmap_Permutation. rewrite Permutation_app_comm. by rewrite take_drop.
Qed.

Lemma countp_Permutation {A} (P : A → Prop) `{∀ x, Decision (P x)} (l1 l2 : list A) :
  l1 ≡ₚ l2 → countp P l1 = countp P l2.
Proof. intros Hp. unfold countp. by rewrite Hp. Qed.

Lemma countp_replicate x y n :
  countp (λ r, r = Some y) (Some <$> replicate n x) = if decide (x = y :> ServiceInstance) then n else 0%nat.
Proof.
  induction n as [|n IH]; [by case_decide|]. cbn [replicate fmap list_fmap]. rewrite countp_cons, IH.
  repeat case_decide; simplify_eq; try done; lia.
Qed.

Lemma weighted_count (instances : list ServiceInstance) (x : ServiceInstance) :
  NoDup instances →
  countp (λ r, r = Some x) (Some <$> weighted_instances instances) =
  if decide (x ∈ instances) then N.to_nat (N.max (weight x) 1) else 0%nat.
Proof.
  induction 1 as [|i l Hi _ IH]; [done|]. unfold weighted_instances in *.
  rewrite bind_cons, fmap_app, countp_app, IH, countp_replicate.
  destruct (decide (i = x)) as [->|Hne].
  - rewrite (decide_False (P := x ∈ l)) by done. rewrite decide_True by (by left). lia.
  - destruct (decide (x ∈ l)) as [Hx|Hx].
    + rewrite decide_True by (by right). done.
    + rewrite decide_False; [done|]. rewrite elem_of_cons. naive_solver.
Qed.

Lemma weighted_not_empty instances : instances ≠ [] → weighted_instances instances ≠ [].
Proof.
  destruct instances as [|i l]; [done|]. intros _. unfold weighted_instances. rewrite bind_cons.
  destruct (N.to_nat (N.max (weight i) 1)) eqn:E; [lia|done].
Qed.

Lemma picks_ext {A} (f g : N → option A * N) n c : (∀ c, f c = g c) → picks f n c = picks g n c.
Proof.
  intros Hfg. revert c. induction n as [|n IH]; intros c; simpl; [done|]. rewrite Hfg.
  destruct (g c). by rewrite IH.
Qed.

(** ** The health-aware balancer *)

Lemma max_by_score_spec (l : list ServiceInstance) (best : option ServiceInstance) r :
  foldl (λ best i, match best with
                   | None => Some i
                   | Some b => if bool_decide (instance_score b ≤ instance_score i)%Z then Some i else Some b
                   end) best l = Some r →
  (best = Some r ∨ r ∈ l) ∧ (∀ i, best = Some i ∨ i ∈ l → (instance_score i ≤ instance_score r)%Z).
Proof.
  revert best. induction l as [|i l IH]; intros best; cbn [foldl].
  - intros ->. split; [by left|]. intros i [[= ->]|?%not_elem_of_nil]; [lia|done].
  - intros Hf. apply IH in Hf as [Hin Hmax]. split.
    + destruct best as [b|]; [case_bool_decide|]; rewrite elem_of_cons; destruct Hin as [[= <-]|?]; auto.
    + intros x Hx. destruct best as [b|]; [case_bool_decide as Hle|].
      * pose proof (Hmax i (or_introl eq_refl)).
        destruct Hx as [[= <-]|[->|Hx]%elem_of_cons]; [lia|lia|by apply Hmax; right].
      * pose proof (Hmax b (or_introl eq_refl)).
        destruct Hx as [[= <-]|[->|Hx]%elem_of_cons]; [lia|lia|by apply Hmax; right].
      * destruct Hx as [?|[->|Hx]%elem_of_cons]; [done|by apply Hmax; left|by apply Hmax; right].
Qed.

Lemma health_aware_best instances r :
  HealthAwareBalancer_pick instances = Some r →
  r ∈ instances ∧ ∀ i, i ∈ instances → (instance_score i ≤ instance_score r)%Z.
Proof.
  intros Hp. apply max_by_score_spec in Hp as [[?|?] Hmax]; [done|]. split; [done|].
  intros i Hi. apply Hmax. by right.
Qed.

(** The arithmetic of a score wraps: an instance that reports very many errors
    scores above a healthy one, and is picked. *)
Definition ex_overloaded : ServiceInstance :=
  {| si_name := lit "s"; addr := lit "a:1"; weight := 1;
     metadata := {[ lit "errors" := lit "1844674407370955161" ]} |}.

Lemma score_wraps :
  (instance_score (ServiceInstance_new (lit "s") (lit "b:1")) < instance_score ex_overloaded)%Z ∧
  HealthAwareBalancer_pick [ex_overloaded; ServiceInstance_new (lit "s") (lit "b:1")] = Some ex_overloaded.
Proof. split; vm_compute; reflexivity. Qed.

(** ** Properties *)

(** [integer_sqrt] computes the floor of the square root. For every [u128]
    the binary search ends within 64 rounds with the [r] such that
    [r * r <= value < (r + 1) * (r + 1)]. *)
Theorem integer_sqrt_floor value :
  value < 2 ^ 128 → ∃ r, integer_sqrt value = Some r ∧ r * r ≤ value ∧ value < (r + 1) * (r + 1).
Proof. apply integer_sqrt_spec. Qed.

(** Weights are honoured exactly. Over distinct instances and any cursor
    that does not wrap meanwhile, one full turn of the weighted round robin
    picks every instance exactly [weight.max(1)] times, and one turn of the
    round robin picks every instance once. *)
Theorem round_robin_fair instances cursor :
  NoDup instances → instances ≠ [] →
  let turn := length (weighted_instances instances) in
  cursor + N.of_nat turn ≤ 2 ^ 64 →
  (∀ x, x ∈ instances →
     countp (λ r, r = Some x) (picks (λ c, WeightedRoundRobinBalancer_pick c instances) turn cursor) =
     N.to_nat (N.max (weight x) 1)) ∧
  (cursor + N.of_nat (length instances) ≤ 2 ^ 64 →
   picks (λ c, RoundRobinBalancer_pick c instances) (length instances) cursor ≡ₚ Some <$> instances).
Proof.
  intros HN Hne turn Hc. split.
  - intros x Hx. pose proof (weighted_not_empty instances Hne) as Hw.
    rewrite (picks_ext _ (cursor_pick (weighted_instances instances))).
    + rewrite (countp_Permutation _ _ _ (picks_permutation _ _ Hc)), weighted_count by done.
      by rewrite decide_True.
    + intros c. unfold WeightedRoundRobinBalancer_pick. by destruct (weighted_instances instances).
  - intros Hc'. rewrite (picks_ext _ (cursor_pick instances)); [by apply picks_permutation|].
    intros c. unfold RoundRobinBalancer_pick. by destruct instances.
Qed.

(** The EWMA balancer compares two different instances and sends to the
    better one. For two or more instances a pick is one of two at different
    positions; if exactly one of them has not been picked for
    [force_pick_after], it is that one, otherwise one whose load is not greater
    than the other's. *)
Theorem ewma_choice_better (exp : f64 → f64) cfg t0 es b leases instances now r b' :
  N.of_nat (length es) < 2 ^ 64 →
  foldl (balance_step exp) (EwmaP2cBalancer_new cfg t0, []) es = (b, leases) →
  (2 ≤ length instances)%nat → choose instances now b = (r, b') →
  ∃ i j x y lx ly, i ≠ j ∧ instances !! i = Some x ∧ instances !! j = Some y ∧ r = Some x ∧
    (loc ← states b' !! instance_identity x; heap b' !! loc) = Some lx ∧
    (loc ← states b' !! instance_identity y; heap b' !! loc) = Some ly ∧
    let starved l := duration_nanos (force_pick_after (config b')) <? now - last_picked_nanos l in
    (starved lx = true ∧ starved ly = false ∨ starved lx = starved ly ∧ load lx ≤ load ly).
Proof.
  intros Hes Hrun Hlen Hch.
  pose proof (balance_run_wf exp es _ _ (balance_new_wf cfg t0) Hes) as Hwf. rewrite Hrun in Hwf.
  by destruct (choose_spec instances now b leases r b' Hwf Hlen Hch) as [_ Hspec].
Qed.

(** In-flight counts are exact. After any interleaving of picks, finished
    and dropped leases, synchronizations and prunes (fewer than 2^64 of them),
    the in-flight count of every load is the number of leases open on it,
    whether or not its instance is still listed; no lease is counted twice or
    forgotten. *)
Theorem inflight_counts_leases (exp : f64 → f64) cfg t0 es b leases loc l :
  N.of_nat (length es) < 2 ^ 64 →
  foldl (balance_step exp) (EwmaP2cBalancer_new cfg t0, []) es = (b, leases) →
  heap b !! loc = Some l → inflight l = N.of_nat (open_on loc leases).
Proof.
  intros Hes Hrun Hl.
  pose proof (balance_run_wf exp es _ _ (balance_new_wf cfg t0) Hes) as Hwf. rewrite Hrun in Hwf.
  by apply (bw_inflight _ _ Hwf).
Qed.

(** ** Witnesses *)

Lemma integer_sqrt_floor_witness :
  ∃ r, integer_sqrt 1000000000 = Some r ∧ r * r ≤ 1000000000 ∧ 1000000000 < (r + 1) * (r + 1).
Proof. apply integer_sqrt_floor. reflexivity. Defined.

Definition ex_heavy : ServiceInstance :=
  {| si_name := lit "s"; addr := lit "b:1"; weight := 2; metadata := ∅ |}.
Definition ex_instances : list ServiceInstance :=
  [ServiceInstance_new (lit "s") (lit "a:1"); ex_heavy].

Lemma round_robin_fair_witness :
  countp (λ r, r = Some ex_heavy)
    (picks (λ c, WeightedRoundRobinBalancer_pick c ex_instances) 3 5) = 2%nat.
Proof.
  apply (round_robin_fair ex_instances 5); [decide_closed|discriminate|vm_compute; discriminate|].
  right. left.
Defined.

(** A first pick of one instance, then a prune after the load went stale. *)
Definition ex_events : list balance_event := [EvPickTracked [ex_heavy] 5 6; EvPrune (from_secs 60)].
Abbreviation ex_balancer :=
  (foldl (balance_step (λ x, x)) (EwmaP2cBalancer_new EwmaP2cConfig_default 0, []) ex_events).

Lemma inflight_counts_leases_witness :
  states ex_balancer.1 = ∅ ∧ ∃ l, heap ex_balancer.1 !! 0 = Some l ∧ inflight l = N.of_nat (open_on 0 ex_balancer.2).
Proof.
  split; [vm_compute; reflexivity|].
  destruct (heap ex_balancer.1 !! 0) as [l|] eqn:E; [|exfalso; revert E; vm_compute; discriminate].
  exists l. split; [reflexivity|].
  apply (inflight_counts_leases (λ x, x) EwmaP2cConfig_default 0 ex_events ex_balancer.1 ex_balancer.2 0 l);
    [reflexivity|apply surjective_pairing|exact E].
Defined.

Lemma ewma_choice_better_witness :
  ∃ i j : nat, i ≠ j ∧ ∃ x, (choose ex_instances 7 ex_balancer.1).1 = Some x ∧ ex_instances !! i = Some x.
Proof.
  destruct (ewma_choice_better (λ x, x) EwmaP2cConfig_default 0 ex_events ex_balancer.1 ex_balancer.2 ex_instances 7
    (choose ex_instances 7 ex_balancer.1).1 (choose ex_instances 7 ex_balancer.1).2
    ltac:(reflexivity) ltac:(apply surjective_pairing) ltac:(simpl; lia)
    ltac:(apply surjective_pairing)) as (i & j & x & y & lx & ly & Hij & Hx & _ & Hr & _).
  exists i, j. split; [exact Hij|]. exists x. split; [exact Hr|exact Hx].
Defined.
