(* ===== verification/Registry.v ===== *)
(** * Service registries and resolvers (crates/roze-rpc/src/registry.rs)

    [MemoryRegistry], the keys and key ranges of [EtcdRegistry], and
    [CachedRegistryResolver]. The network calls to etcd and Consul are not
    modelled; a resolver's registry answers through the events of its history.
    [deregister] of the memory registry takes two locks, so it is also given as
    its two steps. *)

From S2P Require Import Prelude Text Scan Balance.

(** ** The memory registry *)

Definition MemoryRegistry : Type := gmap rstr (list ServiceInstance).

Definition MemoryRegistry_register (i : ServiceInstance) (r : gmap rstr (list ServiceInstance)) : MemoryRegistry :=
  let entry := default [] (r !! si_name i) in
  <[si_name i := filter (λ existing, addr existing ≠ addr i) entry ++ [i]]> r.

(** Under the lock of the entry: drop the address, and report if nothing is left. *)
Definition deregister_retain (name a : rstr) (r : gmap rstr (list ServiceInstance)) : bool * MemoryRegistry :=
  match r !! name with
  | Some l =>
      let l := filter (λ i, addr i ≠ a) l in
      (bool_decide (l = []), <[name := l]> r)
  | None => (false, r)
  end.
(** [if should_remove { self.instances.remove(name); }] *)
Definition deregister_remove (name : rstr) (should_remove : bool) (r : gmap rstr (list ServiceInstance)) : MemoryRegistry :=
  if should_remove then delete name r else r.
Definition MemoryRegistry_deregister (name a : rstr) (r : gmap rstr (list ServiceInstance)) : MemoryRegistry :=
  let '(should_remove, r) := deregister_retain name a r in deregister_remove name should_remove r.

Definition MemoryRegistry_discover (name : rstr) (r : gmap rstr (list ServiceInstance)) : list ServiceInstance :=
  default [] (r !! name).

(** ** Endpoints and keys *)

Definition slash : N := 47.

Definition normalize_registry_endpoint (endpoint : rstr) : rstr :=
  let endpoint := trim_end_matches (N.eqb slash) (trim endpoint) in
  if starts_with (lit "http://") endpoint || starts_with (lit "https://") endpoint then endpoint
  else lit "http://" ++ endpoint.

Definition registry_endpoints (configured : list rstr) (default : rstr) : list rstr :=
  match configured with [] => [default] | _ => normalize_registry_endpoint <$> configured end.

Definition first_registry_endpoint (configured : list rstr) (default : rstr) : rstr :=
  match configured with endpoint :: _ => normalize_registry_endpoint endpoint | [] => default end.

Definition normalize_etcd_registry_prefix (prefix : rstr) : rstr :=
  match trim_matches (N.eqb slash) (trim prefix) with
  | [] => lit "/roze/services"
  | prefix => lit "/" ++ prefix
  end.

Definition etcd_service_prefix (prefix name : rstr) : rstr :=
  normalize_etcd_registry_prefix prefix ++ lit "/" ++ name ++ lit "/".

Definition etcd_instance_key (prefix name a : rstr) : rstr := etcd_service_prefix prefix name ++ a.

(** The loop from the last byte down, on the reversed bytes. *)
Fixpoint prefix_end_rev (rev_prefix : list N) : list N :=
  match rev_prefix with
  | [] => []
  | b :: rest => if b =? 255 then prefix_end_rev rest else (b + 1) :: rest
  end.
Definition etcd_prefix_end (prefix : list N) : list N := reverse (prefix_end_rev (reverse prefix)).

(** [authority.rsplit_once('@').map_or(authority, |(_, host)| host)] *)
Definition strip_userinfo (authority : rstr) : rstr := reverse (take_until (N.eqb 64) (reverse authority)).

Definition safe_endpoint_label (endpoint : rstr) : rstr :=
  let endpoint := trim_end_matches (N.eqb slash) (take_until (λ c, (c =? 63) || (c =? 35)) endpoint) in
  match split_once (lit "://") endpoint with
  | Some (scheme, rest) => scheme ++ lit "://" ++ strip_userinfo (take_until (N.eqb slash) rest)
  | None => strip_userinfo (take_until (N.eqb slash) endpoint)
  end.

(** ** The caching resolver *)

Record CachedEntry := { discovered_at : N; ce_instances : list ServiceInstance }.

Record CachedRegistryResolver :=
  { cache_ttl : N; refresh_interval : N; cache : gmap rstr CachedEntry;
    refresh_tasks : gset rstr; watch_tasks : gset rstr }.

Definition CachedRegistryResolver_new (ttl : N) : CachedRegistryResolver :=
  {| cache_ttl := ttl;
     refresh_interval := N.max (if ttl =? 0 then from_secs 1 else ttl / 2) (from_millis 1);
     cache := ∅; refresh_tasks := ∅; watch_tasks := ∅ |}.

Definition with_refresh_interval (i : N) (s : CachedRegistryResolver) : CachedRegistryResolver :=
  {| cache_ttl := cache_ttl s; refresh_interval := N.max i (from_millis 1); cache := cache s;
     refresh_tasks := refresh_tasks s; watch_tasks := watch_tasks s |}.

Definition cached_instances (name : rstr) (now : N) (s : CachedRegistryResolver)
    : option (list ServiceInstance) :=
  entry ← cache s !! name;
  if now - discovered_at entry <=? cache_ttl s then Some (ce_instances entry) else None.

Definition store_instances (name : rstr) (l : list ServiceInstance) (now : N) (s : CachedRegistryResolver)
    : CachedRegistryResolver :=
  {| cache_ttl := cache_ttl s; refresh_interval := refresh_interval s;
     cache := <[name := {| discovered_at := now; ce_instances := l |}]> (cache s);
     refresh_tasks := refresh_tasks s; watch_tasks := watch_tasks s |}.

Definition ensure_tasks (supports_watch : bool) (name : rstr) (s : CachedRegistryResolver)
    : CachedRegistryResolver :=
  {| cache_ttl := cache_ttl s; refresh_interval := refresh_interval s; cache := cache s;
     refresh_tasks := {[ name ]} ∪ refresh_tasks s;
     watch_tasks := if supports_watch then {[ name ]} ∪ watch_tasks s else watch_tasks s |}.

(** [answer] is what the registry says if asked, at [later]. *)
Definition cached_discover {E} (supports_watch : bool) (name : rstr) (now : N)
    (answer : result E (list ServiceInstance)) (later : N) (s : CachedRegistryResolver)
    : result E (list ServiceInstance) * CachedRegistryResolver :=
  match cached_instances name now s with
  | Some l => (Ok l, ensure_tasks supports_watch name s)
  | None =>
      match answer with
      | Err e => (Err e, s)
      | Ok l => (Ok l, ensure_tasks supports_watch name (store_instances name l later s))
      end
  end.

(** One round of a refresh task; a failed round is only logged. *)
Definition refresh_round {E} (name : rstr) (answer : result E (list ServiceInstance)) (now : N)
    (s : CachedRegistryResolver) : CachedRegistryResolver :=
  if bool_decide (name ∈ refresh_tasks s)
  then match answer with Ok l => store_instances name l now s | Err _ => s end
  else s.

(** One message of a watch task. *)
Definition watch_message (name : rstr) (l : list ServiceInstance) (now : N)
    (s : CachedRegistryResolver) : CachedRegistryResolver :=
  if bool_decide (name ∈ watch_tasks s) then store_instances name l now s else s.

Definition invalidate (name : rstr) (s : CachedRegistryResolver) : CachedRegistryResolver :=
  {| cache_ttl := cache_ttl s; refresh_interval := refresh_interval s; cache := delete name (cache s);
     refresh_tasks := refresh_tasks s ∖ {[ name ]}; watch_tasks := watch_tasks s ∖ {[ name ]} |}.

(** ** Key ranges *)

(** The keys an etcd range request of [key] and [range_end] covers: byte order,
    from [key] up to but not including [range_end]. *)
Definition in_range (key range_end k : list N) : Prop :=
  str_leb key k = true ∧ str_leb range_end k = false.

Lemma prefix_end_rev_spec r :
  (∃ b, b ∈ r ∧ b ≠ 255) →
  ∃ n b q, r = replicate n 255 ++ b :: q ∧ b ≠ 255 ∧ prefix_end_rev r = (b + 1) :: q.
Proof.
  induction r as [|x r IH]; simpl; [by intros (b & ?%not_elem_of_nil & _)|].
  intros (b & Hb & Hne). destruct (N.eqb_spec x 255) as [->|Hx].
  - apply elem_of_cons in Hb as [->|Hb]; [done|].
    destruct IH as (n & b' & q & -> & ? & ->); [by exists b|]. by exists (S n), b', q.
  - by exists 0%nat, x, r.
Qed.

Lemma prefix_end_spec p :
  (∃ b, b ∈ p ∧ b ≠ 255) →
  ∃ q b n, p = q ++ b :: replicate n 255 ∧ b ≠ 255 ∧ etcd_prefix_end p = q ++ [b + 1].
Proof.
  intros (b & Hb & Hne). destruct (prefix_end_rev_spec (reverse p)) as (n & b' & q & Hr & Hb' & He).
  { exists b. by rewrite elem_of_reverse. }
  exists (reverse q), b', n. unfold etcd_prefix_end. rewrite He, reverse_cons. split_and!; [|done|done].
  rewrite <- (reverse_involutive p), Hr, reverse_app, reverse_cons, reverse_replicate, <- app_assoc. done.
Qed.

Lemma range_common q x y k :
  str_leb (q ++ x) k = true → str_leb (q ++ y) k = false →
  ∃ k', k = q ++ k' ∧ str_leb x k' = true ∧ str_leb y k' = false.
Proof.
  revert k. induction q as [|c q IH]; intros k; simpl; [by exists k|].
  destruct k as [|c' k]; [done|]. destruct (N.eqb_spec c c') as [->|Hne].
  - intros Hx Hy. destruct (IH k Hx Hy) as (k' & -> & ? & ?). by exists k'.
  - intros Hx Hy. congruence.
Qed.

Lemma leb_max_prefix n k : is_bytes k → str_leb (replicate n 255) k = true → ∃ s, k = replicate n 255 ++ s.
Proof.
  revert k. induction n as [|n IH]; intros k Hk; [by exists k|].
  destruct k as [|c k]; [done|]. apply Forall_cons in Hk as [Hc Hk].
  cbn [replicate app str_leb]. destruct (N.eqb_spec 255 c) as [<-|Hne]; [|intros Hl%N.ltb_lt; lia].
  intros Hl. destruct (IH k Hk Hl) as [s ->]. by exists s.
Qed.

Lemma str_leb_app_r a s : str_leb a (a ++ s) = true.
Proof. induction a as [|c a IH]; simpl; [done|]. by rewrite N.eqb_refl. Qed.

Lemma str_leb_app_l q a b : str_leb (q ++ a) (q ++ b) = str_leb a b.
Proof. induction q as [|c q IH]; simpl; [done|]. by rewrite N.eqb_refl. Qed.

Lemma prefix_range p k :
  (∃ b, b ∈ p ∧ b ≠ 255) → is_bytes p → is_bytes k →
  in_range p (etcd_prefix_end p) k ↔ ∃ s, k = p ++ s.
Proof.
  intros Hne Hp Hk. destruct (prefix_end_spec p Hne) as (q & b & n & -> & Hb & ->).
  unfold in_range. split.
  - intros [H1 H2]. destruct (range_common q _ _ k H1 H2) as (k' & -> & H3 & H4).
    apply Forall_app in Hk as [_ Hk]. simpl in H3, H4. destruct k' as [|c k']; [done|].
    apply Forall_cons in Hk as [_ Hk].
    assert (c = b) as ->.
    { destruct (N.eqb_spec b c) as [|Hbc]; [done|]. rewrite N.ltb_lt in H3.
      destruct (N.eqb_spec (b + 1) c); [done|]. rewrite N.ltb_ge in H4. lia. }
    rewrite N.eqb_refl in H3. destruct (leb_max_prefix n k' Hk H3) as [s ->].
    exists s. by rewrite <- app_assoc.
  - intros [s ->]. rewrite str_leb_app_r. split; [done|].
    rewrite <- app_assoc, str_leb_app_l. simpl.
    destruct (N.eqb_spec (b + 1) b); [lia|]. apply N.ltb_ge. lia.
Qed.

Lemma normalize_prefix_valid prefix : valid_str prefix → valid_str (normalize_etcd_registry_prefix prefix).
Proof.
  intros Hp. unfold normalize_etcd_registry_prefix, valid_str.
  pose proof (trim_matches_Forall (N.eqb slash) _ (trim prefix)
    (trim_matches_Forall is_whitespace _ prefix Hp)) as Ht.
  destruct (trim_matches _ _) as [|c s].
  - decide_closed.
  - simpl. apply Forall_cons. split; [reflexivity|done].
Qed.

Lemma service_prefix_valid prefix name :
  valid_str prefix → valid_str name → valid_str (etcd_service_prefix prefix name).
Proof.
  intros Hp Hn. unfold etcd_service_prefix, valid_str. apply Forall_app. split; [by apply normalize_prefix_valid|].
  repeat (apply Forall_app; split); try done; decide_closed.
Qed.

(** ** The memory registry *)

Inductive registry_event := EvRegister (i : ServiceInstance) | EvDeregister (name a : rstr).

Definition registry_step (r : gmap rstr (list ServiceInstance)) (e : registry_event) : MemoryRegistry :=
  match e with
  | EvRegister i => MemoryRegistry_register i r
  | EvDeregister name a => MemoryRegistry_deregister name a r
  end.

(** What the last event about [(name, a)] left there. *)
Definition registered (es : list registry_event) (name a : rstr) : option ServiceInstance :=
  foldl (λ cur e, match e with
                  | EvRegister i => if bool_decide (si_name i = name ∧ addr i = a) then Some i else cur
                  | EvDeregister n x => if bool_decide (n = name ∧ x = a) then None else cur
                  end) None es.

Lemma registered_snoc es e name a : registered (es ++ [e]) name a =
  match e with
  | EvRegister i => if bool_decide (si_name i = name ∧ addr i = a) then Some i else registered es name a
  | EvDeregister n x => if bool_decide (n = name ∧ x = a) then None else registered es name a
  end.
Proof. unfold registered. by rewrite foldl_app. Qed.

Lemma discover_register i r name : MemoryRegistry_discover name (MemoryRegistry_register i r) =
  if decide (si_name i = name)
  then filter (λ existing, addr existing ≠ addr i) (MemoryRegistry_discover name r) ++ [i]
  else MemoryRegistry_discover name r.
Proof.
  unfold MemoryRegistry_discover, MemoryRegistry_register. cbv zeta. destruct (decide (si_name i = name)) as [<-|Hne].
  - by rewrite lookup_insert_eq.
  - by rewrite lookup_insert_ne.
Qed.

Lemma discover_deregister n a r name : MemoryRegistry_discover name (MemoryRegistry_deregister n a r) =
  if decide (n = name) then filter (λ i, addr i ≠ a) (MemoryRegistry_discover name r)
  else MemoryRegistry_discover name r.
Proof.
  unfold MemoryRegistry_discover, MemoryRegistry_deregister, deregister_retain, deregister_remove.
  destruct (r !! n) as [l|] eqn:E.
  - case_bool_decide as Hl.
    + cbn [deregister_remove]. rewrite delete_insert_eq. destruct (decide (n = name)) as [->|Hne].
      * rewrite lookup_delete_eq, E. simpl. by rewrite Hl.
      * by rewrite lookup_delete_ne.
    + rewrite lookup_insert. case_decide; [|done]. subst. by rewrite E.
  - case_decide; [|done]. subst. by rewrite E.
Qed.

Lemma NoDup_filter_addrs (P : ServiceInstance → Prop) `{∀ x, Decision (P x)} l :
  NoDup (addr <$> l) → NoDup (addr <$> filter P l).
Proof.
  induction l as [|i l IH]; [done|]. rewrite fmap_cons, NoDup_cons, filter_cons. intros [Hi Hl].
  case_decide; [|by apply IH]. rewrite fmap_cons, NoDup_cons. split; [|by apply IH].
  rewrite list_elem_of_fmap in Hi |- *. intros (j & Hj & [_ Hin]%list_elem_of_filter). apply Hi. by exists j.
Qed.

Lemma registry_inv es :
  let r := foldl registry_step ∅ es in
  ∀ name, NoDup (addr <$> MemoryRegistry_discover name r) ∧
    ∀ a i, i ∈ MemoryRegistry_discover name r ∧ addr i = a ↔ registered es name a = Some i.
Proof.
  induction es as [|e es IH] using rev_ind; intros r name.
  { split; [apply NoDup_nil_2|]. intros a i. split; [|done]. by intros [?%not_elem_of_nil _]. }
  subst r. rewrite foldl_app. cbn [foldl]. destruct (IH name) as [HN Hreg].
  set (r := foldl registry_step ∅ es) in *. destruct e as [x|n x]; cbn [registry_step].
  - rewrite discover_register. destruct (decide (si_name x = name)) as [Hn|Hn].
    + split.
      * rewrite fmap_app, NoDup_app. split_and!; [by apply NoDup_filter_addrs| |apply NoDup_singleton].
        intros a Ha ->%list_elem_of_singleton.
        apply list_elem_of_fmap in Ha as (j & Hj & [Hne _]%list_elem_of_filter). congruence.
      * intros a i. rewrite registered_snoc, elem_of_app, list_elem_of_singleton, list_elem_of_filter.
        case_bool_decide as Hx; [|rewrite <- Hreg].
        -- destruct Hx as [_ <-]. split; [|naive_solver]. by intros [[[? _]| ->] ?].
        -- split; [|naive_solver]. intros [[[_ ?]| ->] ?]; [done|]. by destruct Hx.
    + split; [done|]. intros a i. rewrite Hreg, registered_snoc.
      by rewrite bool_decide_false by (intros [? _]; done).
  - rewrite discover_deregister. destruct (decide (n = name)) as [Hn|Hn].
    + split; [by apply NoDup_filter_addrs|]. intros a i. rewrite registered_snoc, list_elem_of_filter.
      case_bool_decide as Hx; [|rewrite <- Hreg]; [split; [|done]; naive_solver|].
      split; [naive_solver|]. intros [? <-]. split_and!; try done. naive_solver.
    + split; [done|]. intros a i. rewrite Hreg, registered_snoc.
      by rewrite bool_decide_false by (intros [? _]; done).
Qed.

(** [deregister] takes the lock twice: an instance that registers under the
    same name in between is lost with the emptied entry. *)
Lemma deregister_loses_registration (i j : ServiceInstance) :
  si_name i = si_name j → addr i ≠ addr j →
  let r0 := MemoryRegistry_register i ∅ in
  let '(should_remove, r1) := deregister_retain (si_name i) (addr i) r0 in
  let r2 := MemoryRegistry_register j r1 in
  MemoryRegistry_discover (si_name j) r2 = [j] ∧
  MemoryRegistry_discover (si_name j) (deregister_remove (si_name i) should_remove r2) = [] ∧
  MemoryRegistry_discover (si_name j)
    (MemoryRegistry_deregister (si_name i) (addr i) (MemoryRegistry_register j r0)) = [j].
Proof.
  intros Hn Ha r0. destruct (deregister_retain (si_name i) (addr i) r0) as [b r1] eqn:E.
  unfold deregister_retain, r0, MemoryRegistry_register in E. rewrite lookup_empty in E. simpl in E.
  rewrite lookup_insert_eq, filter_cons, decide_False in E by naive_solver. simpl in E.
  injection E as <- <-. intros r2. split_and!.
  - unfold r2. rewrite discover_register, decide_True by done. unfold MemoryRegistry_discover.
    by rewrite Hn, lookup_insert_eq.
  - unfold deregister_remove. simpl. unfold MemoryRegistry_discover. by rewrite Hn, lookup_delete_eq.
  - rewrite discover_deregister, decide_True by done. rewrite discover_register, decide_True by done.
    unfold r0. rewrite discover_register, decide_True by done.
    unfold MemoryRegistry_discover. rewrite lookup_empty. simpl.
    rewrite filter_cons, decide_True by done. simpl.
    rewrite filter_cons, decide_False by naive_solver. by rewrite filter_cons, decide_True.
Qed.

(** ** The caching resolver *)

Section cached.
Context {E : Type}.

Inductive resolver_event :=
| EvDiscover (supports_watch : bool) (name : rstr) (now : N) (answer : result E (list ServiceInstance)) (later : N)
| EvRefresh (name : rstr) (answer : result E (list ServiceInstance)) (now : N)
| EvWatch (name : rstr) (l : list ServiceInstance) (now : N)
| EvInvalidate (name : rstr).

Definition resolver_step (s : CachedRegistryResolver) (e : resolver_event) : CachedRegistryResolver :=
  match e with
  | EvDiscover w name now answer later => (cached_discover w name now answer later s).2
  | EvRefresh name answer now => refresh_round name answer now s
  | EvWatch name l now => watch_message name l now s
  | EvInvalidate name => invalidate name s
  end.

(** The registry's last word on a name: what it answered a discovery or a
    refresh, or pushed to a watch, and when; nothing since an invalidation. *)
Definition last_word (name : rstr) (s : CachedRegistryResolver) (w : option (N * list ServiceInstance))
    (e : resolver_event) : option (N * list ServiceInstance) :=
  match e with
  | EvDiscover _ n now (Ok l) later =>
      if bool_decide (n = name ∧ cached_instances name now s = None) then Some (later, l) else w
  | EvDiscover _ _ _ (Err _) _ => w
  | EvRefresh n (Ok l) now => if bool_decide (n = name ∧ n ∈ refresh_tasks s) then Some (now, l) else w
  | EvRefresh _ (Err _) _ => w
  | EvWatch n l now => if bool_decide (n = name ∧ n ∈ watch_tasks s) then Some (now, l) else w
  | EvInvalidate n => if bool_decide (n = name) then None else w
  end.

Definition resolver_run (name : rstr) (s : CachedRegistryResolver) (es : list resolver_event)
    : CachedRegistryResolver * option (N * list ServiceInstance) :=
  foldl (λ sw e, (resolver_step sw.1 e, last_word name sw.1 sw.2 e)) (s, None) es.

Definition entry_word (name : rstr) (s : CachedRegistryResolver) : option (N * list ServiceInstance) :=
  (λ c, (discovered_at c, ce_instances c)) <$> cache s !! name.

Lemma store_word name n l now s : entry_word name (store_instances n l now s) =
  if decide (n = name) then Some (now, l) else entry_word name s.
Proof.
  unfold entry_word, store_instances. cbn [cache]. case_decide as Hn.
  - subst. by rewrite lookup_insert_eq.
  - by rewrite lookup_insert_ne.
Qed.

Lemma resolver_step_word name s e :
  entry_word name (resolver_step s e) = last_word name s (entry_word name s) e ∧
  cache_ttl (resolver_step s e) = cache_ttl s.
Proof.
  destruct e as [w n now [l|err] later|n [l|err] now|n l now|n]; cbn [resolver_step last_word].
  - unfold cached_discover. destruct (cached_instances n now s) as [l'|] eqn:Ec; simpl; (split; [|done]).
    + rewrite bool_decide_false; [done|]. intros [-> ?]. congruence.
    + change (entry_word name (ensure_tasks w n (store_instances n l later s)))
        with (entry_word name (store_instances n l later s)). rewrite store_word.
      case_decide; [subst; by rewrite bool_decide_true|]. rewrite bool_decide_false; [done|]. by intros [? _].
  - unfold cached_discover. by destruct (cached_instances n now s).
  - unfold refresh_round. case_bool_decide as Ht; (split; [|done]).
    + rewrite store_word. case_decide; [by rewrite bool_decide_true|].
      rewrite bool_decide_false; [done|]. by intros [? _].
    + rewrite bool_decide_false; [done|]. by intros [_ ?].
  - unfold refresh_round. by case_bool_decide.
  - unfold watch_message. case_bool_decide as Ht; (split; [|done]).
    + rewrite store_word. case_decide; [by rewrite bool_decide_true|].
      rewrite bool_decide_false; [done|]. by intros [? _].
    + rewrite bool_decide_false; [done|]. by intros [_ ?].
  - split; [|done]. unfold entry_word, invalidate. cbn [cache]. case_bool_decide as Hn.
    + subst. by rewrite lookup_delete_eq.
    + by rewrite lookup_delete_ne.
Qed.

Lemma resolver_run_word name s es :
  cache s = ∅ → entry_word name (resolver_run name s es).1 = (resolver_run name s es).2 ∧
  cache_ttl (resolver_run name s es).1 = cache_ttl s.
Proof.
  intros Hs. unfold resolver_run. induction es as [|e es [IH1 IH2]] using rev_ind.
  { unfold entry_word. simpl. by rewrite Hs, lookup_empty. }
  rewrite foldl_app. cbn [foldl fst snd]. set (sw := foldl _ _ es) in *.
  destruct (resolver_step_word name sw.1 e) as [-> ->]. by rewrite IH1.
Qed.
End cached.

(** ** Properties *)

(** A service sees its own instances only. The range an etcd discovery of
    [name] asks for contains the key of an instance of [name'] if and only if the
    names are equal, for names without a slash and every configured prefix and
    address. *)
Theorem etcd_discovery_scoped prefix name name' a :
  valid_str prefix → valid_str name → valid_str name' → valid_str a → slash ∉ name → slash ∉ name' →
  let key := as_bytes (etcd_service_prefix prefix name) in
  in_range key (etcd_prefix_end key) (as_bytes (etcd_instance_key prefix name' a)) ↔ name = name'.
Proof.
  intros Hp Hn Hn' Ha Hs Hs' key.
  rewrite prefix_range.
  - unfold key, etcd_instance_key, etcd_service_prefix. rewrite !as_bytes_app, <- !app_assoc. split.
    + intros [s Heq]. rewrite <- !app_assoc in Heq. do 2 apply app_inv_head in Heq.
      apply as_bytes_inj; [done..|]. symmetry. eapply split_at_first; [| |exact Heq];
        intros Hin; apply as_bytes_ascii in Hin; done.
    + intros ->. exists (as_bytes a). by rewrite <- !app_assoc.
  - exists slash. split; [|done]. unfold key, etcd_service_prefix. rewrite !as_bytes_app, !elem_of_app.
    right. left. by left.
  - by apply as_bytes_is_bytes, service_prefix_valid.
  - apply as_bytes_is_bytes. unfold etcd_instance_key, valid_str. apply Forall_app.
    split; [by apply service_prefix_valid|done].
Qed.

(** Discovery is exact in the memory registry. After any sequence of
    registrations and deregistrations, [discover name] lists an instance exactly
    if the last event about its name and address registered it, each address
    once. *)
Theorem memory_discover_exact es name :
  let found := MemoryRegistry_discover name (foldl registry_step ∅ es) in
  NoDup (addr <$> found) ∧ ∀ i, i ∈ found ↔ registered es name (addr i) = Some i.
Proof.
  intros found. destruct (registry_inv es name) as [HN Hreg]. split; [done|].
  intros i. rewrite <- Hreg. unfold found. naive_solver.
Qed.

(** The cache never hides the registry's last word. Whatever discoveries,
    refreshes, watch messages and invalidations came before, a discovery served
    from the cache gives what the registry last said of that name, said at most
    [cache_ttl] ago and after the last invalidation. *)
Theorem cached_discover_fresh {E} ttl (es : list (@resolver_event E)) name now l :
  let '(s, word) := resolver_run name (CachedRegistryResolver_new ttl) es in
  cached_instances name now s = Some l → ∃ t, word = Some (t, l) ∧ now - t ≤ ttl.
Proof.
  pose proof (resolver_run_word name (CachedRegistryResolver_new ttl) es eq_refl) as [Hw Ht].
  destruct (resolver_run name (CachedRegistryResolver_new ttl) es) as [s word]. simpl in Hw, Ht.
  unfold cached_instances, entry_word in *. destruct (cache s !! name) as [c|]; simpl in *; [|done].
  destruct (_ <=? _) eqn:El; intros [= <-]. guard_prop. exists (discovered_at c). rewrite <- Hw.
  split; [done|]. by rewrite <- Ht.
Qed.

(** ** Witnesses *)

Lemma etcd_discovery_scoped_witness :
  let key := as_bytes (etcd_service_prefix (lit " roze/ ") (lit "users")) in
  in_range key (etcd_prefix_end key) (as_bytes (etcd_instance_key (lit " roze/ ") (lit "users") (lit "10.0.0.1:80"))) ∧
  ¬ in_range key (etcd_prefix_end key) (as_bytes (etcd_instance_key (lit " roze/ ") (lit "users2") (lit "10.0.0.1:80"))).
Proof.
  split.
  - apply etcd_discovery_scoped; [decide_closed..|reflexivity].
  - intros H. apply etcd_discovery_scoped in H; [discriminate H|decide_closed..].
Defined.

Lemma cached_discover_fresh_witness :
  let run := resolver_run (E := unit) (lit "s") (CachedRegistryResolver_new (from_secs 10))
    [EvDiscover false (lit "s") 5 (Ok [ex_heavy]) 6] in
  ∃ t, run.2 = Some (t, [ex_heavy]) ∧ from_secs 3 - t ≤ from_secs 10.
Proof.
  apply (cached_discover_fresh (E := unit) (from_secs 10) [EvDiscover false (lit "s") 5 (Ok [ex_heavy]) 6]
    (lit "s") (from_secs 3) [ex_heavy]).
  vm_compute. reflexivity.
Defined.
