(* ===== verification/Migration.v ===== *)
(** * Database migrations (crates/roze-migration/src/lib.rs)

    Validated forward and rollback plans, their execution in a transaction over
    the [roze_migrations] ledger, and migration of several shards. The database
    is a world [W] that a statement changes or refuses, a parameter, and the
    ledger table, which may not exist yet; a transaction that does not commit
    leaves both as they were. The three drivers instantiate the same macros. *)

From S2P Require Import Prelude Text.

Record SqlMigration :=
  { version : Z; m_name : rstr; up_sql : rstr; down_sql : option rstr }.
Record MigrationRecord := { r_version : Z; r_name : rstr }.
Inductive MigrationDirection := Up | Down.
Record MigrationStep :=
  { st_version : Z; st_name : rstr; direction : MigrationDirection; sql : rstr }.
Abbreviation MigrationPlan := (list MigrationStep).

Inductive MigrationPlanError :=
| DuplicateVersion (version : Z)
| UnknownAppliedVersion (version : Z)
| NameDrift (version : Z) (applied expected : rstr)
| MissingDownSql (version : Z) (name : rstr)
| InvalidRollbackTarget (target : Z).

(** ** Plans *)

(** [sort_by_key(|migration| migration.version)], which is stable. *)
Fixpoint insert_by_version (m : SqlMigration) (l : list SqlMigration) : list SqlMigration :=
  match l with
  | [] => [m]
  | x :: l' => if bool_decide (version m ≤ version x)%Z then m :: l else x :: insert_by_version m l'
  end.
Definition sort_migrations (migrations : list SqlMigration) : list SqlMigration :=
  foldr insert_by_version [] migrations.

(** The loop over [ordered.windows(2)]. *)
Fixpoint duplicate_version (ordered : list SqlMigration) : option Z :=
  match ordered with
  | x :: (y :: _) as ordered' =>
      if bool_decide (version x = version y) then Some (version x) else duplicate_version ordered'
  | _ => None
  end.

Definition validated_migrations (migrations : list SqlMigration)
    : result MigrationPlanError (list SqlMigration) :=
  let ordered := sort_migrations migrations in
  match duplicate_version ordered with Some v => Err (DuplicateVersion v) | None => Ok ordered end.

(** [iter().find(|migration| migration.version == v)] *)
Definition find_version (v : Z) (migrations : list SqlMigration) : option SqlMigration :=
  snd <$> list_find (λ m, version m = v) migrations.

Definition validate_record (migrations : list SqlMigration) (record : MigrationRecord)
    : result MigrationPlanError unit :=
  m ← ok_or (find_version (r_version record) migrations) (UnknownAppliedVersion (r_version record));
  if bool_decide (m_name m ≠ r_name record) then Err (NameDrift (r_version record) (r_name record) (m_name m))
  else Ok tt.
Definition validate_applied (applied : list MigrationRecord) (migrations : list SqlMigration)
    : result MigrationPlanError unit :=
  _ ← collect (validate_record migrations) applied; Ok tt.

Definition up_step (m : SqlMigration) : MigrationStep :=
  {| st_version := version m; st_name := m_name m; direction := Up; sql := up_sql m |}.

Definition plan_apply (applied : list MigrationRecord) (migrations : list SqlMigration)
    : result MigrationPlanError MigrationPlan :=
  ordered ← validated_migrations migrations;
  _ ← validate_applied applied ordered;
  let applied_versions := r_version <$> applied in
  Ok (up_step <$> filter (λ m, version m ∉ applied_versions) ordered).

(** One round of the rollback loop; [None] is the [expect]. *)
Definition down_step (ordered : list SqlMigration) (record : MigrationRecord)
    : option (result MigrationPlanError MigrationStep) :=
  m ← find_version (r_version record) ordered;
  Some (sql ← ok_or (down_sql m) (MissingDownSql (version m) (m_name m));
        Ok {| st_version := version m; st_name := m_name m; direction := Down; sql := sql |}).

Fixpoint down_steps (ordered : list SqlMigration) (records : list MigrationRecord)
    : option (result MigrationPlanError MigrationPlan) :=
  match records with
  | [] => Some (Ok [])
  | record :: records' =>
      r ← down_step ordered record;
      match r with
      | Err e => Some (Err e)
      | Ok step => rest ← down_steps ordered records'; Some (steps ← rest; Ok (step :: steps))
      end
  end.

Definition plan_rollback (applied : list MigrationRecord) (migrations : list SqlMigration) (target : Z)
    : option (result MigrationPlanError MigrationPlan) :=
  match ordered ← validated_migrations migrations; _ ← validate_applied applied ordered; Ok ordered with
  | Err e => Some (Err e)
  | Ok ordered =>
      if bool_decide (target ≠ 0%Z) && negb (existsb (λ r, bool_decide (r_version r = target)) applied)
      then Some (Err (InvalidRollbackTarget target))
      else down_steps ordered (filter (λ r, (target < r_version r)%Z) (reverse applied))
  end.

Definition diff_pending (applied : list Z) (migrations : list SqlMigration) : list SqlMigration :=
  filter (λ m, version m ∉ applied) migrations.

(** ** Execution *)

Record Database (W : Type) := { world : W; ledger : option (gmap Z rstr) }.
Arguments world {W}. Arguments ledger {W}.

Inductive MigrateError :=
| PlanFailed (e : MigrationPlanError)
| StatementFailed (step : MigrationStep)
| LedgerConflict (version : Z)
| CommitFailed.

Section execution.
Context {W : Type} (run_sql : rstr → W → option W) (commit_ok : W → bool).

(** [CREATE TABLE IF NOT EXISTS roze_migrations] *)
Definition ensure_ledger (db : Database W) : Database W :=
  {| world := world db; ledger := Some (default ∅ (ledger db)) |}.

(** [SELECT version, name FROM roze_migrations ORDER BY version ASC] *)
Definition by_version (a b : Z * rstr) : Prop := (a.1 ≤ b.1)%Z.
#[export] Instance by_version_dec : RelDecision by_version.
Proof. intros a b. unfold by_version. apply _. Defined.
Definition migration_records (db : Database W) : list MigrationRecord :=
  (λ vn, {| r_version := vn.1; r_name := vn.2 |}) <$>
    merge_sort by_version (map_to_list (default ∅ (ledger db))).

Definition execute_step (step : MigrationStep) (w : W) (rows : gmap Z rstr)
    : result MigrateError (W * gmap Z rstr) :=
  w ← ok_or (run_sql (sql step) w) (StatementFailed step);
  match direction step with
  | Up => match rows !! st_version step with
          | Some _ => Err (LedgerConflict (st_version step))
          | None => Ok (w, <[st_version step := st_name step]> rows)
          end
  | Down => Ok (w, delete (st_version step) rows)
  end.

Fixpoint execute_steps (steps : MigrationPlan) (w : W) (rows : gmap Z rstr)
    : result MigrateError (W * gmap Z rstr) :=
  match steps with
  | [] => Ok (w, rows)
  | step :: steps' => p ← execute_step step w rows; execute_steps steps' p.1 p.2
  end.

Definition execute_plan (db : Database W) (plan : MigrationPlan) : result MigrateError unit * Database W :=
  let db := ensure_ledger db in
  match execute_steps plan (world db) (default ∅ (ledger db)) with
  | Err e => (Err e, db)
  | Ok (w, rows) =>
      if commit_ok w then (Ok tt, {| world := w; ledger := Some rows |}) else (Err CommitFailed, db)
  end.

Definition migrate (db : Database W) (migrations : list SqlMigration)
    : result MigrateError MigrationPlan * Database W :=
  let db := ensure_ledger db in
  match plan_apply (migration_records db) migrations with
  | Err e => (Err (PlanFailed e), db)
  | Ok plan =>
      match execute_plan db plan with
      | (Err e, db) => (Err e, db)
      | (Ok _, db) => (Ok plan, db)
      end
  end.

Definition rollback (db : Database W) (migrations : list SqlMigration) (target : Z)
    : option (result MigrateError MigrationPlan * Database W) :=
  let db := ensure_ledger db in
  r ← plan_rollback (migration_records db) migrations target;
  match r with
  | Err e => Some (Err (PlanFailed e), db)
  | Ok plan =>
      match execute_plan db plan with
      | (Err e, db) => Some (Err e, db)
      | (Ok _, db) => Some (Ok plan, db)
      end
  end.

(** ** Shards *)

Record ShardMigrationOutcome := { shard : rstr; plan : MigrationPlan }.
Record ShardMigrationError :=
  { failed_shard : rstr; completed : list ShardMigrationOutcome; source : MigrateError }.

(** The shards go in order; the first failure stops the run. *)
Fixpoint run_shards (single : Database W → option (result MigrateError MigrationPlan * Database W))
    (shards : list (rstr * Database W)) (completed : list ShardMigrationOutcome)
    : option (result ShardMigrationError (list ShardMigrationOutcome) * list (rstr * Database W)) :=
  match shards with
  | [] => Some (Ok completed, [])
  | (name, db) :: shards' =>
      r ← single db;
      match r with
      | (Err e, db) =>
          Some (Err {| failed_shard := name; completed := completed; source := e |}, (name, db) :: shards')
      | (Ok plan, db) =>
          r ← run_shards single shards' (completed ++ [{| shard := name; plan := plan |}]);
          Some (r.1, (name, db) :: r.2)
      end
  end.
Definition migrate_shards (shards : list (rstr * Database W)) (migrations : list SqlMigration) :=
  run_shards (λ db, Some (migrate db migrations)) shards [].
Definition rollback_shards (shards : list (rstr * Database W)) (migrations : list SqlMigration) (target : Z) :=
  run_shards (λ db, rollback db migrations target) shards [].
End execution.

(** ** Lemmas on plans *)

Lemma insert_by_version_perm m l : insert_by_version m l ≡ₚ m :: l.
Proof.
  induction l as [|x l IH]; simpl; [done|]. case_bool_decide; [done|].
  by rewrite IH, Permutation_swap.
Qed.

Lemma sort_migrations_perm l : sort_migrations l ≡ₚ l.
Proof. induction l as [|m l IH]; simpl; [done|]. by rewrite insert_by_version_perm, IH. Qed.

Abbreviation ascending l := (StronglySorted (λ a b, (version a ≤ version b)%Z) l).

Lemma insert_by_version_sorted m l : ascending l → ascending (insert_by_version m l).
Proof.
  induction 1 as [|x l Hl IH Hx]; simpl; [repeat constructor|]. case_bool_decide as Hm.
  - constructor; [by constructor|]. constructor; [done|].
    eapply Forall_impl; [exact Hx|]. simpl. lia.
  - constructor; [done|]. rewrite insert_by_version_perm. constructor; [lia|done].
Qed.

Lemma sort_migrations_sorted l : ascending (sort_migrations l).
Proof. induction l as [|m l IH]; simpl; [constructor|]. by apply insert_by_version_sorted. Qed.

Abbreviation strictly_ascending l := (StronglySorted (λ a b, (version a < version b)%Z) l).

Lemma duplicate_version_None l :
  ascending l → duplicate_version l = None ↔ NoDup (version <$> l).
Proof.
  induction 1 as [|x l Hl IH Hx]; [split; [constructor|done]|].
  destruct l as [|y l]; [split; [intros _; apply NoDup_singleton|done]|].
  cbn [duplicate_version]. rewrite fmap_cons, NoDup_cons. case_bool_decide as Heq.
  - split; [done|]. intros [Hn _]. destruct Hn. rewrite Heq. by left.
  - rewrite IH. split; [|tauto]. intros HN. split; [|done].
    rewrite list_elem_of_fmap. intros (z & Hz & Hin).
    apply Forall_cons in Hx as [Hy Hx]. apply StronglySorted_inv in Hl as [_ Hyl].
    apply elem_of_cons in Hin as [->|Hin]; [done|].
    rewrite Forall_forall in Hyl. specialize (Hyl z Hin). simpl in *. lia.
Qed.

Lemma strictly_ascending_NoDup l : ascending l → NoDup (version <$> l) → strictly_ascending l.
Proof.
  induction 1 as [|x l Hl IH Hx]; [constructor|]. rewrite fmap_cons, NoDup_cons. intros [Hn HN].
  constructor; [by apply IH|]. rewrite Forall_forall in Hx |- *. intros y Hy.
  specialize (Hx y Hy). simpl in Hx. assert (version x ≠ version y); [|lia].
  intros Heq. apply Hn. rewrite Heq. apply list_elem_of_fmap. by exists y.
Qed.

Lemma find_version_Some v l m :
  find_version v l = Some m → m ∈ l ∧ version m = v.
Proof.
  unfold find_version. rewrite fmap_Some. intros ([i x] & Hf & ->).
  apply list_find_Some in Hf as (Hi & Hv & _). split; [by eapply list_elem_of_lookup_2|done].
Qed.

Lemma find_version_elem l m :
  NoDup (version <$> l) → m ∈ l → find_version (version m) l = Some m.
Proof.
  intros HN Hm. destruct (find_version (version m) l) as [x|] eqn:E.
  - apply find_version_Some in E as [Hx Hv]. f_equal.
    apply list_elem_of_lookup in Hm as [i Hi]. apply list_elem_of_lookup in Hx as [j Hj].
    assert (i = j) as ->; [|congruence].
    eapply (NoDup_lookup (version <$> l)); [done|by rewrite list_lookup_fmap, Hi|].
    by rewrite list_lookup_fmap, Hj, <- Hv.
  - exfalso. unfold find_version in E. apply fmap_None in E. apply list_find_None in E.
    rewrite Forall_forall in E. by apply (E m).
Qed.

(** What the source and the ledger must agree on. *)
Definition consistent (applied : list MigrationRecord) (migrations : list SqlMigration) : Prop :=
  NoDup (version <$> migrations) ∧
  ∀ r, r ∈ applied → ∃ m, m ∈ migrations ∧ version m = r_version r ∧ m_name m = r_name r.

Lemma validated_migrations_spec l :
  match validated_migrations l with
  | Ok ordered => NoDup (version <$> l) ∧ ordered ≡ₚ l ∧ strictly_ascending ordered
  | Err _ => ¬ NoDup (version <$> l)
  end.
Proof.
  unfold validated_migrations.
  pose proof (duplicate_version_None _ (sort_migrations_sorted l)) as Hd.
  pose proof (sort_migrations_perm l) as Hp.
  assert (NoDup (version <$> sort_migrations l) ↔ NoDup (version <$> l)) as HN by (by rewrite Hp).
  destruct (duplicate_version _) as [v|].
  - rewrite <- HN, <- Hd. done.
  - assert (NoDup (version <$> sort_migrations l)) as HN' by (by apply Hd).
    split_and!; [by apply HN|done|]. apply strictly_ascending_NoDup; [apply sort_migrations_sorted|done].
Qed.

Lemma collect_ok {E A B} (f : A → result E B) l :
  is_ok (collect f l) = true ↔ ∀ x, x ∈ l → is_ok (f x) = true.
Proof.
  induction l as [|x l IH]; simpl; [split; [intros _ x Hx; by apply not_elem_of_nil in Hx|done]|].
  setoid_rewrite elem_of_cons. destruct (f x) as [b|e] eqn:Ex; simpl.
  - destruct (collect f l) as [bs|e]; simpl in *; split; try done; [|naive_solver].
    intros _ y [->|Hy]; [by rewrite Ex|]. by apply IH.
  - split; [done|]. intros H. specialize (H x (or_introl eq_refl)). by rewrite Ex in H.
Qed.

Lemma validate_record_spec r ordered :
  NoDup (version <$> ordered) →
  is_ok (validate_record ordered r) = true ↔
  ∃ m, m ∈ ordered ∧ version m = r_version r ∧ m_name m = r_name r.
Proof.
  intros HN. unfold validate_record. split.
  - destruct (find_version (r_version r) ordered) as [m|] eqn:E; simpl; [|done].
    apply find_version_Some in E as [Hm Hv]. case_bool_decide as Hn; [done|]. intros _. exists m.
    split_and!; [done..|]. by destruct (decide (m_name m = r_name r)).
  - intros (m & Hm & Hv & Hn). rewrite <- Hv, (find_version_elem ordered m HN Hm). simpl.
    by rewrite bool_decide_false by (intros ?; done).
Qed.

Lemma validate_applied_spec applied ordered :
  NoDup (version <$> ordered) →
  is_ok (validate_applied applied ordered) = true ↔
  ∀ r, r ∈ applied → ∃ m, m ∈ ordered ∧ version m = r_version r ∧ m_name m = r_name r.
Proof.
  intros HN. unfold validate_applied.
  assert (is_ok (_ ← collect (validate_record ordered) applied; Ok tt) =
    is_ok (collect (validate_record ordered) applied)) as -> by (by destruct (collect _ _)).
  rewrite collect_ok. split; intros H r Hr; apply validate_record_spec; auto.
Qed.

Lemma plan_apply_spec applied migrations :
  (is_ok (plan_apply applied migrations) = true ↔ consistent applied migrations) ∧
  ∀ plan, plan_apply applied migrations = Ok plan →
    ∃ pending, plan = up_step <$> pending ∧ strictly_ascending pending ∧
      ∀ m, m ∈ pending ↔ m ∈ migrations ∧ version m ∉ r_version <$> applied.
Proof.
  unfold plan_apply, consistent. pose proof (validated_migrations_spec migrations) as Hv.
  destruct (validated_migrations migrations) as [ordered|e]; cbn [mbind result_bind].
  2: { split; [|done]. split; [done|]. by intros [? _]. }
  destruct Hv as (HN & Hp & Hs).
  assert (NoDup (version <$> ordered)) as HN' by (by rewrite Hp).
  pose proof (validate_applied_spec applied ordered HN') as Ha.
  assert ((∀ r, r ∈ applied → ∃ m, m ∈ ordered ∧ version m = r_version r ∧ m_name m = r_name r) ↔
    (∀ r, r ∈ applied → ∃ m, m ∈ migrations ∧ version m = r_version r ∧ m_name m = r_name r)) as Heq.
  { setoid_rewrite Hp. done. }
  destruct (validate_applied applied ordered) as [u|e]; cbn [mbind result_bind] in *.
  - split; [split; [intros _; split; [done|]; by apply Heq, Ha|done]|].
    intros plan [= <-]. eexists. split; [done|]. split.
    + eapply StronglySorted_sublist; [apply sublist_filter|done].
    + intros m. rewrite list_elem_of_filter, Hp. tauto.
  - split; [|done]. split; [done|]. intros [_ H]. by apply Ha, Heq.
Qed.

(** ** Lemmas on execution *)

#[export] Instance by_version_trans : Transitive by_version.
Proof. intros a b c. unfold by_version. lia. Qed.
#[export] Instance by_version_total : Total by_version.
Proof. intros a b. unfold by_version. lia. Qed.

Section run.
Context {W : Type} (run_sql : rstr → W → option W).
Abbreviation rows db := (default ∅ (ledger db)).
Abbreviation record_of := (λ vn : Z * rstr, {| r_version := vn.1; r_name := vn.2 |}).

Lemma migration_records_elem (db : Database W) r :
  r ∈ migration_records db ↔ rows db !! r_version r = Some (r_name r).
Proof.
  unfold migration_records. rewrite list_elem_of_fmap. setoid_rewrite merge_sort_Permutation.
  setoid_rewrite elem_of_map_to_list'. split; [by intros ([v n] & -> & ?)|].
  intros Hr. exists (r_version r, r_name r). by destruct r.
Qed.

Abbreviation records_ascending := (StronglySorted (λ a b, (r_version a < r_version b)%Z)).

Lemma migration_records_sorted (db : Database W) : records_ascending (migration_records db).
Proof.
  unfold migration_records. set (l := merge_sort _ _).
  assert (StronglySorted by_version l) as Hs by (apply StronglySorted_merge_sort; apply _).
  assert (NoDup l.*1) as HN.
  { unfold l. rewrite merge_sort_Permutation. apply NoDup_fst_map_to_list. }
  clearbody l. induction Hs as [|x l Hl IH Hx]; simpl; [constructor|].
  apply NoDup_cons in HN as [Hn HN]. constructor; [by apply IH|].
  apply Forall_fmap. rewrite Forall_forall in Hx |- *. intros y Hy. simpl.
  specialize (Hx y Hy). unfold by_version in Hx. assert (x.1 ≠ y.1); [|lia].
  intros Heq. apply Hn. rewrite Heq. apply list_elem_of_fmap. by exists y.
Qed.

(** The up statements in order. *)
Fixpoint run_ups (l : list SqlMigration) (w : W) : option W :=
  match l with [] => Some w | m :: l' => w ← run_sql (up_sql m) w; run_ups l' w end.

Lemma run_ups_snoc l m w w2 :
  run_ups (l ++ [m]) w = Some w2 ↔ ∃ w1, run_ups l w = Some w1 ∧ run_sql (up_sql m) w1 = Some w2.
Proof.
  revert w. induction l as [|x l IH]; intros w; simpl.
  - destruct (run_sql (up_sql m) w) eqn:E; simpl; naive_solver.
  - destruct (run_sql (up_sql x) w); simpl; [apply IH|naive_solver].
Qed.

Lemma execute_ups l w t w' t' :
  NoDup (version <$> l) →
  execute_steps run_sql (up_step <$> l) w t = Ok (w', t') →
  run_ups l w = Some w' ∧ (∀ m, m ∈ l → t !! version m = None) ∧
  ∀ v n, t' !! v = Some n ↔ t !! v = Some n ∨ ∃ m, m ∈ l ∧ version m = v ∧ m_name m = n.
Proof.
  revert w t. induction l as [|m l IH]; intros w t; cbn [fmap list_fmap execute_steps].
  { intros _ [= <- <-]. split_and!; [done|by intros m ?%not_elem_of_nil|].
    intros v n. split; [by left|]. intros [?|(m & ?%not_elem_of_nil & _)]; done. }
  rewrite NoDup_cons. intros [Hm HN]. unfold execute_step. cbn [sql up_step direction st_version st_name].
  cbn [run_ups]. destruct (run_sql (up_sql m) w) as [w1|]; simpl; [|done].
  destruct (t !! version m) eqn:Et; simpl; [done|].
  intros He. destruct (IH _ _ HN He) as (Hu & Hl & Ht). split_and!; [done|..].
  - intros x [->|Hx]%elem_of_cons; [done|]. specialize (Hl x Hx).
    by apply lookup_insert_None in Hl as [? _].
  - intros v n. rewrite Ht, lookup_insert_Some. setoid_rewrite elem_of_cons. split.
    + intros [[[<- <-]|[_ ?]]|(x & Hx & ?)]; [right; by exists m; auto|by left|right; by exists x; auto].
    + intros [Hv|(x & [->|Hx] & <- & <-)]; [|by auto|right; by exists x].
      left. right. split; [|done]. intros <-. congruence.
Qed.

Definition down_of (m : SqlMigration) : MigrationStep :=
  {| st_version := version m; st_name := m_name m; direction := Down; sql := default [] (down_sql m) |}.

Lemma execute_downs l w w' t :
  run_ups l w = Some w' →
  (∀ m, m ∈ l → ∀ w1 w2, run_sql (up_sql m) w1 = Some w2 → run_sql (default [] (down_sql m)) w2 = Some w1) →
  ∃ t', execute_steps run_sql (down_of <$> reverse l) w' t = Ok (w, t') ∧
    ∀ v, t' !! v = if decide (v ∈ version <$> l) then None else t !! v.
Proof.
  revert w' t. induction l as [|m l IH] using rev_ind; intros w' t Hu Hinv.
  { simpl in Hu. simplify_eq. by exists t. }
  apply run_ups_snoc in Hu as (w1 & Hu & Hm). rewrite reverse_snoc. cbn [fmap list_fmap execute_steps].
  unfold execute_step. cbn [sql down_of direction st_version].
  rewrite (Hinv m ltac:(apply elem_of_app; right; by left) w1 w' Hm). simpl.
  destruct (IH w1 (delete (version m) t) Hu) as (t' & -> & Ht').
  { intros x Hx. apply Hinv. apply elem_of_app. by left. }
  exists t'. split; [done|]. intros v. rewrite Ht', fmap_app.
  destruct (decide (v ∈ version <$> l)) as [Hv|Hv].
  - rewrite decide_True; [done|]. apply elem_of_app. by left.
  - destruct (decide (version m = v)) as [<-|Hne].
    + rewrite lookup_delete_eq, decide_True; [done|]. apply elem_of_app. right. by left.
    + rewrite lookup_delete_ne, decide_False; [done| |done].
      rewrite elem_of_app. simpl. rewrite list_elem_of_singleton. naive_solver.
Qed.

Lemma down_steps_spec ordered l :
  NoDup (version <$> ordered) →
  (∀ m, m ∈ l → m ∈ ordered ∧ is_Some (down_sql m)) →
  down_steps ordered ((λ m, {| r_version := version m; r_name := m_name m |}) <$> l) =
    Some (Ok (down_of <$> l)).
Proof.
  intros HN. induction l as [|m l IH]; intros Hl; [done|]. cbn [fmap list_fmap down_steps].
  destruct (Hl m) as [Hm [d Hd]]; [by left|]. unfold down_step. cbn [r_version].
  rewrite (find_version_elem ordered m HN Hm). simpl. rewrite Hd. simpl.
  rewrite IH by (intros x Hx; apply Hl; by right). simpl. do 3 f_equal. unfold down_of. by rewrite Hd.
Qed.
End run.

Lemma sorted_records_unique (l1 l2 : list MigrationRecord) :
  StronglySorted (λ a b, (r_version a < r_version b)%Z) l1 →
  StronglySorted (λ a b, (r_version a < r_version b)%Z) l2 →
  (∀ r, r ∈ l1 ↔ r ∈ l2) → l1 = l2.
Proof.
  assert (∀ l, StronglySorted (λ a b, (r_version a < r_version b)%Z) l → NoDup l) as HN.
  { induction 1 as [|x l Hl IH Hx]; constructor; [|done]. intros Hin.
    rewrite Forall_forall in Hx. specialize (Hx x Hin). lia. }
  intros H1 H2 Heq. eapply StronglySorted_unique_strong; [|exact H1|exact H2|].
  - simpl. intros. lia.
  - apply NoDup_Permutation; auto.
Qed.

Section lifecycle.
Context {W : Type} (run_sql : rstr → W → option W) (commit_ok : W → bool).
Abbreviation rows db := (default ∅ (ledger db)).

Lemma migrate_ok (db : Database W) ms plan db' :
  migrate run_sql commit_ok db ms = (Ok plan, db') →
  NoDup (version <$> ms) ∧
  (∀ v n, rows db !! v = Some n → ∃ m, m ∈ ms ∧ version m = v ∧ m_name m = n) ∧
  ∃ pending t', plan = up_step <$> pending ∧ strictly_ascending pending ∧
    (∀ m, m ∈ pending ↔ m ∈ ms ∧ rows db !! version m = None) ∧
    run_ups run_sql pending (world db) = Some (world db') ∧ commit_ok (world db') = true ∧
    ledger db' = Some t' ∧ ∀ v n, t' !! v = Some n ↔ ∃ m, m ∈ ms ∧ version m = v ∧ m_name m = n.
Proof.
  unfold migrate. pose proof (plan_apply_spec (migration_records (ensure_ledger db)) ms) as [Hok Hplan].
  destruct (plan_apply _ ms) as [p|e] eqn:Ep; [|done].
  destruct (proj1 Hok eq_refl) as [HN Hcons]. destruct (Hplan p eq_refl) as (pending & -> & Hasc & Hpend).
  assert (∀ v, v ∉ r_version <$> migration_records (ensure_ledger db) ↔ rows db !! v = None) as Hdom.
  { intros v. rewrite eq_None_not_Some. apply not_iff_compat. rewrite list_elem_of_fmap. split.
    - intros (r & -> & Hr%migration_records_elem). by eexists.
    - intros [n Hn]. exists {| r_version := v; r_name := n |}. split; [done|]. by apply migration_records_elem. }
  assert (∀ v n, rows db !! v = Some n → ∃ m, m ∈ ms ∧ version m = v ∧ m_name m = n) as Hcons'.
  { intros v n Hv. apply (Hcons {| r_version := v; r_name := n |}). by apply migration_records_elem. }
  unfold execute_plan. destruct (execute_steps _ _ _ _) as [[w t]|e] eqn:Ex; [|done].
  change (execute_steps run_sql (up_step <$> pending) (world db) (rows db) = Ok (w, t)) in Ex.
  destruct (commit_ok w) eqn:Ec; [|done]. intros [= <- <-].
  assert (NoDup (version <$> pending)) as HNp.
  { clear -Hasc. induction Hasc as [|x l Hl IH Hx]; [constructor|]. constructor; [|done].
    intros (y & Hy & Hin)%list_elem_of_fmap. rewrite Forall_forall in Hx. specialize (Hx y Hin). lia. }
  destruct (execute_ups run_sql _ _ _ _ _ HNp Ex) as (Hu & _ & Ht).
  split_and!; [done|done|]. exists pending, t. split_and!; try done.
  - intros m. by rewrite Hpend, Hdom.
  - intros v n. rewrite Ht. split.
    + intros [Hv|(m & [Hm _]%Hpend & ? & ?)]; [by apply Hcons'|by exists m].
    + intros (m & Hm & <- & <-). destruct (rows db !! version m) as [n|] eqn:Er.
      * left. destruct (Hcons' _ _ Er) as (m' & Hm' & Hv & <-). do 2 f_equal.
        pose proof (find_version_elem ms m HN Hm) as H1. rewrite <- Hv in H1.
        rewrite (find_version_elem ms m' HN Hm') in H1. congruence.
      * right. exists m. split; [|done]. apply Hpend. by rewrite Hdom.
Qed.

Lemma migrate_err (db : Database W) ms e db' :
  migrate run_sql commit_ok db ms = (Err e, db') → db' = ensure_ledger db.
Proof.
  unfold migrate. destruct (plan_apply _ ms) as [p|err]; [|by intros [= _ <-]].
  unfold execute_plan. destruct (execute_steps _ _ _ _) as [[w t]|err]; [|by intros [= _ <-]].
  destruct (commit_ok w); [done|]. by intros [= _ <-].
Qed.

Lemma records_of_pending (db db' : Database W) ms pending t' target :
  NoDup (version <$> ms) → strictly_ascending pending →
  (∀ m, m ∈ pending ↔ m ∈ ms ∧ rows db !! version m = None) → ledger db' = Some t' →
  (∀ v n, t' !! v = Some n ↔ ∃ m, m ∈ ms ∧ version m = v ∧ m_name m = n) →
  (∀ v n, rows db !! v = Some n → (v ≤ target)%Z) → (∀ m, m ∈ pending → (target < version m)%Z) →
  filter (λ r, (target < r_version r)%Z) (migration_records db') =
    (λ m, {| r_version := version m; r_name := m_name m |}) <$> pending.
Proof.
  intros HN Hasc Hpend Hl Ht Hle Hgt. apply sorted_records_unique.
  - eapply StronglySorted_sublist; [apply sublist_filter|apply migration_records_sorted].
  - clear -Hasc. induction Hasc as [|x l Hl IH Hx]; simpl; [constructor|]. constructor; [done|].
    by apply Forall_fmap.
  - intros r. rewrite list_elem_of_filter, migration_records_elem, Hl, list_elem_of_fmap. simpl. rewrite Ht. split.
    + intros [Hr (m & Hm & Hv & Hn)]. exists m. split; [by destruct r; simpl in *; subst|].
      apply Hpend. split; [done|]. apply eq_None_not_Some. intros [n Hx]. apply Hle in Hx. lia.
    + intros (m & -> & Hm). simpl. split; [by apply Hgt|]. exists m. split; [|done]. by apply Hpend.
Qed.
End lifecycle.

(** ** Properties *)

(** A forward plan is sound and complete. [plan_apply] succeeds exactly when
    the versions are distinct and every applied migration is known under its
    name; the plan then has an up step for exactly the migrations not applied,
    each once, in ascending order of their versions. *)
Theorem plan_apply_correct applied migrations :
  (is_ok (plan_apply applied migrations) = true ↔ consistent applied migrations) ∧
  ∀ plan, plan_apply applied migrations = Ok plan →
    ∃ pending, plan = up_step <$> pending ∧ strictly_ascending pending ∧
      ∀ m, m ∈ pending ↔ m ∈ migrations ∧ version m ∉ r_version <$> applied.
Proof. apply plan_apply_spec. Qed.

(** Migrating is all or nothing, and once is enough. A failed [migrate]
    leaves the data and the ledger as they were; a successful one leaves a ledger
    that lists exactly the given migrations under their names, and migrating
    again then does nothing. *)
Theorem migrate_atomic_idempotent {W} (run_sql : rstr → W → option W) commit_ok (db : Database W) ms :
  match migrate run_sql commit_ok db ms with
  | (Err _, db') => world db' = world db ∧ ledger db' = Some (default ∅ (ledger db))
  | (Ok _, db') =>
      (∀ v n, default ∅ (ledger db') !! v = Some n ↔ ∃ m, m ∈ ms ∧ version m = v ∧ m_name m = n) ∧
      migrate run_sql commit_ok db' ms = (Ok [], db')
  end.
Proof.
  destruct (migrate run_sql commit_ok db ms) as [[plan|e] db'] eqn:Em.
  2: { apply migrate_err in Em as ->. done. }
  destruct (migrate_ok run_sql commit_ok db ms plan db' Em)
    as (HN & _ & pending & t' & _ & _ & _ & _ & Hc & Hl & Ht).
  rewrite Hl. split; [done|].
  assert (ensure_ledger db' = db') as He by (destruct db' as [w l]; simpl in *; by subst).
  unfold migrate. rewrite He.
  destruct (plan_apply_spec (migration_records db') ms) as [Hok Hplan].
  destruct (plan_apply (migration_records db') ms) as [p|e] eqn:Ep.
  - destruct (Hplan p eq_refl) as (l & -> & _ & Hp). assert (l = []) as ->.
    { destruct l as [|m l]; [done|]. exfalso. destruct (proj1 (Hp m)) as [Hm Hn]; [by left|].
      apply Hn, list_elem_of_fmap. exists {| r_version := version m; r_name := m_name m |}. split; [done|].
      apply migration_records_elem. rewrite Hl. apply Ht. by exists m. }
    unfold execute_plan. rewrite He. simpl. rewrite Hc, Hl. destruct db' as [w l]. simpl in *. by subst.
  - exfalso. cut (false = true); [done|]. apply Hok. split; [done|]. intros r Hr%migration_records_elem.
    rewrite Hl in Hr. apply Ht in Hr as (m & ? & ? & ?). by exists m.
Qed.

(** A rollback undoes a migration. When every migration newly applied is
    above the target, the target is zero or applied, and each new migration has a
    down statement that undoes its up statement, then rolling back to the target
    after a successful [migrate] succeeds, takes the new migrations back in the
    opposite order, and restores the data and the ledger. *)
Theorem migrate_rollback_roundtrip {W} (run_sql : rstr → W → option W) commit_ok (db : Database W) ms
    target plan db' :
  migrate run_sql commit_ok db ms = (Ok plan, db') → commit_ok (world db) = true →
  (∀ v n, default ∅ (ledger db) !! v = Some n → (v ≤ target)%Z) →
  (target = 0%Z ∨ is_Some (default ∅ (ledger db) !! target)) →
  (∀ m, m ∈ ms → default ∅ (ledger db) !! version m = None →
     (target < version m)%Z ∧ ∃ d, down_sql m = Some d ∧
       ∀ w w', run_sql (up_sql m) w = Some w' → run_sql d w' = Some w) →
  ∃ plan' db'', rollback run_sql commit_ok db' ms target = Some (Ok plan', db'') ∧
    st_version <$> plan' = reverse (st_version <$> plan) ∧
    world db'' = world db ∧ ledger db'' = Some (default ∅ (ledger db)).
Proof.
  intros Em Hc0 Hle Htgt Hnew.
  destruct (migrate_ok run_sql commit_ok db ms plan db' Em)
    as (HN & Hold & pending & t' & -> & Hasc & Hpend & Hu & Hc & Hl & Ht).
  assert (ensure_ledger db' = db') as He by (destruct db' as [w l]; simpl in *; by subst).
  assert (∀ m, m ∈ pending → (target < version m)%Z ∧ ∃ d, down_sql m = Some d ∧
       ∀ w w', run_sql (up_sql m) w = Some w' → run_sql d w' = Some w) as Hnew'.
  { intros m [? ?]%Hpend. by apply Hnew. }
  unfold rollback. rewrite He. unfold plan_rollback.
  pose proof (validated_migrations_spec ms) as Hv.
  destruct (validated_migrations ms) as [ordered|e]; [|done]. destruct Hv as (_ & Hp & _).
  assert (NoDup (version <$> ordered)) as HNo by (by rewrite Hp).
  cbn [mbind result_bind]. pose proof (validate_applied_spec (migration_records db') ordered HNo) as Hva.
  destruct (validate_applied (migration_records db') ordered) as [u|e].
  2: { exfalso. cut (false = true); [done|]. apply Hva. intros r Hr%migration_records_elem. rewrite Hl in Hr.
       apply Ht in Hr as (m & ? & ? & ?). exists m. by rewrite Hp. }
  cbn [mbind result_bind]. clear Hva.
  assert (bool_decide (target ≠ 0%Z) && negb (existsb (λ r, bool_decide (r_version r = target))
    (migration_records db')) = false) as ->.
  { destruct Htgt as [->|[n Hn]]; [done|]. apply andb_false_iff. right. apply negb_false_iff.
    apply existsb_elem_of. exists {| r_version := target; r_name := n |}. split; [|by apply bool_decide_eq_true].
    apply migration_records_elem. rewrite Hl. simpl. apply Ht. by apply Hold. }
  rewrite filter_reverse, (records_of_pending db db' ms pending t' target HN Hasc Hpend Hl Ht Hle)
    by (intros m Hm; by apply Hnew').
  rewrite <- fmap_reverse, down_steps_spec; [|done|].
  2: { intros m Hm. rewrite elem_of_reverse in Hm. destruct (Hnew' m Hm) as (_ & d & Hd & _).
       rewrite Hp. split; [by apply Hpend|by exists d]. }
  cbn [mbind option_bind]. unfold execute_plan. rewrite He, Hl. change (default ∅ (Some t')) with t'.
  destruct (execute_downs run_sql pending (world db) (world db') t' Hu) as (t'' & -> & Ht'').
  { intros m Hm w1 w2 Hw. destruct (Hnew' m Hm) as (_ & d & -> & Hd). by apply Hd. }
  rewrite Hc0. eexists _, _. split_and!; [done| |done|].
  - rewrite <- !list_fmap_compose, <- fmap_reverse. done.
  - simpl. f_equal. apply map_eq. intros v. rewrite Ht''. case_decide as Hin.
    + apply list_elem_of_fmap in Hin as (m & -> & [_ Hm]%Hpend). done.
    + destruct (default ∅ (ledger db) !! v) as [n|] eqn:Er.
      * apply Ht. by apply Hold.
      * apply eq_None_not_Some. intros [n Hn]. apply Ht in Hn as (m & Hm & <- & _).
        apply Hin, list_elem_of_fmap. exists m. split; [done|]. by apply Hpend.
Qed.

(** ** Witnesses *)

(** Statements that append a letter to a log, or take it off again. *)
Definition ex_run (sql : rstr) (w : rstr) : option rstr :=
  match sql with
  | [43; c] => Some (c :: w)
  | [45; c] => match w with d :: w' => if c =? d then Some w' else None | [] => None end
  | _ => None
  end.
Definition ex_migration (v : Z) (c : N) : SqlMigration :=
  {| version := v; m_name := [c]; up_sql := [43; c]; down_sql := Some [45; c] |}.
Definition ex_migrations : list SqlMigration := [ex_migration 3 99; ex_migration 1 97; ex_migration 2 98].
Definition ex_db : Database rstr := {| world := [97]; ledger := Some {[ 1%Z := [97] ]} |}.

Definition ex_records : list MigrationRecord := [{| r_version := 1; r_name := [97] |}].

Lemma plan_apply_correct_witness :
  ∃ pending, up_step <$> [ex_migration 2 98; ex_migration 3 99] = up_step <$> pending ∧ strictly_ascending pending.
Proof.
  destruct (proj2 (plan_apply_correct ex_records ex_migrations)
    (up_step <$> [ex_migration 2 98; ex_migration 3 99]) ltac:(reflexivity)) as (p & H1 & H2 & _).
  exists p. split; [exact H1|exact H2].
Defined.

Lemma migrate_rollback_roundtrip_witness :
  ∃ plan' db'', rollback ex_run (λ _, true) {| world := [99; 98; 97];
      ledger := Some (<[3%Z := [99]]> (<[2%Z := [98]]> {[ 1%Z := [97] ]})) |} ex_migrations 1 = Some (Ok plan', db'') ∧
    st_version <$> plan' = [3; 2]%Z ∧ world db'' = [97] ∧ ledger db'' = Some {[ 1%Z := [97] ]}.
Proof.
  refine (migrate_rollback_roundtrip ex_run (λ _, true) ex_db ex_migrations 1
    (up_step <$> [ex_migration 2 98; ex_migration 3 99]) _ ltac:(reflexivity) eq_refl _ _ _).
  - intros v n. simpl. rewrite lookup_singleton_Some. intros [<- _]. lia.
  - right. eexists. reflexivity.
  - intros m Hm Hn. unfold ex_migrations in Hm. rewrite !elem_of_cons, elem_of_nil in Hm. destruct Hm as [->|[->|[->|[]]]].
    + split; [simpl; lia|]. eexists. split; [reflexivity|]. intros w w' [= <-]. reflexivity.
    + exfalso. discriminate Hn.
    + split; [simpl; lia|]. eexists. split; [reflexivity|]. intros w w' [= <-]. reflexivity.
Defined.

(** "A target of zero rolls back every migration", the source says; versions are
    signed, and one that is not positive stays. *)
Lemma rollback_zero_keeps_nonpositive :
  plan_rollback [{| r_version := -1; r_name := [97] |}] [ex_migration (-1) 97] 0 = Some (Ok []).
Proof. reflexivity. Qed.
