(* ===== verification/Permission.v ===== *)
(** * Permissions and access rules (crates/roze-permission/src/lib.rs)

    Role policies, permission rules and attribute and tenant conditions;
    [BTreeSet] is [gset], [BTreeMap] is [gmap]. *)

From S2P Require Import Prelude Text.

Record PermissionSet := { grants : gset rstr; denies : gset rstr }.
Definition PermissionSet_default : PermissionSet := {| grants := ∅; denies := ∅ |}.

Definition grant (permission : rstr) (s : PermissionSet) : PermissionSet :=
  {| grants := {[ permission ]} ∪ grants s; denies := denies s |}.
Definition deny (permission : rstr) (s : PermissionSet) : PermissionSet :=
  {| grants := grants s; denies := {[ permission ]} ∪ denies s |}.
Definition PermissionSet_allows (permission : rstr) (s : PermissionSet) : bool :=
  bool_decide (permission ∈ grants s) && negb (bool_decide (permission ∈ denies s)).
Definition contains_all (permissions : list rstr) (s : PermissionSet) : bool :=
  forallb (λ p, PermissionSet_allows p s) permissions.

Record PermissionRule := { require_all : list rstr; allow_any : list rstr; deny_any : list rstr }.

Definition PermissionRule_allows (rule : PermissionRule) (s : PermissionSet) : bool :=
  if existsb (λ p, bool_decide (p ∈ grants s) || bool_decide (p ∈ denies s)) (deny_any rule) then false
  else if negb (bool_decide (require_all rule = [])) &&
          negb (forallb (λ p, bool_decide (p ∈ grants s)) (require_all rule)) then false
  else if bool_decide (allow_any rule = []) then true
  else existsb (λ p, bool_decide (p ∈ grants s)) (allow_any rule).

Record RolePolicy := { roles_of : gmap rstr PermissionSet }.

(** The loop over the roles; the sets of a role are iterated in order. *)
Definition add_role (policy : RolePolicy) (s : PermissionSet) (role : rstr) : PermissionSet :=
  match roles_of policy !! role with
  | Some role_set =>
      let s := foldl (λ s p, grant p s) s (bset_iter (grants role_set)) in
      foldl (λ s p, deny p s) s (bset_iter (denies role_set))
  | None => s
  end.
Definition permissions_for_roles (policy : RolePolicy) (roles : list rstr) : PermissionSet :=
  foldl (add_role policy) PermissionSet_default roles.

Record Principal :=
  { subject : rstr; roles : list rstr; p_tenant : option rstr; attributes : gmap rstr rstr }.

Record AttributeRule := { equals : gmap rstr rstr }.
Definition AttributeRule_allows (rule : AttributeRule) (p : Principal) : bool :=
  forallb (λ kv, bool_decide (attributes p !! kv.1 = Some kv.2)) (btree_iter (equals rule)).

Record AccessRule :=
  { permissions : PermissionRule; ar_attributes : AttributeRule; tenant_required : option rstr }.

Definition AccessRule_allows (rule : AccessRule) (p : Principal) (policy : RolePolicy) : bool :=
  if (match tenant_required rule with
      | Some required => negb (bool_decide (p_tenant p = Some required))
      | None => false
      end) then false
  else if negb (AttributeRule_allows (ar_attributes rule) p) then false
  else PermissionRule_allows (permissions rule) (permissions_for_roles policy (roles p)).

(** ** Lemmas *)

Lemma forallb_elem_of {A} (f : A → bool) (l : list A) : forallb f l = true ↔ ∀ x, x ∈ l → f x = true.
Proof. rewrite forallb_forall. setoid_rewrite list_elem_of_In. done. Qed.

Lemma forallb_decide {A} (P : A → Prop) `{∀ x, Decision (P x)} (l : list A) :
  forallb (λ x, bool_decide (P x)) l = true ↔ ∀ x, x ∈ l → P x.
Proof. rewrite forallb_elem_of. split; intros Hl x Hx; by apply (bool_decide_eq_true (P x)), Hl. Qed.

Lemma existsb_decide {A} (P : A → Prop) `{∀ x, Decision (P x)} (l : list A) :
  existsb (λ x, bool_decide (P x)) l = true ↔ ∃ x, x ∈ l ∧ P x.
Proof.
  rewrite existsb_elem_of. split; intros (x & Hx & HP); exists x; (split; [done|]);
    by apply (bool_decide_eq_true (P x)).
Qed.

Lemma grant_all (l : list rstr) (s : PermissionSet) :
  (∀ x, x ∈ grants (foldl (λ s p, grant p s) s l) ↔ x ∈ l ∨ x ∈ grants s) ∧
  denies (foldl (λ s p, grant p s) s l) = denies s.
Proof.
  revert s. induction l as [|p l IH]; intros s; simpl.
  - split; [|done]. intros x. rewrite elem_of_nil. tauto.
  - destruct (IH (grant p s)) as [H1 H2]. split; [|done]. intros x. rewrite H1. simpl. set_solver.
Qed.

Lemma deny_all (l : list rstr) (s : PermissionSet) :
  (∀ x, x ∈ denies (foldl (λ s p, deny p s) s l) ↔ x ∈ l ∨ x ∈ denies s) ∧
  grants (foldl (λ s p, deny p s) s l) = grants s.
Proof.
  revert s. induction l as [|p l IH]; intros s; simpl.
  - split; [|done]. intros x. rewrite elem_of_nil. tauto.
  - destruct (IH (deny p s)) as [H1 H2]. split; [|done]. intros x. rewrite H1. simpl. set_solver.
Qed.

Section policies.
Context (policy : RolePolicy).

(** Some role of the list grants, or denies, the permission. *)
Definition granted (rs : list rstr) (x : rstr) : Prop :=
  ∃ role s, role ∈ rs ∧ roles_of policy !! role = Some s ∧ x ∈ grants s.
Definition denied (rs : list rstr) (x : rstr) : Prop :=
  ∃ role s, role ∈ rs ∧ roles_of policy !! role = Some s ∧ x ∈ denies s.

Lemma add_role_spec s role x :
  (x ∈ grants (add_role policy s role) ↔ granted [role] x ∨ x ∈ grants s) ∧
  (x ∈ denies (add_role policy s role) ↔ denied [role] x ∨ x ∈ denies s).
Proof.
  unfold add_role, granted, denied. setoid_rewrite list_elem_of_singleton.
  destruct (roles_of policy !! role) as [rs|] eqn:E.
  - destruct (grant_all (bset_iter (grants rs)) s) as [H1 H2].
    destruct (deny_all (bset_iter (denies rs)) (foldl (λ s p, grant p s) s (bset_iter (grants rs)))) as [H3 H4].
    rewrite H4, H1, H3, H2, !elem_of_bset_iter. split; split.
    + intros [?|?]; [left; by exists role, rs|by right].
    + intros [(r & t & -> & Ht & ?)|?]; [left; congruence|by right].
    + intros [?|?]; [left; by exists role, rs|by right].
    + intros [(r & t & -> & Ht & ?)|?]; [left; congruence|by right].
  - split; (split; [by right|]); (intros [(r & t & -> & Ht & _)|?]; [congruence|done]).
Qed.

Lemma permissions_for_roles_spec rs x :
  (x ∈ grants (permissions_for_roles policy rs) ↔ granted rs x) ∧
  (x ∈ denies (permissions_for_roles policy rs) ↔ denied rs x).
Proof.
  unfold permissions_for_roles. induction rs as [|r rs IH] using rev_ind.
  - split; (split; [simpl; set_solver|]); by intros (? & ? & ?%not_elem_of_nil & _).
  - rewrite foldl_app. cbn [foldl]. destruct (add_role_spec (foldl (add_role policy) PermissionSet_default rs) r x)
      as [-> ->]. destruct IH as [-> ->]. unfold granted, denied. setoid_rewrite elem_of_app. naive_solver.
Qed.
End policies.

Lemma rule_allows_spec rule s :
  PermissionRule_allows rule s = true ↔
  (∀ x, x ∈ deny_any rule → x ∉ grants s ∧ x ∉ denies s) ∧
  (∀ x, x ∈ require_all rule → x ∈ grants s) ∧
  (allow_any rule = [] ∨ ∃ x, x ∈ allow_any rule ∧ x ∈ grants s).
Proof.
  unfold PermissionRule_allows.
  assert (existsb (λ p, bool_decide (p ∈ grants s) || bool_decide (p ∈ denies s)) (deny_any rule) = false ↔
    ∀ x, x ∈ deny_any rule → x ∉ grants s ∧ x ∉ denies s) as Hd.
  { rewrite <- not_true_iff_false, existsb_elem_of. split.
    - intros Hn x Hx. split; intros Hin; apply Hn; exists x; (split; [done|]); apply orb_true_iff;
        [left|right]; by apply bool_decide_eq_true.
    - intros Hall (x & Hx & [Hb|Hb]%orb_true_iff); apply bool_decide_eq_true in Hb; by apply Hall in Hx as []. }
  assert (negb (bool_decide (require_all rule = [])) &&
    negb (forallb (λ p, bool_decide (p ∈ grants s)) (require_all rule)) = false ↔
    ∀ x, x ∈ require_all rule → x ∈ grants s) as Hr.
  { assert (forallb (λ p, bool_decide (p ∈ grants s)) (require_all rule) = true ↔
      ∀ x, x ∈ require_all rule → x ∈ grants s) as <- by apply forallb_decide.
    destruct (require_all rule); [done|]. rewrite bool_decide_false by done. simpl.
    by rewrite negb_false_iff. }
  rewrite <- Hd, <- Hr. destruct (existsb _ (deny_any rule)); [split; [done|by intros [? _]]|].
  destruct (negb _ && negb _); [split; [done|by intros (_ & ? & _)]|].
  case_bool_decide as Ha; [naive_solver|]. rewrite existsb_decide. naive_solver.
Qed.

(** An explicit deny of one role does not stop a rule that requires the
    permission another role grants; [PermissionSet::allows] would. *)
Lemma rule_ignores_denies :
  let s := deny (lit "x") (grant (lit "x") PermissionSet_default) in
  PermissionSet_allows (lit "x") s = false ∧
  PermissionRule_allows {| require_all := [lit "x"]; allow_any := [lit "x"]; deny_any := [] |} s = true.
Proof. split; vm_compute; reflexivity. Qed.

(** ** Properties *)

(** Access is granted exactly under the rule's conditions. [allows] holds if
    and only if the principal is of the required tenant, has every required
    attribute value, no role of it that the policy knows grants or denies a
    permission of [deny_any], every permission of [require_all] is granted by
    some role, and so is one of [allow_any] unless that is empty. *)
Theorem access_rule_correct rule p policy :
  AccessRule_allows rule p policy = true ↔
  (∀ t, tenant_required rule = Some t → p_tenant p = Some t) ∧
  (∀ k v, equals (ar_attributes rule) !! k = Some v → attributes p !! k = Some v) ∧
  (∀ x, x ∈ deny_any (permissions rule) → ¬ granted policy (roles p) x ∧ ¬ denied policy (roles p) x) ∧
  (∀ x, x ∈ require_all (permissions rule) → granted policy (roles p) x) ∧
  (allow_any (permissions rule) = [] ∨ ∃ x, x ∈ allow_any (permissions rule) ∧ granted policy (roles p) x).
Proof.
  assert (PermissionRule_allows (permissions rule) (permissions_for_roles policy (roles p)) = true ↔
    (∀ x, x ∈ deny_any (permissions rule) → ¬ granted policy (roles p) x ∧ ¬ denied policy (roles p) x) ∧
    (∀ x, x ∈ require_all (permissions rule) → granted policy (roles p) x) ∧
    (allow_any (permissions rule) = [] ∨ ∃ x, x ∈ allow_any (permissions rule) ∧ granted policy (roles p) x)) as <-.
  { rewrite rule_allows_spec. pose proof (λ x, proj1 (permissions_for_roles_spec policy (roles p) x)) as Hg.
    pose proof (λ x, proj2 (permissions_for_roles_spec policy (roles p) x)) as Hd.
    setoid_rewrite Hg. setoid_rewrite Hd. done. }
  assert (AttributeRule_allows (ar_attributes rule) p = true ↔
    ∀ k v, equals (ar_attributes rule) !! k = Some v → attributes p !! k = Some v) as <-.
  { unfold AttributeRule_allows. rewrite (forallb_decide (λ kv, attributes p !! kv.1 = Some kv.2)). split.
    - intros H k v Hk. apply (H (k, v)). by apply elem_of_btree_iter.
    - intros H [k v] Hk%elem_of_btree_iter. by apply H. }
  unfold AccessRule_allows. destruct (tenant_required rule) as [t|].
  - case_bool_decide as Ht; cbn [negb].
    + destruct (AttributeRule_allows _ _); simpl; naive_solver.
    + split; [done|]. intros [H _]. by destruct Ht; apply H.
  - destruct (AttributeRule_allows _ _); simpl; naive_solver.
Qed.
