(* ===== verification/RateLimit.v ===== *)
(** * Distributed rate limiting (crates/roze-rate-limit/src/lib.rs)

    Configurations and their validation, the key of a request under a key
    policy, the limiter over an interface of stores, and the in-memory token
    bucket. SHA-256 comes from a library and is a parameter; the Redis store's
    script is not modelled. A store call that answers [None] ran into the
    limiter's timeout. *)

From S2P Require Import Prelude Text Float64.
From Stdlib Require Import SpecFloat.

(** ** Configuration *)

Inductive RateLimitStoreKind := Auto | Memory | Redis.
#[export] Instance RateLimitStoreKind_eq_dec : EqDecision RateLimitStoreKind.
Proof. solve_decision. Defined.
Inductive RateLimitUnavailablePolicy := FailOpen | FailClosed.

Record RateLimiterConfig :=
  { store : RateLimitStoreKind; redis_url : option rstr; redis_cluster_urls : list rstr;
    key_prefix : rstr; namespace : option rstr; timeout_ms : N;
    unavailable_policy : RateLimitUnavailablePolicy }.

Definition RateLimiterConfig_default : RateLimiterConfig :=
  {| store := Auto; redis_url := None; redis_cluster_urls := []; key_prefix := lit "roze:rate-limit:v1";
     namespace := None; timeout_ms := 100; unavailable_policy := FailClosed |}.

Definition non_empty (value : rstr) : bool := negb (bool_decide (trim value = [])).

Definition has_redis (c : RateLimiterConfig) : bool :=
  match redis_url c with Some url => non_empty url | None => false end ||
  negb (bool_decide (redis_cluster_urls c = [])).

Definition resolved_store_kind (c : RateLimiterConfig) : RateLimitStoreKind :=
  match store c with
  | Auto => if has_redis c then Redis else Memory
  | explicit => explicit
  end.

(** The message of the first [ensure!] that fails. *)
Definition RateLimiterConfig_validate (c : RateLimiterConfig) : result rstr unit :=
  if negb (0 <? timeout_ms c) then Err (lit "rate limit timeout must be positive")
  else if negb (non_empty (key_prefix c)) then Err (lit "rate limit key prefix must not be empty")
  else if match namespace c with Some n => negb (non_empty n) | None => false end
  then Err (lit "rate limit namespace must not be empty when configured")
  else if negb (forallb non_empty (redis_cluster_urls c))
  then Err (lit "redis_cluster_urls cannot contain empty seed URLs")
  else if bool_decide (store c = Redis) && negb (has_redis c)
  then Err (lit "Redis rate limiting requires redis_url or redis_cluster_urls")
  else Ok tt.

Inductive RateLimitDimension := Route | ClientIp | Subject | Tenant.
#[export] Instance RateLimitDimension_eq_dec : EqDecision RateLimitDimension.
Proof. solve_decision. Defined.
Inductive MissingDimensionPolicy := Reject | Omit.

Record RateLimitKeyPolicy :=
  { dimensions : list RateLimitDimension; headers : list rstr; missing : MissingDimensionPolicy }.

Definition valid_header_name (value : rstr) : bool :=
  negb (bool_decide (value = [])) &&
  forallb (λ c, is_ascii_lowercase c || is_ascii_digit c || (c =? 45) || (c =? 95) || (c =? 46)) value.

Definition normalize_header (header : rstr) : rstr := str_to_ascii_lowercase (trim header).

(** The loop that inserts the dimensions into a set. *)
Fixpoint validate_dimensions (seen : list RateLimitDimension) (l : list RateLimitDimension) : result rstr unit :=
  match l with
  | [] => Ok tt
  | d :: l' =>
      if bool_decide (d ∈ seen) then Err (lit "rate limit key dimensions must not contain duplicates")
      else validate_dimensions (d :: seen) l'
  end.

Fixpoint validate_headers (seen : list rstr) (l : list rstr) : result rstr unit :=
  match l with
  | [] => Ok tt
  | header :: l' =>
      let normalized := normalize_header header in
      if negb (valid_header_name normalized)
      then Err (lit "rate limit header name `" ++ header ++ lit "` is invalid")
      else if bool_decide (normalized ∈ seen)
      then Err (lit "rate limit header names must not contain duplicates")
      else validate_headers (normalized :: seen) l'
  end.

Definition RateLimitKeyPolicy_validate (p : RateLimitKeyPolicy) : result rstr unit :=
  if bool_decide (dimensions p = []) && bool_decide (headers p = [])
  then Err (lit "rate limit key policy must select at least one dimension or header")
  else _ ← validate_dimensions [] (dimensions p); validate_headers [] (headers p).

Record RateLimit := { burst : N; refill : N; tokens_per_refill : N }.

Definition RateLimit_validate (l : RateLimit) : result rstr unit :=
  if negb (0 <? burst l) then Err (lit "rate limit burst must be positive")
  else if refill l =? 0 then Err (lit "rate limit refill duration must be positive")
  else if negb (0 <? tokens_per_refill l) then Err (lit "rate limit tokens per refill must be positive")
  else Ok tt.

(** ** The identity of a request and its key *)

Record RateLimitIdentity :=
  { service : rstr; boundary : rstr; operation : rstr; client_ip : option rstr;
    id_subject : option rstr; id_tenant : option rstr; id_headers : gmap rstr rstr }.

Definition RateLimitIdentity_new (service boundary operation : rstr) : RateLimitIdentity :=
  {| service := service; boundary := boundary; operation := operation; client_ip := None;
     id_subject := None; id_tenant := None; id_headers := ∅ |}.

Definition with_headers (hs : list (rstr * rstr)) (i : RateLimitIdentity) : RateLimitIdentity :=
  {| service := service i; boundary := boundary i; operation := operation i; client_ip := client_ip i;
     id_subject := id_subject i; id_tenant := id_tenant i;
     id_headers := foldl (λ m nv, <[str_to_ascii_lowercase nv.1 := nv.2]> m) (id_headers i) hs |}.

Inductive RateLimitError :=
| EmptyKeyPolicy | MissingDimension (name : rstr) | InvalidHeader (header : rstr) | StoreUnavailable.

Definition push_component (material name : rstr) (value : option rstr) (missing : MissingDimensionPolicy)
    : result RateLimitError rstr :=
  match (v ← value; if bool_decide (v = []) then None else Some v) with
  | None => match missing with Reject => Err (MissingDimension name) | Omit => Ok material end
  | Some v =>
      Ok (material ++ lit "|" ++ name ++ lit ":" ++ dec (N.of_nat (length (as_bytes v))) ++ lit ":" ++ v)
  end.

Definition push_dimension (i : RateLimitIdentity) (missing : MissingDimensionPolicy) (material : rstr)
    (d : RateLimitDimension) : result RateLimitError rstr :=
  match d with
  | Route =>
      material ← push_component material (lit "service") (Some (service i)) missing;
      material ← push_component material (lit "boundary") (Some (boundary i)) missing;
      push_component material (lit "operation") (Some (operation i)) missing
  | ClientIp => push_component material (lit "client_ip") (client_ip i) missing
  | Subject => push_component material (lit "subject") (id_subject i) missing
  | Tenant => push_component material (lit "tenant") (id_tenant i) missing
  end.

Definition push_header (i : RateLimitIdentity) (missing : MissingDimensionPolicy) (material header : rstr)
    : result RateLimitError rstr :=
  let normalized := normalize_header header in
  if negb (valid_header_name normalized) then Err (InvalidHeader header)
  else
    material ← push_component material (lit "header") (id_headers i !! normalized) missing;
    push_component material (lit "header_name") (Some normalized) missing.

Fixpoint push_each {A} (push : rstr → A → result RateLimitError rstr) (material : rstr) (l : list A)
    : result RateLimitError rstr :=
  match l with [] => Ok material | a :: l' => material ← push material a; push_each push material l' end.

Definition key_material (p : RateLimitKeyPolicy) (i : RateLimitIdentity) : result RateLimitError rstr :=
  if bool_decide (dimensions p = []) && bool_decide (headers p = []) then Err EmptyKeyPolicy
  else
    material ← push_each (push_dimension i (missing p)) (lit "roze-rate-limit-key-v1") (dimensions p);
    push_each (push_header i (missing p)) material (headers p).

Definition build_key (sha256 : list N → list N) (p : RateLimitKeyPolicy) (i : RateLimitIdentity)
    : result RateLimitError rstr :=
  material ← key_material p i; Ok (sha256 (as_bytes material) ≫= hex_byte).

(** ** Decisions, stores and the limiter *)

Record RateLimitDecision := { allowed : bool; retry_after : N; degraded : bool }.
Definition decision_allowed (degraded : bool) : RateLimitDecision :=
  {| allowed := true; retry_after := 0; degraded := degraded |}.
Definition decision_denied (retry_after : N) : RateLimitDecision :=
  {| allowed := false; retry_after := retry_after; degraded := false |}.

(** A store: its answer at an instant, an error, or [None] for a timeout. *)
Class RateLimitStore (S : Type) :=
  { store_check : rstr → RateLimit → N → S → option (result unit RateLimitDecision) * S }.

Record RateLimiter := { rl_unavailable : RateLimitUnavailablePolicy; rl_timeout : N; rl_kind : RateLimitStoreKind }.

(** What [from_config] builds: the limiter and the key prefix of a Redis store. *)
Definition RateLimiter_from_config (c : RateLimiterConfig) : result rstr (RateLimiter * rstr) :=
  _ ← RateLimiterConfig_validate c;
  let prefix :=
    match n ← namespace c; if non_empty n then Some n else None with
    | Some n => trim_end_matches (N.eqb 58) (key_prefix c) ++ lit ":" ++ trim_matches (N.eqb 58) n
    | None => key_prefix c
    end in
  Ok ({| rl_unavailable := unavailable_policy c; rl_timeout := from_millis (timeout_ms c);
         rl_kind := resolved_store_kind c |}, prefix).

Definition RateLimiter_check {S} `{RateLimitStore S} (sha256 : list N → list N) (limiter : RateLimiter)
    (p : RateLimitKeyPolicy) (i : RateLimitIdentity) (limit : RateLimit) (now : N) (s : S)
    : result RateLimitError RateLimitDecision * S :=
  if (burst limit =? 0) || (refill limit =? 0) || (tokens_per_refill limit =? 0)
  then (Ok (decision_denied (N.max (refill limit) (from_secs 1))), s)
  else
    match build_key sha256 p i with
    | Err e => (Err e, s)
    | Ok key =>
        match store_check key limit now s with
        | (Some (Ok decision), s) => (Ok decision, s)
        | (_, s) =>
            (match rl_unavailable limiter with
             | FailOpen => Ok (decision_allowed true)
             | FailClosed => Err StoreUnavailable
             end, s)
        end
    end.

(** ** The in-memory store *)

Record MemoryState := { tokens : f64; last_refill : N }.
Definition InMemoryRateLimitStore : Type := gmap rstr MemoryState.

Definition refilled_tokens (tokens : f64) (elapsed : N) (limit : RateLimit) : f64 :=
  f64_min (f64_add tokens (f64_mul (f64_div (as_secs_f64 elapsed) (as_secs_f64 (refill limit)))
                                   (f64_of_N (tokens_per_refill limit))))
          (f64_of_N (burst limit)).

(** [Duration::from_secs_f64]: to the nearest nanosecond, ties to even; it panics
    on what is negative, not a number or too large. *)
Definition from_secs_f64 (x : f64) : option N :=
  match x with
  | S754_zero _ => Some 0
  | S754_finite false m e =>
      let nanos :=
        if (0 <=? e)%Z then N.shiftl (N.pos m) (Z.to_N e) * 1000000000
        else
          let d := N.shiftl 1 (Z.to_N (- e)) in
          let q := N.pos m * 1000000000 / d in
          let r := N.pos m * 1000000000 mod d in
          if (d <? 2 * r) || ((d =? 2 * r) && N.odd q) then q + 1 else q in
      if nanos <=? DURATION_MAX then Some nanos else None
  | _ => None
  end.

(** [f64::max]: a NaN operand is ignored. *)
Definition f64_max (a b : f64) : f64 :=
  match a, b with
  | S754_nan, _ => b
  | _, S754_nan => a
  | _, _ => if f64_leb a b then b else a
  end.

Definition retry_after_for_tokens (tokens : f64) (limit : RateLimit) : option N :=
  d ← from_secs_f64 (f64_div (f64_mul (f64_max (f64_sub (f64_of_N 1) tokens) (f64_of_N 0))
                                (as_secs_f64 (refill limit))) (f64_of_N (tokens_per_refill limit)));
  Some (N.max d (from_millis 1)).

(** [check]; [None] is a panic of [from_secs_f64]. *)
Definition InMemory_check (key : rstr) (limit : RateLimit) (now : N) (states : gmap rstr MemoryState)
    : option RateLimitDecision * gmap rstr MemoryState :=
  let state := default {| tokens := f64_of_N (burst limit); last_refill := now |} (states !! key) in
  let t := refilled_tokens (tokens state) (now - last_refill state) limit in
  if f64_leb (f64_of_N 1) t
  then (Some (decision_allowed false),
        <[key := {| tokens := f64_sub t (f64_of_N 1); last_refill := now |}]> states)
  else (decision_denied <$> retry_after_for_tokens t limit,
        <[key := {| tokens := t; last_refill := now |}]> states).

(** ** The components of a key *)

(** What a policy selects of a request: a label and, unless missing, a value. *)
Definition nonempty (v : option rstr) : option rstr := x ← v; if bool_decide (x = []) then None else Some x.

Definition dimension_view (i : RateLimitIdentity) (d : RateLimitDimension) : list (rstr * option rstr) :=
  match d with
  | Route => [(lit "service", nonempty (Some (service i))); (lit "boundary", nonempty (Some (boundary i)));
              (lit "operation", nonempty (Some (operation i)))]
  | ClientIp => [(lit "client_ip", nonempty (client_ip i))]
  | Subject => [(lit "subject", nonempty (id_subject i))]
  | Tenant => [(lit "tenant", nonempty (id_tenant i))]
  end.

Definition header_view (i : RateLimitIdentity) (header : rstr) : list (rstr * option rstr) :=
  [(lit "header", nonempty (id_headers i !! normalize_header header));
   (lit "header_name", nonempty (Some (normalize_header header)))].

Definition policy_view (p : RateLimitKeyPolicy) (i : RateLimitIdentity) : list (rstr * option rstr) :=
  (dimensions p ≫= dimension_view i) ++ (headers p ≫= header_view i).

Definition encode_value (name v : rstr) : rstr :=
  lit "|" ++ name ++ lit ":" ++ dec (N.of_nat (length (as_bytes v))) ++ lit ":" ++ v.
Definition encode_component (c : rstr * option rstr) : rstr :=
  match c.2 with Some v => encode_value c.1 v | None => [] end.
Definition encode_view (l : list (rstr * option rstr)) : rstr := l ≫= encode_component.

Lemma encode_view_cons c l : encode_view (c :: l) = encode_component c ++ encode_view l.
Proof. done. Qed.
Lemma encode_view_nil : encode_view [] = [].
Proof. done. Qed.
Lemma encode_view_app l1 l2 : encode_view (l1 ++ l2) = encode_view l1 ++ encode_view l2.
Proof. apply bind_app. Qed.

Lemma push_component_ok material name value missing m :
  push_component material name value missing = Ok m →
  m = material ++ encode_component (name, nonempty value).
Proof.
  unfold push_component. change (v ← value; _) with (nonempty value).
  destruct (nonempty value) as [v|].
  - intros [= <-]. unfold encode_component, encode_value. by rewrite <- ?app_assoc.
  - destruct missing; intros [= <-]. unfold encode_component. simpl. by rewrite app_nil_r.
Qed.

Lemma push_dimension_ok i missing material d m :
  push_dimension i missing material d = Ok m → m = material ++ encode_view (dimension_view i d).
Proof.
  destruct d; cbn [push_dimension dimension_view]; rewrite ?encode_view_cons, ?encode_view_nil, ?app_nil_r.
  2-4: by intros ->%push_component_ok.
  destruct (push_component material _ _ _) as [m1|] eqn:E1; cbn [mbind result_bind]; [|done].
  destruct (push_component m1 _ _ _) as [m2|] eqn:E2; cbn [mbind result_bind]; [|done].
  intros ->%push_component_ok. apply push_component_ok in E1 as ->. apply push_component_ok in E2 as ->.
  by rewrite <- !app_assoc.
Qed.

Lemma push_header_ok i missing material h m :
  push_header i missing material h = Ok m →
  m = material ++ encode_view (header_view i h) ∧ valid_header_name (normalize_header h) = true.
Proof.
  unfold push_header. cbv zeta. destruct (valid_header_name (normalize_header h)); cbn [negb]; [|done].
  destruct (push_component material _ _ _) as [m1|] eqn:E1; cbn [mbind result_bind]; [|done].
  intros ->%push_component_ok. apply push_component_ok in E1 as ->. split; [|done].
  unfold header_view. rewrite !encode_view_cons, encode_view_nil, app_nil_r. by rewrite <- app_assoc.
Qed.

Lemma push_each_ok {A} (push : rstr → A → result RateLimitError rstr) (view : A → list (rstr * option rstr))
    (good : A → Prop) (l : list A) (material m : rstr) :
  (∀ material a m, push material a = Ok m → m = material ++ encode_view (view a) ∧ good a) →
  push_each push material l = Ok m →
  m = material ++ encode_view (l ≫= view) ∧ ∀ a, a ∈ l → good a.
Proof.
  intros Hp. revert material. induction l as [|a l IH]; intros material; cbn [push_each].
  - intros [= <-]. simpl. rewrite app_nil_r. split; [done|]. by intros a ?%not_elem_of_nil.
  - destruct (push material a) as [m1|] eqn:E; cbn [mbind result_bind]; [|done].
    apply Hp in E as [-> Ha]. intros [-> Hl]%IH. split.
    + by rewrite bind_cons, encode_view_app, app_assoc.
    + intros x [->|Hx]%elem_of_cons; auto.
Qed.

Lemma key_material_ok p i m :
  key_material p i = Ok m →
  m = lit "roze-rate-limit-key-v1" ++ encode_view (policy_view p i) ∧
  ∀ h, h ∈ headers p → valid_header_name (normalize_header h) = true.
Proof.
  unfold key_material. destruct (_ && _); [done|].
  destruct (push_each (push_dimension i (missing p)) _ (dimensions p)) as [m1|] eqn:E1;
    cbn [mbind result_bind]; [|done].
  apply (push_each_ok _ (dimension_view i) (λ _, True)) in E1 as [-> _];
    [|intros ? ? ? ?%push_dimension_ok; done].
  intros E2. apply (push_each_ok _ (header_view i) (λ h, valid_header_name (normalize_header h) = true)) in E2 as [-> Hh];
    [|intros ? ? ?; apply push_header_ok].
  split; [|done]. unfold policy_view. by rewrite encode_view_app, app_assoc.
Qed.

(** ** Unique decoding *)

Lemma dec_no_colon n : 58 ∉ dec n.
Proof.
  destruct (dec_spec n) as (_ & HF & _). rewrite Forall_forall in HF. intros Hin. by apply HF in Hin.
Qed.

Lemma as_bytes_length_app (a b r s : rstr) :
  length (as_bytes a) = length (as_bytes b) → a ++ r = b ++ s → a = b ∧ r = s.
Proof.
  assert (∀ c, (1 ≤ length (utf8_char c))%nat) as Hc.
  { intros c. unfold utf8_char. repeat case_match; simpl; lia. }
  revert b. induction a as [|c a IH]; intros [|d b]; unfold as_bytes; rewrite ?bind_cons, ?length_app.
  - done.
  - pose proof (Hc d). simpl. lia.
  - pose proof (Hc c). simpl. lia.
  - intros Hlen [= -> Heq]. destruct (IH b) as [-> ->]; [unfold as_bytes; lia|done|done].
Qed.

Lemma encode_value_inj n1 n2 v1 v2 r1 r2 :
  58 ∉ n1 → 58 ∉ n2 → encode_value n1 v1 ++ r1 = encode_value n2 v2 ++ r2 → n1 = n2 ∧ v1 = v2 ∧ r1 = r2.
Proof.
  intros H1 H2. unfold encode_value. rewrite <- !app_assoc. intros [= Heq].
  assert (n1 = n2) as -> by (eapply split_at_first; [| |exact Heq]; done).
  apply app_inv_head in Heq. injection Heq as Heq.
  assert (dec (N.of_nat (length (as_bytes v1))) = dec (N.of_nat (length (as_bytes v2)))) as Hd
    by (eapply split_at_first; [| |exact Heq]; apply dec_no_colon).
  rewrite Hd in Heq. apply app_inv_head in Heq. injection Heq as Heq. apply dec_inj in Hd.
  split; [done|]. apply as_bytes_length_app in Heq as [-> ->]; [done|lia].
Qed.

(** The labels a view can start with, when the labels marked [true] always have
    a value; [decodable]: an absent component is not taken for a later one. *)
Fixpoint first_labels (shape : list (rstr * bool)) : list rstr :=
  match shape with
  | [] => []
  | (l, b) :: shape' => l :: if b then [] else first_labels shape'
  end.
Fixpoint decodable (shape : list (rstr * bool)) : Prop :=
  match shape with
  | [] => True
  | (l, b) :: shape' => 58 ∉ l ∧ (b = false → l ∉ first_labels shape') ∧ decodable shape'
  end.
Definition has_shape (v : list (rstr * option rstr)) (shape : list (rstr * bool)) : Prop :=
  Forall2 (λ c s, c.1 = s.1 ∧ (s.2 = true → is_Some c.2)) v shape.

Lemma encode_view_first v shape :
  has_shape v shape →
  encode_view v = [] ∨ ∃ l x r, l ∈ first_labels shape ∧ (∃ b, (l, b) ∈ shape) ∧ encode_view v = encode_value l x ++ r.
Proof.
  induction 1 as [|[l o] [l' b] v shape [Hl Hb] Hv IH]; [by left|]. simpl in Hl, Hb. subst l'.
  rewrite encode_view_cons. unfold encode_component. simpl. destruct o as [x|].
  - right. exists l, x, (encode_view v). split_and!; [by left|exists b; by left|done].
  - destruct b; [by destruct (Hb eq_refl)|]. simpl. destruct IH as [?|(k & x & r & Hk & [b Hin] & ->)]; [by left|right].
    exists k, x, r. split_and!; [by right|exists b; by right|done].
Qed.

Lemma decodable_colon shape l b : decodable shape → (l, b) ∈ shape → 58 ∉ l.
Proof.
  induction shape as [|[k c] shape IH]; simpl; [by intros _ ?%not_elem_of_nil|].
  intros (Hk & _ & Hs) [[= -> ->]|Hin]%elem_of_cons; [done|by apply IH].
Qed.

Lemma encode_value_nonempty n v r : encode_value n v ++ r ≠ [].
Proof. done. Qed.

Lemma encode_view_inj v1 v2 shape :
  decodable shape → has_shape v1 shape → has_shape v2 shape → encode_view v1 = encode_view v2 → v1 = v2.
Proof.
  intros Hd H1. revert v2 Hd. induction H1 as [|[l1 o1] [l b] v1 shape [Hl1 Hb1] Hv1 IH]; intros v2 Hd H2.
  { by inversion H2. }
  inversion H2 as [|[l2 o2] ? v2' ? [Hl2 Hb2] Hv2]; subst. simpl in Hl1, Hb1, Hl2, Hb2, Hd. subst.
  destruct Hd as (Hl & Hfirst & Hd).
  rewrite !encode_view_cons.
  assert (∀ x v, has_shape v shape → encode_value l x ++ encode_view v1 = encode_view v ∨
      encode_value l x ++ encode_view v2' = encode_view v → b = false → False) as Hno.
  { intros x v Hv Heq Hb. destruct (encode_view_first v shape Hv) as [He|(k & y & r & Hk & [c Hin] & He)]; rewrite He in Heq.
    - destruct Heq as [Heq|Heq]; by apply encode_value_nonempty in Heq.
    - pose proof (decodable_colon _ _ _ Hd Hin).
      destruct Heq as [Heq|Heq]; apply encode_value_inj in Heq as (<- & _); try done; by apply Hfirst in Hb. }
  unfold encode_component. simpl. destruct o1 as [x|], o2 as [y|]; simpl.
  - intros (_ & -> & Heq)%encode_value_inj; [|done..]. f_equal. by apply IH.
  - intros Heq. exfalso. apply (Hno x v2'); [done|by left|]. destruct b; [|done]. by destruct (Hb2 eq_refl).
  - intros Heq. exfalso. apply (Hno y v1); [done|by right; symmetry|]. destruct b; [|done]. by destruct (Hb1 eq_refl).
  - intros Heq. f_equal. by apply IH.
Qed.

(** ** The shape of a validated policy *)

Definition dimension_labels (d : RateLimitDimension) : list rstr :=
  match d with
  | Route => [lit "service"; lit "boundary"; lit "operation"]
  | ClientIp => [lit "client_ip"] | Subject => [lit "subject"] | Tenant => [lit "tenant"]
  end.
Definition header_shape : list (rstr * bool) := [(lit "header", false); (lit "header_name", true)].
Definition policy_shape (p : RateLimitKeyPolicy) : list (rstr * bool) :=
  (dimensions p ≫= λ d, (λ l, (l, false)) <$> dimension_labels d) ++ (headers p ≫= λ _, header_shape).

Lemma header_shape_decodable {A} (hs : list A) :
  decodable (hs ≫= λ _, header_shape) ∧
  first_labels (hs ≫= λ _, header_shape) ⊆ [lit "header"; lit "header_name"].
Proof.
  induction hs as [|h hs [IH1 IH2]]; [split; [done|apply list_subseteq_nil]|]. rewrite bind_cons. simpl.
  split; [|done].
  split_and!; [decide_closed|intros _; decide_closed|decide_closed|done|done].
Qed.

Lemma decodable_false ls (shape : list (rstr * bool)) :
  NoDup ls → (∀ l, l ∈ ls → 58 ∉ l ∧ l ∉ first_labels shape) → decodable shape →
  decodable (((λ l, (l, false)) <$> ls) ++ shape) ∧
  ∀ l, l ∈ first_labels (((λ l, (l, false)) <$> ls) ++ shape) → l ∈ ls ∨ l ∈ first_labels shape.
Proof.
  induction 1 as [|l ls Hl _ IH]; intros Hls Hs; simpl; [auto|].
  destruct IH as [IH1 IH2]; [intros x Hx; apply Hls; by right|done|].
  destruct (Hls l) as [Hc Hf]; [by left|]. split.
  - split_and!; [done| |done]. intros _ Hin. by destruct (IH2 l Hin).
  - intros x [->|Hx]%elem_of_cons; [left; by left|]. destruct (IH2 x Hx); [left; by right|by right].
Qed.

Lemma dimension_labels_disjoint d d' l : d ≠ d' → l ∈ dimension_labels d → l ∉ dimension_labels d'.
Proof.
  intros Hne Hl Hl'. assert (Forall (λ l, l ∉ dimension_labels d') (dimension_labels d)) as HF.
  { destruct d, d'; try done; decide_closed. }
  rewrite Forall_forall in HF. by apply (HF l).
Qed.

Lemma dimension_labels_good d :
  NoDup (dimension_labels d) ∧
  Forall (λ l, 58 ∉ l ∧ l ∉ [lit "header"; lit "header_name"]) (dimension_labels d).
Proof. destruct d; split; decide_closed. Qed.

Lemma policy_shape_decodable p : NoDup (dimensions p) → decodable (policy_shape p).
Proof.
  unfold policy_shape. destruct (header_shape_decodable (headers p)) as [Hh1 Hh2].
  set (hs := headers p ≫= λ _, header_shape) in *. clearbody hs. intros HN.
  enough (decodable ((dimensions p ≫= λ d, (λ l, (l, false)) <$> dimension_labels d) ++ hs) ∧
    ∀ l, l ∈ first_labels ((dimensions p ≫= λ d, (λ l, (l, false)) <$> dimension_labels d) ++ hs) →
      (∃ d, d ∈ dimensions p ∧ l ∈ dimension_labels d) ∨ l ∈ [lit "header"; lit "header_name"]) as [? _]; [done|].
  induction HN as [|d ds Hd _ IH]; [split; [done|]; right; by apply Hh2|].
  rewrite bind_cons, <- app_assoc. destruct IH as [IH1 IH2].
  destruct (dimension_labels_good d) as [Hg1 Hg2]. rewrite Forall_forall in Hg2.
  match type of IH1 with decodable ?s => destruct (decodable_false (dimension_labels d) s Hg1) as [H1 H2] end.
  - intros l Hl. destruct (Hg2 l Hl) as [Hc Hhl]. split; [done|]. intros Hin.
    destruct (IH2 l Hin) as [(d' & Hd' & Hl')|?]; [|done].
    assert (d ≠ d') by (intros ->; done). by eapply dimension_labels_disjoint.
  - done.
  - split; [done|]. intros l Hl. destruct (H2 l Hl) as [Hin|Hin].
    + left. exists d. split; [by left|done].
    + destruct (IH2 l Hin) as [(d' & ? & ?)|?]; [left; exists d'; split; [by right|done]|by right].
Qed.

Lemma policy_view_shape p i :
  (∀ h, h ∈ headers p → valid_header_name (normalize_header h) = true) →
  has_shape (policy_view p i) (policy_shape p).
Proof.
  intros Hh. unfold policy_view, policy_shape, has_shape. apply Forall2_app.
  - induction (dimensions p) as [|d ds IH]; [constructor|]. rewrite !bind_cons. apply Forall2_app; [|done].
    destruct d; repeat (constructor; [done|]); constructor.
  - induction (headers p) as [|h hs IH]; [constructor|]. rewrite !bind_cons. apply Forall2_app.
    + constructor; [done|]. constructor; [|constructor]. split; [done|]. intros _. simpl.
      specialize (Hh h ltac:(by left)). unfold valid_header_name in Hh.
      case_bool_decide; [done|]. by eexists.
    + apply IH. intros x Hx. apply Hh. by right.
Qed.

Lemma validate_dimensions_NoDup seen l : validate_dimensions seen l = Ok tt → NoDup l ∧ ∀ d, d ∈ l → d ∉ seen.
Proof.
  revert seen. induction l as [|d l IH]; intros seen; simpl; [split; [constructor|by intros ? ?%not_elem_of_nil]|].
  case_bool_decide as Hd; [done|]. intros [HN Hl]%IH. split.
  - constructor; [|done]. intros Hin. apply (Hl d Hin). by left.
  - intros x [->|Hx]%elem_of_cons; [done|]. intros Hs. apply (Hl x Hx). by right.
Qed.

Lemma validate_NoDup p : RateLimitKeyPolicy_validate p = Ok tt → NoDup (dimensions p).
Proof.
  unfold RateLimitKeyPolicy_validate. destruct (_ && _); [done|].
  destruct (validate_dimensions [] (dimensions p)) as [[]|] eqn:E; [|done]. intros _.
  by apply validate_dimensions_NoDup in E as [? _].
Qed.

(** Strings are sequences of Unicode scalar values. *)
Definition unicode_view (p : RateLimitKeyPolicy) (i : RateLimitIdentity) : Prop :=
  Forall (λ c, valid_str c.1 ∧ ∀ v, c.2 = Some v → valid_str v) (policy_view p i).

Lemma encode_view_valid p i : unicode_view p i → valid_str (encode_view (policy_view p i)).
Proof.
  unfold unicode_view. induction 1 as [|[l o] v [Hl Ho] _ IH]; [constructor|].
  rewrite encode_view_cons. apply Forall_app. split; [|done]. unfold encode_component. simpl in *.
  destruct o as [x|]; [|constructor]. unfold encode_value.
  apply Forall_app; split; [decide_closed|]. apply Forall_app; split; [done|].
  apply Forall_app; split; [decide_closed|]. apply Forall_app; split;
    [|apply Forall_app; split; [decide_closed|by apply Ho]].
  destruct (dec_spec (N.of_nat (length (as_bytes x)))) as (_ & HF & _).
  eapply Forall_impl; [exact HF|]. intros c Hc. unfold is_ascii_digit in Hc. guard_prop. lia.
Qed.

(** ** Properties *)

(** Requests share a bucket only if the policy says so. Under a validated key
    policy, two requests get the same key only if they agree on every dimension
    and header the policy selects (the route counting as service, boundary and
    operation, a missing or empty value as missing), or two different inputs of
    SHA-256 with the same digest are at hand. *)
Theorem key_separates_requests sha256 p i1 i2 key :
  (∀ m, is_bytes (sha256 m)) → RateLimitKeyPolicy_validate p = Ok tt →
  unicode_view p i1 → unicode_view p i2 →
  build_key sha256 p i1 = Ok key → build_key sha256 p i2 = Ok key →
  policy_view p i1 = policy_view p i2 ∨ ∃ a b, a ≠ b ∧ sha256 a = sha256 b.
Proof.
  intros Hsha Hval Hu1 Hu2. unfold build_key.
  destruct (key_material p i1) as [m1|] eqn:E1; cbn [mbind result_bind]; [|done].
  destruct (key_material p i2) as [m2|] eqn:E2; cbn [mbind result_bind]; [|done].
  intros [= H1] [= H2]. rewrite <- H2 in H1. apply hex_inj in H1; [|done..].
  destruct (decide (as_bytes m1 = as_bytes m2)) as [Heq|Hne]; [left|right; by exists (as_bytes m1), (as_bytes m2)].
  apply key_material_ok in E1 as [-> Hh]. apply key_material_ok in E2 as [-> _].
  rewrite !as_bytes_app in Heq. apply app_inv_head in Heq. apply as_bytes_inj in Heq; [|by apply encode_view_valid..].
  apply (encode_view_inj _ _ (policy_shape p)); [|by apply policy_view_shape..|done].
  by apply policy_shape_decodable, validate_NoDup.
Qed.

(** ** Witnesses *)

Definition ex_policy : RateLimitKeyPolicy :=
  {| dimensions := [Tenant; Route]; headers := [lit " X-Api "]; missing := Omit |}.
Definition ex_identity : RateLimitIdentity :=
  with_headers [(lit "X-API", lit "7")] (RateLimitIdentity_new (lit "s") (lit "http") (lit "get|1:x")).

Lemma ex_unicode : unicode_view ex_policy ex_identity.
Proof.
  repeat (constructor; [split; [decide_closed|intros v Hv; (discriminate Hv || (injection Hv as <-; decide_closed))]|]).
  constructor.
Qed.

(** The checksum stands in for SHA-256. *)
Definition ex_sha (m : list N) : list N := [foldr N.add 0 m mod 256].

Lemma key_separates_requests_witness :
  policy_view ex_policy ex_identity = policy_view ex_policy ex_identity ∨ ∃ a b, a ≠ b ∧ ex_sha a = ex_sha b.
Proof.
  apply (key_separates_requests ex_sha ex_policy ex_identity ex_identity
    (match build_key ex_sha ex_policy ex_identity with Ok k => k | Err _ => [] end)).
  - intros m. constructor; [apply N.mod_lt; discriminate|constructor].
  - vm_compute. reflexivity.
  - exact ex_unicode.
  - exact ex_unicode.
  - vm_compute. reflexivity.
  - vm_compute. reflexivity.
Defined.

(** A bucket of two tokens that gets one per second. *)
Definition ex_limit : RateLimit := {| burst := 2; refill := from_secs 1; tokens_per_refill := 1 |}.

Example memory_bucket :
  let '(d1, s1) := InMemory_check (lit "k") ex_limit 0 ∅ in
  let '(d2, s2) := InMemory_check (lit "k") ex_limit (from_millis 500) s1 in
  let '(d3, s3) := InMemory_check (lit "k") ex_limit (from_millis 750) s2 in
  (d1, d2, d3) = (Some (decision_allowed false), Some (decision_allowed false),
                  Some (decision_denied (from_millis 250))).
Proof. vm_compute. reflexivity. Qed.
