(* ===== verification/Health.v ===== *)
(** * Health and readiness (crates/roze-health/src/lib.rs, crates/roze-rpc/src/health.rs)

    The health registry, its phases and reports, and the reporter that keeps the
    gRPC health status of a service. What a check does is a parameter: at a
    world it completes with a [HealthCheck], panics, or outlasts the timeout.
    tonic's health service is the map of the statuses set last. *)

From S2P Require Import Prelude Text.

Inductive HealthStatus := Healthy | Degraded | Unhealthy.
#[export] Instance HealthStatus_eq_dec : EqDecision HealthStatus.
Proof. solve_decision. Defined.

Definition status_is_ready (s : HealthStatus) : bool := bool_decide (s = Healthy).
Definition status_is_alive (s : HealthStatus) : bool := negb (bool_decide (s = Unhealthy)).
Definition status_text (s : HealthStatus) : rstr :=
  match s with Healthy => lit "healthy" | Degraded => lit "degraded" | Unhealthy => lit "unhealthy" end.

Record HealthCheck := { hc_name : rstr; status : HealthStatus; message : option rstr }.
Definition check_healthy (name : rstr) : HealthCheck :=
  {| hc_name := name; status := Healthy; message := None |}.
Definition check_degraded (name m : rstr) : HealthCheck :=
  {| hc_name := name; status := Degraded; message := Some m |}.
Definition check_unhealthy (name m : rstr) : HealthCheck :=
  {| hc_name := name; status := Unhealthy; message := Some m |}.

(** ** Reports *)

Abbreviation HealthReport := (list HealthCheck).

Definition overall_status (checks : HealthReport) : HealthStatus :=
  if existsb (λ c, bool_decide (status c = Unhealthy)) checks then Unhealthy
  else if existsb (λ c, bool_decide (status c = Degraded)) checks then Degraded
  else Healthy.
Definition report_is_ready (r : HealthReport) : bool := status_is_ready (overall_status r).
Definition report_is_alive (r : HealthReport) : bool := status_is_alive (overall_status r).

(** [replace('\\', r"\\").replace('\n', r"\n")] *)
Definition escape_text_field (value : rstr) : rstr :=
  (value ≫= λ c, if c =? 92 then [92; 92] else [c]) ≫= λ c, if c =? 10 then [92; 110] else [c].

Definition render_check (c : HealthCheck) : rstr :=
  escape_text_field (hc_name c) ++ lit "=" ++ status_text (status c) ++
  match message c with Some m => lit " message=" ++ escape_text_field m | None => [] end ++ [10].
Definition render_text (r : HealthReport) : rstr :=
  lit "status=" ++ status_text (overall_status r) ++ [10] ++ (r ≫= render_check).

Inductive ProbeKind := Liveness | Readiness | Startup.
Record ProbeReport :=
  { probe_kind : ProbeKind; probe_status : HealthStatus; ready : bool; alive : bool;
    probe_checks : list HealthCheck }.
Definition probe (r : HealthReport) (kind : ProbeKind) : ProbeReport :=
  {| probe_kind := kind; probe_status := overall_status r; ready := report_is_ready r;
     alive := report_is_alive r; probe_checks := r |}.

(** ** The registry *)

Inductive ServicePhase := Starting | Ready | Draining.
Definition phase_text (p : ServicePhase) : rstr :=
  match p with Starting => lit "starting" | Ready => lit "ready" | Draining => lit "draining" end.

Inductive check_outcome := Finished (check : HealthCheck) | Panicked | TimedOut.

Section registry.
Context {W : Type}.

Record RegisteredCheck := { rc_name : rstr; rc_check : W → check_outcome }.
Record HealthRegistry :=
  { checks : list RegisteredCheck; startup_complete : bool; draining : bool; check_timeout : N }.

Definition HealthRegistry_default : HealthRegistry :=
  {| checks := []; startup_complete := false; draining := false; check_timeout := from_secs 2 |}.

(** [None] is the assertion on a zero timeout. *)
Definition with_check_timeout (timeout : N) (h : HealthRegistry) : option HealthRegistry :=
  if timeout =? 0 then None
  else Some {| checks := checks h; startup_complete := startup_complete h; draining := draining h;
               check_timeout := timeout |}.

Definition set_phase (s d : bool) (h : HealthRegistry) : HealthRegistry :=
  {| checks := checks h; startup_complete := s; draining := d; check_timeout := check_timeout h |}.
Definition mark_started (h : HealthRegistry) : HealthRegistry := set_phase true (draining h) h.
Definition mark_draining (h : HealthRegistry) : HealthRegistry := set_phase (startup_complete h) true h.
Definition mark_ready (h : HealthRegistry) : HealthRegistry := set_phase true false h.

Definition phase (h : HealthRegistry) : ServicePhase :=
  if draining h then Draining else if startup_complete h then Ready else Starting.

Definition register_check (name : rstr) (check : W → check_outcome) (h : HealthRegistry) : HealthRegistry :=
  {| checks := checks h ++ [{| rc_name := name; rc_check := check |}];
     startup_complete := startup_complete h; draining := draining h; check_timeout := check_timeout h |}.
Definition register_static (c : HealthCheck) (h : HealthRegistry) : HealthRegistry :=
  register_check (hc_name c) (λ _, Finished c) h.

(** A dependency answers [Ok(())] or an error, or panics or times out. *)
Inductive dependency_outcome := Answered (r : result rstr unit) | DepPanicked | DepTimedOut.
Definition register_dependency (name : rstr) (check : W → dependency_outcome) (h : HealthRegistry)
    : HealthRegistry :=
  register_check name
    (λ w, match check w with
          | Answered (Ok _) => Finished (check_healthy name)
          | Answered (Err err) => Finished (check_unhealthy name err)
          | DepPanicked => Panicked
          | DepTimedOut => TimedOut
          end) h.

Definition run_registered_check (timeout : N) (w : W) (r : RegisteredCheck) : HealthCheck :=
  match rc_check r w with
  | Finished c =>
      if bool_decide (hc_name c = [])
      then {| hc_name := rc_name r; status := status c; message := message c |} else c
  | Panicked => check_unhealthy (rc_name r) (lit "health check panicked")
  | TimedOut =>
      check_unhealthy (rc_name r)
        (lit "health check timed out after " ++ dec (timeout / 1000000) ++ lit "ms")
  end.
Definition run_registered_checks (h : HealthRegistry) (w : W) : list HealthCheck :=
  run_registered_check (check_timeout h) w <$> checks h.

Definition phase_checks (h : HealthRegistry) : list HealthCheck :=
  match phase h with
  | Starting => [check_unhealthy (lit "phase") (phase_text Starting)]
  | Ready => [check_healthy (lit "phase")]
  | Draining => [check_degraded (lit "phase") (phase_text Draining)]
  end.

Definition liveness_report (h : HealthRegistry) : HealthReport :=
  check_healthy (lit "process") ::
  (if draining h then [check_degraded (lit "phase") (phase_text Draining)] else []).
Definition readiness_report (h : HealthRegistry) (w : W) : HealthReport :=
  phase_checks h ++ run_registered_checks h w.
Definition startup_report (h : HealthRegistry) : HealthReport :=
  match phase h with
  | Starting => [check_unhealthy (lit "startup") (phase_text Starting)]
  | Ready => [check_healthy (lit "startup")]
  | Draining => [check_degraded (lit "startup") (phase_text Draining)]
  end.

(** ** The gRPC reporter *)

Inductive ServingStatus := Serving | NotServing.

Definition serving_status (r : HealthReport) : ServingStatus :=
  if report_is_ready r then Serving else NotServing.

Definition refresh (service_name : rstr) (h : HealthRegistry) (w : W) (reporter : gmap rstr ServingStatus)
    : gmap rstr ServingStatus :=
  let status := serving_status (readiness_report h w) in
  <[service_name := status]> (<[[] := status]> reporter).

(** [run_until]: refreshes at the ticks until the shutdown, with the registry and
    the world each finds; [mark_draining] before the last. *)
Fixpoint run_until (service_name : rstr) (ticks : list (HealthRegistry * W)) (last : HealthRegistry * W)
    (reporter : gmap rstr ServingStatus) : HealthRegistry * gmap rstr ServingStatus :=
  match ticks with
  | [] => let h := mark_draining last.1 in (h, refresh service_name h last.2 reporter)
  | (h, w) :: ticks' => run_until service_name ticks' last (refresh service_name h w reporter)
  end.
End registry.
Arguments HealthRegistry : clear implicits.

(** ** Lemmas *)

Lemma existsb_none {A} (f : A → bool) (l : list A) : existsb f l = false ↔ ∀ x, x ∈ l → f x = false.
Proof.
  rewrite <- not_true_iff_false, existsb_elem_of. split.
  - intros Hn x Hx. apply not_true_iff_false. intros Hf. apply Hn. by exists x.
  - intros Hall (x & Hx & Hf). rewrite (Hall x Hx) in Hf. done.
Qed.

Lemma report_ready_all (r : HealthReport) : report_is_ready r = true ↔ ∀ c, c ∈ r → status c = Healthy.
Proof.
  unfold report_is_ready, status_is_ready, overall_status. rewrite bool_decide_eq_true.
  destruct (existsb (λ c, bool_decide (status c = Unhealthy)) r) eqn:E1.
  { split; [done|]. apply existsb_elem_of in E1 as (c & Hc & Hs%bool_decide_eq_true).
    intros Hall. specialize (Hall c Hc). congruence. }
  destruct (existsb (λ c, bool_decide (status c = Degraded)) r) eqn:E2.
  { split; [done|]. apply existsb_elem_of in E2 as (c & Hc & Hs%bool_decide_eq_true).
    intros Hall. specialize (Hall c Hc). congruence. }
  split; [|done]. intros _ c Hc. rewrite existsb_none in E1, E2.
  specialize (E1 c Hc). specialize (E2 c Hc). guard_prop. by destruct (status c).
Qed.

Definition newlines (s : rstr) : nat := countp (λ c, c = 10) s.

Lemma escape_no_newline s : newlines (escape_text_field s) = 0%nat.
Proof.
  apply countp_zero. intros c Hc. unfold escape_text_field in Hc.
  apply list_elem_of_bind in Hc as (d & Hc & _). intros ->. destruct (d =? 10) eqn:Hd; guard_prop.
  - rewrite !elem_of_cons in Hc. destruct Hc as [?|[?|?%not_elem_of_nil]]; done.
  - apply list_elem_of_singleton in Hc. congruence.
Qed.

Lemma status_text_newlines s : newlines (status_text s) = 0%nat.
Proof. by destruct s. Qed.

(** A message cannot forge a line of the report. *)
Lemma render_text_lines (r : HealthReport) : newlines (render_text r) = S (length r).
Proof.
  unfold render_text, newlines. rewrite !countp_app. fold (newlines (status_text (overall_status r))).
  rewrite status_text_newlines. simpl. f_equal.
  induction r as [|c r IH]; [done|]. rewrite bind_cons, countp_app, IH. unfold render_check.
  rewrite !countp_app. fold (newlines (escape_text_field (hc_name c))) (newlines (status_text (status c))).
  rewrite escape_no_newline, status_text_newlines. destruct (message c) as [m|]; [|done].
  rewrite countp_app. fold (newlines (escape_text_field m)). by rewrite escape_no_newline.
Qed.

(** ** Properties *)

(** A service reports ready exactly when it is. The readiness report is ready
    if and only if the service is started and not draining and every registered
    check finishes in time, without a panic, as healthy; draining never affects
    liveness, and the text report has one line for the status and one per check,
    whatever the names and messages. *)
Theorem readiness_correct {W} (h : HealthRegistry W) (w : W) :
  (report_is_ready (readiness_report h w) = true ↔
     startup_complete h = true ∧ draining h = false ∧
     ∀ r, r ∈ checks h → ∃ c, rc_check r w = Finished c ∧ status c = Healthy) ∧
  report_is_alive (liveness_report h) = true ∧
  newlines (render_text (readiness_report h w)) = (2 + length (checks h))%nat.
Proof.
  split_and!.
  - rewrite report_ready_all. unfold readiness_report. setoid_rewrite elem_of_app.
    assert ((∀ c, c ∈ phase_checks h → status c = Healthy) ↔ startup_complete h = true ∧ draining h = false) as Hp.
    { unfold phase_checks, phase. destruct (draining h), (startup_complete h);
        setoid_rewrite list_elem_of_singleton; split; try done; try (intros Hs; specialize (Hs _ eq_refl); done).
      - by intros [_ ?]. - by intros [_ ?]. - by intros _ c ->. - by intros [? _]. }
    assert ((∀ c, c ∈ run_registered_checks h w → status c = Healthy) ↔
      ∀ r, r ∈ checks h → ∃ c, rc_check r w = Finished c ∧ status c = Healthy) as Hc.
    { unfold run_registered_checks. setoid_rewrite list_elem_of_fmap. unfold run_registered_check. split.
      - intros Hall r Hr. specialize (Hall _ (ex_intro _ r (conj eq_refl Hr))).
        destruct (rc_check r w) as [c| |]; [|done..]. exists c. split; [done|]. by case_bool_decide.
      - intros Hall c (r & -> & Hr). destruct (Hall r Hr) as (c & -> & Hs). by case_bool_decide. }
    rewrite <- Hc. naive_solver.
  - unfold liveness_report. by destruct (draining h).
  - rewrite render_text_lines. unfold readiness_report, run_registered_checks.
    rewrite length_app, length_fmap. unfold phase_checks. by destruct (phase h).
Qed.

(** The gRPC health status follows readiness and ends as not serving. Every
    refresh sets the status of the server and of the service to serving exactly
    if the readiness report is ready, and after [run_until], whatever the ticks
    saw, both are not serving and the registry is draining. *)
Theorem reporter_follows_readiness {W} (name : rstr) (h : HealthRegistry W) (w : W)
    (ticks : list (HealthRegistry W * W)) (last : HealthRegistry W * W) (reporter : gmap rstr ServingStatus) :
  (let reporter' := refresh name h w reporter in
   reporter' !! name = Some (serving_status (readiness_report h w)) ∧
   reporter' !! [] = Some (serving_status (readiness_report h w))) ∧
  let '(h', reporter') := run_until name ticks last reporter in
  phase h' = Draining ∧ reporter' !! name = Some NotServing ∧ reporter' !! [] = Some NotServing.
Proof.
  assert (∀ (h : HealthRegistry W) (w : W) rep, refresh name h w rep !! name = Some (serving_status (readiness_report h w)) ∧
    refresh name h w rep !! [] = Some (serving_status (readiness_report h w))) as Hr.
  { intros h0 w0 rep. unfold refresh. split; [by rewrite lookup_insert_eq|].
    destruct (decide (name = [])) as [->|Hne]; [by rewrite lookup_insert_eq|].
    by rewrite lookup_insert_ne, lookup_insert_eq. }
  split; [apply Hr|]. revert reporter. induction ticks as [|[h1 w1] ticks IH]; intros reporter; [|apply IH].
  cbn [run_until]. split; [done|]. destruct (Hr (mark_draining last.1) last.2 reporter) as [-> ->].
  assert (report_is_ready (readiness_report (mark_draining last.1) last.2) = false) as Hf.
  { apply not_true_iff_false. rewrite report_ready_all. intros Hall.
    specialize (Hall (check_degraded (lit "phase") (phase_text Draining)) ltac:(by left)). done. }
  unfold serving_status. by rewrite Hf.
Qed.
