(* ===== verification/ApiParser.v ===== *)
(** * The contract language (apps/rozectl/src/parser.rs)

    [parse_api] reads a service contract line by line: comments and blank lines
    are dropped, blocks consume the lines up to their end. The index [i] into
    the numbered lines is the list of lines that are left, so a block parser
    returns what it leaves; a loop that calls block parsers recurses on fuel,
    [None] meaning that the fuel was not enough ([parse_api_total] shows it
    always is). *)

From S2P Require Import Prelude Text Scan.

(** ** The syntax tree *)

Record ServerSpec :=
  { sv_prefix : option rstr; sv_group : option rstr; sv_middlewares : list rstr;
    sv_jwt : option rstr }.

Record InfoPair := { info_key : rstr; info_value : rstr }.

Inductive FieldSource := Auto | Json | Query | Form | PathSource | Header.

Record Field :=
  { fd_name : rstr; fd_ty : rstr; fd_embedded : bool; fd_json_name : option rstr;
    fd_source : FieldSource; fd_wire_name : option rstr; fd_validate : option rstr }.

Record TypeDef := { td_name : rstr; td_fields : list Field }.

Inductive HttpMethod := Get | Head | Post | Put | Patch | Delete.

Record RestRoute :=
  { rt_handler : option rstr; rt_doc : option rstr; rt_websocket : bool; rt_maud : bool;
    rt_middlewares : list rstr; rt_permissions : list rstr; rt_server : option ServerSpec;
    rt_method : HttpMethod; rt_path : rstr; rt_request : rstr; rt_response : rstr }.

Record RpcMethod :=
  { rpc_name : rstr; rpc_request : rstr; rpc_response : rstr; rpc_middlewares : list rstr;
    rpc_permissions : list rstr }.

Record ApiSpec :=
  { service : rstr; rpc_package : option rstr; server : option ServerSpec;
    info : list InfoPair; types : list TypeDef; rest_routes : list RestRoute;
    rpc_methods : list RpcMethod }.

#[export] Instance FieldSource_eq_dec : EqDecision FieldSource.
Proof. solve_decision. Defined.
#[export] Instance HttpMethod_eq_dec : EqDecision HttpMethod.
Proof. solve_decision. Defined.
#[export] Instance ServerSpec_eq_dec : EqDecision ServerSpec.
Proof. solve_decision. Defined.

Inductive ParseError :=
| InvalidLine (line : N) (message : rstr)
| MissingService.

Definition EMPTY_REQUEST_TYPE : rstr := lit "EmptyReq".
Definition EMPTY_RESPONSE_TYPE : rstr := lit "EmptyResp".

(** A numbered line of [source.lines().enumerate()]. *)
Abbreviation numbered := (N * rstr)%type.

Definition invalid {A} (line_no : N) (message : rstr) : result ParseError A :=
  Err (InvalidLine (line_no + 1) message).

Definition quote : rstr := [34].

(** ** Pieces of a line *)

Definition strip_comment (line : rstr) : rstr :=
  match split_once (lit "//") line with Some (before, _) => before | None => line end.

(** [strip_comment(raw).trim()] *)
Definition clean_line (raw : rstr) : rstr := trim (strip_comment raw).

Definition is_block_start (line name : rstr) : bool :=
  match strip_prefix name line with
  | None => false
  | Some rest => str_eqb (trim_start rest) (lit "(")
  end.

Definition is_syntax_decl (line : rstr) : bool :=
  match split_once (lit "=") line with
  | None => false
  | Some (key, _) => str_eqb (trim key) (lit "syntax")
  end.

(** [s.strip_prefix(a).and_then(|value| value.strip_suffix(b))] *)
Definition unwrap_affixes (a b s : rstr) : option rstr := strip_prefix a s ≫= strip_suffix b.

Definition parse_annotation_arg (line name : rstr) : option rstr :=
  rest ← strip_prefix name line;
  let rest := trim_start rest in
  if str_is_empty rest then None
  else match unwrap_affixes (lit "(") (lit ")") rest with
       | Some inner => Some (trim inner)
       | None => Some (trim rest)
       end.

Definition trim_annotation_string (input : rstr) : rstr :=
  let trimmed := trim input in trim (default trimmed (unwrap_affixes quote quote trimmed)).

Definition parse_name_list (input : rstr) : list rstr :=
  str_filter nonempty
    (trim_annotation_string <$> (trim <$> split_on (λ ch, (ch =? 44) || is_whitespace ch) input)).

Definition split_first_token (input : rstr) : option (rstr * rstr) :=
  let input := trim input in
  if str_is_empty input then None
  else match drop_until is_whitespace input with
       | [] => None
       | tail => Some (take_until is_whitespace input, trim_start tail)
       end.

(** The earlier of the first white space and the first [(]. *)
Definition split_route_path_and_signature (input : rstr) : rstr * rstr :=
  let input := trim input in
  if str_is_empty input then ([], [])
  else
    let at_ := λ ch, is_whitespace ch || (ch =? 40) in
    match drop_until at_ input with
    | [] => (input, [])
    | signature => (trim (take_until at_ input), trim_start signature)
    end.

Definition trim_wrapping_parens (input : rstr) : rstr :=
  let trimmed := trim input in
  match unwrap_affixes (lit "(") (lit ")") trimmed with
  | Some inner => trim inner
  | None => trimmed
  end.

Definition parse_signature (input : rstr) (_line_no : N) : result ParseError (rstr * rstr) :=
  let trimmed := trim input in
  match split_once (lit "returns") trimmed with
  | None => Ok (trim_wrapping_parens trimmed, EMPTY_RESPONSE_TYPE)
  | Some (request, response) => Ok (trim_wrapping_parens request, trim_wrapping_parens response)
  end.

(** [line.splitn(2, ':')], both parts trimmed and the second unquoted. *)
Definition split_key_value (line : rstr) : rstr * rstr :=
  match split_once (lit ":") line with
  | Some (key, value) => (trim key, trim_matches (N.eqb 34) (trim value))
  | None => (trim line, [])
  end.

(** ** Routes and methods *)

Definition http_method_of (name : rstr) : option HttpMethod :=
  if str_eqb name (lit "get") then Some Get
  else if str_eqb name (lit "head") then Some Head
  else if str_eqb name (lit "post") then Some Post
  else if str_eqb name (lit "put") then Some Put
  else if str_eqb name (lit "patch") then Some Patch
  else if str_eqb name (lit "delete") then Some Delete
  else None.

Definition parse_rest_route (line : rstr) (line_no : N) : result ParseError (option RestRoute) :=
  match split_first_token line with
  | None => Ok None
  | Some (method_name, rest) =>
      match http_method_of method_name with
      | None => Ok None
      | Some method =>
          let '(path, signature) := split_route_path_and_signature rest in
          if str_is_empty path
          then invalid line_no (lit "expected route path and optional `(Req) returns (Resp)`")
          else
            '(request, response) ← parse_signature signature line_no;
            Ok (Some {| rt_handler := None; rt_doc := None; rt_websocket := false;
                        rt_maud := false; rt_middlewares := []; rt_permissions := [];
                        rt_server := None; rt_method := method; rt_path := path;
                        rt_request := request; rt_response := response |})
      end
  end.

Definition parse_rpc_method (input : rstr) (line_no : N) : result ParseError RpcMethod :=
  '(name, signature) ← ok_or (split_first_token input)
    (InvalidLine (line_no + 1) (lit "expected `rpc Name (Req) returns (Resp)`"));
  '(request, response) ← parse_signature signature line_no;
  Ok {| rpc_name := name; rpc_request := request; rpc_response := response;
        rpc_middlewares := []; rpc_permissions := [] |}.

(** ** Fields *)

(** The loop over the characters of the last path segment; [out] is reversed. *)
Fixpoint embedded_chars (chars rout : rstr) (prev_lower_or_digit : bool) : rstr :=
  match chars with
  | [] => rout
  | ch :: chars' =>
      if is_ascii_uppercase ch then
        let rout := if prev_lower_or_digit && nonempty rout then 95 :: rout else rout in
        embedded_chars chars' (to_ascii_lowercase ch :: rout) false
      else if is_ascii_alphanumeric ch then
        embedded_chars chars' (to_ascii_lowercase ch :: rout) (is_ascii_lowercase ch || is_ascii_digit ch)
      else if negb (starts_with (lit "_") rout) && nonempty rout then
        embedded_chars chars' (95 :: rout) false
      else embedded_chars chars' rout prev_lower_or_digit
  end.

Definition embedded_field_name (ty : rstr) : rstr :=
  let ty := trim_start_matches (N.eqb 42) ty in
  let ty := reverse (take_until (λ c, (c =? 46) || (c =? 47)) (reverse ty)) in
  trim_matches (N.eqb 95) (reverse (embedded_chars ty [] false)).

Definition tag_needle (tag : rstr) : rstr := tag ++ lit ":" ++ quote.

Definition parse_tag_value_full (line tag : rstr) : option rstr :=
  '(_, rest) ← split_once (tag_needle tag) line;
  '(value, _) ← split_once quote rest;
  if str_is_empty value || str_eqb value (lit "-") then None else Some value.

Definition parse_tag_value (line tag : rstr) : option rstr :=
  value ← parse_tag_value_full line tag;
  let name := take_until (N.eqb 44) value in
  if str_is_empty name || str_eqb name (lit "-") then None else Some name.

Definition plain_field (name ty : rstr) (embedded : bool) : Field :=
  {| fd_name := name; fd_ty := ty; fd_embedded := embedded; fd_json_name := None;
     fd_source := Auto; fd_wire_name := None; fd_validate := None |}.

(** [first], [get(1)] with [unwrap_or_default]. *)
Definition nth_or_empty (i : nat) (l : list rstr) : rstr := default [] (l !! i).

(** The field before its tags are read. *)
Definition parse_field_base (line : rstr) (line_no : N) : result ParseError Field :=
  if ends_with (lit ":") (nth_or_empty 0 (split_whitespace line)) then
    let '(field_name, rest) :=
      match split_once (lit ":") line with
      | Some (name, rest) => (trim name, trim rest)
      | None => (trim line, [])
      end in
    let field_ty := trim_end_matches (N.eqb 44) (nth_or_empty 0 (split_whitespace rest)) in
    if str_is_empty field_name || str_is_empty field_ty
    then invalid line_no (lit "expected `field: Type`")
    else Ok (plain_field field_name field_ty false)
  else
    let parts := split_whitespace line in
    let field_name := nth_or_empty 0 parts in
    let field_ty := nth_or_empty 1 parts in
    if str_is_empty field_name
    then invalid line_no (lit "expected `Field Type `json:" ++ quote ++ lit "field" ++ quote ++ lit "``")
    else if str_is_empty field_ty || starts_with (lit "`") field_ty
    then Ok (plain_field (embedded_field_name field_name)
               (trim_start_matches (N.eqb 42) field_name) true)
    else Ok (plain_field field_name field_ty false).

(** One of the [json], [query], [form] and [path] tags. *)
Definition apply_tag (line tag : rstr) (source : FieldSource) (f : Field) : Field :=
  match parse_tag_value line tag with
  | Some value =>
      {| fd_name := fd_name f; fd_ty := fd_ty f; fd_embedded := fd_embedded f;
         fd_json_name := Some value; fd_source := source; fd_wire_name := Some value;
         fd_validate := fd_validate f |}
  | None => f
  end.

Definition apply_header_tag (line : rstr) (f : Field) : Field :=
  match parse_tag_value line (lit "header") with
  | Some value =>
      {| fd_name := fd_name f; fd_ty := fd_ty f; fd_embedded := fd_embedded f;
         fd_json_name := fd_json_name f; fd_source := Header; fd_wire_name := Some value;
         fd_validate := fd_validate f |}
  | None => f
  end.

Definition apply_validate_tag (line : rstr) (f : Field) : Field :=
  match parse_tag_value_full line (lit "validate") with
  | Some value =>
      {| fd_name := fd_name f; fd_ty := fd_ty f; fd_embedded := fd_embedded f;
         fd_json_name := fd_json_name f; fd_source := fd_source f; fd_wire_name := fd_wire_name f;
         fd_validate := Some value |}
  | None => f
  end.

Definition apply_tags (line : rstr) (f : Field) : Field :=
  let f := apply_tag line (lit "json") Json f in
  let f := apply_tag line (lit "query") Query f in
  let f := apply_tag line (lit "form") Form f in
  let f := apply_tag line (lit "path") PathSource f in
  apply_validate_tag line (apply_header_tag line f).

Definition parse_field (line : rstr) (line_no : N) : result ParseError Field :=
  apply_tags line <$> parse_field_base line line_no.

(** ** Blocks *)

(** One [key: value] line of an [@server] block. *)
Definition set_server_key (sv : ServerSpec) (key value : rstr) : option ServerSpec :=
  if str_eqb key (lit "prefix") then
    Some {| sv_prefix := Some value; sv_group := sv_group sv;
            sv_middlewares := sv_middlewares sv; sv_jwt := sv_jwt sv |}
  else if str_eqb key (lit "group") then
    Some {| sv_prefix := sv_prefix sv; sv_group := Some value;
            sv_middlewares := sv_middlewares sv; sv_jwt := sv_jwt sv |}
  else if str_eqb key (lit "jwt") then
    Some {| sv_prefix := sv_prefix sv; sv_group := sv_group sv;
            sv_middlewares := sv_middlewares sv; sv_jwt := Some value |}
  else if str_eqb key (lit "middleware") || str_eqb key (lit "middlewares") then
    Some {| sv_prefix := sv_prefix sv; sv_group := sv_group sv;
            sv_middlewares := sv_middlewares sv ++ parse_name_list value; sv_jwt := sv_jwt sv |}
  else None.

Definition ServerSpec_default : ServerSpec :=
  {| sv_prefix := None; sv_group := None; sv_middlewares := []; sv_jwt := None |}.

Fixpoint parse_server_lines (lines : list numbered) (sv : ServerSpec)
    : result ParseError (ServerSpec * list numbered) :=
  match lines with
  | [] => Ok (sv, [])
  | (line_no, raw) :: lines' =>
      let line := clean_line raw in
      if str_is_empty line then parse_server_lines lines' sv
      else if str_eqb line (lit ")") then Ok (sv, lines')
      else
        let '(key, value) := split_key_value line in
        if str_is_empty key || str_is_empty value
        then invalid line_no (lit "expected `key: value` inside @server block")
        else match set_server_key sv key value with
             | Some sv => parse_server_lines lines' sv
             | None => invalid line_no
                 (lit "unsupported @server key; expected `prefix`, `group`, `jwt` or `middleware`")
             end
  end.

Definition parse_server_block (lines : list numbered) :=
  parse_server_lines lines ServerSpec_default.

Fixpoint parse_fields_until_brace (lines : list numbered)
    : result ParseError (list Field * list numbered) :=
  match lines with
  | [] => Ok ([], [])
  | (line_no, raw) :: lines' =>
      let line := clean_line raw in
      if str_is_empty line then parse_fields_until_brace lines'
      else if str_eqb line (lit "}") then Ok ([], lines')
      else
        field ← parse_field line line_no;
        '(fields, rest) ← parse_fields_until_brace lines';
        Ok (field :: fields, rest)
  end.

Fixpoint parse_info_block (lines : list numbered) (pairs : list InfoPair)
    : result ParseError (list InfoPair * list numbered) :=
  match lines with
  | [] => Ok (pairs, [])
  | (line_no, raw) :: lines' =>
      let line := clean_line raw in
      if str_is_empty line then parse_info_block lines' pairs
      else if str_eqb line (lit ")") then Ok (pairs, lines')
      else
        let '(key, value) := split_key_value line in
        if str_is_empty key || str_is_empty value
        then invalid line_no (lit "expected `key: " ++ quote ++ lit "value" ++ quote ++ lit "`")
        else parse_info_block lines' (pairs ++ [{| info_key := key; info_value := value |}])
  end.

(** [line.trim_end_matches('{').trim()] *)
Definition block_name (line : rstr) : rstr := trim (trim_end_matches (N.eqb 123) line).

(** A computation on fuel that may fail. *)
Abbreviation fueled A := (option (result ParseError A)).

Fixpoint parse_type_block (fuel : nat) (lines : list numbered) (tys : list TypeDef)
    : fueled (list TypeDef * list numbered) :=
  match fuel with
  | O => None
  | S fuel =>
      match lines with
      | [] => Some (Ok (tys, []))
      | (line_no, raw) :: lines' =>
          let line := clean_line raw in
          if str_is_empty line then parse_type_block fuel lines' tys
          else if str_eqb line (lit ")") then Some (Ok (tys, lines'))
          else if negb (ends_with (lit "{") line)
          then Some (invalid line_no (lit "expected `TypeName {` inside type block"))
          else match parse_fields_until_brace lines' with
               | Err e => Some (Err e)
               | Ok (fields, rest) =>
                   parse_type_block fuel rest
                     (tys ++ [{| td_name := block_name line; td_fields := fields |}])
               end
      end
  end.

(** ** The service block *)

(** The annotations gathered for the next route, the servers, and what was
    declared so far. *)
Record service_state :=
  { current_handler : option rstr; current_doc : option rstr; current_websocket : bool;
    current_maud : bool; current_middlewares : list rstr; current_permissions : list rstr;
    current_server : option ServerSpec; service_server : option ServerSpec;
    sv_routes : list RestRoute; sv_methods : list RpcMethod }.

Definition set_annotations (st : service_state) (handler doc : option rstr) (ws maud : bool)
    (mws perms : list rstr) : service_state :=
  {| current_handler := handler; current_doc := doc; current_websocket := ws;
     current_maud := maud; current_middlewares := mws; current_permissions := perms;
     current_server := current_server st; service_server := service_server st;
     sv_routes := sv_routes st; sv_methods := sv_methods st |}.

Definition enter_server (st : service_state) (sv : ServerSpec) : service_state :=
  {| current_handler := current_handler st; current_doc := current_doc st;
     current_websocket := current_websocket st; current_maud := current_maud st;
     current_middlewares := current_middlewares st; current_permissions := current_permissions st;
     current_server := Some sv;
     service_server := match service_server st with None => Some sv | some => some end;
     sv_routes := sv_routes st; sv_methods := sv_methods st |}.

(** [rpc_methods.push(method)] with the annotations it takes. *)
Definition push_method (st : service_state) (m : RpcMethod) : service_state :=
  let m := {| rpc_name := rpc_name m; rpc_request := rpc_request m; rpc_response := rpc_response m;
              rpc_middlewares := current_middlewares st; rpc_permissions := current_permissions st |} in
  {| current_handler := current_handler st; current_doc := current_doc st;
     current_websocket := current_websocket st; current_maud := current_maud st;
     current_middlewares := []; current_permissions := [];
     current_server := current_server st; service_server := service_server st;
     sv_routes := sv_routes st; sv_methods := sv_methods st ++ [m] |}.

(** The route with the annotations gathered for it. *)
Definition annotate_route (st : service_state) (r : RestRoute) : RestRoute :=
  {| rt_handler := current_handler st; rt_doc := current_doc st;
     rt_websocket := current_websocket st; rt_maud := current_maud st;
     rt_middlewares := current_middlewares st; rt_permissions := current_permissions st;
     rt_server := current_server st; rt_method := rt_method r; rt_path := rt_path r;
     rt_request := rt_request r; rt_response := rt_response r |}.

Definition push_route (st : service_state) (r : RestRoute) : service_state :=
  {| current_handler := None; current_doc := None; current_websocket := false;
     current_maud := false; current_middlewares := []; current_permissions := [];
     current_server := current_server st; service_server := service_server st;
     sv_routes := sv_routes st ++ [annotate_route st r]; sv_methods := sv_methods st |}.

(** A line of the service block that is neither blank, nor its end, nor an
    [@server] block. *)
Definition service_line (st : service_state) (line_no : N) (line : rstr)
    : result ParseError service_state :=
  let h := current_handler st in let d := current_doc st in
  let ws := current_websocket st in let maud := current_maud st in
  let mws := current_middlewares st in let perms := current_permissions st in
  match parse_annotation_arg line (lit "@doc") with
  | Some doc => Ok (set_annotations st h (Some (trim_annotation_string doc)) ws maud mws perms)
  | None =>
  match parse_annotation_arg line (lit "@handler") with
  | Some handler => Ok (set_annotations st (Some (trim_annotation_string handler)) d ws maud mws perms)
  | None =>
  match parse_annotation_arg line (lit "@middleware") with
  | Some middleware => Ok (set_annotations st h d ws maud (mws ++ parse_name_list middleware) perms)
  | None =>
  match parse_annotation_arg line (lit "@permission") with
  | Some permission => Ok (set_annotations st h d ws maud mws (perms ++ parse_name_list permission))
  | None =>
  if str_eqb line (lit "@websocket") || str_eqb line (lit "@websocket()")
  then Ok (set_annotations st h d true maud mws perms)
  else if str_eqb line (lit "@maud") || str_eqb line (lit "@maud()")
  then Ok (set_annotations st h d ws true mws perms)
  else match strip_prefix (lit "rpc ") line with
  | Some method =>
      if ws then invalid line_no (lit "`@websocket` can only annotate an HTTP GET route")
      else if maud then invalid line_no (lit "`@maud` can only annotate an HTTP route")
      else m ← parse_rpc_method method line_no; Ok (push_method st m)
  | None =>
      route ← parse_rest_route line line_no;
      match route with
      | Some r =>
          if ws && maud
          then invalid line_no (lit "`@maud` and `@websocket` cannot annotate the same route")
          else if ws && negb (bool_decide (rt_method r = Get))
          then invalid line_no (lit "`@websocket` requires an HTTP GET route")
          else Ok (push_route st r)
      | None => invalid line_no (lit "expected `@server (...)`, `@handler name`, `@doc text`, `@middleware name`, `@permission name`, `@websocket`, `@maud`, RPC method or route declaration")
      end
  end end end end end.

Fixpoint parse_service_block (fuel : nat) (lines : list numbered) (st : service_state)
    : fueled (service_state * list numbered) :=
  match fuel with
  | O => None
  | S fuel =>
      match lines with
      | [] => Some (Ok (st, []))
      | (line_no, raw) :: lines' =>
          let line := clean_line raw in
          if str_is_empty line then parse_service_block fuel lines' st
          else if str_eqb line (lit "}") then Some (Ok (st, lines'))
          else if is_block_start line (lit "@server") then
            match parse_server_block lines' with
            | Err e => Some (Err e)
            | Ok (sv, rest) => parse_service_block fuel rest (enter_server st sv)
            end
          else match service_line st line_no line with
               | Err e => Some (Err e)
               | Ok st => parse_service_block fuel lines' st
               end
      end
  end.

(** ** The file *)

Record parse_state :=
  { ps_service : option rstr; ps_server : option ServerSpec; ps_info : list InfoPair;
    ps_types : list TypeDef; ps_routes : list RestRoute; ps_methods : list RpcMethod }.

Definition parse_init : parse_state :=
  {| ps_service := None; ps_server := None; ps_info := []; ps_types := []; ps_routes := [];
     ps_methods := [] |}.

Definition with_server (st : parse_state) (sv : ServerSpec) : parse_state :=
  {| ps_service := ps_service st; ps_server := Some sv; ps_info := ps_info st;
     ps_types := ps_types st; ps_routes := ps_routes st; ps_methods := ps_methods st |}.
Definition with_info (st : parse_state) (pairs : list InfoPair) : parse_state :=
  {| ps_service := ps_service st; ps_server := ps_server st; ps_info := pairs;
     ps_types := ps_types st; ps_routes := ps_routes st; ps_methods := ps_methods st |}.
Definition with_types (st : parse_state) (tys : list TypeDef) : parse_state :=
  {| ps_service := ps_service st; ps_server := ps_server st; ps_info := ps_info st;
     ps_types := tys; ps_routes := ps_routes st; ps_methods := ps_methods st |}.
Definition with_service (st : parse_state) (name : rstr) : parse_state :=
  {| ps_service := Some name; ps_server := ps_server st; ps_info := ps_info st;
     ps_types := ps_types st; ps_routes := ps_routes st; ps_methods := ps_methods st |}.
Definition with_declared (st : parse_state) (routes : list RestRoute) (methods : list RpcMethod)
    : parse_state :=
  {| ps_service := ps_service st; ps_server := ps_server st; ps_info := ps_info st;
     ps_types := ps_types st; ps_routes := routes; ps_methods := methods |}.

Definition service_begin (st : parse_state) : service_state :=
  {| current_handler := None; current_doc := None; current_websocket := false;
     current_maud := false; current_middlewares := []; current_permissions := [];
     current_server := None; service_server := None;
     sv_routes := ps_routes st; sv_methods := ps_methods st |}.

(** After the service block: [if server.is_none() { server = service_server }] *)
Definition service_end (st : parse_state) (name : rstr) (sst : service_state) : parse_state :=
  {| ps_service := Some name;
     ps_server := match ps_server st with None => service_server sst | some => some end;
     ps_info := ps_info st; ps_types := ps_types st; ps_routes := sv_routes sst;
     ps_methods := sv_methods sst |}.

(** A [type Name {] line and its fields. *)
Definition parse_type_decl (st : parse_state) (line_no : N) (line rest : rstr)
    (lines : list numbered) : result ParseError (parse_state * list numbered) :=
  let name := block_name rest in
  if str_is_empty name || negb (ends_with (lit "{") line)
  then invalid line_no (lit "expected `type Name {`")
  else
    '(fields, lines) ← parse_fields_until_brace lines;
    Ok (with_types st (ps_types st ++ [{| td_name := name; td_fields := fields |}]), lines).

(** A route or RPC declaration outside a service block. *)
Definition parse_declaration (st : parse_state) (line_no : N) (line : rstr)
    : result ParseError parse_state :=
  route ← parse_rest_route line line_no;
  match route with
  | Some r => Ok (with_declared st (ps_routes st ++ [r]) (ps_methods st))
  | None =>
      match strip_prefix (lit "rpc ") line with
      | Some method =>
          m ← parse_rpc_method method line_no;
          Ok (with_declared st (ps_routes st) (ps_methods st ++ [m]))
      | None => invalid line_no (lit "unrecognized declaration")
      end
  end.

(** What one iteration of the main loop does with a line that is not empty and
    the lines [rest] after it: the new state and the lines it leaves. The block
    parsers get as much fuel as the loop. *)
Definition parse_step (fuel : nat) (st : parse_state) (line_no : N) (line : rstr)
    (rest : list numbered) : fueled (parse_state * list numbered) :=
  if is_syntax_decl line then Some (Ok (st, rest))
  else if is_block_start line (lit "info") then
    Some ('(pairs, rest) ← parse_info_block rest (ps_info st); Ok (with_info st pairs, rest))
  else if is_block_start line (lit "@server") then
    Some ('(sv, rest) ← parse_server_block rest; Ok (with_server st sv, rest))
  else if is_block_start line (lit "type") then
    (λ r, '(tys, rest) ← r; Ok (with_types st tys, rest)) <$> parse_type_block fuel rest (ps_types st)
  else match strip_prefix (lit "service ") line with
  | Some name =>
      if ends_with (lit "{") line then
        (λ r, '(sst, rest) ← r; Ok (service_end st (block_name name) sst, rest))
          <$> parse_service_block fuel rest (service_begin st)
      else Some (Ok (with_service st (trim name), rest))
  | None =>
  match strip_prefix (lit "type ") line with
  | Some rest' => Some (parse_type_decl st line_no line rest' rest)
  | None => Some (st ← parse_declaration st line_no line; Ok (st, rest))
  end end.

Fixpoint parse_loop (fuel : nat) (lines : list numbered) (st : parse_state) : fueled parse_state :=
  match fuel with
  | O => None
  | S fuel =>
      match lines with
      | [] => Some (Ok st)
      | (line_no, raw) :: rest =>
          let line := clean_line raw in
          if str_is_empty line then parse_loop fuel rest st
          else match parse_step fuel st line_no line rest with
               | None => None
               | Some (Err e) => Some (Err e)
               | Some (Ok (st, rest)) => parse_loop fuel rest st
               end
      end
  end.

(** [iter().enumerate()] *)
Fixpoint number_from (k : N) (lines : list rstr) : list numbered :=
  match lines with [] => [] | l :: lines' => (k, l) :: number_from (k + 1) lines' end.

(** ** Omitted bodies *)

(** What an omitted type becomes. *)
Definition fill_empty (empty_ty ty : rstr) : rstr := if str_is_empty (trim ty) then empty_ty else ty.

Definition fill_route (r : RestRoute) : RestRoute :=
  {| rt_handler := rt_handler r; rt_doc := rt_doc r; rt_websocket := rt_websocket r;
     rt_maud := rt_maud r; rt_middlewares := rt_middlewares r; rt_permissions := rt_permissions r;
     rt_server := rt_server r; rt_method := rt_method r; rt_path := rt_path r;
     rt_request := fill_empty EMPTY_REQUEST_TYPE (rt_request r);
     rt_response := fill_empty EMPTY_RESPONSE_TYPE (rt_response r) |}.

Definition fill_method (m : RpcMethod) : RpcMethod :=
  {| rpc_name := rpc_name m; rpc_request := fill_empty EMPTY_REQUEST_TYPE (rpc_request m);
     rpc_response := fill_empty EMPTY_RESPONSE_TYPE (rpc_response m);
     rpc_middlewares := rpc_middlewares m; rpc_permissions := rpc_permissions m |}.

(** [needs_empty_req], [needs_empty_resp]: some request (response) is omitted or
    names the empty type. *)
Definition uses_type (ty : rstr) (used : list rstr) : bool := str_in used ty.

Definition declares_type (tys : list TypeDef) (name : rstr) : bool :=
  existsb (λ ty, str_eqb (td_name ty) name) tys.

Definition add_empty_type (needed : bool) (name : rstr) (tys : list TypeDef) : list TypeDef :=
  if needed && negb (declares_type tys name)
  then tys ++ [{| td_name := name; td_fields := [] |}]
  else tys.

Definition request_types (routes : list RestRoute) (methods : list RpcMethod) : list rstr :=
  (rt_request <$> routes) ++ (rpc_request <$> methods).
Definition response_types (routes : list RestRoute) (methods : list RpcMethod) : list rstr :=
  (rt_response <$> routes) ++ (rpc_response <$> methods).

Definition normalize_empty_requests (tys : list TypeDef) (routes : list RestRoute)
    (methods : list RpcMethod) : list TypeDef * list RestRoute * list RpcMethod :=
  let routes := fill_route <$> routes in
  let methods := fill_method <$> methods in
  let needs_empty_req := uses_type EMPTY_REQUEST_TYPE (request_types routes methods) in
  let needs_empty_resp := uses_type EMPTY_RESPONSE_TYPE (response_types routes methods) in
  (add_empty_type needs_empty_resp EMPTY_RESPONSE_TYPE
     (add_empty_type needs_empty_req EMPTY_REQUEST_TYPE tys), routes, methods).

Definition finish_spec (st : parse_state) : result ParseError ApiSpec :=
  let '(tys, routes, methods) :=
    normalize_empty_requests (ps_types st) (ps_routes st) (ps_methods st) in
  name ← ok_or (ps_service st) MissingService;
  Ok {| service := name; rpc_package := None; server := ps_server st; info := ps_info st;
        types := tys; rest_routes := routes; rpc_methods := methods |}.

Definition parse_api (source : rstr) : fueled ApiSpec :=
  let lines := number_from 0 (str_lines source) in
  (λ r, st ← r; finish_spec st) <$> parse_loop (S (length lines)) lines parse_init.

(** ** The contract of the repository's own example *)

Definition nl : rstr := [10].
Definition ex_source : rstr :=
  unlines
    [ lit "info ("; lit "    title: " ++ quote ++ lit "users" ++ quote; lit ")";
      lit "type (";
      lit "    LoginReq {";
      lit "        Username string `json:" ++ quote ++ lit "username" ++ quote ++ lit "`";
      lit "    }";
      lit "    LoginResp {"; lit "        token: String // the session"; lit "    }";
      lit ")"; [];
      lit "service user-api {";
      lit "    @server ("; lit "        prefix: /api/v1"; lit "        middleware: auth, trace"; lit "    )";
      lit "    @doc login"; lit "    @handler login";
      lit "    post /user/login (LoginReq) returns (LoginResp)";
      lit "    @middleware audit"; lit "    rpc Ping () returns ()";
      lit "}" ].

(** ** Totality, and where errors are reported *)

(** The error names the number (from 1) of one of the lines. *)
Definition at_line (lines : list numbered) (e : ParseError) : Prop :=
  match e with
  | InvalidLine n _ => ∃ l, l ∈ lines ∧ n = l.1 + 1
  | MissingService => False
  end.

(** A block parser leaves a suffix of its lines or reports one of them. *)
Definition block_ok {A} (lines : list numbered) (r : result ParseError (A * list numbered)) : Prop :=
  match r with Ok (_, rest) => rest `suffix_of` lines | Err e => at_line lines e end.

Lemma at_line_suffix lines rest e : rest `suffix_of` lines → at_line rest e → at_line lines e.
Proof.
  intros [k ->]. destruct e as [n m|]; simpl; [|done]. intros (l & Hl & ->).
  exists l. split; [|done]. apply elem_of_app. by right.
Qed.

Lemma block_ok_suffix {A} lines rest (r : result ParseError (A * list numbered)) :
  rest `suffix_of` lines → block_ok rest r → block_ok lines r.
Proof.
  intros Hs. destruct r as [[a rest']|e]; simpl; [intros; by etrans | by apply at_line_suffix].
Qed.

Lemma block_ok_cons {A} l lines (r : result ParseError (A * list numbered)) :
  block_ok lines r → block_ok (l :: lines) r.
Proof. apply block_ok_suffix. by apply suffix_cons_r. Qed.

Lemma at_line_here no raw lines m : at_line ((no, raw) :: lines) (InvalidLine (no + 1) m).
Proof. exists (no, raw). split; [by left | done]. Qed.

(** A block that ended, or an error about the current line. *)
Ltac block_done := first [by apply suffix_cons_r | apply at_line_here].

(** Line parsers report their own line. *)
Definition own_line {A} (line_no : N) (r : result ParseError A) : Prop :=
  match r with Ok _ => True | Err e => ∃ m, e = InvalidLine (line_no + 1) m end.

Lemma own_line_bind {A B} no (r : result ParseError A) (f : A → result ParseError B) :
  own_line no r → (∀ a, own_line no (f a)) → own_line no (r ≫= f).
Proof. intros Hr Hf. destruct r; [apply Hf | exact Hr]. Qed.

Lemma own_line_at {A} no raw lines (r : result ParseError A) e :
  own_line no r → r = Err e → at_line ((no, raw) :: lines) e.
Proof. intros Hr ->. destruct Hr as [m ->]. apply at_line_here. Qed.

Lemma own_line_signature input no : own_line no (parse_signature input no).
Proof. unfold parse_signature. by repeat case_match. Qed.

Lemma own_line_route line no : own_line no (parse_rest_route line no).
Proof.
  unfold parse_rest_route. destruct (split_first_token line) as [[name rest]|]; [|done].
  destruct (http_method_of name); [|done].
  destruct (split_route_path_and_signature rest) as [path sig].
  destruct (str_is_empty path); [simpl; eauto|].
  apply own_line_bind; [apply own_line_signature|]. by intros [].
Qed.

Lemma own_line_method input no : own_line no (parse_rpc_method input no).
Proof.
  unfold parse_rpc_method. apply own_line_bind.
  - destruct (split_first_token input); simpl; eauto.
  - intros [name sig]. apply own_line_bind; [apply own_line_signature|]. by intros [].
Qed.

Lemma own_line_field line no : own_line no (parse_field line no).
Proof. unfold parse_field, parse_field_base. repeat case_match; simpl; eauto. Qed.

Lemma own_line_service st no line : own_line no (service_line st no line).
Proof.
  unfold service_line. repeat case_match; try (simpl; by eauto);
    (apply own_line_bind; [first [apply own_line_method | apply own_line_route] |]); intros x; try done;
    destruct x; repeat case_match; simpl; eauto.
Qed.

Lemma own_line_declaration st no line : own_line no (parse_declaration st no line).
Proof.
  unfold parse_declaration. apply own_line_bind; [apply own_line_route|]. intros [r|]; [done|].
  case_match; simpl; eauto. apply own_line_bind; [apply own_line_method | done].
Qed.

Lemma parse_server_lines_ok lines sv : block_ok lines (parse_server_lines lines sv).
Proof.
  revert sv. induction lines as [|[no raw] lines IH]; intros sv; simpl; [done|].
  repeat case_match; first [by apply block_ok_cons, IH | block_done].
Qed.

Lemma parse_fields_ok lines : block_ok lines (parse_fields_until_brace lines).
Proof.
  induction lines as [|[no raw] lines IH]; simpl; [done|].
  case_match; [by apply block_ok_cons|]. case_match; [block_done|].
  pose proof (own_line_field (clean_line raw) no) as Hf.
  destruct (parse_field (clean_line raw) no) as [f|e]; simpl.
  - destruct (parse_fields_until_brace lines) as [[fs rest]|e]; simpl in *.
    + by apply suffix_cons_r.
    + by eapply at_line_suffix; [apply suffix_cons_r|].
  - destruct Hf as [m ->]. apply at_line_here.
Qed.

Lemma parse_info_ok lines pairs : block_ok lines (parse_info_block lines pairs).
Proof.
  revert pairs. induction lines as [|[no raw] lines IH]; intros pairs; simpl; [done|].
  repeat case_match; first [by apply block_ok_cons, IH | block_done].
Qed.

(** With more fuel than lines, a loop gives an answer about its lines. *)
Definition answers {A} (lines : list numbered) (r : fueled (A * list numbered)) : Prop :=
  match r with Some r => block_ok lines r | None => False end.

Lemma answers_suffix {A} lines rest (r : fueled (A * list numbered)) :
  rest `suffix_of` lines → answers rest r → answers lines r.
Proof. destruct r; simpl; [apply block_ok_suffix | done]. Qed.

Lemma answers_cons {A} l lines (r : fueled (A * list numbered)) : answers lines r → answers (l :: lines) r.
Proof. apply answers_suffix. by apply suffix_cons_r. Qed.

Lemma parse_type_block_answers fuel lines tys :
  (length lines < fuel)%nat → answers lines (parse_type_block fuel lines tys).
Proof.
  revert lines tys. induction fuel as [|fuel IH]; intros [|[no raw] lines] tys Hf; simpl in *; [lia..|done|].
  case_match; [apply answers_cons, IH; lia|]. case_match; [block_done|].
  case_match; [block_done|].
  pose proof (parse_fields_ok lines) as Hb.
  destruct (parse_fields_until_brace lines) as [[fs rest]|e]; simpl in Hb.
  - eapply answers_suffix; [by apply suffix_cons_r|]. apply IH. apply suffix_length in Hb. lia.
  - simpl. by eapply at_line_suffix; [apply suffix_cons_r|].
Qed.

Lemma parse_service_block_answers fuel lines st :
  (length lines < fuel)%nat → answers lines (parse_service_block fuel lines st).
Proof.
  revert lines st. induction fuel as [|fuel IH]; intros [|[no raw] lines] st Hf; simpl in *; [lia..|done|].
  case_match; [apply answers_cons, IH; lia|]. case_match; [block_done|].
  case_match.
  - pose proof (parse_server_lines_ok lines ServerSpec_default) as Hb. unfold parse_server_block.
    destruct (parse_server_lines lines ServerSpec_default) as [[sv rest]|e]; simpl in Hb.
    + eapply answers_suffix; [by apply suffix_cons_r|]. apply IH. apply suffix_length in Hb. lia.
    + simpl. by eapply at_line_suffix; [apply suffix_cons_r|].
  - pose proof (own_line_service st no (clean_line raw)) as Ho.
    destruct (service_line st no (clean_line raw)) as [st'|e].
    + apply answers_cons, IH. lia.
    + destruct Ho as [m ->]. apply at_line_here.
Qed.

(** Mapping the parsed value of a block does not change what it answers. *)
Lemma block_ok_map {A B} lines (r : result ParseError (A * list numbered)) (f : A → B) :
  block_ok lines r → block_ok lines ('(a, rest) ← r; Ok (f a, rest)).
Proof. by destruct r as [[a rest]|e]. Qed.

Lemma answers_map {A B} lines (r : fueled (A * list numbered)) (f : A → B) :
  answers lines r → answers lines ((λ r, '(a, rest) ← r; Ok (f a, rest)) <$> r).
Proof. destruct r as [r|]; simpl; [apply block_ok_map | done]. Qed.

(** A step leaves a suffix of the lines after its own, or reports one of both. *)
Definition step_ok {A} (l : numbered) (lines : list numbered) (r : fueled (A * list numbered)) : Prop :=
  match r with
  | Some (Ok (_, rest)) => rest `suffix_of` lines
  | Some (Err e) => at_line (l :: lines) e
  | None => False
  end.

Lemma answers_step {A} l lines (r : fueled (A * list numbered)) : answers lines r → step_ok l lines r.
Proof.
  destruct r as [[[a rest]|e]|]; simpl; [done| |done].
  apply at_line_suffix. by apply suffix_cons_r.
Qed.

Lemma own_line_step {A} no raw lines (r : result ParseError A) :
  own_line no r → step_ok (no, raw) lines (Some (a ← r; Ok (a, lines))).
Proof. destruct r; simpl; [reflexivity|]. intros [m ->]. apply at_line_here. Qed.

Lemma parse_step_ok fuel st no raw line rest :
  (length rest < fuel)%nat → step_ok (no, raw) rest (parse_step fuel st no line rest).
Proof.
  intros Hf. unfold parse_step.
  case_match; [simpl; reflexivity|].
  case_match; [apply answers_step; simpl; apply block_ok_map, parse_info_ok|].
  case_match; [apply answers_step; simpl; apply block_ok_map, parse_server_lines_ok|].
  case_match; [by apply answers_step, answers_map, parse_type_block_answers|].
  case_match.
  - case_match; [|simpl; reflexivity]. by apply answers_step, answers_map, parse_service_block_answers.
  - case_match; [|apply own_line_step, own_line_declaration].
    unfold parse_type_decl. case_match; [apply at_line_here|].
    apply answers_step. simpl. apply (block_ok_map _ _ (λ fs, with_types st _)), parse_fields_ok.
Qed.

Lemma parse_loop_answers fuel lines st :
  (length lines < fuel)%nat →
  ∃ r, parse_loop fuel lines st = Some r ∧ ∀ e, r = Err e → at_line lines e.
Proof.
  revert lines st. induction fuel as [|fuel IH]; intros [|[no raw] lines] st Hf; simpl in *;
    [lia | lia | by eexists |].
  assert (∀ rest st, rest `suffix_of` lines →
    ∃ r, parse_loop fuel rest st = Some r ∧ ∀ e, r = Err e → at_line ((no, raw) :: lines) e) as Hrest.
  { intros rest st' Hs. pose proof (suffix_length _ _ Hs).
    destruct (IH rest st') as (r & -> & Hr); [lia|]. exists r. split; [done|].
    intros e ->. eapply at_line_suffix; [|by apply Hr]. by apply suffix_cons_r. }
  case_match; [by apply Hrest|].
  pose proof (parse_step_ok fuel st no raw (clean_line raw) lines ltac:(lia)) as Hs.
  destruct (parse_step fuel st no (clean_line raw) lines) as [[[st' rest]|e]|]; simpl in Hs; [|eauto|done].
  - by apply Hrest.
  - eexists. split; [done|]. by intros e' [= ->].
Qed.

(** ** The loops without fuel

    With more fuel than lines the amount does not matter, so a loop satisfies
    its equations at [S (length lines)]. *)

Lemma parse_type_block_fuel f g lines tys :
  (length lines < f)%nat → (length lines < g)%nat →
  parse_type_block f lines tys = parse_type_block g lines tys.
Proof.
  revert g lines tys. induction f as [|f IH]; intros [|g] [|[no raw] lines] tys Hf Hg; simpl in *;
    [lia..|done|].
  repeat (case_match; [by first [apply IH; lia | done]|]).
  pose proof (parse_fields_ok lines) as Hb. destruct (parse_fields_until_brace lines) as [[fs rest]|e]; [|done].
  apply suffix_length in Hb. apply IH; lia.
Qed.

Lemma parse_service_block_fuel f g lines st :
  (length lines < f)%nat → (length lines < g)%nat →
  parse_service_block f lines st = parse_service_block g lines st.
Proof.
  revert g lines st. induction f as [|f IH]; intros [|g] [|[no raw] lines] st Hf Hg; simpl in *;
    [lia..|done|].
  do 2 (case_match; [by first [apply IH; lia | done]|]).
  case_match.
  - pose proof (parse_server_lines_ok lines ServerSpec_default) as Hb. unfold parse_server_block.
    destruct (parse_server_lines lines ServerSpec_default) as [[sv rest]|e]; [|done].
    apply suffix_length in Hb. apply IH; lia.
  - destruct (service_line st no (clean_line raw)); [apply IH; lia | done].
Qed.

Lemma parse_step_fuel f g st no line rest :
  (length rest < f)%nat → (length rest < g)%nat →
  parse_step f st no line rest = parse_step g st no line rest.
Proof.
  intros Hf Hg. unfold parse_step.
  by rewrite (parse_type_block_fuel f g), (parse_service_block_fuel f g).
Qed.

Lemma parse_loop_fuel f g lines st :
  (length lines < f)%nat → (length lines < g)%nat → parse_loop f lines st = parse_loop g lines st.
Proof.
  revert g lines st. induction f as [|f IH]; intros [|g] [|[no raw] lines] st Hf Hg; simpl in *;
    [lia..|done|].
  case_match; [apply IH; lia|]. rewrite (parse_step_fuel f g) by lia.
  pose proof (parse_step_ok g st no raw (clean_line raw) lines ltac:(lia)) as Hs.
  destruct (parse_step g st no (clean_line raw) lines) as [[[st' rest]|e]|]; [|done..].
  simpl in Hs. apply suffix_length in Hs. apply IH; lia.
Qed.

Definition type_block (lines : list numbered) := parse_type_block (S (length lines)) lines.
Definition service_block (lines : list numbered) := parse_service_block (S (length lines)) lines.
Definition main_loop (lines : list numbered) := parse_loop (S (length lines)) lines.

Lemma type_block_cons no raw lines tys :
  type_block ((no, raw) :: lines) tys =
    let line := clean_line raw in
    if str_is_empty line then type_block lines tys
    else if str_eqb line (lit ")") then Some (Ok (tys, lines))
    else if negb (ends_with (lit "{") line)
    then Some (invalid no (lit "expected `TypeName {` inside type block"))
    else match parse_fields_until_brace lines with
         | Err e => Some (Err e)
         | Ok (fields, rest) =>
             type_block rest (tys ++ [{| td_name := block_name line; td_fields := fields |}])
         end.
Proof.
  unfold type_block at 1. cbn [length]. remember (S (length lines)) as f eqn:Hf.
  cbn [parse_type_block]. cbv zeta. unfold type_block. rewrite <- Hf.
  do 3 (case_match; [done|]).
  pose proof (parse_fields_ok lines) as Hb. destruct (parse_fields_until_brace lines) as [[fs rest]|e]; [|done].
  apply suffix_length in Hb. apply parse_type_block_fuel; lia.
Qed.

Lemma service_block_cons no raw lines st :
  service_block ((no, raw) :: lines) st =
    let line := clean_line raw in
    if str_is_empty line then service_block lines st
    else if str_eqb line (lit "}") then Some (Ok (st, lines))
    else if is_block_start line (lit "@server") then
      match parse_server_block lines with
      | Err e => Some (Err e)
      | Ok (sv, rest) => service_block rest (enter_server st sv)
      end
    else match service_line st no line with
         | Err e => Some (Err e)
         | Ok st => service_block lines st
         end.
Proof.
  unfold service_block at 1. cbn [length]. remember (S (length lines)) as f eqn:Hf.
  cbn [parse_service_block]. cbv zeta. unfold service_block. rewrite <- Hf.
  do 2 (case_match; [done|]). case_match; [|done].
  pose proof (parse_server_lines_ok lines ServerSpec_default) as Hb. unfold parse_server_block.
  destruct (parse_server_lines lines ServerSpec_default) as [[sv rest]|e]; [|done].
  apply suffix_length in Hb. apply parse_service_block_fuel; lia.
Qed.

(** [parse_step] with the fuel its lines need. *)
Definition main_step (st : parse_state) (no : N) (line : rstr) (rest : list numbered) :=
  parse_step (S (length rest)) st no line rest.

Lemma main_loop_cons no raw lines st :
  main_loop ((no, raw) :: lines) st =
    let line := clean_line raw in
    if str_is_empty line then main_loop lines st
    else match main_step st no line lines with
         | None => None
         | Some (Err e) => Some (Err e)
         | Some (Ok (st, rest)) => main_loop rest st
         end.
Proof.
  unfold main_loop at 1. cbn [length]. remember (S (length lines)) as f eqn:Hf.
  cbn [parse_loop]. cbv zeta. unfold main_loop, main_step. rewrite <- Hf. case_match; [done|].
  pose proof (parse_step_ok f st no raw (clean_line raw) lines ltac:(lia)) as Hs.
  destruct (parse_step _ st no (clean_line raw) lines) as [[[st' rest]|e]|]; [|done..].
  simpl in Hs. apply suffix_length in Hs. apply parse_loop_fuel; lia.
Qed.

Lemma number_from_lookup k lines l : l ∈ number_from k lines → k ≤ l.1 ∧ l.1 < k + N.of_nat (length lines).
Proof.
  revert k. induction lines as [|x lines IH]; intros k; simpl; [by intros ?%not_elem_of_nil|].
  intros [->|Hl]%elem_of_cons; simpl; [lia|]. apply IH in Hl. lia.
Qed.

Lemma number_from_length k lines : length (number_from k lines) = length lines.
Proof. revert k. induction lines as [|x lines IH]; intros k; simpl; [done|]. by rewrite IH. Qed.

(** C13: parsing always ends with a specification or an error, and an error that
    is about a line names one of the lines of the source, counted from 1. The
    only error about no line is that the service declaration is missing. *)
Theorem parse_api_total source :
  ∃ r, parse_api source = Some r ∧
    ∀ n message, r = Err (InvalidLine n message) → 1 ≤ n ≤ N.of_nat (length (str_lines source)).
Proof.
  unfold parse_api. set (lines := number_from 0 (str_lines source)).
  destruct (parse_loop_answers (S (length lines)) lines parse_init) as (r & -> & Hr); [lia|].
  eexists. split; [done|]. intros n m Heq.
  destruct r as [st|e]; simpl in Heq.
  - unfold finish_spec in Heq. destruct (normalize_empty_requests _ _ _) as [[??]?].
    by destruct (ps_service st).
  - injection Heq as ->. destruct (Hr _ eq_refl) as ([no raw] & Hl & ->). simpl.
    apply number_from_lookup in Hl. simpl in Hl. lia.
Qed.
