(* ===== verification/ApiFormat.v ===== *)
(** * The contract formatter (format_api_spec of apps/rozectl/src/main.rs)

    [format_api_spec] prints a parsed contract in its canonical layout;
    [run_api_format] writes it back or compares it with the source. The round
    trip through the parser says exactly what of a contract the layout keeps. *)

From S2P Require Import Prelude Text Scan ApiParser.

(** [format!] of a line and its newline. *)
Definition ln (s : rstr) : rstr := s ++ nl.

Definition indent1 : rstr := lit "    ".
Definition indent2 : rstr := lit "        ".

(** ** Printing *)

Definition quoted (s : rstr) : rstr := quote ++ s ++ quote.

Definition render_api_server_block (sv : ServerSpec) (indent : rstr) : rstr :=
  ln (indent ++ lit "@server (")
  ++ match sv_prefix sv with Some p => ln (indent ++ lit "    prefix: " ++ p) | None => [] end
  ++ match sv_group sv with Some g => ln (indent ++ lit "    group: " ++ g) | None => [] end
  ++ match sv_jwt sv with Some j => ln (indent ++ lit "    jwt: " ++ j) | None => [] end
  ++ (if bool_decide (sv_middlewares sv = []) then []
      else ln (indent ++ lit "    middleware: " ++ join (lit ", ") (sv_middlewares sv)))
  ++ ln (indent ++ lit ")").

Definition format_api_http_method (m : HttpMethod) : rstr :=
  match m with
  | Get => lit "get" | Head => lit "head" | Post => lit "post"
  | Put => lit "put" | Patch => lit "patch" | Delete => lit "delete"
  end.

(** [wire_name.or(json_name).unwrap_or(name)] *)
Definition field_wire_name (f : Field) : rstr :=
  match fd_wire_name f with
  | Some w => w
  | None => default (fd_name f) (fd_json_name f)
  end.

Definition push_api_field_tag (tags : list rstr) (name : rstr) (f : Field) : list rstr :=
  tags ++ [name ++ lit ":" ++ quoted (field_wire_name f)].

Definition format_api_field_tags (f : Field) : rstr :=
  let tags :=
    match fd_source f with
    | Auto => []
    | Json => push_api_field_tag [] (lit "json") f
    | Query => push_api_field_tag [] (lit "query") f
    | Form => push_api_field_tag [] (lit "form") f
    | PathSource => push_api_field_tag [] (lit "path") f
    | Header => push_api_field_tag [] (lit "header") f
    end in
  let tags := match fd_validate f with
              | Some v => tags ++ [lit "validate:" ++ quoted v]
              | None => tags
              end in
  match tags with [] => [] | _ => lit " `" ++ join (lit " ") tags ++ lit "`" end.

Definition format_field (f : Field) : rstr :=
  if fd_embedded f
  then ln (indent2 ++ fd_ty f ++ format_api_field_tags f)
  else ln (indent2 ++ fd_name f ++ lit " " ++ fd_ty f ++ format_api_field_tags f).

Definition format_type (ty : TypeDef) : rstr :=
  ln (indent1 ++ td_name ty ++ lit " {") ++ (td_fields ty ≫= format_field) ++ ln (indent1 ++ lit "}").

Definition format_signature (request response : rstr) : rstr :=
  lit "(" ++ request ++ lit ") returns (" ++ response ++ lit ")".

Definition format_route (r : RestRoute) : rstr :=
  match rt_server r with Some sv => render_api_server_block sv indent1 | None => [] end
  ++ match rt_doc r with Some doc => ln (indent1 ++ lit "@doc " ++ quoted doc) | None => [] end
  ++ (rt_middlewares r ≫= λ m, ln (indent1 ++ lit "@middleware " ++ m))
  ++ (rt_permissions r ≫= λ p, ln (indent1 ++ lit "@permission " ++ p))
  ++ (if rt_websocket r then ln (indent1 ++ lit "@websocket") else [])
  ++ (if rt_maud r then ln (indent1 ++ lit "@maud") else [])
  ++ match rt_handler r with Some h => ln (indent1 ++ lit "@handler " ++ h) | None => [] end
  ++ ln (indent1 ++ format_api_http_method (rt_method r) ++ lit " " ++ rt_path r ++ lit " "
         ++ format_signature (rt_request r) (rt_response r)).

Definition format_method (m : RpcMethod) : rstr :=
  (rpc_permissions m ≫= λ p, ln (indent1 ++ lit "@permission " ++ p))
  ++ ln (indent1 ++ lit "rpc " ++ rpc_name m ++ lit " " ++ format_signature (rpc_request m) (rpc_response m)).

(** [rest_routes.iter().all(|route| route.server.is_none())] *)
Definition no_route_server (routes : list RestRoute) : bool :=
  forallb (λ r, bool_decide (rt_server r = None)) routes.

Definition format_api_spec (spec : ApiSpec) : rstr :=
  ln (lit "syntax = " ++ quoted (lit "v1")) ++ nl
  ++ (if bool_decide (length (info spec) = 0%nat) then []
      else ln (lit "info (")
           ++ (info spec ≫= λ pair, ln (indent1 ++ info_key pair ++ lit ": " ++ quoted (info_value pair)))
           ++ ln (lit ")") ++ nl)
  ++ (if no_route_server (rest_routes spec)
      then match server spec with Some sv => render_api_server_block sv [] ++ nl | None => [] end
      else [])
  ++ ln (lit "service " ++ service spec ++ lit " {")
  ++ (rest_routes spec ≫= format_route)
  ++ (rpc_methods spec ≫= format_method)
  ++ ln (lit "}")
  ++ (if bool_decide (length (types spec) = 0%nat) then []
      else nl ++ ln (lit "type (") ++ (types spec ≫= format_type) ++ ln (lit ")")).

(** [source.replace("\r\n", "\n")] *)
Fixpoint normalize_line_endings (source : rstr) : rstr :=
  match source with
  | [] => []
  | c :: s =>
      if c =? 13 then
        match s with
        | d :: s' => if d =? 10 then d :: normalize_line_endings s' else c :: normalize_line_endings s
        | [] => [c]
        end
      else c :: normalize_line_endings s
  end.

(** [run_api_format --check] on a source that parses. *)
Definition format_check (source : rstr) (spec : ApiSpec) : bool :=
  str_eqb (normalize_line_endings source) (format_api_spec spec).

(** ** What the layout keeps *)

Definition canonical_field (f : Field) : Field :=
  {| fd_name := fd_name f; fd_ty := fd_ty f; fd_embedded := fd_embedded f;
     fd_json_name := match fd_source f with Auto | Header => None | _ => Some (field_wire_name f) end;
     fd_source := fd_source f;
     fd_wire_name := match fd_source f with Auto => None | _ => Some (field_wire_name f) end;
     fd_validate := fd_validate f |}.

Definition canonical_type (ty : TypeDef) : TypeDef :=
  {| td_name := td_name ty; td_fields := canonical_field <$> td_fields ty |}.

(** The middlewares of an RPC method are not printed. *)
Definition canonical_method (m : RpcMethod) : RpcMethod :=
  {| rpc_name := rpc_name m; rpc_request := rpc_request m; rpc_response := rpc_response m;
     rpc_middlewares := []; rpc_permissions := rpc_permissions m |}.

Definition with_route_server (r : RestRoute) (sv : option ServerSpec) : RestRoute :=
  {| rt_handler := rt_handler r; rt_doc := rt_doc r; rt_websocket := rt_websocket r;
     rt_maud := rt_maud r; rt_middlewares := rt_middlewares r; rt_permissions := rt_permissions r;
     rt_server := sv; rt_method := rt_method r; rt_path := rt_path r; rt_request := rt_request r;
     rt_response := rt_response r |}.

(** A route without a server of its own is read back under the one printed last. *)
Fixpoint inherit_servers (cur : option ServerSpec) (routes : list RestRoute) : list RestRoute :=
  match routes with
  | [] => []
  | r :: routes' =>
      let cur := match rt_server r with Some sv => Some sv | None => cur end in
      with_route_server r cur :: inherit_servers cur routes'
  end.

(** The first server of a route. *)
Definition first_server (routes : list RestRoute) : option ServerSpec := head (omap rt_server routes).

(** The server of the file is printed only if no route has one; otherwise the
    first server of a route is read back in its place. *)
Definition canonical_spec (spec : ApiSpec) : ApiSpec :=
  {| service := service spec; rpc_package := None;
     server := if no_route_server (rest_routes spec) then server spec
               else first_server (rest_routes spec);
     info := info spec; types := canonical_type <$> types spec;
     rest_routes := inherit_servers None (rest_routes spec);
     rpc_methods := canonical_method <$> rpc_methods spec |}.

(** Every route after one with a server has a server of its own, as in a
    contract whose routes stand in one service block. *)
Fixpoint settled_after (seen : bool) (routes : list RestRoute) : bool :=
  match routes with
  | [] => true
  | r :: routes' =>
      match rt_server r with
      | Some _ => settled_after true routes'
      | None => negb seen && settled_after seen routes'
      end
  end.
Definition settled (spec : ApiSpec) : bool := settled_after false (rest_routes spec).

(** ** Contracts the layout can express *)

(** No [//] in [s], given whether a slash stands before it. *)
Fixpoint no_comment_from (slash : bool) (s : rstr) : bool :=
  match s with
  | [] => true
  | c :: s' => negb (slash && (c =? 47)) && no_comment_from (c =? 47) s'
  end.

(** On one line, without a comment. *)
Definition on_line (s : rstr) : bool :=
  forallb (λ c, negb (c =? 10)) s && no_comment_from false s.


(** Not empty, neither starting nor ending with white space. *)
Definition trimmed (s : rstr) : bool := nonempty s && str_eqb (trim s) s.

Definition unspaced (s : rstr) : bool := nonempty s && forallb (λ c, negb (is_whitespace c)) s.

(** A name: no white space, no quote, comma, colon, equals sign or opening bracket. *)
Definition word (s : rstr) : bool :=
  unspaced s && on_line s && lacks 34 s && lacks 40 s && lacks 61 s && lacks 44 s
  && lacks 58 s && lacks 123 s.

Definition value_text (s : rstr) : bool := trimmed s && on_line s && lacks 34 s.

Definition opt_all {A} (p : A → bool) (o : option A) : bool :=
  match o with Some a => p a | None => true end.

Definition server_ok (sv : ServerSpec) : bool :=
  opt_all value_text (sv_prefix sv) && opt_all value_text (sv_group sv)
  && opt_all value_text (sv_jwt sv) && forallb word (sv_middlewares sv).

Definition info_ok (p : InfoPair) : bool :=
  trimmed (info_key p) && on_line (info_key p) && lacks 58 (info_key p)
  && nonempty (info_value p) && on_line (info_value p) && lacks 34 (info_value p).

(** The text of a tag: not [-], without a quote, not ending with a colon. *)
Definition tag_text (s : rstr) : bool :=
  nonempty s && negb (str_eqb s (lit "-")) && on_line s && lacks 34 s && negb (ends_with (lit ":") s).

Definition field_ok (f : Field) : bool :=
  (if fd_embedded f
   then str_eqb (fd_name f) (embedded_field_name (fd_ty f)) && negb (ends_with (lit ":") (fd_ty f))
        && negb (starts_with (lit "*") (fd_ty f)) && negb (str_eqb (fd_ty f) (lit "}"))
   else unspaced (fd_name f) && on_line (fd_name f) && lacks 34 (fd_name f)
        && negb (ends_with (lit ":") (fd_name f)) && negb (starts_with (lit "`") (fd_ty f)))
  && unspaced (fd_ty f) && on_line (fd_ty f) && lacks 34 (fd_ty f)
  && (bool_decide (fd_source f = Auto) || (tag_text (field_wire_name f) && lacks 44 (field_wire_name f)))
  && opt_all tag_text (fd_validate f).

Definition type_ok (ty : TypeDef) : bool :=
  trimmed (td_name ty) && on_line (td_name ty) && negb (ends_with (lit "{") (td_name ty))
  && forallb field_ok (td_fields ty).

Definition signature_ok (request response : rstr) : bool :=
  trimmed request && on_line request && negb (contains (lit "returns") request)
  && trimmed response && on_line response.

Definition route_ok (r : RestRoute) : bool :=
  opt_all server_ok (rt_server r)
  && opt_all (λ doc, str_eqb (trim doc) doc && on_line doc) (rt_doc r)
  && forallb word (rt_middlewares r) && forallb word (rt_permissions r)
  && negb (rt_websocket r && rt_maud r)
  && (negb (rt_websocket r) || bool_decide (rt_method r = Get))
  && opt_all word (rt_handler r)
  && unspaced (rt_path r) && on_line (rt_path r) && lacks 40 (rt_path r)
  && signature_ok (rt_request r) (rt_response r).

Definition method_ok (m : RpcMethod) : bool :=
  forallb word (rpc_permissions m) && word (rpc_name m) && signature_ok (rpc_request m) (rpc_response m).

(** The empty types are declared where they are used. *)
Definition empty_types_ok (spec : ApiSpec) : bool :=
  (negb (uses_type EMPTY_REQUEST_TYPE (request_types (rest_routes spec) (rpc_methods spec)))
   || declares_type (types spec) EMPTY_REQUEST_TYPE)
  && (negb (uses_type EMPTY_RESPONSE_TYPE (response_types (rest_routes spec) (rpc_methods spec)))
      || declares_type (types spec) EMPTY_RESPONSE_TYPE).

Definition formattable (spec : ApiSpec) : bool :=
  word (service spec) && forallb info_ok (info spec) && opt_all server_ok (server spec)
  && forallb type_ok (types spec) && forallb route_ok (rest_routes spec)
  && forallb method_ok (rpc_methods spec) && empty_types_ok spec.

(** ** Lemmas on the text of a line *)

(** The text of a printed line: solid at both ends, on one line. *)
Definition body_ok (s : rstr) : bool := starts_solid s && ends_solid s && on_line s.

Definition spaces (s : rstr) : bool := forallb (N.eqb 32) s.

Lemma spaces_cons c s : spaces (c :: s) = true → c = 32 ∧ spaces s = true.
Proof. unfold spaces. cbn [forallb]. by intros [->%N.eqb_eq Hs]%andb_true_iff. Qed.

Lemma spaces_blank s : spaces s = true → blank s.
Proof.
  induction s as [|c s IH]; [constructor|]. intros [-> Hs]%spaces_cons.
  constructor; [done | by apply IH].
Qed.

Lemma no_comment_app p a c b :
  c ≠ 47 → no_comment_from p (a ++ c :: b) = no_comment_from p a && no_comment_from false b.
Proof.
  intros Hc%N.eqb_neq. revert p. induction a as [|x a IH]; intros p; simpl.
  - by rewrite Hc, andb_false_r.
  - by rewrite IH, andb_assoc.
Qed.

Lemma no_comment_split s p : no_comment_from p s = true → split_once (lit "//") s = None.
Proof.
  revert p. induction s as [|c s IH]; intros p; [done|]. cbn [no_comment_from].
  intros [_ Hs]%andb_true_iff.
  change (split_once (lit "//") (c :: s)) with
    (match (if 47 =? c then strip_prefix [47] s else None) with
     | Some rest => Some ([], rest)
     | None => p ← split_once (lit "//") s; Some (c :: p.1, p.2)
     end).
  rewrite (IH _ Hs). destruct (N.eqb_spec 47 c) as [<-|]; [|done].
  destruct s as [|d s]; [done|]. cbn [no_comment_from strip_prefix] in Hs |- *.
  change (47 =? 47) with true in Hs. cbn [andb] in Hs.
  apply andb_true_iff in Hs as [Hd _]. apply negb_true_iff in Hd. by rewrite N.eqb_sym, Hd.
Qed.

Lemma no_comment_spaces ind s : spaces ind = true → no_comment_from false (ind ++ s) = no_comment_from false s.
Proof.
  induction ind as [|c ind IH]; [done|]. intros [-> Hi]%spaces_cons. simpl. by rewrite IH.
Qed.

(** Reading a printed line gives its text back. *)
Lemma clean_line_body ind s : spaces ind = true → body_ok s = true → clean_line (ind ++ s) = s.
Proof.
  intros Hi Hb. unfold body_ok, on_line in Hb. rewrite !andb_true_iff in Hb.
  destruct Hb as [[Hs He] [_ Hc]]. unfold clean_line, strip_comment.
  rewrite (no_comment_split _ false) by by rewrite no_comment_spaces.
  apply trim_indent; [by apply spaces_blank | done | done].
Qed.

Lemma body_line_ok ind s : spaces ind = true → body_ok s = true → line_ok (ind ++ s) = true.
Proof.
  intros Hi Hb. unfold body_ok, on_line in Hb. rewrite !andb_true_iff in Hb.
  destruct Hb as [[_ He] [Hl _]]. unfold line_ok. rewrite lacks_app. apply andb_true_iff. split.
  - unfold lacks. apply andb_true_iff. split; [|done].
    clear -Hi. induction ind as [|c ind IH]; [done|]. apply spaces_cons in Hi as [-> Hi].
    simpl. by rewrite IH.
  - apply negb_true_iff, bool_decide_eq_false. rewrite last_app. unfold ends_solid in He.
    destruct (last s) as [c|]; [|done]. intros [= ->]. done.
Qed.

Lemma on_line_app a c b : c ≠ 47 → c ≠ 10 → on_line (a ++ c :: b) = on_line a && on_line b.
Proof.
  intros H1 H2%N.eqb_neq. unfold on_line. rewrite no_comment_app, forallb_app by done. simpl.
  rewrite H2. simpl. destruct (forallb _ a), (forallb _ b), (no_comment_from false a); done.
Qed.

Lemma on_line_cons c b : c ≠ 47 → c ≠ 10 → on_line (c :: b) = on_line b.
Proof. apply (on_line_app []). Qed.

Lemma unspaced_solid s : unspaced s = true → starts_solid s = true ∧ ends_solid s = true.
Proof.
  unfold unspaced. intros [Hn Hf]%andb_true_iff. split.
  - destruct s as [|c s]; [done|]. simpl in Hf. by apply andb_true_iff in Hf as [? _].
  - destruct s as [|c s _] using rev_ind; [done|]. unfold ends_solid. rewrite last_snoc.
    rewrite forallb_app in Hf. apply andb_true_iff in Hf as [_ Hf]. simpl in Hf.
    by apply andb_true_iff in Hf as [? _].
Qed.

Lemma trimmed_solid s : trimmed s = true → starts_solid s = true ∧ ends_solid s = true ∧ trim s = s.
Proof.
  unfold trimmed. intros [Hn Ht%str_eqb_eq]%andb_true_iff.
  destruct (trim_fixed_solid s Hn Ht). done.
Qed.

Lemma unspaced_trim s : unspaced s = true → trim s = s.
Proof. intros [? ?]%unspaced_solid. by apply trim_solid. Qed.

Lemma solid_nonempty s : starts_solid s = true → str_is_empty s = false.
Proof. by destruct s. Qed.

(** What a word is good for. *)
Record word_facts (s : rstr) : Prop :=
  { w_unspaced : unspaced s = true; w_line : on_line s = true; w_quote : lacks 34 s = true;
    w_paren : lacks 40 s = true; w_equals : lacks 61 s = true; w_comma : lacks 44 s = true;
    w_colon : lacks 58 s = true; w_brace : lacks 123 s = true;
    w_start : starts_solid s = true; w_end : ends_solid s = true; w_trim : trim s = s }.

Lemma word_spec s : word s = true → word_facts s.
Proof.
  unfold word. rewrite !andb_true_iff. intros [[[[[[[Hu ?] ?] ?] ?] ?] ?] ?].
  destruct (unspaced_solid s Hu). by constructor; [..|apply unspaced_trim].
Qed.

(** Evaluate the literals of a goal. *)
Ltac lits :=
  repeat match goal with
  | |- context [lit ?s] => let v := eval vm_compute in (lit s) in change (lit s) with v
  end;
  change quote with [34]; change nl with [10].

(** ** Reading back the pieces of a line *)

Lemma strip_prefix_lacks c pre s : lacks c s = true → strip_prefix (c :: pre) s = None.
Proof.
  destruct s as [|x s]; [done|]. unfold lacks. cbn [forallb strip_prefix].
  intros [Hx _]%andb_true_iff. apply negb_true_iff in Hx. by rewrite N.eqb_sym, Hx.
Qed.

Lemma annotation_arg_spec name arg :
  starts_solid arg = true → ends_solid arg = true → unwrap_affixes (lit "(") (lit ")") arg = None →
  parse_annotation_arg (name ++ 32 :: arg) name = Some arg.
Proof.
  intros Hs He Hu. unfold parse_annotation_arg. rewrite strip_prefix_app. cbn [mbind option_bind].
  change (32 :: arg) with ([32] ++ arg). rewrite trim_start_pad; [|by repeat constructor|done].
  by rewrite (solid_nonempty arg Hs), Hu, (trim_solid arg).
Qed.

Lemma annotation_word name arg :
  word arg = true → parse_annotation_arg (name ++ 32 :: arg) name = Some arg.
Proof.
  intros W%word_spec. apply annotation_arg_spec; [apply W..|].
  unfold unwrap_affixes. lits. by rewrite (strip_prefix_lacks 40 [] arg) by apply W.
Qed.

Lemma annotation_string_word s : word s = true → trim_annotation_string s = s.
Proof.
  intros W%word_spec. unfold trim_annotation_string, unwrap_affixes. rewrite (w_trim _ W).
  change quote with [34]. rewrite (strip_prefix_lacks 34 [] s) by apply W. apply W.
Qed.

Lemma ends_solid_quoted d : ends_solid (quoted d) = true.
Proof. unfold quoted. by apply ends_solid_app, ends_solid_app. Qed.

Lemma trim_quoted d : trim (quoted d) = quoted d.
Proof. apply trim_solid; [done | apply ends_solid_quoted]. Qed.

Lemma annotation_string_quoted d : trim d = d → trim_annotation_string (quoted d) = d.
Proof.
  intros Hd. unfold trim_annotation_string. rewrite trim_quoted. unfold unwrap_affixes, quoted.
  rewrite strip_prefix_app. cbn [mbind option_bind]. by rewrite strip_suffix_app.
Qed.

Lemma lacks_trim_quotes s : lacks 34 s = true → trim_matches (N.eqb 34) s = s.
Proof.
  intros Hl. apply lacks_not_in in Hl. apply trim_matches_id.
  - intros x l' ->. apply N.eqb_neq. intros <-. apply Hl. by left.
  - intros x l' ->. apply N.eqb_neq. intros <-. apply Hl, elem_of_app. right. by left.
Qed.

Lemma trim_after_colon v : starts_solid v = true → ends_solid v = true → trim (32 :: v) = v.
Proof. intros. apply (trim_indent [32]); [by repeat constructor|done..]. Qed.

Lemma split_key_value_spec key v :
  lacks 58 key = true → trim key = key → starts_solid v = true → ends_solid v = true →
  split_key_value (key ++ lit ": " ++ v) = (key, trim_matches (N.eqb 34) v).
Proof.
  intros Hk Ht Hs He. unfold split_key_value. lits.
  change (key ++ [58; 32] ++ v) with (key ++ 58 :: 32 :: v). rewrite split_once_char by done.
  by rewrite Ht, trim_after_colon.
Qed.

Lemma word_no_separator s :
  word s = true → forallb (λ c, negb ((c =? 44) || is_whitespace c)) s = true.
Proof.
  intros W%word_spec. pose proof (w_comma _ W) as Hc. pose proof (w_unspaced _ W) as Hu.
  unfold unspaced in Hu. apply andb_true_iff in Hu as [_ Hu]. clear W. unfold lacks in Hc.
  rewrite forallb_forall in Hu, Hc |- *. intros x Hx. specialize (Hu x Hx). specialize (Hc x Hx).
  cbn beta in *. by rewrite negb_orb, Hc, Hu.
Qed.

Lemma name_list_word s : word s = true → parse_name_list s = [s].
Proof.
  intros Hw. pose proof (word_spec s Hw) as W. unfold parse_name_list.
  rewrite split_on_piece by by apply word_no_separator.
  cbn [fmap list_fmap]. rewrite (w_trim _ W), annotation_string_word by done.
  unfold str_filter. rewrite filter_cons_True; [done|].
  pose proof (w_start _ W). by destruct s.
Qed.

(** The separator of a printed list only adds empty pieces. *)
Lemma name_list_cons s l :
  word s = true → parse_name_list (s ++ 44 :: 32 :: l) = s :: parse_name_list l.
Proof.
  intros Hw. pose proof (word_no_separator s Hw) as Hp.
  pose proof (name_list_word s Hw) as Hs. unfold parse_name_list, str_filter in *.
  rewrite split_on_piece in Hs by done. rewrite split_on_app by done.
  change (split_on ?p (32 :: l)) with ([] :: split_on p l).
  cbn [fmap list_fmap] in *. rewrite filter_cons in Hs |- *.
  case_decide; [|done]. injection Hs as Hs. rewrite Hs. f_equal.
Qed.

Lemma name_list_join l : forallb word l = true → l ≠ [] → parse_name_list (join (lit ", ") l) = l.
Proof.
  induction l as [|s l IH]; [done|]. cbn [forallb]. intros [Hs Hl]%andb_true_iff _.
  destruct l as [|s' l]; [by apply name_list_word|].
  change (join (lit ", ") (s :: s' :: l)) with (s ++ 44 :: 32 :: join (lit ", ") (s' :: l)).
  by rewrite name_list_cons, IH.
Qed.

(** ** Tokens and signatures *)

Lemma split_first_token_spec a b :
  unspaced a = true → starts_solid b = true → ends_solid b = true →
  split_first_token (a ++ 32 :: b) = Some (a, b).
Proof.
  intros Ha Hs He. destruct (unspaced_solid a Ha) as [Has _].
  unfold unspaced in Ha. apply andb_true_iff in Ha as [_ Ha].
  unfold split_first_token. rewrite trim_solid; [|by apply starts_solid_app|].
  2:{ change (32 :: b) with ([32] ++ b). by apply ends_solid_app, ends_solid_app. }
  rewrite (solid_nonempty (a ++ 32 :: b)) by by apply starts_solid_app.
  rewrite drop_until_app, take_until_app by done.
  change (drop_until is_whitespace (32 :: b)) with (32 :: b).
  change (take_until is_whitespace (32 :: b)) with (@nil N).
  rewrite app_nil_r. do 2 f_equal.
  change (32 :: b) with ([32] ++ b). apply trim_start_pad; [by repeat constructor|done].
Qed.

Lemma split_path_spec path sig :
  unspaced path = true → lacks 40 path = true → starts_solid sig = true → ends_solid sig = true →
  split_route_path_and_signature (path ++ 32 :: sig) = (path, sig).
Proof.
  intros Hp Hl Hs He. destruct (unspaced_solid path Hp) as [Hps Hpe].
  pose proof (unspaced_trim path Hp) as Ht.
  unfold unspaced in Hp. apply andb_true_iff in Hp as [_ Hp].
  assert (forallb (λ c, negb (is_whitespace c || (c =? 40))) path = true) as Hf.
  { clear -Hp Hl. unfold lacks in Hl. rewrite forallb_forall in Hp, Hl |- *. intros x Hx.
    specialize (Hp x Hx). specialize (Hl x Hx). cbn beta in *. by rewrite negb_orb, Hp, Hl. }
  unfold split_route_path_and_signature. rewrite trim_solid; [|by apply starts_solid_app|].
  2:{ change (32 :: sig) with ([32] ++ sig). by apply ends_solid_app, ends_solid_app. }
  rewrite (solid_nonempty (path ++ 32 :: sig)) by by apply starts_solid_app.
  rewrite drop_until_app, take_until_app by done.
  change (drop_until ?p (32 :: sig)) with (32 :: sig).
  change (take_until ?p (32 :: sig)) with (@nil N).
  rewrite app_nil_r, Ht. f_equal.
  change (32 :: sig) with ([32] ++ sig). apply trim_start_pad; [by repeat constructor|done].
Qed.

Lemma trim_parens_spec a s b :
  spaces a = true → spaces b = true → trim s = s →
  trim_wrapping_parens (a ++ (lit "(" ++ s ++ lit ")") ++ b) = s.
Proof.
  intros Ha Hb Hs. unfold trim_wrapping_parens.
  rewrite trim_pad; [|by apply spaces_blank..|done|by apply ends_solid_app, ends_solid_app].
  unfold unwrap_affixes. rewrite strip_prefix_app. cbn [mbind option_bind].
  by rewrite strip_suffix_app.
Qed.

Lemma split_once_in_parens s :
  split_once (lit "returns") s = None → split_once (lit "returns") (lit "(" ++ s ++ lit ")") = None.
Proof.
  intros Hs. change (lit "(" ++ s ++ lit ")") with ([] ++ 40 :: (s ++ 41 :: [])).
  rewrite split_once_after by done. by rewrite split_once_after.
Qed.

Lemma parse_signature_spec request response no :
  signature_ok request response = true →
  parse_signature (format_signature request response) no = Ok (request, response).
Proof.
  unfold signature_ok. rewrite !andb_true_iff. intros [[[[Hq _] Hr] Hp] _].
  destruct (trimmed_solid _ Hq) as (_ & _ & Hqt). destruct (trimmed_solid _ Hp) as (_ & _ & Hpt).
  unfold contains in Hr. destruct (split_once (lit "returns") request) eqn:E; [done|].
  assert (split_once (lit "returns") (format_signature request response) =
    Some ((lit "(" ++ request ++ lit ")") ++ [32], 32 :: lit "(" ++ response ++ lit ")")) as Hsplit.
  { assert (format_signature request response =
      (lit "(" ++ request ++ lit ")") ++ 32 :: lit "returns" ++ 32 :: lit "(" ++ response ++ lit ")") as ->.
    { unfold format_signature. by rewrite <- !app_assoc. }
    rewrite split_once_after; [|done|done|by apply split_once_in_parens].
    by rewrite split_once_here. }
  unfold parse_signature. rewrite trim_solid; [|done|].
  2:{ unfold format_signature. repeat apply ends_solid_app. done. }
  rewrite Hsplit. do 2 f_equal.
  - apply (trim_parens_spec [] request [32]); done.
  - pose proof (trim_parens_spec [32] response [] eq_refl eq_refl Hpt) as H.
    by rewrite app_nil_r in H.
Qed.

(** ** Tags *)

Lemma tag_text_spec w :
  tag_text w = true →
  str_is_empty w = false ∧ str_eqb w (lit "-") = false ∧ on_line w = true ∧ lacks 34 w = true ∧
  strip_suffix (lit ":") w = None.
Proof.
  unfold tag_text, nonempty. rewrite !andb_true_iff, !negb_true_iff. intros [[[[? ?] ?] ?] Hc].
  unfold ends_with in Hc. by destruct (strip_suffix (lit ":") w).
Qed.

(** A tag's needle does not end a text without a colon at its end. *)
Lemma needle_no_colon t w : strip_suffix (lit ":") w = None → strip_suffix (t ++ lit ":") w = None.
Proof.
  intros Hc. destruct (strip_suffix (t ++ lit ":") w) as [r|] eqn:E; [|done].
  apply strip_suffix_Some in E. rewrite app_assoc in E. rewrite E, strip_suffix_app in Hc. done.
Qed.

Lemma tag_needle_eq t : tag_needle t = (t ++ lit ":") ++ [34].
Proof. unfold tag_needle. by rewrite <- app_assoc. Qed.

Lemma tag_full_none t s : lacks 34 s = true → parse_tag_value_full s t = None.
Proof.
  intros Hs. unfold parse_tag_value_full. by rewrite tag_needle_eq, split_needle_none.
Qed.

Lemma seg_here a t w R :
  lacks 34 a = true → lacks 34 t = true → tag_text w = true →
  parse_tag_value_full (a ++ t ++ lit ":" ++ quoted w ++ R) t = Some w.
Proof.
  intros Ha Ht (He & Hd & _ & Hq & _)%tag_text_spec. unfold parse_tag_value_full.
  rewrite tag_needle_eq.
  assert (a ++ t ++ lit ":" ++ quoted w ++ R = a ++ (t ++ lit ":") ++ 34 :: (w ++ 34 :: R)) as ->.
  { unfold quoted. change quote with [34]. by rewrite <- !app_assoc. }
  rewrite split_needle_found; [|by rewrite lacks_app, Ht|done].
  cbn [mbind option_bind fst snd]. change quote with [34].
  rewrite split_once_char by done. cbn [mbind option_bind]. by rewrite He, Hd.
Qed.

Lemma seg_other a c n t w R :
  lacks 34 a = true → lacks 34 (c :: n) = true → lacks 34 t = true → tag_text w = true →
  clash (t ++ lit ":") (c :: n ++ lit ":") = true →
  parse_tag_value_full (a ++ c :: n ++ lit ":" ++ quoted w ++ R) t = parse_tag_value_full R t.
Proof.
  intros Ha Hn Ht (_ & _ & _ & Hq & Hw)%tag_text_spec Hc. unfold parse_tag_value_full.
  rewrite tag_needle_eq.
  assert (a ++ c :: n ++ lit ":" ++ quoted w ++ R =
          (a ++ (c :: n ++ lit ":")) ++ 34 :: (w ++ 34 :: R)) as ->.
  { unfold quoted. change quote with [34]. cbn [app]. rewrite <- !app_assoc. cbn [app]. by rewrite <- !app_assoc. }
  assert (lacks 34 (t ++ lit ":") = true) as Ht' by by rewrite lacks_app, Ht.
  rewrite split_needle_skip; [|done| |by apply clash_suffix].
  2:{ rewrite lacks_app, Ha. change (c :: n ++ lit ":") with ((c :: n) ++ lit ":"). by rewrite lacks_app, Hn. }
  rewrite split_needle_skip by (done || by apply needle_no_colon).
  by destruct (split_once _ R) as [[]|].
Qed.

Lemma tag_value_none line t : parse_tag_value_full line t = None → parse_tag_value line t = None.
Proof. unfold parse_tag_value. by intros ->. Qed.

Lemma take_until_lacks c w : lacks c w = true → take_until (N.eqb c) w = w.
Proof.
  intros Hw. rewrite <- (app_nil_r w) at 1. rewrite take_until_app; [by rewrite app_nil_r|].
  unfold lacks in Hw. rewrite forallb_forall in Hw |- *. intros x Hx. rewrite N.eqb_sym. by apply Hw.
Qed.

Lemma tag_value_some line t w :
  parse_tag_value_full line t = Some w → tag_text w = true → lacks 44 w = true →
  parse_tag_value line t = Some w.
Proof.
  unfold parse_tag_value. intros -> (He & Hd & _)%tag_text_spec Hl. cbn [mbind option_bind].
  by rewrite take_until_lacks, He, Hd.
Qed.

(** The tag a field's source is printed under. *)
Definition source_tag (s : FieldSource) : option rstr :=
  match s with
  | Auto => None | Json => Some (lit "json") | Query => Some (lit "query") | Form => Some (lit "form")
  | PathSource => Some (lit "path") | Header => Some (lit "header")
  end.

Definition source_tags : list rstr := [lit "json"; lit "query"; lit "form"; lit "path"; lit "header"].

(** The tags of a field in the layout the lemmas above read. *)
Lemma format_tags_eq f :
  format_api_field_tags f =
    match source_tag (fd_source f), fd_validate f with
    | None, None => []
    | Some n, None => lit " " ++ 96 :: n ++ lit ":" ++ quoted (field_wire_name f) ++ lit "`"
    | None, Some v => lit " " ++ 96 :: lit "validate" ++ lit ":" ++ quoted v ++ lit "`"
    | Some n, Some v => lit " " ++ 96 :: n ++ lit ":" ++ quoted (field_wire_name f)
                        ++ ([] ++ 32 :: lit "validate" ++ lit ":" ++ quoted v ++ lit "`")
    end.
Proof.
  unfold format_api_field_tags, push_api_field_tag.
  destruct (fd_source f), (fd_validate f) as [v|]; cbn [source_tag app join]; try done;
    unfold quoted; rewrite <- ?app_assoc; reflexivity.
Qed.

(** One printed tag: found under its own name, skipped under the others. *)
Lemma seg_spec a c n t w R :
  lacks 34 a = true → lacks 34 (c :: n) = true → lacks 34 t = true → tag_text w = true →
  str_eqb t n || clash (t ++ lit ":") (c :: n ++ lit ":") = true →
  parse_tag_value_full (a ++ c :: n ++ lit ":" ++ quoted w ++ R) t =
    if str_eqb t n then Some w else parse_tag_value_full R t.
Proof.
  intros Ha Hn Ht Hw. destruct (str_eqb_spec t n) as [->|_]; [intros _|apply seg_other; done].
  change (c :: n ++ ?X) with ([c] ++ n ++ X). rewrite app_assoc. apply seg_here; [|done..].
  rewrite lacks_app, Ha. by apply andb_true_iff in Hn as [Hc _]; unfold lacks; simpl; rewrite Hc.
Qed.

Definition tags_ok (f : Field) : bool :=
  (bool_decide (fd_source f = Auto) || (tag_text (field_wire_name f) && lacks 44 (field_wire_name f)))
  && opt_all tag_text (fd_validate f).

Lemma tags_ok_source f n :
  tags_ok f = true → source_tag (fd_source f) = Some n →
  tag_text (field_wire_name f) = true ∧ lacks 44 (field_wire_name f) = true.
Proof.
  unfold tags_ok. intros [H _]%andb_true_iff Hs. apply orb_true_iff in H as [H|H].
  - apply bool_decide_eq_true in H. by rewrite H in Hs.
  - by apply andb_true_iff in H.
Qed.

Lemma tags_ok_validate f v : tags_ok f = true → fd_validate f = Some v → tag_text v = true.
Proof. unfold tags_ok. intros [_ H]%andb_true_iff Hv. by rewrite Hv in H. Qed.

(** The tags read from a printed line, in terms of the field's own. *)
Lemma line_tag_full pre f t :
  lacks 34 pre = true → tags_ok f = true → str_in (lit "validate" :: source_tags) t = true →
  parse_tag_value_full (pre ++ format_api_field_tags f) t =
    if bool_decide (source_tag (fd_source f) = Some t) then Some (field_wire_name f)
    else if str_eqb t (lit "validate") then fd_validate f else None.
Proof.
  intros Hp Hok Ht. rewrite format_tags_eq.
  assert (lacks 34 (pre ++ lit " ") = true) as Hpre by by rewrite lacks_app, Hp.
  pose proof (tags_ok_validate f) as Hval. pose proof (tags_ok_source f) as Hsrc.
  apply str_in_spec in Ht. unfold source_tags in Ht. rewrite !elem_of_cons, elem_of_nil in Ht.
  destruct (fd_validate f) as [v|] eqn:Ev; [specialize (Hval v Hok eq_refl)|clear Hval];
    destruct (fd_source f) eqn:Es; cbn [source_tag] in *;
    try (specialize (Hsrc _ Hok eq_refl) as [Hw _]);
    destruct Ht as [->|[->|[->|[->|[->|[->|[]]]]]]];
    rewrite ?(app_assoc pre); rewrite ?seg_spec by done; try (rewrite tag_full_none by done); try done.
  all: by rewrite app_nil_r, tag_full_none.
Qed.

Lemma apply_tag_none line t s g : parse_tag_value line t = None → apply_tag line t s g = g.
Proof. unfold apply_tag. by intros ->. Qed.

Lemma apply_header_none line g : parse_tag_value line (lit "header") = None → apply_header_tag line g = g.
Proof. unfold apply_header_tag. by intros ->. Qed.

(** The value of a source tag on a printed line. *)
Lemma line_tag pre f t :
  lacks 34 pre = true → tags_ok f = true → str_in source_tags t = true →
  parse_tag_value (pre ++ format_api_field_tags f) t =
    if bool_decide (source_tag (fd_source f) = Some t) then Some (field_wire_name f) else None.
Proof.
  intros Hp Hok Ht. pose proof (line_tag_full pre f t Hp Hok) as Hl.
  specialize (Hl (orb_true_intro _ _ (or_intror Ht))). case_bool_decide as Hd.
  - destruct (tags_ok_source f t Hok Hd). by apply tag_value_some.
  - apply tag_value_none. rewrite Hl. by destruct (str_eqb_spec t (lit "validate")) as [->|].
Qed.

Lemma apply_tags_spec pre f :
  lacks 34 pre = true → tags_ok f = true →
  apply_tags (pre ++ format_api_field_tags f) (plain_field (fd_name f) (fd_ty f) (fd_embedded f)) =
    canonical_field f.
Proof.
  intros Hp Hok. pose proof (line_tag pre f) as Htag.
  pose proof (line_tag_full pre f (lit "validate") Hp Hok eq_refl) as Hval.
  set (line := pre ++ format_api_field_tags f) in *. clearbody line. unfold apply_tags, canonical_field.
  destruct (fd_source f); rewrite ?(apply_tag_none line) by by rewrite Htag.
  all: rewrite ?(apply_header_none line) by by rewrite Htag.
  all: unfold apply_tag, apply_header_tag; rewrite ?Htag by done.
  all: unfold apply_validate_tag; rewrite Hval; by destruct (fd_validate f).
Qed.

(** ** Field lines *)

Definition field_text (f : Field) : rstr :=
  (if fd_embedded f then fd_ty f else fd_name f ++ lit " " ++ fd_ty f) ++ format_api_field_tags f.

Lemma field_ok_tags f : field_ok f = true → tags_ok f = true.
Proof. unfold field_ok, tags_ok. rewrite !andb_true_iff. naive_solver. Qed.

(** What follows the type on its line: nothing, or a token that starts a tag. *)
Lemma tags_shape f :
  format_api_field_tags f = [] ∨ ∃ r, format_api_field_tags f = 32 :: 96 :: r.
Proof.
  rewrite format_tags_eq. destruct (source_tag (fd_source f)), (fd_validate f); eauto.
Qed.

(** The tokens of a line whose last token before the tags is [ty]. *)
Lemma split_before_tags ty f :
  unspaced ty = true →
  ∃ rest, split_whitespace (ty ++ format_api_field_tags f) = ty :: rest ∧
    (rest = [] ∨ ∃ piece pieces, rest = (96 :: piece) :: pieces).
Proof.
  unfold unspaced. intros [Hn Hu]%andb_true_iff. destruct (tags_shape f) as [->|[r ->]].
  - exists []. rewrite app_nil_r, split_whitespace_one by done. auto.
  - rewrite split_whitespace_cons by done. eexists. split; [done|]. right. by apply split_whitespace_head.
Qed.

Lemma nth_or_empty_0 s l : nth_or_empty 0 (s :: l) = s.
Proof. done. Qed.

Lemma parse_field_base_spec f no :
  field_ok f = true →
  parse_field_base (field_text f) no =
    Ok (plain_field (fd_name f) (fd_ty f) (fd_embedded f)).
Proof.
  unfold field_ok, field_text, parse_field_base. rewrite !andb_true_iff.
  intros [[[[[Hshape Hu] _] _] _] _].
  destruct (unspaced_solid _ Hu) as [Hts _].
  destruct (split_before_tags (fd_ty f) f Hu) as (rest & Hsp & Hrest).
  destruct (fd_embedded f).
  - rewrite !andb_true_iff, !negb_true_iff in Hshape. destruct Hshape as [[[Hn Hc] Hst] _].
    rewrite Hsp. rewrite nth_or_empty_0, Hc, (solid_nonempty _ Hts). apply str_eqb_eq in Hn as ->.
    replace (trim_start_matches (N.eqb 42) (fd_ty f)) with (fd_ty f).
    + by destruct Hrest as [->|(p & ps & ->)].
    + symmetry. apply drop_while_id. intros x l' Hx. rewrite Hx in Hst.
      unfold starts_with in Hst. cbn in Hst. apply N.eqb_neq. intros <-. done.
  - rewrite !andb_true_iff, !negb_true_iff in Hshape. destruct Hshape as [[[[Hnu _] _] Hc] Hb].
    destruct (unspaced_solid _ Hnu) as [Hns _].
    unfold unspaced in Hnu. apply andb_true_iff in Hnu as [Hn1 Hn2].
    rewrite <- app_assoc. change (lit " " ++ fd_ty f) with (32 :: fd_ty f). cbn [app].
    rewrite split_whitespace_cons, Hsp by done.
    rewrite nth_or_empty_0, Hc. change (nth_or_empty 1 (?a :: ?b :: ?l)) with b.
    by rewrite (solid_nonempty _ Hns), (solid_nonempty _ Hts), Hb.
Qed.

Lemma parse_field_spec f no :
  field_ok f = true → parse_field (field_text f) no = Ok (canonical_field f).
Proof.
  intros Hok. unfold parse_field. rewrite parse_field_base_spec by done. cbn [fmap result_fmap]. f_equal.
  apply apply_tags_spec; [|by apply field_ok_tags].
  unfold field_ok in Hok. rewrite !andb_true_iff in Hok. destruct Hok as [[[[[Hshape _] _] Hq] _] _].
  destruct (fd_embedded f); [done|]. rewrite !andb_true_iff in Hshape.
  destruct Hshape as [[[[_ _] Hnq] _] _]. by rewrite lacks_app, Hnq.
Qed.
