(* ===== verification/ApiRound.v ===== *)
(** * The round trip of contracts: printing and parsing

    The printer's output as a list of lines, what the parser's loops read from
    each group of lines, and the round trip through both. Line numbers do not
    matter to a parse without errors, so the lemmas say that the lines after a
    group are read under some numbering. *)

From S2P Require Import Prelude Text Scan ApiParser ApiFormat.

(** ** The output as lines *)

Definition opt_list {A} (o : option A) : list A := match o with Some a => [a] | None => [] end.

(** The [key: value] pairs of a server block. *)
Definition server_pairs (sv : ServerSpec) : list (rstr * rstr) :=
  (pair (lit "prefix") <$> opt_list (sv_prefix sv))
  ++ (pair (lit "group") <$> opt_list (sv_group sv))
  ++ (pair (lit "jwt") <$> opt_list (sv_jwt sv))
  ++ (if bool_decide (sv_middlewares sv = []) then []
      else [(lit "middleware", join (lit ", ") (sv_middlewares sv))]).

Definition pair_text (kv : rstr * rstr) : rstr := kv.1 ++ lit ": " ++ kv.2.

Definition server_inner (ind : rstr) (sv : ServerSpec) : list rstr :=
  ((λ kv, (ind ++ indent1) ++ pair_text kv) <$> server_pairs sv) ++ [ind ++ lit ")"].

Definition server_lines (ind : rstr) (sv : ServerSpec) : list rstr :=
  (ind ++ lit "@server (") :: server_inner ind sv.

Definition field_lines (fs : list Field) : list rstr := (λ f, indent2 ++ field_text f) <$> fs.

Definition type_inner (ty : TypeDef) : list rstr := field_lines (td_fields ty) ++ [indent1 ++ lit "}"].
Definition type_lines (ty : TypeDef) : list rstr := (indent1 ++ td_name ty ++ lit " {") :: type_inner ty.

(** The annotations printed before a route, and the route. *)
Definition annotation_texts (r : RestRoute) : list rstr :=
  ((λ doc, lit "@doc " ++ quoted doc) <$> opt_list (rt_doc r))
  ++ ((λ m, lit "@middleware " ++ m) <$> rt_middlewares r)
  ++ ((λ p, lit "@permission " ++ p) <$> rt_permissions r)
  ++ (if rt_websocket r then [lit "@websocket"] else [])
  ++ (if rt_maud r then [lit "@maud"] else [])
  ++ ((λ h, lit "@handler " ++ h) <$> opt_list (rt_handler r)).

Definition route_text (r : RestRoute) : rstr :=
  format_api_http_method (rt_method r) ++ lit " " ++ rt_path r ++ lit " "
  ++ format_signature (rt_request r) (rt_response r).

Definition route_lines (r : RestRoute) : list rstr :=
  (opt_list (rt_server r) ≫= server_lines indent1)
  ++ (app indent1 <$> annotation_texts r) ++ [indent1 ++ route_text r].

Definition rpc_text (m : RpcMethod) : rstr :=
  lit "rpc " ++ rpc_name m ++ lit " " ++ format_signature (rpc_request m) (rpc_response m).

Definition method_lines (m : RpcMethod) : list rstr :=
  ((λ p, indent1 ++ lit "@permission " ++ p) <$> rpc_permissions m) ++ [indent1 ++ rpc_text m].

Definition info_lines (l : list InfoPair) : list rstr :=
  (λ p, indent1 ++ pair_text (info_key p, quoted (info_value p))) <$> l.

Definition info_section (l : list InfoPair) : list rstr :=
  if bool_decide (length l = 0%nat) then [] else lit "info (" :: info_lines l ++ [lit ")"; []].

Definition server_section (spec : ApiSpec) : list rstr :=
  if no_route_server (rest_routes spec)
  then opt_list (server spec) ≫= λ sv, server_lines [] sv ++ [[]]
  else [].

Definition service_section (spec : ApiSpec) : list rstr :=
  (lit "service " ++ service spec ++ lit " {")
  :: (rest_routes spec ≫= route_lines) ++ (rpc_methods spec ≫= method_lines) ++ [lit "}"].

Definition types_section (tys : list TypeDef) : list rstr :=
  if bool_decide (length tys = 0%nat) then []
  else [] :: lit "type (" :: (tys ≫= type_lines) ++ [lit ")"].

Definition spec_lines (spec : ApiSpec) : list rstr :=
  (lit "syntax = " ++ quoted (lit "v1")) :: [] :: info_section (info spec)
  ++ server_section spec ++ service_section spec ++ types_section (types spec).

Lemma unlines_cons l ls : unlines (l :: ls) = ln l ++ unlines ls.
Proof. unfold unlines. by rewrite bind_cons. Qed.

Lemma unlines_one l : unlines [l] = ln l.
Proof. unfold unlines. by rewrite bind_cons, app_nil_r. Qed.

Lemma unlines_map {A} (f : A → rstr) l : unlines (f <$> l) = l ≫= λ a, ln (f a).
Proof. induction l as [|a l IH]; [done|]. rewrite fmap_cons, unlines_cons, bind_cons. by f_equal. Qed.

Lemma unlines_bind {A} (f : A → list rstr) l : unlines (l ≫= f) = l ≫= λ a, unlines (f a).
Proof. induction l as [|a l IH]; [done|]. rewrite !bind_cons, unlines_app. by f_equal. Qed.

Lemma bind_ext {A B} (f g : A → list B) l : (∀ a, f a = g a) → l ≫= f = l ≫= g.
Proof. intros H. induction l as [|a l IH]; [done|]. by rewrite !bind_cons, H, IH. Qed.

Lemma bind_map {A B C} (f : A → B) (g : B → list C) l : (f <$> l) ≫= g = l ≫= λ a, g (f a).
Proof. induction l as [|a l IH]; [done|]. by rewrite fmap_cons, !bind_cons, IH. Qed.

Lemma server_lines_eq ind sv : render_api_server_block sv ind = unlines (server_lines ind sv).
Proof.
  unfold render_api_server_block, server_lines, server_inner, server_pairs, pair_text.
  rewrite unlines_cons, unlines_app, unlines_one, unlines_map, !bind_app.
  f_equal. rewrite !app_assoc. f_equal.
  destruct (sv_prefix sv), (sv_group sv), (sv_jwt sv), (bool_decide (sv_middlewares sv = []));
    cbn; rewrite ?app_nil_r, <- ?app_assoc; done.
Qed.

Lemma format_field_eq f : format_field f = ln (indent2 ++ field_text f).
Proof.
  unfold format_field, field_text. destruct (fd_embedded f); [done|]. by rewrite <- !app_assoc.
Qed.

Lemma format_type_eq ty : format_type ty = unlines (type_lines ty).
Proof.
  unfold format_type, type_lines, type_inner, field_lines.
  rewrite unlines_cons, unlines_app, unlines_one, unlines_map. do 2 f_equal.
  apply bind_ext, format_field_eq.
Qed.

Lemma format_route_eq r : format_route r = unlines (route_lines r).
Proof.
  unfold format_route, route_lines, annotation_texts, route_text.
  rewrite !unlines_app, unlines_one, unlines_map, !bind_app. f_equal.
  { destruct (rt_server r); cbn [opt_list]; [|done]. rewrite bind_cons, app_nil_r. apply server_lines_eq. }
  rewrite <- !app_assoc. f_equal; [by destruct (rt_doc r); cbn; rewrite ?app_nil_r|].
  rewrite !bind_map. do 2 f_equal. f_equal; [by destruct (rt_websocket r)|].
  f_equal; [by destruct (rt_maud r)|]. by destruct (rt_handler r); cbn; rewrite ?app_nil_r.
Qed.

Lemma format_method_eq m : format_method m = unlines (method_lines m).
Proof.
  unfold format_method, method_lines, rpc_text.
  by rewrite unlines_app, unlines_one, unlines_map.
Qed.

Lemma info_section_eq l :
  (if bool_decide (length l = 0%nat) then []
   else ln (lit "info (")
        ++ (l ≫= λ pair, ln (indent1 ++ info_key pair ++ lit ": " ++ quoted (info_value pair)))
        ++ ln (lit ")") ++ nl) = unlines (info_section l).
Proof.
  unfold info_section, info_lines. case_bool_decide; [done|].
  by rewrite unlines_cons, unlines_app, unlines_map, unlines_cons.
Qed.

Lemma server_section_eq spec :
  (if no_route_server (rest_routes spec)
   then match server spec with Some sv => render_api_server_block sv [] ++ nl | None => [] end
   else []) = unlines (server_section spec).
Proof.
  unfold server_section. case_match; [|done]. destruct (server spec) as [sv|]; [|done]. cbn [opt_list].
  by rewrite bind_cons, app_nil_r, unlines_app, server_lines_eq.
Qed.

Lemma format_lines_eq spec : format_api_spec spec = unlines (spec_lines spec).
Proof.
  unfold format_api_spec, spec_lines, service_section, types_section.
  rewrite info_section_eq, server_section_eq, !unlines_cons, !unlines_app, !unlines_cons, !unlines_app.
  rewrite !unlines_bind, unlines_one, (bind_ext _ _ _ format_route_eq), (bind_ext _ _ _ format_method_eq).
  change (ln []) with nl. rewrite <- !app_assoc. do 8 f_equal. case_bool_decide; [done|].
  by rewrite !unlines_cons, unlines_app, unlines_bind, (bind_ext _ _ _ format_type_eq), unlines_one.
Qed.

(** ** The texts of the lines *)

Lemma body_ok_intro s : starts_solid s = true → ends_solid s = true → on_line s = true → body_ok s = true.
Proof. unfold body_ok. by intros -> -> ->. Qed.

(** Compute [on_line] through the literals and separators of a text. *)
Ltac on_line_done :=
  cbn [app]; repeat first
    [ done
    | assumption
    | rewrite on_line_cons by done
    | rewrite on_line_app by done
    | apply andb_true_iff; split ].

Lemma pair_text_ok kv : word kv.1 = true → starts_solid kv.2 = true → ends_solid kv.2 = true →
  on_line kv.2 = true → body_ok (pair_text kv) = true.
Proof.
  intros W%word_spec Hs He Ho. apply body_ok_intro.
  - apply starts_solid_app, W.
  - by apply ends_solid_app, ends_solid_app.
  - unfold pair_text. lits. pose proof (w_line _ W). on_line_done.
Qed.

Lemma quoted_ok d : on_line d = true → on_line (quoted d) = true.
Proof. intros Hd. unfold quoted. change quote with [34]. on_line_done. Qed.

Lemma signature_text_ok q p : signature_ok q p = true →
  on_line (format_signature q p) = true ∧ ends_solid (format_signature q p) = true.
Proof.
  unfold signature_ok. rewrite !andb_true_iff. intros [[[[_ Hq] _] _] Hp]. split.
  - unfold format_signature. lits. on_line_done.
  - unfold format_signature. by repeat apply ends_solid_app.
Qed.

Lemma unspaced_app_start a b : unspaced a = true → starts_solid (a ++ b) = true.
Proof. intros [? _]%unspaced_solid. by apply starts_solid_app. Qed.

Lemma route_text_ok r : route_ok r = true → body_ok (route_text r) = true.
Proof.
  unfold route_ok. rewrite !andb_true_iff. intros [[[[_ Hu] Hp] _] Hs].
  destruct (signature_text_ok _ _ Hs) as [Ho He]. apply body_ok_intro.
  - destruct (rt_method r) eqn:E; unfold route_text; rewrite E; reflexivity.
  - unfold route_text. by repeat apply ends_solid_app.
  - unfold route_text. destruct (rt_method r); cbn [format_api_http_method]; lits; on_line_done.
Qed.

Lemma rpc_text_ok m : method_ok m = true → body_ok (rpc_text m) = true.
Proof.
  unfold method_ok. rewrite !andb_true_iff. intros [[_ W%word_spec] Hs].
  destruct (signature_text_ok _ _ Hs) as [Ho He]. apply body_ok_intro; [reflexivity| |].
  - unfold rpc_text. by repeat apply ends_solid_app.
  - unfold rpc_text. pose proof (w_line _ W). lits. on_line_done.
Qed.

(** An annotation with a word. *)
Lemma annotation_text_ok name w :
  starts_solid name = true → on_line name = true → word w = true → body_ok (name ++ 32 :: w) = true.
Proof.
  intros Hs Hn W%word_spec. apply body_ok_intro.
  - by apply starts_solid_app.
  - apply ends_solid_app. change (32 :: w) with ([32] ++ w). apply ends_solid_app, W.
  - pose proof (w_line _ W). on_line_done.
Qed.

Lemma tags_text_ok f : field_ok f = true →
  on_line (format_api_field_tags f) = true ∧
  (format_api_field_tags f = [] ∨ ends_solid (format_api_field_tags f) = true).
Proof.
  intros Hok%field_ok_tags. rewrite format_tags_eq.
  pose proof (tags_ok_validate f) as Hval. pose proof (tags_ok_source f) as Hsrc.
  destruct (source_tag (fd_source f)) as [n|] eqn:En, (fd_validate f) as [v|];
    try (destruct (Hsrc n Hok eq_refl) as [(_ & _ & How & _)%tag_text_spec _]);
    try (destruct (tag_text_spec v (Hval v Hok eq_refl)) as (_ & _ & Hov & _)).
  all: assert (∀ x, source_tag (fd_source f) = Some x → on_line x = true) as Hn
         by (intros x; destruct (fd_source f); intros Hx; inversion Hx; reflexivity); try specialize (Hn n En).
  all: unfold quoted; split; [lits; on_line_done | try (by left); right].
  all: repeat first [reflexivity | apply ends_solid_app | apply ends_solid_cons].
Qed.

Lemma field_text_ok f : field_ok f = true → body_ok (field_text f) = true.
Proof.
  intros Hok. destruct (tags_text_ok f Hok) as [Hto Hte]. pose proof (tags_shape f) as Hsh.
  unfold field_ok in Hok. rewrite !andb_true_iff in Hok. destruct Hok as [[[[[Hshape Hu] Hl] _] _] _].
  destruct (unspaced_solid _ Hu) as [Hs He]. unfold field_text. apply body_ok_intro.
  - apply starts_solid_app. destruct (fd_embedded f); [done|].
    rewrite !andb_true_iff in Hshape. apply unspaced_app_start. tauto.
  - destruct Hte as [->|Hte]; [rewrite app_nil_r | by apply ends_solid_app].
    destruct (fd_embedded f); [done | by apply ends_solid_app, ends_solid_app].
  - assert (on_line (if fd_embedded f then fd_ty f else fd_name f ++ lit " " ++ fd_ty f) = true) as Ho.
    { destruct (fd_embedded f); [done|]. rewrite !andb_true_iff in Hshape. lits. cbn [app].
      rewrite on_line_app by done. apply andb_true_iff. naive_solver. }
    destruct Hsh as [->|[r Hr]]; [by rewrite app_nil_r|]. rewrite Hr in Hto |- *.
    rewrite on_line_app by done. rewrite on_line_cons in Hto by done. by rewrite Ho, Hto.
Qed.

(** ** Reading the groups of lines *)

Lemma number_from_app k a b :
  number_from k (a ++ b) = number_from k a ++ number_from (k + N.of_nat (length a)) b.
Proof.
  revert k. induction a as [|x a IH]; intros k; simpl; [by rewrite N.add_0_r|].
  rewrite IH. do 3 f_equal. lia.
Qed.

Lemma clean_line_flush s : body_ok s = true → clean_line s = s.
Proof. by apply (clean_line_body []). Qed.

Lemma str_eqb_longer s c : (2 ≤ length s)%nat → str_eqb s [c] = false.
Proof. intros Hl. apply str_eqb_neq. intros ->. simpl in Hl. lia. Qed.

Lemma body_nonempty s : body_ok s = true → str_is_empty s = false.
Proof. unfold body_ok. rewrite !andb_true_iff. intros [[? _] _]. by apply solid_nonempty. Qed.

Definition pair_ok (kv : rstr * rstr) : bool := word kv.1 && value_text kv.2.

Lemma value_text_spec v : value_text v = true →
  starts_solid v = true ∧ ends_solid v = true ∧ on_line v = true ∧ lacks 34 v = true.
Proof.
  unfold value_text. rewrite !andb_true_iff. intros [[Ht Ho] Hq].
  destruct (trimmed_solid v Ht) as (? & ? & _). done.
Qed.

Lemma value_text_intro v : starts_solid v = true → ends_solid v = true → on_line v = true →
  lacks 34 v = true → value_text v = true.
Proof.
  intros Hs He Ho Hq. unfold value_text, trimmed, nonempty.
  rewrite (solid_nonempty v Hs), trim_solid, str_eqb_refl, Ho, Hq by done. done.
Qed.

Lemma join_words_text l : forallb word l = true → l ≠ [] → value_text (join (lit ", ") l) = true.
Proof.
  induction l as [|s l IH]; [done|]. cbn [forallb]. intros [W%word_spec Hl]%andb_true_iff _.
  destruct l as [|s' l]; [by apply value_text_intro; apply W|].
  specialize (IH Hl ltac:(done)). apply value_text_spec in IH as (Hs & He & Ho & Hq).
  change (join (lit ", ") (s :: s' :: l)) with (s ++ 44 :: 32 :: join (lit ", ") (s' :: l)).
  apply value_text_intro.
  - apply starts_solid_app, W.
  - by apply ends_solid_app, ends_solid_cons, ends_solid_cons.
  - pose proof (w_line _ W). on_line_done.
  - rewrite lacks_app. pose proof (w_quote _ W) as ->. done.
Qed.

Lemma pair_length kv : pair_ok kv = true → (2 ≤ length (pair_text kv))%nat.
Proof.
  unfold pair_ok, pair_text. intros _. rewrite !length_app. change (length (lit ": ")) with 2%nat. lia.
Qed.

(** One [key: value] line of a server block. *)
Lemma read_pair k i kv rest sv sv' :
  spaces i = true → pair_ok kv = true → set_server_key sv kv.1 kv.2 = Some sv' →
  parse_server_lines ((k, i ++ pair_text kv) :: rest) sv = parse_server_lines rest sv'.
Proof.
  intros Hi Hok Hset. pose proof (pair_length kv Hok) as Hlen. unfold pair_ok in Hok.
  apply andb_true_iff in Hok as [Hk Hv]. pose proof (word_spec _ Hk) as W.
  destruct (value_text_spec _ Hv) as (Hs & He & Ho & Hq).
  pose proof (pair_text_ok kv Hk Hs He Ho) as Hb. cbn [parse_server_lines].
  rewrite clean_line_body, (body_nonempty _ Hb) by done. lits. rewrite str_eqb_longer by done.
  unfold pair_text. rewrite split_key_value_spec by (done || apply W).
  rewrite lacks_trim_quotes, (solid_nonempty _ (w_start _ W)), (solid_nonempty _ Hs) by done.
  cbn [orb]. by rewrite Hset.
Qed.

Fixpoint set_pairs (sv : ServerSpec) (kvs : list (rstr * rstr)) : option ServerSpec :=
  match kvs with
  | [] => Some sv
  | kv :: kvs' => sv' ← set_server_key sv kv.1 kv.2; set_pairs sv' kvs'
  end.

Lemma read_pairs k ind kvs rest sv sv' :
  spaces ind = true → Forall (λ kv, pair_ok kv = true) kvs → set_pairs sv kvs = Some sv' →
  ∃ k', parse_server_lines (number_from k
          ((((λ kv, (ind ++ indent1) ++ pair_text kv) <$> kvs) ++ [ind ++ lit ")"]) ++ rest)) sv =
        Ok (sv', number_from k' rest).
Proof.
  intros Hi HF. revert k sv. induction HF as [|kv kvs Hok HF IH]; intros k sv Hset.
  - injection Hset as ->. exists (k + 1). cbn [fmap list_fmap app number_from parse_server_lines].
    by rewrite clean_line_body.
  - cbn [set_pairs] in Hset. destruct (set_server_key sv kv.1 kv.2) as [sv1|] eqn:E; [|done].
    rewrite fmap_cons. cbn [app number_from]. rewrite (read_pair _ _ _ _ _ sv1); [|..|done|done].
    + by apply IH.
    + unfold spaces in *. by rewrite forallb_app, Hi.
Qed.

Lemma server_pairs_ok sv :
  server_ok sv = true →
  Forall (λ kv, pair_ok kv = true) (server_pairs sv) ∧
  set_pairs ServerSpec_default (server_pairs sv) = Some sv.
Proof.
  unfold server_ok. rewrite !andb_true_iff. intros [[[Hp Hg] Hj] Hm].
  assert (bool_decide (sv_middlewares sv = []) = false →
          value_text (join (lit ", ") (sv_middlewares sv)) = true ∧
          parse_name_list (join (lit ", ") (sv_middlewares sv)) = sv_middlewares sv) as Hmw.
  { intros Hne%bool_decide_eq_false. split; [by apply join_words_text | by apply name_list_join]. }
  unfold server_pairs. destruct sv as [p g mws j]. cbn [sv_prefix sv_group sv_jwt sv_middlewares] in *.
  assert (bool_decide (mws = []) = true → mws = []) as Hnil by by intros ?%bool_decide_eq_true.
  generalize dependent (join (lit ", ") mws). intros text Hmw.
  destruct p as [p|], g as [g|], j as [j|], (bool_decide (mws = []));
    try specialize (Hnil eq_refl) as ->; try destruct (Hmw eq_refl) as [Hv Hl];
    cbn [opt_list fmap list_fmap app opt_all] in *;
    (split; [repeat apply Forall_cons_2; try apply Forall_nil_2; by apply andb_true_iff|]);
    first [reflexivity | rewrite <- Hl; reflexivity].
Qed.

Lemma read_server_block k ind sv rest :
  spaces ind = true → server_ok sv = true →
  ∃ k', parse_server_block (number_from k (server_inner ind sv ++ rest)) = Ok (sv, number_from k' rest).
Proof. intros Hi [HF Hset]%server_pairs_ok. by apply read_pairs. Qed.

Lemma field_not_brace f : field_ok f = true → str_eqb (field_text f) (lit "}") = false.
Proof.
  unfold field_ok, field_text. rewrite !andb_true_iff. intros [[[[[Hshape Hu] _] _] _] _].
  destruct (unspaced_solid _ Hu) as [Hs _]. apply str_eqb_neq.
  destruct (fd_embedded f).
  - rewrite !andb_true_iff in Hshape. destruct Hshape as [_ Hb%negb_true_iff%str_eqb_neq].
    destruct (fd_ty f) as [|c ty]; [done|]. destruct ty as [|d ty]; [|done].
    cbn [app]. intros Heq. apply Hb. injection Heq as -> _. done.
  - intros Heq%(f_equal length). rewrite !length_app in Heq. change (length (lit " ")) with 1%nat in Heq.
    change (length (lit "}")) with 1%nat in Heq. destruct (fd_ty f); [done|]. simpl in Heq. lia.
Qed.

Lemma read_fields k fs rest :
  Forall (λ f, field_ok f = true) fs →
  ∃ k', parse_fields_until_brace (number_from k ((field_lines fs ++ [indent1 ++ lit "}"]) ++ rest)) =
        Ok (canonical_field <$> fs, number_from k' rest).
Proof.
  intros HF. revert k. induction HF as [|f fs Hok HF IH]; intros k.
  - exists (k + 1). cbn [field_lines fmap list_fmap app number_from parse_fields_until_brace].
    by rewrite clean_line_body.
  - unfold field_lines. rewrite fmap_cons. fold (field_lines fs). cbn [app number_from parse_fields_until_brace].
    pose proof (field_text_ok f Hok) as Hb.
    rewrite clean_line_body, (body_nonempty _ Hb), field_not_brace, parse_field_spec by done.
    destruct (IH (k + 1)) as [k' Hk]. exists k'. cbn [mbind result_bind]. by rewrite Hk.
Qed.

Lemma ends_with_app s suf : ends_with suf (s ++ suf) = true.
Proof. unfold ends_with. by rewrite strip_suffix_app. Qed.

(** The name on a line that opens a block. *)
Lemma block_name_spec s :
  trim s = s → ends_with (lit "{") s = false → block_name (s ++ lit " {") = s.
Proof.
  intros Ht He. unfold block_name, trim_end_matches. rewrite reverse_app.
  change (reverse (lit " {") ++ reverse s) with (123 :: 32 :: reverse s).
  change (drop_while (N.eqb 123) (123 :: 32 :: reverse s)) with (32 :: reverse s).
  rewrite reverse_cons, reverse_involutive.
  destruct s as [|c s]; [done|]. destruct (trim_fixed_solid (c :: s) eq_refl Ht) as [Hs Hen].
  apply (trim_pad [] (c :: s) [32]); [constructor | by repeat constructor | done..].
Qed.

Lemma type_line_ok ty : type_ok ty = true → body_ok (td_name ty ++ lit " {") = true.
Proof.
  unfold type_ok. rewrite !andb_true_iff. intros [[[Ht Ho] _] _].
  destruct (trimmed_solid _ Ht) as (Hs & _ & _). apply body_ok_intro.
  - by apply starts_solid_app.
  - by apply ends_solid_app.
  - lits. on_line_done.
Qed.

Lemma read_types k tys rest acc :
  Forall (λ ty, type_ok ty = true) tys →
  ∃ k', type_block (number_from k (((tys ≫= type_lines) ++ [lit ")"]) ++ rest)) acc =
        Some (Ok (acc ++ (canonical_type <$> tys), number_from k' rest)).
Proof.
  intros HF. revert k acc. induction HF as [|ty tys Hok HF IH]; intros k acc.
  - exists (k + 1). rewrite app_nil_r.
    change ((([] ≫= type_lines) ++ [lit ")"]) ++ rest) with (lit ")" :: rest).
    cbn [number_from]. rewrite type_block_cons. by rewrite clean_line_flush.
  - rewrite bind_cons, <- !app_assoc.
    change (type_lines ty) with ((indent1 ++ td_name ty ++ lit " {") :: type_inner ty).
    cbn [app number_from].
    rewrite type_block_cons. cbv zeta. pose proof (type_line_ok ty Hok) as Hb.
    unfold type_ok in Hok. rewrite !andb_true_iff in Hok. destruct Hok as [[[Ht _] Hbr] Hfs].
    destruct (trimmed_solid _ Ht) as (_ & _ & Htr). apply negb_true_iff in Hbr.
    rewrite clean_line_body, (body_nonempty _ Hb) by done.
    assert (str_eqb (td_name ty ++ lit " {") (lit ")") = false) as ->.
    { apply str_eqb_longer. rewrite length_app. change (length (lit " {")) with 2%nat. lia. }
    assert (ends_with (lit "{") (td_name ty ++ lit " {") = true) as ->.
    { change (lit " {") with ([32] ++ lit "{"). rewrite app_assoc. apply ends_with_app. }
    cbn [negb]. unfold type_inner. apply forallb_Forall in Hfs.
    destruct (read_fields (k + 1) (td_fields ty) ((tys ≫= type_lines) ++ lit ")" :: rest) Hfs) as [k' Hk].
    rewrite Hk, block_name_spec by done.
    destruct (IH k' (acc ++ [canonical_type ty])) as [k'' Hk']. exists k''.
    rewrite <- !app_assoc in Hk'. rewrite fmap_cons. exact Hk'.
Qed.

(** ** The service block *)

(** A line of the block that is neither its end nor a server block. *)
Record plain_line (t : rstr) : Prop :=
  { pl_ok : body_ok t = true; pl_end : str_eqb t (lit "}") = false;
    pl_server : is_block_start t (lit "@server") = false }.

(** Reading plain lines takes the block from one state to another. *)
Inductive reads_to : service_state → list rstr → service_state → Prop :=
| reads_nil st : reads_to st [] st
| reads_cons st t st1 ts st' :
    plain_line t → (∀ no, service_line st no t = Ok st1) → reads_to st1 ts st' →
    reads_to st (t :: ts) st'.

Lemma reads_one st t st' : plain_line t → (∀ no, service_line st no t = Ok st') → reads_to st [t] st'.
Proof. intros Ht Hs. econstructor; [done..|constructor]. Qed.

Lemma reads_app st ts st1 ts' st' : reads_to st ts st1 → reads_to st1 ts' st' → reads_to st (ts ++ ts') st'.
Proof. induction 1; [done|]. intros. econstructor; eauto. Qed.

Lemma reads_block k st ts st' rest :
  reads_to st ts st' →
  ∃ k', service_block (number_from k ((app indent1 <$> ts) ++ rest)) st = service_block (number_from k' rest) st'.
Proof.
  intros Hr. revert k. induction Hr as [st|st t st1 ts st' [Hb He Hsv] Hs _ IH]; intros k; [by exists k|].
  rewrite fmap_cons. cbn [app number_from]. rewrite service_block_cons. cbv zeta.
  by rewrite clean_line_body, (body_nonempty _ Hb), He, Hsv, Hs.
Qed.

Section service.
Context (cur ss : option ServerSpec) (rs : list RestRoute) (ms : list RpcMethod).

(** The state with the annotations gathered for the next declaration. *)
Definition pending (h d : option rstr) (ws maud : bool) (mws perms : list rstr) : service_state :=
  {| current_handler := h; current_doc := d; current_websocket := ws; current_maud := maud;
     current_middlewares := mws; current_permissions := perms; current_server := cur;
     service_server := ss; sv_routes := rs; sv_methods := ms |}.

Lemma plain_annotation name w :
  str_in [lit "@middleware"; lit "@permission"; lit "@handler"] name = true → word w = true →
  plain_line (name ++ 32 :: w).
Proof.
  intros Hn%str_in_spec Hw. rewrite !elem_of_cons, elem_of_nil in Hn.
  destruct Hn as [->|[->|[->|[]]]]; (split; [by apply annotation_text_ok | reflexivity..]).
Qed.

Lemma reads_doc h d ws maud mws perms doc :
  trim doc = doc → on_line doc = true →
  reads_to (pending h d ws maud mws perms) [lit "@doc " ++ quoted doc]
    (pending h (Some doc) ws maud mws perms).
Proof.
  intros Ht Ho. apply reads_one.
  - split; [|reflexivity..]. apply body_ok_intro; [reflexivity|by apply ends_solid_app, ends_solid_quoted|].
    unfold quoted. lits. on_line_done.
  - intros no. unfold service_line. change (lit "@doc " ++ quoted doc) with (lit "@doc" ++ 32 :: quoted doc).
    rewrite annotation_arg_spec; [|reflexivity|apply ends_solid_quoted|reflexivity].
    by rewrite annotation_string_quoted.
Qed.

Lemma reads_handler h d ws maud mws perms w :
  word w = true →
  reads_to (pending h d ws maud mws perms) [lit "@handler " ++ w] (pending (Some w) d ws maud mws perms).
Proof.
  intros Hw. apply reads_one; [by apply (plain_annotation (lit "@handler"))|].
  intros no. unfold service_line. change (lit "@handler " ++ w) with (lit "@handler" ++ 32 :: w).
  change (parse_annotation_arg (lit "@handler" ++ 32 :: w) (lit "@doc")) with (@None rstr). cbv iota.
  by rewrite annotation_word, annotation_string_word.
Qed.

Lemma reads_middlewares h d ws maud mws perms l :
  Forall (λ w, word w = true) l →
  reads_to (pending h d ws maud mws perms) ((λ m, lit "@middleware " ++ m) <$> l)
    (pending h d ws maud (mws ++ l) perms).
Proof.
  intros HF. revert mws. induction HF as [|w l Hw _ IH]; intros mws; [rewrite app_nil_r; constructor|].
  rewrite fmap_cons. specialize (IH (mws ++ [w])). rewrite <- app_assoc in IH.
  econstructor; [by apply (plain_annotation (lit "@middleware"))| |exact IH].
  intros no. unfold service_line. change (lit "@middleware " ++ w) with (lit "@middleware" ++ 32 :: w).
  change (parse_annotation_arg (lit "@middleware" ++ 32 :: w) (lit "@doc")) with (@None rstr).
  change (parse_annotation_arg (lit "@middleware" ++ 32 :: w) (lit "@handler")) with (@None rstr). cbv iota.
  by rewrite annotation_word, name_list_word.
Qed.

Lemma reads_permissions h d ws maud mws perms l :
  Forall (λ w, word w = true) l →
  reads_to (pending h d ws maud mws perms) ((λ p, lit "@permission " ++ p) <$> l)
    (pending h d ws maud mws (perms ++ l)).
Proof.
  intros HF. revert perms. induction HF as [|w l Hw _ IH]; intros perms; [rewrite app_nil_r; constructor|].
  rewrite fmap_cons. specialize (IH (perms ++ [w])). rewrite <- app_assoc in IH.
  econstructor; [by apply (plain_annotation (lit "@permission"))| |exact IH].
  intros no. unfold service_line. change (lit "@permission " ++ w) with (lit "@permission" ++ 32 :: w).
  change (parse_annotation_arg (lit "@permission" ++ 32 :: w) (lit "@doc")) with (@None rstr).
  change (parse_annotation_arg (lit "@permission" ++ 32 :: w) (lit "@handler")) with (@None rstr).
  change (parse_annotation_arg (lit "@permission" ++ 32 :: w) (lit "@middleware")) with (@None rstr). cbv iota.
  by rewrite annotation_word, name_list_word.
Qed.

Lemma reads_websocket h d maud mws perms (b : bool) :
  reads_to (pending h d false maud mws perms) (if b then [lit "@websocket"] else [])
    (pending h d b maud mws perms).
Proof. destruct b; [|constructor]. apply reads_one; [split; reflexivity | reflexivity]. Qed.

Lemma reads_maud h d ws mws perms (b : bool) :
  reads_to (pending h d ws false mws perms) (if b then [lit "@maud"] else [])
    (pending h d ws b mws perms).
Proof. destruct b; [|constructor]. apply reads_one; [split; reflexivity | reflexivity]. Qed.

Lemma reads_annotations r :
  route_ok r = true →
  reads_to (pending None None false false [] []) (annotation_texts r)
    (pending (rt_handler r) (rt_doc r) (rt_websocket r) (rt_maud r) (rt_middlewares r) (rt_permissions r)).
Proof.
  unfold route_ok, annotation_texts. rewrite !andb_true_iff.
  intros [[[[[[[[[[_ Hd] Hm%forallb_Forall] Hp%forallb_Forall] _] _] Hh] _] _] _] _].
  apply (reads_app _ _ (pending None (rt_doc r) false false [] [])).
  { destruct (rt_doc r) as [doc|]; [|constructor]. cbn [opt_all] in Hd.
    apply andb_true_iff in Hd as [Ht%str_eqb_eq Ho]. by apply reads_doc. }
  eapply reads_app; [by apply reads_middlewares|]. eapply reads_app; [by apply reads_permissions|].
  eapply reads_app; [apply reads_websocket|]. eapply reads_app; [apply reads_maud|].
  destruct (rt_handler r) as [h|]; [|constructor]. by apply reads_handler.
Qed.
End service.

Abbreviation idle cur ss rs ms := (pending cur ss rs ms None None false false [] []).

Lemma http_method_round m : http_method_of (format_api_http_method m) = Some m.
Proof. by destruct m. Qed.

Lemma route_ok_path r : route_ok r = true →
  unspaced (rt_path r) = true ∧ lacks 40 (rt_path r) = true ∧
  signature_ok (rt_request r) (rt_response r) = true.
Proof. unfold route_ok. rewrite !andb_true_iff. naive_solver. Qed.

Lemma parse_rest_route_text r no :
  route_ok r = true →
  ∃ bare, parse_rest_route (route_text r) no = Ok (Some bare) ∧
    rt_method bare = rt_method r ∧ rt_path bare = rt_path r ∧
    rt_request bare = rt_request r ∧ rt_response bare = rt_response r.
Proof.
  intros (Hu & Hp & Hs)%route_ok_path. destruct (signature_text_ok _ _ Hs) as [_ He].
  unfold parse_rest_route, route_text.
  change (lit " " ++ ?a ++ lit " " ++ ?b) with (32 :: (a ++ 32 :: b)).
  rewrite split_first_token_spec; [|by destruct (rt_method r)|by apply unspaced_app_start|].
  2:{ by apply ends_solid_app, ends_solid_cons. }
  rewrite http_method_round, split_path_spec by done.
  destruct (unspaced_solid _ Hu) as [Hus _]. rewrite (solid_nonempty _ Hus), parse_signature_spec by done.
  eexists. split; [done|]. done.
Qed.

Lemma route_plain r : route_ok r = true → plain_line (route_text r).
Proof.
  intros Hok. split; [by apply route_text_ok|..]; unfold route_text; destruct (rt_method r); reflexivity.
Qed.

Lemma route_not_annotation r name :
  str_in [lit "@doc"; lit "@handler"; lit "@middleware"; lit "@permission"] name = true →
  parse_annotation_arg (route_text r) name = None.
Proof.
  intros Hn%str_in_spec. rewrite !elem_of_cons, elem_of_nil in Hn. unfold route_text.
  destruct Hn as [->|[->|[->|[->|[]]]]]; by destruct (rt_method r).
Qed.

Lemma route_not_rpc r : strip_prefix (lit "rpc ") (route_text r) = None.
Proof. unfold route_text. by destruct (rt_method r). Qed.

Lemma route_not_flag r name : str_in [lit "@websocket"; lit "@websocket()"; lit "@maud"; lit "@maud()"] name = true →
  str_eqb (route_text r) name = false.
Proof.
  intros Hn%str_in_spec. rewrite !elem_of_cons, elem_of_nil in Hn. unfold route_text.
  destruct Hn as [->|[->|[->|[->|[]]]]]; by destruct (rt_method r).
Qed.

Lemma reads_route_line cur ss rs ms r :
  route_ok r = true →
  reads_to
    (pending cur ss rs ms (rt_handler r) (rt_doc r) (rt_websocket r) (rt_maud r) (rt_middlewares r)
       (rt_permissions r))
    [route_text r] (idle cur ss (rs ++ [with_route_server r cur]) ms).
Proof.
  intros Hok. apply reads_one; [by apply route_plain|]. intros no.
  destruct (parse_rest_route_text r no Hok) as (bare & Hb & Hm & Hp & Hq & Hr).
  unfold route_ok in Hok. rewrite !andb_true_iff in Hok. destruct Hok as [[[[[[[_ Hwm] Hwg] _] _] _] _] _].
  unfold service_line. rewrite !route_not_annotation, !route_not_flag, route_not_rpc, Hb by done.
  cbn [orb mbind result_bind pending current_websocket current_maud].
  apply negb_true_iff in Hwm. rewrite Hwm, Hm.
  assert (rt_websocket r && negb (bool_decide (rt_method r = Get)) = false) as ->.
  { destruct (rt_websocket r); [|done]. simpl in Hwg. by rewrite Hwg. }
  unfold push_route, annotate_route, with_route_server, pending. cbn. by rewrite Hm, Hp, Hq, Hr.
Qed.

(** The state's server after a route, and the first server of the block. *)
Definition next_server (cur : option ServerSpec) (r : RestRoute) : option ServerSpec :=
  match rt_server r with Some sv => Some sv | None => cur end.
Definition keep_first (ss : option ServerSpec) (r : RestRoute) : option ServerSpec :=
  match ss with Some sv => Some sv | None => rt_server r end.

Lemma read_route_server k cur ss rs ms r rest :
  route_ok r = true →
  ∃ k', service_block (number_from k ((opt_list (rt_server r) ≫= server_lines indent1) ++ rest)) (idle cur ss rs ms) =
        service_block (number_from k' rest) (idle (next_server cur r) (keep_first ss r) rs ms).
Proof.
  unfold route_ok, next_server, keep_first. rewrite !andb_true_iff. intros [[[[[[[[[[Hsv _] _] _] _] _] _] _] _] _] _].
  destruct (rt_server r) as [sv|]; [|exists k; by destruct ss]. cbn [opt_list opt_all] in *.
  rewrite bind_cons, app_nil_r. unfold server_lines. cbn [app number_from].
  rewrite service_block_cons. cbv zeta. rewrite clean_line_body by done.
  change (str_is_empty (lit "@server (")) with false. change (str_eqb (lit "@server (") (lit "}")) with false.
  change (is_block_start (lit "@server (") (lit "@server")) with true. cbv iota.
  destruct (read_server_block (k + 1) indent1 sv rest eq_refl Hsv) as [k' ->]. exists k'.
  unfold enter_server, pending. cbn. by destruct ss.
Qed.

Lemma read_route k cur ss rs ms r rest :
  route_ok r = true →
  ∃ k', service_block (number_from k (route_lines r ++ rest)) (idle cur ss rs ms) =
        service_block (number_from k' rest)
          (idle (next_server cur r) (keep_first ss r) (rs ++ [with_route_server r (next_server cur r)]) ms).
Proof.
  intros Hok. unfold route_lines. rewrite <- app_assoc.
  destruct (read_route_server k cur ss rs ms r
              (((app indent1 <$> annotation_texts r) ++ [indent1 ++ route_text r]) ++ rest) Hok) as [k1 ->].
  change [indent1 ++ route_text r] with (app indent1 <$> [route_text r]). rewrite <- fmap_app.
  apply reads_block. eapply reads_app; [by apply reads_annotations | by apply reads_route_line].
Qed.

Lemma read_routes k cur ss rs ms routes rest :
  Forall (λ r, route_ok r = true) routes →
  ∃ k' cur', service_block (number_from k ((routes ≫= route_lines) ++ rest)) (idle cur ss rs ms) =
        service_block (number_from k' rest)
          (idle cur' (foldl keep_first ss routes) (rs ++ inherit_servers cur routes) ms).
Proof.
  intros HF. revert k cur ss rs. induction HF as [|r routes Hok HF IH]; intros k cur ss rs.
  - exists k, cur. by rewrite app_nil_r.
  - rewrite bind_cons, <- app_assoc.
    destruct (read_route k cur ss rs ms r ((routes ≫= route_lines) ++ rest) Hok) as [k1 ->].
    destruct (IH k1 (next_server cur r) (keep_first ss r) (rs ++ [with_route_server r (next_server cur r)]))
      as (k2 & cur2 & ->).
    exists k2, cur2. by rewrite <- app_assoc.
Qed.

(** ** RPC methods *)

Lemma reads_method cur ss rs ms m :
  method_ok m = true →
  reads_to (idle cur ss rs ms) (((λ p, lit "@permission " ++ p) <$> rpc_permissions m) ++ [rpc_text m])
    (idle cur ss rs (ms ++ [canonical_method m])).
Proof.
  intros Hok. pose proof (rpc_text_ok m Hok) as Hb. unfold method_ok in Hok.
  rewrite !andb_true_iff in Hok. destruct Hok as [[Hp%forallb_Forall W%word_spec] Hs].
  eapply reads_app; [by apply reads_permissions|]. cbn [app]. apply reads_one; [by split|].
  intros no. destruct (signature_text_ok _ _ Hs) as [_ He].
  unfold service_line, rpc_text. rewrite strip_prefix_app.
  change (parse_annotation_arg (lit "rpc " ++ ?x) ?n) with (@None rstr).
  change (str_eqb (lit "rpc " ++ ?x) ?n) with false.
  cbn [orb pending current_websocket current_maud]. unfold parse_rpc_method.
  change (lit " " ++ ?x) with (32 :: x).
  rewrite split_first_token_spec; [|apply W|done|done]. cbn [ok_or mbind result_bind].
  by rewrite parse_signature_spec.
Qed.

Lemma read_methods k cur ss rs ms l rest :
  Forall (λ m, method_ok m = true) l →
  ∃ k', service_block (number_from k ((l ≫= method_lines) ++ rest)) (idle cur ss rs ms) =
        service_block (number_from k' rest) (idle cur ss rs (ms ++ (canonical_method <$> l))).
Proof.
  intros HF. revert k ms. induction HF as [|m l Hok HF IH]; intros k ms.
  - exists k. by rewrite app_nil_r.
  - rewrite bind_cons, <- app_assoc.
    assert (method_lines m = app indent1 <$> (((λ p, lit "@permission " ++ p) <$> rpc_permissions m) ++ [rpc_text m])) as ->.
    { unfold method_lines. by rewrite fmap_app, <- list_fmap_compose. }
    destruct (reads_block k _ _ _ ((l ≫= method_lines) ++ rest) (reads_method cur ss rs ms m Hok)) as [k1 ->].
    destruct (IH k1 (ms ++ [canonical_method m])) as [k2 ->]. exists k2. by rewrite <- app_assoc.
Qed.

(** ** The sections of the file *)

Lemma main_loop_step k line rest st st' k' rest' :
  body_ok line = true →
  main_step st k line (number_from (k + 1) rest) = Some (Ok (st', number_from k' rest')) →
  main_loop (number_from k (line :: rest)) st = main_loop (number_from k' rest') st'.
Proof.
  intros Hb Hs. cbn [number_from]. rewrite main_loop_cons. cbv zeta.
  by rewrite clean_line_flush, (body_nonempty _ Hb), Hs.
Qed.

Lemma main_loop_blank k rest st :
  main_loop (number_from k ([] :: rest)) st = main_loop (number_from (k + 1) rest) st.
Proof. cbn [number_from]. by rewrite main_loop_cons. Qed.

Lemma unquote_text v : nonempty v = true → lacks 34 v = true → trim_matches (N.eqb 34) (quoted v) = v.
Proof.
  intros Hn Hl. unfold trim_matches, trim_end_matches, trim_start_matches, quoted. change quote with [34].
  assert (drop_while (N.eqb 34) ([34] ++ v ++ [34]) = v ++ [34]) as ->.
  { cbn [app drop_while]. change (34 =? 34) with true. cbv iota. destruct v as [|c v]; [done|].
    cbn [app drop_while]. unfold lacks in Hl. cbn [forallb] in Hl.
    apply andb_true_iff in Hl as [Hc _]. apply negb_true_iff in Hc. by rewrite N.eqb_sym, Hc. }
  rewrite reverse_snoc. cbn [drop_while]. change (34 =? 34) with true. cbv iota.
  rewrite drop_while_id; [apply reverse_involutive|]. intros x l' Hx. apply N.eqb_neq. intros <-.
  apply lacks_not_in in Hl. apply Hl. rewrite <- (reverse_involutive v), Hx, reverse_cons.
  apply elem_of_app. right. by left.
Qed.

Lemma info_text_ok p : info_ok p = true → body_ok (pair_text (info_key p, quoted (info_value p))) = true.
Proof.
  unfold info_ok. rewrite !andb_true_iff. intros [[[[[Ht Hk] _] _] Hv] _].
  destruct (trimmed_solid _ Ht) as (Hs & _ & _). apply body_ok_intro.
  - by apply starts_solid_app.
  - apply ends_solid_app, ends_solid_app, ends_solid_quoted.
  - unfold pair_text, quoted. cbn [fst snd]. lits. on_line_done.
Qed.

Lemma read_info k l rest acc :
  Forall (λ p, info_ok p = true) l →
  ∃ k', parse_info_block (number_from k (info_lines l ++ lit ")" :: rest)) acc =
        Ok (acc ++ l, number_from k' rest).
Proof.
  intros HF. revert k acc. induction HF as [|p l Hok HF IH]; intros k acc.
  - exists (k + 1). rewrite app_nil_r. cbn [info_lines fmap list_fmap app number_from parse_info_block].
    by rewrite clean_line_flush.
  - unfold info_lines. rewrite fmap_cons. fold (info_lines l). cbn [app number_from parse_info_block].
    pose proof (info_text_ok p Hok) as Hb. rewrite clean_line_body, (body_nonempty _ Hb) by done.
    unfold info_ok in Hok. rewrite !andb_true_iff in Hok. destruct Hok as [[[[[Ht _] Hc] Hn] _] Hq].
    destruct (trimmed_solid _ Ht) as (Hs & _ & Htr).
    lits. rewrite str_eqb_longer.
    2:{ unfold pair_text. cbn [fst snd]. rewrite !length_app. change (length (lit ": ")) with 2%nat. lia. }
    unfold pair_text. cbn [fst snd]. rewrite split_key_value_spec; [|done|done|done|apply ends_solid_quoted].
    rewrite unquote_text, (solid_nonempty _ Hs) by done.
    assert (str_is_empty (info_value p) = false) as -> by by destruct (info_value p). cbn [orb].
    destruct p as [key v]. destruct (IH (k + 1) (acc ++ [{| info_key := key; info_value := v |}])) as [k' Hk].
    exists k'. by rewrite <- app_assoc in Hk.
Qed.

(** No line of a file but the first is a syntax declaration. *)
Lemma not_syntax line : lacks 61 line = true → is_syntax_decl line = false.
Proof. intros Hl. unfold is_syntax_decl. change (lit "=") with [61]. by rewrite split_once_char_none. Qed.

Lemma main_info k l rest st :
  Forall (λ p, info_ok p = true) l → ps_info st = [] →
  ∃ k', main_loop (number_from k (info_section l ++ rest)) st =
        main_loop (number_from k' rest) (with_info st l).
Proof.
  intros HF Hi. unfold info_section. case_bool_decide as Hl.
  - exists k. destruct l; [|done]. destruct st. cbn in *. by subst.
  - destruct (read_info (k + 1) l ([] :: rest) (ps_info st) HF) as [k1 Hk].
    exists (k1 + 1). rewrite <- main_loop_blank. cbn [app]. rewrite <- app_assoc. cbn [app].
    apply main_loop_step; [done|]. unfold main_step, parse_step.
    change (is_syntax_decl (lit "info (")) with false.
    change (is_block_start (lit "info (") (lit "info")) with true. cbv iota.
    by rewrite Hk, Hi.
Qed.

Lemma main_server k spec rest st :
  opt_all server_ok (server spec) = true → ps_server st = None →
  ∃ k', main_loop (number_from k (server_section spec ++ rest)) st =
        main_loop (number_from k' rest)
          (match (if no_route_server (rest_routes spec) then server spec else None) with
           | Some sv => with_server st sv | None => st end).
Proof.
  intros Hok Hn. unfold server_section. destruct (no_route_server _); [|by exists k].
  destruct (server spec) as [sv|]; [|by exists k]. cbn [opt_list opt_all] in *.
  rewrite bind_cons, app_nil_r. unfold server_lines. cbn [app]. rewrite <- app_assoc. cbn [app].
  destruct (read_server_block (k + 1) [] sv ([] :: rest) eq_refl Hok) as [k1 Hk].
  exists (k1 + 1). rewrite <- main_loop_blank. apply main_loop_step; [done|].
  unfold main_step, parse_step.
  change (is_syntax_decl (lit "@server (")) with false.
  change (is_block_start (lit "@server (") (lit "info")) with false.
  change (is_block_start (lit "@server (") (lit "@server")) with true. cbv iota.
  by rewrite Hk.
Qed.

Definition service_header (name : rstr) : rstr := lit "service " ++ name ++ lit " {".

Lemma service_header_ok name : word name = true → body_ok (service_header name) = true.
Proof.
  intros W%word_spec. apply body_ok_intro; [done|by apply ends_solid_app, ends_solid_app|].
  unfold service_header. pose proof (w_line _ W). lits. on_line_done.
Qed.

Lemma word_no_brace name : word name = true → ends_with (lit "{") name = false.
Proof.
  intros W%word_spec. unfold ends_with. destruct (strip_suffix (lit "{") name) eqn:E; [|done].
  apply strip_suffix_Some in E. pose proof (w_brace _ W) as Hb. rewrite E, lacks_app in Hb.
  by apply andb_true_iff in Hb as [_ Hb].
Qed.

Lemma service_step st no name rest :
  word name = true →
  main_step st no (service_header name) rest =
    (λ r, '(sst, rest) ← r; Ok (service_end st name sst, rest)) <$> service_block rest (service_begin st).
Proof.
  intros Hw. pose proof (word_spec _ Hw) as W. unfold main_step, parse_step, service_header.
  rewrite not_syntax by (rewrite !lacks_app, (w_equals _ W); done).
  change (is_block_start (lit "service " ++ ?x) ?n) with false. cbv iota.
  rewrite strip_prefix_app, block_name_spec by first [apply W | by apply word_no_brace].
  change (lit " {") with ([32] ++ lit "{"). by rewrite !(app_assoc name), !app_assoc, ends_with_app.
Qed.

Lemma keep_first_fold ss routes :
  foldl keep_first ss routes = match ss with Some sv => Some sv | None => first_server routes end.
Proof.
  unfold first_server. revert ss. induction routes as [|r routes IH]; intros ss; simpl; [by destruct ss|].
  rewrite IH. unfold keep_first. by destruct ss, (rt_server r).
Qed.

Lemma no_route_server_first routes : no_route_server routes = true → first_server routes = None.
Proof.
  unfold no_route_server, first_server. induction routes as [|r routes IH]; [done|]. cbn [forallb].
  intros [Hr%bool_decide_eq_true Hrs]%andb_true_iff. simpl. rewrite Hr. by apply IH.
Qed.

Lemma main_service k spec rest st :
  word (service spec) = true → forallb route_ok (rest_routes spec) = true →
  forallb method_ok (rpc_methods spec) = true → ps_routes st = [] → ps_methods st = [] →
  ∃ k', main_loop (number_from k (service_section spec ++ rest)) st =
        main_loop (number_from k' rest)
          {| ps_service := Some (service spec);
             ps_server := match ps_server st with Some sv => Some sv
                          | None => first_server (rest_routes spec) end;
             ps_info := ps_info st; ps_types := ps_types st;
             ps_routes := inherit_servers None (rest_routes spec);
             ps_methods := canonical_method <$> rpc_methods spec |}.
Proof.
  intros Hw Hr%forallb_Forall Hm%forallb_Forall Hrs Hms. unfold service_section.
  fold (service_header (service spec)). cbn [app]. rewrite <- !app_assoc.
  destruct (read_routes (k + 1) None None [] [] (rest_routes spec)
              ((rpc_methods spec ≫= method_lines) ++ [lit "}"] ++ rest) Hr) as (k1 & cur & H1).
  destruct (read_methods k1 cur (foldl keep_first None (rest_routes spec))
              ([] ++ inherit_servers None (rest_routes spec)) [] (rpc_methods spec) ([lit "}"] ++ rest) Hm)
    as [k2 H2].
  exists (k2 + 1). apply main_loop_step; [by apply service_header_ok|].
  rewrite service_step by done.
  assert (service_begin st = idle None None [] []) as ->.
  { unfold service_begin, pending. by rewrite Hrs, Hms. }
  rewrite H1, H2. cbn [app number_from]. rewrite service_block_cons. cbv zeta.
  rewrite clean_line_flush by done. change (str_is_empty (lit "}")) with false.
  change (str_eqb (lit "}") (lit "}")) with true. cbv iota. cbn [fmap option_fmap option_map mbind result_bind].
  unfold service_end, pending. cbn. rewrite keep_first_fold. by destruct (ps_server st).
Qed.

Lemma main_types k tys st :
  Forall (λ ty, type_ok ty = true) tys → ps_types st = [] →
  main_loop (number_from k (types_section tys)) st = Some (Ok (with_types st (canonical_type <$> tys))).
Proof.
  intros HF Ht. unfold types_section. case_bool_decide as Hl.
  - destruct tys; [|done]. destruct st. cbn in *. by subst.
  - rewrite main_loop_blank.
    destruct (read_types (k + 1 + 1) tys [] [] HF) as [k1 Hk]. rewrite app_nil_r in Hk.
    rewrite (main_loop_step (k + 1) (lit "type (") _ st (with_types st (canonical_type <$> tys)) k1 []); [done|done|].
    unfold main_step, parse_step.
    change (is_syntax_decl (lit "type (")) with false.
    change (is_block_start (lit "type (") (lit "info")) with false.
    change (is_block_start (lit "type (") (lit "@server")) with false.
    change (is_block_start (lit "type (") (lit "type")) with true. cbv iota.
    unfold type_block in Hk. by rewrite Ht, Hk.
Qed.

(** ** The specification is finished as it is *)

Lemma inherit_map {A} (f : RestRoute → A) cur routes :
  (∀ r sv, f (with_route_server r sv) = f r) → f <$> inherit_servers cur routes = f <$> routes.
Proof.
  intros Hf. revert cur. induction routes as [|r routes IH]; intros cur; [done|].
  cbn [inherit_servers]. by rewrite !fmap_cons, Hf, IH.
Qed.

Lemma fill_empty_id e ty : trimmed ty = true → fill_empty e ty = ty.
Proof.
  intros (Hs & _ & Ht)%trimmed_solid. unfold fill_empty. by rewrite Ht, (solid_nonempty _ Hs).
Qed.

Lemma signature_trimmed q p : signature_ok q p = true → trimmed q = true ∧ trimmed p = true.
Proof. unfold signature_ok. rewrite !andb_true_iff. naive_solver. Qed.

Lemma fill_routes_id cur routes :
  forallb route_ok routes = true → fill_route <$> inherit_servers cur routes = inherit_servers cur routes.
Proof.
  revert cur. induction routes as [|r routes IH]; intros cur; [done|]. cbn [forallb inherit_servers].
  intros [Hok Hr]%andb_true_iff. rewrite fmap_cons, IH by done. f_equal.
  apply route_ok_path in Hok as (_ & _ & [Hq Hp]%signature_trimmed).
  unfold fill_route, with_route_server. cbn. by rewrite !fill_empty_id.
Qed.

Lemma fill_methods_id l :
  forallb method_ok l = true → fill_method <$> (canonical_method <$> l) = canonical_method <$> l.
Proof.
  induction l as [|m l IH]; [done|]. cbn [forallb]. intros [Hok Hl]%andb_true_iff.
  rewrite !fmap_cons, IH by done. f_equal. unfold method_ok in Hok. rewrite !andb_true_iff in Hok.
  destruct Hok as [_ [Hq Hp]%signature_trimmed].
  unfold fill_method, canonical_method. cbn. by rewrite !fill_empty_id.
Qed.

Lemma canonical_methods_map {A} (f : RpcMethod → A) (l : list RpcMethod) :
  (∀ m, f (canonical_method m) = f m) → f <$> (canonical_method <$> l) = f <$> l.
Proof. intros Hf. rewrite <- list_fmap_compose. apply list_fmap_ext. intros i m _. apply Hf. Qed.

Lemma declares_canonical tys name : declares_type (canonical_type <$> tys) name = declares_type tys name.
Proof. unfold declares_type. induction tys as [|ty tys IH]; [done|]. cbn. by rewrite IH. Qed.

Lemma add_empty_type_id needed name tys :
  negb needed || declares_type tys name = true → add_empty_type needed name tys = tys.
Proof. unfold add_empty_type. destruct needed; [|done]. cbn. by intros ->. Qed.

Lemma finish_canonical spec sv pairs :
  forallb route_ok (rest_routes spec) = true → forallb method_ok (rpc_methods spec) = true →
  empty_types_ok spec = true →
  finish_spec {| ps_service := Some (service spec); ps_server := sv; ps_info := pairs;
                 ps_types := canonical_type <$> types spec;
                 ps_routes := inherit_servers None (rest_routes spec);
                 ps_methods := canonical_method <$> rpc_methods spec |} =
    Ok {| service := service spec; rpc_package := None; server := sv; info := pairs;
          types := canonical_type <$> types spec; rest_routes := inherit_servers None (rest_routes spec);
          rpc_methods := canonical_method <$> rpc_methods spec |}.
Proof.
  intros Hr Hm [Hq Hp]%andb_true_iff. unfold finish_spec, normalize_empty_requests. cbn.
  rewrite fill_routes_id, fill_methods_id by done. unfold request_types, response_types in *.
  rewrite !inherit_map, !canonical_methods_map by done.
  rewrite add_empty_type_id.
  - by rewrite add_empty_type_id by by rewrite declares_canonical.
  - rewrite add_empty_type_id by by rewrite declares_canonical. by rewrite declares_canonical.
Qed.

(** ** Every printed line is read as one line *)

Abbreviation lines_ok ls := (Forall (λ l, line_ok l = true) ls).

Lemma lines_ok_bind {A} (p : A → bool) (f : A → list rstr) (l : list A) :
  (∀ a, p a = true → lines_ok (f a)) → forallb p l = true → lines_ok (l ≫= f).
Proof.
  intros Hf. induction l as [|a l IH]; [by constructor|]. cbn [forallb].
  intros [Ha Hl]%andb_true_iff. rewrite bind_cons. apply Forall_app. auto.
Qed.

Lemma lines_ok_map {A} (p : A → bool) (f : A → rstr) (l : list A) :
  (∀ a, p a = true → line_ok (f a) = true) → forallb p l = true → lines_ok (f <$> l).
Proof.
  intros Hf Hl%forallb_Forall. apply Forall_fmap. eapply Forall_impl; [exact Hl|]. exact Hf.
Qed.

Lemma server_lines_ok ind sv : spaces ind = true → server_ok sv = true → lines_ok (server_lines ind sv).
Proof.
  intros Hi [HF _]%server_pairs_ok. unfold server_lines, server_inner.
  assert (spaces (ind ++ indent1) = true) as Hi2 by (unfold spaces in *; by rewrite forallb_app, Hi).
  constructor; [by apply body_line_ok|]. apply Forall_app. split.
  - apply Forall_fmap. eapply Forall_impl; [exact HF|]. intros kv [Hk Hv]%andb_true_iff.
    destruct (value_text_spec _ Hv) as (? & ? & ? & _). apply body_line_ok; [done|]. by apply pair_text_ok.
  - constructor; [by apply body_line_ok | constructor].
Qed.

Lemma reads_to_lines st ts st' : reads_to st ts st' → lines_ok (app indent1 <$> ts).
Proof.
  induction 1 as [|st t st1 ts st' [Hb _ _] _ _ IH]; [constructor|]. rewrite fmap_cons.
  constructor; [by apply body_line_ok | done].
Qed.

Lemma route_lines_ok r : route_ok r = true → lines_ok (route_lines r).
Proof.
  intros Hok. unfold route_lines. repeat apply Forall_app_2.
  - unfold route_ok in Hok. rewrite !andb_true_iff in Hok.
    destruct (rt_server r) as [sv|]; [|constructor]. cbn [opt_list opt_all] in *.
    rewrite bind_cons, app_nil_r. apply server_lines_ok; [done|tauto].
  - eapply reads_to_lines. by apply (reads_annotations None None [] []).
  - constructor; [|constructor]. by apply body_line_ok, route_text_ok.
Qed.

Lemma method_lines_ok m : method_ok m = true → lines_ok (method_lines m).
Proof.
  intros Hok. pose proof (reads_to_lines _ _ _ (reads_method None None [] [] m Hok)) as H.
  rewrite fmap_app, <- list_fmap_compose in H. exact H.
Qed.

Lemma type_lines_ok ty : type_ok ty = true → lines_ok (type_lines ty).
Proof.
  intros Hok. unfold type_lines, type_inner. constructor; [by apply body_line_ok, type_line_ok|].
  apply Forall_app. split; [|constructor; [done | constructor]].
  unfold type_ok in Hok. apply andb_true_iff in Hok as [_ Hf].
  apply (lines_ok_map field_ok); [|done]. intros f Hfo. by apply body_line_ok, field_text_ok.
Qed.

Lemma info_section_ok l : forallb info_ok l = true → lines_ok (info_section l).
Proof.
  intros Hl. unfold info_section. case_bool_decide; [constructor|]. constructor; [done|].
  apply Forall_app. split; [|by repeat constructor].
  apply (lines_ok_map info_ok); [|done]. intros p Hp. by apply body_line_ok, info_text_ok.
Qed.

Lemma spec_lines_ok spec : formattable spec = true → lines_ok (spec_lines spec).
Proof.
  unfold formattable. rewrite !andb_true_iff. intros [[[[[[Hw Hi] Hsv] Ht] Hr] Hm] _].
  unfold spec_lines. do 2 (constructor; [done|]). repeat apply Forall_app_2.
  - by apply info_section_ok.
  - unfold server_section. destruct (no_route_server _); [|constructor].
    destruct (server spec) as [sv|]; [|constructor]. cbn [opt_list opt_all] in *.
    rewrite bind_cons, app_nil_r. apply Forall_app_2; [by apply server_lines_ok | by repeat constructor].
  - unfold service_section. constructor; [by apply (body_line_ok []), service_header_ok|].
    repeat apply Forall_app_2; [| |by repeat constructor].
    + by apply (lines_ok_bind route_ok); [apply route_lines_ok|].
    + by apply (lines_ok_bind method_ok); [apply method_lines_ok|].
  - unfold types_section. case_bool_decide; [constructor|]. do 2 (constructor; [done|]).
    apply Forall_app_2; [|by repeat constructor].
    by apply (lines_ok_bind type_ok); [apply type_lines_ok|].
Qed.

Lemma parse_format spec :
  formattable spec = true → parse_api (format_api_spec spec) = Some (Ok (canonical_spec spec)).
Proof.
  intros Hf. pose proof (spec_lines_ok spec Hf) as Hlines. unfold formattable in Hf.
  rewrite !andb_true_iff in Hf. destruct Hf as [[[[[[Hw Hi%forallb_Forall] Hsv] Ht%forallb_Forall] Hr] Hm] He].
  unfold parse_api. rewrite format_lines_eq, str_lines_unlines by done.
  fold (main_loop (number_from 0 (spec_lines spec)) parse_init). unfold spec_lines.
  rewrite (main_loop_step 0 (lit "syntax = " ++ quoted (lit "v1")) _ parse_init parse_init (0 + 1) _
             eq_refl eq_refl), main_loop_blank.
  destruct (main_info (0 + 1 + 1) (info spec)
    (server_section spec ++ service_section spec ++ types_section (types spec)) parse_init Hi eq_refl) as [k1 ->].
  destruct (main_server k1 spec (service_section spec ++ types_section (types spec))
    (with_info parse_init (info spec)) Hsv eq_refl) as [k2 ->].
  set (st := match _ with Some sv => with_server _ sv | None => _ end).
  destruct (main_service k2 spec (types_section (types spec)) st Hw Hr Hm) as [k3 ->];
    [by unfold st; destruct (no_route_server _), (server spec)..|].
  rewrite main_types by first [done | unfold st; by destruct (no_route_server _), (server spec)].
  cbn [fmap option_fmap option_map mbind result_bind]. f_equal. unfold with_types. cbn [ps_service ps_server ps_info ps_routes ps_methods].
  rewrite finish_canonical by done. f_equal. unfold canonical_spec. f_equal.
  - unfold st. destruct (no_route_server (rest_routes spec)) eqn:En; [|done].
    destruct (server spec); [done|]. by apply no_route_server_first.
  - unfold st. by destruct (no_route_server _), (server spec).
Qed.

(** ** The check of the formatter's own output *)

Lemma inherit_settled cur routes :
  settled_after (bool_decide (is_Some cur)) routes = true → inherit_servers cur routes = routes.
Proof.
  revert cur. induction routes as [|r routes IH]; intros cur; [done|]. cbn [settled_after inherit_servers].
  destruct (rt_server r) as [sv|] eqn:Er.
  - intros H. rewrite IH by done. f_equal. destruct r. unfold with_route_server. cbn in *. by subst.
  - intros [Hn H]%andb_true_iff. destruct cur as [sv|]; [done|]. rewrite IH by done.
    f_equal. destruct r. unfold with_route_server. cbn in *. by subst.
Qed.

Lemma canonical_wire_name f : fd_source f ≠ Auto → field_wire_name (canonical_field f) = field_wire_name f.
Proof. unfold field_wire_name at 1, canonical_field. cbn. by destruct (fd_source f). Qed.

Lemma canonical_tags f : format_api_field_tags (canonical_field f) = format_api_field_tags f.
Proof.
  rewrite !format_tags_eq. change (fd_source (canonical_field f)) with (fd_source f).
  change (fd_validate (canonical_field f)) with (fd_validate f).
  destruct (fd_source f) eqn:E; [done|..]; rewrite canonical_wire_name by (by rewrite E); done.
Qed.

Lemma format_canonical_field f : format_field (canonical_field f) = format_field f.
Proof. unfold format_field. by rewrite canonical_tags. Qed.

Lemma format_canonical_type ty : format_type (canonical_type ty) = format_type ty.
Proof.
  unfold format_type, canonical_type. cbn [td_name td_fields]. rewrite bind_map.
  by rewrite (bind_ext (λ f, format_field (canonical_field f)) format_field) by apply format_canonical_field.
Qed.

Lemma format_canonical spec : settled spec = true → format_api_spec (canonical_spec spec) = format_api_spec spec.
Proof.
  intros Hs. unfold format_api_spec, canonical_spec.
  cbn [service rpc_package server info types rest_routes rpc_methods].
  rewrite (inherit_settled None) by done. rewrite !bind_map, length_fmap.
  rewrite (bind_ext (λ a, format_method (canonical_method a)) format_method) by done.
  rewrite (bind_ext (λ a, format_type (canonical_type a)) format_type) by apply format_canonical_type.
  by destruct (no_route_server (rest_routes spec)).
Qed.

Lemma normalize_line l s :
  line_ok l = true → normalize_line_endings (l ++ 10 :: s) = l ++ 10 :: normalize_line_endings s.
Proof.
  intros [Hl Hcr]%andb_true_iff. apply negb_true_iff, bool_decide_eq_false in Hcr.
  induction l as [|c l IH]; [done|]. cbn [app]. unfold lacks in Hl. cbn [forallb] in Hl.
  apply andb_true_iff in Hl as [_ Hl]. destruct l as [|d l].
  - cbn [app normalize_line_endings]. destruct (N.eqb_spec c 13) as [->|_]; [by destruct Hcr | done].
  - assert (normalize_line_endings ((d :: l) ++ 10 :: s) = (d :: l) ++ 10 :: normalize_line_endings s) as IH'
      by by apply IH.
    cbn [app] in *. rewrite <- IH'. cbn [forallb] in Hl. apply andb_true_iff in Hl as [Hd _].
    apply negb_true_iff in Hd. cbn [normalize_line_endings]. destruct (c =? 13); [by rewrite Hd | done].
Qed.

Lemma normalize_unlines ls : lines_ok ls → normalize_line_endings (unlines ls) = unlines ls.
Proof.
  induction 1 as [|l ls Hl _ IH]; [done|]. rewrite unlines_cons. unfold ln. change nl with [10].
  rewrite <- app_assoc. cbn [app]. by rewrite normalize_line, IH.
Qed.

(** C12: printing a contract and parsing the output gives the contract back in
    canonical form. For every contract the layout can express ([formattable]:
    names without blanks or punctuation, texts on one line without comments, no
    route both a websocket and a page), parsing [format_api_spec] of it succeeds
    with [canonical_spec] of it: everything but the middlewares of RPC methods
    and redundant tags, with routes under the server that was printed last. If
    the routes after a server all have one, the formatter's check accepts the
    formatter's output. *)
Theorem format_parse_roundtrip spec :
  formattable spec = true →
  parse_api (format_api_spec spec) = Some (Ok (canonical_spec spec)) ∧
  (settled spec = true → format_check (format_api_spec spec) (canonical_spec spec) = true).
Proof.
  intros Hf. split; [by apply parse_format|]. intros Hs. unfold format_check.
  rewrite format_canonical, format_lines_eq, normalize_unlines by first [done | by apply spec_lines_ok].
  apply str_eqb_refl.
Qed.

(** ** Witnesses *)

Definition ex_server : ServerSpec :=
  {| sv_prefix := Some (lit "/api"); sv_group := None; sv_middlewares := [lit "auth"; lit "trace"];
     sv_jwt := Some (lit "Auth") |}.

Definition ex_file_server : ServerSpec :=
  {| sv_prefix := Some (lit "/v0"); sv_group := Some (lit "user"); sv_middlewares := [lit "audit"];
     sv_jwt := None |}.

Definition ex_route : RestRoute :=
  {| rt_handler := Some (lit "login"); rt_doc := Some (lit "Log in (again)"); rt_websocket := false;
     rt_maud := false; rt_middlewares := []; rt_permissions := [lit "user.login"];
     rt_server := Some ex_server; rt_method := Post; rt_path := lit "/users/{id}/login";
     rt_request := lit "LoginReq"; rt_response := lit "LoginResp" |}.

Definition ex_login_field : Field :=
  {| fd_name := lit "Name"; fd_ty := lit "string"; fd_embedded := false; fd_json_name := Some (lit "name");
     fd_source := Json; fd_wire_name := Some (lit "name"); fd_validate := Some (lit "min=3,optional") |}.

Definition ex_id_field : Field :=
  {| fd_name := lit "id"; fd_ty := lit "u64"; fd_embedded := false; fd_json_name := Some (lit "id");
     fd_source := PathSource; fd_wire_name := Some (lit "id"); fd_validate := None |}.

Definition ex_spec : ApiSpec :=
  {| service := lit "users"; rpc_package := None; server := Some ex_file_server;
     info := [{| info_key := lit "title"; info_value := lit "User service" |}];
     types := [{| td_name := lit "LoginReq"; td_fields := [ex_login_field; ex_id_field] |};
               {| td_name := lit "LoginResp"; td_fields := [plain_field (lit "token") (lit "String") false] |}];
     rest_routes := [ex_route];
     rpc_methods := [{| rpc_name := lit "Check"; rpc_request := lit "LoginResp"; rpc_response := lit "LoginResp";
                        rpc_middlewares := [lit "audit"]; rpc_permissions := [] |}] |}.

Lemma format_parse_roundtrip_witness :
  formattable ex_spec = true ∧ settled ex_spec = true ∧
  parse_api (format_api_spec ex_spec) = Some (Ok (canonical_spec ex_spec)) ∧
  format_check (format_api_spec ex_spec) (canonical_spec ex_spec) = true.
Proof.
  assert (formattable ex_spec = true) as Hf by (vm_compute; reflexivity).
  assert (settled ex_spec = true) as Hs by reflexivity.
  destruct (format_parse_roundtrip ex_spec Hf) as [Hp Hc]. auto.
Defined.

(** The middlewares of an RPC method do not survive formatting, and neither does
    the server of the file when a route has one of its own. *)
Lemma format_loses_middlewares :
  formattable ex_spec = true ∧
  (rpc_middlewares <$> rpc_methods ex_spec) = [[lit "audit"]] ∧ server ex_spec = Some ex_file_server ∧
  ∃ spec', parse_api (format_api_spec ex_spec) = Some (Ok spec') ∧
    (rpc_middlewares <$> rpc_methods spec') = [[]] ∧ server spec' = Some ex_server.
Proof.
  split; [vm_compute; reflexivity|]. do 2 (split; [reflexivity|]).
  exists (canonical_spec ex_spec). split; [apply parse_format; vm_compute; reflexivity|]. split; reflexivity.
Qed.
