(* ===== verification/Naming.v ===== *)
(** * Generated names (apps/rozectl/src/generator and roze-middleware)

    How the code generator turns names of a contract into Rust identifiers,
    which names it accepts, and which middleware names are built in. The case
    of characters outside ASCII is the standard library's Unicode tables: a
    class with its documented behaviour on ASCII. *)

From S2P Require Import Prelude Text Scan.

(** ** Unicode case *)

Definition is_ascii (c : N) : bool := c <? 128.

Definition to_ascii_uppercase (c : N) : N := if is_ascii_lowercase c then c - 32 else c.

(** [char::is_uppercase] and [char::to_uppercase]. *)
Class UnicodeCase :=
  { char_is_uppercase : N → bool;
    char_to_uppercase : N → rstr;
    char_is_uppercase_ascii c : is_ascii c = true → char_is_uppercase c = is_ascii_uppercase c;
    char_to_uppercase_ascii c : is_ascii c = true → char_to_uppercase c = [to_ascii_uppercase c] }.

(** The tables restricted to ASCII. *)
#[export] Instance ascii_case : UnicodeCase :=
  {| char_is_uppercase := is_ascii_uppercase; char_to_uppercase c := [to_ascii_uppercase c];
     char_is_uppercase_ascii c _ := eq_refl; char_to_uppercase_ascii c _ := eq_refl |}.

(** ** Names of generated items *)

Section naming.
Context `{UnicodeCase}.

(** [first] is true for the character at index 0. *)
Fixpoint snake_chars (first : bool) (input : rstr) : rstr :=
  match input with
  | [] => []
  | ch :: input' =>
      if char_is_uppercase ch && negb first then 95 :: to_ascii_lowercase ch :: snake_chars false input'
      else if (ch =? 45) || (ch =? 32) then 95 :: snake_chars false input'
      else to_ascii_lowercase ch :: snake_chars false input'
  end.

Definition to_snake_case (input : rstr) : rstr := snake_chars true input.

Definition capitalize (part : rstr) : rstr :=
  match part with [] => [] | first :: rest => char_to_uppercase first ++ rest end.

Definition to_pascal_case (input : rstr) : rstr :=
  str_filter nonempty (split_on (λ c, (c =? 95) || (c =? 45) || (c =? 32)) input) ≫= capitalize.

Definition rust_keywords : list rstr :=
  lit <$> ["as"; "break"; "const"; "continue"; "crate"; "else"; "enum"; "extern"; "false"; "fn"; "for";
           "if"; "impl"; "in"; "let"; "loop"; "match"; "mod"; "move"; "mut"; "pub"; "ref"; "return";
           "self"; "Self"; "static"; "struct"; "super"; "trait"; "true"; "type"; "unsafe"; "use";
           "where"; "while"; "async"; "await"; "dyn"; "abstract"; "become"; "box"; "do"; "final";
           "macro"; "override"; "priv"; "try"; "typeof"; "unsized"; "virtual"; "yield"]%string.

Definition is_rust_keyword (ident : rstr) : bool := str_in rust_keywords ident.

Definition rust_identifier (input : rstr) : rstr :=
  let ident := to_snake_case input in
  if is_rust_keyword ident then lit "r#" ++ ident else ident.

(** ** Which names are accepted *)

Definition identifier_tail (chars : rstr) : bool := forallb (λ ch, (ch =? 95) || is_ascii_alphanumeric ch) chars.

Definition is_valid_rust_type_name (name : rstr) : bool :=
  match name with
  | [] => false
  | first :: chars =>
      if str_eqb name (lit "_") then false
      else ((first =? 95) || is_ascii_uppercase first) && identifier_tail chars
  end.

Definition is_valid_rust_field_name (name : rstr) : bool :=
  let name := default name (strip_prefix (lit "r#") name) in
  match name with
  | [] => false
  | first :: chars =>
      if str_eqb name (lit "_") then false
      else ((first =? 95) || is_ascii_lowercase first) && identifier_tail chars
  end.

Definition is_valid_generated_rust_ident (name : rstr) : bool :=
  is_valid_rust_field_name name && str_eqb (rust_identifier name) name.

(** An accepted identifier is no keyword and has no capital. *)
Lemma valid_ident_spec name :
  is_valid_generated_rust_ident name = true →
  is_rust_keyword name = false ∧ Forall (λ c, is_ascii_uppercase c = false) name.
Proof.
  unfold is_valid_generated_rust_ident, rust_identifier. intros [Hf He%str_eqb_eq]%andb_true_iff.
  assert (∀ b s, Forall (λ c, is_ascii_uppercase c = false) (snake_chars b s)) as Hlow.
  { intros b s. revert b. induction s as [|c s IH]; intros b; simpl; [constructor|].
    assert (is_ascii_uppercase (to_ascii_lowercase c) = false) as Hc.
    { unfold to_ascii_lowercase. destruct (is_ascii_uppercase c) eqn:E; [|done].
      unfold is_ascii_uppercase in *. guard_prop. apply andb_false_iff. right. apply N.leb_gt. lia. }
    repeat case_match; repeat constructor; auto. }
  destruct (is_rust_keyword (to_snake_case name)) eqn:Ek.
  - exfalso. assert (∀ b s, (length s ≤ length (snake_chars b s))%nat) as Hlen.
    { intros b s. revert b. induction s as [|c s IH]; intros b; simpl; [done|].
      specialize (IH false). repeat case_match; simpl; lia. }
    apply (f_equal length) in He. rewrite length_app in He. specialize (Hlen true name).
    unfold to_snake_case in He. change (length (lit "r#")) with 2%nat in He. lia.
  - rewrite He in Ek. split; [done|]. rewrite <- He. apply Hlow.
Qed.
End naming.

(** ** Built-in middlewares *)

Inductive BuiltInMiddleware := Auth | Trace | Metrics | RateLimit | Breaker | Shedding | Idempotency.

#[export] Instance BuiltInMiddleware_eq_dec : EqDecision BuiltInMiddleware.
Proof. solve_decision. Defined.

Definition BuiltInMiddleware_parse (raw : rstr) : option BuiltInMiddleware :=
  let name := str_to_ascii_lowercase (trim raw) in
  if str_in [lit "auth"; lit "jwt"] name then Some Auth
  else if str_in [lit "trace"; lit "tracing"] name then Some Trace
  else if str_in [lit "metrics"; lit "metric"] name then Some Metrics
  else if str_in [lit "rate_limit"; lit "ratelimit"; lit "rate"] name then Some RateLimit
  else if str_in [lit "breaker"; lit "circuit_breaker"] name then Some Breaker
  else if str_in [lit "shedding"; lit "load_shedding"] name then Some Shedding
  else if str_in [lit "idempotency"; lit "idempotency_key"] name then Some Idempotency
  else None.

Record MiddlewarePlan := { builtins : list BuiltInMiddleware; custom : list rstr }.

Definition plan_middleware (plan : MiddlewarePlan) (middleware : rstr) : MiddlewarePlan :=
  match BuiltInMiddleware_parse middleware with
  | Some built_in =>
      if bool_decide (built_in ∈ builtins plan) then plan
      else {| builtins := builtins plan ++ [built_in]; custom := custom plan |}
  | None => {| builtins := builtins plan; custom := custom plan ++ [middleware] |}
  end.

Definition resolve_middleware_plan (middlewares : list rstr) : MiddlewarePlan :=
  foldl plan_middleware {| builtins := []; custom := [] |} middlewares.

(** Names that the documentation lists as built in and that become custom hooks. *)
Example documented_builtins_are_custom :
  resolve_middleware_plan [lit "recover"; lit "cors"; lit "jwt"; lit "load_shed"; lit "prometheus"; lit "auth"] =
    {| builtins := [Auth];
       custom := [lit "recover"; lit "cors"; lit "load_shed"; lit "prometheus"] |}.
Proof. vm_compute. reflexivity. Qed.
