(* ===== verification/Contract.v ===== *)
(** * Validation and comparison of contracts (apps/rozectl/src/main.rs)

    [validate_api_spec] lists what is wrong with a contract before code is
    generated from it; [check_contract_breaking_changes] lists what a new
    version breaks for the users of an old one. Both collect messages: nothing
    listed is what the theorems characterise. *)

From S2P Require Import Prelude Text Scan ApiParser ApiFormat ApiRound Naming.

Record ApiValidationIssue := { vi_detail : rstr }.

Definition api_validation_issue (detail : rstr) : ApiValidationIssue := {| vi_detail := detail |}.

(** ** The loops that look for duplicates

    [for a in l { extra(a); if let Some(previous) = seen.insert(key(a), val(a))
    { issue(previous, a) } }]; a set is a map to units. *)

Section for_unique.
Context {A K V I : Type} `{Countable K} (extra : A → list I) (key : A → K) (val : A → V)
  (issue : V → A → list I).

Fixpoint for_unique (seen : gmap K V) (l : list A) : list I :=
  match l with
  | [] => []
  | a :: l' =>
      extra a
      ++ match seen !! key a with Some previous => issue previous a | None => [] end
      ++ for_unique (<[key a := val a]> seen) l'
  end.

Abbreviation fresh seen l := (∀ a, a ∈ l → seen !! key a = None).

(** When every repetition is reported, nothing reported means no repetition. *)
Lemma for_unique_NoDup_seen seen l :
  (∀ v a, issue v a ≠ []) →
  for_unique seen l = [] ↔ (∀ a, a ∈ l → extra a = []) ∧ fresh seen l ∧ NoDup (key <$> l).
Proof.
  intros Hne. revert seen. induction l as [|a l IH]; intros seen.
  { split; [|done]. intros _. split_and!; [by intros a ?%not_elem_of_nil..|constructor]. }
  cbn [for_unique]. rewrite !app_nil, IH, fmap_cons, NoDup_cons. split.
  - intros (He & Hs & Hx & Hf & HN).
    assert (seen !! key a = None) as Ha by (destruct (seen !! key a); [by apply Hne in Hs | done]).
    split_and!; [set_solver| | |done].
    + intros x [->|Hin]%elem_of_cons; [done|]. specialize (Hf x Hin).
      by apply lookup_insert_None in Hf as [].
    + intros (x & Hk & Hin)%list_elem_of_fmap. specialize (Hf x Hin).
      apply lookup_insert_None in Hf as [_ Hf]. by destruct Hf.
  - intros (He & Hf & Hn & HN). split_and!.
    + apply He. by left.
    + by rewrite (Hf a ltac:(by left)).
    + intros x Hx. apply He. by right.
    + intros x Hx. apply lookup_insert_None. split; [apply Hf; by right|].
      intros Hk. apply Hn. rewrite Hk. by apply list_elem_of_fmap_2.
    + done.
Qed.

Abbreviation agrees seen l := (∀ a v, a ∈ l → seen !! key a = Some v → v = val a).

(** When only different values under one key are reported. *)
Lemma for_unique_agree_seen seen l :
  (∀ v a, issue v a = [] ↔ v = val a) →
  for_unique seen l = [] ↔
  (∀ a, a ∈ l → extra a = []) ∧ agrees seen l ∧ (∀ a b, a ∈ l → b ∈ l → key a = key b → val a = val b).
Proof.
  intros Hiff. revert seen. induction l as [|a l IH]; intros seen.
  { split; [|done]. intros _. split_and!; [by intros a ?%not_elem_of_nil|by intros a v ?%not_elem_of_nil|].
    by intros a b ?%not_elem_of_nil. }
  cbn [for_unique]. rewrite !app_nil, IH. split.
  - intros (He & Hs & Hx & Ha & Hp).
    assert (∀ x, x ∈ l → key x = key a → val a = val x) as Hal.
    { intros x Hin Hk. apply Ha; [done|]. by rewrite Hk, lookup_insert_eq. }
    assert (∀ v, seen !! key a = Some v → v = val a) as Hsa.
    { intros v Hv. rewrite Hv in Hs. by apply Hiff. }
    split_and!.
    + set_solver.
    + intros x v [->|Hin]%elem_of_cons Hv; [by apply Hsa|].
      destruct (decide (key a = key x)) as [Hk|Hk].
      * rewrite <- Hal by done. apply Hsa. by rewrite Hk.
      * apply Ha; [done|]. by rewrite lookup_insert_ne.
    + intros x y [->|Hx']%elem_of_cons [->|Hy]%elem_of_cons Hk; [done|by apply Hal|symmetry; by apply Hal|].
      by apply Hp.
  - intros (He & Ha & Hp). split_and!.
    + apply He. by left.
    + destruct (seen !! key a) as [v|] eqn:E; [|done]. apply Hiff, Ha; [by left|done].
    + intros x Hx. apply He. by right.
    + intros x v Hx Hv. destruct (decide (key a = key x)) as [Hk|Hk].
      * rewrite Hk, lookup_insert_eq in Hv. simplify_eq. apply Hp; [by left|by right|done].
      * rewrite lookup_insert_ne in Hv by done. apply Ha; [by right|done].
    + intros x y Hx Hy. apply Hp; by right.
Qed.

Lemma for_unique_NoDup l :
  (∀ v a, issue v a ≠ []) →
  for_unique ∅ l = [] ↔ (∀ a, a ∈ l → extra a = []) ∧ NoDup (key <$> l).
Proof.
  intros Hne. rewrite for_unique_NoDup_seen by done. split; [tauto|]. intros [? ?]. split_and!; [done| |done].
  intros a _. apply lookup_empty.
Qed.

Lemma for_unique_agree l :
  (∀ v a, issue v a = [] ↔ v = val a) →
  for_unique ∅ l = [] ↔
  (∀ a, a ∈ l → extra a = []) ∧ (∀ a b, a ∈ l → b ∈ l → key a = key b → val a = val b).
Proof.
  intros Hiff. rewrite for_unique_agree_seen by done. split; [tauto|]. intros [? ?]. split_and!; [done| |done].
  intros a v _ Hv. by rewrite lookup_empty in Hv.
Qed.
End for_unique.

(** ** Names in messages *)

Definition http_method_name (m : HttpMethod) : rstr :=
  match m with
  | Get => lit "GET" | Head => lit "HEAD" | Post => lit "POST"
  | Put => lit "PUT" | Patch => lit "PATCH" | Delete => lit "DELETE"
  end.

(** [{:?}] of a [FieldSource]. *)
Definition source_debug (s : FieldSource) : rstr :=
  match s with
  | Auto => lit "Auto" | Json => lit "Json" | Query => lit "Query" | Form => lit "Form"
  | PathSource => lit "Path" | Header => lit "Header"
  end.

Definition full_route_path_for_route (spec : ApiSpec) (route : RestRoute) : rstr :=
  let prefix :=
    match rt_server route ≫= sv_prefix with
    | Some p => p
    | None => default [] (server spec ≫= sv_prefix)
    end in
  if str_is_empty prefix then rt_path route
  else trim_end_matches (N.eqb 47) prefix ++ lit "/" ++ trim_start_matches (N.eqb 47) (rt_path route).

Definition rest_route_key (spec : ApiSpec) (route : RestRoute) : rstr :=
  http_method_name (rt_method route) ++ lit " " ++ full_route_path_for_route spec route.

Definition issue (parts : list rstr) : list ApiValidationIssue := [api_validation_issue (concat parts)].

(** ** Uniqueness *)

Definition validate_unique_types (spec : ApiSpec) : list ApiValidationIssue :=
  for_unique (λ _, []) td_name (λ _, ()) (λ _ ty, issue [lit "duplicate type: "; td_name ty]) ∅ (types spec).

#[export] Instance FieldSource_countable : Countable FieldSource.
Proof.
  refine (inj_countable' (λ s, match s with Auto => 0 | Json => 1 | Query => 2 | Form => 3 | PathSource => 4
                                      | Header => 5 end)
    (λ n, match n with 0 => Auto | 1 => Json | 2 => Query | 3 => Form | 4 => PathSource | _ => Header end) _).
  by intros [].
Defined.

(** Both sets of a type are filled in one pass. *)
Fixpoint unique_fields_from (ty : rstr) (seen_names : gset rstr)
    (seen_wire_names : gset (FieldSource * rstr)) (fields : list Field) : list ApiValidationIssue :=
  match fields with
  | [] => []
  | f :: fields' =>
      (if bool_decide (fd_name f ∈ seen_names)
       then issue [lit "duplicate field: "; ty; lit "."; fd_name f] else [])
      ++ (if bool_decide ((fd_source f, field_wire_name f) ∈ seen_wire_names)
          then issue [lit "duplicate wire field: "; ty; lit " "; source_debug (fd_source f); lit " `";
                      field_wire_name f; lit "`"] else [])
      ++ unique_fields_from ty ({[fd_name f]} ∪ seen_names)
           ({[(fd_source f, field_wire_name f)]} ∪ seen_wire_names) fields'
  end.

Definition validate_unique_type_fields (spec : ApiSpec) : list ApiValidationIssue :=
  types spec ≫= λ ty, unique_fields_from (td_name ty) ∅ ∅ (td_fields ty).

Definition validate_unique_rest_routes (spec : ApiSpec) : list ApiValidationIssue :=
  for_unique (λ _, []) (rest_route_key spec) (λ _, ())
    (λ _ r, issue [lit "duplicate REST route: "; rest_route_key spec r]) ∅ (rest_routes spec).

Definition validate_unique_rpc_methods (spec : ApiSpec) : list ApiValidationIssue :=
  for_unique (λ _, []) rpc_name (λ _, ()) (λ _ m, issue [lit "duplicate RPC method: "; rpc_name m]) ∅
    (rpc_methods spec).

(** ** The empty types *)

Definition validate_reserved_empty_types (spec : ApiSpec) : list ApiValidationIssue :=
  let uses_empty_req := uses_type (lit "EmptyReq") (request_types (rest_routes spec) (rpc_methods spec)) in
  let uses_empty_resp := uses_type (lit "EmptyResp") (response_types (rest_routes spec) (rpc_methods spec)) in
  types spec ≫= λ ty,
    let is_used_reserved_empty :=
      (str_eqb (td_name ty) (lit "EmptyReq") && uses_empty_req)
      || (str_eqb (td_name ty) (lit "EmptyResp") && uses_empty_resp) in
    if is_used_reserved_empty && negb (bool_decide (length (td_fields ty) = 0%nat))
    then issue [td_name ty; lit " is reserved for omitted request/response bodies and must not declare fields"]
    else [].

(** ** Generated names *)

Section generated.
Context `{UnicodeCase}.

Definition validate_generated_service_identifiers (spec : ApiSpec) : list ApiValidationIssue :=
  let module_name := to_snake_case (service spec) in
  let service_type := to_pascal_case (service spec) in
  (if is_valid_generated_rust_ident module_name then []
   else issue [lit "service "; service spec; lit " generates invalid Rust module `"; module_name; lit "`"])
  ++ (if is_valid_rust_type_name service_type then []
      else issue [lit "service "; service spec; lit " generates invalid Rust service type `"; service_type; lit "`"]).

Definition validate_generated_type_names (spec : ApiSpec) : list ApiValidationIssue :=
  for_unique
    (λ ty, if is_valid_rust_type_name (td_name ty) then []
           else issue [lit "type "; td_name ty;
                       lit " is not a valid Rust type name; use UpperCamelCase such as ";
                       to_pascal_case (td_name ty)])
    (λ ty, to_pascal_case (td_name ty)) td_name
    (λ previous ty, issue [lit "duplicate generated type name `"; to_pascal_case (td_name ty); lit "`: ";
                           previous; lit " and "; td_name ty])
    ∅ (types spec).

Definition validate_unique_generated_type_fields (spec : ApiSpec) : list ApiValidationIssue :=
  types spec ≫= λ ty,
    for_unique
      (λ f, let generated := rust_identifier (fd_name f) in
            if is_valid_rust_field_name generated then []
            else issue [lit "field "; td_name ty; lit "."; fd_name f;
                        lit " generates invalid Rust field name `"; generated; lit "`"])
      (λ f, rust_identifier (fd_name f)) fd_name
      (λ previous f, issue [lit "duplicate generated field name `"; rust_identifier (fd_name f);
                            lit "` in type "; td_name ty; lit ": "; previous; lit " and "; fd_name f])
      ∅ (td_fields ty).

Definition validation_handler_name (method : HttpMethod) (path : rstr) : rstr :=
  let path_name := trim_matches (N.eqb 47) path in
  let path_name := replace_char (N.eqb 58) [] path_name in
  let path_name := replace_char (λ c, (c =? 123) || (c =? 125)) [] path_name in
  let path_name := replace_char (λ c, (c =? 47) || (c =? 45)) (lit "_") path_name in
  format_api_http_method method ++ lit "_" ++ path_name.

Definition validation_resolved_handler_name (route : RestRoute) : rstr :=
  match rt_handler route with
  | Some handler => to_snake_case handler
  | None => validation_handler_name (rt_method route) (rt_path route)
  end.

Definition validation_route_group_name (route : RestRoute) : rstr :=
  let segment := head (str_filter (λ s, nonempty s && negb (starts_with (lit ":") s))
                         (split_on (N.eqb 47) (rt_path route))) in
  match to_snake_case <$> segment with
  | Some name => if nonempty name then name else lit "base"
  | None => lit "base"
  end.

Definition validate_unique_generated_names (spec : ApiSpec) : list ApiValidationIssue :=
  for_unique (λ _, [])
    (λ r, (validation_route_group_name r, validation_resolved_handler_name r)) (rest_route_key spec)
    (λ previous r, issue [lit "duplicate generated REST handler `"; validation_resolved_handler_name r;
                          lit "` in group `"; validation_route_group_name r; lit "`: "; previous;
                          lit " and "; rest_route_key spec r])
    ∅ (rest_routes spec)
  ++ for_unique (λ _, []) (λ m, to_snake_case (rpc_name m)) rpc_name
       (λ previous m, issue [lit "duplicate generated RPC method `"; to_snake_case (rpc_name m); lit "`: ";
                             previous; lit " and "; rpc_name m])
       ∅ (rpc_methods spec).

Definition validate_generated_rest_rpc_identifiers (spec : ApiSpec) : list ApiValidationIssue :=
  (rest_routes spec ≫= λ r,
     let group := validation_route_group_name r in
     let handler := validation_resolved_handler_name r in
     (if is_valid_generated_rust_ident group then []
      else issue [lit "REST route "; rest_route_key spec r; lit " generates invalid Rust route group `"; group; lit "`"])
     ++ (if is_valid_generated_rust_ident handler then []
         else issue [lit "REST route "; rest_route_key spec r; lit " generates invalid Rust handler `"; handler; lit "`"]))
  ++ (rpc_methods spec ≫= λ m,
        let generated := to_snake_case (rpc_name m) in
        if is_valid_generated_rust_ident generated then []
        else issue [lit "RPC method "; rpc_name m; lit " generates invalid Rust method `"; generated; lit "`"]).

Definition validation_route_middlewares (spec : ApiSpec) (route : RestRoute) : list rstr :=
  match server spec with Some sv => sv_middlewares sv | None => [] end
  ++ match rt_server route with Some sv => sv_middlewares sv | None => [] end
  ++ rt_middlewares route.

(** The nested loop over routes and their middlewares that are not built in. *)
Definition custom_middlewares (spec : ApiSpec) : list (RestRoute * rstr) :=
  filter (λ rm, BuiltInMiddleware_parse rm.2 = None)
    (rest_routes spec ≫= λ r, pair r <$> validation_route_middlewares spec r).

Definition validate_generated_middleware_identifiers (spec : ApiSpec) : list ApiValidationIssue :=
  for_unique
    (λ rm, let generated := to_snake_case rm.2 in
       (if str_eqb generated (lit "app")
        then issue [lit "REST route "; rest_route_key spec rm.1; lit " custom middleware "; rm.2;
                    lit " conflicts with the reserved application middleware module `app`"] else [])
       ++ (if is_valid_generated_rust_ident generated then []
           else issue [lit "REST route "; rest_route_key spec rm.1; lit " custom middleware "; rm.2;
                       lit " generates invalid Rust identifier `"; generated; lit "`"]))
    (λ rm, to_snake_case rm.2) snd
    (λ previous rm, if str_eqb previous rm.2 then []
                    else issue [lit "duplicate generated custom middleware `"; to_snake_case rm.2; lit "`: ";
                                previous; lit " and "; rm.2])
    ∅ (custom_middlewares spec).
End generated.

(** ** Referenced types *)

Definition container_types : list rstr :=
  lit <$> ["Vec"; "vec"; "Option"; "option"; "HashMap"; "hashmap"; "BTreeMap"; "btreemap"; "Map"; "map";
           "List"; "list"]%string.

Definition builtin_api_types : list rstr :=
  lit <$> ["bool"; "Boolean"; "string"; "String"; "str"; "bytes"; "Bytes"; "i8"; "i16"; "i32"; "i64"; "i128";
           "isize"; "u8"; "u16"; "u32"; "u64"; "u128"; "usize"; "f32"; "f64"; "float"; "double"; "json";
           "any"; "int"; "int8"; "int16"; "int32"; "int64"; "integer"; "uint"; "uint8"; "uint16"; "uint32";
           "uint64"; "long"; "datetime"; "DateTime"; "time"; "Time"; "date"; "Date"]%string.

Definition is_builtin_api_type (ty : rstr) : bool := str_in builtin_api_types ty.

Definition type_tokens (ty : rstr) : list rstr :=
  str_filter (λ token, negb (str_in container_types token))
    (str_filter nonempty (split_on (λ ch, negb (is_ascii_alphanumeric ch || (ch =? 95))) ty)).

Definition referenced_custom_type_names (ty : rstr) : list rstr :=
  str_filter (λ token, negb (is_builtin_api_type token)) (type_tokens ty).

Definition validate_named_type (ty : rstr) (type_names : gset rstr) (context : rstr) : list ApiValidationIssue :=
  if bool_decide (ty ∈ type_names) then [] else issue [context; lit " references unknown type: "; ty].

Definition type_name_set (spec : ApiSpec) : gset rstr := list_to_set (td_name <$> types spec).

Definition validate_referenced_types (spec : ApiSpec) : list ApiValidationIssue :=
  let type_names := type_name_set spec in
  (rest_routes spec ≫= λ r,
     validate_named_type (rt_request r) type_names (lit "REST route " ++ rest_route_key spec r ++ lit " request type")
     ++ validate_named_type (rt_response r) type_names (lit "REST route " ++ rest_route_key spec r ++ lit " response type"))
  ++ (rpc_methods spec ≫= λ m,
        validate_named_type (rpc_request m) type_names (lit "RPC method " ++ rpc_name m ++ lit " request type")
        ++ validate_named_type (rpc_response m) type_names (lit "RPC method " ++ rpc_name m ++ lit " response type"))
  ++ (types spec ≫= λ ty, td_fields ty ≫= λ f,
        referenced_custom_type_names (fd_ty f) ≫= λ referenced,
          if bool_decide (referenced ∈ type_names) then []
          else issue [lit "field "; td_name ty; lit "."; fd_name f; lit " references unknown type: "; referenced]).

(** ** Path parameters *)

Record RoutePathParam := { raw : rstr; normalized : rstr }.

Definition normalize_path_ident (input : rstr) : rstr := replace_char (N.eqb 45) (lit "_") input.

Definition push_route_path_param (params : list RoutePathParam) (raw : rstr) : list RoutePathParam :=
  let raw := take_until (λ c, (c =? 63) || (c =? 35)) raw in
  if str_is_empty raw then params
  else params ++ [{| raw := raw; normalized := normalize_path_ident raw |}].

(** The position of the iterator: between parameters, after a colon, or inside
    braces, with the characters taken so far, reversed. *)
Inductive param_mode := Outside | AfterColon (rraw : rstr) | InBraces (rraw : rstr).

Fixpoint params_from (mode : param_mode) (params : list RoutePathParam) (chars : rstr) : list RoutePathParam :=
  match chars with
  | [] =>
      match mode with
      | Outside => params
      | AfterColon rraw | InBraces rraw => push_route_path_param params (reverse rraw)
      end
  | ch :: chars' =>
      match mode with
      | Outside =>
          if ch =? 58 then params_from (AfterColon []) params chars'
          else if ch =? 123 then params_from (InBraces []) params chars'
          else params_from Outside params chars'
      | AfterColon rraw =>
          if ch =? 47 then params_from Outside (push_route_path_param params (reverse rraw)) chars'
          else params_from (AfterColon (ch :: rraw)) params chars'
      | InBraces rraw =>
          if ch =? 125 then params_from Outside (push_route_path_param params (reverse rraw)) chars'
          else params_from (InBraces (ch :: rraw)) params chars'
      end
  end.

Definition route_path_params (path : rstr) : list RoutePathParam := params_from Outside [] path.

(** [iter().map(|a| (key(a), a)).collect::<BTreeMap<_, _>>()]: the last of each key. *)
Definition by_key {A} (key : A → rstr) (l : list A) : gmap rstr A :=
  foldl (λ m a, <[key a := a]> m) ∅ l.

Definition path_fields (ty : TypeDef) : list (rstr * rstr) :=
  (λ f, (field_wire_name f, normalize_path_ident (field_wire_name f)))
    <$> filter (λ f, fd_source f = PathSource) (td_fields ty).

Definition validate_path_params_of (spec : ApiSpec) (r : RestRoute) : list ApiValidationIssue :=
  let required_params := route_path_params (rt_path r) in
  for_unique (λ _, []) normalized raw
    (λ previous p, issue [lit "REST route "; rest_route_key spec r; lit " has duplicate path parameter `";
                          previous; lit "` and `"; raw p; lit "`"])
    ∅ required_params
  ++ match by_key td_name (types spec) !! rt_request r with
     | None => []
     | Some request_ty =>
         let declared_params := path_fields request_ty in
         (required_params ≫= λ p,
            if bool_decide (normalized p ∈ snd <$> declared_params) then []
            else issue [lit "REST route "; rest_route_key spec r; lit " path parameter `:"; raw p;
                        lit "` is missing from "; rt_request r; lit " as a path field"])
         ++ (declared_params ≫= λ d,
               if bool_decide (d.2 ∈ normalized <$> required_params) then []
               else issue [lit "REST route "; rest_route_key spec r; lit " request type "; rt_request r;
                           lit " declares path field `"; d.1; lit "` that is not present in the route path"])
     end.

Definition validate_route_path_params (spec : ApiSpec) : list ApiValidationIssue :=
  rest_routes spec ≫= validate_path_params_of spec.

(** ** Transports *)

Definition uses_idempotency (spec : ApiSpec) (r : RestRoute) : bool :=
  existsb (λ m, eq_ignore_ascii_case m (lit "idempotency")) (validation_route_middlewares spec r).

Definition validate_websocket_routes (spec : ApiSpec) : list ApiValidationIssue :=
  filter (λ r, rt_websocket r = true) (rest_routes spec) ≫= λ r,
    (if bool_decide (rt_method r = Get) then []
     else issue [lit "WebSocket route "; rest_route_key spec r; lit " must use GET"])
    ++ (if str_eqb (rt_request r) (lit "EmptyReq") then []
        else issue [lit "WebSocket route "; rest_route_key spec r;
                    lit " cannot declare an HTTP request body; use EmptyReq"])
    ++ (if str_eqb (rt_response r) (lit "EmptyResp") then []
        else issue [lit "WebSocket route "; rest_route_key spec r;
                    lit " cannot declare an HTTP response body; use EmptyResp"])
    ++ (if uses_idempotency spec r
        then issue [lit "WebSocket route "; rest_route_key spec r; lit " cannot use idempotency middleware"]
        else []).

Definition validate_maud_routes (spec : ApiSpec) : list ApiValidationIssue :=
  filter (λ r, rt_maud r = true) (rest_routes spec) ≫= λ r,
    (if str_eqb (rt_response r) (lit "EmptyResp") then []
     else issue [lit "Maud route "; rest_route_key spec r; lit " renders maud::Markup and must use EmptyResp"])
    ++ (if uses_idempotency spec r
        then issue [lit "Maud route "; rest_route_key spec r; lit " cannot use idempotency middleware"]
        else []).

Definition validate_api_spec `{UnicodeCase} (spec : ApiSpec) : list ApiValidationIssue :=
  validate_unique_types spec
  ++ validate_unique_type_fields spec
  ++ validate_reserved_empty_types spec
  ++ validate_generated_service_identifiers spec
  ++ validate_generated_type_names spec
  ++ validate_unique_generated_type_fields spec
  ++ validate_unique_rest_routes spec
  ++ validate_unique_rpc_methods spec
  ++ validate_unique_generated_names spec
  ++ validate_generated_rest_rpc_identifiers spec
  ++ validate_generated_middleware_identifiers spec
  ++ validate_referenced_types spec
  ++ validate_route_path_params spec
  ++ validate_websocket_routes spec
  ++ validate_maud_routes spec.

(** ** Breaking changes *)

Inductive ContractIssueKind := Breaking.
Record ContractIssue := { ci_kind : ContractIssueKind; ci_detail : rstr }.
Definition breaking (parts : list rstr) : list ContractIssue :=
  [{| ci_kind := Breaking; ci_detail := concat parts |}].

Definition transport_name (websocket : bool) : rstr := if websocket then lit "WebSocket" else lit "HTTP".
Definition representation_name (maud : bool) : rstr := if maud then lit "Maud HTML" else lit "JSON".

Definition changed (old new : rstr) : list rstr := [old; lit " -> "; new].

Definition check_rest_routes (old_spec new_spec : ApiSpec) : list ContractIssue :=
  let new_routes := by_key (rest_route_key new_spec) (rest_routes new_spec) in
  rest_routes old_spec ≫= λ old_route,
    let key := rest_route_key old_spec old_route in
    match new_routes !! key with
    | None => breaking [lit "REST route removed or changed: "; key]
    | Some new_route =>
        (if str_eqb (rt_request old_route) (rt_request new_route) then []
         else breaking ([lit "REST route "; key; lit " request type changed: "]
                        ++ changed (rt_request old_route) (rt_request new_route)))
        ++ (if str_eqb (rt_response old_route) (rt_response new_route) then []
            else breaking ([lit "REST route "; key; lit " response type changed: "]
                           ++ changed (rt_response old_route) (rt_response new_route)))
        ++ (if Bool.eqb (rt_websocket old_route) (rt_websocket new_route) then []
            else breaking ([lit "REST route "; key; lit " transport changed: "]
                           ++ changed (transport_name (rt_websocket old_route))
                                (transport_name (rt_websocket new_route))))
        ++ (if Bool.eqb (rt_maud old_route) (rt_maud new_route) then []
            else breaking ([lit "REST route "; key; lit " response representation changed: "]
                           ++ changed (representation_name (rt_maud old_route))
                                (representation_name (rt_maud new_route))))
    end.

Definition check_rpc_methods (old_spec new_spec : ApiSpec) : list ContractIssue :=
  let new_methods := by_key rpc_name (rpc_methods new_spec) in
  rpc_methods old_spec ≫= λ old_method,
    match new_methods !! rpc_name old_method with
    | None => breaking [lit "RPC method removed: "; rpc_name old_method]
    | Some new_method =>
        (if str_eqb (rpc_request old_method) (rpc_request new_method) then []
         else breaking ([lit "RPC method "; rpc_name old_method; lit " request type changed: "]
                        ++ changed (rpc_request old_method) (rpc_request new_method)))
        ++ (if str_eqb (rpc_response old_method) (rpc_response new_method) then []
            else breaking ([lit "RPC method "; rpc_name old_method; lit " response type changed: "]
                           ++ changed (rpc_response old_method) (rpc_response new_method)))
    end.

Definition contract_field_key (f : Field) : rstr := field_wire_name f.

Definition has_contract_rule (rules name : rstr) : bool :=
  existsb (λ rule, str_eqb rule name
                   || match strip_prefix name rule with
                      | Some rest => starts_with (lit "=") rest
                      | None => false
                      end)
    (trim <$> split_on (N.eqb 44) rules).

Definition is_optional_field (f : Field) : bool :=
  match fd_validate f with
  | Some rules => has_contract_rule rules (lit "optional") || has_contract_rule rules (lit "omitempty")
  | None => false
  end.

Definition check_fields (old_ty new_ty : TypeDef) : list ContractIssue :=
  let new_fields := by_key contract_field_key (td_fields new_ty) in
  let old_fields := by_key contract_field_key (td_fields old_ty) in
  (td_fields old_ty ≫= λ old_field,
     match new_fields !! contract_field_key old_field with
     | None => breaking [lit "field removed: "; td_name old_ty; lit "."; fd_name old_field]
     | Some new_field =>
         (if str_eqb (fd_ty old_field) (fd_ty new_field) then []
          else breaking ([lit "field type changed: "; td_name old_ty; lit "."; fd_name old_field; lit " "]
                         ++ changed (fd_ty old_field) (fd_ty new_field)))
         ++ (if bool_decide (fd_source old_field = fd_source new_field) then []
             else breaking ([lit "field source changed: "; td_name old_ty; lit "."; fd_name old_field; lit " "]
                            ++ changed (source_debug (fd_source old_field)) (source_debug (fd_source new_field))))
     end)
  ++ (td_fields new_ty ≫= λ new_field,
        match old_fields !! contract_field_key new_field with
        | Some _ => []
        | None => if is_optional_field new_field then []
                  else breaking [lit "required field added: "; td_name new_ty; lit "."; fd_name new_field]
        end).

Definition check_types (old_spec new_spec : ApiSpec) : list ContractIssue :=
  let new_types := by_key td_name (types new_spec) in
  types old_spec ≫= λ old_ty,
    match new_types !! td_name old_ty with
    | None => breaking [lit "type removed: "; td_name old_ty]
    | Some new_ty => check_fields old_ty new_ty
    end.

Definition check_contract_breaking_changes (old_spec new_spec : ApiSpec) : list ContractIssue :=
  check_rest_routes old_spec new_spec ++ check_rpc_methods old_spec new_spec
  ++ check_types old_spec new_spec.

(** ** Lemmas on the loops *)

Lemma bind_nil {A B} (f : A → list B) (l : list A) : l ≫= f = [] ↔ ∀ a, a ∈ l → f a = [].
Proof.
  induction l as [|a l IH]; [split; [by intros _ a ?%not_elem_of_nil | done]|].
  rewrite bind_cons, app_nil, IH. setoid_rewrite elem_of_cons. naive_solver.
Qed.

Lemma if_nil {A} (b : bool) (l : list A) : l ≠ [] → (if b then [] else l) = [] ↔ b = true.
Proof. by destruct b. Qed.

Lemma if_nil_neg {A} (b : bool) (l : list A) : l ≠ [] → (if b then l else []) = [] ↔ b = false.
Proof. by destruct b. Qed.

Lemma issue_nonempty parts : issue parts ≠ [].
Proof. done. Qed.

Lemma breaking_nonempty parts : breaking parts ≠ [].
Proof. done. Qed.

Lemma by_key_seen {A} (key : A → rstr) (l : list A) (m : gmap rstr A) k :
  foldl (λ m a, <[key a := a]> m) m l !! k =
    match last (filter (λ a, key a = k) l) with Some a => Some a | None => m !! k end.
Proof.
  revert m. induction l as [|a l IH]; intros m; [done|]. cbn [foldl]. rewrite IH, filter_cons.
  destruct (decide (key a = k)) as [<-|Hne].
  - rewrite last_cons, lookup_insert_eq. by destruct (last _).
  - by rewrite lookup_insert_ne.
Qed.

Lemma by_key_lookup {A} (key : A → rstr) (l : list A) k :
  by_key key l !! k = last (filter (λ a, key a = k) l).
Proof. unfold by_key. rewrite by_key_seen, lookup_empty. by destruct (last _). Qed.

(** Without repeated keys the map is the list. *)
Lemma by_key_NoDup {A} (key : A → rstr) (l : list A) k a :
  NoDup (key <$> l) → by_key key l !! k = Some a ↔ a ∈ l ∧ key a = k.
Proof.
  intros HN. rewrite by_key_lookup. split.
  - intros Hl%last_Some_elem_of. by apply list_elem_of_filter in Hl as [? ?].
  - intros [Ha Hk]. induction l as [|x l IH]; [by apply not_elem_of_nil in Ha|].
    rewrite fmap_cons in HN. apply NoDup_cons in HN as [Hn HN]. rewrite filter_cons.
    apply elem_of_cons in Ha as [<-|Ha].
    + rewrite decide_True by done. assert (filter (λ a0, key a0 = k) l = []) as ->; [|done].
      destruct (filter _ l) as [|y ys] eqn:E; [done|]. exfalso.
      assert (y ∈ filter (λ a0, key a0 = k) l) as Hy by (rewrite E; by left).
      apply list_elem_of_filter in Hy as [Hyk Hy]. apply Hn. rewrite Hk, <- Hyk. by apply list_elem_of_fmap_2.
    + rewrite decide_False; [by apply IH|]. intros Hx. apply Hn. rewrite Hx, <- Hk. by apply list_elem_of_fmap_2.
Qed.

Lemma by_key_None {A} (key : A → rstr) (l : list A) k : by_key key l !! k = None ↔ k ∉ key <$> l.
Proof.
  rewrite by_key_lookup, last_None. split.
  - intros Hf (a & -> & Ha)%list_elem_of_fmap.
    assert (a ∈ filter (λ a0, key a0 = key a) l) as Hin by by apply list_elem_of_filter.
    rewrite Hf in Hin. by apply not_elem_of_nil in Hin.
  - intros Hn. destruct (filter _ l) as [|y ys] eqn:E; [done|]. destruct Hn.
    assert (y ∈ filter (λ a, key a = k) l) as Hy by (rewrite E; by left).
    apply list_elem_of_filter in Hy as [<- Hy]. by apply list_elem_of_fmap_2.
Qed.

(** ** What the validator accepts *)

Section well_formed.
Context `{UnicodeCase}.

Definition custom_middleware (spec : ApiSpec) (m : rstr) : Prop :=
  (∃ r, r ∈ rest_routes spec ∧ m ∈ validation_route_middlewares spec r) ∧ BuiltInMiddleware_parse m = None.

Record well_formed (spec : ApiSpec) : Prop :=
  { wf_types : NoDup (td_name <$> types spec);
    wf_fields ty : ty ∈ types spec →
      NoDup (fd_name <$> td_fields ty) ∧ NoDup ((λ f, (fd_source f, field_wire_name f)) <$> td_fields ty);
    wf_empty ty : ty ∈ types spec →
      (td_name ty = lit "EmptyReq" ∧ td_name ty ∈ request_types (rest_routes spec) (rpc_methods spec)) ∨
      (td_name ty = lit "EmptyResp" ∧ td_name ty ∈ response_types (rest_routes spec) (rpc_methods spec)) →
      td_fields ty = [];
    wf_service : is_valid_generated_rust_ident (to_snake_case (service spec)) = true ∧
      is_valid_rust_type_name (to_pascal_case (service spec)) = true;
    wf_type_names : (∀ ty, ty ∈ types spec → is_valid_rust_type_name (td_name ty) = true) ∧
      NoDup ((λ ty, to_pascal_case (td_name ty)) <$> types spec);
    wf_field_names ty : ty ∈ types spec →
      (∀ f, f ∈ td_fields ty → is_valid_rust_field_name (rust_identifier (fd_name f)) = true) ∧
      NoDup ((λ f, rust_identifier (fd_name f)) <$> td_fields ty);
    wf_routes : NoDup (rest_route_key spec <$> rest_routes spec);
    wf_methods : NoDup (rpc_name <$> rpc_methods spec);
    wf_handlers : NoDup ((λ r, (validation_route_group_name r, validation_resolved_handler_name r)) <$> rest_routes spec) ∧
      NoDup ((λ m, to_snake_case (rpc_name m)) <$> rpc_methods spec);
    wf_identifiers :
      (∀ r, r ∈ rest_routes spec → is_valid_generated_rust_ident (validation_route_group_name r) = true ∧
         is_valid_generated_rust_ident (validation_resolved_handler_name r) = true) ∧
      (∀ m, m ∈ rpc_methods spec → is_valid_generated_rust_ident (to_snake_case (rpc_name m)) = true);
    wf_middlewares :
      (∀ m, custom_middleware spec m →
         to_snake_case m ≠ lit "app" ∧ is_valid_generated_rust_ident (to_snake_case m) = true) ∧
      (∀ m m', custom_middleware spec m → custom_middleware spec m' → to_snake_case m = to_snake_case m' → m = m');
    wf_references :
      (∀ t, t ∈ request_types (rest_routes spec) (rpc_methods spec) → t ∈ td_name <$> types spec) ∧
      (∀ t, t ∈ response_types (rest_routes spec) (rpc_methods spec) → t ∈ td_name <$> types spec) ∧
      (∀ ty f t, ty ∈ types spec → f ∈ td_fields ty → t ∈ referenced_custom_type_names (fd_ty f) →
         t ∈ td_name <$> types spec);
    wf_params r : r ∈ rest_routes spec →
      NoDup (normalized <$> route_path_params (rt_path r)) ∧
      (∀ ty n, ty ∈ types spec → td_name ty = rt_request r →
         n ∈ normalized <$> route_path_params (rt_path r) ↔ n ∈ snd <$> path_fields ty);
    wf_websockets r : r ∈ rest_routes spec → rt_websocket r = true →
      rt_method r = Get ∧ rt_request r = lit "EmptyReq" ∧ rt_response r = lit "EmptyResp" ∧
      uses_idempotency spec r = false;
    wf_pages r : r ∈ rest_routes spec → rt_maud r = true →
      rt_response r = lit "EmptyResp" ∧ uses_idempotency spec r = false }.

Lemma unique_types_spec spec : validate_unique_types spec = [] ↔ NoDup (td_name <$> types spec).
Proof. unfold validate_unique_types. rewrite for_unique_NoDup by done. tauto. Qed.

Lemma unique_fields_spec ty s1 s2 l :
  unique_fields_from ty s1 s2 l = [] ↔
  (NoDup (fd_name <$> l) ∧ ∀ f, f ∈ l → fd_name f ∉ s1) ∧
  (NoDup ((λ f, (fd_source f, field_wire_name f)) <$> l) ∧ ∀ f, f ∈ l → (fd_source f, field_wire_name f) ∉ s2).
Proof.
  revert s1 s2. induction l as [|f l IH]; intros s1 s2.
  { split; [|done]. intros _. split; (split; [constructor|]); by intros f ?%not_elem_of_nil. }
  cbn [unique_fields_from]. rewrite !app_nil, IH, !if_nil_neg, !bool_decide_eq_false by apply issue_nonempty.
  rewrite !fmap_cons, !NoDup_cons. setoid_rewrite elem_of_union. setoid_rewrite elem_of_singleton.
  split.
  - intros (Hn & Hw & [[HN1 Hs1] [HN2 Hs2]]). split_and!.
    + intros (g & Hg & Hin)%list_elem_of_fmap. destruct (Hs1 g Hin). by left.
    + done.
    + intros g [->|Hin]%elem_of_cons; [done|]. intros Hg. destruct (Hs1 g Hin). by right.
    + intros (g & Hg & Hin)%list_elem_of_fmap. destruct (Hs2 g Hin). by left.
    + done.
    + intros g [->|Hin]%elem_of_cons; [done|]. intros Hg. destruct (Hs2 g Hin). by right.
  - intros ([[Hn1 HN1] Hs1] & [[Hn2 HN2] Hs2]). split_and!; [apply Hs1; by left|apply Hs2; by left|done| |done|].
    + intros g Hin [Hg|Hg]; [|by apply (Hs1 g); [right|]]. apply Hn1, list_elem_of_fmap. eauto.
    + intros g Hin [Hg|Hg]; [|by apply (Hs2 g); [right|]]. apply Hn2, list_elem_of_fmap. eauto.
Qed.

Lemma unique_type_fields_spec spec :
  validate_unique_type_fields spec = [] ↔
  ∀ ty, ty ∈ types spec →
    NoDup (fd_name <$> td_fields ty) ∧ NoDup ((λ f, (fd_source f, field_wire_name f)) <$> td_fields ty).
Proof.
  unfold validate_unique_type_fields. rewrite bind_nil. setoid_rewrite unique_fields_spec.
  split; intros Hall ty Hty; destruct (Hall ty Hty) as [H1 H2]; [tauto|].
  split; (split; [done|]); intros f _; apply not_elem_of_empty.
Qed.

Lemma reserved_spec spec :
  validate_reserved_empty_types spec = [] ↔
  ∀ ty, ty ∈ types spec →
      (td_name ty = lit "EmptyReq" ∧ td_name ty ∈ request_types (rest_routes spec) (rpc_methods spec)) ∨
      (td_name ty = lit "EmptyResp" ∧ td_name ty ∈ response_types (rest_routes spec) (rpc_methods spec)) →
      td_fields ty = [].
Proof.
  unfold validate_reserved_empty_types, uses_type. rewrite bind_nil.
  apply forall_proper. intros ty. rewrite if_nil_neg by apply issue_nonempty.
  rewrite andb_false_iff, orb_false_iff, !andb_false_iff, negb_false_iff, bool_decide_eq_true, !str_eqb_neq.
  rewrite length_zero_iff_nil.
  destruct (str_in (request_types _ _) (lit "EmptyReq")) eqn:Eq; destruct (str_in (response_types _ _) (lit "EmptyResp")) eqn:Ep;
    rewrite <- ?not_true_iff_false, ?str_in_spec in *.
  all: split; [intros Hx Hty [[Ht Hin]|[Ht Hin]]; rewrite Ht in *; naive_solver|].
  all: intros Hx Hty; specialize (Hx Hty).
  all: destruct (decide (td_name ty = lit "EmptyReq")) as [Ht|], (decide (td_name ty = lit "EmptyResp")) as [Ht'|];
    rewrite ?Ht, ?Ht' in *; naive_solver.
Qed.

(** The checks that report at most one issue per element. *)
Ltac nil_checks :=
  rewrite ?app_nil, ?if_nil, ?if_nil_neg by first [apply issue_nonempty | apply breaking_nonempty].

Lemma service_identifiers_spec spec :
  validate_generated_service_identifiers spec = [] ↔
  is_valid_generated_rust_ident (to_snake_case (service spec)) = true ∧
  is_valid_rust_type_name (to_pascal_case (service spec)) = true.
Proof. unfold validate_generated_service_identifiers. cbv zeta. by nil_checks. Qed.

Lemma type_names_spec spec :
  validate_generated_type_names spec = [] ↔
  (∀ ty, ty ∈ types spec → is_valid_rust_type_name (td_name ty) = true) ∧
  NoDup ((λ ty, to_pascal_case (td_name ty)) <$> types spec).
Proof.
  unfold validate_generated_type_names. rewrite for_unique_NoDup by done.
  f_equiv. apply forall_proper. intros ty. by nil_checks.
Qed.

Lemma field_names_spec spec :
  validate_unique_generated_type_fields spec = [] ↔
  ∀ ty, ty ∈ types spec →
    (∀ f, f ∈ td_fields ty → is_valid_rust_field_name (rust_identifier (fd_name f)) = true) ∧
    NoDup ((λ f, rust_identifier (fd_name f)) <$> td_fields ty).
Proof.
  unfold validate_unique_generated_type_fields. rewrite bind_nil. apply forall_proper. intros ty.
  rewrite for_unique_NoDup by done. cbv zeta. by setoid_rewrite if_nil; [|apply issue_nonempty].
Qed.

Lemma rest_routes_spec spec : validate_unique_rest_routes spec = [] ↔ NoDup (rest_route_key spec <$> rest_routes spec).
Proof. unfold validate_unique_rest_routes. rewrite for_unique_NoDup by done. tauto. Qed.

Lemma rpc_methods_spec spec : validate_unique_rpc_methods spec = [] ↔ NoDup (rpc_name <$> rpc_methods spec).
Proof. unfold validate_unique_rpc_methods. rewrite for_unique_NoDup by done. tauto. Qed.

Lemma generated_names_spec spec :
  validate_unique_generated_names spec = [] ↔
  NoDup ((λ r, (validation_route_group_name r, validation_resolved_handler_name r)) <$> rest_routes spec) ∧
  NoDup ((λ m, to_snake_case (rpc_name m)) <$> rpc_methods spec).
Proof. unfold validate_unique_generated_names. rewrite app_nil, !for_unique_NoDup by done. tauto. Qed.

Lemma identifiers_spec spec :
  validate_generated_rest_rpc_identifiers spec = [] ↔
  (∀ r, r ∈ rest_routes spec → is_valid_generated_rust_ident (validation_route_group_name r) = true ∧
     is_valid_generated_rust_ident (validation_resolved_handler_name r) = true) ∧
  (∀ m, m ∈ rpc_methods spec → is_valid_generated_rust_ident (to_snake_case (rpc_name m)) = true).
Proof.
  unfold validate_generated_rest_rpc_identifiers. rewrite app_nil, !bind_nil. cbv zeta.
  f_equiv; apply forall_proper; intros x; by nil_checks.
Qed.

Lemma custom_middlewares_spec spec m :
  custom_middleware spec m ↔ ∃ r, (r, m) ∈ custom_middlewares spec.
Proof.
  unfold custom_middleware, custom_middlewares. setoid_rewrite list_elem_of_filter.
  setoid_rewrite list_elem_of_bind. setoid_rewrite list_elem_of_fmap. cbn. naive_solver.
Qed.

Lemma middlewares_spec spec :
  validate_generated_middleware_identifiers spec = [] ↔
  (∀ m, custom_middleware spec m →
     to_snake_case m ≠ lit "app" ∧ is_valid_generated_rust_ident (to_snake_case m) = true) ∧
  (∀ m m', custom_middleware spec m → custom_middleware spec m' → to_snake_case m = to_snake_case m' → m = m').
Proof.
  unfold validate_generated_middleware_identifiers. setoid_rewrite custom_middlewares_spec.
  rewrite for_unique_agree; [|intros v [r m]; cbn; rewrite if_nil by apply issue_nonempty; apply str_eqb_eq].
  cbv zeta. split.
  - intros [He Ha]. split.
    + intros m [r Hr]. specialize (He _ Hr). cbn in He.
      rewrite app_nil, if_nil, if_nil_neg, str_eqb_neq in He by apply issue_nonempty. done.
    + intros m m' [r Hr] [r' Hr'] Hk. by apply (Ha (r, m) (r', m')).
  - intros [He Ha]. split.
    + intros [r m] Hin. cbn. rewrite app_nil, if_nil, if_nil_neg, str_eqb_neq by apply issue_nonempty.
      apply He. eauto.
    + intros [r m] [r' m'] Hin Hin' Hk. cbn in *. apply Ha; eauto.
Qed.

Lemma elem_type_names spec t : t ∈ type_name_set spec ↔ t ∈ td_name <$> types spec.
Proof. apply elem_of_list_to_set. Qed.

Lemma named_type_spec ty spec ctx : validate_named_type ty (type_name_set spec) ctx = [] ↔ ty ∈ td_name <$> types spec.
Proof.
  unfold validate_named_type. rewrite if_nil by apply issue_nonempty.
  by rewrite bool_decide_eq_true, elem_type_names.
Qed.

Lemma references_spec spec :
  validate_referenced_types spec = [] ↔
  (∀ t, t ∈ request_types (rest_routes spec) (rpc_methods spec) → t ∈ td_name <$> types spec) ∧
  (∀ t, t ∈ response_types (rest_routes spec) (rpc_methods spec) → t ∈ td_name <$> types spec) ∧
  (∀ ty f t, ty ∈ types spec → f ∈ td_fields ty → t ∈ referenced_custom_type_names (fd_ty f) →
     t ∈ td_name <$> types spec).
Proof.
  unfold validate_referenced_types, request_types, response_types. cbv zeta. rewrite !app_nil, !bind_nil.
  setoid_rewrite app_nil. setoid_rewrite named_type_spec. setoid_rewrite elem_of_app.
  setoid_rewrite (list_elem_of_fmap rt_request). setoid_rewrite (list_elem_of_fmap rpc_request).
  setoid_rewrite (list_elem_of_fmap rt_response). setoid_rewrite (list_elem_of_fmap rpc_response).
  setoid_rewrite bind_nil. setoid_rewrite bind_nil.
  setoid_rewrite if_nil; [|apply issue_nonempty].
  setoid_rewrite bool_decide_eq_true. setoid_rewrite elem_type_names.
  split; [|naive_solver].
  intros (Hr & Hm & Ht). split_and!; [intros t [(r & -> & Hin)|(m & -> & Hin)]..|eauto].
  - by apply Hr. - by apply Hm. - by apply Hr. - by apply Hm.
Qed.

(** Required and declared parameters agree. *)
Lemma params_agree (required : list RoutePathParam) (declared : list (rstr * rstr)) f g :
  (∀ p, f p ≠ []) → (∀ d, g d ≠ []) →
  (required ≫= λ p, if bool_decide (normalized p ∈ snd <$> declared) then [] else f p)
  ++ (declared ≫= λ d, if bool_decide (d.2 ∈ normalized <$> required) then [] else g d)
    = ([] : list ApiValidationIssue) ↔
  ∀ n, n ∈ normalized <$> required ↔ n ∈ snd <$> declared.
Proof.
  intros Hf Hg. rewrite app_nil, !bind_nil.
  setoid_rewrite if_nil; [|done..]. setoid_rewrite bool_decide_eq_true. split.
  - intros [Hr Hd] n. split; intros (x & -> & Hin)%list_elem_of_fmap; auto.
  - intros Hn. split; intros x Hin; apply Hn; by apply list_elem_of_fmap_2.
Qed.

Lemma params_spec spec :
  NoDup (td_name <$> types spec) →
  validate_route_path_params spec = [] ↔
  ∀ r, r ∈ rest_routes spec →
    NoDup (normalized <$> route_path_params (rt_path r)) ∧
    (∀ ty n, ty ∈ types spec → td_name ty = rt_request r →
       n ∈ normalized <$> route_path_params (rt_path r) ↔ n ∈ snd <$> path_fields ty).
Proof.
  intros HN. unfold validate_route_path_params. rewrite bind_nil. apply forall_proper. intros r.
  unfold validate_path_params_of. rewrite app_nil, for_unique_NoDup by done. cbv zeta.
  pose proof (λ ty, by_key_NoDup td_name (types spec) (rt_request r) ty HN) as Hkey.
  destruct (by_key td_name (types spec) !! rt_request r) as [rty|].
  - destruct (proj1 (Hkey rty) eq_refl) as [Hin Hname]. rewrite params_agree by done. split.
    + intros Hx Hr. destruct (Hx Hr) as [[_ HND] Hag]. split; [done|]. intros ty n Hty Ht.
      assert (Some rty = Some ty) as [= <-] by by apply Hkey. apply Hag.
    + intros Hx Hr. destruct (Hx Hr) as [HND Hag]. split; [by split|].
      intros n. exact (Hag rty n Hin Hname).
  - split.
    + intros Hx Hr. destruct (Hx Hr) as [[_ HND] _]. split; [done|]. intros ty n Hty Ht.
      assert (None = Some ty) as [=] by by apply Hkey.
    + intros Hx Hr. destruct (Hx Hr) as [HND _]. split; [|done]. by split.
Qed.

Lemma websockets_spec spec :
  validate_websocket_routes spec = [] ↔
  ∀ r, r ∈ rest_routes spec → rt_websocket r = true →
    rt_method r = Get ∧ rt_request r = lit "EmptyReq" ∧ rt_response r = lit "EmptyResp" ∧
    uses_idempotency spec r = false.
Proof.
  unfold validate_websocket_routes. rewrite bind_nil. setoid_rewrite list_elem_of_filter.
  apply forall_proper. intros r. nil_checks. rewrite bool_decide_eq_true, !str_eqb_eq. tauto.
Qed.

Lemma pages_spec spec :
  validate_maud_routes spec = [] ↔
  ∀ r, r ∈ rest_routes spec → rt_maud r = true →
    rt_response r = lit "EmptyResp" ∧ uses_idempotency spec r = false.
Proof.
  unfold validate_maud_routes. rewrite bind_nil. setoid_rewrite list_elem_of_filter.
  apply forall_proper. intros r. nil_checks. rewrite !str_eqb_eq. tauto.
Qed.

Lemma validated_iff spec : validate_api_spec spec = [] ↔ well_formed spec.
Proof.
  unfold validate_api_spec. rewrite !app_nil, unique_types_spec, unique_type_fields_spec, reserved_spec,
    service_identifiers_spec, type_names_spec, field_names_spec, rest_routes_spec, rpc_methods_spec,
    generated_names_spec, identifiers_spec, middlewares_spec, references_spec, websockets_spec, pages_spec.
  split.
  - intros (Ht & ? & ? & ? & ? & ? & ? & ? & ? & ? & ? & ? & Hp & ? & ?).
    rewrite params_spec in Hp by done. by constructor.
  - intros []. rewrite params_spec by done. do 14 (split; [assumption|]). assumption.
Qed.

(** C14: the validator accepts exactly the well-formed contracts. It reports
    nothing if and only if types, fields, routes, methods and every name that
    will be generated from them are unique and valid Rust, custom middlewares
    have their own valid modules, every referenced type is declared, the path
    parameters of each route are exactly the path fields of its request, and
    websocket and page routes have no bodies. *)
Theorem validate_api_spec_correct spec : validate_api_spec spec = [] ↔ well_formed spec.
Proof. apply validated_iff. Qed.
End well_formed.

(** ** What a new version keeps *)

Record same_route (r r' : RestRoute) : Prop :=
  { sr_request : rt_request r = rt_request r'; sr_response : rt_response r = rt_response r';
    sr_websocket : rt_websocket r = rt_websocket r'; sr_maud : rt_maud r = rt_maud r' }.

(** Every field is still there under its wire name (the last declared one, if
    several share it), and what is new is optional. *)
Record fields_compatible (ty ty' : TypeDef) : Prop :=
  { fc_kept f : f ∈ td_fields ty →
      ∃ f', by_key contract_field_key (td_fields ty') !! contract_field_key f = Some f' ∧
        fd_ty f = fd_ty f' ∧ fd_source f = fd_source f';
    fc_added f' : f' ∈ td_fields ty' → contract_field_key f' ∉ contract_field_key <$> td_fields ty →
      is_optional_field f' = true }.

Record compatible (old new : ApiSpec) : Prop :=
  { cp_routes r : r ∈ rest_routes old →
      ∃ r', r' ∈ rest_routes new ∧ rest_route_key new r' = rest_route_key old r ∧ same_route r r';
    cp_methods m : m ∈ rpc_methods old →
      ∃ m', m' ∈ rpc_methods new ∧ rpc_name m' = rpc_name m ∧
        rpc_request m = rpc_request m' ∧ rpc_response m = rpc_response m';
    cp_types ty : ty ∈ types old →
      ∃ ty', ty' ∈ types new ∧ td_name ty' = td_name ty ∧ fields_compatible ty ty' }.

(** A check that looks each old element up in the new version. *)
Lemma lookup_check {A B} (keyA : A → rstr) (keyB : B → rstr) (l : list A) (l' : list B)
    (missing : A → list ContractIssue) (compare : A → B → list ContractIssue) (R : A → B → Prop) :
  NoDup (keyB <$> l') → (∀ a, missing a ≠ []) → (∀ a b, compare a b = [] ↔ R a b) →
  (l ≫= λ a, match by_key keyB l' !! keyA a with None => missing a | Some b => compare a b end) = [] ↔
  ∀ a, a ∈ l → ∃ b, b ∈ l' ∧ keyB b = keyA a ∧ R a b.
Proof.
  intros HN Hm Hc. rewrite bind_nil. apply forall_proper. intros a.
  pose proof (λ b, by_key_NoDup keyB l' (keyA a) b HN) as Hk.
  destruct (by_key keyB l' !! keyA a) as [b|].
  - destruct (proj1 (Hk b) eq_refl) as [Hb Hkb]. rewrite Hc. split; [eauto|].
    intros Hx Ha. destruct (Hx Ha) as (b' & Hb' & Hk' & HR).
    assert (Some b = Some b') as [= ->] by by apply Hk. done.
  - split; [intros Hx Ha; by destruct (Hm a (Hx Ha))|].
    intros Hx Ha. destruct (Hx Ha) as (b & Hb & Hkb & _).
    assert (None = Some b) as [=] by by apply Hk.
Qed.

Lemma eqb_true_bool a b : Bool.eqb a b = true ↔ a = b.
Proof. apply Bool.eqb_true_iff. Qed.

Lemma check_fields_spec ty ty' : check_fields ty ty' = [] ↔ fields_compatible ty ty'.
Proof.
  unfold check_fields. rewrite app_nil, !bind_nil. split.
  - intros [Hk Ha]. split.
    + intros f Hf. specialize (Hk f Hf). destruct (by_key _ _ !! _) as [f'|]; [|done].
      rewrite app_nil, !if_nil, str_eqb_eq, bool_decide_eq_true in Hk by apply breaking_nonempty.
      exists f'. naive_solver.
    + intros f' Hf Hn. specialize (Ha f' Hf). apply by_key_None in Hn. rewrite Hn in Ha.
      by rewrite if_nil in Ha by apply breaking_nonempty.
  - intros [Hk Ha]. split.
    + intros f Hf. destruct (Hk f Hf) as (f' & -> & Ht & Hs).
      rewrite app_nil, !if_nil, str_eqb_eq, bool_decide_eq_true by apply breaking_nonempty. done.
    + intros f' Hf. destruct (by_key _ (td_fields ty) !! _) eqn:E; [done|].
      apply by_key_None in E. rewrite if_nil by apply breaking_nonempty. by apply Ha.
Qed.

Definition distinct_wire_names (spec : ApiSpec) : Prop :=
  ∀ ty, ty ∈ types spec → NoDup (contract_field_key <$> td_fields ty).

(** The comparison of two versions reports nothing exactly if the new one is
    compatible: every route, RPC method and type of the old version is still
    there with the same bodies, transport, representation and fields, and every
    added field is optional. The new version is a well-formed contract. An
    unchanged contract passes if no type has two fields of one wire name. *)
Theorem contract_check_correct `{UnicodeCase} old new :
  well_formed new →
  (check_contract_breaking_changes old new = [] ↔ compatible old new) ∧
  (distinct_wire_names new → check_contract_breaking_changes new new = []).
Proof.
  intros Hwf.
  assert (∀ spec, check_contract_breaking_changes spec new = [] ↔ compatible spec new) as Hcheck.
  { intros spec. unfold check_contract_breaking_changes, check_rest_routes, check_rpc_methods, check_types.
    cbv zeta. rewrite !app_nil.
    rewrite (lookup_check _ _ _ _ _ _ same_route); [|by apply wf_routes|done|].
    2:{ intros r r'. rewrite !app_nil, !if_nil, !str_eqb_eq, !eqb_true_bool by apply breaking_nonempty.
        split; [intros (? & ? & ? & ?); by constructor | by intros []]. }
    rewrite (lookup_check _ _ _ _ _ _ (λ m m', rpc_request m = rpc_request m' ∧ rpc_response m = rpc_response m'));
      [|by apply wf_methods|done|].
    2:{ intros m m'. by rewrite app_nil, !if_nil, !str_eqb_eq by apply breaking_nonempty. }
    rewrite (lookup_check _ _ _ _ _ _ fields_compatible); [|by apply wf_types|done|apply check_fields_spec].
    split; [intros (? & ? & ?); by constructor | by intros []]. }
  split; [apply Hcheck|]. intros Hd. apply Hcheck. constructor.
  - intros r Hr. exists r. split_and!; [done|done|by constructor].
  - intros m Hm. by exists m.
  - intros ty Hty. exists ty. split_and!; [done..|]. constructor.
    + intros f Hf. exists f. split; [|done]. by apply by_key_NoDup; [apply Hd|].
    + intros f Hf Hn. destruct Hn. by apply list_elem_of_fmap_2.
Qed.

(** ** Witnesses *)

Lemma validate_api_spec_correct_witness : validate_api_spec ex_spec = [] ∧ well_formed ex_spec.
Proof.
  assert (validate_api_spec ex_spec = []) as Hv by (vm_compute; reflexivity).
  split; [exact Hv | exact (proj1 (validate_api_spec_correct ex_spec) Hv)].
Defined.

Lemma ex_well_formed : well_formed ex_spec.
Proof. apply validated_iff. vm_compute. reflexivity. Qed.

Lemma contract_check_correct_witness :
  well_formed ex_spec ∧ check_contract_breaking_changes ex_spec ex_spec = [].
Proof.
  split; [exact ex_well_formed|]. apply (contract_check_correct ex_spec ex_spec ex_well_formed).
  intros ty Hty.
  repeat (apply elem_of_cons in Hty as [->|Hty]; [decide_closed|]). by apply not_elem_of_nil in Hty.
Defined.

Definition ex_field (name ty : rstr) (source : FieldSource) (validate : option rstr) : Field :=
  {| fd_name := name; fd_ty := ty; fd_embedded := false; fd_json_name := Some name; fd_source := source;
     fd_wire_name := Some name; fd_validate := validate |}.

Definition ex_with_fields (fields : list Field) : ApiSpec :=
  {| service := lit "users"; rpc_package := None; server := None; info := [];
     types := [{| td_name := lit "Req"; td_fields := fields |}];
     rest_routes := [{| rt_handler := Some (lit "update"); rt_doc := None; rt_websocket := false; rt_maud := false;
                        rt_middlewares := []; rt_permissions := []; rt_server := None; rt_method := Put;
                        rt_path := lit "/users/{id}"; rt_request := lit "Req"; rt_response := lit "Req" |}];
     rpc_methods := [] |}.

(** Two fields may share a wire name in different sources; the contract is valid,
    and comparing it with itself reports a breaking change. *)
Definition ex_shared_wire_name : ApiSpec :=
  ex_with_fields
    [ex_field (lit "id") (lit "u64") PathSource None;
     {| fd_name := lit "body_id"; fd_ty := lit "u64"; fd_embedded := false; fd_json_name := Some (lit "id");
        fd_source := Json; fd_wire_name := Some (lit "id"); fd_validate := None |}].

Lemma unchanged_contract_breaks :
  validate_api_spec ex_shared_wire_name = [] ∧
  check_contract_breaking_changes ex_shared_wire_name ex_shared_wire_name ≠ [].
Proof. split; vm_compute; done. Qed.

(** Making an optional field required is not reported, though adding it as
    required would be. *)
Lemma required_field_unnoticed :
  let base := [ex_field (lit "id") (lit "u64") PathSource None] in
  let v1 := ex_with_fields base in
  let v2 := ex_with_fields (base ++ [ex_field (lit "note") (lit "string") Json (Some (lit "optional"))]) in
  let v3 := ex_with_fields (base ++ [ex_field (lit "note") (lit "string") Json None]) in
  check_contract_breaking_changes v1 v2 = [] ∧ check_contract_breaking_changes v2 v3 = [] ∧
  check_contract_breaking_changes v1 v3 ≠ [].
Proof. vm_compute. done. Qed.
