(* ===== verification/Errors.v ===== *)
(** * Errors (crates/roze-error/src/lib.rs)

    The error every boundary of the framework speaks, its codes, messages and
    retry hints, and the choice of a locale. JSON comes from a library:
    [JsonBody] names what is used of it. The task-local locale and identifiers of
    a response are arguments where they are read. *)

From S2P Require Import Prelude Text Scan.

(** [body.get(name).and_then(Value::as_str)], and the object
    [{"code": code, "msg": msg, "data": null}]. *)
Class JsonBody (Value : Type) :=
  { json_str : Value → rstr → option rstr; json_error : N → rstr → Value }.

Inductive RozeError (Value : Type) :=
| BadRequest (m : rstr) | Conflict (m : rstr) | FailedPrecondition (m : rstr)
| Unauthorized | Forbidden | RateLimited (retry_after_seconds : N)
| NotFound (m : rstr) | Unavailable (m : rstr) | Internal (m : rstr)
| Fallback (status : N) (body : option Value) (headers : gmap rstr rstr).
Arguments BadRequest {Value}. Arguments Conflict {Value}. Arguments FailedPrecondition {Value}.
Arguments Unauthorized {Value}. Arguments Forbidden {Value}. Arguments RateLimited {Value}.
Arguments NotFound {Value}. Arguments Unavailable {Value}. Arguments Internal {Value}.
Arguments Fallback {Value}.

(** ** Locales *)

(** The literals in Chinese, as their scalar values. *)
Definition zh_bad_request : rstr := [35831; 27714; 21442; 25968; 38169; 35823].
Definition zh_conflict : rstr := [36164; 28304; 20914; 31361].
Definition zh_failed_precondition : rstr := [21069; 32622; 26465; 20214; 19981; 28385; 36275].
Definition zh_unauthorized : rstr := [26410; 35748; 35777; 25110; 30331; 24405; 24050; 22833; 25928].
Definition zh_forbidden : rstr := [26080; 26435; 38480; 35775; 38382].
Definition zh_not_found : rstr := [36164; 28304; 19981; 23384; 22312].
Definition zh_internal : rstr := [26381; 21153; 22120; 20869; 37096; 38169; 35823].

Definition normalize_locale (raw : rstr) : option rstr :=
  let normalized := replace_char (λ c, c =? 95) (lit "-") (trim raw) in
  if str_is_empty normalized || str_eqb normalized (lit "*") then None
  else
    let lower := str_to_ascii_lowercase normalized in
    if str_eqb lower (lit "zh") || starts_with (lit "zh-cn") lower || starts_with (lit "zh-hans") lower
    then Some (lit "zh-CN")
    else if str_eqb lower (lit "en") || starts_with (lit "en-us") lower || starts_with (lit "en-") lower
    then Some (lit "en-US") else None.

Definition locale_from_accept_language (raw : rstr) : option rstr :=
  find_map normalize_locale
    (omap (λ part, head (split_on (λ c, c =? 59) (trim part))) (split_on (λ c, c =? 44) raw)).

Definition localized_error_message (kind locale : rstr) : rstr :=
  if match normalize_locale locale with Some l => str_eqb l (lit "zh-CN") | None => false end
  then
    if str_eqb kind (lit "bad_request") then zh_bad_request
    else if str_eqb kind (lit "conflict") then zh_conflict
    else if str_eqb kind (lit "failed_precondition") then zh_failed_precondition
    else if str_eqb kind (lit "unauthorized") then zh_unauthorized
    else if str_eqb kind (lit "forbidden") then zh_forbidden
    else if str_eqb kind (lit "not_found") then zh_not_found
    else zh_internal
  else
    if str_eqb kind (lit "bad_request") then lit "bad request"
    else if str_eqb kind (lit "conflict") then lit "conflict"
    else if str_eqb kind (lit "failed_precondition") then lit "failed precondition"
    else if str_eqb kind (lit "unauthorized") then lit "unauthorized"
    else if str_eqb kind (lit "forbidden") then lit "forbidden"
    else if str_eqb kind (lit "rate_limited") then lit "rate limited"
    else if str_eqb kind (lit "not_found") then lit "not found"
    else if str_eqb kind (lit "unavailable") then lit "service unavailable"
    else if str_eqb kind (lit "fallback") then lit "fallback"
    else lit "internal server error".

(** ** The error *)

(** [Duration::as_secs] plus one when nanoseconds are left. *)
Definition seconds_ceil (d : N) : N := d / 1000000000 + (if 0 <? d mod 1000000000 then 1 else 0).

Section errors.
Context {Value : Type} `{JsonBody Value}.
Implicit Types e : RozeError Value.

Definition kind e : rstr :=
  match e with
  | BadRequest _ => lit "bad_request" | Conflict _ => lit "conflict"
  | FailedPrecondition _ => lit "failed_precondition" | Unauthorized => lit "unauthorized"
  | Forbidden => lit "forbidden" | RateLimited _ => lit "rate_limited" | NotFound _ => lit "not_found"
  | Unavailable _ => lit "unavailable" | Internal _ => lit "internal" | Fallback _ _ _ => lit "fallback"
  end.

Definition code e : N :=
  match e with
  | BadRequest _ => 400 | Conflict _ => 409 | FailedPrecondition _ => 412 | Unauthorized => 401
  | Forbidden => 403 | RateLimited _ => 429 | NotFound _ => 404 | Unavailable _ => 503
  | Internal _ => 500 | Fallback status _ _ => status
  end.

Definition fallback_message (body : option Value) : rstr :=
  match body ≫= (λ b, json_str b (lit "message")) with
  | Some m => m
  | None => default (lit "fallback") (body ≫= (λ b, json_str b (lit "msg")))
  end.

Definition message e : rstr :=
  match e with
  | BadRequest m | Conflict m | FailedPrecondition m | NotFound m | Unavailable m | Internal m => m
  | Unauthorized => lit "unauthorized" | Forbidden => lit "forbidden" | RateLimited _ => lit "rate limited"
  | Fallback _ body _ => fallback_message body
  end.

Definition message_i18n e (locale : rstr) : rstr :=
  match e with
  | BadRequest m | Conflict m | FailedPrecondition m | NotFound m | Unavailable m | Internal m =>
      if str_is_empty m then localized_error_message (kind e) locale else m
  | Fallback _ body _ => fallback_message body
  | _ => localized_error_message (kind e) locale
  end.

Definition is_client_error e : bool :=
  match e with
  | BadRequest _ | Conflict _ | FailedPrecondition _ | Unauthorized | Forbidden | RateLimited _
  | NotFound _ => true
  | _ => false
  end.

(** [StatusCode::from_u16] accepts 100 to 999. *)
Definition status_code e : N :=
  match e with
  | Fallback status _ _ => if (100 <=? status) && (status <=? 999) then status else 503
  | _ => code e
  end.

Definition rate_limited (retry_after : N) : RozeError Value := RateLimited (N.max (seconds_ceil retry_after) 1).

Definition unavailable_with_retry_after (m : rstr) (retry_after : N) : RozeError Value :=
  Fallback 503 (Some (json_error 503 m))
    {[ lit "retry-after" := dec (N.max (seconds_ceil retry_after) 1) ]}.

Definition retry_after_seconds e : option N :=
  match e with
  | RateLimited s => Some s
  | Fallback _ _ headers => headers !! lit "retry-after" ≫= parse_uint U64_MAX
  | _ => None
  end.

(** ** Lemmas *)

(** The seconds announced cover the wait, and no more than a second is added. *)
Lemma seconds_ceil_covers d : d ≤ from_secs (seconds_ceil d) < d + from_secs 1.
Proof. unfold seconds_ceil, from_secs. destruct (N.ltb_spec 0 (d mod 1000000000)); div_lia. Qed.

(** A refusal that says when to come back is not answered by less. *)
Lemma retry_after_kept m d :
  d < from_secs U64_MAX →
  retry_after_seconds (unavailable_with_retry_after m d) = Some (N.max (seconds_ceil d) 1) ∧
  retry_after_seconds (rate_limited d) = Some (N.max (seconds_ceil d) 1).
Proof.
  intros Hd. split; [|done]. unfold retry_after_seconds, unavailable_with_retry_after.
  rewrite lookup_singleton_eq. cbn [mbind option_bind]. apply parse_uint_dec.
  pose proof (seconds_ceil_covers d). sat_lia.
Qed.
End errors.

(** In Chinese a refused or unavailable request is reported as an internal error. *)
Example zh_rate_limited :
  localized_error_message (lit "rate_limited") (lit "zh-CN") = zh_internal ∧
  localized_error_message (lit "unavailable") (lit "zh") = zh_internal ∧
  localized_error_message (lit "rate_limited") (lit "en-GB") = lit "rate limited".
Proof. vm_compute. done. Qed.
