(* ===== verification/Policy.v ===== *)
(** * Governance configuration ([GovernanceConfig] of crates/roze-config/src/lib.rs)

    The policy a service's configuration gives to an operation: defaults for
    the whole service, overridden setting by setting by the first of the
    operation's keys that has an entry. The resolved policies are those of
    Resilience.v, the limiter's settings those of RateLimit.v. An
    [anyhow::Error] is its message. [Value] stands for [serde_json::Value]. *)

From S2P Require Import Prelude Text Breaker Resilience RateLimit.

(** ** The configuration *)

Record RetryConfig :=
  { rc_max_attempts : N; rc_backoff_ms : N; rc_max_backoff_ms : N; rc_budget_percent : option N }.

Definition RetryConfig_default : RetryConfig :=
  {| rc_max_attempts := 1; rc_backoff_ms := 0; rc_max_backoff_ms := 1000; rc_budget_percent := None |}.

Record LimitConfig :=
  { lc_burst : N; lc_refill_ms : N; lc_tokens_per_refill : N; lc_key : RateLimitKeyPolicy }.

Definition RateLimitKeyPolicy_default : RateLimitKeyPolicy :=
  {| dimensions := [Route]; headers := []; missing := RateLimit.Reject |}.

Definition LimitConfig_default : LimitConfig :=
  {| lc_burst := 100; lc_refill_ms := 10; lc_tokens_per_refill := 1; lc_key := RateLimitKeyPolicy_default |}.

Record BreakerSettings := { bc_failure_threshold : N; bc_reset_timeout_ms : N }.

Definition BreakerSettings_default : BreakerSettings :=
  {| bc_failure_threshold := 5; bc_reset_timeout_ms := 30000 |}.

Record SheddingSettings :=
  { sc_concurrency : N; sc_window_ms : N; sc_min_samples : N; sc_max_avg_latency_ms : N;
    sc_max_failure_ratio_per_mille : N; sc_cool_down_ms : N }.

Definition SheddingSettings_default : SheddingSettings :=
  {| sc_concurrency := 1000; sc_window_ms := 1000; sc_min_samples := 100; sc_max_avg_latency_ms := 500;
     sc_max_failure_ratio_per_mille := 500; sc_cool_down_ms := 1000 |}.

Record GovernanceFallbackConfig (Value : Type) :=
  { fc_enabled : bool; fc_status : N; fc_body : option Value; fc_headers : gmap rstr rstr }.
Arguments fc_enabled {Value}. Arguments fc_status {Value}.
Arguments fc_body {Value}. Arguments fc_headers {Value}.

Record RouteGovernanceConfig (Value : Type) :=
  { rg_timeout_ms : option N; rg_retry : option RetryConfig; rg_rate_limit : option LimitConfig;
    rg_breaker : option BreakerSettings; rg_shedding : option SheddingSettings;
    rg_fallback : option (GovernanceFallbackConfig Value) }.
Arguments rg_timeout_ms {Value}. Arguments rg_retry {Value}. Arguments rg_rate_limit {Value}.
Arguments rg_breaker {Value}. Arguments rg_shedding {Value}. Arguments rg_fallback {Value}.

Record GovernanceConfig (Value : Type) :=
  { gc_timeout_ms : option N; gc_retry : option RetryConfig; gc_rate_limit : option LimitConfig;
    gc_rate_limiter : RateLimiterConfig; gc_breaker : option BreakerSettings;
    gc_shedding : option SheddingSettings; gc_fallback : option (GovernanceFallbackConfig Value);
    gc_routes : gmap rstr (RouteGovernanceConfig Value) }.
Arguments gc_timeout_ms {Value}. Arguments gc_retry {Value}. Arguments gc_rate_limit {Value}.
Arguments gc_rate_limiter {Value}. Arguments gc_breaker {Value}. Arguments gc_shedding {Value}.
Arguments gc_fallback {Value}. Arguments gc_routes {Value}.

(** ** Resolution *)

(** [Option::or] *)
Definition opt_or {A} (a b : option A) : option A := match a with Some _ => a | None => b end.

Definition resolve_retry (c : RetryConfig) : RetryPolicy :=
  {| max_attempts := rc_max_attempts c; backoff := from_millis (rc_backoff_ms c);
     max_backoff := from_millis (rc_max_backoff_ms c); budget_percent := rc_budget_percent c |}.

Definition resolve_limit (c : LimitConfig) : RateLimitConfig :=
  {| Resilience.burst := lc_burst c; Resilience.refill := from_millis (lc_refill_ms c);
     Resilience.tokens_per_refill := lc_tokens_per_refill c |}.

Definition resolve_breaker (c : BreakerSettings) : BreakerConfig :=
  {| failure_threshold := bc_failure_threshold c; reset_timeout := from_millis (bc_reset_timeout_ms c) |}.

Definition resolve_shedding (c : SheddingSettings) : SheddingConfig :=
  {| concurrency := sc_concurrency c; window := from_millis (sc_window_ms c);
     min_samples := sc_min_samples c; max_avg_latency := from_millis (sc_max_avg_latency_ms c);
     max_failure_ratio_per_mille := sc_max_failure_ratio_per_mille c;
     cool_down := from_millis (sc_cool_down_ms c) |}.

Section governance.
Context {Value : Type}.
Implicit Types g : GovernanceConfig Value.

(** [.filter(|fallback| fallback.enabled).map(..)] *)
Definition resolve_fallback (f : option (GovernanceFallbackConfig Value))
    : option (GovernanceFallback Value) :=
  f ← f;
  if fc_enabled f
  then Some {| fb_status := fc_status f; fb_body := fc_body f; fb_headers := fc_headers f |}
  else None.

Definition resolve_policy_for g (keys : list rstr) : GovernancePolicy Value :=
  let scoped := find_map (λ key, gc_routes g !! key) keys in
  let timeout_ms := opt_or (scoped ≫= rg_timeout_ms) (gc_timeout_ms g) in
  let retry := opt_or (scoped ≫= rg_retry) (gc_retry g) in
  let rate_limit := opt_or (scoped ≫= rg_rate_limit) (gc_rate_limit g) in
  let breaker := opt_or (scoped ≫= rg_breaker) (gc_breaker g) in
  let shedding := opt_or (scoped ≫= rg_shedding) (gc_shedding g) in
  {| timeout := from_millis <$> timeout_ms;
     retry := resolve_retry <$> retry;
     rate_limit := resolve_limit <$> rate_limit;
     breaker := resolve_breaker <$> breaker;
     shedding := resolve_shedding <$> shedding;
     fallback := resolve_fallback (opt_or (scoped ≫= rg_fallback) (gc_fallback g)) |}.

Definition resolve_policy g (key : rstr) : GovernancePolicy Value := resolve_policy_for g [key].

Definition resolve_rate_limit_config_for g (keys : list rstr) : option LimitConfig :=
  opt_or (find_map (λ key, gc_routes g !! key) keys ≫= rg_rate_limit) (gc_rate_limit g).

Definition resolve_rate_limit_config g (key : rstr) : option LimitConfig :=
  resolve_rate_limit_config_for g [key].

Definition is_some {A} (o : option A) : bool := match o with Some _ => true | None => false end.

Definition uses_rate_limit g : bool :=
  is_some (gc_rate_limit g) || existsb (λ policy, is_some (rg_rate_limit policy)) (btree_values (gc_routes g)).

(** ** Validation *)

(** [anyhow::ensure!] *)
Definition ensure (cond : bool) (path message : rstr) : result rstr unit :=
  if cond then Ok tt else Err (path ++ message).

Definition check_some {A} (o : option A) (check : A → result rstr unit) : result rstr unit :=
  match o with Some a => check a | None => Ok tt end.

Definition LimitConfig_validate (path : rstr) (c : LimitConfig) : result rstr unit :=
  _ ← ensure (0 <? lc_burst c) path (lit ".rate_limit.burst must be positive");
  _ ← ensure (0 <? lc_refill_ms c) path (lit ".rate_limit.refill_ms must be positive");
  _ ← ensure (0 <? lc_tokens_per_refill c) path (lit ".rate_limit.tokens_per_refill must be positive");
  _ ← ensure (lc_refill_ms c * lc_burst c <=? U64_MAX) path
        (lit ".rate_limit refill window exceeds the supported range");
  match RateLimitKeyPolicy_validate (lc_key c) with
  | Ok _ => Ok tt
  | Err error => Err (path ++ lit ".rate_limit.key is invalid: " ++ error)
  end.

Definition validate_retry (path : rstr) (c : RetryConfig) : result rstr unit :=
  _ ← ensure (0 <? rc_max_attempts c) path (lit ".retry.max_attempts must be positive");
  _ ← ensure (rc_backoff_ms c <=? rc_max_backoff_ms c) path
        (lit ".retry.max_backoff_ms must be greater than or equal to backoff_ms");
  check_some (rc_budget_percent c) (λ percent,
    ensure (percent <=? 100) path (lit ".retry.budget_percent must be in 0..=100")).

Definition validate_breaker (path : rstr) (c : BreakerSettings) : result rstr unit :=
  _ ← ensure (0 <? bc_failure_threshold c) path (lit ".breaker.failure_threshold must be positive");
  ensure (0 <? bc_reset_timeout_ms c) path (lit ".breaker.reset_timeout_ms must be positive").

Definition validate_shedding (path : rstr) (c : SheddingSettings) : result rstr unit :=
  _ ← ensure (0 <? sc_concurrency c) path (lit ".shedding.concurrency must be positive");
  _ ← ensure (0 <? sc_window_ms c) path (lit ".shedding.window_ms must be positive");
  _ ← ensure (0 <? sc_min_samples c) path (lit ".shedding.min_samples must be positive");
  _ ← ensure (0 <? sc_max_avg_latency_ms c) path (lit ".shedding.max_avg_latency_ms must be positive");
  _ ← ensure (sc_max_failure_ratio_per_mille c <=? 1000) path
        (lit ".shedding.max_failure_ratio_per_mille must be in 0..=1000");
  ensure (0 <? sc_cool_down_ms c) path (lit ".shedding.cool_down_ms must be positive").

Definition validate_governance_policy (path : rstr) (timeout_ms : option N) (retry : option RetryConfig)
    (rate_limit : option LimitConfig) (breaker : option BreakerSettings)
    (shedding : option SheddingSettings) (fallback : option (GovernanceFallbackConfig Value))
    : result rstr unit :=
  _ ← check_some timeout_ms (λ t, ensure (0 <? t) path (lit ".timeout_ms must be positive"));
  _ ← check_some retry (validate_retry path);
  _ ← check_some rate_limit (LimitConfig_validate path);
  _ ← check_some breaker (validate_breaker path);
  _ ← check_some shedding (validate_shedding path);
  check_some fallback (λ f,
    ensure ((100 <=? fc_status f) && (fc_status f <=? 599)) path
      (lit ".fallback.status must be a valid HTTP status")).

Fixpoint validate_routes (routes : list (rstr * RouteGovernanceConfig Value)) : result rstr unit :=
  match routes with
  | [] => Ok tt
  | (route, policy) :: routes' =>
      _ ← ensure (negb (bool_decide (trim route = []))) [] (lit "governance route key must not be empty");
      _ ← validate_governance_policy (lit "governance.routes." ++ route) (rg_timeout_ms policy)
            (rg_retry policy) (rg_rate_limit policy) (rg_breaker policy) (rg_shedding policy)
            (rg_fallback policy);
      validate_routes routes'
  end.

Definition GovernanceConfig_validate g : result rstr unit :=
  _ ← validate_governance_policy (lit "governance") (gc_timeout_ms g) (gc_retry g) (gc_rate_limit g)
        (gc_breaker g) (gc_shedding g) (gc_fallback g);
  validate_routes (btree_iter (gc_routes g)).
End governance.

(** ** Lemmas on validation *)

Lemma ensure_ok cond path message : ensure cond path message = Ok tt ↔ cond = true.
Proof. unfold ensure. by destruct cond. Qed.

Lemma bind_ok {E} (r k : result E unit) : (_ ← r; k) = Ok tt ↔ r = Ok tt ∧ k = Ok tt.
Proof. destruct r as [[]|]; cbn; naive_solver. Qed.

Lemma check_some_ok {A} (o : option A) check :
  check_some o check = Ok tt ↔ ∀ a, o = Some a → check a = Ok tt.
Proof. destruct o; cbn; naive_solver. Qed.

(** Read a validator as the conjunction of its conditions. *)
Ltac ensured :=
  repeat (rewrite ?bind_ok, ?check_some_ok, ?ensure_ok, ?N.ltb_lt, ?N.leb_le, ?andb_true_iff,
            ?negb_true_iff, ?bool_decide_eq_false).

Definition retry_ok (c : RetryConfig) : Prop :=
  0 < rc_max_attempts c ∧ rc_backoff_ms c ≤ rc_max_backoff_ms c ∧
  ∀ p, rc_budget_percent c = Some p → p ≤ 100.

Definition limit_ok (c : LimitConfig) : Prop :=
  0 < lc_burst c ∧ 0 < lc_refill_ms c ∧ 0 < lc_tokens_per_refill c ∧
  lc_refill_ms c * lc_burst c ≤ U64_MAX ∧ RateLimitKeyPolicy_validate (lc_key c) = Ok tt.

Definition breaker_ok (c : BreakerSettings) : Prop :=
  0 < bc_failure_threshold c ∧ 0 < bc_reset_timeout_ms c.

Definition shedding_ok (c : SheddingSettings) : Prop :=
  0 < sc_concurrency c ∧ 0 < sc_window_ms c ∧ 0 < sc_min_samples c ∧ 0 < sc_max_avg_latency_ms c ∧
  sc_max_failure_ratio_per_mille c ≤ 1000 ∧ 0 < sc_cool_down_ms c.

Definition fallback_ok {Value} (c : GovernanceFallbackConfig Value) : Prop :=
  100 ≤ fc_status c ≤ 599.

(** Every setting that is present is in range. *)
Definition settings_ok {Value} (t : option N) (r : option RetryConfig) (l : option LimitConfig)
    (b : option BreakerSettings) (s : option SheddingSettings)
    (f : option (GovernanceFallbackConfig Value)) : Prop :=
  (∀ x, t = Some x → 0 < x) ∧ (∀ x, r = Some x → retry_ok x) ∧ (∀ x, l = Some x → limit_ok x) ∧
  (∀ x, b = Some x → breaker_ok x) ∧ (∀ x, s = Some x → shedding_ok x) ∧
  (∀ x, f = Some x → fallback_ok x).

Definition route_settings_ok {Value} (p : RouteGovernanceConfig Value) : Prop :=
  settings_ok (rg_timeout_ms p) (rg_retry p) (rg_rate_limit p) (rg_breaker p) (rg_shedding p) (rg_fallback p).

Lemma validate_retry_ok path c : validate_retry path c = Ok tt ↔ retry_ok c.
Proof. unfold validate_retry, retry_ok. ensured. by setoid_rewrite ensure_ok; setoid_rewrite N.leb_le. Qed.

Lemma LimitConfig_validate_ok path c : LimitConfig_validate path c = Ok tt ↔ limit_ok c.
Proof.
  unfold LimitConfig_validate, limit_ok. ensured.
  destruct (RateLimitKeyPolicy_validate (lc_key c)) as [[]|]; naive_solver.
Qed.

Lemma validate_breaker_ok path c : validate_breaker path c = Ok tt ↔ breaker_ok c.
Proof. unfold validate_breaker, breaker_ok. by ensured. Qed.

Lemma validate_shedding_ok path c : validate_shedding path c = Ok tt ↔ shedding_ok c.
Proof. unfold validate_shedding, shedding_ok. by ensured. Qed.

Lemma validate_governance_policy_ok {Value} path t r l b s (f : option (GovernanceFallbackConfig Value)) :
  validate_governance_policy path t r l b s f = Ok tt ↔ settings_ok t r l b s f.
Proof.
  unfold validate_governance_policy, settings_ok, fallback_ok. ensured.
  setoid_rewrite validate_retry_ok. setoid_rewrite LimitConfig_validate_ok.
  setoid_rewrite validate_breaker_ok. setoid_rewrite validate_shedding_ok.
  setoid_rewrite ensure_ok. setoid_rewrite N.ltb_lt. setoid_rewrite andb_true_iff.
  by setoid_rewrite N.leb_le.
Qed.

Lemma validate_routes_ok {Value} (routes : list (rstr * RouteGovernanceConfig Value)) :
  validate_routes routes = Ok tt ↔ ∀ k p, (k, p) ∈ routes → trim k ≠ [] ∧ route_settings_ok p.
Proof.
  induction routes as [|[k p] routes IH]; simpl.
  - split; [|done]. by intros _ k p ?%not_elem_of_nil.
  - ensured. rewrite validate_governance_policy_ok, IH. setoid_rewrite elem_of_cons.
    change (settings_ok _ _ _ _ _ _) with (route_settings_ok p). generalize (@route_settings_ok Value). intros ok.
    split; [intros (? & ? & Hr) k' p' [[= -> ->]|]; auto|]. intros Hr. destruct (Hr k p) as [? ?]; auto.
Qed.

(** The validator accepts exactly the configurations whose settings are all in range. *)
Lemma GovernanceConfig_validate_ok {Value} (g : GovernanceConfig Value) :
  GovernanceConfig_validate g = Ok tt ↔
  settings_ok (gc_timeout_ms g) (gc_retry g) (gc_rate_limit g) (gc_breaker g) (gc_shedding g) (gc_fallback g) ∧
  ∀ k p, gc_routes g !! k = Some p → trim k ≠ [] ∧ route_settings_ok p.
Proof.
  unfold GovernanceConfig_validate. ensured. rewrite validate_governance_policy_ok, validate_routes_ok.
  by setoid_rewrite elem_of_btree_iter.
Qed.

(** ** Lemmas on resolution *)

Lemma opt_or_ok {A B} (P : A → Prop) (scoped : option B) (field : B → option A) (whole : option A) a :
  (∀ a, whole = Some a → P a) → (∀ b a, scoped = Some b → field b = Some a → P a) →
  opt_or (scoped ≫= field) whole = Some a → P a.
Proof. intros Hw Hs. destruct scoped as [b|]; cbn; [destruct (field b) eqn:E; cbn|]; naive_solver. Qed.

Lemma opt_or_is_some {A} (a b : option A) : is_some (opt_or a b) = is_some a || is_some b.
Proof. by destruct a. Qed.

(** ** What a resolved policy promises *)

Definition retry_policy_ok (p : RetryPolicy) : Prop :=
  0 < max_attempts p ∧ backoff p ≤ max_backoff p ∧ ∀ c, budget_percent p = Some c → c ≤ 100.

Definition shedding_config_ok (c : SheddingConfig) : Prop :=
  0 < concurrency c ∧ 0 < window c ∧ 0 < min_samples c ∧ 0 < max_avg_latency c ∧
  max_failure_ratio_per_mille c ≤ 1000 ∧ 0 < cool_down c.

(** A policy no component degenerates under: every limit is positive, every
    ratio is one, the fallback's status is one of HTTP. *)
Definition policy_ok {Value} (p : GovernancePolicy Value) : Prop :=
  (∀ t, timeout p = Some t → 0 < t) ∧ (∀ r, retry p = Some r → retry_policy_ok r) ∧
  (∀ l, rate_limit p = Some l →
    0 < Resilience.burst l ∧ 0 < Resilience.refill l ∧ 0 < Resilience.tokens_per_refill l) ∧
  (∀ b, breaker p = Some b → 0 < failure_threshold b ∧ 0 < reset_timeout b) ∧
  (∀ s, shedding p = Some s → shedding_config_ok s) ∧
  (∀ f, fallback p = Some f → 100 ≤ fb_status Value f ≤ 599).

(** The limit the shared limiter is asked for ([enforce_route_rate_limit]). *)
Definition limiter_limit (c : LimitConfig) : RateLimit :=
  {| burst := lc_burst c; refill := from_millis (lc_refill_ms c); tokens_per_refill := lc_tokens_per_refill c |}.

Lemma limit_ok_validates c : limit_ok c → RateLimit_validate (limiter_limit c) = Ok tt.
Proof.
  intros (Hb & Hr & Ht & _). unfold RateLimit_validate, limiter_limit; cbn [burst refill tokens_per_refill].
  apply N.ltb_lt in Hb, Ht. rewrite Hb, Ht.
  destruct (N.eqb_spec (from_millis (lc_refill_ms c)) 0); [sat_lia|done].
Qed.

Section resolution.
Context {Value : Type} (g : GovernanceConfig Value) (Hg : GovernanceConfig_validate g = Ok tt).

Lemma scoped_ok keys p : find_map (λ key, gc_routes g !! key) keys = Some p → route_settings_ok p.
Proof.
  intros (k & _ & Hk)%find_map_Some. apply GovernanceConfig_validate_ok in Hg as [_ Hr].
  by apply Hr in Hk as [_ ?].
Qed.

Lemma resolved_settings_ok keys :
  let scoped := find_map (λ key, gc_routes g !! key) keys in
  settings_ok (opt_or (scoped ≫= rg_timeout_ms) (gc_timeout_ms g))
    (opt_or (scoped ≫= rg_retry) (gc_retry g)) (opt_or (scoped ≫= rg_rate_limit) (gc_rate_limit g))
    (opt_or (scoped ≫= rg_breaker) (gc_breaker g)) (opt_or (scoped ≫= rg_shedding) (gc_shedding g))
    (opt_or (scoped ≫= rg_fallback) (gc_fallback g)).
Proof.
  intros scoped. assert (∀ p, scoped = Some p → route_settings_ok p) as Hs by (apply scoped_ok).
  apply GovernanceConfig_validate_ok in Hg as [Hw _].
  destruct Hw as (Ht & Hr & Hl & Hb & Hd & Hf).
  split_and!; intros x; apply opt_or_ok; try assumption; intros p y Hp%Hs Hy;
    destruct Hp as (? & ? & ? & ? & ? & ?); auto.
Qed.

Lemma resolve_policy_for_ok keys : policy_ok (resolve_policy_for g keys).
Proof.
  destruct (resolved_settings_ok keys) as (Ht & Hr & Hl & Hb & Hd & Hf).
  unfold resolve_policy_for. set (scoped := find_map _ keys) in *.
  unfold policy_ok; cbn [timeout retry rate_limit breaker shedding fallback].
  split_and!; try (intros x (y & Hy & ->)%fmap_Some).
  - apply Ht in Hy. sat_lia.
  - destruct (Hr y Hy) as (? & ? & ?). split_and!; cbn; [done|sat_lia|done].
  - destruct (Hl y Hy) as (? & ? & ? & _). cbn. sat_lia.
  - destruct (Hb y Hy). cbn. sat_lia.
  - destruct (Hd y Hy) as (? & ? & ? & ? & ? & ?). unfold shedding_config_ok; cbn. sat_lia.
  - intros x. destruct (opt_or _ (gc_fallback g)) as [f|]; cbn; [|done].
    destruct (fc_enabled f); intros [= <-]. by apply Hf.
Qed.
End resolution.

Lemma uses_rate_limit_none {Value} (g : GovernanceConfig Value) keys :
  uses_rate_limit g = false → resolve_rate_limit_config_for g keys = None.
Proof.
  unfold uses_rate_limit, resolve_rate_limit_config_for.
  intros [Hw Hr]%orb_false_iff. destruct (gc_rate_limit g); [done|].
  destruct (find_map _ keys) as [p|] eqn:E; [|done]. apply find_map_Some in E as (k & _ & Hk).
  destruct (rg_rate_limit p) as [c|] eqn:Ec; cbn; rewrite Ec; [|done].
  apply not_true_iff_false in Hr. destruct Hr. apply existsb_elem_of. exists p. split.
  - apply list_elem_of_fmap. exists (k, p). split; [done|]. by apply elem_of_btree_iter.
  - by rewrite Ec.
Qed.

(** ** Properties *)

(** Validation is what resolution needs. From a configuration that validates,
    every list of keys resolves to a policy nothing degenerates under (positive
    limits and time spans, [backoff <= max_backoff], ratios within range, an HTTP
    status for the fallback); the limit the shared limiter is asked for is the
    one the policy announces, and it and its key policy pass the limiter's own
    validation; and a configuration that says it uses no rate limit resolves
    none. *)
Theorem validated_governance_resolves {Value} (g : GovernanceConfig Value) keys :
  GovernanceConfig_validate g = Ok tt →
  policy_ok (resolve_policy_for g keys) ∧
  rate_limit (resolve_policy_for g keys) = resolve_limit <$> resolve_rate_limit_config_for g keys ∧
  (∀ c, resolve_rate_limit_config_for g keys = Some c →
     RateLimit_validate (limiter_limit c) = Ok tt ∧ RateLimitKeyPolicy_validate (lc_key c) = Ok tt) ∧
  (uses_rate_limit g = false → rate_limit (resolve_policy_for g keys) = None).
Proof.
  intros Hg. split; [by apply resolve_policy_for_ok|]. split; [done|]. split.
  - intros c Hc. destruct (resolved_settings_ok g Hg keys) as (_ & _ & Hl & _).
    pose proof (Hl c Hc) as Hok. split; [by apply limit_ok_validates|]. by apply Hok.
  - intros Hu. change (resolve_limit <$> resolve_rate_limit_config_for g keys = None).
    by rewrite uses_rate_limit_none.
Qed.

(** ** Witnesses *)

Definition ex_route : RouteGovernanceConfig unit :=
  {| rg_timeout_ms := Some 250; rg_retry := None; rg_rate_limit := None;
     rg_breaker := Some BreakerSettings_default; rg_shedding := None; rg_fallback := None |}.

Definition ex_governance : GovernanceConfig unit :=
  {| gc_timeout_ms := Some 1000; gc_retry := Some RetryConfig_default;
     gc_rate_limit := Some LimitConfig_default; gc_rate_limiter := RateLimiterConfig_default;
     gc_breaker := None; gc_shedding := Some SheddingSettings_default;
     gc_fallback := Some {| fc_enabled := false; fc_status := 503; fc_body := None; fc_headers := ∅ |};
     gc_routes := {[ lit "/users" := ex_route ]} |}.

(** The route's timeout and breaker replace the service's; a disabled fallback is none. *)
Example ex_resolved :
  resolve_policy_for ex_governance [lit "users"; lit "/users"] =
    {| timeout := Some (from_millis 250);
       retry := Some {| max_attempts := 1; backoff := 0; max_backoff := from_secs 1; budget_percent := None |};
       rate_limit := Some {| Resilience.burst := 100; Resilience.refill := from_millis 10;
                             Resilience.tokens_per_refill := 1 |};
       breaker := Some {| failure_threshold := 5; reset_timeout := from_secs 30 |};
       shedding := Some {| concurrency := 1000; window := from_secs 1; min_samples := 100;
                           max_avg_latency := from_millis 500; max_failure_ratio_per_mille := 500;
                           cool_down := from_secs 1 |};
       fallback := None |}.
Proof. vm_compute. reflexivity. Qed.

Lemma validated_governance_resolves_witness :
  GovernanceConfig_validate ex_governance = Ok tt ∧
  policy_ok (resolve_policy_for ex_governance [lit "users"; lit "/users"]) .
Proof.
  assert (GovernanceConfig_validate ex_governance = Ok tt) as H by (vm_compute; reflexivity).
  split; [exact H|]. apply (validated_governance_resolves ex_governance [lit "users"; lit "/users"] H).
Defined.
