(* ===== verification/Context.v ===== *)
(** * The request context (crates/roze-context/src/context.rs)

    Identifiers, principal, metadata, deadline, cancellation and the retry
    budget of a request, and their transport in headers. The fields a fork
    copies are fields of [Context]; what forks share, the retry budget's counter
    and the cancellation flag, are cells of a store [Cells]. A [Context] that is
    cloned shares everything, so its methods that write in place
    ([ensure_retry_budget]) give the value all its clones then have. An atomic
    update of a counter is one step. Typed values ([with_value]) do not leave the
    process and are not modelled. *)

From S2P Require Import Prelude Text Scan.

Record AuthContext := { a_subject : rstr; a_roles : list rstr; a_tenant : option rstr }.
Inductive CancelReason := Canceled | DeadlineExceeded.

Record Context :=
  { request_id : rstr; trace_id : rstr; auth : option AuthContext; metadata : gmap rstr rstr;
    deadline : option N; retry_budget : option N; cancel_cell : N; error : option rstr }.

Record Cells :=
  { next_cell : N; budgets : gmap N N; cancels : gmap N (bool * option CancelReason) }.

Definition Cells_empty : Cells := {| next_cell := 0; budgets := ∅; cancels := ∅ |}.

(** ** Headers *)

Definition REQUEST_ID_HEADER := lit "x-request-id".
Definition TRACE_ID_HEADER := lit "x-trace-id".
Definition TIMEOUT_HEADER := lit "x-roze-timeout-ms".
Definition RETRY_BUDGET_HEADER := lit "x-roze-retry-budget-remaining".
Definition IDEMPOTENCY_KEY_HEADER := lit "idempotency-key".
Definition SUBJECT_HEADER := lit "x-roze-subject".
Definition TENANT_HEADER := lit "x-roze-tenant".
Definition ROLES_HEADER := lit "x-roze-roles".
Definition METADATA_HEADER_PREFIX := lit "x-roze-meta-".
Definition LOCALE_METADATA_KEY := lit "locale".
Definition PERMISSIONS_METADATA_KEY := lit "permissions".
Definition IDEMPOTENCY_KEY_METADATA_KEY := lit "idempotency_key".
Definition MAX_PROPAGATED_RETRY_BUDGET : N := 64.

Record HeaderAliases :=
  { al_request_id : list rstr; al_trace_id : list rstr; al_subject : list rstr; al_tenant : list rstr;
    al_roles : list rstr; al_metadata : list (rstr * rstr) }.

Definition HULA_HEADER_ALIASES : HeaderAliases :=
  {| al_request_id := [lit "x-hula-request-id"]; al_trace_id := [lit "x-hula-trace-id"];
     al_subject := [lit "x-hula-uid"]; al_tenant := [lit "x-hula-tenant-id"];
     al_roles := [lit "x-hula-role"];
     al_metadata := [(lit "uid", lit "x-hula-uid"); (lit "device_id", lit "x-hula-device-id");
                     (lit "scope", lit "x-hula-scope")] |}.

(** ** Making contexts *)

Definition background_with_ids (s : Cells) (rid tid : rstr) : Context * Cells :=
  let c := next_cell s in
  ({| request_id := rid; trace_id := tid; auth := None; metadata := ∅; deadline := None;
      retry_budget := None; cancel_cell := c; error := None |},
   {| next_cell := c + 1; budgets := budgets s; cancels := <[c := (false, None)]> (cancels s) |}).

(** [generated] is the identifier [generate_trace_id] draws. *)
Definition background (generated : rstr) (s : Cells) : Context * Cells :=
  background_with_ids s generated generated.

(** A [with_] method writes one field of a fork; a fork copies the other fields
    and shares the cells. *)
Definition with_request_id (rid : rstr) (c : Context) : Context :=
  {| request_id := rid; trace_id := trace_id c; auth := auth c; metadata := metadata c;
     deadline := deadline c; retry_budget := retry_budget c; cancel_cell := cancel_cell c; error := error c |}.
Definition with_trace_id (tid : rstr) (c : Context) : Context :=
  {| request_id := request_id c; trace_id := tid; auth := auth c; metadata := metadata c;
     deadline := deadline c; retry_budget := retry_budget c; cancel_cell := cancel_cell c; error := error c |}.
Definition with_auth (a : AuthContext) (c : Context) : Context :=
  {| request_id := request_id c; trace_id := trace_id c; auth := Some a; metadata := metadata c;
     deadline := deadline c; retry_budget := retry_budget c; cancel_cell := cancel_cell c; error := error c |}.
Definition with_metadata_map (m : gmap rstr rstr) (c : Context) : Context :=
  {| request_id := request_id c; trace_id := trace_id c; auth := auth c; metadata := m;
     deadline := deadline c; retry_budget := retry_budget c; cancel_cell := cancel_cell c; error := error c |}.
Definition with_metadata (key value : rstr) (c : Context) : Context :=
  with_metadata_map (<[key := value]> (metadata c)) c.
(** [extend]: the new entries replace the old ones. *)
Definition with_merged_metadata (m : gmap rstr rstr) (c : Context) : Context :=
  with_metadata_map (m ∪ metadata c) c.
Definition with_deadline (d : N) (c : Context) : Context :=
  {| request_id := request_id c; trace_id := trace_id c; auth := auth c; metadata := metadata c;
     deadline := Some d; retry_budget := retry_budget c; cancel_cell := cancel_cell c; error := error c |}.
Definition with_timeout (now timeout : N) (c : Context) : Context := with_deadline (now + timeout) c.
Definition with_error (e : rstr) (c : Context) : Context :=
  {| request_id := request_id c; trace_id := trace_id c; auth := auth c; metadata := metadata c;
     deadline := deadline c; retry_budget := retry_budget c; cancel_cell := cancel_cell c; error := Some e |}.

Definition subject (c : Context) : option rstr := a_subject <$> auth c.
Definition tenant (c : Context) : option rstr := auth c ≫= a_tenant.
Definition roles (c : Context) : list rstr := default [] (a_roles <$> auth c).
Definition metadata_value (key : rstr) (c : Context) : option rstr := metadata c !! key.
Definition locale (c : Context) : option rstr := metadata_value LOCALE_METADATA_KEY c.
Definition with_locale (l : rstr) (c : Context) : Context := with_metadata LOCALE_METADATA_KEY l c.
Definition idempotency_key (c : Context) : option rstr := metadata_value IDEMPOTENCY_KEY_METADATA_KEY c.
Definition with_idempotency_key (k : rstr) (c : Context) : Context :=
  with_metadata IDEMPOTENCY_KEY_METADATA_KEY k c.

Definition split_context_list (raw : rstr) : list rstr :=
  str_filter nonempty (trim <$> split_on (λ ch, (ch =? 44) || is_whitespace ch) raw).

Definition permissions (c : Context) : list rstr :=
  default [] (split_context_list <$> metadata_value PERMISSIONS_METADATA_KEY c).
Definition with_permissions (ps : list rstr) (c : Context) : Context :=
  with_metadata PERMISSIONS_METADATA_KEY (join (lit ",") (str_filter nonempty (trim <$> ps))) c.
Definition has_permissions (required : list rstr) (c : Context) : bool :=
  forallb (λ p, existsb (λ owned, str_eqb owned p) (permissions c)) required.

(** [checked_duration_since]: nothing once the deadline has passed. *)
Definition remaining_timeout (now : N) (c : Context) : option N :=
  d ← deadline c; if now <=? d then Some (d - now) else None.
Definition is_expired (now : N) (c : Context) : bool :=
  match deadline c with Some d => d <=? now | None => false end.

(** ** Cancellation *)

Definition cancel_with_reason (reason : CancelReason) (c : Context) (s : Cells) : Cells :=
  {| next_cell := next_cell s; budgets := budgets s; cancels := <[cancel_cell c := (true, Some reason)]> (cancels s) |}.
Definition cancel (c : Context) (s : Cells) : Cells := cancel_with_reason Canceled c s.
Definition cancelled (s : Cells) (c : Context) : bool :=
  match cancels s !! cancel_cell c with Some (b, _) => b | None => false end.
Definition cancel_reason (s : Cells) (c : Context) : option CancelReason :=
  cancels s !! cancel_cell c ≫= snd.
Definition with_expiration_reason (now : N) (c : Context) (s : Cells) : Context * Cells :=
  (c, if is_expired now c then cancel_with_reason DeadlineExceeded c s else s).

(** ** The retry budget *)

Definition set_retry_budget (b : option N) (c : Context) : Context :=
  {| request_id := request_id c; trace_id := trace_id c; auth := auth c; metadata := metadata c;
     deadline := deadline c; retry_budget := b; cancel_cell := cancel_cell c; error := error c |}.

Definition set_budget (s : Cells) (cell n : N) : Cells :=
  {| next_cell := next_cell s; budgets := <[cell := n]> (budgets s); cancels := cancels s |}.

(** A fork with a counter of its own. *)
Definition with_retry_budget (remaining : N) (c : Context) (s : Cells) : Context * Cells :=
  let cell := next_cell s in
  (set_retry_budget (Some cell) c,
   {| next_cell := cell + 1;
      budgets := <[cell := N.min remaining MAX_PROPAGATED_RETRY_BUDGET]> (budgets s); cancels := cancels s |}).

Definition ensure_retry_budget (remaining : N) (c : Context) (s : Cells) : Context * Cells :=
  match retry_budget c with Some _ => (c, s) | None => with_retry_budget remaining c s end.

Definition retry_budget_remaining (s : Cells) (c : Context) : option N :=
  cell ← retry_budget c; budgets s !! cell.

(** [fetch_update] on the counter; a counter always exists. *)
Definition budget_update (cell : N) (f : N → N) (s : Cells) : Cells :=
  match budgets s !! cell with Some n => set_budget s cell (f n) | None => s end.

Definition try_consume_retry_budget (c : Context) (s : Cells) : bool * Cells :=
  match retry_budget c with
  | None => (true, s)
  | Some cell =>
      match budgets s !! cell with
      | Some n => if n =? 0 then (false, s) else (true, set_budget s cell (n - 1))
      | None => (false, s)
      end
  end.

Definition take_retry_budget_up_to (maximum : N) (c : Context) (s : Cells) : N * Cells :=
  match retry_budget c with
  | None => (0, s)
  | Some cell =>
      let previous := default 0 (budgets s !! cell) in
      (N.min previous maximum, budget_update cell (λ n, n - N.min n maximum) s)
  end.

Definition restore_retry_budget (amount : N) (c : Context) (s : Cells) : Context * Cells :=
  if amount =? 0 then (c, s)
  else match retry_budget c with
       | Some cell =>
           (c, budget_update cell (λ n, N.min (sat_add U64_MAX n amount) MAX_PROPAGATED_RETRY_BUDGET) s)
       | None => ensure_retry_budget amount c s
       end.

Definition limit_retry_budget (remaining : N) (c : Context) (s : Cells) : Context * Cells :=
  let remaining := N.min remaining MAX_PROPAGATED_RETRY_BUDGET in
  match retry_budget c with
  | Some cell => (c, budget_update cell (λ n, N.min n remaining) s)
  | None => ensure_retry_budget remaining c s
  end.

(** ** Propagation *)

Definition insert_some (name : rstr) (o : option rstr) (h : gmap rstr rstr) : gmap rstr rstr :=
  match o with Some v => <[name := v]> h | None => h end.

(** The headers before the loop over the metadata. *)
Definition base_headers (s : Cells) (now : N) (c : Context) : gmap rstr rstr :=
  let headers := <[TRACE_ID_HEADER := trace_id c]> (<[REQUEST_ID_HEADER := request_id c]> ∅) in
  let headers := insert_some TIMEOUT_HEADER
                   ((λ t, dec (N.max (t / 1000000) 1)) <$> remaining_timeout now c) headers in
  let headers := insert_some RETRY_BUDGET_HEADER (dec <$> retry_budget_remaining s c) headers in
  let headers :=
    match auth c with
    | Some a =>
        let headers := insert_some TENANT_HEADER (a_tenant a) (<[SUBJECT_HEADER := a_subject a]> headers) in
        match a_roles a with [] => headers | rs => <[ROLES_HEADER := join (lit ",") rs]> headers end
    | None => headers
    end in
  insert_some IDEMPOTENCY_KEY_HEADER (idempotency_key c) headers.

Definition propagation_headers (s : Cells) (now : N) (c : Context) : gmap rstr rstr :=
  foldl (λ h kv, <[METADATA_HEADER_PREFIX ++ kv.1 := kv.2]> h) (base_headers s now c)
    (btree_iter (metadata c)).

Definition header_value (headers : gmap rstr rstr) (key : rstr) : option rstr :=
  snd <$> List.find (λ nv, eq_ignore_ascii_case nv.1 key) (btree_iter headers).

Definition header_value_with_aliases (headers : gmap rstr rstr) (key : rstr) (aliases : list rstr)
    : option rstr :=
  match header_value headers key with
  | Some v => Some v
  | None => find_map (header_value headers) aliases
  end.

Definition filter_nonempty (o : option rstr) : option rstr :=
  v ← o; if nonempty v then Some v else None.

Definition retry_budget_from_headers (headers : gmap rstr rstr) : option N :=
  (λ n, N.min n MAX_PROPAGATED_RETRY_BUDGET) <$> (header_value headers RETRY_BUDGET_HEADER ≫= parse_uint U64_MAX).

Definition metadata_from_headers_with_aliases (headers : gmap rstr rstr) (aliases : HeaderAliases)
    : gmap rstr rstr :=
  let metadata :=
    foldl (λ m nv, match strip_prefix METADATA_HEADER_PREFIX (str_to_ascii_lowercase nv.1) with
                   | Some key => <[key := nv.2]> m
                   | None => m
                   end) ∅ (btree_iter headers) in
  let metadata :=
    foldl (λ m kh, match (m : gmap rstr rstr) !! kh.1 with
                   | Some _ => m
                   | None => insert_some kh.1 (filter_nonempty (header_value headers kh.2)) m
                   end) metadata (al_metadata aliases) in
  match metadata !! IDEMPOTENCY_KEY_METADATA_KEY with
  | Some _ => metadata
  | None => insert_some IDEMPOTENCY_KEY_METADATA_KEY
              (filter_nonempty (header_value headers IDEMPOTENCY_KEY_HEADER)) metadata
  end.

Definition auth_from_headers_with_aliases (headers : gmap rstr rstr) (aliases : HeaderAliases)
    : option AuthContext :=
  subject ← filter_nonempty (header_value_with_aliases headers SUBJECT_HEADER (al_subject aliases));
  let tenant := filter_nonempty (header_value_with_aliases headers TENANT_HEADER (al_tenant aliases)) in
  let roles :=
    match header_value_with_aliases headers ROLES_HEADER (al_roles aliases) with
    | Some value => str_filter nonempty (trim <$> split_on (λ ch, ch =? 44) value)
    | None => []
    end in
  Some {| a_subject := subject; a_roles := roles; a_tenant := tenant |}.

(** What both readers of headers do last. *)
Definition apply_timeout (headers : gmap rstr rstr) (now : N) (c : Context) : Context :=
  match header_value headers TIMEOUT_HEADER ≫= parse_uint U64_MAX with
  | Some ms => with_timeout now (from_millis ms) c
  | None => c
  end.
Definition apply_retry_budget (headers : gmap rstr rstr) (c : Context) (s : Cells) : Context * Cells :=
  match retry_budget_from_headers headers with
  | Some remaining => with_retry_budget remaining c s
  | None => (c, s)
  end.
Definition apply_auth (headers : gmap rstr rstr) (aliases : HeaderAliases) (c : Context) : Context :=
  match auth_from_headers_with_aliases headers aliases with Some a => with_auth a c | None => c end.

Definition from_propagation_headers_with_aliases (generated : rstr) (headers : gmap rstr rstr)
    (aliases : HeaderAliases) (now : N) (s : Cells) : Context * Cells :=
  let rid := default generated
    (filter_nonempty (header_value_with_aliases headers REQUEST_ID_HEADER (al_request_id aliases))) in
  let tid := default rid
    (filter_nonempty (header_value_with_aliases headers TRACE_ID_HEADER (al_trace_id aliases))) in
  let '(ctx, s) := background_with_ids s rid tid in
  let ctx := with_metadata_map (metadata_from_headers_with_aliases headers aliases) ctx in
  let ctx := apply_auth headers aliases ctx in
  apply_retry_budget headers (apply_timeout headers now ctx) s.

Definition from_propagation_headers (generated : rstr) (headers : gmap rstr rstr) (now : N) (s : Cells)
    : Context * Cells :=
  from_propagation_headers_with_aliases generated headers HULA_HEADER_ALIASES now s.

Definition with_propagation_headers_and_aliases (headers : gmap rstr rstr) (aliases : HeaderAliases)
    (now : N) (c : Context) (s : Cells) : Context * Cells :=
  let ctx := match header_value_with_aliases headers REQUEST_ID_HEADER (al_request_id aliases) with
             | Some rid => with_request_id rid c | None => c end in
  let ctx := match header_value_with_aliases headers TRACE_ID_HEADER (al_trace_id aliases) with
             | Some tid => with_trace_id tid ctx | None => ctx end in
  let ctx := apply_auth headers aliases ctx in
  let metadata := metadata_from_headers_with_aliases headers aliases in
  let ctx := if bool_decide (metadata = ∅) then ctx else with_merged_metadata metadata ctx in
  apply_retry_budget headers (apply_timeout headers now ctx) s.

Definition with_propagation_headers (headers : gmap rstr rstr) (now : N) (c : Context) (s : Cells)
    : Context * Cells :=
  with_propagation_headers_and_aliases headers HULA_HEADER_ALIASES now c s.

(** ** Delegation of the retry budget to a call (crates/roze-rpc/src/rpc.rs) *)

Record RetryBudgetDelegation := { rd_context : Context; rd_allocated : N }.

(** [available] was read before: other calls may have come in between. *)
Definition delegate_with (available : N) (c : Context) (s : Cells) : RetryBudgetDelegation * Cells :=
  let '(allocated, s) := take_retry_budget_up_to (available / 2) c s in
  let '(child, s) := with_retry_budget allocated c s in
  ({| rd_context := child; rd_allocated := allocated |}, s).

Definition delegate_retry_budget (c : Context) (s : Cells) : RetryBudgetDelegation * Cells :=
  delegate_with (default 0 (retry_budget_remaining s c)) c s.

(** [returned]: the response's or the status's budget header. *)
Definition reconcile_delegated_retry_budget (c : Context) (d : RetryBudgetDelegation)
    (returned : option rstr) (s : Cells) : Context * Cells :=
  let returned := N.min (default 0 (returned ≫= parse_uint U64_MAX)) (rd_allocated d) in
  restore_retry_budget returned c s.

Definition reconcile_retry_budget (c : Context) (returned : option rstr) (s : Cells) : Context * Cells :=
  match returned ≫= parse_uint U64_MAX with
  | Some remaining => limit_retry_budget remaining c s
  | None => (c, s)
  end.

(** ** Lemmas on the retry budget *)

Lemma budget_update_eq cell f s n :
  budgets s !! cell = Some n → budgets (budget_update cell f s) !! cell = Some (f n).
Proof. unfold budget_update. intros ->. apply lookup_insert_eq. Qed.

Lemma budget_update_ne cell cell' f s :
  cell ≠ cell' → budgets (budget_update cell f s) !! cell' = budgets s !! cell'.
Proof. intros. unfold budget_update. destruct (budgets s !! cell); [by apply lookup_insert_ne|done]. Qed.

Lemma budget_update_next cell f s : next_cell (budget_update cell f s) = next_cell s.
Proof. unfold budget_update. by destruct (budgets s !! cell). Qed.

(** ** A request's budget and what it is spent on

    The counter of a request that several forks share, the budgets delegated to
    calls in flight, the retries made, and what settled calls did not give back. *)

Record Ledger :=
  { ld_cells : Cells; ld_out : list RetryBudgetDelegation; ld_spent : N; ld_kept : N }.

Inductive ledger_event :=
| Consume
| Delegate (available : N)
| Reconcile (call : nat) (returned : option rstr)
| ChildConsume (call : nat).

Section ledger.
Context (ctx : Context).

(** One atomic step of the request: [ctx] stands for all the forks that share
    its counter, and [available] for any earlier reading of it. *)
Definition ledger_step (l : Ledger) (e : ledger_event) : Ledger :=
  match e with
  | Consume =>
      let '(granted, s) := try_consume_retry_budget ctx (ld_cells l) in
      {| ld_cells := s; ld_out := ld_out l; ld_spent := ld_spent l + (if granted then 1 else 0);
         ld_kept := ld_kept l |}
  | Delegate available =>
      let '(d, s) := delegate_with available ctx (ld_cells l) in
      {| ld_cells := s; ld_out := d :: ld_out l; ld_spent := ld_spent l; ld_kept := ld_kept l |}
  | Reconcile call returned =>
      match ld_out l !! call with
      | Some d =>
          let '(_, s) := reconcile_delegated_retry_budget ctx d returned (ld_cells l) in
          {| ld_cells := s; ld_out := delete call (ld_out l); ld_spent := ld_spent l;
             ld_kept := ld_kept l +
               (rd_allocated d - N.min (default 0 (returned ≫= parse_uint U64_MAX)) (rd_allocated d)) |}
      | None => l
      end
  | ChildConsume call =>
      match ld_out l !! call with
      | Some d =>
          {| ld_cells := (try_consume_retry_budget (rd_context d) (ld_cells l)).2; ld_out := ld_out l;
             ld_spent := ld_spent l; ld_kept := ld_kept l |}
      | None => l
      end
  end.

Definition ledger_run (l : Ledger) (es : list ledger_event) : Ledger := foldl ledger_step l es.

Definition outstanding (l : list RetryBudgetDelegation) : N := foldr (λ d n, rd_allocated d + n) 0 l.

(** A delegated budget: a counter of its own, never above what was allocated. *)
Definition child_ok (cell : N) (s : Cells) (d : RetryBudgetDelegation) : Prop :=
  ∃ cell' n, retry_budget (rd_context d) = Some cell' ∧ cell' ≠ cell ∧ cell' < next_cell s ∧
             budgets s !! cell' = Some n ∧ n ≤ rd_allocated d.

Record ledger_inv (cell initial : N) (l : Ledger) (n : N) : Prop :=
  { li_counter : budgets (ld_cells l) !! cell = Some n;
    li_cell : cell < next_cell (ld_cells l);
    li_total : n + outstanding (ld_out l) + ld_spent l + ld_kept l = initial;
    li_children : Forall (child_ok cell (ld_cells l)) (ld_out l) }.

Lemma outstanding_delete l i d :
  l !! i = Some d → outstanding l = rd_allocated d + outstanding (delete i l).
Proof.
  revert i. induction l as [|d' l IH]; intros [|i] H; simpl in *; simplify_eq; [done|].
  rewrite (IH i) by done. unfold outstanding. lia.
Qed.

(** An update of the request's own counter keeps the children. *)
Lemma children_update cell f s out :
  Forall (child_ok cell s) out → Forall (child_ok cell (budget_update cell f s)) out.
Proof.
  intros H. eapply Forall_impl; [exact H|]. intros d (cell' & n & ? & ? & ? & ? & ?). exists cell', n.
  rewrite budget_update_ne, budget_update_next by done. done.
Qed.

Lemma ledger_consume cell initial l n :
  retry_budget ctx = Some cell → ledger_inv cell initial l n →
  ∃ n', ledger_inv cell initial (ledger_step l Consume) n'.
Proof.
  intros Hc [Hn Hlt Ht Hch]. cbn. unfold try_consume_retry_budget. rewrite Hc, Hn.
  destruct (N.eqb_spec n 0) as [->|Hn0].
  - exists 0. split; cbn [ld_cells ld_out ld_spent ld_kept]; rewrite ?N.add_0_r; done.
  - exists (n - 1).
    assert (set_budget (ld_cells l) cell (n - 1) = budget_update cell (λ n, n - 1) (ld_cells l)) as E
      by (unfold budget_update; by rewrite Hn).
    cbv beta iota zeta. rewrite E.
    split; cbn [ld_cells ld_out ld_spent ld_kept].
    + by rewrite (budget_update_eq _ _ _ n).
    + by rewrite budget_update_next.
    + lia.
    + by apply children_update.
Qed.

Lemma ledger_delegate cell initial l n available :
  retry_budget ctx = Some cell → initial ≤ MAX_PROPAGATED_RETRY_BUDGET → ledger_inv cell initial l n →
  ∃ n', ledger_inv cell initial (ledger_step l (Delegate available)) n'.
Proof.
  intros Hc Hi [Hn Hlt Ht Hch]. cbn [ledger_step]. unfold delegate_with, take_retry_budget_up_to.
  rewrite Hc, Hn. cbn [default from_option id].
  set (s := budget_update cell _ _). set (a := N.min n (available / 2)).
  assert (budgets s !! cell = Some (n - a)) as Hs by (unfold s, a; by rewrite (budget_update_eq _ _ _ n)).
  assert (next_cell s = next_cell (ld_cells l)) as Hx by (apply budget_update_next).
  assert (Forall (child_ok cell s) (ld_out l)) as Hch' by (by apply children_update).
  unfold with_retry_budget. exists (n - a). assert (a ≤ n) by lia. clearbody s a.
  split; cbn [ld_cells ld_out ld_spent ld_kept budgets next_cell outstanding foldr rd_allocated].
  - rewrite lookup_insert_ne by lia. done.
  - lia.
  - fold (outstanding (ld_out l)). lia.
  - constructor.
    + exists (next_cell s), (N.min a MAX_PROPAGATED_RETRY_BUDGET). cbn -[N.min]. rewrite lookup_insert_eq.
      split_and!; [done|lia|lia|done|apply N.le_min_l].
    + eapply Forall_impl; [exact Hch'|]. intros d (cell' & m & ? & ? & ? & ? & ?). exists cell', m. cbn.
      rewrite lookup_insert_ne by lia. split_and!; [done..|lia|done|done].
Qed.

Lemma ledger_reconcile cell initial l n call returned :
  retry_budget ctx = Some cell → initial ≤ MAX_PROPAGATED_RETRY_BUDGET → ledger_inv cell initial l n →
  ∃ n', ledger_inv cell initial (ledger_step l (Reconcile call returned)) n'.
Proof.
  intros Hc Hi Hl. cbn [ledger_step]. destruct (ld_out l !! call) as [d|] eqn:Hd; [|by exists n].
  destruct Hl as [Hn Hlt Ht Hch]. unfold reconcile_delegated_retry_budget.
  set (r := N.min _ (rd_allocated d)). assert (r ≤ rd_allocated d) as Hr by (unfold r; lia). clearbody r.
  rewrite (outstanding_delete _ _ _ Hd) in Ht. unfold restore_retry_budget. rewrite Hc.
  destruct (N.eqb_spec r 0) as [->|Hr0].
  - exists n. split; cbn [ld_cells ld_out ld_spent ld_kept]; [done..|lia|by apply Forall_delete].
  - exists (n + r). split; cbn [ld_cells ld_out ld_spent ld_kept].
    + rewrite (budget_update_eq _ _ _ n) by done. f_equal.
      unfold sat_add, MAX_PROPAGATED_RETRY_BUDGET in *. lia.
    + by rewrite budget_update_next.
    + lia.
    + apply children_update. by apply Forall_delete.
Qed.

Lemma ledger_child cell initial l n call :
  ledger_inv cell initial l n → ledger_inv cell initial (ledger_step l (ChildConsume call)) n.
Proof.
  intros Hl. cbn [ledger_step]. destruct (ld_out l !! call) as [d|] eqn:Hd; [|done].
  destruct Hl as [Hn Hlt Ht Hch].
  destruct (proj1 (Forall_lookup _ _) Hch _ _ Hd) as (cd & m & Hcd & Hne & Hlt' & Hm & Hle).
  unfold try_consume_retry_budget. rewrite Hcd, Hm.
  destruct (N.eqb_spec m 0); [by split|].
  split; cbn; [by rewrite lookup_insert_ne|done..|].
  eapply Forall_impl; [exact Hch|]. intros d' (c' & m' & ? & ? & ? & Hm' & ?).
  destruct (N.eq_dec cd c') as [<-|].
  - exists cd, (m - 1). cbn. rewrite lookup_insert_eq. simplify_eq. split_and!; [done..|lia].
  - exists c', m'. cbn. by rewrite lookup_insert_ne.
Qed.

Lemma ledger_run_inv cell initial es l n :
  retry_budget ctx = Some cell → initial ≤ MAX_PROPAGATED_RETRY_BUDGET → ledger_inv cell initial l n →
  ∃ n', ledger_inv cell initial (ledger_run l es) n'.
Proof.
  intros Hc Hi. revert l n. induction es as [|e es IH]; intros l n Hl; [by exists n|].
  assert (∃ n', ledger_inv cell initial (ledger_step l e) n') as [n' Hn'].
  { destruct e; [by eapply ledger_consume|by eapply ledger_delegate|by eapply ledger_reconcile|].
    exists n. by apply ledger_child. }
  by apply (IH _ n').
Qed.
End ledger.

(** ** Properties *)

(** A request's retry budget is conserved. Whatever steps the forks of a request
    that entered with a budget [b] take, in any order: retries that consume it,
    delegations to downstream calls (from readings of the counter that may be
    stale), settlements with whatever the responses claim to return, retries
    under the delegated budgets; the remaining counter, the budgets delegated to
    calls in flight, the retries made and what settled calls kept add up to
    [min b 64], and a delegated context never holds more than was allocated to it. *)
Theorem retry_budget_conserved b c0 s0 es :
  let '(ctx, s) := with_retry_budget b c0 s0 in
  let l := ledger_run ctx {| ld_cells := s; ld_out := []; ld_spent := 0; ld_kept := 0 |} es in
  (∃ n, retry_budget_remaining (ld_cells l) ctx = Some n ∧
        n + outstanding (ld_out l) + ld_spent l + ld_kept l = N.min b MAX_PROPAGATED_RETRY_BUDGET) ∧
  ∀ d, d ∈ ld_out l →
    ∃ m, retry_budget_remaining (ld_cells l) (rd_context d) = Some m ∧ m ≤ rd_allocated d.
Proof.
  unfold with_retry_budget. set (ctx := set_retry_budget _ c0).
  set (cell := next_cell s0). set (i := N.min b MAX_PROPAGATED_RETRY_BUDGET).
  set (s := Build_Cells _ _ _). cbn zeta.
  destruct (ledger_run_inv ctx cell i es {| ld_cells := s; ld_out := []; ld_spent := 0; ld_kept := 0 |} i)
    as [n [Hn _ Ht Hch]].
  - done.
  - unfold i. lia.
  - split; cbn; [by rewrite lookup_insert_eq|lia|lia|constructor].
  - split.
    + exists n. split; [|done]. unfold retry_budget_remaining. cbn. exact Hn.
    + intros d Hd. rewrite Forall_forall in Hch. destruct (Hch d Hd) as (c' & m & Hc' & _ & _ & Hm & Hle).
      exists m. unfold retry_budget_remaining. rewrite Hc'. by split.
Qed.
