(* ===== verification/Propagation.v ===== *)
(** * Propagation of the request context (crates/roze-context/src/context.rs)

    The round trip of Context.v through headers: what [propagation_headers]
    writes, [from_propagation_headers] restores in the next process. *)

From S2P Require Import Prelude Text Scan Context.

(** ** Iteration *)

(** Inserting under new names, which do not meet. *)
Lemma foldl_rename_other {V} (f : rstr → rstr) (l : list (rstr * V)) (h : gmap rstr V) name :
  (∀ kv, kv ∈ l → f kv.1 ≠ name) → foldl (λ h kv, <[f kv.1 := kv.2]> h) h l !! name = h !! name.
Proof.
  revert h. induction l as [|kv l IH]; intros h H; [done|]. cbn. rewrite IH.
  - apply lookup_insert_ne. apply H. by left.
  - intros. apply H. by right.
Qed.

Lemma foldl_rename_at {V} (f : rstr → rstr) (l : list (rstr * V)) (h : gmap rstr V) k v :
  Inj (=) (=) f → NoDup l.*1 → (k, v) ∈ l → foldl (λ h kv, <[f kv.1 := kv.2]> h) h l !! f k = Some v.
Proof.
  intros Hf. revert h. induction l as [|kv l IH]; intros h Hn Hin; [by apply not_elem_of_nil in Hin|].
  cbn in Hn. apply NoDup_cons in Hn as [Hkv Hn]. cbn. apply elem_of_cons in Hin as [<-|Hin]; [|by apply IH].
  cbn [fst snd]. rewrite foldl_rename_other; [by apply lookup_insert_eq|].
  intros [k' v'] Hin ?%Hf. cbn in *. subst. apply Hkv. apply list_elem_of_fmap. by exists (k, v').
Qed.

(** Collecting under the names a partial function gives. *)
Definition collect_names {V} (f : rstr → option rstr) (m : gmap rstr V) (l : list (rstr * V)) : gmap rstr V :=
  foldl (λ m nv, match f nv.1 with Some key => <[key := nv.2]> m | None => m end) m l.

Lemma collect_names_cons {V} (f : rstr → option rstr) (m : gmap rstr V) nv l :
  collect_names f m (nv :: l) =
    collect_names f (match f nv.1 with Some key => <[key := nv.2]> m | None => m end) l.
Proof. done. Qed.

Lemma collect_names_other {V} (f : rstr → option rstr) (m : gmap rstr V) l k :
  (∀ nv, nv ∈ l → f nv.1 ≠ Some k) → collect_names f m l !! k = m !! k.
Proof.
  revert m. induction l as [|nv l IH]; intros m H; [done|]. rewrite collect_names_cons, IH; [|intros; apply H; by right].
  destruct (f nv.1) as [k'|] eqn:E; [|done]. apply lookup_insert_ne. intros ->. apply (H nv); [by left|done].
Qed.

Lemma collect_names_exact {V} (f : rstr → option rstr) (m : gmap rstr V) l n v k :
  (∀ n n' v v' k, (n, v) ∈ l → (n', v') ∈ l → f n = Some k → f n' = Some k → n = n') →
  NoDup l.*1 → (n, v) ∈ l → f n = Some k →
  collect_names f m l !! k = Some v.
Proof.
  revert m. induction l as [|nv l IH]; intros m Hf Hn Hin Hk; [by apply not_elem_of_nil in Hin|].
  cbn in Hn. apply NoDup_cons in Hn as [Hnv Hn]. rewrite collect_names_cons.
  apply elem_of_cons in Hin as [<-|Hin].
  - cbn [fst snd]. rewrite Hk, collect_names_other; [by apply lookup_insert_eq|].
    intros [n' v'] Hin Hk'. cbn [fst] in *.
    assert (n = n') as -> by (eapply Hf; [by left|by right|done|done]).
    apply Hnv. apply list_elem_of_fmap. by exists (n', v').
  - apply IH; [|done..]. intros n1 n2 v1 v2 k0 H1 H2. eapply Hf; by right.
Qed.

(** ** Reading headers *)

Definition lower (s : rstr) : Prop := str_to_ascii_lowercase s = s.
Definition lower_keys (h : gmap rstr rstr) : Prop := ∀ k, is_Some (h !! k) → lower k.

Lemma header_value_lower h name : lower_keys h → lower name → header_value h name = h !! name.
Proof.
  intros Hh Hn. unfold header_value.
  destruct (List.find _ _) as [[k v]|] eqn:E.
  - apply List.find_some in E as [Hin He]. apply list_elem_of_In, elem_of_btree_iter in Hin.
    unfold eq_ignore_ascii_case in He. guard_prop. cbn [fst snd fmap option_fmap option_map] in *.
    assert (lower k) as Hk by (apply Hh; by exists v). unfold lower in *. rewrite Hk, Hn in He. by subst.
  - cbn. destruct (h !! name) as [v|] eqn:Hv; [|done].
    apply elem_of_btree_iter, list_elem_of_In in Hv. apply (List.find_none _ _ E) in Hv.
    unfold eq_ignore_ascii_case in Hv. by guard_prop.
Qed.

Lemma lookup_insert_some name o h k :
  insert_some name o h !! k = if decide (name = k) then match o with Some v => Some v | None => h !! k end
                              else h !! k.
Proof.
  unfold insert_some. destruct o as [v|]; [|by case_decide]. case_decide as E.
  - subst. apply lookup_insert_eq.
  - by apply lookup_insert_ne.
Qed.

(** ** Lists in a header *)

Definition item_ok (r : rstr) : Prop := r ≠ [] ∧ trim r = r ∧ lacks 44 r = true.

Lemma split_on_join rs :
  rs ≠ [] → Forall item_ok rs → split_on (λ ch, ch =? 44) (join (lit ",") rs) = rs.
Proof.
  intros Hne H. induction H as [|r rs (_ & _ & Hr) H IH]; [done|].
  destruct rs as [|r' rs]; [by apply split_on_piece|].
  change (join (lit ",") (r :: r' :: rs)) with (r ++ 44 :: join (lit ",") (r' :: rs)).
  rewrite split_on_app by done. f_equal. by apply IH.
Qed.

Lemma items_kept rs : Forall item_ok rs → str_filter nonempty (trim <$> rs) = rs.
Proof.
  intros H. induction H as [|r rs (Hr & Ht & _) H IH]; [done|].
  cbn [fmap list_fmap]. rewrite Ht. unfold str_filter in *. rewrite filter_cons_True, IH; [done|].
  by destruct r.
Qed.

(** ** Contexts that travel

    Identifiers and subject are not empty (an empty one is regenerated, or
    dropped), a tenant is not empty, roles are trimmed and hold no comma, and
    metadata keys are in lower case. *)

Definition auth_portable (a : AuthContext) : Prop :=
  a_subject a ≠ [] ∧ a_tenant a ≠ Some [] ∧ Forall item_ok (a_roles a).

Record portable (s : Cells) (now : N) (c : Context) : Prop :=
  { po_request : request_id c ≠ [];
    po_trace : trace_id c ≠ [];
    po_auth : ∀ a, auth c = Some a → auth_portable a;
    po_metadata : lower_keys (metadata c);
    po_timeout : ∀ t, remaining_timeout now c = Some t → t / 1000000 ≤ U64_MAX;
    po_budget : ∀ n, retry_budget_remaining s c = Some n → n ≤ MAX_PROPAGATED_RETRY_BUDGET }.

(** ** The headers as a list *)

(** Optional headers, each inserted when it has a value. *)
Definition assemble (l : list (rstr * option rstr)) (h : gmap rstr rstr) : gmap rstr rstr :=
  foldl (λ h no, insert_some no.1 no.2 h) h l.

Lemma insert_some_ne name o h k : name ≠ k → insert_some name o h !! k = h !! k.
Proof. intros. unfold insert_some. destruct o; [by apply lookup_insert_ne|done]. Qed.

Lemma assemble_cons n o l h : assemble ((n, o) :: l) h = assemble l (insert_some n o h).
Proof. done. Qed.

Lemma assemble_other l h name : name ∉ l.*1 → assemble l h !! name = h !! name.
Proof.
  revert h. induction l as [|[n o] l IH]; intros h H; [done|]. cbn in H.
  apply not_elem_of_cons in H as [Hn H]. rewrite assemble_cons, IH by done. by apply insert_some_ne.
Qed.

Lemma assemble_at l name o : NoDup l.*1 → (name, o) ∈ l → assemble l ∅ !! name = o.
Proof.
  assert (∀ h, h !! name = None → NoDup l.*1 → (name, o) ∈ l → assemble l h !! name = o) as H; [|by apply H].
  induction l as [|[n o'] l IH]; intros h Hh Hn Hin; [by apply not_elem_of_nil in Hin|].
  cbn in Hn. rewrite assemble_cons. apply NoDup_cons in Hn as [Hno Hn].
  apply elem_of_cons in Hin as [[= <- <-]|Hin].
  - rewrite assemble_other by done. destruct o; [apply lookup_insert_eq|done].
  - apply IH; [|done..]. rewrite insert_some_ne; [done|]. intros ->. apply Hno.
    apply list_elem_of_fmap. by exists (name, o).
Qed.

Section round_trip.
Context (s : Cells) (now : N) (c : Context) (Hc : portable s now c).

Definition base_list : list (rstr * option rstr) :=
  [ (REQUEST_ID_HEADER, Some (request_id c)); (TRACE_ID_HEADER, Some (trace_id c));
    (TIMEOUT_HEADER, (λ t, dec (N.max (t / 1000000) 1)) <$> remaining_timeout now c);
    (RETRY_BUDGET_HEADER, dec <$> retry_budget_remaining s c);
    (SUBJECT_HEADER, a_subject <$> auth c); (TENANT_HEADER, auth c ≫= a_tenant);
    (ROLES_HEADER, a ← auth c; match a_roles a with [] => None | rs => Some (join (lit ",") rs) end);
    (IDEMPOTENCY_KEY_HEADER, idempotency_key c) ].

Definition base_names : list rstr :=
  [ REQUEST_ID_HEADER; TRACE_ID_HEADER; TIMEOUT_HEADER; RETRY_BUDGET_HEADER; SUBJECT_HEADER; TENANT_HEADER;
    ROLES_HEADER; IDEMPOTENCY_KEY_HEADER ].

Lemma base_headers_list : base_headers s now c = assemble base_list ∅.
Proof. unfold base_headers, base_list. destruct (auth c) as [[su [|r rs] te]|]; reflexivity. Qed.

Lemma base_list_names : base_list.*1 = base_names.
Proof. reflexivity. Qed.

Lemma base_names_facts :
  NoDup base_names ∧ Forall (λ n, lower n ∧ strip_prefix METADATA_HEADER_PREFIX n = None) base_names.
Proof. unfold lower. decide_closed. Qed.

(** What a name that is not a metadata header reads. *)
Lemma plain_header name :
  strip_prefix METADATA_HEADER_PREFIX name = None →
  propagation_headers s now c !! name = base_headers s now c !! name.
Proof.
  intros Hn. unfold propagation_headers.
  rewrite (foldl_rename_other (λ k, METADATA_HEADER_PREFIX ++ k)); [done|].
  intros kv _ <-. by rewrite strip_prefix_app in Hn.
Qed.

Lemma metadata_header k : propagation_headers s now c !! (METADATA_HEADER_PREFIX ++ k) = metadata c !! k.
Proof.
  unfold propagation_headers. destruct (metadata c !! k) as [v|] eqn:E.
  - apply (foldl_rename_at (λ k, METADATA_HEADER_PREFIX ++ k)).
    + intros a b. apply app_inv_head.
    + rewrite btree_iter_keys. apply NoDup_btree_keys.
    + by apply elem_of_btree_iter.
  - rewrite (foldl_rename_other (λ k, METADATA_HEADER_PREFIX ++ k)).
    + rewrite base_headers_list, assemble_other; [done|]. rewrite base_list_names.
      intros Hin. destruct base_names_facts as [_ Hf]. rewrite Forall_forall in Hf.
      destruct (Hf _ Hin) as [_ Hs]. by rewrite strip_prefix_app in Hs.
    + intros [k' v'] Hin%elem_of_btree_iter Hk'%app_inv_head. cbn in *. by simplify_eq.
Qed.

Lemma lower_headers : lower_keys (propagation_headers s now c).
Proof.
  intros name [v Hv]. destruct (strip_prefix METADATA_HEADER_PREFIX name) as [k|] eqn:E.
  - apply strip_prefix_Some in E as ->. rewrite metadata_header in Hv.
    assert (lower METADATA_HEADER_PREFIX) as Hp by (vm_compute; reflexivity).
    assert (lower k) as Hk by (apply (po_metadata _ _ _ Hc); by exists v).
    unfold lower, str_to_ascii_lowercase in *. by rewrite fmap_app, Hp, Hk.
  - rewrite plain_header in Hv by done. rewrite base_headers_list in Hv.
    destruct (decide (name ∈ base_names)) as [Hin|Hin].
    + destruct base_names_facts as [_ Hf]. rewrite Forall_forall in Hf. by apply Hf.
    + rewrite <- base_list_names in Hin. by rewrite assemble_other in Hv.
Qed.

(** A header of the list is read back; other plain headers are absent. *)
Lemma read_base name o : (name, o) ∈ base_list → header_value (propagation_headers s now c) name = o.
Proof.
  intros Hin. assert (name ∈ base_names) as Hb.
  { rewrite <- base_list_names. apply list_elem_of_fmap. by exists (name, o). }
  destruct base_names_facts as [Hd Hf]. rewrite Forall_forall in Hf. destruct (Hf _ Hb) as [Hl Hs].
  rewrite header_value_lower, plain_header, base_headers_list by (done || apply lower_headers).
  by apply assemble_at.
Qed.

Lemma read_absent name :
  bool_decide (lower name ∧ strip_prefix METADATA_HEADER_PREFIX name = None ∧ name ∉ base_names) = true →
  header_value (propagation_headers s now c) name = None.
Proof.
  intros (Hl & Hs & Hn)%bool_decide_eq_true. rewrite header_value_lower by (done || apply lower_headers).
  rewrite plain_header, base_headers_list by done. by rewrite assemble_other.
Qed.

Lemma collected_metadata :
  collect_names (λ n, strip_prefix METADATA_HEADER_PREFIX (str_to_ascii_lowercase n)) ∅
    (btree_iter (propagation_headers s now c)) = metadata c.
Proof.
  set (h := propagation_headers s now c).
  assert (∀ n, is_Some (h !! n) → str_to_ascii_lowercase n = n) as Hl by apply lower_headers.
  assert (NoDup (btree_iter h).*1) as Hd by (rewrite btree_iter_keys; apply NoDup_btree_keys).
  apply map_eq. intros k. destruct (metadata c !! k) as [v|] eqn:E.
  - assert (h !! (METADATA_HEADER_PREFIX ++ k) = Some v) as Hv by (by unfold h; rewrite metadata_header).
    apply (collect_names_exact _ _ _ (METADATA_HEADER_PREFIX ++ k)).
    + intros n n' v1 v2 k0 Hn%elem_of_btree_iter Hn'%elem_of_btree_iter.
      rewrite (Hl n), (Hl n') by eauto. by intros ->%strip_prefix_Some ->%strip_prefix_Some.
    + done.
    + by apply elem_of_btree_iter.
    + rewrite Hl by eauto. apply strip_prefix_app.
  - rewrite collect_names_other; [done|]. intros [n v] Hn%elem_of_btree_iter. cbn [fst].
    rewrite Hl by eauto. intros ->%strip_prefix_Some. unfold h in Hn. rewrite metadata_header in Hn. congruence.
Qed.

Lemma metadata_restored :
  metadata_from_headers_with_aliases (propagation_headers s now c) HULA_HEADER_ALIASES = metadata c.
Proof.
  unfold metadata_from_headers_with_aliases. pose proof collected_metadata as Hm.
  unfold collect_names in Hm. rewrite Hm. cbn [al_metadata HULA_HEADER_ALIASES foldl fst snd].
  rewrite !read_absent by (vm_compute; reflexivity). cbn [filter_nonempty mbind option_bind insert_some].
  assert (∀ k, match metadata c !! k with Some _ => metadata c | None => metadata c end = metadata c) as Hk
    by (intros k; by destruct (metadata c !! k)).
  rewrite !Hk. destruct (metadata c !! IDEMPOTENCY_KEY_METADATA_KEY) eqn:E; [done|].
  rewrite (read_base IDEMPOTENCY_KEY_HEADER (idempotency_key c)) by (unfold base_list; set_solver).
  unfold idempotency_key, metadata_value. by rewrite E.
Qed.

Lemma auth_restored :
  auth_from_headers_with_aliases (propagation_headers s now c) HULA_HEADER_ALIASES = auth c.
Proof.
  unfold auth_from_headers_with_aliases, header_value_with_aliases.
  rewrite (read_base SUBJECT_HEADER (a_subject <$> auth c)) by (unfold base_list; set_solver).
  rewrite (read_base TENANT_HEADER (auth c ≫= a_tenant)) by (unfold base_list; set_solver).
  rewrite (read_base ROLES_HEADER
    (a ← auth c; match a_roles a with [] => None | rs => Some (join (lit ",") rs) end))
    by (unfold base_list; set_solver).
  cbn [al_subject al_tenant al_roles HULA_HEADER_ALIASES find_map].
  rewrite !read_absent by (vm_compute; reflexivity).
  destruct (auth c) as [[su rs te]|] eqn:Ha; [|done].
  destruct (po_auth _ _ _ Hc _ Ha) as (Hs & Ht & Hr). cbn in Hs, Ht, Hr. cbn [fmap option_fmap option_map mbind option_bind a_subject a_tenant a_roles].
  destruct su as [|x su]; [done|]. cbn [filter_nonempty nonempty str_is_empty negb mbind option_bind].
  f_equal. f_equal.
  - destruct rs as [|r rs]; [done|]. rewrite split_on_join by done. by apply items_kept.
  - destruct te as [[|y te]|]; done.
Qed.
End round_trip.

Lemma restored_context s now c generated now' s' :
  portable s now c →
  let '(c', s'') := from_propagation_headers generated (propagation_headers s now c) now' s' in
  request_id c' = request_id c ∧ trace_id c' = trace_id c ∧ auth c' = auth c ∧
  metadata c' = metadata c ∧
  deadline c' = (λ t, now' + from_millis (N.max (t / 1000000) 1)) <$> remaining_timeout now c ∧
  retry_budget_remaining s'' c' = retry_budget_remaining s c ∧ cancelled s'' c' = false.
Proof.
  intros Hc. unfold from_propagation_headers, from_propagation_headers_with_aliases.
  rewrite metadata_restored by done. unfold apply_auth. rewrite auth_restored by done.
  unfold apply_timeout, apply_retry_budget, retry_budget_from_headers, header_value_with_aliases.
  rewrite (read_base s now c Hc REQUEST_ID_HEADER (Some (request_id c))) by (unfold base_list; set_solver).
  rewrite (read_base s now c Hc TRACE_ID_HEADER (Some (trace_id c))) by (unfold base_list; set_solver).
  rewrite (read_base s now c Hc TIMEOUT_HEADER
    ((λ t, dec (N.max (t / 1000000) 1)) <$> remaining_timeout now c)) by (unfold base_list; set_solver).
  rewrite (read_base s now c Hc RETRY_BUDGET_HEADER (dec <$> retry_budget_remaining s c))
    by (unfold base_list; set_solver).
  destruct Hc as [Hr Ht _ _ Hto Hb].
  destruct (request_id c) as [|x rid]; [done|]. destruct (trace_id c) as [|y tid]; [done|].
  cbn [filter_nonempty nonempty str_is_empty negb mbind option_bind default from_option id background_with_ids].
  assert (∀ t, remaining_timeout now c = Some t →
    parse_uint U64_MAX (dec (N.max (t / 1000000) 1)) = Some (N.max (t / 1000000) 1)) as Hpt
    by (intros t Hti%Hto; apply parse_uint_dec; lia).
  assert (∀ n, retry_budget_remaining s c = Some n → parse_uint U64_MAX (dec n) = Some n ∧
    N.min n MAX_PROPAGATED_RETRY_BUDGET = n) as Hpb
    by (intros n Hn%Hb; unfold MAX_PROPAGATED_RETRY_BUDGET in *; split; [apply parse_uint_dec|]; lia).
  destruct (remaining_timeout now c) as [t|]; destruct (retry_budget_remaining s c) as [n|];
    cbn [fmap option_fmap option_map mbind option_bind]; rewrite ?(Hpt t eq_refl);
    try (destruct (Hpb n eq_refl) as [-> Hmin]);
    destruct (auth c); cbn -[from_millis N.max N.min]; unfold retry_budget_remaining, cancelled;
    cbn -[from_millis N.max N.min]; rewrite ?lookup_insert_eq, ?Hmin; done.
Qed.

(** A request whose deadline has passed has none in the next process. *)
Lemma expired_deadline_lost s now c generated now' s' d :
  portable s now c → deadline c = Some d → d < now →
  deadline (from_propagation_headers generated (propagation_headers s now c) now' s').1 = None.
Proof.
  intros Hc Hd Hlt. pose proof (restored_context s now c generated now' s' Hc) as H.
  destruct (from_propagation_headers _ _ _ _) as [c' s'']. destruct H as (_ & _ & _ & _ & H & _). cbn.
  rewrite H. unfold remaining_timeout. rewrite Hd. cbn. destruct (N.leb_spec now d); [lia|done].
Qed.

(** ** Properties *)

(** C16: a portable context survives its transport. A context is [portable] when
    its ids, subject and tenant are not empty, its roles are not empty, trimmed
    and comma-free, its metadata keys are lower case, its remaining time in
    milliseconds fits 64 bits and its retry budget is at most 64. Reading back
    the headers a portable context propagates gives, in a process with
    any cells [s'] and at any instant [now'], the same identifiers, principal and
    metadata and the same retry budget, a deadline as far from [now'] as the
    remaining time was, in whole milliseconds and at least one, and no
    cancellation. A deadline that has passed does not travel. *)
Theorem propagation_roundtrip s now c generated now' s' :
  portable s now c →
  let '(c', s'') := from_propagation_headers generated (propagation_headers s now c) now' s' in
  request_id c' = request_id c ∧ trace_id c' = trace_id c ∧ auth c' = auth c ∧
  metadata c' = metadata c ∧
  deadline c' = (λ t, now' + from_millis (N.max (t / 1000000) 1)) <$> remaining_timeout now c ∧
  retry_budget_remaining s'' c' = retry_budget_remaining s c ∧ cancelled s'' c' = false.
Proof. apply restored_context. Qed.

(** ** Witnesses *)

Definition ex_context : Context :=
  {| request_id := lit "request-1"; trace_id := lit "trace-1";
     auth := Some {| a_subject := lit "user-1"; a_roles := [lit "admin"; lit "ops"]; a_tenant := Some (lit "t1") |};
     metadata := {[ IDEMPOTENCY_KEY_METADATA_KEY := lit "order-1"; LOCALE_METADATA_KEY := lit "zh-CN" ]};
     deadline := Some (from_secs 3); retry_budget := Some 7; cancel_cell := 0; error := None |}.

Definition ex_cells : Cells := {| next_cell := 8; budgets := {[ 7 := 3 ]}; cancels := {[ 0 := (true, None) ]} |}.

Lemma ex_context_portable : portable ex_cells (from_secs 1) ex_context.
Proof.
  split; [done|done| | | |].
  - intros a [= <-]. split_and!; [done|done|]. cbn. repeat constructor; decide_closed.
  - intros k Hk. assert (k = IDEMPOTENCY_KEY_METADATA_KEY ∨ k = LOCALE_METADATA_KEY) as [-> | ->].
    { destruct (decide (k = IDEMPOTENCY_KEY_METADATA_KEY)); [by left|].
      destruct (decide (k = LOCALE_METADATA_KEY)); [by right|].
      unfold ex_context in Hk. cbn [metadata] in Hk.
      rewrite lookup_insert_ne, lookup_singleton_ne in Hk by congruence. by destruct Hk. }
    all: vm_compute; reflexivity.
  - intros t Ht. assert (t = from_secs 2) as -> by (vm_compute in Ht; vm_compute; congruence).
    vm_compute. discriminate.
  - intros n Hn. assert (n = 3) as -> by (vm_compute in Hn; congruence). vm_compute. discriminate.
Qed.

Lemma propagation_roundtrip_witness :
  portable ex_cells (from_secs 1) ex_context ∧
  let '(c', s'') := from_propagation_headers (lit "new")
                      (propagation_headers ex_cells (from_secs 1) ex_context) 0 Cells_empty in
  deadline c' = Some (from_secs 2) ∧ retry_budget_remaining s'' c' = Some 3 ∧ roles c' = [lit "admin"; lit "ops"].
Proof.
  split; [exact ex_context_portable|].
  pose proof (propagation_roundtrip ex_cells (from_secs 1) ex_context (lit "new") 0 Cells_empty
                ex_context_portable) as H.
  destruct (from_propagation_headers _ _ _ _) as [c' s'']. destruct H as (_ & _ & Ha & _ & Hd & Hb & _).
  split_and!.
  - rewrite Hd. vm_compute. reflexivity.
  - rewrite Hb. vm_compute. reflexivity.
  - unfold roles. rewrite Ha. reflexivity.
Defined.
