(* ===== verification/Guards.v ===== *)
(** * Route and method guards (crates/roze-middleware/src/lib.rs, crates/roze-rpc/src/rpc.rs)

    Every governed REST route and RPC method is entered through the breaker and
    the load shedder of its operation, and holds a guard that settles both when
    it is finished or dropped. REST and RPC keep registries of their own; a value
    of [Admission] is one of the two pairs. The breaker and the shedder are
    locked one after the other, so an execution is a list of such steps.
    Metrics and logs, with the identifiers they print, are not modelled. *)

From S2P Require Import Prelude Text Scan Breaker Resilience RateLimit Policy Errors Context Governed.

Record Admission := { ad_breakers : BreakerRegistry; ad_shedders : SheddingRegistry }.

Definition Admission_new : Admission := {| ad_breakers := BreakerRegistry_new; ad_shedders := ∅ |}.

(** [RouteGuard], [MethodGuard]. *)
Record Guard :=
  { g_key : rstr; g_service : rstr; g_operation : rstr; g_started : N; g_breaker : option BreakerConfig;
    g_breaker_permit : option BreakerPermit; g_shedding : option SheddingConfig; g_finished : bool }.

(** ** The two gates and the settlement *)

(** The error is the time after which to retry. *)
Definition breaker_admit (key : rstr) (breaker : option BreakerConfig) (a : Admission) (now : N)
    : result N (option BreakerPermit) * Admission :=
  match breaker with
  | Some config =>
      let '(decision, r) := BreakerRegistry_allow (ad_breakers a) key now in
      let a := {| ad_breakers := r; ad_shedders := ad_shedders a |} in
      (match decision with
       | Allow permit => Ok (Some permit)
       | Breaker.Reject => Err (default (reset_timeout config) (BreakerRegistry_retry_after r key now))
       end, a)
  | None => (Ok None, a)
  end.

Definition shedding_admit (key : rstr) (shedding : option SheddingConfig) (a : Admission) (now : N)
    : bool * Admission :=
  match shedding with
  | Some config =>
      let '(allowed, r) := SheddingRegistry_allow (ad_shedders a) key config now in
      (allowed, {| ad_breakers := ad_breakers a; ad_shedders := r |})
  | None => (true, a)
  end.

Definition breaker_record (key : rstr) (permit : BreakerPermit) (success : bool) (config : BreakerConfig)
    (a : Admission) (now : N) : Admission :=
  {| ad_breakers :=
       if success then BreakerRegistry_record_success (ad_breakers a) key permit
       else BreakerRegistry_record_failure (ad_breakers a) key permit config now;
     ad_shedders := ad_shedders a |}.

Definition breaker_cancel (key : rstr) (permit : BreakerPermit) (config : BreakerConfig)
    (a : Admission) (now : N) : Admission :=
  {| ad_breakers := BreakerRegistry_cancel (ad_breakers a) key permit config now;
     ad_shedders := ad_shedders a |}.

(** What finishing does to the registries. *)
Definition settle_guard (g : Guard) (success : bool) (a : Admission) (now : N) : Admission :=
  let elapsed := now - g_started g in
  let a := match g_breaker g, g_breaker_permit g with
           | Some config, Some permit => breaker_record (g_key g) permit success config a now
           | _, _ => a
           end in
  match g_shedding g with
  | Some config =>
      {| ad_breakers := ad_breakers a;
         ad_shedders := SheddingRegistry_record (ad_shedders a) (g_key g) success elapsed config now |}
  | None => a
  end.

(** [Drop]: nothing once finished. *)
Definition drop_guard (g : Guard) (a : Admission) (now : N) : Admission :=
  if g_finished g then a
  else
    let a := match g_breaker g, g_breaker_permit g with
             | Some config, Some permit => breaker_cancel (g_key g) permit config a now
             | _, _ => a
             end in
    match g_shedding g with
    | Some _ => {| ad_breakers := ad_breakers a;
                   ad_shedders := SheddingRegistry_release (ad_shedders a) (g_key g) |}
    | None => a
    end.

Definition mark_finished (g : Guard) : Guard :=
  {| g_key := g_key g; g_service := g_service g; g_operation := g_operation g; g_started := g_started g;
     g_breaker := g_breaker g; g_breaker_permit := g_breaker_permit g; g_shedding := g_shedding g;
     g_finished := true |}.

(** A finished guard is dropped at the end of the function that finishes it. *)
Definition finish_guard (g : Guard) (success : bool) (a : Admission) (now : N) : Admission :=
  drop_guard (mark_finished g) (settle_guard g success a now) now.

(** ** REST routes *)

Record RouteRateLimitConfig :=
  { rl_burst : N; rl_refill : N; rl_tokens_per_refill : N; rl_key : RateLimitKeyPolicy }.

(** [RoutePolicy], [MethodPolicy]. *)
Record RoutePolicy (Value : Type) :=
  { rp_timeout : option N; rp_rate_limit : option RouteRateLimitConfig; rp_breaker : option BreakerConfig;
    rp_shedding : option SheddingConfig; rp_fallback : option (GovernanceFallbackConfig Value) }.
Arguments rp_timeout {Value}. Arguments rp_rate_limit {Value}. Arguments rp_breaker {Value}.
Arguments rp_shedding {Value}. Arguments rp_fallback {Value}.

Definition RoutePolicy_none (Value : Type) : RoutePolicy Value :=
  {| rp_timeout := None; rp_rate_limit := None; rp_breaker := None; rp_shedding := None; rp_fallback := None |}.

Section boundary.
Context {Value : Type} `{JsonBody Value}.
Implicit Types governance : option (GovernanceConfig Value).

Definition route_policy governance (route : rstr) : RoutePolicy Value :=
  match governance with
  | None => RoutePolicy_none Value
  | Some governance =>
      let policy := resolve_policy governance route in
      let rate_limit := resolve_rate_limit_config governance route in
      {| rp_timeout := timeout policy;
         rp_rate_limit := (λ c, {| rl_burst := lc_burst c; rl_refill := from_millis (lc_refill_ms c);
                                   rl_tokens_per_refill := lc_tokens_per_refill c; rl_key := lc_key c |})
                          <$> rate_limit;
         rp_breaker := (λ c, {| failure_threshold := failure_threshold c; reset_timeout := reset_timeout c |})
                       <$> breaker policy;
         rp_shedding := (λ c, {| concurrency := concurrency c; window := window c;
                                 min_samples := min_samples c; max_avg_latency := max_avg_latency c;
                                 max_failure_ratio_per_mille := max_failure_ratio_per_mille c;
                                 cool_down := cool_down c |}) <$> shedding policy;
         rp_fallback := (λ f, {| fc_enabled := true; fc_status := fb_status Value f; fc_body := fb_body Value f;
                                 fc_headers := fb_headers Value f |}) <$> fallback policy |}
  end.

Definition route_fallback governance (route : rstr) : option (GovernanceFallbackConfig Value) :=
  rp_fallback (route_policy governance route).

Definition apply_fallback (error : RozeError Value) (fallback : option (GovernanceFallbackConfig Value))
    : RozeError Value :=
  if is_client_error error then error
  else match fallback with
       | None => error
       | Some f => Fallback (fc_status f) (fc_body f) (fc_headers f)
       end.

Definition enforce_permissions (request_ctx : Context) (required : list rstr) : result (RozeError Value) unit :=
  match required with
  | [] => Ok tt
  | _ => if has_permissions required request_ctx then Ok tt else Err Forbidden
  end.

Definition circuit_open_error (retry_after : N) : RozeError Value :=
  unavailable_with_retry_after (lit "circuit open") retry_after.

Definition route_key (service route method : rstr) : OperationKey :=
  OperationKey_new service Rest (method ++ lit ":" ++ route).

Definition apply_policy_timeout (policy : RoutePolicy Value) (now : N) (ctx : Context) : Context :=
  match rp_timeout policy with Some t => with_timeout now t ctx | None => ctx end.

(** The guard of an operation between the gates and its settlement. *)
Definition new_guard (key service operation : rstr) (policy : RoutePolicy Value)
    (permit : option BreakerPermit) (now : N) : Guard :=
  {| g_key := key; g_service := service; g_operation := operation; g_started := now;
     g_breaker := rp_breaker policy; g_breaker_permit := permit; g_shedding := rp_shedding policy;
     g_finished := false |}.

Definition begin_route (service route method : rstr) (request_ctx : Context) governance
    (a : Admission) (now : N) : result (RozeError Value) (Context * Guard) * Admission :=
  let policy := route_policy governance route in
  let key := route_key service route method in
  match breaker_admit key (rp_breaker policy) a now with
  | (Err retry_after, a) => (Err (circuit_open_error retry_after), a)
  | (Ok permit, a) =>
      match shedding_admit key (rp_shedding policy) a now with
      | (false, a) => (Err (Unavailable (lit "load shed")), a)
      | (true, a) =>
          (Ok (apply_policy_timeout policy now request_ctx,
               new_guard key service (method ++ lit ":" ++ route) policy permit now), a)
      end
  end.

(** Only server errors count as failures. *)
Definition finish_route (g : Guard) (success : bool) (status : rstr) (a : Admission) (now : N) : Admission :=
  finish_guard g (success || negb (starts_with (lit "5") status)) a now.

(** ** The shared limiter in front of a route *)

Definition enforce_route_rate_limit {S} `{RateLimitStore S} (sha256 : list N → list N)
    (limiter : RateLimiter) (service route method : rstr) (request_ctx : Context)
    (client_ip : option rstr) (headers : list (rstr * rstr)) governance (now : N) (s : S)
    : result (RozeError Value) unit * S :=
  match rp_rate_limit (route_policy governance route) with
  | None => (Ok tt, s)
  | Some config =>
      let identity :=
        {| RateLimit.service := service; boundary := lit "rest"; operation := method ++ lit ":" ++ route;
           RateLimit.client_ip := client_ip; id_subject := subject request_ctx;
           id_tenant := tenant request_ctx; id_headers := ∅ |} in
      let identity := with_headers headers identity in
      let '(decision, s) :=
        RateLimiter_check sha256 limiter (rl_key config) identity
          {| RateLimit.burst := rl_burst config; RateLimit.refill := rl_refill config;
             RateLimit.tokens_per_refill := rl_tokens_per_refill config |} now s in
      (match decision with
       | Ok d => if allowed d then Ok tt else Err (rate_limited (retry_after d))
       | Err StoreUnavailable => Err (Unavailable (lit "rate limit store unavailable"))
       | Err _ => Err (rate_limited (from_secs 1))
       end, s)
  end.

(** ** RPC methods *)

(** The codes of gRPC the crate uses, and a status with its metadata. *)
Inductive Code :=
| CodeCancelled | CodeUnknown | CodeInvalidArgument | CodeDeadlineExceeded | CodeNotFound | CodeAborted
| CodePermissionDenied | CodeResourceExhausted | CodeFailedPrecondition | CodeUnimplemented
| CodeInternal | CodeUnavailable | CodeDataLoss | CodeUnauthenticated.
Record Status := { st_code : Code; st_message : rstr; st_metadata : gmap rstr rstr }.

Definition duration_seconds_ceil (d : N) : N := N.max (seconds_ceil d) 1.

Definition circuit_open_status (retry_after : N) : Status :=
  {| st_code := CodeUnavailable; st_message := lit "circuit open";
     st_metadata := <[lit "retry-after" := dec (duration_seconds_ceil retry_after)]>
                    (<[lit "x-roze-error-kind" := lit "unavailable"]>
                     (<[lit "x-roze-error-code" := lit "503"]> ∅)) |}.

Definition begin_method (service method : rstr) (request_ctx : Context) governance
    (a : Admission) (now : N) : result Status (Context * Guard) * Admission :=
  let policy := route_policy governance method in
  let key := OperationKey_new service Rpc method in
  match breaker_admit key (rp_breaker policy) a now with
  | (Err retry_after, a) => (Err (circuit_open_status retry_after), a)
  | (Ok permit, a) =>
      match shedding_admit key (rp_shedding policy) a now with
      | (false, a) =>
          (Err {| st_code := CodeUnavailable; st_message := lit "load shed"; st_metadata := ∅ |}, a)
      | (true, a) =>
          (Ok (apply_policy_timeout policy now request_ctx, new_guard key service method policy permit now), a)
      end
  end.

Definition finish_method (g : Guard) (code : rstr) (a : Admission) (now : N) : Admission :=
  finish_guard g (bool_decide (code = lit "ok")) a now.
End boundary.

(** ** Public routes and bearer tokens *)

Definition entry_matches (method path entry : rstr) : bool :=
  let entry := trim entry in
  if str_is_empty entry then false
  else
    let '(allowed_method, pattern) :=
      match drop_until is_whitespace entry with
      | [] => (None, entry)
      | _ :: rest => (Some (trim (take_until is_whitespace entry)), trim rest)
      end in
    if match allowed_method with Some m => negb (eq_ignore_ascii_case m method) | None => false end then false
    else match strip_suffix (lit "*") pattern with
         | Some prefix => starts_with prefix path
         | None => str_eqb path pattern
         end.

Definition route_is_public (method path : rstr) (allowlist : list rstr) : bool :=
  existsb (entry_matches method path) allowlist.

(** [value]: the authorization header, when it is visible ASCII. *)
Definition bearer_token (value : option rstr) : option rstr :=
  value ← value;
  st ← split_once (lit " ") value;
  if eq_ignore_ascii_case st.1 (lit "bearer") && negb (str_is_empty (trim st.2)) then Some (trim st.2) else None.

Example public_routes :
  route_is_public (lit "GET") (lit "/health/live") [lit " "; lit "get /health/*"] = true ∧
  route_is_public (lit "POST") (lit "/health/live") [lit " "; lit "get /health/*"] = false ∧
  route_is_public (lit "POST") (lit "/login") [lit "/login"] = true ∧
  bearer_token (Some (lit "BEARER  abc ")) = Some (lit "abc") ∧ bearer_token (Some (lit "Basic x")) = None.
Proof. vm_compute. done. Qed.

(** A route's timeout replaces the deadline the request came with, even a nearer one. *)
Lemma begin_route_deadline {Value} `{JsonBody Value} service route method ctx
    (governance : option (GovernanceConfig Value)) a now ctx' g a' t :
  begin_route service route method ctx governance a now = (Ok (ctx', g), a') →
  rp_timeout (route_policy governance route) = Some t → deadline ctx' = Some (now + t).
Proof.
  intros Hb Ht. unfold begin_route in Hb.
  destruct (breaker_admit _ _ _ _) as [[permit|] a1]; [|done].
  destruct (shedding_admit _ _ _ _) as [[] a2]; [|done]. injection Hb as <- _ _.
  unfold apply_policy_timeout. by rewrite Ht.
Qed.
