(* ===== verification/GuardLife.v ===== *)
(** * Executions of guarded operations

    The requests of one boundary (REST or RPC) as a list of steps over the
    registries of Guards.v: passing the breaker, passing the shedder, finishing
    or dropping a guard, in any interleaving. What the registries hold is related
    to the requests that are under way; a probe permit that no guard carries
    blocks its operation for good. *)

From S2P Require Import Prelude Text Breaker Resilience RateLimit Policy Errors Context Governed Guards.

(** ** Lists *)

Lemma countp_delete {A} (P : A → Prop) `{∀ x, Decision (P x)} l i x :
  l !! i = Some x → countp P l = ((if decide (P x) then 1 else 0) + countp P (delete i l))%nat.
Proof.
  revert i. induction l as [|y l IH]; intros [|i] Hi; simpl in *; simplify_eq.
  - by rewrite countp_cons.
  - rewrite !countp_cons, (IH i) by done. lia.
Qed.

(** ** Executions *)

(** Requests between the two gates ([gw_pending], guards without their slot yet),
    guards held by requests under way, and the operations whose half-open probe
    was refused by the shedder. *)
Record GuardWorld :=
  { gw_admission : Admission; gw_pending : list Guard; gw_guards : list Guard; gw_lost : list rstr }.

Inductive guard_event :=
| Admit (key : rstr) (breaker : option BreakerConfig) (shedding : option SheddingConfig) (now : N)
| Enter (i : nat) (now : N)
| Finish (i : nat) (success : bool) (now : N)
| Drop_ (i : nat) (now : N).

Definition is_probe (g : Guard) : bool :=
  match g_breaker_permit g with Some PermitProbe => true | _ => false end.

Definition make_guard (key : rstr) (breaker : option BreakerConfig) (shedding : option SheddingConfig)
    (permit : option BreakerPermit) (now : N) : Guard :=
  {| g_key := key; g_service := []; g_operation := []; g_started := now; g_breaker := breaker;
     g_breaker_permit := permit; g_shedding := shedding; g_finished := false |}.

Definition guard_step (w : GuardWorld) (e : guard_event) : GuardWorld :=
  match e with
  | Admit key breaker shedding now =>
      match breaker_admit key breaker (gw_admission w) now with
      | (Err _, a) =>
          {| gw_admission := a; gw_pending := gw_pending w; gw_guards := gw_guards w; gw_lost := gw_lost w |}
      | (Ok permit, a) =>
          {| gw_admission := a; gw_pending := make_guard key breaker shedding permit now :: gw_pending w;
             gw_guards := gw_guards w; gw_lost := gw_lost w |}
      end
  | Enter i now =>
      match gw_pending w !! i with
      | Some g =>
          match shedding_admit (g_key g) (g_shedding g) (gw_admission w) now with
          | (true, a) =>
              {| gw_admission := a; gw_pending := delete i (gw_pending w); gw_guards := g :: gw_guards w;
                 gw_lost := gw_lost w |}
          | (false, a) =>
              {| gw_admission := a; gw_pending := delete i (gw_pending w); gw_guards := gw_guards w;
                 gw_lost := if is_probe g then g_key g :: gw_lost w else gw_lost w |}
          end
      | None => w
      end
  | Finish i success now =>
      match gw_guards w !! i with
      | Some g =>
          {| gw_admission := finish_guard g success (gw_admission w) now; gw_pending := gw_pending w;
             gw_guards := delete i (gw_guards w); gw_lost := gw_lost w |}
      | None => w
      end
  | Drop_ i now =>
      match gw_guards w !! i with
      | Some g =>
          {| gw_admission := drop_guard g (gw_admission w) now; gw_pending := gw_pending w;
             gw_guards := delete i (gw_guards w); gw_lost := gw_lost w |}
      | None => w
      end
  end.

Definition guard_run (w : GuardWorld) (es : list guard_event) : GuardWorld := foldl guard_step w es.

Definition GuardWorld_new : GuardWorld :=
  {| gw_admission := Admission_new; gw_pending := []; gw_guards := []; gw_lost := [] |}.

(** [concurrency] is a [usize]. *)
Definition event_in_range (e : guard_event) : Prop :=
  match e with Admit _ _ (Some c) _ => concurrency c ≤ U64_MAX | _ => True end.

(** ** What the registries account for *)

Definition holds_slot (key : rstr) (g : Guard) : Prop := g_key g = key ∧ is_Some (g_shedding g).
Definition holds_probe (key : rstr) (g : Guard) : Prop := g_key g = key ∧ is_probe g = true.
#[export] Instance holds_slot_dec key g : Decision (holds_slot key g).
Proof. unfold holds_slot. apply _. Defined.
#[export] Instance holds_probe_dec key g : Decision (holds_probe key g).
Proof. unfold holds_probe. apply _. Defined.

(** The requests with the probe of [key]. *)
Definition probes (key : rstr) (w : GuardWorld) : nat :=
  (countp (holds_probe key) (gw_pending w) + countp (holds_probe key) (gw_guards w))%nat.

Definition slots (key : rstr) (w : GuardWorld) : N := N.of_nat (countp (holds_slot key) (gw_guards w)).

Definition half_open (key : rstr) (w : GuardWorld) : Prop :=
  phase (breaker_entry (ad_breakers (gw_admission w)) key) = HalfOpen.

Definition guard_ok (g : Guard) : Prop :=
  (is_Some (g_breaker_permit g) → is_Some (g_breaker g)) ∧ g_finished g = false ∧
  ∀ c, g_shedding g = Some c → concurrency c ≤ U64_MAX.

Record accounted (w : GuardWorld) : Prop :=
  { ac_pending : Forall guard_ok (gw_pending w);
    ac_guards : Forall guard_ok (gw_guards w);
    ac_slots : ∀ key, in_flight (shed_entry (ad_shedders (gw_admission w)) key) = slots key w;
    ac_probes : ∀ key, (probes key w ≤ 1)%nat;
    ac_half_open : ∀ key, half_open key w ↔ probes key w = 1%nat ∨ key ∈ gw_lost w;
    ac_lost : ∀ key, key ∈ gw_lost w → probes key w = 0%nat }.

(** ** The gates *)

Lemma breaker_admit_spec key0 breaker a now :
  let '(r, a') := breaker_admit key0 breaker a now in
  ad_shedders a' = ad_shedders a ∧
  (∀ key, key ≠ key0 → breaker_entry (ad_breakers a') key = breaker_entry (ad_breakers a) key) ∧
  let old := phase (breaker_entry (ad_breakers a) key0) in
  let new := phase (breaker_entry (ad_breakers a') key0) in
  match r with
  | Err _ | Ok None => new = old
  | Ok (Some PermitClosed) => is_Some breaker ∧ old ≠ HalfOpen ∧ new ≠ HalfOpen
  | Ok (Some PermitProbe) => is_Some breaker ∧ old ≠ HalfOpen ∧ new = HalfOpen
  end.
Proof.
  unfold breaker_admit. destruct breaker as [config|]; [|done].
  unfold BreakerRegistry_allow. pose proof (allow_entry_phase (breaker_entry (ad_breakers a) key0) now) as Hp.
  destruct (allow_entry _ now) as [d s] eqn:E. cbn [ad_breakers ad_shedders]. cbn zeta.
  assert (∀ key, key ≠ key0 →
    breaker_entry (<[key0 := s]> (ad_breakers a)) key = breaker_entry (ad_breakers a) key) as Hf
    by (intros; by apply breaker_entry_insert_ne).
  unfold allow_entry in E. set (st := breaker_entry (ad_breakers a) key0) in *. clear Hp.
  destruct (phase st) eqn:Ep;
    [|destruct (match open_until st with Some until => now <? until | None => false end)|];
    injection E as <- <-; (split; [done|]); (split; [exact Hf|]); rewrite breaker_entry_insert; cbn [phase];
    rewrite ?Ep; try done; (split; [by eexists|done]).
Qed.

Lemma shedding_admit_spec key0 shedding a now :
  (∀ c, shedding = Some c → concurrency c ≤ U64_MAX) →
  let '(ok, a') := shedding_admit key0 shedding a now in
  ad_breakers a' = ad_breakers a ∧
  ∀ key, in_flight (shed_entry (ad_shedders a') key) =
    in_flight (shed_entry (ad_shedders a) key) +
      (if ok && bool_decide (key0 = key ∧ is_Some shedding) then 1 else 0).
Proof.
  intros Hc. unfold shedding_admit. destruct shedding as [config|].
  2:{ split; [done|]. intros key. rewrite bool_decide_eq_false_2 by naive_solver. simpl. lia. }
  specialize (Hc config eq_refl).
  destruct (SheddingRegistry_allow_spec (ad_shedders a) key0 config now) as (H1 & H2 & _ & H3).
  rewrite <- H1 in H2. destruct (SheddingRegistry_allow _ _ _ _) as [ok r]; cbn [fst snd ad_breakers ad_shedders] in *.
  split; [done|]. intros key. destruct (decide (key0 = key)) as [<-|Hne].
  - rewrite H2. rewrite bool_decide_eq_true_2 by (split; [done|by eexists]). destruct ok; simpl; [|lia].
    symmetry in H1. apply andb_true_iff in H1 as [_ H1]. guard_prop. apply sat_add_small. lia.
  - rewrite H3 by done. rewrite bool_decide_eq_false_2 by naive_solver. rewrite andb_false_r. lia.
Qed.

(** ** The settlements *)

(** What a settlement of [g] does to the accounts. *)
Record released (g : Guard) (a a' : Admission) : Prop :=
  { re_slots : ∀ key, in_flight (shed_entry (ad_shedders a') key) =
      in_flight (shed_entry (ad_shedders a) key) - (if decide (holds_slot key g) then 1 else 0);
    re_phase : ∀ key,
      if decide (holds_probe key g) then phase (breaker_entry (ad_breakers a') key) ≠ HalfOpen
      else phase (breaker_entry (ad_breakers a') key) = HalfOpen ↔
           phase (breaker_entry (ad_breakers a) key) = HalfOpen }.

(** An entry after a settlement with a permit: a probe's never leaves it
    half-open, a closed permit's leaves that as it was. *)
Definition entry_settled (permit : BreakerPermit) (s s' : BreakerState) : Prop :=
  match permit with
  | PermitProbe => phase s' ≠ HalfOpen
  | PermitClosed => phase s' = HalfOpen ↔ phase s = HalfOpen
  end.

Lemma settled_entries s permit config now :
  entry_settled permit s (record_success_entry s permit) ∧
  entry_settled permit s (record_failure_entry s permit config now) ∧
  entry_settled permit s (cancel_entry s permit config now).
Proof.
  unfold entry_settled, record_success_entry, record_failure_entry, cancel_entry.
  destruct s as [f ph ou], permit, ph; cbn; try (destruct (_ <=? _)); cbn; naive_solver.
Qed.

(** A breaker registry after a settlement of [g]. *)
Definition breaker_settled (g : Guard) (r r' : BreakerRegistry) : Prop :=
  match g_breaker g, g_breaker_permit g with
  | Some _, Some permit =>
      entry_settled permit (breaker_entry r (g_key g)) (breaker_entry r' (g_key g)) ∧
      ∀ key, key ≠ g_key g → breaker_entry r' key = breaker_entry r key
  | _, _ => r' = r
  end.

Lemma breaker_settled_phase g r r' key :
  guard_ok g → breaker_settled g r r' →
  if decide (holds_probe key g) then phase (breaker_entry r' key) ≠ HalfOpen
  else phase (breaker_entry r' key) = HalfOpen ↔ phase (breaker_entry r key) = HalfOpen.
Proof.
  intros (Hb & _ & _) H. unfold breaker_settled in H.
  assert (∀ permit, g_breaker_permit g = Some permit →
    entry_settled permit (breaker_entry r (g_key g)) (breaker_entry r' (g_key g)) ∧
    ∀ key, key ≠ g_key g → breaker_entry r' key = breaker_entry r key) as Hs.
  { intros permit Ep. destruct (Hb ltac:(by eexists)) as [config Ec]. by rewrite Ec, Ep in H. }
  case_decide as Hd; unfold holds_probe, is_probe in Hd.
  - destruct Hd as [<- Hd]. destruct (g_breaker_permit g) as [[]|]; try done. by apply (Hs PermitProbe).
  - destruct (g_breaker_permit g) as [permit|].
    + destruct (Hs permit eq_refl) as [Hk Hf]. destruct (decide (key = g_key g)) as [->|]; [|by rewrite Hf].
      destruct permit; [exact Hk|]. by destruct Hd.
    + by destruct (g_breaker g); subst.
Qed.

Lemma breaker_frame reg key0 call now key :
  key ≠ key0 →
  breaker_entry (breaker_step reg {| ev_key := key0; ev_now := now; ev_call := call |}).2 key =
    breaker_entry reg key.
Proof. intros. by apply breaker_step_frame. Qed.

Lemma shedding_release_in_flight reg key :
  in_flight (shed_entry (SheddingRegistry_release reg key) key) = in_flight (shed_entry reg key) - 1.
Proof.
  unfold SheddingRegistry_release. destruct (reg !! key) as [s|] eqn:E.
  - rewrite shed_entry_insert. unfold shed_entry. by rewrite E.
  - unfold shed_entry. rewrite E. done.
Qed.

Lemma shedding_release_frame reg key0 key :
  key ≠ key0 → shed_entry (SheddingRegistry_release reg key0) key = shed_entry reg key.
Proof.
  intros. unfold SheddingRegistry_release. destruct (reg !! key0); [by apply shed_entry_insert_ne|done].
Qed.

Lemma shedding_record_frame reg key0 success latency config now key :
  key ≠ key0 → shed_entry (SheddingRegistry_record reg key0 success latency config now) key = shed_entry reg key.
Proof. intros. unfold SheddingRegistry_record. by apply shed_entry_insert_ne. Qed.

(** A shedding registry after a settlement of [g]. *)
Definition slot_settled (g : Guard) (r r' : SheddingRegistry) : Prop :=
  match g_shedding g with
  | Some _ =>
      in_flight (shed_entry r' (g_key g)) = in_flight (shed_entry r (g_key g)) - 1 ∧
      ∀ key, key ≠ g_key g → shed_entry r' key = shed_entry r key
  | None => r' = r
  end.

Lemma slot_settled_count g r r' key :
  slot_settled g r r' →
  in_flight (shed_entry r' key) = in_flight (shed_entry r key) - (if decide (holds_slot key g) then 1 else 0).
Proof.
  unfold slot_settled. intros H. case_decide as Hd; unfold holds_slot in Hd.
  - destruct Hd as [<- [c Hc]]. rewrite Hc in H. by destruct H as [-> _].
  - rewrite N.sub_0_r. destruct (g_shedding g) as [c|]; [|by subst].
    destruct H as [_ ->]; [done|]. intros ->. apply Hd. split; [done|by eexists].
Qed.

Lemma settled_released g a a' :
  guard_ok g → breaker_settled g (ad_breakers a) (ad_breakers a') →
  slot_settled g (ad_shedders a) (ad_shedders a') → released g a a'.
Proof. intros Hg Hb Hs. split; intros key; [by apply slot_settled_count|by apply breaker_settled_phase]. Qed.

Lemma settle_guard_released g success a now : guard_ok g → released g a (settle_guard g success a now).
Proof.
  intros Hg. apply settled_released; [done|..]; unfold breaker_settled, slot_settled, settle_guard.
  - destruct (g_breaker g) as [config|], (g_breaker_permit g) as [permit|], (g_shedding g); try done;
      cbn [ad_breakers breaker_record];
      destruct (settled_entries (breaker_entry (ad_breakers a) (g_key g)) permit config now) as (H1 & H2 & _);
      destruct success; unfold BreakerRegistry_record_success, BreakerRegistry_record_failure;
      rewrite breaker_entry_insert; (split; [done|]); intros; by apply breaker_entry_insert_ne.
  - destruct (g_shedding g), (g_breaker g), (g_breaker_permit g); try done; cbn [ad_shedders breaker_record];
      (split; [apply shedding_record_in_flight|]); intros; by apply shedding_record_frame.
Qed.

Lemma drop_guard_released g a now : guard_ok g → released g a (drop_guard g a now).
Proof.
  intros Hg. apply settled_released; [done|..]; unfold breaker_settled, slot_settled, drop_guard;
    rewrite (proj1 (proj2 Hg)).
  - destruct (g_breaker g) as [config|], (g_breaker_permit g) as [permit|], (g_shedding g); try done;
      cbn [ad_breakers breaker_cancel]; rewrite breaker_cancel_entry;
      (split; [apply settled_entries|]); intros key Hne;
      apply (breaker_frame (ad_breakers a) (g_key g) (CallCancel permit config) now key Hne).
  - destruct (g_shedding g), (g_breaker g), (g_breaker_permit g); try done; cbn [ad_shedders breaker_cancel];
      (split; [apply shedding_release_in_flight|]); intros; by apply shedding_release_frame.
Qed.

Lemma finish_guard_eq g success a now : finish_guard g success a now = settle_guard g success a now.
Proof. done. Qed.

(** ** The invariant *)

Lemma accounted_new : accounted GuardWorld_new.
Proof.
  split; cbn [GuardWorld_new gw_admission gw_pending gw_guards gw_lost]; [constructor|constructor|done|..];
    intros key; unfold probes; cbn.
  - lia.
  - split; [done|]. intros [?|?%not_elem_of_nil]; [lia|done].
  - by intros ?%not_elem_of_nil.
Qed.

Lemma guard_ok_make key breaker shedding permit now :
  (is_Some permit → is_Some breaker) → (∀ c, shedding = Some c → concurrency c ≤ U64_MAX) →
  guard_ok (make_guard key breaker shedding permit now).
Proof. intros H1 H2. split; [exact H1|]. split; [reflexivity|exact H2]. Qed.

Lemma accounted_admit w key0 breaker shedding now :
  (∀ c, shedding = Some c → concurrency c ≤ U64_MAX) → accounted w →
  accounted (guard_step w (Admit key0 breaker shedding now)).
Proof.
  intros Hc [Hp Hg Hs Hpr Hh Hl]. cbn [guard_step].
  pose proof (breaker_admit_spec key0 breaker (gw_admission w) now) as Ha.
  destruct (breaker_admit _ _ _ _) as [r a]. cbn zeta in Ha. destruct Ha as (Hsh & Hf & Hr).
  assert (∀ key, key ≠ key0 →
    phase (breaker_entry (ad_breakers a) key) = HalfOpen ↔ half_open key w) as Hne
    by (intros; unfold half_open; by rewrite Hf).
  assert (∀ key, ¬ half_open key w → probes key w ≠ 1%nat) as Hfree
    by (intros key Hn Hk; apply Hn, Hh; by left).
  destruct r as [permit|e].
  - set (g := make_guard key0 breaker shedding permit now).
    assert (guard_ok g) as Hgk by (apply guard_ok_make; [destruct permit as [[]|]; [by destruct Hr..|by intros [? ?]]|done]).
    assert (∀ key, holds_probe key g ↔ key = key0 ∧ permit = Some PermitProbe) as Hpg
      by (intros key; unfold holds_probe, is_probe, g; cbn; destruct permit as [[]|]; naive_solver).
    split; cbn [gw_admission gw_pending gw_guards gw_lost]; unfold probes in *; cbn [gw_pending gw_guards];
      [by constructor|done|by intros key; rewrite Hsh; apply Hs|..]; unfold half_open in *; cbn [gw_admission].
    + intros key. rewrite countp_cons. case_decide as Hd; [|apply Hpr]. apply Hpg in Hd as [-> ->].
      destruct Hr as (_ & Hold & _). specialize (Hpr key0). specialize (Hfree key0 Hold). lia.
    + intros key. rewrite countp_cons. case_decide as Hd.
      * apply Hpg in Hd as [-> ->]. destruct Hr as (_ & Hold & ->). split; [|done]. intros _. left.
        specialize (Hpr key0). specialize (Hfree key0 Hold). lia.
      * rewrite Nat.add_0_l, <- Hh. destruct (decide (key = key0)) as [->|]; [|by apply Hne].
        destruct permit as [[]|]; [naive_solver| |by rewrite Hr]. destruct Hd. by apply Hpg.
    + intros key Hin. rewrite countp_cons. case_decide as Hd; [|by apply Hl]. apply Hpg in Hd as [-> ->].
      destruct Hr as (_ & Hold & _). destruct Hold. apply Hh. by right.
  - split; cbn [gw_admission gw_pending gw_guards gw_lost]; try done.
    + intros key. rewrite Hsh. apply Hs.
    + intros key. change (probes key _) with (probes key w). rewrite <- Hh. unfold half_open. cbn [gw_admission].
      destruct (decide (key = key0)) as [->|]; [by rewrite Hr|by apply Hne].
Qed.

Lemma elem_lost key g lost :
  key ∈ (if is_probe g then g_key g :: lost else lost) ↔ holds_probe key g ∨ key ∈ lost.
Proof. unfold holds_probe. destruct (is_probe g); [rewrite elem_of_cons|]; naive_solver. Qed.

Lemma accounted_enter w i now : accounted w → accounted (guard_step w (Enter i now)).
Proof.
  intros [Hp Hg Hs Hpr Hh Hl]. cbn [guard_step]. destruct (gw_pending w !! i) as [g|] eqn:Ei; [|by split].
  pose proof (proj1 (Forall_lookup _ _) Hp _ _ Ei) as Hgk.
  pose proof (shedding_admit_spec (g_key g) (g_shedding g) (gw_admission w) now (proj2 (proj2 Hgk))) as Ha.
  destruct (shedding_admit _ _ _ _) as [ok a]. destruct Ha as [Hb Hsl].
  assert (∀ key, probes key w = ((if decide (holds_probe key g) then 1 else 0) +
    countp (holds_probe key) (delete i (gw_pending w)) + countp (holds_probe key) (gw_guards w))%nat) as Hc
    by (intros key; unfold probes; by rewrite (countp_delete _ _ _ _ Ei)).
  assert (∀ key, phase (breaker_entry (ad_breakers a) key) = HalfOpen ↔ half_open key w) as Hho
    by (intros; unfold half_open; by rewrite Hb).
  destruct ok.
  - assert (∀ key, probes key {| gw_admission := a; gw_pending := delete i (gw_pending w);
        gw_guards := g :: gw_guards w; gw_lost := gw_lost w |} = probes key w) as Hsame
      by (intros key; rewrite Hc; unfold probes; cbn [gw_pending gw_guards]; rewrite countp_cons; lia).
    split; cbn [gw_admission gw_pending gw_guards gw_lost]; [by apply Forall_delete|by constructor| | | |].
    + intros key. rewrite Hsl, Hs. unfold slots. cbn [gw_guards andb]. rewrite countp_cons.
      unfold holds_slot. repeat case_decide; repeat case_bool_decide; try lia; tauto.
    + intros key. rewrite Hsame. apply Hpr.
    + intros key. rewrite Hsame, <- Hh. apply Hho.
    + intros key. rewrite Hsame. apply Hl.
  - set (w' := Build_GuardWorld _ _ _ _).
    assert (∀ key, probes key w = ((if decide (holds_probe key g) then 1 else 0) + probes key w')%nat) as Hdel
      by (intros key; rewrite Hc; unfold probes, w'; cbn [gw_pending gw_guards]; lia).
    assert (∀ key, key ∈ gw_lost w' ↔ holds_probe key g ∨ key ∈ gw_lost w) as Hlost by (intros; apply elem_lost).
    split; [by apply Forall_delete|done| | | |].
    + intros key. unfold w'. cbn [gw_admission]. rewrite Hsl, Hs. cbn [andb]. rewrite N.add_0_r. done.
    + intros key. specialize (Hdel key). specialize (Hpr key). lia.
    + intros key. rewrite Hlost. change (half_open key w') with (phase (breaker_entry (ad_breakers a) key) = HalfOpen).
      rewrite Hho, Hh. specialize (Hdel key). specialize (Hpr key). case_decide as Hd.
      * split; [intros _; right; by left|]. intros _. left. lia.
      * rewrite Hdel, Nat.add_0_l. clear -Hd. tauto.
    + intros key. rewrite Hlost. specialize (Hdel key). specialize (Hpr key).
      intros [Hd|Hin%Hl]; [rewrite decide_True in Hdel by done|]; lia.
Qed.

Lemma accounted_release w i g a :
  gw_guards w !! i = Some g → released g (gw_admission w) a → accounted w →
  accounted {| gw_admission := a; gw_pending := gw_pending w; gw_guards := delete i (gw_guards w);
               gw_lost := gw_lost w |}.
Proof.
  intros Ei [Hrs Hrp] [Hp Hg Hs Hpr Hh Hl]. set (w' := Build_GuardWorld _ _ _ _).
  assert (∀ key, probes key w = ((if decide (holds_probe key g) then 1 else 0) + probes key w')%nat) as Hdel.
  { intros key. unfold probes, w'. cbn [gw_pending gw_guards]. rewrite (countp_delete _ _ _ _ Ei). lia. }
  split; [done|by apply Forall_delete| | | |by intros key Hin%Hl; specialize (Hdel key); lia].
  - intros key. unfold w'. cbn [gw_admission]. rewrite Hrs, Hs. unfold slots. cbn [gw_guards].
    rewrite (countp_delete (holds_slot key) _ _ _ Ei). case_decide; lia.
  - intros key. specialize (Hdel key). specialize (Hpr key). lia.
  - intros key. change (half_open key w') with (phase (breaker_entry (ad_breakers a) key) = HalfOpen).
    change (gw_lost w') with (gw_lost w).
    specialize (Hrp key). specialize (Hdel key). specialize (Hpr key). specialize (Hl key).
    specialize (Hh key). unfold half_open in Hh. case_decide.
    + split; [done|]. intros [?|Hin%Hl]; lia.
    + rewrite Hrp, Hh. assert (probes key w = probes key w') as -> by lia. done.
Qed.

Lemma accounted_step w e : event_in_range e → accounted w → accounted (guard_step w e).
Proof.
  intros He Hw. destruct e as [key breaker shedding now|i now|i success now|i now].
  - apply accounted_admit; [|done]. intros c ->. exact He.
  - by apply accounted_enter.
  - cbn [guard_step]. destruct (gw_guards w !! i) as [g|] eqn:Ei; [|done].
    apply (accounted_release _ _ g); [done| |done]. rewrite finish_guard_eq.
    apply settle_guard_released. exact (proj1 (Forall_lookup _ _) (ac_guards _ Hw) _ _ Ei).
  - cbn [guard_step]. destruct (gw_guards w !! i) as [g|] eqn:Ei; [|done].
    apply (accounted_release _ _ g); [done| |done].
    apply drop_guard_released. exact (proj1 (Forall_lookup _ _) (ac_guards _ Hw) _ _ Ei).
Qed.

Lemma accounted_run w es : Forall event_in_range es → accounted w → accounted (guard_run w es).
Proof.
  intros He. revert w. induction He as [|e es He _ IH]; intros w Hw; [done|].
  apply IH. by apply accounted_step.
Qed.

(** What is lost stays lost. *)
Lemma lost_step w e key : key ∈ gw_lost w → key ∈ gw_lost (guard_step w e).
Proof.
  intros H. destruct e as [k b s now|i now|i b now|i now]; cbn [guard_step]; repeat case_match; cbn [gw_lost]; try done.
  - by right.
Qed.

Lemma lost_run w es key : key ∈ gw_lost w → key ∈ gw_lost (guard_run w es).
Proof. revert w. induction es as [|e es IH]; intros w H; [done|]. apply IH. by apply lost_step. Qed.

(** ** The boundaries' functions are these steps *)

Section boundary.
Context {Value : Type} `{JsonBody Value}.
Implicit Types governance : option (GovernanceConfig Value).

(** The two gates in a row. *)
Definition enter_steps (key : rstr) (policy : RoutePolicy Value) (w : GuardWorld) (now : N) : GuardWorld :=
  let w' := guard_step w (Admit key (rp_breaker policy) (rp_shedding policy) now) in
  if bool_decide (length (gw_pending w') = length (gw_pending w)) then w' else guard_step w' (Enter 0 now).

(** What a request of either boundary does to the registries. *)
Lemma enter_steps_gates key policy w now :
  gw_admission (enter_steps key policy w now) =
    match breaker_admit key (rp_breaker policy) (gw_admission w) now with
    | (Err _, a) => a
    | (Ok _, a) => (shedding_admit key (rp_shedding policy) a now).2
    end.
Proof.
  unfold enter_steps. cbn [guard_step].
  destruct (breaker_admit _ _ _ _) as [[permit|e] a]; cbn [gw_pending length].
  - rewrite bool_decide_eq_false_2 by lia. cbn [lookup list_lookup g_key g_shedding make_guard gw_admission].
    by destruct (shedding_admit _ _ _ _) as [[] a'].
  - by rewrite bool_decide_eq_true_2.
Qed.

Lemma begin_route_steps service route method ctx governance w now :
  (begin_route service route method ctx governance (gw_admission w) now).2 =
    gw_admission (enter_steps (route_key service route method) (route_policy governance route) w now).
Proof.
  rewrite enter_steps_gates. unfold begin_route.
  destruct (breaker_admit _ _ _ _) as [[permit|e] a]; [|done].
  by destruct (shedding_admit _ _ _ _) as [[] a'].
Qed.

Lemma begin_method_steps service method ctx governance w now :
  (begin_method service method ctx governance (gw_admission w) now).2 =
    gw_admission (enter_steps (OperationKey_new service Rpc method) (route_policy governance method) w now).
Proof.
  rewrite enter_steps_gates. unfold begin_method.
  destruct (breaker_admit _ _ _ _) as [[permit|e] a]; [|done].
  by destruct (shedding_admit _ _ _ _) as [[] a'].
Qed.

(** A half-open breaker refuses, asking for a second's wait. *)
Lemma half_open_refused key config a now :
  phase (breaker_entry (ad_breakers a) key) = HalfOpen →
  (breaker_admit key (Some config) a now).1 = Err (from_secs 1).
Proof.
  intros Hp. unfold breaker_admit, BreakerRegistry_allow, allow_entry. rewrite Hp. cbn [fst].
  unfold BreakerRegistry_retry_after. rewrite lookup_insert_eq. cbn [mbind option_bind]. by rewrite Hp.
Qed.
End boundary.

(** ** Properties *)

(** C15: guards account for every permit and slot. In every execution of a boundary
    (requests of any operations and configurations passing the two gates,
    finishing and being dropped in any interleaving), the shedder's [in_flight]
    of an operation is the number of guards that hold one of its slots; at most
    one request holds the operation's half-open probe; the breaker is half-open
    exactly when some request holds the probe or a probe was refused by the
    shedder; and once no request is left and no probe was so refused, nothing is
    in flight and no breaker is half-open. *)
Theorem guards_account es key :
  Forall event_in_range es →
  let w := guard_run GuardWorld_new es in
  in_flight (shed_entry (ad_shedders (gw_admission w)) key) = slots key w ∧
  (probes key w ≤ 1)%nat ∧
  (half_open key w ↔ probes key w = 1%nat ∨ key ∈ gw_lost w) ∧
  (gw_pending w = [] → gw_guards w = [] → key ∉ gw_lost w →
   in_flight (shed_entry (ad_shedders (gw_admission w)) key) = 0 ∧ ¬ half_open key w).
Proof.
  intros He w. destruct (accounted_run GuardWorld_new es He accounted_new) as [_ _ Hs Hp Hh _].
  fold w in Hs, Hp, Hh. split_and!; [apply Hs|apply Hp|apply Hh|].
  intros Hpe Hgu Hlo. rewrite Hs. unfold slots. rewrite Hgu. split; [done|].
  rewrite Hh. unfold probes. rewrite Hpe, Hgu. cbn. intros [?|?]; [lia|done].
Qed.

(** A probe refused by the shedder blocks its operation. Once the breaker of an
    operation has granted its half-open probe to a request and the shedder has
    then refused that request, no later request of the operation is let in, at
    any time and whatever any requests do: REST answers that the circuit is open,
    RPC too, each asking to retry after a second. *)
Theorem shed_probe_blocks_operation {Value} `{JsonBody Value} es es' key :
  Forall event_in_range es → Forall event_in_range es' →
  key ∈ gw_lost (guard_run GuardWorld_new es) →
  let a := gw_admission (guard_run (guard_run GuardWorld_new es) es') in
  (∀ service route method ctx (governance : option (GovernanceConfig Value)) now,
     route_key service route method = key → is_Some (rp_breaker (route_policy governance route)) →
     (begin_route service route method ctx governance a now).1 = Err (circuit_open_error (from_secs 1))) ∧
  (∀ service method ctx (governance : option (GovernanceConfig Value)) now,
     OperationKey_new service Rpc method = key → is_Some (rp_breaker (route_policy governance method)) →
     (begin_method service method ctx governance a now).1 = Err (circuit_open_status (from_secs 1))).
Proof.
  intros He He' Hl a.
  assert (phase (breaker_entry (ad_breakers a) key) = HalfOpen) as Hp.
  { apply (ac_half_open _ (accounted_run _ _ He' (accounted_run _ _ He accounted_new))).
    right. by apply lost_run. }
  split.
  - intros service route method ctx governance now <- [config Hc]. unfold begin_route. rewrite Hc.
    pose proof (half_open_refused _ config _ now Hp) as Hr. destruct (breaker_admit _ _ _ _) as [r a'].
    cbn in Hr. by subst r.
  - intros service method ctx governance now <- [config Hc]. unfold begin_method. rewrite Hc.
    pose proof (half_open_refused _ config _ now Hp) as Hr. destruct (breaker_admit _ _ _ _) as [r a'].
    cbn in Hr. by subst r.
Qed.

(** ** Witnesses *)

Definition ex_breaker : BreakerConfig := {| failure_threshold := 1; reset_timeout := from_secs 3 |}.
(** One failed sample is an unhealthy window; it cools down for five seconds. *)
Definition ex_shed : SheddingConfig :=
  {| concurrency := 10; window := from_secs 10; min_samples := 1; max_avg_latency := from_secs 1;
     max_failure_ratio_per_mille := 500; cool_down := from_secs 5 |}.
Definition ex_key : rstr := lit "svc:rest:get:/users".
Definition ex_events : list guard_event :=
  [ Admit ex_key (Some ex_breaker) (Some ex_shed) 0; Enter 0 0; Finish 0 false 5;
    Admit ex_key (Some ex_breaker) (Some ex_shed) (from_secs 4); Enter 0 (from_secs 4) ].

Lemma guards_account_witness :
  Forall event_in_range ex_events ∧ probes ex_key (guard_run GuardWorld_new (take 4 ex_events)) = 1%nat ∧
  (probes ex_key (guard_run GuardWorld_new ex_events) ≤ 1)%nat.
Proof.
  assert (Forall event_in_range ex_events) as He by (repeat constructor; vm_compute; discriminate).
  split; [exact He|]. split; [vm_compute; reflexivity|]. apply (guards_account ex_events ex_key He).
Defined.

(** A breaker and a shedder that trip on the same failure: the probe comes while
    the shedder is still cooling down. *)
#[export] Instance unit_body : JsonBody unit := {| json_str _ _ := None; json_error _ _ := tt |}.

Definition ex_governed : GovernanceConfig unit :=
  {| gc_timeout_ms := None; gc_retry := None; gc_rate_limit := None; gc_rate_limiter := RateLimiterConfig_default;
     gc_breaker := Some {| bc_failure_threshold := 1; bc_reset_timeout_ms := 3000 |};
     gc_shedding := None; gc_fallback := None; gc_routes := ∅ |}.

Lemma shed_probe_blocks_operation_witness :
  ex_key ∈ gw_lost (guard_run GuardWorld_new ex_events) ∧
  ∀ ctx, (begin_route (lit "svc") (lit "/users") (lit "GET") ctx (Some ex_governed)
     (gw_admission (guard_run GuardWorld_new ex_events)) (from_secs 86400)).1 =
    Err (circuit_open_error (from_secs 1)).
Proof.
  assert (Forall event_in_range ex_events) as He by (repeat constructor; vm_compute; discriminate).
  assert (ex_key ∈ gw_lost (guard_run GuardWorld_new ex_events)) as Hl by decide_closed.
  split; [exact Hl|]. intros ctx.
  destruct (shed_probe_blocks_operation (Value := unit) ex_events [] ex_key He (Forall_nil_2 _) Hl) as [Hr _].
  apply Hr; [vm_compute; reflexivity|]. eexists. reflexivity.
Defined.
