(* ===== verification/Idempotency.v ===== *)
(** * Idempotent requests (crates/roze-middleware/src/lib.rs)

    The interface of idempotency stores, the in-memory store, the wrappers the
    generated handlers call, and the keys under which the in-memory and the Redis
    store keep a record. The in-memory store holds its lock for a whole call, so
    an execution of any handlers is a list of calls. A response is a JSON value
    of a library; the scripts Redis runs are not modelled. *)

From S2P Require Import Prelude Text Scan Errors.

Inductive IdempotencyDecision (Value : Type) :=
| Execute | Replay (response : Value) | InFlight | Conflict_.
Arguments Execute {Value}. Arguments Replay {Value}. Arguments InFlight {Value}. Arguments Conflict_ {Value}.

Record IdempotencyPolicy := { lease_millis : N }.
Definition IdempotencyPolicy_default : IdempotencyPolicy := {| lease_millis := 30000 |}.

Record IdempotencyRecord (Value : Type) :=
  { fingerprint : rstr; response : option Value; lease_until_millis : option N }.
Arguments fingerprint {Value}. Arguments response {Value}. Arguments lease_until_millis {Value}.

(** What a handler needs of a store: [begin], [complete] and [fail]. *)
Class IdempotencyStore (S Value : Type) :=
  { store_begin : rstr → rstr → rstr → N → IdempotencyPolicy → S → result rstr (IdempotencyDecision Value) * S;
    store_complete : rstr → rstr → rstr → Value → S → result rstr unit * S;
    store_fail : rstr → rstr → rstr → S → result rstr unit * S }.

Definition idempotency_key_from_headers (headers : list (rstr * rstr)) : option rstr :=
  snd <$> List.find (λ kv, eq_ignore_ascii_case kv.1 (lit "idempotency-key")) headers.

(** ** Wrappers *)

Section wrappers.
Context {S Value : Type} `{IdempotencyStore S Value}.
(** [serde_json::json!({"code": code, "message": message})] *)
Context (code_object : rstr → rstr → Value).

Definition idempotency_error (status : N) (code message : rstr) : RozeError Value :=
  Fallback status (Some (code_object code message)) {[ lit "x-roze-error-code" := code ]}.

Definition storage_unavailable (error : rstr) : RozeError Value :=
  idempotency_error 503 (lit "IDEMPOTENCY_STORAGE_UNAVAILABLE") (lit "idempotency storage unavailable: " ++ error).

Definition begin_idempotency (scope key fp : rstr) (now_millis : N) (s : S)
    : result (RozeError Value) (IdempotencyDecision Value) * S :=
  let '(r, s) := store_begin scope key fp now_millis IdempotencyPolicy_default s in
  (map_err storage_unavailable r, s).

Definition complete_idempotency (scope key fp : rstr) (v : Value) (s : S) : result (RozeError Value) unit * S :=
  let '(r, s) := store_complete scope key fp v s in (map_err storage_unavailable r, s).

(** A failure to release is logged only. *)
Definition fail_idempotency (scope key fp : rstr) (s : S) : S := (store_fail scope key fp s).2.
End wrappers.

(** ** The in-memory store *)

Section memory.
Context {Value : Type}.
Notation States := (gmap rstr (IdempotencyRecord Value)).

Definition storage_key (scope key : rstr) : rstr := scope ++ lit ":" ++ key.

Definition begin_record (r : option (IdempotencyRecord Value)) (fp : rstr) (now_millis : N)
    (policy : IdempotencyPolicy) : IdempotencyDecision Value * option (IdempotencyRecord Value) :=
  let lease := Some (sat_add U64_MAX now_millis (lease_millis policy)) in
  match r with
  | Some record =>
      if negb (str_eqb (fingerprint record) fp) then (Conflict_, r)
      else match response record with
           | Some v => (Replay v, r)
           | None =>
               if match lease_until_millis record with Some l => now_millis <? l | None => false end
               then (InFlight, r)
               else (Execute, Some {| fingerprint := fingerprint record; response := response record;
                                      lease_until_millis := lease |})
           end
  | None => (Execute, Some {| fingerprint := fp; response := None; lease_until_millis := lease |})
  end.

Definition memory_begin (scope key fp : rstr) (now_millis : N) (policy : IdempotencyPolicy) (s : States)
    : IdempotencyDecision Value * States :=
  let k := storage_key scope key in
  let '(d, r) := begin_record (s !! k) fp now_millis policy in
  (d, match r with Some r => <[k := r]> s | None => s end).

Definition memory_complete (scope key fp : rstr) (v : Value) (s : States) : result rstr unit * States :=
  let k := storage_key scope key in
  match s !! k with
  | None => (Err (lit "idempotency request was not started"), s)
  | Some record =>
      if negb (str_eqb (fingerprint record) fp)
      then (Err (lit "idempotency request fingerprint changed"), s)
      else (Ok tt, <[k := {| fingerprint := fingerprint record; response := Some v;
                              lease_until_millis := None |}]> s)
  end.

Definition memory_fail (scope key fp : rstr) (s : States) : States :=
  let k := storage_key scope key in
  match s !! k with
  | Some record =>
      if str_eqb (fingerprint record) fp && match response record with None => true | Some _ => false end
      then delete k s else s
  | None => s
  end.

#[export] Instance memory_idempotency_store : IdempotencyStore States Value :=
  {| store_begin scope key fp now policy s :=
       let '(d, s) := memory_begin scope key fp now policy s in (Ok d, s);
     store_complete := memory_complete;
     store_fail scope key fp s := (Ok tt, memory_fail scope key fp s) |}.

(** ** Executions *)

Inductive idem_call :=
| Begin (now_millis : N) (policy : IdempotencyPolicy)
| Complete (v : Value)
| FailCall.

Record idem_event := { ie_scope : rstr; ie_key : rstr; ie_fp : rstr; ie_call : idem_call }.

Definition idem_step (s : States) (e : idem_event) : option (IdempotencyDecision Value) * States :=
  match ie_call e with
  | Begin now policy =>
      let '(d, s) := memory_begin (ie_scope e) (ie_key e) (ie_fp e) now policy s in (Some d, s)
  | Complete v => (None, (memory_complete (ie_scope e) (ie_key e) (ie_fp e) v s).2)
  | FailCall => (None, memory_fail (ie_scope e) (ie_key e) (ie_fp e) s)
  end.

Definition idem_run (s : States) (es : list idem_event) : States := foldl (λ s e, (idem_step s e).2) s es.

Definition on_key (k : rstr) (e : idem_event) : Prop := storage_key (ie_scope e) (ie_key e) = k.

(** A [fail] that could take back the execution of [fp] under [k]. *)
Definition takes_back (k fp : rstr) (e : idem_event) : Prop := on_key k e ∧ ie_fp e = fp ∧ ie_call e = FailCall.

(** ** Lemmas *)

Lemma idem_step_frame s e k : ¬ on_key k e → (idem_step s e).2 !! k = s !! k.
Proof.
  intros Hk. unfold idem_step, on_key in *. destruct (ie_call e) as [now policy|v|].
  - unfold memory_begin. destruct (begin_record _ _ _ _) as [d [r|]]; [by apply lookup_insert_ne|done].
  - unfold memory_complete. destruct (s !! storage_key _ _); [|done].
    destruct (negb _); [done|by apply lookup_insert_ne].
  - unfold memory_fail. destruct (s !! storage_key _ _); [|done].
    destruct (_ && _); [by apply lookup_delete_ne|done].
Qed.

(** The lease of an execution that began at [t] and may still run. *)
Definition leased (fp : rstr) (until : N) (r : IdempotencyRecord Value) : Prop :=
  fingerprint r = fp ∧ (response r = None → ∃ l, lease_until_millis r = Some l ∧ until ≤ l).

(** The record keeps its fingerprint, and its lease or response, through every
    call but a matching [fail] and a later execution; calls at instants before
    [until] are not answered [Execute]. *)
Lemma leased_step s e k fp until r :
  s !! k = Some r → leased fp until r → ¬ takes_back k fp e →
  (∀ now policy, on_key k e → ie_call e = Begin now policy → now < until) →
  ∃ r', (idem_step s e).2 !! k = Some r' ∧ leased fp until r' ∧
        (on_key k e → (idem_step s e).1 ≠ Some Execute).
Proof.
  intros Hr [Hfp Hl] Hf Hnow. destruct (decide (storage_key (ie_scope e) (ie_key e) = k)) as [Hk|Hk].
  2:{ exists r. rewrite idem_step_frame by done. done. }
  unfold idem_step, takes_back, on_key in *. destruct (ie_call e) as [now policy|v|].
  - specialize (Hnow now policy Hk eq_refl). unfold memory_begin. rewrite Hk, Hr. cbn [begin_record].
    destruct (str_eqb_spec (fingerprint r) (ie_fp e)) as [He|He]; cbn [negb].
    + destruct (response r) as [v|] eqn:Ev.
      * exists r. cbn [fst snd]. rewrite lookup_insert_eq. repeat split; [done|congruence|done].
      * destruct (Hl eq_refl) as (l & El & Hle). rewrite El, (proj2 (N.ltb_lt now l)) by lia.
        exists r. cbn [fst snd]. rewrite lookup_insert_eq. repeat split; [done|by exists l|done].
    + exists r. cbn [fst snd]. rewrite lookup_insert_eq. repeat split; done.
  - unfold memory_complete. rewrite Hk, Hr. destruct (str_eqb _ _); cbn [negb snd]; [|by exists r].
    eexists. rewrite lookup_insert_eq. repeat split; done.
  - unfold memory_fail. rewrite Hk, Hr.
    destruct (str_eqb_spec (fingerprint r) (ie_fp e)) as [He|He]; cbn [andb]; [|by exists r].
    destruct Hf. split_and!; [done|congruence|done].
Qed.

(** A completed record stays completed, with the same fingerprint. *)
Lemma completed_step s e k r v :
  s !! k = Some r → response r = Some v →
  ∃ r' v', (idem_step s e).2 !! k = Some r' ∧ fingerprint r' = fingerprint r ∧ response r' = Some v' ∧
    (v' = v ∨ (on_key k e ∧ ie_fp e = fingerprint r ∧ ie_call e = Complete v')).
Proof.
  intros Hr Hv. destruct (decide (storage_key (ie_scope e) (ie_key e) = k)) as [Hk|Hk].
  2:{ exists r, v. rewrite idem_step_frame by done. split_and!; [done..|by left]. }
  unfold idem_step, on_key. destruct (ie_call e) as [now policy|w|].
  - exists r, v. unfold memory_begin. rewrite Hk, Hr. cbn [begin_record]. rewrite Hv.
    destruct (negb _); cbn [snd]; rewrite lookup_insert_eq; (split_and!; [done..|by left]).
  - unfold memory_complete. rewrite Hk, Hr. destruct (str_eqb_spec (fingerprint r) (ie_fp e)); cbn [negb snd].
    + eexists _, w. rewrite lookup_insert_eq. split_and!; [done..|right; done].
    + exists r, v. split_and!; [done..|by left].
  - unfold memory_fail. rewrite Hk, Hr, Hv, andb_false_r. exists r, v. split_and!; [done..|by left].
Qed.
End memory.

(** ** Executions after a call *)

Section after.
Context {Value : Type}.
Implicit Types s : gmap rstr (IdempotencyRecord Value).

Lemma idem_run_snoc s es e : idem_run s (es ++ [e]) = (idem_step (idem_run s es) e).2.
Proof. unfold idem_run. by rewrite foldl_app. Qed.

(** An invariant of one record along an execution. *)
Lemma idem_run_record (P : list idem_event → IdempotencyRecord Value → Prop) s k r es :
  s !! k = Some r → P [] r →
  (∀ es1 e es2 s r, es = es1 ++ e :: es2 → s !! k = Some r → P es1 r →
     ∃ r', (idem_step s e).2 !! k = Some r' ∧ P (es1 ++ [e]) r') →
  ∀ n, ∃ r', idem_run s (take n es) !! k = Some r' ∧ P (take n es) r'.
Proof.
  intros Hr HP Hstep n. induction n as [|n IH]; [by exists r|].
  destruct IH as (r1 & Hr1 & HP1). destruct (es !! n) as [e|] eqn:E.
  - rewrite (take_S_r _ _ _ E), idem_run_snoc. apply (Hstep _ e (drop (S n) es) _ r1); [|done..].
    by rewrite (take_drop_middle _ _ _ E).
  - apply lookup_ge_None_1 in E. rewrite take_ge in * by lia. by exists r1.
Qed.

Lemma begin_execute_record scope key fp now policy s s1 :
  memory_begin scope key fp now policy s = (Execute, s1) →
  ∃ r, s1 !! storage_key scope key = Some r ∧ leased fp (sat_add U64_MAX now (lease_millis policy)) r.
Proof.
  unfold memory_begin. destruct (s !! storage_key scope key) as [r|]; cbn [begin_record].
  - destruct (str_eqb_spec (fingerprint r) fp) as [He|]; cbn [negb]; [|done].
    destruct (response r) as [v|] eqn:Ev; [done|].
    destruct (match lease_until_millis r with Some l => now <? l | None => false end); [done|].
    intros [= <-]. eexists. rewrite lookup_insert_eq. split; [done|]. split; [done|]. by eexists.
  - intros [= <-]. eexists. rewrite lookup_insert_eq. split; [done|]. split; [done|]. by eexists.
Qed.
End after.

(** ** Keys *)

(** [storage_key] of the Redis store; [scope.len()] counts bytes. *)
Definition redis_storage_key (key_prefix scope key : rstr) : rstr :=
  key_prefix ++ lit ":" ++ dec (N.of_nat (length (as_bytes scope))) ++ lit ":" ++ scope ++ lit ":" ++ key.

Lemma app_length_inj {A} (a a' b b' : list A) : length a = length a' → a ++ b = a' ++ b' → a = a' ∧ b = b'.
Proof. intros Hl H. by apply app_inj_1. Qed.

Lemma digits_no_colon s : Forall (λ c, is_ascii_digit c = true) s → 58 ∉ s.
Proof. rewrite Forall_forall. intros H Hin. by apply H in Hin. Qed.

Lemma colon_split a a' b b' : 58 ∉ a → 58 ∉ a' → a ++ 58 :: b = a' ++ 58 :: b' → a = a' ∧ b = b'.
Proof.
  revert a'. induction a as [|x a IH]; intros [|y a'] Ha Ha' H; cbn in H.
  - by injection H.
  - injection H as <- _. destruct Ha'. by left.
  - injection H as -> _. destruct Ha. by left.
  - injection H as -> H. apply IH in H as [-> ->]; [done|..]; intros Hin; [apply Ha|apply Ha']; by right.
Qed.

(** The in-memory store separates scopes that hold no colon, as the generated
    handlers' names; the Redis store separates all. *)
Lemma storage_keys_separate prefix scope scope' key key' :
  (58 ∉ scope → 58 ∉ scope' → storage_key scope key = storage_key scope' key' → scope = scope' ∧ key = key') ∧
  (valid_str scope → valid_str scope' → valid_str key → valid_str key' →
   redis_storage_key prefix scope key = redis_storage_key prefix scope' key' → scope = scope' ∧ key = key').
Proof.
  split; [apply colon_split|]. intros Hs Hs' Hk Hk' H. unfold redis_storage_key in H.
  apply app_inv_head, app_inv_head in H.
  apply colon_split in H as [Hn H]; [|by apply digits_no_colon, dec_spec..].
  apply dec_inj in Hn. apply (f_equal as_bytes) in H. rewrite !as_bytes_app in H.
  apply app_length_inj in H as [H1 H2]; [|lia]. apply as_bytes_inj in H1 as <-; [|done..].
  apply app_inv_head in H2. split; [done|]. by apply as_bytes_inj.
Qed.

Example memory_keys_meet : storage_key (lit "a") (lit "b:c") = storage_key (lit "a:b") (lit "c").
Proof. reflexivity. Qed.

(** ** Properties *)

(** C18: an execution is exclusive while its lease runs. Once [begin] has let a
    request of a key execute, and unless a [fail] with its fingerprint takes it
    back, no call among those that follow, whatever their scopes, keys,
    fingerprints and policies, lets another request of that key execute at an
    instant before the lease ends; after the response is stored, none does at all. *)
Theorem execution_exclusive {Value} s scope key fp now policy s1 (es : list (@idem_event Value)) :
  memory_begin scope key fp now policy s = (Execute, s1) →
  let k := storage_key scope key in
  Forall (λ e, ¬ takes_back k fp e) es →
  (∀ e t p, e ∈ es → on_key k e → ie_call e = Begin t p →
     t < sat_add U64_MAX now (lease_millis policy)) →
  ∀ i e, es !! i = Some e → on_key k e → (idem_step (idem_run s1 (take i es)) e).1 ≠ Some Execute.
Proof.
  intros Hb k Hf Ht i e Hi Hk. destruct (begin_execute_record _ _ _ _ _ _ _ Hb) as (r & Hr & Hl).
  rewrite Forall_forall in Hf.
  destruct (idem_run_record (λ _, leased fp (sat_add U64_MAX now (lease_millis policy))) s1 k r es Hr Hl) with
    (n := i) as (r1 & Hr1 & Hl1).
  - intros es1 e1 es2 s0 r0 -> Hr0 Hl0.
    destruct (leased_step s0 e1 k fp _ r0 Hr0 Hl0) as (r' & ? & ? & _); [| |by exists r'].
    + apply Hf. set_solver.
    + intros t p ? ?. apply (Ht e1 t p); [set_solver|done..].
  - destruct (leased_step _ e k fp _ r1 Hr1 Hl1) as (_ & _ & _ & H); [| |by apply H].
    + apply Hf. by eapply list_elem_of_lookup_2.
    + intros t p ? ?. apply (Ht e t p); [by eapply list_elem_of_lookup_2|done..].
Qed.

(** A stored response is replayed for ever. Once [complete] has stored a response
    for a key and fingerprint, every later [begin] of that key, at any instant and
    after any calls, answers [Replay] to that fingerprint and [Conflict] to any
    other; the response replayed is the one stored, or one that a later [complete]
    with the same fingerprint put in its place. *)
Theorem completed_response_replayed {Value} s scope key fp (v : Value) s1 es :
  memory_complete scope key fp v s = (Ok tt, s1) →
  let k := storage_key scope key in
  ∀ i e t p, es !! i = Some e → on_key k e → ie_call e = Begin t p →
  ∃ v', (idem_step (idem_run s1 (take i es)) e).1 =
          Some (if str_eqb fp (ie_fp e) then Replay v' else Conflict_) ∧
        (v' = v ∨ ∃ e', e' ∈ take i es ∧ on_key k e' ∧ ie_fp e' = fp ∧ ie_call e' = Complete v').
Proof.
  intros Hc k i e t p Hi Hk He.
  assert (∃ r, s1 !! k = Some r ∧ fingerprint r = fp ∧ response r = Some v) as (r & Hr & Hfp & Hv).
  { unfold memory_complete in Hc. fold k in Hc. destruct (s !! k) as [r|]; [|done].
    destruct (str_eqb_spec (fingerprint r) fp); cbn [negb] in Hc; [|done]. injection Hc as <-.
    eexists. by rewrite lookup_insert_eq. }
  destruct (idem_run_record (λ l r, fingerprint r = fp ∧ ∃ v', response r = Some v' ∧
    (v' = v ∨ ∃ e', e' ∈ l ∧ on_key k e' ∧ ie_fp e' = fp ∧ ie_call e' = Complete v')) s1 k r es Hr) with (n := i)
    as (r1 & Hr1 & Hfp1 & v1 & Hv1 & Hor).
  - split; [done|]. exists v. split; [done|by left].
  - intros es1 e1 es2 s0 r0 _ Hr0 (Hf0 & v0 & Hv0 & Hor).
    destruct (completed_step s0 e1 k r0 v0 Hr0 Hv0) as (r' & v' & ? & Hf' & ? & Hor').
    exists r'. split; [done|]. split; [congruence|]. exists v'. split; [done|].
    destruct Hor' as [->|(? & Hfe & ?)].
    + destruct Hor as [|(e' & Hin & ?)]; [by left|right]. exists e'. split; [set_solver|done].
    + right. exists e1. split; [set_solver|]. split_and!; [done|congruence|done].
  - exists v1. split; [|done]. unfold idem_step, on_key in *. rewrite He. unfold memory_begin. rewrite Hk, Hr1.
    cbn [begin_record]. rewrite Hfp1, Hv1. by destruct (str_eqb fp (ie_fp e)).
Qed.

(** ** Witnesses *)

Definition ex_call (fp : rstr) (c : idem_call) : @idem_event N :=
  {| ie_scope := lit "create"; ie_key := lit "k"; ie_fp := fp; ie_call := c |}.
Definition ex_lease : IdempotencyPolicy := {| lease_millis := 30 |}.

Definition ex_started : gmap rstr (IdempotencyRecord N) :=
  (memory_begin (lit "create") (lit "k") (lit "f") 0 ex_lease ∅).2.

Lemma execution_exclusive_witness :
  memory_begin (lit "create") (lit "k") (lit "f") 0 ex_lease ∅ = (Execute, ex_started) ∧
  (idem_step ex_started (ex_call (lit "f") (Begin 29 ex_lease))).1 ≠ Some Execute.
Proof.
  assert (memory_begin (lit "create") (lit "k") (lit "f") 0 ex_lease ∅ = (Execute, ex_started)) as Hb
    by reflexivity.
  split; [exact Hb|].
  apply (execution_exclusive ∅ (lit "create") (lit "k") (lit "f") 0 ex_lease ex_started
    [ex_call (lit "f") (Begin 29 ex_lease)] Hb) with (i := 0%nat).
  - repeat constructor. intros (_ & _ & H). discriminate H.
  - intros e t p Hin%list_elem_of_singleton _ He. subst e. injection He as <- _. vm_compute. reflexivity.
  - reflexivity.
  - reflexivity.
Defined.

Definition ex_completed : gmap rstr (IdempotencyRecord N) :=
  idem_run ∅ [ex_call (lit "f") (Begin 0 ex_lease); ex_call (lit "f") (Complete 7)].

Lemma completed_response_replayed_witness :
  memory_complete (lit "create") (lit "k") (lit "f") 7 ex_started = (Ok tt, ex_completed) ∧
  ∃ v', (idem_step ex_completed (ex_call (lit "f") (Begin 500 ex_lease))).1 = Some (Replay v').
Proof.
  assert (memory_complete (lit "create") (lit "k") (lit "f") 7 ex_started = (Ok tt, ex_completed)) as Hc
    by reflexivity.
  split; [exact Hc|].
  destruct (completed_response_replayed ex_started (lit "create") (lit "k") (lit "f") 7 ex_completed
    [ex_call (lit "f") (Begin 500 ex_lease)] Hc 0 (ex_call (lit "f") (Begin 500 ex_lease)) 500 ex_lease
    eq_refl eq_refl eq_refl) as (v' & H & _).
  exists v'. exact H.
Defined.

(** A handler whose lease has run out and that then takes_back takes back the execution
    of the request that reclaimed the key: a third request executes while the
    second still runs, 1 of 30 ms into its lease. *)
Example late_failure_readmits :
  let answers := λ es, (foldl (λ '(l, s) e, let '(d, s) := idem_step s e in (l ++ [d], s)) ([], ∅) es).1 in
  answers [ ex_call (lit "f") (Begin 0 ex_lease); ex_call (lit "f") (Begin 30 ex_lease);
            ex_call (lit "f") FailCall; ex_call (lit "f") (Begin 31 ex_lease) ] =
    [Some Execute; Some Execute; None; Some Execute].
Proof. reflexivity. Qed.
