(* ===== verification/RpcCall.v ===== *)
(** * Governed RPC calls (crates/roze-rpc/src/rpc.rs)

    The client's retry loop: breaker admission, the process-wide and the
    request's retry budgets, jittered back-off within the deadline, cancellation,
    and the settlement of the breaker. An attempt is a function of the client's
    state, the cells of the request context and the instant; what other tasks do
    to the cells while the loop sleeps is a function too. Metrics and logs are not
    modelled. *)

From S2P Require Import Prelude Text Breaker Resilience Policy Errors Context Governed Guards.

Record RpcClientOptions :=
  { connect_timeout : N; request_timeout : N; keepalive_time : N; opt_max_retries : N; retry_backoff : N;
    retry_max_backoff : N; non_block : bool; trace : bool; stat : bool; prometheus : bool; opt_breaker : bool }.

Definition RpcClientOptions_default : RpcClientOptions :=
  {| connect_timeout := from_secs 5; request_timeout := from_millis 2000; keepalive_time := from_secs 20;
     opt_max_retries := 1; retry_backoff := from_millis 100; retry_max_backoff := from_millis 500;
     non_block := false; trace := true; stat := true; prometheus := true; opt_breaker := true |}.

Record MethodRetryPolicy :=
  { mr_max_retries : N; mr_backoff : N; mr_max_backoff : N; mr_budget_percent : option N;
    mr_breaker : option BreakerConfig }.

Definition default_breaker : BreakerConfig := resolve_breaker BreakerSettings_default.

Definition MethodRetryPolicy_from_options (options : RpcClientOptions) : MethodRetryPolicy :=
  {| mr_max_retries := opt_max_retries options; mr_backoff := retry_backoff options;
     mr_max_backoff := retry_max_backoff options; mr_budget_percent := None;
     mr_breaker := if opt_breaker options then Some default_breaker else None |}.

Definition retry_policy_for_method {Value} (options : RpcClientOptions)
    (governance : option (GovernanceConfig Value)) (method : rstr) : MethodRetryPolicy :=
  let policy := MethodRetryPolicy_from_options options in
  match governance with
  | None => policy
  | Some governance =>
      let resolved := resolve_policy governance method in
      let policy :=
        match retry resolved with
        | Some r => {| mr_max_retries := max_attempts r - 1; mr_backoff := backoff r;
                       mr_max_backoff := max_backoff r; mr_budget_percent := budget_percent r;
                       mr_breaker := mr_breaker policy |}
        | None => policy
        end in
      {| mr_max_retries := mr_max_retries policy; mr_backoff := mr_backoff policy;
         mr_max_backoff := mr_max_backoff policy; mr_budget_percent := mr_budget_percent policy;
         mr_breaker := if opt_breaker options
                       then Some (match breaker resolved with
                                  | Some b => {| failure_threshold := failure_threshold b;
                                                 reset_timeout := reset_timeout b |}
                                  | None => default_breaker
                                  end)
                       else None |}
  end.

Definition should_retry_status (s : Status) : bool :=
  match st_code s with CodeUnavailable | CodeDeadlineExceeded | CodeUnknown => true | _ => false end.

Definition status_counts_as_breaker_failure (s : Status) : bool :=
  match st_code s with
  | CodeUnavailable | CodeDeadlineExceeded | CodeInternal | CodeUnknown | CodeDataLoss => true
  | _ => false
  end.

Definition plain_status (code : Code) (message : rstr) : Status :=
  {| st_code := code; st_message := message; st_metadata := ∅ |}.

Definition retry_context_status (cells : Cells) (ctx : Context) (now delay : N) : option Status :=
  if cancelled cells ctx then Some (plain_status CodeCancelled (lit "RPC retry cancelled"))
  else match deadline ctx with
       | Some _ =>
           if match remaining_timeout now ctx with Some remaining => remaining <=? delay | None => true end
           then Some (plain_status CodeDeadlineExceeded (lit "RPC retry backoff exceeds remaining deadline"))
           else None
       | None => None
       end.

(** The statics of the client. *)
Record ClientState :=
  { cl_breakers : BreakerRegistry; cl_budgets : RetryBudgetRegistry; cl_jitter : N }.

Definition set_client_budgets (g : ClientState) (b : RetryBudgetRegistry) (j : N) : ClientState :=
  {| cl_breakers := cl_breakers g; cl_budgets := b; cl_jitter := j |}.
Definition set_client_breakers (g : ClientState) (b : BreakerRegistry) : ClientState :=
  {| cl_breakers := b; cl_budgets := cl_budgets g; cl_jitter := cl_jitter g |}.

(** ** The client's breaker guard *)

Definition ClientBreakerGuard_finish {T} (key : rstr) (config : BreakerConfig) (permit : BreakerPermit)
    (r : result Status T) (reg : BreakerRegistry) (now : N) : BreakerRegistry :=
  match r with
  | Ok _ => BreakerRegistry_record_success reg key permit
  | Err status =>
      match st_code status with
      | CodeCancelled => BreakerRegistry_cancel reg key permit config now
      | _ => if status_counts_as_breaker_failure status
             then BreakerRegistry_record_failure reg key permit config now
             else BreakerRegistry_record_success reg key permit
      end
  end.

(** [Drop] of a guard that was not finished: the call's future was dropped. *)
Definition ClientBreakerGuard_drop (key : rstr) (config : BreakerConfig) (permit : BreakerPermit)
    (reg : BreakerRegistry) (now : N) : BreakerRegistry :=
  BreakerRegistry_cancel reg key permit config now.

(** ** The loop *)

Section call.
Context {T St : Type}.
(** An attempt: its response, how long it took, and the states it leaves. *)
Context (call : St → Cells → N → result Status T * N * St * Cells).
(** The cells after a sleep of the given length. *)
Context (sleep : Cells → N → Cells).
Context (key : rstr) (ctx : Context) (policy : MethodRetryPolicy).

(** The state of the loop: the client's statics, the attempts' state, the cells,
    the clock. *)
Definition loop_state : Type := ClientState * St * Cells * N.

(** What stops a retry after a retryable failure, or the state to retry in. *)
Definition before_retry (status : Status) (attempt : N) (s : loop_state) : result Status unit * loop_state :=
  let '(g, st, cells, now) := s in
  let '(allowed, budgets) :=
    RetryBudgetRegistry_allow_retry (cl_budgets g) key (mr_budget_percent policy) now in
  if negb allowed then (Err status, (set_client_budgets g budgets (cl_jitter g), st, cells, now))
  else
    let '(delay, jitter) :=
      full_jitter_delay (cl_jitter g) (mr_backoff policy) (mr_max_backoff policy) (attempt + 1) in
    let g := set_client_budgets g budgets jitter in
    match retry_context_status cells ctx now delay with
    | Some status => (Err status, (g, st, cells, now))
    | None =>
        let '(cells, now) := if delay =? 0 then (cells, now) else (sleep cells delay, now + delay) in
        match retry_context_status cells ctx now 0 with
        | Some status => (Err status, (g, st, cells, now))
        | None =>
            let '(consumed, cells) := try_consume_retry_budget ctx cells in
            if negb consumed then (Err status, (g, st, cells, now)) else (Ok tt, (g, st, cells, now))
        end
    end.

(** [remaining] is [max_retries - attempt]. *)
Fixpoint rpc_retry_loop (remaining : nat) (attempt : N) (s : loop_state) : result Status T * loop_state :=
  let '(g, st, cells, now) := s in
  let '(response, d, st, cells) := call st cells now in
  let s := (g, st, cells, now + d) in
  match response with
  | Ok value => (Ok value, s)
  | Err status =>
      match remaining with
      | O => (Err status, s)
      | S remaining =>
          if should_retry_status status
          then match before_retry status attempt s with
               | (Err status, s) => (Err status, s)
               | (Ok _, s) => rpc_retry_loop remaining (attempt + 1) s
               end
          else (Err status, s)
      end
  end.
End call.

(** [ensure_retry_budget] gives the context its clones have from here on. *)
Definition retry_status_with_policy {T St} (call : Context → St → Cells → N → result Status T * N * St * Cells)
    (sleep : Cells → N → Cells) (service method : rstr) (ctx : Context) (policy : MethodRetryPolicy)
    (s : ClientState * St * Cells * N) : result Status T * Context * (ClientState * St * Cells * N) :=
  let '(g, st, cells, now) := s in
  let key := OperationKey_new service Rpc method in
  let '(admitted, g) :=
    match mr_breaker policy with
    | Some config =>
        let '(decision, r) := BreakerRegistry_allow (cl_breakers g) key now in
        (match decision with
         | Allow permit => Ok (Some (config, permit))
         | Breaker.Reject => Err (default (reset_timeout config) (BreakerRegistry_retry_after r key now))
         end, set_client_breakers g r)
    | None => (Ok None, g)
    end in
  match admitted with
  | Err retry_after => (Err (circuit_open_status retry_after), ctx, (g, st, cells, now))
  | Ok guard =>
      let '(ctx, cells) := ensure_retry_budget (mr_max_retries policy) ctx cells in
      let g := set_client_budgets g (RetryBudgetRegistry_record_call (cl_budgets g) key now) (cl_jitter g) in
      let '(r, (g, st, cells, now)) :=
        rpc_retry_loop (call ctx) sleep key ctx policy (N.to_nat (mr_max_retries policy)) 0 (g, st, cells, now) in
      let g := match guard with
               | Some (config, permit) =>
                   set_client_breakers g (ClientBreakerGuard_finish key config permit r (cl_breakers g) now)
               | None => g
               end in
      (r, ctx, (g, st, cells, now))
  end.

(** ** Lemmas on the loop *)

(** The request's counter does not grow. *)
Definition budget_kept (ctx : Context) (cells cells' : Cells) : Prop :=
  ∀ n, retry_budget_remaining cells ctx = Some n →
    ∃ n', retry_budget_remaining cells' ctx = Some n' ∧ n' ≤ n.

Lemma retry_context_open cells ctx now d :
  retry_context_status cells ctx now 0 = None → deadline ctx = Some d → now < d.
Proof.
  unfold retry_context_status, remaining_timeout. destruct (cancelled cells ctx); [done|].
  intros H Hd. rewrite Hd in H. cbn in H. destruct (N.leb_spec now d); [|done].
  destruct (N.leb_spec (d - now) 0); [done|lia].
Qed.

Lemma consume_spec ctx cells cells' n :
  try_consume_retry_budget ctx cells = (true, cells') → retry_budget_remaining cells ctx = Some n →
  ∃ n', retry_budget_remaining cells' ctx = Some n' ∧ n' + 1 ≤ n.
Proof.
  unfold try_consume_retry_budget, retry_budget_remaining.
  destruct (retry_budget ctx) as [c|]; [|done]. cbn [mbind option_bind]. intros H Hn. rewrite Hn in H.
  destruct (N.eqb_spec n 0); [done|]. injection H as <-. exists (n - 1). cbn. rewrite lookup_insert_eq.
  split; [done|lia].
Qed.

Section loop.
Context {T St : Type}.
Context (call : St → Cells → N → result Status T * N * St * Cells) (sleep : Cells → N → Cells).
Context (key : rstr) (ctx : Context) (policy : MethodRetryPolicy).
(** [log] records the instants of the attempts. *)
Context (log : St → list N) (Hlog : ∀ st cells now, log (call st cells now).1.2 = log st ++ [now]).
Context (Hcall : ∀ st cells now, budget_kept ctx cells (call st cells now).2).
Context (Hsleep : ∀ cells d, budget_kept ctx cells (sleep cells d)).

Lemma before_retry_spec status attempt g (st : St) cells now r g' st' cells' now' :
  before_retry sleep key ctx policy status attempt (g, st, cells, now) = (r, (g', st', cells', now')) →
  cl_breakers g' = cl_breakers g ∧ st' = st ∧
  (r = Ok tt →
    (∀ d, deadline ctx = Some d → now' < d) ∧
    ∀ n, retry_budget_remaining cells ctx = Some n →
      ∃ n', retry_budget_remaining cells' ctx = Some n' ∧ n' + 1 ≤ n).
Proof.
  unfold before_retry. destruct (RetryBudgetRegistry_allow_retry _ _ _ _) as [allowed budgets].
  destruct allowed; cbn [negb]; [|by intros [= <- <- <- <- <-]].
  destruct (full_jitter_delay _ _ _ _) as [delay jitter].
  destruct (retry_context_status cells ctx now delay); [by intros [= <- <- <- <- <-]|].
  destruct (if delay =? 0 then (cells, now) else (sleep cells delay, now + delay)) as [cells1 now1] eqn:E1.
  assert (budget_kept ctx cells cells1) as Hk.
  { destruct (delay =? 0); injection E1 as <- <-; [by intros n Hn; exists n|apply Hsleep]. }
  destruct (retry_context_status cells1 ctx now1 0) eqn:E2; [by intros [= <- <- <- <- <-]|].
  destruct (try_consume_retry_budget ctx cells1) as [[] cells2] eqn:E3; cbn [negb];
    [|by intros [= <- <- <- <- <-]].
  intros [= <- <- <- <- <-]. split; [done|]. split; [done|]. intros _. split.
  - intros d. by apply (retry_context_open cells1).
  - intros n (n1 & Hn1 & Hle)%Hk. destruct (consume_spec _ _ _ _ E3 Hn1) as (n2 & ? & ?).
    exists n2. split; [done|lia].
Qed.

(** The attempts after the first: at most as many as retries are left and as the
    request's budget, each before the deadline. *)
Lemma retry_loop_attempts remaining attempt g st cells now r g' st' cells' now' :
  rpc_retry_loop call sleep key ctx policy remaining attempt (g, st, cells, now) = (r, (g', st', cells', now')) →
  cl_breakers g' = cl_breakers g ∧
  ∃ rest, log st' = log st ++ now :: rest ∧ (length rest ≤ remaining)%nat ∧
    (∀ n, retry_budget_remaining cells ctx = Some n → N.of_nat (length rest) ≤ n) ∧
    (∀ d, deadline ctx = Some d → Forall (λ t, t < d) rest).
Proof.
  revert attempt g st cells now. induction remaining as [|remaining IH]; intros attempt g st cells now;
    cbn [rpc_retry_loop]; pose proof (Hlog st cells now) as Hl; pose proof (Hcall st cells now) as Hk;
    destruct (call st cells now) as [[[response d] st1] cells1]; cbn [fst snd] in Hl, Hk;
    assert (∃ rest, log st1 = log st ++ now :: rest ∧ (length rest ≤ 0)%nat ∧
      (∀ n, retry_budget_remaining cells ctx = Some n → N.of_nat (length rest) ≤ n) ∧
      (∀ d, deadline ctx = Some d → Forall (λ t, t < d) rest)) as Hone
      by (exists []; split_and!; [done|done|cbn; lia|constructor]).
  - destruct response; intros [= <- <- <- <- <-]; by split.
  - assert (∀ rest : list N, (length rest ≤ 0)%nat → (length rest ≤ S remaining)%nat) as Hw by lia.
    destruct response as [v|status]; [intros [= <- <- <- <- <-]; split; [done|]; naive_solver|].
    destruct (should_retry_status status); [|intros [= <- <- <- <- <-]; split; [done|]; naive_solver].
    destruct (before_retry _ _ _ _ _ _ _) as [r1 [[[g1 st2] cells2] now1]] eqn:Eb.
    apply before_retry_spec in Eb as (Hg1 & -> & Hok). destruct r1 as [[]|status'].
    + destruct (Hok eq_refl) as [Hd Hn]. intros H. apply IH in H as (Hg & rest & Hlr & Hlen & Hbud & Hdl).
      split; [congruence|]. exists (now1 :: rest). split_and!.
      * rewrite Hlr, Hl, <- app_assoc. done.
      * cbn. lia.
      * intros n (n1 & Hn1 & Hle)%Hk. destruct (Hn n1 Hn1) as (n2 & Hn2 & Hle2). apply Hbud in Hn2.
        cbn [length]. lia.
      * intros d' Hd'. constructor; [by apply Hd|by apply Hdl].
    + intros [= <- <- <- <- <-]. split; [done|]. naive_solver.
Qed.
End loop.

(** The breaker after a call it admitted. *)
Lemma client_guard_settles {T} key config permit (r : result Status T) reg now :
  (phase (breaker_entry reg key) = HalfOpen → permit = PermitProbe) →
  phase (breaker_entry (ClientBreakerGuard_finish key config permit r reg now) key) ≠ HalfOpen.
Proof.
  intros Hp. destruct (settled_not_half_open _ _ config now Hp) as (H1 & H2 & H3).
  unfold ClientBreakerGuard_finish, BreakerRegistry_record_success, BreakerRegistry_record_failure.
  destruct r as [v|status]; [by rewrite breaker_entry_insert|].
  destruct (st_code status); rewrite ?breaker_cancel_entry; try done;
    destruct (status_counts_as_breaker_failure status); by rewrite breaker_entry_insert.
Qed.

(** What [ensure_retry_budget] leaves: a counter, which was there before or is at most 64. *)
Lemma ensure_retry_budget_spec m ctx cells :
  (∀ c, retry_budget ctx = Some c → is_Some (budgets cells !! c)) →
  let '(ctx', cells') := ensure_retry_budget m ctx cells in
  deadline ctx' = deadline ctx ∧
  ∃ n, retry_budget_remaining cells' ctx' = Some n ∧
    match retry_budget_remaining cells ctx with Some n0 => n = n0 | None => n ≤ MAX_PROPAGATED_RETRY_BUDGET end.
Proof.
  intros Hc. unfold ensure_retry_budget. destruct (retry_budget ctx) as [c|] eqn:E.
  - split; [done|]. destruct (Hc c eq_refl) as [n Hn]. exists n. unfold retry_budget_remaining. by rewrite E; cbn; rewrite Hn.
  - unfold with_retry_budget. split; [done|].
    exists (N.min m MAX_PROPAGATED_RETRY_BUDGET). unfold retry_budget_remaining. rewrite E. cbn -[N.min].
    rewrite lookup_insert_eq. split; [done|apply N.le_min_r].
Qed.

(** The breaker refuses calls at [now]: it is open and its time is not up, or a
    probe is under way. *)
Definition refuses (e : BreakerState) (now : N) : Prop :=
  (phase e = Open ∧ ∃ until, open_until e = Some until ∧ now < until) ∨ phase e = HalfOpen.

Lemma allow_entry_refuses e now : (allow_entry e now).1 = Breaker.Reject ↔ refuses e now.
Proof.
  unfold allow_entry, refuses. destruct (phase e) eqn:E.
  - split; [done|]. by intros [[? _]|?].
  - destruct (open_until e) as [until|]; [destruct (N.ltb_spec now until)|]; cbn.
    + split; [intros _; left; eauto|done].
    + split; [done|]. intros [(_ & ? & [= ->] & ?)|?]; [lia|done].
    + split; [done|]. by intros [(_ & ? & ? & _)|?].
  - split; [by right|done].
Qed.

Lemma allow_entry_rejected e now s : allow_entry e now = (Breaker.Reject, s) → s = e.
Proof.
  unfold allow_entry. destruct (phase e); [done| |congruence].
  destruct (match open_until e with Some until => now <? until | None => false end); congruence.
Qed.

(** ** Properties *)

(** C17: a governed call is refused exactly when its breaker refuses it, is
    bounded, and settles its breaker. The hypotheses: neither an attempt nor other
    tasks raise a request's retry budget ([budget_kept]), the context's counter
    exists, and [log] records the instants of the attempts. If the policy has a
    breaker and it is open and not yet due, or half-open, the call ends with
    'circuit open', and no attempt was made. Otherwise one attempt is made at once and retries that number
    at most [max_retries] and at most the request's budget (64 where it had
    none), each made before the request's deadline. A breaker that was not
    half-open is not left half-open. *)
Theorem rpc_call_bounded {T St : Type} (call : Context → St → Cells → N → result Status T * N * St * Cells)
    (sleep : Cells → N → Cells) (log : St → list N) service method ctx policy g st cells now :
  (∀ c st cells now, log (call c st cells now).1.2 = log st ++ [now]) →
  (∀ c st cells now, budget_kept c cells (call c st cells now).2) →
  (∀ c cells d, budget_kept c cells (sleep cells d)) →
  (∀ c, retry_budget ctx = Some c → is_Some (budgets cells !! c)) →
  let '(r, _, (g', st', cells', _)) := retry_status_with_policy call sleep service method ctx policy (g, st, cells, now) in
  let e := breaker_entry (cl_breakers g) (OperationKey_new service Rpc method) in
  let e' := breaker_entry (cl_breakers g') (OperationKey_new service Rpc method) in
  let refused := mr_breaker policy ≠ None ∧ refuses e now in
  (refused → st' = st ∧ cells' = cells ∧ e' = e ∧ ∃ retry_after, r = Err (circuit_open_status retry_after)) ∧
  (¬ refused →
   (∃ rest, log st' = log st ++ now :: rest ∧
     N.of_nat (length rest) ≤ mr_max_retries policy ∧
     N.of_nat (length rest) ≤ default MAX_PROPAGATED_RETRY_BUDGET (retry_budget_remaining cells ctx) ∧
     ∀ d, deadline ctx = Some d → Forall (λ t, t < d) rest) ∧
   (mr_breaker policy ≠ None → phase e' ≠ HalfOpen)).
Proof.
  intros Hlog Hcall Hsleep Hcell. unfold retry_status_with_policy. set (key := OperationKey_new service Rpc method).
  pose proof (ensure_retry_budget_spec (mr_max_retries policy) ctx cells Hcell) as He.
  destruct (ensure_retry_budget _ ctx cells) as [ctx1 cells1]. destruct He as (Hd & n & Hn & Hn0).
  assert (∀ g1, let '(r, (g2, st2, _, now2)) := rpc_retry_loop (call ctx1) sleep key ctx1 policy
      (N.to_nat (mr_max_retries policy)) 0 (g1, st, cells1, now) in
    cl_breakers g2 = cl_breakers g1 ∧ ∃ rest, log st2 = log st ++ now :: rest ∧
     N.of_nat (length rest) ≤ mr_max_retries policy ∧
     N.of_nat (length rest) ≤ default MAX_PROPAGATED_RETRY_BUDGET (retry_budget_remaining cells ctx) ∧
     ∀ d, deadline ctx = Some d → Forall (λ t, t < d) rest) as Hloop.
  { intros g1. destruct (rpc_retry_loop _ _ _ _ _ _ _ _) as [r [[[g2 st2] cells2] now2]] eqn:E.
    apply (retry_loop_attempts (call ctx1) sleep key ctx1 policy log) in E as (Hg & rest & Hr & Hlen & Hb & Hdl);
      [|by intros..]. split; [done|]. exists rest. rewrite Hd in Hdl. apply Hb in Hn.
    split_and!; [done|lia| |done]. destruct (retry_budget_remaining cells ctx); cbn; lia. }
  destruct (mr_breaker policy) as [config|].
  - unfold BreakerRegistry_allow. pose proof (allow_entry_refuses (breaker_entry (cl_breakers g) key) now) as Hr.
    pose proof (allow_entry_phase (breaker_entry (cl_breakers g) key) now) as Hp.
    destruct (allow_entry _ now) as [[permit|] s] eqn:E; cbn [fst] in Hr.
    + set (g1 := set_client_budgets _ _ _). specialize (Hloop g1).
      destruct (rpc_retry_loop _ _ _ _ _ _ _ _) as [r [[[g2 st2] cells2] now2]]. destruct Hloop as [Hg Hrest].
      split; [by intros [_ ?%Hr]|]. intros Hno. split; [done|]. intros _.
      cbn [cl_breakers set_client_breakers]. apply client_guard_settles.
      rewrite Hg. unfold g1. cbn [cl_breakers set_client_budgets set_client_breakers].
      rewrite breaker_entry_insert. by destruct permit; [rewrite Hp|].
    + split; [|intros []; split; [done|by apply Hr]]. intros _. cbn [cl_breakers set_client_breakers].
      rewrite breaker_entry_insert, (allow_entry_rejected _ _ _ E). split_and!; [done..|by eexists].
  - specialize (Hloop (set_client_budgets g (RetryBudgetRegistry_record_call (cl_budgets g) key now) (cl_jitter g))).
    destruct (rpc_retry_loop _ _ _ _ _ _ _ _) as [r [[[g2 st2] cells2] now2]]. destruct Hloop as [Hg Hrest].
    split; [by intros [[] _]|]. done.
Qed.

(** ** Witnesses *)

(** A server that is never available and answers after a millisecond. *)
Definition ex_rpc (c : Context) (st : list N) (cells : Cells) (now : N) : result Status unit * N * list N * Cells :=
  (Err (plain_status CodeUnavailable (lit "down")), from_millis 1, st ++ [now], cells).

Definition ex_ctx : Context := (background_with_ids Cells_empty (lit "r") (lit "t")).1.
Definition ex_retry : MethodRetryPolicy :=
  {| mr_max_retries := 2; mr_backoff := 100; mr_max_backoff := 1000; mr_budget_percent := None;
     mr_breaker := Some default_breaker |}.
Definition ex_client : ClientState :=
  {| cl_breakers := ∅; cl_budgets := RetryBudgetRegistry_default; cl_jitter := RETRY_JITTER_SEED |}.

Lemma rpc_call_bounded_witness :
  let out := retry_status_with_policy ex_rpc (λ cells _, cells) (lit "svc") (lit "get") ex_ctx ex_retry
               (ex_client, [], Cells_empty, 0) in
  length out.2.1.1.2 = 3%nat ∧
  phase (breaker_entry (cl_breakers out.2.1.1.1) (OperationKey_new (lit "svc") Rpc (lit "get"))) ≠ HalfOpen.
Proof.
  pose proof (rpc_call_bounded ex_rpc (λ cells _, cells) (λ st, st) (lit "svc") (lit "get") ex_ctx ex_retry
    ex_client [] Cells_empty 0 ltac:(done) ltac:(intros c st cells now n Hn; by exists n)
    ltac:(intros c cells d n Hn; by exists n) ltac:(done)) as H.
  intros out. split; [vm_compute; reflexivity|]. subst out.
  destruct (retry_status_with_policy _ _ _ _ _ _ _) as [[r c] [[[g st] cells] now]].
  destruct H as [_ [_ H]]; [intros [_ [[Ho _]|Ho]]; vm_compute in Ho; discriminate|]. apply H. discriminate.
Defined.
