(* ===== verification/ConfigAdmin.v ===== *)
(** * Administration of configurations ([ConfigCenterAdminStore] of crates/roze-config/src/config_center.rs)

    Signed publication, staged rollout, promotion, rejection and rollback of the
    versions of a configuration, with an audit log. SHA-256, the configuration
    parser and the standard library's [DefaultHasher] are parameters. Version and
    audit numbers are [u64]s that do not reach their maximum. An [anyhow::Error]
    is its message; files are not modelled, what a snapshot must satisfy is. *)

From S2P Require Import Prelude Text.

Inductive ConfigFormat := Json | Yaml | Toml.

Inductive ConfigPermission := PRead | PWrite | PRollback | PAudit | PWatchStatus.
#[export] Instance ConfigPermission_eq_dec : EqDecision ConfigPermission.
Proof. solve_decision. Defined.

Record ConfigPrincipal := { cp_id : rstr; cp_permissions : list ConfigPermission }.
Definition can (p : ConfigPrincipal) (permission : ConfigPermission) : bool :=
  bool_decide (permission ∈ cp_permissions p).

Record ConfigSignature := { key_id : rstr; sig_value : rstr }.
Record ConfigChangeRequest :=
  { cr_actor : ConfigPrincipal; cr_reason : option rstr; cr_signature : ConfigSignature; cr_percent : N }.
Record ConfigSigningPolicy := { trusted_keys : gmap rstr rstr }.

Inductive ConfigRolloutState := Active | Staged | Retired | RolledBack.
#[export] Instance ConfigRolloutState_eq_dec : EqDecision ConfigRolloutState.
Proof. solve_decision. Defined.

Record ConfigVersionRecord :=
  { version : N; vr_hash : rstr; raw : rstr; source : rstr; namespace : option rstr; app : option rstr;
    vr_key : option rstr; author : rstr; reason : option rstr; created_at_millis : N; active : bool;
    rollout_percent : N; rollout_state : ConfigRolloutState; signature : ConfigSignature }.

Inductive ConfigAuditAction := ARead | APublish | ARollback | AAudit | AWatchStatus.
Inductive ConfigAuditResult := Allowed | Denied | Rejected.
Record ConfigAuditRecord :=
  { ar_id : N; ts_millis : N; ar_actor : rstr; ar_action : ConfigAuditAction; ar_result : ConfigAuditResult;
    ar_version : option N; ar_target_version : option N; ar_hash : option rstr; ar_reason : option rstr;
    ar_error : option rstr }.

Inductive ConfigWatchMode := NativeWatch | Polling | WatchUnavailable.
Record ConfigWatchStatus :=
  { mode : ConfigWatchMode; ws_source : rstr; last_revision : option Z; last_error : option rstr;
    updated_at_millis : N }.

Record ConfigAdminMetadata :=
  { md_source : rstr; md_namespace : option rstr; md_app : option rstr; md_key : option rstr }.

Record ConfigCenterAdminStore :=
  { format : ConfigFormat; versions : list ConfigVersionRecord; audit : list ConfigAuditRecord;
    watch_status : ConfigWatchStatus; next_audit_id : N; signing : ConfigSigningPolicy }.

Definition set_versions (vs : list ConfigVersionRecord) (s : ConfigCenterAdminStore) : ConfigCenterAdminStore :=
  {| format := format s; versions := vs; audit := audit s; watch_status := watch_status s;
     next_audit_id := next_audit_id s; signing := signing s |}.

Definition set_state (a : bool) (st : ConfigRolloutState) (r : ConfigVersionRecord) : ConfigVersionRecord :=
  {| version := version r; vr_hash := vr_hash r; raw := raw r; source := source r; namespace := namespace r;
     app := app r; vr_key := vr_key r; author := author r; reason := reason r;
     created_at_millis := created_at_millis r; active := a; rollout_percent := rollout_percent r;
     rollout_state := st; signature := signature r |}.

(** ** HMAC *)

(** The key in a block of 64 bytes, zeros after it. *)
Definition pad_key (k : list N) : list N := k ++ replicate (64 - length k) 0.

Definition hmac_sha256 (sha256 : list N → list N) (secret message : list N) : rstr :=
  let key := pad_key (if 64 <? N.of_nat (length secret) then sha256 secret else secret) in
  let inner_pad := N.lxor 54 <$> key in
  let outer_pad := N.lxor 92 <$> key in
  let inner := sha256 (inner_pad ++ message) in
  sha256 (outer_pad ++ inner) ≫= hex_byte.

Definition constant_time_eq (left right : list N) : bool :=
  if negb (bool_decide (length left = length right)) then false
  else foldl (λ diff ab, N.lor diff (N.lxor ab.1 ab.2)) 0 (zip left right) =? 0.

Lemma foldl_lor_zero (l : list (N * N)) acc :
  foldl (λ diff ab, N.lor diff (N.lxor ab.1 ab.2)) acc l = 0 ↔ acc = 0 ∧ Forall (λ ab, ab.1 = ab.2) l.
Proof.
  revert acc. induction l as [|[a b] l IH]; intros acc; cbn [foldl]; [by split; [|intros []]|].
  rewrite IH, N.lor_eq_0_iff, N.lxor_eq_0_iff, Forall_cons. cbn. tauto.
Qed.

(** Comparing every byte is equality. *)
Lemma constant_time_eq_spec left right : constant_time_eq left right = true ↔ left = right.
Proof.
  unfold constant_time_eq. case_bool_decide as Hl; cbn [negb]; [|split; [done|by intros ->]].
  rewrite N.eqb_eq, foldl_lor_zero. split.
  - intros [_ H]. revert right Hl H. induction left as [|a left IH]; intros [|b right]; try done.
    cbn. intros [= Hl] [Hab H]%Forall_cons. cbn in Hab. subst. f_equal. by apply IH.
  - intros <-. split; [done|]. clear Hl. induction left; cbn; constructor; done.
Qed.

Section store.
(** SHA-256, the hash of a text, and the parser of a format. *)
Context (sha256 : list N → list N) (snapshot_hash : rstr → rstr).
Context {Value : Type} (parse_config_value : rstr → ConfigFormat → result rstr Value).

Definition sign (p : ConfigSigningPolicy) (kid raw : rstr) : result rstr ConfigSignature :=
  match trusted_keys p !! kid with
  | None => Err (lit "config signing key '" ++ kid ++ lit "' is not trusted")
  | Some secret =>
      Ok {| key_id := kid; sig_value := hmac_sha256 sha256 (as_bytes secret) (as_bytes raw) |}
  end.

Definition verify (p : ConfigSigningPolicy) (s : ConfigSignature) (raw : rstr) : result rstr unit :=
  expected ← sign p (key_id s) raw;
  if constant_time_eq (as_bytes (sig_value expected)) (as_bytes (sig_value s)) then Ok tt
  else Err (lit "config signature verification failed").

(** ** Reading the store *)

Definition find_record (p : ConfigVersionRecord → bool) (s : ConfigCenterAdminStore)
    : option ConfigVersionRecord := List.find p (versions s).

Definition active_version (s : ConfigCenterAdminStore) : option ConfigVersionRecord := find_record active s.

Definition next_version (s : ConfigCenterAdminStore) : N := foldr N.max 0 (version <$> versions s) + 1.

(** [push_audit]; the hash, reason, target and error are those of the input. *)
Definition push_audit (now : N) (actor : ConfigPrincipal) (action : ConfigAuditAction)
    (res : ConfigAuditResult) (ver target : option N) (hash reason error : option rstr)
    (s : ConfigCenterAdminStore) : ConfigCenterAdminStore :=
  {| format := format s; versions := versions s;
     audit := audit s ++ [{| ar_id := next_audit_id s; ts_millis := now; ar_actor := cp_id actor;
                             ar_action := action; ar_result := res; ar_version := ver;
                             ar_target_version := target; ar_hash := hash; ar_reason := reason;
                             ar_error := error |}];
     watch_status := watch_status s; next_audit_id := next_audit_id s + 1; signing := signing s |}.

(** The [Debug] name of a permission. *)
Definition permission_name (p : ConfigPermission) : rstr :=
  match p with
  | PRead => lit "Read" | PWrite => lit "Write" | PRollback => lit "Rollback" | PAudit => lit "Audit"
  | PWatchStatus => lit "WatchStatus"
  end.

Definition require (now : N) (actor : ConfigPrincipal) (permission : ConfigPermission)
    (action : ConfigAuditAction) (s : ConfigCenterAdminStore) : result rstr unit * ConfigCenterAdminStore :=
  if can actor permission then (Ok tt, s)
  else
    let error := lit "actor `" ++ cp_id actor ++ lit "` lacks " ++ permission_name permission ++ lit " permission" in
    (Err error,
     push_audit now actor action Denied (version <$> active_version s) None None None (Some error) s).

(** ** Operations *)

Definition admin_new (fmt : ConfigFormat) (initial_raw : rstr) (metadata : ConfigAdminMetadata) (actor : rstr)
    (policy : ConfigSigningPolicy) (initial_signature : ConfigSignature) (now : N)
    : result rstr ConfigCenterAdminStore :=
  _ ← verify policy initial_signature initial_raw;
  _ ← parse_config_value initial_raw fmt;
  Ok {| format := fmt;
        versions := [{| version := 1; vr_hash := snapshot_hash initial_raw; raw := initial_raw;
                        source := md_source metadata; namespace := md_namespace metadata;
                        app := md_app metadata; vr_key := md_key metadata; author := actor;
                        reason := Some (lit "initial import"); created_at_millis := now; active := true;
                        rollout_percent := 100; rollout_state := Active; signature := initial_signature |}];
        audit := [];
        watch_status := {| mode := WatchUnavailable; ws_source := md_source metadata; last_revision := None;
                           last_error := None; updated_at_millis := now |};
        next_audit_id := 1; signing := policy |}.

Definition current (now : N) (actor : ConfigPrincipal) (s : ConfigCenterAdminStore)
    : result rstr ConfigVersionRecord * ConfigCenterAdminStore :=
  match require now actor PRead ARead s with
  | (Err e, s) => (Err e, s)
  | (Ok _, s) =>
      match active_version s with
      | None => (Err (lit "config admin store has no active version"), s)
      | Some r => (Ok r, push_audit now actor ARead Allowed (Some (version r)) None (Some (vr_hash r)) None None s)
      end
  end.

(** Publishing at full percentage retires what is active. *)
Definition retire_active (r : ConfigVersionRecord) : ConfigVersionRecord :=
  set_state false (if bool_decide (rollout_state r = Active) then Retired else rollout_state r) r.

Definition admin_publish (now : N) (request : ConfigChangeRequest) (raw_ : rstr) (metadata : ConfigAdminMetadata)
    (s : ConfigCenterAdminStore) : result rstr ConfigVersionRecord * ConfigCenterAdminStore :=
  match require now (cr_actor request) PWrite APublish s with
  | (Err e, s) => (Err e, s)
  | (Ok _, s) =>
      if (cr_percent request =? 0) || (100 <? cr_percent request)
      then (Err (lit "config rollout_percent must be in 1..=100"), s)
      else
        match verify (signing s) (cr_signature request) raw_ with
        | Err e => (Err e, s)
        | Ok _ =>
            match parse_config_value raw_ (format s) with
            | Err err =>
                let error := lit "config validation failed: " ++ err in
                (Err error, push_audit now (cr_actor request) APublish Rejected None None
                              (Some (snapshot_hash raw_)) (cr_reason request) (Some error) s)
            | Ok _ =>
                let v := next_version s in
                let activate := cr_percent request =? 100 in
                let vs := if activate then retire_active <$> versions s else versions s in
                let record :=
                  {| version := v; vr_hash := snapshot_hash raw_; raw := raw_; source := md_source metadata;
                     namespace := md_namespace metadata; app := md_app metadata; vr_key := md_key metadata;
                     author := cp_id (cr_actor request); reason := cr_reason request;
                     created_at_millis := now; active := activate; rollout_percent := cr_percent request;
                     rollout_state := if activate then Active else Staged;
                     signature := cr_signature request |} in
                let s := set_versions (vs ++ [record]) s in
                (Ok record, push_audit now (cr_actor request) APublish Allowed (Some v) None
                              (Some (vr_hash record)) (cr_reason request) None s)
            end
        end
  end.

Definition is_staged (v : N) (r : ConfigVersionRecord) : bool :=
  (version r =? v) && bool_decide (rollout_state r = Staged).

Definition staged_missing (v : N) : rstr := lit "staged config version " ++ dec v ++ lit " not found".

Definition promote_record (v : N) (r : ConfigVersionRecord) : ConfigVersionRecord :=
  set_state (version r =? v)
    (if version r =? v then Active
     else if bool_decide (rollout_state r = Active) then Retired else rollout_state r) r.

(** The promoted version is found again: [expect] does not panic. *)
Definition promote (now : N) (request : ConfigChangeRequest) (v : N) (s : ConfigCenterAdminStore)
    : result rstr (option ConfigVersionRecord) * ConfigCenterAdminStore :=
  match require now (cr_actor request) PWrite APublish s with
  | (Err e, s) => (Err e, s)
  | (Ok _, s) =>
      match find_record (is_staged v) s with
      | None => (Err (staged_missing v), s)
      | Some staged =>
          match verify (signing s) (cr_signature request) (raw staged) with
          | Err e => (Err e, s)
          | Ok _ =>
              let s := set_versions (promote_record v <$> versions s) s in
              (Ok (find_record (λ r, version r =? v) s), s)
          end
      end
  end.

(** The first staged record of that version. *)
Fixpoint reject_first (v : N) (l : list ConfigVersionRecord) : option (list ConfigVersionRecord) :=
  match l with
  | [] => None
  | r :: l' => if is_staged v r then Some (set_state false RolledBack r :: l') else cons r <$> reject_first v l'
  end.

Definition reject_staged (v : N) (s : ConfigCenterAdminStore) : result rstr unit * ConfigCenterAdminStore :=
  match reject_first v (versions s) with
  | None => (Err (staged_missing v), s)
  | Some vs => (Ok tt, set_versions vs s)
  end.

Definition rollback_record (target : N) (r : ConfigVersionRecord) : ConfigVersionRecord :=
  set_state (version r =? target)
    (if version r =? target then Active else if active r then Retired else rollout_state r) r.

Definition admin_rollback (now : N) (request : ConfigChangeRequest) (target_version : N) (s : ConfigCenterAdminStore)
    : result rstr (option ConfigVersionRecord) * ConfigCenterAdminStore :=
  match require now (cr_actor request) PRollback ARollback s with
  | (Err e, s) => (Err e, s)
  | (Ok _, s) =>
      match find_record (λ r, version r =? target_version) s with
      | None =>
          let error := lit "config version " ++ dec target_version ++ lit " not found" in
          (Err error, push_audit now (cr_actor request) ARollback Rejected (version <$> active_version s)
                        (Some target_version) None (cr_reason request) (Some error) s)
      | Some target =>
          let s := set_versions (rollback_record target_version <$> versions s) s in
          let s := push_audit now (cr_actor request) ARollback Allowed (Some (version target))
                     (Some (version target)) (Some (vr_hash target)) (cr_reason request) None s in
          (Ok (active_version s), s)
      end
  end.

Definition audit_log (now : N) (actor : ConfigPrincipal) (s : ConfigCenterAdminStore)
    : result rstr (list ConfigAuditRecord) * ConfigCenterAdminStore :=
  match require now actor PAudit AAudit s with
  | (Err e, s) => (Err e, s)
  | (Ok _, s) =>
      let s := push_audit now actor AAudit Allowed (version <$> active_version s) None None None None s in
      (Ok (audit s), s)
  end.

Definition admin_watch_status (now : N) (actor : ConfigPrincipal) (s : ConfigCenterAdminStore)
    : result rstr ConfigWatchStatus * ConfigCenterAdminStore :=
  match require now actor PWatchStatus AWatchStatus s with
  | (Err e, s) => (Err e, s)
  | (Ok _, s) =>
      (Ok (watch_status s),
       push_audit now actor AWatchStatus Allowed (version <$> active_version s) None None None None s)
  end.

Definition set_watch_status (w : ConfigWatchStatus) (s : ConfigCenterAdminStore) : ConfigCenterAdminStore :=
  {| format := format s; versions := versions s; audit := audit s; watch_status := w;
     next_audit_id := next_audit_id s; signing := signing s |}.

(** ** Snapshots *)

Fixpoint validate_records (fmt : ConfigFormat) (p : ConfigSigningPolicy) (l : list ConfigVersionRecord)
    : result rstr unit :=
  match l with
  | [] => Ok tt
  | r :: l' =>
      match parse_config_value (raw r) fmt with
      | Err err => Err (lit "config admin snapshot version " ++ dec (version r) ++ lit " is invalid: " ++ err)
      | Ok _ =>
          if negb (bool_decide (snapshot_hash (raw r) = vr_hash r))
          then Err (lit "config admin snapshot version " ++ dec (version r) ++ lit " hash mismatch")
          else _ ← verify p (signature r) (raw r); validate_records fmt p l'
      end
  end.

Definition active_count (s : ConfigCenterAdminStore) : nat := length (filter (λ r, active r = true) (versions s)).

Definition validate_snapshot (s : ConfigCenterAdminStore) : result rstr unit :=
  if negb (bool_decide (active_count s = 1%nat))
  then Err (lit "config admin snapshot must contain exactly one active version, found " ++ dec (N.of_nat (active_count s)))
  else validate_records (format s) (signing s) (versions s).

(** What loading a snapshot does with the store it reads from the file. *)
Definition load_snapshot (stored : ConfigCenterAdminStore) (policy : ConfigSigningPolicy)
    : result rstr ConfigCenterAdminStore :=
  let s := {| format := format stored; versions := versions stored; audit := audit stored;
              watch_status := watch_status stored; next_audit_id := next_audit_id stored; signing := policy |} in
  _ ← validate_snapshot s;
  Ok {| format := format s; versions := versions s; audit := audit s; watch_status := watch_status s;
        next_audit_id := N.max (next_audit_id s) (foldr N.max 0 (ar_id <$> audit s) + 1);
        signing := signing s |}.

(** ** The calls of the store

    A call with the moment it is made; the result is whether it succeeded. *)
Inductive AdminCall :=
| CCurrent (actor : ConfigPrincipal)
| CPublish (request : ConfigChangeRequest) (raw : rstr) (metadata : ConfigAdminMetadata)
| CPromote (request : ConfigChangeRequest) (version : N)
| CReject (version : N)
| CRollback (request : ConfigChangeRequest) (version : N)
| CAudit (actor : ConfigPrincipal)
| CWatch (actor : ConfigPrincipal)
| CSetWatch (status : ConfigWatchStatus).

Definition admin_call (now : N) (c : AdminCall) (s : ConfigCenterAdminStore) : bool * ConfigCenterAdminStore :=
  match c with
  | CCurrent actor => prod_map is_ok id (current now actor s)
  | CPublish request r m => prod_map is_ok id (admin_publish now request r m s)
  | CPromote request v => prod_map is_ok id (promote now request v s)
  | CReject v => prod_map is_ok id (reject_staged v s)
  | CRollback request v => prod_map is_ok id (admin_rollback now request v s)
  | CAudit actor => prod_map is_ok id (audit_log now actor s)
  | CWatch actor => prod_map is_ok id (admin_watch_status now actor s)
  | CSetWatch w => (true, set_watch_status w s)
  end.

Fixpoint admin_calls (l : list (N * AdminCall)) (s : ConfigCenterAdminStore) : ConfigCenterAdminStore :=
  match l with
  | [] => s
  | (now, c) :: l' => admin_calls l' (admin_call now c s).2
  end.

(** ** The invariant *)

Definition last_audit_id (s : ConfigCenterAdminStore) : N := foldr N.max 0 (ar_id <$> audit s).

(** The record of version [v], and no other, is active. *)
Definition active_is (v : N) (l : list ConfigVersionRecord) : Prop :=
  v ∈ (version <$> l) ∧ Forall (λ r, active r = (version r =? v)) l.

Definition record_ok (fmt : ConfigFormat) (p : ConfigSigningPolicy) (r : ConfigVersionRecord) : Prop :=
  is_ok (parse_config_value (raw r) fmt) = true ∧ vr_hash r = snapshot_hash (raw r) ∧
  verify p (signature r) (raw r) = Ok tt.

Definition state_ok (r : ConfigVersionRecord) : Prop := active r = bool_decide (rollout_state r = Active).

Record versions_ok (fmt : ConfigFormat) (p : ConfigSigningPolicy) (l : list ConfigVersionRecord) : Prop :=
  { vo_unique : NoDup (version <$> l); vo_active : ∃ v, active_is v l; vo_state : Forall state_ok l;
    vo_records : Forall (record_ok fmt p) l }.

Record store_ok (s : ConfigCenterAdminStore) : Prop :=
  { so_versions : versions_ok (format s) (signing s) (versions s);
    so_audit : last_audit_id s < next_audit_id s }.

(** ** Versions *)

Lemma active_is_count v l : NoDup (version <$> l) → active_is v l → length (filter (λ r, active r = true) l) = 1%nat.
Proof.
  intros Hnd [Hin Hall]. induction l as [|r l IH]; [by apply elem_of_nil in Hin|].
  apply NoDup_cons in Hnd as [Hni Hnd]. apply Forall_cons in Hall as [Hr Hall].
  rewrite filter_cons. fold (fmap version l) in *. case_decide as Ha; rewrite Hr in Ha; guard_prop.
  - cbn [length]. f_equal. apply (countp_zero (λ r, active r = true)).
    intros x Hx. rewrite (proj1 (Forall_forall _ _) Hall x Hx). intros Hv. guard_prop. apply Hni.
    apply list_elem_of_fmap. exists x. by split; [congruence|].
  - apply IH; [done| |done]. apply elem_of_cons in Hin as [->|Hin]; [|done]. by rewrite N.eqb_refl in Ha.
Qed.

Lemma active_is_find v l :
  active_is v l → ∃ r, List.find active l = Some r ∧ r ∈ l ∧ version r = v ∧ active r = true.
Proof.
  intros [(r & -> & Hr)%list_elem_of_fmap Hall].
  assert (active r = true) as Ha by (rewrite (proj1 (Forall_forall _ _) Hall r Hr); apply N.eqb_refl).
  destruct (List.find active l) as [r'|] eqn:E.
  - pose proof (find_some _ _ E) as [Hin%list_elem_of_In Hr']. exists r'. split_and!; [done..| |done].
    rewrite (proj1 (Forall_forall _ _) Hall r' Hin) in Hr'. by guard_prop.
  - apply list_elem_of_In in Hr. by rewrite (find_none _ _ E r Hr) in Ha.
Qed.

Lemma next_version_fresh s : next_version s ∉ (version <$> versions s).
Proof.
  unfold next_version. induction (version <$> versions s) as [|v l IH]; [apply not_elem_of_nil|].
  assert (∀ k, k ∈ v :: l → k ≤ foldr N.max 0 (v :: l)) as Hle.
  { clear IH. induction (v :: l) as [|w l' IH']; intros k; [by intros ?%elem_of_nil|].
    rewrite elem_of_cons. cbn [foldr]. intros [->|Hk]; [lia|]. specialize (IH' k Hk). lia. }
  intros Hk%Hle. lia.
Qed.

(** Changing what is active, by version, and nothing else of the records. *)
Lemma versions_ok_change fmt p v l (st : ConfigVersionRecord → ConfigRolloutState) :
  versions_ok fmt p l → v ∈ (version <$> l) → Forall (λ r, (st r = Active) ↔ version r = v) l →
  versions_ok fmt p ((λ r, set_state (version r =? v) (st r) r) <$> l).
Proof.
  intros [Hnd _ _ Hrec] Hv Hst.
  assert (version <$> ((λ r, set_state (version r =? v) (st r) r) <$> l) = version <$> l) as Ev.
  { rewrite <- list_fmap_compose. by apply list_fmap_ext. }
  constructor; [by rewrite Ev| | |].
  - exists v. split; [by rewrite Ev|]. apply Forall_fmap, Forall_true. by intros.
  - apply Forall_fmap. eapply Forall_impl; [exact Hst|]. intros r Hr. unfold state_ok; cbn.
    apply eq_bool_prop_intro. rewrite bool_decide_spec, Hr, Is_true_true. apply N.eqb_eq.
  - by apply Forall_fmap.
Qed.

Lemma versions_ok_staged fmt p l r :
  versions_ok fmt p l → version r ∉ (version <$> l) → rollout_state r = Staged → active r = false →
  record_ok fmt p r → versions_ok fmt p (l ++ [r]).
Proof.
  intros [Hnd [v [Hv Ha]] Hst Hrec] Hni Hr Hf Hok. constructor.
  - rewrite fmap_app. apply NoDup_app. split_and!; [done| |apply NoDup_singleton].
    intros x Hx ->%list_elem_of_singleton. done.
  - exists v. split; [rewrite fmap_app; apply elem_of_app; by left|]. apply Forall_app. split; [done|].
    constructor; [|constructor]. rewrite Hf. symmetry. apply N.eqb_neq. by intros <-.
  - apply Forall_app. split; [done|]. constructor; [|constructor]. unfold state_ok. by rewrite Hr, Hf.
  - apply Forall_app. split; [done|]. by constructor.
Qed.

Lemma versions_ok_activated fmt p l r :
  versions_ok fmt p l → version r ∉ (version <$> l) → rollout_state r = Active → active r = true →
  record_ok fmt p r → versions_ok fmt p ((retire_active <$> l) ++ [r]).
Proof.
  intros [Hnd _ Hst Hrec] Hni Hr Ht Hok.
  assert (version <$> (retire_active <$> l) = version <$> l) as Ev.
  { rewrite <- list_fmap_compose. by apply list_fmap_ext. }
  constructor.
  - rewrite fmap_app, Ev. apply NoDup_app. split_and!; [done| |apply NoDup_singleton].
    intros x Hx ->%list_elem_of_singleton. done.
  - exists (version r). split; [rewrite fmap_app; apply elem_of_app; right; by left|].
    apply Forall_app. split; [|constructor; [by rewrite Ht, N.eqb_refl|constructor]].
    apply Forall_fmap, Forall_forall. intros x Hx. cbn. symmetry. apply N.eqb_neq. intros E. apply Hni.
    rewrite <- E. by apply list_elem_of_fmap_2.
  - apply Forall_app. split; [|constructor; [|constructor]; unfold state_ok; by rewrite Hr, Ht].
    apply Forall_fmap, Forall_true. intros x. unfold state_ok; cbn. by case_bool_decide; case_bool_decide.
  - apply Forall_app. split; [by apply Forall_fmap|by constructor].
Qed.

Lemma reject_first_spec fmt p v l l' :
  versions_ok fmt p l → reject_first v l = Some l' → versions_ok fmt p l' ∧ List.find active l' = List.find active l.
Proof.
  intros [Hnd [w [Hw Ha]] Hst Hrec] Hl.
  assert (version <$> l' = version <$> l ∧ Forall (λ r, active r = (version r =? w)) l' ∧ Forall state_ok l' ∧
          Forall (record_ok fmt p) l' ∧ List.find active l' = List.find active l) as (Ev & H1 & H2 & H3 & H4);
    [|split; [constructor; rewrite ?Ev; try done; exists w; split; [by rewrite Ev|done]|done]].
  clear Hnd Hw. revert l' Hl Ha Hst Hrec. induction l as [|r l IH]; intros l' Hl Ha Hst Hrec; [done|].
  apply Forall_cons in Ha as [Har Ha], Hst as [Hsr Hst], Hrec as [Hrr Hrec]. cbn [reject_first] in Hl.
  destruct (is_staged v r) eqn:Es.
  - injection Hl as <-. unfold is_staged in Es. guard_prop. unfold state_ok in Hsr.
    assert (active r = false) as Hf by (rewrite Hsr; by apply bool_decide_eq_false; congruence).
    split_and!; [done|..]; try (constructor; [|done]); cbn; [congruence|done|done|]. by rewrite Hf.
  - destruct (reject_first v l) as [l1|] eqn:El; [|done]. injection Hl as <-.
    destruct (IH l1) as (Ev & H1 & H2 & H3 & H4); [done..|]. cbn.
    split_and!; [by f_equal|by constructor..|by rewrite H4].
Qed.

(** ** Operations *)

(** A record was added to the audit log, the versions may have changed. *)
Record audited (s s' : ConfigCenterAdminStore) : Prop :=
  { au_format : format s' = format s; au_signing : signing s' = signing s;
    au_audit : audit s `prefix_of` audit s';
    au_ids : last_audit_id s < next_audit_id s → last_audit_id s' < next_audit_id s' }.

Lemma audited_refl s : audited s s.
Proof. by constructor. Qed.
Lemma audited_versions s vs : audited s (set_versions vs s).
Proof. by constructor. Qed.
Lemma audited_push now actor a r v t h rs e s s0 : audited s0 s → audited s0 (push_audit now actor a r v t h rs e s).
Proof.
  intros [Hf Hs Ha Hi]. constructor; [done|done|by apply prefix_app_r|].
  intros Hids%Hi. unfold last_audit_id in *. cbn. rewrite fmap_app, foldr_app. cbn [fmap list_fmap foldr ar_id].
  clear Hi. revert Hids. generalize (next_audit_id s). induction (ar_id <$> audit s) as [|x l IH]; cbn [foldr]; intros n Hn; [lia|].
  assert (foldr N.max 0 l < n) as Hl by lia. specialize (IH n Hl). lia.
Qed.
Hint Resolve audited_refl audited_versions audited_push : core.

Lemma require_spec now actor perm action s :
  (require now actor perm action s = (Ok tt, s) ∧ can actor perm = true) ∨
  (∃ e s', require now actor perm action s = (Err e, s') ∧ audited s s' ∧ versions s' = versions s).
Proof. unfold require. destruct (can actor perm); [by left|right]. eauto 8. Qed.

(** What a call does: whom it takes, and which version is active after it. *)
Definition call_permitted (c : AdminCall) : Prop :=
  match c with
  | CCurrent actor => can actor PRead = true
  | CPublish request _ _ | CPromote request _ => can (cr_actor request) PWrite = true
  | CRollback request _ => can (cr_actor request) PRollback = true
  | CAudit actor => can actor PAudit = true
  | CWatch actor => can actor PWatchStatus = true
  | CReject _ | CSetWatch _ => True
  end.

Definition call_activates (s : ConfigCenterAdminStore) (c : AdminCall) (r : ConfigVersionRecord) : Prop :=
  match c with
  | CPublish request raw_ _ =>
      if cr_percent request =? 100 then version r = next_version s ∧ raw r = raw_
      else active_version s = Some r
  | CPromote _ v | CRollback _ v => version r = v
  | _ => active_version s = Some r
  end.

Record call_spec (s : ConfigCenterAdminStore) (c : AdminCall) (ok : bool) (s' : ConfigCenterAdminStore) : Prop :=
  { cs_audited : audited s s'; cs_versions : versions_ok (format s) (signing s) (versions s');
    cs_failed : ok = false → versions s' = versions s; cs_permitted : ok = true → call_permitted c;
    cs_active : ∃ r, active_version s' = Some r ∧ r ∈ versions s' ∧ if ok then call_activates s c r else active_version s = Some r }.

Lemma active_version_spec fmt p s : versions_ok fmt p (versions s) → ∃ r, active_version s = Some r ∧ r ∈ versions s.
Proof. intros [_ [v (r & ? & ? & ?)%active_is_find] _ _]. eauto. Qed.

(** A call that leaves the versions alone. *)
Lemma call_same s c ok s' :
  store_ok s → audited s s' → versions s' = versions s → (ok = true → call_permitted c) →
  (ok = true → ∀ r, active_version s = Some r → call_activates s c r) → call_spec s c ok s'.
Proof.
  intros [Hv _] Ha Ev Hp Hc. constructor; rewrite ?Ev; try done.
  destruct (active_version_spec _ _ _ Hv) as (r & Hr & Hin). exists r.
  unfold active_version, find_record in *. rewrite Ev. split_and!; [done..|]. destruct ok; by auto.
Qed.

(** A call that makes version [v] the active one. *)
Lemma call_active s c s' :
  audited s s' → versions_ok (format s) (signing s) (versions s') → call_permitted c →
  (∀ r, r ∈ versions s' → active r = true → call_activates s c r) → call_spec s c true s'.
Proof.
  intros Ha Hv Hp Hc. constructor; try done.
  destruct Hv as [_ [w (r & Hr & Hin & _ & Hact)%active_is_find] _ _]. exists r. by auto.
Qed.

Lemma record_parsed fmt p r v : parse_config_value (raw r) fmt = Ok v → vr_hash r = snapshot_hash (raw r) →
  verify p (signature r) (raw r) = Ok tt → record_ok fmt p r.
Proof. intros E ? ?. split; [by rewrite E|done]. Qed.

Lemma find_app_first {A} (f : A → bool) l l' r : List.find f l = Some r → List.find f (l ++ l') = Some r.
Proof. induction l as [|x l IH]; cbn; [done|]. by destruct (f x). Qed.

Lemma publish_spec now rq raw_ m s ok s' :
  store_ok s → admin_call now (CPublish rq raw_ m) s = (ok, s') → call_spec s (CPublish rq raw_ m) ok s'.
Proof.
  intros Hs. pose proof (so_versions _ Hs) as Hv. unfold admin_call, admin_publish.
  destruct (require_spec now (cr_actor rq) PWrite APublish s) as [[-> Hcan]|(e & s1 & -> & Ha & Ev)];
    [|intros [= <- <-]; by apply call_same].
  destruct (_ || _) eqn:Ep; [intros [= <- <-]; by apply call_same; auto|].
  destruct (verify _ _ _) as [[]|e] eqn:Esig; [|intros [= <- <-]; by apply call_same; auto].
  destruct (parse_config_value _ _) as [v|e] eqn:Epar; [|intros [= <- <-]; by apply call_same; auto].
  intros [= <- <-]. pose proof (next_version_fresh s) as Hf.
  destruct (cr_percent rq =? 100) eqn:E100.
  - apply call_active; [by auto|by apply versions_ok_activated; eauto using record_parsed|done|].
    cbn. rewrite E100. intros r [(r0 & -> & _)%list_elem_of_fmap| ->%list_elem_of_singleton]%elem_of_app; done.
  - destruct (active_version_spec _ _ _ Hv) as (r & Hr & Hin).
    constructor; [by auto|by apply versions_ok_staged; eauto using record_parsed|done|done|].
    exists r. unfold active_version, find_record in *. cbn. rewrite E100.
    split_and!; [by apply find_app_first|by apply elem_of_app; left|done].
Qed.

Lemma find_elem (P : ConfigVersionRecord → bool) s r : find_record P s = Some r → r ∈ versions s ∧ P r = true.
Proof. intros [Hin HP]%find_some. by rewrite list_elem_of_In. Qed.

Lemma version_unique l (r1 r2 : ConfigVersionRecord) :
  NoDup (version <$> l) → r1 ∈ l → r2 ∈ l → version r1 = version r2 → r1 = r2.
Proof.
  intros Hnd H1 H2 E. induction H1 as [r l|r r' l H1 IH]; rewrite fmap_cons in Hnd; apply NoDup_cons in Hnd as [Hni Hnd];
    apply elem_of_cons in H2 as [->|H2]; try done; [| |by apply IH].
  - destruct Hni. rewrite E. by apply list_elem_of_fmap_2.
  - destruct Hni. rewrite <- E. by apply list_elem_of_fmap_2.
Qed.

Lemma promote_spec now rq v s ok s' :
  store_ok s → admin_call now (CPromote rq v) s = (ok, s') → call_spec s (CPromote rq v) ok s'.
Proof.
  intros Hs. pose proof (so_versions _ Hs) as Hv. unfold admin_call, promote.
  destruct (require_spec now (cr_actor rq) PWrite APublish s) as [[-> Hcan]|(e & s1 & -> & Ha & Ev)];
    [|intros [= <- <-]; by apply call_same].
  destruct (find_record _ s) as [r|] eqn:Ef; [|intros [= <- <-]; by apply call_same; auto].
  apply find_elem in Ef as [Hin Est]. unfold is_staged in Est. guard_prop.
  destruct (verify _ _ _) as [[]|e]; intros [= <- <-]; [|by apply call_same; auto].
  apply call_active; [by auto| |done|].
  - apply versions_ok_change; [done|subst; by apply list_elem_of_fmap_2|].
    apply Forall_forall. intros r' Hr'. destruct (version r' =? v) eqn:E; guard_prop; [done|].
    case_bool_decide; naive_solver.
  - intros r' (r0 & -> & _)%list_elem_of_fmap. cbn. intros E. by guard_prop.
Qed.

Lemma rollback_spec now rq v s ok s' :
  store_ok s → admin_call now (CRollback rq v) s = (ok, s') → call_spec s (CRollback rq v) ok s'.
Proof.
  intros Hs. pose proof (so_versions _ Hs) as Hv. unfold admin_call, admin_rollback.
  destruct (require_spec now (cr_actor rq) PRollback ARollback s) as [[-> Hcan]|(e & s1 & -> & Ha & Ev)];
    [|intros [= <- <-]; by apply call_same].
  destruct (find_record _ s) as [r|] eqn:Ef; [|intros [= <- <-]; by apply call_same; auto].
  apply find_elem in Ef as [Hin Ev]. guard_prop. intros [= <- <-].
  apply call_active; [by auto| |done|].
  - apply versions_ok_change; [done|subst; by apply list_elem_of_fmap_2|].
    apply Forall_forall. intros r' Hr'. destruct (version r' =? v) eqn:E; guard_prop; [done|].
    pose proof (proj1 (Forall_forall _ _) (vo_state _ _ _ Hv) r' Hr') as Hst. unfold state_ok in Hst. rewrite Hst.
    case_bool_decide; naive_solver.
  - intros r' (r0 & -> & _)%list_elem_of_fmap. cbn. intros E. by guard_prop.
Qed.

Lemma reject_spec now v s ok s' :
  store_ok s → admin_call now (CReject v) s = (ok, s') → call_spec s (CReject v) ok s'.
Proof.
  intros Hs. pose proof (so_versions _ Hs) as Hv. unfold admin_call, reject_staged.
  destruct (reject_first v (versions s)) as [l|] eqn:E; intros [= <- <-]; [|by apply call_same; auto].
  destruct (reject_first_spec _ _ _ _ _ Hv E) as [Hl Ef]. destruct (active_version_spec _ _ (set_versions l s) Hl) as (r & Hr & Hin).
  constructor; [by auto|done..|]. exists r. split_and!; [done..|]. unfold call_activates, active_version, find_record in *. cbn in Hr. congruence.
Qed.

(** What every call of a well-formed store does. *)
Lemma admin_call_spec now c s ok s' : store_ok s → admin_call now c s = (ok, s') → call_spec s c ok s'.
Proof.
  intros Hs. destruct c as [actor|rq raw_ m|rq v|v|rq v|actor|actor|w].
  2: by apply publish_spec. 2: by apply promote_spec. 2: by apply reject_spec. 2: by apply rollback_spec.
  all: unfold admin_call, current, audit_log, admin_watch_status;
    try match goal with |- context [require ?n ?a ?p ?x ?t] =>
      destruct (require_spec n a p x t) as [[-> Hcan]|(e & s1 & -> & Ha & Ev)] end;
    try match goal with |- context [active_version ?t] => destruct (active_version t) end;
    intros [= <- <-]; apply call_same; auto using Build_audited; done.
Qed.

Lemma call_spec_ok s c ok s' : store_ok s → call_spec s c ok s' → store_ok s'.
Proof.
  intros [_ Hids] [[Hf Hs _ Hi] Hv _ _ _]. constructor; [by rewrite Hf, Hs|by apply Hi].
Qed.

Lemma admin_new_ok fmt raw_ md actor policy sig now s :
  admin_new fmt raw_ md actor policy sig now = Ok s → store_ok s ∧ signing s = policy.
Proof.
  unfold admin_new. destruct (verify _ _ _) as [[]|] eqn:Ev; [|done]. cbn [mbind result_bind].
  destruct (parse_config_value _ _) eqn:Ep; [|done]. cbn [mbind result_bind]. intros [= <-].
  split; [|done]. constructor; [|by constructor]. constructor; cbn.
  - apply NoDup_singleton.
  - exists 1. split; [by left|by repeat constructor].
  - by repeat constructor.
  - constructor; [|constructor]. by eapply record_parsed.
Qed.

Lemma admin_calls_ok l s :
  store_ok s → store_ok (admin_calls l s) ∧ signing (admin_calls l s) = signing s ∧ audit s `prefix_of` audit (admin_calls l s).
Proof.
  revert s. induction l as [|[now c] l IH]; intros s Hs; [done|]. cbn [admin_calls].
  destruct (admin_call now c s) as [ok s'] eqn:E. pose proof (admin_call_spec _ _ _ _ _ Hs E) as Hc.
  destruct (IH s') as (? & ? & ?); [by eapply call_spec_ok|]. destruct (cs_audited _ _ _ _ Hc) as [_ Es Ha _].
  split_and!; [done|cbn; congruence|by etrans].
Qed.

Lemma validate_records_ok fmt p l : Forall (record_ok fmt p) l → validate_records fmt p l = Ok tt.
Proof.
  induction 1 as [|r l (Hp & Hh & Hv) _ IH]; [done|]. cbn [validate_records].
  destruct (parse_config_value _ _); [|done]. rewrite bool_decide_eq_true_2 by done. cbn [negb]. by rewrite Hv.
Qed.

Lemma validate_records_inv fmt p l : validate_records fmt p l = Ok tt → Forall (record_ok fmt p) l.
Proof.
  induction l as [|r l IH]; [constructor|]. cbn [validate_records].
  destruct (parse_config_value _ _) as [v|] eqn:Ep; [|done]. destruct (negb _) eqn:Eh; [done|]. guard_prop.
  destruct (verify _ _ _) as [[]|] eqn:Ev; [|done]. cbn. intros Hl. constructor; [|by apply IH].
  by eapply record_parsed.
Qed.

Lemma load_snapshot_ok s : store_ok s → load_snapshot s (signing s) = Ok s.
Proof.
  intros [Hv Ha]. unfold load_snapshot, validate_snapshot, active_count. cbn.
  destruct (vo_active _ _ _ Hv) as [v Hact]. rewrite (active_is_count v), bool_decide_eq_true_2 by (done || apply Hv).
  cbn [negb]. rewrite (validate_records_ok _ _ _ (vo_records _ _ _ Hv)). cbn [mbind result_bind]. do 2 f_equal.
  destruct s; cbn in *. f_equal. apply N.max_l. unfold last_audit_id in Ha. cbn in Ha. lia.
Qed.

(** C19: the store is always worth saving. Whatever calls are made of a store after
    its creation, with whatever outcome, loading what would be saved gives that
    store back; exactly one version is active, its state says so, and its content
    parses and carries a signature of a trusted key. *)
Theorem admin_store_restores fmt raw_ md actor policy sig now s0 l s :
  admin_new fmt raw_ md actor policy sig now = Ok s0 → s = admin_calls l s0 →
  load_snapshot s policy = Ok s ∧ active_count s = 1%nat ∧
  ∃ r, active_version s = Some r ∧ rollout_state r = Active ∧
       is_ok (parse_config_value (raw r) (format s)) = true ∧ verify policy (signature r) (raw r) = Ok tt.
Proof.
  intros [Hs0 <-]%admin_new_ok ->. destruct (admin_calls_ok l s0 Hs0) as (Hs & <- & _).
  pose proof (so_versions _ Hs) as Hv. split_and!; [by apply load_snapshot_ok| |].
  - destruct (vo_active _ _ _ Hv) as [v Hact]. apply (active_is_count v); [apply Hv|done].
  - destruct (vo_active _ _ _ Hv) as [v (r & Hr & Hin & _ & Ha)%active_is_find]. exists r.
    pose proof (proj1 (Forall_forall _ _) (vo_state _ _ _ Hv) r Hin) as Hst. unfold state_ok in Hst.
    destruct (proj1 (Forall_forall _ _) (vo_records _ _ _ Hv) r Hin) as (? & _ & ?).
    rewrite Ha in Hst. symmetry in Hst. by guard_prop.
Qed.

(** What one call changes. Whatever was done since the store was created, a
    call adds to the audit log and never rewrites it; a call that fails changes no
    version; one that succeeds was made with the permission of its kind (rejecting
    needs none); the active version stays what it was unless the call publishes at
    100 percent, promotes or rolls back, and then the version it names is active: a
    partial rollout and its rejection never touch the active configuration. *)
Theorem admin_call_effect fmt raw_ md actor policy sig t0 s0 l s now c ok s' :
  admin_new fmt raw_ md actor policy sig t0 = Ok s0 → s = admin_calls l s0 → admin_call now c s = (ok, s') →
  audit s `prefix_of` audit s' ∧ (ok = false → versions s' = versions s) ∧ (ok = true → call_permitted c) ∧
  ∃ r, active_version s' = Some r ∧ if ok then call_activates s c r else active_version s = Some r.
Proof.
  intros [Hs0 _]%admin_new_ok -> E. destruct (admin_calls_ok l s0 Hs0) as (Hs & _ & _).
  destruct (admin_call_spec _ _ _ _ _ Hs E) as [Ha _ Hf Hp (r & ? & _ & ?)].
  split_and!; [apply Ha|done..|]. by exists r.
Qed.
End store.

(** ** Examples *)

(** A hash that keeps the lengths and sums the bytes; every text parses except the empty one. *)
Definition toy_sha (l : list N) : list N := replicate 31 0 ++ [foldr N.add 0 l mod 256].
Definition toy_parse (raw : rstr) (f : ConfigFormat) : result rstr rstr :=
  if bool_decide (raw = []) then Err (lit "empty") else Ok raw.
Definition toy_policy : ConfigSigningPolicy := {| trusted_keys := {[lit "ops" := lit "secret"]} |}.
Definition toy_sign (raw : rstr) : ConfigSignature :=
  match sign toy_sha toy_policy (lit "ops") raw with Ok s => s | Err _ => {| key_id := []; sig_value := [] |} end.
Definition toy_md : ConfigAdminMetadata :=
  {| md_source := lit "file"; md_namespace := None; md_app := None; md_key := None |}.
Definition operator : ConfigPrincipal := {| cp_id := lit "ann"; cp_permissions := [PWrite; PRollback] |}.
Definition toy_request (raw : rstr) (percent : N) : ConfigChangeRequest :=
  {| cr_actor := operator; cr_reason := None; cr_signature := toy_sign raw; cr_percent := percent |}.

Definition toy_new := admin_new toy_sha (λ r, r) toy_parse Yaml (lit "v1") toy_md (lit "init") toy_policy (toy_sign (lit "v1")) 5.
Definition toy_call := admin_call toy_sha (λ r, r) toy_parse.
Definition toy_calls := admin_calls toy_sha (λ r, r) toy_parse.
Definition toy_start : ConfigCenterAdminStore :=
  match toy_new with Ok s => s | Err _ => {| format := Yaml; versions := []; audit := [];
    watch_status := {| mode := Polling; ws_source := []; last_revision := None; last_error := None; updated_at_millis := 0 |};
    next_audit_id := 0; signing := toy_policy |} end.
Definition toy_history : list (N * AdminCall) :=
  [(6, CPublish (toy_request (lit "v2") 100) (lit "v2") toy_md); (7, CPublish (toy_request (lit "v3") 10) (lit "v3") toy_md);
   (8, CPublish (toy_request (lit "v3") 100) (lit "v4") toy_md)].

Example toy_history_active :
  (version <$> versions (toy_calls toy_history toy_start), version <$> active_version (toy_calls toy_history toy_start))
  = ([1; 2; 3], Some 2).
Proof. reflexivity. Qed.

Lemma admin_store_restores_witness :
  load_snapshot toy_sha (λ r, r) toy_parse (toy_calls toy_history toy_start) toy_policy
  = Ok (toy_calls toy_history toy_start).
Proof.
  apply (admin_store_restores toy_sha (λ r, r) toy_parse Yaml (lit "v1") toy_md (lit "init") toy_policy
           (toy_sign (lit "v1")) 5 toy_start toy_history); reflexivity.
Defined.

Lemma admin_call_effect_witness :
  ∃ r, active_version (toy_call 9 (CPromote (toy_request (lit "v3") 100) 3) (toy_calls toy_history toy_start)).2 = Some r ∧ version r = 3.
Proof.
  apply (admin_call_effect toy_sha (λ r, r) toy_parse Yaml (lit "v1") toy_md (lit "init") toy_policy
           (toy_sign (lit "v1")) 5 toy_start toy_history (toy_calls toy_history toy_start) 9
           (CPromote (toy_request (lit "v3") 100) 3) true); reflexivity.
Defined.

(** Promoting a staged version and rejecting one leave no trace in the audit log,
    and the rejection asks for no permission. *)
Example promote_not_audited :
  let s := toy_calls toy_history toy_start in
  (let r := toy_call 9 (CPromote (toy_request (lit "v3") 100) 3) s in (r.1, length (audit r.2))) = (true, length (audit s)) ∧
  (let r := toy_call 9 (CReject 3) s in (r.1, length (audit r.2))) = (true, length (audit s)).
Proof. split; reflexivity. Qed.

(** A rollback activates a version that was never active, even a rejected one. *)
Example rollback_to_rejected :
  let s := toy_calls ((toy_history ++ [(9, CReject 3)]) ++ [(10, CRollback (toy_request [] 0) 3)]) toy_start in
  version <$> active_version s = Some 3.
Proof. reflexivity. Qed.
