(* ===== verification/ConfigDiff.v ===== *)
(** * Differences of configurations (crates/roze-config/src/config_center.rs)

    The value tree of a parsed configuration, the recursive comparison of two of
    them, the sections and their signatures, and the change events of a reload.
    Numbers and the standard library's hasher are parameters; objects are maps that
    are enumerated in the order of their keys. *)

From S2P Require Import Prelude Text Scan.

Section config.
Context {Number : Type} `{EqDecision Number} (number_to_string : Number → rstr) (hash : rstr → rstr).

(** [serde_json::Value] *)
Inductive Value :=
| VNull
| VBool (b : bool)
| VNumber (n : Number)
| VString (s : rstr)
| VArray (l : list Value)
| VObject (m : gmap rstr Value).

#[export] Instance Value_eq_dec : EqDecision Value.
Proof.
  refine (fix go a b := let _ : EqDecision Value := go in
    match a, b with
    | VNull, VNull => left eq_refl
    | VBool x, VBool y => cast_if (decide (x = y))
    | VNumber x, VNumber y => cast_if (decide (x = y))
    | VString x, VString y => cast_if (decide (x = y))
    | VArray x, VArray y => cast_if (decide (x = y))
    | VObject x, VObject y => cast_if (decide (x = y))
    | _, _ => right _
    end); congruence.
Defined.

(** [json!({ .. })] of distinct names *)
Definition json_object (fields : list (rstr * Value)) : Value := VObject (list_to_map fields).

(** How deep objects are nested: the recursion of the comparison. *)
Fixpoint depth (v : Value) : nat :=
  match v with VObject m => S (map_fold (λ _ v, Nat.max (depth v)) 0%nat m) | _ => 0%nat end.

(** ** Comparison *)

Inductive ConfigDiffKind := Added | Removed | Changed.
Record ConfigDiffEntry :=
  { path : rstr; kind : ConfigDiffKind; old : option rstr; new : option rstr }.

Definition join_config_path (parent key : rstr) : rstr :=
  if bool_decide (parent = []) then key else parent ++ lit "." ++ key.

Definition bool_text (b : bool) : rstr := if b then lit "true" else lit "false".

Definition config_value_summary (v : Value) : rstr :=
  match v with
  | VNull => lit "null"
  | VBool b => bool_text b
  | VNumber n => number_to_string n
  | VString s => s
  | VArray l => lit "[" ++ dec (N.of_nat (length l)) ++ lit " items]"
  | VObject m => lit "{" ++ dec (N.of_nat (size m)) ++ lit " keys}"
  end.

Definition union_keys (o n : gmap rstr Value) : list rstr :=
  dedup (merge_sort str_le (btree_keys o ++ btree_keys n)).

Definition root_path (p : rstr) : rstr := if bool_decide (p = []) then lit "$" else p.

Fixpoint collect_config_diff (fuel : nat) (p : rstr) (old_value new_value : Value) : list ConfigDiffEntry :=
  match fuel with
  | O => []
  | S fuel =>
      match old_value, new_value with
      | VObject o, VObject n =>
          union_keys o n ≫= λ key,
            let child_path := join_config_path p key in
            match o !! key, n !! key with
            | Some old_child, Some new_child => collect_config_diff fuel child_path old_child new_child
            | None, Some new_child =>
                [{| path := child_path; kind := Added; old := None; new := Some (config_value_summary new_child) |}]
            | Some old_child, None =>
                [{| path := child_path; kind := Removed; old := Some (config_value_summary old_child); new := None |}]
            | None, None => []
            end
      | _, _ =>
          if negb (bool_decide (old_value = new_value))
          then [{| path := root_path p; kind := Changed; old := Some (config_value_summary old_value);
                   new := Some (config_value_summary new_value) |}]
          else []
      end
  end.

(** The recursion ends within the depth of the old value. *)
Definition value_diff (old_value new_value : Value) : list ConfigDiffEntry :=
  collect_config_diff (S (depth old_value)) [] old_value new_value.

Definition config_diff (parse : rstr → option Value) (old_raw new_raw : rstr) : list ConfigDiffEntry :=
  match parse old_raw with
  | None => []
  | Some old_value =>
      match parse new_raw with
      | None => []
      | Some new_value => value_diff old_value new_value
      end
  end.

(** ** Sections *)

Definition config_section (p : rstr) : rstr :=
  if bool_decide (p = []) || bool_decide (p = lit "$") then lit "root"
  else match split_on (N.eqb 46) p with s :: _ => s | [] => lit "root" end.

Fixpoint stable_config_value (v : Value) : rstr :=
  match v with
  | VNull => lit "null"
  | VBool b => lit "bool:" ++ bool_text b
  | VNumber n => lit "number:" ++ number_to_string n
  | VString s => lit "string:" ++ s
  | VArray l => lit "array:[" ++ join (lit ",") (stable_config_value <$> l) ++ lit "]"
  | VObject m =>
      lit "object:{" ++
      join (lit ",") (merge_sort str_le (map_fold (λ k v acc, (k ++ lit ":" ++ stable_config_value v) :: acc) [] m)) ++
      lit "}"
  end.

Definition stable_config_hash (v : Value) : rstr := hash (stable_config_value v).

Record ConfigSectionSignature := { section : rstr; section_sig : rstr }.

(** The keys of a map are enumerated in order, so sorting changes nothing. *)
Definition value_section_signatures (v : Value) : list ConfigSectionSignature :=
  match v with
  | VObject m => (λ kv, {| section := kv.1; section_sig := stable_config_hash kv.2 |}) <$> btree_iter m
  | other => [{| section := lit "root"; section_sig := stable_config_hash other |}]
  end.

Definition config_section_signatures (parse : rstr → option Value) (raw : rstr) : list ConfigSectionSignature :=
  match parse raw with None => [] | Some v => value_section_signatures v end.

(** ** Reload results *)

Record ReloadMetadata :=
  { rm_version : N; rm_old_version : N; rm_hash : rstr; rm_old_hash : rstr; rm_namespace : option rstr;
    rm_app : option rstr; rm_key : option rstr; rm_source : rstr }.

Record ReloadResult {T : Type} :=
  { meta : ReloadMetadata; ts_millis : N; changed : bool; diff : list ConfigDiffEntry;
    section_signatures : list ConfigSectionSignature; rr_success : bool; rr_error : option rstr; config : option T }.
Arguments ReloadResult : clear implicits.

Definition ReloadResult_success {T} (now : N) (m : ReloadMetadata) (c : T) (d : list ConfigDiffEntry)
    (sigs : list ConfigSectionSignature) : ReloadResult T :=
  {| meta := m; ts_millis := now; changed := negb (bool_decide (rm_old_hash m = rm_hash m)); diff := d;
     section_signatures := sigs; rr_success := true; rr_error := None; config := Some c |}.

Definition ReloadResult_failed {T} (now : N) (m : ReloadMetadata) (error : rstr) : ReloadResult T :=
  {| meta := m; ts_millis := now; changed := false; diff := []; section_signatures := []; rr_success := false;
     rr_error := Some error; config := None |}.

Record ConfigCenterChangeEvent :=
  { ev_meta : ReloadMetadata; ev_ts_millis : N; ev_section : rstr; ev_changed : bool; ev_success : bool;
    ev_error : option rstr; ev_paths : list rstr; ev_diff : list ConfigDiffEntry; section_hash : option rstr }.

Definition change_event {T} (r : ReloadResult T) (sec : rstr) (d : list ConfigDiffEntry) : ConfigCenterChangeEvent :=
  {| ev_meta := meta r; ev_ts_millis := ts_millis r; ev_section := sec; ev_changed := changed r;
     ev_success := rr_success r; ev_error := rr_error r; ev_paths := path <$> d; ev_diff := d;
     section_hash := section_sig <$> List.find (λ s, bool_decide (section s = sec)) (section_signatures r) |}.

(** The entries by section, in their order. *)
Definition push_section (m : gmap rstr (list ConfigDiffEntry)) (e : ConfigDiffEntry) : gmap rstr (list ConfigDiffEntry) :=
  <[config_section (path e) := default [] (m !! config_section (path e)) ++ [e]]> m.
Definition sections (d : list ConfigDiffEntry) : gmap rstr (list ConfigDiffEntry) := foldl push_section ∅ d.

Definition change_events {T} (r : ReloadResult T) : list ConfigCenterChangeEvent :=
  if negb (rr_success r) then [change_event r (lit "*") []]
  else if bool_decide (sections (diff r) = ∅) then [change_event r (lit "root") []]
  else (λ kv, change_event r kv.1 kv.2) <$> btree_iter (sections (diff r)).

(** ** Lemmas *)

Lemma depth_child (m : gmap rstr Value) k v : m !! k = Some v → (depth v < depth (VObject m))%nat.
Proof.
  intros Hk. cbn [depth]. apply Nat.lt_succ_r. revert Hk.
  apply (map_fold_weak_ind (λ d (m : gmap rstr Value), m !! k = Some v → (depth v ≤ d)%nat)); [done|].
  intros i x m' r Hi IH. destruct (decide (i = k)) as [->|Hne].
  - rewrite lookup_insert_eq. intros [= ->]. lia.
  - rewrite lookup_insert_ne by done. intros ?%IH. lia.
Qed.

Lemma elem_of_union_keys o n k : k ∈ union_keys o n ↔ is_Some (o !! k) ∨ is_Some (n !! k).
Proof. unfold union_keys. by rewrite elem_of_dedup, merge_sort_Permutation, elem_of_app, !elem_of_btree_keys. Qed.

(** Where a path of keys leads. *)
Fixpoint value_at (segs : list rstr) (v : Value) : option Value :=
  match segs with
  | [] => Some v
  | k :: segs => match v with VObject m => c ← m !! k; value_at segs c | _ => None end
  end.

Definition path_of (p : rstr) (segs : list rstr) : rstr := foldl join_config_path p segs.

Definition is_object (v : Value) : bool := match v with VObject _ => true | _ => false end.

(** Two values are different other than inside of objects. *)
Definition differ (x y : option Value) : Prop :=
  x ≠ y ∧ ∀ a b, x = Some a → y = Some b → is_object a && is_object b = false.

(** An entry says how the values at a path differ. *)
Definition describes (p : rstr) (o n : Value) (e : ConfigDiffEntry) (segs : list rstr) : Prop :=
  differ (value_at segs o) (value_at segs n) ∧
  old e = config_value_summary <$> value_at segs o ∧ new e = config_value_summary <$> value_at segs n ∧
  match kind e with
  | Added => path e = path_of p segs ∧ value_at segs o = None
  | Removed => path e = path_of p segs ∧ value_at segs n = None
  | Changed => path e = root_path (path_of p segs) ∧ is_Some (value_at segs o) ∧ is_Some (value_at segs n)
  end.

Lemma describes_child p k mo mn a b e segs :
  mo !! k = Some a → mn !! k = Some b → describes (join_config_path p k) a b e segs →
  describes p (VObject mo) (VObject mn) e (k :: segs).
Proof. intros Ha Hb. unfold describes. cbn [value_at]. by rewrite Ha, Hb. Qed.

(** The comparison of two values that are not both objects. *)
Lemma collect_leaf fuel p o n :
  is_object o && is_object n = false →
  collect_config_diff (S fuel) p o n =
    if bool_decide (o = n) then []
    else [{| path := root_path p; kind := Changed; old := Some (config_value_summary o);
             new := Some (config_value_summary n) |}].
Proof. by destruct o, n; cbn -[bool_decide]; intros; try case_bool_decide. Qed.

Lemma leaf_describes p o n :
  is_object o && is_object n = false → o ≠ n →
  describes p o n {| path := root_path p; kind := Changed; old := Some (config_value_summary o);
                     new := Some (config_value_summary n) |} [].
Proof. intros Hl Hne. unfold describes, differ. cbn. split_and!; try done; [congruence|]. by intros ?? [= <-] [= <-]. Qed.

Lemma object_cases (o n : Value) : is_object o && is_object n = false ∨ ∃ mo mn, o = VObject mo ∧ n = VObject mn.
Proof. destruct o, n; eauto. Qed.

(** Every entry is a difference. *)
Lemma collect_sound fuel p o n e :
  e ∈ collect_config_diff fuel p o n → ∃ segs, describes p o n e segs.
Proof.
  revert p o n. induction fuel as [|fuel IH]; intros p o n; [by intros ?%elem_of_nil|].
  destruct (object_cases o n) as [Hl|(mo & mn & -> & ->)].
  - rewrite collect_leaf by done. case_bool_decide; [by intros ?%elem_of_nil|].
    intros ->%list_elem_of_singleton. exists []. by apply leaf_describes.
  - cbn [collect_config_diff]. intros (k & He & _)%list_elem_of_bind.
    destruct (mo !! k) as [a|] eqn:Ea, (mn !! k) as [b|] eqn:Eb.
    + destruct (IH _ _ _ He) as [segs Hs]. exists (k :: segs). by eapply describes_child.
    + apply list_elem_of_singleton in He as ->. exists [k]. unfold describes, differ. cbn. by rewrite Ea, Eb.
    + apply list_elem_of_singleton in He as ->. exists [k]. unfold describes, differ. cbn. by rewrite Ea, Eb.
    + by apply elem_of_nil in He.
Qed.

Lemma collect_key fuel p mo mn k e :
  e ∈ match mo !! k, mn !! k with
      | Some a, Some b => collect_config_diff fuel (join_config_path p k) a b
      | None, Some b => [{| path := join_config_path p k; kind := Added; old := None; new := Some (config_value_summary b) |}]
      | Some a, None => [{| path := join_config_path p k; kind := Removed; old := Some (config_value_summary a); new := None |}]
      | None, None => []
      end →
  e ∈ collect_config_diff (S fuel) p (VObject mo) (VObject mn).
Proof.
  intros He. cbn [collect_config_diff]. apply list_elem_of_bind. exists k. split; [exact He|].
  apply elem_of_union_keys. destruct (mo !! k), (mn !! k); eauto. by apply elem_of_nil in He.
Qed.

(** Every difference has an entry, at its path or on the way to it. *)
Lemma collect_complete fuel p o n segs :
  (depth o < fuel)%nat → differ (value_at segs o) (value_at segs n) →
  ∃ e segs', e ∈ collect_config_diff fuel p o n ∧ segs' `prefix_of` segs ∧ describes p o n e segs'.
Proof.
  revert p o n segs. induction fuel as [|fuel IH]; intros p o n segs Hf Hd; [lia|].
  destruct (object_cases o n) as [Hl|(mo & mn & -> & ->)].
  - rewrite collect_leaf by done. case_bool_decide as Heq; [by subst; destruct Hd|].
    eexists _, []. split_and!; [by left|apply prefix_nil|by apply leaf_describes].
  - destruct segs as [|k segs]; [by destruct Hd as [_ Hd]; specialize (Hd _ _ eq_refl eq_refl)|].
    cbn [value_at] in Hd. destruct (mo !! k) as [a|] eqn:Ea, (mn !! k) as [b|] eqn:Eb.
    + destruct (IH (join_config_path p k) a b segs) as (e & segs' & He & Hp & Hs); [|done|].
      { apply depth_child in Ea. lia. }
      exists e, (k :: segs'). split_and!; [|by apply prefix_cons|by eapply describes_child].
      apply (collect_key _ _ _ _ k). by rewrite Ea, Eb.
    + eexists _, [k]. split_and!; [apply (collect_key _ _ _ _ k); rewrite Ea, Eb; by left|by apply prefix_cons, prefix_nil|].
      unfold describes, differ. cbn. by rewrite Ea, Eb.
    + eexists _, [k]. split_and!; [apply (collect_key _ _ _ _ k); rewrite Ea, Eb; by left|by apply prefix_cons, prefix_nil|].
      unfold describes, differ. cbn. by rewrite Ea, Eb.
    + by destruct Hd.
Qed.

Lemma collect_nil fuel p o n : (depth o < fuel)%nat → collect_config_diff fuel p o n = [] → o = n.
Proof.
  revert p o n. induction fuel as [|fuel IH]; intros p o n Hf; [lia|].
  destruct (object_cases o n) as [Hl|(mo & mn & -> & ->)].
  - rewrite collect_leaf by done. by case_bool_decide.
  - intros Hnil. f_equal. apply map_eq. intros k.
    assert (∀ e, e ∉ collect_config_diff (S fuel) p (VObject mo) (VObject mn)) as Hno
      by (intros e; rewrite Hnil; apply not_elem_of_nil).
    destruct (mo !! k) as [a|] eqn:Ea, (mn !! k) as [b|] eqn:Eb; [|..|done].
    + f_equal. apply (IH (join_config_path p k)); [apply depth_child in Ea; lia|].
      destruct (collect_config_diff fuel _ a b) as [|e l] eqn:El; [done|].
      destruct (Hno e). apply (collect_key _ _ _ _ k). rewrite Ea, Eb, El. by left.
    + edestruct Hno. apply (collect_key _ _ _ _ k). rewrite Ea, Eb. by left.
    + edestruct Hno. apply (collect_key _ _ _ _ k). rewrite Ea, Eb. by left.
Qed.

Lemma collect_same fuel p v : collect_config_diff fuel p v v = [].
Proof.
  destruct (collect_config_diff fuel p v v) as [|e l] eqn:E; [done|].
  destruct (collect_sound fuel p v v e) as (segs & [Hne _] & _); [rewrite E; by left|done].
Qed.

(** The reported difference of two configurations is exact: it is empty just
    when they are equal; every entry says how the values at a path differ, with
    their summaries; and wherever two values differ, other than as objects, there is
    an entry for their path or for one on the way to it. *)
Theorem config_diff_exact (o n : Value) :
  (value_diff o n = [] ↔ o = n) ∧
  (∀ e, e ∈ value_diff o n → ∃ segs, describes [] o n e segs) ∧
  (∀ segs, differ (value_at segs o) (value_at segs n) →
    ∃ e segs', e ∈ value_diff o n ∧ segs' `prefix_of` segs ∧ describes [] o n e segs').
Proof.
  unfold value_diff. split_and!.
  - split; [apply collect_nil; lia|]. intros <-. apply collect_same.
  - intros e. apply collect_sound.
  - intros segs. apply collect_complete. lia.
Qed.

(** ** Events by section *)

Definition in_section (k : rstr) (e : ConfigDiffEntry) : Prop := config_section (path e) = k.

#[local] Instance in_section_dec k e : Decision (in_section k e).
Proof. unfold in_section. apply _. Defined.

Lemma sections_lookup d k :
  sections d !! k = match filter (in_section k) d with [] => None | l => Some l end.
Proof.
  unfold sections. induction d as [|e d IH] using rev_ind; [done|].
  rewrite foldl_app, filter_app, filter_cons, filter_nil. cbn [foldl]. unfold push_section at 1.
  destruct (decide (config_section (path e) = k)) as [<-|Hne].
  - rewrite lookup_insert_eq, decide_True by done. rewrite IH.
    by destruct (filter (in_section (config_section (path e))) d).
  - rewrite lookup_insert_ne, decide_False, app_nil_r by done. done.
Qed.

(** The events of a successful reload are its entries by section: a section has one
    event, with the entries of that section in their order, and every entry is in
    the event of its section. *)
Lemma change_events_partition {T} (r : ReloadResult T) :
  rr_success r = true →
  NoDup (ev_section <$> change_events r) ∧
  (∀ ev, ev ∈ change_events r → ev_diff ev = filter (in_section (ev_section ev)) (diff r) ∧ ev_paths ev = path <$> ev_diff ev) ∧
  (∀ e, e ∈ diff r → config_section (path e) ∈ (ev_section <$> change_events r)).
Proof.
  intros Hs. unfold change_events. rewrite Hs. cbn [negb]. case_bool_decide as He.
  - assert (∀ e, e ∉ diff r) as Hno.
    { intros e Hin. pose proof (sections_lookup (diff r) (config_section (path e))) as Hl. rewrite He, lookup_empty in Hl.
      destruct (filter _ _) eqn:Ef; [|done]. assert (e ∈ filter (in_section (config_section (path e))) (diff r)) as H'
        by by apply list_elem_of_filter.
      rewrite Ef in H'. by apply elem_of_nil in H'. }
    split_and!; [apply NoDup_singleton| |by intros e ?%Hno].
    intros ev ->%list_elem_of_singleton. cbn. destruct (diff r) as [|e l] eqn:E; [done|]. destruct (Hno e). by left.
  - rewrite <- list_fmap_compose. split_and!.
    + change (NoDup (fst <$> btree_iter (sections (diff r)))). unfold btree_iter.
      pose proof (NoDup_btree_keys (sections (diff r))) as Hnd.
      assert (∀ l, (∀ k, k ∈ l → is_Some (sections (diff r) !! k)) → fst <$> omap (λ k, pair k <$> sections (diff r) !! k) l = l) as ->; [|done|].
      { induction l as [|k l IH]; intros Hl; [done|]. destruct (Hl k) as [v Hv]; [by left|]. cbn. rewrite Hv. cbn.
        f_equal. apply IH. intros k' ?. apply Hl. by right. }
      intros k. apply elem_of_btree_keys.
    + intros ev ([k d] & -> & Hk%elem_of_btree_iter)%list_elem_of_fmap. cbn.
      rewrite sections_lookup in Hk.
      destruct (filter (in_section k) (diff r)); [done|]. by injection Hk as <-.
    + intros e Hin. apply list_elem_of_fmap.
      destruct (sections (diff r) !! config_section (path e)) as [d|] eqn:Ed.
      * exists (config_section (path e), d). split; [done|]. by apply elem_of_btree_iter.
      * rewrite sections_lookup in Ed. destruct (filter _ _) eqn:Ef; [|done].
        assert (e ∈ filter (in_section (config_section (path e))) (diff r)) as H' by by apply list_elem_of_filter.
        rewrite Ef in H'. by apply elem_of_nil in H'.
Qed.

Lemma path_of_prefix k segs : k ≠ [] → ∃ t, path_of k segs = k ++ t ∧ (t = [] ∨ ∃ t', t = 46 :: t').
Proof.
  revert k. induction segs as [|x segs IH]; intros k Hk; [exists []; rewrite app_nil_r; auto|].
  cbn [path_of foldl]. unfold join_config_path at 2. rewrite bool_decide_eq_false_2 by done.
  destruct (IH (k ++ lit "." ++ x)) as (t & Ht & _); [by destruct k|].
  exists (lit "." ++ x ++ t). unfold path_of in Ht. rewrite Ht, <- !app_assoc. split; [done|]. right. by eexists.
Qed.

Lemma split_on_head k t : lacks 46 k = true → (t = [] ∨ ∃ t', t = 46 :: t') → ∃ l, split_on (N.eqb 46) (k ++ t) = k :: l.
Proof.
  intros Hk Ht. induction k as [|c k IH].
  - destruct Ht as [->|[t' ->]]; cbn; eauto.
  - cbn in Hk. apply andb_true_iff in Hk as [Hc Hk]. apply negb_true_iff in Hc. cbn [app split_on].
    destruct (IH Hk) as [l ->]. rewrite N.eqb_sym, Hc. eauto.
Qed.

(** A top-level key that names its own section. *)
Definition plain_section (k : rstr) : Prop := k ≠ [] ∧ k ≠ lit "$" ∧ lacks 46 k = true.

Lemma section_of_path k segs p :
  plain_section k → p = path_of k segs ∨ p = root_path (path_of k segs) → config_section p = k.
Proof.
  intros (Hne & Hd & Hl) Hp. destruct (path_of_prefix k segs Hne) as (t & Ht & Hform). rewrite Ht in Hp.
  assert (p = k ++ t) as ->.
  { destruct Hp as [->| ->]; [done|]. unfold root_path. rewrite bool_decide_eq_false_2; [done|]. by destruct k. }
  unfold config_section. rewrite (bool_decide_eq_false_2 (_ = [])) by by destruct k.
  rewrite bool_decide_eq_false_2; cbn [orb].
  - by destruct (split_on_head k t Hl Hform) as [l ->].
  - intros Heq. destruct Hform as [->|[t' ->]]; [by rewrite app_nil_r in Heq|].
    destruct k as [|c [|c' k]]; cbn in Heq; simplify_eq.
Qed.

Lemma section_changed mo mn k :
  plain_section k → mo !! k ≠ mn !! k →
  ∃ e, e ∈ value_diff (VObject mo) (VObject mn) ∧ config_section (path e) = k.
Proof.
  intros Hk Hne. unfold value_diff.
  assert (∃ e, e ∈ collect_config_diff (S (depth (VObject mo))) [] (VObject mo) (VObject mn) ∧
            ∃ segs, path e = path_of k segs ∨ path e = root_path (path_of k segs)) as (e & He & segs & Hp).
  2: { exists e. split; [done|]. by eapply section_of_path. }
  destruct (mo !! k) as [a|] eqn:Ea, (mn !! k) as [b|] eqn:Eb; [|..|done].
  - destruct (collect_config_diff (depth (VObject mo)) (join_config_path [] k) a b) as [|e l] eqn:El.
    + apply collect_nil in El; [congruence|]. by eapply depth_child.
    + exists e. split; [apply (collect_key _ _ _ _ k); rewrite Ea, Eb, El; by left|].
      destruct (collect_sound (depth (VObject mo)) (join_config_path [] k) a b e) as (segs & _ & _ & _ & Hp);
        [rewrite El; by left|]. exists segs. destruct (kind e); destruct Hp as [Hp _]; [by left..|by right].
  - eexists. split; [apply (collect_key _ _ _ _ k); rewrite Ea, Eb; by left|]. exists []. by left.
  - eexists. split; [apply (collect_key _ _ _ _ k); rewrite Ea, Eb; by left|]. exists []. by left.
Qed.

Lemma find_signature (m : gmap rstr Value) k :
  List.find (λ s, bool_decide (section s = k)) (value_section_signatures (VObject m)) =
  (λ v, {| section := k; section_sig := stable_config_hash v |}) <$> m !! k.
Proof.
  cbn [value_section_signatures].
  destruct (List.find _ _) as [s|] eqn:E.
  - apply find_some in E as [Hin Hs]. guard_prop.
    apply list_elem_of_In, list_elem_of_fmap in Hin as ([k' v] & -> & Hv%elem_of_btree_iter). cbn in Hs. subst.
    by rewrite Hv.
  - destruct (m !! k) as [v|] eqn:Ev; [|done]. exfalso.
    assert ({| section := k; section_sig := stable_config_hash v |} ∈
              ((λ kv, {| section := kv.1; section_sig := stable_config_hash kv.2 |}) <$> btree_iter m)) as Hin.
    { apply list_elem_of_fmap. exists (k, v). split; [done|]. by apply elem_of_btree_iter. }
    apply list_elem_of_In in Hin. pose proof (find_none _ _ E _ Hin) as Hn. cbn in Hn. by guard_prop.
Qed.

(** A section no event names did not change. After a reload from one object to
    another, a top-level key (not empty, not a dollar sign, without a dot) that is
    not the section of any event has the same value, and the same signature, before
    and after: a subsystem may keep what it built from it. *)
Theorem unlisted_section_unchanged {T} (r : ReloadResult T) mo mn k :
  rr_success r = true → diff r = value_diff (VObject mo) (VObject mn) → plain_section k →
  k ∉ (ev_section <$> change_events r) →
  mo !! k = mn !! k ∧
  List.find (λ s, bool_decide (section s = k)) (value_section_signatures (VObject mo)) =
  List.find (λ s, bool_decide (section s = k)) (value_section_signatures (VObject mn)).
Proof.
  intros Hs Hd Hk Hni. destruct (change_events_partition r Hs) as (_ & _ & Hall).
  assert (mo !! k = mn !! k) as Heq.
  { destruct (decide (mo !! k = mn !! k)) as [|Hne]; [done|].
    destruct (section_changed mo mn k Hk Hne) as (e & He & <-). destruct Hni. apply Hall. by rewrite Hd. }
  split; [done|]. by rewrite !find_signature, Heq.
Qed.
End config.
Arguments ReloadResult : clear implicits.

(** ** Examples *)

Definition toy_old : gmap rstr (@Value N) :=
  {[lit "name" := VString (lit "demo"); lit "gateway" := VObject {[lit "timeout_ms" := VNumber 1000]};
    lit "removed" := VBool true]}.
Definition toy_new : gmap rstr (@Value N) :=
  {[lit "name" := VString (lit "demo"); lit "gateway" := VObject {[lit "timeout_ms" := VNumber 2000]};
    lit "added" := VString (lit "yes")]}.

(** The source's own test. *)
Example toy_diff :
  value_diff dec (VObject toy_old) (VObject toy_new) =
  [{| path := lit "added"; kind := Added; old := None; new := Some (lit "yes") |};
   {| path := lit "gateway.timeout_ms"; kind := Changed; old := Some (lit "1000"); new := Some (lit "2000") |};
   {| path := lit "removed"; kind := Removed; old := Some (lit "true"); new := None |}].
Proof. vm_compute. reflexivity. Qed.

Definition toy_reload : ReloadResult unit :=
  ReloadResult_success 0 {| rm_version := 1; rm_old_version := 0; rm_hash := lit "b"; rm_old_hash := lit "a";
    rm_namespace := None; rm_app := None; rm_key := None; rm_source := lit "file" |} tt
    (value_diff dec (VObject toy_old) (VObject toy_new)) (value_section_signatures dec id (VObject toy_new)).

Lemma unlisted_section_unchanged_witness : toy_old !! lit "name" = toy_new !! lit "name".
Proof.
  apply (unlisted_section_unchanged dec id toy_reload toy_old toy_new (lit "name")).
  - reflexivity.
  - reflexivity.
  - split; [discriminate|split; [discriminate|reflexivity]].
  - refine (bool_decide_unpack _ _). vm_compute. exact I.
Defined.

(** Strings are not escaped in the text that is hashed: lists of one and of two
    strings have the same signature. *)
Example signature_collision :
  stable_config_value dec (VArray [VString (lit "a"); VString (lit "b")]) =
  stable_config_value dec (VArray [VString (lit "a,string:b")]).
Proof. reflexivity. Qed.
