(* ===== verification/ConfigWatch.v ===== *)
(** * Watching a configuration ([ConfigCenter] and [watch_loop] of crates/roze-config/src/config_center.rs)

    A round of the watch loop is a function of what it receives: a snapshot from
    the native watch or from polling, the end of the watch channel, a failed read.
    Parsing, the application's validator and the hasher are parameters. The loop is
    one task; the listeners it notifies are its outputs (the threads they run on are
    not modelled). *)

From S2P Require Import Prelude Text ConfigDiff.

Section watch.
Context {Number T : Type} `{EqDecision Number} (number_to_string : Number → rstr) (hash snapshot_hash : rstr → rstr).
Context (parse_config_value : rstr → result rstr (@Value Number)) (deserialize : @Value Number → result rstr T)
  (validator : T → result rstr unit).

Record ConfigCenterConfig :=
  { poll_interval : N; debounce : N; listener_timeout : N; cc_source : option rstr; cc_namespace : option rstr;
    cc_app : option rstr; cc_key : option rstr }.
Definition ConfigCenterConfig_default : ConfigCenterConfig :=
  {| poll_interval := from_secs 5; debounce := from_millis 400; listener_timeout := from_millis 500;
     cc_source := None; cc_namespace := None; cc_app := None; cc_key := None |}.

Definition parse_config (raw : rstr) : result rstr T := v ← parse_config_value raw; deserialize v.

(** Parsed and accepted by the validator. *)
Definition load_raw (raw : rstr) : result rstr T :=
  match parse_config raw with
  | Ok parsed => match validator parsed with Ok _ => Ok parsed | Err e => Err e end
  | Err e => Err e
  end.

(** The locals of the loop, and the value and version it shares with the handles. *)
Record WatchState :=
  { last_snapshot : rstr; last_hash : rstr; last_failed_hash : option rstr; pending : option (rstr * N);
    native : bool; value : T; center_version : N }.

(** [ConfigCenter::new_with_validator]; [watched] is whether the native watch could be opened. *)
Definition center_new (read : result rstr rstr) (watched : bool) : result rstr WatchState :=
  raw ← read;
  initial ← parse_config raw;
  _ ← validator initial;
  Ok {| last_snapshot := raw; last_hash := snapshot_hash raw; last_failed_hash := None; pending := None;
        native := watched; value := initial; center_version := 0 |}.

Inductive WatchOutput :=
| NotifyConfig (config : T)
| NotifyReload (result : ReloadResult T).

Definition reload_metadata (o : ConfigCenterConfig) (version old_version : N) (h old_h : rstr) : ReloadMetadata :=
  {| rm_version := version; rm_old_version := old_version; rm_hash := h; rm_old_hash := old_h;
     rm_namespace := cc_namespace o; rm_app := cc_app o; rm_key := cc_key o;
     rm_source := default (lit "config-center") (cc_source o) |}.

Definition set_pending (p : option (rstr * N)) (s : WatchState) : WatchState :=
  {| last_snapshot := last_snapshot s; last_hash := last_hash s; last_failed_hash := last_failed_hash s;
     pending := p; native := native s; value := value s; center_version := center_version s |}.
Definition set_failed_hash (h : option rstr) (s : WatchState) : WatchState :=
  {| last_snapshot := last_snapshot s; last_hash := last_hash s; last_failed_hash := h;
     pending := pending s; native := native s; value := value s; center_version := center_version s |}.

Definition ok_value {E A} (r : result E A) : option A := match r with Ok a => Some a | Err _ => None end.

(** A snapshot that has been stable for the debounce interval. *)
Definition apply_snapshot (o : ConfigCenterConfig) (raw : rstr) (millis : N) (s : WatchState)
    : list WatchOutput * WatchState :=
  let h := snapshot_hash raw in
  match load_raw raw with
  | Err err =>
      let old_version := center_version s in
      let r := ReloadResult_failed millis (reload_metadata o (old_version + 1) old_version h (last_hash s)) err in
      ([NotifyReload r], set_failed_hash (Some h) (set_pending None s))
  | Ok parsed =>
      let next_version := center_version s + 1 in
      let parse raw := ok_value (parse_config_value raw) in
      let r := ReloadResult_success millis (reload_metadata o next_version (center_version s) h (last_hash s)) parsed
                 (config_diff number_to_string parse (last_snapshot s) raw)
                 (config_section_signatures number_to_string hash parse raw) in
      ((if changed r then [NotifyConfig parsed] else []) ++ [NotifyReload r],
       {| last_snapshot := raw; last_hash := h; last_failed_hash := None; pending := None; native := native s;
          value := parsed; center_version := next_version |})
  end.

(** A round of the loop that got a snapshot. *)
Definition on_snapshot (o : ConfigCenterConfig) (raw : rstr) (now millis : N) (s : WatchState)
    : list WatchOutput * WatchState :=
  let h := snapshot_hash raw in
  let s := if match last_failed_hash s with Some f => negb (bool_decide (f = h)) | None => false end
           then set_failed_hash None s else s in
  if bool_decide (h = last_hash s) then ([], set_pending None s)
  else if bool_decide (last_failed_hash s = Some h) then ([], set_pending None s)
  else
    match pending s with
    | Some (cached, at_) =>
        if bool_decide (cached = raw) then
          if now - at_ <? debounce o then ([], s) else apply_snapshot o raw millis s
        else ([], set_pending (Some (raw, now)) s)
    | None => ([], set_pending (Some (raw, now)) s)
    end.

Inductive WatchInput :=
| Received (raw : rstr) (now millis : N)
| ChannelClosed
| ReadFailed (error : rstr).

Definition watch_step (o : ConfigCenterConfig) (i : WatchInput) (s : WatchState) : list WatchOutput * WatchState :=
  match i with
  | Received raw now millis => on_snapshot o raw now millis s
  | ChannelClosed =>
      ([], {| last_snapshot := last_snapshot s; last_hash := last_hash s; last_failed_hash := last_failed_hash s;
              pending := pending s; native := false; value := value s; center_version := center_version s |})
  | ReadFailed _ => ([], s)
  end.

Fixpoint watch_loop (o : ConfigCenterConfig) (l : list WatchInput) (s : WatchState) : list WatchOutput * WatchState :=
  match l with
  | [] => ([], s)
  | i :: l' =>
      let '(out, s) := watch_step o i s in
      let '(outs, s) := watch_loop o l' s in
      (out ++ outs, s)
  end.

(** ** Sources *)

(** [CascadingSubscriber::value]: the first source that can be read. *)
Fixpoint cascading_value (last_error : option rstr) (sources : list (result rstr rstr)) : result rstr rstr :=
  match sources with
  | [] => Err (default (lit "no config source available") last_error)
  | Ok raw :: _ => Ok raw
  | Err err :: sources' => cascading_value (Some err) sources'
  end.

(** [CascadingSubscriber::watch]: the first source that supports watching; its result is the call's. *)
Definition cascading_supports_watch {W} (sources : list (option W)) : bool :=
  existsb (λ s, match s with Some _ => true | None => false end) sources.
Fixpoint cascading_watch {W} (sources : list (option W)) : result rstr W :=
  match sources with
  | [] => Err (lit "no config source supports watch")
  | Some w :: _ => Ok w
  | None :: sources' => cascading_watch sources'
  end.

(** ** The invariant *)

Record watch_ok (s : WatchState) : Prop :=
  { wo_value : load_raw (last_snapshot s) = Ok (value s); wo_hash : last_hash s = snapshot_hash (last_snapshot s) }.

(** The configurations published by some outputs, and their failures. *)
Definition published (outs : list WatchOutput) : list T :=
  omap (λ x, match x with NotifyReload r => if rr_success r then config r else None | _ => None end) outs.
Definition reloads (outs : list WatchOutput) : list (ReloadResult T) :=
  omap (λ x, match x with NotifyReload r => Some r | _ => None end) outs.

Lemma center_new_ok read watched s : center_new read watched = Ok s → watch_ok s ∧ center_version s = 0.
Proof.
  unfold center_new. destruct read as [raw|]; [|done]. cbn [mbind result_bind].
  destruct (parse_config raw) as [v|] eqn:Ep; [|done]. cbn [mbind result_bind].
  destruct (validator v) as [[]|] eqn:Ev; [|done]. cbn [mbind result_bind]. intros [= <-].
  split; [|done]. constructor; [|done]. cbn. unfold load_raw. by rewrite Ep, Ev.
Qed.

(** What a round that got a snapshot may do: nothing visible, publish it, or report it. *)
Inductive round (raw : rstr) (s : WatchState) : list WatchOutput → WatchState → Prop :=
| RoundSilent s' : value s' = value s → center_version s' = center_version s → last_snapshot s' = last_snapshot s →
    last_hash s' = last_hash s → round raw s [] s'
| RoundFailed s' e r : load_raw raw = Err e → rr_success r = false → rr_error r = Some e →
    value s' = value s → center_version s' = center_version s → last_snapshot s' = last_snapshot s →
    last_hash s' = last_hash s → last_failed_hash s' = Some (snapshot_hash raw) →
    round raw s [NotifyReload r] s'
| RoundPublished s' t r : load_raw raw = Ok t → rr_success r = true → config r = Some t → changed r = true →
    value s' = t → center_version s' = center_version s + 1 → last_snapshot s' = raw →
    last_hash s' = snapshot_hash raw → round raw s [NotifyConfig t; NotifyReload r] s'.

Lemma apply_snapshot_round o raw millis s :
  snapshot_hash raw ≠ last_hash s →
  round raw s (apply_snapshot o raw millis s).1 (apply_snapshot o raw millis s).2.
Proof.
  intros Hne. unfold apply_snapshot. destruct (load_raw raw) as [t|e] eqn:El.
  - cbn. rewrite bool_decide_eq_false_2 by done. cbn. by econstructor; cbn; rewrite ?bool_decide_eq_false_2.
  - by eapply RoundFailed.
Qed.

Lemma round_clear raw s outs s' : round raw (set_failed_hash None s) outs s' → round raw s outs s'.
Proof. destruct 1; [by apply RoundSilent|by eapply RoundFailed|by eapply RoundPublished]. Qed.

Lemma on_snapshot_round o raw now millis s :
  round raw s (on_snapshot o raw now millis s).1 (on_snapshot o raw now millis s).2.
Proof.
  unfold on_snapshot. set (s0 := if _ : bool then _ else s).
  assert (∀ outs s', round raw s0 outs s' → round raw s outs s') as Hs0
    by (unfold s0; case_match; auto using round_clear).
  apply Hs0. clearbody s0. case_bool_decide; [by apply RoundSilent|].
  case_bool_decide; [by apply RoundSilent|]. destruct (pending s0) as [[cached at_]|]; [|by apply RoundSilent].
  case_bool_decide; [|by apply RoundSilent]. case_match; [by apply RoundSilent|]. by apply apply_snapshot_round.
Qed.

Lemma round_watch_ok raw s outs s' : round raw s outs s' → watch_ok s → watch_ok s'.
Proof.
  intros H [Hv Hh]. destruct H as [s' E1 _ E2 E3|s' e r _ _ _ E1 _ E2 E3|s' t r El _ _ _ E1 _ E2 E3]; constructor;
    by rewrite ?E1, ?E2, ?E3.
Qed.

(** A reload that was announced says what became of a snapshot. *)
Definition announced (l : list WatchInput) (r : ReloadResult T) : Prop :=
  ∃ raw now millis, Received raw now millis ∈ l ∧
    match load_raw raw with
    | Ok t => rr_success r = true ∧ config r = Some t
    | Err e => rr_success r = false ∧ rr_error r = Some e
    end.

Lemma watch_step_spec o i s :
  watch_ok s →
  watch_ok (watch_step o i s).2 ∧
  last (value s :: published (watch_step o i s).1) = Some (value (watch_step o i s).2) ∧
  center_version (watch_step o i s).2 = center_version s + N.of_nat (length (published (watch_step o i s).1)) ∧
  (∀ r, r ∈ reloads (watch_step o i s).1 → announced [i] r).
Proof.
  intros Hs. destruct i as [raw now millis| |e]; cbn [watch_step fst snd].
  2,3: destruct Hs; split_and!; [by constructor|done|cbn; lia|by intros r ?%elem_of_nil].
  pose proof (on_snapshot_round o raw now millis s) as Hr. split; [by eapply round_watch_ok|].
  destruct Hr as [s' E1 E2 _ _|s' e r El Er Ee E1 E2 _ _ _|s' t r El Er Ec _ E1 E2 _ _]; unfold published, reloads; cbn.
  - rewrite E1, E2. split_and!; [done|lia|by intros r ?%elem_of_nil].
  - rewrite E1, E2, Er. cbn. split_and!; [done|lia|]. intros r' ->%list_elem_of_singleton.
    exists raw, now, millis. split; [by left|]. by rewrite El.
  - rewrite E1, E2, Er, Ec. cbn. split_and!; [done|lia|]. intros r' ->%list_elem_of_singleton.
    exists raw, now, millis. split; [by left|]. by rewrite El.
Qed.

Lemma last_app_published (v w : T) l1 l2 : last (v :: l1) = Some w → last (v :: l1 ++ l2) = last (w :: l2).
Proof.
  intros Hl. destruct l2 as [|x l2]; [by rewrite app_nil_r|]. rewrite app_comm_cons, !last_cons, last_app, last_cons.
  destruct (last (x :: l2)) eqn:E; cbn in E |- *; rewrite ?last_cons in *; by destruct (last l2).
Qed.

Lemma watch_loop_spec o l s :
  watch_ok s →
  watch_ok (watch_loop o l s).2 ∧
  last (value s :: published (watch_loop o l s).1) = Some (value (watch_loop o l s).2) ∧
  center_version (watch_loop o l s).2 = center_version s + N.of_nat (length (published (watch_loop o l s).1)) ∧
  (∀ r, r ∈ reloads (watch_loop o l s).1 → announced l r).
Proof.
  revert s. induction l as [|i l IH]; intros s Hs.
  - cbn. split_and!; [done|done|lia|by intros r ?%elem_of_nil].
  - cbn [watch_loop]. destruct (watch_step_spec o i s Hs) as (H1 & H2 & H3 & H4).
    destruct (watch_step o i s) as [out s1]. cbn [fst snd] in *. destruct (IH s1 H1) as (I1 & I2 & I3 & I4).
    destruct (watch_loop o l s1) as [outs s2]. cbn [fst snd] in *.
    unfold published, reloads in *. rewrite !omap_app. split_and!; [done| | |].
    + by rewrite (last_app_published _ _ _ _ H2).
    + rewrite I3, H3, length_app. lia.
    + intros r [(raw & n & m & Hin & Hr)%H4|(raw & n & m & Hin & Hr)%I4]%elem_of_app; exists raw, n, m;
        (split; [|done]); [apply list_elem_of_singleton in Hin as <-; by left|by right].
Qed.

(** C20: a snapshot that does not load never replaces the last valid configuration.
    Whatever a center receives (snapshots at any times, failed reads, the end of its
    watch), the configuration its handles see is the initial one or the last that
    was announced as published; it is the parse of a snapshot the validator accepts;
    the version counts the publications; and every announced reload tells of a
    received snapshot whether it loads. *)
Theorem watch_keeps_last_valid o read watched s0 l outs s :
  center_new read watched = Ok s0 → watch_loop o l s0 = (outs, s) →
  load_raw (last_snapshot s) = Ok (value s) ∧ last (value s0 :: published outs) = Some (value s) ∧
  center_version s = N.of_nat (length (published outs)) ∧ (∀ r, r ∈ reloads outs → announced l r).
Proof.
  intros [Hs0 Hv]%center_new_ok E. pose proof (watch_loop_spec o l s0 Hs0) as H. rewrite E in H. cbn [fst snd] in H.
  destruct H as ([? _] & ? & Hver & ?). split_and!; [done..| |done]. rewrite Hver, Hv. lia.
Qed.

(** ** One announcement for an unchanged snapshot *)

(** The snapshots among some inputs are all the same. *)
Definition only (raw : rstr) (i : WatchInput) : Prop := match i with Received r _ _ => r = raw | _ => True end.

Definition settled (raw : rstr) (s : WatchState) : Prop :=
  last_hash s = snapshot_hash raw ∨ last_failed_hash s = Some (snapshot_hash raw).

Lemma settled_silent o raw i s :
  only raw i → settled raw s → (watch_step o i s).1 = [] ∧ settled raw (watch_step o i s).2 ∧ value (watch_step o i s).2 = value s.
Proof.
  intros Hi Hs. destruct i as [r now millis| |e]; cbn; [|done..]. cbn in Hi. subst r. unfold on_snapshot.
  set (s0 := if _ : bool then _ else s).
  assert (settled raw s0 ∧ value s0 = value s) as [Hs0 <-].
  { unfold s0. destruct (last_failed_hash s) as [f|] eqn:Ef; [|done]. case_bool_decide; [done|]. cbn [negb].
    split; [|done]. destruct Hs as [Hs|Hs]; [by left|congruence]. }
  clearbody s0. case_bool_decide as H1; [done|]. destruct Hs0 as [?|Hf]; [done|].
  rewrite Hf, bool_decide_eq_true_2 by done. cbn. split_and!; [done|by right|done].
Qed.

Lemma settled_loop o raw l s :
  Forall (only raw) l → settled raw s →
  (watch_loop o l s).1 = [] ∧ value (watch_loop o l s).2 = value s ∧ settled raw (watch_loop o l s).2.
Proof.
  intros Hl. revert s. induction Hl as [|i l Hi _ IH]; intros s Hs; [done|]. cbn [watch_loop].
  destruct (settled_silent o raw i s Hi Hs) as (H1 & H2 & H3). destruct (watch_step o i s) as [out s1].
  cbn [fst snd] in *. destruct (IH s1 H2) as (I1 & I2 & I3). destruct (watch_loop o l s1) as [outs s2]. cbn [fst snd] in *.
  by rewrite H1, I1, I2, H3.
Qed.

Lemma round_settled raw s outs s' : round raw s outs s' → outs ≠ [] → settled raw s' ∧ length (reloads outs) = 1%nat.
Proof. destruct 1; [done|..]; intros _; (split; [|done]); [by right|by left]. Qed.

(** An unchanged snapshot is announced once: however often and at whatever
    times the same text is received, between failed reads and whatever the state of
    the loop, it gives at most one reload result, valid or not. *)
Theorem unchanged_announced_once o raw l s :
  Forall (only raw) l → (length (reloads (watch_loop o l s).1) ≤ 1)%nat.
Proof.
  intros Hl. revert s. induction Hl as [|i l Hi Hl IH]; intros s; [cbn; lia|]. cbn [watch_loop].
  assert ((watch_step o i s).1 = [] ∨ settled raw (watch_step o i s).2 ∧ length (reloads (watch_step o i s).1) = 1%nat) as Hc.
  { destruct i as [r now millis| |e]; [|by left..]. cbn in Hi. subst r. cbn [watch_step].
    destruct (decide ((on_snapshot o raw now millis s).1 = [])) as [|Hne]; [by left|right].
    eapply round_settled; [apply on_snapshot_round|done]. }
  destruct (watch_step o i s) as [out s1]. cbn [fst snd] in *. specialize (IH s1).
  pose proof (settled_loop o raw l s1 Hl) as Hset. destruct (watch_loop o l s1) as [outs s2]. cbn [fst snd] in *.
  destruct Hc as [->|[Hs Hlen]]; [done|]. destruct (Hset Hs) as [-> _]. rewrite app_nil_r. lia.
Qed.

(** ** A stable snapshot is decided *)

(** [raw] is new and has been pending since [t0] or longer. *)
Definition fresh (raw : rstr) (s : WatchState) : Prop :=
  snapshot_hash raw ≠ last_hash s ∧ last_failed_hash s ≠ Some (snapshot_hash raw).
Definition pending_since (raw : rstr) (t0 : N) (s : WatchState) : Prop :=
  ∃ at_, pending s = Some (raw, at_) ∧ at_ ≤ t0.

(** The verdict on [raw], announced once. *)
Definition decided (raw : rstr) (s : WatchState) (outs : list WatchOutput) (s' : WatchState) : Prop :=
  settled raw s' ∧ ∃ r, reloads outs = [r] ∧
    match load_raw raw with
    | Ok t => rr_success r = true ∧ value s' = t
    | Err e => rr_error r = Some e ∧ value s' = value s
    end.

Lemma round_decided raw s outs s' : round raw s outs s' → outs ≠ [] → decided raw s outs s'.
Proof.
  intros Hr Hne. split; [by eapply round_settled|]. destruct Hr as [|s' e r El ? ?|s' t r El]; [done|..];
    exists r; by rewrite El.
Qed.

Lemma on_snapshot_fresh o raw now millis s t0 :
  fresh raw s → (∀ c at_, pending s = Some (c, at_) → at_ ≤ t0) →
  decided raw s (on_snapshot o raw now millis s).1 (on_snapshot o raw now millis s).2 ∨
  (on_snapshot o raw now millis s).1 = [] ∧ fresh raw (on_snapshot o raw now millis s).2 ∧
  pending_since raw (N.max t0 now) (on_snapshot o raw now millis s).2 ∧ value (on_snapshot o raw now millis s).2 = value s ∧
  (pending_since raw t0 s → pending_since raw t0 (on_snapshot o raw now millis s).2 ∧ now < t0 + debounce o).
Proof.
  intros Hf Hp. destruct (decide ((on_snapshot o raw now millis s).1 = [])) as [He|Hne];
    [|left; by apply round_decided; [apply on_snapshot_round|]].
  right. split; [done|]. revert He. unfold on_snapshot. set (s0 := if _ : bool then _ else s).
  assert (fresh raw s0 ∧ pending s0 = pending s ∧ value s0 = value s) as ([Hf1 Hf2] & Ep & <-).
  { unfold s0. destruct Hf. by case_match. }
  clearbody s0. rewrite bool_decide_eq_false_2, bool_decide_eq_false_2 by done. unfold pending_since. rewrite <- Ep in *.
  destruct (pending s0) as [[c at_]|] eqn:Es.
  - case_bool_decide as Hc.
    + subst c. specialize (Hp raw at_ eq_refl). destruct (now - at_ <? debounce o) eqn:Ed; guard_prop.
      * intros _. cbn. rewrite Es. split_and!; [by split|exists at_; split; [done|lia]|done|].
        intros _. split; [by exists at_|lia].
      * intros Hx. exfalso. revert Hx. unfold apply_snapshot. destruct (load_raw raw); cbn; [|done]. by case_match.
    + intros _. cbn. split_and!; [by split|exists now; split; [done|lia]|done|]. intros (a & [= -> _] & _). done.
  - intros _. cbn. split_and!; [by split|exists now; split; [done|lia]|done|]. by intros (a & ? & _).
Qed.

Lemma decided_then o raw l s out s1 :
  Forall (only raw) l → decided raw s out s1 →
  decided raw s (out ++ (watch_loop o l s1).1) (watch_loop o l s1).2.
Proof.
  intros Hl [Hs (r & Hr & Hv)]. destruct (settled_loop o raw l s1 Hl Hs) as (-> & Hv' & Hs').
  rewrite app_nil_r. split; [done|]. exists r. by rewrite Hv'.
Qed.

Lemma decided_later raw s s1 outs s2 : value s1 = value s → decided raw s1 outs s2 → decided raw s outs s2.
Proof. intros Hv [Hs Hd]. split; [done|]. by rewrite <- Hv. Qed.

(** A fresh snapshot that is pending is decided by a repeat the interval later. *)
Lemma pending_loop o raw t0 l s t1 m1 :
  Forall (only raw) l → fresh raw s → pending_since raw t0 s → Received raw t1 m1 ∈ l → t0 + debounce o ≤ t1 →
  decided raw s (watch_loop o l s).1 (watch_loop o l s).2.
Proof.
  intros Hl. revert s. induction Hl as [|i l Hi Hl IH]; intros s Hf Hp Hin Ht; [by apply elem_of_nil in Hin|].
  cbn [watch_loop].
  assert (decided raw s (watch_step o i s).1 (watch_step o i s).2 ∨
    (watch_step o i s).1 = [] ∧ fresh raw (watch_step o i s).2 ∧ pending_since raw t0 (watch_step o i s).2 ∧
    value (watch_step o i s).2 = value s ∧ i ≠ Received raw t1 m1) as Hc.
  { destruct i as [r now millis| |e]; cbn; [|by right..]. cbn in Hi. subst r.
    destruct (on_snapshot_fresh o raw now millis s t0 Hf) as [Hd|(H1 & H2 & _ & H3 & H4)]; [|by left|].
    - destruct Hp as (a & -> & Ha). by intros ?? [= _ <-].
    - right. destruct (H4 Hp). split_and!; [done..|]. intros [= -> ->]. lia. }
  destruct (watch_step o i s) as [out s1]. cbn [fst snd] in *.
  pose proof (decided_then o raw l s out s1 Hl) as Hthen. specialize (IH s1).
  destruct (watch_loop o l s1) as [outs s2]. cbn [fst snd] in *.
  destruct Hc as [Hd|(-> & Hf1 & Hp1 & Hv & Hne)]; [by apply Hthen|].
  apply elem_of_cons in Hin as [<-|Hin]; [done|]. by eapply decided_later, IH.
Qed.

(** C21: a stable snapshot is decided. Let a text with a new hash, that did not just
    fail, be received at some time and then again and again without another text in
    between (failed reads may come). Once one of the repeats comes the debounce
    interval later, exactly one reload has been announced, and it tells the truth:
    the text loads, and then it is the configuration the handles see, or the error,
    and then they see what they saw. *)
Theorem stable_snapshot_decided o raw t0 m0 l s t1 m1 :
  snapshot_hash raw ≠ last_hash s → last_failed_hash s ≠ Some (snapshot_hash raw) →
  (∀ c at_, pending s = Some (c, at_) → at_ ≤ t0) → Forall (only raw) l →
  Received raw t1 m1 ∈ l → t0 + debounce o ≤ t1 →
  let '(outs, s') := watch_loop o (Received raw t0 m0 :: l) s in
  ∃ r, reloads outs = [r] ∧
    match load_raw raw with
    | Ok t => rr_success r = true ∧ value s' = t
    | Err e => rr_error r = Some e ∧ value s' = value s
    end.
Proof.
  intros Hh Hlf Hp Hl Hin Ht. destruct (watch_loop o _ s) as [outs s'] eqn:E.
  enough (decided raw s outs s') as [_ ?] by done.
  replace outs with (watch_loop o (Received raw t0 m0 :: l) s).1 by by rewrite E.
  replace s' with (watch_loop o (Received raw t0 m0 :: l) s).2 by by rewrite E. clear E outs s'.
  cbn [watch_loop watch_step].
  destruct (on_snapshot_fresh o raw t0 m0 s t0) as [[Hs Hd]|(H1 & H2 & H3 & H4 & _)]; [by split|done|..].
  - pose proof (decided_then o raw l s _ _ Hl (conj Hs Hd)) as H.
    destruct (on_snapshot o raw t0 m0 s) as [out s1]. cbn [fst snd] in *. by destruct (watch_loop o l s1).
  - rewrite N.max_id in H3. pose proof (pending_loop o raw t0 l _ t1 m1 Hl H2 H3 Hin Ht) as H.
    destruct (on_snapshot o raw t0 m0 s) as [out s1]. cbn [fst snd] in *. rewrite H1.
    apply (decided_later _ s) in H; [|done]. by destruct (watch_loop o l s1).
Qed.

(** ** What the debounce does to a native watch *)

(** No two snapshots in a row are the same, the first not the pending one. *)
Fixpoint no_repeat (prev : option rstr) (l : list WatchInput) : Prop :=
  match l with
  | [] => True
  | Received raw _ _ :: l' => prev ≠ Some raw ∧ no_repeat (Some raw) l'
  | _ :: l' => no_repeat prev l'
  end.

(** A snapshot that is received once is never applied, however much time passes:
    while no text comes twice in a row nothing is announced and the configuration
    stays. The native watch delivers a change of the key once, so a change takes
    effect only when the same text is written again. *)
Lemma single_updates_ignored o l s :
  no_repeat (fst <$> pending s) l → (watch_loop o l s).1 = [] ∧ value (watch_loop o l s).2 = value s.
Proof.
  assert (∀ prev, (∀ c at_, pending s = Some (c, at_) → prev = Some c) → no_repeat prev l →
            (watch_loop o l s).1 = [] ∧ value (watch_loop o l s).2 = value s) as Hgen.
  2: { apply Hgen. by intros c at_ ->. }
  revert s. induction l as [|i l IH]; intros s prev Hp Hn; [done|]. cbn [watch_loop].
  assert (∃ prev', no_repeat prev' l ∧ (watch_step o i s).1 = [] ∧ value (watch_step o i s).2 = value s ∧
            ∀ c at_, pending (watch_step o i s).2 = Some (c, at_) → prev' = Some c) as (prev' & Hn' & H1 & H2 & H3).
  { destruct i as [raw now millis| |e]; [|by exists prev..]. destruct Hn as [Hne Hn]. exists (Some raw). split; [done|].
    cbn [watch_step]. unfold on_snapshot. set (s0 := if _ : bool then _ else s).
    assert (pending s0 = pending s ∧ value s0 = value s) as [Ep <-] by (unfold s0; by case_match).
    clearbody s0. rewrite <- Ep in Hp. case_bool_decide; [done|]. case_bool_decide; [done|].
    destruct (pending s0) as [[c a]|]; [|by split_and!; [..|intros ?? [= <- _]]].
    rewrite bool_decide_eq_false_2; [by split_and!; [..|intros ?? [= <- _]]|]. intros ->. by destruct Hne; eapply Hp. }
  destruct (watch_step o i s) as [out s1]. cbn [fst snd] in *. destruct (IH s1 prev' H3 Hn') as [I1 I2].
  destruct (watch_loop o l s1) as [outs s2]. cbn [fst snd] in *. by rewrite H1, I1, I2, H2.
Qed.
End watch.

(** ** Examples *)

(** Texts parse to themselves; a text that starts with [!] is rejected. *)
Definition toy_parse (raw : rstr) : result rstr (@Value N) := Ok (VString raw).
Definition toy_deserialize (v : @Value N) : result rstr rstr :=
  match v with VString s => Ok s | _ => Err (lit "not a string") end.
Definition toy_validator (s : rstr) : result rstr unit :=
  match s with 33 :: _ => Err (lit "rejected") | _ => Ok tt end.

Definition toy_loop := watch_loop dec id id toy_parse toy_deserialize toy_validator (ConfigCenterConfig_default).
Definition toy_center : WatchState :=
  {| last_snapshot := lit "a"; last_hash := lit "a"; last_failed_hash := None; pending := None; native := false;
     value := lit "a"; center_version := 0 |}.
Definition toy_polls : list WatchInput :=
  [Received (lit "b") (from_secs 5) 1; Received (lit "b") (from_secs 10) 2; ReadFailed (lit "timeout");
   Received (lit "!") (from_secs 15) 3; Received (lit "!") (from_secs 20) 4; Received (lit "!") (from_secs 25) 5].

Example toy_loop_result :
  (λ p, (published p.1, length (reloads p.1), value p.2, center_version p.2)) (toy_loop toy_polls toy_center)
  = ([lit "b"], 2%nat, lit "b", 1).
Proof. vm_compute. reflexivity. Qed.

Lemma watch_keeps_last_valid_witness :
  let '(outs, s) := toy_loop toy_polls toy_center in last (lit "a" :: published outs) = Some (value s).
Proof.
  destruct (toy_loop toy_polls toy_center) as [outs s] eqn:E.
  apply (watch_keeps_last_valid dec id id toy_parse toy_deserialize toy_validator ConfigCenterConfig_default
           (Ok (lit "a")) false toy_center toy_polls outs s); [reflexivity|exact E].
Defined.

Lemma unchanged_announced_once_witness :
  (length (reloads (toy_loop [Received (lit "!") 0 0; Received (lit "!") (from_secs 5) 1; Received (lit "!") (from_secs 9) 2]
                      toy_center).1) ≤ 1)%nat.
Proof. apply (unchanged_announced_once dec id id toy_parse toy_deserialize toy_validator _ (lit "!")). by repeat constructor. Defined.

Lemma stable_snapshot_decided_witness :
  let '(outs, s') := toy_loop [Received (lit "b") 0 0; Received (lit "b") (from_secs 5) 1] toy_center in
  ∃ r, reloads outs = [r] ∧ rr_success r = true ∧ value s' = lit "b".
Proof.
  apply (stable_snapshot_decided dec id id toy_parse toy_deserialize toy_validator ConfigCenterConfig_default (lit "b") 0 0
           [Received (lit "b") (from_secs 5) 1] toy_center (from_secs 5) 1).
  - discriminate.
  - discriminate.
  - discriminate.
  - by repeat constructor.
  - by left.
  - by vm_compute.
Defined.

(** A native update is not applied for a day, until it is written again. *)
Example native_update_waits :
  let day := from_secs 86400 in
  value (toy_loop [Received (lit "b") 1 0] toy_center).2 = lit "a" ∧
  value (toy_loop [Received (lit "b") 1 0; Received (lit "b") day 0] toy_center).2 = lit "b".
Proof. vm_compute. split; reflexivity. Qed.

(** A cascade reads its first source and watches a later one. *)
Example cascade_watches_lower_priority :
  cascading_value None [Ok (lit "file"); Ok (lit "etcd")] = Ok (lit "file") ∧
  cascading_watch [None; Some (lit "etcd")] = Ok (lit "etcd").
Proof. split; reflexivity. Qed.
