(* ===== verification/HttpTypes.v ===== *)
(** * HTTP values (crates/roze-http/src/rest.rs, crates/roze-gateway/src/lib.rs)

    The header map, responses and the helpers on headers that the gateway uses.
    The [http] crate is an interface: what a header value is, its text, and the
    parsers of names, values and methods. A header map is the list of its name and
    value pairs in the order they are iterated; names are in lower case. *)

From S2P Require Import Prelude Text Scan.

(** ** The [http] crate *)

Class HttpLib :=
  { HeaderValue : Type;
    HeaderValue_eq_dec :: EqDecision HeaderValue;
    to_str : HeaderValue → option rstr;
    from_str : rstr → option HeaderValue;
    (** [HeaderValue::from_static] *)
    from_static : rstr → HeaderValue;
    (** [HeaderName::from_str], in lower case *)
    parse_name : rstr → option rstr;
    (** [Method::from_str] *)
    parse_method : rstr → option rstr;
    (** [StatusCode::from_u16] *)
    status_valid : N → bool }.

(** What the crate documents of them: visible ASCII and tabs have a text, other values
    that are allowed in a header have none. *)
Definition visible (s : rstr) : bool := forallb (λ c, ((32 <=? c) && (c <? 127)) || (c =? 9)) s.

Class HttpLaws (L : HttpLib) :=
  { from_str_text s v : from_str s = Some v → to_str v = if visible s then Some s else None;
    from_str_visible s : visible s = true → is_Some (from_str s);
    from_static_str s : visible s = true → from_str s = Some (from_static s) }.

(** ** Bodies *)

(** A body of the gateway's own, JSON, or bytes and streams that come from outside. *)
Inductive Body (Value : Type) :=
| EmptyBody
| TextBody (s : rstr)
| JsonValue (v : Value)
| BytesBody (b : list N)
| StreamBody.
Arguments EmptyBody {Value}. Arguments TextBody {Value}. Arguments JsonValue {Value}.
Arguments BytesBody {Value}. Arguments StreamBody {Value}.

Section http.
Context {L : HttpLib}.

(** ** Header maps *)

Abbreviation HeaderMap := (list (rstr * HeaderValue)).

Definition h_get (name : rstr) (h : HeaderMap) : option HeaderValue :=
  snd <$> List.find (λ kv, str_eqb kv.1 name) h.
Definition h_contains (name : rstr) (h : HeaderMap) : bool := existsb (λ kv, str_eqb kv.1 name) h.
Definition h_remove (name : rstr) (h : HeaderMap) : HeaderMap := filter (λ kv, str_eqb kv.1 name = false) h.

(** [insert] replaces every value of the name, at the place of the first. *)
Fixpoint h_insert (name : rstr) (v : HeaderValue) (h : HeaderMap) : HeaderMap :=
  match h with
  | [] => [(name, v)]
  | (n, w) :: h' => if str_eqb n name then (name, v) :: h_remove name h' else (n, w) :: h_insert name v h'
  end.

(** [headers.get(name).and_then(|value| value.to_str().ok())] *)
Definition h_text (name : rstr) (h : HeaderMap) : option rstr := h_get name h ≫= to_str.

(** ** Responses *)

Record HttpResponse (Value : Type) := { status : N; headers : HeaderMap; body : Body Value }.
Arguments status {Value}. Arguments headers {Value}. Arguments body {Value}.

Definition with_headers_of {Value} (f : HeaderMap → HeaderMap) (r : HttpResponse Value) : HttpResponse Value :=
  {| status := status r; headers := f (headers r); body := body r |}.

Definition text_response {Value} (st : N) (text : rstr) : HttpResponse Value :=
  {| status := st; headers := [(lit "content-type", from_static (lit "text/plain; charset=utf-8"))];
     body := TextBody text |}.

(** Serializing a [serde_json::Value] does not fail. *)
Definition json_response {Value} (st : N) (v : Value) : HttpResponse Value :=
  {| status := st; headers := [(lit "content-type", from_static (lit "application/json"))]; body := JsonValue v |}.

Definition is_success (st : N) : bool := (200 <=? st) && (st <? 300).
Definition is_server_error (st : N) : bool := (500 <=? st) && (st <? 600).

(** ** Helpers of the gateway *)

Definition split_commas (s : rstr) : list rstr := split_on (N.eqb 44) s.

(** The values seen so far, without repeats up to case. *)
Definition push_vary (values : list rstr) (item : rstr) : list rstr :=
  if existsb (λ value, eq_ignore_ascii_case value item) values then values else values ++ [item].

Definition append_vary (value : rstr) (h : HeaderMap) : HeaderMap :=
  let current := match h_text (lit "vary") h with Some v => split_commas v | None => [] end in
  let values := foldl push_vary [] (str_filter nonempty (trim <$> (current ++ split_commas value))) in
  match from_str (join (lit ", ") values) with
  | Some v => h_insert (lit "vary") v h
  | None => h
  end.

Definition is_hop_by_hop_header (name : rstr) : bool :=
  str_in [lit "connection"; lit "keep-alive"; lit "proxy-authenticate"; lit "proxy-authorization"; lit "te";
          lit "trailer"; lit "transfer-encoding"; lit "upgrade"; lit "host"] (str_to_ascii_lowercase name).

Definition is_sse_response (st : N) (h : HeaderMap) : bool :=
  is_success st &&
  match h_text (lit "content-type") h with
  | Some v => match split_on (N.eqb 59) v with
              | value :: _ => eq_ignore_ascii_case (trim value) (lit "text/event-stream")
              | [] => false
              end
  | None => false
  end.

Definition is_websocket_upgrade (h : HeaderMap) : bool :=
  match h_text (lit "upgrade") h with Some v => eq_ignore_ascii_case v (lit "websocket") | None => false end &&
  match h_text (lit "connection") h with
  | Some v => existsb (λ part, eq_ignore_ascii_case (trim part) (lit "upgrade")) (split_commas v)
  | None => false
  end.

Definition cookie_value (h : HeaderMap) (name : rstr) : option rstr :=
  cookies ← h_text (lit "cookie") h;
  find_map (λ part, kv ← split_once (lit "=") (trim part); if str_eqb kv.1 name then Some kv.2 else None)
    (split_on (N.eqb 59) cookies).

(** ** Lemmas *)

Lemma h_get_cons n w h name : h_get name ((n, w) :: h) = if str_eqb n name then Some w else h_get name h.
Proof. unfold h_get. cbn. by destruct (str_eqb n name). Qed.

Lemma h_remove_cons n w h name :
  h_remove name ((n, w) :: h) = if str_eqb n name then h_remove name h else (n, w) :: h_remove name h.
Proof. unfold h_remove. rewrite filter_cons. cbn. by destruct (str_eqb n name). Qed.

Lemma h_get_remove name name' h :
  h_get name (h_remove name' h) = if str_eqb name' name then None else h_get name h.
Proof.
  induction h as [|[n w] h IH]; [by destruct (str_eqb name' name)|]. rewrite h_remove_cons, h_get_cons.
  destruct (str_eqb n name') eqn:E; rewrite ?h_get_cons, IH.
  - apply str_eqb_eq in E as ->. by destruct (str_eqb name' name).
  - destruct (str_eqb n name) eqn:E2; [|done]. destruct (str_eqb name' name) eqn:E3; [|done].
    apply str_eqb_eq in E2 as ->, E3 as ->. by rewrite str_eqb_refl in E.
Qed.

Lemma h_get_insert name name' v h :
  h_get name (h_insert name' v h) = if str_eqb name' name then Some v else h_get name h.
Proof.
  induction h as [|[n w] h IH]; cbn [h_insert]; [by rewrite h_get_cons|]. destruct (str_eqb n name') eqn:E.
  - apply str_eqb_eq in E as ->. rewrite !h_get_cons, h_get_remove. by destruct (str_eqb name' name).
  - rewrite !h_get_cons, IH. destruct (str_eqb n name) eqn:E2; [|done]. destruct (str_eqb name' name) eqn:E3; [|done].
    apply str_eqb_eq in E2 as ->, E3 as ->. by rewrite str_eqb_refl in E.
Qed.
End http.
Abbreviation HeaderMap := (list (rstr * HeaderValue)).
Arguments HttpResponse {L} Value.
Arguments status {L Value}. Arguments headers {L Value}. Arguments body {L Value}.

(** ** A concrete library, for examples

    Values are texts; a method is a word. *)
Definition ex_word (s : rstr) : option rstr :=
  if nonempty s && forallb (λ c, negb (is_whitespace c)) s then Some s else None.

Definition ex_http : HttpLib :=
  {| HeaderValue := rstr; to_str := λ s, if visible s then Some s else None;
     from_str := λ s, if forallb (λ c, ((32 <=? c) && negb (c =? 127)) || (c =? 9)) s then Some s else None; from_static := id;
     parse_name := λ s, ex_word (str_to_ascii_lowercase s); parse_method := ex_word;
     status_valid := λ n, (100 <=? n) && (n <? 1000) |}.

Lemma ex_http_laws : HttpLaws ex_http.
Proof.
  assert (∀ s, visible s = true → from_str (HttpLib := ex_http) s = Some s) as Hfrom; [|split; cbn; intros s].
  2: by intros v; destruct (forallb _ s); [intros [= ->]|].
  2: by intros Hs%Hfrom; exists s.
  2: by apply Hfrom.
  intros s. unfold visible. rewrite forallb_Forall. intros Hs. cbn. destruct (forallb (λ c, _ && negb _ || _) s) eqn:E; [done|].
  apply not_true_iff_false in E. destruct E. apply forallb_Forall. eapply Forall_impl; [exact Hs|]. intros c Hc. cbn beta in *.
  destruct (c =? 9); [by rewrite orb_true_r|]. rewrite orb_false_r in *. apply andb_true_iff in Hc as [-> Hc%N.ltb_lt].
  rewrite (proj2 (N.eqb_neq c 127)) by lia. done.
Qed.

Lemma ex_parse_method_trim m : is_Some (parse_method (HttpLib := ex_http) m) → is_Some (parse_method (HttpLib := ex_http) (trim m)).
Proof.
  cbn. unfold ex_word. destruct (nonempty m && _) eqn:E; [|by intros []]. intros _. guard_prop.
  match goal with H : forallb _ m = true |- _ => rename H into Hf end.
  assert (∀ x, x ∈ m → is_whitespace x = false) as Hw.
  { intros x Hx. rewrite forallb_forall in Hf. apply negb_true_iff, Hf. by apply list_elem_of_In. }
  unfold trim. rewrite trim_matches_id.
  - rewrite Hf. match goal with H : nonempty m = true |- _ => by rewrite H; eexists end.
  - intros x l' ->. apply Hw. by left.
  - intros x l' ->. apply Hw, elem_of_app. right. by left.
Qed.
