(* ===== verification/Cors.v ===== *)
(** * Cross-origin requests at the gateway ([CorsPolicy] of crates/roze-gateway/src/lib.rs) *)

From S2P Require Import Prelude Text Scan HttpTypes.

Record GatewayCorsConfig :=
  { cc_allow_origins : list rstr; cc_allow_methods : list rstr; cc_allow_headers : list rstr;
    cc_max_age_seconds : option N }.

Section cors.
Context {L : HttpLib} {Value : Type}.

Record CorsPolicy :=
  { allow_any_origin : bool; allow_origins : list HeaderValue; allow_methods : list rstr;
    allow_any_header : bool; allow_headers : list rstr; max_age_seconds : option N }.

Definition is_star (s : rstr) : bool := str_eqb s (lit "*").

Definition CorsPolicy_new (c : GatewayCorsConfig) : CorsPolicy :=
  {| allow_any_origin := existsb is_star (cc_allow_origins c);
     allow_origins := omap from_str (str_filter (λ o, negb (is_star o)) (cc_allow_origins c));
     allow_methods := omap parse_method (cc_allow_methods c);
     allow_any_header := existsb is_star (cc_allow_headers c);
     allow_headers := omap parse_name (str_filter (λ n, negb (is_star n)) (cc_allow_headers c));
     max_age_seconds := cc_max_age_seconds c |}.

Definition ORIGIN := lit "origin".
Definition REQUEST_METHOD := lit "access-control-request-method".
Definition REQUEST_HEADERS := lit "access-control-request-headers".
Definition ALLOW_ORIGIN := lit "access-control-allow-origin".
Definition ALLOW_METHODS := lit "access-control-allow-methods".
Definition ALLOW_HEADERS := lit "access-control-allow-headers".
Definition MAX_AGE := lit "access-control-max-age".

Definition allowed_origin (p : CorsPolicy) (h : HeaderMap) : option HeaderValue :=
  origin ← h_get ORIGIN h;
  if allow_any_origin p then Some (from_static (lit "*"))
  else if bool_decide (origin ∈ allow_origins p) then Some origin else None.

Definition vary_preflight := lit "Origin, Access-Control-Request-Method, Access-Control-Request-Headers".

Definition cors_rejected_response (message : rstr) : HttpResponse Value :=
  with_headers_of (append_vary vary_preflight) (text_response 403 message).

Definition parse_requested_cors_headers (h : HeaderMap) : option (list rstr) :=
  match h_get REQUEST_HEADERS h with
  | None => Some []
  | Some v =>
      s ← to_str v;
      mapM parse_name (str_filter nonempty (trim <$> split_commas s))
  end.

(** [HeaderValue::from_str(..).expect(..)] of method names and of a number: [from_str]
    takes them; the header is left out where it did not. *)
Definition insert_text (name value : rstr) (h : HeaderMap) : HeaderMap :=
  match from_str value with Some v => h_insert name v h | None => h end.

Definition preflight_headers (p : CorsPolicy) (origin : HeaderValue) (requested : list rstr) : HeaderMap :=
  let h := h_insert ALLOW_ORIGIN origin [] in
  let h := insert_text ALLOW_METHODS (join (lit ", ") (allow_methods p)) h in
  let names := join (lit ", ") (if allow_any_header p then requested else allow_headers p) in
  let h := if str_is_empty names then h else insert_text ALLOW_HEADERS names h in
  let h := match max_age_seconds p with Some a => insert_text MAX_AGE (dec a) h | None => h end in
  append_vary vary_preflight h.

Definition preflight (p : CorsPolicy) (method : rstr) (h : HeaderMap) : option (HttpResponse Value) :=
  if negb (str_eqb method (lit "OPTIONS")) then None
  else
    match h_get REQUEST_METHOD h with
    | None => None
    | Some requested_method =>
        Some
          match allowed_origin p h with
          | None => cors_rejected_response (lit "CORS origin is not allowed")
          | Some origin =>
              match to_str requested_method ≫= parse_method with
              | Some m =>
                  if str_in (allow_methods p) m then
                    match parse_requested_cors_headers h with
                    | None => cors_rejected_response (lit "invalid CORS request headers")
                    | Some requested =>
                        if negb (allow_any_header p) && existsb (λ n, negb (str_in (allow_headers p) n)) requested
                        then cors_rejected_response (lit "CORS request header is not allowed")
                        else {| status := 204; headers := preflight_headers p origin requested; body := EmptyBody |}
                    end
                  else cors_rejected_response (lit "CORS method is not allowed")
              | None => cors_rejected_response (lit "CORS method is not allowed")
              end
          end
    end.

Definition apply_simple_response (origin : HeaderValue) (h : HeaderMap) : HeaderMap :=
  append_vary (lit "Origin") (h_insert ALLOW_ORIGIN origin h).

(** [GatewayRuntime::handle] around what handles the request. *)
Definition cors_handle (cors : option CorsPolicy) (method : rstr) (h : HeaderMap)
    (inner : HttpResponse Value) : HttpResponse Value :=
  match cors with
  | None => inner
  | Some p =>
      match preflight p method h with
      | Some r => r
      | None => match allowed_origin p h with
                | Some origin => with_headers_of (apply_simple_response origin) inner
                | None => inner
                end
      end
  end.

(** ** What the policy allows *)

Definition origin_allowed (p : CorsPolicy) (h : HeaderMap) : Prop :=
  ∃ o, h_get ORIGIN h = Some o ∧ (allow_any_origin p = true ∨ o ∈ allow_origins p).
Definition method_requested (p : CorsPolicy) (h : HeaderMap) : Prop :=
  ∃ m, h_text REQUEST_METHOD h ≫= parse_method = Some m ∧ m ∈ allow_methods p.
Definition headers_requested (p : CorsPolicy) (h : HeaderMap) : Prop :=
  ∃ l, parse_requested_cors_headers h = Some l ∧ (allow_any_header p = true ∨ Forall (λ n, n ∈ allow_headers p) l).

Lemma allowed_origin_spec p h : is_Some (allowed_origin p h) ↔ origin_allowed p h.
Proof.
  unfold allowed_origin, origin_allowed. destruct (h_get ORIGIN h) as [o|]; cbn.
  - destruct (allow_any_origin p); [split; eauto|]. case_bool_decide; split; eauto; [by intros []|].
    intros (o' & [= <-] & [?|?]); done.
  - split; [by intros []|by intros (? & ? & _)].
Qed.

Lemma vary_other name h : str_eqb (lit "vary") name = false → h_get name (append_vary vary_preflight h) = h_get name h.
Proof. intros Hn. unfold append_vary. destruct (from_str _); [|done]. by rewrite h_get_insert, Hn. Qed.

Lemma insert_text_other name name' v h : str_eqb name' name = false → h_get name (insert_text name' v h) = h_get name h.
Proof. intros Hn. unfold insert_text. destruct (from_str _); [|done]. by rewrite h_get_insert, Hn. Qed.

Lemma preflight_origin p origin requested : h_get ALLOW_ORIGIN (preflight_headers p origin requested) = Some origin.
Proof.
  unfold preflight_headers. rewrite vary_other by done.
  assert (∀ h, h_get ALLOW_ORIGIN match max_age_seconds p with Some a => insert_text MAX_AGE (dec a) h | None => h end
               = h_get ALLOW_ORIGIN h) as -> by (intros h; destruct (max_age_seconds p); [by rewrite insert_text_other|done]).
  destruct (str_is_empty _); rewrite ?insert_text_other by done; by rewrite h_get_insert.
Qed.

Lemma rejected_spec message :
  status (cors_rejected_response message) = 403 ∧ h_get ALLOW_ORIGIN (headers (cors_rejected_response message)) = None.
Proof.
  split; [done|]. unfold cors_rejected_response, with_headers_of, text_response. cbn [headers].
  by rewrite vary_other.
Qed.

(** A preflight is granted exactly when the policy allows what it asks for. An
    OPTIONS request that names a method is answered by the gateway itself: with 204
    and the origin (or a star) if its origin, its method and each of its headers are
    allowed, with 403 and no allowed origin otherwise. Other requests are not
    preflights. *)
Theorem cors_preflight_exact p method h :
  (method ≠ lit "OPTIONS" ∨ h_get REQUEST_METHOD h = None → preflight p method h = None) ∧
  (method = lit "OPTIONS" → is_Some (h_get REQUEST_METHOD h) → ∃ r, preflight p method h = Some r ∧
    (origin_allowed p h ∧ method_requested p h ∧ headers_requested p h →
       status r = 204 ∧ h_get ALLOW_ORIGIN (headers r) = allowed_origin p h ∧ is_Some (allowed_origin p h)) ∧
    (¬ (origin_allowed p h ∧ method_requested p h ∧ headers_requested p h) →
       status r = 403 ∧ h_get ALLOW_ORIGIN (headers r) = None)).
Proof.
  unfold preflight. split.
  - intros [Hm|Hn]; [by rewrite (proj2 (str_eqb_neq _ _) Hm)|]. rewrite Hn. by destruct (negb _).
  - intros -> [rm Hrm]. cbn [negb str_eqb]. rewrite (str_eqb_refl (lit "OPTIONS")). cbn [negb]. rewrite Hrm.
    eexists. split; [done|]. unfold method_requested, h_text. rewrite Hrm. cbn [mbind option_bind].
    rewrite <- allowed_origin_spec. destruct (allowed_origin p h) as [o|] eqn:Eo.
    2: { split; [by intros ([] & _)|]. intros _. apply rejected_spec. }
    destruct (to_str rm ≫= parse_method) as [m|] eqn:Em; cbn [mbind option_bind] in Em |- *; rewrite ?Em.
    2: { split; [by intros (_ & (? & ? & _) & _)|]. intros _. apply rejected_spec. }
    destruct (str_in (allow_methods p) m) eqn:Ein.
    2: { split; [|intros _; apply rejected_spec]. intros (_ & (m' & [= <-] & Hin) & _).
         apply not_true_iff_false in Ein. destruct Ein. by apply str_in_spec. }
    apply str_in_spec in Ein.
    destruct (parse_requested_cors_headers h) as [l|] eqn:El.
    2: { split; [by intros (_ & _ & (? & Hx & _)); rewrite El in Hx|]. intros _. apply rejected_spec. }
    unfold headers_requested. rewrite El.
    assert ((allow_any_header p = true ∨ Forall (λ n, n ∈ allow_headers p) l) ↔
            negb (allow_any_header p) && existsb (λ n, negb (str_in (allow_headers p) n)) l = false) as Hl.
    { destruct (allow_any_header p); cbn [negb andb]; [split; auto|].
      rewrite <- not_true_iff_false, existsb_elem_of, Forall_forall. split.
      - intros [?|HF] (n & Hn & Hin); [done|]. apply negb_true_iff, not_true_iff_false in Hin. destruct Hin.
        by apply str_in_spec, HF.
      - intros Hno. right. intros n Hn. apply str_in_spec. destruct (str_in (allow_headers p) n) eqn:E; [done|].
        destruct Hno. exists n. by rewrite E. }
    destruct (_ && _) eqn:Eb.
    + split; [|intros _; apply rejected_spec]. intros (_ & _ & (? & [= <-] & Hx)). by apply Hl in Hx.
    + split; [|intros Hno; destruct Hno; split_and!; eauto; exists l; split; [done|by apply Hl]].
      intros _. cbn [status headers]. by rewrite preflight_origin.
Qed.
End cors.
