(* ===== verification/GatewayRoute.v ===== *)
(** * Routes of the gateway (crates/roze-gateway/src/lib.rs, crates/roze-config/src/lib.rs)

    The gateway's configuration and its validation, the routes compiled from it
    with the governance they inherit, their order, and what a request is matched
    by: path prefix, headers, cookies and a share of the traffic; rewriting and
    mirroring. Unicode case, the TLS library's check of a server name and the texts
    of the [http] crate's errors are parameters. File paths are texts. *)

From S2P Require Import Prelude Breaker Resilience RateLimit Policy HttpTypes Cors Text Scan.

(** ** Configuration *)

Record GatewayUpstreamTlsConfig :=
  { tls_ca_files : list rstr; tls_client_cert_file : option rstr; tls_client_key_file : option rstr;
    tls_server_name : option rstr }.
Record GatewayOutlierConfig := { oc_failure_threshold : N; oc_ejection_ms : N }.
Record GatewayHealthCheckConfig :=
  { hc_path : rstr; hc_interval_ms : N; hc_timeout_ms : N; hc_unhealthy_threshold : N;
    hc_healthy_threshold : N; hc_expected_status : N }.
Record GatewayService :=
  { gs_name : rstr; gs_upstream : rstr; gs_registry_name : option rstr; gs_instance_tags : gmap rstr rstr;
    gs_timeout_ms : option N; gs_stream_idle_timeout_ms : option N; gs_max_stream_connections : option N;
    gs_outlier : option GatewayOutlierConfig; gs_health_check : option GatewayHealthCheckConfig;
    gs_tls : option GatewayUpstreamTlsConfig }.

Section route.
Context {L : HttpLib} {Value : Type}.

Record GatewayFallbackResponse :=
  { gf_status : N; gf_body : option Value; gf_headers : gmap rstr rstr }.
Record GatewayRoute :=
  { gr_path : rstr; gr_service : rstr; gr_methods : list rstr; gr_weight : N; gr_match_headers : gmap rstr rstr;
    gr_match_cookies : gmap rstr rstr; gr_traffic_percent : N; gr_mirror_service : option rstr;
    gr_mirror_percent : N; gr_instance_tags : gmap rstr rstr; gr_middlewares : list rstr;
    gr_timeout_ms : option N; gr_stream_idle_timeout_ms : option N; gr_max_stream_connections : option N;
    gr_retries : option N; gr_retry_backoff_ms : option N; gr_rewrite : option rstr;
    gr_fallback : option GatewayFallbackResponse; gr_rate_limit : option LimitConfig;
    gr_breaker : option BreakerSettings; gr_shedding : option SheddingSettings }.
Record GatewayConfig :=
  { gw_services : list GatewayService; gw_routes : list GatewayRoute; gw_middlewares : list rstr;
    gw_timeout_ms : option N; gw_stream_idle_timeout_ms : option N; gw_max_stream_connections : option N;
    gw_request_body_limit_bytes : option N; gw_fallback : option GatewayFallbackResponse;
    gw_cors : option GatewayCorsConfig; gw_trusted_proxy_cidrs : list rstr }.

Record CompiledRoute :=
  { rt_path : rstr; rt_service : rstr; rt_methods : list rstr; rt_match_headers : gmap rstr rstr;
    rt_match_cookies : gmap rstr rstr; rt_traffic_percent : N; rt_mirror_service : option rstr;
    rt_mirror_percent : N; rt_timeout : option N; rt_retries : N; rt_retry_backoff : N;
    rt_retry_max_backoff : N; rt_retry_budget_percent : option N; rt_rewrite : option rstr;
    rt_fallback : option GatewayFallbackResponse; rt_rate_limit : option LimitConfig;
    rt_breaker : option BreakerSettings; rt_shedding : option SheddingSettings; rt_middlewares : list rstr;
    rt_instance_tags : gmap rstr rstr; rt_stream_idle_timeout : option N; rt_max_stream_connections : option N }.

(** ** Texts *)

Context (to_uppercase to_lowercase : rstr → rstr).

Definition parse_methods (raw : list rstr) : list rstr :=
  if existsb (λ m, str_in [lit "*"; lit "ALL"; lit "all"] (trim m)) raw then []
  else omap (λ m, parse_method (to_uppercase (trim m))) raw.

Definition normalize_path_prefix (path : rstr) : rstr :=
  let normalized := trim_end_matches (N.eqb 47) path in
  if str_is_empty normalized then lit "/"
  else if starts_with (lit "/") normalized then normalized
  else lit "/" ++ normalized.

Definition normalize_middlewares (raw : list rstr) : list rstr :=
  str_filter nonempty ((λ item, to_lowercase (trim item)) <$> raw).

Definition has_middleware (items : list rstr) (name : rstr) : bool :=
  existsb (λ item, str_eqb item name || str_eqb item (lit "builtin:" ++ name) ||
                   str_eqb item (lit "builtin::" ++ name)) items.

(** ** Validation *)

Inductive HttpError := InvalidMethod | InvalidStatusCode | InvalidHeaderName | InvalidHeaderValue.
(** The text of an error, and what is wrong with a TLS server name. *)
Context (error_text : HttpError → rstr) (server_name_error : rstr → option rstr).

Definition quoted (before name after : rstr) : rstr := before ++ lit "'" ++ name ++ lit "'" ++ after.
Definition is_ok_or {A} (o : option A) (e : rstr) : result rstr unit := match o with Some _ => Ok tt | None => Err e end.

Fixpoint each {A} (check : A → result rstr unit) (l : list A) : result rstr unit :=
  match l with [] => Ok tt | a :: l' => _ ← check a; each check l' end.

Definition service_message (s : GatewayService) (what : rstr) : rstr := quoted (lit "gateway service ") (gs_name s) what.

Definition validate_outlier (s : GatewayService) (o : GatewayOutlierConfig) : result rstr unit :=
  ensure ((0 <? oc_failure_threshold o) && (0 <? oc_ejection_ms o)) (service_message s (lit " has invalid outlier policy")) [].

Definition validate_health (s : GatewayService) (h : GatewayHealthCheckConfig) : result rstr unit :=
  ensure (starts_with (lit "/") (hc_path h) && (0 <? hc_interval_ms h) && (0 <? hc_timeout_ms h) &&
          (0 <? hc_unhealthy_threshold h) && (0 <? hc_healthy_threshold h) && status_valid (hc_expected_status h))
    (service_message s (lit " has invalid health check")) [].

Definition validate_tls (s : GatewayService) (t : GatewayUpstreamTlsConfig) : result rstr unit :=
  _ ← ensure (eqb (is_some (tls_client_cert_file t)) (is_some (tls_client_key_file t)))
        (service_message s (lit " must configure client_cert_file and client_key_file together")) [];
  _ ← each (λ path, ensure (nonempty path) (service_message s (lit " has an empty CA path")) []) (tls_ca_files t);
  check_some (tls_server_name t) (λ name,
    match server_name_error name with
    | Some error => Err (service_message s (quoted (lit " has invalid TLS server_name ") name (lit ": " ++ error)))
    | None => Ok tt
    end).

(** The services so far are known by name. *)
Fixpoint validate_services (seen : list rstr) (l : list GatewayService) : result rstr (list rstr) :=
  match l with
  | [] => Ok seen
  | s :: l' =>
      _ ← ensure (nonempty (trim (gs_name s))) (lit "gateway service name is empty") [];
      _ ← ensure (negb (str_in seen (gs_name s))) (quoted (lit "duplicate gateway service ") (gs_name s) []) [];
      _ ← ensure (nonempty (trim (gs_upstream s)) ||
                  match gs_registry_name s with Some name => nonempty (trim name) | None => false end)
            (service_message s (lit " has neither upstream nor registry_name")) [];
      _ ← check_some (gs_outlier s) (validate_outlier s);
      _ ← check_some (gs_health_check s) (validate_health s);
      _ ← check_some (gs_tls s) (validate_tls s);
      validate_services (gs_name s :: seen) l'
  end.

Definition route_message (r : GatewayRoute) (what : rstr) : rstr := quoted (lit "gateway route ") (gr_path r) what.

Definition validate_route (services : list rstr) (r : GatewayRoute) : result rstr unit :=
  _ ← ensure (starts_with (lit "/") (gr_path r)) (route_message r (lit " must start with '/'")) [];
  _ ← ensure (str_in services (gr_service r))
        (route_message r (quoted (lit " references unknown service ") (gr_service r) [])) [];
  _ ← each (λ m, is_ok_or (parse_method m)
        (route_message r (quoted (lit " has invalid method ") m (lit ": " ++ error_text InvalidMethod)))) (gr_methods r);
  _ ← ensure ((gr_traffic_percent r <=? 100) && (gr_mirror_percent r <=? 100))
        (route_message r (lit " traffic percentages must be in 0..=100")) [];
  _ ← check_some (gr_mirror_service r) (λ mirror, ensure (str_in services mirror)
        (route_message r (quoted (lit " references unknown mirror service ") mirror [])) []);
  _ ← check_some (gr_max_stream_connections r) (λ maximum, ensure (0 <? maximum)
        (route_message r (lit " has zero max_stream_connections")) []);
  check_some (gr_fallback r) (λ fallback, ensure (status_valid (gf_status fallback))
        (route_message r (lit " has invalid fallback status: " ++ error_text InvalidStatusCode)) []).

Definition validate_cors (c : GatewayCorsConfig) : result rstr unit :=
  _ ← each (λ origin, if is_star origin then Ok tt else is_ok_or (from_str origin)
        (quoted (lit "gateway CORS origin ") origin (lit " is invalid: " ++ error_text InvalidHeaderValue))) (cc_allow_origins c);
  _ ← each (λ m, is_ok_or (parse_method m)
        (quoted (lit "gateway CORS method ") m (lit " is invalid: " ++ error_text InvalidMethod))) (cc_allow_methods c);
  each (λ name, if is_star name then Ok tt else is_ok_or (parse_name name)
        (quoted (lit "gateway CORS header ") name (lit " is invalid: " ++ error_text InvalidHeaderName))) (cc_allow_headers c).

Definition validate_gateway_config (c : GatewayConfig) : result rstr unit :=
  services ← validate_services [] (gw_services c);
  _ ← each (validate_route services) (gw_routes c);
  _ ← check_some (gw_cors c) validate_cors;
  check_some (gw_fallback c) (λ fallback, ensure (status_valid (gf_status fallback))
    (lit "invalid gateway fallback status: " ++ error_text InvalidStatusCode) []).

(** ** Compilation *)

Definition as_millis_u64 (d : N) : N := N.min (d / 1000000) U64_MAX.

Definition convert_fallback (f : GovernanceFallbackConfig Value) : option GatewayFallbackResponse :=
  if fc_enabled f then Some {| gf_status := fc_status f; gf_body := fc_body f; gf_headers := fc_headers f |} else None.
Definition governance_fallback (g : GovernanceConfig Value) : option GatewayFallbackResponse :=
  gc_fallback g ≫= convert_fallback.

Definition route_keys (path service : rstr) : list rstr := [path; trim_start_matches (N.eqb 47) path; service].

Definition breaker_settings (c : BreakerConfig) : BreakerSettings :=
  {| bc_failure_threshold := failure_threshold c; bc_reset_timeout_ms := as_millis_u64 (reset_timeout c) |}.
Definition shedding_settings (c : SheddingConfig) : SheddingSettings :=
  {| sc_concurrency := concurrency c; sc_window_ms := as_millis_u64 (window c); sc_min_samples := min_samples c;
     sc_max_avg_latency_ms := as_millis_u64 (max_avg_latency c);
     sc_max_failure_ratio_per_mille := max_failure_ratio_per_mille c; sc_cool_down_ms := as_millis_u64 (cool_down c) |}.

Definition compile_route (governance : option (GovernanceConfig Value)) (r : GatewayRoute) : CompiledRoute :=
  let path := normalize_path_prefix (gr_path r) in
  let policy := (λ g, resolve_policy_for g (route_keys path (gr_service r))) <$> governance in
  let retry := policy ≫= retry in
  {| rt_path := path; rt_service := gr_service r; rt_methods := parse_methods (gr_methods r);
     rt_match_headers := gr_match_headers r; rt_match_cookies := gr_match_cookies r;
     rt_traffic_percent := gr_traffic_percent r; rt_mirror_service := gr_mirror_service r;
     rt_mirror_percent := gr_mirror_percent r;
     rt_timeout := opt_or (from_millis <$> gr_timeout_ms r) (policy ≫= timeout);
     rt_retries := default (default 0 ((λ p, max_attempts p - 1) <$> retry)) (gr_retries r);
     rt_retry_backoff := default 0 (opt_or (from_millis <$> gr_retry_backoff_ms r) (backoff <$> retry));
     rt_retry_max_backoff := default (default 0 (from_millis <$> gr_retry_backoff_ms r)) (max_backoff <$> retry);
     rt_retry_budget_percent := retry ≫= budget_percent;
     rt_rewrite := gr_rewrite r;
     rt_fallback := opt_or (gr_fallback r)
       ((λ f, {| gf_status := fb_status _ f; gf_body := fb_body _ f; gf_headers := fb_headers _ f |}) <$> (policy ≫= fallback));
     rt_rate_limit := opt_or (gr_rate_limit r)
       (governance ≫= λ g, resolve_rate_limit_config_for g (route_keys path (gr_service r)));
     rt_breaker := opt_or (gr_breaker r) (breaker_settings <$> (policy ≫= breaker));
     rt_shedding := opt_or (gr_shedding r) (shedding_settings <$> (policy ≫= shedding));
     rt_middlewares := normalize_middlewares (gr_middlewares r); rt_instance_tags := gr_instance_tags r;
     rt_stream_idle_timeout := from_millis <$> gr_stream_idle_timeout_ms r;
     rt_max_stream_connections := gr_max_stream_connections r |}.

Definition compile_routes (routes : list GatewayRoute) (governance : option (GovernanceConfig Value))
    : list CompiledRoute := compile_route governance <$> routes.

(** [path.len()] counts bytes. *)
Definition path_len (r : CompiledRoute) : N := N.of_nat (length (as_bytes (rt_path r))).

(** [sort_by_key(Reverse(path.len()))], a stable sort. *)
Fixpoint insert_route (r : CompiledRoute) (l : list CompiledRoute) : list CompiledRoute :=
  match l with
  | [] => [r]
  | r' :: l' => if path_len r' <=? path_len r then r :: l else r' :: insert_route r l'
  end.
Definition sort_routes (l : list CompiledRoute) : list CompiledRoute := foldr insert_route [] l.

(** The later of two services with one name stays. *)
Definition service_map (l : list GatewayService) : gmap rstr GatewayService :=
  foldl (λ m s, <[gs_name s := s]> m) ∅ l.

(** ** Matching *)

Definition matches_path (r : CompiledRoute) (request_path : rstr) : bool :=
  str_eqb (rt_path r) (lit "/") || str_eqb request_path (rt_path r) ||
  starts_with (rt_path r ++ lit "/") request_path.

Definition method_allowed (r : CompiledRoute) (method : rstr) : bool :=
  bool_decide (rt_methods r = []) || str_in (rt_methods r) method.

Definition matches_request (r : CompiledRoute) (h : HeaderMap) : bool :=
  forallb (λ kv, match h_text (str_to_ascii_lowercase kv.1) h with Some v => str_eqb v kv.2 | None => false end)
    (btree_iter (rt_match_headers r)) &&
  forallb (λ kv, match cookie_value h kv.1 with Some v => str_eqb v kv.2 | None => false end)
    (btree_iter (rt_match_cookies r)).

(** FNV-1a of 32 bits. *)
Definition stable_bucket (value : rstr) : N :=
  foldl (λ hash byte, wrap 32 (N.lxor hash byte * 16777619)) 2166136261 (as_bytes value) mod 100.

Definition gateway_selection_key (h : HeaderMap) (path : rstr) : rstr :=
  default path (find_map (λ name, h_text name h) [lit "x-user-id"; lit "x-tenant-id"; lit "x-request-id"]).

Definition eligible (path : rstr) (h : HeaderMap) (r : CompiledRoute) : bool :=
  matches_path r path && matches_request r h &&
  (stable_bucket (gateway_selection_key h path) <? rt_traffic_percent r).

Definition select_route (routes : list CompiledRoute) (path : rstr) (h : HeaderMap) : option CompiledRoute :=
  List.find (eligible path h) routes.

(** ** Where a request goes *)

Definition slash (c : N) : bool := c =? 47.

Definition rewrite_path (route_path : rstr) (rewrite : option rstr) (incoming_path : rstr) : rstr :=
  match rewrite with
  | None => incoming_path
  | Some rewrite =>
      let suffix := default [] (strip_prefix route_path incoming_path) in
      trim_end_matches slash (trim_end_matches slash rewrite ++ lit "/" ++ trim_start_matches slash suffix)
  end.

Definition join_url (base path : rstr) : rstr :=
  trim_end_matches slash base ++ lit "/" ++ trim_start_matches slash path.

Definition with_query (url : rstr) (query : option rstr) : rstr :=
  match query with Some q => if nonempty q then url ++ lit "?" ++ q else url | None => url end.

Definition DEFAULT_TIMEOUT : N := from_secs 5.

(** The request [dispatch_mirror] sends, if any: its URL and timeout. *)
Definition mirror_request (services : gmap rstr GatewayService) (global_timeout : option N) (r : CompiledRoute)
    (path : rstr) (query : option rstr) : option (rstr * N) :=
  mirror_name ← rt_mirror_service r;
  if rt_mirror_percent r <=? stable_bucket (lit "mirror:" ++ rt_path r ++ lit ":" ++ path) then None
  else
    service ← services !! mirror_name;
    if str_is_empty (trim (gs_upstream service)) then None
    else Some (with_query (join_url (gs_upstream service) path) query,
               default DEFAULT_TIMEOUT (opt_or (from_millis <$> gs_timeout_ms service) global_timeout)).

(** ** The selected route *)

(** The sorted routes, longest path first. *)
Lemma insert_route_elem r r' l : r' ∈ insert_route r l ↔ r' = r ∨ r' ∈ l.
Proof.
  induction l as [|x l IH]; cbn [insert_route]; [by rewrite list_elem_of_singleton, elem_of_nil; tauto|].
  destruct (_ <=? _); rewrite !elem_of_cons; [tauto|]. rewrite IH. tauto.
Qed.

Definition descending : list CompiledRoute → Prop := StronglySorted (λ r r', path_len r' ≤ path_len r).

Lemma insert_route_sorted r l : descending l → descending (insert_route r l).
Proof.
  induction 1 as [|x l Hs IH Hx]; cbn [insert_route]; [by repeat constructor|].
  destruct (path_len x <=? path_len r) eqn:E; guard_prop.
  - constructor; [by constructor|]. constructor; [done|]. eapply Forall_impl; [exact Hx|]. cbn. lia.
  - constructor; [done|]. apply Forall_forall. intros y [->|Hy]%insert_route_elem; [lia|].
    by apply (proj1 (Forall_forall _ _) Hx).
Qed.

Lemma sort_routes_sorted l : descending (sort_routes l).
Proof. induction l as [|r l IH]; cbn; [constructor|by apply insert_route_sorted]. Qed.

(** The first of the longest routes that satisfy [p]. *)
Fixpoint best_route (p : CompiledRoute → bool) (l : list CompiledRoute) : option CompiledRoute :=
  match l with
  | [] => None
  | r :: l' =>
      match best_route p l' with
      | Some r' => if p r && (path_len r' <=? path_len r) then Some r else Some r'
      | None => if p r then Some r else None
      end
  end.

Lemma find_insert p r l :
  descending l →
  List.find p (insert_route r l) =
  match List.find p l with
  | Some r' => if p r && (path_len r' <=? path_len r) then Some r else Some r'
  | None => if p r then Some r else None
  end.
Proof.
  induction 1 as [|x l Hs IH Hx]; cbn [insert_route List.find]; [by destruct (p r)|].
  destruct (path_len x <=? path_len r) eqn:E; cbn [List.find].
  - destruct (p r); cbn [andb]; [|by destruct (p x), (List.find p l)].
    destruct (p x); [by rewrite E|]. destruct (List.find p l) as [y|] eqn:Ey; [|done].
    apply find_some in Ey as [Hy%list_elem_of_In _]. guard_prop.
    pose proof (proj1 (Forall_forall _ _) Hx y Hy) as Hle. cbn in Hle. by rewrite (proj2 (N.leb_le _ _)) by lia.
  - destruct (p x); [by rewrite E, andb_false_r|done].
Qed.

Lemma find_sorted p l : List.find p (sort_routes l) = best_route p l.
Proof.
  induction l as [|r l IH]; [done|]. cbn [sort_routes foldr best_route]. fold (sort_routes l).
  rewrite find_insert by apply sort_routes_sorted. by rewrite IH.
Qed.

Lemma best_route_spec p l :
  match best_route p l with
  | Some r => ∃ l1 l2, l = l1 ++ r :: l2 ∧ p r = true ∧
      Forall (λ r', p r' = true → path_len r' < path_len r) l1 ∧
      Forall (λ r', p r' = true → path_len r' ≤ path_len r) l2
  | None => Forall (λ r, p r = false) l
  end.
Proof.
  induction l as [|r l IH]; cbn [best_route]; [constructor|]. destruct (best_route p l) as [r'|].
  - destruct IH as (l1 & l2 & -> & Hp & H1 & H2). destruct (p r) eqn:Er; cbn [andb].
    + destruct (path_len r' <=? path_len r) eqn:E; guard_prop.
      * exists [], (l1 ++ r' :: l2). split_and!; [done|done|constructor|]. apply Forall_app. split.
        -- eapply Forall_impl; [exact H1|]. cbn. intros x Hx Px. specialize (Hx Px). lia.
        -- constructor; [done|]. eapply Forall_impl; [exact H2|]. cbn. intros x Hx Px. specialize (Hx Px). lia.
      * exists (r :: l1), l2. split_and!; [done|done|by constructor|done].
    + exists (r :: l1), l2. split_and!; [done|done|constructor; [congruence|done]|done].
  - destruct (p r) eqn:Er; [|by constructor]. exists [], l. split_and!; [done|done|constructor|].
    eapply Forall_impl; [exact IH|]. cbn. congruence.
Qed.

Lemma starts_with_spec pre s : starts_with pre s = true ↔ ∃ t, s = pre ++ t.
Proof.
  unfold starts_with. destruct (strip_prefix pre s) as [t|] eqn:E.
  - apply strip_prefix_Some in E. split; eauto.
  - split; [done|]. intros [t Ht]. apply strip_prefix_Some in Ht. congruence.
Qed.

(** A prefix of whole segments. *)
Lemma matches_path_spec r path :
  matches_path r path = true ↔ rt_path r = lit "/" ∨ ∃ rest, path = rt_path r ++ rest ∧ (rest = [] ∨ starts_with (lit "/") rest = true).
Proof.
  unfold matches_path. rewrite !orb_true_iff, !str_eqb_eq, starts_with_spec. split.
  - intros [[?| ->]|[t ->]]; [by left|right..].
    + exists []. rewrite app_nil_r. auto.
    + exists (lit "/" ++ t). rewrite app_assoc. split; [done|]. right. apply starts_with_spec. eauto.
  - intros [?|(rest & -> & [->|[t ->]%starts_with_spec])]; [auto|rewrite app_nil_r; auto|].
    right. exists t. by rewrite app_assoc.
Qed.

(** The longest route wins. Of the routes of a configuration a request goes to
    the first one whose path is longest among those that match it: by whole
    segments of its path, by its headers and cookies and by its share of the
    traffic; and to none exactly when none matches. *)
Theorem select_route_longest routes governance path h :
  let compiled := compile_routes routes governance in
  match select_route (sort_routes compiled) path h with
  | Some r => ∃ l1 l2, compiled = l1 ++ r :: l2 ∧ eligible path h r = true ∧
      (rt_path r = lit "/" ∨ ∃ rest, path = rt_path r ++ rest ∧ (rest = [] ∨ starts_with (lit "/") rest = true)) ∧
      Forall (λ r', eligible path h r' = true → path_len r' < path_len r) l1 ∧
      Forall (λ r', eligible path h r' = true → path_len r' ≤ path_len r) l2
  | None => Forall (λ r, eligible path h r = false) compiled
  end.
Proof.
  cbv zeta. unfold select_route. rewrite find_sorted. pose proof (best_route_spec (eligible path h) (compile_routes routes governance)) as H.
  destruct (best_route _ _) as [r|]; [|done]. destruct H as (l1 & l2 & ? & Hp & ? & ?).
  exists l1, l2. split_and!; try done. unfold eligible in Hp. guard_prop. by apply matches_path_spec.
Qed.

(** ** What validation is worth *)

Lemma each_ok {A} (check : A → result rstr unit) l : each check l = Ok tt ↔ Forall (λ a, check a = Ok tt) l.
Proof. induction l as [|a l IH]; cbn [each]; [by rewrite Forall_nil|by rewrite bind_ok, IH, Forall_cons]. Qed.

Lemma validate_services_ok l seen out :
  validate_services seen l = Ok out → NoDup seen → NoDup out ∧ out = reverse (gs_name <$> l) ++ seen.
Proof.
  revert seen. induction l as [|s l IH]; intros seen; cbn [validate_services]; [by intros [= ->] ?|].
  unfold ensure. destruct (nonempty (trim (gs_name s))); cbn [mbind result_bind]; [|done].
  destruct (str_in seen (gs_name s)) eqn:Ein; cbn [negb mbind result_bind]; [done|].
  destruct (_ || _); cbn [mbind result_bind]; [|done].
  destruct (check_some (gs_outlier s) _) as [[]|]; cbn [mbind result_bind]; [|done].
  destruct (check_some (gs_health_check s) _) as [[]|]; cbn [mbind result_bind]; [|done].
  destruct (check_some (gs_tls s) _) as [[]|]; cbn [mbind result_bind]; [|done].
  intros Hok Hnd. apply IH in Hok as [Hnd' ->].
  - split; [done|]. by rewrite fmap_cons, reverse_cons, <- app_assoc.
  - constructor; [|done]. apply not_true_iff_false in Ein. by rewrite str_in_spec in Ein.
Qed.

Lemma service_map_lookup l s : NoDup (gs_name <$> l) → s ∈ l → service_map l !! gs_name s = Some s.
Proof.
  unfold service_map. induction l as [|x l IH] using rev_ind; [by intros _ ?%elem_of_nil|].
  rewrite fmap_app. intros (Hnd & Hdis & _)%NoDup_app [Hin| ->%list_elem_of_singleton]%elem_of_app; rewrite foldl_app; cbn.
  - rewrite lookup_insert_ne; [by apply IH|]. intros Heq. apply (Hdis (gs_name s)); [by apply list_elem_of_fmap_2|].
    rewrite <- Heq. by left.
  - by rewrite lookup_insert_eq.
Qed.

Lemma known_service services l name :
  validate_services [] l = Ok services → str_in services name = true →
  ∃ s, service_map l !! name = Some s ∧ s ∈ l ∧ gs_name s = name.
Proof.
  intros [Hnd ->]%validate_services_ok Hin; [|constructor]. rewrite app_nil_r in *.
  apply str_in_spec in Hin. rewrite elem_of_reverse in Hin. apply list_elem_of_fmap in Hin as (s & -> & Hs).
  exists s. split_and!; [|done..]. apply service_map_lookup; [|done]. by rewrite <- (reverse_Permutation (gs_name <$> l)).
Qed.

Lemma normalized_path path : starts_with (lit "/") (normalize_path_prefix path) = true.
Proof.
  unfold normalize_path_prefix. destruct (str_is_empty _); [done|].
  destruct (starts_with (lit "/") (trim_end_matches _ _)) eqn:E; [done|]. apply starts_with_spec. by eexists.
Qed.

(** The wildcards of a list of methods. *)
Definition wildcard (m : rstr) : Prop := trim m ∈ [lit "*"; lit "ALL"; lit "all"].

Lemma parse_methods_all raw :
  (∀ m, m ∈ raw → is_Some (parse_method (to_uppercase (trim m)))) →
  parse_methods raw = [] ↔ raw = [] ∨ Exists wildcard raw.
Proof.
  intros Hp. unfold parse_methods. destruct (existsb _ raw) eqn:E.
  - apply existsb_elem_of in E as (m & Hm & Hw%str_in_spec). split; [|done]. intros _. right. apply Exists_exists. eauto.
  - split.
    + destruct raw as [|m raw]; [by left|]. cbn. destruct (Hp m) as [x Hx]; [by left|]. by rewrite Hx.
    + intros [->|(m & Hm & Hw)%Exists_exists]; [done|]. apply not_true_iff_false in E. destruct E.
      apply existsb_elem_of. exists m. split; [done|]. by apply str_in_spec.
Qed.

(** A configuration that validates can serve its routes. The service of every
    compiled route, and its mirror, is a configured service of that name; its path
    begins with a slash; its shares are percentages; and its list of methods is
    unrestricted only where the configuration says so (no declared method is lost). *)
Theorem validated_routes_resolve (c : GatewayConfig) governance r :
  (∀ m, is_Some (parse_method m) → is_Some (parse_method (to_uppercase (trim m)))) →
  validate_gateway_config c = Ok tt → r ∈ gw_routes c →
  (∃ s, service_map (gw_services c) !! rt_service (compile_route governance r) = Some s ∧ s ∈ gw_services c ∧ gs_name s = gr_service r) ∧
  (∀ m, rt_mirror_service (compile_route governance r) = Some m → ∃ s, service_map (gw_services c) !! m = Some s ∧ gs_name s = m) ∧
  starts_with (lit "/") (rt_path (compile_route governance r)) = true ∧
  rt_traffic_percent (compile_route governance r) ≤ 100 ∧ rt_mirror_percent (compile_route governance r) ≤ 100 ∧
  (rt_methods (compile_route governance r) = [] ↔ gr_methods r = [] ∨ Exists wildcard (gr_methods r)).
Proof.
  intros Hup Hok Hr. unfold validate_gateway_config in Hok.
  destruct (validate_services [] (gw_services c)) as [services|] eqn:Es; [|done]. cbn [mbind result_bind] in Hok.
  apply bind_ok in Hok as [Hroutes _]. rewrite each_ok, Forall_forall in Hroutes. specialize (Hroutes r Hr).
  unfold validate_route in Hroutes. rewrite !bind_ok, !ensure_ok in Hroutes.
  destruct Hroutes as (Hpath & Hsvc & Hmeth & Hpct & Hmir & _). guard_prop.
  split_and!; [by eapply known_service| |apply normalized_path|done|done|].
  - cbn. intros m Hm. rewrite Hm in Hmir. cbn in Hmir. apply ensure_ok in Hmir.
    destruct (known_service _ _ m Es Hmir) as (s & ? & _ & ?). eauto.
  - apply parse_methods_all. intros m Hm. rewrite each_ok, Forall_forall in Hmeth. specialize (Hmeth m Hm).
    apply Hup. unfold is_ok_or in Hmeth. by destruct (parse_method m).
Qed.

(** A share of 100 percent is every request, a share of 0 none. *)
Lemma stable_bucket_bound value : stable_bucket value < 100.
Proof. apply N.mod_lt. done. Qed.

(** Rewriting replaces the route's prefix. *)
Lemma rewrite_path_prefix (r : CompiledRoute) rewrite rest :
  rewrite_path (rt_path r) (Some rewrite) (rt_path r ++ rest) =
  trim_end_matches slash (trim_end_matches slash rewrite ++ lit "/" ++ trim_start_matches slash rest).
Proof.
  unfold rewrite_path. by rewrite (proj2 (strip_prefix_Some (rt_path r) (rt_path r ++ rest) rest) eq_refl).
Qed.
End route.

(** ** Examples *)

Definition ex_route (path service : rstr) (percent : N) : GatewayRoute (Value := unit) :=
  {| gr_path := path; gr_service := service; gr_methods := [lit "GET"]; gr_weight := 100; gr_match_headers := ∅;
     gr_match_cookies := ∅; gr_traffic_percent := percent; gr_mirror_service := Some (lit "user-v2");
     gr_mirror_percent := 100; gr_instance_tags := ∅; gr_middlewares := []; gr_timeout_ms := None;
     gr_stream_idle_timeout_ms := None; gr_max_stream_connections := None; gr_retries := None;
     gr_retry_backoff_ms := None; gr_rewrite := None; gr_fallback := None; gr_rate_limit := None;
     gr_breaker := None; gr_shedding := None |}.
Definition ex_service (name upstream : rstr) : GatewayService :=
  {| gs_name := name; gs_upstream := upstream; gs_registry_name := None; gs_instance_tags := ∅;
     gs_timeout_ms := None; gs_stream_idle_timeout_ms := None; gs_max_stream_connections := None;
     gs_outlier := None; gs_health_check := None; gs_tls := None |}.
Definition ex_gateway : GatewayConfig (Value := unit) :=
  {| gw_services := [ex_service (lit "user") (lit "http://10.0.0.1"); ex_service (lit "user-v2") (lit "10.0.0.2:80")];
     gw_routes := [ex_route (lit "/") (lit "user") 100; ex_route (lit "/user/") (lit "user-v2") 50;
                   ex_route (lit "/user") (lit "user") 100];
     gw_middlewares := []; gw_timeout_ms := None; gw_stream_idle_timeout_ms := None;
     gw_max_stream_connections := None; gw_request_body_limit_bytes := None; gw_fallback := None;
     gw_cors := None; gw_trusted_proxy_cidrs := [] |}.

Definition ex_select (path user : rstr) : option rstr :=
  rt_service <$> select_route (sort_routes (compile_routes (L := ex_http) id id (gw_routes ex_gateway) None)) path
                   [(lit "x-user-id", user : HeaderValue (HttpLib := ex_http))].

(** A canary takes the users of its share; a prefix is one of whole segments. *)
Example ex_canary :
  (ex_select (lit "/user/1") (lit "ann"), ex_select (lit "/user/1") (lit "bob"), ex_select (lit "/users") (lit "ann"))
  = (Some (lit "user"), Some (lit "user-v2"), Some (lit "user")).
Proof. vm_compute. reflexivity. Qed.

Lemma validated_routes_resolve_witness :
  ∃ s, service_map (gw_services ex_gateway) !! lit "user-v2" = Some s ∧ s ∈ gw_services ex_gateway ∧ gs_name s = lit "user-v2".
Proof.
  apply (validated_routes_resolve (L := ex_http) id id (λ _, []) (λ _, None) ex_gateway None (ex_route (lit "/user/") (lit "user-v2") 50)).
  - intros m Hm. by apply ex_parse_method_trim.
  - reflexivity.
  - right. by left.
Defined.

(** A mirror whose upstream has no scheme is asked at an address that is no URL,
    where requests to the service itself get one. *)
Example mirror_without_scheme :
  fst <$> mirror_request (service_map (gw_services ex_gateway)) None
            (compile_route (L := ex_http) id id None (ex_route (lit "/user") (lit "user") 100)) (lit "/user/1") None
  = Some (lit "10.0.0.2:80/user/1").
Proof. vm_compute. reflexivity. Qed.
