(* ===== verification/GatewayUpstream.v ===== *)
(** * Upstreams of the gateway (crates/roze-gateway/src/lib.rs)

    The instance a request is sent to: weighted selection under a cursor, passive
    ejection of failing instances, active health checks, and the permits of
    streaming connections with the body that holds one. The states are maps under
    locks, each method one step; a registry's answer and a probe's outcome are
    arguments. The text a tag map is debugged as is a parameter. *)

From S2P Require Import Prelude Breaker Resilience RateLimit Policy HttpTypes Cors GatewayRoute Balance Text Scan.

(** ** Addresses *)

Definition normalize_upstream_base (upstream : rstr) : rstr :=
  let upstream := trim_end_matches slash (trim upstream) in
  if existsb (λ scheme, starts_with scheme upstream) [lit "http://"; lit "https://"; lit "ws://"; lit "wss://"]
  then upstream else lit "http://" ++ upstream.

Definition upstream_instance_key (service upstream : rstr) : rstr :=
  service ++ lit "@" ++ normalize_upstream_base upstream.

(** ** Weighted selection *)

Definition MAX_EFFECTIVE_WEIGHT : N := 10000.
Definition effective_weight (i : ServiceInstance) : N := N.min (N.max (weight i) 1) MAX_EFFECTIVE_WEIGHT.

Fixpoint pick_at (point : N) (l : list ServiceInstance) : option ServiceInstance :=
  match l with
  | [] => None
  | i :: l' => if point <? effective_weight i then Some i else pick_at (point - effective_weight i) l'
  end.

Definition pick_weighted_instance (instances : list ServiceInstance) (cursor : N) : option ServiceInstance :=
  let total := foldr N.add 0 (effective_weight <$> instances) in
  if total =? 0 then None
  else match pick_at (cursor mod total) instances with Some i => Some i | None => last instances end.

(** ** Passive ejection *)

Record OutlierState := { os_failures : N; ejected_until : option N }.
Definition OutlierState_default : OutlierState := {| os_failures := 0; ejected_until := None |}.

Definition record_outlier_success (outlier : option GatewayOutlierConfig) (key : rstr)
    (states : gmap rstr OutlierState) : gmap rstr OutlierState :=
  match outlier with
  | None => states
  | Some _ => match states !! key with
              | Some _ => <[key := {| os_failures := 0; ejected_until := None |}]> states
              | None => states
              end
  end.

Definition outlier_failure (config : GatewayOutlierConfig) (now : N) (state : OutlierState) : OutlierState :=
  let failures := sat_add U32_MAX (os_failures state) 1 in
  if N.max (oc_failure_threshold config) 1 <=? failures
  then {| os_failures := 0; ejected_until := Some (now + from_millis (oc_ejection_ms config)) |}
  else {| os_failures := failures; ejected_until := ejected_until state |}.

Definition record_outlier_failure (outlier : option GatewayOutlierConfig) (key : rstr) (now : N)
    (states : gmap rstr OutlierState) : gmap rstr OutlierState :=
  match outlier with
  | None => states
  | Some config => <[key := outlier_failure config now (default OutlierState_default (states !! key))]> states
  end.

(** ** Active health checks *)

Record HealthState := { hs_healthy : bool; hs_failures : N; hs_successes : N }.
Definition HealthState_default : HealthState := {| hs_healthy := true; hs_failures := 0; hs_successes := 0 |}.

Definition health_result (config : GatewayHealthCheckConfig) (healthy : bool) (s : HealthState) : HealthState :=
  if healthy then
    let successes := sat_add U32_MAX (hs_successes s) 1 in
    {| hs_healthy := if negb (hs_healthy s) && (N.max (hc_healthy_threshold config) 1 <=? successes)
                     then true else hs_healthy s;
       hs_failures := 0; hs_successes := successes |}
  else
    let failures := sat_add U32_MAX (hs_failures s) 1 in
    {| hs_healthy := if hs_healthy s && (N.max (hc_unhealthy_threshold config) 1 <=? failures)
                     then false else hs_healthy s;
       hs_failures := failures; hs_successes := 0 |}.

Definition record_health_result (key : rstr) (config : GatewayHealthCheckConfig) (healthy : bool)
    (states : gmap rstr HealthState) : gmap rstr HealthState :=
  <[key := health_result config healthy (default HealthState_default (states !! key))]> states.

(** ** Availability *)

Definition target_available (outliers : gmap rstr OutlierState) (health : gmap rstr HealthState) (now : N)
    (key : rstr) (health_check_enabled : bool) : bool :=
  if match outliers !! key ≫= ejected_until with Some until => now <? until | None => false end then false
  else negb health_check_enabled || match health !! key with Some s => hs_healthy s | None => true end.

Definition has_tags (required : gmap rstr rstr) (i : ServiceInstance) : bool :=
  forallb (λ kv, bool_decide (metadata i !! kv.1 = Some kv.2)) (btree_iter required).

Definition available_instances (outliers : gmap rstr OutlierState) (health : gmap rstr HealthState) (now : N)
    (service_name : rstr) (instances : list ServiceInstance) (required_tags : gmap rstr rstr)
    (health_check_enabled : bool) : list ServiceInstance :=
  filter (λ i, has_tags required_tags i &&
               target_available outliers health now (upstream_instance_key service_name (addr i)) health_check_enabled = true)
    instances.

Inductive UpstreamError :=
| UTimeout | URequest (error : rstr) | UUnavailable (error : rstr) | StreamCapacity | Protocol (error : rstr).
Definition UpstreamError_text (e : UpstreamError) : rstr :=
  match e with
  | UTimeout => lit "upstream timeout"
  | URequest e | UUnavailable e | Protocol e => e
  | StreamCapacity => lit "too many active gateway streams"
  end.

Record UpstreamTarget := { base : rstr; instance_key : rstr; ut_outlier : option GatewayOutlierConfig }.

(** What the upstreams' methods read and write. *)
Record UpstreamState :=
  { outlier_states : gmap rstr OutlierState; health_states : gmap rstr HealthState;
    registry_cursors : gmap rstr N; stream_connections : gmap rstr N }.

Definition set_outliers (o : gmap rstr OutlierState) (s : UpstreamState) : UpstreamState :=
  {| outlier_states := o; health_states := health_states s; registry_cursors := registry_cursors s;
     stream_connections := stream_connections s |}.
Definition set_cursors (c : gmap rstr N) (s : UpstreamState) : UpstreamState :=
  {| outlier_states := outlier_states s; health_states := health_states s; registry_cursors := c;
     stream_connections := stream_connections s |}.
Definition set_streams (c : gmap rstr N) (s : UpstreamState) : UpstreamState :=
  {| outlier_states := outlier_states s; health_states := health_states s; registry_cursors := registry_cursors s;
     stream_connections := c |}.

Definition registry_name (s : GatewayService) : option rstr :=
  n ← gs_registry_name s; if nonempty n then Some n else None.

(** Whether instances of the service come from the registry, under which name. *)
Definition discovered_name (s : GatewayService) : option rstr :=
  match registry_name s with
  | Some n => Some n
  | None => if str_is_empty (gs_upstream s) then Some (gs_name s) else None
  end.

Section resolve.
Context (debug_tags : gmap rstr rstr → rstr).

(** [discovered] is the registry's answer, [None] without a registry. *)
Definition resolve_upstream (service : GatewayService) (route_tags : gmap rstr rstr)
    (discovered : option (result rstr (list ServiceInstance))) (now : N) (s : UpstreamState)
    : result UpstreamError UpstreamTarget * UpstreamState :=
  match discovered_name service with
  | Some name =>
      match discovered with
      | None => (Err (UUnavailable (lit "registry is required for gateway service '" ++ gs_name service ++ lit "'")), s)
      | Some (Err error) =>
          (Err (UUnavailable (lit "failed to discover gateway service '" ++ name ++ lit "': " ++ error)), s)
      | Some (Ok instances) =>
          let tags := route_tags ∪ gs_instance_tags service in
          let candidates := available_instances (outlier_states s) (health_states s) now name instances tags
                              (is_some (gs_health_check service)) in
          let selection_key := name ++ lit ":" ++ debug_tags tags in
          let cursor := default 0 (registry_cursors s !! selection_key) in
          let s := set_cursors (<[selection_key := wrap 64 (cursor + 1)]> (registry_cursors s)) s in
          match pick_weighted_instance candidates cursor with
          | None => (Err (UUnavailable (lit "no healthy gateway instances for service '" ++ name ++ lit "' matching " ++
                                        debug_tags tags)), s)
          | Some i => (Ok {| base := normalize_upstream_base (addr i);
                             instance_key := upstream_instance_key name (addr i);
                             ut_outlier := gs_outlier service |}, s)
          end
      end
  | None =>
      let key := upstream_instance_key (gs_name service) (gs_upstream service) in
      if target_available (outlier_states s) (health_states s) now key (is_some (gs_health_check service))
      then (Ok {| base := normalize_upstream_base (gs_upstream service); instance_key := key;
                  ut_outlier := gs_outlier service |}, s)
      else (Err (UUnavailable (lit "gateway upstream '" ++ key ++ lit "' is unhealthy or ejected")), s)
  end.
End resolve.

(** [check_service_health]: the targets that are probed, then a probe's verdict for each. *)
Definition health_targets (service : GatewayService) (discovered : option (result rstr (list ServiceInstance)))
    : list (rstr * rstr) :=
  match discovered_name service with
  | Some name =>
      match discovered with
      | Some (Ok instances) => (λ i, (upstream_instance_key name (addr i), normalize_upstream_base (addr i))) <$> instances
      | _ => []
      end
  | None => [(upstream_instance_key (gs_name service) (gs_upstream service), normalize_upstream_base (gs_upstream service))]
  end.

(** [probe] answers the status of a request that came back in time. *)
Definition check_service_health (service : GatewayService) (config : GatewayHealthCheckConfig)
    (discovered : option (result rstr (list ServiceInstance))) (probe : rstr → option N)
    (states : gmap rstr HealthState) : gmap rstr HealthState :=
  foldl (λ states kb, record_health_result kb.1 config
                        (bool_decide (probe (join_url kb.2 (hc_path config)) = Some (hc_expected_status config))) states)
    states (health_targets service discovered).

(** ** Streaming connections *)

Definition stream_key (service protocol path : rstr) : rstr :=
  OperationKey_new service Gateway (protocol ++ lit ":" ++ path).

(** A permit is its key. *)
Definition try_acquire_stream_connection (maximum : option N) (key : rstr) (states : gmap rstr N)
    : result UpstreamError rstr * gmap rstr N :=
  let active := default 0 (states !! key) in
  if match maximum with Some m => m <=? active | None => false end then (Err StreamCapacity, states)
  else (Ok key, <[key := sat_add U32_MAX active 1]> states).

Definition drop_permit (key : rstr) (states : gmap rstr N) : gmap rstr N :=
  match states !! key with
  | Some current => if current - 1 =? 0 then delete key states else <[key := current - 1]> states
  | None => states
  end.

(** [SseBody]: what a poll finds in the upstream's stream. *)
Inductive Polled := PFrame (bytes : list N) | PError (error : rstr) | PEnd | PPending.
Inductive BodyPoll := Frame (bytes : list N) | BodyError (error : rstr) | BodyEnd | BodyPending.

Record SseBody := { idle_timeout : N; idle_at : option N; permit : option rstr; done_ : bool }.

Definition SseBody_new (idle : option N) (permit : option rstr) (now : N) : SseBody :=
  let idle := default 0 idle in
  {| idle_timeout := idle; idle_at := if idle =? 0 then None else Some (now + idle); permit := permit; done_ := false |}.

(** [state.permit.take()] drops the permit. *)
Definition end_body (b : SseBody) (states : gmap rstr N) : SseBody * gmap rstr N :=
  ({| idle_timeout := idle_timeout b; idle_at := idle_at b; permit := None; done_ := true |},
   match permit b with Some key => drop_permit key states | None => states end).

Definition poll_frame (polled : Polled) (now : N) (b : SseBody) (states : gmap rstr N)
    : BodyPoll * SseBody * gmap rstr N :=
  if done_ b then (BodyEnd, b, states)
  else
    match polled with
    | PFrame bytes =>
        (Frame bytes, {| idle_timeout := idle_timeout b;
                         idle_at := (λ _, now + idle_timeout b) <$> idle_at b; permit := permit b; done_ := false |}, states)
    | PError e => let '(b, states) := end_body b states in (BodyError e, b, states)
    | PEnd => let '(b, states) := end_body b states in (BodyEnd, b, states)
    | PPending =>
        match idle_at b with
        | Some at_ => if at_ <=? now
                      then let '(b, states) := end_body b states in (BodyError (lit "SSE stream idle timeout"), b, states)
                      else (BodyPending, b, states)
        | None => (BodyPending, b, states)
        end
    end.

(** Dropping the body drops its permit. *)
Definition drop_body (b : SseBody) (states : gmap rstr N) : gmap rstr N :=
  match permit b with Some key => drop_permit key states | None => states end.

(** ** Weighted selection is a turn of a wheel *)

(** Every instance as often as it weighs. *)
Definition wheel (instances : list ServiceInstance) : list ServiceInstance :=
  instances ≫= λ i, replicate (N.to_nat (effective_weight i)) i.

Lemma wheel_cons i l : wheel (i :: l) = replicate (N.to_nat (effective_weight i)) i ++ wheel l.
Proof. unfold wheel. by rewrite bind_cons. Qed.

Lemma wheel_length l : N.of_nat (length (wheel l)) = foldr N.add 0 (effective_weight <$> l).
Proof.
  induction l as [|i l IH]; [done|]. rewrite wheel_cons, length_app, length_replicate. cbn [fmap list_fmap foldr]. lia.
Qed.

Lemma pick_at_wheel l point : pick_at point l = wheel l !! N.to_nat point.
Proof.
  revert point. induction l as [|i l IH]; intros point; [done|]. cbn [pick_at]. rewrite wheel_cons.
  destruct (point <? effective_weight i) eqn:E; guard_prop.
  - rewrite lookup_app_l by (rewrite length_replicate; lia). symmetry. apply lookup_replicate_2. lia.
  - rewrite lookup_app_r by (rewrite length_replicate; lia). rewrite length_replicate, IH. f_equal. lia.
Qed.

Lemma effective_weight_pos i : 0 < effective_weight i.
Proof. unfold effective_weight, MAX_EFFECTIVE_WEIGHT. lia. Qed.

Lemma pick_wheel instances cursor :
  pick_weighted_instance instances cursor = fst (cursor_pick (wheel instances) cursor).
Proof.
  unfold pick_weighted_instance, cursor_pick. cbn [fst]. rewrite wheel_length. set (total := foldr _ _ _).
  destruct (total =? 0) eqn:E; guard_prop.
  - rewrite E. destruct instances as [|i l]; [done|]. unfold total in E. cbn in E. pose proof (effective_weight_pos i). lia.
  - pose proof (N.mod_lt cursor total E). rewrite pick_at_wheel.
    destruct (wheel instances !! N.to_nat (cursor mod total)) eqn:Ew; [done|].
    apply lookup_ge_None in Ew. pose proof (wheel_length instances). fold total in H0. lia.
Qed.

Lemma wheel_count instances x :
  NoDup instances →
  countp (λ r, r = Some x) (Some <$> wheel instances) = if decide (x ∈ instances) then N.to_nat (effective_weight x) else 0%nat.
Proof.
  induction 1 as [|i l Hi _ IH]; [done|]. rewrite wheel_cons, fmap_app, countp_app, IH, countp_replicate.
  destruct (decide (i = x)) as [->|Hne].
  - rewrite (decide_False (P := x ∈ l)) by done. rewrite decide_True by (by left). lia.
  - destruct (decide (x ∈ l)) as [Hx|Hx].
    + by rewrite decide_True by (by right).
    + rewrite decide_False; [done|]. rewrite elem_of_cons. naive_solver.
Qed.

(** Weights are honoured exactly. One instance is chosen whenever there is one;
    and over distinct instances, in as many consecutive choices as the effective
    weights (the weight, at least 1 and at most 10000) add up to, wherever the
    cursor stands as long as it does not wrap, each is chosen exactly as often as it
    weighs. *)
Theorem weighted_share_exact instances cursor :
  NoDup instances → instances ≠ [] →
  let total := foldr N.add 0 (effective_weight <$> instances) in
  cursor + total ≤ 2 ^ 64 →
  is_Some (pick_weighted_instance instances cursor) ∧
  ∀ x, x ∈ instances →
    countp (λ r, r = Some x)
      (picks (λ c, (pick_weighted_instance instances c, wrap 64 (c + 1))) (N.to_nat total) cursor) =
    N.to_nat (effective_weight x).
Proof.
  intros Hnd Hne total Hc. pose proof (wheel_length instances) as Hl. fold total in Hl.
  assert (0 < total) as Htot.
  { destruct instances as [|i l]; [done|]. unfold total. cbn. pose proof (effective_weight_pos i). lia. }
  split.
  - rewrite pick_wheel. unfold cursor_pick. cbn [fst]. apply lookup_lt_is_Some_2. rewrite Hl.
    pose proof (N.mod_lt cursor total ltac:(lia)). lia.
  - intros x Hx. rewrite (picks_ext _ (cursor_pick (wheel instances))).
    + replace (N.to_nat total) with (length (wheel instances)) by lia.
      assert (cursor + N.of_nat (length (wheel instances)) ≤ 2 ^ 64) as Hw by lia.
      rewrite (countp_Permutation (λ r, r = Some x) _ _ (picks_permutation _ _ Hw)), wheel_count by done.
      by rewrite decide_True.
    + intros c. rewrite pick_wheel. by destruct (cursor_pick (wheel instances) c) eqn:E; unfold cursor_pick in E; simplify_eq.
Qed.

(** ** Ejection follows the streak of failures *)

(** The outcomes of an instance's requests: the time of a failure, [None] for a success. *)
Definition outlier_run (config : GatewayOutlierConfig) (l : list (option N)) : OutlierState :=
  foldl (λ s e, match e with Some now => outlier_failure config now s
                           | None => {| os_failures := 0; ejected_until := None |} end) OutlierState_default l.

(** The times of the failures since the last success, the last one first. *)
Fixpoint streak (l : list (option N)) : list N :=
  match l with Some t :: l' => t :: streak l' | _ => [] end.

Definition streak_state (config : GatewayOutlierConfig) (failures : list N) : OutlierState :=
  let t := N.max (oc_failure_threshold config) 1 in
  let n := N.of_nat (length failures) in
  {| os_failures := n mod t;
     ejected_until := (λ now, now + from_millis (oc_ejection_ms config)) <$>
                      (if n <? t then None else failures !! N.to_nat (n mod t)) |}.

Lemma outlier_failure_streak config now failures :
  N.max (oc_failure_threshold config) 1 < U32_MAX →
  outlier_failure config now (streak_state config failures) = streak_state config (now :: failures).
Proof.
  intros Ht. unfold outlier_failure, streak_state. cbn [os_failures ejected_until].
  set (t := N.max _ 1) in *. set (n := N.of_nat (length failures)).
  replace (N.of_nat (length (now :: failures))) with (n + 1) by (unfold n; cbn [length]; lia).
  assert (0 < t) as Hpos by (unfold t; lia). clearbody t n.
  pose proof (N.mod_lt n t ltac:(lia)) as Hm. rewrite sat_add_small by lia.
  pose proof (N.div_mod n t ltac:(lia)) as Hd.
  assert (∀ q r, n + 1 = t * q + r → r < t → (n + 1) mod t = r) as Huniq
    by (intros q r Heq Hr; symmetry; by apply (N.mod_unique _ _ q)).
  destruct (n <? t) eqn:E1; guard_prop.
  - rewrite (N.mod_small n t) in * by done. destruct (t <=? n + 1) eqn:E; guard_prop.
    + rewrite (Huniq 1 0) by lia. by rewrite (proj2 (N.ltb_ge _ _)) by lia.
    + rewrite (Huniq 0 (n + 1)) by lia. by rewrite (proj2 (N.ltb_lt _ _)) by lia.
  - rewrite (proj2 (N.ltb_ge (n + 1) t)) by lia. destruct (t <=? n mod t + 1) eqn:E; guard_prop.
    + rewrite (Huniq (n / t + 1) 0); [done| |lia]. revert Hd E Hm. generalize (n / t) (n mod t). intros q r -> ??. nia.
    + rewrite (Huniq (n / t) (n mod t + 1)) by lia. do 2 f_equal.
      replace (N.to_nat (n mod t + 1)) with (S (N.to_nat (n mod t))) by lia. done.
Qed.

(** An instance is ejected by exactly its streak of failures. After any course of
    requests, with the failures since the last success counted from that success,
    the instance is ejected just when the streak has reached the threshold, for the
    ejection time from the last failure whose place in the streak is a multiple of
    the threshold; a success brings it back. *)
Theorem outlier_follows_streak config l :
  N.max (oc_failure_threshold config) 1 < U32_MAX →
  outlier_run config l = streak_state config (streak (reverse l)).
Proof.
  intros Ht. unfold outlier_run. induction l as [|e l IH] using rev_ind.
  - unfold streak_state. cbn -[N.max]. rewrite (proj2 (N.ltb_lt _ _)) by lia. by rewrite N.Div0.mod_0_l.
  - rewrite foldl_app, reverse_app. cbn [foldl reverse rev_append app]. rewrite IH.
    destruct e as [now|]; cbn [streak]; [by apply outlier_failure_streak|].
    unfold streak_state. cbn -[N.max]. rewrite (proj2 (N.ltb_lt _ _)) by lia. by rewrite N.Div0.mod_0_l.
Qed.

(** ** Health checks have hysteresis *)

(** How many of the newest results are [b], the newest first. *)
Fixpoint lead (b : bool) (l : list bool) : nat :=
  match l with x :: l' => if eqb x b then S (lead b l') else 0%nat | [] => 0%nat end.

Lemma lead_replicate b n l : (n ≤ lead b l)%nat ↔ ∃ t, l = replicate n b ++ t.
Proof.
  revert l. induction n as [|n IH]; intros l; [split; [by exists l|lia]|].
  destruct l as [|x l]; cbn [lead].
  - split; [lia|]. by intros [t ?].
  - destruct (eqb x b) eqn:E.
    + apply eqb_prop in E as ->. rewrite <- Nat.succ_le_mono, IH. cbn. split; [intros [t ->]; eauto|intros [t [= ->]]; eauto].
    + split; [lia|]. intros [t [= -> _]]. by rewrite eqb_reflx in E.
Qed.

Definition has_run (h : nat) (l : list bool) : Prop := ∃ a b, l = a ++ replicate h true ++ b.

(** [u] failures in a row that no [h] successes in a row came after; newest first. *)
Definition down (u h : nat) (l : list bool) : Prop := ∃ l2 l1, l = l2 ++ replicate u false ++ l1 ∧ ¬ has_run h l2.

Lemma has_run_cons h x l : has_run h (x :: l) → has_run h l ∨ ∃ b, x :: l = replicate h true ++ b.
Proof. intros ([|y a] & b & Heq); [right; eauto|left]. injection Heq as -> ->. by exists a, b. Qed.

Lemma down_true u h l : (0 < u)%nat → down u h (true :: l) ↔ down u h l ∧ (lead true (true :: l) < h)%nat.
Proof.
  intros Hu. split.
  - intros ([|x l2] & l1 & Heq & Hno); [destruct u; [lia|done]|]. injection Heq as <- ->. split.
    + exists l2, l1. split; [done|]. intros (a & b & ->). destruct Hno. by exists (true :: a), b.
    + destruct (decide (lead true (true :: l2 ++ replicate u false ++ l1) < h)%nat) as [|Hle]; [done|]. destruct Hno.
      assert (h ≤ lead true (true :: l2 ++ replicate u false ++ l1))%nat as Hl by lia.
      assert (lead true (true :: l2 ++ replicate u false ++ l1) = lead true (true :: l2)) as Hlead.
      { clear -Hu. cbn. f_equal. induction l2 as [|[] l2 IH]; cbn; [by destruct u; [lia|]|by f_equal|done]. }
      rewrite Hlead in Hl. apply lead_replicate in Hl as [t ->]. by exists [], t.
  - intros [(l2 & l1 & -> & Hno) Hlt]. exists (true :: l2), l1. split; [done|].
    intros [?|[b Hb]]%has_run_cons; [done|].
    assert (h ≤ lead true (true :: l2 ++ replicate u false ++ l1))%nat; [|lia].
    apply lead_replicate. exists (b ++ replicate u false ++ l1).
    trans ((true :: l2) ++ replicate u false ++ l1); [done|]. by rewrite Hb, <- app_assoc.
Qed.

Lemma down_false u h l :
  (0 < u)%nat → (0 < h)%nat → down u h (false :: l) ↔ down u h l ∨ (u ≤ lead false (false :: l))%nat.
Proof.
  intros Hu Hh. split.
  - intros ([|x l2] & l1 & Heq & Hno).
    + right. apply lead_replicate. eauto.
    + left. injection Heq as <- ->. exists l2, l1. split; [done|]. intros (a & b & ->). destruct Hno. by exists (false :: a), b.
  - intros [(l2 & l1 & -> & Hno)|[t Ht]%lead_replicate].
    + exists (false :: l2), l1. split; [done|]. intros [?|[b Hb]]%has_run_cons; [done|]. destruct h; [lia|done].
    + exists [], t. split; [done|]. intros ([|??] & c & Hb); [|done]. destruct h; [lia|done].
Qed.

(** The state after some results, the newest first. *)
Definition health_run (config : GatewayHealthCheckConfig) (l : list bool) : HealthState :=
  foldr (λ r s, health_result config r s) HealthState_default l.

(** Health checks have hysteresis. After any results of an instance's probes it is
    unhealthy exactly if at some point as many failed in a row as the unhealthy
    threshold says and never since have as many succeeded in a row as the healthy
    threshold says (a threshold of 0 counting as 1). *)
Theorem health_hysteresis config l :
  hc_unhealthy_threshold config ≤ U32_MAX → hc_healthy_threshold config ≤ U32_MAX →
  hs_healthy (health_run config l) = false ↔
  down (N.to_nat (N.max (hc_unhealthy_threshold config) 1)) (N.to_nat (N.max (hc_healthy_threshold config) 1)) l.
Proof.
  intros Hu Hh. set (u := N.max (hc_unhealthy_threshold config) 1). set (h := N.max (hc_healthy_threshold config) 1).
  assert (0 < u ∧ u ≤ U32_MAX) as [Hu0 Hu1] by (unfold u; lia). assert (0 < h ∧ h ≤ U32_MAX) as [Hh0 Hh1] by (unfold h; lia).
  enough ((hs_healthy (health_run config l) = false ↔ down (N.to_nat u) (N.to_nat h) l) ∧
          hs_successes (health_run config l) = N.min (N.of_nat (lead true l)) U32_MAX ∧
          hs_failures (health_run config l) = N.min (N.of_nat (lead false l)) U32_MAX) by tauto.
  induction l as [|x l (IH & Hs & Hf)]; cbn [health_run foldr].
  - split; [|done]. split; [done|]. intros (l2 & l1 & Heq & _). apply (f_equal length) in Heq.
    rewrite !length_app, length_replicate in Heq. cbn in Heq. lia.
  - fold (health_run config l). set (s := health_run config l) in *. unfold health_result. rewrite Hs, Hf. fold u h.
    destruct x; cbn [hs_healthy hs_successes hs_failures lead eqb]; unfold sat_add.
    + split; [|split; lia]. rewrite down_true, <- IH by lia. cbn [lead eqb].
      destruct (hs_healthy s); cbn [negb andb]; [by split; [|intros []]|].
      destruct (h <=? _) eqn:E; guard_prop; [split; [done|intros [_ ?]; lia]|split; [intros _; split; [done|lia]|done]].
    + split; [|split; lia]. rewrite down_false, <- IH by lia. cbn [lead eqb].
      destruct (hs_healthy s); cbn [andb]; [|tauto].
      destruct (u <=? _) eqn:E; guard_prop; [split; [intros _; right; lia|done]|split; [done|intros [?|?]; [done|lia]]].
Qed.

(** ** Permits of streaming connections *)

(** Permits in flight under their keys; an acquisition asks with a maximum. *)
Inductive stream_event := Acquire (maximum : option N) (key : rstr) | Release (i : nat).

Definition stream_step (w : gmap rstr N * list rstr) (e : stream_event) : gmap rstr N * list rstr :=
  match e with
  | Acquire maximum key =>
      match try_acquire_stream_connection maximum key w.1 with
      | (Ok permit, states) => (states, permit :: w.2)
      | (Err _, states) => (states, w.2)
      end
  | Release i =>
      match w.2 !! i with
      | Some key => (drop_permit key w.1, delete i w.2)
      | None => w
      end
  end.

Definition live (key : rstr) (l : list rstr) : N := N.of_nat (countp (λ k, k = key) l).

Lemma live_cons key k l : live key (k :: l) = (if decide (k = key) then 1 else 0) + live key l.
Proof. unfold live. rewrite countp_cons. destruct (decide (k = key)); lia. Qed.

Lemma live_delete key i k l : l !! i = Some k → live key l = (if decide (k = key) then 1 else 0) + live key (delete i l).
Proof.
  intros Hi. unfold live. rewrite <- (take_drop_middle l i k Hi) at 1.
  rewrite delete_take_drop, !countp_app, countp_cons. destruct (decide (k = key)); lia.
Qed.

Lemma live_le key l : live key l ≤ N.of_nat (length l).
Proof. unfold live. pose proof (countp_le (λ k, k = key) l). lia. Qed.

(** The count kept for a key: none when no permit is held. *)
Definition counted (w : gmap rstr N * list rstr) : Prop :=
  ∀ key, w.1 !! key = (if decide (live key w.2 = 0) then None else Some (live key w.2)).

Lemma counted_default w key : counted w → default 0 (w.1 !! key) = live key w.2.
Proof. intros Hw. rewrite Hw. by destruct (decide (live key w.2 = 0)). Qed.

Lemma acquire_counted maximum key w permit states :
  counted w → N.of_nat (length w.2) < U32_MAX →
  try_acquire_stream_connection maximum key w.1 = (Ok permit, states) → permit = key ∧ counted (states, key :: w.2).
Proof.
  intros Hw Hl. unfold try_acquire_stream_connection. rewrite (counted_default w key Hw).
  destruct (match maximum with Some m => m <=? live key w.2 | None => false end); intros [= <- <-]. split; [done|].
  intros k. cbn [fst snd]. rewrite live_cons. pose proof (live_le key w.2). rewrite sat_add_small by lia.
  destruct (decide (key = k)) as [->|Hne].
  - rewrite lookup_insert_eq, decide_False by lia. f_equal. lia.
  - by rewrite lookup_insert_ne, N.add_0_l.
Qed.

Lemma drop_counted i key w : counted w → w.2 !! i = Some key → counted (drop_permit key w.1, delete i w.2).
Proof.
  intros Hw Hi. pose proof (live_delete key i key w.2 Hi) as Hk. rewrite decide_True in Hk by done.
  unfold drop_permit. rewrite Hw, decide_False by lia. intros k. cbn [fst snd].
  pose proof (live_delete k i key w.2 Hi) as Hd. destruct (decide (key = k)) as [->|Hne].
  - destruct (live k w.2 - 1 =? 0) eqn:E; guard_prop.
    + rewrite lookup_delete_eq, decide_True by lia. done.
    + rewrite lookup_insert_eq, decide_False by lia. f_equal. lia.
  - rewrite N.add_0_l in Hd. rewrite <- Hd, <- Hw.
    destruct (live key w.2 - 1 =? 0); [by rewrite lookup_delete_ne|by rewrite lookup_insert_ne].
Qed.

(** A body polled a number of times, the time of each poll with what it finds. *)
Definition polls (l : list (Polled * N)) (b : SseBody) (states : gmap rstr N) : SseBody * gmap rstr N :=
  foldl (λ w e, let '(_, b, states) := poll_frame e.1 e.2 w.1 w.2 in (b, states)) (b, states) l.

Lemma poll_frame_permit polled now b states out b' states' :
  poll_frame polled now b states = (out, b', states') → drop_body b' states' = drop_body b states.
Proof.
  unfold poll_frame, drop_body. destruct (done_ b); [by intros [= _ <- <-]|].
  destruct polled; [by intros [= _ <- <-]|by intros [= _ <- <-]|by intros [= _ <- <-]|].
  destruct (idle_at b) as [t|]; [destruct (t <=? now)|]; by intros [= _ <- <-].
Qed.

Lemma polls_permit l b states : drop_body (polls l b states).1 (polls l b states).2 = drop_body b states.
Proof.
  unfold polls. induction l as [|[polled now] l IH] using rev_ind; [done|]. rewrite foldl_app. cbn [foldl fst snd].
  destruct (foldl _ _ l) as [b1 states1]. cbn [fst snd] in *.
  destruct (poll_frame polled now b1 states1) as [[out b'] states'] eqn:E. cbn [fst snd].
  rewrite <- IH. exact (poll_frame_permit _ _ _ _ _ _ _ E).
Qed.

Lemma stream_step_counted w e :
  counted w → N.of_nat (length w.2) < U32_MAX →
  counted (stream_step w e) ∧ (length (stream_step w e).2 ≤ S (length w.2))%nat.
Proof.
  intros Hw Hl. destruct e as [maximum key|i]; cbn [stream_step].
  - destruct (try_acquire_stream_connection maximum key w.1) as [[permit|err] states] eqn:E.
    + destruct (acquire_counted _ _ _ _ _ Hw Hl E) as [-> ?]. split; [done|cbn; lia].
    + unfold try_acquire_stream_connection in E. destruct (match maximum with Some m => _ | None => _ end); simplify_eq.
      split; [done|cbn; lia].
  - destruct (w.2 !! i) as [key|] eqn:Hi; [|split; [done|lia]]. split; [by apply drop_counted|].
    cbn [snd]. rewrite length_delete by eauto. lia.
Qed.

(** Streaming connections are counted exactly. After any acquisitions and releases
    the count kept for a key is the number of its permits still held, and no entry is
    kept for none; a connection is refused exactly if as many as the maximum are held;
    and a response body gives its permit back once, whether it ends, fails, idles out,
    or is dropped, whatever its polls find. *)
Theorem stream_permits_counted es :
  N.of_nat (length es) < U32_MAX →
  let w := foldl stream_step (∅, []) es in
  counted w ∧
  (∀ m key, fst (try_acquire_stream_connection (Some m) key w.1) =
            if m <=? live key w.2 then Err StreamCapacity else Ok key) ∧
  (∀ l idle key now states,
     let b := polls l (SseBody_new idle (Some key) now) states in
     drop_body b.1 b.2 = drop_permit key states ∧ (done_ b.1 = true → b.2 = drop_permit key states)).
Proof.
  intros Hes w.
  assert (counted w ∧ (length w.2 ≤ length es)%nat) as [Hw _].
  { unfold w. clear w. induction es as [|e es IH] using rev_ind; [split; [intros k; apply lookup_empty|cbn; lia]|].
    rewrite length_app in Hes |- *. cbn [length] in Hes |- *. rewrite foldl_app. cbn [foldl].
    destruct IH as [Hw Hl]; [lia|]. destruct (stream_step_counted _ e Hw); [lia|]. split; [done|lia]. }
  split; [done|]. split.
  - intros m key. unfold try_acquire_stream_connection. rewrite (counted_default w key Hw). by destruct (m <=? live key w.2).
  - intros l idle key now states b. pose proof (polls_permit l (SseBody_new idle (Some key) now) states) as Hp.
    change (drop_body (SseBody_new idle (Some key) now) states) with (drop_permit key states) in Hp.
    split; [done|]. intros Hd. rewrite <- Hp. fold b. unfold drop_body.
    enough (done_ b.1 = true → permit b.1 = None) as He by (by rewrite (He Hd)). unfold b. clear.
    unfold polls. induction l as [|[polled t] l IH] using rev_ind; [done|]. rewrite foldl_app. cbn [foldl fst snd].
    destruct (foldl _ _ l) as [b1 states1]. cbn [fst snd] in *. unfold poll_frame.
    destruct (done_ b1) eqn:E; [cbn; auto|]. destruct polled; [done..|].
    destruct (idle_at b1) as [u|]; [destruct (u <=? t)|]; cbn; by rewrite ?E.
Qed.

(** ** The theorems at work *)

Definition ex_instance (a : rstr) (w : N) : ServiceInstance := {| si_name := lit "user"; addr := a; weight := w; metadata := ∅ |}.

Lemma weighted_share_exact_witness :
  Forall (λ x, countp (λ r, r = Some x)
                 (picks (λ c, (pick_weighted_instance [ex_instance (lit "a") 3; ex_instance (lit "b") 0] c, wrap 64 (c + 1))) 4 7) =
               N.to_nat (effective_weight x)) [ex_instance (lit "a") 3; ex_instance (lit "b") 0].
Proof.
  apply Forall_forall.
  apply (weighted_share_exact [ex_instance (lit "a") 3; ex_instance (lit "b") 0] 7); [|done|by vm_compute].
  apply (bool_decide_eq_true_1 _). vm_compute. reflexivity.
Defined.

Lemma outlier_follows_streak_witness :
  outlier_run {| oc_failure_threshold := 2; oc_ejection_ms := 30000 |} [Some 1; None; Some 5; Some 6; Some 7] =
  {| os_failures := 1; ejected_until := Some (6 + from_millis 30000) |}.
Proof. by rewrite outlier_follows_streak by (by vm_compute). Defined.

Definition ex_health : GatewayHealthCheckConfig :=
  {| hc_path := lit "/health"; hc_interval_ms := 1000; hc_timeout_ms := 500; hc_unhealthy_threshold := 2;
     hc_healthy_threshold := 2; hc_expected_status := 200 |}.

Lemma health_hysteresis_witness : hs_healthy (health_run ex_health [true; false; true; false; false; true]) = false.
Proof.
  apply (health_hysteresis ex_health); [by vm_compute..|].
  exists [true; false; true], [true]. split; [done|].
  intros ([|a1 [|a2 [|a3 [|a4 a]]]] & b & Heq); vm_compute in Heq; simplify_eq.
Defined.

Lemma stream_permits_counted_witness :
  fst (try_acquire_stream_connection (Some 2) (lit "k")
         (foldl stream_step (∅, []) [Acquire (Some 2) (lit "k"); Acquire None (lit "k"); Release 0; Acquire None (lit "k")]).1) =
  Err StreamCapacity.
Proof.
  destruct (stream_permits_counted [Acquire (Some 2) (lit "k"); Acquire None (lit "k"); Release 0; Acquire None (lit "k")])
    as (_ & Hm & _); [by vm_compute|]. rewrite Hm. by vm_compute.
Defined.
