(* ===== verification/Auth.v ===== *)
(** * Authentication (crates/roze-auth/src/lib.rs, crates/roze-jwt/src/lib.rs)

    Principals, API keys, OAuth2 policies, tokens signed with the keys of the
    configuration, and the verifier of an identity provider's tokens with its two
    caches. The [jsonwebtoken] crate, the key sets of the provider and the network
    are an interface. An operation on a cache under its lock is one step; the call
    that waits for the network reads the cache before and writes it after. *)

From S2P Require Import Prelude Policy Text Scan.

(** ** Principals *)

Record AuthPrincipal :=
  { p_subject : rstr; p_roles : list rstr; p_tenant : option rstr; p_permissions : list rstr;
    p_scopes : list rstr; p_token_id : option rstr; p_issuer : option rstr }.

Inductive AuthError :=
| Malformed | Expired | WrongIssuer | WrongAudience | UnknownKey | Revoked | InvalidSignature | ProviderUnavailable.

Definition auth_error_code (e : AuthError) : rstr :=
  match e with
  | Malformed => lit "auth.token_malformed"
  | Expired => lit "auth.token_expired"
  | WrongIssuer => lit "auth.wrong_issuer"
  | WrongAudience => lit "auth.wrong_audience"
  | UnknownKey => lit "auth.unknown_signing_key"
  | Revoked => lit "auth.token_revoked"
  | InvalidSignature => lit "auth.invalid_signature"
  | ProviderUnavailable => lit "auth.provider_unavailable"
  end.

Record MtlsIdentity :=
  { m_subject : rstr; m_issuer : rstr; m_serial_number : rstr; m_tenant : option rstr; m_roles : list rstr;
    m_permissions : list rstr; m_scopes : list rstr }.

Definition principal_of_mtls (i : MtlsIdentity) : AuthPrincipal :=
  {| p_subject := m_subject i; p_roles := m_roles i; p_tenant := m_tenant i; p_permissions := m_permissions i;
     p_scopes := m_scopes i; p_token_id := Some (m_serial_number i); p_issuer := Some (m_issuer i) |}.

Definition principal (subject : rstr) (roles : list rstr) (tenant : option rstr) : AuthPrincipal :=
  {| p_subject := subject; p_roles := roles; p_tenant := tenant; p_permissions := []; p_scopes := [];
     p_token_id := None; p_issuer := None |}.

Definition has_role (p : AuthPrincipal) (role : rstr) : bool := str_in (p_roles p) role.
Definition has_any_role (p : AuthPrincipal) (roles : list rstr) : bool := existsb (has_role p) roles.
Definition belongs_to_tenant (p : AuthPrincipal) (tenant : rstr) : bool := bool_decide (p_tenant p = Some tenant).
Definition is_subject (p : AuthPrincipal) (subject : rstr) : bool := str_eqb (p_subject p) subject.

(** ** API keys and OAuth2 policies *)

Record ApiKeyCredential :=
  { ak_key : rstr; ak_subject : rstr; ak_roles : list rstr; ak_tenant : option rstr;
    ak_permissions : list rstr; ak_scopes : list rstr }.
Record ApiKeyConfig := { ak_header : rstr; ak_keys : list ApiKeyCredential }.

Definition default_api_key_header : rstr := lit "x-api-key".
Definition ApiKeyConfig_default : ApiKeyConfig := {| ak_header := default_api_key_header; ak_keys := [] |}.

Definition verify_api_key (value : rstr) (config : ApiKeyConfig) : option AuthPrincipal :=
  (λ c, {| p_subject := ak_subject c; p_roles := ak_roles c; p_tenant := ak_tenant c;
           p_permissions := ak_permissions c; p_scopes := ak_scopes c; p_token_id := None; p_issuer := None |})
  <$> List.find (λ c, str_eqb (ak_key c) value) (ak_keys config).

Definition https (url : rstr) : bool := starts_with (lit "https://") url.

Record OAuth2Policy :=
  { client_id : rstr; redirect_uris : list rstr; o_scopes : list rstr; require_pkce : bool }.

Definition OAuth2Policy_validate (p : OAuth2Policy) : result rstr unit :=
  if str_is_empty (trim (client_id p)) then Err (lit "OAuth2 client ID must not be empty")
  else if bool_decide (redirect_uris p = []) || existsb (λ uri, negb (https uri)) (redirect_uris p)
  then Err (lit "OAuth2 redirect URIs must use HTTPS")
  else if bool_decide (o_scopes p = []) || existsb (λ scope, str_is_empty (trim scope)) (o_scopes p)
  then Err (lit "OAuth2 scopes must not be empty")
  else if negb (require_pkce p) then Err (lit "OAuth2 authorization-code flows must require PKCE")
  else Ok tt.

(** ** Caches with a fresh and a stale age *)

(** A value with the time it was fetched at. *)
Abbreviation cache A := (gmap rstr (A * N)).

Definition cache_read {A} (ttl now : N) (key : rstr) (c : cache A) : option A :=
  entry ← c !! key; if now - entry.2 <=? ttl then Some entry.1 else None.

(** [min_by_key]: the first of the oldest, in an order the map leaves open. *)
Definition oldest {A} (c : cache A) : option rstr :=
  fst <$> foldl (λ best kv, match best with
                            | Some b => if b.2.2 <=? kv.2.2 then best else Some kv
                            | None => Some kv
                            end) None (map_to_list c).

Definition cache_store {A} (maximum : N) (key : rstr) (a : A) (now : N) (c : cache A) : cache A :=
  let c := if (maximum <=? N.of_nat (size c)) && negb (is_some (c !! key))
           then match oldest c with Some k => delete k c | None => c end else c in
  <[key := (a, now)]> c.

(** ** The [jsonwebtoken] crate *)

Inductive Algorithm :=
| HS256 | HS384 | HS512 | ES256 | ES384 | RS256 | RS384 | RS512 | PS256 | PS384 | PS512 | EdDSA.
#[export] Instance Algorithm_eq_dec : EqDecision Algorithm.
Proof. solve_decision. Defined.

Inductive ErrorKind := ExpiredSignature | InvalidIssuer | InvalidAudience | BadSignature | OtherKind.

Record Claims :=
  { sub : rstr; c_roles : list rstr; c_tenant : option rstr; c_permissions : list rstr; c_scopes : list rstr;
    iss : rstr; aud : rstr; jti : rstr; iat : N; exp : N }.

Record Header := { h_alg : Algorithm; kid : option rstr }.

(** The fields of a [Validation] that the code sets; [exp] is always checked. *)
Record Validation := { v_alg : Algorithm; leeway : N; v_issuer : rstr; v_audience : rstr }.

Class JwtLib :=
  { DecodingKey : Type;
    from_secret : list N → DecodingKey;
    decode_header : rstr → result ErrorKind Header;
    encode : Header → Claims → list N → result rstr rstr;
    (** the last argument is the time in seconds *)
    decode : rstr → DecodingKey → Validation → N → result ErrorKind Claims;
    (** the provider's key sets *)
    JwkSet : Type;
    Jwk : Type;
    find_jwk : JwkSet → rstr → option Jwk;
    from_jwk : Jwk → option DecodingKey }.

(** What the crate documents: a token made with a key decodes under that key, algorithm,
    issuer and audience until it has expired for longer than the leeway; and what decodes
    has the issuer and audience asked for and has not expired. *)
Class JwtLaws (J : JwtLib) :=
  { decode_header_encode h c secret t : encode h c secret = Ok t → decode_header t = Ok h;
    decode_encode h c secret t v now : encode h c secret = Ok t → v_alg v = h_alg h →
      v_issuer v = iss c → v_audience v = aud c →
      decode t (from_secret secret) v now = if now <=? exp c + leeway v then Ok c else Err ExpiredSignature;
    decode_checked t k v now c : decode t k v now = Ok c →
      iss c = v_issuer v ∧ aud c = v_audience v ∧ now ≤ exp c + leeway v ∧
      ∃ h, decode_header t = Ok h ∧ h_alg h = v_alg v }.

Section auth.
Context {J : JwtLib}.

Definition map_jwt_error (k : ErrorKind) : AuthError :=
  match k with
  | ExpiredSignature => Expired
  | InvalidIssuer => WrongIssuer
  | InvalidAudience => WrongAudience
  | BadSignature => InvalidSignature
  | OtherKind => Malformed
  end.

Definition principal_of_claims (c : Claims) : AuthPrincipal :=
  {| p_subject := sub c; p_roles := c_roles c; p_tenant := c_tenant c; p_permissions := c_permissions c;
     p_scopes := c_scopes c; p_token_id := Some (jti c); p_issuer := Some (iss c) |}.

(** ** Tokens of the configuration *)

Record JwtKey := { jk_id : rstr; jk_secret : rstr }.
Record JwtConfig :=
  { jwt_keys : list JwtKey; jwt_active_key_id : rstr; jwt_issuer : rstr; jwt_audience : rstr;
    jwt_expiration_secs : N; jwt_clock_skew_secs : N; revoked_token_ids : list rstr }.

Definition find_key (id : rstr) (config : JwtConfig) : option JwtKey :=
  List.find (λ k, str_eqb (jk_id k) id) (jwt_keys config).

(** The addition of [u64] wraps in a release build. *)
Definition stamped (claims : Claims) (config : JwtConfig) (now : N) : Claims :=
  {| sub := sub claims; c_roles := c_roles claims; c_tenant := c_tenant claims; c_permissions := c_permissions claims;
     c_scopes := c_scopes claims; iss := jwt_issuer config; aud := jwt_audience config; jti := jti claims;
     iat := now; exp := wrap 64 (now + jwt_expiration_secs config) |}.

Definition issue_token (claims : Claims) (config : JwtConfig) (now : N) : result rstr rstr :=
  match find_key (jwt_active_key_id config) config with
  | None => Err (lit "active JWT key '" ++ jwt_active_key_id config ++ lit "' not found")
  | Some key => encode {| h_alg := HS256; kid := Some (jk_id key) |} (stamped claims config now) (as_bytes (jk_secret key))
  end.

Definition check_revoked (revoked : list rstr) (c : Claims) : result AuthError Claims :=
  if str_in revoked (jti c) then Err Revoked else Ok c.

Definition verify_token_typed (token : rstr) (config : JwtConfig) (now : N) : result AuthError Claims :=
  header ← map_err map_jwt_error (decode_header token);
  key_id ← ok_or (kid header) UnknownKey;
  key ← ok_or (find_key key_id config) UnknownKey;
  claims ← map_err map_jwt_error
             (decode token (from_secret (as_bytes (jk_secret key)))
                {| v_alg := HS256; leeway := jwt_clock_skew_secs config; v_issuer := jwt_issuer config;
                   v_audience := jwt_audience config |} now);
  check_revoked (revoked_token_ids config) claims.

(** [LocalJwtVerifier::verify] *)
Definition local_verify (token : rstr) (config : JwtConfig) (now : N) : result AuthError AuthPrincipal :=
  principal_of_claims <$> verify_token_typed token config now.

Definition extract_bearer_token (header_value : rstr) : option rstr :=
  opt_or (strip_prefix (lit "Bearer ") header_value) (strip_prefix (lit "bearer ") header_value).

(** ** The discovery document of a provider *)

Record OidcDiscoveryDocument :=
  { d_issuer : rstr; authorization_endpoint : rstr; token_endpoint : rstr; jwks_uri : rstr }.

Definition document_validate (d : OidcDiscoveryDocument) (expected_issuer : rstr) : result rstr unit :=
  if negb (str_eqb (d_issuer d) expected_issuer) then Err (lit "OIDC issuer does not match configured issuer")
  else if existsb (λ endpoint, negb (https endpoint)) [authorization_endpoint d; token_endpoint d; jwks_uri d]
  then Err (lit "OIDC endpoints must use HTTPS")
  else Ok tt.

Record OidcProviderConfig :=
  { o_issuer : rstr; discovery_url : rstr; request_timeout : N; cache_ttl : N; stale_ttl : N }.

Definition MAX_CACHED_OIDC_PROVIDERS : N := 32.
Definition MAX_CACHED_JWKS_DOCUMENTS : N := 32.

Definition discovery_key (config : OidcProviderConfig) : rstr := o_issuer config ++ [10] ++ discovery_url config.

Section network.
(** What a request to a URL at a time answers, and when. *)
Context (get_document : rstr → N → result rstr OidcDiscoveryDocument * N)
        (get_jwks : rstr → N → option JwkSet * N)
        (unix_secs : N → N).

Definition discover (config : OidcProviderConfig) (now : N) (cached : cache OidcDiscoveryDocument)
    : result rstr OidcDiscoveryDocument * N * cache OidcDiscoveryDocument :=
  if negb (https (discovery_url config)) then (Err (lit "OIDC discovery URL must use HTTPS"), now, cached)
  else if stale_ttl config <? cache_ttl config
  then (Err (lit "OIDC stale TTL must not be shorter than cache TTL"), now, cached)
  else
    let key := discovery_key config in
    match cache_read (cache_ttl config) now key cached with
    | Some document => (Ok document, now, cached)
    | None =>
        let '(answer, now) := get_document (discovery_url config) now in
        let fetched := document ← answer; _ ← document_validate document (o_issuer config); Ok document in
        match fetched with
        | Ok document => (Ok document, now, cache_store MAX_CACHED_OIDC_PROVIDERS key document now cached)
        | Err error =>
            match cache_read (stale_ttl config) now key cached with
            | Some document => (Ok document, now, cached)
            | None => (Err error, now, cached)
            end
        end
    end.

(** ** Tokens of an identity provider *)

Record OidcJwtVerifierConfig :=
  { provider : OidcProviderConfig; audience : rstr; clock_skew : N; jwks_cache_ttl : N; jwks_stale_ttl : N;
    allowed_algorithms : list Algorithm; v_revoked : list rstr }.

Definition OidcJwtVerifier_new (c : OidcJwtVerifierConfig) : result rstr OidcJwtVerifierConfig :=
  if str_is_empty (trim (audience c)) then Err (lit "OIDC audience must not be empty")
  else if jwks_stale_ttl c <? jwks_cache_ttl c then Err (lit "OIDC JWKS stale TTL must not be shorter than cache TTL")
  else if bool_decide (allowed_algorithms c = []) || bool_decide (HS256 ∈ allowed_algorithms c)
  then Err (lit "OIDC must use an explicit asymmetric signing algorithm")
  else Ok c.

Record OidcCaches := { documents : cache OidcDiscoveryDocument; key_sets : cache JwkSet }.

Definition load_jwks (c : OidcJwtVerifierConfig) (uri : rstr) (force_refresh : bool) (now : N) (jwks : cache JwkSet)
    : result AuthError JwkSet * N * cache JwkSet :=
  match (if force_refresh then None else cache_read (jwks_cache_ttl c) now uri jwks) with
  | Some set => (Ok set, now, jwks)
  | None =>
      let '(fetched, now) := get_jwks uri now in
      match fetched with
      | Some set => (Ok set, now, cache_store MAX_CACHED_JWKS_DOCUMENTS uri set now jwks)
      | None =>
          match cache_read (jwks_stale_ttl c) now uri jwks with
          | Some set => (Ok set, now, jwks)
          | None => (Err ProviderUnavailable, now, jwks)
          end
      end
  end.

Definition decoding_key (c : OidcJwtVerifierConfig) (uri key_id : rstr) (now : N) (jwks : cache JwkSet)
    : result AuthError DecodingKey * N * cache JwkSet :=
  match load_jwks c uri false now jwks with
  | (Err e, now, jwks) => (Err e, now, jwks)
  | (Ok current, now, jwks) =>
      match find_jwk current key_id with
      | Some key => (ok_or (from_jwk key) UnknownKey, now, jwks)
      | None =>
          let '(refreshed, now, jwks) := load_jwks c uri true now jwks in
          (refreshed ← refreshed; key ← ok_or (find_jwk refreshed key_id) UnknownKey;
           ok_or (from_jwk key) UnknownKey, now, jwks)
      end
  end.

Definition oidc_validation (c : OidcJwtVerifierConfig) (alg : Algorithm) : Validation :=
  {| v_alg := alg; leeway := clock_skew c / 1000000000; v_issuer := o_issuer (provider c); v_audience := audience c |}.

(** [OidcJwtVerifier::verify] *)
Definition oidc_verify (c : OidcJwtVerifierConfig) (token : rstr) (now : N) (s : OidcCaches)
    : result AuthError AuthPrincipal * N * OidcCaches :=
  match (header ← map_err map_jwt_error (decode_header token);
         key_id ← ok_or (kid header) UnknownKey;
         if bool_decide (h_alg header ∈ allowed_algorithms c) then Ok (header, key_id) else Err InvalidSignature) with
  | Err e => (Err e, now, s)
  | Ok (header, key_id) =>
      match discover (provider c) now (documents s) with
      | (Err _, now, docs) => (Err ProviderUnavailable, now, {| documents := docs; key_sets := key_sets s |})
      | (Ok document, now, docs) =>
          let '(key, now, jwks) := decoding_key c (jwks_uri document) key_id now (key_sets s) in
          (key ← key;
           claims ← map_err map_jwt_error (decode token key (oidc_validation c (h_alg header)) (unix_secs now));
           principal_of_claims <$> check_revoked (v_revoked c) claims,
           now, {| documents := docs; key_sets := jwks |})
      end
  end.
End network.
End auth.

(** ** The caches *)

Lemma cache_read_Some {A} (ttl now : N) (key : rstr) (c : cache A) (a : A) :
  cache_read ttl now key c = Some a ↔ ∃ t, c !! key = Some (a, t) ∧ now - t ≤ ttl.
Proof.
  unfold cache_read. destruct (c !! key) as [[b t]|]; cbn; [|by split; [|intros (? & ? & _)]].
  destruct (now - t <=? ttl) eqn:E; guard_prop.
  - split; [intros [= ->]; eauto|by intros (? & [= -> ->] & _)].
  - split; [done|]. intros (? & [= -> ->] & ?). lia.
Qed.

Lemma cache_store_lookup {A} (m : N) (key : rstr) (a : A) (now : N) (c : cache A) (k : rstr) (e : A * N) :
  cache_store m key a now c !! k = Some e → (k = key ∧ e = (a, now)) ∨ c !! k = Some e.
Proof.
  unfold cache_store. intros He. destruct (decide (key = k)) as [->|Hne].
  - rewrite lookup_insert_eq in He. injection He as <-. by left.
  - rewrite lookup_insert_ne in He by done. right. revert He. destruct (_ && _); [|done]. destruct (oldest c) as [k'|]; [|done].
    intros [_ He]%lookup_delete_Some. done.
Qed.

Lemma oldest_Some {A} (c : cache A) : c ≠ ∅ → ∃ k, oldest c = Some k ∧ is_Some (c !! k).
Proof.
  intros Hc. unfold oldest.
  assert (∀ (l : list (rstr * (A * N))) best, l ≠ [] ∨ is_Some best →
    (∀ kv, kv ∈ l → c !! kv.1 = Some kv.2) → (∀ b, best = Some b → c !! b.1 = Some b.2) →
    ∃ kv, foldl (λ best kv, match best with Some b => if b.2.2 <=? kv.2.2 then best else Some kv | None => Some kv end) best l
          = Some kv ∧ c !! kv.1 = Some kv.2) as Hf.
  { induction l as [|kv l IH]; intros best Hb Hl Hbest.
    - destruct Hb as [?|[b ->]]; [done|]. exists b. auto.
    - cbn [foldl]. apply IH; [right; by destruct best as [b|]; [destruct (_ <=? _)|]; eauto|intros; apply Hl; by right|].
      intros b Hb'. destruct best as [b0|]; [destruct (b0.2.2 <=? kv.2.2)|]; simplify_eq; auto; apply Hl; by left. }
  destruct (Hf (map_to_list c) None) as (kv & -> & Hkv); [left; by rewrite map_to_list_empty_iff|intros [k e]; apply elem_of_map_to_list|done|].
  exists kv.1. by rewrite Hkv.
Qed.

Lemma cache_store_size {A} (m : N) (key : rstr) (a : A) (now : N) (c : cache A) :
  0 < m → N.of_nat (size c) ≤ m → N.of_nat (size (cache_store m key a now c)) ≤ m.
Proof.
  intros Hm Hc. unfold cache_store. destruct (c !! key) as [e|] eqn:E; cbn [is_some negb].
  - rewrite andb_false_r, map_size_insert_Some by eauto. done.
  - rewrite andb_true_r. destruct (m <=? N.of_nat (size c)) eqn:Ef; guard_prop.
    + destruct (oldest_Some c) as (k & -> & [ek Hk]).
      { intros ->. rewrite map_size_empty in Ef. lia. }
      rewrite map_size_insert, map_size_delete, Hk. destruct (delete k c !! key); cbn; lia.
    + rewrite map_size_insert, E. cbn. lia.
Qed.

Section theorems.
Context {J : JwtLib} {JL : JwtLaws J}.

Lemma find_key_id id (config : JwtConfig) k : find_key id config = Some k → jk_id k = id.
Proof. intros [_ H]%List.find_some. by apply str_eqb_eq. Qed.

(** C26: A token that was issued verifies. Under any configuration with the same issuer
    and audience that still has the key it was signed with, a token is accepted with
    its claims until it has been expired for longer than the clock skew, unless its
    identifier is revoked; without the key, it is refused for its key. *)
Theorem issued_token_verifies claims (config config' : JwtConfig) token now now' :
  issue_token claims config now = Ok token →
  jwt_issuer config' = jwt_issuer config → jwt_audience config' = jwt_audience config →
  (find_key (jwt_active_key_id config) config' = find_key (jwt_active_key_id config) config →
   verify_token_typed token config' now' =
     if now' <=? wrap 64 (now + jwt_expiration_secs config) + jwt_clock_skew_secs config'
     then (if str_in (revoked_token_ids config') (jti claims) then Err Revoked else Ok (stamped claims config now))
     else Err Expired) ∧
  (find_key (jwt_active_key_id config) config' = None → verify_token_typed token config' now' = Err UnknownKey).
Proof.
  intros Ht Hi Ha. unfold issue_token in Ht.
  destruct (find_key (jwt_active_key_id config) config) as [key|] eqn:Ek; [|done].
  pose proof (find_key_id _ _ _ Ek) as Hid. pose proof (decode_header_encode _ _ _ _ Ht) as Hh.
  unfold verify_token_typed. rewrite Hh. cbn [map_err mbind result_bind kid ok_or]. rewrite Hid. split; intros Hk.
  - rewrite Hk. cbn [ok_or mbind result_bind].
    rewrite (decode_encode _ _ _ _ {| v_alg := HS256; leeway := jwt_clock_skew_secs config'; v_issuer := jwt_issuer config';
                                      v_audience := jwt_audience config' |} now' Ht) by done.
    cbn [leeway exp stamped]. by destruct (_ <=? _).
  - by rewrite Hk.
Qed.

Section provider.
Context (get_document : rstr → N → result rstr OidcDiscoveryDocument * N)
        (get_jwks : rstr → N → option JwkSet * N) (unix_secs : N → N).
Context (c : OidcJwtVerifierConfig).

(** What the provider answered at some time, and is good. *)
Definition served_document (d : OidcDiscoveryDocument) (t : N) : Prop :=
  (∃ t0, get_document (discovery_url (provider c)) t0 = (Ok d, t)) ∧
  document_validate d (o_issuer (provider c)) = Ok tt ∧ https (discovery_url (provider c)) = true.
Definition served_keys (uri : rstr) (set : JwkSet) (t : N) : Prop := ∃ t0, get_jwks uri t0 = (Some set, t).

Record caches_served (s : OidcCaches) : Prop :=
  { cs_documents : ∀ k d t, documents s !! k = Some (d, t) → k = discovery_key (provider c) → served_document d t;
    cs_keys : ∀ uri set t, key_sets s !! uri = Some (set, t) → served_keys uri set t;
    cs_documents_size : N.of_nat (size (documents s)) ≤ MAX_CACHED_OIDC_PROVIDERS;
    cs_keys_size : N.of_nat (size (key_sets s)) ≤ MAX_CACHED_JWKS_DOCUMENTS }.

Hypothesis document_time : ∀ url t, t ≤ (get_document url t).2.
Hypothesis jwks_time : ∀ url t, t ≤ (get_jwks url t).2.

Lemma validated_document d t0 t a :
  get_document (discovery_url (provider c)) t0 = (a, t) →
  (document ← a; _ ← document_validate document (o_issuer (provider c)); Ok document) = Ok d →
  https (discovery_url (provider c)) = true → served_document d t.
Proof.
  intros Hg Hv Hu. destruct a as [d'|]; [|done]. cbn [mbind result_bind] in Hv.
  destruct (document_validate d' _) as [[]|] eqn:E; [|done]. cbn in Hv. injection Hv as <-. split; [eauto|]. done.
Qed.

Lemma discover_served now s out now' docs :
  caches_served s → discover get_document (provider c) now (documents s) = (out, now', docs) →
  now ≤ now' ∧ caches_served {| documents := docs; key_sets := key_sets s |} ∧
  ∀ d, out = Ok d → ∃ t, served_document d t ∧ now - t ≤ stale_ttl (provider c).
Proof.
  intros Hs. unfold discover. destruct (https (discovery_url (provider c))) eqn:Eu; cbn [negb].
  2: { intros [= <- <- <-]. split; [done|]. split; [by destruct s|done]. }
  destruct (stale_ttl (provider c) <? cache_ttl (provider c)) eqn:Et; guard_prop.
  1: { intros [= <- <- <-]. split; [done|]. split; [by destruct s|done]. }
  destruct (cache_read (cache_ttl _) now _ (documents s)) as [d|] eqn:Er.
  { intros [= <- <- <-]. split; [done|]. split; [by destruct s|]. intros d' [= ->].
    apply cache_read_Some in Er as (t & Hl & Hage). exists t. split; [by eapply cs_documents|lia]. }
  pose proof (document_time (discovery_url (provider c)) now) as Htime.
  destruct (get_document _ now) as [a t] eqn:Eg. cbn [snd] in Htime.
  destruct (document ← a; _) as [d|e] eqn:Ef.
  - intros [= <- <- <-]. pose proof (validated_document _ _ _ _ Eg Ef Eu) as Hserved. split; [done|]. split.
    + destruct Hs as [Hd Hk Hds Hks]. split; [|done|by apply cache_store_size|done].
      intros k d' t' [[-> [= -> ->]]|Hl]%cache_store_lookup Hkey; [done|by eapply Hd].
    + intros d' [= <-]. exists t. split; [done|lia].
  - destruct (cache_read (stale_ttl _) t _ (documents s)) as [d|] eqn:Er'; intros [= <- <- <-];
      (split; [done|]; split; [by destruct s|]); [|done]. intros d' [= ->].
    apply cache_read_Some in Er' as (t1 & Hl & Hage). exists t1. split; [by eapply cs_documents|lia].
Qed.

Lemma load_served uri force now s out now' jwks :
  jwks_cache_ttl c ≤ jwks_stale_ttl c →
  caches_served s → load_jwks get_jwks c uri force now (key_sets s) = (out, now', jwks) →
  now ≤ now' ∧ caches_served {| documents := documents s; key_sets := jwks |} ∧
  ∀ set, out = Ok set → ∃ t, served_keys uri set t ∧ now - t ≤ jwks_stale_ttl c.
Proof.
  intros Httl Hs. unfold load_jwks.
  destruct (if force then None else cache_read _ now uri (key_sets s)) as [set|] eqn:Er.
  { destruct force; [done|]. intros [= <- <- <-]. split; [done|]. split; [by destruct s|]. intros set' [= ->].
    apply cache_read_Some in Er as (t & Hl & Hage). exists t. split; [by eapply cs_keys|lia]. }
  pose proof (jwks_time uri now) as Htime. destruct (get_jwks uri now) as [a t] eqn:Eg. cbn [snd] in Htime. clear Er.
  destruct a as [set|].
  - intros [= <- <- <-]. assert (served_keys uri set t) as Hserved by (by exists now). split; [done|]. split.
    + destruct Hs as [Hd Hk Hds Hks]. split; [done| |done|by apply cache_store_size].
      intros k d' t' [[-> [= -> ->]]|Hl]%cache_store_lookup; [done|by eapply Hk].
    + intros d' [= <-]. exists t. split; [done|lia].
  - destruct (cache_read (jwks_stale_ttl _) t _ (key_sets s)) as [set|] eqn:Er'; intros [= <- <- <-];
      (split; [done|]; split; [by destruct s|]); [|done]. intros d' [= ->].
    apply cache_read_Some in Er' as (t1 & Hl & Hage). exists t1. split; [by eapply cs_keys|lia].
Qed.

Lemma decoding_key_served uri id now s out now' jwks :
  jwks_cache_ttl c ≤ jwks_stale_ttl c →
  caches_served s → decoding_key get_jwks c uri id now (key_sets s) = (out, now', jwks) →
  now ≤ now' ∧ caches_served {| documents := documents s; key_sets := jwks |} ∧
  ∀ key, out = Ok key → ∃ set jwk t,
    served_keys uri set t ∧ now - t ≤ jwks_stale_ttl c ∧ find_jwk set id = Some jwk ∧ from_jwk jwk = Some key.
Proof.
  intros Httl Hs. unfold decoding_key.
  destruct (load_jwks get_jwks c uri false now (key_sets s)) as [[cur now1] jwks1] eqn:E1.
  destruct (load_served _ _ _ _ _ _ _ Httl Hs E1) as (Hn1 & Hs1 & Hc1).
  destruct cur as [set|e]; [|intros [= <- <- <-]; done].
  destruct (Hc1 set eq_refl) as (t & Hset & Hage).
  destruct (find_jwk set id) as [jwk|] eqn:Ef.
  { intros [= <- <- <-]. split; [done|]. split; [done|]. intros key Hk. exists set, jwk, t.
    split; [done|]. split; [done|]. split; [done|]. destruct (from_jwk jwk); by simplify_eq/=. }
  destruct (load_jwks get_jwks c uri true now1 jwks1) as [[ref now2] jwks2] eqn:E2.
  destruct (load_served _ _ _ {| documents := documents s; key_sets := jwks1 |} _ _ _ Httl Hs1 E2) as (Hn2 & Hs2 & Hc2).
  intros [= <- <- <-]. split; [lia|]. split; [done|]. intros key Hk. destruct ref as [set2|]; [|done].
  destruct (Hc2 set2 eq_refl) as (t2 & Hset2 & Hage2). cbn [mbind result_bind] in Hk.
  destruct (find_jwk set2 id) as [jwk|] eqn:Ef2; [|done]. cbn [ok_or mbind result_bind] in Hk.
  exists set2, jwk, t2. split; [done|]. split; [lia|]. split; [done|]. destruct (from_jwk jwk); by simplify_eq/=.
Qed.

(** A key the provider has taken in since the cached set was fetched is found at once. *)
Lemma rotated_key_found uri id now jwks set jwk :
  (∀ t, now ≤ t → (get_jwks uri t).1 = Some set) → find_jwk set id = Some jwk →
  (∀ old t, jwks !! uri = Some (old, t) → find_jwk old id = None) →
  (decoding_key get_jwks c uri id now jwks).1.1 = ok_or (from_jwk jwk) UnknownKey.
Proof.
  intros Hnet Hfind Hold.
  assert (∀ t0 jwks0 force, now ≤ t0 → (force = false → cache_read (jwks_cache_ttl c) t0 uri jwks0 = None) →
    ∃ t1 jwks1, load_jwks get_jwks c uri force t0 jwks0 = (Ok set, t1, jwks1)) as Hload.
  { intros t0 jwks0 force Ht Hmiss. unfold load_jwks. specialize (Hnet t0 Ht).
    destruct (get_jwks uri t0) as [a t1]. cbn in Hnet. subst a.
    destruct force; [eauto|]. rewrite Hmiss by done. eauto. }
  unfold decoding_key. destruct (cache_read (jwks_cache_ttl c) now uri jwks) as [old|] eqn:Er.
  - apply cache_read_Some in Er as (t & Hl & Hage).
    assert (load_jwks get_jwks c uri false now jwks = (Ok old, now, jwks)) as ->.
    { unfold load_jwks. by rewrite (proj2 (cache_read_Some _ _ _ _ old)) by eauto. }
    rewrite (Hold old t Hl). destruct (Hload now jwks true) as (t1 & jwks1 & ->); [lia|done|].
    cbn [fst mbind result_bind]. by rewrite Hfind.
  - destruct (Hload now jwks false) as (t1 & jwks1 & ->); [lia|done|]. by rewrite Hfind.
Qed.

(** Verifications one after the other, each of a token at a time. *)
Definition oidc_run (calls : list (rstr * N)) : OidcCaches :=
  foldl (λ s call, (oidc_verify get_document get_jwks unix_secs c call.1 call.2 s).2)
    {| documents := ∅; key_sets := ∅ |} calls.

Lemma oidc_verify_served token now s out now' s' :
  jwks_cache_ttl c ≤ jwks_stale_ttl c → caches_served s →
  oidc_verify get_document get_jwks unix_secs c token now s = (out, now', s') →
  caches_served s' ∧ ∀ p, out = Ok p → ∃ h id d td set jwk ts key claims,
    decode_header token = Ok h ∧ kid h = Some id ∧ h_alg h ∈ allowed_algorithms c ∧
    served_document d td ∧ now - td ≤ stale_ttl (provider c) ∧
    served_keys (jwks_uri d) set ts ∧ now - ts ≤ jwks_stale_ttl c ∧
    find_jwk set id = Some jwk ∧ from_jwk jwk = Some key ∧
    decode token key (oidc_validation c (h_alg h)) (unix_secs now') = Ok claims ∧
    jti claims ∉ v_revoked c ∧ p = principal_of_claims claims.
Proof.
  intros Httl Hs. unfold oidc_verify. destruct (decode_header token) as [h|k]; [|by intros [= <- <- <-]].
  cbn [map_err mbind result_bind]. destruct (kid h) as [id|] eqn:Ek; [|by intros [= <- <- <-]]. cbn [ok_or mbind result_bind].
  case_bool_decide as Ha; [|by intros [= <- <- <-]].
  destruct (discover get_document (provider c) now (documents s)) as [[dout now1] docs] eqn:Ed.
  destruct (discover_served _ _ _ _ _ Hs Ed) as (Hn1 & Hs1 & Hd).
  destruct dout as [d|e]; [|by intros [= <- <- <-]]. destruct (Hd d eq_refl) as (td & Hdoc & Hdage).
  destruct (decoding_key get_jwks c (jwks_uri d) id now1 (key_sets s)) as [[kout now2] jwks] eqn:Ek2.
  destruct (decoding_key_served _ _ _ {| documents := docs; key_sets := key_sets s |} _ _ _ Httl Hs1 Ek2) as (Hn2 & Hs2 & Hk).
  intros [= <- <- <-]. split; [done|]. intros p Hp. destruct kout as [key|]; [|done].
  destruct (Hk key eq_refl) as (set & jwk & ts & Hset & Hage & Hfind & Hfrom). cbn [mbind result_bind] in Hp.
  destruct (decode token key _ _) as [claims|] eqn:Edec; [|done]. cbn [map_err mbind result_bind] in Hp.
  unfold check_revoked in Hp. destruct (str_in (v_revoked c) (jti claims)) eqn:Er; [done|]. cbn in Hp. injection Hp as <-.
  exists h, id, d, td, set, jwk, ts, key, claims. repeat (split; [done || lia|]). split; [|done].
  intros Hin%str_in_spec. congruence.
Qed.
End provider.

(** C27: The tokens of an identity provider are trusted only as configured. Whatever a
    verifier has verified and whatever the network answers, a token is accepted only
    with a key that the provider's keys have under the identifier the token names, the
    keys fetched from the address in a discovery document of the configured issuer,
    both over https and not older than the stale times; with an allowed algorithm
    other than HS256; with the configured issuer and audience, not expired and not
    revoked. And both caches stay within their bound. *)
Theorem oidc_accepts_trusted (get_document : rstr → N → result rstr OidcDiscoveryDocument * N)
    (get_jwks : rstr → N → option JwkSet * N) (unix_secs : N → N) (c : OidcJwtVerifierConfig)
    (calls : list (rstr * N)) (token : rstr) (now : N) :
  (∀ url t, t ≤ (get_document url t).2) → (∀ url t, t ≤ (get_jwks url t).2) →
  OidcJwtVerifier_new c = Ok c →
  let s := oidc_run get_document get_jwks unix_secs c calls in
  N.of_nat (size (documents s)) ≤ 32 ∧ N.of_nat (size (key_sets s)) ≤ 32 ∧
  match oidc_verify get_document get_jwks unix_secs c token now s with
  | (Ok p, now', _) => ∃ h id d td set jwk ts key claims,
      decode_header token = Ok h ∧ kid h = Some id ∧ h_alg h ∈ allowed_algorithms c ∧ h_alg h ≠ HS256 ∧
      served_document get_document c d td ∧ now - td ≤ stale_ttl (provider c) ∧
      served_keys get_jwks (jwks_uri d) set ts ∧ now - ts ≤ jwks_stale_ttl c ∧ https (jwks_uri d) = true ∧
      find_jwk set id = Some jwk ∧ from_jwk jwk = Some key ∧
      decode token key (oidc_validation c (h_alg h)) (unix_secs now') = Ok claims ∧
      iss claims = o_issuer (provider c) ∧ aud claims = audience c ∧
      unix_secs now' ≤ exp claims + clock_skew c / 1000000000 ∧
      jti claims ∉ v_revoked c ∧ p = principal_of_claims claims
  | _ => True
  end.
Proof.
  intros Hdt Hjt Hnew s. unfold OidcJwtVerifier_new in Hnew. destruct (str_is_empty _); [done|].
  destruct (jwks_stale_ttl c <? jwks_cache_ttl c) eqn:Ettl; guard_prop; [done|].
  destruct (_ || bool_decide (HS256 ∈ _)) eqn:Ealg; [done|]. apply orb_false_iff in Ealg as [_ Ealg%bool_decide_eq_false].
  assert (caches_served get_document get_jwks c s) as Hs.
  { unfold s, oidc_run. induction calls as [|call calls IH] using rev_ind.
    - split; cbn; [by intros ???; rewrite lookup_empty|by intros ???; rewrite lookup_empty|rewrite map_size_empty; lia..].
    - rewrite foldl_app. cbn [foldl]. destruct (oidc_verify _ _ _ _ call.1 call.2 _) as [[out now'] s'] eqn:E.
      by destruct (oidc_verify_served _ _ _ _ Hdt Hjt _ _ _ _ _ _ Ettl IH E). }
  split; [apply Hs|]. split; [apply Hs|].
  destruct (oidc_verify _ _ _ c token now s) as [[out now'] s'] eqn:E.
  destruct (oidc_verify_served _ _ _ _ Hdt Hjt _ _ _ _ _ _ Ettl Hs E) as [_ Hout]. destruct out as [p|]; [|done].
  destruct (Hout p eq_refl) as (h & id & d & td & set & jwk & ts & key & claims & Hh & Hid & Ha & Hd & Hda & Hset & Hage & Hf & Hk & Hdec & Hr & ->).
  destruct (decode_checked _ _ _ _ _ Hdec) as (Hiss & Haud & Hexp & _).
  exists h, id, d, td, set, jwk, ts, key, claims. repeat (split; [done || (by intros Heq; destruct Ealg; rewrite <- Heq)|]).
  split; [|by repeat (split; [done|])].
  destruct Hd as (_ & Hv & _). unfold document_validate in Hv. destruct (negb (str_eqb _ _)); [done|].
  destruct (https (jwks_uri d)) eqn:Eh; [done|]. exfalso. revert Hv. cbn [existsb]. rewrite Eh.
  by destruct (negb (https (authorization_endpoint d))), (negb (https (token_endpoint d))).
Qed.
End theorems.

(** ** The theorems at work *)

(** A token here is its header, claims and secret, written one after the other. *)
Definition claims_tuple (c : Claims) :=
  (sub c, c_roles c, c_tenant c, c_permissions c, c_scopes c, iss c, aud c, jti c, iat c, exp c).
Definition algorithm_code (a : Algorithm) : N :=
  match a with
  | HS256 => 0 | HS384 => 1 | HS512 => 2 | ES256 => 3 | ES384 => 4 | RS256 => 5 | RS384 => 6 | RS512 => 7
  | PS256 => 8 | PS384 => 9 | PS512 => 10 | EdDSA => 11
  end.
Definition code_algorithm (n : N) : Algorithm :=
  default EdDSA ([HS256; HS384; HS512; ES256; ES384; RS256; RS384; RS512; PS256; PS384; PS512; EdDSA] !! N.to_nat n).

Definition ex_encode (h : Header) (c : Claims) (secret : list N) : rstr :=
  [N.pos (countable.encode (algorithm_code (h_alg h), kid h, secret, claims_tuple c))].
Definition ex_decode (t : rstr) : option (Header * list N * Claims) :=
  match t with
  | [N.pos n] =>
      '(a, k, secret, (s, r, te, p, sc, i, au, j, ia, e)) ← countable.decode n;
      Some ({| h_alg := code_algorithm a; kid := k |}, secret,
            {| sub := s; c_roles := r; c_tenant := te; c_permissions := p; c_scopes := sc; iss := i; aud := au;
               jti := j; iat := ia; exp := e |})
  | _ => None
  end.

Lemma ex_decode_encode h c secret : ex_decode (ex_encode h c secret) = Some (h, secret, c).
Proof.
  unfold ex_decode, ex_encode. rewrite countable.decode_encode. destruct h as [a k], c. cbn. by destruct a.
Qed.

#[local] Instance ex_jwt : JwtLib :=
  {| DecodingKey := list N; from_secret := λ s, s;
     decode_header := λ t, match ex_decode t with Some (h, _, _) => Ok h | None => Err OtherKind end;
     encode := λ h c secret, Ok (ex_encode h c secret);
     decode := λ t k v now,
       match ex_decode t with
       | Some (h, secret, c) =>
           if negb (bool_decide (h_alg h = v_alg v)) then Err OtherKind
           else if negb (str_eqb secret k) then Err BadSignature
           else if negb (now <=? exp c + leeway v) then Err ExpiredSignature
           else if negb (str_eqb (iss c) (v_issuer v)) then Err InvalidIssuer
           else if negb (str_eqb (aud c) (v_audience v)) then Err InvalidAudience
           else Ok c
       | None => Err OtherKind
       end;
     JwkSet := list (rstr * list N); Jwk := list N;
     find_jwk := λ set id, snd <$> List.find (λ kv, str_eqb kv.1 id) set;
     from_jwk := Some |}.

#[local] Instance ex_jwt_laws : JwtLaws ex_jwt.
Proof.
  split; cbn [encode decode decode_header from_secret DecodingKey ex_jwt].
  - intros h c secret t [= <-]. by rewrite ex_decode_encode.
  - intros h c secret t v now [= <-] Ha Hi Hau. rewrite ex_decode_encode, bool_decide_eq_true_2, str_eqb_refl by done.
    cbn [negb]. rewrite Hi, Hau, !str_eqb_refl. by destruct (now <=? _).
  - intros t k v now c. destruct (ex_decode t) as [[[h secret] c0]|]; [|done].
    destruct (bool_decide (h_alg h = v_alg v)) eqn:E1; [|done]. cbn [negb].
    destruct (str_eqb secret k); [|done]. cbn [negb]. destruct (now <=? exp c0 + leeway v) eqn:E2; [|done]. cbn [negb].
    destruct (str_eqb (iss c0) _) eqn:E3; [|done]. destruct (str_eqb (aud c0) _) eqn:E4; [|done]. cbn [negb].
    intros [= <-]. guard_prop. apply str_eqb_eq in E3, E4. split; [done|]. split; [done|].
    split; [done|]. by exists h.
Qed.

Definition ex_claims : Claims :=
  {| sub := lit "user-1"; c_roles := [lit "admin"]; c_tenant := Some (lit "acme"); c_permissions := [lit "users:read"];
     c_scopes := []; iss := []; aud := []; jti := lit "token-1"; iat := 0; exp := 0 |}.
Definition ex_config (active : rstr) : JwtConfig :=
  {| jwt_keys := [{| jk_id := lit "old"; jk_secret := lit "s1" |}; {| jk_id := lit "new"; jk_secret := lit "s2" |}];
     jwt_active_key_id := active; jwt_issuer := lit "roze"; jwt_audience := lit "api"; jwt_expiration_secs := 60;
     jwt_clock_skew_secs := 5; revoked_token_ids := [] |}.

(** A token of the old key verifies after the new one has become active. *)
Lemma issued_token_verifies_witness :
  ∃ token, issue_token ex_claims (ex_config (lit "old")) 1000 = Ok token ∧
  verify_token_typed token (ex_config (lit "new")) 1065 = Ok (stamped ex_claims (ex_config (lit "old")) 1000) ∧
  verify_token_typed token (ex_config (lit "new")) 1066 = Err Expired.
Proof.
  set (t := ex_encode {| h_alg := HS256; kid := Some (lit "old") |} (stamped ex_claims (ex_config (lit "old")) 1000)
              (as_bytes (lit "s1"))).
  assert (issue_token ex_claims (ex_config (lit "old")) 1000 = Ok t) as Ht by reflexivity.
  exists t. split; [exact Ht|].
  destruct (issued_token_verifies _ _ (ex_config (lit "new")) _ _ 1065 Ht eq_refl eq_refl) as [H1 _].
  destruct (issued_token_verifies _ _ (ex_config (lit "new")) _ _ 1066 Ht eq_refl eq_refl) as [H2 _].
  rewrite H1, H2 by reflexivity. vm_compute. exact (conj eq_refl eq_refl).
Defined.

Definition ex_verifier : OidcJwtVerifierConfig :=
  {| provider := {| o_issuer := lit "https://id"; discovery_url := lit "https://id/d"; request_timeout := from_secs 1;
                    cache_ttl := from_secs 60; stale_ttl := from_secs 300 |};
     audience := lit "api"; clock_skew := 0; jwks_cache_ttl := from_secs 60; jwks_stale_ttl := from_secs 300;
     allowed_algorithms := [RS256]; v_revoked := [] |}.
Definition ex_document : OidcDiscoveryDocument :=
  {| d_issuer := lit "https://id"; authorization_endpoint := lit "https://id/a"; token_endpoint := lit "https://id/t";
     jwks_uri := lit "https://id/k" |}.
(** The provider rotates its key after ten seconds. *)
Definition ex_keys (now : N) : list (rstr * list N) :=
  if now <? from_secs 10 then [(lit "k1", [1])] else [(lit "k1", [1]); (lit "k2", [2])].
Definition ex_token (id : rstr) (secret : list N) : rstr :=
  ex_encode {| h_alg := RS256; kid := Some id |}
    {| sub := lit "u"; c_roles := []; c_tenant := None; c_permissions := []; c_scopes := []; iss := lit "https://id";
       aud := lit "api"; jti := lit "j"; iat := 0; exp := 1000 |} secret.

Definition ex_oidc (calls : list (rstr * N)) (token : rstr) (now : N) : result AuthError AuthPrincipal * N * OidcCaches :=
  oidc_verify (λ _ t, (Ok ex_document, t + 1)) (λ _ t, (Some (ex_keys t), t + 1)) (λ t, t / 1000000000) ex_verifier token now
    (oidc_run (λ _ t, (Ok ex_document, t + 1)) (λ _ t, (Some (ex_keys t), t + 1)) (λ t, t / 1000000000) ex_verifier calls).

Example ex_oidc_rotated :
  is_ok (ex_oidc [(ex_token (lit "k1") [1], 0)] (ex_token (lit "k2") [2]) (from_secs 20)).1.1 = true ∧
  (ex_oidc [(ex_token (lit "k1") [1], 0)] (ex_token (lit "k2") [2]) (from_secs 5)).1.1 = Err UnknownKey ∧
  (ex_oidc [] (ex_token (lit "k1") [2]) 0).1.1 = Err InvalidSignature.
Proof. vm_compute. done. Qed.

Definition ex_principal : AuthPrincipal :=
  {| p_subject := lit "u"; p_roles := []; p_tenant := None; p_permissions := []; p_scopes := [];
     p_token_id := Some (lit "j"); p_issuer := Some (lit "https://id") |}.

Lemma oidc_accepts_trusted_witness :
  (ex_oidc [(ex_token (lit "k1") [1], 0)] (ex_token (lit "k2") [2]) (from_secs 20)).1.1 = Ok ex_principal ∧
  ∃ claims, ex_principal = principal_of_claims claims ∧ iss claims = o_issuer (provider ex_verifier) ∧
            jti claims ∉ v_revoked ex_verifier.
Proof.
  assert ((ex_oidc [(ex_token (lit "k1") [1], 0)] (ex_token (lit "k2") [2]) (from_secs 20)).1.1 = Ok ex_principal) as Hp
    by (vm_compute; reflexivity).
  split; [exact Hp|]. unfold ex_oidc in Hp.
  destruct (oidc_accepts_trusted (J := ex_jwt) (λ _ t, (Ok ex_document, t + 1)) (λ _ t, (Some (ex_keys t), t + 1)) (λ t, t / 1000000000)
    ex_verifier [(ex_token (lit "k1") [1], 0)] (ex_token (lit "k2") [2]) (from_secs 20)) as (_ & _ & H);
    [intros; cbn [snd]; lia|intros; cbn [snd]; lia|reflexivity|].
  destruct (oidc_verify _ _ _ ex_verifier _ _ _) as [[out now'] s']. cbn [fst] in Hp. subst out.
  destruct H as (h & id & d & td & set & jwk & ts & key & claims & H). exists claims.
  destruct H as (_ & _ & _ & _ & _ & _ & _ & _ & _ & _ & _ & _ & Hi & _ & _ & Hj & He). exact (conj He (conj Hi Hj)).
Defined.

(** Only HS256 counts as symmetric. *)
Lemma symmetric_algorithm_accepted :
  OidcJwtVerifier_new {| provider := provider ex_verifier; audience := lit "api"; clock_skew := 0;
    jwks_cache_ttl := 0; jwks_stale_ttl := 0; allowed_algorithms := [HS512]; v_revoked := [] |} =
  Ok {| provider := provider ex_verifier; audience := lit "api"; clock_skew := 0;
    jwks_cache_ttl := 0; jwks_stale_ttl := 0; allowed_algorithms := [HS512]; v_revoked := [] |}.
Proof. reflexivity. Qed.
