(* ===== verification/ClientIp.v ===== *)
(** * Client addresses behind proxies (crates/roze-http/src/client_ip.rs)

    The address of the client from the peer of the connection and the chain of
    addresses its proxies forward. Addresses and their texts are the standard
    library's, with its parser; the networks of the [ipnet] crate are an interface. *)

From S2P Require Import Prelude Policy HttpTypes Text Scan.

(** ** Addresses of the standard library *)

Inductive IpAddr := V4 (a : N) | V6 (a : N).
#[export] Instance IpAddr_eq_dec : EqDecision IpAddr.
Proof. solve_decision. Defined.

(** [Ipv6Addr::to_ipv4_mapped] *)
Definition to_ipv4_mapped (a : N) : option N := if a / 2 ^ 32 =? 65535 then Some (a mod 2 ^ 32) else None.

Definition to_digit (radix c : N) : option N :=
  let d := if (48 <=? c) && (c <=? 57) then Some (c - 48)
           else if (97 <=? c) && (c <=? 102) then Some (c - 87)
           else if (65 <=? c) && (c <=? 70) then Some (c - 55) else None in
  d ← d; if d <? radix then Some d else None.

(** The digits at the front, as many as there are. *)
Fixpoint read_digits (radix : N) (s : rstr) : list N * rstr :=
  match s with
  | c :: s' => match to_digit radix c with
               | Some d => let '(ds, rest) := read_digits radix s' in (d :: ds, rest)
               | None => ([], s)
               end
  | [] => ([], [])
  end.

(** At most [max_digits] digits and a value of the width; no leading zero where none is allowed. *)
Definition read_number (radix : N) (max_digits : option nat) (allow_zero_prefix : bool) (mx : N) (s : rstr)
    : option (N * rstr) :=
  let '(ds, rest) := read_digits radix s in
  let value := foldl (λ n d, n * radix + d) 0 ds in
  if bool_decide (ds = []) || match max_digits with Some m => bool_decide (m < length ds)%nat | None => false end ||
     (negb allow_zero_prefix && bool_decide (1 < length ds)%nat && bool_decide (head ds = Some 0)) || (mx <? value)
  then None else Some (value, rest).

Definition read_given_char (c : N) (s : rstr) : option rstr :=
  match s with d :: s' => if d =? c then Some s' else None | [] => None end.

Definition read_separator {A} (c : N) (index : nat) (inner : rstr → option (A * rstr)) (s : rstr) : option (A * rstr) :=
  match index with O => inner s | _ => s ← read_given_char c s; inner s end.

Fixpoint read_octets (n index : nat) (acc : N) (s : rstr) : option (N * rstr) :=
  match n with
  | O => Some (acc, s)
  | S n' => '(o, s) ← read_separator 46 index (read_number 10 (Some 3%nat) false 255) s;
            read_octets n' (S index) (acc * 256 + o) s
  end.
Definition read_ipv4_addr (s : rstr) : option (N * rstr) := read_octets 4 0 0 s.

(** Groups of an IPv6 address, whether the last two are an IPv4 address, and the rest. *)
Fixpoint read_groups (n index : nat) (s : rstr) : list N * bool * rstr :=
  match n with
  | O => ([], false, s)
  | S n' =>
      match (if bool_decide (n' = 0%nat) then None else read_separator 58 index read_ipv4_addr s) with
      | Some (a, s) => ([a / 65536; a mod 65536], true, s)
      | None =>
          match read_separator 58 index (read_number 16 (Some 4%nat) true 65535) s with
          | Some (g, s) => let '(gs, ipv4, s) := read_groups n' (S index) s in (g :: gs, ipv4, s)
          | None => ([], false, s)
          end
      end
  end.

Definition of_groups (gs : list N) : N := foldl (λ a g, a * 65536 + g) 0 gs.

Definition read_ipv6_addr (s : rstr) : option (N * rstr) :=
  let '(head, ipv4, s) := read_groups 8 0 s in
  if bool_decide (length head = 8%nat) then Some (of_groups head, s)
  else if ipv4 then None
  else
    s ← read_given_char 58 s; s ← read_given_char 58 s;
    let '(tail, _, s) := read_groups (7 - length head) 0 s in
    Some (of_groups (head ++ replicate (8 - length head - length tail) 0 ++ tail), s).

(** [str::parse]: the whole text is read. *)
Definition parse_with {A} (p : rstr → option (A * rstr)) (s : rstr) : option A :=
  '(a, rest) ← p s; match rest with [] => Some a | _ => None end.

Definition read_ip_addr (s : rstr) : option (IpAddr * rstr) :=
  match read_ipv4_addr s with
  | Some (a, s) => Some (V4 a, s)
  | None => '(a, s) ← read_ipv6_addr s; Some (V6 a, s)
  end.
Definition parse_ip_addr (s : rstr) : option IpAddr := parse_with read_ip_addr s.

Definition read_port (s : rstr) : option (N * rstr) :=
  s ← read_given_char 58 s; read_number 10 None true 65535 s.

(** Of a socket address only the address is used. *)
Definition read_socket_addr (s : rstr) : option (IpAddr * rstr) :=
  match ('(a, s) ← read_ipv4_addr s; '(_, s) ← read_port s; Some (V4 a, s)) with
  | Some r => Some r
  | None =>
      s ← read_given_char 91 s;
      '(a, s) ← read_ipv6_addr s;
      let s := match (s ← read_given_char 37 s; read_number 10 None true U32_MAX s) with
               | Some (_, s) => s
               | None => s
               end in
      s ← read_given_char 93 s;
      '(_, s) ← read_port s;
      Some (V6 a, s)
  end.
Definition parse_socket_addr (s : rstr) : option IpAddr := parse_with read_socket_addr s.

(** ** The [ipnet] crate *)

Class IpNetLib :=
  { IpNet : Type; ipnet_from_str : rstr → option IpNet; ipnet_contains : IpNet → IpAddr → bool }.

Section client_ip.
Context {I : IpNetLib} {L : HttpLib}.

Definition normalize_ip (a : IpAddr) : IpAddr :=
  match a with
  | V6 n => match to_ipv4_mapped n with Some m => V4 m | None => V6 n end
  | V4 n => V4 n
  end.

Definition parse_forwarded_ip (value : rstr) : option IpAddr :=
  if str_is_empty value || eq_ignore_ascii_case value (lit "unknown") then None
  else
    let value := trim_matches (N.eqb 34) value in
    match parse_ip_addr value with
    | Some a => Some (normalize_ip a)
    | None =>
        match parse_socket_addr value with
        | Some a => Some (normalize_ip a)
        | None =>
            bracketed ← (fst <$> (strip_prefix (lit "[") value ≫= split_once (lit "]")));
            normalize_ip <$> parse_ip_addr bracketed
        end
    end.

Definition parse_forwarded_chain (value : rstr) : option (list IpAddr) :=
  mapM (λ part, parse_forwarded_ip (trim part)) (split_commas value).

(** [TrustedProxyConfig] *)
Definition TrustedProxyConfig_new (networks : list rstr) : result rstr (list IpNet) :=
  collect (λ value, let value := trim value in
                    ok_or (ipnet_from_str value) (lit "trusted proxy CIDR `" ++ value ++ lit "` is invalid")) networks.

Definition is_trusted (networks : list IpNet) (a : IpAddr) : bool := existsb (λ n, ipnet_contains n a) networks.

(** The loop over the reversed chain: the first address that is not trusted, or else the last seen. *)
Fixpoint select_client (networks : list IpNet) (selected : IpAddr) (l : list IpAddr) : IpAddr :=
  match l with
  | [] => selected
  | a :: l' => if is_trusted networks a then select_client networks a l' else a
  end.

Definition resolve (networks : list IpNet) (peer : IpAddr) (h : list (rstr * HeaderValue)) : IpAddr :=
  let peer_ip := normalize_ip peer in
  if negb (is_trusted networks peer_ip) then peer_ip
  else
    match h_get (lit "x-forwarded-for") h with
    | None => peer_ip
    | Some value =>
        match to_str value with
        | None => peer_ip
        | Some value =>
            match parse_forwarded_chain value with
            | None => peer_ip
            | Some chain => if bool_decide (chain = []) then peer_ip
                            else select_client networks peer_ip (reverse (chain ++ [peer_ip]))
            end
        end
    end.
End client_ip.

Example ex_addresses :
  parse_forwarded_ip (lit "198.51.100.8") = Some (V4 3325256712) ∧
  parse_forwarded_ip (lit "::ffff:198.51.100.8") = Some (V4 3325256712) ∧
  parse_forwarded_ip (lit "[2001:db8::1]:8080") = Some (V6 42540766411282592856903984951653826561) ∧
  parse_forwarded_ip (lit "[::1]junk") = Some (V6 1) ∧
  parse_forwarded_ip (lit "198.51.100.08") = None ∧ parse_forwarded_ip (lit "1:2:3:4:5:6:7:8:9") = None ∧
  parse_forwarded_ip (lit "1::2::3") = None ∧ parse_forwarded_ip (lit "1.2.3.4:99999") = None.
Proof. vm_compute. done. Qed.

(** ** What a client can make of it *)

Lemma split_on_nonempty p x : split_on p x ≠ [].
Proof. destruct x as [|d x]; cbn; [done|]. destruct (p d); [done|]. by destruct (split_on p x). Qed.

Lemma split_on_cut p x c y : p c = true → split_on p (x ++ c :: y) = split_on p x ++ split_on p y.
Proof.
  intros Hc. induction x as [|d x IH]; cbn [app split_on]; [by rewrite Hc|].
  destruct (p d); [by rewrite IH|]. rewrite IH. destruct (split_on p x) eqn:E; [by destruct (split_on_nonempty p x)|done].
Qed.

Section chain.
Context {I : IpNetLib} {L : HttpLib}.

Lemma chain_join x y :
  parse_forwarded_chain (x ++ lit "," ++ y) =
  l ← parse_forwarded_chain x; l' ← parse_forwarded_chain y; Some (l ++ l').
Proof.
  unfold parse_forwarded_chain, split_commas. change (lit "," ++ y) with (44 :: y).
  rewrite split_on_cut by done. generalize (split_on (N.eqb 44) x) (split_on (N.eqb 44) y). intros l l'.
  induction l as [|a l IH]; cbn; [by destruct (mapM _ l')|]. destruct (parse_forwarded_ip (trim a)); cbn; [|done].
  rewrite IH. destruct (mapM _ l) as [k|]; cbn; [|done]. by destruct (mapM _ l').
Qed.

Lemma select_trusted networks d l l' :
  Forall (λ a, is_trusted networks a = true) l →
  select_client networks d (l ++ l') = select_client networks (default d (last l)) l'.
Proof.
  intros Hl. revert d. induction Hl as [|a l Ha Hl IH]; intros d; [done|]. cbn [app select_client]. rewrite Ha, IH.
  destruct l as [|b l]; [done|]. change (last (a :: b :: l)) with (last (b :: l)).
  destruct (last (b :: l)) eqn:E; [done|]. by apply last_None in E.
Qed.

(** A text the trusted proxies write: what they were sent, then the addresses they saw. *)
Definition forwarded (sent : option rstr) (seen : list rstr) : rstr :=
  join (lit ",") (match sent with Some s => s :: seen | None => seen end).

Lemma chain_seen seen addrs :
  seen ≠ [] → Forall2 (λ t a, parse_forwarded_chain t = Some [a]) seen addrs →
  parse_forwarded_chain (join (lit ",") seen) = Some addrs.
Proof.
  intros Hne Hs. induction Hs as [|t a seen addrs Ht Hs IH]; [done|].
  destruct seen as [|t' seen]; [inversion Hs; subst; exact Ht|].
  change (join (lit ",") (t :: t' :: seen)) with (t ++ lit "," ++ join (lit ",") (t' :: seen)).
  rewrite chain_join, Ht, IH by done. done.
Qed.

(** The last address that is not trusted, or the first of all. *)
Definition rightmost_untrusted (networks : list IpNet) (l : list IpAddr) (a : IpAddr) : Prop :=
  (∃ l1 l2, l = l1 ++ a :: l2 ∧ is_trusted networks a = false ∧ Forall (λ b, is_trusted networks b = true) l2) ∨
  (head l = Some a ∧ Forall (λ b, is_trusted networks b = true) l).

Lemma select_rightmost networks d l :
  l ≠ [] → rightmost_untrusted networks l (select_client networks d (reverse l)).
Proof.
  revert d. induction l as [|b l IH] using rev_ind; [done|]. intros d _. rewrite reverse_snoc. cbn [select_client].
  destruct (is_trusted networks b) eqn:Eb.
  - destruct (decide (l = [])) as [->|Hne]; [right; cbn; by rewrite Forall_singleton|].
    destruct (IH b Hne) as [(l1 & l2 & Hl & Ha & H2)|[Hh Hall]].
    + left. exists l1, (l2 ++ [b]). split; [rewrite Hl at 1; by rewrite <- app_assoc|]. split; [done|].
      apply Forall_app. by rewrite Forall_singleton.
    + right. split; [by destruct l|]. apply Forall_app. by rewrite Forall_singleton.
  - left. by exists l, [].
Qed.

(** A client cannot choose its address. A peer that is not trusted is the client
    whatever the header says; with a trusted peer and a well-formed chain the client is
    the last address of the chain that is not trusted, or its first; and when trusted
    proxies wrote down a client that is not trusted, whatever that client had sent can
    only make the answer fall back to the peer. *)
Theorem client_address_unforgeable networks peer (h : list (rstr * HeaderValue)) :
  (is_trusted networks (normalize_ip peer) = false → resolve networks peer h = normalize_ip peer) ∧
  (is_trusted networks (normalize_ip peer) = true → ∀ value, h_text (lit "x-forwarded-for") h = Some value →
   (parse_forwarded_chain value = None → resolve networks peer h = normalize_ip peer) ∧
   (∀ chain, parse_forwarded_chain value = Some chain →
      rightmost_untrusted networks (chain ++ [normalize_ip peer]) (resolve networks peer h)) ∧
   (∀ sent t a seen proxies, value = forwarded sent (t :: seen) →
      parse_forwarded_chain t = Some [a] → is_trusted networks a = false →
      Forall2 (λ t a, parse_forwarded_chain t = Some [a]) seen proxies →
      Forall (λ a, is_trusted networks a = true) proxies →
      resolve networks peer h = a ∨
      (resolve networks peer h = normalize_ip peer ∧ sent ≫= parse_forwarded_chain = None ∧ is_Some sent))).
Proof.
  unfold resolve, h_text. split; [by intros ->|]. intros Hp value Hv. rewrite Hp. cbn [negb].
  destruct (h_get _ h) as [hv|]; [|done]. cbn in Hv. rewrite Hv. split; [by intros ->|]. split.
  - intros chain ->. case_bool_decide as Hc; [subst; right; cbn; by rewrite Forall_singleton|].
    apply select_rightmost. by destruct chain.
  - intros sent t a seen proxies -> Ht Ha Hseen Hall.
    assert (parse_forwarded_chain (join (lit ",") (t :: seen)) = Some (a :: proxies)) as Hchain
      by (apply chain_seen; [done|by constructor]).
    assert (∀ pre, select_client networks (normalize_ip peer) (reverse ((pre ++ a :: proxies) ++ [normalize_ip peer])) = a) as Hsel.
    { intros pre. rewrite reverse_snoc, reverse_app, reverse_cons. cbn [select_client]. rewrite Hp, <- app_assoc.
      rewrite select_trusted by (by apply Forall_reverse). cbn [app select_client]. by rewrite Ha. }
    unfold forwarded. destruct sent as [s|].
    + change (join (lit ",") (s :: t :: seen)) with (s ++ lit "," ++ join (lit ",") (t :: seen)).
      rewrite chain_join, Hchain. destruct (parse_forwarded_chain s) as [l|] eqn:El; cbn [mbind option_bind].
      * left. rewrite bool_decide_eq_false_2 by (by destruct l). apply Hsel.
      * right. rewrite El. eauto.
    + rewrite Hchain, bool_decide_eq_false_2 by done. left. apply (Hsel []).
Qed.
End chain.

(** ** The theorem at work *)

(** A network is here a list of addresses. *)
#[local] Instance ex_ipnet : IpNetLib :=
  {| IpNet := list IpAddr; ipnet_from_str := λ s, (λ a, [a]) <$> parse_ip_addr s;
     ipnet_contains := λ n a, bool_decide (a ∈ n) |}.
#[local] Existing Instance ex_http.

Definition ex_proxies : list (IpNet (IpNetLib := ex_ipnet)) := [[V4 167772161; V4 167772162]].
Definition ex_forward (s : rstr) : list (rstr * HeaderValue) := [(lit "x-forwarded-for", s)].

Lemma client_address_unforgeable_witness :
  resolve ex_proxies (V4 167772161) (ex_forward (lit "8.8.8.8, 9.9.9.9,198.51.100.8,10.0.0.2")) = V4 3325256712.
Proof.
  destruct (client_address_unforgeable ex_proxies (V4 167772161)
    (ex_forward (lit "8.8.8.8, 9.9.9.9,198.51.100.8,10.0.0.2"))) as [_ H].
  destruct (H eq_refl (lit "8.8.8.8, 9.9.9.9,198.51.100.8,10.0.0.2") eq_refl) as (_ & _ & H3).
  destruct (H3 (Some (lit "8.8.8.8, 9.9.9.9")) (lit "198.51.100.8") (V4 3325256712) [lit "10.0.0.2"] [V4 167772162])
    as [Hr|(_ & Hbad & _)]; [reflexivity|reflexivity|reflexivity| | |exact Hr|].
  - constructor; [reflexivity|constructor].
  - constructor; [reflexivity|constructor].
  - vm_compute in Hbad. discriminate Hbad.
Defined.

(** Only the first header of the name is read: what a proxy adds in a line of its own is not. *)
Lemma second_header_ignored :
  resolve ex_proxies (V4 167772161) (ex_forward (lit "8.8.8.8") ++ ex_forward (lit "198.51.100.8")) = V4 134744072.
Proof. reflexivity. Qed.
