(* ===== verification/GatewaySocket.v ===== *)
(** * WebSockets through the gateway (crates/roze-gateway/src/lib.rs)

    The target of an upstream's URL, the handshake that is sent, read and checked, and
    the tunnel. What the sockets answer are lists of events; the parser of URLs, SHA-1
    and base64 are third-party crates and so parameters, as is the text of an error of
    the standard library. *)

From S2P Require Import Prelude Policy HttpTypes GatewayRoute GatewayUpstream Text Scan.

(** ** Bytes and lines *)

(** [split("\r\n")] *)
Fixpoint split_crlf (s : rstr) : list rstr :=
  match s with
  | [] => [[]]
  | c :: s' =>
      match s' with
      | d :: s'' => if (c =? 13) && (d =? 10) then [] :: split_crlf s''
                    else match split_crlf s' with p :: ps => (c :: p) :: ps | [] => [[c]] end
      | [] => [[c]]
      end
  end.

Definition CRLF : rstr := [13; 10].
Definition TERMINATOR : list N := [13; 10; 13; 10].

(** [windows(4).position(..)] *)
Fixpoint find_terminator (l : list N) : option nat :=
  match l with
  | [] => None
  | _ :: l' => if starts_with TERMINATOR l then Some 0%nat else S <$> find_terminator l'
  end.

Section socket.
Context {L : HttpLib}.
Context (sha1 : list N → list N) (base64 : list N → rstr) (utf8_error : list N → rstr)
        (error_text : HttpError → rstr).

(** ** The target *)

Record Url :=
  { scheme : rstr; host_str : option rstr; url_port : option N; port_or_known_default : option N;
    url_path : rstr; url_query : option rstr }.
Context (url_parse : rstr → result rstr Url).

Record WebSocketTarget :=
  { wt_addr : rstr; authority : rstr; path_and_query : rstr; server_name : rstr; secure : bool }.

Definition colon (c : N) : bool := c =? 58.

Definition websocket_target (upstream_url : rstr) : result UpstreamError WebSocketTarget :=
  url ← map_err (λ e, Protocol (lit "invalid WebSocket upstream URL: " ++ e)) (url_parse upstream_url);
  if negb (str_in [lit "http"; lit "ws"; lit "https"; lit "wss"] (scheme url))
  then Err (Protocol (lit "WebSocket upstream requires ws/http/wss/https, got " ++ scheme url))
  else
    parsed_host ← ok_or (host_str url) (Protocol (lit "WebSocket upstream URL has no host"));
    let host := default parsed_host (strip_prefix (lit "[") parsed_host ≫= strip_suffix (lit "]")) in
    let secure := str_in [lit "https"; lit "wss"] (scheme url) in
    let port := default (if secure then 443 else 80) (port_or_known_default url) in
    let authority_host := if existsb colon host then lit "[" ++ host ++ lit "]" else host in
    let path := if str_is_empty (url_path url) then lit "/" else url_path url in
    Ok {| wt_addr := authority_host ++ lit ":" ++ dec port;
          authority := match url_port url with Some _ => authority_host ++ lit ":" ++ dec port | None => authority_host end;
          path_and_query := with_query path (url_query url);
          server_name := host; secure := secure |}.

(** ** The handshake that is sent *)

Abbreviation HeaderMap := (list (rstr * HeaderValue)).

Fixpoint handshake_headers (h : HeaderMap) : result UpstreamError rstr :=
  match h with
  | [] => Ok []
  | (name, value) :: h' =>
      if str_in [lit "host"; lit "content-length"] name then handshake_headers h'
      else
        match to_str value with
        | None => Err (Protocol (lit "WebSocket header '" ++ name ++ lit "' is not valid text"))
        | Some v => rest ← handshake_headers h'; Ok (name ++ lit ": " ++ v ++ CRLF ++ rest)
        end
  end.

Definition build_websocket_handshake_request (method : rstr) (h : HeaderMap) (target : WebSocketTarget)
    : result UpstreamError rstr :=
  if negb (str_eqb method (lit "GET")) || negb (is_websocket_upgrade h) || negb (h_contains (lit "sec-websocket-key") h) ||
     negb (bool_decide (h_text (lit "sec-websocket-version") h = Some (lit "13")))
  then Err (Protocol (lit "invalid WebSocket upgrade request"))
  else
    lines ← handshake_headers h;
    Ok (lit "GET " ++ path_and_query target ++ lit " HTTP/1.1" ++ CRLF ++ lit "Host: " ++ authority target ++ CRLF ++
        lines ++ CRLF).

Definition expected_websocket_accept (h : HeaderMap) : result UpstreamError rstr :=
  key ← ok_or (h_text (lit "sec-websocket-key") h) (Protocol (lit "missing WebSocket key"));
  Ok (base64 (sha1 (as_bytes key ++ as_bytes (lit "258EAFA5-E914-47DA-95CA-C5AB0DC85B11")))).

(** ** The handshake that is read *)

Record WebSocketHandshakeResponse :=
  { ws_status : N; ws_headers : HeaderMap; remaining : list N }.

Definition validate_websocket_handshake (request_headers : HeaderMap) (handshake : WebSocketHandshakeResponse)
    (expected_accept : rstr) : result UpstreamError unit :=
  let response_headers := ws_headers handshake in
  if negb (is_websocket_upgrade response_headers) ||
     negb (bool_decide (h_text (lit "sec-websocket-accept") response_headers = Some expected_accept))
  then Err (Protocol (lit "invalid WebSocket upstream acceptance headers"))
  else
    match h_text (lit "sec-websocket-protocol") response_headers with
    | None => Ok tt
    | Some protocol =>
        if match h_text (lit "sec-websocket-protocol") request_headers with
           | Some v => existsb (λ item, str_eqb (trim item) protocol) (split_commas v)
           | None => false
           end
        then Ok tt
        else Err (Protocol (lit "WebSocket upstream selected an unrequested protocol"))
    end.

Definition MAX_HANDSHAKE_BYTES : N := 16 * 1024.

(** What a read answers: some bytes, none when the stream has ended, or an error. *)
Inductive Read := RData (chunk : list N) | RError (error : rstr).

(** The loop over the reads, [None] while it waits for another: the position of the
    terminator, the buffer, and the reads not made. *)
Fixpoint read_loop (reads : list Read) (buffer : list N) : option (result UpstreamError (nat * list N) * list Read) :=
  if MAX_HANDSHAKE_BYTES <? N.of_nat (length buffer)
  then Some (Err (Protocol (lit "WebSocket upstream handshake exceeded " ++ dec MAX_HANDSHAKE_BYTES ++ lit " bytes")), reads)
  else
    match reads with
    | [] => None
    | RError error :: reads => Some (Err (Protocol (lit "WebSocket handshake read failed: " ++ error)), reads)
    | RData [] :: reads => Some (Err (Protocol (lit "WebSocket upstream closed during handshake")), reads)
    | RData chunk :: reads =>
        let buffer := buffer ++ chunk in
        match find_terminator buffer with
        | Some position => Some (Ok (position, buffer), reads)
        | None => read_loop reads buffer
        end
    end.

Definition parse_header_line (line : rstr) : result UpstreamError (rstr * HeaderValue) :=
  nv ← ok_or (split_once (lit ":") line) (Protocol (lit "invalid WebSocket upstream header"));
  name ← ok_or (parse_name (trim nv.1)) (Protocol (lit "invalid WebSocket header name: " ++ error_text InvalidHeaderName));
  value ← ok_or (from_str (trim nv.2)) (Protocol (lit "invalid WebSocket header value: " ++ error_text InvalidHeaderValue));
  Ok (name, value).

Definition parse_status_line (line : rstr) : option N :=
  status ← split_whitespace line !! 1%nat;
  status ← parse_uint 65535 status;
  if status_valid status then Some status else None.

Definition parse_handshake (header rest : list N) : result UpstreamError WebSocketHandshakeResponse :=
  text ← ok_or (from_utf8 header) (Protocol (lit "WebSocket handshake is not UTF-8: " ++ utf8_error header));
  let lines := split_crlf text in
  status ← ok_or (head lines ≫= parse_status_line) (Protocol (lit "invalid WebSocket upstream status line"));
  headers ← collect parse_header_line (tail lines);
  Ok {| ws_status := status; ws_headers := headers; remaining := rest |}.

Definition read_websocket_handshake_response (reads : list Read)
    : option (result UpstreamError WebSocketHandshakeResponse * list Read) :=
  '(r, reads) ← read_loop reads [];
  Some (r ← r; parse_handshake (take r.1 r.2) (drop (r.1 + 4) r.2), reads).
End socket.

(** ** The tunnel *)

(** What wakes the loop up: a read of either side or the sleep, and how the write or
    shutdown that follows ends. *)
Inductive IoError := Io (error : rstr) | TunnelIdle | WriteTimeout.
Inductive TunnelEvent :=
| ClientRead (read : Read) (written : result IoError unit)
| UpstreamRead (read : Read) (written : result IoError unit)
| Idle.

Record Tunnel :=
  { client_open : bool; upstream_open : bool; to_upstream : list N; to_client : list N;
    upstream_shut : bool; client_shut : bool }.
Definition Tunnel_new : Tunnel :=
  {| client_open := true; upstream_open := true; to_upstream := []; to_client := []; upstream_shut := false;
     client_shut := false |}.

(** A side that is closed is not read. *)
Definition tunnel_step (e : TunnelEvent) (t : Tunnel) : result IoError Tunnel :=
  match e with
  | ClientRead read written =>
      if negb (client_open t) then Ok t
      else
        match read with
        | RError error => Err (Io error)
        | RData [] =>
            _ ← written;
            Ok {| client_open := false; upstream_open := upstream_open t; to_upstream := to_upstream t;
                  to_client := to_client t; upstream_shut := true; client_shut := client_shut t |}
        | RData bytes =>
            _ ← written;
            Ok {| client_open := true; upstream_open := upstream_open t; to_upstream := to_upstream t ++ bytes;
                  to_client := to_client t; upstream_shut := upstream_shut t; client_shut := client_shut t |}
        end
  | UpstreamRead read written =>
      if negb (upstream_open t) then Ok t
      else
        match read with
        | RError error => Err (Io error)
        | RData [] =>
            _ ← written;
            Ok {| client_open := client_open t; upstream_open := false; to_upstream := to_upstream t;
                  to_client := to_client t; upstream_shut := upstream_shut t; client_shut := true |}
        | RData bytes =>
            _ ← written;
            Ok {| client_open := client_open t; upstream_open := true; to_upstream := to_upstream t;
                  to_client := to_client t ++ bytes; upstream_shut := upstream_shut t; client_shut := client_shut t |}
        end
  | Idle => Err TunnelIdle
  end.

(** [copy_websocket_tunnel] with an idle timeout: whether it has ended, and the tunnel. *)
Fixpoint copy_websocket_tunnel (es : list TunnelEvent) (t : Tunnel) : option (result IoError unit) * Tunnel :=
  if client_open t || upstream_open t then
    match es with
    | [] => (None, t)
    | e :: es => match tunnel_step e t with
                 | Ok t => copy_websocket_tunnel es t
                 | Err error => (Some (Err error), t)
                 end
    end
  else (Some (Ok tt), t).

(** ** Reading does not depend on the chunks *)

Lemma starts_with_app pre a b : starts_with pre a = true → starts_with pre (a ++ b) = true.
Proof. rewrite !starts_with_spec. intros [t ->]. exists (t ++ b). by rewrite app_assoc. Qed.

Lemma starts_with_short pre a b : (length pre ≤ length a)%nat → starts_with pre (a ++ b) = starts_with pre a.
Proof.
  intros Hl. destruct (starts_with pre a) eqn:E; [by apply starts_with_app|].
  destruct (starts_with pre (a ++ b)) eqn:E'; [|done]. apply starts_with_spec in E' as [t Ht].
  assert (a = pre ++ drop (length pre) a) as Ha.
  { rewrite <- (take_drop (length pre) a) at 1. f_equal.
    rewrite <- (take_app_le a b) by done. rewrite Ht. by rewrite take_app_length. }
  rewrite Ha in E. by rewrite (proj2 (starts_with_spec pre _)) in E by eauto.
Qed.

Lemma find_terminator_length l p : find_terminator l = Some p → (p + 4 ≤ length l)%nat.
Proof.
  revert p. induction l as [|y l IH]; [done|]. intros p. cbn [find_terminator].
  destruct (starts_with TERMINATOR (y :: l)) eqn:E.
  - intros [= <-]. apply starts_with_spec in E as [t ->]. rewrite length_app. cbn. lia.
  - destruct (find_terminator l) as [q|]; [|done]. intros [= <-]. specialize (IH q eq_refl). cbn [length]. lia.
Qed.

Lemma find_terminator_prefix a b p : find_terminator a = Some p → find_terminator (a ++ b) = Some p.
Proof.
  revert p. induction a as [|c a IH]; [done|]. intros p. cbn [find_terminator app].
  destruct (starts_with TERMINATOR (c :: a)) eqn:E.
  - change (c :: a ++ b) with ((c :: a) ++ b). by rewrite starts_with_app.
  - destruct (find_terminator a) as [q|] eqn:Eq; [|done]. intros [= <-].
    change (c :: a ++ b) with ((c :: a) ++ b). rewrite (starts_with_short TERMINATOR (c :: a) b), E.
    + cbn [app]. by rewrite (IH q).
    + apply find_terminator_length in Eq. cbn [length TERMINATOR]. lia.
Qed.

Lemma find_terminator_late a b p :
  find_terminator a = None → find_terminator (a ++ b) = Some p → (length a < p + 4)%nat.
Proof.
  revert p. induction a as [|c a IH]; intros p; [cbn; lia|]. cbn [find_terminator app].
  destruct (starts_with TERMINATOR (c :: a)) eqn:E; [done|]. intros Ha.
  change (c :: a ++ b) with ((c :: a) ++ b). destruct (starts_with TERMINATOR ((c :: a) ++ b)) eqn:E'.
  - intros [= <-]. destruct (decide (length TERMINATOR ≤ length (c :: a))%nat) as [Hl|Hl].
    + rewrite starts_with_short in E' by done. congruence.
    + cbn [length TERMINATOR] in Hl |- *. lia.
  - cbn [app]. destruct (find_terminator (a ++ b)) as [q|] eqn:Eq; [|done]. intros [= <-].
    destruct (find_terminator a) eqn:Ea; [done|]. specialize (IH q eq_refl eq_refl). cbn [length]. lia.
Qed.

Lemma read_loop_chunks (chunks : list (list N)) (buffer : list N) (p : nat) :
  Forall (λ c, c ≠ []) chunks → find_terminator buffer = None →
  find_terminator (buffer ++ concat chunks) = Some p → N.of_nat p + 4 ≤ MAX_HANDSHAKE_BYTES →
  ∃ k all, read_loop (RData <$> chunks) buffer = Some (Ok (p, all), RData <$> drop k chunks) ∧
           all ++ concat (drop k chunks) = buffer ++ concat chunks ∧ (p + 4 ≤ length all)%nat.
Proof.
  intros Hne. revert buffer. induction Hne as [|c chunks Hc Hne IH]; intros buffer Hb Hp Hmax.
  { cbn [concat] in Hp. rewrite app_nil_r in Hp. congruence. }
  pose proof (find_terminator_late _ _ _ Hb Hp) as Hlate. cbn [concat] in Hp |- *. rewrite app_assoc in Hp |- *.
  cbn [fmap list_fmap read_loop]. rewrite (proj2 (N.ltb_ge _ _)) by lia.
  destruct c as [|x c]; [done|]. destruct (find_terminator (buffer ++ x :: c)) as [q|] eqn:Eq.
  - pose proof (find_terminator_prefix _ (concat chunks) _ Eq) as Hq. assert (q = p) as -> by congruence.
    exists 1%nat, (buffer ++ x :: c). split; [done|]. split; [done|]. by apply find_terminator_length.
  - destruct (IH _ Eq Hp Hmax) as (k & all & Hr & Hall & Hl). exists (S k), all. done.
Qed.

(** ** A handshake as it is written *)

Definition ascii (s : rstr) : bool := forallb (λ c, c <? 128) s.

Lemma from_utf8_ascii s : ascii s = true → from_utf8 s = Some s.
Proof.
  induction s as [|c s IH]; [done|]. cbn [ascii forallb]. intros [Hc Hs]%andb_true_iff. cbn [from_utf8].
  rewrite Hc, IH by done. done.
Qed.

Lemma split_crlf_line a r : lacks 13 a = true → split_crlf (a ++ CRLF ++ r) = a :: split_crlf r.
Proof.
  induction a as [|c a IH]; [done|]. cbn [lacks forallb]. intros [Hc Ha]%andb_true_iff. specialize (IH Ha).
  change ((c :: a) ++ CRLF ++ r) with (c :: a ++ CRLF ++ r). cbn [split_crlf].
  apply negb_true_iff in Hc. rewrite Hc, IH. destruct (a ++ CRLF ++ r) as [|d t] eqn:E; [by destruct a|done].
Qed.

Lemma split_crlf_last a : lacks 13 a = true → split_crlf a = [a].
Proof.
  induction a as [|c a IH]; [done|]. cbn [lacks forallb]. intros [Hc Ha]%andb_true_iff. specialize (IH Ha).
  cbn [split_crlf]. apply negb_true_iff in Hc. rewrite Hc, IH. by destruct a.
Qed.

Definition plain_line (l : rstr) : bool := nonempty l && lacks 13 l && ascii l.

Lemma split_crlf_join lines :
  lines ≠ [] → Forall (λ l, plain_line l = true) lines → split_crlf (join CRLF lines) = lines.
Proof.
  intros Hne Hl. induction Hl as [|l lines H Hl IH]; [done|].
  apply andb_true_iff in H as [[_ H]%andb_true_iff _]. destruct lines as [|l' lines]; [by apply split_crlf_last|].
  change (join CRLF (l :: l' :: lines)) with (l ++ CRLF ++ join CRLF (l' :: lines)). rewrite split_crlf_line by done. by rewrite IH.
Qed.

Lemma find_terminator_skip a r : lacks 13 a = true → find_terminator (a ++ r) = Nat.add (length a) <$> find_terminator r.
Proof.
  induction a as [|c a IH]; cbn [app]; [by destruct (find_terminator r)|]. cbn [lacks forallb]. intros [Hc Ha]%andb_true_iff.
  cbn [find_terminator]. rewrite IH by done. apply negb_true_iff, N.eqb_neq in Hc.
  destruct (starts_with TERMINATOR (c :: a ++ r)) eqn:E; [apply starts_with_spec in E as [t [= ? _]]; done|].
  by destruct (find_terminator r).
Qed.

Lemma find_terminator_lines lines rest :
  lines ≠ [] → Forall (λ l, plain_line l = true) lines →
  find_terminator (join CRLF lines ++ TERMINATOR ++ rest) = Some (length (join CRLF lines)).
Proof.
  intros Hne Hl. induction Hl as [|l lines H Hl IH]; [done|].
  apply andb_true_iff in H as [[_ H]%andb_true_iff _].
  destruct lines as [|l' lines]; [rewrite find_terminator_skip by done; cbn; by rewrite Nat.add_0_r|].
  change (join CRLF (l :: l' :: lines)) with (l ++ CRLF ++ join CRLF (l' :: lines)). rewrite <- !app_assoc, find_terminator_skip by done.
  specialize (IH ltac:(done)). pose proof (Forall_inv Hl) as H'. cbn beta in H'.
  apply andb_true_iff in H' as [[Hn H']%andb_true_iff _]. destruct l' as [|c l']; [done|].
  cbn [lacks forallb] in H'. apply andb_true_iff in H' as [Hc _]. apply negb_true_iff, N.eqb_neq in Hc.
  assert (∃ t, join CRLF ((c :: l') :: lines) ++ TERMINATOR ++ rest = c :: t) as [t Ht] by (destruct lines; cbn; eauto).
  assert (find_terminator (CRLF ++ join CRLF ((c :: l') :: lines) ++ TERMINATOR ++ rest) =
          Some (2 + length (join CRLF ((c :: l') :: lines)))%nat) as ->.
  { rewrite Ht in IH |- *. change (CRLF ++ c :: t) with (13 :: 10 :: c :: t).
    revert IH. generalize (length (join CRLF ((c :: l') :: lines))). intros n IH.
    change (find_terminator (13 :: 10 :: c :: t)) with
      (if starts_with TERMINATOR (13 :: 10 :: c :: t) then Some 0%nat
       else S <$> (if starts_with TERMINATOR (10 :: c :: t) then Some 0%nat else S <$> find_terminator (c :: t))).
    rewrite IH.
    destruct (starts_with TERMINATOR (13 :: 10 :: c :: t)) eqn:E; [apply starts_with_spec in E as [? [= ? _]]; done|].
    destruct (starts_with TERMINATOR (10 :: c :: t)) eqn:E'; [apply starts_with_spec in E' as [? [= ? _]]; done|]. done. }
  cbn [fmap option_fmap option_map]. f_equal. rewrite !length_app. cbn [length CRLF]. lia.
Qed.

Section written.
Context {L : HttpLib} (utf8_error : list N → rstr) (error_text : HttpError → rstr).

(** A header line that reads back, and a whole handshake. *)
Definition plain_header (nv : rstr * rstr * HeaderValue) : Prop :=
  let '(name, text, v) := nv in
  trim name = name ∧ lacks 58 name = true ∧ lacks 13 name = true ∧ ascii name = true ∧ parse_name name = Some name ∧
  starts_solid text = true ∧ ends_solid text = true ∧ lacks 13 text = true ∧ ascii text = true ∧ from_str text = Some v.

Definition header_line (nv : rstr * rstr * HeaderValue) : rstr := nv.1.1 ++ lit ": " ++ nv.1.2.
Definition status_line (status : N) (reason : rstr) : rstr := lit "HTTP/1.1 " ++ dec status ++ lit " " ++ reason.
Definition written_handshake (status : N) (reason : rstr) (hs : list (rstr * rstr * HeaderValue)) : rstr :=
  join CRLF (status_line status reason :: (header_line <$> hs)).

Lemma dec_plain n : plain_line (dec n) = true ∧ forallb (λ c, negb (is_whitespace c)) (dec n) = true.
Proof.
  destruct (dec_spec n) as (Hne & Hd & _). unfold plain_line, lacks, ascii, is_ascii_digit in *.
  assert (nonempty (dec n) = true) as -> by (by destruct (dec n)). cbn [andb]. rewrite andb_true_iff, !forallb_Forall.
  split; [split|]; (eapply Forall_impl; [exact Hd|]); intros c Hc; cbn beta in Hc; unfold is_whitespace;
    apply andb_true_iff in Hc as [H1%N.leb_le H2%N.leb_le].
  - apply negb_true_iff, N.eqb_neq. lia.
  - apply N.ltb_lt. lia.
  - destruct (_ || _) eqn:E; [|done]. exfalso. revert E. rewrite ?orb_true_iff, ?andb_true_iff, ?N.leb_le, ?N.eqb_eq. lia.
Qed.

Lemma plain_header_line nv : plain_header nv → plain_line (header_line nv) = true ∧ parse_header_line error_text (header_line nv) = Ok (nv.1.1, nv.2).
Proof.
  destruct nv as [[name text] v]. intros (Ht & Hc & Hn & Ha & Hp & Hs & He & Hv & Hav & Hf). unfold header_line, plain_line. cbn [fst snd].
  assert (ascii (name ++ lit ": " ++ text) = true) as Hascii.
  { unfold ascii in *. rewrite !forallb_app, Ha, Hav. done. }
  split.
  - rewrite lacks_app, Hn. change (lacks 13 (lit ": " ++ text)) with (lacks 13 text). rewrite Hv, Hascii. by destruct name.
  - unfold parse_header_line. change (lit ":") with [58]. change (lit ": " ++ text) with (58 :: [32] ++ text).
    rewrite split_once_char by done. cbn [ok_or mbind result_bind fst snd]. rewrite Ht, Hp. cbn [ok_or mbind result_bind].
    rewrite trim_indent by (by repeat constructor || done). by rewrite Hf.
Qed.

Lemma plain_status_line status reason :
  status ≤ 65535 → status_valid status = true → lacks 13 reason = true → ascii reason = true →
  plain_line (status_line status reason) = true ∧ parse_status_line (status_line status reason) = Some status.
Proof.
  intros Hs Hv Hr Ha. destruct (dec_plain status) as [Hd Hw]. unfold plain_line in Hd.
  apply andb_true_iff in Hd as [[Hn Hl]%andb_true_iff Had]. unfold plain_line, status_line. split.
  - rewrite !lacks_app, Hl, Hr. unfold ascii in *. rewrite !forallb_app, Had, Ha. done.
  - unfold parse_status_line. change (lit "HTTP/1.1 " ++ dec status ++ lit " " ++ reason) with
      (lit "HTTP/1.1" ++ 32 :: dec status ++ 32 :: reason).
    rewrite split_whitespace_cons, split_whitespace_cons by done. cbn [lookup list_lookup mbind option_bind].
    rewrite parse_uint_dec by done. cbn. by rewrite Hv.
Qed.

Lemma collect_headers hs :
  Forall plain_header hs → collect (parse_header_line error_text) (header_line <$> hs) = Ok ((λ nv, (nv.1.1, nv.2)) <$> hs).
Proof.
  induction 1 as [|nv hs H _ IH]; [done|]. cbn [fmap list_fmap collect]. destruct (plain_header_line nv H) as [_ ->].
  cbn [mbind result_bind]. change (list_fmap _ _ header_line hs) with (header_line <$> hs). by rewrite IH.
Qed.

Lemma ascii_join lines : Forall (λ l, plain_line l = true) lines → ascii (join CRLF lines) = true.
Proof.
  induction 1 as [|l lines H _ IH]; [done|]. apply andb_true_iff in H as [_ H].
  destruct lines as [|l' lines]; [done|]. change (join CRLF (l :: l' :: lines)) with (l ++ CRLF ++ join CRLF (l' :: lines)).
  unfold ascii in *. rewrite !forallb_app, H, IH. done.
Qed.
End written.

(** A handshake response reads back, and no byte after it is lost, however it
    arrives. Split in any way into reads, the response's status and headers are read
    as they were written when the response is within 16 KiB, and the bytes kept for
    the tunnel are what follows up to the last read made. *)
Theorem handshake_reads_back {L : HttpLib} (utf8_error : list N → rstr) (error_text : HttpError → rstr)
    (chunks : list (list N)) status reason hs rest :
  status ≤ 65535 → status_valid status = true → lacks 13 reason = true → ascii reason = true → Forall plain_header hs →
  N.of_nat (length (written_handshake status reason hs)) + 4 ≤ 16 * 1024 →
  Forall (λ c, c ≠ []) chunks → concat chunks = written_handshake status reason hs ++ TERMINATOR ++ rest →
  ∃ k kept,
    read_websocket_handshake_response utf8_error error_text (RData <$> chunks) =
      Some (Ok {| ws_status := status; ws_headers := (λ nv, (nv.1.1, nv.2)) <$> hs; remaining := kept |},
            RData <$> drop k chunks) ∧
    kept ++ concat (drop k chunks) = rest.
Proof.
  intros Hs Hv Hr Ha Hhs Hmax Hne Hdata. destruct (plain_status_line status reason Hs Hv Hr Ha) as [Hline Hstatus].
  assert (Forall (λ l, plain_line l = true) (status_line status reason :: (header_line <$> hs))) as Hlines.
  { constructor; [done|]. apply Forall_fmap. eapply Forall_impl; [exact Hhs|]. intros nv Hnv. by apply (plain_header_line error_text). }
  set (head := written_handshake status reason hs) in *.
  destruct (read_loop_chunks chunks [] (length head)) as (k & all & Hread & Hall & Hlen); [done|done| |done|].
  { cbn [app]. rewrite Hdata. by apply find_terminator_lines. }
  cbn [app] in Hall. rewrite Hdata in Hall. exists k, (drop (length head + 4) all).
  assert (take (length head) all = head) as Htake.
  { rewrite <- (take_app_le all (concat (drop k chunks))) by lia. rewrite Hall. by apply take_app_length. }
  unfold read_websocket_handshake_response. rewrite Hread. cbn [mbind option_bind result_bind fst snd]. split.
  - rewrite Htake. unfold parse_handshake. rewrite from_utf8_ascii by (by apply ascii_join).
    cbn [ok_or mbind result_bind]. unfold head, written_handshake. rewrite split_crlf_join by done.
    cbn [hd_error mbind option_bind tail]. rewrite Hstatus. cbn [ok_or mbind result_bind].
    by rewrite collect_headers.
  - rewrite <- drop_app_le by lia. rewrite Hall. rewrite app_assoc, drop_app_length'; [done|].
    rewrite length_app. cbn. lia.
Qed.

(** What one side sends until it ends. *)
Definition client_side (e : TunnelEvent) : option Read := match e with ClientRead r _ => Some r | _ => None end.
Definition upstream_side (e : TunnelEvent) : option Read := match e with UpstreamRead r _ => Some r | _ => None end.
Fixpoint sent_by (side : TunnelEvent → option Read) (es : list TunnelEvent) : list N :=
  match es with
  | [] => []
  | e :: es => match side e with
               | Some (RData []) | Some (RError _) => []
               | Some (RData bytes) => bytes ++ sent_by side es
               | None => sent_by side es
               end
  end.

#[local] Ltac failed := do 3 (split; [by auto|]).

(** The tunnel relays exactly: what is written to a side is a first part of what the
    other sends, all of it unless the tunnel ends in an error, and it ends well only
    when both sides have ended and each has been told so. *)
Lemma tunnel_relays es :
  let '(out, t) := copy_websocket_tunnel es Tunnel_new in
  to_upstream t `prefix_of` sent_by client_side es ∧ to_client t `prefix_of` sent_by upstream_side es ∧
  match out with
  | Some (Err _) => True
  | _ => to_upstream t = sent_by client_side es ∧ to_client t = sent_by upstream_side es
  end ∧
  (out = Some (Ok tt) → upstream_shut t = true ∧ client_shut t = true).
Proof.
  assert (∀ t0, (client_open t0 = false → upstream_shut t0 = true) → (upstream_open t0 = false → client_shut t0 = true) →
    let '(out, t) := copy_websocket_tunnel es t0 in
    let up := to_upstream t0 ++ (if client_open t0 then sent_by client_side es else []) in
    let down := to_client t0 ++ (if upstream_open t0 then sent_by upstream_side es else []) in
    to_upstream t `prefix_of` up ∧ to_client t `prefix_of` down ∧
    match out with Some (Err _) => True | _ => to_upstream t = up ∧ to_client t = down end ∧
    (out = Some (Ok tt) → upstream_shut t = true ∧ client_shut t = true)) as Hgen; [|by apply (Hgen Tunnel_new)].
  assert (∀ l m : list N, l `prefix_of` l ++ m) as Hp by (intros; by apply prefix_app_r).
  induction es as [|e es IH]; intros t0 Hc Hu; cbn [copy_websocket_tunnel].
  - assert (∀ (b : bool) (l : list N), l ++ (if b then [] else []) = l) as Hnil by (intros [] l; apply app_nil_r).
    cbn [sent_by]. rewrite !Hnil. destruct (client_open t0 || upstream_open t0) eqn:E; [done|].
    apply orb_false_iff in E as [E1 E2]. do 3 (split; [done|]). auto.
  - destruct (client_open t0 || upstream_open t0) eqn:E.
    2: { apply orb_false_iff in E as [E1 E2]. rewrite E1, E2, !app_nil_r. do 3 (split; [done|]). auto. }
    destruct e as [read written|read written|]; cbn [tunnel_step sent_by client_side upstream_side]; [| |by failed].
    + destruct (client_open t0) eqn:Eo; cbn [negb]; [|specialize (IH t0 ltac:(rewrite Eo; exact Hc) Hu); by rewrite Eo in IH].
      destruct read as [[|x bytes]|error]; [| |by failed]; (destruct written as [[]|]; cbn [mbind result_bind]; [|by failed]).
      * match goal with |- context [copy_websocket_tunnel es ?t1] => specialize (IH t1 ltac:(done) Hu) end. exact IH.
      * match goal with |- context [copy_websocket_tunnel es ?t1] => specialize (IH t1 ltac:(done) Hu) end.
        cbn in IH. by rewrite <- app_assoc in IH.
    + destruct (upstream_open t0) eqn:Eo; cbn [negb]; [|specialize (IH t0 Hc ltac:(rewrite Eo; exact Hu)); by rewrite Eo in IH].
      destruct read as [[|x bytes]|error]; [| |by failed]; (destruct written as [[]|]; cbn [mbind result_bind]; [|by failed]).
      * match goal with |- context [copy_websocket_tunnel es ?t1] => specialize (IH t1 Hc ltac:(done)) end. exact IH.
      * match goal with |- context [copy_websocket_tunnel es ?t1] => specialize (IH t1 Hc ltac:(done)) end.
        cbn in IH. by rewrite <- app_assoc in IH.
Qed.

(** ** The theorems at work *)

Definition ex_headers : list (rstr * rstr * HeaderValue (HttpLib := ex_http)) :=
  [(lit "upgrade", lit "websocket", lit "websocket")].
Definition ex_chunks : list (list N) :=
  [lit "HTTP/1.1 101 Swi"; lit "tching" ++ [13; 10] ++ lit "upgrade: websocket" ++ [13]; [10; 13]; [10; 1; 2]; [3]].

Lemma handshake_reads_back_witness :
  ∃ k kept,
    read_websocket_handshake_response (L := ex_http) (λ _, []) (λ _, []) (RData <$> ex_chunks) =
      Some (Ok {| ws_status := 101; ws_headers := (λ nv, (nv.1.1, nv.2)) <$> ex_headers; remaining := kept |},
            RData <$> drop k ex_chunks) ∧
    kept ++ concat (drop k ex_chunks) = [1; 2; 3].
Proof.
  apply (handshake_reads_back (L := ex_http) (λ _, []) (λ _, []) ex_chunks 101 (lit "Switching") ex_headers [1; 2; 3]);
    [by vm_compute|reflexivity|reflexivity|reflexivity| |by vm_compute|by repeat constructor|reflexivity].
  constructor; [|constructor]. repeat split; reflexivity.
Defined.
