(* ===== verification/GatewayAuth.v ===== *)
(** * Identity and context at the gateway (crates/roze-gateway/src/lib.rs)

    What the gateway believes about who is asking: the policy of a route, the
    verification of a token or key, the headers that are taken away from the client
    and those that are set, and the context made of them. *)

From S2P Require Import Prelude RateLimit Policy Context Propagation Auth HttpTypes GatewayRoute Text Scan.

Section gateway_auth.
Context {L : HttpLib} {J : JwtLib}.

Abbreviation HeaderMap := (list (rstr * HeaderValue)).

(** ** Authentication *)

Inductive AuthPolicy := PolicyJwt | PolicyApiKey | PolicyAny.

Definition auth_policy (global route : list rstr) : option AuthPolicy :=
  let either := λ name, has_middleware route name || has_middleware global name in
  if either (lit "jwt") then Some PolicyJwt
  else if either (lit "api_key") || either (lit "apikey") then Some PolicyApiKey
  else if either (lit "auth") then Some PolicyAny
  else None.

Definition allows_jwt (p : AuthPolicy) : bool := match p with PolicyJwt | PolicyAny => true | _ => false end.
Definition allows_api_key (p : AuthPolicy) : bool := match p with PolicyApiKey | PolicyAny => true | _ => false end.

Definition jwt_principal (h : HeaderMap) (jwt : option JwtConfig) (now : N) : option AuthPrincipal :=
  config ← jwt;
  token ← h_text (lit "authorization") h ≫= extract_bearer_token;
  match verify_token_typed token config now with Ok claims => Some (principal_of_claims claims) | Err _ => None end.

Definition api_key_principal (h : HeaderMap) (api_keys : option ApiKeyConfig) : option AuthPrincipal :=
  config ← api_keys;
  name ← parse_name (ak_header config);
  value ← h_text name h;
  verify_api_key value config.

(** [now] in seconds. *)
Definition validate_request_auth (h : HeaderMap) (policy : AuthPolicy) (jwt : option JwtConfig)
    (api_keys : option ApiKeyConfig) (now : N) : option AuthPrincipal :=
  match (if allows_jwt policy then jwt_principal h jwt now else None) with
  | Some p => Some p
  | None => if allows_api_key policy then api_key_principal h api_keys else None
  end.

(** ** Identity headers *)

Definition PERMISSIONS_HEADER := lit "x-roze-meta-permissions".
Definition SCOPE_HEADER := lit "x-roze-meta-scope".
Definition HULA_UID_HEADER := lit "x-hula-uid".
Definition HULA_TENANT_ID_HEADER := lit "x-hula-tenant-id".
Definition HULA_ROLE_HEADER := lit "x-hula-role".
Definition HULA_SCOPE_HEADER := lit "x-hula-scope".

Definition identity_headers : list rstr :=
  [SUBJECT_HEADER; TENANT_HEADER; ROLES_HEADER; PERMISSIONS_HEADER; SCOPE_HEADER; HULA_UID_HEADER;
   HULA_TENANT_ID_HEADER; HULA_ROLE_HEADER; HULA_SCOPE_HEADER].

Definition clear_untrusted_auth_context_headers (h : HeaderMap) : HeaderMap :=
  foldl (λ h name, h_remove name h) h identity_headers.

Definition insert_header (name value : rstr) (h : HeaderMap) : HeaderMap :=
  match from_str value with Some v => h_insert name v h | None => h end.

Definition insert_joined (name : rstr) (items : list rstr) (h : HeaderMap) : HeaderMap :=
  match items with [] => h | _ => insert_header name (join (lit ",") items) h end.

Definition inject_auth_context_headers (p : AuthPrincipal) (h : HeaderMap) : HeaderMap :=
  let h := insert_header SUBJECT_HEADER (p_subject p) h in
  let h := match filter_nonempty (p_tenant p) with Some tenant => insert_header TENANT_HEADER tenant h | None => h end in
  let h := insert_joined ROLES_HEADER (p_roles p) h in
  let h := insert_joined PERMISSIONS_HEADER (p_permissions p) h in
  insert_joined SCOPE_HEADER (p_scopes p) h.

Definition ensure_correlation_header (name generated : rstr) (h : HeaderMap) : HeaderMap :=
  if h_contains name h then h else insert_header name generated h.

(** ** The context of a request *)

(** Of values under one name the last stays. *)
Definition propagation (h : HeaderMap) : gmap rstr rstr :=
  foldl (λ m nv, match to_str nv.2 with Some v => <[nv.1 := v]> m | None => m end) ∅ h.

Definition gateway_context (timeout now : N) (c : Context) : Context :=
  match deadline c, remaining_timeout now c with
  | Some _, None => c
  | Some _, Some remaining => with_timeout now (N.min remaining timeout) c
  | None, _ => with_timeout now timeout c
  end.

Definition retry_context_exhausted (cells : Cells) (c : Context) (now delay : N) : bool :=
  cancelled cells c ||
  (is_some (deadline c) && match remaining_timeout now c with Some remaining => remaining <=? delay | None => true end).

Definition is_idempotent_method (method : rstr) : bool :=
  str_in [lit "GET"; lit "HEAD"; lit "PUT"; lit "DELETE"; lit "OPTIONS"; lit "TRACE"] method.

Definition retryable_gateway_status (st : N) : bool := (st =? 500) || (st =? 502) || (st =? 503) || (st =? 504).

(** The headers of a request once it is authenticated: [p] is what its policy found. *)
Definition authenticated_headers (p : option AuthPrincipal) (h : HeaderMap) : HeaderMap :=
  let h := clear_untrusted_auth_context_headers h in
  match p with Some p => inject_auth_context_headers p h | None => h end.

(** ** All the values of a name *)

Definition h_all (name : rstr) (h : HeaderMap) : list HeaderValue := omap (λ nv, if str_eqb nv.1 name then Some nv.2 else None) h.

Lemma h_all_cons name n v h : h_all name ((n, v) :: h) = (if str_eqb n name then [v] else []) ++ h_all name h.
Proof. unfold h_all. cbn. by destruct (str_eqb n name). Qed.

Lemma h_all_remove name name' h : h_all name (h_remove name' h) = if str_eqb name' name then [] else h_all name h.
Proof.
  induction h as [|[n v] h IH]; [by destruct (str_eqb name' name)|]. rewrite h_remove_cons, h_all_cons.
  destruct (str_eqb n name') eqn:E; rewrite ?h_all_cons, IH.
  - apply str_eqb_eq in E as ->. by destruct (str_eqb name' name).
  - destruct (str_eqb name' name) eqn:E2; [|done]. apply str_eqb_eq in E2 as ->. by rewrite E.
Qed.

Lemma h_all_insert name name' v h : h_all name (h_insert name' v h) = if str_eqb name' name then [v] else h_all name h.
Proof.
  induction h as [|[n w] h IH]; cbn [h_insert]; [rewrite h_all_cons; by destruct (str_eqb name' name)|].
  destruct (str_eqb n name') eqn:E; rewrite !h_all_cons, ?h_all_remove, ?IH.
  - apply str_eqb_eq in E as ->. by destruct (str_eqb name' name).
  - destruct (str_eqb name' name) eqn:E2; [|done]. apply str_eqb_eq in E2 as ->. by rewrite E.
Qed.

Lemma h_all_insert_header name name' value h :
  h_all name (insert_header name' value h) =
  if str_eqb name' name then match from_str value with Some v => [v] | None => h_all name h end else h_all name h.
Proof. unfold insert_header. destruct (from_str value); [apply h_all_insert|by destruct (str_eqb name' name)]. Qed.

Lemma h_get_all name h : h_get name h = head (h_all name h).
Proof. induction h as [|[n v] h IH]; [done|]. rewrite h_get_cons, h_all_cons. by destruct (str_eqb n name). Qed.

Lemma propagation_lookup h name : propagation h !! name = last (omap to_str (h_all name h)).
Proof.
  unfold propagation. induction h as [|[n v] h IH] using rev_ind; [apply lookup_empty|]. rewrite foldl_app. cbn [foldl fst snd].
  assert (h_all name (h ++ [(n, v)]) = h_all name h ++ (if str_eqb n name then [v] else [])) as ->.
  { unfold h_all. rewrite omap_app. cbn. by destruct (str_eqb n name). }
  rewrite omap_app. destruct (str_eqb n name) eqn:E.
  - apply str_eqb_eq in E as ->. cbn [omap list_omap]. destruct (to_str v) as [t|]; [|by rewrite app_nil_r].
    by rewrite lookup_insert_eq, last_snoc.
  - apply str_eqb_neq in E. cbn [omap list_omap]. rewrite app_nil_r. destruct (to_str v); [by rewrite lookup_insert_ne|done].
Qed.

(** ** What a client can say about who it is *)

(** The value an identity header has for a principal. *)
Definition joined_value (items : list rstr) : option HeaderValue :=
  match items with [] => None | _ => from_str (join (lit ",") items) end.
Definition identity_value (p : AuthPrincipal) (name : rstr) : option HeaderValue :=
  if str_eqb name SUBJECT_HEADER then from_str (p_subject p)
  else if str_eqb name TENANT_HEADER then filter_nonempty (p_tenant p) ≫= from_str
  else if str_eqb name ROLES_HEADER then joined_value (p_roles p)
  else if str_eqb name PERMISSIONS_HEADER then joined_value (p_permissions p)
  else if str_eqb name SCOPE_HEADER then joined_value (p_scopes p)
  else None.

Lemma cleared name h :
  h_all name (clear_untrusted_auth_context_headers h) = if str_in identity_headers name then [] else h_all name h.
Proof.
  unfold clear_untrusted_auth_context_headers, str_in.
  assert (∀ l h, h_all name (foldl (λ h name, h_remove name h) h l) = if existsb (str_eqb name) l then [] else h_all name h) as Hl.
  { induction l as [|n l IH]; intros h0; [done|]. cbn [foldl existsb]. rewrite IH, h_all_remove.
    assert (str_eqb n name = str_eqb name n) as ->.
    { destruct (str_eqb name n) eqn:E; [apply str_eqb_eq in E as ->; apply str_eqb_refl|].
      apply str_eqb_neq in E. by apply str_eqb_neq. }
    destruct (str_eqb name n); [by destruct (existsb _ l)|done]. }
  apply Hl.
Qed.

Lemma forwarded_identity p h name :
  h_all name (authenticated_headers p h) =
  if str_in identity_headers name then match p ≫= λ p, identity_value p name with Some v => [v] | None => [] end
  else h_all name h.
Proof.
  unfold authenticated_headers. destruct p as [p|]; [|rewrite cleared; by destruct (str_in _ name)].
  unfold inject_auth_context_headers, insert_joined, joined_value.
  assert (∀ n, str_in identity_headers n = true → h_all n (clear_untrusted_auth_context_headers h) = []) as Hc
    by (intros n Hn; rewrite cleared; by rewrite Hn).
  destruct (str_in identity_headers name) eqn:E.
  - apply str_in_spec in E. unfold identity_headers in E.
    repeat (apply elem_of_cons in E as [->|E]); [..|by apply elem_of_nil in E];
      cbn [mbind option_bind]; unfold identity_value, joined_value;
      destruct (filter_nonempty (p_tenant p)), (p_roles p), (p_permissions p), (p_scopes p);
      rewrite ?h_all_insert_header, ?Hc by reflexivity; reflexivity.
  - assert (∀ n, str_in identity_headers n = true → str_eqb n name = false) as Hne.
    { intros n Hn. apply str_eqb_neq. intros ->. congruence. }
    destruct (filter_nonempty (p_tenant p)), (p_roles p), (p_permissions p), (p_scopes p);
      rewrite ?h_all_insert_header, ?(Hne SUBJECT_HEADER), ?(Hne TENANT_HEADER), ?(Hne ROLES_HEADER),
        ?(Hne PERMISSIONS_HEADER), ?(Hne SCOPE_HEADER), cleared, E by reflexivity; done.
Qed.

(** ** The context of an authenticated request *)

Lemma propagation_lower h : Forall (λ nv, lower nv.1) h → lower_keys (propagation h).
Proof.
  intros Hh name [v Hv]. rewrite propagation_lookup in Hv.
  destruct (h_all name h) as [|w l] eqn:E; [done|]. clear Hv. revert E. induction Hh as [|[n u] h Hn _ IH]; [done|].
  rewrite h_all_cons. destruct (str_eqb n name) eqn:En; [by apply str_eqb_eq in En as ->|]. cbn [app]. apply IH.
Qed.

Lemma authenticated_lower p h :
  Forall (λ nv, lower nv.1) h → Forall (λ nv, lower nv.1) (authenticated_headers p h).
Proof.
  intros Hh.
  assert (∀ name (k : HeaderMap), Forall (λ nv, lower nv.1) k → Forall (λ nv, lower nv.1) (h_remove name k)) as Hr
    by (intros name k Hk; rewrite Forall_forall in *; intros nv [_ Hin]%list_elem_of_filter; auto).
  assert (∀ name v (k : HeaderMap), lower name → Forall (λ nv, lower nv.1) k → Forall (λ nv, lower nv.1) (insert_header name v k)) as Hi.
  { intros name v k Hn Hk. unfold insert_header. destruct (from_str v) as [u|]; [|done].
    induction Hk as [|[n w] k Hnk Hk IH]; cbn [h_insert]; [by repeat constructor|].
    destruct (str_eqb n name); constructor; auto. }
  assert (Forall (λ nv, lower nv.1) (clear_untrusted_auth_context_headers h)) as Hc.
  { unfold clear_untrusted_auth_context_headers. generalize identity_headers. intros l. revert h Hh.
    induction l as [|n l IH]; intros h Hh; cbn [foldl]; auto. }
  unfold authenticated_headers. destruct p as [p|]; [|done]. unfold inject_auth_context_headers, insert_joined.
  assert (∀ n, bool_decide (lower n) = true → lower n) as Hl by (intros n; apply bool_decide_eq_true_1).
  destruct (filter_nonempty (p_tenant p)), (p_roles p), (p_permissions p), (p_scopes p);
    repeat (apply Hi; [apply Hl; reflexivity|]); done.
Qed.

Lemma collected_lookup (m : gmap rstr rstr) k :
  lower_keys m →
  collect_names (λ n, strip_prefix METADATA_HEADER_PREFIX (str_to_ascii_lowercase n)) ∅ (btree_iter m) !! k =
  m !! (METADATA_HEADER_PREFIX ++ k).
Proof.
  intros Hl. assert (∀ n, is_Some (m !! n) → str_to_ascii_lowercase n = n) as Hlow by apply Hl.
  destruct (m !! (METADATA_HEADER_PREFIX ++ k)) as [v|] eqn:E.
  - apply (collect_names_exact _ _ _ (METADATA_HEADER_PREFIX ++ k)).
    + intros n n' v1 v2 k0 Hn%elem_of_btree_iter Hn'%elem_of_btree_iter.
      rewrite (Hlow n), (Hlow n') by eauto. by intros ->%strip_prefix_Some ->%strip_prefix_Some.
    + rewrite btree_iter_keys. apply NoDup_btree_keys.
    + by apply elem_of_btree_iter.
    + rewrite Hlow by eauto. apply strip_prefix_app.
  - rewrite collect_names_other; [apply lookup_empty|]. intros [n v] Hn%elem_of_btree_iter. cbn [fst].
    rewrite Hlow by eauto. intros ->%strip_prefix_Some. congruence.
Qed.

(** The metadata of a context under two of its keys. *)
Lemma metadata_lookup (m : gmap rstr rstr) :
  lower_keys m →
  metadata_from_headers_with_aliases m HULA_HEADER_ALIASES !! PERMISSIONS_METADATA_KEY = m !! PERMISSIONS_HEADER ∧
  metadata_from_headers_with_aliases m HULA_HEADER_ALIASES !! lit "scope" =
    match m !! SCOPE_HEADER with Some v => Some v | None => filter_nonempty (m !! HULA_SCOPE_HEADER) end.
Proof.
  intros Hl. pose proof (collected_lookup m PERMISSIONS_METADATA_KEY Hl) as H1.
  pose proof (collected_lookup m (lit "scope") Hl) as H2.
  unfold collect_names in H1, H2. unfold metadata_from_headers_with_aliases.
  set (m0 := foldl _ _ _) in H1, H2 |- *. clearbody m0.
  change (METADATA_HEADER_PREFIX ++ PERMISSIONS_METADATA_KEY) with PERMISSIONS_HEADER in H1.
  change (METADATA_HEADER_PREFIX ++ lit "scope") with SCOPE_HEADER in H2.
  rewrite <- H1, <- H2. rewrite <- (header_value_lower m HULA_SCOPE_HEADER) by (done || reflexivity).
  cbn [al_metadata HULA_HEADER_ALIASES foldl fst snd].
  assert (∀ (b : option rstr) k1 o (m1 : gmap rstr rstr) k, k1 ≠ k →
    (match b with Some _ => m1 | None => insert_some k1 o m1 end) !! k = m1 !! k) as Hother.
  { intros b k1 o m1 k Hk. destruct b; [done|]. by apply insert_some_ne. }
  split.
  - by rewrite !Hother by (vm_compute; discriminate).
  - rewrite Hother by (vm_compute; discriminate).
    match goal with |- (match ?b with _ => _ end) !! _ = _ => assert (b = m0 !! lit "scope") as -> end.
    { by rewrite !Hother by (vm_compute; discriminate). }
    destruct (m0 !! lit "scope") as [v|] eqn:E.
    + rewrite !Hother by (vm_compute; discriminate). done.
    + rewrite lookup_insert_some, decide_True by done. destruct (filter_nonempty _); [done|].
      rewrite !Hother by (vm_compute; discriminate). done.
Qed.

Lemma context_identity generated m now s :
  auth (from_propagation_headers generated m now s).1 = auth_from_headers_with_aliases m HULA_HEADER_ALIASES ∧
  metadata (from_propagation_headers generated m now s).1 = metadata_from_headers_with_aliases m HULA_HEADER_ALIASES.
Proof.
  unfold from_propagation_headers, from_propagation_headers_with_aliases, background_with_ids.
  unfold apply_retry_budget, apply_timeout, apply_auth.
  destruct (auth_from_headers_with_aliases m HULA_HEADER_ALIASES), (header_value m TIMEOUT_HEADER ≫= parse_uint U64_MAX),
    (retry_budget_from_headers m); done.
Qed.

Lemma split_joined (q : N → bool) rs :
  q 44 = true → rs ≠ [] → Forall (λ r, forallb (λ c, negb (q c)) r = true) rs → split_on q (join (lit ",") rs) = rs.
Proof.
  intros Hq Hne H. induction H as [|r rs Hr H IH]; [done|].
  destruct rs as [|r' rs]; [by apply split_on_piece|].
  change (join (lit ",") (r :: r' :: rs)) with (r ++ 44 :: join (lit ",") (r' :: rs)).
  rewrite split_on_app by done. f_equal. by apply IH.
Qed.

Lemma visible_join rs : Forall (λ r, visible r = true) rs → visible (join (lit ",") rs) = true.
Proof.
  induction 1 as [|r rs Hr _ IH]; [done|]. destruct rs as [|r' rs]; [done|].
  change (join (lit ",") (r :: r' :: rs)) with (r ++ lit "," ++ join (lit ",") (r' :: rs)).
  unfold visible in *. by rewrite !forallb_app, Hr, IH.
Qed.

(** A principal whose texts headers can carry. *)
Definition word (r : rstr) : Prop :=
  nonempty r = true ∧ forallb (λ c, negb ((c =? 44) || is_whitespace c)) r = true ∧ visible r = true.
Record plain_principal (p : AuthPrincipal) : Prop :=
  { pp_subject : p_subject p ≠ [] ∧ visible (p_subject p) = true;
    pp_tenant : ∀ t, p_tenant p = Some t → visible t = true;
    pp_roles : Forall (λ r, item_ok r ∧ visible r = true) (p_roles p);
    pp_permissions : Forall word (p_permissions p);
    pp_scopes : Forall (λ r, visible r = true) (p_scopes p) }.

Lemma trim_word r : word r → trim r = r.
Proof.
  intros (_ & Hw & _). rewrite forallb_Forall, Forall_forall in Hw.
  assert (∀ x, x ∈ r → is_whitespace x = false) as Hx.
  { intros x Hin. specialize (Hw x Hin). cbn beta in Hw. apply negb_true_iff, orb_false_iff in Hw. apply Hw. }
  apply trim_matches_id; intros x l' ->; apply Hx; set_solver.
Qed.

(** What a carried text reads as. *)
Definition read_text (o : option HeaderValue) : option rstr := o ≫= to_str.

Context {LL : HttpLaws L}.

Lemma carried s : visible s = true → read_text (from_str s) = Some s.
Proof.
  intros Hs. destruct (from_str_visible s Hs) as [v Hv]. rewrite Hv. unfold read_text. cbn [mbind option_bind].
  rewrite (from_str_text _ _ Hv). by rewrite Hs.
Qed.

Lemma carried_items items : Forall (λ r, visible r = true) items →
  read_text (joined_value items) = match items with [] => None | _ => Some (join (lit ",") items) end.
Proof. intros Hi. unfold joined_value. destruct items; [done|]. by apply carried, visible_join. Qed.

Lemma identity_text p h name :
  name ∈ identity_headers →
  propagation (authenticated_headers p h) !! name = read_text (p ≫= λ p, identity_value p name).
Proof.
  intros Hn%str_in_spec. rewrite propagation_lookup, forwarded_identity, Hn. unfold read_text.
  destruct (p ≫= _) as [v|]; [|done]. cbn. by destruct (to_str v).
Qed.

(** Who a request is from is what the gateway authenticated, never what the client
    wrote. Whatever headers came, the identity headers that are forwarded are those of
    the authenticated principal, and none without one, while all other headers are
    forwarded as they came; and the context of the request has the principal's
    subject, tenant, roles, permissions and scopes, or none of them. *)
Theorem identity_from_principal p h generated now cells :
  Forall (λ nv, lower nv.1) h →
  let forwarded := authenticated_headers p h in
  let ctx := (from_propagation_headers generated (propagation forwarded) now cells).1 in
  (∀ name, h_all name forwarded =
     if str_in identity_headers name then option_list (p ≫= λ p, identity_value p name) else h_all name h) ∧
  match p with
  | None => auth ctx = None ∧ permissions ctx = [] ∧ metadata_value (lit "scope") ctx = None
  | Some p => plain_principal p →
      auth ctx = Some {| a_subject := p_subject p; a_roles := p_roles p; a_tenant := filter_nonempty (p_tenant p) |} ∧
      permissions ctx = p_permissions p ∧
      metadata_value (lit "scope") ctx = (match p_scopes p with [] => None | _ => Some (join (lit ",") (p_scopes p)) end)
  end.
Proof.
  intros Hh forwarded ctx. split; [intros name; unfold forwarded; rewrite forwarded_identity; by destruct (p ≫= _)|].
  assert (lower_keys (propagation forwarded)) as Hl by (by apply propagation_lower, authenticated_lower).
  destruct (context_identity generated (propagation forwarded) now cells) as [Ha Hm]. fold ctx in Ha, Hm.
  destruct (metadata_lookup _ Hl) as [Hperm Hscope].
  assert (∀ name, bool_decide (lower name ∧ name ∈ identity_headers) = true →
    header_value (propagation forwarded) name = read_text (p ≫= λ p, identity_value p name)) as Hv.
  { intros name [Hlow Hin]%bool_decide_eq_true. rewrite header_value_lower by done. by apply identity_text. }
  unfold auth_from_headers_with_aliases, header_value_with_aliases in Ha.
  cbn [al_subject al_tenant al_roles HULA_HEADER_ALIASES find_map] in Ha.
  rewrite (Hv SUBJECT_HEADER), (Hv TENANT_HEADER), (Hv ROLES_HEADER), (Hv (lit "x-hula-uid")), (Hv (lit "x-hula-tenant-id")),
    (Hv (lit "x-hula-role")) in Ha by reflexivity.
  unfold permissions, metadata_value. rewrite Hm, Hperm, Hscope. unfold forwarded.
  rewrite !identity_text by (apply str_in_spec; reflexivity). rewrite Ha.
  destruct p as [p|]; [|done]. intros [[Hs1 Hs2] Ht Hr Hp Hsc]. cbn [mbind option_bind].
  change (identity_value p SUBJECT_HEADER) with (from_str (p_subject p)).
  change (identity_value p TENANT_HEADER) with (filter_nonempty (p_tenant p) ≫= from_str).
  change (identity_value p ROLES_HEADER) with (joined_value (p_roles p)).
  change (identity_value p PERMISSIONS_HEADER) with (joined_value (p_permissions p)).
  change (identity_value p SCOPE_HEADER) with (joined_value (p_scopes p)).
  change (identity_value p HULA_SCOPE_HEADER) with (@None HeaderValue).
  change (identity_value p (lit "x-hula-uid")) with (@None HeaderValue).
  change (identity_value p (lit "x-hula-tenant-id")) with (@None HeaderValue).
  change (identity_value p (lit "x-hula-role")) with (@None HeaderValue).
  rewrite carried by done. rewrite !carried_items; [|done|eapply Forall_impl; [exact Hp|]; by intros ? (_ & _ & ?)|
    eapply Forall_impl; [exact Hr|]; by intros ? [_ ?]].
  split; [|split; [|by destruct (p_scopes p)]].
  - destruct (p_subject p) as [|x s]; [done|]. cbn [filter_nonempty nonempty str_is_empty negb mbind option_bind].
    f_equal. f_equal.
    + destruct (p_roles p) as [|r rs] eqn:Er; [done|]. rewrite <- Er in *. rewrite (Propagation.split_on_join (p_roles p)).
      * apply items_kept. eapply Forall_impl; [exact Hr|]. by intros ? [? _].
      * by rewrite Er.
      * eapply Forall_impl; [exact Hr|]. by intros ? [? _].
    + destruct (p_tenant p) as [t|]; [|done]. destruct t as [|y t]; [done|].
      cbn [filter_nonempty nonempty str_is_empty negb mbind option_bind]. rewrite carried by (by apply Ht). done.
  - destruct (p_permissions p) as [|r rs] eqn:Er; [done|]. rewrite <- Er in *. cbn [fmap option_fmap option_map default from_option id].
    unfold split_context_list. rewrite split_joined; [|done|by rewrite Er|eapply Forall_impl; [exact Hp|]; by intros ? (_ & ? & _)].
    clear -Hp. induction Hp as [|r rs Hw Hp IH]; [done|]. cbn [fmap list_fmap].
    rewrite trim_word by done. unfold str_filter in *. rewrite filter_cons_True by apply Hw. by rewrite IH.
Qed.
End gateway_auth.

(** ** The theorem at work *)

Definition ex_sender : AuthPrincipal :=
  {| p_subject := lit "user-1"; p_roles := [lit "admin"]; p_tenant := Some (lit "acme"); p_permissions := [lit "users:read"];
     p_scopes := []; p_token_id := None; p_issuer := None |}.
Definition ex_claimed : list (rstr * HeaderValue (HttpLib := ex_http)) :=
  [(SUBJECT_HEADER, lit "root"); (PERMISSIONS_HEADER, lit "all"); (lit "accept", lit "text/plain")].

Lemma identity_from_principal_witness :
  let ctx := (from_propagation_headers (lit "r") (propagation (L := ex_http) (authenticated_headers (Some ex_sender) ex_claimed))
                0 Cells_empty).1 in
  subject ctx = Some (lit "user-1") ∧ permissions ctx = [lit "users:read"].
Proof.
  destruct (identity_from_principal (L := ex_http) (LL := ex_http_laws) (Some ex_sender) ex_claimed (lit "r") 0 Cells_empty)
    as [_ H]; [by repeat constructor|].
  destruct H as (Ha & Hp & _).
  - split; [done|by intros t [= <-]|by repeat constructor|by repeat constructor|by repeat constructor].
  - unfold subject. rewrite Ha. split; [reflexivity|exact Hp].
Defined.

(** What is not taken from the client: the user id of the metadata is among the rest. *)
Definition ex_spoofed : list (rstr * HeaderValue (HttpLib := ex_http)) := [(lit "x-roze-meta-uid", lit "root")].

Lemma user_id_metadata_kept :
  metadata_value (lit "uid")
    (from_propagation_headers (lit "r")
       (propagation (L := ex_http) (authenticated_headers (L := ex_http) None ex_spoofed)) 0 Cells_empty).1 =
  Some (lit "root").
Proof. by vm_compute. Qed.
