(* ===== verification/GatewayProxy.v ===== *)
(** * Requests to upstreams (crates/roze-gateway/src/lib.rs)

    Sending a request to an instance of a service, and opening a WebSocket to one.
    Other requests run at every await: each operation of the environment answers and
    may change the whole world, the shared states included. What the handler itself
    does to the shared states is also noted in a trace. *)

From S2P Require Import Prelude Breaker Resilience RateLimit Policy Context Errors Guards Balance HttpTypes Cors GatewayRoute.
From S2P Require Import GatewayUpstream GatewaySocket GatewayAuth Text Scan.

Section proxy.
Context {L : HttpLib} {Value St Ext : Type}.

Abbreviation HeaderMap := (list (rstr * HeaderValue)).

(** ** The world *)

Record Shared :=
  { admission : Admission; retry_budgets : RetryBudgetRegistry; upstreams : UpstreamState }.
Record World :=
  { shared : Shared; store : St; ext : Ext; clock : N; jitter : N; cells : Cells }.

Definition set_shared (f : Shared → Shared) (w : World) : World :=
  {| shared := f (shared w); store := store w; ext := ext w; clock := clock w; jitter := jitter w; cells := cells w |}.
Definition set_admission (a : Admission) : World → World :=
  set_shared (λ s, {| admission := a; retry_budgets := retry_budgets s; upstreams := upstreams s |}).
Definition set_retry_budgets (b : RetryBudgetRegistry) : World → World :=
  set_shared (λ s, {| admission := admission s; retry_budgets := b; upstreams := upstreams s |}).
Definition set_upstreams (u : UpstreamState) : World → World :=
  set_shared (λ s, {| admission := admission s; retry_budgets := retry_budgets s; upstreams := u |}).
Definition set_store (s : St) (w : World) : World :=
  {| shared := shared w; store := s; ext := ext w; clock := clock w; jitter := jitter w; cells := cells w |}.
Definition set_jitter (j : N) (w : World) : World :=
  {| shared := shared w; store := store w; ext := ext w; clock := clock w; jitter := j; cells := cells w |}.
Definition set_cells (c : Cells) (w : World) : World :=
  {| shared := shared w; store := store w; ext := ext w; clock := clock w; jitter := jitter w; cells := c |}.

(** A request that leaves the gateway. *)
Record Outgoing := { out_method : rstr; out_url : rstr; out_headers : HeaderMap; out_body : list N }.

(** What [builder.send()], [response.bytes()] and the steps of a WebSocket answer within their timeouts. *)
Inductive Exchange := Answer (st : N) (h : HeaderMap) | SendError (is_timeout : bool) (error : rstr) | SendElapsed.
Inductive BodyRead := BodyBytes (bytes : list N) | BodyReadError (is_timeout : bool) (error : rstr) | BodyElapsed.
Inductive Connecting := Connected | ConnectError (error : rstr) | ConnectElapsed.
Inductive Shaking := ShakeWriteError (error : rstr) | ShakeReads (reads : list Read) | ShakeElapsed.

Record Environment :=
  { has_registry : bool;
    env_discover : rstr → World → result rstr (list ServiceInstance) * World;
    env_send : Outgoing → N → World → Exchange * World;
    env_bytes : N → World → BodyRead * World;
    env_connect : rstr → N → World → Connecting * World;
    (** the server's name is checked before the connection: [None] is a valid one *)
    server_name_invalid : rstr → option rstr;
    env_tls : rstr → N → World → Connecting * World;
    env_shake : rstr → N → World → Shaking * World;
    env_sleep : N → World → World;
    (** the other requests while this one waits for its own body or for the limiter's store *)
    env_wait : World → World }.

(** ** The handler's trace *)

Inductive event :=
| Allowed (key : rstr) (permit : BreakerPermit)
| Recorded (key : rstr) (permit : BreakerPermit) (success : bool)
| Cancelled (key : rstr) (permit : BreakerPermit)
| SlotTaken (key : rstr)
| SlotRecorded (key : rstr) (success : bool)
| SlotReleased (key : rstr)
| StreamOpened (key : rstr)
| StreamClosed (key : rstr)
| StreamHandedOver (key : rstr) (idle_timeout : option N)
| CallRecorded (key : rstr)
| RetryGranted (key : rstr)
| Sent (r : Outgoing) (at_ timeout : N)
| Shook (h : HeaderMap) (request : rstr) (at_ timeout : N)
| Mirrored (r : Outgoing) (timeout : N).

(** A handler's step: the world and the trace so far are passed on. *)
Definition handler (A : Type) : Type := World * list event → A * (World * list event).
#[local] Instance handler_ret : MRet handler := λ A a w, (a, w).
#[local] Instance handler_bind : MBind handler := λ A B k m w, let '(a, w) := m w in k a w.

Definition gets {A} (f : World → A) : handler A := λ w, (f w.1, w).
Definition modify (f : World → World) : handler () := λ w, (tt, (f w.1, w.2)).
Definition note (e : event) : handler () := λ w, (tt, (w.1, w.2 ++ [e])).
Definition await {A} (f : World → A * World) : handler A := λ w, let '(a, w') := f w.1 in (a, (w', w.2)).

(** ** Shared states *)

Definition update_upstreams (f : UpstreamState → UpstreamState) : handler () :=
  modify (λ w, set_upstreams (f (upstreams (shared w))) w).

Definition upstream_succeeded (t : UpstreamTarget) : handler () :=
  update_upstreams (λ u, set_outliers (record_outlier_success (ut_outlier t) (instance_key t) (outlier_states u)) u).
Definition upstream_failed (t : UpstreamTarget) : handler () :=
  now ← gets clock;
  update_upstreams (λ u, set_outliers (record_outlier_failure (ut_outlier t) (instance_key t) now (outlier_states u)) u).

Definition open_stream (maximum : option N) (key : rstr) : handler (result UpstreamError rstr) :=
  u ← gets (λ w, upstreams (shared w));
  let '(permit, states) := try_acquire_stream_connection maximum key (stream_connections u) in
  match permit with
  | Err e => mret (Err e)
  | Ok permit => modify (set_upstreams (set_streams states u));; note (StreamOpened permit);; mret (Ok permit)
  end.
Definition close_stream (key : rstr) : handler () :=
  update_upstreams (λ u, set_streams (drop_permit key (stream_connections u)) u);; note (StreamClosed key).

(** ** One attempt *)

Context (env : Environment) (debug_tags : gmap rstr rstr → rstr).

Definition resolve_now (service : GatewayService) (route_tags : gmap rstr rstr)
    (discovered : option (result rstr (list ServiceInstance))) : handler (result UpstreamError UpstreamTarget) :=
  now ← gets clock;
  u ← gets (λ w, upstreams (shared w));
  let '(target, u) := resolve_upstream debug_tags service route_tags discovered now u in
  modify (set_upstreams u);; mret target.

(** The registry is asked only when instances come from it. *)
Definition find_upstream (service : GatewayService) (route_tags : gmap rstr rstr)
    : handler (result UpstreamError UpstreamTarget) :=
  match discovered_name service with
  | Some name =>
      if has_registry env
      then discovered ← await (env_discover env name); resolve_now service route_tags (Some discovered)
      else resolve_now service route_tags None
  | None => resolve_now service route_tags None
  end.

Abbreviation Response := (HttpResponse (L := L) Value).

(** The settings of the runtime that an attempt reads. *)
Record StreamSettings := { global_stream_idle_timeout : option N; global_max_stream_connections : option N }.
Context (settings : StreamSettings).

Definition stream_idle_timeout (service : GatewayService) (route : CompiledRoute (Value := Value)) : option N :=
  opt_or (rt_stream_idle_timeout route)
    (opt_or (from_millis <$> gs_stream_idle_timeout_ms service) (global_stream_idle_timeout settings)).
Definition stream_maximum (service : GatewayService) (route : CompiledRoute (Value := Value)) : option N :=
  opt_or (rt_max_stream_connections route)
    (opt_or (gs_max_stream_connections service) (global_max_stream_connections settings)).

Definition upstream_url (target : UpstreamTarget) (route : CompiledRoute (Value := Value)) (path : rstr)
    (query : option rstr) : rstr :=
  with_query (join_url (base target) (rewrite_path (rt_path route) (rt_rewrite route) path)) query.

Definition end_to_end (h : HeaderMap) : HeaderMap := filter (λ nv, is_hop_by_hop_header nv.1 = false) h.

Definition fail_upstream {A} (t : UpstreamTarget) (e : UpstreamError) : handler (result UpstreamError A) :=
  upstream_failed t;; mret (Err e).

Definition send_upstream (service : GatewayService) (route : CompiledRoute (Value := Value)) (method path : rstr)
    (query : option rstr) (h : HeaderMap) (body : list N) (ctx : Context) : handler (result UpstreamError Response) :=
  target ← find_upstream service (rt_instance_tags route);
  match target with
  | Err e => mret (Err e)
  | Ok target =>
      now ← gets clock;
      let timeout := default 0 (remaining_timeout now ctx) in
      if timeout =? 0 then mret (Err UTimeout)
      else
        let request := {| out_method := method; out_url := upstream_url target route path query; out_headers := h;
                          out_body := body |} in
        note (Sent request now timeout);;
        answer ← await (env_send env request timeout);
        match answer with
        | SendElapsed => fail_upstream target UTimeout
        | SendError is_timeout error => fail_upstream target (if is_timeout then UTimeout else URequest error)
        | Answer st response_headers =>
            let st := if status_valid st then st else 502 in
            let out_headers := end_to_end response_headers in
            if is_sse_response st response_headers then
              permit ← open_stream (stream_maximum service route) (stream_key (rt_service route) (lit "sse") (rt_path route));
              match permit with
              | Err e => mret (Err e)
              | Ok permit =>
                  upstream_succeeded target;;
                  note (StreamHandedOver permit (stream_idle_timeout service route));;
                  mret (Ok {| status := st; headers := out_headers; body := StreamBody |})
              end
            else
              now ← gets clock;
              let body_timeout := default 0 (remaining_timeout now ctx) in
              if body_timeout =? 0 then fail_upstream target UTimeout
              else
                rest ← await (env_bytes env body_timeout);
                match rest with
                | BodyElapsed => fail_upstream target UTimeout
                | BodyReadError is_timeout error => fail_upstream target (if is_timeout then UTimeout else URequest error)
                | BodyBytes bytes =>
                    (if is_server_error st then upstream_failed target else upstream_succeeded target);;
                    mret (Ok {| status := st; headers := out_headers; body := BytesBody bytes |})
                end
        end
  end.

(** ** A WebSocket *)

Context (sha1 : list N → list N) (base64 : list N → rstr) (utf8_error : list N → rstr) (error_text : HttpError → rstr)
        (status_display : N → rstr) (url_parse : rstr → result rstr Url).

(** A request as it came, its body aside. *)
Record Upgrade := { up_method : rstr; up_query : option rstr; up_headers : HeaderMap }.

(** What is inserted of the upstream's headers: the last of each name. *)
Definition upgrade_headers (h : HeaderMap) : HeaderMap :=
  foldl (λ out nv, if str_in [lit "content-length"; lit "transfer-encoding"] nv.1 then out else h_insert nv.1 nv.2 out) [] h.

(** An error after the permit was taken: it is dropped on the way out. *)
Definition abandon {A} (permit : rstr) (e : UpstreamError) : handler (result UpstreamError A) :=
  close_stream permit;; mret (Err e).
Definition abandon_failed {A} (t : UpstreamTarget) (permit : rstr) (e : UpstreamError) : handler (result UpstreamError A) :=
  upstream_failed t;; abandon permit e.

Definition check_tls (target : WebSocketTarget) (timeout : N) : handler (result UpstreamError ()) :=
  if negb (secure target) then mret (Ok tt)
  else
    match server_name_invalid env (server_name target) with
    | Some error => mret (Err (Protocol (lit "invalid WebSocket TLS server name: " ++ error)))
    | None =>
        answer ← await (env_tls env (server_name target) timeout);
        mret (match answer with
              | Connected => Ok tt
              | ConnectError error => Err (Protocol (lit "WebSocket TLS handshake failed: " ++ error))
              | ConnectElapsed => Err UTimeout
              end)
    end.

Definition shake (h : HeaderMap) (request : rstr) (now timeout : N)
    : handler (result UpstreamError WebSocketHandshakeResponse) :=
  note (Shook h request now timeout);;
  answer ← await (env_shake env request timeout);
  mret (match answer with
        | ShakeWriteError error => Err (Protocol (lit "WebSocket handshake write failed: " ++ error))
        | ShakeElapsed => Err UTimeout
        | ShakeReads reads =>
            match read_websocket_handshake_response utf8_error error_text reads with
            | Some (r, _) => r
            | None => Err UTimeout
            end
        end).

(** The name a service sets for its certificate replaces the host's. *)
Definition socket_target (service : GatewayService) (url : rstr) : result UpstreamError WebSocketTarget :=
  target ← websocket_target url_parse url;
  Ok (match gs_tls service ≫= tls_server_name with
      | Some name => if str_is_empty (trim name) then target
                     else {| wt_addr := wt_addr target; authority := authority target;
                             path_and_query := path_and_query target; server_name := name; secure := secure target |}
      | None => target
      end).

(** From the connection on, the permit held. *)
Definition shake_hands (service : GatewayService) (route : CompiledRoute (Value := Value)) (request : Upgrade)
    (target : UpstreamTarget) (permit : rstr) (socket : WebSocketTarget) (expected_accept : rstr) (ctx : Context)
    : handler (result UpstreamError Response) :=
  now ← gets clock;
  tls ← check_tls socket (default 0 (remaining_timeout now ctx));
  match tls with
  | Err e => abandon_failed target permit e
  | Ok _ =>
      match build_websocket_handshake_request (up_method request) (up_headers request) socket with
      | Err e => abandon permit e
      | Ok text =>
          now ← gets clock;
          answer ← shake (up_headers request) text now (default 0 (remaining_timeout now ctx));
          match answer with
          | Err e => abandon_failed target permit e
          | Ok handshake =>
              if negb (ws_status handshake =? 101)
              then abandon_failed target permit
                     (Protocol (lit "WebSocket upstream handshake returned " ++ status_display (ws_status handshake)))
              else
                match validate_websocket_handshake (up_headers request) handshake expected_accept with
                | Err e => abandon permit e
                | Ok _ =>
                    upstream_succeeded target;;
                    note (StreamHandedOver permit (stream_idle_timeout service route));;
                    mret (Ok {| status := 101; headers := upgrade_headers (ws_headers handshake); body := EmptyBody |})
                end
          end
      end
  end.

Definition proxy_websocket (service : GatewayService) (route : CompiledRoute (Value := Value)) (request : Upgrade)
    (path : rstr) (ctx : Context) : handler (result UpstreamError Response) :=
  target ← find_upstream service (rt_instance_tags route);
  match target with
  | Err e => mret (Err e)
  | Ok target =>
      permit ← open_stream (stream_maximum service route) (stream_key (rt_service route) (lit "websocket") (rt_path route));
      match permit with
      | Err e => mret (Err e)
      | Ok permit =>
          match socket_target service (upstream_url target route path (up_query request)),
                expected_websocket_accept sha1 base64 (up_headers request) with
          | Err e, _ | Ok _, Err e => abandon permit e
          | Ok socket, Ok expected_accept =>
              now ← gets clock;
              let timeout := default 0 (remaining_timeout now ctx) in
              if timeout =? 0 then abandon permit UTimeout
              else
                connected ← await (env_connect env (wt_addr socket) timeout);
                match connected with
                | ConnectError error =>
                    abandon_failed target permit (Protocol (lit "WebSocket upstream connect failed: " ++ error))
                | ConnectElapsed => abandon_failed target permit UTimeout
                | Connected => shake_hands service route request target permit socket expected_accept ctx
                end
          end
      end
  end.
End proxy.
