(* ===== verification/Gateway.v ===== *)
(** * The gateway (crates/roze-gateway/src/lib.rs)

    A request from its arrival to its response: routing, authentication, the limiter,
    the breaker and the shedder of the route, the attempts with their retries, and the
    fallbacks; around it the CORS policy. *)

From S2P Require Import Prelude Breaker Resilience RateLimit Policy Context Errors Guards Balance HttpTypes Cors GatewayRoute.
From S2P Require Import GatewayUpstream GatewaySocket Auth ClientIp GatewayAuth GatewayProxy Text Scan.

Section gateway.
Context {L : HttpLib} {J : JwtLib} {I : IpNetLib} {Value St Ext : Type} {RS : RateLimitStore St}.

Abbreviation HeaderMap := (list (rstr * HeaderValue)).
Abbreviation Response := (HttpResponse (L := L) Value).
Abbreviation Route := (CompiledRoute (Value := Value)).
Abbreviation Fallback := (GatewayFallbackResponse (Value := Value)).
Abbreviation GH := (handler (L := L) (St := St) (Ext := Ext)).

#[local] Existing Instance handler_ret.
#[local] Existing Instance handler_bind.

(** ** The runtime and requests *)

Record GatewayRuntime :=
  { routes : list Route; services : gmap rstr GatewayService; global_timeout : option N; streams : StreamSettings;
    global_fallback : option Fallback; global_middlewares : list rstr; jwt : option JwtConfig;
    api_keys : option ApiKeyConfig; request_body_limit_bytes : N; rate_limiter : RateLimiter;
    trusted_proxies : list IpNet; cors : option CorsPolicy }.

(** The body is what collecting it gives. *)
Record Request :=
  { rq_method : rstr; rq_path : rstr; rq_query : option rstr; rq_headers : HeaderMap; rq_peer : option IpAddr;
    rq_body : result rstr (list N) }.

Context (runtime : GatewayRuntime) (env : Environment (L := L) (St := St) (Ext := Ext)).
Context (debug_tags : gmap rstr rstr → rstr) (sha1 sha256 : list N → list N) (base64 utf8_error : list N → rstr)
        (error_text : HttpError → rstr) (status_display : N → rstr) (url_parse : rstr → result rstr Url)
        (ip_text : IpAddr → rstr) (unix_secs : N → N) (generated : N → rstr).

(** ** Responses *)

Definition fallback_response (fallback : option Fallback) (st : N) (message : rstr) : Response :=
  match fallback with
  | None => text_response st message
  | Some f =>
      let st := if status_valid (gf_status f) then gf_status f else st in
      let response := match gf_body f with Some v => json_response st v | None => text_response st message end in
      with_headers_of (λ h, foldl (λ h nv, match parse_name nv.1, from_str nv.2 with
                                           | Some name, Some value => h_insert name value h
                                           | _, _ => h
                                           end) h (btree_iter (gf_headers f))) response
  end.

Definition route_fallback (route : Route) : option Fallback := opt_or (rt_fallback route) (global_fallback runtime).

(** A response with the outcome it is recorded under. *)
Definition finished (outcome : String.string) (r : Response) : rstr * Response := (lit outcome, r).
Definition refused (route : Route) (outcome : String.string) (st : N) (message : rstr) : rstr * Response :=
  finished outcome (fallback_response (route_fallback route) st message).

(** ** The gates *)

Definition gate_key (method : rstr) (route : Route) : rstr :=
  OperationKey_new (rt_service route) Gateway (method ++ lit ":" ++ rt_path route).

(** [None] when the breaker is open. *)
Definition admit_breaker (key : rstr) (route : Route) : GH (option (option BreakerPermit)) :=
  now ← gets clock;
  a ← gets (λ w, admission (shared w));
  let '(r, a) := breaker_admit key (resolve_breaker <$> rt_breaker route) a now in
  modify (set_admission a);;
  match r with
  | Err _ => mret None
  | Ok None => mret (Some None)
  | Ok (Some permit) => note (Allowed key permit);; mret (Some (Some permit))
  end.

Definition finish_breaker (key : rstr) (permit : option BreakerPermit) (route : Route) (success : bool) : GH () :=
  match permit, rt_breaker route with
  | Some permit, Some config =>
      now ← gets clock;
      modify (λ w, set_admission (breaker_record key permit success (resolve_breaker config) (admission (shared w)) now) w);;
      note (Recorded key permit success)
  | _, _ => mret tt
  end.

Definition cancel_breaker (key : rstr) (permit : option BreakerPermit) (route : Route) : GH () :=
  match permit, rt_breaker route with
  | Some permit, Some config =>
      now ← gets clock;
      modify (λ w, set_admission (breaker_cancel key permit (resolve_breaker config) (admission (shared w)) now) w);;
      note (Cancelled key permit)
  | _, _ => mret tt
  end.

(** [GatewaySheddingGuard]: its configuration and start. *)
Record SheddingGuard := { sg_key : rstr; sg_config : SheddingConfig; sg_started : N }.

Definition set_shedders (f : SheddingRegistry → SheddingRegistry) : GH () :=
  modify (λ w, set_admission {| ad_breakers := ad_breakers (admission (shared w));
                                ad_shedders := f (ad_shedders (admission (shared w))) |} w).

(** [None] when the request is shed. *)
Definition admit_shedding (key : rstr) (route : Route) : GH (option (option SheddingGuard)) :=
  match rt_shedding route with
  | None => mret (Some None)
  | Some settings =>
      let config := resolve_shedding settings in
      now ← gets clock;
      a ← gets (λ w, admission (shared w));
      let '(ok, r) := SheddingRegistry_allow (ad_shedders a) key config now in
      set_shedders (λ _, r);;
      if ok then
        note (SlotTaken key);; now ← gets clock;
        mret (Some (Some {| sg_key := key; sg_config := config; sg_started := now |}))
      else mret None
  end.

Definition finish_shedding (guard : option SheddingGuard) (success : bool) : GH () :=
  match guard with
  | None => mret tt
  | Some g =>
      now ← gets clock;
      set_shedders (λ r, SheddingRegistry_record r (sg_key g) success (now - sg_started g) (sg_config g) now);;
      note (SlotRecorded (sg_key g) success)
  end.
Definition drop_shedding (guard : option SheddingGuard) : GH () :=
  match guard with
  | None => mret tt
  | Some g => set_shedders (λ r, SheddingRegistry_release r (sg_key g));; note (SlotReleased (sg_key g))
  end.

(** ** The limiter *)

Definition rate_identity (request : Request) (h : HeaderMap) (route : Route) (ctx : Context) : RateLimitIdentity :=
  with_headers (omap (λ nv, (λ v, (nv.1, v)) <$> to_str nv.2) h)
    {| RateLimit.service := lit "gateway"; boundary := lit "gateway";
       operation := rq_method request ++ lit ":" ++ rt_path route;
       RateLimit.client_ip := (λ peer, ip_text (resolve (trusted_proxies runtime) peer h)) <$> rq_peer request;
       id_subject := subject ctx; id_tenant := tenant ctx; id_headers := ∅ |}.

(** The response of a request that is turned away. *)
Definition rate_limited_response (route : Route) (decision : result RateLimitError RateLimitDecision) : rstr * Response :=
  let with_retry_after := λ (delay : N) (r : Response),
    match from_str (dec (N.max (seconds_ceil delay) 1)) with
    | Some v => with_headers_of (h_insert (lit "retry-after") v) r
    | None => r
    end in
  match decision with
  | Ok d => finished "rate_limited" (with_retry_after (retry_after d) (text_response 429 (lit "too many requests")))
  | Err StoreUnavailable => refused route "rate_limit_unavailable" 503 (lit "rate limit store unavailable")
  | Err _ => finished "rate_limited" (with_retry_after (from_secs 1) (text_response 429 (lit "too many requests")))
  end.

Definition check_rate_limit (request : Request) (h : HeaderMap) (route : Route) (ctx : Context)
    : GH (option (rstr * Response)) :=
  match rt_rate_limit route with
  | None => mret None
  | Some config =>
      now ← gets clock;
      s ← gets store;
      let '(decision, s) :=
        RateLimiter_check sha256 (rate_limiter runtime) (lc_key config) (rate_identity request h route ctx)
          {| burst := lc_burst config; refill := from_millis (N.max (lc_refill_ms config) 1);
             tokens_per_refill := lc_tokens_per_refill config |} now s in
      modify (set_store s);;
      await (λ w, (tt, env_wait env w));;
      mret (match decision with
            | Ok d => if allowed d then None else Some (rate_limited_response route decision)
            | Err _ => Some (rate_limited_response route decision)
            end)
  end.

(** ** The attempts *)

Definition retry_reason (r : result UpstreamError Response) : option rstr :=
  match r with
  | Ok response => if retryable_gateway_status (status response) then Some (lit "status_" ++ dec (status response)) else None
  | Err UTimeout => Some (lit "timeout")
  | Err (URequest _) => Some (lit "upstream_error")
  | Err (UUnavailable _) => Some (lit "unavailable")
  | Err _ => None
  end.

(** Whether another attempt is made: the budget grants it, and the deadline leaves time
    for the delay, before it and after it. *)
Definition wait_for_retry (key : rstr) (route : Route) (ctx : Context) (next_retry : N) : GH bool :=
  now ← gets clock;
  b ← gets (λ w, retry_budgets (shared w));
  let '(granted, b) := RetryBudgetRegistry_allow_retry b key (rt_retry_budget_percent route) now in
  modify (set_retry_budgets b);;
  if negb granted then mret false
  else
    note (RetryGranted key);;
    j ← gets jitter;
    let '(delay, j) := full_jitter_delay j (rt_retry_backoff route) (rt_retry_max_backoff route) next_retry in
    modify (set_jitter j);;
    c ← gets cells;
    now ← gets clock;
    if retry_context_exhausted c ctx now delay then mret false
    else
      (if delay =? 0 then mret tt else await (λ w, (tt, env_sleep env delay w)));;
      c ← gets cells;
      now ← gets clock;
      mret (negb (retry_context_exhausted c ctx now 0)).

(** [more] retries may still be made, [retries] have been. *)
Fixpoint attempts (send : GH (result UpstreamError Response)) (key : rstr) (route : Route) (ctx : Context)
    (more : nat) (retries : N) : GH (result UpstreamError Response) :=
  result ← send;
  match more with
  | O => mret result
  | S more =>
      match retry_reason result with
      | None => mret result
      | Some _ =>
          again ← wait_for_retry key route ctx (retries + 1);
          if (again : bool) then attempts send key route ctx more (retries + 1) else mret result
      end
  end.

Definition upstream_success (r : result UpstreamError Response) : bool :=
  match r with
  | Ok response => negb (is_server_error (status response))
  | Err StreamCapacity => true
  | Err _ => false
  end.

(** The response for what the attempts came to. *)
Definition upstream_response (route : Route) (r : result UpstreamError Response) : rstr * Response :=
  match r with
  | Ok response =>
      if is_server_error (status response)
      then finished "upstream_server_error"
             (match route_fallback route with
              | Some f => fallback_response (Some f) 502 (lit "upstream server error")
              | None => response
              end)
      else finished "ok" response
  | Err UTimeout => refused route "timeout" 504 (lit "upstream timeout")
  | Err (URequest error) => refused route "upstream_failed" 502 error
  | Err (UUnavailable error) | Err (Protocol error) => refused route "upstream_unavailable" 502 error
  | Err StreamCapacity => refused route "stream_capacity" 429 (lit "too many active gateway streams")
  end.

(** ** WebSockets *)

Definition websocket_success (r : result UpstreamError Response) : bool :=
  match r with
  | Ok response => status response =? 101
  | Err StreamCapacity => true
  | Err _ => false
  end.

Definition websocket_response (route : Route) (r : result UpstreamError Response) : rstr * Response :=
  match r with
  | Ok response => finished "websocket_upgraded" response
  | Err StreamCapacity => refused route "stream_capacity" 429 (lit "too many active gateway streams")
  | Err UTimeout => refused route "websocket_timeout" 504 (lit "WebSocket upstream handshake timeout")
  | Err e => refused route "websocket_failed" 502 (UpstreamError_text e)
  end.

(** ** A request behind its gates *)

Definition settle (key : rstr) (permit : option BreakerPermit) (guard : option SheddingGuard) (route : Route)
    (success : bool) : GH () :=
  finish_breaker key permit route success;; finish_shedding guard success.

Definition mirror (route : Route) (request : Request) (h : HeaderMap) (bytes : list N) : GH () :=
  match mirror_request (services runtime) (global_timeout runtime) route (rq_path request) (rq_query request) with
  | Some (url, timeout) =>
      note (Mirrored {| out_method := rq_method request; out_url := url; out_headers := h; out_body := bytes |} timeout)
  | None => mret tt
  end.

(** Early returns drop the guard. *)
Definition turn_away (key : rstr) (permit : option BreakerPermit) (guard : option SheddingGuard) (route : Route)
    (r : rstr * Response) : GH (rstr * Response) :=
  cancel_breaker key permit route;; drop_shedding guard;; mret r.

Definition proceed (request : Request) (h : HeaderMap) (service : GatewayService) (route : Route) (ctx : Context)
    (key : rstr) (permit : option BreakerPermit) (guard : option SheddingGuard) : GH (rstr * Response) :=
  if is_websocket_upgrade h then
    result ← proxy_websocket env debug_tags (streams runtime) sha1 base64 utf8_error error_text status_display url_parse
               service route {| up_method := rq_method request; up_query := rq_query request; up_headers := h |}
               (rq_path request) ctx;
    settle key permit guard route (websocket_success result);;
    mret (websocket_response route result)
  else
    await (λ w, (tt, env_wait env w));;
    match rq_body request with
    | Err error =>
        turn_away key permit guard route
          (finished "bad_request_body" (text_response 400 (lit "failed to read request body: " ++ error)))
    | Ok bytes =>
        if request_body_limit_bytes runtime <? N.of_nat (length bytes)
        then turn_away key permit guard route
               (finished "body_too_large" (text_response 413 (lit "request body too large")))
        else
          let out := end_to_end h in
          mirror route request out bytes;;
          now ← gets clock;
          modify (λ w, set_retry_budgets (RetryBudgetRegistry_record_call (retry_budgets (shared w)) key now) w);;
          note (CallRecorded key);;
          result ← attempts
            (send_upstream env debug_tags (streams runtime) service route (rq_method request) (rq_path request)
               (rq_query request) out bytes ctx)
            key route ctx (if is_idempotent_method (rq_method request) then N.to_nat (rt_retries route) else 0%nat) 0;
          settle key permit guard route (upstream_success result);;
          mret (upstream_response route result)
    end.

(** ** The gates of a request *)

Definition through_gates (request : Request) (h : HeaderMap) (service : GatewayService) (route : Route) (ctx : Context)
    : GH (rstr * Response) :=
  let key := gate_key (rq_method request) route in
  limited ← check_rate_limit request h route ctx;
  match limited with
  | Some r => mret r
  | None =>
      permit ← admit_breaker key route;
      match permit with
      | None => mret (refused route "breaker_open" 503 (lit "service temporarily unavailable"))
      | Some permit =>
          guard ← admit_shedding key route;
          match guard with
          | None =>
              cancel_breaker key permit route;;
              mret (refused route "load_shed" 429 (lit "gateway load shed"))
          | Some guard => proceed request h service route ctx key permit guard
          end
      end
  end.

(** The context from the headers, its deadline within the route's timeout. *)
Definition request_context (h : HeaderMap) (service : GatewayService) (route : Route) : GH Context :=
  now ← gets clock;
  c ← gets cells;
  let '(ctx, c) := from_propagation_headers (generated 2) (propagation h) now c in
  modify (set_cells c);;
  mret (gateway_context (default DEFAULT_TIMEOUT
          (opt_or (rt_timeout route) (opt_or (from_millis <$> gs_timeout_ms service) (global_timeout runtime)))) now ctx).

(** Who the route's policy finds the request to be from; [None] when it asks for somebody
    and finds nobody. *)
Definition identify (h : HeaderMap) (route : Route) (now : N) : option (option AuthPrincipal) :=
  match auth_policy (global_middlewares runtime) (rt_middlewares route) with
  | None => Some None
  | Some policy =>
      match validate_request_auth (clear_untrusted_auth_context_headers h) policy (jwt runtime) (api_keys runtime)
              (unix_secs now) with
      | Some p => Some (Some p)
      | None => None
      end
  end.

Definition correlated (h : HeaderMap) : HeaderMap :=
  ensure_correlation_header TRACE_ID_HEADER (generated 1) (ensure_correlation_header REQUEST_ID_HEADER (generated 0) h).

Definition handle_inner (request : Request) : GH (rstr * Response) :=
  match select_route (routes runtime) (rq_path request) (rq_headers request) with
  | None =>
      mret (finished "no_route" (fallback_response (global_fallback runtime) 404 (lit "gateway route not found")))
  | Some route =>
      if negb (method_allowed route (rq_method request))
      then mret (refused route "method_not_allowed" 405 (lit "method not allowed"))
      else
        match services runtime !! rt_service route with
        | None => mret (refused route "service_not_found" 502 (lit "gateway service not found"))
        | Some service =>
            let h := correlated (rq_headers request) in
            now ← gets clock;
            match identify h route now with
            | None => mret (refused route "unauthorized" 401 (lit "unauthorized"))
            | Some p =>
                let h := authenticated_headers p h in
                ctx ← request_context h service route;
                through_gates request h service route ctx
            end
        end
  end.

(** [GatewayRuntime::handle]: the CORS policy around it. *)
Definition handle (request : Request) : GH Response :=
  match cors runtime with
  | None => r ← handle_inner request; mret r.2
  | Some policy =>
      match preflight policy (rq_method request) (rq_headers request) with
      | Some response => mret response
      | None =>
          r ← handle_inner request;
          mret (match allowed_origin policy (rq_headers request) with
                | Some origin => with_headers_of (apply_simple_response origin) r.2
                | None => r.2
                end)
      end
  end.
End gateway.

(** ** Building and reloading

    The states that requests share outlive a reload, so they are no part of it; nor are
    the tasks of the health checks and the TLS files of WebSockets. *)

Section building.
Context {L : HttpLib} {I : IpNetLib} {Value : Type}.
Context (to_uppercase to_lowercase : rstr → rstr) (error_text : HttpError → rstr) (server_name_error : rstr → option rstr).

Definition build_gateway_runtime (config : GatewayConfig (Value := Value)) (jwt : option JwtConfig)
    (api_keys : option ApiKeyConfig) (governance : option (GovernanceConfig Value)) : result rstr GatewayRuntime :=
  trusted_proxies ← TrustedProxyConfig_new (gw_trusted_proxy_cidrs config);
  limiter ← RateLimiter_from_config (default RateLimiterConfig_default (gc_rate_limiter <$> governance));
  Ok {| routes := sort_routes (compile_routes to_uppercase to_lowercase (gw_routes config) governance);
        services := service_map (gw_services config);
        global_timeout := opt_or (from_millis <$> gw_timeout_ms config) (from_millis <$> (governance ≫= gc_timeout_ms));
        streams := {| global_stream_idle_timeout := from_millis <$> gw_stream_idle_timeout_ms config;
                      global_max_stream_connections := gw_max_stream_connections config |};
        global_fallback := opt_or (governance ≫= governance_fallback) (gw_fallback config);
        global_middlewares := normalize_middlewares to_lowercase (gw_middlewares config);
        jwt := jwt; api_keys := api_keys;
        request_body_limit_bytes := default (2 * 1024 * 1024) (gw_request_body_limit_bytes config);
        rate_limiter := fst limiter; trusted_proxies := trusted_proxies;
        cors := CorsPolicy_new <$> gw_cors config |}.

Definition try_build (config : GatewayConfig (Value := Value)) (jwt : option JwtConfig)
    (api_keys : option ApiKeyConfig) (governance : option (GovernanceConfig Value)) : result rstr GatewayRuntime :=
  _ ← validate_gateway_config error_text server_name_error config;
  build_gateway_runtime config jwt api_keys governance.

(** What the next requests are handled by: the old runtime when the new is refused. *)
Definition reload (config : GatewayConfig (Value := Value)) (jwt : option JwtConfig) (api_keys : option ApiKeyConfig)
    (governance : option (GovernanceConfig Value)) (current : GatewayRuntime) : result rstr () * GatewayRuntime :=
  match try_build config jwt api_keys governance with
  | Ok next => (Ok tt, next)
  | Err e => (Err e, current)
  end.
End building.
