(* ===== verification/GatewayTrace.v ===== *)
(** * What a request does (crates/roze-gateway/src/lib.rs)

    The theorems on the handler of Gateway.v: a small logic of what its steps add to
    the trace, whatever the world answers. *)

From S2P Require Import Prelude Breaker Resilience RateLimit Policy Context Errors Guards Balance HttpTypes Cors GatewayRoute.
From S2P Require Import GatewayUpstream GatewaySocket Auth ClientIp GatewayAuth GatewayProxy Gateway Text Scan.

#[local] Existing Instance handler_ret.
#[local] Existing Instance handler_bind.

Section logic.
Context {L : HttpLib} {St Ext : Type}.
Abbreviation GH := (handler (L := L) (St := St) (Ext := Ext)).
(** Whatever the world is, the step ends with a result and a trace in [Q]. *)
Definition twp {A} (m : GH A) (Q : A → list event → Prop) (tr : list event) : Prop :=
  ∀ w, Q (m (w, tr)).1 (m (w, tr)).2.2.

Lemma twp_bind {A B} (m : GH A) (k : A → GH B) Q tr : twp m (λ a, twp (k a) Q) tr → twp (m ≫= k) Q tr.
Proof.
  intros Hm w. specialize (Hm w). unfold mbind, handler_bind. destruct (m (w, tr)) as [a [w' tr']]. apply (Hm w').
Qed.
Lemma twp_ret {A} (a : A) (Q : A → list event → Prop) tr : Q a tr → twp (mret a) Q tr.
Proof. by intros HQ w. Qed.
Lemma twp_gets {A} (f : World → A) (Q : A → list event → Prop) tr : (∀ a, Q a tr) → twp (gets f) Q tr.
Proof. intros HQ w. apply HQ. Qed.
Lemma twp_modify (f : World → World) (Q : () → list event → Prop) tr : Q tt tr → twp (modify f) Q tr.
Proof. by intros HQ w. Qed.
Lemma twp_note e (Q : () → list event → Prop) tr : Q tt (tr ++ [e]) → twp (note e) Q tr.
Proof. by intros HQ w. Qed.
Lemma twp_await {A} (f : World → A * World) (Q : A → list event → Prop) tr : (∀ a, Q a tr) → twp (await f) Q tr.
Proof. intros HQ w. unfold await. cbn. destruct (f w). apply HQ. Qed.
Lemma twp_mono {A} (m : GH A) (P Q : A → list event → Prop) tr : twp m P tr → (∀ a t, P a t → Q a t) → twp m Q tr.
Proof. intros HP HPQ w. apply HPQ, HP. Qed.
End logic.

(** Steps forward as long as a rule applies. *)
Ltac step :=
  lazymatch goal with
  | |- twp (mbind _ _) _ _ => apply twp_bind
  | |- twp (mret _) _ _ => apply twp_ret
  | |- twp (gets _) _ _ => apply twp_gets; intros ?
  | |- twp (modify _) _ _ => apply twp_modify
  | |- twp (note _) _ _ => apply twp_note
  | |- twp (await _) _ _ => apply twp_await; intros ?
  end; cbv beta.
Ltac steps := repeat step.

Section held.
Context {L : HttpLib} {Value St Ext : Type}.
Abbreviation GH := (handler (L := L) (St := St) (Ext := Ext)).
Implicit Types tr : list event.

(** ** What a request holds *)

Record held := { hd_permit : option (rstr * BreakerPermit); hd_slot : option rstr; hd_stream : option rstr }.
Definition nothing : held := {| hd_permit := None; hd_slot := None; hd_stream := None |}.

(** [None] when something is taken twice, or given back without being held. *)
Definition hold (o : option held) (e : event) : option held :=
  h ← o;
  match e with
  | Allowed key p =>
      if is_some (hd_permit h) then None else Some {| hd_permit := Some (key, p); hd_slot := hd_slot h; hd_stream := hd_stream h |}
  | Recorded key p _ | Cancelled key p =>
      if decide (hd_permit h = Some (key, p))
      then Some {| hd_permit := None; hd_slot := hd_slot h; hd_stream := hd_stream h |} else None
  | SlotTaken key =>
      if is_some (hd_slot h) then None else Some {| hd_permit := hd_permit h; hd_slot := Some key; hd_stream := hd_stream h |}
  | SlotRecorded key _ | SlotReleased key =>
      if decide (hd_slot h = Some key)
      then Some {| hd_permit := hd_permit h; hd_slot := None; hd_stream := hd_stream h |} else None
  | StreamOpened key =>
      if is_some (hd_stream h) then None else Some {| hd_permit := hd_permit h; hd_slot := hd_slot h; hd_stream := Some key |}
  | StreamClosed key | StreamHandedOver key _ =>
      if decide (hd_stream h = Some key)
      then Some {| hd_permit := hd_permit h; hd_slot := hd_slot h; hd_stream := None |} else None
  | _ => Some h
  end.
Definition holding (tr : list event) : option held := foldl hold (Some nothing) tr.

Lemma holding_snoc tr e : holding (tr ++ [e]) = hold (holding tr) e.
Proof. unfold holding. by rewrite foldl_app. Qed.

(** ** What may be in the trace of an attempt *)

Definition is_sent (e : event) : bool := match e with Sent _ _ _ => true | _ => false end.
Definition is_grant (e : event) : bool := match e with RetryGranted _ => true | _ => false end.
Definition count_if (p : event → bool) (tr : list event) : nat := length (filter (λ e, p e = true) tr).

Lemma count_if_app p tr1 tr2 : count_if p (tr1 ++ tr2) = (count_if p tr1 + count_if p tr2)%nat.
Proof. unfold count_if. by rewrite filter_app, length_app. Qed.

(** Events that add nothing to what is held, if no stream is. *)
Definition neutral (tr : list event) : Prop := ∀ h, hd_stream h = None → foldl hold (Some h) tr = Some h.

Lemma neutral_app tr1 tr2 : neutral tr1 → neutral tr2 → neutral (tr1 ++ tr2).
Proof. intros H1 H2 h Hh. rewrite foldl_app, H1 by done. by apply H2. Qed.

(** What goes out carries these headers, within the deadline. *)
Definition carries (h : list (rstr * HeaderValue)) (deadline : option N) (e : event) : Prop :=
  match e with
  | Sent r t timeout => out_headers r = end_to_end h ∧ 0 < timeout ∧ deadline = Some (t + timeout)
  | Shook h' _ t timeout => h' = h ∧ (0 < timeout → deadline = Some (t + timeout))
  | Mirrored r _ => out_headers r = end_to_end h
  | _ => True
  end.

Record attempt (h : list (rstr * HeaderValue)) (deadline : option N) (tr : list event) : Prop :=
  { at_neutral : neutral tr;
    at_carries : Forall (carries h deadline) tr;
    at_sent : (count_if is_sent tr ≤ 1)%nat;
    at_grants : count_if is_grant tr = 0%nat }.

Context (env : Environment (L := L) (St := St) (Ext := Ext)) (debug_tags : gmap rstr rstr → rstr) (settings : StreamSettings).

(** What a step adds to the trace. *)
Definition adds (R : list event → Prop) {A} (m : GH A) : Prop := ∀ tr, twp m (λ _ tr', ∃ es, tr' = tr ++ es ∧ R es) tr.

Lemma find_upstream_silent service tags Q tr : (∀ a, Q a tr) → twp (find_upstream env debug_tags service tags) Q tr.
Proof.
  intros HQ. assert (∀ d, twp (St := St) (Ext := Ext) (resolve_now debug_tags service tags d) Q tr) as Hr.
  { intros d. unfold resolve_now. steps. destruct (resolve_upstream _ _ _ _ _ _) as [target u]. steps. apply HQ. }
  unfold find_upstream. destruct (discovered_name service); [destruct (has_registry env)|]; steps; apply Hr.
Qed.

Lemma remaining_deadline now ctx : default 0 (remaining_timeout now ctx) ≠ 0 →
  deadline ctx = Some (now + default 0 (remaining_timeout now ctx)).
Proof.
  unfold remaining_timeout. destruct (deadline ctx) as [d|]; cbn; [|done]. destruct (now <=? d) eqn:E; guard_prop; cbn; [|done].
  intros _. f_equal. lia.
Qed.

Abbreviation Route := (CompiledRoute (Value := Value)).

#[local] Ltac leaf := eexists; split; [first [symmetry; apply app_nil_r | rewrite <- ?app_assoc; reflexivity]|].

Lemma attempt_nil h d : attempt h d [].
Proof. split; [by intros k Hk|constructor|cbn; lia|done]. Qed.

#[local] Ltac each_carries := repeat first [apply Forall_nil_2 | apply Forall_cons_2; [first [assumption|exact I]|]].

Lemma send_upstream_adds service (route : Route) method path query h body ctx :
  adds (attempt h (deadline ctx)) (send_upstream env debug_tags settings service route method path query (end_to_end h) body ctx).
Proof.
  intros tr. unfold send_upstream. apply twp_bind, find_upstream_silent. intros [target|e].
  2: { steps. leaf. apply attempt_nil. }
  step. step. destruct (default 0 (remaining_timeout a ctx) =? 0) eqn:Et; guard_prop; [steps; leaf; apply attempt_nil|].
  steps. set (e := Sent _ _ _).
  assert (carries h (deadline ctx) e) as He by (split; [done|]; split; [lia|by apply remaining_deadline]).
  assert (∀ Q : result UpstreamError (HttpResponse (L := L) Value) → list event → Prop, ∀ tr,
    (∀ a, Q a tr) → ∀ er, twp (St := St) (Ext := Ext) (fail_upstream target er) Q tr) as Hfail
    by (intros; unfold fail_upstream, upstream_failed, update_upstreams; steps; auto).
  assert (attempt h (deadline ctx) [e]) as H1 by (split; [done|each_carries|vm_compute; lia|done]).
  destruct a0 as [st hs|t er|]; [|apply Hfail; intros; leaf; done..].
  destruct (is_sse_response _ _).
  - steps. unfold open_stream. steps. destruct (try_acquire_stream_connection _ _ _) as [[permit|er] states]; steps; [|leaf; done].
    unfold upstream_succeeded, update_upstreams. steps. leaf. split; [|each_carries|vm_compute; lia|done].
    intros k Hk. cbn -[decide]. rewrite Hk. cbn -[decide]. rewrite decide_True by done. by destruct k; cbn in *; subst.
  - steps. destruct (_ =? 0); [apply Hfail; intros; leaf; done|]. steps. destruct a1; [|apply Hfail; intros; leaf; done..].
    steps. destruct (is_server_error _); unfold upstream_failed, upstream_succeeded, update_upstreams; steps; leaf; done.
Qed.

Context (sha1 : list N → list N) (base64 : list N → rstr) (utf8_error : list N → rstr) (error_text : HttpError → rstr)
        (status_display : N → rstr) (url_parse : rstr → result rstr Url).

(** What follows the opening of a stream: at most the handshake, then the permit goes. *)
Definition opened (h : list (rstr * HeaderValue)) (deadline : option N) (permit : rstr) (tr : list event) : Prop :=
  ∃ mid last, tr = mid ++ [last] ∧ (last = StreamClosed permit ∨ ∃ idle, last = StreamHandedOver permit idle) ∧
  (mid = [] ∨ ∃ text t timeout, mid = [Shook h text t timeout] ∧ (0 < timeout → deadline = Some (t + timeout))).

Lemma opened_attempt h d permit tr : opened h d permit tr → attempt h d (StreamOpened permit :: tr).
Proof.
  intros (mid & e & -> & He & Hmid). split.
  - intros k Hk.
    assert (∀ j, hd_stream j = Some permit → hold (Some j) e = Some {| hd_permit := hd_permit j; hd_slot := hd_slot j; hd_stream := None |}) as Hlast.
    { intros j Hj. destruct He as [->|[idle ->]]; cbn -[decide]; by rewrite decide_True. }
    assert (hold (Some k) (StreamOpened permit) =
            Some {| hd_permit := hd_permit k; hd_slot := hd_slot k; hd_stream := Some permit |}) as Hopen by (cbn; by rewrite Hk).
    change (foldl hold (hold (Some k) (StreamOpened permit)) (mid ++ [e]) = Some k). rewrite Hopen, foldl_app.
    assert (∀ j, foldl hold (Some j) mid = Some j) as -> by (intros j; by destruct Hmid as [->|(text & t & timeout & -> & _)]).
    cbn [foldl]. rewrite Hlast by done. destruct k; cbn in *; by subst.
  - destruct Hmid as [->|(text & t & timeout & -> & Ht)]; destruct He as [->|[idle ->]]; repeat constructor; auto.
  - destruct Hmid as [->|(text & t & timeout & -> & _)]; destruct He as [->|[idle ->]]; vm_compute; lia.
  - destruct Hmid as [->|(text & t & timeout & -> & _)]; destruct He as [->|[idle ->]]; done.
Qed.

Lemma abandoned {A} (Q : result UpstreamError A → list event → Prop) permit e tr :
  (∀ a, Q a (tr ++ [StreamClosed permit])) → twp (St := St) (Ext := Ext) (abandon permit e) Q tr.
Proof. intros HQ. unfold abandon, close_stream, update_upstreams. steps. apply HQ. Qed.

Lemma abandoned_failed {A} (Q : result UpstreamError A → list event → Prop) target permit e tr :
  (∀ a, Q a (tr ++ [StreamClosed permit])) → twp (St := St) (Ext := Ext) (abandon_failed target permit e) Q tr.
Proof. intros HQ. unfold abandon_failed, upstream_failed, update_upstreams. steps. by apply abandoned. Qed.

#[local] Ltac closes := intros; leaf; eexists [], _; split; [reflexivity|]; split; [by left|by left].

Lemma shake_hands_adds service (route : Route) request target permit socket accept ctx :
  adds (opened (up_headers request) (deadline ctx) permit)
    (shake_hands env settings utf8_error error_text status_display service route request target permit socket accept ctx).
Proof.
  intros tr. unfold shake_hands. steps.
  assert (twp (St := St) (Ext := Ext) (check_tls env socket (default 0 (remaining_timeout a ctx))) (λ _ tr', tr' = tr) tr) as Htls.
  { unfold check_tls. destruct (negb (secure socket)); [by steps|]. destruct (server_name_invalid env _); by steps. }
  apply (twp_mono _ _ _ _ Htls). intros tls t ->. destruct tls as [|e]; [|apply abandoned_failed; closes].
  destruct (build_websocket_handshake_request _ _ _) as [text|e]; [|apply abandoned; closes].
  steps. unfold shake. steps.
  set (e := Shook _ _ _ _).
  assert (∀ last, last = StreamClosed permit ∨ (∃ idle, last = StreamHandedOver permit idle) →
    ∃ es, (tr ++ [e]) ++ [last] = tr ++ es ∧ opened (up_headers request) (deadline ctx) permit es) as Hopened.
  { intros last Hlast. exists ([e] ++ [last]). split; [by rewrite <- app_assoc|]. exists [e], last. split; [done|].
    split; [done|]. right. eexists _, _, _. split; [done|]. intros Ht. apply remaining_deadline. lia. }
  match goal with |- context [match ?a with ShakeWriteError _ => _ | _ => _ end] => generalize a end. intros answer.
  match goal with |- twp (match ?r with _ => _ end) _ _ => destruct r as [handshake|er] end;
    [|apply abandoned_failed; intros; apply Hopened; by left].
  destruct (negb _); [apply abandoned_failed; intros; apply Hopened; by left|].
  destruct (validate_websocket_handshake _ _ _); [|apply abandoned; intros; apply Hopened; by left].
  unfold upstream_succeeded, update_upstreams. steps. apply Hopened. eauto.
Qed.

Lemma proxy_websocket_adds service (route : Route) request path ctx :
  adds (attempt (up_headers request) (deadline ctx))
    (proxy_websocket env debug_tags settings sha1 base64 utf8_error error_text status_display url_parse service route request path ctx).
Proof.
  intros tr. unfold proxy_websocket. apply twp_bind, find_upstream_silent. intros [target|e].
  2: { steps. leaf. apply attempt_nil. }
  steps. unfold open_stream. steps.
  destruct (try_acquire_stream_connection _ _ _) as [[permit|e] states]; steps; [|leaf; apply attempt_nil].
  assert (∀ es, opened (up_headers request) (deadline ctx) permit es →
    ∃ es', (tr ++ [StreamOpened permit]) ++ es = tr ++ es' ∧ attempt (up_headers request) (deadline ctx) es') as Hopened.
  { intros es Hes. exists (StreamOpened permit :: es). split; [by rewrite <- app_assoc|]. by apply opened_attempt. }
  assert (opened (up_headers request) (deadline ctx) permit [StreamClosed permit]) as Hclosed
    by (exists [], (StreamClosed permit); split; [done|]; split; by left).
  destruct (socket_target _ _ _) as [socket|e]; [|apply abandoned; intros; by apply Hopened].
  destruct (expected_websocket_accept _ _ _) as [accept|e]; [|apply abandoned; intros; by apply Hopened].
  steps. destruct (_ =? 0); [apply abandoned; intros; by apply Hopened|]. steps.
  destruct a1; [|apply abandoned_failed; intros; by apply Hopened..].
  eapply twp_mono; [apply shake_hands_adds|]. cbn beta. intros _ tr' (es & -> & Hes). by apply Hopened.
Qed.
End held.

Section requests.
Context {L : HttpLib} {J : JwtLib} {I : IpNetLib} {Value St Ext : Type} {RS : RateLimitStore St}.
Abbreviation GH := (handler (L := L) (St := St) (Ext := Ext)).
Abbreviation Response := (HttpResponse (L := L) Value).
Abbreviation Route := (CompiledRoute (Value := Value)).
#[local] Ltac leaf := eexists; split; [first [symmetry; apply app_nil_r | rewrite <- ?app_assoc; reflexivity]|].

Context (runtime : GatewayRuntime (Value := Value)) (env : Environment (L := L) (St := St) (Ext := Ext)).
Context (debug_tags : gmap rstr rstr → rstr) (sha1 sha256 : list N → list N) (base64 utf8_error : list N → rstr)
        (error_text : HttpError → rstr) (status_display : N → rstr) (url_parse : rstr → result rstr Url)
        (ip_text : IpAddr → rstr) (unix_secs : N → N) (generated : N → rstr).

(** ** The attempts of a request *)

Record attempted (h : list (rstr * HeaderValue)) (deadline : option N) (more : nat) (tr : list event) : Prop :=
  { am_neutral : neutral tr;
    am_carries : Forall (carries h deadline) tr;
    am_sent : (count_if is_sent tr ≤ 1 + more)%nat;
    am_granted : (count_if is_sent tr ≤ 1 + count_if is_grant tr)%nat }.

Lemma attempt_attempted h d more tr : attempt h d tr → attempted h d more tr.
Proof. intros [H1 H2 H3 H4]. split; [done|done|lia|lia]. Qed.

Lemma attempted_more h d more tr tr' :
  attempt h d tr → attempted h d more tr' →
  ∀ key, attempted h d (S more) (tr ++ [RetryGranted key] ++ tr').
Proof.
  intros [H1 H2 H3 H4] [H5 H6 H7 H8] key. split.
  - apply neutral_app; [done|]. by apply (neutral_app [_]).
  - rewrite !Forall_app. by repeat constructor.
  - rewrite !count_if_app. change (count_if is_sent [RetryGranted key]) with 0%nat. lia.
  - rewrite !count_if_app. change (count_if is_sent [RetryGranted key]) with 0%nat.
    change (count_if is_grant [RetryGranted key]) with 1%nat. lia.
Qed.

Lemma wait_for_retry_adds key (route : Route) ctx next tr :
  twp (wait_for_retry env key route ctx next) (λ again tr', (tr' = tr ∧ again = false) ∨ tr' = tr ++ [RetryGranted key]) tr.
Proof.
  unfold wait_for_retry. steps. destruct (RetryBudgetRegistry_allow_retry _ _ _ _) as [granted b]. steps.
  destruct (negb granted); steps; [by left|]. destruct (full_jitter_delay _ _ _ _) as [delay j]. steps.
  destruct (retry_context_exhausted _ _ _ _); steps; [by right|]. destruct (delay =? 0); steps; by right.
Qed.

Lemma attempts_adds send key (route : Route) ctx h d more retries :
  adds (attempt h d) send → adds (attempted h d more) (attempts env send key route ctx more retries).
Proof.
  intros Hsend. revert retries. induction more as [|more IH]; intros retries tr; cbn [attempts]; apply twp_bind.
  - eapply twp_mono; [apply Hsend|]. cbn beta. intros r tr' (es & -> & Hes). steps. exists es. split; [done|]. by apply attempt_attempted.
  - eapply twp_mono; [apply Hsend|]. cbn beta. intros r tr' (es & -> & Hes).
    destruct (retry_reason r); [|steps; exists es; split; [done|]; by apply attempt_attempted].
    apply twp_bind. eapply twp_mono; [apply wait_for_retry_adds|]. cbn beta. intros again tr' [[-> ->]| ->].
    + steps. exists es. split; [done|]. by apply attempt_attempted.
    + destruct again.
      * eapply twp_mono; [apply IH|]. cbn beta. intros _ tr' (es' & -> & Hes'). exists (es ++ [RetryGranted key] ++ es').
        split; [by rewrite <- !app_assoc|]. by apply attempted_more.
      * steps. exists (es ++ [RetryGranted key]). split; [by rewrite <- app_assoc|].
        pose proof (attempted_more h d more es [] Hes) as Hm. specialize (Hm (attempt_attempted _ _ _ _ (attempt_nil h d)) key).
        exact Hm.
Qed.

(** ** What is held is given back *)

(** Events that send nothing and are no retry. *)
Definition inward (e : event (L := L)) : Prop :=
  match e with Sent _ _ _ | Shook _ _ _ _ | Mirrored _ _ | RetryGranted _ => False | _ => True end.

Lemma inward_carries h d es : Forall inward es → Forall (carries h d) es.
Proof. intros Hes. eapply Forall_impl; [exact Hes|]. by intros []. Qed.
Lemma inward_counts es : Forall inward es → count_if is_sent es = 0%nat ∧ count_if is_grant es = 0%nat.
Proof.
  induction 1 as [|e es He _ [IH1 IH2]]; [done|]. change (e :: es) with ([e] ++ es). rewrite !count_if_app, IH1, IH2. by destruct e.
Qed.

Definition guard_key (guard : option SheddingGuard) : option rstr := sg_key <$> guard.
Definition held_with (key : rstr) (permit : option BreakerPermit) (guard : option SheddingGuard) : held :=
  {| hd_permit := (λ p, (key, p)) <$> permit; hd_slot := guard_key guard; hd_stream := None |}.

Definition gives_back (key : rstr) (permit : option BreakerPermit) (guard : option SheddingGuard) (es : list (event (L := L))) : Prop :=
  foldl hold (Some (held_with key permit guard)) es = Some nothing ∧ Forall inward es.

#[local] Ltac given_back := leaf; split; [cbn -[decide]; repeat (rewrite decide_True by done; cbn -[decide]); done|repeat constructor].

Lemma settle_adds key permit guard (route : Route) success :
  (is_Some permit → is_Some (rt_breaker route)) →
  adds (gives_back key permit guard) (settle (St := St) (Ext := Ext) key permit guard route success).
Proof.
  intros Hb tr. unfold settle, finish_breaker, finish_shedding, set_shedders.
  destruct permit as [permit|]; [destruct Hb as [config ->]; [done|]|]; (destruct guard as [g|]; steps; given_back).
Qed.

Lemma turn_away_adds key permit guard (route : Route) r :
  (is_Some permit → is_Some (rt_breaker route)) →
  adds (gives_back key permit guard) (turn_away (L := L) (Value := Value) (St := St) (Ext := Ext) key permit guard route r).
Proof.
  intros Hb tr. unfold turn_away, cancel_breaker, drop_shedding, set_shedders.
  destruct permit as [permit|]; [destruct Hb as [config ->]; [done|]|]; (destruct guard as [g|]; steps; given_back).
Qed.

(** ** The whole of a request *)

Definition refusals : list rstr :=
  [lit "no_route"; lit "method_not_allowed"; lit "service_not_found"; lit "unauthorized"; lit "rate_limited";
   lit "rate_limit_unavailable"; lit "breaker_open"; lit "load_shed"; lit "bad_request_body"; lit "body_too_large"].

Record request_trace (from : held) (h : list (rstr * HeaderValue)) (deadline : option N) (more : nat) (outcome : rstr)
    (tr : list event) : Prop :=
  { rq_back : foldl hold (Some from) tr = Some nothing;
    rq_carries : Forall (carries h deadline) tr;
    rq_sent : (count_if is_sent tr ≤ 1 + more)%nat;
    rq_granted : (count_if is_sent tr ≤ 1 + count_if is_grant tr)%nat;
    rq_refused : str_in refusals outcome = true → Forall inward tr }.

Lemma gives_back_trace key permit guard h d more outcome es :
  gives_back key permit guard es → request_trace (held_with key permit guard) h d more outcome es.
Proof.
  intros [Hb Hi]. destruct (inward_counts es Hi) as [Hs Hg]. split; [done|by apply inward_carries|lia|lia|done].
Qed.

Lemma attempted_trace key permit guard h d more outcome es es' :
  attempted h d more es → gives_back key permit guard es' → str_in refusals outcome = false →
  request_trace (held_with key permit guard) h d more outcome (es ++ es').
Proof.
  intros [H1 H2 H3 H4] [Hb Hi] Ho. destruct (inward_counts es' Hi) as [Hs Hg]. split.
  - rewrite foldl_app, H1 by done. done.
  - rewrite Forall_app. split; [done|by apply inward_carries].
  - rewrite count_if_app. lia.
  - rewrite !count_if_app. lia.
  - by rewrite Ho.
Qed.

Lemma upstream_outcome (route : Route) r : str_in refusals (upstream_response runtime route r).1 = false.
Proof. destruct r as [response|[]]; cbn -[refusals]; [destruct (is_server_error _)|..]; by vm_compute. Qed.
Lemma websocket_outcome (route : Route) r : str_in refusals (websocket_response runtime route r).1 = false.
Proof. destruct r as [response|[]]; by vm_compute. Qed.

Definition retries_for (request : Request (L := L)) (route : Route) : nat :=
  if is_idempotent_method (rq_method request) then N.to_nat (rt_retries route) else 0%nat.

Lemma proceed_adds request h service (route : Route) ctx key permit guard tr :
  (is_Some permit → is_Some (rt_breaker route)) →
  twp (proceed runtime env debug_tags sha1 base64 utf8_error error_text status_display url_parse request h service route
         ctx key permit guard)
    (λ out tr', ∃ es, tr' = tr ++ es ∧
       request_trace (held_with key permit guard) h (deadline ctx) (retries_for request route) out.1 es) tr.
Proof.
  intros Hb. unfold proceed. destruct (is_websocket_upgrade h).
  { apply twp_bind. eapply twp_mono; [apply proxy_websocket_adds|]. cbn beta. cbn [up_headers]. intros r tr' (es & -> & Hes).
    apply twp_bind. eapply twp_mono; [by apply settle_adds|]. cbn beta. intros _ tr' (es' & -> & Hes'). steps.
    exists (es ++ es'). split; [by rewrite app_assoc|]. apply attempted_trace; [by apply attempt_attempted|done|apply websocket_outcome]. }
  apply twp_bind, twp_await; intros _. destruct (rq_body request) as [bytes|error].
  2: { eapply twp_mono; [by apply turn_away_adds|]. cbn beta. intros a tr' (es & -> & Hes). exists es. split; [done|]. by apply gives_back_trace. }
  destruct (request_body_limit_bytes runtime <? _).
  { eapply twp_mono; [by apply turn_away_adds|]. cbn beta. intros a tr' (es & -> & Hes). exists es. split; [done|]. by apply gives_back_trace. }
  assert (∀ tr, twp (St := St) (Ext := Ext) (mirror runtime route request (end_to_end h) bytes)
            (λ _ tr', ∃ es, tr' = tr ++ es ∧ neutral es ∧ Forall (carries h (deadline ctx)) es ∧
                            count_if is_sent es = 0%nat ∧ count_if is_grant es = 0%nat) tr) as Hmirror.
  { intros tr0. unfold mirror. destruct (mirror_request _ _ _ _ _) as [[url timeout]|]; steps; leaf;
      (split; [by intros k|]); split; [by repeat constructor|done|by repeat constructor|done]. }
  apply twp_bind. eapply twp_mono; [apply Hmirror|]. cbn beta. intros _ tr' (em & -> & Hem & Hemc & Hems & Hemg). steps.
  eapply twp_mono; [apply attempts_adds, send_upstream_adds|]. cbn beta. intros r tr' (es & -> & Hes).
  apply twp_bind. eapply twp_mono; [by apply settle_adds|]. cbn beta. intros _ tr' (es' & -> & Hes'). steps.
  fold (retries_for request route) in Hes.
  exists ((em ++ [CallRecorded key] ++ es) ++ es'). split; [by rewrite <- !app_assoc|].
  apply attempted_trace; [|done|apply upstream_outcome]. destruct Hes as [H1 H2 H3 H4]. split.
  - apply neutral_app; [done|]. by apply (neutral_app [_]).
  - rewrite !Forall_app. by repeat constructor.
  - rewrite !count_if_app, Hems. done.
  - rewrite !count_if_app, Hems, Hemg. done.
Qed.

Lemma after_gates from h d more outcome pre es :
  foldl hold (Some nothing) pre = Some from → Forall inward pre →
  request_trace from h d more outcome es → request_trace nothing h d more outcome (pre ++ es).
Proof.
  intros Hpre Hi [H1 H2 H3 H4 H5]. destruct (inward_counts pre Hi) as [Hs Hg]. split.
  - by rewrite foldl_app, Hpre.
  - rewrite Forall_app. split; [by apply inward_carries|done].
  - rewrite count_if_app. lia.
  - rewrite !count_if_app. lia.
  - intros Ho. rewrite Forall_app. auto.
Qed.

Lemma nothing_sent h d more outcome : request_trace nothing h d more outcome [].
Proof. split; [done|constructor|cbn; lia|cbn; lia|by constructor]. Qed.

Lemma check_rate_limit_silent request h (route : Route) ctx Q tr :
  (∀ r, Q r tr) → twp (St := St) (Ext := Ext) (check_rate_limit runtime env sha256 ip_text request h route ctx) Q tr.
Proof.
  intros HQ. unfold check_rate_limit. destruct (rt_rate_limit route); [|by steps]. steps.
  destruct (RateLimiter_check _ _ _ _ _ _ _) as [decision s]. steps. apply HQ.
Qed.

Lemma admit_breaker_adds key (route : Route) tr :
  twp (St := St) (Ext := Ext) (admit_breaker key route)
    (λ r tr', match r with Some (Some p) => tr' = tr ++ [Allowed key p] ∧ is_Some (rt_breaker route) | _ => tr' = tr end) tr.
Proof.
  unfold admit_breaker. steps. destruct (breaker_admit _ _ _ _) as [[[permit|]|e] a'] eqn:E; steps; [|done..]. split; [done|].
  unfold breaker_admit in E. by destruct (rt_breaker route).
Qed.

Lemma admit_shedding_adds key (route : Route) tr :
  twp (St := St) (Ext := Ext) (admit_shedding key route)
    (λ r tr', match r with Some (Some g) => tr' = tr ++ [SlotTaken key] ∧ sg_key g = key | _ => tr' = tr end) tr.
Proof.
  unfold admit_shedding, set_shedders. destruct (rt_shedding route); [|by steps]. steps.
  destruct (SheddingRegistry_allow _ _ _ _) as [[] r]; by steps.
Qed.

Lemma through_gates_adds request h service (route : Route) ctx tr :
  twp (through_gates runtime env debug_tags sha1 sha256 base64 utf8_error error_text status_display url_parse ip_text
         request h service route ctx)
    (λ out tr', ∃ es, tr' = tr ++ es ∧
       request_trace nothing h (deadline ctx) (retries_for request route) out.1 es) tr.
Proof.
  unfold through_gates. apply twp_bind, check_rate_limit_silent. intros [r|].
  { steps. leaf. apply nothing_sent. }
  set (key := gate_key _ _). apply twp_bind. eapply twp_mono; [apply admit_breaker_adds|]. cbn beta.
  intros [permit|] tr' Hp; [|subst; steps; leaf; apply nothing_sent].
  assert (∃ pre, tr' = tr ++ pre ∧ foldl hold (Some nothing) pre = Some (held_with key permit None) ∧ Forall inward pre ∧
                 (is_Some permit → is_Some (rt_breaker route))) as (pre & -> & Hpre & Hi & Hb).
  { destruct permit as [p|]; [destruct Hp as [-> Hb]; exists [Allowed key p]|subst; exists []; rewrite app_nil_r];
      by repeat constructor. }
  clear Hp. apply twp_bind. eapply twp_mono; [apply admit_shedding_adds|]. cbn beta. intros [guard|] tr' Hg.
  - assert (∃ pre', tr' = tr ++ pre' ∧ foldl hold (Some nothing) pre' = Some (held_with key permit guard) ∧ Forall inward pre')
      as (pre' & -> & Hpre' & Hi').
    { destruct guard as [g|]; [destruct Hg as [-> Hk]; exists (pre ++ [SlotTaken key])|subst; by exists pre].
      split; [by rewrite <- app_assoc|]. rewrite foldl_app, Hpre. split; [|rewrite Forall_app; by repeat constructor].
      cbn. unfold held_with, guard_key. cbn. by rewrite Hk. }
    eapply twp_mono; [by apply proceed_adds|]. cbn beta. intros out tr' (es & -> & Hes).
    exists (pre' ++ es). split; [by rewrite app_assoc|]. by eapply after_gates.
  - subst tr'. apply twp_bind.
    assert (∀ t, twp (St := St) (Ext := Ext) (cancel_breaker key permit route)
              (λ _ t', ∃ es, t' = t ++ es ∧ gives_back key permit None es) t) as Hcancel.
    { intros t. unfold cancel_breaker. destruct permit as [p|]; [destruct Hb as [config ->]; [done|]|]; steps;
        leaf; (split; [cbn -[decide]; repeat (rewrite decide_True by done; cbn -[decide]); done|repeat constructor]). }
    eapply twp_mono; [apply Hcancel|]. cbn beta. intros _ tr' (es & -> & Hes). steps.
    exists (pre ++ es). split; [by rewrite app_assoc|]. eapply after_gates; [done..|]. by apply gives_back_trace.
Qed.

Abbreviation handled := (handle_inner runtime env debug_tags sha1 sha256 base64 utf8_error error_text status_display url_parse
  ip_text unix_secs generated).

Definition route_timeout (service : GatewayService) (route : Route) : N :=
  default DEFAULT_TIMEOUT (opt_or (rt_timeout route) (opt_or (from_millis <$> gs_timeout_ms service) (global_timeout runtime))).

Lemma gateway_deadline timeout now ctx : ∃ d, deadline (gateway_context timeout now ctx) = Some d ∧ d ≤ now + timeout.
Proof.
  unfold gateway_context, remaining_timeout. destruct (deadline ctx) as [d|] eqn:E; cbn; [|by exists (now + timeout)].
  destruct (now <=? d) eqn:Ed; guard_prop; cbn; [eexists; split; [done|lia]|]. exists d. split; [done|lia].
Qed.

Lemma bind_run {A B} (m : GH A) (k : A → GH B) w a w' : m w = (a, w') → (m ≫= k) w = k a w'.
Proof. intros Hm. unfold mbind, handler_bind. by rewrite Hm. Qed.

Lemma request_context_run h service (route : Route) w tr :
  ∃ ctx w' d, request_context (St := St) (Ext := Ext) runtime generated h service route (w, tr) = (ctx, (w', tr)) ∧
  deadline ctx = Some d ∧ d ≤ clock w + route_timeout service route.
Proof.
  unfold request_context. erewrite bind_run by reflexivity. erewrite bind_run by reflexivity. cbn [fst].
  destruct (from_propagation_headers _ _ _ _) as [ctx c].
  destruct (gateway_deadline (route_timeout service route) (clock w) ctx) as (d & Hd & Hle).
  eexists _, _, d. split; [reflexivity|]. done.
Qed.

(** A request is refused at once, or goes through the gates of its route. *)
Lemma handled_cases request w :
  (str_in refusals (handled request (w, [])).1.1 = true ∧ (handled request (w, [])).2.2 = []) ∨
  ∃ route service p d,
    select_route (routes runtime) (rq_path request) (rq_headers request) = Some route ∧
    services runtime !! rt_service route = Some service ∧
    identify runtime unix_secs (correlated generated (rq_headers request)) route (clock w) = Some p ∧
    d ≤ clock w + route_timeout service route ∧
    request_trace nothing (authenticated_headers p (correlated generated (rq_headers request))) (Some d)
      (retries_for request route) (handled request (w, [])).1.1 (handled request (w, [])).2.2.
Proof.
  unfold handle_inner. destruct (select_route _ _ _) as [route|] eqn:Er; [|by left].
  destruct (negb (method_allowed _ _)); [by left|].
  destruct (services runtime !! rt_service route) as [service|] eqn:Es; [|by left].
  set (h := correlated _ _). erewrite bind_run by reflexivity. cbn [fst].
  destruct (identify _ _ h route (clock w)) as [p|] eqn:Ei; [|by left].
  destruct (request_context_run (authenticated_headers p h) service route w []) as (ctx & w' & d & Hrun & Hd & Hle).
  rewrite (bind_run _ _ _ _ _ Hrun). right. exists route, service, p, d. do 4 (split; [done|]).
  destruct (through_gates_adds request (authenticated_headers p h) service route ctx [] w') as (es & Htr & Hes).
  rewrite Htr, app_nil_l. rewrite <- Hd. exact Hes.
Qed.

(** C22: What a request takes it gives back. Whatever the environment answers, with other
    requests running at every await, a request that ends has taken a permit of its
    breaker, a slot of its shedder and a permit of a stream at most one at a time, and
    settled each exactly once: the breaker's permit with the outcome or a cancellation,
    the slot with the outcome or a release, the stream's by dropping it or handing it to
    the body or the tunnel that goes on. *)
Theorem gateway_gives_back request w : holding (handled request (w, [])).2.2 = Some nothing.
Proof.
  destruct (handled_cases request w) as [[_ ->]|(route & service & p & d & _ & _ & _ & _ & Ht)]; [done|]. apply Ht.
Qed.

(** C24: The gateway sends little and in time. A refused request sends nothing anywhere,
    not even to a mirror; any other is sent to its upstream at most once and once more
    for every retry its budget granted, at most as often as the route says, and only
    once if its method is not idempotent; and every time is given a timeout that ends
    no later than the route's timeout after the request came. So the route's timeout is
    one deadline that all attempts share: docs/contracts/gateway.md has each attempt
    apply it anew, which the code does not do. *)
Theorem gateway_sends_bounded request w :
  let '(out, (_, tr)) := handled request (w, []) in
  (str_in refusals out.1 = true → Forall inward tr) ∧
  (count_if is_sent tr ≤ 1 + count_if is_grant tr)%nat ∧
  ((0 < count_if is_sent tr)%nat → ∃ route service,
     select_route (routes runtime) (rq_path request) (rq_headers request) = Some route ∧
     services runtime !! rt_service route = Some service ∧
     (count_if is_sent tr ≤ 1 + (if is_idempotent_method (rq_method request) then N.to_nat (rt_retries route) else 0))%nat ∧
     ∀ r t timeout, Sent r t timeout ∈ tr → 0 < timeout ∧ t + timeout ≤ clock w + route_timeout service route).
Proof.
  destruct (handled request (w, [])) as [out [w' tr]] eqn:E. pose proof (handled_cases request w) as Hc. rewrite E in Hc.
  cbn [fst snd] in Hc. destruct Hc as [[_ ->]|(route & service & p & d & Hr & Hs & _ & Hd & [H1 H2 H3 H4 H5])].
  { split; [by constructor|]. split; [cbn; lia|]. cbn. lia. }
  split; [done|]. split; [done|]. intros _. exists route, service. do 3 (split; [done|]).
  intros r t timeout Hin. rewrite Forall_forall in H2. destruct (H2 _ Hin) as (_ & Hpos & [= ->]). split; [done|lia].
Qed.

(** The headers a request leaves with. *)
Definition leaving (e : event (L := L)) : option (list (rstr * HeaderValue)) :=
  match e with
  | Sent r _ _ | Mirrored r _ => Some (out_headers r)
  | Shook h _ _ _ => Some h
  | _ => None
  end.

Lemma end_to_end_all name h : is_hop_by_hop_header name = false → h_all name (end_to_end h) = h_all name h.
Proof.
  intros Hn. unfold end_to_end. induction h as [|[n v] h IH]; [done|]. rewrite filter_cons. cbn [fst].
  destruct (decide (is_hop_by_hop_header n = false)) as [Hf|Hf]; rewrite !h_all_cons, <- IH, ?h_all_cons; [done|].
  destruct (str_eqb n name) eqn:E; [|done]. apply str_eqb_eq in E as ->. congruence.
Qed.

(** C23: Upstreams see only the identity the gateway established. Whatever leaves the
    gateway for a request, an attempt, a mirrored copy or a WebSocket handshake, carries
    in its identity headers the principal that the route's policy authenticated, and
    nothing in them when the route has no policy; a request whose policy finds nobody
    sends nothing. *)
Theorem gateway_forwards_identity request w :
  let tr := (handled request (w, [])).2.2 in
  ∀ e h, e ∈ tr → leaving e = Some h → ∃ route p,
    select_route (routes runtime) (rq_path request) (rq_headers request) = Some route ∧
    identify runtime unix_secs (correlated generated (rq_headers request)) route (clock w) = Some p ∧
    ∀ name, name ∈ identity_headers → h_all name h = option_list (p ≫= λ p, identity_value p name).
Proof.
  intros tr e h He Hh. subst tr. destruct (handled_cases request w) as [[_ Hnil]|(route & service & p & d & Hr & _ & Hp & _ & [_ Hc _ _ _])].
  { rewrite Hnil in He. by apply not_elem_of_nil in He. }
  exists route, p. split; [done|]. split; [done|]. intros name Hn.
  rewrite Forall_forall in Hc. specialize (Hc e He). set (h0 := correlated _ _) in *.
  assert (h = authenticated_headers p h0 ∨ h = end_to_end (authenticated_headers p h0)) as Hcases.
  { destruct e; try done; cbn in Hh, Hc; injection Hh as <-; [right; apply Hc|left; apply Hc|right; apply Hc]. }
  assert (is_hop_by_hop_header name = false) as Hhop.
  { assert (Forall (λ n, is_hop_by_hop_header n = false) identity_headers) as Hf by (repeat constructor).
    rewrite Forall_forall in Hf. by apply Hf. }
  apply str_in_spec in Hn.
  destruct Hcases as [-> | ->]; rewrite ?end_to_end_all, forwarded_identity, Hn by done; by destruct (p ≫= _).
Qed.
End requests.

(** ** A configuration that validates can serve *)

Section reloads.
Context {L : HttpLib} {I : IpNetLib} {Value : Type}.
Context (to_uppercase to_lowercase : rstr → rstr) (error_text : HttpError → rstr) (server_name_error : rstr → option rstr).

(** A configuration with what is given beside it. *)
Record Setting :=
  { st_config : GatewayConfig (Value := Value); st_jwt : option JwtConfig; st_api_keys : option ApiKeyConfig;
    st_governance : option (GovernanceConfig Value) }.
Definition built (s : Setting) : result rstr GatewayRuntime :=
  try_build to_uppercase to_lowercase error_text server_name_error (st_config s) (st_jwt s) (st_api_keys s) (st_governance s).
Definition reloads (l : list Setting) (runtime : GatewayRuntime) : GatewayRuntime :=
  foldl (λ runtime s, (reload to_uppercase to_lowercase error_text server_name_error
                         (st_config s) (st_jwt s) (st_api_keys s) (st_governance s) runtime).2) runtime l.

Lemma sort_routes_elem r (l : list (CompiledRoute (Value := Value))) : r ∈ sort_routes l ↔ r ∈ l.
Proof. induction l as [|r' l IH]; [done|]. cbn [sort_routes foldr]. by rewrite insert_route_elem, elem_of_cons, IH. Qed.

(** What a runtime answers a request with is there. *)
Record serves (runtime : GatewayRuntime (Value := Value)) (route : CompiledRoute (Value := Value)) : Prop :=
  { sv_service : ∃ s, services runtime !! rt_service route = Some s ∧ gs_name s = rt_service route;
    sv_mirror : ∀ m, rt_mirror_service route = Some m → ∃ s, services runtime !! m = Some s ∧ gs_name s = m;
    sv_path : starts_with (lit "/") (rt_path route) = true;
    sv_shares : rt_traffic_percent route ≤ 100 ∧ rt_mirror_percent route ≤ 100 }.

(** C25: A gateway serves what it routes, through every reload. From a configuration that
    was accepted, and whatever is reloaded, the runtime in force is that of the last
    configuration that was accepted: every one after it was refused. The next reload
    takes effect if it is accepted, and changes nothing but answers the error if it is
    refused. Every route a request can be given has its
    service and its mirror among the configured ones, so that no request is answered
    that its service was not found. *)
Theorem gateway_reload_serves first l runtime0 :
  (∀ m, is_Some (parse_method m) → is_Some (parse_method (to_uppercase (trim m)))) →
  built first = Ok runtime0 →
  let runtime := reloads l runtime0 in
  (∃ pre s refused, first :: l = pre ++ s :: refused ∧ built s = Ok runtime ∧
     Forall (λ s', is_ok (built s') = false) refused) ∧
  (∀ s, reload to_uppercase to_lowercase error_text server_name_error
          (st_config s) (st_jwt s) (st_api_keys s) (st_governance s) runtime =
        match built s with Ok next => (Ok tt, next) | Err e => (Err e, runtime) end) ∧
  ∀ path h route, select_route (routes runtime) path h = Some route → serves runtime route.
Proof.
  intros Hup Hfirst runtime.
  assert (∃ pre s refused, first :: l = pre ++ s :: refused ∧ built s = Ok runtime ∧
     Forall (λ s', is_ok (built s') = false) refused) as (pre & s & refused & Hin & Hs & Href).
  { unfold runtime, reloads. induction l as [|s l IH] using rev_ind;
      [exists [], first, []; by split_and!|].
    rewrite foldl_app. cbn [foldl]. destruct IH as (pre & s' & refused & Hin & Hs' & Href).
    unfold reload at 1. fold (built s). rewrite app_comm_cons, Hin.
    destruct (built s) as [next|e] eqn:E; cbn [snd].
    - exists (pre ++ s' :: refused), s, []. by split_and!.
    - exists pre, s', (refused ++ [s]). rewrite <- app_assoc. split_and!; [done..|].
      apply Forall_app. split; [done|]. constructor; [by rewrite E|done]. }
  split; [by exists pre, s, refused|]. split; [done|].
  intros path h route Hr. unfold built, try_build in Hs.
  destruct (validate_gateway_config _ _ (st_config s)) as [[]|] eqn:Hv; [|done]. cbn [mbind result_bind] in Hs.
  unfold build_gateway_runtime in Hs. destruct (TrustedProxyConfig_new _) as [proxies|]; [|done]. cbn [mbind result_bind] in Hs.
  destruct (RateLimiter_from_config _) as [limiter|]; [|done]. cbn [mbind result_bind] in Hs. injection Hs as Hs.
  rewrite <- Hs in Hr. cbn [routes] in Hr. apply List.find_some in Hr as [Hr _].
  apply list_elem_of_In, sort_routes_elem, list_elem_of_fmap in Hr as (r & -> & Hr).
  destruct (validated_routes_resolve to_uppercase to_lowercase error_text server_name_error (st_config s) (st_governance s) r Hup Hv Hr)
    as ((sv & Hsv & _ & Hname) & Hm & Hpath & Ht & Hmp & _).
  rewrite <- Hs. split; cbn [services]; eauto.
Qed.
End reloads.

(** ** A gateway at work *)

#[local] Existing Instance ex_http.
#[local] Instance ex_store : RateLimitStore () := {| store_check := λ _ _ _ s, (Some (Ok (decision_allowed false)), s) |}.

(** One service behind a route of three retries and a breaker that opens at one failure. *)
Definition ex_compiled : CompiledRoute (Value := ()) :=
  {| rt_path := lit "/user"; rt_service := lit "user"; rt_methods := []; rt_match_headers := ∅; rt_match_cookies := ∅;
     rt_traffic_percent := 100; rt_mirror_service := None; rt_mirror_percent := 0; rt_timeout := None; rt_retries := 3;
     rt_retry_backoff := 0; rt_retry_max_backoff := 0; rt_retry_budget_percent := None; rt_rewrite := None;
     rt_fallback := None; rt_rate_limit := None;
     rt_breaker := Some {| bc_failure_threshold := 1; bc_reset_timeout_ms := 1000 |}; rt_shedding := None;
     rt_middlewares := []; rt_instance_tags := ∅; rt_stream_idle_timeout := None; rt_max_stream_connections := None |}.

Definition ex_runtime : GatewayRuntime (L := ex_http) (I := ex_ipnet) (Value := ()) :=
  {| routes := [ex_compiled]; services := {[ lit "user" := ex_service (lit "user") (lit "http://10.0.0.9") ]};
     global_timeout := None; streams := {| global_stream_idle_timeout := None; global_max_stream_connections := None |};
     global_fallback := None; global_middlewares := []; jwt := None; api_keys := None; request_body_limit_bytes := 16;
     rate_limiter := {| rl_unavailable := FailOpen; rl_timeout := 0; rl_kind := Memory |}; trusted_proxies := []; cors := None |}.

(** The upstream answers from a list of statuses, one per request. *)
Definition ex_env : Environment (L := ex_http) (St := ()) (Ext := list N) :=
  {| has_registry := false; env_discover := λ _ w, (Err [], w);
     env_send := λ _ _ w, match ext w with
                          | st :: rest => (Answer st [], {| shared := shared w; store := store w; ext := rest;
                                                            clock := clock w + 1; jitter := jitter w; cells := cells w |})
                          | [] => (SendElapsed, w)
                          end;
     env_bytes := λ _ w, (BodyBytes [], w); env_connect := λ _ _ w, (ConnectElapsed, w); server_name_invalid := λ _, None;
     env_tls := λ _ _ w, (ConnectElapsed, w); env_shake := λ _ _ w, (ShakeElapsed, w); env_sleep := λ _ w, w; env_wait := λ w, w |}.

Definition ex_world (answers : list N) : World (St := ()) (Ext := list N) :=
  {| shared := {| admission := Admission_new; retry_budgets := RetryBudgetRegistry_default;
                  upstreams := {| outlier_states := ∅; health_states := ∅; registry_cursors := ∅; stream_connections := ∅ |} |};
     store := tt; ext := answers; clock := from_secs 1; jitter := RETRY_JITTER_SEED; cells := Cells_empty |}.

Definition ex_url : Url :=
  {| scheme := lit "http"; host_str := Some (lit "10.0.0.9"); url_port := None; port_or_known_default := Some 80;
     url_path := lit "/user/1"; url_query := None |}.

Definition ex_handle (request : Request (L := ex_http)) (w : World (St := ()) (Ext := list N)) :=
  handle_inner (J := ex_jwt) ex_runtime ex_env (λ _, []) (λ _, []) (λ _, []) (λ _, []) (λ _, []) (λ _, []) (λ _, [])
    (λ _, Ok ex_url) (λ _, []) (λ t, t / 1000000000) (λ n, lit "id-" ++ dec n) request (w, []).

Definition ex_request (method : rstr) (h : list (rstr * HeaderValue)) : Request (L := ex_http) :=
  {| rq_method := method; rq_path := lit "/user/1"; rq_query := None; rq_headers := h; rq_peer := None; rq_body := Ok [1] |}.

(** A read is tried again, a write is not. *)
Example ex_retries :
  let get := ex_handle (ex_request (lit "GET") []) (ex_world [503; 502; 200]) in
  let post := ex_handle (ex_request (lit "POST") []) (ex_world [503; 502; 200]) in
  (get.1.1, count_if is_sent get.2.2, holding get.2.2) = (lit "ok", 3%nat, Some nothing) ∧
  (post.1.1, count_if is_sent post.2.2, holding post.2.2) = (lit "upstream_server_error", 1%nat, Some nothing).
Proof. by vm_compute. Qed.

(** A subject the client made up does not leave the gateway. *)
Lemma gateway_forwards_identity_witness :
  let handled := ex_handle (ex_request (lit "GET") [(SUBJECT_HEADER, lit "root")]) (ex_world [200]) in
  ∃ e h, List.find is_sent handled.2.2 = Some e ∧ leaving e = Some h ∧ h_all SUBJECT_HEADER h = [].
Proof.
  intros handled. destruct (List.find is_sent handled.2.2) as [e|] eqn:E; [|by vm_compute in E].
  destruct (leaving e) as [h|] eqn:Eh; [|exfalso; revert E Eh; vm_compute; intros E; injection E as <-; discriminate].
  exists e, h. do 2 (split; [done|]). apply List.find_some in E as [Hin _]. apply list_elem_of_In in Hin.
  destruct (gateway_forwards_identity (J := ex_jwt) ex_runtime ex_env (λ _, []) (λ _, []) (λ _, []) (λ _, []) (λ _, []) (λ _, [])
    (λ _, []) (λ _, Ok ex_url) (λ _, []) (λ t, t / 1000000000) (λ n, lit "id-" ++ dec n) _ _ e h Hin Eh)
    as (route & p & Hr & Hp & Hn).
  assert (Some ex_compiled = Some route) as Hq by exact Hr. injection Hq as <-.
  specialize (Hn SUBJECT_HEADER ltac:(by apply list_elem_of_here)). rewrite Hn.
  assert (p = None) as ->; [|done]. assert (Some (None (A := AuthPrincipal)) = Some p) as Hq by exact Hp. by injection Hq as <-.
Defined.

(** A client that gives no time opens the breaker for everybody without a request to the upstream. *)
Lemma client_timeout_opens_breaker :
  let hostile := ex_handle (ex_request (lit "GET") [(TIMEOUT_HEADER, lit "0")]) (ex_world [200; 200]) in
  (hostile.1.1, count_if is_sent hostile.2.2) = (lit "timeout", 0%nat) ∧
  (ex_handle (ex_request (lit "GET") []) hostile.2.1).1.1 = lit "breaker_open".
Proof. by vm_compute. Qed.

(** So does one whose WebSocket request has no key. *)
Lemma bad_upgrade_opens_breaker :
  let hostile := ex_handle (ex_request (lit "GET") [(lit "upgrade", lit "websocket"); (lit "connection", lit "upgrade")])
                   (ex_world [200; 200]) in
  hostile.1.1 = lit "websocket_failed" ∧ (ex_handle (ex_request (lit "GET") []) hostile.2.1).1.1 = lit "breaker_open".
Proof. by vm_compute. Qed.

Definition ex_setting (c : GatewayConfig (Value := ())) : Setting (Value := ()) :=
  {| st_config := c; st_jwt := None; st_api_keys := None; st_governance := None |}.

(** A route to a service that is not there is refused. *)
Definition ex_broken : GatewayConfig (Value := ()) :=
  {| gw_services := []; gw_routes := gw_routes ex_gateway; gw_middlewares := []; gw_timeout_ms := None;
     gw_stream_idle_timeout_ms := None; gw_max_stream_connections := None; gw_request_body_limit_bytes := None;
     gw_fallback := None; gw_cors := None; gw_trusted_proxy_cidrs := [] |}.

Lemma gateway_reload_serves_witness :
  ∃ runtime, built (L := ex_http) (I := ex_ipnet) id id (λ _, []) (λ _, None) (ex_setting ex_gateway) = Ok runtime ∧
  ∀ path h route, select_route (routes (reloads (L := ex_http) (I := ex_ipnet) id id (λ _, []) (λ _, None) [ex_setting ex_broken] runtime)) path h =
    Some route → serves (reloads (L := ex_http) (I := ex_ipnet) id id (λ _, []) (λ _, None) [ex_setting ex_broken] runtime) route.
Proof.
  eexists. split; [reflexivity|].
  apply (gateway_reload_serves (L := ex_http) (I := ex_ipnet) id id (λ _, []) (λ _, None) (ex_setting ex_gateway) [ex_setting ex_broken]).
  - intros m Hm. by apply ex_parse_method_trim.
  - reflexivity.
Defined.
