(* ===== verification/Flight.v ===== *)
(** * Coalesced calls (crates/roze-singleflight/src/lib.rs)

    [SingleFlightGroup::do_call] as the steps its callers take between two locks or
    awaits. Entries are shared objects: the map may forget one that callers still
    hold. Callers run in any interleaving, a loader takes any time and may return
    anything of its type, and a call may be dropped where it is suspended. *)

From S2P Require Import Prelude Text.

Section flight.
Context {Val Ty : Type} `{EqDecision Ty} (type_of : Val → Ty).

(** ** State *)

Record FlightEntry := { running : bool; outcome : option (result rstr Val) }.
Definition FlightEntry_new : FlightEntry := {| running := false; outcome := None |}.

(** Where a caller is. Between [PNotify] and [PWait] the lock is free and the
    notification is not subscribed to yet; [PWoken] is notified and not polled yet. *)
Inductive Pc :=
| PStart
| PLoop (e : nat)
| PLoad (e : nat)
| PNotify (e : nat)
| PWait (e : nat)
| PWoken (e : nat)
| PDone (e : nat) (out : result rstr Val)
| PGone (e : nat)
| PPanic.

(** A call of [do_call]: its key, the type it asks for and whether it still has its loader. *)
Record Caller := { c_key : rstr; c_ty : Ty; c_loader : bool; c_pc : Pc }.

Record Flights := { entries : gmap rstr nat; heap : list FlightEntry; callers : list Caller }.
Definition Flights_new : Flights := {| entries := ∅; heap := []; callers := [] |}.

Definition set_pc (pc : Pc) (c : Caller) : Caller :=
  {| c_key := c_key c; c_ty := c_ty c; c_loader := c_loader c; c_pc := pc |}.
Definition take_loader (pc : Pc) (c : Caller) : Caller :=
  {| c_key := c_key c; c_ty := c_ty c; c_loader := false; c_pc := pc |}.

(** ** Operations *)

Definition entry_for (key : rstr) (w : Flights) : nat * Flights :=
  match entries w !! key with
  | Some e => (e, w)
  | None => (length (heap w),
             {| entries := <[key := length (heap w)]> (entries w); heap := heap w ++ [FlightEntry_new];
                callers := callers w |})
  end.

(** [value.downcast_ref::<T>()] *)
Definition downcast (ty : Ty) (r : result rstr Val) : result rstr Val :=
  match r with
  | Ok v => if bool_decide (type_of v = ty) then Ok v else Err (lit "singleflight type mismatch")
  | Err e => Err e
  end.

Definition put (i : nat) (c : Caller) (w : Flights) : Flights :=
  {| entries := entries w; heap := heap w; callers := <[i := c]> (callers w) |}.
Definition set_entry (e : nat) (s : FlightEntry) (w : Flights) : Flights :=
  {| entries := entries w; heap := <[e := s]> (heap w); callers := callers w |}.

(** A round of the loop, under the entry's lock, and the taking of the loader. *)
Definition decide_action (i : nat) (c : Caller) (e : nat) (w : Flights) : option Flights :=
  match heap w !! e with
  | None => None
  | Some s =>
      match outcome s with
      | Some r => Some (put i (set_pc (PDone e (downcast (c_ty c) r)) c) w)
      | None =>
          if negb (running s) then
            let w := set_entry e {| running := true; outcome := None |} w in
            Some (if c_loader c then put i (take_loader (PLoad e) c) w else put i (set_pc PPanic c) w)
          else Some (put i (set_pc (PNotify e) c) w)
      end
  end.

(** [notify_waiters]: whoever is subscribed is woken, no permit is kept. *)
Definition notify_waiters (e : nat) (c : Caller) : Caller :=
  match c_pc c with
  | PWait e' => if bool_decide (e = e') then set_pc (PWoken e) c else c
  | _ => c
  end.

Definition publish (i : nat) (c : Caller) (e : nat) (out : result rstr Val) (w : Flights) : Flights :=
  let w := set_entry e {| running := false; outcome := Some out |} w in
  put i (set_pc (PLoop e) c) {| entries := entries w; heap := heap w; callers := notify_waiters e <$> callers w |}.

Inductive action :=
| Call (key : rstr) (ty : Ty)
| Step (i : nat)
| Loaded (i : nat) (out : result rstr Val)
| Drop_ (i : nat)
| Reset (key : rstr).

Definition flight_step (w : Flights) (a : action) : option Flights :=
  match a with
  | Call key ty =>
      Some {| entries := entries w; heap := heap w;
              callers := callers w ++ [{| c_key := key; c_ty := ty; c_loader := true; c_pc := PStart |}] |}
  | Step i =>
      c ← callers w !! i;
      match c_pc c with
      | PStart => let '(e, w) := entry_for (c_key c) w in Some (put i (set_pc (PLoop e) c) w)
      | PLoop e | PWoken e => decide_action i c e w
      | PNotify e => Some (put i (set_pc (PWait e) c) w)
      | _ => None
      end
  | Loaded i out =>
      c ← callers w !! i;
      match c_pc c with
      | PLoad e =>
          if match out with Ok v => bool_decide (type_of v = c_ty c) | Err _ => true end
          then Some (publish i c e out w) else None
      | _ => None
      end
  | Drop_ i =>
      c ← callers w !! i;
      match c_pc c with
      | PLoad e | PWait e | PWoken e => Some (put i (set_pc (PGone e) c) w)
      | _ => None
      end
  | Reset key => Some {| entries := delete key (entries w); heap := heap w; callers := callers w |}
  end.

Fixpoint flights_run (acts : list action) (w : Flights) : option Flights :=
  match acts with
  | [] => Some w
  | a :: acts => w ← flight_step w a; flights_run acts w
  end.

(** ** What holds of every execution *)

Definition pc_entry (pc : Pc) : option nat :=
  match pc with
  | PStart | PPanic => None
  | PLoop e | PLoad e | PNotify e | PWait e | PWoken e | PGone e | PDone e _ => Some e
  end.
Definition on_entry (c : Caller) : option nat := pc_entry (c_pc c).

(** What a caller and the state of its entry say of each other. *)
Definition caller_ok (s : FlightEntry) (c : Caller) : Prop :=
  (c_loader c = false →
     (running s = true ∧ outcome s = None ∧ ∃ e, c_pc c = PLoad e ∨ c_pc c = PGone e) ∨
     (is_Some (outcome s) ∧ ∃ e, c_pc c = PLoop e ∨ c_pc c = PGone e ∨ ∃ out, c_pc c = PDone e out)) ∧
  match c_pc c with
  | PDone _ out => ∃ r, outcome s = Some r ∧ out = downcast (c_ty c) r
  | PLoad _ => c_loader c = false
  | _ => True
  end.

(** The call that ran its loader to its end on an entry. *)
Definition loaded_by (past : list action) (w : Flights) (e : nat) (r : result rstr Val) : Prop :=
  ∃ j d, callers w !! j = Some d ∧ on_entry d = Some e ∧ c_loader d = false ∧ Loaded j r ∈ past.

(** [own] gives every entry the key it was made for. *)
Record flight_ok (own : list rstr) (past : list action) (w : Flights) : Prop :=
  { fo_length : length own = length (heap w);
    fo_entries : ∀ k e, entries w !! k = Some e → own !! e = Some k;
    fo_callers : ∀ i c, callers w !! i = Some c → c_pc c ≠ PPanic ∧
      match on_entry c with
      | Some e => own !! e = Some (c_key c) ∧ ∃ s, heap w !! e = Some s ∧ caller_ok s c
      | None => c_loader c = true
      end;
    fo_one : ∀ i j c d e, callers w !! i = Some c → callers w !! j = Some d →
      on_entry c = Some e → on_entry d = Some e → c_loader c = false → c_loader d = false → i = j;
    fo_loaded : ∀ e s r, heap w !! e = Some s → outcome s = Some r → loaded_by past w e r;
    fo_settled : ∀ e s, heap w !! e = Some s → is_Some (outcome s) → running s = false }.

Implicit Types (w : Flights) (c d : Caller) (own : list rstr) (past : list action).

Lemma lookup_put w i j c' : callers (put i c' w) !! j = if decide (i = j ∧ (i < length (callers w))%nat) then Some c' else callers w !! j.
Proof. cbn [put callers]. by rewrite list_lookup_insert. Qed.

Lemma flight_ok_past own past w a : flight_ok own past w → flight_ok own (past ++ [a]) w.
Proof.
  intros [H1 H2 H3 H4 H5 H6]. split; try done. intros e s r He Hr. destruct (H5 e s r He Hr) as (j & d & Hj & Hd & Hl & Hp).
  exists j, d. rewrite elem_of_app. auto.
Qed.

(** A caller moves to, or on, an entry whose state stays. *)
Lemma put_ok own past w i c c' e s :
  flight_ok own past w → callers w !! i = Some c → heap w !! e = Some s → own !! e = Some (c_key c') →
  on_entry c' = Some e → caller_ok s c' →
  (c_loader c' = false → (c_loader c = false ∧ on_entry c = Some e) ∨
     ∀ j d, callers w !! j = Some d → on_entry d = Some e → c_loader d = true) →
  (c_loader c = false → on_entry c = on_entry c' ∧ c_loader c' = false) →
  flight_ok own past (put i c' w).
Proof.
  intros [H1 H2 H3 H4 H5 H6] Hi He Ho Hon Hok Hnew Hold. pose proof (lookup_lt_Some _ _ _ Hi) as Hlt.
  assert (∀ j, callers (put i c' w) !! j = if decide (i = j) then Some c' else callers w !! j) as Hput.
  { intros j. rewrite lookup_put. repeat case_decide; naive_solver. }
  split; [done|done|..|done].
  - intros j d. rewrite Hput. case_decide; [|by apply H3]. intros [= <-]. rewrite Hon. split; [by destruct (c_pc c') eqn:E; unfold on_entry in Hon; rewrite E in Hon|].
    split; [done|]. by exists s.
  - intros j k a b e'. rewrite !Hput. repeat case_decide; subst; intros [= Ha] [= Hb] Hoa Hob Hla Hlb; subst; try done.
    + assert (e' = e) as -> by congruence. destruct (Hnew Hla) as [[Hlc Hoc]|Hall]; [by eapply (H4 _ _ c b e)|].
      specialize (Hall _ _ Hb Hob). congruence.
    + assert (e' = e) as -> by congruence. destruct (Hnew Hlb) as [[Hlc Hoc]|Hall]; [by eapply (H4 _ _ a c e)|].
      specialize (Hall _ _ Ha Hoa). congruence.
    + by eapply H4.
  - intros e' s' r Hs' Hr. destruct (H5 e' s' r Hs' Hr) as (j & d & Hj & Hd & Hl & Hp).
    destruct (decide (i = j)) as [<-|Hne].
    + replace d with c in * by congruence. destruct (Hold Hl) as [Hoc Hlc]. exists i, c'. rewrite Hput, decide_True by done.
      split; [done|]. split; [congruence|done].
    + exists j, d. rewrite Hput, decide_False by done. auto.
Qed.

(** An entry's state changes. *)
Lemma set_entry_ok own past w e s0 s :
  flight_ok own past w → heap w !! e = Some s0 →
  (∀ i c, callers w !! i = Some c → on_entry c = Some e → caller_ok s c) →
  (∀ r, outcome s = Some r → loaded_by past w e r) → (is_Some (outcome s) → running s = false) →
  flight_ok own past (set_entry e s w).
Proof.
  intros [H1 H2 H3 H4 H5 H6] He Hc Hl Hr. pose proof (lookup_lt_Some _ _ _ He) as Hlt.
  assert (∀ e', heap (set_entry e s w) !! e' = if decide (e = e') then Some s else heap w !! e') as Hset.
  { intros e'. cbn [set_entry heap]. rewrite list_lookup_insert. repeat case_decide; naive_solver. }
  split; [by cbn [set_entry heap]; rewrite length_insert|done|..|done| |].
  - intros i c Hi. destruct (H3 i c Hi) as [Hp Hcase]. split; [done|]. destruct (on_entry c) as [e'|] eqn:E; [|done].
    destruct Hcase as (Ho & s' & Hs' & Hok). split; [done|]. rewrite Hset. case_decide; subst; eauto.
  - intros e' s' r. rewrite Hset. case_decide; [intros [= <-] ?; subst; by apply Hl|by apply H5].
  - intros e' s'. rewrite Hset. case_decide; [by intros [= <-]|by apply H6].
Qed.

Lemma attached own past w i c e :
  flight_ok own past w → callers w !! i = Some c → on_entry c = Some e →
  own !! e = Some (c_key c) ∧ ∃ s, heap w !! e = Some s ∧ caller_ok s c.
Proof. intros H Hi He. destruct (fo_callers _ _ _ H i c Hi) as [_ Hc]. by rewrite He in Hc. Qed.

(** A caller moves on its entry and keeps its loader. *)
Lemma move_ok own past w i c e s pc :
  flight_ok own past w → callers w !! i = Some c → on_entry c = Some e → heap w !! e = Some s →
  pc_entry pc = Some e → caller_ok s (set_pc pc c) → flight_ok own past (put i (set_pc pc c) w).
Proof.
  intros H Hi Hon He Hpc Hok. destruct (attached _ _ _ _ _ _ H Hi Hon) as [Ho _].
  apply (put_ok own past w i c _ e s); try done; [by left|]. intros Hl. split; [|done]. unfold on_entry in *. by rewrite Hon, <- Hpc.
Qed.

Lemma start_ok own past w i c :
  flight_ok own past w → callers w !! i = Some c → c_pc c = PStart →
  let '(e, w') := entry_for (c_key c) w in
  ∃ own', flight_ok own' past (put i (set_pc (PLoop e) c) w').
Proof.
  intros H Hi Hpc. pose proof (fo_callers _ _ _ H i c Hi) as [_ Hc]. unfold on_entry in Hc. rewrite Hpc in Hc. cbn in Hc.
  unfold entry_for. destruct (entries w !! c_key c) as [e|] eqn:E.
  - exists own. pose proof (fo_entries _ _ _ H _ _ E) as Ho.
    destruct (lookup_lt_is_Some_2 (heap w) e) as [s Hs]; [rewrite <- (fo_length _ _ _ H); by eapply lookup_lt_Some|].
    apply (put_ok own past w i c _ e s); try done; [split; cbn; [congruence|done]|cbn; congruence..].
  - exists (own ++ [c_key c]). set (e := length (heap w)).
    assert (length own = e) as Hlen by apply (fo_length _ _ _ H).
    assert (flight_ok (own ++ [c_key c]) past
              {| entries := <[c_key c := e]> (entries w); heap := heap w ++ [FlightEntry_new]; callers := callers w |}) as H'.
    { destruct H as [H1 H2 H3 H4 H5 H6]. split; cbn [entries heap callers]; [by rewrite !length_app, H1|..|done| |].
      - intros k e' [[<- <-]|[Hne He]]%lookup_insert_Some; [by apply list_lookup_middle|].
        apply lookup_app_l_Some. by apply H2.
      - intros j d Hj. destruct (H3 j d Hj) as [Hp Hd]. split; [done|]. destruct (on_entry d); [|done].
        destruct Hd as (Ho & s & Hs & Hok). split; [by apply lookup_app_l_Some|]. exists s. split; [by apply lookup_app_l_Some|done].
      - intros e' s r [He|[Hge [? He]%list_lookup_singleton_Some]]%lookup_app_Some Hr; [by eapply H5|by subst].
      - intros e' s [He|[Hge [? He]%list_lookup_singleton_Some]]%lookup_app_Some Hr; [by eapply H6|by subst]. }
    apply (put_ok _ _ _ i c _ e FlightEntry_new H'); try done; [by apply list_lookup_middle|by apply list_lookup_middle| |cbn; congruence..].
    split; cbn; [congruence|done].
Qed.

Lemma decide_action_ok own past w w' i c e :
  flight_ok own past w → callers w !! i = Some c → c_pc c = PLoop e ∨ c_pc c = PWoken e →
  decide_action i c e w = Some w' → flight_ok own past w'.
Proof.
  intros H Hi Hpc. assert (on_entry c = Some e) as Hon by (unfold on_entry; by destruct Hpc as [-> | ->]).
  destruct (attached _ _ _ _ _ _ H Hi Hon) as (Ho & s & Hs & Hc & Hdone). unfold decide_action. rewrite Hs.
  destruct (outcome s) as [r|] eqn:Er.
  - intros [= <-]. eapply move_ok; eauto. split; cbn [c_pc set_pc c_loader c_ty]; [|by exists r].
    intros _. right. split; [done|]. exists e. right. right. by eexists.
  - assert (c_loader c = true) as Hl.
    { destruct (c_loader c) eqn:El; [done|]. destruct (Hc eq_refl) as [(_ & _ & e' & He')|[[? ?] _]]; [|congruence].
      destruct Hpc, He'; congruence. }
    destruct (running s) eqn:Erun; cbn [negb]; intros [= <-].
    + eapply move_ok; eauto. split; cbn [c_pc set_pc c_loader c_ty]; [congruence|done].
    + rewrite Hl.
      assert (∀ j d, callers w !! j = Some d → on_entry d = Some e → c_loader d = true) as Hfree.
      { intros j d Hj Hd. destruct (c_loader d) eqn:El; [done|]. destruct (attached _ _ _ _ _ _ H Hj Hd) as (_ & s' & Hs' & Hok & _).
        assert (s' = s) as -> by congruence. destruct (Hok El) as [(? & _)|[[? ?] _]]; congruence. }
      assert (flight_ok own past (set_entry e {| running := true; outcome := None |} w)) as H'.
      { eapply set_entry_ok; eauto; [|done|by intros [? ?]]. intros j d Hj Hd. specialize (Hfree j d Hj Hd).
        destruct (attached _ _ _ _ _ _ H Hj Hd) as (_ & s' & Hs' & _ & Hok). assert (s' = s) as -> by congruence.
        split; [congruence|]. destruct (c_pc d); try done. destruct Hok as (r & Hr & _). congruence. }
      eapply (put_ok _ _ _ i c _ e {| running := true; outcome := None |}); eauto; cbn [take_loader c_pc c_loader c_key]; try done.
      * cbn [set_entry heap]. apply list_lookup_insert_eq. by eapply lookup_lt_Some.
      * split; cbn [c_pc c_loader]; [|done]. intros _. left. split; [done|]. split; [done|]. exists e. by left.
Qed.

Lemma notify_entry e c : on_entry (notify_waiters e c) = on_entry c ∧ c_key (notify_waiters e c) = c_key c ∧
  c_loader (notify_waiters e c) = c_loader c ∧ c_ty (notify_waiters e c) = c_ty c.
Proof. unfold notify_waiters, on_entry. destruct (c_pc c) eqn:E; try (by rewrite E). case_bool_decide; [by subst|by rewrite E]. Qed.

Lemma notify_ok e s c : caller_ok s c → caller_ok s (notify_waiters e c).
Proof.
  unfold notify_waiters. destruct (c_pc c) eqn:E; try done. case_bool_decide; [|done]. intros [H1 _].
  split; cbn; [|done]. intros Hl. destruct (H1 Hl) as [(_ & _ & e' & He')|(_ & e' & He')]; rewrite E in He'; naive_solver.
Qed.

Lemma woken_ok own past w e :
  flight_ok own past w →
  flight_ok own past {| entries := entries w; heap := heap w; callers := notify_waiters e <$> callers w |}.
Proof.
  intros [H1 H2 H3 H4 H5 H6]. split; cbn [entries heap callers]; [done|done|..|done].
  - intros i c' Hi. apply list_lookup_fmap_Some in Hi as (c & -> & Hi). destruct (H3 i c Hi) as [Hp Hc].
    destruct (notify_entry e c) as (Ho & Hk & Hl & _). rewrite Ho, Hk, Hl. split.
    + unfold notify_waiters. destruct (c_pc c) eqn:E; rewrite ?E; try done. case_bool_decide; [done|by rewrite E].
    + destruct (on_entry c) as [e'|]; [|done]. destruct Hc as (Hown & s & Hs & Hok). eauto using notify_ok.
  - intros i j c' d' e' Hi Hj. apply list_lookup_fmap_Some in Hi as (c & -> & Hi). apply list_lookup_fmap_Some in Hj as (d & -> & Hj).
    destruct (notify_entry e c) as (-> & _ & -> & _). destruct (notify_entry e d) as (-> & _ & -> & _). by eapply H4.
  - intros e' s r He Hr. destruct (H5 e' s r He Hr) as (j & d & Hj & Hd & Hl & Hp). exists j, (notify_waiters e d).
    destruct (notify_entry e d) as (-> & _ & -> & _). split; [cbn [callers]; by rewrite list_lookup_fmap, Hj|done].
Qed.

Lemma publish_ok own past w i c e out :
  flight_ok own past w → callers w !! i = Some c → c_pc c = PLoad e →
  flight_ok own (past ++ [Loaded i out]) (publish i c e out w).
Proof.
  intros H Hi Hpc. assert (on_entry c = Some e) as Hon by (unfold on_entry; by rewrite Hpc).
  destruct (attached _ _ _ _ _ _ H Hi Hon) as (Ho & s & Hs & Hc & Hl). rewrite Hpc in Hl.
  destruct (Hc Hl) as [(Hrun & Hnone & _)|(_ & e' & He')]; [|rewrite Hpc in He'; naive_solver].
  set (gone := set_pc (PGone e) c). set (s' := {| running := false; outcome := Some out |}).
  assert (flight_ok own past (put i gone w)) as H1.
  { eapply move_ok; eauto. split; [|done]. intros _. left. split; [done|]. split; [done|]. exists e. by right. }
  assert (callers (put i gone w) !! i = Some gone) as Hi'.
  { rewrite lookup_put, decide_True; [done|]. split; [done|by eapply lookup_lt_Some]. }
  apply (flight_ok_past _ _ _ (Loaded i out)) in H1. apply (woken_ok _ _ _ e) in H1.
  set (w1 := {| entries := _; heap := _; callers := _ |}) in H1.
  assert (callers w1 !! i = Some gone) as Hi1 by (unfold w1; cbn [callers]; by rewrite list_lookup_fmap, Hi').
  assert (flight_ok own (past ++ [Loaded i out]) (set_entry e s' w1)) as H2.
  { eapply set_entry_ok; [exact H1|exact Hs|..|done].
    - intros j d Hj Hd. destruct (attached _ _ _ _ _ _ H1 Hj Hd) as (_ & s0 & Hs0 & _ & Hdone). split.
      + intros Hld. assert (i = j) as <- by (by eapply (fo_one _ _ _ H1 _ _ gone d e)).
        replace d with gone by congruence. right. split; [done|]. exists e. right. by left.
      + destruct (c_pc d); try done. destruct Hdone as (r & Hr & _). change (heap w1) with (heap w) in Hs0. congruence.
    - intros r [= <-]. exists i, gone. split; [done|]. split; [done|]. split; [done|]. apply elem_of_app. right. by left. }
  assert (publish i c e out w = put i (set_pc (PLoop e) c) (set_entry e s' w1)) as ->.
  { unfold publish, w1, put, set_entry. cbn [entries heap callers]. by rewrite list_fmap_insert, list_insert_insert_eq. }
  eapply (put_ok _ _ _ i gone _ e s'); [exact H2|exact Hi1|..]; try done.
  - cbn [set_entry heap]. apply list_lookup_insert_eq. by eapply lookup_lt_Some.
  - split; [|done]. intros _. right. split; [done|]. exists e. by left.
  - intros _. by left.
Qed.

Lemma flight_step_ok own past w w' a :
  flight_ok own past w → flight_step w a = Some w' → ∃ own', flight_ok own' (past ++ [a]) w'.
Proof.
  intros H Ha.
  destruct a as [key ty|i|i out|i|key]; cbn [flight_step] in Ha.
  - injection Ha as <-. exists own. apply flight_ok_past. destruct H as [H1 H2 H3 H4 H5 H6].
    set (c0 := {| c_key := key; c_ty := ty; c_loader := true; c_pc := PStart |}).
    split; cbn [entries heap callers]; [done|done|..|done].
    + intros i c [Hi|[_ [_ <-]%list_lookup_singleton_Some]]%lookup_app_Some; [by eapply H3|by split].
    + intros i j c d e [Hi|[_ [_ <-]%list_lookup_singleton_Some]]%lookup_app_Some
        [Hj|[_ [_ <-]%list_lookup_singleton_Some]]%lookup_app_Some; try done. by eapply H4.
    + intros e s r He Hr. destruct (H5 e s r He Hr) as (j & d & Hj & Hd). exists j, d. split; [by apply lookup_app_l_Some|done].
  - apply bind_Some in Ha as (c & Hi & Ha). destruct (c_pc c) eqn:Hpc; try done.
    + pose proof (start_ok _ _ _ _ _ H Hi Hpc) as Hs. destruct (entry_for (c_key c) w) as [e w1]. injection Ha as <-.
      destruct Hs as [own' Hs]. exists own'. by apply flight_ok_past.
    + exists own. apply flight_ok_past. eapply decide_action_ok; eauto.
    + injection Ha as <-. exists own. apply flight_ok_past.
      assert (on_entry c = Some e) as Hon by (unfold on_entry; by rewrite Hpc).
      destruct (attached _ _ _ _ _ _ H Hi Hon) as (_ & s & Hs & Hc & _). eapply move_ok; eauto.
      split; [|done]. intros Hl. destruct (Hc Hl) as [(_ & _ & e' & He')|(_ & e' & He')]; rewrite Hpc in He'; naive_solver.
    + exists own. apply flight_ok_past. eapply decide_action_ok; eauto.
  - apply bind_Some in Ha as (c & Hi & Ha). destruct (c_pc c) eqn:Hpc; try done.
    destruct (match out with Ok v => _ | Err _ => _ end); [|done]. injection Ha as <-. exists own. by apply publish_ok.
  - apply bind_Some in Ha as (c & Hi & Ha). exists own. apply flight_ok_past.
    assert (∃ e, on_entry c = Some e ∧ w' = put i (set_pc (PGone e) c) w ∧
                 (c_pc c = PLoad e ∨ c_pc c = PWait e ∨ c_pc c = PWoken e)) as (e & Hon & -> & Hpc).
    { unfold on_entry. destruct (c_pc c) eqn:E; try done; injection Ha as <-; exists e; auto 10. }
    destruct (attached _ _ _ _ _ _ H Hi Hon) as (_ & s & Hs & Hc & _). eapply move_ok; eauto.
    split; [|done]. intros Hl. destruct (Hc Hl) as [(? & ? & _)|(? & e' & He')];
      [|exfalso; destruct Hpc as [Hpc|[Hpc|Hpc]], He' as [He'|[He'|[? He']]]; congruence].
    left. split; [done|]. split; [done|]. exists e. by right.
  - injection Ha as <-. exists own. apply flight_ok_past. destruct H as [H1 H2 H3 H4 H5 H6].
    split; cbn [entries heap callers]; try done. intros k e [_ He]%lookup_delete_Some. by apply H2.
Qed.

Lemma flights_run_ok acts own past w w' :
  flight_ok own past w → flights_run acts w = Some w' → ∃ own', flight_ok own' (past ++ acts) w'.
Proof.
  revert own past w. induction acts as [|a acts IH]; intros own past w H Hr; cbn [flights_run] in Hr.
  { injection Hr as <-. exists own. by rewrite app_nil_r. }
  apply bind_Some in Hr as (w1 & Ha & Hr). destruct (flight_step_ok _ _ _ _ _ H Ha) as [own1 H1].
  destruct (IH own1 _ w1 H1 Hr) as [own' H']. exists own'. by rewrite <- app_assoc in H'.
Qed.

Lemma new_ok : flight_ok [] [] Flights_new.
Proof. by split; try (intros; simplify_map_eq). Qed.

(** As long as a key is not reset, its callers share the entry of the map. *)
Definition kept (key : rstr) (w : Flights) : Prop :=
  ∀ i c e, callers w !! i = Some c → c_key c = key → on_entry c = Some e → entries w !! key = Some e.

Lemma kept_put key w i c c' :
  kept key w → callers w !! i = Some c → c_key c' = c_key c →
  (∀ e, on_entry c' = Some e → on_entry c = Some e ∨ entries w !! c_key c = Some e) → kept key (put i c' w).
Proof.
  intros Hk Hi Hc Hon j d e. rewrite lookup_put. case_decide as Hij; [|by apply Hk]. destruct Hij as [<- _].
  intros [= <-] Hkey He. cbn [put entries]. rewrite Hc in Hkey. destruct (Hon e He) as [H|H]; [by eapply Hk|congruence].
Qed.

Lemma kept_step key w w' a : a ≠ Reset key → kept key w → flight_step w a = Some w' → kept key w'.
Proof.
  intros Hno Hk Ha. destruct a as [key' ty|i|i out|i|key']; cbn [flight_step] in Ha.
  - injection Ha as <-. intros i c e [Hi|[_ [_ <-]%list_lookup_singleton_Some]]%lookup_app_Some; [by eapply Hk|done].
  - apply bind_Some in Ha as (c & Hi & Ha).
    assert (∀ e, on_entry c = Some e → decide_action i c e w = Some w' → kept key w') as Hdec.
    { intros e He Hd. unfold decide_action in Hd. destruct (heap w !! e) as [s|]; [|done].
      assert (∀ pc, pc_entry pc = Some e ∨ pc_entry pc = None → kept key (put i (set_pc pc c) w) ∧ kept key (put i (take_loader pc c) w)) as Hpc.
      { intros pc Hpc. split; eapply kept_put; eauto; unfold on_entry at 1; cbn [c_pc set_pc take_loader]; intros e' He';
          left; destruct Hpc; congruence. }
      destruct (outcome s); [injection Hd as <-; by apply Hpc; left|].
      destruct (negb (running s)); [|injection Hd as <-; by apply Hpc; left]. injection Hd as <-.
      destruct (c_loader c); [apply (Hpc (PLoad e)); by left|apply (Hpc PPanic); by right]. }
    destruct (c_pc c) as [|e|e|e|e|e|e out|e|] eqn:Hpc; try done.
    + unfold entry_for in Ha. destruct (entries w !! c_key c) as [e|] eqn:E; injection Ha as <-.
      * eapply kept_put; eauto. unfold on_entry at 1. cbn. intros e' [= <-]. by right.
      * apply (kept_put _ _ i c); [|done|done|].
        { intros j d e Hj Hd He. cbn [entries callers] in *. pose proof (Hk j d e Hj Hd He) as Hold.
          rewrite lookup_insert_ne; [done|]. congruence. }
        unfold on_entry at 1. cbn. intros e' [= <-]. right. by rewrite lookup_insert_eq.
    + apply (Hdec e); [unfold on_entry; by rewrite Hpc|done].
    + injection Ha as <-. eapply kept_put; eauto. unfold on_entry. rewrite Hpc. cbn. auto.
    + apply (Hdec e); [unfold on_entry; by rewrite Hpc|done].
  - apply bind_Some in Ha as (c & Hi & Ha). destruct (c_pc c) as [|e|e|e|e|e|e o|e|] eqn:Hpc; try done.
    destruct (match out with Ok v => _ | Err _ => _ end); [|done]. injection Ha as <-. unfold publish.
    apply (kept_put _ _ i (notify_waiters e c)); [|cbn [callers set_entry]; by rewrite list_lookup_fmap, Hi|cbn [set_pc c_key]; by destruct (notify_entry e c) as (_ & -> & _)|].
    + intros j d' e' Hj Hd' He. cbn [callers entries set_entry] in *. apply list_lookup_fmap_Some in Hj as (d & -> & Hj).
      destruct (notify_entry e d) as (Ho & Hkey & _). rewrite Hkey in Hd'. rewrite Ho in He. by eapply Hk.
    + destruct (notify_entry e c) as (-> & _). unfold on_entry. rewrite Hpc. cbn. auto.
  - apply bind_Some in Ha as (c & Hi & Ha). destruct (c_pc c) as [|e|e|e|e|e|e o|e|] eqn:Hpc; try done; injection Ha as <-;
      (eapply kept_put; eauto; unfold on_entry; rewrite Hpc; cbn; auto).
  - injection Ha as <-. intros i c e Hi Hc He. cbn [entries]. rewrite lookup_delete_ne by congruence. by eapply Hk.
Qed.

Lemma kept_run key acts w w' : Reset key ∉ acts → kept key w → flights_run acts w = Some w' → kept key w'.
Proof.
  revert w. induction acts as [|a acts IH]; intros w Hno Hk Hr; cbn [flights_run] in Hr; [by injection Hr as <-|].
  apply bind_Some in Hr as (w1 & Ha & Hr). apply (IH w1); [|eapply kept_step; eauto|done].
  - intros Hin. apply Hno. by right.
  - intros ->. apply Hno. by left.
Qed.

(** C28: Concurrent calls are coalesced. In every interleaving of calls, loads, dropped
    calls and resets no call panics; of the calls that share an entry at most one
    takes its loader; and a call that returns gives what the one load of its entry
    gave, by a call for the same key (or that it has another type). Of all calls for
    a key that is not reset at most one takes its loader, whatever other keys are
    reset. *)
Theorem flights_coalesce acts w :
  flights_run acts Flights_new = Some w →
  (∀ i c, callers w !! i = Some c → c_pc c ≠ PPanic) ∧
  (∀ i c e out, callers w !! i = Some c → c_pc c = PDone e out → ∃ j d r,
     callers w !! j = Some d ∧ on_entry d = Some e ∧ c_key d = c_key c ∧ Loaded j r ∈ acts ∧ out = downcast (c_ty c) r) ∧
  (∀ i j c d, callers w !! i = Some c → callers w !! j = Some d → c_loader c = false → c_loader d = false →
     on_entry c = on_entry d ∨ (Reset (c_key c) ∉ acts ∧ c_key c = c_key d) → i = j).
Proof.
  intros Hr. destruct (flights_run_ok _ _ _ _ _ new_ok Hr) as [own H]. cbn [app] in H. split_and!.
  - intros i c Hi. by apply (fo_callers _ _ _ H i c Hi).
  - intros i c e out Hi Hpc. assert (on_entry c = Some e) as Hon by (unfold on_entry; by rewrite Hpc).
    destruct (attached _ _ _ _ _ _ H Hi Hon) as (Ho & s & Hs & _ & Hd). rewrite Hpc in Hd. destruct Hd as (r & Hr' & ->).
    destruct (fo_loaded _ _ _ H e s r Hs Hr') as (j & d & Hj & Hdon & _ & Hin). exists j, d, r.
    destruct (attached _ _ _ _ _ _ H Hj Hdon) as (Ho' & _). split_and!; try done. congruence.
  - intros i j c d Hi Hj Hlc Hld Hsame.
    destruct (fo_callers _ _ _ H i c Hi) as [_ Hc]. destruct (on_entry c) as [e|] eqn:Ec; [|congruence].
    destruct (fo_callers _ _ _ H j d Hj) as [_ Hd]. destruct (on_entry d) as [e'|] eqn:Ed; [|congruence].
    apply (fo_one _ _ _ H i j c d e); try done. destruct Hsame as [|[Hno Hkey]]; [congruence|].
    assert (kept (c_key c) w) as Hk by (apply (kept_run _ acts Flights_new); [done|by intros ?|done]).
    pose proof (Hk i c e Hi eq_refl Ec). pose proof (Hk j d e' Hj (eq_sym Hkey) Ed). congruence.
Qed.

(** ** Progress *)

(** On a runtime of one thread nothing happens between the lock and the subscription,
    so no load ends while a caller is between them. *)
Definition prompt_action (w : Flights) (a : action) : Prop :=
  match a with
  | Loaded i _ => ∀ c e, callers w !! i = Some c → c_pc c = PLoad e → ∀ j d, callers w !! j = Some d → c_pc d ≠ PNotify e
  | Drop_ i => ∀ c e, callers w !! i = Some c → c_pc c ≠ PLoad e
  | _ => True
  end.
Fixpoint prompt (acts : list action) (w : Flights) : Prop :=
  match acts with
  | [] => True
  | a :: acts => prompt_action w a ∧ match flight_step w a with Some w' => prompt acts w' | None => True end
  end.

Definition is_step (i : nat) (a : action) : bool := match a with Step j => Nat.eqb i j | _ => false end.

Definition steps_of (i : nat) (acts : list action) : nat := countp (λ a, is_step i a = true) acts.

(** The steps a caller still takes at most. *)
Definition steps_left (c : Caller) : nat :=
  match c_pc c with
  | PStart => 4
  | PLoop _ => if c_loader c then 3 else 1
  | PNotify _ => 2
  | PLoad _ | PWait _ | PWoken _ => 1
  | _ => 0
  end.

Definition loading (w : Flights) (e : nat) : Prop := ∃ j d, callers w !! j = Some d ∧ c_pc d = PLoad e.

Record in_progress (past : list action) (w : Flights) : Prop :=
  { ip_running : ∀ e s, heap w !! e = Some s → running s = true → loading w e;
    ip_waiting : ∀ i c e, callers w !! i = Some c → c_pc c = PNotify e ∨ c_pc c = PWait e → loading w e;
    ip_woken : ∀ i c e s, callers w !! i = Some c → c_pc c = PWoken e → heap w !! e = Some s → is_Some (outcome s);
    ip_steps : ∀ i, (steps_of i past +
                     match callers w !! i with Some c => steps_left c | None => 4 end ≤ 4)%nat }.

Lemma steps_of_snoc i past a : steps_of i (past ++ [a]) = (steps_of i past + if is_step i a then 1 else 0)%nat.
Proof. unfold steps_of. rewrite countp_app, countp_cons, countp_nil. destruct (is_step i a); case_decide; done || lia. Qed.

Lemma loading_put w i c c' e : callers w !! i = Some c → c_pc c ≠ PLoad e → loading w e → loading (put i c' w) e.
Proof.
  intros Hi Hc (j & d & Hj & Hd). exists j, d. rewrite lookup_put, decide_False; [done|]. intros [<- _]. congruence.
Qed.

(** A caller that is not loading moves by its own step, or is dropped. *)
Lemma progress_put past w a i c c' :
  in_progress past w → callers w !! i = Some c → (∀ e, c_pc c ≠ PLoad e) →
  (∀ e, c_pc c' = PNotify e ∨ c_pc c' = PWait e → loading w e) →
  (∀ e, c_pc c' ≠ PWoken e) →
  (∀ j, j ≠ i → is_step j a = false) → (steps_left c' + (if is_step i a then 1 else 0) ≤ steps_left c)%nat →
  in_progress (past ++ [a]) (put i c' w).
Proof.
  intros [H1 H2 H3 H4] Hi Hload Hwait Hwoken Ha Hs. split.
  - intros e s He Hr. eapply loading_put; eauto.
  - intros j d e. rewrite lookup_put. case_decide; [intros [= <-] Hd|intros Hj Hd]; (eapply loading_put; eauto).
  - intros j d e s. rewrite lookup_put. case_decide; [intros [= <-] Hd; by destruct (Hwoken e)|by eapply H3].
  - intros j. specialize (H4 j). rewrite steps_of_snoc, lookup_put.
    case_decide as Hij.
    + destruct Hij as [<- _]. rewrite Hi in H4. lia.
    + assert (is_step j a = false) as ->; [|lia]. apply Ha. intros ->. apply Hij. split; [done|by eapply lookup_lt_Some].
Qed.

Lemma progress_entry past w e s0 s :
  in_progress past w → heap w !! e = Some s0 → outcome s = outcome s0 → running s = running s0 ∨ loading w e →
  in_progress past (set_entry e s w).
Proof.
  intros [H1 H2 H3 H4] He Ho Hr. pose proof (lookup_lt_Some _ _ _ He) as Hlt.
  split; [| |intros i c e' s' Hi Hc|done]; [|done|]; cbn [set_entry heap callers].
  - intros e' s'. rewrite list_lookup_insert. case_decide as Hd; [|by apply H1]. destruct Hd as [<- _]. intros [= <-] Hrun.
    destruct Hr as [Hr|]; [|done]. apply (H1 e s0 He). congruence.
  - rewrite list_lookup_insert. case_decide as Hd; [|by eapply H3]. destruct Hd as [<- _]. intros [= <-]. rewrite Ho. by eapply H3.
Qed.

Lemma decide_action_progress own past w w' i c e :
  flight_ok own past w → in_progress past w → callers w !! i = Some c → c_pc c = PLoop e ∨ c_pc c = PWoken e →
  decide_action i c e w = Some w' → in_progress (past ++ [Step i]) w'.
Proof.
  intros H Hp Hi Hpc. assert (on_entry c = Some e) as Hon by (unfold on_entry; by destruct Hpc as [-> | ->]).
  destruct (attached _ _ _ _ _ _ H Hi Hon) as (Ho & s & Hs & Hc & _). unfold decide_action. rewrite Hs.
  assert (∀ e, c_pc c ≠ PLoad e) as Hload by (intros e'; by destruct Hpc as [-> | ->]).
  assert (is_step i (Step i) = true) as Hself by apply Nat.eqb_refl.
  assert (∀ j, j ≠ i → is_step j (Step i) = false) as Hother by (intros j; apply Nat.eqb_neq).
  destruct (outcome s) as [r|] eqn:Er.
  { intros [= <-]. eapply progress_put; eauto; cbn [c_pc set_pc]; [by intros ? [|]|].
    rewrite Hself. unfold steps_left. cbn [c_pc set_pc]. destruct Hpc as [-> | ->]; [destruct (c_loader c)|]; lia. }
  assert (c_pc c = PLoop e) as Hl.
  { destruct Hpc as [|Hw]; [done|]. destruct (ip_woken _ _ Hp i c e s Hi Hw Hs) as [? ?]. congruence. }
  assert (c_loader c = true) as Ht.
  { destruct (c_loader c) eqn:El; [done|]. destruct (Hc eq_refl) as [(_ & _ & e' & [|])|[[? ?] _]]; congruence. }
  assert (steps_left c = 3%nat) as H3 by (unfold steps_left; by rewrite Hl, Ht).
  destruct (running s) eqn:Erun; cbn [negb]; intros [= <-].
  - eapply progress_put; eauto; cbn [c_pc set_pc]; [|rewrite H3, Hself; cbn; lia].
    intros e' [[= <-]|[=]]. by eapply ip_running.
  - rewrite Ht.
    assert (in_progress (past ++ [Step i]) (put i (take_loader (PLoad e) c) w)) as H'.
    { eapply progress_put; eauto; cbn [c_pc take_loader]; [by intros ? [|]|rewrite H3, Hself; cbn; lia]. }
    apply (progress_entry _ (put i (take_loader (PLoad e) c) w) e s {| running := true; outcome := None |}); [done..|].
    right. exists i, (take_loader (PLoad e) c). rewrite lookup_put, decide_True; [done|]. split; [done|by eapply lookup_lt_Some].
Qed.

Lemma publish_progress own past w i c e out :
  flight_ok own past w → in_progress past w → callers w !! i = Some c → c_pc c = PLoad e →
  (∀ j d, callers w !! j = Some d → c_pc d ≠ PNotify e) → in_progress (past ++ [Loaded i out]) (publish i c e out w).
Proof.
  intros H [H1 H2 H3 H4] Hi Hpc Hprompt. assert (on_entry c = Some e) as Hon by (unfold on_entry; by rewrite Hpc).
  destruct (attached _ _ _ _ _ _ H Hi Hon) as (_ & s & Hs & _ & Hl). rewrite Hpc in Hl.
  pose proof (lookup_lt_Some _ _ _ Hs) as Hlt. pose proof (lookup_lt_Some _ _ _ Hi) as Hilt.
  set (w' := publish i c e out w).
  assert (∀ j, callers w' !! j = if decide (i = j) then Some (set_pc (PLoop e) c) else notify_waiters e <$> callers w !! j) as Hput.
  { intros j. unfold w', publish. rewrite lookup_put. cbn [callers set_entry]. rewrite length_fmap, list_lookup_fmap.
    destruct (decide (i = j)) as [<-|Hne]; [by rewrite decide_True|rewrite decide_False; [done|tauto]]. }
  assert (∀ e', heap w' !! e' = if decide (e = e') then Some {| running := false; outcome := Some out |} else heap w !! e') as Hheap.
  { intros e'. unfold w', publish. cbn [heap put set_entry]. rewrite list_lookup_insert.
    destruct (decide (e = e')) as [<-|Hne]; [by rewrite decide_True|rewrite decide_False; [done|tauto]]. }
  assert (∀ e', e' ≠ e → loading w e' → loading w' e') as Hloading.
  { intros e' Hne (j & d & Hj & Hd). exists j, d. rewrite Hput, decide_False by (intros <-; congruence). rewrite Hj. split; [|done].
    cbn. f_equal. unfold notify_waiters. by rewrite Hd. }
  assert (∀ j d', callers w' !! j = Some d' → j ≠ i → ∃ d, callers w !! j = Some d ∧ steps_left d' = steps_left d ∧
            (d' = d ∧ c_pc d ≠ PWait e ∨ c_pc d = PWait e ∧ c_pc d' = PWoken e)) as Hold.
  { intros j d' Hj Hne. rewrite Hput, decide_False in Hj by done. apply fmap_Some in Hj as (d & Hj & ->). exists d. split; [done|].
    unfold notify_waiters. destruct (c_pc d) eqn:E; try (split; [done|]; left; split; congruence).
    case_bool_decide as Hb; [subst; split; [unfold steps_left; by rewrite E|by right]|].
    split; [done|]. left. split; congruence. }
  split.
  - intros e' s'. rewrite Hheap. case_decide; [by intros [= <-]|]. intros He Hr. apply Hloading; [done|by eapply H1].
  - intros j d' e' Hj Hd. destruct (decide (j = i)) as [->|Hne].
    { rewrite Hput, decide_True in Hj by done. injection Hj as <-. cbn in Hd. by destruct Hd. }
    destruct (Hold j d' Hj Hne) as (d & Hjd & _ & [[-> Hnw]|[_ Hw]]); [|destruct Hd; congruence].
    apply Hloading; [|by eapply H2]. intros ->. destruct Hd as [Hd|Hd]; [by destruct (Hprompt j d Hjd)|done].
  - intros j d' e' s' Hj Hd. rewrite Hheap. case_decide as He; [by intros [= <-]|]. destruct (decide (j = i)) as [->|Hne].
    { rewrite Hput, decide_True in Hj by done. by injection Hj as <-. }
    destruct (Hold j d' Hj Hne) as (d & Hjd & _ & [[-> _]|[_ Hw]]); [by eapply H3|congruence].
  - intros j. specialize (H4 j). rewrite steps_of_snoc. cbn [is_step].
    destruct (callers w' !! j) as [d'|] eqn:Hj.
    + destruct (decide (j = i)) as [->|Hne].
      * rewrite Hput, decide_True in Hj by done. injection Hj as <-. rewrite Hi in H4. unfold steps_left in *. cbn [c_pc set_pc c_loader].
        rewrite Hpc in H4. rewrite Hl. lia.
      * destruct (Hold j d' Hj Hne) as (d & Hjd & -> & _). rewrite Hjd in H4. lia.
    + assert (callers w !! j = None) as Hn; [|rewrite Hn in H4; lia]. rewrite Hput in Hj. case_decide; [done|]. by apply fmap_None in Hj.
Qed.

Lemma progress_past past w a :
  in_progress past w → (∀ i, is_step i a = false) → in_progress (past ++ [a]) w.
Proof. intros [H1 H2 H3 H4] Ha. split; [done..|]. intros i. rewrite steps_of_snoc, Ha, Nat.add_0_r. apply H4. Qed.

Lemma flight_step_progress own past w w' a :
  flight_ok own past w → in_progress past w → prompt_action w a → flight_step w a = Some w' → in_progress (past ++ [a]) w'.
Proof.
  intros H Hp Hprompt Ha. destruct a as [key ty|i|i out|i|key]; cbn [flight_step prompt_action] in *.
  - injection Ha as <-. apply (progress_past _ _ (Call key ty)) in Hp as [H1 H2 H3 H4]; [|done].
    assert (∀ e, loading w e → loading {| entries := entries w; heap := heap w;
              callers := callers w ++ [{| c_key := key; c_ty := ty; c_loader := true; c_pc := PStart |}] |} e) as Hl.
    { intros e (j & d & Hj & Hd). exists j, d. split; [by apply lookup_app_l_Some|done]. }
    split; cbn [heap callers].
    + intros e s He Hr. apply Hl. by eapply H1.
    + intros i c e [Hi|[_ [_ <-]%list_lookup_singleton_Some]]%lookup_app_Some Hc; [apply Hl; by eapply H2|by destruct Hc].
    + intros i c e s [Hi|[_ [_ <-]%list_lookup_singleton_Some]]%lookup_app_Some Hc; [by eapply H3|done].
    + intros i. specialize (H4 i). destruct (decide (i < length (callers w))%nat) as [Hlt|Hge].
      * by rewrite lookup_app_l.
      * rewrite (lookup_ge_None_2 (callers w)) in H4 by lia. destruct (_ !! i) as [c|] eqn:E; [|done].
        apply lookup_app_Some in E as [Hc|[_ [_ <-]%list_lookup_singleton_Some]]; [|done]. apply lookup_lt_Some in Hc. lia.
  - apply bind_Some in Ha as (c & Hi & Ha).
    assert (is_step i (Step i) = true) as Hself by apply Nat.eqb_refl.
    assert (∀ j, j ≠ i → is_step j (Step i) = false) as Hother by (intros j; apply Nat.eqb_neq).
    destruct (c_pc c) as [|e|e|e|e|e|e o|e|] eqn:Hpc; try done.
    + pose proof (fo_callers _ _ _ H i c Hi) as [_ Hc]. unfold on_entry in Hc. rewrite Hpc in Hc. cbn in Hc.
      assert (let '(e, w1) := entry_for (c_key c) w in callers w1 = callers w ∧ in_progress past w1) as Hentry.
      { unfold entry_for. destruct (entries w !! c_key c); [done|]. split; [done|]. destruct Hp as [H1 H2 H3 H4].
        split; cbn [heap callers]; [|done|intros j d e s Hj Hd|done].
        - intros e s [He|[_ [_ <-]%list_lookup_singleton_Some]]%lookup_app_Some Hr; [by eapply H1|done].
        - intros [He|[Hge _]]%lookup_app_Some; [by eapply H3|].
          assert (on_entry d = Some e) as Hon by (unfold on_entry; by rewrite Hd).
          destruct (attached _ _ _ _ _ _ H Hj Hon) as (_ & s2 & Hs2 & _). apply lookup_lt_Some in Hs2. lia. }
      destruct (entry_for (c_key c) w) as [e w1]. destruct Hentry as [Hcs Hp1]. injection Ha as <-.
      eapply progress_put; [done|by rewrite Hcs|by rewrite Hpc|by intros ? [|]|done|done|].
      rewrite Hself. unfold steps_left. cbn [c_pc set_pc c_loader]. rewrite Hpc, Hc. lia.
    + eapply decide_action_progress; eauto.
    + injection Ha as <-. eapply progress_put; eauto; cbn [c_pc set_pc].
      * intros e'. by rewrite Hpc.
      * intros e' [|[= <-]]; [done|]. eapply ip_waiting; eauto.
      * rewrite Hself. unfold steps_left. cbn [c_pc set_pc]. rewrite Hpc. lia.
    + eapply decide_action_progress; eauto.
  - apply bind_Some in Ha as (c & Hi & Ha). destruct (c_pc c) as [|e|e|e|e|e|e o|e|] eqn:Hpc; try done.
    destruct (match out with Ok v => _ | Err _ => _ end); [|done]. injection Ha as <-.
    eapply publish_progress; eauto.
  - apply bind_Some in Ha as (c & Hi & Ha).
    destruct (c_pc c) as [|e|e|e|e|e|e o|e|] eqn:Hpc; try done; [by destruct (Hprompt c e Hi)|..]; injection Ha as <-;
      (apply (progress_put _ w _ i c); [done|done|by rewrite Hpc|by intros ? [|]|done|done|];
       unfold steps_left; cbn [c_pc set_pc]; rewrite Hpc; cbn; lia).
  - injection Ha as <-. apply progress_past; [|done]. destruct Hp. by split.
Qed.

Lemma flights_run_progress acts own past w w' :
  flight_ok own past w → in_progress past w → prompt acts w → flights_run acts w = Some w' →
  ∃ own', flight_ok own' (past ++ acts) w' ∧ in_progress (past ++ acts) w'.
Proof.
  revert own past w. induction acts as [|a acts IH]; intros own past w H Hp Hprompt Hr; cbn [flights_run prompt] in *.
  { injection Hr as <-. exists own. by rewrite app_nil_r. }
  apply bind_Some in Hr as (w1 & Ha & Hr). rewrite Ha in Hprompt. destruct Hprompt as [Hprompt Hrest].
  destruct (flight_step_ok _ _ _ _ _ H Ha) as [own1 H1]. pose proof (flight_step_progress _ _ _ _ _ H Hp Hprompt Ha) as Hp1.
  destruct (IH own1 _ w1 H1 Hp1 Hrest Hr) as [own' H']. exists own'. by rewrite <- app_assoc in H'.
Qed.

(** C29: On one thread every call is served. As long as no call is dropped while it loads
    and no load ends between a caller's look at the entry and its subscription, a call
    takes at most four steps of its own, whatever else happens; and whenever it has
    neither returned nor been dropped it can take its next one, or is loading, or
    waits for a caller that is. *)
Theorem flights_served acts w :
  prompt acts Flights_new → flights_run acts Flights_new = Some w →
  (∀ i, (steps_of i acts ≤ 4)%nat) ∧
  ∀ i c, callers w !! i = Some c →
    match c_pc c with
    | PDone _ _ | PGone _ | PLoad _ => True
    | PWait e => loading w e
    | PPanic => False
    | PStart | PLoop _ | PNotify _ | PWoken _ => is_Some (flight_step w (Step i))
    end.
Proof.
  intros Hprompt Hr.
  assert (in_progress [] Flights_new) as Hnew by (split; try (intros; simplify_map_eq; done); intros i; cbn; lia).
  destruct (flights_run_progress _ _ _ _ _ new_ok Hnew Hprompt Hr) as (own & H & Hp). cbn [app] in *. split.
  - intros i. pose proof (ip_steps _ _ Hp i). lia.
  - intros i c Hi. destruct (fo_callers _ _ _ H i c Hi) as [Hpanic _].
    assert (∀ e, on_entry c = Some e → is_Some (decide_action i c e w)) as Hdec.
    { intros e Hon. destruct (attached _ _ _ _ _ _ H Hi Hon) as (_ & s & Hs & _). unfold decide_action. rewrite Hs.
      destruct (outcome s); [done|]. by destruct (negb (running s)). }
    cbn [flight_step]. rewrite Hi. cbn [mbind option_bind]. unfold on_entry in Hdec.
    destruct (c_pc c) as [|e|e|e|e|e|e o|e|] eqn:Hpc; try done; [|by apply Hdec|by eapply ip_waiting; eauto|by apply Hdec].
    by destruct (entry_for _ _).
Qed.
End flight.

(** ** What can go wrong *)

(** Once its entry has an outcome, a caller that waits is woken by nobody. *)
Section stranded.
Context {Val Ty : Type} `{EqDecision Ty} (type_of : Val → Ty).
Implicit Types (w : Flights (Val := Val) (Ty := Ty)).

Definition stranded (i : nat) (w : Flights (Val := Val) (Ty := Ty)) : Prop :=
  ∃ c e s, callers w !! i = Some c ∧ c_pc c = PWait e ∧ heap w !! e = Some s ∧ is_Some (outcome s).

Lemma stranded_step own past i w w' a :
  flight_ok type_of own past w → stranded i w → a ≠ Drop_ i → flight_step type_of w a = Some w' → stranded i w'.
Proof.
  intros H (d & e & s & Hi & Hd & Hs & Ho) Hne Ha.
  assert (∀ j c c' w1, callers w1 = callers w → (∀ s0, heap w !! e = Some s0 → ∃ s1, heap w1 !! e = Some s1 ∧ outcome s1 = outcome s0) →
            callers w !! j = Some c → (∀ e, c_pc c ≠ PWait e) ∨ j ≠ i → stranded i (put j c' w1)) as Hput.
  { intros j c c' w1 Hcs Hh Hj Hw. destruct (Hh s Hs) as (s1 & Hs1 & Ho1). exists d, e, s1.
    rewrite lookup_put, decide_False, Hcs; [by rewrite Ho1|]. intros [<- _]. destruct Hw as [Hw|]; [|done]. apply (Hw e). congruence. }
  destruct a as [key ty|j|j out|j|key]; cbn [flight_step] in Ha.
  - injection Ha as <-. exists d, e, s. split; [by apply lookup_app_l_Some|done].
  - apply bind_Some in Ha as (c & Hj & Ha).
    assert (∀ e', (∀ e, c_pc c ≠ PWait e) → decide_action type_of j c e' w = Some w' → stranded i w') as Hdec.
    { intros e' Hw Hdec. unfold decide_action in Hdec. destruct (heap w !! e') as [s'|] eqn:Hs'; [|done].
      destruct (outcome s') eqn:Ho'; [injection Hdec as <-; eapply Hput; eauto|].
      destruct (negb (running s')); [|injection Hdec as <-; eapply Hput; eauto].
      assert (e' ≠ e) as Hee by (intros ->; rewrite Hs in Hs'; injection Hs' as <-; by rewrite Ho' in Ho; destruct Ho).
      injection Hdec as <-. destruct (c_loader c); (eapply Hput; eauto; intros s0 Hs0; exists s0; split; [|done];
        cbn [set_entry heap]; by rewrite list_lookup_insert_ne). }
    destruct (c_pc c) as [|e1|e1|e1|e1|e1|e1 o|e1|] eqn:Hpc; try done; [|by eapply Hdec| |by eapply Hdec].
    + unfold entry_for in Ha. destruct (entries w !! c_key c); injection Ha as <-; eapply Hput; eauto; rewrite ?Hpc; auto.
      cbn [heap]. intros s0 Hs0. exists s0. split; [by apply lookup_app_l_Some|done].
    + injection Ha as <-. eapply Hput; eauto. left. by rewrite Hpc.
  - apply bind_Some in Ha as (c & Hj & Ha). destruct (c_pc c) as [|e1|e1|e1|e1|e1|e1 o|e1|] eqn:Hpc; try done.
    destruct (match out with Ok v => _ | Err _ => _ end); [|done]. injection Ha as <-.
    assert (on_entry c = Some e1) as Hon by (unfold on_entry; by rewrite Hpc).
    destruct (attached _ _ _ _ _ _ _ H Hj Hon) as (_ & s1 & Hs1 & Hc & Hl). rewrite Hpc in Hl.
    assert (e1 ≠ e) as Hee.
    { intros ->. replace s1 with s in * by congruence.
      destruct (Hc Hl) as [(_ & Hn & _)|(_ & e' & [He'|[He'|[? He']]])]; [rewrite Hn in Ho; by destruct Ho|rewrite Hpc in He'; done..]. }
    assert (i ≠ j) as Hij by (intros ->; congruence).
    exists d, e, s. unfold publish. rewrite lookup_put, decide_False by (intros [? _]; congruence).
    cbn [callers heap put set_entry]. rewrite list_lookup_fmap, Hi, list_lookup_insert_ne by done.
    split; [|done]. cbn. f_equal. unfold notify_waiters. rewrite Hd. by rewrite bool_decide_eq_false_2.
  - apply bind_Some in Ha as (c & Hj & Ha).
    assert (∀ c', stranded i (put j c' w)) as Hdrop by (intros c'; eapply Hput; eauto; right; congruence).
    destruct (c_pc c); try done; injection Ha as <-; apply Hdrop.
  - injection Ha as <-. by exists d, e, s.
Qed.

Lemma stranded_run acts own past i w w' :
  flight_ok type_of own past w → stranded i w → Drop_ i ∉ acts → flights_run type_of acts w = Some w' → stranded i w'.
Proof.
  revert own past w. induction acts as [|a acts IH]; intros own past w H Hs Hno Hr; cbn [flights_run] in Hr.
  { by injection Hr as <-. }
  apply bind_Some in Hr as (w1 & Ha & Hr). rewrite not_elem_of_cons in Hno. destruct Hno as [Hno1 Hno].
  destruct (flight_step_ok _ _ _ _ _ _ H Ha) as [own1 H1]. apply (IH _ _ _ H1); [|done|done].
  by eapply (stranded_step _ _ _ _ _ _ H).
Qed.
End stranded.

(** ** Executions *)

#[local] Abbreviation run acts := (flights_run (λ _ : N, tt) acts Flights_new).
Definition ex_key : rstr := lit "user:1".
Definition pcs (w : option (Flights (Val := N) (Ty := ()))) : option (list (Pc (Val := N))) := (λ w, c_pc <$> callers w) <$> w.

(** Two calls, one load, one result. *)
Definition ex_coalesced : list (action (Val := N) (Ty := ())) :=
  [Call ex_key tt; Call ex_key tt; Step 0; Step 1; Step 0; Step 1; Step 1; Loaded 0 (Ok 42); Step 0; Step 1].
Example ex_coalesced_result : pcs (run ex_coalesced) = Some [PDone 0 (Ok 42); PDone 0 (Ok 42)].
Proof. reflexivity. Qed.

Lemma flights_coalesce_witness :
  ∃ w, run ex_coalesced = Some w ∧ ¬ ∃ c d, callers w !! 0%nat = Some c ∧ callers w !! 1%nat = Some d ∧
    c_key c = c_key d ∧ c_loader c = false ∧ c_loader d = false.
Proof.
  destruct (run ex_coalesced) as [w|] eqn:E; [|by vm_compute in E]. exists w. split; [done|].
  intros (c & d & Hc & Hd & Hk & Hlc & Hld).
  destruct (flights_coalesce (λ _ : N, tt) ex_coalesced w E) as (_ & _ & Hone).
  assert (0%nat = 1%nat) as [=]. apply (Hone 0%nat 1%nat c d); try done. right. split; [|done].
  intros Hk'. repeat (apply elem_of_cons in Hk' as [Hk'|Hk']; [done|]). by apply not_elem_of_nil in Hk'.
Defined.

Lemma flights_served_witness : ∃ w, run ex_coalesced = Some w ∧ (steps_of 1 ex_coalesced ≤ 4)%nat.
Proof.
  destruct (run ex_coalesced) as [w|] eqn:E; [|by vm_compute in E]. exists w. split; [done|].
  apply (flights_served (λ _ : N, tt) ex_coalesced w); [|done].
  vm_compute. split_and!; try done.
  intros c e [= <-] [= <-] [|[|j]] d Hd; [injection Hd as <-|injection Hd as <-|]; done.
Defined.

(** A wake-up is lost when the load ends between a caller's look at the entry and its
    subscription: on several threads it then waits for good, its value being there. *)
Definition ex_lost : list (action (Val := N) (Ty := ())) :=
  [Call ex_key tt; Call ex_key tt; Step 0; Step 1; Step 0; Step 1; Loaded 0 (Ok 42); Step 1; Step 0].
Lemma lost_wakeup_hangs :
  ∃ w, run ex_lost = Some w ∧ pcs (Some w) = Some [PDone 0 (Ok 42); PWait 0] ∧
  ∀ acts w', Drop_ 1 ∉ acts → flights_run (λ _ : N, tt) acts w = Some w' → ∃ c e, callers w' !! 1%nat = Some c ∧ c_pc c = PWait e.
Proof.
  destruct (run ex_lost) as [w|] eqn:E; [|by vm_compute in E]. exists w. split; [done|].
  destruct (flights_run_ok _ _ _ _ _ _ (new_ok _) E) as [own H]. vm_compute in E. injection E as <-. split; [reflexivity|].
  intros acts w' Hno Hr. eapply (stranded_run _ acts) in H as (c & e & s & Hi & Hc & _); [by exists c, e| |exact Hno|exact Hr].
  by eexists _, 0%nat, _.
Qed.

(** A call that is dropped while it loads leaves its entry running: all later calls wait. *)
Lemma dropped_load_blocks :
  pcs (run [Call ex_key tt; Step 0; Step 0; Drop_ 0; Call ex_key tt; Step 1; Step 1; Step 1]) = Some [PGone 0; PWait 0] ∧
  (run [Call ex_key tt; Step 0; Step 0; Drop_ 0; Call ex_key tt; Step 1; Step 1; Step 1; Step 1]) = None.
Proof. split; reflexivity. Qed.

(** Callers that reset the key when they return, as the cache does, split a flight that
    started in between: two loads of one key run at the same time. *)
Lemma reset_splits_flight :
  pcs (run [Call ex_key tt; Call ex_key tt; Step 0; Step 1; Step 0; Step 1; Step 1; Loaded 0 (Ok 42); Step 0; Reset ex_key;
            Call ex_key tt; Step 2; Step 2; Step 1; Reset ex_key; Call ex_key tt; Step 3; Step 3]) =
  Some [PDone 0 (Ok 42); PDone 0 (Ok 42); PLoad 1; PLoad 2].
Proof. reflexivity. Qed.
