(* ===== verification/Lifecycle.v ===== *)
(** * Service groups (crates/roze-service/src/lib.rs, crates/roze-shutdown/src/lib.rs)

    [ServiceGroup::start_with_shutdown] as a machine with one stage per await. An
    input is what the awaited future gives: a hook's answer, the end of a timeout, the
    exit of a service's task, a signal; the group's handle may ask for shutdown at any
    stage. What the group does to its services is kept in a log. *)

From S2P Require Import Prelude Text Scan.
From Stdlib Require Import ZArith.

(** ** Services *)

(** A service's name and order; what its futures do is the machine's input. *)
Record Service := { sv_name : rstr; sv_order : Z }.

(** [sort_by_key], which is stable. *)
Fixpoint insert_service (s : Service) (l : list Service) : list Service :=
  match l with
  | [] => [s]
  | s' :: l' => if (sv_order s <=? sv_order s')%Z then s :: l else s' :: insert_service s l'
  end.
Definition sort_services (l : list Service) : list Service := foldr insert_service [] l.
Definition ordered_services (l : list Service) (reversed : bool) : list Service :=
  if reversed then reverse (sort_services l) else sort_services l.

Inductive LifecyclePhase := Starting | Ready | Draining | Stopped | Failed.
Definition phase_code (p : LifecyclePhase) : N :=
  match p with Starting => 0 | Ready => 1 | Draining => 2 | Stopped => 3 | Failed => 4 end.
Definition phase_from_code (code : N) : LifecyclePhase :=
  if code =? 1 then Ready else if code =? 2 then Draining else if code =? 3 then Stopped
  else if code =? 4 then Failed else Starting.
Definition is_ready (p : LifecyclePhase) : bool := match p with Ready => true | _ => false end.
Definition is_draining (p : LifecyclePhase) : bool := match p with Draining => true | _ => false end.
Definition is_terminal (p : LifecyclePhase) : bool := match p with Stopped | Failed => true | _ => false end.

Record ServiceGroupConfig :=
  { startup_timeout : N; drain_timeout : N; shutdown_timeout : N; stop_on_first_error : bool }.
Definition ServiceGroupConfig_default : ServiceGroupConfig :=
  {| startup_timeout := from_secs 30; drain_timeout := from_secs 30; shutdown_timeout := from_secs 30;
     stop_on_first_error := true |}.

(** ** The group *)

Inductive LifecycleHook := HookReady | HookDrain.
Definition hook_debug (h : LifecycleHook) : rstr := match h with HookReady => lit "Ready" | HookDrain => lit "Drain" end.

(** What is awaited: the hook of the head of a list, with the errors of its round so
    far, the exit of a task, or the first of several in the select. *)
Inductive Stage :=
| Created
| ReadyHooks (s : Service) (rest : list Service) (errs : list rstr)
| StartFailed (n : nat)
| Running
| DrainHooks (s : Service) (rest : list Service) (errs : list rstr)
| StopHooks (s : Service) (rest : list Service) (errs : list rstr)
| Joining (n : nat)
| Finished (r : result rstr ()).

Inductive Done := Spawned (s : Service) | CalledReady (s : Service) | CalledDrain (s : Service)
| Triggered | CalledStop (s : Service).

(** [tasks] counts what the [JoinSet] still holds. *)
Record ServiceGroup :=
  { sg_config : ServiceGroupConfig; services : list Service; stage : Stage; phase : LifecyclePhase; requested : bool;
    tasks : nat; active : nat; errors : list rstr; failure : option rstr; log : list Done }.

Definition ServiceGroup_new (config : ServiceGroupConfig) (l : list Service) : ServiceGroup :=
  {| sg_config := config; services := l; stage := Created; phase := Starting; requested := false; tasks := 0; active := 0;
     errors := []; failure := None; log := [] |}.

Definition set_stage (st : Stage) (did : list Done) (g : ServiceGroup) : ServiceGroup :=
  {| sg_config := sg_config g; services := services g; stage := st; phase := phase g; requested := requested g;
     tasks := tasks g; active := active g; errors := errors g; failure := failure g; log := log g ++ did |}.
Definition mark (p : LifecyclePhase) (g : ServiceGroup) : ServiceGroup :=
  {| sg_config := sg_config g; services := services g; stage := stage g; phase := p; requested := requested g;
     tasks := tasks g; active := active g; errors := errors g; failure := failure g; log := log g |}.
Definition request (g : ServiceGroup) : ServiceGroup :=
  {| sg_config := sg_config g; services := services g; stage := stage g; phase := phase g; requested := true;
     tasks := tasks g; active := active g; errors := errors g; failure := failure g; log := log g |}.
Definition set_tasks (t a : nat) (g : ServiceGroup) : ServiceGroup :=
  {| sg_config := sg_config g; services := services g; stage := stage g; phase := phase g; requested := requested g;
     tasks := t; active := a; errors := errors g; failure := failure g; log := log g |}.
Definition add_errors (l : list rstr) (g : ServiceGroup) : ServiceGroup :=
  {| sg_config := sg_config g; services := services g; stage := stage g; phase := phase g; requested := requested g;
     tasks := tasks g; active := active g; errors := errors g ++ l; failure := failure g; log := log g |}.
Definition set_failure (f : rstr) (g : ServiceGroup) : ServiceGroup :=
  {| sg_config := sg_config g; services := services g; stage := stage g; phase := phase g; requested := requested g;
     tasks := tasks g; active := active g; errors := errors g; failure := Some f; log := log g |}.

Section lifecycle.
(** [{:?}] of a duration *)
Context (duration_debug : N → rstr).

(** ** Ends of the rounds *)

Definition fail (g : ServiceGroup) : ServiceGroup :=
  let text := join (lit "; ") (errors g) in set_stage (Finished (Err text)) [] (set_failure text g).

Definition finish (g : ServiceGroup) : ServiceGroup :=
  match errors g with
  | [] => set_stage (Finished (Ok ())) [] (mark Stopped g)
  | _ => fail (mark Failed g)
  end.

(** [wait_for_tasks] *)
Definition join_tasks (g : ServiceGroup) : ServiceGroup :=
  match active g with O => finish g | S _ => set_stage (Joining (active g)) [] g end.

Definition stop_done (errs : list rstr) (g : ServiceGroup) : ServiceGroup := join_tasks (add_errors errs g).
Definition stop_services (g : ServiceGroup) : ServiceGroup :=
  match ordered_services (services g) true with
  | [] => stop_done [] g
  | s :: rest => set_stage (StopHooks s rest []) [CalledStop s] g
  end.

Definition drain_done (errs : list rstr) (g : ServiceGroup) : ServiceGroup :=
  stop_services (set_stage (stage g) [Triggered] (add_errors errs g)).
Definition drain_services (g : ServiceGroup) : ServiceGroup :=
  match ordered_services (services g) true with
  | [] => drain_done [] g
  | s :: rest => set_stage (DrainHooks s rest []) [CalledDrain s] g
  end.

(** After the loop of [start_with_shutdown] *)
Definition leave_running (g : ServiceGroup) : ServiceGroup :=
  if requested g || Nat.ltb 0 (active g) then drain_services g else finish g.

Definition ready_done (errs : list rstr) (g : ServiceGroup) : ServiceGroup :=
  match errs with
  | [] =>
      let g := set_tasks (tasks g) (length (services g)) (mark Ready g) in
      match active g with O => leave_running g | S _ => set_stage Running [] g end
  | _ =>
      let g := set_stage (stage g) [Triggered] (add_errors errs (mark Failed g)) in
      match length (services g) with O => fail g | S _ => set_stage (StartFailed (length (services g))) [] g end
  end.

Definition start (g : ServiceGroup) : ServiceGroup :=
  match ordered_services (services g) false with
  | [] => set_stage (Finished (Ok ())) [] (mark Stopped g)
  | s :: rest =>
      set_stage (ReadyHooks s rest []) ((Spawned <$> s :: rest) ++ [CalledReady s])
        (set_tasks (length (services g)) (active g) g)
  end.

(** ** Messages *)

Definition hook_error (s : Service) (h : LifecycleHook) (error : rstr) : rstr :=
  lit "service " ++ sv_name s ++ lit " " ++ hook_debug h ++ lit " hook failed: " ++ error.
Definition hooks_timed_out (h : LifecycleHook) (timeout : N) : rstr :=
  lit "service group " ++ hook_debug h ++ lit " hooks timed out after " ++ duration_debug timeout.
(** [with_context] and [{:#}] *)
Definition stop_error (s : Service) (error : rstr) : rstr :=
  lit "service " ++ sv_name s ++ lit " stop hook failed: " ++ error.
Definition stop_timed_out (timeout : N) : rstr := lit "service group stop hooks timed out after " ++ duration_debug timeout.
Definition tasks_timed_out (timeout : N) : rstr :=
  lit "service group tasks timed out after shutdown timeout " ++ duration_debug timeout.

Inductive Exit := Returned (name : rstr) (r : result rstr ()) | JoinFailed (error : rstr).
(** [handle_service_exit]: the error to record, if it failed. *)
Definition handle_service_exit (e : Exit) : list rstr :=
  match e with
  | Returned _ (Ok _) => []
  | Returned name (Err error) => [lit "service " ++ name ++ lit " failed: " ++ error]
  | JoinFailed error => [lit "service task failed: " ++ error]
  end.

(** ** Inputs *)

Inductive input :=
| Start
| Shutdown
| Hook (r : result rstr ())
| Elapsed
| Exited (e : Exit)
| Signal
| SeenRequest.

Definition push (errs : list rstr) (r : result rstr ()) (message : rstr → rstr) : list rstr :=
  match r with Ok _ => errs | Err e => errs ++ [message e] end.

(** A task is joined in the loop of [start_with_shutdown]. *)
Definition exit_running (e : Exit) (g : ServiceGroup) : ServiceGroup :=
  let errs := handle_service_exit e in
  let g := add_errors errs (set_tasks (pred (tasks g)) (pred (active g)) g) in
  if negb (bool_decide (errs = [])) && stop_on_first_error (sg_config g) then leave_running (request (mark Draining g))
  else match active g with O => leave_running g | S _ => g end.

(** A task is joined in [wait_for_tasks]. *)
Definition exit_joining (e : Exit) (g : ServiceGroup) : ServiceGroup :=
  add_errors (handle_service_exit e) (set_tasks (pred (tasks g)) (active g) g).

Definition lifecycle_step (g : ServiceGroup) (i : input) : option ServiceGroup :=
  match i, stage g with
  | Shutdown, _ => Some (request (mark Draining g))
  | Start, Created => Some (start g)
  | Hook r, ReadyHooks s rest errs =>
      let errs := push errs r (hook_error s HookReady) in
      Some (match rest with
            | [] => ready_done errs g
            | s' :: rest => set_stage (ReadyHooks s' rest errs) [CalledReady s'] g
            end)
  | Elapsed, ReadyHooks _ _ _ => Some (ready_done [hooks_timed_out HookReady (startup_timeout (sg_config g))] g)
  | Exited e, StartFailed (S n) =>
      match tasks g with
      | O => None
      | S _ => let g := exit_joining e g in
               Some (match n with O => fail g | S _ => set_stage (StartFailed n) [] g end)
      end
  | Elapsed, StartFailed _ => Some (fail (add_errors [tasks_timed_out (shutdown_timeout (sg_config g))] g))
  | Signal, Running => Some (leave_running (mark Draining g))
  | SeenRequest, Running => if requested g then Some (leave_running (mark Draining g)) else None
  | Exited e, Running => match tasks g with O => None | S _ => Some (exit_running e g) end
  | Hook r, DrainHooks s rest errs =>
      let errs := push errs r (hook_error s HookDrain) in
      Some (match rest with
            | [] => drain_done errs g
            | s' :: rest => set_stage (DrainHooks s' rest errs) [CalledDrain s'] g
            end)
  | Elapsed, DrainHooks _ _ _ => Some (drain_done [hooks_timed_out HookDrain (drain_timeout (sg_config g))] g)
  | Hook r, StopHooks s rest errs =>
      let errs := push errs r (stop_error s) in
      Some (match rest with
            | [] => stop_done errs g
            | s' :: rest => set_stage (StopHooks s' rest errs) [CalledStop s'] g
            end)
  | Elapsed, StopHooks _ _ _ => Some (stop_done [stop_timed_out (shutdown_timeout (sg_config g))] g)
  | Exited e, Joining (S n) =>
      match tasks g with
      | O => None
      | S _ => let g := exit_joining e g in
               Some (match n with O => finish g | S _ => set_stage (Joining n) [] g end)
      end
  | Elapsed, Joining _ => Some (finish (add_errors [tasks_timed_out (shutdown_timeout (sg_config g))] g))
  | _, _ => None
  end.

Fixpoint lifecycle_run (l : list input) (g : ServiceGroup) : option ServiceGroup :=
  match l with
  | [] => Some g
  | i :: l => g ← lifecycle_step g i; lifecycle_run l g
  end.

(** ** The course of a group's life *)

Implicit Types (g : ServiceGroup) (timed shut : Prop).

(** All of a list, or as much of it as a timeout let happen. *)
Definition upto (timed : Prop) {A} (p l : list A) : Prop := p `prefix_of` l ∧ (¬ timed → p = l).

Definition started (asc r : list Service) : list Done := (Spawned <$> asc) ++ (CalledReady <$> r).
Definition wound_down (asc d p : list Service) : list Done :=
  started asc asc ++ (CalledDrain <$> d) ++ [Triggered] ++ (CalledStop <$> p).

(** A whole life: nothing to run, a start that failed, services that all returned by
    themselves, or a shutdown. *)
Definition whole_course timed (asc : list Service) (l : list Done) : Prop :=
  (asc = [] ∧ l = []) ∨ (∃ r, upto timed r asc ∧ l = started asc r ++ [Triggered]) ∨ l = started asc asc ∨
  ∃ d p, upto timed d (reverse asc) ∧ upto timed p (reverse asc) ∧ l = wound_down asc d p.

Definition log_ok timed g : Prop :=
  let asc := ordered_services (services g) false in
  match stage g with
  | Created => log g = []
  | ReadyHooks s rest _ => ∃ r, asc = r ++ s :: rest ∧ log g = started asc (r ++ [s])
  | StartFailed _ => ∃ r, upto timed r asc ∧ log g = started asc r ++ [Triggered]
  | Running => log g = started asc asc
  | DrainHooks s rest _ => ∃ d, reverse asc = d ++ s :: rest ∧ log g = started asc asc ++ (CalledDrain <$> d ++ [s])
  | StopHooks s rest _ => ∃ d p, upto timed d (reverse asc) ∧ reverse asc = p ++ s :: rest ∧
      log g = wound_down asc d (p ++ [s])
  | Joining _ => ∃ d p, upto timed d (reverse asc) ∧ upto timed p (reverse asc) ∧ log g = wound_down asc d p
  | Finished _ => whole_course timed asc (log g)
  end.

Definition count_ok g : Prop :=
  match stage g with
  | Created => errors g = [] ∧ failure g = None
  | ReadyHooks _ _ _ => tasks g = length (services g) ∧ errors g = [] ∧ failure g = None
  | StartFailed n => n = tasks g ∧ (0 < n)%nat ∧ errors g ≠ [] ∧ failure g = None
  | Running => active g = tasks g ∧ (0 < tasks g)%nat ∧ failure g = None
  | DrainHooks _ _ _ | StopHooks _ _ _ => active g = tasks g ∧ failure g = None
  | Joining n => n = tasks g ∧ (0 < n)%nat ∧ failure g = None
  | Finished r => match r with
                  | Ok _ => errors g = [] ∧ failure g = None
                  | Err text => errors g ≠ [] ∧ text = join (lit "; ") (errors g) ∧ failure g = Some text
                  end
  end.

(** The phase, when the handle asked for nothing. *)
Definition phase_ok g : Prop :=
  phase g = match stage g with
            | Created | ReadyHooks _ _ _ => Starting
            | StartFailed _ | Finished (Err _) => Failed
            | Running => Ready
            | DrainHooks _ _ _ | StopHooks _ _ _ | Joining _ => Draining
            | Finished (Ok _) => Stopped
            end.

Definition before_drain (st : Stage) : bool :=
  match st with Created | ReadyHooks _ _ _ | Running => true | _ => false end.

Record lifecycle_ok timed shut g : Prop :=
  { lo_log : log_ok timed g; lo_count : count_ok g;
    lo_phase : ¬ shut → phase_ok g ∧ (before_drain (stage g) = true → requested g = false) }.

Lemma ordered_reverse l : ordered_services l true = reverse (ordered_services l false).
Proof. done. Qed.

Lemma started_snoc l r s : started l (r ++ [s]) = started l r ++ [CalledReady s].
Proof. unfold started. by rewrite fmap_app, <- app_assoc. Qed.
Lemma wound_down_snoc l d p s : wound_down l d (p ++ [s]) = wound_down l d p ++ [CalledStop s].
Proof. unfold wound_down. by rewrite fmap_app, <- !app_assoc. Qed.

Lemma prefix_snoc_app {A} (l p : list A) x rest : l = p ++ x :: rest → (p ++ [x]) `prefix_of` l.
Proof. intros ->. exists rest. by rewrite <- app_assoc. Qed.

(** The order of the services: by their orders, those of one order as they were added. *)
Lemma insert_service_filter s l o :
  filter (λ s, sv_order s = o) (insert_service s l) = filter (λ s, sv_order s = o) (s :: l).
Proof.
  induction l as [|s' l IH]; [done|]. cbn [insert_service]. destruct (sv_order s <=? sv_order s')%Z eqn:E; [done|].
  apply Z.leb_gt in E. rewrite (filter_cons _ s'), IH, !filter_cons. repeat case_decide; done || lia.
Qed.

Lemma elem_of_insert_service s l x : x ∈ insert_service s l ↔ x = s ∨ x ∈ l.
Proof.
  induction l as [|s' l IH]; cbn [insert_service]; [set_solver|]. destruct (_ <=? _)%Z; [set_solver|].
  rewrite !elem_of_cons, IH. set_solver.
Qed.

Lemma insert_service_sorted s l :
  StronglySorted (λ a b, (sv_order a ≤ sv_order b)%Z) l → StronglySorted (λ a b, (sv_order a ≤ sv_order b)%Z) (insert_service s l).
Proof.
  induction 1 as [|s' l Hl IH Hs]; [by repeat constructor|]. cbn [insert_service].
  rewrite Forall_forall in Hs. destruct (sv_order s <=? sv_order s')%Z eqn:E; [apply Z.leb_le in E|apply Z.leb_gt in E].
  - constructor; [constructor; [done|by apply Forall_forall]|]. constructor; [done|]. apply Forall_forall. intros x Hx.
    specialize (Hs x Hx). lia.
  - constructor; [done|]. apply Forall_forall. intros x [->|Hx]%elem_of_insert_service; [lia|by apply Hs].
Qed.

Lemma ordered_services_spec l :
  StronglySorted (λ a b, (sv_order a ≤ sv_order b)%Z) (ordered_services l false) ∧
  ∀ o, filter (λ s, sv_order s = o) (ordered_services l false) = filter (λ s, sv_order s = o) l.
Proof.
  unfold ordered_services. induction l as [|s l [IH1 IH2]]; [by split; [constructor|]|].
  cbn [sort_services foldr]. fold (sort_services l). split; [by apply insert_service_sorted|].
  intros o. by rewrite insert_service_filter, !filter_cons, IH2.
Qed.

Lemma insert_service_length s l : length (insert_service s l) = S (length l).
Proof. induction l as [|s' l IH]; [done|]. cbn. case_match; [done|]. cbn. by rewrite IH. Qed.
Lemma ordered_length l b : length (ordered_services l b) = length l.
Proof.
  assert (length (sort_services l) = length l) as H.
  { induction l as [|s l IH]; [done|]. cbn [sort_services foldr]. fold (sort_services l). by rewrite insert_service_length, IH. }
  unfold ordered_services. destruct b; by rewrite ?length_reverse.
Qed.

Section steps.
Context (timed shut : Prop).
Abbreviation asc g := (ordered_services (services g) false).

Lemma finish_ok g :
  whole_course timed (asc g) (log g) → failure g = None → lifecycle_ok timed shut (finish g).
Proof.
  intros Hl Hf. unfold finish. destruct (errors g) as [|e errs] eqn:E; (split; [unfold log_ok; cbn; by rewrite app_nil_r| |by split]).
  - by split.
  - unfold count_ok. cbn -[join]. by rewrite E.
Qed.

Lemma fail_ok g :
  whole_course timed (asc g) (log g) → errors g ≠ [] → (¬ shut → phase g = Failed) → lifecycle_ok timed shut (fail g).
Proof. intros Hl He Hp. split; [unfold log_ok; cbn; by rewrite app_nil_r|done|]. intros Hs. split; [by apply Hp|done]. Qed.

Lemma join_tasks_ok g d p :
  upto timed d (reverse (asc g)) → upto timed p (reverse (asc g)) → log g = wound_down (asc g) d p →
  active g = tasks g → failure g = None → (¬ shut → phase g = Draining) → lifecycle_ok timed shut (join_tasks g).
Proof.
  intros Hd Hp Hl Ha Hf Hph. unfold join_tasks. destruct (active g) as [|n] eqn:E.
  - apply finish_ok; [|done]. do 3 right. by exists d, p.
  - split; [|unfold count_ok; cbn; split_and!; [done|lia|done]|intros Hs; split; [by apply Hph|done]].
    unfold log_ok. cbn. rewrite app_nil_r. by exists d, p.
Qed.

Lemma stop_services_ok g d :
  upto timed d (reverse (asc g)) → log g = wound_down (asc g) d [] →
  active g = tasks g → failure g = None → (¬ shut → phase g = Draining) → lifecycle_ok timed shut (stop_services g).
Proof.
  intros Hd Hl Ha Hf Hph. unfold stop_services. rewrite ordered_reverse. destruct (reverse (asc g)) as [|s rest] eqn:E.
  - apply (join_tasks_ok (add_errors [] g) d []); cbn [services add_errors]; try done; by rewrite E.
  - split; [|done|intros Hs; split; [by apply Hph|done]]. unfold log_ok. cbn -[wound_down ordered_services]. exists d, [].
    rewrite E. split; [done|]. split; [done|]. rewrite Hl. unfold wound_down. by rewrite <- !app_assoc.
Qed.

Lemma drain_done_ok errs g d :
  upto timed d (reverse (asc g)) → log g = started (asc g) (asc g) ++ (CalledDrain <$> d) →
  active g = tasks g → failure g = None → (¬ shut → phase g = Draining) → lifecycle_ok timed shut (drain_done errs g).
Proof.
  intros Hd Hl Ha Hf Hph. apply (stop_services_ok _ d); try done. cbn [log set_stage add_errors]. rewrite Hl. unfold wound_down. by rewrite <- !app_assoc.
Qed.

Lemma drain_services_ok g :
  log g = started (asc g) (asc g) → active g = tasks g → failure g = None → (¬ shut → phase g = Draining) →
  lifecycle_ok timed shut (drain_services g).
Proof.
  intros Hl Ha Hf Hph. unfold drain_services. rewrite ordered_reverse. destruct (reverse (asc g)) as [|s rest] eqn:E.
  - apply (drain_done_ok [] g []); try done; [by rewrite E|by rewrite app_nil_r].
  - split; [|done|intros Hs; split; [by apply Hph|done]]. unfold log_ok. cbn -[started ordered_services]. exists [].
    rewrite E. split; [done|]. by rewrite Hl.
Qed.

Lemma leave_running_ok g :
  log g = started (asc g) (asc g) → active g = tasks g → failure g = None →
  (¬ shut → requested g || Nat.ltb 0 (active g) = true → phase g = Draining) → lifecycle_ok timed shut (leave_running g).
Proof.
  intros Hl Ha Hf Hph. unfold leave_running. destruct (requested g || _).
  - apply drain_services_ok; auto.
  - apply finish_ok; [|done]. right. right. by left.
Qed.

Lemma ready_done_ok errs g r :
  log g = started (asc g) r → upto timed r (asc g) → (errs = [] → r = asc g) → services g ≠ [] →
  tasks g = length (services g) → errors g = [] → failure g = None → (¬ shut → requested g = false) →
  lifecycle_ok timed shut (ready_done errs g).
Proof.
  intros Hl Hr Hall Hne Ht He Hf Hreq. unfold ready_done. cbn [services set_stage add_errors mark set_tasks active].
  destruct (length (services g)) as [|n] eqn:E; [by apply nil_length_inv in E|].
  destruct errs as [|e errs].
  - rewrite Hall in Hl by done. split.
    + unfold log_ok. cbn -[started ordered_services]. by rewrite app_nil_r, Hl.
    + unfold count_ok. cbn. split; [done|]. split; [lia|done].
    + intros Hs. split; [done|]. intros _. by apply Hreq.
  - split.
    + unfold log_ok. cbn -[started ordered_services]. exists r. by rewrite app_nil_r, Hl.
    + unfold count_ok. cbn. rewrite Ht, He. cbn. split; [done|]. split; [lia|done].
    + intros Hs. split; [done|done].
Qed.
End steps.

Lemma upto_full timed {A} (l : list A) : upto timed l l.
Proof. by split. Qed.
Lemma upto_timed {A} (p l : list A) : p `prefix_of` l → upto True p l.
Proof. intros H. split; [done|]. intros Hn. by destruct Hn. Qed.

(** A timeout or a request earlier only allows for more. *)
Lemma lifecycle_ok_weaken timed shut timed' shut' g :
  (timed → timed') → (shut → shut') → lifecycle_ok timed shut g → lifecycle_ok timed' shut' g.
Proof.
  intros Ht Hs [Hl Hc Hp].
  assert (∀ p l : list Service, upto timed p l → upto timed' p l) as Hu by (intros p l [? ?]; split; tauto).
  split; [|done|tauto]. unfold log_ok in *. destruct (stage g); try done.
  - destruct Hl as (r & ? & ?). eauto.
  - destruct Hl as (d & p & ? & ?). eauto 6.
  - destruct Hl as (d & p & ? & ? & ?). eauto 7.
  - unfold whole_course in *. destruct Hl as [?|[(p & ? & ?)|[?|(d & p & ? & ? & ?)]]]; [by left|..].
    + right. left. eauto.
    + right. right. by left.
    + do 3 right. exists d, p. auto.
Qed.

Section transitions.
Context (timed shut : Prop) (g g' : ServiceGroup) (Hok : lifecycle_ok timed shut g).
Abbreviation asc := (ordered_services (services g) false).

Lemma start_step_ok : lifecycle_step g Start = Some g' → lifecycle_ok timed shut g'.
Proof.
  intros Hi. destruct Hok as [Hl Hc Hp]. unfold log_ok, count_ok, phase_ok in Hl, Hc, Hp. cbn [lifecycle_step] in Hi.
  destruct (stage g) eqn:Hst; try done. injection Hi as <-. destruct Hc as [He Hf].
  unfold start. destruct asc as [|s rest] eqn:Ho; (split; [unfold log_ok; cbn -[ordered_services started]; rewrite Ho, Hl|done|]).
  - by left.
  - by split.
  - by exists [].
  - intros Hs. split; unfold phase_ok; cbn; by apply Hp.
Qed.

Lemma shutdown_step_ok : lifecycle_step g Shutdown = Some g' → lifecycle_ok timed True g'.
Proof. intros Hi. cbn [lifecycle_step] in Hi. injection Hi as <-. destruct Hok as [Hl Hc Hp]. split; [done|done|]. by intros []. Qed.

Lemma select_step_ok i : i = Signal ∨ i = SeenRequest → lifecycle_step g i = Some g' → lifecycle_ok timed shut g'.
Proof.
  intros Hsel Hi. destruct Hok as [Hl Hc Hp]. unfold log_ok, count_ok in Hl, Hc.
  assert (stage g = Running ∧ g' = leave_running (mark Draining g)) as [Hst ->].
  { destruct Hsel as [-> | ->]; cbn [lifecycle_step] in Hi; destruct (stage g); try done; [by injection Hi as <-|].
    destruct (requested g); [|done]. by injection Hi as <-. }
  rewrite Hst in Hl, Hc. destruct Hc as (Ha & _ & Hf). by apply leave_running_ok.
Qed.

Lemma services_nonempty s r rest : asc = r ++ s :: rest → services g ≠ [].
Proof. intros Ho Hn. apply (f_equal length) in Ho. rewrite ordered_length, Hn, length_app in Ho. cbn in Ho. lia. Qed.

Lemma hook_step_ok r : lifecycle_step g (Hook r) = Some g' → lifecycle_ok timed shut g'.
Proof.
  intros Hi. destruct Hok as [Hl Hc Hp]. unfold log_ok, count_ok, phase_ok in Hl, Hc, Hp. cbn [lifecycle_step] in Hi.
  destruct (stage g) as [|s rest errs|n| |s rest errs|s rest errs|n|] eqn:Hst; try done; injection Hi as <-.
  - destruct Hl as (r0 & Ho & Hl). destruct Hc as (Ht & He & Hf). destruct rest as [|s' rest].
    + apply (ready_done_ok _ _ _ _ (r0 ++ [s])); try done; [rewrite Ho; apply upto_full|by eapply services_nonempty|].
      intros Hs. by apply Hp.
    + split; [|done|intros Hs; by destruct (Hp Hs)]. unfold log_ok. cbn -[ordered_services started]. exists (r0 ++ [s]).
      rewrite Hl, Ho. split; [by rewrite <- app_assoc|]. by rewrite (started_snoc _ (r0 ++ [s])).
  - destruct Hl as (d & Ho & Hl). destruct Hc as (Ha & Hf). destruct rest as [|s' rest].
    + apply (drain_done_ok _ _ _ _ (d ++ [s])); try done; [rewrite Ho; apply upto_full|]. intros Hs. by apply Hp.
    + split; [|done|intros Hs; by destruct (Hp Hs)]. unfold log_ok. cbn -[ordered_services started]. exists (d ++ [s]).
      rewrite Hl, Ho. split; [by rewrite <- app_assoc|]. by rewrite (fmap_app _ (d ++ [s])), <- app_assoc.
  - destruct Hl as (d & p & Hd & Ho & Hl). destruct Hc as (Ha & Hf). destruct rest as [|s' rest].
    + apply (join_tasks_ok _ _ _ d (p ++ [s])); try done; [cbn [services add_errors]; rewrite Ho; apply upto_full|]. intros Hs. by apply Hp.
    + split; [|done|intros Hs; by destruct (Hp Hs)]. unfold log_ok. cbn -[ordered_services wound_down]. exists d, (p ++ [s]).
      split; [done|]. rewrite Hl, Ho. split; [by rewrite <- app_assoc|]. by rewrite (wound_down_snoc _ _ (p ++ [s])).
Qed.

Lemma elapsed_step_ok : lifecycle_step g Elapsed = Some g' → lifecycle_ok True shut g'.
Proof.
  intros Hi. destruct (lifecycle_ok_weaken timed shut True shut g) as [Hl Hc Hp]; [done..|].
  unfold log_ok, count_ok, phase_ok in Hl, Hc, Hp. cbn [lifecycle_step] in Hi.
  destruct (stage g) as [|s rest errs|n| |s rest errs|s rest errs|n|] eqn:Hst; try done; injection Hi as <-.
  - destruct Hl as (r0 & Ho & Hl). destruct Hc as (Ht & He & Hf).
    apply (ready_done_ok True shut [hooks_timed_out HookReady (startup_timeout (sg_config g))] g (r0 ++ [s])); try done; [by apply upto_timed, (prefix_snoc_app _ _ _ rest)|by eapply services_nonempty|].
    intros Hs. by apply Hp.
  - destruct Hl as (r0 & Hr & Hl). destruct Hc as (_ & _ & He & Hf). apply fail_ok; [right; left; by exists r0| |].
    + cbn. by destruct (errors g).
    + intros Hs. by apply Hp.
  - destruct Hl as (d & Ho & Hl). destruct Hc as (Ha & Hf).
    apply (drain_done_ok _ _ _ _ (d ++ [s])); try done; [by apply upto_timed, (prefix_snoc_app _ _ _ rest)|]. intros Hs. by apply Hp.
  - destruct Hl as (d & p & Hd & Ho & Hl). destruct Hc as (Ha & Hf).
    apply (join_tasks_ok _ _ _ d (p ++ [s])); try done; [by apply upto_timed, (prefix_snoc_app _ _ _ rest)|]. intros Hs. by apply Hp.
  - destruct Hl as (d & p & Hd & Hpr & Hl). destruct Hc as (_ & _ & Hf). apply finish_ok; [|done]. do 3 right. by exists d, p.
Qed.

Lemma exited_step_ok e : lifecycle_step g (Exited e) = Some g' → lifecycle_ok timed shut g'.
Proof.
  intros Hi. destruct Hok as [Hl Hc Hp]. unfold log_ok, count_ok, phase_ok in Hl, Hc, Hp. cbn [lifecycle_step] in Hi.
  destruct (stage g) as [|s rest errs|[|n]| |s rest errs|s rest errs|[|n]|] eqn:Hst; try done;
    destruct (tasks g) as [|k] eqn:Ht; try done; injection Hi as <-.
  - destruct Hl as (r0 & Hr & Hl). destruct Hc as (Hn & _ & He & Hf).
    assert (errors (exit_joining e g) ≠ []) as He' by (cbn; by destruct (errors g)). destruct n as [|n].
    + apply fail_ok; [right; left; by exists r0|done|]. intros Hs. by apply Hp.
    + split; [|unfold count_ok; cbn; rewrite Ht; split_and!; [cbn; lia|lia|done|done]|intros Hs; by destruct (Hp Hs)].
      unfold log_ok. cbn -[ordered_services started]. exists r0. by rewrite app_nil_r.
  - destruct Hc as (Ha & _ & Hf). unfold exit_running. rewrite Ht, Ha. cbn [pred].
    destruct (_ && _).
    + by apply leave_running_ok.
    + cbn [active add_errors set_tasks]. destruct k as [|k].
      * apply leave_running_ok; try done. cbn [requested add_errors set_tasks active]. intros Hs. destruct (Hp Hs) as [_ Hreq].
        by rewrite Hreq.
      * split; [by unfold log_ok; cbn -[ordered_services started]; rewrite Hst|unfold count_ok; cbn; rewrite Hst; split_and!; [done|lia|done]|].
        intros Hs. unfold phase_ok. cbn. rewrite Hst. by destruct (Hp Hs).
  - destruct Hl as (d & p & Hd & Hpr & Hl). destruct Hc as (Hn & _ & Hf). destruct n as [|n].
    + apply finish_ok; [|done]. do 3 right. by exists d, p.
    + split; [|unfold count_ok; cbn; rewrite Ht; split_and!; [cbn; lia|lia|done]|intros Hs; by destruct (Hp Hs)].
      unfold log_ok. cbn -[ordered_services wound_down]. exists d, p. by rewrite app_nil_r.
Qed.
End transitions.

Lemma lifecycle_step_ok timed shut g g' i :
  lifecycle_ok timed shut g → lifecycle_step g i = Some g' → lifecycle_ok (timed ∨ i = Elapsed) (shut ∨ i = Shutdown) g'.
Proof.
  intros H Hi. destruct i as [| |r| |e| |].
  - apply (lifecycle_ok_weaken timed shut); [tauto..|]. by eapply start_step_ok.
  - apply (lifecycle_ok_weaken timed True); [tauto..|]. by eapply shutdown_step_ok.
  - apply (lifecycle_ok_weaken timed shut); [tauto..|]. by eapply hook_step_ok.
  - apply (lifecycle_ok_weaken True shut); [tauto..|]. by eapply elapsed_step_ok.
  - apply (lifecycle_ok_weaken timed shut); [tauto..|]. by eapply exited_step_ok.
  - apply (lifecycle_ok_weaken timed shut); [tauto..|]. eapply (select_step_ok _ _ _ _ H Signal); auto.
  - apply (lifecycle_ok_weaken timed shut); [tauto..|]. eapply (select_step_ok _ _ _ _ H SeenRequest); auto.
Qed.

Lemma lifecycle_run_ok l timed shut g g' :
  lifecycle_ok timed shut g → lifecycle_run l g = Some g' → lifecycle_ok (timed ∨ Elapsed ∈ l) (shut ∨ Shutdown ∈ l) g'.
Proof.
  revert timed shut g. induction l as [|i l IH]; intros timed shut g H Hr; cbn [lifecycle_run] in Hr.
  { injection Hr as <-. by apply (lifecycle_ok_weaken timed shut); [by left..|]. }
  apply bind_Some in Hr as (g1 & Hi & Hr). apply (lifecycle_step_ok _ _ _ _ _ H) in Hi.
  apply (lifecycle_ok_weaken _ _ _ _ _) with (3 := IH _ _ _ Hi Hr); rewrite elem_of_cons; naive_solver.
Qed.

Lemma new_group_ok config l timed shut : lifecycle_ok timed shut (ServiceGroup_new config l).
Proof. by split. Qed.

(** ** How long it takes *)

(** The awaits that are left. *)
Definition awaits_left g : nat :=
  let n := length (services g) in
  match stage g with
  | Created => 4 * n + 4
  | ReadyHooks _ rest _ => length rest + 3 * n + 3
  | StartFailed k | Joining k => k
  | Running => tasks g + 2 * n + 1
  | DrainHooks _ rest _ => length rest + n + 1 + tasks g
  | StopHooks _ rest _ => length rest + 1 + tasks g
  | Finished _ => 0
  end.

Definition requests_shutdown (i : input) : bool := match i with Shutdown => true | _ => false end.
Definition awaited (l : list input) : nat := countp (λ i, requests_shutdown i = false) l.

Lemma join_tasks_left g : active g = tasks g → (awaits_left (join_tasks g) ≤ tasks g)%nat.
Proof.
  intros Ha. unfold join_tasks. destruct (active g) eqn:E; [|cbn; lia].
  unfold finish. destruct (errors g); cbn; lia.
Qed.

Lemma stop_services_left g : active g = tasks g → (awaits_left (stop_services g) ≤ length (services g) + tasks g)%nat.
Proof.
  intros Ha. unfold stop_services. pose proof (ordered_length (services g) true) as Hn.
  destruct (ordered_services (services g) true) as [|s rest].
  - unfold stop_done. pose proof (join_tasks_left (add_errors [] g) Ha) as H. cbn [tasks add_errors] in H. lia.
  - cbn in *. lia.
Qed.

Lemma drain_services_left g : active g = tasks g → (awaits_left (drain_services g) ≤ 2 * length (services g) + tasks g)%nat.
Proof.
  intros Ha. unfold drain_services. pose proof (ordered_length (services g) true) as Hn.
  destruct (ordered_services (services g) true) as [|s rest]; [|cbn in *; lia].
  pose proof (stop_services_left (set_stage (stage g) [Triggered] (add_errors [] g)) Ha) as H. cbn [services tasks set_stage add_errors] in H.
  unfold drain_done. lia.
Qed.

Lemma leave_running_left g : active g = tasks g → (awaits_left (leave_running g) ≤ 2 * length (services g) + tasks g)%nat.
Proof.
  intros Ha. unfold leave_running. destruct (_ || _); [by apply drain_services_left|].
  unfold finish. destruct (errors g); cbn; lia.
Qed.

Lemma ready_done_left errs g : tasks g = length (services g) → (awaits_left (ready_done errs g) ≤ 3 * length (services g) + 1)%nat.
Proof.
  intros Ht. unfold ready_done. destruct errs as [|e errs]; cbn [services set_stage add_errors mark set_tasks active].
  - destruct (length (services g)) as [|n] eqn:E.
    + pose proof (leave_running_left (set_tasks (tasks g) 0 (mark Ready g))) as H. cbn [services tasks active set_tasks mark] in H. lia.
    + cbn. lia.
  - destruct (length (services g)) as [|n] eqn:E; cbn; lia.
Qed.

Lemma awaits_step timed shut g g' i :
  lifecycle_ok timed shut g → lifecycle_step g i = Some g' →
  (awaits_left g' + (if requests_shutdown i then 0 else 1) ≤ awaits_left g)%nat.
Proof.
  intros [_ Hc _] Hi. unfold count_ok in Hc.
  assert (awaits_left g = awaits_left g) as Hg by done. unfold awaits_left in Hg at 2.
  destruct i as [| |r| |e| |]; cbn [lifecycle_step requests_shutdown] in *.
  - destruct (stage g) eqn:Hst; try done. injection Hi as <-. unfold start. pose proof (ordered_length (services g) false) as Hn.
    destruct (ordered_services (services g) false) as [|s rest]; cbn in *; lia.
  - injection Hi as <-. rewrite Nat.add_0_r. done.
  - destruct (stage g) as [|s rest errs|n| |s rest errs|s rest errs|n|] eqn:Hst; try done; injection Hi as <-.
    + destruct rest as [|s' rest]; [|cbn in *; lia]. destruct Hc as (Ht & _).
      pose proof (ready_done_left (push errs r (hook_error s HookReady)) g Ht). cbn in Hg. lia.
    + destruct rest as [|s' rest]; [|cbn in *; lia]. destruct Hc as (Ha & _).
      pose proof (stop_services_left (set_stage (stage g) [Triggered] (add_errors (push errs r (hook_error s HookDrain)) g)) Ha) as H.
      unfold drain_done. cbn [services tasks set_stage add_errors] in H. cbn in Hg. lia.
    + destruct rest as [|s' rest]; [|cbn in *; lia]. destruct Hc as (Ha & _).
      pose proof (join_tasks_left (add_errors (push errs r (stop_error s)) g) Ha) as H. unfold stop_done.
      cbn [tasks add_errors] in H. cbn in Hg. lia.
  - destruct (stage g) as [|s rest errs|n| |s rest errs|s rest errs|n|] eqn:Hst; try done; apply (inj Some) in Hi as <-.
    + destruct Hc as (Ht & _). pose proof (ready_done_left [hooks_timed_out HookReady (startup_timeout (sg_config g))] g Ht). lia.
    + cbn. lia.
    + destruct Hc as (Ha & _).
      pose proof (stop_services_left (set_stage (stage g) [Triggered]
        (add_errors [hooks_timed_out HookDrain (drain_timeout (sg_config g))] g)) Ha) as H.
      unfold drain_done. cbn [services tasks set_stage add_errors] in H. lia.
    + destruct Hc as (Ha & _).
      pose proof (join_tasks_left (add_errors [stop_timed_out (shutdown_timeout (sg_config g))] g) Ha) as H. unfold stop_done.
      cbn [tasks add_errors] in H. lia.
    + unfold finish. destruct (errors _); cbn; lia.
  - destruct (stage g) as [|s rest errs|[|n]| |s rest errs|s rest errs|[|n]|] eqn:Hst; try done;
      destruct (tasks g) as [|k] eqn:Ht; try done; apply (inj Some) in Hi as <-.
    + destruct n; cbn in *; lia.
    + destruct Hc as (Ha & _). unfold exit_running. rewrite Ht, Ha. cbn [pred].
      set (g1 := add_errors _ _). destruct (_ && _).
      * pose proof (leave_running_left (request (mark Draining g1)) eq_refl) as H. cbn [services tasks request mark g1 add_errors set_tasks] in H. lia.
      * cbn [active g1 add_errors set_tasks]. destruct k as [|k]; [|unfold awaits_left; cbn [stage g1 add_errors set_tasks services tasks]; rewrite Hst; lia].
        pose proof (leave_running_left g1 eq_refl) as H. cbn [services tasks g1 add_errors set_tasks] in H. lia.
    + destruct n; [unfold finish; destruct (errors _)|]; cbn in *; lia.
  - destruct (stage g) eqn:Hst; try done. apply (inj Some) in Hi as <-. destruct Hc as (Ha & _).
    pose proof (leave_running_left (mark Draining g) Ha) as H. cbn [services tasks mark] in H. lia.
  - destruct (stage g) eqn:Hst; try done. destruct (requested g); [|done]. apply (inj Some) in Hi as <-. destruct Hc as (Ha & _).
    pose proof (leave_running_left (mark Draining g) Ha) as H. cbn [services tasks mark] in H. lia.
Qed.

Lemma awaits_run l timed shut g g' :
  lifecycle_ok timed shut g → lifecycle_run l g = Some g' → (awaits_left g' + awaited l ≤ awaits_left g)%nat.
Proof.
  revert timed shut g. induction l as [|i l IH]; intros timed shut g H Hr; cbn [lifecycle_run] in Hr.
  { injection Hr as <-. unfold awaited. rewrite countp_nil. lia. }
  apply bind_Some in Hr as (g1 & Hi & Hr). pose proof (awaits_step _ _ _ _ _ H Hi) as Hs.
  apply (lifecycle_step_ok _ _ _ _ _ H) in Hi. specialize (IH _ _ _ Hi Hr). unfold awaited in *. rewrite countp_cons.
  destruct (requests_shutdown i); case_decide; try done; lia.
Qed.

(** ** A life read in one go

    What a group does and what it records, read off its inputs as
    [start_with_shutdown] reads: a round of hooks after the other, without stages. *)

Definition emit (did : list Done) (x : list Done * list rstr) : list Done * list rstr := (did ++ x.1, x.2).

(** A round of hooks: whom it asked, its errors (the timeout's alone, if it ran out),
    and the inputs that are left. *)
Fixpoint round (message : Service → rstr → rstr) (late : rstr) (l : list Service) (ins : list input)
    (errs : list rstr) : list Service * list rstr * list input :=
  match l, ins with
  | [], _ => ([], errs, ins)
  | s :: l, Hook r :: ins =>
      let '(asked, errs, ins) := round message late l ins (push errs r (message s)) in (s :: asked, errs, ins)
  | s :: _, Elapsed :: ins => ([s], [late], ins)
  | s :: _, _ => ([s], errs, ins)
  end.

(** The errors after waiting for [n] tasks. *)
Fixpoint joined (late : rstr) (n : nat) (ins : list input) (errs : list rstr) : list rstr :=
  match n, ins with
  | S n, Exited e :: ins => joined late n ins (errs ++ handle_service_exit e)
  | S _, Elapsed :: _ => errs ++ [late]
  | _, _ => errs
  end.

(** The loop over [n] running tasks: whether services are to be stopped after it, how
    many of them still run, the errors, and the inputs that are left. A signal, a
    request seen, and a failure that is to stop the group end the loop; when all tasks
    returned by themselves services are stopped if the handle had asked. *)
Fixpoint serve (first_error asked : bool) (n : nat) (ins : list input) (errs : list rstr) :
    bool * nat * list rstr * list input :=
  match n, ins with
  | O, _ => (asked, O, errs, ins)
  | S k, Exited e :: ins =>
      let failed := handle_service_exit e in
      if negb (bool_decide (failed = [])) && first_error then (true, k, errs ++ failed, ins)
      else serve first_error asked k ins (errs ++ failed)
  | S _, Signal :: ins | S _, SeenRequest :: ins => (true, n, errs, ins)
  | S _, _ => (false, n, errs, ins)
  end.

Section life.
Context (config : ServiceGroupConfig) (asc : list Service) (asked : bool).
Abbreviation late := (tasks_timed_out (shutdown_timeout config)).
Abbreviation ready_round := (round (λ s, hook_error s HookReady) (hooks_timed_out HookReady (startup_timeout config))).
Abbreviation drain_round := (round (λ s, hook_error s HookDrain) (hooks_timed_out HookDrain (drain_timeout config))).
Abbreviation stop_round := (round stop_error (stop_timed_out (shutdown_timeout config))).

Definition life_stop (n : nat) (errs : list rstr) (ins : list input) : list Done * list rstr :=
  let '(p, failed, ins) := stop_round (reverse asc) ins [] in
  (Triggered :: (CalledStop <$> p), joined late n ins (errs ++ failed)).
Definition life_drain (n : nat) (errs : list rstr) (ins : list input) : list Done * list rstr :=
  let '(d, failed, ins) := drain_round (reverse asc) ins [] in
  emit (CalledDrain <$> d) (life_stop n (errs ++ failed) ins).
Definition life_serve (n : nat) (errs : list rstr) (ins : list input) : list Done * list rstr :=
  let '(stop, n, errs, ins) := serve (stop_on_first_error config) asked n ins errs in
  if stop then life_drain n errs ins else ([], errs).
Definition life_started (errs : list rstr) (ins : list input) : list Done * list rstr :=
  match errs with
  | [] => life_serve (length asc) [] ins
  | _ => ([Triggered], joined late (length asc) ins errs)
  end.
Definition whole_life (ins : list input) : list Done * list rstr :=
  match asc with
  | [] => ([], [])
  | _ => let '(r, errs, ins) := ready_round asc ins [] in emit (started asc r) (life_started errs ins)
  end.

(** What is left of a life at a stage. *)
Definition life_rest g (ins : list input) : list Done * list rstr :=
  match stage g with
  | Created => match ins with Start :: ins => whole_life ins | _ => ([], errors g) end
  | ReadyHooks s rest errs =>
      let '(r, errs, ins) := ready_round (s :: rest) ins errs in emit (CalledReady <$> tail r) (life_started errs ins)
  | Running => life_serve (active g) (errors g) ins
  | DrainHooks s rest errs =>
      let '(d, failed, ins) := drain_round (s :: rest) ins errs in
      emit (CalledDrain <$> tail d) (life_stop (active g) (errors g ++ failed) ins)
  | StopHooks s rest errs =>
      let '(p, failed, ins) := stop_round (s :: rest) ins errs in
      (CalledStop <$> tail p, joined late (active g) ins (errors g ++ failed))
  | StartFailed n | Joining n => ([], joined late n ins (errors g))
  | Finished _ => ([], errors g)
  end.
End life.

(** The awaited inputs, and whether shutdown was asked before the last of them. *)
Definition awaits (l : list input) : list input := filter (λ i, requests_shutdown i = false) l.
Fixpoint asked (l : list input) : bool :=
  match l with
  | [] => false
  | Shutdown :: l => negb (bool_decide (awaits l = [])) || asked l
  | _ :: l => asked l
  end.

(** From [g] to [g1] as much of [x] is done as [g1] does not do later. *)
Definition reads config asc a g g1 ins (x : list Done * list rstr) : Prop :=
  ∃ did, log g1 = log g ++ did ∧ x = emit did (life_rest config asc a g1 ins) ∧
    services g1 = services g ∧ sg_config g1 = sg_config g.

Lemma emit_nil x : emit [] x = x.
Proof. by destruct x. Qed.

Lemma round_head message late s l ins errs :
  ∃ called errs' ins', round message late (s :: l) ins errs = (s :: called, errs', ins').
Proof.
  cbn. destruct ins as [|[]]; eauto. destruct (round message late l ins _) as [[c e] r']. eauto.
Qed.

Section reading.
Context (config : ServiceGroupConfig) (asc : list Service) (a : bool).
Abbreviation reads := (reads config asc a).
Abbreviation late := (tasks_timed_out (shutdown_timeout config)).
Abbreviation stop_round := (round stop_error (stop_timed_out (shutdown_timeout config))).

Lemma reads_join g ins : reads g (join_tasks g) ins ([], joined late (active g) ins (errors g)).
Proof.
  exists []. rewrite app_nil_r. unfold join_tasks. destruct (active g) as [|n]; cbn.
  - unfold finish. destruct (errors g) eqn:E; cbn; rewrite ?E, ?app_nil_r; done.
  - by rewrite app_nil_r.
Qed.

Lemma reads_did did g g0 g1 ins x :
  log g0 = log g ++ did → services g0 = services g → sg_config g0 = sg_config g →
  reads g0 g1 ins x → reads g g1 ins (emit did x).
Proof.
  intros Hl Hs Hc (did' & H1 & -> & H3 & H4). exists (did ++ did').
  rewrite H1, Hl, H3, H4. unfold emit. cbn. by rewrite !app_assoc.
Qed.

Lemma reads_same g g0 g1 ins x :
  log g0 = log g → services g0 = services g → sg_config g0 = sg_config g → reads g0 g1 ins x → reads g g1 ins x.
Proof.
  intros Hl Hs Hc H. rewrite <- (emit_nil x). eapply reads_did; eauto. by rewrite app_nil_r.
Qed.

Lemma reads_stop g ins :
  asc = ordered_services (services g) false →
  reads g (stop_services g) ins
    (let '(p, failed, ins) := stop_round (reverse asc) ins [] in
     (CalledStop <$> p, joined late (active g) ins (errors g ++ failed))).
Proof.
  intros Ha. unfold stop_services. rewrite ordered_reverse, <- Ha. destruct (reverse asc) as [|s rest].
  - cbn. rewrite app_nil_r. apply (reads_same _ (add_errors [] g)); [done..|].
    pose proof (reads_join (add_errors [] g) ins) as H. cbn [errors active add_errors] in H. by rewrite app_nil_r in H.
  - exists [CalledStop s]. split; [done|]. split; [|done]. unfold life_rest. cbn [stage set_stage errors active].
    destruct (round_head stop_error (stop_timed_out (shutdown_timeout config)) s rest ins []) as (p & e & ins' & ->). done.
Qed.

Lemma reads_drain_done errs g ins :
  asc = ordered_services (services g) false →
  reads g (drain_done errs g) ins (life_stop config asc (active g) (errors g ++ errs) ins).
Proof.
  intros Ha. pose proof (reads_stop (set_stage (stage g) [Triggered] (add_errors errs g)) ins Ha) as H.
  apply (reads_did [Triggered] g) in H; [|done..]. unfold life_stop, drain_done.
  destruct (stop_round (reverse asc) ins []) as [[p failed] ins']. exact H.
Qed.

Lemma reads_drain g ins :
  asc = ordered_services (services g) false →
  reads g (drain_services g) ins (life_drain config asc (active g) (errors g) ins).
Proof.
  intros Ha. unfold drain_services, life_drain. rewrite ordered_reverse, <- Ha. destruct (reverse asc) as [|s rest] eqn:E.
  - pose proof (reads_drain_done [] g ins Ha) as (did & H1 & H2 & H3). exists did. split; [done|]. split; [|done].
    cbn. rewrite <- H2. by destruct (life_stop _ _ _ _ _).
  - exists [CalledDrain s]. split; [done|]. split; [|done]. unfold life_rest. cbn [stage set_stage errors active].
    destruct (round_head (λ s, hook_error s HookDrain) (hooks_timed_out HookDrain (drain_timeout config)) s rest ins [])
      as (d & e & ins' & ->). unfold emit. by destruct (life_stop _ _ _ _ _).
Qed.

Lemma reads_leave g ins :
  asc = ordered_services (services g) false →
  reads g (leave_running g) ins
    (if requested g || Nat.ltb 0 (active g) then life_drain config asc (active g) (errors g) ins else ([], errors g)).
Proof.
  intros Ha. unfold leave_running. destruct (requested g || _); [by apply reads_drain|].
  exists []. unfold finish. destruct (errors g) eqn:E; cbn; by rewrite ?E, ?app_nil_r.
Qed.

Lemma reads_ready errs g ins :
  asc = ordered_services (services g) false → services g ≠ [] → errors g = [] →
  reads g (ready_done errs g) ins (life_started config asc a errs ins).
Proof.
  intros Ha Hne He. unfold ready_done, life_started. cbn [services set_stage add_errors mark set_tasks active].
  rewrite Ha, ordered_length. destruct (length (services g)) as [|n] eqn:E; [by apply nil_length_inv in E|].
  destruct errs as [|e errs].
  - exists []. cbn -[life_serve ordered_services]. rewrite app_nil_r. split; [done|]. split; [|done].
    unfold life_rest. cbn -[life_serve ordered_services]. rewrite He. by destruct (life_serve _ _ _ _ _ _).
  - exists [Triggered]. cbn. by rewrite app_nil_r, He.
Qed.
End reading.

(** One awaited input. [a] says whether shutdown is asked before the end. *)
Section life_steps.
Context (timed shut : Prop) (g g1 : ServiceGroup) (i : input) (ins : list input) (a : bool).
Context (Hok : lifecycle_ok timed shut g) (Hi : lifecycle_step g i = Some g1) (Hns : i ≠ Shutdown).
Context (Hreq : before_drain (stage g) = true → requested g = true → a = true).
Context (Hfin : before_drain (stage g) = true → ∀ r, stage g1 = Finished r → a = requested g).
Abbreviation asc := (ordered_services (services g) false).
Abbreviation goal := (reads (sg_config g) asc a g g1 ins (life_rest (sg_config g) asc a g (i :: ins))).

#[local] Ltac open_stage Hst :=
  destruct Hok as [Hl Hc _]; unfold log_ok, count_ok in Hl, Hc; unfold life_rest at 1; rewrite Hst in *; clear Hok.
#[local] Ltac cases_of Hst := destruct i; cbn [lifecycle_step] in Hi; rewrite ?Hst in Hi; try done.

Lemma life_step_created : stage g = Created → goal.
Proof.
  intros Hst. open_stage Hst.
  cases_of Hst. injection Hi as <-.
  unfold start, whole_life. destruct asc as [|s rest] eqn:Ea.
  + exists []. cbn. rewrite app_nil_r. split; [done|]. split; [|done]. by rewrite (proj1 Hc).
  + exists ((Spawned <$> s :: rest) ++ [CalledReady s]). split; [done|]. split; [|done].
    unfold life_rest. cbn [stage set_stage].
    destruct (round_head (λ s, hook_error s HookReady) (hooks_timed_out HookReady (startup_timeout (sg_config g))) s rest ins [])
      as (r & e & ins' & ->). unfold emit, started. cbn [fst snd tail]. by rewrite fmap_cons, <- !app_assoc.
Qed.

Lemma life_step_ready s rest errs : stage g = ReadyHooks s rest errs → goal.
Proof.
  intros Hst. open_stage Hst.
  assert (services g ≠ []) as Hne by (destruct Hl as (r & Ho & _); by eapply services_nonempty).
  destruct Hc as (Ht & He & Hf). cases_of Hst; injection Hi as <-; cbn [round].
  + destruct rest as [|s' rest].
    * cbn [round tail]. rewrite fmap_nil, emit_nil. exact (reads_ready (sg_config g) asc a (push errs r (hook_error s HookReady)) g ins eq_refl Hne He).
    * exists [CalledReady s']. split; [done|]. split; [|done]. unfold life_rest. cbn [stage set_stage].
      destruct (round_head (λ s, hook_error s HookReady) (hooks_timed_out HookReady (startup_timeout (sg_config g))) s' rest ins
        (push errs r (hook_error s HookReady))) as (r' & e & ins' & ->). done.
  + cbn [round tail]. rewrite fmap_nil, emit_nil. exact (reads_ready (sg_config g) asc a [hooks_timed_out HookReady (startup_timeout (sg_config g))] g ins eq_refl Hne He).
Qed.

Lemma life_step_start_failed n : stage g = StartFailed n → goal.
Proof.
  intros Hst. open_stage Hst.
  destruct Hc as (_ & Hn & _). destruct n as [|n]; [lia|]; cases_of Hst.
  + injection Hi as <-. exists []. cbn. by rewrite app_nil_r.
  + destruct (tasks g); [done|]. injection Hi as <-. exists []. destruct n; cbn; by rewrite app_nil_r.
Qed.

Lemma life_step_running : stage g = Running → goal.
Proof.
  intros Hst. open_stage Hst.
  destruct Hc as (Ha & Hn & Hf). destruct (active g) as [|k] eqn:Hk; [lia|]. unfold life_serve.
  assert (∀ g0, g0 = mark Draining g → g1 = leave_running g0 →
    reads (sg_config g) asc a g g1 ins (life_drain (sg_config g) asc (S k) (errors g) ins)) as Hleave.
  { intros g0 -> ->. apply (reads_same _ _ _ _ (mark Draining g)); [done..|].
    pose proof (reads_leave (sg_config g) asc a (mark Draining g) ins eq_refl) as H.
    cbn [requested active errors mark] in H. by rewrite Hk, orb_true_r in H. }
  destruct i as [| |r| |e| |]; cbn [lifecycle_step] in Hi; rewrite ?Hst in Hi; try done; cbn [serve].
  + destruct (tasks g) eqn:Ht; [done|]. injection Hi as <-. clear Hleave. unfold exit_running in *. rewrite Hk in *.
    cbn [pred sg_config add_errors set_tasks] in *.
    destruct (negb _ && stop_on_first_error (sg_config g)) eqn:Hstop.
    * set (g0 := add_errors _ _) in *. apply (reads_same _ _ _ _ (request (mark Draining g0))); [done..|].
      exact (reads_leave (sg_config g) asc a (request (mark Draining g0)) ins eq_refl).
    * cbn [active add_errors set_tasks] in *. destruct k as [|k].
      -- cbn [serve]. set (g0 := add_errors _ _) in *. apply (reads_same _ _ _ _ g0); [done..|].
         pose proof (reads_leave (sg_config g) asc a g0 ins eq_refl) as H. cbn [requested active g0 add_errors set_tasks orb Nat.ltb Nat.leb] in H.
         rewrite orb_false_r in H. assert (a = requested g) as Hag; [|rewrite <- Hag in H; exact H].
         destruct (requested g) eqn:Hr; [by apply Hreq|].
         unfold leave_running, finish in Hfin. cbn in Hfin. rewrite Hr in Hfin.
         destruct (errors g ++ _); by eapply (Hfin eq_refl).
      -- exists []. rewrite app_nil_r. split; [done|]. split; [|done]. unfold life_rest. cbn [stage set_tasks add_errors active errors].
         rewrite Hst. unfold life_serve. by destruct (serve _ _ _ _ _) as [[[[] ?] ?] ?]; [destruct (life_drain _ _ _ _ _)|].
  + injection Hi as <-. by eapply Hleave.
  + destruct (requested g); [|done]. injection Hi as <-. by eapply Hleave.
Qed.

Lemma life_step_draining s rest errs : stage g = DrainHooks s rest errs → goal.
Proof.
  intros Hst. open_stage Hst.
  cases_of Hst; injection Hi as <-; cbn [round].
  + destruct rest as [|s' rest].
    * cbn [round tail]. rewrite fmap_nil, emit_nil. exact (reads_drain_done (sg_config g) asc a (push errs r (hook_error s HookDrain)) g ins eq_refl).
    * exists [CalledDrain s']. split; [done|]. split; [|done]. unfold life_rest. cbn [stage set_stage active errors].
      destruct (round_head (λ s, hook_error s HookDrain) (hooks_timed_out HookDrain (drain_timeout (sg_config g))) s' rest ins
        (push errs r (hook_error s HookDrain))) as (r' & e & ins' & ->). done.
  + cbn [round tail]. rewrite fmap_nil, emit_nil. exact (reads_drain_done (sg_config g) asc a [hooks_timed_out HookDrain (drain_timeout (sg_config g))] g ins eq_refl).
Qed.

Lemma life_step_stopping s rest errs : stage g = StopHooks s rest errs → goal.
Proof.
  intros Hst. open_stage Hst.
  cases_of Hst; injection Hi as <-; cbn [round].
  + destruct rest as [|s' rest].
    * apply (reads_same _ _ _ _ (add_errors (push errs r (stop_error s)) g)); [done..|].
      exact (reads_join (sg_config g) asc a (add_errors (push errs r (stop_error s)) g) ins).
    * exists [CalledStop s']. split; [done|]. split; [|done]. unfold life_rest. cbn [stage set_stage active errors].
      destruct (round_head stop_error (stop_timed_out (shutdown_timeout (sg_config g))) s' rest ins
        (push errs r (stop_error s))) as (r' & e & ins' & ->). done.
  + apply (reads_same _ _ _ _ (add_errors [stop_timed_out (shutdown_timeout (sg_config g))] g)); [done..|].
    exact (reads_join (sg_config g) asc a (add_errors [stop_timed_out (shutdown_timeout (sg_config g))] g) ins).
Qed.

Lemma life_step_joining n : stage g = Joining n → goal.
Proof.
  intros Hst. open_stage Hst.
  destruct Hc as (_ & Hn & _). destruct n as [|n]; [lia|]; cases_of Hst.
  + injection Hi as <-. exists []. unfold finish. destruct (errors (add_errors _ _)) eqn:E; cbn in E |- *; rewrite ?app_nil_r, ?E; done.
  + destruct (tasks g); [done|]. injection Hi as <-. exists []. destruct n; cbn.
    * unfold finish. cbn. destruct (errors g ++ _) eqn:E; cbn; rewrite ?app_nil_r, ?E; done.
    * by rewrite app_nil_r.
Qed.

Lemma life_step_finished r : stage g = Finished r → goal.
Proof.
  intros Hst. open_stage Hst.
  destruct i; cbn [lifecycle_step] in Hi; rewrite ?Hst in Hi; done.
Qed.

Lemma life_step : goal.
Proof.
  assert (∃ st, stage g = st) as [st Hst] by eauto. destruct st; eauto using life_step_created, life_step_ready, life_step_start_failed,
    life_step_running, life_step_draining, life_step_stopping, life_step_joining, life_step_finished.
Qed.
End life_steps.

Lemma finish_late g : before_drain (stage (finish g)) = false.
Proof. unfold finish. by destruct (errors g). Qed.
Lemma join_late g : before_drain (stage (join_tasks g)) = false.
Proof. unfold join_tasks. destruct (active g); [apply finish_late|done]. Qed.
Lemma stop_late g : before_drain (stage (stop_services g)) = false.
Proof. unfold stop_services. destruct (ordered_services _ _); [apply join_late|done]. Qed.
Lemma leave_late g : before_drain (stage (leave_running g)) = false.
Proof.
  unfold leave_running, drain_services. destruct (_ || _); [|apply finish_late].
  destruct (ordered_services _ _); [apply stop_late|done].
Qed.

Lemma step_before g g1 i :
  lifecycle_step g i = Some g1 → i ≠ Shutdown → before_drain (stage g1) = true →
  before_drain (stage g) = true ∧ requested g1 = requested g.
Proof.
  intros Hi Hns Hb. pose proof finish_late as F. pose proof join_late as J. pose proof stop_late as S. pose proof leave_late as L.
  destruct i, (stage g) as [|s rest errs|[|n]| |s [] errs|s [] errs|[|n]|] eqn:Hst; cbn [lifecycle_step] in Hi;
    rewrite ?Hst in Hi; try done; repeat (case_match; try done); try (injection Hi as <-);
    try (unfold drain_done, stop_done, exit_joining in Hb; rewrite ?F, ?J, ?S, ?L in Hb; done).
  all: split; [done|].
  - unfold start. by destruct (ordered_services _ _).
  - unfold ready_done in *. destruct (push _ _ _); cbn in *; by destruct (length (services g)); cbn in *; rewrite ?L in Hb.
  - by destruct (length (services g)).
  - unfold exit_running in *. destruct (_ && _); [by rewrite L in Hb|]. cbn [active add_errors set_tasks] in *.
    destruct (pred (active g)); [by rewrite L in Hb|done].
Qed.

Lemma no_awaits g g' l : awaits l = [] → lifecycle_run l g = Some g' → stage g' = stage g ∧ asked l = false.
Proof.
  revert g. induction l as [|i l IH]; intros g Ha Hr; cbn [lifecycle_run] in Hr; [by injection Hr as <-|].
  unfold awaits in Ha. rewrite filter_cons in Ha. destruct i; try done. cbn in Hr.
  destruct (IH _ Ha Hr) as [-> Hk]. split; [done|]. cbn [asked]. rewrite Hk, bool_decide_true; done.
Qed.

Lemma finished_awaits g g' l r : stage g = Finished r → lifecycle_run l g = Some g' → awaits l = [].
Proof.
  revert g. induction l as [|i l IH]; intros g Hs Hr; [done|]. cbn [lifecycle_run] in Hr.
  destruct i; cbn [lifecycle_step] in Hr; rewrite ?Hs in Hr; try done. exact (IH (request (mark Draining g)) Hs Hr).
Qed.

Lemma life_read l timed shut g g' r a :
  lifecycle_ok timed shut g → lifecycle_run l g = Some g' → stage g' = Finished r →
  (before_drain (stage g) = true → a = requested g || asked l) →
  (log g', errors g') = emit (log g) (life_rest (sg_config g) (ordered_services (services g) false) a g (awaits l)) ∧
  services g' = services g.
Proof.
  revert timed shut g. induction l as [|i l IH]; intros timed shut g Hok Hr Hf Ha.
  { injection Hr as <-. unfold life_rest. rewrite Hf. unfold emit. cbn. by rewrite app_nil_r. }
  cbn [lifecycle_run] in Hr. apply bind_Some in Hr as (g1 & Hi & Hr).
  pose proof (lifecycle_step_ok _ _ _ _ _ Hok Hi) as Hok1.
  destruct (requests_shutdown i) eqn:Hsh.
  - destruct i; try done. cbn [lifecycle_step] in Hi. injection Hi as <-.
    unfold awaits. rewrite filter_cons, decide_False by done. apply (IH _ _ _ Hok1 Hr Hf).
    intros Hb. cbn [requested request mark orb]. rewrite (Ha Hb). cbn [asked].
    destruct (decide (awaits l = [])) as [Hn|Hn]; [|by rewrite bool_decide_false, orb_true_r].
    destruct (no_awaits _ _ _ Hn Hr) as [Hs _]. rewrite Hf in Hs. cbn in Hs, Hb. by rewrite <- Hs in Hb.
  - assert (asked (i :: l) = asked l) as Has by by destruct i. rewrite Has in Ha.
    assert (i ≠ Shutdown) as Hns by (by intros ->).
    unfold awaits. rewrite filter_cons, decide_True by done. fold (awaits l).
    destruct (life_step _ _ g g1 i (awaits l) a Hok Hi Hns) as (did & Hl & -> & Hsv & Hc).
    + intros Hb Hq. by rewrite (Ha Hb), Hq.
    + intros Hb r' Hf'. rewrite (Ha Hb). destruct (no_awaits g1 g' l) as [_ ->]; [by eapply finished_awaits|done|]. by rewrite orb_false_r.
    + destruct (IH _ _ _ Hok1 Hr Hf) as [-> ->].
      2: { rewrite Hl, Hsv, Hc. unfold emit. cbn. by rewrite app_assoc. }
      intros Hb. destruct (step_before _ _ _ Hi Hns Hb) as [Hb' ->]. by apply Ha.
Qed.

Lemma first_start g g' l r :
  stage g = Created → lifecycle_run l g = Some g' → stage g' = Finished r → ∃ ins, awaits l = Start :: ins.
Proof.
  revert g. induction l as [|i l IH]; intros g Hs Hr Hf; cbn [lifecycle_run] in Hr; [congruence|].
  apply bind_Some in Hr as (g1 & Hi & Hr). destruct i; cbn [lifecycle_step] in Hi; rewrite ?Hs in Hi; try done.
  - unfold awaits. rewrite filter_cons, decide_True by done. eauto.
  - injection Hi as <-. unfold awaits. rewrite filter_cons, decide_False by done.
    exact (IH (request (mark Draining g)) Hs Hr Hf).
Qed.

(** C30: The life of a group of services is orderly. Whatever its services answer, its
    timeouts do and its handle asks for, what a group that finished did to its services
    and the failures it recorded are those of [whole_life], which reads them off the
    inputs: the services are spawned and asked to be ready in their order. If one fails or
    the round times out they are told to shut down and waited for. Otherwise they run
    until a signal, a request of the handle that is seen, or a failure that is to stop the
    group, or until all have returned; services are then wound down unless all had
    returned with no shutdown asked: drained, told to shut down, stopped, each round in the reverse
    order, and waited for. In particular the log is one of the four courses, without a
    timeout no service is left out, and the group ends with [Ok] exactly when nothing
    failed and else with the failures joined. If the handle asked for nothing at all,
    its phase is then [Stopped] or [Failed] accordingly. *)
Theorem lifecycle_orderly config l0 l g r :
  lifecycle_run l (ServiceGroup_new config l0) = Some g → stage g = Finished r →
  (∃ ins, awaits l = Start :: ins ∧
    (log g, errors g) = whole_life config (ordered_services l0 false) (asked l) ins) ∧
  whole_course (Elapsed ∈ l) (ordered_services l0 false) (log g) ∧
  r = (match errors g with [] => Ok () | errs => Err (join (lit "; ") errs) end) ∧
  failure g = (match errors g with [] => None | errs => Some (join (lit "; ") errs) end) ∧
  (Shutdown ∉ l → phase g = match errors g with [] => Stopped | _ => Failed end).
Proof.
  intros Hr Hst.
  destruct (life_read l False False _ g r (asked l) (new_group_ok config l0 False False) Hr Hst) as [Hlog Hsv]; [done|].
  split.
  { destruct (first_start (ServiceGroup_new config l0) g l r) as [ins Hins]; [done..|]. exists ins. split; [done|].
    rewrite Hlog, Hins. unfold life_rest. cbn -[whole_life]. by rewrite emit_nil. }
  clear Hlog. apply (lifecycle_run_ok _ False False) in Hr as [Hl Hc Hp]; [|by apply new_group_ok].
  unfold log_ok, count_ok, phase_ok in *. rewrite Hst, Hsv in *. cbn [services ServiceGroup_new] in Hl. split.
  { destruct Hl as [?|[(p & [? Hu] & ?)|[?|(d & p & [? Hd] & [? Hu] & ?)]]]; [by left|..].
    - right. left. exists p. split; [split; [done|]|done]. intros Hn. apply Hu. tauto.
    - right. right. by left.
    - do 3 right. exists d, p. split; [split; [done|]|split; [split; [done|]|done]]; intros Hn; [apply Hd|apply Hu]; tauto. }
  destruct r as [[]|text].
  - destruct Hc as [-> Hf]. split; [done|]. split; [done|]. intros Hs. apply Hp. tauto.
  - destruct Hc as (He & Ht & Hf). rewrite Hf. destruct (errors g) as [|e errs]; [done|]. subst.
    split; [done|]. split; [done|]. intros Hs. apply Hp. tauto.
Qed.

(** A group of services ends. From its start it awaits at most four times per service
    and four times more, however often its handle asks for shutdown; until it has
    finished it takes whatever the awaited hook or task gives, and shutdown can be
    asked of it; and it is never waiting for a task that is not there. *)
Theorem lifecycle_ends config l0 l g :
  lifecycle_run l (ServiceGroup_new config l0) = Some g →
  (awaited l ≤ 4 * length l0 + 4)%nat ∧
  match stage g with
  | Created => is_Some (lifecycle_step g Start)
  | ReadyHooks _ _ _ | DrainHooks _ _ _ | StopHooks _ _ _ => (∀ r, is_Some (lifecycle_step g (Hook r))) ∧ is_Some (lifecycle_step g Elapsed)
  | StartFailed _ | Joining _ => (∀ e, is_Some (lifecycle_step g (Exited e))) ∧ is_Some (lifecycle_step g Elapsed)
  | Running => (∀ e, is_Some (lifecycle_step g (Exited e))) ∧ is_Some (lifecycle_step g Signal) ∧
      (requested g = true → is_Some (lifecycle_step g SeenRequest))
  | Finished _ => ∀ i, i ≠ Shutdown → lifecycle_step g i = None
  end.
Proof.
  intros Hr. pose proof (awaits_run _ False False _ _ (new_group_ok config l0 False False) Hr) as Hn. cbn in Hn.
  split; [lia|]. apply (lifecycle_run_ok _ False False) in Hr as [_ Hc _]; [|by apply new_group_ok].
  unfold count_ok in Hc. destruct (stage g) as [|s rest errs|n| |s rest errs|s rest errs|n|] eqn:Hst; cbn [lifecycle_step]; rewrite ?Hst.
  - done.
  - done.
  - destruct Hc as (Hn' & Hpos & _). destruct n; [lia|]. rewrite <- Hn'. done.
  - destruct Hc as (_ & Ht & _). destruct (tasks g); [lia|]. split; [done|]. split; [done|]. by intros ->.
  - done.
  - done.
  - destruct Hc as (Hn' & Hpos & _). destruct n; [lia|]. rewrite <- Hn'. done.
  - intros i Hi. destruct i; cbn [lifecycle_step]; by rewrite ?Hst.
Qed.
End lifecycle.

(** ** Lives of a group *)

Definition ex_database : Service := {| sv_name := lit "database"; sv_order := (-1)%Z |}.
Definition ex_http : Service := {| sv_name := lit "http"; sv_order := 0%Z |}.
Definition ex_group : ServiceGroup := ServiceGroup_new ServiceGroupConfig_default [ex_http; ex_database].
Abbreviation life l := (lifecycle_run (λ _, lit "30s") l ex_group).

Definition ex_life : list input :=
  [Start; Hook (Ok ()); Hook (Ok ()); Signal; Hook (Ok ()); Hook (Err (lit "busy")); Hook (Ok ()); Hook (Ok ());
   Exited (Returned (lit "http") (Ok ())); Exited (Returned (lit "database") (Ok ()))].

Lemma lifecycle_orderly_witness :
  ∃ g, life ex_life = Some g ∧ failure g = Some (lit "service database Drain hook failed: busy") ∧
  log g = wound_down [ex_database; ex_http] [ex_http; ex_database] [ex_http; ex_database].
Proof.
  destruct (life ex_life) as [g|] eqn:E; [|by vm_compute in E]. exists g. split; [done|].
  assert (stage g = Finished (Err (lit "service database Drain hook failed: busy"))) as Hst by (vm_compute in E; by injection E as <-).
  destruct (lifecycle_orderly _ _ _ _ _ _ E Hst) as (_ & _ & _ & Hf & _). rewrite Hf.
  vm_compute in E. injection E as <-. by split.
Defined.

Lemma lifecycle_ends_witness : ∃ g, life ex_life = Some g ∧ (awaited ex_life ≤ 12)%nat.
Proof.
  destruct (life ex_life) as [g|] eqn:E; [|by vm_compute in E]. exists g. split; [done|].
  apply (lifecycle_ends _ _ _ _ _ E).
Defined.

(** A shutdown that is asked for while the group starts is overwritten: it reports ready. *)
Lemma ready_despite_shutdown :
  (λ g, (phase g, requested g)) <$> life [Start; Shutdown; Hook (Ok ()); Hook (Ok ())] = Some (Ready, true).
Proof. reflexivity. Qed.

(** One that is asked for after the end takes the group back to draining, for good. *)
Lemma draining_after_end :
  (λ g, (stage g, phase g)) <$> life (ex_life ++ [Shutdown]) =
  Some (Finished (Err (lit "service database Drain hook failed: busy")), Draining).
Proof. reflexivity. Qed.

(** After a failed start the services that are up are told to shut down, not stopped. *)
Lemma failed_start_skips_stop :
  log <$> life [Start; Hook (Ok ()); Hook (Err (lit "no port")); Exited (Returned (lit "http") (Ok ()));
                Exited (Returned (lit "database") (Ok ()))] =
  Some (started [ex_database; ex_http] [ex_database; ex_http] ++ [Triggered]).
Proof. reflexivity. Qed.
