(* ===== verification/Router.v ===== *)
(** * Routing (crates/roze-http/src/router.rs and router/)

    Paths to groups of methods, method routers, composition by merging and nesting,
    layers and fallbacks, and what a request is answered. A service is a function of
    the request and the world; a layer is a function of services; building fails with
    [None] where the source panics. That a service is not itself a [Router] is a test
    of its type and is left out. *)

From S2P Require Import Prelude Text Scan HttpTypes.

(** ** The [matchit] crate

    It keeps patterns with a number each, refuses a pattern that clashes with one it
    has, and selects for a path one of the patterns that match it, whatever the order
    they were inserted in. *)
Class MatchLib :=
  { MatchRouter : Type;
    m_new : MatchRouter;
    m_insert : rstr → nat → MatchRouter → option MatchRouter;
    m_at : rstr → MatchRouter → option (nat * list (rstr * rstr)) }.

(** A segment [a{name}b] stands for one [avb] with something between; doubled braces
    stand for themselves; a last segment [{*name}] for all that is left. *)
Fixpoint unescape (s : rstr) : rstr :=
  match s with
  | c :: ((d :: s') as t) => if (c =? d) && ((c =? 123) || (c =? 125)) then c :: unescape s' else c :: unescape t
  | _ => s
  end.
Definition plain (s : rstr) : bool := lacks 123 s && lacks 125 s.
Definition segment_stands (pattern value : rstr) : Prop :=
  (∃ a name b v, plain a ∧ plain name ∧ plain b ∧ pattern = a ++ 123 :: name ++ 125 :: b ∧ v ≠ [] ∧ value = a ++ v ++ b) ∨
  value = unescape pattern.
Definition catch_all (pattern : rstr) : Prop := ∃ name, plain name ∧ pattern = 123 :: 42 :: name ++ [125].
Definition segments (p : rstr) : list rstr := split_on (N.eqb 47) p.
Definition pattern_stands (pattern path : rstr) : Prop :=
  ∃ ps vs, segments pattern = ps ∧ segments path = vs ∧
    (Forall2 segment_stands ps vs ∨ ∃ ps' c vs' tail, ps = ps' ++ [c] ∧ vs = vs' ++ tail ∧ catch_all c ∧ tail ≠ [] ∧ Forall2 segment_stands ps' vs').

Class MatchLaws (ML : MatchLib) :=
  { m_routes : MatchRouter → gmap rstr nat;
    m_select : gset rstr → rstr → option (rstr * list (rstr * rstr));
    m_routes_new : m_routes m_new = ∅;
    m_insert_routes p i m m' : m_insert p i m = Some m' → m_routes m !! p = None ∧ m_routes m' = <[p := i]> (m_routes m);
    m_at_select path m : m_at path m =
      '(p, ps) ← m_select (dom (m_routes m)) path; i ← m_routes m !! p; Some (i, ps);
    m_select_in D path p ps : m_select D path = Some (p, ps) → p ∈ D ∧ pattern_stands p path;
    m_select_literal D p : p ∈ D → plain p → m_select D p = Some (p, []) }.

(** ** Paths (router/path.rs) *)

Definition validate_path_segments (path : rstr) : bool :=
  forallb (λ segment, negb (starts_with (lit ":") segment) && negb (starts_with (lit "*") segment)) (segments path).

Definition normalize_path (path : rstr) : option rstr :=
  if str_is_empty path then None else
  if negb (starts_with (lit "/") path) then None else
  if validate_path_segments path then Some path else None.

Definition normalize_nest_prefix (prefix : rstr) : option rstr :=
  prefix ← normalize_path prefix;
  let prefix := trim_end_matches (N.eqb 47) prefix in
  if str_is_empty prefix || str_eqb prefix (lit "/") then None else
  if existsb (λ segment, starts_with (lit "{*") segment && ends_with (lit "}") segment) (segments prefix) then None
  else Some prefix.

Definition join_paths (prefix path : rstr) : option rstr :=
  if str_eqb path (lit "/") then Some prefix else path ← normalize_path path; Some (prefix ++ path).

(** ** Methods (router/method_filter.rs) *)

Definition GET := lit "GET".
Definition POST := lit "POST".
Definition PUT := lit "PUT".
Definition PATCH := lit "PATCH".
Definition DELETE := lit "DELETE".
Definition HEAD := lit "HEAD".
Definition OPTIONS := lit "OPTIONS".
Definition TRACE := lit "TRACE".
Definition CONNECT := lit "CONNECT".

(** The standard methods with their bits. *)
Definition standard_methods : list (N * rstr) :=
  [(1, GET); (2, POST); (4, PUT); (8, PATCH); (16, DELETE); (32, HEAD); (64, OPTIONS); (128, TRACE); (256, CONNECT)].
Definition MethodFilter : Type := N.
Definition MethodFilter_ALL : MethodFilter := 511.
Definition filter_contains (f g : MethodFilter) : bool := N.land f g =? g.
Definition filter_intersects (f g : MethodFilter) : bool := negb (N.land f g =? 0).
Definition filter_without (f g : MethodFilter) : MethodFilter := N.ldiff f g.
Definition filter_complement (f : MethodFilter) : MethodFilter := filter_without MethodFilter_ALL f.
Definition filter_is_empty (f : MethodFilter) : bool := f =? 0.
Definition filter_bitor (f g : MethodFilter) : MethodFilter := N.lor f g.
Definition filter_bitand (f g : MethodFilter) : MethodFilter := N.land f g.
Definition from_method (method : rstr) : option MethodFilter :=
  fst <$> List.find (λ bm, str_eqb bm.2 method) standard_methods.
Definition filter_matches (f : MethodFilter) (method : rstr) : bool :=
  match from_method method with Some g => filter_contains f g | None => false end.
Definition filter_methods (f : MethodFilter) : list rstr :=
  omap (λ bm, if filter_contains f bm.1 then Some bm.2 else None) standard_methods.

Inductive MethodSelection := SelectMethod (m : rstr) | SelectFilter (f : MethodFilter).
Definition selection_methods (s : MethodSelection) : list rstr :=
  match s with SelectMethod m => [m] | SelectFilter f => filter_methods f end.

Section router.
Context {HL : HttpLib} {ML : MatchLib} {Value Rest Bytes Ext W : Type}.
(** Percent-decoding to UTF-8, and the exact size of a JSON body *)
Context (percent_decode : rstr → result rstr rstr) (json_size : Value → N).

(** ** Requests and services *)

(** Scheme and authority are never looked at. *)
Record Uri := { uri_path : rstr; uri_query : option rstr; uri_rest : Rest }.
Definition RouteParams : Type := result rstr (list (rstr * rstr)).

(** The extensions that the router reads or writes, and the others. *)
Record IncomingRequest :=
  { rq_method : rstr; rq_uri : Uri; rq_headers : HeaderMap; rq_body : Bytes;
    x_original_uri : option Uri; x_nested_path : option rstr; x_matched_path : option rstr;
    x_route_params : option RouteParams; x_others : Ext }.

Definition Service : Type := IncomingRequest → W → HttpResponse Value * W.
Definition Layer : Type := Service → Service.

Definition with_uri (u : Uri) (nested : option rstr) (rq : IncomingRequest) : IncomingRequest :=
  {| rq_method := rq_method rq; rq_uri := u; rq_headers := rq_headers rq; rq_body := rq_body rq;
     x_original_uri := x_original_uri rq; x_nested_path := nested; x_matched_path := x_matched_path rq;
     x_route_params := x_route_params rq; x_others := x_others rq |}.
Definition with_match (path : option rstr) (params : option RouteParams) (rq : IncomingRequest) : IncomingRequest :=
  {| rq_method := rq_method rq; rq_uri := rq_uri rq; rq_headers := rq_headers rq; rq_body := rq_body rq;
     x_original_uri := x_original_uri rq; x_nested_path := x_nested_path rq; x_matched_path := path;
     x_route_params := params; x_others := x_others rq |}.
Definition with_original (rq : IncomingRequest) : IncomingRequest :=
  {| rq_method := rq_method rq; rq_uri := rq_uri rq; rq_headers := rq_headers rq; rq_body := rq_body rq;
     x_original_uri := Some (default (rq_uri rq) (x_original_uri rq)); x_nested_path := x_nested_path rq;
     x_matched_path := x_matched_path rq; x_route_params := x_route_params rq; x_others := x_others rq |}.

(** [RouteParams::from_pairs]: the first capture that is not UTF-8 is its error. *)
Fixpoint from_pairs (pairs : list (rstr * rstr)) : RouteParams :=
  match pairs with
  | [] => Ok []
  | (key, value) :: pairs =>
      match percent_decode key with
      | Err e => Err e
      | Ok key =>
          match percent_decode value with
          | Err e => Err e
          | Ok value => match from_pairs pairs with Ok l => Ok ((key, value) :: l) | Err e => Err e end
          end
      end
  end.
Definition params_list (p : RouteParams) : list (rstr * rstr) := match p with Ok l => l | Err _ => [] end.
Definition params_get (name : rstr) (p : RouteParams) : option rstr :=
  snd <$> List.find (λ kv, str_eqb kv.1 name) (params_list p).
Definition params_validate (p : RouteParams) : result rstr () := match p with Ok _ => Ok () | Err e => Err e end.

(** ** Stripping a prefix (router/strip_prefix.rs) *)

(** The place of the first brace that is not doubled. *)
Fixpoint find_unescaped (needle : N) (s : rstr) : option nat :=
  match s with
  | [] => None
  | c :: ((d :: s') as t) =>
      if c =? needle then if d =? needle then (λ i, S (S i)) <$> find_unescaped needle s' else Some 0%nat
      else S <$> find_unescaped needle t
  | [c] => if c =? needle then Some 0%nat else None
  end.

Definition capture_prefix_suffix (segment : rstr) : option (rstr * rstr) :=
  start ← find_unescaped 123 segment;
  end_ ← find_unescaped 125 segment;
  if (start <? end_)%nat then Some (take start segment, drop (S end_) segment) else None.

Definition segment_matches (pattern value : rstr) : bool :=
  match capture_prefix_suffix pattern with
  | None => str_eqb pattern value
  | Some (prefix, suffix) =>
      (length prefix + length suffix <=? length value)%nat && starts_with prefix value && ends_with suffix value
  end.

Fixpoint matched_len (prefix_segments path_segments : list rstr) : option nat :=
  match prefix_segments with
  | [] => Some 0%nat
  | p :: ps =>
      match path_segments with
      | [] => None
      | v :: vs => if segment_matches p v then (λ n, (1 + length v + n)%nat) <$> matched_len ps vs else None
      end
  end.

Definition matching_prefix_len (path prefix : rstr) : option nat :=
  path ← strip_prefix (lit "/") path; prefix ← strip_prefix (lit "/") prefix;
  matched_len (segments prefix) (segments path).

(** What is written and parsed again is a path with the query it had. *)
Definition strip_prefix_from_uri (uri : Uri) (prefix : rstr) : Uri :=
  match matching_prefix_len (uri_path uri) prefix with
  | None => uri
  | Some n =>
      let stripped := drop n (uri_path uri) in
      {| uri_path := if str_is_empty stripped then lit "/" else stripped; uri_query := uri_query uri; uri_rest := uri_rest uri |}
  end.

(** A prefix was normalized, so joining does not fail. *)
Definition strip_prefix_service (prefix : rstr) (inner : Service) : Service := λ rq,
  let nested_path := match x_nested_path rq with
                     | Some path => default path (join_paths path prefix)
                     | None => prefix
                     end in
  inner (with_uri (strip_prefix_from_uri (rq_uri rq) prefix) (Some nested_path) rq).

(** ** Services of the router (router/method_not_allowed.rs, not_found.rs, future.rs) *)

Inductive AllowHeader := AllowValue (v : HeaderValue) | AllowSkip.
Definition AllowHeader_default : AllowHeader := AllowValue (from_static []).

Definition from_methods (methods : list (option rstr)) : option AllowHeader :=
  match mapM id methods with
  | None => Some AllowSkip
  | Some allowed =>
      let allowed := if str_in allowed GET then allowed ++ [HEAD] else allowed in
      AllowValue <$> from_str (join (lit ", ") (dedup (merge_sort str_le allowed)))
  end.

Definition MethodNotAllowed (allow : AllowHeader) : Service := λ _ w,
  let response := text_response 405 (lit "method not allowed") in
  (match allow with
   | AllowValue v => with_headers_of (h_insert (lit "allow") v) response
   | AllowSkip => response
   end, w).

Definition NotFound : Service := λ _ w, (text_response 404 (lit "not found"), w).

(** [size_hint().exact()] *)
Definition body_size (b : Body Value) : option N :=
  match b with
  | EmptyBody => Some 0
  | TextBody s => Some (N.of_nat (length (as_bytes s)))
  | JsonValue v => Some (json_size v)
  | BytesBody l => Some (N.of_nat (length l))
  | StreamBody => None
  end.

(** The digits of a number are a header value. *)
Definition set_content_length_if_known (r : HttpResponse Value) : HttpResponse Value :=
  if h_contains (lit "content-length") (headers r) then r else
  match body_size (body r) with
  | Some size => match from_str (dec size) with
                 | Some v => with_headers_of (h_insert (lit "content-length") v) r
                 | None => r
                 end
  | None => r
  end.

Definition without_body (r : HttpResponse Value) : HttpResponse Value :=
  {| status := status r; headers := headers r; body := EmptyBody |}.

(** [RouteFuture] *)
Definition route_future (method : rstr) (answer : HttpResponse Value * W) : HttpResponse Value * W :=
  let '(r, w) := answer in
  if str_eqb method HEAD then (without_body (set_content_length_if_known r), w)
  else if str_eqb method CONNECT && is_success (status r) then
    (without_body (with_headers_of (h_remove (lit "transfer-encoding")) (with_headers_of (h_remove (lit "content-length")) r)), w)
  else (r, w).

(** ** Method routers (router/method_routing.rs, router/route.rs) *)

(** A [MethodEndpoint] has the same fields. *)
Record Route := { r_method : option rstr; r_service : Service }.

Definition routes_overlap (a b : option rstr) : bool :=
  match a, b with
  | Some a, Some b => str_eqb a b
  | None, None => true
  | _, _ => false
  end.

(** The loops that push endpoints and panic on an overlap. *)
Fixpoint push_routes (new routes : list Route) : option (list Route) :=
  match new with
  | [] => Some routes
  | e :: new =>
      if existsb (λ r, routes_overlap (r_method r) (r_method e)) routes then None
      else push_routes new (routes ++ [e])
  end.

Definition layer_route (layer : Layer) (r : Route) : Route :=
  {| r_method := r_method r; r_service := layer (r_service r) |}.

Definition for_method (m : option rstr) (routes : list Route) : option Service :=
  r_service <$> List.find (λ r, bool_decide (r_method r = m)) routes.

(** The endpoint of a method: its own, GET's for HEAD, or the one for any. *)
Definition find_route (method : rstr) (routes : list Route) : option Service :=
  match for_method (Some method) routes with
  | Some s => Some s
  | None =>
      match (if str_eqb method HEAD then for_method (Some GET) routes else None) with
      | Some s => Some s
      | None => for_method None routes
      end
  end.

Record MethodRouter := { endpoints : list Route; mr_allow_header : AllowHeader; mr_fallback : option Service }.
Definition MethodRouter_new : MethodRouter :=
  {| endpoints := []; mr_allow_header := AllowHeader_default; mr_fallback := None |}.

Definition refresh_method_router (routes : list Route) (fallback : option Service) : option MethodRouter :=
  allow ← from_methods (r_method <$> routes);
  Some {| endpoints := routes; mr_allow_header := allow; mr_fallback := fallback |}.

Definition MethodRouter_on_service (method : MethodSelection) (service : Service) (mr : MethodRouter) : option MethodRouter :=
  match selection_methods method with
  | [] => None
  | methods =>
      routes ← push_routes ((λ m, {| r_method := Some m; r_service := service |}) <$> methods) (endpoints mr);
      refresh_method_router routes (mr_fallback mr)
  end.

Definition MethodRouter_any_service (service : Service) (mr : MethodRouter) : option MethodRouter :=
  if existsb (λ e, bool_decide (r_method e = None)) (endpoints mr) then None else
  refresh_method_router (endpoints mr ++ [{| r_method := None; r_service := service |}]) (mr_fallback mr).

Definition MethodRouter_method_not_allowed_fallback (service : Service) (mr : MethodRouter) : option MethodRouter :=
  match mr_fallback mr with
  | Some _ => None
  | None => Some {| endpoints := endpoints mr; mr_allow_header := mr_allow_header mr; mr_fallback := Some service |}
  end.

Fixpoint filter_of (routes : list Route) (f : MethodFilter) : option MethodFilter :=
  match routes with
  | [] => Some f
  | e :: routes => m ← r_method e; g ← from_method m; filter_of routes (filter_bitor f g)
  end.
Definition MethodRouter_method_filter (mr : MethodRouter) : option MethodFilter :=
  match mr_fallback mr with
  | Some _ => None
  | None => f ← filter_of (endpoints mr) 0; if filter_is_empty f then None else Some f
  end.

Definition MethodRouter_merge (mr other : MethodRouter) : option MethodRouter :=
  routes ← push_routes (endpoints other) (endpoints mr);
  match mr_fallback mr, mr_fallback other with
  | Some _, Some _ => None
  | None, fallback => refresh_method_router routes fallback
  | Some fallback, None => refresh_method_router routes (Some fallback)
  end.

Definition MethodRouter_layer (layer : Layer) (mr : MethodRouter) : MethodRouter :=
  {| endpoints := layer_route layer <$> endpoints mr; mr_allow_header := mr_allow_header mr; mr_fallback := layer <$> mr_fallback mr |}.

Definition MethodRouter_route_layer (layer : Layer) (mr : MethodRouter) : option MethodRouter :=
  match endpoints mr with
  | [] => None
  | _ => Some {| endpoints := layer_route layer <$> endpoints mr; mr_allow_header := mr_allow_header mr; mr_fallback := mr_fallback mr |}
  end.

Definition MethodRouter_call (mr : MethodRouter) : Service := λ rq w,
  let service := match find_route (rq_method rq) (endpoints mr) with
                 | Some s => s
                 | None => default (MethodNotAllowed (mr_allow_header mr)) (mr_fallback mr)
                 end in
  route_future (rq_method rq) (service rq w).

(** ** Path routers (router/path_router.rs) *)

Record RouteGroup :=
  { rg_path : rstr; rg_routes : list Route; rg_allow_header : AllowHeader; rg_fallback : option Service }.
Record PathRouter := { pr_routes : MatchRouter; route_groups : list RouteGroup; path_index : gmap rstr nat }.
Definition PathRouter_default : PathRouter := {| pr_routes := m_new; route_groups := []; path_index := ∅ |}.

Definition has_routes (pr : PathRouter) : bool := match route_groups pr with [] => false | _ => true end.
Definition paths (pr : PathRouter) : list rstr := rg_path <$> route_groups pr.

Definition set_group (i : nat) (g : RouteGroup) (pr : PathRouter) : PathRouter :=
  {| pr_routes := pr_routes pr; route_groups := <[i := g]> (route_groups pr); path_index := path_index pr |}.
Definition map_groups (f : RouteGroup → RouteGroup) (pr : PathRouter) : PathRouter :=
  {| pr_routes := pr_routes pr; route_groups := f <$> route_groups pr; path_index := path_index pr |}.

Definition ensure_route_group (path : rstr) (method_not_allowed_fallback : option Service) (pr : PathRouter) : option (nat * PathRouter) :=
  match path_index pr !! path with
  | Some index => Some (index, pr)
  | None =>
      let index := length (route_groups pr) in
      routes ← m_insert path index (pr_routes pr);
      Some (index, {| pr_routes := routes;
                      route_groups := route_groups pr ++
                        [{| rg_path := path; rg_routes := []; rg_allow_header := AllowHeader_default; rg_fallback := method_not_allowed_fallback |}];
                      path_index := <[path := index]> (path_index pr) |})
  end.

(** The end of [route] and of [insert_group_routes]: pushing, the fallback, the header. *)
Definition extend_group (new : list Route) (fallback : option Service) (g : RouteGroup) : option RouteGroup :=
  routes ← push_routes new (rg_routes g);
  fallback ← match fallback, rg_fallback g with
             | Some _, Some _ => None
             | Some f, None => Some (Some f)
             | None, f => Some f
             end;
  allow ← from_methods (r_method <$> routes);
  Some {| rg_path := rg_path g; rg_routes := routes; rg_allow_header := allow; rg_fallback := fallback |}.

Definition insert_group_routes (path : rstr) (routes : list Route) (fallback default_fallback : option Service) (pr : PathRouter) : option PathRouter :=
  '(i, pr) ← ensure_route_group path default_fallback pr;
  g ← route_groups pr !! i;
  g ← extend_group routes fallback g;
  Some (set_group i g pr).

Definition PathRouter_route (path : rstr) (mr : MethodRouter) (default_fallback : option Service) (pr : PathRouter) : option PathRouter :=
  '(i, pr) ← ensure_route_group path default_fallback pr;
  g ← route_groups pr !! i;
  g ← extend_group (endpoints mr) (mr_fallback mr) g;
  Some (set_group i g pr).

(** The loops over the other router's paths, in their order. *)
Fixpoint insert_groups (at_ : rstr → option rstr) (f : Layer) (other : PathRouter) (entries : list (rstr * nat))
    (default_fallback : option Service) (pr : PathRouter) : option PathRouter :=
  match entries with
  | [] => Some pr
  | (path, i) :: entries =>
      path ← at_ path;
      g ← route_groups other !! i;
      pr ← insert_group_routes path (layer_route f <$> rg_routes g) (f <$> rg_fallback g) default_fallback pr;
      insert_groups at_ f other entries default_fallback pr
  end.

Definition PathRouter_nest (prefix : rstr) (other : PathRouter) (default_fallback : option Service) (pr : PathRouter) : option PathRouter :=
  insert_groups (join_paths prefix) (strip_prefix_service prefix) other (btree_iter (path_index other)) default_fallback pr.

Definition PathRouter_merge (other : PathRouter) (default_fallback : option Service) (pr : PathRouter) : option PathRouter :=
  insert_groups Some (λ s, s) other (btree_iter (path_index other)) default_fallback pr.

Definition set_method_not_allowed_fallback (fallback : Service) : PathRouter → PathRouter :=
  map_groups (λ g, {| rg_path := rg_path g; rg_routes := rg_routes g; rg_allow_header := rg_allow_header g; rg_fallback := Some fallback |}).

Definition layer_routes (layer : Layer) (include_method_fallbacks : bool) : PathRouter → PathRouter :=
  map_groups (λ g,
    {| rg_path := rg_path g; rg_routes := layer_route layer <$> rg_routes g; rg_allow_header := rg_allow_header g;
       rg_fallback := if include_method_fallbacks then Some (layer (default (MethodNotAllowed (rg_allow_header g)) (rg_fallback g)))
                      else rg_fallback g |}).

(** The service, and the request with the match written down. *)
Definition match_service (pr : PathRouter) (rq : IncomingRequest) : option Service * IncomingRequest :=
  match m_at (uri_path (rq_uri rq)) (pr_routes pr) with
  | None => (None, with_match None None rq)
  | Some (i, params) =>
      match route_groups pr !! i with
      | None => (None, rq)
      | Some g =>
          let service := match find_route (rq_method rq) (rg_routes g) with
                         | Some s => s
                         | None => default (MethodNotAllowed (rg_allow_header g)) (rg_fallback g)
                         end in
          (Some service, with_match (Some (rg_path g)) (Some (from_pairs params)) rq)
      end
  end.

(** ** Routers (router.rs, router/fallback.rs) *)

Inductive Fallback := DefaultFallback (s : Service) | CustomFallback (s : Service).
Definition default_route : Fallback := DefaultFallback NotFound.
Definition is_custom (f : Fallback) : bool := match f with CustomFallback _ => true | DefaultFallback _ => false end.
Definition fallback_service (f : Fallback) : Service := match f with DefaultFallback s | CustomFallback s => s end.
Definition fallback_merge (a b : Fallback) : option Fallback :=
  match a, b with
  | DefaultFallback _, pick => Some pick
  | pick, DefaultFallback _ => Some pick
  | CustomFallback _, CustomFallback _ => None
  end.
Definition fallback_layer (layer : Layer) (f : Fallback) : Fallback :=
  match f with DefaultFallback s => DefaultFallback (layer s) | CustomFallback s => CustomFallback (layer s) end.

Record Router := { path_router : PathRouter; rt_fallback : Fallback; rt_method_not_allowed : option Service }.
Definition Router_new : Router :=
  {| path_router := PathRouter_default; rt_fallback := default_route; rt_method_not_allowed := None |}.

Definition with_path_router (pr : PathRouter) (r : Router) : Router :=
  {| path_router := pr; rt_fallback := rt_fallback r; rt_method_not_allowed := rt_method_not_allowed r |}.
Definition with_fallback (f : Fallback) (r : Router) : Router :=
  {| path_router := path_router r; rt_fallback := f; rt_method_not_allowed := rt_method_not_allowed r |}.

Definition Router_route (path : rstr) (mr : MethodRouter) (r : Router) : option Router :=
  path ← normalize_path path;
  pr ← PathRouter_route path mr (rt_method_not_allowed r) (path_router r);
  Some (with_path_router pr r).

Definition Router_nest (prefix : rstr) (other r : Router) : option Router :=
  prefix ← normalize_nest_prefix prefix;
  pr ← PathRouter_nest prefix (path_router other) (rt_method_not_allowed r) (path_router r);
  Some (with_path_router pr r).

Definition Router_merge (other r : Router) : option Router :=
  fallback ← fallback_merge (rt_fallback r) (rt_fallback other);
  let r := with_fallback fallback r in
  pr ← PathRouter_merge (path_router other) (rt_method_not_allowed r) (path_router r);
  Some (with_path_router pr r).

(** [impl From<MethodRouter> for Router] *)
Definition router_of (mr : MethodRouter) : option Router := Router_route (lit "/") mr Router_new.

Definition Router_nest_service (prefix : rstr) (service : Service) (r : Router) : option Router :=
  prefix ← normalize_nest_prefix prefix;
  mr ← MethodRouter_any_service (strip_prefix_service prefix service) MethodRouter_new;
  r ← Router_route prefix mr r;
  r ← Router_route (prefix ++ lit "/") mr r;
  Router_route (prefix ++ lit "/{*tail}") mr r.

Definition Router_route_service (path : rstr) (service : Service) (r : Router) : option Router :=
  mr ← MethodRouter_any_service service MethodRouter_new; Router_route path mr r.
Definition route_method_service (method path : rstr) (service : Service) (r : Router) : option Router :=
  mr ← MethodRouter_on_service (SelectMethod method) service MethodRouter_new; Router_route path mr r.

Definition Router_fallback (service : Service) (r : Router) : Router := with_fallback (CustomFallback service) r.
Definition Router_reset_fallback (r : Router) : Router := with_fallback default_route r.
Definition Router_method_not_allowed_fallback (service : Service) (r : Router) : Router :=
  {| path_router := set_method_not_allowed_fallback service (path_router r); rt_fallback := rt_fallback r;
     rt_method_not_allowed := Some service |}.

Definition Router_layer (layer : Layer) (r : Router) : Router :=
  with_fallback (fallback_layer layer (rt_fallback r)) (with_path_router (layer_routes layer true (path_router r)) r).
Definition Router_route_layer (layer : Layer) (r : Router) : option Router :=
  if has_routes (path_router r) then Some (with_path_router (layer_routes layer false (path_router r)) r) else None.

Definition Router_call (r : Router) : Service := λ rq w,
  let rq := with_original rq in
  let '(service, rq) := match_service (path_router r) rq in
  route_future (rq_method rq) (default (fallback_service (rt_fallback r)) service rq w).

(** ** What builders write *)

Inductive MBuild :=
| MNew
| MOn (method : MethodSelection) (service : Service) (m : MBuild)
| MAny (service : Service) (m : MBuild)
| MFallback (service : Service) (m : MBuild)
| MMerge (m other : MBuild)
| MLayer (layer : Layer) (m : MBuild)
| MRouteLayer (layer : Layer) (m : MBuild).

Fixpoint mbuild (m : MBuild) : option MethodRouter :=
  match m with
  | MNew => Some MethodRouter_new
  | MOn method service m => mr ← mbuild m; MethodRouter_on_service method service mr
  | MAny service m => mr ← mbuild m; MethodRouter_any_service service mr
  | MFallback service m => mr ← mbuild m; MethodRouter_method_not_allowed_fallback service mr
  | MMerge m other => mr ← mbuild m; other ← mbuild other; MethodRouter_merge mr other
  | MLayer layer m => MethodRouter_layer layer <$> mbuild m
  | MRouteLayer layer m => mr ← mbuild m; MethodRouter_route_layer layer mr
  end.

Inductive Build :=
| BNew
| BRoute (path : rstr) (m : MBuild) (b : Build)
| BNest (prefix : rstr) (inner b : Build)
| BMerge (other b : Build)
| BNestService (prefix : rstr) (service : Service) (b : Build)
| BFallback (service : Service) (b : Build)
| BResetFallback (b : Build)
| BMethodNotAllowed (service : Service) (b : Build)
| BLayer (layer : Layer) (b : Build)
| BRouteLayer (layer : Layer) (b : Build).

Fixpoint build (b : Build) : option Router :=
  match b with
  | BNew => Some Router_new
  | BRoute path m b => r ← build b; mr ← mbuild m; Router_route path mr r
  | BNest prefix inner b => r ← build b; inner ← build inner; Router_nest prefix inner r
  | BMerge other b => r ← build b; other ← build other; Router_merge other r
  | BNestService prefix service b => r ← build b; Router_nest_service prefix service r
  | BFallback service b => Router_fallback service <$> build b
  | BResetFallback b => Router_reset_fallback <$> build b
  | BMethodNotAllowed service b => Router_method_not_allowed_fallback service <$> build b
  | BLayer layer b => Router_layer layer <$> build b
  | BRouteLayer layer b => r ← build b; Router_route_layer layer r
  end.

Context {MLaws : MatchLaws ML} {HLaws : HttpLaws HL}.

(** ** What a router is: a map of paths to maps of methods *)

Record PathSpec := { ps_methods : gmap (option rstr) Service; ps_fallback : option Service }.
Record RouterSpec := { rs_paths : gmap rstr PathSpec; rs_fallback : Fallback; rs_default : option Service }.

(** The methods of a 405: sorted, without repeats, HEAD with GET; none when a service
    takes any. *)
Definition allowed_methods (ms : gset (option rstr)) : option (gset rstr) :=
  if decide (None ∈ ms) then None
  else Some (list_to_set (omap id (elements ms)) ∪ (if decide (Some GET ∈ ms) then {[HEAD]} else ∅)).
Definition allow_header (ms : gset (option rstr)) : AllowHeader :=
  match allowed_methods ms with
  | None => AllowSkip
  | Some l => match from_str (join (lit ", ") (bset_iter l)) with Some v => AllowValue v | None => AllowSkip end
  end.

Definition not_allowed (s : PathSpec) : Service :=
  default (MethodNotAllowed (allow_header (dom (ps_methods s)))) (ps_fallback s).
Definition spec_endpoint (s : PathSpec) (method : rstr) : Service :=
  match ps_methods s !! Some method with
  | Some service => service
  | None =>
      match (if str_eqb method HEAD then ps_methods s !! Some GET else None) with
      | Some service => service
      | None => default (not_allowed s) (ps_methods s !! None)
      end
  end.

Definition spec_match (sp : RouterSpec) (path : rstr) : option (rstr * list (rstr * rstr) * PathSpec) :=
  '(p, params) ← m_select (dom (rs_paths sp)) path; s ← rs_paths sp !! p; Some (p, params, s).
Definition spec_call (sp : RouterSpec) : Service := λ rq w,
  let rq := with_original rq in
  route_future (rq_method rq)
    (match spec_match sp (uri_path (rq_uri rq)) with
     | Some (p, params, s) => spec_endpoint s (rq_method rq) (with_match (Some p) (Some (from_pairs params)) rq) w
     | None => fallback_service (rs_fallback sp) (with_match None None rq) w
     end).

Definition methods_of (routes : list Route) : gmap (option rstr) Service :=
  list_to_map ((λ r, (r_method r, r_service r)) <$> routes).
Definition fresh (default_fallback : option Service) : PathSpec := {| ps_methods := ∅; ps_fallback := default_fallback |}.
(** A group of a path is added to what is there. *)
Definition combine (old new : PathSpec) : PathSpec :=
  {| ps_methods := ps_methods old ∪ ps_methods new;
     ps_fallback := match ps_fallback new with Some f => Some f | None => ps_fallback old end |}.
Definition spec_merge (default_fallback : option Service) (paths others : gmap rstr PathSpec) : gmap rstr PathSpec :=
  merge (λ old new, match new with Some s => Some (combine (default (fresh default_fallback) old) s) | None => old end) paths others.
Definition map_spec (f : Layer) (s : PathSpec) : PathSpec :=
  {| ps_methods := f <$> ps_methods s; ps_fallback := f <$> ps_fallback s |}.

Definition mounted_path (prefix path : rstr) : rstr := if str_eqb path (lit "/") then prefix else prefix ++ path.
Definition mounted (prefix : rstr) (paths : gmap rstr PathSpec) : gmap rstr PathSpec :=
  list_to_map ((λ ps, (mounted_path prefix ps.1, map_spec (strip_prefix_service prefix) ps.2)) <$> map_to_list paths).

Definition spec_of_routes (routes : list Route) (fallback : option Service) : PathSpec :=
  {| ps_methods := methods_of routes; ps_fallback := fallback |}.
Definition spec_of (mr : option MethodRouter) : PathSpec :=
  match mr with Some mr => spec_of_routes (endpoints mr) (mr_fallback mr) | None => fresh None end.
Definition trim_slashes (s : rstr) : rstr := trim_end_matches (N.eqb 47) s.

Definition add_paths (others : gmap rstr PathSpec) (sp : RouterSpec) : RouterSpec :=
  {| rs_paths := spec_merge (rs_default sp) (rs_paths sp) others; rs_fallback := rs_fallback sp; rs_default := rs_default sp |}.
Definition map_paths (f : PathSpec → PathSpec) (sp : RouterSpec) : RouterSpec :=
  {| rs_paths := f <$> rs_paths sp; rs_fallback := rs_fallback sp; rs_default := rs_default sp |}.
Definition spec_fallback (f : Fallback) (sp : RouterSpec) : RouterSpec :=
  {| rs_paths := rs_paths sp; rs_fallback := f; rs_default := rs_default sp |}.

Definition service_paths (prefix : rstr) (service : Service) : gmap rstr PathSpec :=
  let s := {| ps_methods := {[None := strip_prefix_service prefix service]}; ps_fallback := None |} in
  <[prefix := s]> (<[prefix ++ lit "/" := s]> {[prefix ++ lit "/{*tail}" := s]}).

Fixpoint denote (b : Build) : RouterSpec :=
  match b with
  | BNew => {| rs_paths := ∅; rs_fallback := default_route; rs_default := None |}
  | BRoute path m b => add_paths {[path := spec_of (mbuild m)]} (denote b)
  | BNest prefix inner b => add_paths (mounted (trim_slashes prefix) (rs_paths (denote inner))) (denote b)
  | BMerge other b =>
      add_paths (rs_paths (denote other))
        (spec_fallback (default default_route (fallback_merge (rs_fallback (denote b)) (rs_fallback (denote other)))) (denote b))
  | BNestService prefix service b => add_paths (service_paths (trim_slashes prefix) service) (denote b)
  | BFallback service b => spec_fallback (CustomFallback service) (denote b)
  | BResetFallback b => spec_fallback default_route (denote b)
  | BMethodNotAllowed service b =>
      {| rs_paths := (λ s, {| ps_methods := ps_methods s; ps_fallback := Some service |}) <$> rs_paths (denote b);
         rs_fallback := rs_fallback (denote b); rs_default := Some service |}
  | BLayer layer b =>
      spec_fallback (fallback_layer layer (rs_fallback (denote b)))
        (map_paths (λ s, {| ps_methods := layer <$> ps_methods s; ps_fallback := Some (layer (not_allowed s)) |}) (denote b))
  | BRouteLayer layer b =>
      map_paths (λ s, {| ps_methods := layer <$> ps_methods s; ps_fallback := ps_fallback s |}) (denote b)
  end.

(** ** Method routers keep their invariant *)

Implicit Types (routes : list Route) (mr : MethodRouter) (g : RouteGroup) (pr : PathRouter) (rq : IncomingRequest).

Lemma routes_overlap_eq a b : routes_overlap a b = bool_decide (a = b).
Proof.
  destruct a as [a|], b as [b|]; cbn; try done. destruct (str_eqb_spec a b) as [->|Hne].
  - by rewrite bool_decide_eq_true_2.
  - rewrite bool_decide_eq_false_2; [done|congruence].
Qed.

Lemma push_routes_app new routes out :
  push_routes new routes = Some out → NoDup (r_method <$> routes) → out = routes ++ new ∧ NoDup (r_method <$> out).
Proof.
  revert routes. induction new as [|e new IH]; intros routes Hp Hnd; cbn in Hp.
  { injection Hp as <-. by rewrite app_nil_r. }
  destruct (existsb _ routes) eqn:E; [done|]. apply IH in Hp as [-> Hnd']; [by rewrite <- app_assoc in *|].
  rewrite fmap_app. apply NoDup_app. split_and!; [done| |apply NoDup_singleton].
  intros m Hm [->|[]%elem_of_nil]%elem_of_cons. apply list_elem_of_fmap in Hm as (r & Hr & Hin).
  apply not_true_iff_false in E. apply E, existsb_elem_of. exists r. split; [done|].
  by rewrite routes_overlap_eq, Hr, bool_decide_eq_true_2.
Qed.

Lemma methods_of_app a b : methods_of (a ++ b) = methods_of a ∪ methods_of b.
Proof. unfold methods_of. by rewrite fmap_app, list_to_map_app. Qed.

Lemma methods_of_layer f routes : methods_of (layer_route f <$> routes) = f <$> methods_of routes.
Proof.
  unfold methods_of. rewrite <- list_to_map_fmap, <- !list_fmap_compose. by apply f_equal, list_fmap_ext.
Qed.

Lemma methods_layer f routes : r_method <$> (layer_route f <$> routes) = r_method <$> routes.
Proof. rewrite <- list_fmap_compose. by apply list_fmap_ext. Qed.

Lemma for_method_lookup m routes : for_method m routes = methods_of routes !! m.
Proof.
  unfold for_method, methods_of. induction routes as [|r routes IH]; [done|]. cbn. case_bool_decide as E.
  - subst. by rewrite lookup_insert_eq.
  - by rewrite lookup_insert_ne.
Qed.

Lemma dom_methods_of routes : dom (methods_of routes) = list_to_set (r_method <$> routes).
Proof. unfold methods_of. rewrite dom_list_to_map_L, <- list_fmap_compose. by apply f_equal, list_fmap_ext. Qed.

Lemma mapM_id_None (ms : list (option rstr)) : mapM id ms = None ↔ None ∈ ms.
Proof.
  induction ms as [|[m|] ms IH]; cbn.
  - by rewrite elem_of_nil.
  - rewrite elem_of_cons, <- IH. destruct (mapM id ms); cbn; split; try done; [by intros [|]|by right].
  - rewrite elem_of_cons. split; auto.
Qed.

Lemma mapM_id_Some (ms : list (option rstr)) l : mapM id ms = Some l → ms = Some <$> l.
Proof.
  revert l. induction ms as [|[m|] ms IH]; intros l; cbn; [by intros [= <-]| |done].
  destruct (mapM id ms) as [l'|]; cbn; [|done]. intros [= <-]. cbn. by rewrite (IH l').
Qed.

Lemma from_methods_allow ms a : from_methods ms = Some a → allow_header (list_to_set ms) = a.
Proof using Type.
  clear percent_decode json_size.
  unfold from_methods, allow_header, allowed_methods. destruct (mapM id ms) as [l|] eqn:E.
  - rewrite decide_False; [|rewrite elem_of_list_to_set, <- mapM_id_None, E; done]. apply mapM_id_Some in E as ->.
    rewrite dedup_sort. intros Ha.
    replace (list_to_set (omap id (elements (list_to_set (Some <$> l) : gset (option rstr)))) ∪
       (if decide (Some GET ∈ (list_to_set (Some <$> l) : gset (option rstr))) then {[HEAD]} else ∅))
      with (list_to_set (if str_in l GET then l ++ [HEAD] else l) : gset rstr).
    { destruct (from_str _); cbn in Ha; [by injection Ha|done]. }
    apply set_eq. intros m. rewrite elem_of_union, !elem_of_list_to_set, list_elem_of_omap.
    assert ((∃ x, x ∈ elements (list_to_set (Some <$> l) : gset (option rstr)) ∧ id x = Some m) ↔ m ∈ l) as ->.
    { split; [intros (x & Hx & Hid); cbn in Hid; subst x|intros Hm; exists (Some m); split; [|done]].
      - rewrite elem_of_elements, elem_of_list_to_set in Hx. apply list_elem_of_fmap in Hx as (? & [= ->] & ?). done.
      - rewrite elem_of_elements, elem_of_list_to_set. by apply list_elem_of_fmap_2. }
    assert (str_in l GET = true ↔ Some GET ∈ (list_to_set (Some <$> l) : gset (option rstr))) as Hget.
    { rewrite str_in_spec, elem_of_list_to_set. split; [by apply list_elem_of_fmap_2|].
      by intros (? & [= <-] & ?)%list_elem_of_fmap. }
    destruct (decide (Some GET ∈ _)) as [Hin|Hin].
    + rewrite (proj2 Hget Hin), elem_of_app, list_elem_of_singleton, elem_of_singleton. done.
    + apply not_true_iff_false in Hin || rewrite <- Hget in Hin. apply not_true_iff_false in Hin as ->.
      rewrite elem_of_empty. tauto.
  - apply mapM_id_None in E. intros [= <-]. rewrite decide_True; [done|]. by apply elem_of_list_to_set.
Qed.

Definition method_router_ok mr : Prop :=
  NoDup (r_method <$> endpoints mr) ∧ from_methods (r_method <$> endpoints mr) = Some (mr_allow_header mr).

Lemma refresh_ok routes fallback mr :
  NoDup (r_method <$> routes) → refresh_method_router routes fallback = Some mr → method_router_ok mr.
Proof. intros Hnd H. apply bind_Some in H as (a & Ha & [= <-]). by split. Qed.

Lemma mbuild_ok m mr : mbuild m = Some mr → method_router_ok mr.
Proof.
  revert mr. induction m as [|method s m IH|s m IH|s m IH|m IH other IH'|f m IH|f m IH]; intros mr H; cbn in H.
  - injection H as <-. split; [constructor|]. cbn -[from_static]. unfold from_methods. cbn -[from_static].
    by rewrite (from_static_str []).
  - apply bind_Some in H as (mr0 & Hm & H). destruct (IH _ Hm) as [Hnd Ha]. unfold MethodRouter_on_service in H.
    destruct (selection_methods method); [done|]. apply bind_Some in H as (routes & Hp & H).
    apply push_routes_app in Hp as [-> ?]; [|done]. eapply refresh_ok; [|exact H]; done.
  - apply bind_Some in H as (mr0 & Hm & H). destruct (IH _ Hm) as [Hnd Ha]. unfold MethodRouter_any_service in H.
    destruct (existsb _ _) eqn:E; [done|]. eapply refresh_ok; [|exact H]. rewrite fmap_app. apply NoDup_app.
    split_and!; [done| |apply NoDup_singleton]. intros o Ho [->|[]%elem_of_nil]%elem_of_cons.
    apply not_true_iff_false in E. apply E, existsb_elem_of. apply list_elem_of_fmap in Ho as (r & Hr & ?).
    exists r. split; [done|]. by apply bool_decide_eq_true_2.
  - apply bind_Some in H as (mr0 & Hm & H). destruct (IH _ Hm) as [Hnd Ha]. unfold MethodRouter_method_not_allowed_fallback in H.
    destruct (mr_fallback mr0); [done|]. injection H as <-. by split.
  - apply bind_Some in H as (mr0 & Hm & H). destruct (IH _ Hm) as [Hnd Ha]. apply bind_Some in H as (mr1 & _ & H).
    apply bind_Some in H as (routes & Hp & H). apply push_routes_app in Hp as [-> ?]; [|done].
    destruct (mr_fallback mr0), (mr_fallback mr1); try done; (eapply refresh_ok; [|exact H]; done).
  - apply fmap_Some in H as (mr0 & Hm & ->). destruct (IH _ Hm) as [Hnd Ha]. split; cbn; by rewrite methods_layer.
  - apply bind_Some in H as (mr0 & Hm & H). destruct (IH _ Hm) as [Hnd Ha]. unfold MethodRouter_route_layer in H.
    destruct (endpoints mr0) eqn:E; [done|]. rewrite <- E in *. injection H as <-. split; cbn; by rewrite methods_layer.
Qed.

(** ** The groups of a path router are the map of its paths *)

Implicit Types (p path : rstr) (s : PathSpec) (others : gmap rstr PathSpec) (sp : RouterSpec).

Record group_ok path g s : Prop :=
  { go_path : rg_path g = path;
    go_nodup : NoDup (r_method <$> rg_routes g);
    go_allow : from_methods (r_method <$> rg_routes g) = Some (rg_allow_header g);
    go_spec : s = spec_of_routes (rg_routes g) (rg_fallback g) }.

Record paths_ok pr (specs : gmap rstr PathSpec) : Prop :=
  { po_routes : m_routes (pr_routes pr) = path_index pr;
    po_group p i : path_index pr !! p = Some i → ∃ g s, route_groups pr !! i = Some g ∧ specs !! p = Some s ∧ group_ok p g s;
    po_none p : path_index pr !! p = None → specs !! p = None }.

Lemma new_paths_ok : paths_ok PathRouter_default ∅.
Proof. split; [apply m_routes_new|intros p i; by rewrite lookup_empty|done]. Qed.

Lemma paths_ok_dom pr specs : paths_ok pr specs → dom (path_index pr) = dom specs.
Proof.
  intros [_ H1 H2]. apply set_eq. intros p. rewrite !elem_of_dom. destruct (path_index pr !! p) as [i|] eqn:E.
  - destruct (H1 _ _ E) as (g & s & _ & -> & _). done.
  - by rewrite (H2 _ E).
Qed.

Lemma set_group_ok pr specs path i g s :
  paths_ok pr specs → path_index pr !! path = Some i → group_ok path g s →
  paths_ok (set_group i g pr) (<[path := s]> specs).
Proof.
  intros [H1 H2 H3] Hi Hg. destruct (H2 _ _ Hi) as (g0 & s0 & Hg0 & _ & Hok0).
  split; cbn [set_group pr_routes path_index route_groups]; [done|..].
  - intros q j Hq. destruct (H2 _ _ Hq) as (g' & s' & Hg' & Hs' & Hok'). destruct (decide (path = q)) as [<-|Hne].
    + replace j with i in * by congruence. exists g, s. rewrite lookup_insert_eq, list_lookup_insert_eq; [done|]. by eapply lookup_lt_Some.
    + exists g', s'. rewrite lookup_insert_ne by done. rewrite list_lookup_insert_ne; [done|]. intros <-.
      apply Hne. rewrite <- (go_path _ _ _ Hok0), <- (go_path _ _ _ Hok'). congruence.
  - intros q Hq. rewrite lookup_insert_ne by congruence. by apply H3.
Qed.

Lemma ensure_group_ok pr specs path dflt i pr' :
  paths_ok pr specs → ensure_route_group path dflt pr = Some (i, pr') →
  path_index pr' !! path = Some i ∧ paths_ok pr' (<[path := default (fresh dflt) (specs !! path)]> specs).
Proof.
  intros H He. unfold ensure_route_group in He. destruct (path_index pr !! path) as [j|] eqn:E.
  - injection He as <- <-. split; [done|]. destruct (po_group _ _ H _ _ E) as (g & s & _ & Hs & _).
    by rewrite Hs, insert_id.
  - apply bind_Some in He as (m & Hm & [= <- <-]). cbn [path_index]. rewrite lookup_insert_eq. split; [done|].
    apply m_insert_routes in Hm as [_ Hm]. destruct H as [H1 H2 H3]. rewrite (H3 _ E). cbn [default].
    split; cbn [pr_routes path_index route_groups]; [by rewrite Hm, H1|..].
    + intros q j [[<- <-]|[Hne Hq]]%lookup_insert_Some.
      * eexists _, _. rewrite lookup_insert_eq, lookup_app_r, Nat.sub_diag by done. split_and!; [done..|].
        split; [done|constructor| |done]. cbn -[from_static]. unfold from_methods. cbn -[from_static]. by rewrite (from_static_str []).
      * destruct (H2 _ _ Hq) as (g & s & Hg & Hs & Hok). exists g, s. rewrite lookup_insert_ne by done.
        split; [by apply lookup_app_l_Some|done].
    + intros q [Hq Hne]%lookup_insert_None. rewrite lookup_insert_ne by done. by apply H3.
Qed.

Lemma extend_ok path g s new fallback g' :
  group_ok path g s → extend_group new fallback g = Some g' → group_ok path g' (combine s (spec_of_routes new fallback)).
Proof.
  intros [H1 H2 H3 ->] He. apply bind_Some in He as (routes & Hp & He). apply push_routes_app in Hp as [-> Hnd]; [|done].
  apply bind_Some in He as (f & Hf & He). apply bind_Some in He as (a & Ha & [= <-]).
  split; cbn [rg_path rg_routes rg_allow_header rg_fallback]; try done.
  unfold combine, spec_of_routes. cbn [ps_methods ps_fallback]. f_equal; [by rewrite methods_of_app|].
  destruct fallback, (rg_fallback g); by simplify_eq.
Qed.

Definition insert_one (dflt : option Service) (specs : gmap rstr PathSpec) (ps : rstr * PathSpec) : gmap rstr PathSpec :=
  <[ps.1 := combine (default (fresh dflt) (specs !! ps.1)) ps.2]> specs.

Lemma insert_group_routes_ok pr specs path routes fallback dflt pr' :
  paths_ok pr specs → insert_group_routes path routes fallback dflt pr = Some pr' →
  paths_ok pr' (insert_one dflt specs (path, spec_of_routes routes fallback)).
Proof.
  intros H Hi. apply bind_Some in Hi as ([i pr1] & He & Hi). destruct (ensure_group_ok _ _ _ _ _ _ H He) as [Hidx H1].
  apply bind_Some in Hi as (g & Hg & Hi). apply bind_Some in Hi as (g' & Hg' & [= <-]).
  destruct (po_group _ _ H1 _ _ Hidx) as (g0 & s0 & Hg0 & Hs0 & Hok). replace g0 with g in * by congruence.
  rewrite lookup_insert_eq in Hs0. injection Hs0 as <-. unfold insert_one. cbn [fst snd].
  pose proof (set_group_ok _ _ _ _ _ _ H1 Hidx (extend_ok _ _ _ _ _ _ Hok Hg')) as Hres. by rewrite insert_insert_eq in Hres.
Qed.

(** Groups are inserted one by one; the maps are joined at once. *)
Lemma insert_all_merge dflt specs (l : list (rstr * PathSpec)) :
  NoDup l.*1 → foldl (insert_one dflt) specs l = spec_merge dflt specs (list_to_map l).
Proof.
  revert specs. induction l as [|[p s] l IH]; intros specs Hnd; cbn [foldl fmap list_fmap fst] in *.
  - apply map_eq. intros q. unfold spec_merge. rewrite list_to_map_nil, lookup_merge, lookup_empty. by destruct (specs !! q).
  - apply NoDup_cons in Hnd as [Hni Hnd]. rewrite IH by done. apply map_eq. intros q. unfold spec_merge.
    rewrite list_to_map_cons, !lookup_merge. unfold insert_one. cbn [fst snd].
    destruct (decide (p = q)) as [<-|Hne].
    + rewrite !lookup_insert_eq, (not_elem_of_list_to_map_1 l) by done. by destruct (specs !! p).
    + rewrite !lookup_insert_ne by done. done.
Qed.

Definition inserted (at_ : rstr → option rstr) (f : Layer) others (e : rstr * nat) (q : rstr * PathSpec) : Prop :=
  at_ e.1 = Some q.1 ∧ ∃ s, others !! e.1 = Some s ∧ q.2 = map_spec f s.

Lemma insert_groups_ok at_ f other others entries dflt pr pr' specs :
  paths_ok other others → Forall (λ e, path_index other !! e.1 = Some e.2) entries → paths_ok pr specs →
  insert_groups at_ f other entries dflt pr = Some pr' →
  ∃ l, Forall2 (inserted at_ f others) entries l ∧
    paths_ok pr' (foldl (insert_one dflt) specs l).
Proof.
  intros Hother Hin. revert pr specs. induction Hin as [|[p i] entries Hp Hin IH]; intros pr specs H Hr; cbn [insert_groups] in Hr.
  { injection Hr as <-. by exists []. }
  apply bind_Some in Hr as (q & Hq & Hr). apply bind_Some in Hr as (g & Hg & Hr). apply bind_Some in Hr as (pr1 & H1 & Hr).
  destruct (po_group _ _ Hother _ _ Hp) as (g0 & s & Hg0 & Hs & Hok). replace g0 with g in * by (cbn in *; congruence).
  apply (insert_group_routes_ok _ specs) in H1; [|done].
  destruct (IH _ _ H1 Hr) as (l & Hl & Hpr'). eexists ((q, _) :: l). split; [|exact Hpr'].
  constructor; [|done]. split; [done|]. exists s. split; [done|]. cbn [snd].
  rewrite (go_spec _ _ _ Hok). unfold map_spec, spec_of_routes. cbn [ps_methods ps_fallback]. by rewrite methods_of_layer.
Qed.

Lemma all_entries other : Forall (λ e, path_index other !! e.1 = Some e.2) (btree_iter (path_index other)).
Proof. apply Forall_forall. intros [p i] Hin. by apply elem_of_btree_iter. Qed.

Lemma map_spec_id s : map_spec (λ x, x) s = s.
Proof. destruct s as [m f]. unfold map_spec. cbn. f_equal; [apply (map_fmap_id m)|by destruct f]. Qed.

(** The list of what is inserted, as a map. *)
Lemma inserted_lookup at_ f other others l q s :
  paths_ok other others →
  Forall2 (inserted at_ f others) (btree_iter (path_index other)) l →
  (q, s) ∈ l ↔ ∃ p s0, at_ p = Some q ∧ others !! p = Some s0 ∧ s = map_spec f s0.
Proof.
  intros Ho Hl. split.
  - intros [j Hj]%list_elem_of_lookup_1. destruct (Forall2_lookup_r _ _ _ _ _ Hl Hj) as ([p i] & _ & Hat & s0 & Hs0 & Hs).
    cbn [fst snd] in *. eauto.
  - intros (p & s0 & Hat & Hs0 & ->). destruct (path_index other !! p) as [i|] eqn:E; [|by rewrite (po_none _ _ Ho _ E) in Hs0].
    apply elem_of_btree_iter, list_elem_of_lookup_1 in E as [j Hj].
    destruct (Forall2_lookup_l _ _ _ _ _ Hl Hj) as ([q' s'] & Hq & Hat' & s1 & Hs1 & Hs'). cbn [fst snd] in *.
    apply list_elem_of_lookup. exists j. rewrite Hq. simplify_eq. congruence.
Qed.

Lemma inserted_nodup at_ f other others l :
  Forall2 (inserted at_ f others) (btree_iter (path_index other)) l →
  (∀ p p' q, at_ p = Some q → at_ p' = Some q → p = p') → NoDup l.*1.
Proof.
  intros Hl Hinj. pose proof (NoDup_btree_keys (path_index other)) as Hnd. rewrite <- btree_iter_keys in Hnd.
  induction Hl as [|e q es l [Hat _] Hl IH]; [constructor|]. cbn in *. apply NoDup_cons in Hnd as [Hni Hnd].
  apply NoDup_cons. split; [|by apply IH]. intros (q' & Hq & [j Hj]%list_elem_of_lookup_1)%list_elem_of_fmap.
  destruct (Forall2_lookup_r _ _ _ _ _ Hl Hj) as (e' & He' & Hat' & _). apply Hni. rewrite (Hinj _ e'.1 _ Hat); [|congruence].
  apply list_elem_of_fmap. exists e'. split; [done|]. by eapply list_elem_of_lookup_2.
Qed.

Lemma merge_ok pr specs other others dflt pr' :
  paths_ok pr specs → paths_ok other others → PathRouter_merge other dflt pr = Some pr' →
  paths_ok pr' (spec_merge dflt specs others).
Proof.
  intros H Ho Hm. destruct (insert_groups_ok _ _ _ _ _ _ _ _ _ Ho (all_entries other) H Hm) as (l & Hl & Hpr').
  assert (NoDup l.*1) as Hnd by (eapply inserted_nodup; [exact Hl|congruence]).
  rewrite insert_all_merge in Hpr' by done. replace others with (list_to_map l : gmap rstr PathSpec); [done|].
  apply map_eq. intros q. apply option_eq. intros s. rewrite <- elem_of_list_to_map, (inserted_lookup _ _ _ _ _ _ _ Ho Hl) by done.
  split; [intros (p & s0 & [= ->] & Hs0 & ->); by rewrite map_spec_id|]. intros Hs. exists q, s. by rewrite map_spec_id.
Qed.

Lemma join_paths_mounted prefix p q : join_paths prefix p = Some q → q = mounted_path prefix p ∧ p ≠ [].
Proof.
  unfold join_paths, mounted_path. destruct (str_eqb_spec p (lit "/")) as [->|_]; [by intros [= <-]|].
  intros H. apply bind_Some in H as (p' & Hp & [= <-]). unfold normalize_path in Hp. destruct p; [done|].
  cbn [str_is_empty] in Hp. destruct (negb _); [done|]. destruct (validate_path_segments _); [|done]. injection Hp as <-. by split.
Qed.

Lemma mounted_path_inj prefix p p' : p ≠ [] → p' ≠ [] → mounted_path prefix p = mounted_path prefix p' → p = p'.
Proof.
  intros Hp Hp'. unfold mounted_path.
  destruct (str_eqb_spec p (lit "/")) as [->|_], (str_eqb_spec p' (lit "/")) as [->|_]; [done|..]; intros Heq.
  - rewrite <- (app_nil_r prefix) in Heq at 1. by apply app_inv_head in Heq as <-.
  - symmetry in Heq. rewrite <- (app_nil_r prefix) in Heq at 1. by apply app_inv_head in Heq as <-.
  - by apply app_inv_head in Heq.
Qed.

Lemma mounted_nodup prefix others :
  (∀ p s, others !! p = Some s → p ≠ []) →
  NoDup ((λ ps, (mounted_path prefix ps.1, map_spec (strip_prefix_service prefix) ps.2)) <$> map_to_list others).*1.
Proof.
  intros Hne. match goal with |- NoDup ?x => replace x with (mounted_path prefix <$> (map_to_list others).*1) by by rewrite <- !list_fmap_compose end.
  apply NoDup_fmap_2_strong; [|apply NoDup_fst_map_to_list].
  intros p p' ([? s0] & -> & Hs%elem_of_map_to_list)%list_elem_of_fmap ([? s1] & -> & Hs'%elem_of_map_to_list)%list_elem_of_fmap.
  cbn [fst]. apply mounted_path_inj; by eapply Hne.
Qed.

Lemma mounted_lookup prefix others p s :
  (∀ p s, others !! p = Some s → p ≠ []) → others !! p = Some s →
  mounted prefix others !! mounted_path prefix p = Some (map_spec (strip_prefix_service prefix) s).
Proof.
  intros Hne Hs. apply elem_of_list_to_map_1; [by apply mounted_nodup|]. apply list_elem_of_fmap. exists (p, s).
  split; [done|]. by apply elem_of_map_to_list.
Qed.

Lemma nest_ok pr specs prefix other others dflt pr' :
  paths_ok pr specs → paths_ok other others → PathRouter_nest prefix other dflt pr = Some pr' →
  paths_ok pr' (spec_merge dflt specs (mounted prefix others)) ∧ ∀ p s, others !! p = Some s → join_paths prefix p = Some (mounted_path prefix p) ∧ p ≠ [].
Proof.
  intros H Ho Hm. destruct (insert_groups_ok _ _ _ _ _ _ _ _ _ Ho (all_entries other) H Hm) as (l & Hl & Hpr').
  assert (∀ p p' q, join_paths prefix p = Some q → join_paths prefix p' = Some q → p = p') as Hinj.
  { intros p p' q [-> Hp]%join_paths_mounted [Hq Hp']%join_paths_mounted. by apply mounted_path_inj in Hq. }
  assert (NoDup l.*1) as Hnd by (eapply inserted_nodup; [exact Hl|exact Hinj]).
  assert (∀ p s, others !! p = Some s → join_paths prefix p = Some (mounted_path prefix p) ∧ p ≠ []) as Hat.
  { intros p s Hs. destruct (path_index other !! p) as [i|] eqn:E; [|by rewrite (po_none _ _ Ho _ E) in Hs].
    apply elem_of_btree_iter, list_elem_of_lookup_1 in E as [j Hj].
    destruct (Forall2_lookup_l _ _ _ _ _ Hl Hj) as (q & _ & Hat & _). cbn [fst] in Hat.
    destruct (join_paths_mounted _ _ _ Hat) as [<- ?]. done. }
  split; [|exact Hat].
  rewrite insert_all_merge in Hpr' by done. replace (mounted prefix others) with (list_to_map l : gmap rstr PathSpec); [done|].
  apply map_eq. intros q. apply option_eq. intros s. unfold mounted.
  rewrite <- !elem_of_list_to_map, (inserted_lookup _ _ _ _ _ _ _ Ho Hl); [..|done].
  - rewrite list_elem_of_fmap. split.
    + intros (p & s0 & Hp & Hs0 & ->). exists (p, s0). destruct (Hat _ _ Hs0) as [Hp' _]. cbn [fst snd].
      split; [congruence|]. by apply elem_of_map_to_list.
    + intros ([p s0] & [= -> ->] & Hs0%elem_of_map_to_list). exists p, s0. by destruct (Hat _ _ Hs0).
  - apply mounted_nodup. intros p s0 Hs0. by destruct (Hat _ _ Hs0).
Qed.

(** ** Whole routers *)

Record router_ok (r : Router) sp : Prop :=
  { ro_paths : paths_ok (path_router r) (rs_paths sp);
    ro_fallback : rt_fallback r = rs_fallback sp;
    ro_default : rt_method_not_allowed r = rs_default sp }.

Lemma normalize_path_id p q : normalize_path p = Some q → q = p.
Proof.
  unfold normalize_path. destruct (str_is_empty p); [done|]. destruct (negb _); [done|].
  destruct (validate_path_segments p); [|done]. congruence.
Qed.

Lemma normalize_nest_prefix_id p q : normalize_nest_prefix p = Some q → q = trim_slashes p.
Proof.
  intros H. apply bind_Some in H as (p' & ->%normalize_path_id & H). unfold trim_slashes.
  cbv zeta in H. destruct (_ || _); [done|]. destruct (existsb _ _); [done|]. by injection H.
Qed.

Lemma route_ok r sp path mr r' :
  router_ok r sp → Router_route path mr r = Some r' →
  router_ok r' (add_paths {[path := spec_of_routes (endpoints mr) (mr_fallback mr)]} sp).
Proof.
  intros [H1 H2 H3] H. apply bind_Some in H as (path' & ->%normalize_path_id & H). apply bind_Some in H as (pr & Hpr & [= <-]).
  split; [|done..]. apply (insert_group_routes_ok _ _ _ _ _ _ _ H1) in Hpr. cbn [add_paths rs_paths with_path_router path_router].
  rewrite <- H3.
  pose proof (insert_all_merge (rt_method_not_allowed r) (rs_paths sp) [(path, spec_of_routes (endpoints mr) (mr_fallback mr))]) as Hall.
  cbn [foldl] in Hall. rewrite Hall in Hpr; [|apply NoDup_singleton]. by rewrite list_to_map_cons, list_to_map_nil in Hpr.
Qed.

Lemma add_paths_twice p s others sp :
  others !! p = None → add_paths others (add_paths {[p := s]} sp) = add_paths (<[p := s]> others) sp.
Proof.
  intros Hp. unfold add_paths. cbn [rs_paths rs_default rs_fallback]. f_equal. apply map_eq. intros q.
  unfold spec_merge. rewrite !lookup_merge. destruct (decide (p = q)) as [<-|Hne].
  - rewrite Hp, lookup_singleton_eq, lookup_insert_eq. by destruct (rs_paths sp !! p).
  - rewrite lookup_singleton_ne, lookup_insert_ne by done. by destruct (rs_paths sp !! q), (others !! q).
Qed.

Lemma layer_ok (f : RouteGroup → RouteGroup) (F : PathSpec → PathSpec) pr specs :
  paths_ok pr specs → (∀ path g s, group_ok path g s → group_ok path (f g) (F s)) → paths_ok (map_groups f pr) (F <$> specs).
Proof.
  intros [H1 H2 H3] Hf. split; cbn [map_groups pr_routes path_index route_groups]; [done|..].
  - intros p i Hp. destruct (H2 _ _ Hp) as (g & s & Hg & Hs & Hok). exists (f g), (F s).
    rewrite list_lookup_fmap, Hg, lookup_fmap, Hs. auto.
  - intros p Hp. by rewrite lookup_fmap, H3.
Qed.

Lemma not_allowed_group path g s :
  group_ok path g s → default (MethodNotAllowed (rg_allow_header g)) (rg_fallback g) = not_allowed s.
Proof.
  intros [_ _ Ha ->]. unfold not_allowed, spec_of_routes. cbn [ps_fallback ps_methods].
  by rewrite dom_methods_of, (from_methods_allow _ _ Ha).
Qed.

Lemma app_longer p x : x ≠ [] → p ++ x ≠ p.
Proof. intros Hx Heq. apply Hx, (app_inv_head p). by rewrite app_nil_r. Qed.

Lemma build_ok b r : build b = Some r → router_ok r (denote b).
Proof.
  revert r. induction b as [|path m b IH|prefix inner IH' b IH|other IH' b IH|prefix s b IH|s b IH|b IH|s b IH|f b IH|f b IH];
    intros r H; cbn [build] in H; cbn [denote].
  - injection H as <-. split; [apply new_paths_ok|done..].
  - apply bind_Some in H as (r0 & H0 & H). apply bind_Some in H as (mr & Hm & H). rewrite Hm. cbn [spec_of]. by eapply route_ok; [apply IH|].
  - apply bind_Some in H as (r0 & H0 & H). apply bind_Some in H as (r1 & Hr1 & H). destruct (IH _ H0) as [H1 H2 H3].
    apply bind_Some in H as (q & ->%normalize_nest_prefix_id & H). apply bind_Some in H as (pr & Hpr & [= <-]).
    destruct (nest_ok _ _ _ _ _ _ _ H1 (ro_paths _ _ (IH' _ Hr1)) Hpr) as [Hok _]. split; [|done..]. cbn. by rewrite <- H3.
  - apply bind_Some in H as (r0 & H0 & H). apply bind_Some in H as (r1 & Hr1 & H). destruct (IH _ H0) as [H1 H2 H3].
    destruct (IH' _ Hr1) as [H1' H2' H3']. apply bind_Some in H as (fb & Hfb & H). apply bind_Some in H as (pr & Hpr & [= <-]).
    rewrite <- H2, <- H2', Hfb. split; [|done..]. cbn in Hpr |- *. rewrite <- H3. by eapply merge_ok.
  - apply bind_Some in H as (r0 & H0 & H). apply bind_Some in H as (q & ->%normalize_nest_prefix_id & H).
    apply bind_Some in H as (mr & Hm & H). apply bind_Some in H as (r1 & Hr1 & H). apply bind_Some in H as (r2 & Hr2 & H).
    apply (route_ok _ _ _ _ _ (IH _ H0)) in Hr1. apply (route_ok _ _ _ _ _ Hr1) in Hr2. apply (route_ok _ _ _ _ _ Hr2) in H.
    assert (spec_of_routes (endpoints mr) (mr_fallback mr) =
      {| ps_methods := {[None := strip_prefix_service (trim_slashes prefix) s]}; ps_fallback := None |}) as Hs.
    { apply bind_Some in Hm as (a & _ & [= <-]). done. }
    rewrite Hs in H. unfold service_paths. rewrite add_paths_twice in H by (apply lookup_singleton_None; by intros [=]%app_inv_head).
    rewrite add_paths_twice in H; [done|]. by rewrite lookup_insert_ne, lookup_singleton_ne by (by apply app_longer).
  - apply fmap_Some in H as (r0 & [H1 H2 H3]%IH & ->). by split.
  - apply fmap_Some in H as (r0 & [H1 H2 H3]%IH & ->). by split.
  - apply fmap_Some in H as (r0 & [H1 H2 H3]%IH & ->). split; [|done..]. cbn.
    eapply layer_ok; [done|]. intros path g s0 [G1 G2 G3 ->]. by split.
  - apply fmap_Some in H as (r0 & [H1 H2 H3]%IH & ->). split; [|cbn; congruence..]. cbn [path_router Router_layer with_fallback with_path_router].
    eapply layer_ok; [done|]. intros path g s0 Hok. pose proof (not_allowed_group _ _ _ Hok) as Hna. destruct Hok as [G1 G2 G3 ->].
    split; cbn; [done|by rewrite methods_layer..|]. rewrite Hna. unfold spec_of_routes. cbn. by rewrite methods_of_layer.
  - apply bind_Some in H as (r0 & [H1 H2 H3]%IH & H). unfold Router_route_layer in H. destruct (has_routes _); [|done]. injection H as <-.
    split; [|done..]. cbn. eapply layer_ok; [done|]. intros path g s0 [G1 G2 G3 ->].
    split; cbn; [done|by rewrite methods_layer..|]. unfold spec_of_routes. cbn. by rewrite methods_of_layer.
Qed.

Lemma find_route_spec path g s method :
  group_ok path g s →
  (match find_route method (rg_routes g) with
   | Some service => service
   | None => default (MethodNotAllowed (rg_allow_header g)) (rg_fallback g)
   end) = spec_endpoint s method.
Proof.
  intros Hok. rewrite (not_allowed_group _ _ _ Hok). destruct Hok as [_ _ _ ->]. unfold find_route, spec_endpoint.
  cbn [spec_of_routes ps_methods]. rewrite !for_method_lookup. destruct (methods_of _ !! Some method); [done|].
  destruct (str_eqb method HEAD); [|by destruct (_ !! None)]. destruct (_ !! Some GET); [done|]. by destruct (_ !! None).
Qed.

Lemma match_service_spec r sp rq :
  router_ok r sp →
  match_service (path_router r) rq =
  match spec_match sp (uri_path (rq_uri rq)) with
  | Some (p, params, s) => (Some (spec_endpoint s (rq_method rq)), with_match (Some p) (Some (from_pairs params)) rq)
  | None => (None, with_match None None rq)
  end.
Proof.
  intros [H _ _]. unfold match_service, spec_match.
  rewrite m_at_select, (po_routes _ _ H), (paths_ok_dom _ _ H).
  destruct (m_select _ _) as [[p params]|] eqn:E; [|done]. cbn [mbind option_bind].
  apply m_select_in in E as [Hin _]. rewrite <- (paths_ok_dom _ _ H) in Hin. apply elem_of_dom in Hin as [i Hi]. rewrite Hi.
  cbn [mbind option_bind]. destruct (po_group _ _ H _ _ Hi) as (g & s & -> & -> & Hok). cbn [mbind option_bind].
  by rewrite (find_route_spec _ _ _ _ Hok), (go_path _ _ _ Hok).
Qed.

Lemma router_call_spec r sp rq w : router_ok r sp → Router_call r rq w = spec_call sp rq w.
Proof.
  intros H. unfold Router_call, spec_call. cbv zeta. rewrite (match_service_spec _ _ _ H).
  destruct (spec_match _ _) as [[[p params] s]|]; [done|]. cbn [default]. by rewrite (ro_fallback _ _ H).
Qed.

(** C31: A router is the map it was written as. However routes, nested and merged routers,
    nested services, layers and fallbacks are put together, a router that can be built
    answers every request as the finite map of its paths to their methods does: the
    service of the selected path for the request's method, GET's for HEAD when it has
    none of its own, the one for any method, the path's fallback, or 405 with exactly
    the path's methods; and the fallback when no path is selected. *)
Theorem router_refines_map b r rq w : build b = Some r → Router_call r rq w = spec_call (denote b) rq w.
Proof. intros H. by apply router_call_spec, build_ok. Qed.

(** ** What a nested router sees *)

Lemma segments_nonempty a : segments a ≠ [].
Proof. unfold segments. destruct a as [|c a]; [done|]. cbn [split_on]. destruct (47 =? c); [done|]. by destruct (split_on _ a). Qed.

Lemma segments_app a b : segments (a ++ 47 :: b) = segments a ++ segments b.
Proof.
  unfold segments. induction a as [|c a IH]; [done|]. cbn [app split_on]. rewrite IH.
  destruct (47 =? c); [done|]. by destruct (split_on (N.eqb 47) a) eqn:E; [destruct (segments_nonempty a)|].
Qed.

Lemma segments_join a : join (lit "/") (segments a) = a.
Proof.
  unfold segments. induction a as [|c a IH]; [done|]. cbn [split_on].
  assert (split_on (N.eqb 47) a ≠ []) as Hne by apply segments_nonempty.
  destruct (N.eqb_spec 47 c) as [<-|Hc].
  - destruct (split_on (N.eqb 47) a) as [|x l] eqn:E; [done|]. change (join (lit "/") ([] :: x :: l)) with (lit "/" ++ join (lit "/") (x :: l)).
    by rewrite IH.
  - destruct (split_on (N.eqb 47) a) as [|x [|y l]] eqn:E; [done|..]; cbn [join app] in *; by rewrite IH.
Qed.

Lemma join_app vs ws : vs ≠ [] → ws ≠ [] → join (lit "/") (vs ++ ws) = join (lit "/") vs ++ lit "/" ++ join (lit "/") ws.
Proof.
  intros Hv Hw. induction vs as [|v [|v' vs] IH]; [done|..].
  - cbn [app join]. by destruct ws.
  - specialize (IH ltac:(done)). change (join (lit "/") ((v :: v' :: vs) ++ ws)) with (v ++ lit "/" ++ join (lit "/") ((v' :: vs) ++ ws)).
    rewrite IH. change (join (lit "/") (v :: v' :: vs)) with (v ++ lit "/" ++ join (lit "/") (v' :: vs)). by rewrite !app_assoc.
Qed.

Lemma find_unescaped_skip needle c (s : rstr) :
  (c =? needle) = false → find_unescaped needle (c :: s) = S <$> find_unescaped needle s.
Proof. intros Hc. destruct s as [|d s]; cbn; by rewrite Hc. Qed.

Lemma find_unescaped_first needle (a s : rstr) :
  lacks needle a = true → (∀ s' : rstr, s ≠ needle :: s') → find_unescaped needle (a ++ needle :: s) = Some (length a).
Proof.
  intros Ha Hs. induction a as [|c a IH]; cbn [app length].
  - cbn. rewrite N.eqb_refl. destruct s as [|c s]; [done|]. destruct (N.eqb_spec c needle) as [->|]; [|done]. by destruct (Hs s).
  - cbn in Ha. apply andb_true_iff in Ha as [Hc%negb_true_iff Ha]. by rewrite find_unescaped_skip, IH.
Qed.

Lemma find_unescaped_none needle (s : rstr) : lacks needle s = true → find_unescaped needle s = None.
Proof.
  induction s as [|c s IH]; [done|]. intros H. cbn in H. apply andb_true_iff in H as [Hc%negb_true_iff Hs].
  by rewrite find_unescaped_skip, IH.
Qed.

(** A segment of a prefix: text, or one capture with text around it. *)
Definition simple_segment (p : rstr) : Prop :=
  plain p ∨ ∃ a name b, plain a ∧ plain name ∧ plain b ∧ p = a ++ 123 :: name ++ 125 :: b.

Lemma plain_lacks (s : rstr) : plain s → lacks 123 s = true ∧ lacks 125 s = true.
Proof. unfold plain. intros H%Is_true_true. by apply andb_true_iff in H. Qed.

Lemma plain_head (s : rstr) c (s' : rstr) : plain s → s = c :: s' → c ≠ 123 ∧ c ≠ 125.
Proof.
  intros [H1 H2]%plain_lacks ->. cbn in *. apply andb_true_iff in H1 as [H1%negb_true_iff _], H2 as [H2%negb_true_iff _].
  by apply N.eqb_neq in H1, H2.
Qed.

Lemma unescape_plain (s : rstr) : plain s → unescape s = s.
Proof.
  intros [H1 H2]%plain_lacks. induction s as [|c [|d s] IH]; [done..|]. cbn in H1, H2.
  apply andb_true_iff in H1 as [Hc1%negb_true_iff H1], H2 as [Hc2%negb_true_iff H2].
  cbn [unescape]. rewrite Hc1, Hc2, andb_false_r. f_equal. by apply IH.
Qed.

Lemma capture_of_plain (s : rstr) : plain s → capture_prefix_suffix s = None.
Proof. intros [H1 _]%plain_lacks. unfold capture_prefix_suffix. by rewrite (find_unescaped_none 123 s H1). Qed.

Lemma capture_of_segment a name b :
  plain a → plain name → plain b → capture_prefix_suffix (a ++ 123 :: name ++ 125 :: b) = Some (a, b).
Proof.
  intros Ha Hn Hb. destruct (plain_lacks _ Ha) as [Ha1 Ha2], (plain_lacks _ Hn) as [_ Hn2].
  unfold capture_prefix_suffix.
  rewrite (find_unescaped_first 123 a (name ++ 125 :: b) Ha1) by (intros s' Hs';
    destruct name as [|c name]; [done|]; injection Hs' as -> _; by destruct (plain_head _ 123 name Hn eq_refl)).
  replace (a ++ 123 :: name ++ 125 :: b) with ((a ++ 123 :: name) ++ 125 :: b) by by rewrite <- app_assoc.
  rewrite (find_unescaped_first 125 (a ++ 123 :: name) b); [|rewrite lacks_app, Ha2; exact Hn2|].
  - cbn [mbind option_bind]. rewrite length_app. cbn [length].
    rewrite (proj2 (Nat.ltb_lt _ _)) by lia. rewrite <- app_assoc, take_app_length. f_equal. f_equal.
    replace (S (length a + S (length name))) with (length (a ++ 123 :: name ++ [125])) by (rewrite length_app; cbn; rewrite length_app; cbn; lia).
    replace (a ++ (123 :: name) ++ 125 :: b) with ((a ++ 123 :: name ++ [125]) ++ b) by (rewrite <- app_assoc; cbn; by rewrite <- app_assoc).
    by rewrite drop_app_length.
  - intros s' ->. by destruct (plain_head _ 125 s' Hb eq_refl).
Qed.

Lemma unescape_capture a name b :
  plain a → plain name → plain b → unescape (a ++ 123 :: name ++ 125 :: b) = a ++ 123 :: name ++ 125 :: b.
Proof.
  intros Ha Hn Hb.
  assert (∀ (s t : rstr) c, plain s → c = 123 ∨ c = 125 → (∀ t' : rstr, t ≠ c :: t') → unescape (s ++ c :: t) = s ++ c :: unescape t) as Hstep.
  { intros s t c Hs Hc Ht. induction s as [|x s IH].
    - destruct t as [|y t]; [done|]. cbn [app unescape]. destruct (N.eqb_spec c y) as [->|Hne]; [by destruct (Ht t)|done].
    - cbn [app]. destruct (plain_head _ x s Hs eq_refl) as [Hx1%N.eqb_neq Hx2%N.eqb_neq].
      assert (plain s) as Hs'. { unfold plain in *. cbn in Hs. rewrite Hx1, Hx2 in Hs. done. }
      specialize (IH Hs'). destruct (s ++ c :: t) as [|y r] eqn:E; [by destruct s|].
      change (unescape (x :: y :: r)) with (if (x =? y) && ((x =? 123) || (x =? 125)) then x :: unescape r else x :: unescape (y :: r)).
      rewrite Hx1, Hx2, andb_false_r. by rewrite IH. }
  rewrite Hstep; [|done|by left|].
  - rewrite Hstep; [|done|by right|]; [by rewrite (unescape_plain b)|]. intros t' ->. by destruct (plain_head _ 125 t' Hb eq_refl).
  - intros t' Ht'. destruct name as [|c name]; [done|]. injection Ht' as -> _. by destruct (plain_head _ 123 name Hn eq_refl).
Qed.

Lemma starts_with_app' (a s : rstr) : starts_with a (a ++ s) = true.
Proof. unfold starts_with. by rewrite strip_prefix_app. Qed.
Lemma ends_with_app' (a s : rstr) : ends_with a (s ++ a) = true.
Proof. unfold ends_with. by rewrite strip_suffix_app. Qed.

Lemma segment_matches_stands p v : simple_segment p → segment_stands p v → segment_matches p v = true.
Proof.
  intros [Hp|(a & name & b & Ha & Hn & Hb & ->)] Hv; unfold segment_matches.
  - rewrite capture_of_plain by done. destruct Hv as [(a & name & b & u & Ha & _ & _ & -> & _)| ->].
    + apply plain_lacks in Hp as [Hp _]. rewrite lacks_app in Hp. cbn in Hp. by rewrite andb_false_r in Hp.
    + rewrite unescape_plain by done. apply str_eqb_refl.
  - rewrite capture_of_segment by done.
    assert (∃ u, v = a ++ u ++ b) as [u ->].
    { destruct Hv as [(a' & name' & b' & u & Ha' & Hn' & Hb' & Heq & _ & ->)| ->].
      - pose proof (capture_of_segment a name b Ha Hn Hb) as H1. rewrite Heq, capture_of_segment in H1 by done.
        injection H1 as -> ->. by exists u.
      - rewrite unescape_capture by done. exists (123 :: name ++ [125]). cbn. by rewrite <- app_assoc. }
    rewrite starts_with_app', (app_assoc a u b), ends_with_app', andb_true_r, andb_true_r. apply Nat.leb_le. rewrite !length_app. lia.
Qed.

Definition joined_length (vs : list rstr) : nat := foldr (λ v n, (1 + length v + n)%nat) 0%nat vs.

Lemma matched_len_stands ps vs ws :
  Forall simple_segment ps → Forall2 segment_stands ps vs → matched_len ps (vs ++ ws) = Some (joined_length vs).
Proof.
  intros Hps Hvs. induction Hvs as [|p v ps vs Hp Hvs IH]; [done|]. apply Forall_cons in Hps as [Hs Hps].
  cbn [matched_len app joined_length foldr]. rewrite (segment_matches_stands p v), (IH Hps) by done. done.
Qed.

Lemma joined_length_cons v vs : joined_length (v :: vs) = (1 + length v + joined_length vs)%nat.
Proof. done. Qed.

Lemma joined_length_segments m : joined_length (segments m) = S (length m).
Proof.
  unfold segments. induction m as [|c m IH]; [done|]. cbn [split_on]. destruct (47 =? c).
  - rewrite joined_length_cons, IH. done.
  - pose proof (segments_nonempty m) as Hne. unfold segments in Hne. destruct (split_on (N.eqb 47) m) as [|v vs]; [done|].
    rewrite joined_length_cons in *. cbn [length]. lia.
Qed.

Lemma segments_slash m : segments (47 :: m) = [] :: segments m.
Proof. apply (segments_app []). Qed.

Lemma segment_stands_nil v : segment_stands [] v → v = [].
Proof. intros [(a & name & b & u & _ & _ & _ & H & _)| ->]; [by destruct a|done]. Qed.

Lemma mount_slash prefix mount :
  Forall2 segment_stands (segments (47 :: prefix)) (segments mount) →
  ∃ m, mount = 47 :: m ∧ Forall2 segment_stands (segments prefix) (segments m).
Proof.
  rewrite segments_slash. intros H. apply Forall2_cons_inv_l in H as (v & vs & ->%segment_stands_nil & H & Heq).
  destruct mount as [|c m].
  { injection Heq as <-. apply Forall2_nil_inv_r in H. by destruct (segments_nonempty prefix). }
  destruct (N.eqb_spec 47 c) as [<-|Hc].
  - rewrite segments_slash in Heq. injection Heq as <-. by exists m.
  - exfalso. unfold segments in Heq. cbn [split_on] in Heq. apply N.eqb_neq in Hc. rewrite Hc in Heq.
    by destruct (split_on (N.eqb 47) m).
Qed.

Lemma mount_stripped prefix mount rest :
  Forall simple_segment (segments (47 :: prefix)) → Forall2 segment_stands (segments (47 :: prefix)) (segments mount) →
  (rest = [] ∨ ∃ r, rest = 47 :: r) → matching_prefix_len (mount ++ rest) (47 :: prefix) = Some (length mount).
Proof.
  intros Hs Hm Hrest. destruct (mount_slash _ _ Hm) as (m & -> & Hm'). rewrite segments_slash in Hs. apply Forall_cons in Hs as [_ Hs].
  unfold matching_prefix_len. cbn [app strip_prefix]. change (strip_prefix (lit "/") (47 :: m ++ rest)) with (Some (m ++ rest)).
  change (strip_prefix (lit "/") (47 :: prefix)) with (Some prefix). cbn [mbind option_bind].
  assert (∃ ws, segments (m ++ rest) = segments m ++ ws) as [ws ->].
  { destruct Hrest as [->|[r ->]]; [exists []; by rewrite !app_nil_r|exists (segments r); apply segments_app]. }
  rewrite matched_len_stands by done. by rewrite joined_length_segments.
Qed.

Lemma segments_lack a : Forall (λ v, lacks 47 v = true) (segments a).
Proof.
  unfold segments. induction a as [|c a IH]; [by constructor|]. cbn [split_on]. destruct (N.eqb_spec 47 c) as [<-|Hc]; [by constructor|].
  apply not_eq_sym, N.eqb_neq in Hc.
  destruct (split_on (N.eqb 47) a) as [|v vs]; [|apply Forall_cons in IH as [Hv IH]]; (constructor; [|done]);
    unfold lacks; cbn [forallb]; rewrite Hc; [done|exact Hv].
Qed.

Lemma join_segments vs : vs ≠ [] → Forall (λ v, lacks 47 v = true) vs → segments (join (lit "/") vs) = vs.
Proof.
  intros Hne Hvs. assert (∀ v, lacks 47 v = true → forallb (λ c, negb (47 =? c)) v = true) as Hl.
  { intros v. unfold lacks. rewrite !forallb_forall. intros H c Hc. rewrite N.eqb_sym. by apply H. }
  induction Hvs as [|v [|v' vs] Hv Hvs IH]; [done|..].
  - cbn [join]. by apply split_on_piece, Hl.
  - change (join (lit "/") (v :: v' :: vs)) with (v ++ 47 :: join (lit "/") (v' :: vs)). unfold segments.
    rewrite split_on_app by auto. f_equal. by apply IH.
Qed.

Lemma segment_stands_refl_nil : segment_stands [] [].
Proof. by right. Qed.

(** A path that a mounted pattern matches is a mount and a rest, and the inner pattern
    matches the rest. *)
Lemma mounted_path_stands prefix p path :
  existsb (λ segment, starts_with (lit "{*") segment && ends_with (lit "}") segment) (segments prefix) = false →
  (p = lit "/" ∨ ∃ p', p = 47 :: p') → pattern_stands (mounted_path prefix p) path →
  ∃ mount rest, path = mount ++ rest ∧ (rest = [] ∨ ∃ r, rest = 47 :: r) ∧
    Forall2 segment_stands (segments prefix) (segments mount) ∧ pattern_stands p (if str_is_empty rest then lit "/" else rest).
Proof.
  intros Hwild Hp Hst. unfold mounted_path in Hst. destruct (str_eqb_spec p (lit "/")) as [->|Hne].
  - exists path, []. rewrite app_nil_r. split; [done|]. split; [by left|]. destruct Hst as (ps & vs & <- & <- & [Hst|Hst]).
    + split; [done|]. exists [[]; []], [[]; []]. split; [done|]. split; [done|]. left. repeat constructor; apply segment_stands_refl_nil.
    + destruct Hst as (ps' & c & vs' & tail & Hps & _ & (name & _ & ->) & _). exfalso.
      apply not_true_iff_false in Hwild. apply Hwild, existsb_elem_of. eexists. rewrite Hps. split; [apply elem_of_app; right; by left|].
      change (123 :: 42 :: name ++ [125]) with (lit "{*" ++ name ++ lit "}"). by rewrite starts_with_app', app_assoc, ends_with_app'.
  - destruct Hp as [->|[p' ->]]; [done|]. destruct Hst as (ps & vs & Hps & Hvs & Hst). rewrite segments_app in Hps.
    assert (∃ v1 v2, vs = v1 ++ v2 ∧ v2 ≠ [] ∧ Forall2 segment_stands (segments prefix) v1 ∧
      (Forall2 segment_stands (segments p') v2 ∨ ∃ ps' c vs' tail, segments p' = ps' ++ [c] ∧ v2 = vs' ++ tail ∧ catch_all c ∧ tail ≠ [] ∧ Forall2 segment_stands ps' vs'))
      as (v1 & v2 & -> & Hv2 & Hpre & Hin).
    { destruct Hst as [Hst|(ps' & c & vs' & tail & Hps' & -> & Hc & Ht & Hst)]; subst ps.
      - apply Forall2_app_inv_l in Hst as (v1 & v2 & H1 & H2 & ->). exists v1, v2. split_and!; [done| |done|by left].
        intros ->. apply Forall2_nil_inv_r in H2. by destruct (segments_nonempty p').
      - pose proof (segments_nonempty p') as Hp'. destruct (segments p') as [|x l _] using rev_ind; [done|].
        rewrite app_assoc in Hps'. apply app_inj_tail in Hps' as [<- ->]. apply Forall2_app_inv_l in Hst as (v1 & v2 & H1 & H2 & ->).
        exists v1, (v2 ++ tail). rewrite <- app_assoc. split_and!; [done| |done|].
        + intros [-> ->]%app_eq_nil. done.
        + right. by exists l, c, v2, tail. }
    pose proof (segments_lack path) as Hl. rewrite Hvs in Hl. apply Forall_app in Hl as [Hl1 Hl2].
    assert (v1 ≠ []) as Hv1 by (intros ->; apply Forall2_nil_inv_r in Hpre; by destruct (segments_nonempty prefix)).
    exists (join (lit "/") v1), (lit "/" ++ join (lit "/") v2). split.
    { rewrite <- (segments_join path), Hvs. by apply join_app. }
    split; [right; by eexists|]. rewrite join_segments by done. split; [done|]. cbn [str_is_empty app lit].
    change (if str_is_empty (lit "/" ++ join (lit "/") v2) then lit "/" else lit "/" ++ join (lit "/") v2) with (47 :: join (lit "/") v2).
    exists (segments (47 :: p')), (segments (47 :: join (lit "/") v2)). split; [done|]. split; [done|].
    rewrite !segments_slash, join_segments by done. destruct Hin as [Hin|(ps' & c & vs' & tail & -> & -> & Hc & Ht & Hin)].
    + left. constructor; [apply segment_stands_refl_nil|done].
    + right. exists ([] :: ps'), c, ([] :: vs'), tail. split_and!; try done. constructor; [apply segment_stands_refl_nil|done].
Qed.

Lemma spec_endpoint_mounted prefix s method rq w :
  spec_endpoint (combine (fresh None) (map_spec (strip_prefix_service prefix) s)) method rq w =
  strip_prefix_service prefix (spec_endpoint s method) rq w.
Proof.
  destruct s as [ms fb]. unfold spec_endpoint, combine, not_allowed. cbn [ps_methods ps_fallback map_spec fresh].
  rewrite !(left_id_L ∅ (∪)), dom_fmap_L, !lookup_fmap. destruct (ms !! Some method); [done|].
  destruct (str_eqb method HEAD); cbn [fmap option_fmap option_map]; [destruct (ms !! Some GET); [done|]|];
    (destruct (ms !! None); [done|]); by destruct fb.
Qed.

Lemma normalize_nest_prefix_spec p q :
  normalize_nest_prefix p = Some q →
  (∃ q', q = 47 :: q') ∧ normalize_path q = Some q ∧ q ≠ lit "/" ∧
  existsb (λ segment, starts_with (lit "{*") segment && ends_with (lit "}") segment) (segments q) = false.
Proof.
  unfold normalize_nest_prefix. intros H. apply bind_Some in H as (p' & Hp & H). pose proof (normalize_path_id _ _ Hp) as ->.
  destruct (trim_end_prefix (N.eqb 47) p) as (k & Hk & Hall). cbv zeta in H. set (t := trim_end_matches (N.eqb 47) p) in *.
  destruct (str_is_empty t) eqn:Ht; [done|]. destruct (str_eqb_spec t (lit "/")) as [|Hne]; [done|]. cbn [orb] in H.
  destruct (existsb _ (segments t)) eqn:Hw; [done|]. injection H as <-.
  unfold normalize_path in *. destruct (str_is_empty p); [done|]. rewrite Ht. destruct t as [|c t]; [done|].
  rewrite Hk in Hp. cbn [app] in Hp. unfold starts_with in *. cbn [strip_prefix lit] in *.
  change (strip_prefix (lit "/") (c :: t ++ k)) with (if 47 =? c then Some (t ++ k) else None) in Hp.
  change (strip_prefix (lit "/") (c :: t)) with (if 47 =? c then Some t else None).
  destruct (N.eqb_spec 47 c) as [<-|]; [|done]. cbn [negb] in *.
  split; [by eexists|]. split; [|by split].
  destruct (validate_path_segments (47 :: t ++ k)) eqn:Hv; [|done].
  destruct k as [|x k]; [by rewrite app_nil_r in Hv; rewrite Hv|]. apply Forall_cons in Hall as [<-%N.eqb_eq _].
  change (47 :: t ++ 47 :: k) with ((47 :: t) ++ 47 :: k) in Hv. unfold validate_path_segments in *.
  rewrite segments_app, forallb_app in Hv. apply andb_true_iff in Hv as [Hv _]. by rewrite Hv.
Qed.

(** The request a service below a prefix gets, when the prefix took [mount] of its path. *)
Definition request_below (prefix rest : rstr) rq : IncomingRequest :=
  with_uri {| uri_path := if str_is_empty rest then lit "/" else rest; uri_query := uri_query (rq_uri rq); uri_rest := uri_rest (rq_uri rq) |}
    (Some (default [] (x_nested_path rq) ++ prefix)) rq.

Lemma strip_prefix_service_below prefix inner mount rest rq w :
  normalize_path prefix = Some prefix → prefix ≠ lit "/" → (∃ q, prefix = 47 :: q) → Forall simple_segment (segments prefix) →
  uri_path (rq_uri rq) = mount ++ rest → (rest = [] ∨ ∃ r, rest = 47 :: r) →
  Forall2 segment_stands (segments prefix) (segments mount) →
  strip_prefix_service prefix inner rq w = inner (request_below prefix rest rq) w.
Proof.
  intros Hn Hne [q ->] Hs Hpath Hrest Hm. unfold strip_prefix_service, strip_prefix_from_uri, request_below.
  rewrite Hpath, (mount_stripped _ _ _ Hs Hm Hrest), drop_app_length. f_equal. f_equal. f_equal.
  destruct (x_nested_path rq) as [path|]; [|done]. unfold join_paths.
  destruct (str_eqb_spec (47 :: q) (lit "/")) as [|_]; [done|]. by rewrite Hn.
Qed.

(** C32: A nested router sees the rest of the path. Let a router be nested under a prefix,
    with captures or without, whose segments are simple (no doubled braces:
    [escaped_prefix_not_stripped] shows what happens with them); let the outer router have
    no route at the mounted path and no default method handler (405) of its own. When a
    path of the nested router is the one selected for a request, the
    request's path splits into a mount that the prefix stands for and a rest that the
    nested path stands for ("/" for an empty rest), and the answer is that of the nested
    router's own services to the request with the rest as its path, its query kept and
    the prefix added to its nested path. *)
Theorem nested_router_sees_rest prefix inner b r rq w p s params :
  build (BNest prefix inner b) = Some r → rs_paths (denote inner) !! p = Some s →
  rs_paths (denote b) !! mounted_path (trim_slashes prefix) p = None → rs_default (denote b) = None →
  Forall simple_segment (segments (trim_slashes prefix)) →
  m_select (dom (rs_paths (denote (BNest prefix inner b)))) (uri_path (rq_uri rq)) =
    Some (mounted_path (trim_slashes prefix) p, params) →
  ∃ mount rest, uri_path (rq_uri rq) = mount ++ rest ∧
    Forall2 segment_stands (segments (trim_slashes prefix)) (segments mount) ∧
    pattern_stands p (if str_is_empty rest then lit "/" else rest) ∧
    Router_call r rq w =
      route_future (rq_method rq)
        (spec_endpoint s (rq_method rq)
           (request_below (trim_slashes prefix) rest
              (with_match (Some (mounted_path (trim_slashes prefix) p)) (Some (from_pairs params)) (with_original rq))) w).
Proof.
  intros Hb Hs Hfree Hdef Hsimple Hsel. rewrite (router_call_spec r (denote (BNest prefix inner b))) by (by apply build_ok).
  cbn [build] in Hb. apply bind_Some in Hb as (r0 & H0 & Hb). apply bind_Some in Hb as (r1 & H1 & Hb).
  apply bind_Some in Hb as (q & Hq & Hb). apply bind_Some in Hb as (pr & Hpr & _).
  pose proof (normalize_nest_prefix_id _ _ Hq) as ->. destruct (normalize_nest_prefix_spec _ _ Hq) as (Hslash & Hnorm & Hne & Hwild).
  set (pre := trim_slashes prefix) in *.
  destruct (nest_ok _ _ _ _ _ _ _ (ro_paths _ _ (build_ok _ _ H0)) (ro_paths _ _ (build_ok _ _ H1)) Hpr) as [_ Hkeys].
  assert (p = lit "/" ∨ ∃ p', p = 47 :: p') as Hp.
  { destruct (Hkeys _ _ Hs) as [Hj _]. unfold join_paths in Hj. destruct (str_eqb_spec p (lit "/")) as [->|_]; [by left|right].
    apply bind_Some in Hj as (p' & Hp & _). unfold normalize_path in Hp. destruct p as [|c p]; [done|]. cbn [str_is_empty] in Hp.
    unfold starts_with in Hp. change (strip_prefix (lit "/") (c :: p)) with (if 47 =? c then Some p else None) in Hp.
    destruct (N.eqb_spec 47 c) as [<-|]; [by eexists|done]. }
  destruct (m_select_in _ _ _ _ Hsel) as [_ Hst]. destruct (mounted_path_stands _ _ _ Hwild Hp Hst) as (mount & rest & Hpath & Hrest & Hm & Hin).
  exists mount, rest. split_and!; [done..|]. unfold spec_call, spec_match. cbv zeta.
  change (uri_path (rq_uri (with_original rq))) with (uri_path (rq_uri rq)). rewrite Hsel. cbn [mbind option_bind].
  cbn [denote add_paths rs_paths]. unfold spec_merge. rewrite lookup_merge, Hfree, Hdef. fold pre.
  rewrite (mounted_lookup _ _ _ _ (λ p s H, proj2 (Hkeys p s H)) Hs). cbn [diag_None default mbind option_bind].
  rewrite spec_endpoint_mounted. f_equal. by eapply strip_prefix_service_below.
Qed.

(** ** Method routers *)

Lemma elem_of_methods_of routes m : is_Some (methods_of routes !! m) ↔ m ∈ r_method <$> routes.
Proof. by rewrite <- elem_of_dom, dom_methods_of, elem_of_list_to_set. Qed.

(** A 405 lists what is served. For a method router that has no service for any method,
    however it was put together, the Allow header of its 405 is the sorted list, without
    repeats, of exactly the methods it answers otherwise, HEAD included with GET. *)
Theorem allow_lists_served m mr v :
  mbuild m = Some mr → mr_allow_header mr = AllowValue v →
  ∃ l : gset rstr, from_str (join (lit ", ") (bset_iter l)) = Some v ∧
    ∀ method, method ∈ l ↔ is_Some (find_route method (endpoints mr)).
Proof.
  intros Hm Hv. destruct (mbuild_ok _ _ Hm) as [_ Ha]. apply from_methods_allow in Ha. rewrite Hv in Ha.
  unfold allow_header, allowed_methods in Ha. destruct (decide _) as [|Hany]; [done|]. rewrite elem_of_list_to_set in Hany.
  set (l := _ ∪ _) in Ha. exists l. split; [destruct (from_str _); congruence|]. intros method. unfold find_route. rewrite !for_method_lookup.
  assert (∀ method, Some method ∈ r_method <$> endpoints mr ↔ method ∈ (list_to_set (omap id (elements (list_to_set (r_method <$> endpoints mr) : gset (option rstr)))) : gset rstr)) as Hl.
  { intros method'. rewrite elem_of_list_to_set, list_elem_of_omap. split.
    - intros Hin. exists (Some method'). by rewrite elem_of_elements, elem_of_list_to_set.
    - intros (x & Hx & Hid). cbn in Hid. subst x. by rewrite elem_of_elements, elem_of_list_to_set in Hx. }
  assert (methods_of (endpoints mr) !! None = None) as Hnone.
  { apply eq_None_not_Some. by rewrite elem_of_methods_of. }
  unfold l. rewrite elem_of_union, <- Hl, <- elem_of_methods_of, Hnone.
  destruct (methods_of _ !! Some method) as [sv|] eqn:E; [split; [done|by left]|].
  destruct (str_eqb_spec method HEAD) as [->|Hhead].
  - destruct (decide (Some GET ∈ (list_to_set (r_method <$> endpoints mr) : gset (option rstr)))) as [Hg|Hg];
      rewrite elem_of_list_to_set, <- elem_of_methods_of in Hg.
    + destruct Hg as [g ->]. split; [done|]. intros _. right. by apply elem_of_singleton.
    + apply eq_None_not_Some in Hg. rewrite Hg. split; [intros [[? [=]]|[]%elem_of_empty]|by intros [? [=]]].
  - split; [|by intros [? [=]]]. intros [[? [=]]|Hin]. exfalso. destruct (decide _); [|by apply elem_of_empty in Hin].
    by apply elem_of_singleton in Hin.
Qed.

(** A method router by itself answers as the router that has it at the request's path,
    to the request with the metadata of the match. *)
Theorem method_router_agrees m mr r rq w :
  mbuild m = Some mr → router_of mr = Some r → uri_path (rq_uri rq) = lit "/" →
  Router_call r rq w = MethodRouter_call mr (with_match (Some (lit "/")) (Some (Ok [])) (with_original rq)) w.
Proof.
  intros Hm Hr Hpath. destruct (mbuild_ok _ _ Hm) as [Hnd Ha].
  pose proof (route_ok _ _ _ _ _ (build_ok BNew _ eq_refl) Hr) as Hok. rewrite (router_call_spec _ _ _ _ Hok).
  unfold spec_call, spec_match, MethodRouter_call. cbv zeta. change (uri_path (rq_uri (with_original rq))) with (uri_path (rq_uri rq)).
  rewrite Hpath. assert (rs_paths (add_paths {[lit "/" := spec_of_routes (endpoints mr) (mr_fallback mr)]} (denote BNew)) =
    {[lit "/" := spec_of_routes (endpoints mr) (mr_fallback mr)]}) as ->.
  { cbn [denote add_paths rs_paths rs_default]. apply map_eq. intros q. unfold spec_merge. rewrite lookup_merge, lookup_empty.
    destruct (decide (q = lit "/")) as [->|]; [|by rewrite lookup_singleton_ne].
    rewrite !lookup_singleton_eq. cbn. unfold combine, spec_of_routes. cbn. rewrite (left_id_L ∅ (∪)). by destruct (mr_fallback mr). }
  rewrite m_select_literal by (try done; rewrite dom_singleton_L; by apply elem_of_singleton). cbn [mbind option_bind].
  rewrite lookup_singleton_eq. cbn [mbind option_bind]. f_equal.
  set (g := {| rg_path := lit "/"; rg_routes := endpoints mr; rg_allow_header := mr_allow_header mr; rg_fallback := mr_fallback mr |}).
  rewrite <- (find_route_spec (lit "/") g); [|by split]. done.
Qed.
End router.

(** ** A concrete matcher, for examples

    Literal patterns first, then the first pattern in order whose segments are literals
    or whole captures. *)

Definition ex_segment (p v : rstr) : option (list (rstr * rstr)) :=
  if plain p then if str_eqb p v then Some [] else None
  else name ← strip_prefix (lit "{") p ≫= strip_suffix (lit "}"); if plain name && nonempty v then Some [(name, v)] else None.
Fixpoint ex_segments (ps vs : list rstr) : option (list (rstr * rstr)) :=
  match ps, vs with
  | [], [] => Some []
  | p :: ps, v :: vs => a ← ex_segment p v; b ← ex_segments ps vs; Some (a ++ b)
  | _, _ => None
  end.
Definition ex_select (D : gset rstr) (path : rstr) : option (rstr * list (rstr * rstr)) :=
  if decide (path ∈ D ∧ plain path) then Some (path, [])
  else find_map (λ p, (pair p) <$> ex_segments (segments p) (segments path)) (bset_iter D).

#[local] Instance ex_match : MatchLib :=
  {| MatchRouter := gmap rstr nat; m_new := ∅;
     m_insert := λ p i m, match m !! p with Some _ => None | None => Some (<[p := i]> m) end;
     m_at := λ path m, '(p, ps) ← ex_select (dom m) path; i ← m !! p; Some (i, ps) |}.

Lemma ex_segment_stands p v l : ex_segment p v = Some l → segment_stands p v.
Proof.
  unfold ex_segment. destruct (plain p) eqn:E.
  - destruct (str_eqb_spec p v) as [->|]; [|done]. intros _. right. by rewrite unescape_plain by by apply Is_true_true.
  - intros H. apply bind_Some in H as (name & H & Hn). apply bind_Some in H as (r & Hr & Hs).
    apply strip_prefix_Some in Hr as ->. apply strip_suffix_Some in Hs as ->. destruct (plain name && nonempty v) eqn:E2; [|done].
    apply andb_true_iff in E2 as [Hp Hv]. left. exists [], name, [], v. rewrite app_nil_r. split_and!; try done; [by apply Is_true_true|].
    by destruct v.
Qed.

Lemma segments_in a v c : v ∈ segments a → c ∈ v → c ∈ a.
Proof.
  unfold segments. revert v. induction a as [|x a IH]; intros v; cbn [split_on].
  - by intros ->%list_elem_of_singleton.
  - destruct (47 =? x).
    + intros [->|Hv]%elem_of_cons Hc; [by apply elem_of_nil in Hc|]. right. by eapply IH.
    + destruct (split_on (N.eqb 47) a) as [|u us].
      * intros ->%list_elem_of_singleton ->%list_elem_of_singleton. by left.
      * intros [->|Hv]%elem_of_cons; [|intros Hc; right; by apply (IH v); [right|]].
        intros [->|Hc]%elem_of_cons; [by left|]. right. by apply (IH u); [left|].
Qed.

Lemma plain_segments a v : plain a → v ∈ segments a → plain v.
Proof.
  intros [H1 H2]%plain_lacks Hv. unfold plain. apply Is_true_true, andb_true_iff.
  rewrite !lacks_not_in in *. split; intros Hc; [apply H1|apply H2]; by eapply segments_in.
Qed.

#[local] Instance ex_match_laws : MatchLaws ex_match.
Proof.
  refine (@Build_MatchLaws ex_match (λ m : @MatchRouter ex_match, (m : gmap rstr nat)) ex_select _ _ _ _ _); [done|..|done| |].
  - intros p i m m' H.
    change ((match (m : gmap rstr nat) !! p with Some _ => None | None => Some (<[p := i]> (m : gmap rstr nat)) end) = Some m') in H.
    destruct ((m : gmap rstr nat) !! p) eqn:E; [done|]. by injection H as <-.
  - intros D path p ps. unfold ex_select. case_decide as Hd; [intros [= <- <-]; split; [by apply Hd|]|].
    + exists (segments path), (segments path). split; [done|]. split; [done|]. left. apply Forall2_same_length_lookup.
      split; [done|]. intros i v v' Hv Hv'. replace v' with v by congruence. right.
      rewrite unescape_plain; [done|]. eapply plain_segments; [apply Hd|]. by eapply list_elem_of_lookup_2.
    + intros H. apply find_map_Some in H as (q & Hq & H). apply fmap_Some in H as (l & Hl & [= -> ->]). split; [by apply elem_of_bset_iter|].
      exists (segments q), (segments path). split; [done|]. split; [done|]. left. revert l Hl. generalize (segments path).
      induction (segments q) as [|x xs IH]; intros [|v vs] l Hl; cbn in Hl; [constructor|done|done|].
      apply bind_Some in Hl as (a & Ha & Hl). apply bind_Some in Hl as (b & Hb & _). constructor; [by eapply ex_segment_stands|by eapply IH].
  - intros D p Hp Hpl. unfold ex_select. by rewrite decide_True.
Defined.

(** ** Executions *)

#[local] Existing Instance ex_http.
#[local] Instance ex_http_laws' : HttpLaws ex_http := ex_http_laws.

Definition ex_request (method path : rstr) : IncomingRequest (Rest := ()) (Bytes := ()) (Ext := ()) :=
  {| rq_method := method; rq_uri := {| uri_path := path; uri_query := Some (lit "q=1"); uri_rest := tt |}; rq_headers := []; rq_body := tt;
     x_original_uri := None; x_nested_path := None; x_matched_path := None; x_route_params := None; x_others := tt |}.
Abbreviation ExService := (Service (Value := ()) (Rest := ()) (Bytes := ()) (Ext := ()) (W := list rstr)).

(** A service that writes down the path it sees. *)
Definition ex_service (name : rstr) : ExService := λ rq w, (text_response 200 name, w ++ [uri_path (rq_uri rq)]).
Abbreviation ExBuild := (Build (Value := ()) (Rest := ()) (Bytes := ()) (Ext := ()) (W := list rstr)).
Definition ex_get (name : rstr) := MOn (SelectFilter 1) (ex_service name) MNew.
Definition ex_post (name : rstr) := MOn (SelectMethod POST) (ex_service name) MNew.

Definition ex_inner : ExBuild := BRoute (lit "/users/{id}") (ex_get (lit "user")) (BRoute (lit "/") (ex_get (lit "root")) BNew).
Definition ex_outer : ExBuild := BNest (lit "/api/{v}/") ex_inner (BRoute (lit "/health") (ex_get (lit "health")) BNew).
#[local] Abbreviation call b rq := ((λ r, Router_call (λ s, Ok s) (λ _, 0) r rq []) <$> build b).

Example ex_nested_call :
  call ex_outer (ex_request GET (lit "/api/v1/users/7")) = Some (text_response 200 (lit "user"), [lit "/users/7"]).
Proof. vm_compute. reflexivity. Qed.
Example ex_refused :
  (λ a, (status a.1, h_text (lit "allow") (headers a.1))) <$> call ex_outer (ex_request POST (lit "/api/v1")) = Some (405, Some (lit "GET, HEAD")).
Proof. vm_compute. reflexivity. Qed.

(** Evaluated to whether there is a result, not to the result, which holds services. *)
Definition present {A} (o : option A) : bool := match o with Some _ => true | None => false end.
Lemma present_Some {A} (o : option A) : present o = true → ∃ x, o = Some x.
Proof. destruct o; [by eexists|done]. Qed.

Lemma ex_outer_built : present (build ex_outer) = true.
Proof. vm_compute. reflexivity. Qed.

Lemma router_refines_map_witness :
  ∃ r, build ex_outer = Some r ∧
    spec_call (λ s, Ok s) (λ _, 0) (denote ex_outer) (ex_request GET (lit "/api/v1/users/7")) [] =
      (text_response 200 (lit "user"), [lit "/users/7"]).
Proof.
  destruct (present_Some _ ex_outer_built) as [r E]. exists r. split; [done|].
  rewrite <- (router_refines_map (λ s, Ok s) (λ _, 0) ex_outer r _ _ E). pose proof ex_nested_call as H. rewrite E in H.
  by apply (inj Some) in H.
Defined.

Lemma nested_router_sees_rest_witness :
  ∃ r mount rest, build ex_outer = Some r ∧ lit "/api/v1/users/7" = mount ++ rest ∧
    Forall2 segment_stands (segments (lit "/api/{v}")) (segments mount) ∧ pattern_stands (lit "/users/{id}") rest.
Proof.
  destruct (present_Some _ ex_outer_built) as [r E].
  assert (present (rs_paths (denote ex_inner) !! lit "/users/{id}") = true) as Hs by (vm_compute; reflexivity).
  destruct (present_Some _ Hs) as [s Es].
  destruct (nested_router_sees_rest (λ s, Ok s) (λ _, 0) (lit "/api/{v}/") ex_inner (BRoute (lit "/health") (ex_get (lit "health")) BNew) r
    (ex_request GET (lit "/api/v1/users/7")) [] (lit "/users/{id}") s [(lit "v", lit "v1"); (lit "id", lit "7")])
    as (mount & rest & Hpath & Hm & Hin & _); [exact E|exact Es|vm_compute; reflexivity..| |vm_compute; reflexivity|].
  - clear. change (segments (trim_slashes (lit "/api/{v}/"))) with [[]; lit "api"; lit "{v}"].
    repeat apply Forall_cons_2; [by left..| |by constructor]. right. by exists [], (lit "v"), [].
  - exists r, mount, rest. split; [exact E|]. split; [exact Hpath|]. split; [exact Hm|]. clear r E s Hs Es.
    destruct (str_is_empty rest) eqn:Er; [|done]. destruct rest; [|done]. exfalso. rewrite app_nil_r in Hpath.
    cbn [uri_path rq_uri ex_request] in Hpath. rewrite <- Hpath in Hm.
    apply Forall2_length in Hm. vm_compute in Hm. discriminate.
Defined.

Lemma allow_lists_served_witness :
  ∃ mr v (l : gset rstr), mbuild (MOn (SelectMethod POST) (ex_service (lit "b")) (ex_get (lit "a"))) = Some mr ∧ mr_allow_header mr = AllowValue v ∧
    to_str v = Some (lit "GET, HEAD, POST") ∧ HEAD ∈ l.
Proof.
  set (m := MOn _ _ _). destruct (present_Some (mbuild m) eq_refl) as [mr E].
  assert (mr_allow_header <$> mbuild m = Some (AllowValue (lit "GET, HEAD, POST"))) as Ev by (vm_compute; reflexivity).
  assert ((λ mr, present (find_route HEAD (endpoints mr))) <$> mbuild m = Some true) as Eh by (vm_compute; reflexivity).
  rewrite E in Ev, Eh. apply (inj Some) in Ev, Eh.
  destruct (allow_lists_served m mr _ E Ev) as (l & Hl & Hin). exists mr, (lit "GET, HEAD, POST"), l. split_and!; [done|done|reflexivity|].
  by apply Hin, present_Some.
Defined.

Lemma method_router_agrees_witness :
  ∃ mr r, mbuild (ex_get (lit "a")) = Some mr ∧ router_of mr = Some r ∧
    (status (Router_call (λ s, Ok s) (λ _, 0) r (ex_request POST (lit "/")) []).1) = 405.
Proof.
  destruct (present_Some (mbuild (ex_get (lit "a"))) eq_refl) as [mr E].
  assert ((λ mr, present (router_of mr)) <$> mbuild (ex_get (lit "a")) = Some true) as Hr by (vm_compute; reflexivity).
  assert ((λ mr, status (MethodRouter_call (λ _, 0) mr
    (with_match (Some (lit "/")) (Some (Ok [])) (with_original (ex_request POST (lit "/")))) []).1) <$> mbuild (ex_get (lit "a")) = Some 405)
    as Hs by (vm_compute; reflexivity).
  rewrite E in Hr, Hs. apply (inj Some) in Hr, Hs. destruct (present_Some _ Hr) as [r Er].
  exists mr, r. split; [done|]. split; [done|].
  rewrite (method_router_agrees (λ s, Ok s) (λ _, 0) (ex_get (lit "a")) mr r (ex_request POST (lit "/")) [] E Er eq_refl). exact Hs.
Defined.

(** ** What can go wrong *)

(** A layer fixes the path's 405 with the methods it had: those that are added later are
    served and not listed. *)
Lemma layered_allow_stale :
  (λ a, h_text (lit "allow") (headers a.1)) <$>
    call (BRoute (lit "/x") (ex_post (lit "b")) (BLayer id (BRoute (lit "/x") (ex_get (lit "a")) BNew)) : ExBuild) (ex_request PUT (lit "/x"))
    = Some (Some (lit "GET, HEAD")) ∧
  (λ a, status a.1) <$>
    call (BRoute (lit "/x") (ex_post (lit "b")) (BLayer id (BRoute (lit "/x") (ex_get (lit "a")) BNew)) : ExBuild) (ex_request POST (lit "/x"))
    = Some 200.
Proof. split; vm_compute; reflexivity. Qed.

(** Two layered routers with different methods of one path cannot be merged, although
    neither has a fallback of its own; without the layers they can. *)
Lemma layered_merge_fails :
  build (BMerge (BLayer id (BRoute (lit "/x") (ex_post (lit "b")) BNew)) (BLayer id (BRoute (lit "/x") (ex_get (lit "a")) BNew)) : ExBuild) = None ∧
  is_Some (build (BMerge (BRoute (lit "/x") (ex_post (lit "b")) BNew) (BRoute (lit "/x") (ex_get (lit "a")) BNew) : ExBuild)).
Proof. split; [vm_compute; reflexivity|apply present_Some; vm_compute; reflexivity]. Qed.

(** A 405 fallback of a route cannot be given below a router that has one; the other way
    round the router's replaces it. *)
Lemma route_fallback_order :
  let own := MFallback (ex_service (lit "own")) (ex_get (lit "a")) in
  build (BRoute (lit "/x") own (BMethodNotAllowed (ex_service (lit "router")) BNew) : ExBuild) = None ∧
  (λ a, body a.1) <$> call (BMethodNotAllowed (ex_service (lit "router")) (BRoute (lit "/x") own BNew) : ExBuild) (ex_request PUT (lit "/x"))
    = Some (TextBody (lit "router")).
Proof. split; vm_compute; reflexivity. Qed.

(** Merging into a layered router takes the layer off its default 404. *)
Lemma merge_unlayers_not_found :
  let refuse : Layer := λ _ _ w, (text_response 401 [], w) in
  (λ a, status a.1) <$> call (BLayer refuse BNew : ExBuild) (ex_request GET (lit "/x")) = Some 401 ∧
  (λ a, status a.1) <$> call (BMerge BNew (BLayer refuse BNew) : ExBuild) (ex_request GET (lit "/x")) = Some 404.
Proof. split; vm_compute; reflexivity. Qed.

(** A prefix with doubled braces stands for text with braces, and is not stripped. *)
Lemma escaped_prefix_not_stripped :
  Forall2 segment_stands (segments (lit "/{{v}}")) (segments (lit "/{v}")) ∧
  strip_prefix_from_uri {| uri_path := lit "/{v}/a"; uri_query := None; uri_rest := tt |} (lit "/{{v}}") =
    {| uri_path := lit "/{v}/a"; uri_query := None; uri_rest := tt |}.
Proof. split; [repeat constructor; by right|vm_compute; reflexivity]. Qed.
