(* ===== verification/Async.v ===== *)
(** * Asynchronous calls

    A call that awaits other code is a resumption: it has finished with a result, or
    it acts once on the world and goes on with what it has seen. Others may act
    between two actions of a call: [runs others m] is a run of [m] among actions in
    the relation [others]. A call that never ends is not a value of [io]. *)

From S2P Require Import Prelude.

Section io.
Context {W E : Type}.

Inductive io (A : Type) :=
| Done (r : result E A)
| Act (next : W → io A) (effect : W → W).
#[global] Arguments Done {A} r.
#[global] Arguments Act {A} next effect.

Fixpoint io_bind_ {A B} (g : A → io B) (m : io A) : io B :=
  match m with
  | Done (Ok a) => g a
  | Done (Err e) => Done (Err e)
  | Act next effect => Act (λ w, io_bind_ g (next w)) effect
  end.

#[export] Instance io_ret : MRet io := λ A a, Done (Ok a).
#[export] Instance io_bind : MBind io := @io_bind_.

(** Reading the world. *)
Definition get {A} (g : W → A) : io A := Act (λ w, Done (Ok (g w))) (λ w, w).

(** One call that acts on the world at once. *)
Definition atomically {A} (f : W → result E A * W) : io A := Act (λ w, Done (f w).1) (λ w, (f w).2).

(** The result of a call as a value. *)
Fixpoint settle {A} (m : io A) : io (result E A) :=
  match m with Done r => Done (Ok r) | Act next effect => Act (λ w, settle (next w)) effect end.

Fixpoint collect_io {A B} (f : A → io B) (l : list A) : io (list B) :=
  match l with
  | [] => mret []
  | a :: l' => b ← f a; bs ← collect_io f l'; mret (b :: bs)
  end.

(** [join_all]: all of the calls to their ends, each turn of [order] being an action
    of the call at that place; the results are in the order of the calls. *)
Fixpoint join_all {A} (order : list nat) (calls : list (io A)) : io (list (result E A)) :=
  match order with
  | [] => collect_io settle calls
  | i :: order' =>
      match calls !! i with
      | Some (Act next effect) => Act (λ w, join_all order' (<[i := next w]> calls)) effect
      | _ => join_all order' calls
      end
  end.

(** A run without others. *)
Fixpoint exec {A} (m : io A) (w : W) : result E A * W :=
  match m with Done r => (r, w) | Act next effect => exec (next w) (effect w) end.

Inductive runs (others : relation W) {A} : io A → W → result E A → W → Prop :=
| runs_done r w : runs others (Done r) w r w
| runs_act next effect w r w' :
    runs others (next w) (effect w) r w' → runs others (Act next effect) w r w'
| runs_others m w w1 r w' : others w w1 → runs others m w1 r w' → runs others m w r w'.

(** Every action of a call is in [G]. *)
Fixpoint acts (G : relation W) {A} (m : io A) : Prop :=
  match m with
  | Done _ => True
  | Act next effect => (∀ w, G w (effect w)) ∧ ∀ w, acts G (next w)
  end.

Lemma acts_Act G {A} (next : W → io A) effect :
  acts G (Act next effect) → (∀ w, G w (effect w)) ∧ ∀ w, acts G (next w).
Proof. done. Qed.

Lemma exec_runs others {A} (m : io A) w r w' : exec m w = (r, w') → runs others m w r w'.
Proof.
  revert w. induction m as [r'|next IH effect]; intros w; cbn; [intros [= <- <-]; constructor|].
  intros H. apply runs_act, IH, H.
Qed.

Lemma runs_mono (R1 R2 : relation W) {A} (m : io A) w r w' :
  (∀ x y, R1 x y → R2 x y) → runs R1 m w r w' → runs R2 m w r w'.
Proof. intros HR. induction 1; [constructor|by constructor|]. eapply runs_others; eauto. Qed.

Lemma runs_wait others {A} (m : io A) w w1 r w' :
  rtc others w w1 → runs others m w1 r w' → runs others m w r w'.
Proof. induction 1 as [|x y z Hxy _ IH]; [done|]. intros Hm. eapply runs_others; eauto. Qed.

Lemma runs_Done others {A} (r0 r : result E A) w w' :
  runs others (Done r0) w r w' ↔ r = r0 ∧ rtc others w w'.
Proof.
  split.
  - intros H. remember (Done r0) as m eqn:Hm. induction H; simplify_eq; [done|].
    destruct IHruns as [-> Hr]; [done|]. split; [done|]. eapply rtc_l; eauto.
  - intros [-> Hw]. eapply runs_wait; [exact Hw|]. constructor.
Qed.

Lemma runs_until others {A} (m : io A) w r w1 w' :
  runs others m w r w1 → rtc others w1 w' → runs others m w r w'.
Proof.
  induction 1; intros Hw; [by apply runs_Done|by constructor; auto|]. eapply runs_others; eauto.
Qed.

Lemma runs_Act others {A} (next : W → io A) effect w r w' :
  runs others (Act next effect) w r w' →
  ∃ w1, rtc others w w1 ∧ runs others (next w1) (effect w1) r w'.
Proof.
  intros H. remember (Act next effect) as m eqn:Hm. induction H; simplify_eq; [by exists w|].
  destruct IHruns as (w2 & Hr & H2); [done|]. exists w2. split; [|done]. eapply rtc_l; eauto.
Qed.

Lemma runs_get others {A} (g : W → A) w r w' :
  runs others (get g) w r w' → ∃ w1, rtc others w w1 ∧ r = Ok (g w1) ∧ rtc others w1 w'.
Proof. intros (w1 & H1 & [-> H2]%runs_Done)%runs_Act. eauto. Qed.

Lemma runs_bind others {A B} (m : io A) (g : A → io B) w r w' :
  runs others (m ≫= g) w r w' →
  (∃ a w1, runs others m w (Ok a) w1 ∧ runs others (g a) w1 r w') ∨
  (∃ e, runs others m w (Err e) w' ∧ r = Err e).
Proof.
  change (m ≫= g) with (io_bind_ g m). revert w.
  induction m as [[a|e]|next IH effect]; intros w; cbn [io_bind_].
  - intros H. left. exists a, w. split; [constructor|done].
  - intros [-> H]%runs_Done. right. exists e. split; [|done]. by apply runs_Done.
  - intros (w1 & H1 & [(a & w2 & Ha & Hg)|(e & He & ->)]%IH)%runs_Act.
    + left. exists a, w2. split; [|done]. eapply runs_wait; [done|]. by constructor.
    + right. exists e. split; [|done]. eapply runs_wait; [done|]. by constructor.
Qed.

Lemma runs_settle others {A} (m : io A) w r w' :
  runs others (settle m) w r w' → ∃ x, r = Ok x ∧ runs others m w x w'.
Proof.
  revert w. induction m as [r0|next IH effect]; intros w; cbn [settle].
  - intros [-> H]%runs_Done. exists r0. split; [done|]. by apply runs_Done.
  - intros (w1 & H1 & (x & -> & Hx)%IH)%runs_Act. exists x. split; [done|].
    eapply runs_wait; [done|]. by constructor.
Qed.

Lemma acts_bind (G : relation W) {A B} (m : io A) (g : A → io B) :
  acts G m → (∀ a, acts G (g a)) → acts G (m ≫= g).
Proof.
  change (m ≫= g) with (io_bind_ g m).
  induction m as [[a|e]|next IH effect]; cbn [acts io_bind_]; [auto|auto|].
  intros [He Hn] Hg. split; [done|]. auto.
Qed.

#[export] Instance any_reflexive : Reflexive (λ _ _ : W, True).
Proof. done. Qed.

Lemma acts_any {A} (m : io A) : acts (λ _ _, True) m.
Proof. by induction m. Qed.

Lemma acts_get (G : relation W) `{!Reflexive G} {A} (g : W → A) : acts G (get g).
Proof. cbn. auto. Qed.

Lemma acts_bind_get (G : relation W) `{!Reflexive G} {A B} (g : W → A) (k : A → io B) :
  (∀ w, acts G (k (g w))) → acts G (get g ≫= k).
Proof. intros Hk. split; [done|exact Hk]. Qed.

Lemma runs_collect_get others {A B} (f : A → W → B) l w r w' :
  runs others (collect_io (λ a, get (f a)) l) w r w' →
  rtc others w w' ∧ ∃ bs, r = Ok bs ∧ Forall2 (λ a b, ∃ w0, b = f a w0) l bs.
Proof.
  revert w r w'. induction l as [|a l IH]; intros w r w' H; cbn [collect_io] in H.
  - apply runs_Done in H as [-> H]. split; [done|]. by exists [].
  - destruct (runs_bind _ _ _ _ _ _ H) as [(b & w1 & (w0 & H1 & [= ->] & H2)%runs_get & Hr)|
      (e & (w0 & _ & [=] & _)%runs_get & _)].
    destruct (runs_bind _ _ _ _ _ _ Hr) as [(bs & w2 & (Hw & bs' & [= <-] & Hbs)%IH & [-> Hd]%runs_Done)|
      (e & (_ & ? & [=] & _)%IH & _)].
    split; [by do 3 (etrans; [eassumption|])|]. exists (f a w0 :: bs). split; [done|].
    constructor; [by exists w0|done].
Qed.

Lemma acts_collect (G : relation W) {A B} (f : A → io B) l :
  (∀ a, a ∈ l → acts G (f a)) → acts G (collect_io f l).
Proof.
  induction l as [|a l IH]; intros Hf; [exact I|]. cbn [collect_io].
  apply acts_bind; [apply Hf; by left|]. intros b. apply acts_bind; [|intros ?; exact I].
  apply IH. intros a' Ha. apply Hf. by right.
Qed.

Lemma acts_settle (G : relation W) {A} (m : io A) : acts G m → acts G (settle m).
Proof. induction m as [r|next IH effect]; cbn; [done|]. intros [He Hn]. auto. Qed.

Lemma acts_join_all (G : relation W) {A} order (calls : list (io A)) :
  Forall (acts G) calls → acts G (join_all order calls).
Proof.
  revert calls. induction order as [|i order IH]; intros calls Hc; cbn [join_all].
  - apply acts_collect. intros m Hm. apply acts_settle. by apply (proj1 (Forall_forall _ _) Hc).
  - destruct (calls !! i) as [[r|next effect]|] eqn:Ei; [by apply IH| |by apply IH].
    destruct (acts_Act _ _ _ (Forall_lookup_1 _ _ _ _ Hc Ei)) as [He Hn]. split; [done|].
    intros w. apply IH. by apply Forall_insert.
Qed.

(** What a call does to the world, seen by others. *)
Lemma acts_rtc (others G : relation W) {A} (m : io A) w r w' :
  (∀ x y, others x y → G x y) → acts G m → runs others m w r w' → rtc G w w'.
Proof.
  intros HG Hm H. induction H; [done| |].
  - apply acts_Act in Hm as [He Hn]. eapply rtc_l; [apply He|]. auto.
  - eapply rtc_l; eauto.
Qed.

(** One call after the other: the first that fails ends it. *)
Lemma runs_collect (others G : relation W) {A B} (f : A → io B) l w r w' :
  (∀ x y, others x y → G x y) → (∀ a, a ∈ l → acts G (f a)) →
  runs others (collect_io f l) w r w' →
  match r with
  | Ok bs => Forall2 (λ a b, ∃ w1 w2, rtc G w w1 ∧ runs G (f a) w1 (Ok b) w2) l bs
  | Err e => ∃ front a rest, l = front ++ a :: rest ∧
      Forall (λ a, ∃ b w1 w2, rtc G w w1 ∧ runs G (f a) w1 (Ok b) w2) front ∧
      ∃ w1 w2, rtc G w w1 ∧ runs G (f a) w1 (Err e) w2
  end.
Proof.
  intros HG. revert w r w'. induction l as [|a l IH]; intros w r w' Hl H; cbn [collect_io] in H.
  { apply runs_Done in H as [-> _]. constructor. }
  assert (acts G (f a)) as Ha by (apply Hl; by left).
  apply runs_bind in H as [(b & w1 & Hb & H)|(e & He & ->)].
  2:{ exists [], a, l. split; [done|]. split; [constructor|]. exists w, w'. split; [done|]. by eapply runs_mono. }
  pose proof (acts_rtc _ _ _ _ _ _ HG Ha Hb) as Hw. apply runs_mono with (R2 := G) in Hb; [|done].
  assert (∀ P : A → B → W → W → Prop, ∀ a b, (∃ w2 w3, rtc G w1 w2 ∧ P a b w2 w3) → ∃ w2 w3, rtc G w w2 ∧ P a b w2 w3) as Hlift.
  { intros P a' b' (w2 & w3 & Hr & HP). exists w2, w3. split; [by etrans|done]. }
  apply runs_bind in H as [(bs & w2 & Hbs & [-> _]%runs_Done)|(e & He & ->)].
  - apply IH in Hbs; [|intros a' Ha'; apply Hl; by right]. constructor; [by exists w, w1|].
    eapply Forall2_impl; [exact Hbs|]. intros a' b'. apply (Hlift (λ a b w1 w2, runs G (f a) w1 (Ok b) w2)).
  - apply IH in He as (front & a' & rest & -> & Hf & w2 & w3 & Hr & Hrun); [|intros a' Ha'; apply Hl; by right].
    exists (a :: front), a', rest. split; [done|]. split; [|exists w2, w3; split; [by etrans|done]].
    constructor; [by exists b, w, w1|]. eapply Forall_impl; [exact Hf|].
    intros a'' (b'' & Hrun'). exists b''. revert Hrun'. apply (Hlift (λ a b w1 w2, runs G (f a) w1 (Ok b) w2)).
Qed.

(** Joined calls: each has run to its result among the actions of all. *)
Lemma runs_collect_settle (others G : relation W) {A} (calls : list (io A)) w r w' :
  (∀ x y, others x y → G x y) → Forall (acts G) calls →
  runs others (collect_io settle calls) w r w' →
  ∃ rs, r = Ok rs ∧ Forall2 (λ m x, runs G m w x w') calls rs.
Proof.
  intros HG. revert w r. induction calls as [|m calls IH]; intros w r Hc H.
  - apply runs_Done in H as [-> _]. exists []. by split.
  - apply Forall_cons in Hc as [Hm Hc]. cbn [collect_io] in H.
    destruct (runs_bind _ _ _ _ _ _ H) as [(x & w1 & Hx & Hr)|(e & He & _)];
      [|by destruct (runs_settle _ _ _ _ _ He) as (? & ? & _)].
    apply runs_settle in Hx as (x' & [= ->] & Hx).
    destruct (runs_bind _ _ _ _ _ _ Hr) as [(xs & w2 & Hxs & Hd)|(e & He & _)].
    + apply runs_Done in Hd as [-> Hd]. destruct (IH w1 (Ok xs) Hc) as (rs & [= <-] & Hrs).
      { by eapply runs_until. }
      exists (x' :: xs). split; [done|]. constructor.
      * pose proof (acts_rtc _ G _ _ _ _ HG (acts_collect G settle calls
          (λ m' Hm', acts_settle G m' (proj1 (Forall_forall _ _) Hc m' Hm'))) Hxs) as Hs2.
        eapply runs_until; [by eapply runs_mono|].
        etrans; [exact Hs2|]. by eapply rtc_subrel.
      * eapply Forall2_impl; [exact Hrs|]. cbn. intros m' x Hm'. eapply runs_wait; [|exact Hm'].
        exact (acts_rtc _ _ _ _ _ _ HG Hm Hx).
    + destruct (IH w1 (Err e) Hc He) as (? & ? & _). done.
Qed.

Lemma runs_join_all (others G : relation W) {A} order (calls : list (io A)) w r w' :
  (∀ x y, others x y → G x y) → Forall (acts G) calls →
  runs others (join_all order calls) w r w' →
  ∃ rs, r = Ok rs ∧ Forall2 (λ m x, runs G m w x w') calls rs.
Proof.
  intros HG. revert calls w. induction order as [|i order IH]; intros calls w Hc H; cbn [join_all] in H.
  - eapply runs_collect_settle; eauto.
  - destruct (calls !! i) as [[r0|next effect]|] eqn:Ei; [by apply IH in H| |by apply IH in H].
    apply runs_Act in H as (w1 & Hw & H). destruct (acts_Act _ _ _ (Forall_lookup_1 _ _ _ _ Hc Ei)) as [He Hn].
    apply IH in H as (rs & -> & Hrs); [|by apply Forall_insert].
    exists rs. split; [done|]. assert (rtc G w w1) as HwG by by eapply rtc_subrel.
    apply Forall2_same_length_lookup. pose proof (Forall2_length _ _ _ Hrs) as Hl.
    rewrite length_insert in Hl. split; [done|]. intros j m x Hj Hx. eapply runs_wait; [exact HwG|].
    destruct (decide (i = j)) as [<-|Hne].
    + rewrite Ei in Hj. injection Hj as <-. constructor.
      apply (Forall2_lookup_lr _ _ _ i (next w1) x Hrs); [|done].
      apply list_lookup_insert_eq. by eapply lookup_lt_Some.
    + apply runs_others with (effect w1); [apply He|].
      apply (Forall2_lookup_lr _ _ _ j m x Hrs); [|done]. by rewrite list_lookup_insert_ne.
Qed.
End io.
Arguments io : clear implicits.
