(* ===== verification/Agent.v ===== *)
(** * Chat models, tools and agents (crates/roze-ai/src/schema.rs, model.rs, tool.rs, agent.rs)

    Messages and their content, the registry of tools with its permission check, and
    the tool-calling loop of an agent over any model. Models and tools are calls
    ([io]) on a world that others act on as well; whether the request is cancelled
    and what time it is are read from the world. The identifier of a run is an
    argument. A temperature is only carried: it is the 32 bits of an [f32].

    [agent_run_course] relates a run to its rounds, whatever its end;
    [agent_acts_permitted] bounds what a run does to the world. *)

From S2P Require Import Prelude Text Scan Graph Context ConfigDiff Async.

Section schema.
Context {Number : Type}.
Abbreviation Value := (@Value Number).

Inductive MessageRole := System | User | Assistant | ToolRole.

Record ToolCall := { tc_id : rstr; tc_name : rstr; tc_arguments : Value }.

Inductive ContentBlock :=
| TextBlock (text : rstr)
| ToolCallBlock (call : ToolCall)
| ToolResultBlock (tool_call_id name : rstr) (output : Value) (is_error : bool).

Record Message := { role : MessageRole; content : list ContentBlock }.

Definition Message_text (r : MessageRole) (text : rstr) : Message :=
  {| role := r; content := [TextBlock text] |}.
Definition Message_system (text : rstr) : Message := Message_text System text.
Definition Message_user (text : rstr) : Message := Message_text User text.
Definition Message_assistant (text : rstr) : Message := Message_text Assistant text.
Definition assistant_tool_calls (calls : list ToolCall) : Message :=
  {| role := Assistant; content := ToolCallBlock <$> calls |}.
Definition tool_result (call : ToolCall) (output : Value) : Message :=
  {| role := ToolRole; content := [ToolResultBlock (tc_id call) (tc_name call) output false] |}.
Definition tool_calls (m : Message) : list ToolCall :=
  omap (λ b, match b with ToolCallBlock call => Some call | _ => None end) (content m).

Inductive ToolEffect := ReadOnly | Mutation | ExternalSideEffect.
Record ToolDefinition :=
  { td_name : rstr; td_description : rstr; td_parameters : Value;
    required_permissions : list rstr; td_effect : ToolEffect }.
Definition ToolDefinition_new (name description : rstr) (parameters : Value) : ToolDefinition :=
  {| td_name := name; td_description := description; td_parameters := parameters;
     required_permissions := []; td_effect := ReadOnly |}.
Definition tool_with_permissions (ps : list rstr) (d : ToolDefinition) : ToolDefinition :=
  {| td_name := td_name d; td_description := td_description d; td_parameters := td_parameters d;
     required_permissions := ps; td_effect := td_effect d |}.

Record GenerationOptions :=
  { temperature : option N; max_tokens : option N; stop : list rstr; response_format : option Value }.
Definition GenerationOptions_default : GenerationOptions :=
  {| temperature := None; max_tokens := None; stop := []; response_format := None |}.

Record ModelRequest :=
  { mr_messages : list Message; mr_tools : list ToolDefinition; mr_options : GenerationOptions }.

Record ModelUsage := { input_tokens : N; output_tokens : N }.
Definition usage_zero : ModelUsage := {| input_tokens := 0; output_tokens := 0 |}.
Definition add_assign (a b : ModelUsage) : ModelUsage :=
  {| input_tokens := sat_add U64_MAX (input_tokens a) (input_tokens b);
     output_tokens := sat_add U64_MAX (output_tokens a) (output_tokens b) |}.

Inductive FinishReason := Stop | ToolCalls | Length | ContentFilter | Other.
Record ModelResponse :=
  { r_message : Message; r_usage : ModelUsage; r_finish_reason : FinishReason }.
Definition response_text (text : rstr) : ModelResponse :=
  {| r_message := Message_assistant text; r_usage := usage_zero; r_finish_reason := Stop |}.
Definition response_tool_calls (calls : list ToolCall) : ModelResponse :=
  {| r_message := assistant_tool_calls calls; r_usage := usage_zero; r_finish_reason := ToolCalls |}.

Inductive AiEvent :=
| RunStarted (run_id model : rstr)
| MessageDelta (run_id : rstr) (step : N) (delta : rstr)
| ModelCompleted (run_id : rstr) (step : N) (response : ModelResponse)
| ToolStarted (run_id : rstr) (step : N) (call : ToolCall)
| ToolCompleted (run_id : rstr) (step : N) (call : ToolCall) (output : Value)
| RunCompleted (run_id : rstr) (steps : N) (usage : ModelUsage).
End schema.
Arguments Message : clear implicits.
Arguments ToolCall : clear implicits.
Arguments ToolDefinition : clear implicits.
Arguments GenerationOptions : clear implicits.
Arguments ModelRequest : clear implicits.
Arguments ModelResponse : clear implicits.
Arguments AiEvent : clear implicits.

(** [MockChatModel::invoke] on the responses that are left. *)
Definition MockChatModel_invoke {Number} (responses : list (result AiError (ModelResponse Number)))
    : result AiError (ModelResponse Number) * list (result AiError (ModelResponse Number)) :=
  match responses with
  | r :: rest => (r, rest)
  | [] => (Err (Provider (lit "mock model has no remaining response")), [])
  end.

Section agent.
Context {W Number : Type} (cells : W → Cells) (clock : W → N).
Abbreviation Value := (@Value Number).
Abbreviation aio := (io W AiError).

Definition check_context (c : Context) : aio unit :=
  canceled ← get (λ w, cancelled (cells w) c);
  if (canceled : bool) then Done (Err Cancelled) else
  expired ← get (λ w, is_expired (clock w) c);
  if (expired : bool) then Done (Err Graph.DeadlineExceeded) else mret tt.

(** ** Tools *)

Record Tool :=
  { tool_definition : W → ToolDefinition Number; tool_invoke : Context → Value → aio Value }.

Abbreviation ToolRegistry := (gmap rstr Tool).

Definition validate_tool_definition (d : ToolDefinition Number) : result AiError unit :=
  if bool_decide (trim (td_name d) = [])
  then Err (InvalidRequest (lit "AI tool name cannot be empty"))
  else if negb (is_object (td_parameters d))
  then Err (InvalidRequest (quoted (lit "AI tool ") (td_name d) (lit " parameters must be a JSON object schema")))
  else Ok tt.

(** [definition] is what the tool reports of itself. *)
Definition register_arc (definition : ToolDefinition Number) (tool : Tool) (tools : ToolRegistry)
    : result AiError ToolRegistry :=
  _ ← validate_tool_definition definition;
  match tools !! td_name definition with
  | Some _ => Err (InvalidRequest (quoted (lit "AI tool ") (td_name definition) (lit " is already registered")))
  | None => Ok (<[td_name definition := tool]> tools)
  end.

Definition definitions (tools : ToolRegistry) : aio (list (ToolDefinition Number)) :=
  collect_io (λ t, get (tool_definition t)) (btree_values tools).

Definition registry_invoke (tools : ToolRegistry) (c : Context) (call : ToolCall Number) : aio Value :=
  _ ← check_context c;
  match tools !! tc_name call with
  | None => Done (Err (ToolNotFound (tc_name call)))
  | Some tool =>
      definition ← get (tool_definition tool);
      if negb (has_permissions (required_permissions definition) c)
      then Done (Err (PermissionDenied (tc_name call)))
      else
        output ← tool_invoke tool c (tc_arguments call);
        _ ← check_context c;
        mret output
  end.

(** ** Agents *)

Definition ChatModel := Context → ModelRequest Number → aio (ModelResponse Number).

Record AgentOptions := { max_steps : N; generation : GenerationOptions Number }.
Definition AgentOptions_default : AgentOptions :=
  {| max_steps := 8; generation := GenerationOptions_default |}.

Record AgentOutput :=
  { o_run_id : rstr; o_message : Message Number; o_history : list (Message Number);
    o_steps : N; o_usage : ModelUsage; o_events : list (AiEvent Number) }.

Record Agent :=
  { ag_model_name : rstr; ag_model : ChatModel; ag_tools : ToolRegistry; ag_options : AgentOptions }.

Definition Agent_new (model_name : rstr) (model : ChatModel) (tools : ToolRegistry) (options : AgentOptions)
    : result AiError Agent :=
  if max_steps options =? 0
  then Err (InvalidRequest (lit "AI agent max_steps must be greater than zero"))
  else Ok {| ag_model_name := model_name; ag_model := model; ag_tools := tools; ag_options := options |}.

Section invoke.
Context (ag : Agent) (c : Context) (run_id : rstr).

(** The loop over the calls of one message. *)
Fixpoint run_calls (step : N) (calls : list (ToolCall Number))
    (history : list (Message Number)) (events : list (AiEvent Number))
    : aio (list (Message Number) * list (AiEvent Number)) :=
  match calls with
  | [] => mret (history, events)
  | call :: calls' =>
      let events := events ++ [ToolStarted run_id step call] in
      output ← registry_invoke (ag_tools ag) c call;
      let events := events ++ [ToolCompleted run_id step call output] in
      run_calls step calls' (history ++ [tool_result call output]) events
  end.

(** The loop over the steps, with those that are [left]. *)
Fixpoint agent_loop (left : nat) (step : N) (history : list (Message Number)) (usage : ModelUsage)
    (events : list (AiEvent Number)) : aio AgentOutput :=
  match left with
  | O => Done (Err (MaxStepsExceeded (max_steps (ag_options ag))))
  | S left' =>
      _ ← check_context c;
      tools ← definitions (ag_tools ag);
      response ← ag_model ag c
        {| mr_messages := history; mr_tools := tools; mr_options := generation (ag_options ag) |};
      _ ← check_context c;
      let usage := add_assign usage (r_usage response) in
      let events := events ++ [ModelCompleted run_id step response] in
      let calls := tool_calls (r_message response) in
      let history := history ++ [r_message response] in
      match calls with
      | [] => mret {| o_run_id := run_id; o_message := r_message response; o_history := history;
                      o_steps := step; o_usage := usage;
                      o_events := events ++ [RunCompleted run_id step usage] |}
      | _ =>
          ran ← run_calls step calls history events;
          agent_loop left' (step + 1) ran.1 usage ran.2
      end
  end.

Definition Agent_invoke (messages : list (Message Number)) : aio AgentOutput :=
  _ ← check_context c;
  match messages with
  | [] => Done (Err (InvalidRequest (lit "AI agent requires at least one message")))
  | _ => agent_loop (N.to_nat (max_steps (ag_options ag))) 1 messages usage_zero
           [RunStarted run_id (ag_model_name ag)]
  end.

(** ** Rounds

    What a run says of itself, from the answers of the model and of the tools. *)

Record Round :=
  { rd_response : ModelResponse Number; rd_outputs : list (ToolCall Number * Value) }.

Definition round_messages (rd : Round) : list (Message Number) :=
  r_message (rd_response rd) :: ((λ o, tool_result o.1 o.2) <$> rd_outputs rd).
Definition round_events (step : N) (rd : Round) : list (AiEvent Number) :=
  ModelCompleted run_id step (rd_response rd) ::
  (rd_outputs rd ≫= λ o, [ToolStarted run_id step o.1; ToolCompleted run_id step o.1 o.2]).
Fixpoint rounds_events (step : N) (rds : list Round) : list (AiEvent Number) :=
  match rds with [] => [] | rd :: rds' => round_events step rd ++ rounds_events (step + 1) rds' end.
Definition rounds_usage (usage : ModelUsage) (rds : list Round) : ModelUsage :=
  foldl (λ u rd, add_assign u (r_usage (rd_response rd))) usage rds.

Definition asks (rd : Round) : Prop := tool_calls (r_message (rd_response rd)) ≠ [].

Context (others : relation W).

Definition interrupted (w : W) (e : AiError) : Prop :=
  match e with
  | Cancelled => cancelled (cells w) c = true
  | Graph.DeadlineExceeded => is_expired (clock w) c = true
  | _ => False
  end.

(** A tool that is registered and permitted has answered. *)
Definition answered (call : ToolCall Number) (w : W) (output : Value) (w' : W) : Prop :=
  ∃ tool w0 w1, ag_tools ag !! tc_name call = Some tool ∧ rtc others w w0 ∧
    has_permissions (required_permissions (tool_definition tool w0)) c = true ∧
    runs others (tool_invoke tool c (tc_arguments call)) w0 (Ok output) w1 ∧ rtc others w1 w'.

Inductive answered_all : list (ToolCall Number * Value) → W → W → Prop :=
| answered_nil w w' : rtc others w w' → answered_all [] w w'
| answered_cons call output w w1 outputs w' :
    answered call w output w1 → answered_all outputs w1 w' → answered_all ((call, output) :: outputs) w w'.

(** The model has been asked with a history, and with what the tools report. *)
Definition asked (history : list (Message Number)) (w : W) (r : result AiError (ModelResponse Number)) (w' : W) : Prop :=
  ∃ tools w0, rtc others w w0 ∧ Forall2 (λ t d, ∃ wd, d = tool_definition t wd) (btree_values (ag_tools ag)) tools ∧
    runs others (ag_model ag c
      {| mr_messages := history; mr_tools := tools; mr_options := generation (ag_options ag) |}) w0 r w'.

Inductive rounds : list (Message Number) → W → list Round → W → Prop :=
| rounds_nil h w w' : rtc others w w' → rounds h w [] w'
| rounds_cons h w rd w1 w2 rds w' :
    asked h w (Ok (rd_response rd)) w1 →
    (rd_outputs rd).*1 = tool_calls (r_message (rd_response rd)) → answered_all (rd_outputs rd) w1 w2 →
    rounds (h ++ round_messages rd) w2 rds w' → rounds h w (rd :: rds) w'.

(** Why a call of a tool fails. *)
Inductive call_fails (call : ToolCall Number) (w : W) : AiError → Prop :=
| call_interrupted e w0 : rtc others w w0 → interrupted w0 e → call_fails call w e
| call_unknown : ag_tools ag !! tc_name call = None → call_fails call w (ToolNotFound (tc_name call))
| call_denied tool w0 : ag_tools ag !! tc_name call = Some tool → rtc others w w0 →
    has_permissions (required_permissions (tool_definition tool w0)) c = false →
    call_fails call w (PermissionDenied (tc_name call))
| call_failed tool w0 e w1 : ag_tools ag !! tc_name call = Some tool → rtc others w w0 →
    has_permissions (required_permissions (tool_definition tool w0)) c = true →
    runs others (tool_invoke tool c (tc_arguments call)) w0 (Err e) w1 → call_fails call w e
| call_late output w0 w1 e : answered call w output w0 → rtc others w0 w1 → interrupted w1 e → call_fails call w e.

(** Why a run fails after the rounds that led to a history. *)
Inductive run_fails (h : list (Message Number)) (w : W) : AiError → Prop :=
| run_interrupted e w0 : rtc others w w0 → interrupted w0 e → run_fails h w e
| run_model e w0 : asked h w (Err e) w0 → run_fails h w e
| run_late resp w0 w1 e : asked h w (Ok resp) w0 → rtc others w0 w1 → interrupted w1 e → run_fails h w e
| run_tool resp w0 w1 outputs call rest e :
    asked h w (Ok resp) w0 → tool_calls (r_message resp) = outputs.*1 ++ call :: rest →
    answered_all outputs w0 w1 → call_fails call w1 e → run_fails h w e.

(** ** Runs *)

Lemma check_context_runs w r w' :
  runs others (check_context c) w r w' →
  (r = Ok tt ∧ rtc others w w') ∨ (∃ e w0, r = Err e ∧ rtc others w w0 ∧ interrupted w0 e).
Proof.
  intros [(b & w1 & (w0 & H1 & [= ->] & H2)%runs_get & H)|(e & (w0 & _ & [=] & _)%runs_get & _)]%runs_bind.
  destruct (cancelled (cells w0) c) eqn:Hc.
  - apply runs_Done in H as [-> H]. right. by exists Cancelled, w0.
  - apply runs_bind in H as [(b & w2 & (w3 & H3 & [= ->] & H4)%runs_get & H)|(e & (? & _ & [=] & _)%runs_get & _)].
    assert (rtc others w w3) as Hw by (do 2 (etrans; [eassumption|]); done).
    destruct (is_expired (clock w3) c) eqn:He.
    + apply runs_Done in H as [-> H]. right. by exists Graph.DeadlineExceeded, w3.
    + apply runs_Done in H as [-> H]. left. split; [done|]. by do 2 (etrans; [eassumption|]).
Qed.

Lemma registry_runs call w r w' :
  runs others (registry_invoke (ag_tools ag) c call) w r w' →
  match r with Ok output => answered call w output w' | Err e => call_fails call w e end.
Proof.
  intros [([] & w1 & [[_ Hw]|(? & ? & [=] & _)]%check_context_runs & H)|
    (e & [[[=] _]|(? & w0 & [= <-] & Hw & Hi)]%check_context_runs & ->)]%runs_bind;
    [|by eapply call_interrupted].
  destruct (ag_tools ag !! tc_name call) as [tool|] eqn:Et;
    [|by apply runs_Done in H as [-> _]; apply call_unknown].
  apply runs_bind in H as [(d & w2 & (w3 & H3 & [= ->] & H4)%runs_get & H)|(? & (? & _ & [=] & _)%runs_get & _)].
  assert (rtc others w w3) as Hw3 by (by etrans).
  destruct (has_permissions _ c) eqn:Hp; cbn [negb] in H;
    [|apply runs_Done in H as [-> _]; by eapply call_denied].
  apply runs_bind in H as [(output & w4 & Ho & H)|(e & He & ->)];
    [|by eapply call_failed; [..|eapply runs_wait]].
  assert (∀ w5, rtc others w4 w5 → answered call w output w5) as Ha.
  { intros w5 Hw5. exists tool, w3, w4. repeat split; [done..|by eapply runs_wait|done]. }
  apply runs_bind in H as [([] & w5 & [[_ H5]|(? & ? & [=] & _)]%check_context_runs & [-> H6]%runs_Done)|
    (e & [[[=] _]|(? & w5 & [= <-] & H5 & Hi)]%check_context_runs & ->)].
  - apply Ha. by etrans.
  - by eapply call_late; [apply Ha| |].
Qed.

Lemma run_calls_runs step calls h events w r w' :
  runs others (run_calls step calls h events) w r w' →
  match r with
  | Ok (h', events') => ∃ outputs, outputs.*1 = calls ∧ answered_all outputs w w' ∧
      h' = h ++ ((λ o, tool_result o.1 o.2) <$> outputs) ∧
      events' = events ++ (outputs ≫= λ o, [ToolStarted run_id step o.1; ToolCompleted run_id step o.1 o.2])
  | Err e => ∃ outputs call rest w1, calls = outputs.*1 ++ call :: rest ∧
      answered_all outputs w w1 ∧ call_fails call w1 e
  end.
Proof.
  revert h events w. induction calls as [|call calls IH]; intros h events w H; cbn [run_calls] in H.
  - apply runs_Done in H as [-> Hw]. exists []. cbn. rewrite !app_nil_r. repeat split. by constructor.
  - apply runs_bind in H as [(output & w1 & Ho%registry_runs & H)|(e & He%registry_runs & ->)].
    + apply IH in H. destruct r as [[h' events']|e].
      * destruct H as (outputs & <- & Ha & -> & ->). exists ((call, output) :: outputs).
        cbn. rewrite <- !app_assoc. repeat split. by econstructor.
      * destruct H as (outputs & call' & rest & w2 & -> & Ha & Hf).
        exists ((call, output) :: outputs), call', rest, w2. repeat split; [by econstructor|done].
    + exists [], call, calls, w. repeat split; [by constructor|done].
Qed.

Lemma asked_after h w w1 tools w2 r w3 :
  rtc others w w1 → runs others (definitions (ag_tools ag)) w1 (Ok tools) w2 →
  runs others (ag_model ag c
    {| mr_messages := h; mr_tools := tools; mr_options := generation (ag_options ag) |}) w2 r w3 →
  asked h w r w3.
Proof.
  intros Hw (Hd & ds & [= <-] & Hf)%runs_collect_get Hm. exists tools, w2.
  repeat split; [by etrans|done..].
Qed.

(** One step: the model has answered, or the run ends here. *)
Lemma step_runs h w {A} (k : ModelResponse Number → aio A) r w' :
  runs others (_ ← check_context c;
               tools ← definitions (ag_tools ag);
               response ← ag_model ag c
                 {| mr_messages := h; mr_tools := tools; mr_options := generation (ag_options ag) |};
               _ ← check_context c; k response) w r w' →
  (∃ response w1 w2, asked h w (Ok response) w1 ∧ rtc others w1 w2 ∧ runs others (k response) w2 r w') ∨
  (∃ e, r = Err e ∧ run_fails h w e).
Proof.
  intros [([] & w1 & [[_ H1]|(? & ? & [=] & _)]%check_context_runs & H)|
    (e & [[[=] _]|(? & w0 & [= <-] & Hw & Hi)]%check_context_runs & ->)]%runs_bind;
    [|by right; exists e; split; [|by eapply run_interrupted]].
  apply runs_bind in H as [(tools & w2 & H2 & H)|(e & (_ & ? & [=] & _)%runs_collect_get & _)].
  apply runs_bind in H as [(resp & w3 & H3 & H)|(e & He & ->)];
    [|right; exists e; split; [done|]; eapply run_model, asked_after; eassumption].
  assert (asked h w (Ok resp) w3) as Ha by by eapply asked_after.
  apply runs_bind in H as [([] & w4 & [[_ H4]|(? & ? & [=] & _)]%check_context_runs & H)|
    (e & [[[=] _]|(? & w4 & [= <-] & H4 & Hi)]%check_context_runs & ->)].
  - left. exists resp, w3, w4. by repeat split.
  - right. exists e. split; [done|]. by eapply run_late.
Qed.

Lemma answered_all_wait w w1 outputs w' : rtc others w w1 → answered_all outputs w1 w' → answered_all outputs w w'.
Proof.
  intros Hw. destruct 1 as [w1 w2 H|call output w1 w2 outputs w3 (tool & w4 & w5 & Ht & H4 & Hp & Hr & H5) Ha].
  - constructor. by etrans.
  - econstructor; [|exact Ha]. exists tool, w4, w5. repeat split; [done|by etrans|done..].
Qed.

Lemma rounds_wait h w w1 rds w' : rtc others w w1 → rounds h w1 rds w' → rounds h w rds w'.
Proof.
  intros Hw. destruct 1 as [h w1 w2 H|h w1 rd w2 w3 rds w4 (tools & w0 & H0 & Hd & Hm) Ho Ha Hr].
  - constructor. by etrans.
  - eapply rounds_cons; [|exact Ho|exact Ha|exact Hr]. exists tools, w0. repeat split; [by etrans|done..].
Qed.

(** What a run that ends well returns. *)
Definition output_of (messages : list (Message Number)) (rds : list Round) (rd : Round) : AgentOutput :=
  let all := rds ++ [rd] in
  {| o_run_id := run_id; o_message := r_message (rd_response rd);
     o_history := messages ++ (all ≫= round_messages);
     o_steps := N.of_nat (length all); o_usage := rounds_usage usage_zero all;
     o_events := RunStarted run_id (ag_model_name ag) :: rounds_events 1 all ++
       [RunCompleted run_id (N.of_nat (length all)) (rounds_usage usage_zero all)] |}.

Lemma agent_loop_runs left step h usage events w r w' :
  runs others (agent_loop left step h usage events) w r w' →
  ∃ rds w1, rounds h w rds w1 ∧ (length rds ≤ left)%nat ∧
    match r with
    | Ok out => ∃ front rd, rds = front ++ [rd] ∧ Forall asks front ∧ ¬ asks rd ∧
        out = let last := step + N.of_nat (length front) in
          {| o_run_id := run_id; o_message := r_message (rd_response rd);
             o_history := h ++ (rds ≫= round_messages); o_steps := last;
             o_usage := rounds_usage usage rds;
             o_events := events ++ rounds_events step rds ++
               [RunCompleted run_id last (rounds_usage usage rds)] |}
    | Err e => Forall asks rds ∧
        ((e = MaxStepsExceeded (max_steps (ag_options ag)) ∧ length rds = left) ∨
         run_fails (h ++ (rds ≫= round_messages)) w1 e)
    end.
Proof.
  revert step h usage events w. induction left as [|left IH]; intros step h usage events w H; cbn [agent_loop] in H.
  { apply runs_Done in H as [-> Hw]. exists [], w. repeat split; [by constructor|done..|by left]. }
  apply step_runs in H as [(resp & w1 & w2 & Ha & Hw & H)|(e & -> & Hf)];
    [|exists [], w; cbn; rewrite app_nil_r; repeat split; [by constructor|lia|done|by right]].
  destruct (tool_calls (r_message resp)) as [|call calls] eqn:Ec.
  { apply runs_Done in H as [-> H]. pose (rd := {| rd_response := resp; rd_outputs := [] |}).
    exists [rd], w1. repeat split; [|cbn; lia|].
    - apply (rounds_cons h w rd w1 w1 [] w1); [exact Ha|done|by apply answered_nil|by apply rounds_nil].
    - exists [], rd. cbn. rewrite N.add_0_r, <- app_assoc. repeat split; [done|].
      intros Hasks. exact (Hasks Ec). }
  apply runs_bind in H as [([h' events'] & w3 & (outputs & Ho & Hall & -> & ->)%run_calls_runs & H)|
    (e & (outputs & call' & rest & w3 & Ho & Hall & Hf)%run_calls_runs & ->)].
  2:{ exists [], w. cbn [mbind list_bind length]. rewrite app_nil_r. repeat split; [by constructor|lia|done|right].
      eapply run_tool; [exact Ha|by rewrite Ec|by eapply answered_all_wait|exact Hf]. }
  apply IH in H as (rds & w4 & Hr & Hl & Hend). clear IH.
  pose (rd := {| rd_response := resp; rd_outputs := outputs |}).
  assert (asks rd) as Hasks by (unfold asks, rd; cbn; by rewrite Ec).
  exists (rd :: rds), w4. repeat split; [|cbn [length]; lia|].
  { econstructor; [exact Ha|by rewrite <- Ec in Ho|by eapply answered_all_wait|].
    unfold round_messages. cbn. cbn in Hr. by rewrite <- app_assoc in Hr. }
  destruct r as [out|e].
  - destruct Hend as (front & rd' & -> & Hfront & Hrd & ->). exists (rd :: front), rd'. cbn. cbn in Hrd.
    repeat split; [by constructor|done|]. rewrite <- !app_assoc. cbn.
    replace (step + 1 + N.of_nat (length front)) with (step + N.of_nat (S (length front))) by lia. done.
  - destruct Hend as [Hfront Hend]. split; [by constructor|].
    destruct Hend as [[-> Hn]|Hf]; [left; split; [done|cbn; lia]|right].
    cbn in Hf |- *. by rewrite <- !app_assoc in Hf.
Qed.

(** C33: Whatever others do meanwhile, a run of an agent is a series of rounds of at most
    [max_steps], in each of which the model answers the history so far, offered the
    definitions of the registered tools, and every tool it calls is registered,
    permitted and answers, in the order of the calls. All rounds but the last of a
    run that ends well ask for tools; its history, steps, usage and events are those
    of the rounds. A run that fails does so for a cause: the request is over, the
    model or a tool has failed or was refused, or [max_steps] rounds asked for tools. *)
Theorem agent_run_course messages w r w' :
  runs others (Agent_invoke messages) w r w' →
  ∃ rds w1, rounds messages w rds w1 ∧ (length rds ≤ N.to_nat (max_steps (ag_options ag)))%nat ∧
    match r with
    | Ok out => messages ≠ [] ∧ ∃ front rd, rds = front ++ [rd] ∧ Forall asks front ∧ ¬ asks rd ∧
        out = output_of messages front rd
    | Err e => Forall asks rds ∧
        ((messages = [] ∧ rds = [] ∧ e = InvalidRequest (lit "AI agent requires at least one message")) ∨
         (e = MaxStepsExceeded (max_steps (ag_options ag)) ∧ N.of_nat (length rds) = max_steps (ag_options ag)) ∨
         run_fails (messages ++ (rds ≫= round_messages)) w1 e)
    end.
Proof.
  intros [([] & w1 & [[_ H1]|(? & ? & [=] & _)]%check_context_runs & H)|
    (e & [[[=] _]|(? & w0 & [= <-] & Hw & Hi)]%check_context_runs & ->)]%runs_bind.
  2:{ exists [], w. cbn. rewrite app_nil_r. repeat split; [by constructor|lia|done|].
      right; right. by eapply run_interrupted. }
  destruct messages as [|m messages].
  { apply runs_Done in H as [-> _]. exists [], w. repeat split; [by constructor|cbn; lia|done|by left]. }
  apply agent_loop_runs in H as (rds & w2 & Hr & Hl & Hend).
  exists rds, w2. repeat split; [|done|].
  { by eapply rounds_wait. }
  destruct r as [out|e].
  - destruct Hend as (front & rd & -> & Hfront & Hrd & ->). split; [done|]. exists front, rd.
    repeat split; [done..|]. unfold output_of. rewrite length_app.
    replace (N.of_nat (length front + length [rd])) with (1 + N.of_nat (length front)) by (cbn; lia). done.
  - destruct Hend as [Hfront [[-> Hn]|Hf]]; (split; [done|]); right; [left; split; [done|lia]|by right].
Qed.

(** ** What a run does *)

Section effects.
Context (G : relation W) `{!Reflexive G}.
Context (Hmodel : ∀ request, acts G (ag_model ag c request)).
Context (Htools : ∀ name tool arguments w, ag_tools ag !! name = Some tool →
  has_permissions (required_permissions (tool_definition tool w)) c = true →
  acts G (tool_invoke tool c arguments)).

Lemma acts_check_context : acts G (check_context c).
Proof.
  refine (acts_bind_get G _ _ _). intros w. destruct (cancelled (cells w) c); [exact I|].
  refine (acts_bind_get G _ _ _). intros w'. by destruct (is_expired (clock w') c).
Qed.

Lemma acts_registry_invoke call : acts G (registry_invoke (ag_tools ag) c call).
Proof.
  apply acts_bind; [apply acts_check_context|intros _].
  destruct (ag_tools ag !! tc_name call) as [tool|] eqn:Et; [|exact I].
  refine (acts_bind_get G _ _ _). intros w. destruct (has_permissions _ c) eqn:Hp; [|exact I].
  apply acts_bind; [by eapply Htools|intros output].
  apply acts_bind; [apply acts_check_context|by intros _].
Qed.

Lemma acts_run_calls step calls h events : acts G (run_calls step calls h events).
Proof.
  revert h events. induction calls as [|call calls IH]; intros h events; cbn [run_calls]; [exact I|].
  apply acts_bind; [apply acts_registry_invoke|]. intros output. apply IH.
Qed.

Lemma acts_agent_loop left step h usage events : acts G (agent_loop left step h usage events).
Proof.
  revert step h usage events. induction left as [|left IH]; intros step h usage events; cbn [agent_loop]; [exact I|].
  apply acts_bind; [apply acts_check_context|intros _].
  apply acts_bind; [apply acts_collect; intros t _; by apply acts_get|intros tools].
  apply acts_bind; [apply Hmodel|intros resp].
  apply acts_bind; [apply acts_check_context|intros _].
  destruct (tool_calls (r_message resp)); [exact I|].
  apply acts_bind; [apply acts_run_calls|]. intros ran. apply IH.
Qed.

(** C34: A run of an agent acts on the world only through its model and through those
    registered tools whose required permissions the request has when it is called:
    whatever relation covers the actions of these covers every action of every run,
    that of a run that fails included. *)
Theorem agent_acts_permitted messages : acts G (Agent_invoke messages).
Proof.
  apply acts_bind; [apply acts_check_context|intros _].
  destruct messages as [|m messages]; [exact I|]. apply acts_agent_loop.
Qed.
End effects.
End invoke.
End agent.
Arguments Tool : clear implicits.
Arguments AgentOptions : clear implicits.
Arguments AgentOutput : clear implicits.
Arguments Agent : clear implicits.
Arguments Round : clear implicits.

(** ** A run *)

Record ExWorld :=
  { ex_responses : list (result AiError (ModelResponse N)); ex_cells : Cells; ex_now : N; ex_log : list rstr }.

Definition ex_mock : @ChatModel ExWorld N := λ _ _, atomically (λ w,
  let '(r, rest) := MockChatModel_invoke (ex_responses w) in
  (r, {| ex_responses := rest; ex_cells := ex_cells w; ex_now := ex_now w; ex_log := ex_log w |})).

(** A tool that writes its name down. *)
Definition ex_tool (name : rstr) (ps : list rstr) : Tool ExWorld N :=
  {| tool_definition := λ _, tool_with_permissions ps (ToolDefinition_new name (lit "") (VObject ∅));
     tool_invoke := λ _ v, atomically (λ w,
       (Ok v, {| ex_responses := ex_responses w; ex_cells := ex_cells w; ex_now := ex_now w;
                 ex_log := ex_log w ++ [name] |})) |}.

Definition ex_tools : gmap rstr (Tool ExWorld N) :=
  list_to_map [(lit "search", ex_tool (lit "search") [lit "read"]); (lit "drop", ex_tool (lit "drop") [lit "admin"])].

Definition ex_context : Context := with_permissions [lit "read"] (background (lit "r") Cells_empty).1.

Definition ex_agent : Agent ExWorld N :=
  {| ag_model_name := lit "mock"; ag_model := ex_mock; ag_tools := ex_tools; ag_options := AgentOptions_default |}.

Definition ex_call (name : rstr) : ToolCall N := {| tc_id := lit "1"; tc_name := name; tc_arguments := VNull |}.

Definition ex_world (rs : list (result AiError (ModelResponse N))) : ExWorld :=
  {| ex_responses := rs; ex_cells := (background (lit "r") Cells_empty).2; ex_now := 0; ex_log := [] |}.

Definition ex_run (rs : list (result AiError (ModelResponse N))) :=
  exec (Agent_invoke ex_cells ex_now ex_agent ex_context (lit "run") [Message_user (lit "hello")]) (ex_world rs).

Definition ex_answered := ex_run
  [Ok (response_tool_calls [ex_call (lit "search"); ex_call (lit "search")]); Ok (response_text (lit "found"))].

Example ex_denied :
  let r := ex_run [Ok (response_tool_calls [ex_call (lit "search"); ex_call (lit "drop")])] in
  r.1 = Err (PermissionDenied (lit "drop")) ∧ ex_log r.2 = [lit "search"].
Proof. by vm_compute. Qed.

Lemma agent_run_course_witness :
  ∃ out, ex_answered.1 = Ok out ∧ o_steps out = 2 ∧ ∃ front rd, length front = 1%nat ∧
    out = output_of ex_agent (lit "run") [Message_user (lit "hello")] front rd.
Proof.
  pose proof (agent_run_course ex_cells ex_now ex_agent ex_context (lit "run") (λ _ _, False)
    [Message_user (lit "hello")] _ ex_answered.1 ex_answered.2 (exec_runs _ _ _ _ _ (surjective_pairing _))) as H.
  assert (∃ out, ex_answered.1 = Ok out ∧ o_steps out = 2) as (out & Hout & Hsteps)
    by (eexists; split; vm_compute; reflexivity).
  rewrite Hout in H. destruct H as (rds & w1 & _ & _ & _ & front & rd & _ & _ & _ & Ho).
  exists out. split; [done|]. split; [done|]. exists front, rd. split; [|done].
  rewrite Ho in Hsteps. unfold output_of in Hsteps. cbn [o_steps] in Hsteps. rewrite length_app in Hsteps.
  cbn [length] in Hsteps. lia.
Defined.

(** Only [search] is permitted, so nothing but its name is ever written down. *)
Definition ex_only_search : relation ExWorld := λ w w',
  ∃ n, ex_log w' = ex_log w ++ replicate n (lit "search").

Lemma agent_acts_permitted_witness :
  acts ex_only_search (Agent_invoke ex_cells ex_now ex_agent ex_context (lit "run") [Message_user (lit "hello")]).
Proof.
  apply agent_acts_permitted.
  - intros w. exists 0%nat. by rewrite app_nil_r.
  - intros request. split; [|done]. intros w. exists 0%nat. cbn.
    destruct (ex_responses w); cbn; by rewrite app_nil_r.
  - intros name tool arguments w Ht Hp.
    apply elem_of_list_to_map_2 in Ht. apply elem_of_cons in Ht as [Ht|Ht].
    { injection Ht as -> ->. split; [|done]. intros w'. by exists 1%nat. }
    apply list_elem_of_singleton in Ht. injection Ht as -> ->. by vm_compute in Hp.
Defined.
