(* ===== verification/Team.v ===== *)
(** * Teams of agents and delegation (crates/roze-ai/src/team.rs)

    A team runs tasks on its registered agents, one after the other or together, and
    can be handed to a model as one tool. An agent is any call on the world; tasks
    that run together are the interleaving [join_all] makes of their calls in some
    order of turns. The error text of serde and the numbers of JSON are parameters. *)

From S2P Require Import Prelude Text Scan Graph Context ConfigDiff Async Agent.

Section team.
Context {W Number : Type} (cells : W → Cells) (clock : W → N).
Abbreviation Value := (@Value Number).
Abbreviation aio := (io W AiError).
Context (number_of : N → Number) (de_error : Value → rstr).

Definition AgentExecutor := Context → list (Message Number) → aio (AgentOutput Number).

(** An [Agent] draws the identifier of its run when it is invoked. *)
Definition Agent_executor (draw : W → rstr) (ag : Agent W Number) : AgentExecutor :=
  λ c messages, run_id ← get draw; Agent_invoke cells clock ag c run_id messages.

Record AgentTask := { at_id : rstr; at_agent : rstr; at_messages : list (Message Number) }.
Inductive TeamExecutionMode := Sequential | Parallel.
Record AgentTaskOutput := { to_task_id : rstr; to_agent : rstr; to_output : AgentOutput Number }.
Record TeamOutput := { team_tasks : list AgentTaskOutput; team_usage : ModelUsage }.
Record AgentTeam := { agents : gmap rstr AgentExecutor; max_tasks : N }.

Definition AgentTeam_new (max_tasks : N) : result AiError AgentTeam :=
  if max_tasks =? 0 then Err (InvalidTeam (lit "max_tasks must be greater than zero"))
  else Ok {| agents := ∅; max_tasks := max_tasks |}.

Definition register_agent (name : rstr) (agent : AgentExecutor) (team : AgentTeam) : result AiError AgentTeam :=
  if bool_decide (trim name = []) then Err (InvalidTeam (lit "agent name cannot be empty"))
  else match agents team !! name with
  | Some _ => Err (InvalidTeam (quoted (lit "agent ") name (lit " is already registered")))
  | None => Ok {| agents := <[name := agent]> (agents team); max_tasks := max_tasks team |}
  end.

(** The loop over the tasks, with the identifiers it has seen. *)
Fixpoint validate_each (team : AgentTeam) (ids : gset rstr) (tasks : list AgentTask) : result AiError unit :=
  match tasks with
  | [] => Ok tt
  | task :: tasks' =>
      if bool_decide (trim (at_id task) = []) then Err (InvalidTeam (lit "agent task id cannot be empty"))
      else if bool_decide (at_id task ∈ ids)
      then Err (InvalidTeam (quoted (lit "duplicate agent task id ") (at_id task) []))
      else if bool_decide (at_messages task = [])
      then Err (InvalidTeam (quoted (lit "agent task ") (at_id task) (lit " requires at least one message")))
      else if bool_decide (agents team !! at_agent task = None) then Err (AgentNotFound (at_agent task))
      else validate_each team ({[at_id task]} ∪ ids) tasks'
  end.

Definition validate_tasks (team : AgentTeam) (tasks : list AgentTask) : result AiError unit :=
  let count := N.of_nat (length tasks) in
  if bool_decide (tasks = []) then Err (InvalidTeam (lit "agent team requires at least one task"))
  else if max_tasks team <? count
  then Err (InvalidTeam (lit "agent team task count " ++ dec count ++ lit " exceeds maximum " ++ dec (max_tasks team)))
  else validate_each team ∅ tasks.

Definition run_task (team : AgentTeam) (c : Context) (task : AgentTask) : aio AgentTaskOutput :=
  _ ← check_context cells clock c;
  match agents team !! at_agent task with
  | None => Done (Err (AgentNotFound (at_agent task)))
  | Some agent =>
      output ← agent c (at_messages task);
      _ ← check_context cells clock c;
      mret {| to_task_id := at_id task; to_agent := at_agent task; to_output := output |}
  end.

Definition outputs_usage (outputs : list AgentTaskOutput) : ModelUsage :=
  foldl (λ u o, add_assign u (o_usage (to_output o))) usage_zero outputs.

Definition AgentTeam_run (team : AgentTeam) (c : Context) (tasks : list AgentTask) (mode : TeamExecutionMode)
    (order : list nat) : aio TeamOutput :=
  _ ← check_context cells clock c;
  _ ← (Done (validate_tasks team tasks) : aio unit);
  outputs ← match mode with
            | Sequential => collect_io (run_task team c) tasks
            | Parallel => results ← join_all order (run_task team c <$> tasks); Done (collect id results)
            end;
  _ ← check_context cells clock c;
  mret {| team_tasks := outputs; team_usage := outputs_usage outputs |}.

Definition delegate (team : AgentTeam) (c : Context) (agent : rstr) (messages : list (Message Number))
    : aio AgentTaskOutput :=
  run_task team c {| at_id := lit "delegate-" ++ agent; at_agent := agent; at_messages := messages |}.

(** ** JSON *)

Definition role_json (r : MessageRole) : Value :=
  VString (lit match r with System => "system" | User => "user" | Assistant => "assistant" | ToolRole => "tool" end).
Definition call_json (call : ToolCall Number) : Value :=
  json_object [(lit "id", VString (tc_id call)); (lit "name", VString (tc_name call));
               (lit "arguments", tc_arguments call)].
Definition block_json (b : @ContentBlock Number) : Value :=
  json_object match b with
  | TextBlock text => [(lit "type", VString (lit "text")); (lit "text", VString text)]
  | ToolCallBlock call => [(lit "type", VString (lit "tool_call")); (lit "call", call_json call)]
  | ToolResultBlock tool_call_id name output is_error =>
      [(lit "type", VString (lit "tool_result")); (lit "tool_call_id", VString tool_call_id);
       (lit "name", VString name); (lit "output", output); (lit "is_error", VBool is_error)]
  end.
Definition message_json (m : Message Number) : Value :=
  json_object [(lit "role", role_json (role m)); (lit "content", VArray (block_json <$> content m))].
Definition usage_json (u : ModelUsage) : Value :=
  json_object [(lit "input_tokens", VNumber (number_of (input_tokens u)));
               (lit "output_tokens", VNumber (number_of (output_tokens u)))].

(** ** The delegation tool *)

(** A struct of two strings that denies unknown fields reads an object of exactly
    these, or an array of two strings in the order of the fields. *)
Definition DelegationArguments (v : Value) : option (rstr * rstr) :=
  match v with
  | VObject m =>
      match m !! lit "agent", m !! lit "prompt" with
      | Some (VString agent), Some (VString prompt) =>
          if bool_decide (size m = 2%nat) then Some (agent, prompt) else None
      | _, _ => None
      end
  | VArray [VString agent; VString prompt] => Some (agent, prompt)
  | _ => None
  end.

Definition DelegationTool_invoke (team : AgentTeam) (c : Context) (arguments : Value) : aio Value :=
  match DelegationArguments arguments with
  | None => Done (Err (InvalidTeam (lit "invalid delegation arguments: " ++ de_error arguments)))
  | Some (agent, prompt) =>
      if bool_decide (trim prompt = [])
      then Done (Err (InvalidTeam (lit "delegation prompt cannot be empty")))
      else
        result ← delegate team c agent [Message_user prompt];
        mret (json_object
          [(lit "task_id", VString (to_task_id result)); (lit "agent", VString (to_agent result));
           (lit "message", message_json (o_message (to_output result)));
           (lit "steps", VNumber (number_of (o_steps (to_output result))));
           (lit "usage", usage_json (o_usage (to_output result)))])
  end.

Definition delegation_parameters (team : AgentTeam) : Value :=
  let string_field := (lit "type", VString (lit "string")) in
  json_object
    [(lit "type", VString (lit "object"));
     (lit "properties", json_object
        [(lit "agent", json_object [string_field; (lit "enum", VArray (VString <$> btree_keys (agents team)))]);
         (lit "prompt", json_object [string_field])]);
     (lit "required", VArray [VString (lit "agent"); VString (lit "prompt")]);
     (lit "additionalProperties", VBool false)].

Definition delegation_tool (team : AgentTeam) (name description : rstr) (required : list rstr) : Tool W Number :=
  {| tool_definition := λ _, tool_with_permissions required
       (ToolDefinition_new name description (delegation_parameters team));
     tool_invoke := DelegationTool_invoke team |}.

(** ** Tasks that can be run *)

Definition task_ok (team : AgentTeam) (t : AgentTask) : Prop :=
  trim (at_id t) ≠ [] ∧ at_messages t ≠ [] ∧ is_Some (agents team !! at_agent t).
Definition tasks_ok (team : AgentTeam) (tasks : list AgentTask) : Prop :=
  tasks ≠ [] ∧ N.of_nat (length tasks) ≤ max_tasks team ∧ NoDup (at_id <$> tasks) ∧ Forall (task_ok team) tasks.

Lemma validate_each_ok team ids tasks :
  validate_each team ids tasks = Ok tt ↔
  Forall (task_ok team) tasks ∧ NoDup (at_id <$> tasks) ∧ Forall (λ t, at_id t ∉ ids) tasks.
Proof.
  revert ids. induction tasks as [|t tasks IH]; intros ids; cbn [validate_each].
  { split; [|done]. intros _. split; [done|]. split; [constructor|done]. }
  unfold task_ok at 1. rewrite !Forall_cons. cbn [fmap list_fmap]. rewrite NoDup_cons.
  repeat case_bool_decide; try (split; [done|]; unfold task_ok; rewrite ?eq_None_not_Some in *; naive_solver).
  rewrite IH. setoid_rewrite not_elem_of_union. setoid_rewrite not_elem_of_singleton.
  rewrite Forall_and. assert (is_Some (agents team !! at_agent t)) by by apply not_eq_None_Some.
  assert (at_id t ∉ at_id <$> tasks ↔ Forall (λ t', at_id t' ≠ at_id t) tasks) as ->.
  { rewrite Forall_forall, list_elem_of_fmap. naive_solver. }
  unfold task_ok. naive_solver.
Qed.

Lemma validate_tasks_ok team tasks : validate_tasks team tasks = Ok tt ↔ tasks_ok team tasks.
Proof.
  unfold validate_tasks, tasks_ok. case_bool_decide; [naive_solver|].
  destruct (N.ltb_spec (max_tasks team) (N.of_nat (length tasks))); [split; [done|intros; lia]|].
  rewrite validate_each_ok. split.
  - intros (? & ? & _). done.
  - intros (_ & _ & ? & ?). split; [done|]. split; [done|]. apply Forall_true. intros t. apply not_elem_of_empty.
Qed.

(** ** Runs *)

(** The agent of a task has done it, and a task has failed, among actions in [G]. *)
Definition task_done (G : relation W) (team : AgentTeam) (c : Context) (w : W) (t : AgentTask) (o : AgentTaskOutput) : Prop :=
  to_task_id o = at_id t ∧ to_agent o = at_agent t ∧
  ∃ agent w1 w2, agents team !! at_agent t = Some agent ∧ rtc G w w1 ∧
    runs G (agent c (at_messages t)) w1 (Ok (to_output o)) w2.
Definition over (G : relation W) (c : Context) (w : W) (e : AiError) : Prop :=
  ∃ w0, rtc G w w0 ∧ interrupted cells clock c w0 e.
Definition task_fails (G : relation W) (team : AgentTeam) (c : Context) (w : W) (t : AgentTask) (e : AiError) : Prop :=
  over G c w e ∨ (agents team !! at_agent t = None ∧ e = AgentNotFound (at_agent t)) ∨
  ∃ agent w1 w2, agents team !! at_agent t = Some agent ∧ rtc G w w1 ∧ runs G (agent c (at_messages t)) w1 (Err e) w2.

Section run.
Context (team : AgentTeam) (c : Context) (others G : relation W) `{!Reflexive G}.
Context (Hothers : ∀ x y, others x y → G x y).
Context (Hagents : ∀ name agent messages, agents team !! name = Some agent → acts G (agent c messages)).

Lemma acts_run_task t : acts G (run_task team c t).
Proof.
  apply acts_bind; [by apply acts_check_context|intros _].
  destruct (agents team !! at_agent t) as [agent|] eqn:Ea; [|exact I].
  apply acts_bind; [by eapply Hagents|intros output].
  apply acts_bind; [by apply acts_check_context|by intros _].
Qed.

Lemma run_task_runs t w0 w r w' :
  rtc G w0 w → runs G (run_task team c t) w r w' →
  match r with Ok o => task_done G team c w0 t o | Err e => task_fails G team c w0 t e end.
Proof.
  intros H0 [([] & w1 & [[_ H1]|(? & ? & [=] & _)]%check_context_runs & H)|
    (e & [[[=] _]|(? & w1 & [= <-] & H1 & Hi)]%check_context_runs & ->)]%runs_bind.
  2:{ left. exists w1. split; [by etrans|done]. }
  destruct (agents team !! at_agent t) as [agent|] eqn:Ea.
  2:{ apply runs_Done in H as [-> _]. right. by left. }
  apply runs_bind in H as [(output & w2 & Ho & H)|(e & He & ->)].
  2:{ right. right. exists agent, w1, w'. split; [done|]. split; [by etrans|done]. }
  apply runs_bind in H as [([] & w3 & [[_ H3]|(? & ? & [=] & _)]%check_context_runs & [-> _]%runs_Done)|
    (e & [[[=] _]|(? & w3 & [= <-] & H3 & Hi)]%check_context_runs & ->)].
  - split; [done|]. split; [done|]. exists agent, w1, w2. split; [done|]. split; [by etrans|done].
  - left. exists w3. split; [|done]. etrans; [exact H0|]. etrans; [exact H1|]. etrans; [|exact H3].
    eapply acts_rtc; [intros x y Hxy; exact Hxy| |exact Ho]. by eapply Hagents.
Qed.

(** Each task of a run together with the result its call had. *)
Definition task_ended (w : W) (t : AgentTask) : Prop :=
  ∃ r w1 w2, rtc G w w1 ∧ runs G (run_task team c t) w1 r w2.

Lemma collect_results {A B} (P : A → result AiError B → Prop) (l : list A) (rs : list (result AiError B)) :
  Forall2 P l rs →
  match collect id rs with
  | Ok bs => Forall2 (λ a b, P a (Ok b)) l bs
  | Err e => ∃ front a rest, l = front ++ a :: rest ∧ Forall (λ a, ∃ b, P a (Ok b)) front ∧ P a (Err e)
  end.
Proof.
  induction 1 as [|a r l rs Ha Hl IH]; [constructor|]. destruct r as [b|e].
  - change (collect id (Ok b :: rs)) with (bs ← collect id rs; Ok (b :: bs)).
    destruct (collect id rs) as [bs|e]; cbn; [by constructor|].
    destruct IH as (front & a' & rest & -> & Hf & He). exists (a :: front), a', rest.
    split; [done|]. split; [constructor; [by exists b|done]|done].
  - exists [], a, l. by repeat split.
Qed.

(** What the tasks of a run have done. *)
Lemma tasks_run mode order tasks w w0 r w' :
  rtc G w0 w →
  runs others match mode with
    | Sequential => collect_io (run_task team c) tasks
    | Parallel => results ← join_all order (run_task team c <$> tasks); Done (collect id results)
    end w r w' →
  match r with
  | Ok outputs => Forall2 (task_done G team c w0) tasks outputs
  | Err e => ∃ front t rest, tasks = front ++ t :: rest ∧
      Forall (λ t, ∃ o, task_done G team c w0 t o) front ∧ task_fails G team c w0 t e ∧
      (mode = Parallel → Forall (task_ended w0) tasks)
  end.
Proof.
  intros H0 H. destruct mode.
  - apply (runs_collect others G) in H; [|done|intros t _; apply acts_run_task]. destruct r as [outputs|e].
    + eapply Forall2_impl; [exact H|]. intros t o (w1 & w2 & H1 & Hr).
      by apply (run_task_runs t w0 w1 (Ok o) w2); [etrans|].
    + destruct H as (front & t & rest & -> & Hf & w1 & w2 & H1 & Hr).
      exists front, t, rest. split; [done|]. split; [|split; [|done]].
      * eapply Forall_impl; [exact Hf|]. intros t' (o & w3 & w4 & H3 & Hr3). exists o.
        by apply (run_task_runs t' w0 w3 (Ok o) w4); [etrans|].
      * by apply (run_task_runs t w0 w1 (Err e) w2); [etrans|].
  - assert (Forall (acts G) (run_task team c <$> tasks)) as Hacts
      by (apply Forall_fmap, Forall_true; intros t; apply acts_run_task).
    apply runs_bind in H as [(rs & w1 & Hj & [-> _]%runs_Done)|(e & Hj & ->)];
      apply (runs_join_all others G) in Hj as (rs' & [= ->] & Hrs); [|done..].
    apply Forall2_fmap_l in Hrs.
    pose proof (collect_results _ _ _ (Forall2_impl _ _ _ _ Hrs (λ t x Hx, run_task_runs t w0 w x w1 H0 Hx))) as Hc.
    cbn in Hc. destruct (collect id rs') as [outputs|e]; [done|].
    destruct Hc as (front & t & rest & -> & Hf & Ht). exists front, t, rest.
    split; [done|]. split; [done|]. split; [done|]. intros _.
    apply Forall_lookup. intros i t' Hi. destruct (Forall2_lookup_l _ _ _ _ _ Hrs Hi) as (x & _ & Hx).
    by exists x, w, w1.
Qed.

(** C35: The course of a team's run. The outputs of a run that ends well are those of its
    tasks in their order, one by one, each
    the output of the task's agent for its messages, whatever the mode and the
    interleaving, and their usages are added up; its tasks are then at most [max_tasks],
    of distinct identifiers that are not blank, with messages, for registered agents.
    A run fails in one of three ways. Either the request is over (cancelled or past its
    deadline at one of the team's own checks), and nothing is said of the tasks; or the
    tasks were refused; or it fails with the error of the first task in the
    order that has failed, all before it having been done, and in parallel mode every
    task having run to its end. *)
Theorem team_run_course tasks mode order w r w' :
  runs others (AgentTeam_run team c tasks mode order) w r w' →
  match r with
  | Ok out => tasks_ok team tasks ∧ Forall2 (task_done G team c w) tasks (team_tasks out) ∧
      team_usage out = outputs_usage (team_tasks out)
  | Err e => over G c w e ∨ (¬ tasks_ok team tasks ∧ validate_tasks team tasks = Err e) ∨
      tasks_ok team tasks ∧ ∃ front t rest, tasks = front ++ t :: rest ∧
        Forall (λ t, ∃ o, task_done G team c w t o) front ∧ task_fails G team c w t e ∧
        (mode = Parallel → Forall (task_ended w) tasks)
  end.
Proof.
  intros [([] & w1 & [[_ H1]|(? & ? & [=] & _)]%check_context_runs & H)|
    (e & [[[=] _]|(? & w1 & [= <-] & H1 & Hi)]%check_context_runs & ->)]%runs_bind.
  2:{ left. exists w1. split; [by eapply rtc_subrel|done]. }
  assert (rtc G w w1) as HG1 by by eapply rtc_subrel.
  pose proof (validate_tasks_ok team tasks) as Hv. destruct (validate_tasks team tasks) as [[]|e].
  2:{ apply runs_bind in H as [(? & ? & [[=] _]%runs_Done & _)|(? & [[= ->] _]%runs_Done & ->)].
      right. left. split; [|done]. intros Hok. by apply Hv in Hok. }
  assert (tasks_ok team tasks) as Hok by by apply Hv.
  apply runs_bind in H as [([] & w2 & [_ H2]%runs_Done & H)|(? & [[=] _]%runs_Done & _)].
  assert (rtc G w w2) as HG2 by (etrans; [exact HG1|]; by eapply rtc_subrel).
  apply runs_bind in H as [(outputs & w3 & Ho & H)|(e & He%(tasks_run _ _ _ _ w) & ->)]; [|by right; right|done].
  pose proof Ho as Hd. apply (tasks_run _ _ _ _ w) in Hd; [|done].
  apply runs_bind in H as [([] & w4 & [[_ H4]|(? & ? & [=] & _)]%check_context_runs & [-> _]%runs_Done)|
    (e & [[[=] _]|(? & w4 & [= <-] & H4 & Hi)]%check_context_runs & ->)]; [done|].
  left. exists w4. split; [|done]. etrans; [exact HG2|]. etrans; [|by eapply rtc_subrel].
  eapply acts_rtc; [exact Hothers| |exact Ho]. destruct mode.
  - apply acts_collect. intros t _. apply acts_run_task.
  - apply acts_bind; [|done]. apply acts_join_all, Forall_fmap, Forall_true. intros t. apply acts_run_task.
Qed.

(** ** Delegation *)

Definition delegated (agent prompt : rstr) : AgentTask :=
  {| at_id := lit "delegate-" ++ agent; at_agent := agent; at_messages := [Message_user prompt] |}.

Lemma acts_delegation arguments : acts G (DelegationTool_invoke team c arguments).
Proof.
  unfold DelegationTool_invoke. destruct (DelegationArguments arguments) as [[agent prompt]|]; [|exact I].
  case_bool_decide; [exact I|]. apply acts_bind; [apply acts_run_task|]. by intros result.
Qed.

(** The delegation tool of a team answers only for arguments that name an agent and
    hold a prompt that is not blank, and its answer reports what a registered agent
    of that name has said to the prompt alone; otherwise it fails, with the reason. *)
Theorem delegation_course arguments w r w' :
  runs others (DelegationTool_invoke team c arguments) w r w' →
  match r with
  | Ok v => ∃ agent prompt o, DelegationArguments arguments = Some (agent, prompt) ∧ trim prompt ≠ [] ∧
      task_done G team c w (delegated agent prompt) o ∧
      v = json_object [(lit "task_id", VString (lit "delegate-" ++ agent)); (lit "agent", VString agent);
                       (lit "message", message_json (o_message (to_output o)));
                       (lit "steps", VNumber (number_of (o_steps (to_output o))));
                       (lit "usage", usage_json (o_usage (to_output o)))]
  | Err e =>
      (DelegationArguments arguments = None ∧
        e = InvalidTeam (lit "invalid delegation arguments: " ++ de_error arguments)) ∨
      ∃ agent prompt, DelegationArguments arguments = Some (agent, prompt) ∧
        ((trim prompt = [] ∧ e = InvalidTeam (lit "delegation prompt cannot be empty")) ∨
         (trim prompt ≠ [] ∧ task_fails G team c w (delegated agent prompt) e))
  end.
Proof.
  unfold DelegationTool_invoke. destruct (DelegationArguments arguments) as [[agent prompt]|].
  2:{ intros [-> _]%runs_Done. by left. }
  case_bool_decide as Hp; [intros [-> _]%runs_Done; right; exists agent, prompt; split; [done|by left]|].
  intros [(o & w1 & Ho & [-> _]%runs_Done)|(e & He & ->)]%runs_bind.
  - apply (runs_mono _ G) in Ho; [|done]. apply (run_task_runs _ w) in Ho as (Hid & Hag & Ho); [|done].
    exists agent, prompt, o. split; [done|]. split; [done|]. split; [done|]. by rewrite Hid, Hag.
  - apply (runs_mono _ G) in He; [|done]. apply (run_task_runs _ w) in He; [|done].
    right. exists agent, prompt. split; [done|]. by right.
Qed.
End run.

(** What an agent does that has nothing but the delegation tool of a team is what its
    model does and, if the request has the permissions of the tool, what the agents
    of the team do for that request: an agent that may not delegate acts by its model
    alone, and one that may cannot reach beyond its team. *)
Theorem delegation_stays_in_team (G : relation W) `{!Reflexive G} (team : AgentTeam) (c : Context)
    (ag : Agent W Number) (name description : rstr) (required : list rstr) (run_id : rstr) messages :
  ag_tools ag = {[ name := delegation_tool team name description required ]} →
  (∀ request, acts G (ag_model ag c request)) →
  (has_permissions required c = true → ∀ n agent ms, agents team !! n = Some agent → acts G (agent c ms)) →
  acts G (Agent_invoke cells clock ag c run_id messages).
Proof.
  intros Htools Hmodel Hteam. apply acts_bind; [by apply acts_check_context|intros _].
  destruct messages as [|m messages]; [exact I|]. apply acts_agent_loop; [done|done|].
  intros n tool arguments w Ht Hp. rewrite Htools in Ht. apply lookup_singleton_Some in Ht as [_ <-].
  apply acts_delegation; [done|]. by apply Hteam.
Qed.
End team.
Arguments AgentTask : clear implicits.
Arguments AgentTaskOutput : clear implicits.
Arguments TeamOutput : clear implicits.
Arguments AgentTeam : clear implicits.
Arguments AgentExecutor : clear implicits.

(** ** A team at work *)

Definition ex_executor : AgentExecutor ExWorld N := Agent_executor ex_cells ex_now (λ _, lit "run") ex_agent.

Definition ex_team : AgentTeam ExWorld N :=
  {| agents := list_to_map [(lit "research", ex_executor); (lit "review", ex_executor)]; max_tasks := 2 |}.

Definition ex_tasks : list (AgentTask N) :=
  [{| at_id := lit "one"; at_agent := lit "research"; at_messages := [Message_user (lit "a")] |};
   {| at_id := lit "two"; at_agent := lit "review"; at_messages := [Message_user (lit "b")] |}].

(** The second task is given its turns first. *)
Definition ex_parallel :=
  exec (AgentTeam_run ex_cells ex_now ex_team ex_context ex_tasks Parallel (replicate 12 1%nat))
    (ex_world [Ok (response_text (lit "first")); Ok (response_text (lit "second"))]).

Definition said (o : AgentTaskOutput N) : rstr * Message N := (to_task_id o, o_message (to_output o)).

Example ex_interleaved :
  match ex_parallel.1 with Ok out => said <$> team_tasks out | Err _ => [] end =
  [(lit "one", Message_assistant (lit "second")); (lit "two", Message_assistant (lit "first"))].
Proof. by vm_compute. Qed.

Lemma team_run_course_witness :
  ∃ out, ex_parallel.1 = Ok out ∧ length (team_tasks out) = 2%nat ∧
    Forall2 (task_done (λ _ _, True) ex_team ex_context
      (ex_world [Ok (response_text (lit "first")); Ok (response_text (lit "second"))])) ex_tasks (team_tasks out).
Proof.
  pose proof (team_run_course ex_cells ex_now ex_team ex_context (λ _ _, False) (λ _ _, True)
    (λ _ _ H, False_ind _ H) (λ _ _ _ _, acts_any _)
    ex_tasks Parallel (replicate 12 1%nat) _ ex_parallel.1 ex_parallel.2
    (exec_runs _ _ _ _ _ (surjective_pairing _))) as H.
  assert (∃ out, ex_parallel.1 = Ok out ∧ length (team_tasks out) = 2%nat) as (out & Hout & Hn)
    by (eexists; split; vm_compute; reflexivity).
  rewrite Hout in H. destruct H as (_ & Hd & _). exists out. by repeat split.
Defined.

Definition ex_arguments : @Value N := json_object [(lit "agent", VString (lit "research")); (lit "prompt", VString (lit "go"))].

Definition ex_delegation :=
  exec (DelegationTool_invoke ex_cells ex_now id (λ _, []) ex_team ex_context ex_arguments)
    (ex_world [Ok (response_text (lit "found"))]).

Lemma delegation_course_witness :
  ∃ v, ex_delegation.1 = Ok v ∧ ∃ agent prompt, DelegationArguments ex_arguments = Some (agent, prompt) ∧ trim prompt ≠ [].
Proof.
  pose proof (delegation_course ex_cells ex_now id (λ _, []) ex_team ex_context (λ _ _, False) (λ _ _, True)
    (λ _ _ H, False_ind _ H) (λ _ _ _ _, acts_any _) ex_arguments _ ex_delegation.1 ex_delegation.2
    (exec_runs _ _ _ _ _ (surjective_pairing _))) as H.
  assert (is_ok ex_delegation.1 = true) as Hok by (vm_compute; reflexivity).
  revert Hok H. generalize ex_delegation.1. intros [v|e] Hok H; [|discriminate Hok].
  destruct H as (agent & prompt & o & Ha & Hp & _). exists v. split; [reflexivity|].
  exists agent, prompt. exact (conj Ha Hp).
Defined.

Definition ex_coordinator : Agent ExWorld N :=
  {| ag_model_name := lit "mock"; ag_model := ex_mock; ag_options := AgentOptions_default;
     ag_tools := {[ lit "delegate" := delegation_tool ex_cells ex_now id (λ _, []) ex_team (lit "delegate") []
                                        [lit "ai.delegate"] ]} |}.

(** The request of the example may not delegate: nothing is ever written down. *)
Lemma delegation_stays_in_team_witness :
  acts (λ w w', ex_log w' = ex_log w)
    (Agent_invoke ex_cells ex_now ex_coordinator ex_context (lit "run") [Message_user (lit "a")]).
Proof.
  eapply (delegation_stays_in_team ex_cells ex_now id (λ _, [])).
  - done.
  - reflexivity.
  - intros request. split; [|done]. intros w. cbn. by destruct (ex_responses w).
  - intros Hp. by vm_compute in Hp.
Defined.
