(* ===== verification/AiRuntime.v ===== *)
(** * The AI runtime and its configuration (crates/roze-ai/src/runtime.rs, crates/roze-config/src/lib.rs)

    The configuration of providers and its validation, and the runtime built from it:
    chat models, decision models and tools under their names. Building the client of
    a provider is a parameter, and so is the parser of URLs. *)

From S2P Require Import Prelude Text Scan Graph Context ConfigDiff Async Agent.

(** ** Configuration *)

Inductive AiProviderKind := OpenaiCompatible | TypesafeSystemOne.
#[export] Instance AiProviderKind_eq_dec : EqDecision AiProviderKind.
Proof. solve_decision. Defined.

Record AiProviderConfig :=
  { ap_kind : AiProviderKind; ap_base_url : rstr; ap_api_key : option rstr; ap_model : rstr; ap_timeout_ms : N }.
Record AiConfig :=
  { ac_default_provider : rstr; ac_max_steps : N; ac_providers : gmap rstr AiProviderConfig }.

(** What the validation reads of a parsed URL. *)
Record ParsedUrl := { url_scheme : rstr; url_username : rstr; url_password : option rstr }.

Section config.
Context (url_parse : rstr → option ParsedUrl).

Definition ensure_that (cond : bool) (message : rstr) : result rstr unit := if cond then Ok tt else Err message.
Definition not_blank (s : rstr) : bool := negb (bool_decide (trim s = [])).

Definition AiProviderConfig_validate (p : AiProviderConfig) : result rstr unit :=
  _ ← ensure_that (not_blank (ap_base_url p)) (lit "base_url must not be empty");
  url ← ok_or (url_parse (ap_base_url p)) (quoted (lit "base_url ") (ap_base_url p) (lit " is not a valid URL"));
  _ ← ensure_that (str_in [lit "http"; lit "https"] (url_scheme url)) (lit "base_url must use http or https");
  _ ← ensure_that (str_is_empty (url_username url) && bool_decide (url_password url = None))
        (lit "base_url must not contain credentials");
  _ ← ensure_that (not_blank (ap_model p)) (lit "model must not be empty");
  ensure_that (0 <? ap_timeout_ms p) (lit "timeout_ms must be greater than zero").

Definition default_provider_config (config : AiConfig) : option AiProviderConfig :=
  ac_providers config !! ac_default_provider config.

(** The body of the loop over the providers; the context of an error is what shows. *)
Definition validate_provider (np : rstr * AiProviderConfig) : result rstr unit :=
  _ ← ensure_that (not_blank np.1) (lit "ai.providers contains an empty provider name");
  map_err (λ _, lit "invalid ai.providers." ++ np.1) (AiProviderConfig_validate np.2).

Definition AiConfig_validate (config : AiConfig) : result rstr unit :=
  _ ← ensure_that (not_blank (ac_default_provider config)) (lit "ai.default_provider must not be empty");
  _ ← ensure_that ((1 <=? ac_max_steps config) && (ac_max_steps config <=? 64)) (lit "ai.max_steps must be between 1 and 64");
  _ ← ensure_that (negb (bool_decide (ac_providers config = ∅))) (lit "ai.providers must contain at least one provider");
  _ ← ensure_that (bool_decide (is_Some (default_provider_config config)))
        (quoted (lit "ai.default_provider ") (ac_default_provider config) (lit " is not declared in ai.providers"));
  _ ← ensure_that (match default_provider_config config with
                   | Some p => bool_decide (ap_kind p = OpenaiCompatible) | None => false end)
        (lit "ai.default_provider must reference a chat model; typesafe_system_one is a decision model");
  _ ← collect validate_provider (btree_iter (ac_providers config));
  Ok tt.

(** ** The runtime *)

Context {W Number : Type} (cells : W → Cells) (clock : W → N) {SystemOne : Type}.
Abbreviation Model := (@ChatModel W Number).
Context (openai_compatible : AiProviderConfig → result AiError Model).
Context (system_one : AiProviderConfig → result AiError SystemOne).

Record AiRuntime :=
  { default_model : rstr; models : gmap rstr Model; system_one_models : gmap rstr SystemOne;
    rt_tools : gmap rstr (Tool W Number); default_agent_options : AgentOptions Number }.

Definition validate_model_name (name : rstr) : result AiError unit :=
  if bool_decide (trim name = []) then Err (InvalidRequest (lit "AI model name cannot be empty")) else Ok tt.

Definition AiRuntime_new (name : rstr) (model : Model) : result AiError AiRuntime :=
  _ ← validate_model_name name;
  Ok {| default_model := name; models := {[ name := model ]}; system_one_models := ∅; rt_tools := ∅;
        default_agent_options := AgentOptions_default |}.

(** Registering takes a name that no model has, of either sort. *)
Definition name_free (rt : AiRuntime) (name : rstr) : result AiError unit :=
  _ ← validate_model_name name;
  if bool_decide (is_Some (models rt !! name)) || bool_decide (is_Some (system_one_models rt !! name))
  then Err (InvalidRequest (quoted (lit "AI model ") name (lit " is already registered"))) else Ok tt.

Definition register_model (name : rstr) (model : Model) (rt : AiRuntime) : result AiError AiRuntime :=
  _ ← name_free rt name;
  Ok {| default_model := default_model rt; models := <[name := model]> (models rt);
        system_one_models := system_one_models rt; rt_tools := rt_tools rt;
        default_agent_options := default_agent_options rt |}.

Definition register_system_one_model (name : rstr) (model : SystemOne) (rt : AiRuntime) : result AiError AiRuntime :=
  _ ← name_free rt name;
  Ok {| default_model := default_model rt; models := models rt;
        system_one_models := <[name := model]> (system_one_models rt); rt_tools := rt_tools rt;
        default_agent_options := default_agent_options rt |}.

Definition register_tool (definition : ToolDefinition Number) (tool : Tool W Number) (rt : AiRuntime)
    : result AiError AiRuntime :=
  tools ← register_arc definition tool (rt_tools rt);
  Ok {| default_model := default_model rt; models := models rt; system_one_models := system_one_models rt;
        rt_tools := tools; default_agent_options := default_agent_options rt |}.

Definition chat_model_from_config (p : AiProviderConfig) : result AiError Model :=
  match ap_kind p with
  | OpenaiCompatible => openai_compatible p
  | TypesafeSystemOne => Err (InvalidRequest (lit
      "ai.default_provider must reference a chat model; TypeSafe System One is a decision model"))
  end.

(** The body of the loop over the providers, and the loop. *)
Definition register_provider (default_provider name : rstr) (p : AiProviderConfig) (rt : AiRuntime)
    : result AiError AiRuntime :=
  if bool_decide (name = default_provider) then Ok rt
  else match ap_kind p with
  | OpenaiCompatible => m ← chat_model_from_config p; register_model name m rt
  | TypesafeSystemOne => m ← system_one p; register_system_one_model name m rt
  end.
Fixpoint register_providers (default_provider : rstr) (providers : list (rstr * AiProviderConfig)) (rt : AiRuntime)
    : result AiError AiRuntime :=
  match providers with
  | [] => Ok rt
  | (name, p) :: providers' =>
      rt ← register_provider default_provider name p rt;
      register_providers default_provider providers' rt
  end.

Definition with_max_steps (n : N) (rt : AiRuntime) : AiRuntime :=
  {| default_model := default_model rt; models := models rt; system_one_models := system_one_models rt;
     rt_tools := rt_tools rt;
     default_agent_options := {| max_steps := n; generation := generation (default_agent_options rt) |} |}.

Definition from_config (config : AiConfig) : result AiError AiRuntime :=
  _ ← map_err InvalidRequest (AiConfig_validate config);
  p ← ok_or (default_provider_config config)
        (InvalidRequest (quoted (lit "AI default provider ") (ac_default_provider config) (lit " is not configured")));
  m ← chat_model_from_config p;
  rt ← AiRuntime_new (ac_default_provider config) m;
  register_providers (ac_default_provider config) (btree_iter (ac_providers config))
    (with_max_steps (ac_max_steps config) rt).

Definition runtime_agent (rt : AiRuntime) (model_name : option rstr) (options : AgentOptions Number)
    : result AiError (Agent W Number) :=
  let name := default (default_model rt) model_name in
  match models rt !! name with
  | None => Err (ModelNotFound name)
  | Some m => Agent_new name m (rt_tools rt) options
  end.

Definition AiRuntime_invoke (rt : AiRuntime) (c : Context) (run_id : rstr) (messages : list (Message Number))
    : io W AiError (AgentOutput Number) :=
  match runtime_agent rt None (default_agent_options rt) with
  | Err e => Done (Err e)
  | Ok ag => Agent_invoke cells clock ag c run_id messages
  end.

(** ** Configurations that are valid *)

Definition url_ok (raw : rstr) : Prop :=
  ∃ u, url_parse raw = Some u ∧ url_scheme u ∈ [lit "http"; lit "https"] ∧ url_username u = [] ∧ url_password u = None.
Definition provider_ok (p : AiProviderConfig) : Prop :=
  trim (ap_base_url p) ≠ [] ∧ url_ok (ap_base_url p) ∧ trim (ap_model p) ≠ [] ∧ 0 < ap_timeout_ms p.
Definition config_ok (config : AiConfig) : Prop :=
  1 ≤ ac_max_steps config ≤ 64 ∧
  (∃ p, ac_providers config !! ac_default_provider config = Some p ∧ ap_kind p = OpenaiCompatible) ∧
  map_Forall (λ name p, trim name ≠ [] ∧ provider_ok p) (ac_providers config).

Lemma ensure_that_bind {A} b msg (k : unit → result rstr A) a :
  (ensure_that b msg ≫= k) = Ok a ↔ b = true ∧ k tt = Ok a.
Proof. destruct b; cbn; naive_solver. Qed.

Lemma ensure_that_ok b msg : ensure_that b msg = Ok tt ↔ b = true.
Proof. destruct b; cbn; naive_solver. Qed.

Lemma not_blank_true s : not_blank s = true ↔ trim s ≠ [].
Proof. unfold not_blank. case_bool_decide; naive_solver. Qed.

Lemma provider_validate_ok p : AiProviderConfig_validate p = Ok tt ↔ provider_ok p.
Proof.
  unfold AiProviderConfig_validate, provider_ok, url_ok. rewrite ensure_that_bind, not_blank_true.
  destruct (url_parse (ap_base_url p)) as [u|]; [|cbn; naive_solver].
  cbn [ok_or mbind result_bind]. rewrite !ensure_that_bind, ensure_that_ok, str_in_spec, not_blank_true.
  rewrite andb_true_iff, bool_decide_eq_true, N.ltb_lt.
  assert (str_is_empty (url_username u) = true ↔ url_username u = []) as -> by by destruct (url_username u).
  naive_solver.
Qed.

Lemma validate_provider_ok np : validate_provider np = Ok tt ↔ trim np.1 ≠ [] ∧ provider_ok np.2.
Proof.
  unfold validate_provider. rewrite ensure_that_bind, not_blank_true, <- provider_validate_ok.
  destruct (AiProviderConfig_validate np.2) as [[]|e]; cbn; naive_solver.
Qed.

Lemma config_validate_ok config : AiConfig_validate config = Ok tt ↔ config_ok config.
Proof.
  unfold AiConfig_validate, config_ok, default_provider_config.
  rewrite !ensure_that_bind, !not_blank_true, negb_true_iff, andb_true_iff, !N.leb_le.
  rewrite bool_decide_eq_false, bool_decide_eq_true.
  assert (collect validate_provider (btree_iter (ac_providers config)) ≫= (λ _, Ok tt) = Ok tt ↔
    map_Forall (λ name p, trim name ≠ [] ∧ provider_ok p) (ac_providers config)) as ->.
  { rewrite map_Forall_lookup. setoid_rewrite <- elem_of_btree_iter.
    transitivity (is_ok (collect validate_provider (btree_iter (ac_providers config))) = true).
    { destruct (collect _ _); cbn; naive_solver. }
    rewrite collect_unit_ok. setoid_rewrite validate_provider_ok. split; [intros H n p; apply (H (n, p))|].
    intros H [n p]. apply H. }
  destruct (ac_providers config !! ac_default_provider config) as [p|] eqn:Ep; [|naive_solver].
  rewrite bool_decide_eq_true. split; [naive_solver|]. intros (Hm & (p' & [= <-] & Hk) & Hall).
  split; [by destruct (Hall _ _ Ep)|]. split; [done|]. split; [intros He; by rewrite He in Ep|]. by split_and!.
Qed.

(** ** Building a runtime *)

Definition client_fails (p : AiProviderConfig) (e : AiError) : Prop :=
  match ap_kind p with
  | OpenaiCompatible => openai_compatible p = Err e
  | TypesafeSystemOne => system_one p = Err e
  end.

(** The models of one sort that a list of providers declares. *)
Definition declares {M} (k : AiProviderKind) (build : AiProviderConfig → result AiError M)
    (providers : list (rstr * AiProviderConfig)) (name : rstr) (m : M) : Prop :=
  ∃ p, (name, p) ∈ providers ∧ ap_kind p = k ∧ build p = Ok m.

Lemma name_free_ok rt name :
  trim name ≠ [] → models rt !! name = None → system_one_models rt !! name = None → name_free rt name = Ok tt.
Proof.
  intros Hb Hm Hs. apply eq_None_not_Some in Hm, Hs. unfold name_free, validate_model_name.
  rewrite !bool_decide_eq_false_2 by done. done.
Qed.

Lemma declares_cons {M} k (build : AiProviderConfig → result AiError M) n p ps name m :
  declares k build ((n, p) :: ps) name m ↔ (name = n ∧ ap_kind p = k ∧ build p = Ok m) ∨ declares k build ps name m.
Proof. unfold declares. setoid_rewrite elem_of_cons. naive_solver. Qed.

Definition same_settings (rt rt' : AiRuntime) : Prop :=
  default_model rt' = default_model rt ∧ rt_tools rt' = rt_tools rt ∧
  default_agent_options rt' = default_agent_options rt.
Definition unused (rt : AiRuntime) (name : rstr) : Prop :=
  models rt !! name = None ∧ system_one_models rt !! name = None.

Lemma insert_free {M} (ms : gmap rstr M) n m name m' :
  ms !! n = None → <[n := m]> ms !! name = Some m' ↔ ms !! name = Some m' ∨ (name = n ∧ m = m').
Proof.
  intros Hf. destruct (decide (n = name)) as [<-|Hne]; [rewrite lookup_insert_eq, Hf|rewrite lookup_insert_ne by done]; naive_solver.
Qed.

Lemma register_provider_spec d n p rt :
  trim n ≠ [] → (n ≠ d → unused rt n) →
  match register_provider d n p rt with
  | Ok rt' => same_settings rt rt' ∧
      (∀ name m, models rt' !! name = Some m ↔ models rt !! name = Some m ∨
        (name ≠ d ∧ name = n ∧ ap_kind p = OpenaiCompatible ∧ openai_compatible p = Ok m)) ∧
      (∀ name m, system_one_models rt' !! name = Some m ↔ system_one_models rt !! name = Some m ∨
        (name ≠ d ∧ name = n ∧ ap_kind p = TypesafeSystemOne ∧ system_one p = Ok m))
  | Err e => client_fails p e
  end.
Proof.
  intros Hb Hf. unfold register_provider. case_bool_decide as Hd; [repeat split; naive_solver|].
  destruct (Hf Hd) as [Hm Hs]. destruct (ap_kind p) eqn:Ek.
  - unfold chat_model_from_config. rewrite Ek. destruct (openai_compatible p) as [m|e] eqn:Em; cbn [mbind result_bind];
      [|unfold client_fails; by rewrite Ek].
    unfold register_model. rewrite name_free_ok by done. cbn. setoid_rewrite (insert_free _ n m _ _ Hm).
    repeat split; naive_solver.
  - destruct (system_one p) as [m|e] eqn:Em; cbn [mbind result_bind]; [|unfold client_fails; by rewrite Ek].
    unfold register_system_one_model. rewrite name_free_ok by done. cbn. setoid_rewrite (insert_free _ n m _ _ Hs).
    repeat split; naive_solver.
Qed.

Lemma register_providers_spec d ps rt :
  NoDup ps.*1 → Forall (λ np, trim np.1 ≠ [] ∧ (np.1 ≠ d → unused rt np.1)) ps →
  match register_providers d ps rt with
  | Ok rt' => same_settings rt rt' ∧
      (∀ name m, models rt' !! name = Some m ↔
        models rt !! name = Some m ∨ (name ≠ d ∧ declares OpenaiCompatible openai_compatible ps name m)) ∧
      (∀ name m, system_one_models rt' !! name = Some m ↔
        system_one_models rt !! name = Some m ∨ (name ≠ d ∧ declares TypesafeSystemOne system_one ps name m))
  | Err e => ∃ name p, (name, p) ∈ ps ∧ client_fails p e
  end.
Proof.
  revert rt. induction ps as [|[n p] ps IH]; intros rt Hnd Hf; cbn [register_providers].
  { split; [by repeat split|]. unfold declares. setoid_rewrite elem_of_nil. naive_solver. }
  apply NoDup_cons in Hnd as [Hn Hnd]. apply Forall_cons in Hf as [[Hb Hf] Hfs]. cbn [fst] in *.
  pose proof (register_provider_spec d n p rt Hb Hf) as Hstep.
  destruct (register_provider d n p rt) as [rt1|e]; cbn [mbind result_bind]; [|exists n, p; split; [by left|done]].
  destruct Hstep as ((H1 & H2 & H3) & Hm & Hs). specialize (IH rt1 Hnd).
  assert (Forall (λ np, trim np.1 ≠ [] ∧ (np.1 ≠ d → unused rt1 np.1)) ps) as Hfs1.
  { apply Forall_forall. intros [n' p'] Hp. destruct (proj1 (Forall_forall _ _) Hfs _ Hp) as [Hb' Hf'].
    split; [done|]. intros Hne. destruct (Hf' Hne) as [Hm0 Hs0]. cbn [fst] in *.
    assert (n' ≠ n) as Hnn by (intros ->; apply Hn, list_elem_of_fmap; by exists (n, p')).
    split; apply eq_None_not_Some; intros [x Hx];
      [apply Hm in Hx as [Hx|(_ & Hx & _)]|apply Hs in Hx as [Hx|(_ & Hx & _)]]; congruence. }
  specialize (IH Hfs1). destruct (register_providers d ps rt1) as [rt'|e].
  - destruct IH as ((H4 & H5 & H6) & Hm' & Hs'). split; [unfold same_settings; by rewrite H4, H5, H6|].
    split; intros name m; rewrite declares_cons; [rewrite Hm', Hm|rewrite Hs', Hs]; tauto.
  - destruct IH as (name & p' & Hp & He). exists name, p'. split; [by right|done].
Qed.

(** The models of one sort that a configuration declares. *)
Definition configured {M} (k : AiProviderKind) (build : AiProviderConfig → result AiError M)
    (config : AiConfig) (name : rstr) (m : M) : Prop :=
  ∃ p, ac_providers config !! name = Some p ∧ ap_kind p = k ∧ build p = Ok m.

Lemma declares_configured {M} k (build : AiProviderConfig → result AiError M) config name m :
  declares k build (btree_iter (ac_providers config)) name m ↔ configured k build config name m.
Proof. unfold declares, configured. by setoid_rewrite elem_of_btree_iter. Qed.

(** A runtime is built exactly from valid configurations whose providers' clients can
    be built: under each name of a provider it has that provider's client, as a chat
    model or a decision model by its kind, and nothing else; the default model is the
    default provider, the bound of steps the configured one. Building fails only with
    what the validation says, or with the error of a client: never because a provider
    is missing or a name is taken. *)
Theorem runtime_reflects_config config :
  match from_config config with
  | Ok rt => config_ok config ∧ default_model rt = ac_default_provider config ∧
      max_steps (default_agent_options rt) = ac_max_steps config ∧ rt_tools rt = ∅ ∧
      (∀ name m, models rt !! name = Some m ↔ configured OpenaiCompatible openai_compatible config name m) ∧
      (∀ name m, system_one_models rt !! name = Some m ↔ configured TypesafeSystemOne system_one config name m)
  | Err e =>
      (¬ config_ok config ∧ ∃ message, AiConfig_validate config = Err message ∧ e = InvalidRequest message) ∨
      (config_ok config ∧ ∃ name p, ac_providers config !! name = Some p ∧ client_fails p e)
  end.
Proof.
  unfold from_config. pose proof (config_validate_ok config) as Hv.
  destruct (AiConfig_validate config) as [[]|message]; cbn [map_err mbind result_bind].
  2:{ left. split; [intros Hok; by apply Hv in Hok|by exists message]. }
  assert (config_ok config) as Hok by by apply Hv. destruct Hok as (Hsteps & (p & Hp & Hk) & Hall).
  unfold default_provider_config, chat_model_from_config. rewrite Hp. cbn [ok_or mbind result_bind]. rewrite Hk.
  destruct (openai_compatible p) as [m|e] eqn:Em; cbn [mbind result_bind].
  2:{ right. split; [by apply Hv|]. exists (ac_default_provider config), p. split; [done|]. unfold client_fails. by rewrite Hk. }
  assert (trim (ac_default_provider config) ≠ []) as Hd by by destruct (Hall _ _ Hp).
  unfold AiRuntime_new, validate_model_name. rewrite bool_decide_eq_false_2 by done. cbn [mbind result_bind].
  match goal with |- context [register_providers ?d ?ps ?r] =>
    pose proof (register_providers_spec d ps r) as Hr; set (rt0 := r) in * end.
  rewrite btree_iter_keys in Hr. specialize (Hr (NoDup_btree_keys _)).
  assert (Forall (λ np, trim np.1 ≠ [] ∧ (np.1 ≠ ac_default_provider config → unused rt0 np.1))
    (btree_iter (ac_providers config))) as Hfree.
  { apply Forall_forall. intros [n q] Hq%elem_of_btree_iter. destruct (Hall _ _ Hq) as [Hn _]. split; [done|].
    intros Hne. split; [|done]. by apply lookup_singleton_ne. }
  specialize (Hr Hfree). destruct (register_providers _ _ rt0) as [rt|e].
  - destruct Hr as ((H1 & H2 & H3) & Hm & Hs).
    split; [by apply Hv|]. rewrite H1, H2, H3. do 3 (split; [done|]). split.
    + intros name m'. rewrite Hm, declares_configured. cbn [rt0 models with_max_steps].
      rewrite lookup_singleton_Some. split; [intros [[<- <-]|[_ Hc]]; [by exists p|done]|].
      intros Hc. destruct (decide (name = ac_default_provider config)) as [->|Hne]; [left|by right].
      destruct Hc as (q & Hq & _ & Hb). rewrite Hp in Hq. split; [done|]. congruence.
    + intros name m'. rewrite Hs, declares_configured. cbn [rt0 system_one_models with_max_steps].
      rewrite lookup_empty. split; [intros [[=]|[_ Hc]]; done|]. intros Hc. right. split; [|done].
      intros ->. destruct Hc as (q & Hq & Hkq & _). congruence.
  - right. split; [by apply Hv|]. destruct Hr as (name & q & Hq%elem_of_btree_iter & He). by exists name, q.
Qed.

(** ** Names *)

(** Runtimes: a chat model under its name or a configuration, and what is registered. *)
Inductive runtime_built : AiRuntime → Prop :=
| built_new name model rt : AiRuntime_new name model = Ok rt → runtime_built rt
| built_from_config config rt : from_config config = Ok rt → runtime_built rt
| built_model rt name model rt' : runtime_built rt → register_model name model rt = Ok rt' → runtime_built rt'
| built_system_one rt name model rt' :
    runtime_built rt → register_system_one_model name model rt = Ok rt' → runtime_built rt'
| built_tool rt definition tool rt' : runtime_built rt → register_tool definition tool rt = Ok rt' → runtime_built rt'.

Definition names_sound (rt : AiRuntime) : Prop :=
  is_Some (models rt !! default_model rt) ∧ 0 < max_steps (default_agent_options rt) ∧
  (∀ name, is_Some (models rt !! name) → trim name ≠ [] ∧ system_one_models rt !! name = None) ∧
  (∀ name, is_Some (system_one_models rt !! name) → trim name ≠ []) ∧
  (∀ name, is_Some (rt_tools rt !! name) → trim name ≠ []).

Lemma name_free_inv rt name : name_free rt name = Ok tt → trim name ≠ [] ∧ unused rt name.
Proof.
  unfold name_free, validate_model_name, unused.
  destruct (bool_decide_reflect (trim name = [])) as [Hb|Hb]; [done|]. cbn [mbind result_bind].
  match goal with |- context [if ?b then _ else _] => destruct b eqn:E end; [done|]. guard_prop.
  by rewrite !eq_None_not_Some.
Qed.

Lemma new_sound name model rt : AiRuntime_new name model = Ok rt → names_sound rt.
Proof.
  unfold AiRuntime_new, validate_model_name. case_bool_decide as Hb; [done|]. intros [= <-].
  unfold names_sound. cbn. setoid_rewrite lookup_empty. rewrite lookup_singleton_eq.
  split_and!; [done|done| |by intros ? [? ?]..]. intros n [m [<- _]%lookup_singleton_Some]. done.
Qed.

Lemma register_model_sound rt name model rt' :
  names_sound rt → register_model name model rt = Ok rt' → names_sound rt'.
Proof.
  intros (H1 & H2 & H3 & H4 & H5). unfold register_model. destruct (name_free rt name) as [[]|] eqn:E; [|done].
  apply name_free_inv in E as (Hb & Hm & Hs). intros [= <-]. unfold names_sound. cbn. split_and!; [|done| |done..].
  - apply lookup_insert_is_Some'. by right.
  - intros n [->|Hn]%lookup_insert_is_Some'; [done|by apply H3].
Qed.

Lemma register_system_one_sound rt name model rt' :
  names_sound rt → register_system_one_model name model rt = Ok rt' → names_sound rt'.
Proof.
  intros (H1 & H2 & H3 & H4 & H5). unfold register_system_one_model.
  destruct (name_free rt name) as [[]|] eqn:E; [|done].
  apply name_free_inv in E as (Hb & Hm & Hs). intros [= <-]. unfold names_sound. cbn. split_and!; [done|done| | |done].
  - intros n Hn. rewrite lookup_insert_ne; [by apply H3|]. intros ->. rewrite Hm in Hn. by destruct Hn.
  - intros n [->|Hn]%lookup_insert_is_Some'; [done|by apply H4].
Qed.

Lemma register_tool_sound rt definition tool rt' :
  names_sound rt → register_tool definition tool rt = Ok rt' → names_sound rt'.
Proof.
  intros (H1 & H2 & H3 & H4 & H5). unfold register_tool, register_arc, validate_tool_definition.
  case_bool_decide as Hb; [done|]. destruct (negb (is_object _)); [done|]. cbn [mbind result_bind].
  destruct (rt_tools rt !! td_name definition); [done|]. intros [= <-]. unfold names_sound. cbn.
  split_and!; [done..|]. intros n [<-|Hn]%lookup_insert_is_Some'; [done|by apply H5].
Qed.

Lemma register_providers_sound d ps rt rt' :
  names_sound rt → register_providers d ps rt = Ok rt' → names_sound rt'.
Proof.
  revert rt. induction ps as [|[n p] ps IH]; intros rt Hs; cbn [register_providers]; [by intros [= <-]|].
  destruct (register_provider d n p rt) as [rt1|e] eqn:E; [|done]. apply IH. revert E.
  unfold register_provider. case_bool_decide; [by intros [= <-]|]. destruct (ap_kind p).
  - destruct (chat_model_from_config p); [|done]. by apply register_model_sound.
  - destruct (system_one p); [|done]. by apply register_system_one_sound.
Qed.

(** However a runtime is made and extended, a name stands for at most one model, chat
    or decision, and is not blank, nor is the name of a tool; its default model is
    always there, so that invoking it always reaches an agent, of at least one step. *)
Theorem runtime_names_sound rt :
  runtime_built rt →
  names_sound rt ∧ ∃ m, models rt !! default_model rt = Some m ∧
    ∀ c run_id messages, AiRuntime_invoke rt c run_id messages =
      Agent_invoke cells clock {| ag_model_name := default_model rt; ag_model := m; ag_tools := rt_tools rt;
                                  ag_options := default_agent_options rt |} c run_id messages.
Proof.
  intros Hb. assert (names_sound rt) as Hs.
  { induction Hb as [name model rt E|config rt E|rt name model rt' _ IH E|rt name model rt' _ IH E|rt d t rt' _ IH E].
    - by eapply new_sound.
    - revert E. unfold from_config. pose proof (config_validate_ok config) as Hv.
      destruct (AiConfig_validate config) as [[]|]; [|done]. cbn [map_err mbind result_bind].
      destruct (proj1 Hv eq_refl) as (Hsteps & _). destruct (ok_or _ _) as [p|]; [|done]. cbn [mbind result_bind].
      destruct (chat_model_from_config p) as [m|]; [|done]. cbn [mbind result_bind].
      destruct (AiRuntime_new _ m) as [rt0|] eqn:E0; [|done]. apply register_providers_sound.
      apply new_sound in E0 as (H1 & H2 & H3). split; [done|]. split; [cbn; lia|done].
    - by eapply register_model_sound.
    - by eapply register_system_one_sound.
    - by eapply register_tool_sound. }
  split; [done|]. destruct Hs as ([m Hm] & Hsteps & _). exists m. split; [done|]. intros c run_id messages.
  unfold AiRuntime_invoke, runtime_agent. cbn [default]. rewrite Hm. unfold Agent_new.
  destruct (N.eqb_spec (max_steps (default_agent_options rt)) 0); [lia|done].
Qed.
End config.

(** ** A configuration *)

Definition ex_provider (k : AiProviderKind) : AiProviderConfig :=
  {| ap_kind := k; ap_base_url := lit "https://ai"; ap_api_key := None; ap_model := lit "m"; ap_timeout_ms := 1 |}.
Definition ex_config : AiConfig :=
  {| ac_default_provider := lit "chat"; ac_max_steps := 4;
     ac_providers := list_to_map [(lit "chat", ex_provider OpenaiCompatible); (lit "decide", ex_provider TypesafeSystemOne)] |}.
Definition ex_url (raw : rstr) : option ParsedUrl :=
  (λ _, {| url_scheme := lit "https"; url_username := []; url_password := None |}) <$> strip_prefix (lit "https://") raw.
Definition ex_from_config : result AiError (@AiRuntime ExWorld N rstr) :=
  from_config ex_url (λ _, Ok ex_mock) (λ p, Ok (ap_model p)) ex_config.

Lemma runtime_names_sound_witness :
  ∃ rt, ex_from_config = Ok rt ∧ names_sound rt ∧ default_model rt = lit "chat".
Proof.
  assert (is_ok ex_from_config = true) as Hok by (vm_compute; reflexivity).
  destruct ex_from_config as [rt|e] eqn:E; [|discriminate Hok]. exists rt. split; [reflexivity|].
  pose proof (runtime_names_sound ex_url ex_cells ex_now (λ _, Ok ex_mock) (λ p, Ok (ap_model p)) rt
    (built_from_config _ _ _ ex_config rt E)) as [Hs _].
  split; [exact Hs|]. clear Hs Hok. revert E. unfold ex_from_config. intros E.
  apply (f_equal (λ r, match r with Ok rt => default_model rt | Err _ => [] end)) in E.
  rewrite <- E. vm_compute. reflexivity.
Defined.
