(* ===== verification/Rag.v ===== *)
(** * Prompts and retrieval (crates/roze-ai/src/prompt.rs, rag.rs)

    Prompt templates and their rendering, the splitting of documents into
    overlapping chunks, the reading of search hits, and the pipeline that retrieves
    documents, renders a prompt and asks the model. The search client and the model
    are calls on the world; a score is the bits of an [f32], converted by a parameter. *)

From S2P Require Import Prelude Text Scan Graph Context ConfigDiff Async Agent.

(** ** Prompt templates *)

Definition OPEN : rstr := lit "{{".
Definition CLOSE : rstr := lit "}}".

(** [str::find] *)
Definition find_at (pat s : rstr) : option nat := (λ p, length p.1) <$> split_once pat s.

Definition is_word (c : N) : bool := is_ascii_alphanumeric c || (c =? 95).
Definition variable_ok (name : rstr) : bool := nonempty name && forallb is_word name.

Definition closes_first (rest : rstr) : bool :=
  match find_at OPEN rest, find_at CLOSE rest with
  | None, Some _ => true
  | Some opening, Some closing => Nat.ltb closing opening
  | _, None => false
  end.

(** The loop of [validate_template]; [None] is out of fuel. *)
Fixpoint validate_loop (fuel : nat) (rest : rstr) : option (result AiError unit) :=
  match fuel with
  | O => None
  | S fuel' =>
      if closes_first rest
      then Some (Err (Prompt (lit "template contains an unmatched closing delimiter")))
      else match split_once OPEN rest with
      | None => Some (Ok tt)
      | Some (_, after_start) =>
          match split_once CLOSE after_start with
          | None => Some (Err (Prompt (lit "unclosed template variable")))
          | Some (raw, rest') =>
              let name := trim raw in
              if negb (variable_ok name)
              then Some (Err (Prompt (quoted (lit "invalid prompt template variable ") name [])))
              else validate_loop fuel' rest'
          end
      end
  end.
Definition validate_template (source : rstr) : option (result AiError unit) :=
  validate_loop (S (length source)) source.

Record PromptTemplate := { source : rstr }.
Definition PromptTemplate_new (s : rstr) : option (result AiError PromptTemplate) :=
  r ← validate_template s; Some (_ ← r; Ok {| source := s |}).

(** The loop of [render], with the output so far. *)
Fixpoint render_loop (fuel : nat) (variables : gmap rstr rstr) (rest output : rstr) : option (result AiError rstr) :=
  match fuel with
  | O => None
  | S fuel' =>
      match split_once OPEN rest with
      | None => Some (Ok (output ++ rest))
      | Some (before, after_start) =>
          let output := output ++ before in
          match split_once CLOSE after_start with
          | None => Some (Err (Prompt (lit "unclosed template variable")))
          | Some (raw, rest') =>
              let name := trim raw in
              match variables !! name with
              | None => Some (Err (Prompt (quoted (lit "missing prompt template variable ") name [])))
              | Some value => render_loop fuel' variables rest' (output ++ value)
              end
          end
      end
  end.
Definition render (t : PromptTemplate) (variables : gmap rstr rstr) : option (result AiError rstr) :=
  render_loop (S (length (source t))) variables (source t) [].

(** ** What a template is

    Texts and variables in turn, then a text. *)

(** No two characters [q] in a row. *)
Fixpoint pair_free (q : N) (s : rstr) : bool :=
  match s with
  | x :: ((y :: _) as s') => negb ((x =? q) && (y =? q)) && pair_free q s'
  | _ => true
  end.

Inductive template : list (rstr * rstr) → rstr → rstr → Prop :=
| template_text tail : pair_free 123 tail = true → pair_free 125 tail = true → template [] tail tail
| template_var before raw parts tail rest :
    pair_free 123 (before ++ [123]) = true → pair_free 125 before = true →
    pair_free 125 (raw ++ [125]) = true → variable_ok (trim raw) = true →
    template parts tail rest → template ((before, raw) :: parts) tail (before ++ OPEN ++ raw ++ CLOSE ++ rest).

Fixpoint spec_render (variables : gmap rstr rstr) (parts : list (rstr * rstr)) (tail : rstr) : result AiError rstr :=
  match parts with
  | [] => Ok tail
  | (before, raw) :: parts' =>
      value ← ok_or (variables !! trim raw) (Prompt (quoted (lit "missing prompt template variable ") (trim raw) []));
      rest ← spec_render variables parts' tail;
      Ok (before ++ value ++ rest)
  end.

Lemma pair_free_step q x y s : pair_free q (x :: y :: s) = negb ((x =? q) && (y =? q)) && pair_free q (y :: s).
Proof. done. Qed.

Lemma pair_free_other q x s : (x =? q) = false → pair_free q (x :: s) = pair_free q s.
Proof. intros Hx. destruct s as [|y s]; [done|]. by rewrite pair_free_step, Hx. Qed.

Lemma pair_free_next q x y s : (y =? q) = false → pair_free q (x :: y :: s) = pair_free q (y :: s).
Proof. intros Hy. by rewrite pair_free_step, Hy, andb_false_r. Qed.

Lemma pair_free_cons q x s : pair_free q (x :: s) = true → pair_free q s = true.
Proof. destruct s as [|y s]; [done|]. cbn. by intros [_ ?]%andb_true_iff. Qed.

Lemma split_pair q s :
  match split_once [q; q] s with
  | Some (a, b) => s = a ++ q :: q :: b ∧ pair_free q (a ++ [q]) = true
  | None => pair_free q s = true
  end.
Proof.
  induction s as [|x s IH]; [done|]. rewrite split_once_unfold. cbn [strip_prefix].
  destruct (N.eqb_spec q x) as [<-|Hx].
  - destruct s as [|y s]; [done|]. cbn [strip_prefix]. destruct (N.eqb_spec q y) as [<-|Hy]; [done|].
    assert ((y =? q) = false) as Hyq by by apply N.eqb_neq.
    destruct (split_once [q; q] (y :: s)) as [[a b]|]; cbn [mbind option_bind fst snd].
    + destruct IH as [Hs Ha]. split; [by rewrite Hs|]. destruct a as [|z a]; cbn [app] in Hs.
      { injection Hs as Hyq' _. congruence. }
      injection Hs as -> _. cbn [app] in Ha |- *. by rewrite pair_free_next.
    + by rewrite pair_free_next.
  - assert ((x =? q) = false) as Hxq by by apply N.eqb_neq.
    destruct (split_once [q; q] s) as [[a b]|]; cbn [mbind option_bind fst snd].
    + destruct IH as [-> Ha]. split; [done|]. cbn [app]. by rewrite pair_free_other.
    + by rewrite pair_free_other.
Qed.

Lemma split_pair_first q a b : pair_free q (a ++ [q]) = true → split_once [q; q] (a ++ q :: q :: b) = Some (a, b).
Proof.
  induction a as [|x a IH]; intros H; [apply (split_once_here [q; q])|].
  rewrite split_once_unfold. cbn [app]. cbn [app] in H. rewrite (IH (pair_free_cons _ _ _ H)).
  cbn [strip_prefix]. destruct (N.eqb_spec q x) as [<-|]; [|done].
  destruct a as [|y a]; cbn [app strip_prefix] in H |- *; [cbn in H; by rewrite N.eqb_refl in H|].
  rewrite pair_free_step, N.eqb_refl in H. destruct (N.eqb_spec q y) as [<-|]; [by rewrite N.eqb_refl in H|done].
Qed.

Lemma split_pair_none q s : pair_free q s = true → split_once [q; q] s = None.
Proof.
  intros H. pose proof (split_pair q s) as Hs. destruct (split_once [q; q] s) as [[a b]|]; [|done].
  destruct Hs as [-> _]. exfalso. clear -H. induction a as [|x a IH]; cbn [app] in H.
  - cbn in H. by rewrite N.eqb_refl in H.
  - apply IH. by eapply pair_free_cons.
Qed.

Lemma pair_free_pair q a b : pair_free q (a ++ q :: q :: b) = false.
Proof.
  apply not_true_is_false. intros H. apply split_pair_none in H.
  induction a as [|x a IH]; cbn [app] in H.
  - change (split_once [q; q] ([q; q] ++ b) = None) in H. by rewrite split_once_here in H.
  - apply IH. rewrite split_once_unfold in H. destruct (strip_prefix _ _); [done|].
    by destruct (split_once [q; q] (a ++ q :: q :: b)).
Qed.

Lemma closes_first_spec rest :
  closes_first rest = negb (pair_free 125 match split_once OPEN rest with Some (before, _) => before | None => rest end).
Proof.
  unfold closes_first, find_at. pose proof (split_pair 123 rest) as Ho. pose proof (split_pair 125 rest) as Hc.
  change OPEN with [123; 123]. change CLOSE with [125; 125].
  destruct (split_once [123; 123] rest) as [[before after]|]; cbn [fmap option_fmap option_map fst].
  2:{ destruct (split_once [125; 125] rest) as [[a b]|]; cbn [fmap option_fmap option_map]; [|by rewrite Hc].
      destruct Hc as [-> _]. by rewrite pair_free_pair. }
  destruct Ho as [-> Hb]. destruct (pair_free 125 before) eqn:Ef; cbn [negb].
  - destruct (split_once [125; 125] _) as [[a b]|]; cbn [fmap option_fmap option_map fst]; [|done].
    destruct Hc as [Heq _]. apply Nat.ltb_ge.
    destruct (app_eq_inv _ _ _ _ Heq) as [(k & Hk & Hr)|(k & -> & _)]; [|rewrite length_app; lia].
    subst before. destruct k as [|x [|y k]]; cbn in Hr; [done|done|]. injection Hr as <- <- _.
    by rewrite pair_free_pair in Ef.
  - pose proof (split_pair 125 before) as Hs. destruct (split_once [125; 125] before) as [[a b]|]; [|congruence].
    destruct Hs as [-> Ha]. rewrite <- app_assoc. cbn [app]. rewrite split_pair_first by done.
    cbn [fmap option_fmap option_map fst]. apply Nat.ltb_lt. rewrite length_app. cbn. lia.
Qed.

(** The rest of a template is shorter after a variable. *)
Lemma split_shorter pat s a b : split_once pat s = Some (a, b) → (length b ≤ length s)%nat ∧ (pat ≠ [] → (length b < length s)%nat).
Proof.
  revert a. induction s as [|x s IH]; intros a; rewrite split_once_unfold.
  - destruct pat; [|done]. cbn. intros [= <- <-]. done.
  - destruct (strip_prefix pat (x :: s)) as [r|] eqn:E.
    + intros [= <- <-]. apply strip_prefix_Some in E. rewrite E, length_app.
      split; [lia|]. destruct pat; [done|]. cbn. lia.
    + destruct (split_once pat s) as [[a' b']|]; [|done]. cbn. intros [= <- <-].
      destruct (IH a') as [H1 H2]; [done|]. split; [lia|]. intros Hp. specialize (H2 Hp). lia.
Qed.

Lemma template_inv parts tail s :
  template parts tail s →
  match parts with
  | [] => s = tail ∧ closes_first s = false ∧ split_once OPEN s = None
  | (before, raw) :: parts' => ∃ rest, closes_first s = false ∧
      split_once OPEN s = Some (before, raw ++ CLOSE ++ rest) ∧
      split_once CLOSE (raw ++ CLOSE ++ rest) = Some (raw, rest) ∧
      variable_ok (trim raw) = true ∧ template parts' tail rest
  end.
Proof.
  destruct 1 as [tail Ho Hc|before raw parts tail rest Hb Hc Hr Hn Ht].
  - apply split_pair_none in Ho. rewrite closes_first_spec. change OPEN with [123; 123]. by rewrite Ho, Hc.
  - assert (split_once OPEN (before ++ OPEN ++ raw ++ CLOSE ++ rest) = Some (before, raw ++ CLOSE ++ rest)) as Hs
      by by apply split_pair_first.
    exists rest. rewrite closes_first_spec, Hs, Hc. repeat split; [|done..]. by apply split_pair_first.
Qed.

Lemma validate_loop_spec fuel s :
  (length s < fuel)%nat →
  ∃ r, validate_loop fuel s = Some r ∧
    match r with
    | Ok _ => ∃ parts tail, template parts tail s
    | Err _ => ∀ parts tail, ¬ template parts tail s
    end.
Proof.
  revert s. induction fuel as [|fuel IH]; intros s Hf; [lia|]. cbn [validate_loop].
  destruct (closes_first s) eqn:Ec.
  { eexists. split; [done|]. intros [|[before raw] parts] tail Ht%template_inv; [destruct Ht as (_ & ? & _); congruence|].
    destruct Ht as (? & ? & _). congruence. }
  destruct (split_once OPEN s) as [[before after]|] eqn:Eo.
  2:{ eexists. split; [done|]. exists [], s. rewrite closes_first_spec, Eo in Ec. apply negb_false_iff in Ec.
      constructor; [|done]. pose proof (split_pair 123 s) as Hs. change OPEN with [123; 123] in Eo. by rewrite Eo in Hs. }
  destruct (split_once CLOSE after) as [[raw rest]|] eqn:Ecl.
  2:{ eexists. split; [done|]. intros [|[before' raw] parts] tail Ht%template_inv; [destruct Ht as (_ & _ & ?); congruence|].
      destruct Ht as (? & _ & Ho & Hc & _). congruence. }
  destruct (variable_ok (trim raw)) eqn:En; cbn [negb].
  2:{ eexists. split; [done|]. intros [|[before' raw'] parts] tail Ht%template_inv; [destruct Ht as (_ & _ & ?); congruence|].
      destruct Ht as (? & _ & Ho & Hc & Hn & _). congruence. }
  destruct (IH rest) as (r & Hr & Hspec).
  { pose proof (proj1 (split_shorter _ _ _ _ Ecl)). pose proof (proj2 (split_shorter _ _ _ _ Eo) ltac:(done)). lia. }
  exists r. split; [done|]. destruct r as [u|e].
  - destruct Hspec as (parts & tail & Ht). exists ((before, raw) :: parts), tail.
    rewrite closes_first_spec, Eo in Ec. apply negb_false_iff in Ec.
    pose proof (split_pair 123 s) as Hs. change OPEN with [123; 123] in Eo. rewrite Eo in Hs. destruct Hs as [-> Hb].
    pose proof (split_pair 125 after) as Hs. change CLOSE with [125; 125] in Ecl. rewrite Ecl in Hs.
    destruct Hs as [-> Hr']. by apply (template_var before raw parts tail rest).
  - intros [|[before' raw'] parts] tail Ht%template_inv; [destruct Ht as (_ & _ & ?); congruence|].
    destruct Ht as (rest' & _ & Ho & Hc & _ & Ht). assert (rest' = rest) as -> by congruence. by eapply Hspec.
Qed.

Lemma render_loop_spec fuel vars parts tail s output :
  (length s < fuel)%nat → template parts tail s →
  render_loop fuel vars s output = Some (rest ← spec_render vars parts tail; Ok (output ++ rest)).
Proof.
  revert parts s output. induction fuel as [|fuel IH]; intros parts s output Hf Ht; [lia|]. cbn [render_loop].
  apply template_inv in Ht. destruct parts as [|[before raw] parts].
  { destruct Ht as (-> & _ & ->). done. }
  destruct Ht as (rest & _ & Ho & Hc & _ & Ht). rewrite Ho, Hc. cbn [spec_render].
  destruct (vars !! trim raw) as [value|]; [|done]. cbn [ok_or mbind result_bind].
  rewrite (IH parts rest); [|..|done].
  - destruct (spec_render vars parts tail); cbn; by rewrite <- ?app_assoc.
  - pose proof (proj1 (split_shorter _ _ _ _ Hc)). pose proof (proj2 (split_shorter _ _ _ _ Ho) ltac:(done)). lia.
Qed.

(** A template is accepted exactly when it is texts without delimiters and variables
    in braces whose trimmed names are words, in turn. Rendering an accepted template
    puts the values in the places of their variables, and these are not read again;
    it fails only for the first variable that has no value, never for its delimiters. *)
Theorem template_render_exact s :
  ∃ r, PromptTemplate_new s = Some r ∧
  match r with
  | Ok t => ∃ parts tail, template parts tail s ∧ ∀ vars, render t vars = Some (spec_render vars parts tail)
  | Err _ => ∀ parts tail, ¬ template parts tail s
  end.
Proof.
  unfold PromptTemplate_new, validate_template. destruct (validate_loop_spec (S (length s)) s) as (r & -> & Hr); [lia|].
  eexists. split; [done|]. destruct r as [u|e]; cbn [mbind result_bind]; [|done]. destruct Hr as (parts & tail & Ht).
  exists parts, tail. split; [done|]. intros vars.
  change (render _ _) with (render_loop (S (length s)) vars s []).
  rewrite (render_loop_spec _ _ parts tail) by (done || lia). by destruct (spec_render vars parts tail).
Qed.

(** ** Documents *)

Section rag.
Context {W Number : Type} (cells : W → Cells) (clock : W → N) (number_of : N → Number).
Abbreviation Value := (@Value Number).
Abbreviation aio := (io W AiError).

Record Document := { d_id : rstr; d_content : rstr; d_metadata : gmap rstr Value; d_score : option N }.

Record CharacterTextSplitter := { max_chars : N; overlap_chars : N }.
Definition CharacterTextSplitter_new (max_chars overlap_chars : N) : result AiError CharacterTextSplitter :=
  if max_chars =? 0
  then Err (InvalidRequest (lit "AI text splitter max_chars must be greater than zero"))
  else if max_chars <=? overlap_chars
  then Err (InvalidRequest (lit "AI text splitter overlap_chars must be smaller than max_chars"))
  else Ok {| max_chars := max_chars; overlap_chars := overlap_chars |}.

(** [characters[start..end]] *)
Definition slice (chars : rstr) (start end_ : N) : rstr := take (N.to_nat (end_ - start)) (drop (N.to_nat start) chars).

Definition chunk (d : Document) (index : N) (text : rstr) : Document :=
  {| d_id := d_id d ++ lit ":" ++ dec index; d_content := text;
     d_metadata := <[lit "chunk_index" := VNumber (number_of index)]>
                     (<[lit "source_document_id" := VString (d_id d)]> (d_metadata d));
     d_score := d_score d |}.

(** The loop over the starts; [index] is the number of chunks so far. *)
Fixpoint split_loop (sp : CharacterTextSplitter) (d : Document) (fuel : nat) (start index : N) : option (list Document) :=
  match fuel with
  | O => None
  | S fuel' =>
      let count := N.of_nat (length (d_content d)) in
      if start <? count then
        let end_ := N.min (start + max_chars sp) count in
        let c := chunk d index (slice (d_content d) start end_) in
        if end_ =? count then Some [c]
        else rest ← split_loop sp d fuel' (sat_add U64_MAX start (max_chars sp - overlap_chars sp)) (index + 1);
             Some (c :: rest)
      else Some []
  end.
Definition split (sp : CharacterTextSplitter) (d : Document) : option (list Document) :=
  match d_content d with [] => Some [] | _ => split_loop sp d (S (length (d_content d))) 0 0 end.

(** ** Chunks rebuild their document *)

(** The texts of chunks without what each repeats of the one before. *)
Definition without_overlap (n : N) (texts : list rstr) : rstr :=
  match texts with [] => [] | t :: ts => t ++ (ts ≫= drop (N.to_nat n)) end.

Definition overlaps (mx n : N) (a b : rstr) : Prop :=
  N.of_nat (length a) = mx ∧ n < N.of_nat (length b) ∧ take (N.to_nat n) b = drop (N.to_nat (mx - n)) a.

(** Every element and the next. *)
Fixpoint linked {A} (R : A → A → Prop) (l : list A) : Prop :=
  match l with a :: ((b :: _) as l') => R a b ∧ linked R l' | _ => True end.

Lemma split_loop_spec sp d fuel start index :
  overlap_chars sp < max_chars sp → N.of_nat (length (d_content d)) ≤ U64_MAX →
  start < N.of_nat (length (d_content d)) → (length (d_content d) - N.to_nat start < fuel)%nat →
  ∃ ch chs, split_loop sp d fuel start index = Some (ch :: chs) ∧
    let texts := d_content <$> ch :: chs in
    without_overlap (overlap_chars sp) texts = drop (N.to_nat start) (d_content d) ∧
    d_content ch = take (N.to_nat (max_chars sp)) (drop (N.to_nat start) (d_content d)) ∧
    Forall (λ t, 0 < N.of_nat (length t) ≤ max_chars sp) texts ∧
    linked (overlaps (max_chars sp) (overlap_chars sp)) texts ∧
    ∀ i c, (ch :: chs) !! i = Some c → c = chunk d (index + N.of_nat i) (d_content c).
Proof.
  intros Ho Hmax. revert start index. induction fuel as [|fuel IH]; intros start index Hs Hf; [lia|].
  set (cs := d_content d) in *. cbn [split_loop]. fold cs.
  rewrite (proj2 (N.ltb_lt start _) Hs). unfold slice.
  destruct (N.eqb_spec (N.min (start + max_chars sp) (N.of_nat (length cs))) (N.of_nat (length cs))) as [He|He].
  - rewrite He. set (t := take _ _). assert (t = drop (N.to_nat start) cs) as Ht.
    { unfold t. apply take_ge. rewrite length_drop. lia. }
    eexists _, []. split; [done|]. cbn. rewrite app_nil_r, Ht. split_and!; [done| | |done|].
    + symmetry. apply take_ge. rewrite length_drop. lia.
    + apply Forall_singleton. rewrite length_drop. lia.
    + intros [|i] c; [|done]. cbn. intros [= <-]. by rewrite N.add_0_r.
  - assert (start + max_chars sp < N.of_nat (length cs)) as Hlt by lia. clear He.
    rewrite N.min_l by lia. replace (start + max_chars sp - start) with (max_chars sp) by lia.
    rewrite sat_add_small by lia. set (step := max_chars sp - overlap_chars sp).
    destruct (IH (start + step) (index + 1)) as (ch & chs & -> & Hr & Hh & Hl & Hk & Hi); [lia|lia|]. clear IH.
    set (t := take (N.to_nat (max_chars sp)) (drop (N.to_nat start) cs)).
    assert (N.of_nat (length t) = max_chars sp) as Hlen by (unfold t; rewrite length_take, length_drop; lia).
    eexists _, _. split; [done|]. cbn [fmap list_fmap d_content chunk].
    assert (drop (N.to_nat (start + step)) cs = drop (N.to_nat step) (drop (N.to_nat start) cs)) as Hdrop
      by (rewrite drop_drop; f_equal; lia).
    assert (overlap_chars sp < N.of_nat (length (d_content ch))) as Hch by (rewrite Hh, length_take, length_drop; lia).
    assert (take (N.to_nat (overlap_chars sp)) (d_content ch) = drop (N.to_nat step) t) as Hov.
    { rewrite Hh, take_take, Hdrop. unfold t. rewrite skipn_firstn_comm. f_equal. lia. }
    split_and!.
    + cbn [without_overlap fmap list_fmap mbind list_bind] in Hr |- *. fold (d_content <$> chs) in Hr |- *.
      rewrite <- drop_app_le by lia. rewrite Hr, drop_drop. unfold t.
      replace (N.to_nat (start + step) + N.to_nat (overlap_chars sp))%nat
        with (N.to_nat start + N.to_nat (max_chars sp))%nat by lia.
      by rewrite <- drop_drop, take_drop.
    + done.
    + constructor; [lia|exact Hl].
    + split; [|exact Hk]. split; [done|]. by split.
    + intros [|i] c; [cbn; intros [= <-]; by rewrite N.add_0_r|]. cbn [lookup list_lookup]. intros Hc.
      rewrite (Hi i c Hc) at 1. f_equal. lia.
Qed.

(** A splitter ends, and its chunks rebuild the document: the text of the first, then
    that of each later one without its first [overlap_chars] characters, which are
    the last of the chunk before. Each chunk but the last is of [max_chars]
    characters, each adds some, and each is numbered and names its document. *)
Theorem chunks_rebuild mx n sp d :
  CharacterTextSplitter_new mx n = Ok sp → N.of_nat (length (d_content d)) ≤ U64_MAX →
  ∃ chunks, split sp d = Some chunks ∧
    let texts := d_content <$> chunks in
    without_overlap n texts = d_content d ∧ Forall (λ t, 0 < N.of_nat (length t) ≤ mx) texts ∧
    linked (overlaps mx n) texts ∧
    ∀ i c, chunks !! i = Some c → c = chunk d (N.of_nat i) (d_content c).
Proof.
  unfold CharacterTextSplitter_new. destruct (N.eqb_spec mx 0) as [|Hmx]; [done|].
  destruct (N.leb_spec mx n) as [|Hn]; [done|]. intros [= <-] Hd. unfold split.
  destruct (d_content d) as [|x cs] eqn:Ec; [exists []; by split_and!|]. rewrite <- Ec in Hd |- *.
  set (sp := {| max_chars := mx; overlap_chars := n |}).
  destruct (split_loop_spec sp d (S (length (d_content d))) 0 0) as (ch & chs & -> & Hr & _ & Hl & Hk & Hi);
    [done|done|rewrite Ec; cbn; lia|lia|].
  exists (ch :: chs). by split_and!.
Qed.

(** ** Retrieval *)

Inductive SearchEngine := Elasticsearch | Opensearch | Meilisearch.
Record SearchHit := { hit_id : option rstr; hit_score : option N; hit_document : Value }.

(** The engine of a client, its search of an index and its changes of it. *)
Record SearchClient :=
  { engine : SearchEngine; search_documents : rstr → Value → io W rstr (list SearchHit);
    index_document : rstr → rstr → Document → io W rstr unit; delete_document : rstr → rstr → io W rstr unit }.

Record RetrievalQuery := { q_text : rstr; q_top_k : N; q_filters : Value }.

Definition as_str (v : Value) : option rstr := match v with VString s => Some s | _ => None end.

Definition document_content (document : Value) (fields : list rstr) : rstr :=
  match document with
  | VObject object =>
      let values := match fields with [] => btree_values object | _ => omap (λ f, object !! f) fields end in
      join [10] (omap as_str values)
  | _ => default [] (as_str document)
  end.

Definition search_payload (e : SearchEngine) (content_fields : list rstr) (q : RetrievalQuery) : Value :=
  let fields := match e with
    | Meilisearch => [(lit "q", VString (q_text q)); (lit "limit", VNumber (number_of (q_top_k q)))]
    | _ =>
        let query := match content_fields with
          | [] => [(lit "query_string", VObject {[ lit "query" := VString (q_text q) ]})]
          | _ => [(lit "multi_match", VObject (list_to_map
                    [(lit "query", VString (q_text q)); (lit "fields", VArray (VString <$> content_fields))]))]
          end in
        [(lit "query", VObject (list_to_map query)); (lit "size", VNumber (number_of (q_top_k q)))]
    end in
  let filter := match e with Meilisearch => lit "filter" | _ => lit "post_filter" end in
  match q_filters q with
  | VNull => VObject (list_to_map fields)
  | filters => VObject (<[filter := filters]> (list_to_map fields))
  end.

Record RozeSearchRetriever := { sr_client : SearchClient; sr_index : rstr; content_fields : list rstr }.
Definition RozeSearchRetriever_new (client : SearchClient) (index : rstr) (fields : list rstr)
    : result AiError RozeSearchRetriever :=
  if bool_decide (trim index = []) then Err (InvalidRequest (lit "AI search retriever index cannot be empty"))
  else Ok {| sr_client := client; sr_index := index; content_fields := fields |}.

(** The document of a hit at a position. *)
Context (f32_of : N → N).
Definition hit_to_document (fields : list rstr) (position : N) (hit : SearchHit) : result AiError Document :=
  match document_content (hit_document hit) fields with
  | [] => Err (Retrieval (lit "search hit at position " ++ dec position ++ lit " has no configured text content"))
  | content =>
      Ok {| d_id := default (lit "hit-" ++ dec position) (hit_id hit); d_content := content;
            d_metadata := match hit_document hit with VObject fields => fields | _ => ∅ end;
            d_score := f32_of <$> hit_score hit |}
  end.

Fixpoint hits_to_documents (fields : list rstr) (position : N) (hits : list SearchHit) : result AiError (list Document) :=
  match hits with
  | [] => Ok []
  | hit :: hits' =>
      d ← hit_to_document fields position hit;
      ds ← hits_to_documents fields (position + 1) hits';
      Ok (d :: ds)
  end.

(** A call whose error is turned into another. *)
Fixpoint map_io_err {E1 E2 A} (f : E1 → E2) (m : io W E1 A) : io W E2 A :=
  match m with
  | Done r => Done (map_err f r)
  | Act next effect => Act (λ w, map_io_err f (next w)) effect
  end.

Definition retrieve (r : RozeSearchRetriever) (c : Context) (q : RetrievalQuery) : aio (list Document) :=
  _ ← check_context cells clock c;
  if q_top_k q =? 0 then Done (Err (InvalidRequest (lit "AI retrieval top_k must be greater than zero")))
  else
    hits ← map_io_err Retrieval
             (search_documents (sr_client r) (sr_index r) (search_payload (engine (sr_client r)) (content_fields r) q));
    _ ← check_context cells clock c;
    Done (hits_to_documents (content_fields r) 0 hits).

Record RozeSearchIndexer := { si_client : SearchClient; si_index : rstr }.
Definition RozeSearchIndexer_new (client : SearchClient) (index : rstr) : result AiError RozeSearchIndexer :=
  if bool_decide (trim index = []) then Err (InvalidRequest (lit "AI search indexer index cannot be empty"))
  else Ok {| si_client := client; si_index := index |}.

Definition for_each_checked {A} (c : Context) (call : A → io W rstr unit) (l : list A) : aio unit :=
  _ ← collect_io (λ a, _ ← check_context cells clock c; map_io_err Indexing (call a)) l;
  check_context cells clock c.
Definition upsert (x : RozeSearchIndexer) (c : Context) (documents : list Document) : aio unit :=
  for_each_checked c (λ d, index_document (si_client x) (si_index x) (d_id d) d) documents.
Definition delete_ids (x : RozeSearchIndexer) (c : Context) (ids : list rstr) : aio unit :=
  for_each_checked c (delete_document (si_client x) (si_index x)) ids.

(** ** The pipeline *)

Record RagOptions :=
  { top_k : N; max_context_chars : N; system_prompt : rstr; rag_generation : GenerationOptions Number }.

Definition section_of (d : Document) : rstr := lit "[document:" ++ d_id d ++ lit "]" ++ [10] ++ d_content d ++ [10; 10].

(** The loop of [render_context], with the output so far. *)
Fixpoint context_loop (max_chars : N) (documents : list Document) (output : rstr) : rstr :=
  match documents with
  | [] => output
  | d :: documents' =>
      let remaining := max_chars - N.of_nat (length output) in
      if remaining =? 0 then output
      else context_loop max_chars documents' (output ++ take (N.to_nat remaining) (section_of d))
  end.
Definition render_context (documents : list Document) (max_chars : N) : rstr := context_loop max_chars documents [].

Record RagOutput := { rag_response : ModelResponse Number; rag_documents : list Document }.
Record RagPipeline :=
  { retriever : Context → RetrievalQuery → aio (list Document); rag_model : @ChatModel W Number;
    rag_template : PromptTemplate; rag_options : RagOptions }.
Definition RagPipeline_new (p : RagPipeline) : result AiError RagPipeline :=
  if top_k (rag_options p) =? 0 then Err (InvalidRequest (lit "AI RAG top_k must be greater than zero"))
  else if max_context_chars (rag_options p) =? 0
  then Err (InvalidRequest (lit "AI RAG max_context_chars must be greater than zero"))
  else Ok p.

Definition rag_variables (question rendered : rstr) : gmap rstr rstr :=
  list_to_map [(lit "question", question); (lit "context", rendered)].

Definition RagPipeline_invoke (p : RagPipeline) (c : Context) (question : rstr) : aio RagOutput :=
  let o := rag_options p in
  _ ← check_context cells clock c;
  if bool_decide (trim question = [])
  then Done (Err (InvalidRequest (lit "AI RAG question cannot be empty")))
  else
    documents ← retriever p c {| q_text := question; q_top_k := top_k o; q_filters := VNull |};
    _ ← check_context cells clock c;
    let rendered := render_context documents (max_context_chars o) in
    prompt ← Done (default (Err (Prompt [])) (render (rag_template p) (rag_variables question rendered)));
    response ← rag_model p c
      {| mr_messages := [Message_system (system_prompt o); Message_user prompt]; mr_tools := [];
         mr_options := rag_generation o |};
    _ ← check_context cells clock c;
    mret {| rag_response := response; rag_documents := documents |}.

(** The rendered context is the sections of the documents, cut off at its bound. *)
Lemma render_context_prefix documents mx :
  render_context documents mx = take (N.to_nat mx) (documents ≫= section_of).
Proof.
  assert (∀ output, (length output ≤ N.to_nat mx)%nat →
    context_loop mx documents output = output ++ take (N.to_nat mx - length output) (documents ≫= section_of)) as H.
  { induction documents as [|d ds IH]; intros output Hl; cbn [context_loop mbind list_bind].
    { by rewrite take_nil, app_nil_r. }
    destruct (N.eqb_spec (mx - N.of_nat (length output)) 0) as [He|He].
    { replace (N.to_nat mx - length output)%nat with 0%nat by lia. by rewrite take_0, app_nil_r. }
    replace (N.to_nat (mx - N.of_nat (length output))) with (N.to_nat mx - length output)%nat by lia.
    set (k := (N.to_nat mx - length output)%nat). rewrite IH by (rewrite length_app, length_take; lia).
    rewrite <- app_assoc, length_app, length_take, take_app. do 2 f_equal.
    apply (f_equal (λ n, take n _)). unfold k. lia. }
  unfold render_context. rewrite H by (cbn; lia). cbn. by rewrite Nat.sub_0_r.
Qed.

Section rag_run.
Context (others : relation W) (p : RagPipeline) (c : Context) (question : rstr).

(** What a run asks its retriever, and its model for the documents retrieved. *)
Definition rag_query : RetrievalQuery :=
  {| q_text := question; q_top_k := top_k (rag_options p); q_filters := VNull |}.
Definition rag_request (prompt : rstr) : ModelRequest Number :=
  {| mr_messages := [Message_system (system_prompt (rag_options p)); Message_user prompt]; mr_tools := [];
     mr_options := rag_generation (rag_options p) |}.
Definition rag_prompt (parts : list (rstr * rstr)) (tail : rstr) (documents : list Document) : result AiError rstr :=
  spec_render (rag_variables question
    (take (N.to_nat (max_context_chars (rag_options p))) (documents ≫= section_of))) parts tail.

Definition retrieved (w : W) (r : result AiError (list Document)) (w' : W) : Prop :=
  ∃ w0, rtc others w w0 ∧ runs others (retriever p c rag_query) w0 r w'.
Definition answered_with (w : W) (prompt : rstr) (r : result AiError (ModelResponse Number)) (w' : W) : Prop :=
  ∃ w0, rtc others w w0 ∧ runs others (rag_model p c (rag_request prompt)) w0 r w'.

Inductive rag_fails (parts : list (rstr * rstr)) (tail : rstr) (w : W) : AiError → Prop :=
| rag_over e w0 : rtc others w w0 → interrupted cells clock c w0 e → rag_fails parts tail w e
| rag_blank : trim question = [] → rag_fails parts tail w (InvalidRequest (lit "AI RAG question cannot be empty"))
| rag_no_documents e w0 : retrieved w (Err e) w0 → rag_fails parts tail w e
| rag_over_retrieved documents w0 w1 e :
    retrieved w (Ok documents) w0 → rtc others w0 w1 → interrupted cells clock c w1 e → rag_fails parts tail w e
| rag_no_prompt documents w0 e :
    retrieved w (Ok documents) w0 → rag_prompt parts tail documents = Err e → rag_fails parts tail w e
| rag_no_answer documents w0 prompt w1 e :
    retrieved w (Ok documents) w0 → rag_prompt parts tail documents = Ok prompt →
    answered_with w0 prompt (Err e) w1 → rag_fails parts tail w e
| rag_over_answered documents w0 prompt response w1 w2 e :
    retrieved w (Ok documents) w0 → rag_prompt parts tail documents = Ok prompt →
    answered_with w0 prompt (Ok response) w1 → rtc others w1 w2 → interrupted cells clock c w2 e →
    rag_fails parts tail w e.

(** A run of the pipeline that ends well has retrieved documents for the question, and
    its answer is the model's to the system prompt and one message: the template with
    the question and the documents' sections in their order, cut off at the bound of
    characters, offered no tools. A run fails when the question is blank, the request
    is over, retrieval or the model fails, or the template has a variable that is
    neither of the two, and never silently goes on without documents. *)
Theorem rag_course parts tail w r w' :
  template parts tail (source (rag_template p)) →
  runs others (RagPipeline_invoke p c question) w r w' →
  match r with
  | Ok out => trim question ≠ [] ∧ ∃ prompt w0 w1, retrieved w (Ok (rag_documents out)) w0 ∧
      rag_prompt parts tail (rag_documents out) = Ok prompt ∧ answered_with w0 prompt (Ok (rag_response out)) w1
  | Err e => rag_fails parts tail w e
  end.
Proof.
  intros Ht [([] & w1 & [[_ H1]|(? & ? & [=] & _)]%check_context_runs & H)|
    (e & [[[=] _]|(? & w0 & [= <-] & Hw & Hi)]%check_context_runs & ->)]%runs_bind; [|by eapply rag_over].
  case_bool_decide as Hq; [apply runs_Done in H as [-> _]; by apply rag_blank|].
  apply runs_bind in H as [(documents & w2 & H2 & H)|(e & He & ->)];
    [|eapply rag_no_documents; by exists w1].
  assert (retrieved w (Ok documents) w2) as Hr by by exists w1.
  apply runs_bind in H as [([] & w3 & [[_ H3]|(? & ? & [=] & _)]%check_context_runs & H)|
    (e & [[[=] _]|(? & w3 & [= <-] & H3 & Hi)]%check_context_runs & ->)]; [|by eapply rag_over_retrieved].
  unfold render in H. rewrite (render_loop_spec _ _ parts tail) in H by (done || lia).
  assert (∀ vars, (rest ← spec_render vars parts tail; Ok ([] ++ rest)) = spec_render vars parts tail) as Hid
    by (intros vars; by destruct (spec_render vars parts tail)).
  rewrite Hid, render_context_prefix in H. cbn [default] in H. fold (rag_prompt parts tail documents) in H.
  apply runs_bind in H as [(prompt & w4 & [Hp H4]%runs_Done & H)|(e & [Hp _]%runs_Done & ->)];
    [|by eapply rag_no_prompt].
  symmetry in Hp. fold (rag_request prompt) in H.
  apply runs_bind in H as [(response & w5 & H5 & H)|(e & He & ->)];
    [|eapply rag_no_answer; [done|done|]; exists w4; split; [by etrans|done]].
  assert (answered_with w2 prompt (Ok response) w5) as Ha by (exists w4; split; [by etrans|done]).
  apply runs_bind in H as [([] & w6 & [[_ H6]|(? & ? & [=] & _)]%check_context_runs & [-> _]%runs_Done)|
    (e & [[[=] _]|(? & w6 & [= <-] & H6 & Hi)]%check_context_runs & ->)]; [|by eapply rag_over_answered].
  split; [done|]. by exists prompt, w2, w5.
Qed.
End rag_run.
End rag.
Arguments Document : clear implicits.
Arguments RagPipeline : clear implicits.

(** ** A pipeline at work *)

Definition ex_document (id text : rstr) : Document N :=
  {| d_id := id; d_content := text; d_metadata := ∅; d_score := None |}.

Lemma chunks_rebuild_witness :
  ∃ chunks, split id {| max_chars := 4; overlap_chars := 1 |} (ex_document (lit "doc") (lit "abcdefgh")) = Some chunks ∧
    d_content <$> chunks = [lit "abcd"; lit "defg"; lit "gh"] ∧
    without_overlap 1 (d_content <$> chunks) = lit "abcdefgh".
Proof.
  destruct (chunks_rebuild id 4 1 {| max_chars := 4; overlap_chars := 1 |} (ex_document (lit "doc") (lit "abcdefgh")) eq_refl)
    as (chunks & Hs & Hr & _); [vm_compute; discriminate|].
  exists chunks. split; [exact Hs|]. split; [|exact Hr].
  transitivity (d_content <$> default [] (split id {| max_chars := 4; overlap_chars := 1 |} (ex_document (lit "doc") (lit "abcdefgh"))));
    [by rewrite Hs|vm_compute; reflexivity].
Defined.

Definition ex_pipeline : RagPipeline ExWorld N :=
  {| retriever := λ _ q, Done (Ok [ex_document (lit "1") (lit "text")]); rag_model := ex_mock;
     rag_template := {| source := lit "Q: {{question}} C: {{ context }}" |};
     rag_options := {| top_k := 5; max_context_chars := 100; system_prompt := lit "s";
                       rag_generation := GenerationOptions_default |} |}.

Definition ex_rag := exec (RagPipeline_invoke ex_cells ex_now ex_pipeline ex_context (lit "why"))
  (ex_world [Ok (response_text (lit "because"))]).

Lemma rag_course_witness :
  ∃ out prompt w0 w1, ex_rag.1 = Ok out ∧
    answered_with (λ _ _, False) ex_pipeline ex_context w0 prompt (Ok (rag_response out)) w1.
Proof.
  assert (template [(lit "Q: ", lit "question"); (lit " C: ", lit " context ")] [] (source (rag_template ex_pipeline))) as Ht.
  { change (source (rag_template ex_pipeline)) with
      (lit "Q: " ++ OPEN ++ lit "question" ++ CLOSE ++ lit " C: " ++ OPEN ++ lit " context " ++ CLOSE ++ []).
    do 2 (apply template_var; [reflexivity..|]). by constructor. }
  pose proof (rag_course ex_cells ex_now (λ _ _, False) ex_pipeline ex_context (lit "why") _ _ _ ex_rag.1 ex_rag.2 Ht
    (exec_runs _ _ _ _ _ (surjective_pairing _))) as H.
  assert (is_ok ex_rag.1 = true) as Hok by (vm_compute; reflexivity).
  revert Hok H. generalize ex_rag.1. intros [out|e] Hok H; [|discriminate Hok].
  destruct H as (_ & prompt & w0 & w1 & _ & _ & Ha). exists out, prompt, w0, w1. split; [reflexivity|exact Ha].
Defined.
