(* ===== verification/Kafka.v ===== *)
(** * Kafka records, their transport and recovery (crates/roze-kafka/src/lib.rs)

    Providers and configuration, the record and its conversions to the message of
    roze-mq, the record as it travels through a Kafka client (headers, attempt and
    payload as bytes), what rejecting a delivery publishes, and the choice of
    partitions. The client libraries are not under src/: a sent record is the list of
    headers it carries, in order, with the topic, key and payload bytes. The order in
    which a [HashMap] of headers is walked is a parameter, and so are the bytes of a
    JSON value and the repair of bytes that are no text. *)

From S2P Require Import Prelude Text Scan Eventbus Mq.

(** ** Providers *)

Definition quoted_topic (topic post : rstr) : rstr := lit "Kafka topic `" ++ topic ++ lit "`" ++ post.

Inductive KafkaProvider := Memory | Rdkafka | RustNative.
Record KafkaCapabilities :=
  { can_publish : bool; can_subscribe : bool; consumer_groups : bool; manual_ack : bool;
    offset_commit : bool; rebalance : bool; transactions : bool }.
Definition capabilities (p : KafkaProvider) : KafkaCapabilities :=
  match p with
  | Memory => {| can_publish := true; can_subscribe := true; consumer_groups := false; manual_ack := true;
                 offset_commit := false; rebalance := false; transactions := false |}
  | Rdkafka => {| can_publish := true; can_subscribe := true; consumer_groups := true; manual_ack := true;
                  offset_commit := true; rebalance := true; transactions := false |}
  | RustNative => {| can_publish := true; can_subscribe := false; consumer_groups := false; manual_ack := false;
                     offset_commit := false; rebalance := false; transactions := false |}
  end.

Inductive KafkaRuntimeError :=
| FeatureDisabled (provider : KafkaProvider) (feature : rstr)
| UnsupportedCapability (provider : KafkaProvider) (capability : rstr)
| Initialization (provider : KafkaProvider) (message : rstr).

(** The Cargo features the crate is compiled with. *)
Record Features := { feature_memory : bool; feature_rdkafka : bool; feature_rskafka : bool }.
Definition default_compiled_provider (f : Features) : KafkaProvider :=
  if feature_rdkafka f then Rdkafka else if feature_rskafka f then RustNative else Memory.
Definition provider_feature (f : Features) (p : KafkaProvider) : rstr * bool :=
  match p with
  | Memory => (lit "memory", feature_memory f)
  | Rdkafka => (lit "rdkafka", feature_rdkafka f)
  | RustNative => (lit "rskafka", feature_rskafka f)
  end.

(** The fields of the configuration the crate's own logic reads; the others are
    options it passes on to the client library. *)
Record KafkaConfig :=
  { k_provider : option KafkaProvider; brokers : list rstr; bootstrap : option rstr;
    bootstrap_servers : option (list rstr); client_id : option rstr; group_id : option rstr;
    k_group_name : option rstr; topic_prefix : rstr; enable_manual_ack : bool; enable_auto_commit : bool;
    retry_backoff_ms : N; k_max_retries : N; retry_topic : option rstr;
    config_dead_letter_topic : option rstr }.

Definition split_csv (raw : rstr) : list rstr := str_filter nonempty (trim <$> split_on (λ c, c =? 44) raw).

Definition resolved_provider (f : Features) (c : KafkaConfig) : KafkaProvider :=
  default (default_compiled_provider f) (k_provider c).
Definition normalized_brokers (c : KafkaConfig) : list rstr :=
  match brokers c, bootstrap_servers c, bootstrap c with
  | _ :: _, _, _ => brokers c
  | [], Some ((_ :: _) as values), _ => values
  | [], _, Some value => split_csv value
  | [], _, None => []
  end.
Definition brokers_csv (c : KafkaConfig) : rstr := join (lit ",") (normalized_brokers c).
Definition topic_name (c : KafkaConfig) (topic : rstr) : rstr :=
  match topic_prefix c with [] => topic | prefix => prefix ++ lit "." ++ topic end.
Definition client_id_or_default (c : KafkaConfig) : rstr := default (lit "roze-kafka") (client_id c).
Definition group_id_or_default (c : KafkaConfig) : rstr :=
  default (lit "roze-kafka-group") (match k_group_name c with Some g => Some g | None => group_id c end).
Definition should_retry (c : KafkaConfig) (attempt : N) : bool :=
  negb (k_max_retries c =? 0) && (attempt <? k_max_retries c).
(** Whether the client library commits by itself. *)
Definition auto_commit (c : KafkaConfig) : bool := enable_auto_commit c && negb (enable_manual_ack c).

(** What the constructors of the clients check before they make one. *)
Definition new_client (create : KafkaConfig → result rstr unit) (c : KafkaConfig) : result rstr unit :=
  match normalized_brokers c with [] => Err (lit "kafka broker list is empty") | _ => create c end.

(** The provider that the publisher and the subscriber of a runtime are of; making a
    client of the library may fail. *)
Definition build_runtime (f : Features) (create : KafkaConfig → result rstr unit) (c : KafkaConfig)
    : result KafkaRuntimeError (KafkaProvider * KafkaCapabilities) :=
  let provider := resolved_provider f c in
  let '(feature, enabled) := provider_feature f provider in
  if negb enabled then Err (FeatureDisabled provider feature)
  else
    let caps := capabilities provider in
    if negb (can_subscribe caps)
    then Err (UnsupportedCapability provider (lit "consumer-groups-and-offset-commit"))
    else match provider with
    | Memory => Ok (provider, caps)
    | Rdkafka => _ ← map_err (Initialization provider) (new_client create c); Ok (provider, caps)
    | RustNative => Err (UnsupportedCapability provider (lit "consumer-groups-and-offset-commit"))
    end.

Definition build_publisher (f : Features) (create connect : KafkaConfig → result rstr unit) (c : KafkaConfig)
    : result KafkaRuntimeError KafkaProvider :=
  let provider := resolved_provider f c in
  let '(feature, enabled) := provider_feature f provider in
  if negb enabled then Err (FeatureDisabled provider feature)
  else match provider with
  | Memory => Ok provider
  | Rdkafka => _ ← map_err (Initialization provider) (new_client create c); Ok provider
  | RustNative => _ ← map_err (Initialization provider) (new_client connect c); Ok provider
  end.

(** ** Records *)

Section kafka.
Context {Value : Type}.

Record KafkaRecord :=
  { k_topic : rstr; k_key : option rstr; k_headers : gmap rstr rstr; k_timestamp_millis : N;
    k_partition : option Z; k_offset : option Z; k_group : option rstr; k_payload : Value; k_attempt : N;
    k_dead_letter_topic : option rstr }.

(** A record with the fields that routing assigns. *)
Definition with_route (r : KafkaRecord) (topic : rstr) (attempt : N) : KafkaRecord :=
  {| k_topic := topic; k_key := k_key r; k_headers := k_headers r; k_timestamp_millis := k_timestamp_millis r;
     k_partition := k_partition r; k_offset := k_offset r; k_group := k_group r; k_payload := k_payload r;
     k_attempt := attempt; k_dead_letter_topic := k_dead_letter_topic r |}.

Definition KafkaRecord_with_trace_id (now : N) (topic : rstr) (payload : Value) (trace_id : rstr) : KafkaRecord :=
  {| k_topic := topic; k_key := None; k_headers := {[ TRACE_ID_HEADER := trace_id ]}; k_timestamp_millis := now;
     k_partition := None; k_offset := None; k_group := None; k_payload := payload; k_attempt := 0;
     k_dead_letter_topic := None |}.

Definition k_with_headers (r : KafkaRecord) (h : gmap rstr rstr) : KafkaRecord :=
  {| k_topic := k_topic r; k_key := k_key r; k_headers := h; k_timestamp_millis := k_timestamp_millis r;
     k_partition := k_partition r; k_offset := k_offset r; k_group := k_group r; k_payload := k_payload r;
     k_attempt := k_attempt r; k_dead_letter_topic := k_dead_letter_topic r |}.

Definition k_ensure_trace_id (r : KafkaRecord) (fresh : rstr) : KafkaRecord :=
  match find_header (k_headers r) TRACE_ID_HEADER with
  | Some _ => r
  | None => k_with_headers r (<[TRACE_ID_HEADER := fresh]> (k_headers r))
  end.

Definition to_event (now seq : N) (r : KafkaRecord) : EventEnvelope Value * N :=
  from_transport now seq (k_topic r) (k_payload r) (k_key r) (k_headers r) (k_attempt r).

Definition from_event (now : N) (e : EventEnvelope Value) : KafkaRecord :=
  {| k_topic := env_topic e; k_key := env_key e; k_headers := transport_headers e; k_timestamp_millis := now;
     k_partition := None; k_offset := None; k_group := None; k_payload := env_payload e;
     k_attempt := env_attempt e; k_dead_letter_topic := None |}.

Definition to_mq_message (now seq : N) (r : KafkaRecord) : Message Value * N :=
  let '(e, seq) := to_event now seq r in
  let m := from_event_envelope e now in
  ({| event_id := event_id m; event_type := event_type m; version := version m;
      schema_revision := schema_revision m; topic := topic m; key := key m; headers := headers m;
      trace_context := trace_context m; tenant_id := tenant_id m; producer := producer m;
      occurred_at := occurred_at m; timestamp_millis := k_timestamp_millis r; partition := k_partition r;
      offset := k_offset r; group := k_group r; attempt := attempt m;
      dead_letter_topic := k_dead_letter_topic r; idempotency_key := idempotency_key m;
      available_at_millis := available_at_millis m; payload := payload m |}, seq).

Definition from_mq_message (now : N) (m : Message Value) : KafkaRecord :=
  let r := from_event now (into_event_envelope m) in
  {| k_topic := k_topic r; k_key := k_key r; k_headers := k_headers r; k_timestamp_millis := timestamp_millis m;
     k_partition := partition m; k_offset := offset m; k_group := group m; k_payload := k_payload r;
     k_attempt := k_attempt r; k_dead_letter_topic := dead_letter_topic m |}.

Record PublishResult :=
  { pr_topic : rstr; pr_partition : option Z; pr_offset : option Z; pr_timestamp_millis : N }.
Definition from_record (r : KafkaRecord) : PublishResult :=
  {| pr_topic := k_topic r; pr_partition := k_partition r; pr_offset := k_offset r;
     pr_timestamp_millis := k_timestamp_millis r |}.

(** ** Recovery *)

Inductive RecoverAction :=
| Retry (topic : rstr) (attempt backoff_ms : N)
| DeadLetter (topic : rstr)
| DropRecord (reason : rstr).

Definition recover_action (c : KafkaConfig) (r : KafkaRecord) : RecoverAction :=
  if k_max_retries c =? 0 then
    match config_dead_letter_topic c with
    | Some t => DeadLetter t | None => DropRecord (lit "recover_dropped") end
  else if should_retry c (k_attempt r) then
    match retry_topic c with
    | Some t => Retry t (sat_add U32_MAX (k_attempt r) 1) (retry_backoff_ms c)
    | None => DropRecord (lit "retry_topic_missing") end
  else match config_dead_letter_topic c with
    | Some t => DeadLetter t | None => DropRecord (lit "dead_letter_missing") end.

(** What a rejected record is published as, after a pause, if it is. *)
Definition publish_recover (c : KafkaConfig) (r : KafkaRecord) : option (N * KafkaRecord) :=
  match recover_action c r with
  | Retry t attempt backoff_ms => Some (backoff_ms, with_route r t attempt)
  | DeadLetter t => Some (0, with_route r t 0)
  | DropRecord _ => None
  end.

(** ** On the wire *)

Record Wire :=
  { w_topic : rstr; w_key : option (list N); w_headers : list (rstr * option (list N)); w_payload : list N }.

Definition ATTEMPT_HEADER : rstr := lit "roze-attempt".

Context (walk : gmap rstr rstr → list (rstr * rstr)).
Context (to_vec : Value → list N) (from_slice : list N → option Value) (string_value : rstr → Value).
Context (lossy : list N → rstr).

(** [String::from_utf8_lossy] *)
Definition from_utf8_lossy (b : list N) : rstr := default (lossy b) (from_utf8 b).

(** What [RdkafkaProducer::publish_with_result] hands to the client: a header is
    added after those that are there. *)
Definition rd_encode (c : KafkaConfig) (fresh : rstr) (r : KafkaRecord) : Wire :=
  let r := k_ensure_trace_id r fresh in
  {| w_topic := topic_name c (k_topic r); w_key := as_bytes <$> k_key r;
     w_headers := ((λ kv, (kv.1, Some (as_bytes kv.2))) <$> walk (k_headers r)) ++
                  [(ATTEMPT_HEADER, Some (as_bytes (dec (k_attempt r))))];
     w_payload := to_vec (k_payload r) |}.

(** [parse_attempt]: the first header of that name that is a number. *)
Fixpoint parse_attempt (hs : list (rstr * option (list N))) : N :=
  match hs with
  | [] => 0
  | (name, value) :: hs' =>
      if bool_decide (name = ATTEMPT_HEADER) then
        match (value ≫= from_utf8) ≫= parse_uint U32_MAX with
        | Some n => n
        | None => parse_attempt hs'
        end
      else parse_attempt hs'
  end.

Definition k_collect_headers (hs : list (rstr * option (list N))) : gmap rstr rstr :=
  foldl (λ h kv, <[kv.1 := from_utf8_lossy (default [] kv.2)]> h) ∅ hs.

(** The record the subscriber makes of a received one, with where it was. *)
Definition rd_decode (c : KafkaConfig) (now : N) (part off : Z) (w : Wire) : KafkaRecord :=
  {| k_topic := w_topic w; k_key := from_utf8_lossy <$> w_key w; k_headers := k_collect_headers (w_headers w);
     k_timestamp_millis := now; k_partition := Some part; k_offset := Some off;
     k_group := Some (group_id_or_default c);
     k_payload := default (string_value (from_utf8_lossy (w_payload w))) (from_slice (w_payload w));
     k_attempt := parse_attempt (w_headers w); k_dead_letter_topic := config_dead_letter_topic c |}.

(** The offset that acknowledging a received record commits. *)
Definition next_offset (off : Z) : Z := off + 1.

(** ** The wire carries records *)

Section wire.
Context (walk_perm : ∀ h, walk h ≡ₚ map_to_list h).

(** The headers of a record are text. *)
Definition headers_valid (h : gmap rstr rstr) : Prop := map_Forall (λ _ v, text_ok v) h.

Lemma digits_valid s : Forall (λ c, is_ascii_digit c = true) s → text_ok s.
Proof.
  intros H. eapply Forall_impl; [exact H|]. intros c Hc. unfold is_ascii_digit in Hc. cbn in Hc. guard_prop. left. lia.
Qed.

Lemma dec_valid n : text_ok (dec n).
Proof. apply digits_valid. by destruct (dec_spec n) as (_ & H & _). Qed.

Lemma attempt_decodes n : n ≤ U32_MAX → (Some (as_bytes (dec n)) ≫= from_utf8) ≫= parse_uint U32_MAX = Some n.
Proof. intros Hn. cbn. rewrite from_utf8_bytes by apply dec_valid. by apply parse_uint_dec. Qed.

Lemma parse_attempt_skip hs hs' :
  Forall (λ h, h.1 ≠ ATTEMPT_HEADER) hs → parse_attempt (hs ++ hs') = parse_attempt hs'.
Proof.
  induction 1 as [|[name value] hs Hn _ IH]; [done|]. cbn. by rewrite bool_decide_eq_false_2.
Qed.

(** Reading headers of distinct names gives them back. *)
Lemma collect_lookup (hs : list (rstr * rstr)) (h0 : gmap rstr rstr) :
  NoDup hs.*1 → Forall (λ kv, h0 !! kv.1 = None) hs → Forall (λ kv, text_ok kv.2) hs →
  foldl (λ h kv, <[kv.1 := from_utf8_lossy (default [] kv.2)]> h) h0
    ((λ kv, (kv.1, Some (as_bytes kv.2))) <$> hs) = list_to_map hs ∪ h0.
Proof.
  revert h0. induction hs as [|[k v] hs IH]; intros h0 Hnd Hf Hv; [symmetry; apply (left_id_L ∅ (∪))|].
  apply NoDup_cons in Hnd as [Hk Hnd]. apply Forall_cons in Hf as [Hf Hfs]. apply Forall_cons in Hv as [Hv Hvs].
  cbn in *. rewrite IH; [|done| |done].
  - unfold from_utf8_lossy. rewrite from_utf8_bytes by done. cbn.
    rewrite <- insert_union_l, insert_union_r; [done|]. by apply not_elem_of_list_to_map_1.
  - apply Forall_forall. intros [k' v'] Hin. cbn. rewrite lookup_insert_ne.
    + by apply (proj1 (Forall_forall _ _) Hfs _ Hin).
    + intros ->. apply Hk, list_elem_of_fmap. by exists (k', v').
Qed.

Lemma walk_nodup h : NoDup (walk h).*1.
Proof. rewrite (walk_perm h). apply NoDup_fst_map_to_list. Qed.

Lemma walk_map h : list_to_map (walk h) = h.
Proof. rewrite (list_to_map_proper _ _ (walk_nodup h) (walk_perm h)). apply list_to_map_to_list. Qed.

Lemma elem_of_walk h k v : (k, v) ∈ walk h ↔ h !! k = Some v.
Proof. rewrite (walk_perm h). apply elem_of_map_to_list. Qed.

Lemma walk_valid h : headers_valid h → Forall (λ kv, text_ok kv.2) (walk h).
Proof. intros Hv. apply Forall_forall. intros [k v] Hin%elem_of_walk. by apply (Hv k). Qed.

(** What a walk of headers and one more header is read back as. *)
Lemma collect_walk h n :
  headers_valid h →
  k_collect_headers (((λ kv, (kv.1, Some (as_bytes kv.2))) <$> walk h) ++ [(ATTEMPT_HEADER, Some (as_bytes (dec n)))]) =
  <[ATTEMPT_HEADER := dec n]> h.
Proof.
  intros Hv. unfold k_collect_headers. rewrite foldl_app, collect_lookup; [|apply walk_nodup| |by apply walk_valid].
  - cbn. unfold from_utf8_lossy. rewrite from_utf8_bytes by apply dec_valid. cbn.
    by rewrite walk_map, (right_id_L ∅ (∪)).
  - apply Forall_true. intros kv. apply lookup_empty.
Qed.

(** The number that is read is that of the header a record already has. *)
Lemma parse_walk h n :
  headers_valid h → n ≤ U32_MAX →
  (∀ v, h !! ATTEMPT_HEADER = Some v → ∃ a, v = dec a ∧ a ≤ U32_MAX) →
  parse_attempt (((λ kv, (kv.1, Some (as_bytes kv.2))) <$> walk h) ++ [(ATTEMPT_HEADER, Some (as_bytes (dec n)))]) =
  match h !! ATTEMPT_HEADER with Some v => default 0 (parse_uint U32_MAX v) | None => n end.
Proof.
  intros Hv Hn Ha. destruct (h !! ATTEMPT_HEADER) as [v|] eqn:E.
  - destruct (Ha v eq_refl) as (a & -> & Hle). apply elem_of_walk, list_elem_of_split in E as (l1 & l2 & El).
    pose proof (walk_nodup h) as Hnd. rewrite El, fmap_app, NoDup_app in Hnd. destruct Hnd as (_ & Hd & _).
    rewrite El, fmap_app, <- app_assoc, parse_attempt_skip.
    + cbn [fmap list_fmap app parse_attempt fst snd]. rewrite bool_decide_eq_true_2 by done.
      by rewrite attempt_decodes, parse_uint_dec.
    + apply Forall_fmap, Forall_forall. intros [k w] Hin. cbn. intros ->.
      apply (Hd ATTEMPT_HEADER); [apply list_elem_of_fmap; by exists (ATTEMPT_HEADER, w)|]. cbn. by left.
  - rewrite parse_attempt_skip.
    + cbn [parse_attempt]. rewrite bool_decide_eq_true_2 by done. by rewrite attempt_decodes.
    + apply Forall_fmap, Forall_forall. intros [k w] Hin%elem_of_walk.
      change (k ≠ ATTEMPT_HEADER). intros ->. congruence.
Qed.

Definition record_valid (r : KafkaRecord) : Prop :=
  headers_valid (k_headers r) ∧ (∀ k, k_key r = Some k → text_ok k) ∧ k_attempt r ≤ U32_MAX ∧
  from_slice (to_vec (k_payload r)) = Some (k_payload r).

Lemma ensure_trace_valid r fresh :
  text_ok fresh → record_valid r →
  record_valid (k_ensure_trace_id r fresh) ∧
  k_headers (k_ensure_trace_id r fresh) !! ATTEMPT_HEADER = k_headers r !! ATTEMPT_HEADER ∧
  k_attempt (k_ensure_trace_id r fresh) = k_attempt r ∧ k_topic (k_ensure_trace_id r fresh) = k_topic r ∧
  k_key (k_ensure_trace_id r fresh) = k_key r ∧ k_payload (k_ensure_trace_id r fresh) = k_payload r.
Proof.
  intros Hf (Hh & Hk & Ha & Hp). unfold k_ensure_trace_id.
  destruct (find_header (k_headers r) TRACE_ID_HEADER); [by repeat split|].
  cbn. rewrite lookup_insert_ne by done. repeat split; try done. by apply map_Forall_insert_2.
Qed.

(** A record that carries no attempt header is received as it was sent, under the
    topic's full name: key, payload, attempt and headers are the same, with a trace
    id and the attempt header added, whatever order the headers are walked in. *)
Theorem wire_roundtrip c fresh now part off r :
  text_ok fresh → record_valid r → k_headers r !! ATTEMPT_HEADER = None →
  rd_decode c now part off (rd_encode c fresh r) =
  {| k_topic := topic_name c (k_topic r); k_key := k_key r;
     k_headers := <[ATTEMPT_HEADER := dec (k_attempt r)]> (k_headers (k_ensure_trace_id r fresh));
     k_timestamp_millis := now; k_partition := Some part; k_offset := Some off;
     k_group := Some (group_id_or_default c); k_payload := k_payload r; k_attempt := k_attempt r;
     k_dead_letter_topic := config_dead_letter_topic c |}.
Proof.
  intros Hf Hr Hn. destruct (ensure_trace_valid r fresh Hf Hr) as ((Hh & Hk & Ha & Hp) & Hat & He & Ht & Hkey & Hpl).
  unfold rd_decode, rd_encode. cbn [w_topic w_key w_headers w_payload].
  rewrite collect_walk by done. rewrite parse_walk; [|done|done|rewrite Hat, Hn; done].
  rewrite Hat, Hn, Hp. cbn [default].
  rewrite He, Ht, Hpl, Hkey. f_equal. destruct (k_key r) as [k|] eqn:Ek; [|done]. cbn.
  unfold from_utf8_lossy. rewrite from_utf8_bytes; [done|]. destruct Hr as (_ & Hk' & _). by apply Hk'.
Qed.

(** ** Rejecting a record again and again *)

(** What is received when a received record is rejected and what that publishes, if
    anything, is received again. *)
Definition redeliver (c : KafkaConfig) (fresh : rstr) (r : KafkaRecord) : option KafkaRecord :=
  p ← publish_recover c r; Some (rd_decode c 0 0 0 (rd_encode c fresh p.2)).

Fixpoint redelivered (c : KafkaConfig) (fresh : rstr) (n : nat) (r : KafkaRecord) : option KafkaRecord :=
  match n with O => Some r | S n' => r' ← redeliver c fresh r; redelivered c fresh n' r' end.

(** A received record of attempt [a] whose attempt header says [h]. *)
Definition received (a h : N) (r : KafkaRecord) : Prop :=
  record_valid r ∧ k_attempt r = a ∧ k_headers r !! ATTEMPT_HEADER = Some (dec h) ∧ h ≤ U32_MAX.

Lemma received_again c fresh t n a h r :
  text_ok fresh → received a h r → n ≤ U32_MAX →
  received h n (rd_decode c 0 0 0 (rd_encode c fresh (with_route r t n))) ∧
  k_topic (rd_decode c 0 0 0 (rd_encode c fresh (with_route r t n))) = topic_name c t.
Proof.
  intros Hf ((Hh & Hk & Ha & Hp) & <- & Hat & Hle) Hn. set (r' := with_route r t n).
  assert (record_valid r') as Hr' by by repeat split.
  destruct (ensure_trace_valid r' fresh Hf Hr') as ((Hh' & Hk' & Ha' & Hp') & Hat' & He & Ht & Hkey & Hpl).
  unfold rd_decode, rd_encode. cbn [w_topic w_key w_headers w_payload].
  rewrite collect_walk by done.
  rewrite parse_walk; [|done|done|rewrite Hat'; change (k_headers r') with (k_headers r); rewrite Hat; intros v [= <-]; by exists h].
  rewrite Hat', He. change (k_headers r') with (k_headers r). change (k_attempt r') with n. rewrite Hat, parse_uint_dec by done. split; [|by rewrite Ht].
  split; [|split; [done|split; [apply lookup_insert_eq|done]]]. unfold record_valid.
  cbn [k_headers k_key k_attempt k_payload]. rewrite Hp', Hpl, Hkey. cbn [default]. split; [|split; [|done]].
  - apply map_Forall_insert_2; [apply dec_valid|done].
  - intros k. cbn. destruct (k_key r) as [k0|] eqn:Ek; [|done]. cbn. unfold from_utf8_lossy.
    rewrite from_utf8_bytes by by apply Hk. intros [= <-]. by apply Hk.
Qed.

Lemma redeliver_retry c fresh t a h r :
  text_ok fresh → received a h r → a < k_max_retries c → retry_topic c = Some t → k_max_retries c ≤ U32_MAX →
  ∃ r', redeliver c fresh r = Some r' ∧ received h (a + 1) r' ∧ k_topic r' = topic_name c t.
Proof.
  intros Hf Hr Ha Ht Hm. pose proof Hr as (_ & He & _). unfold redeliver, publish_recover, recover_action, should_retry.
  rewrite He, Ht. destruct (N.eqb_spec (k_max_retries c) 0) as [|_]; [lia|]. cbn [negb andb].
  rewrite (proj2 (N.ltb_lt _ _) Ha), sat_add_small by lia. cbn [mbind option_bind snd].
  eexists. split; [done|]. apply (received_again c fresh t (a + 1) a h); [done|done|lia].
Qed.

Lemma redelivered_next c fresh n r : redelivered c fresh (S n) r = redelivered c fresh n r ≫= redeliver c fresh.
Proof.
  revert r. induction n as [|n IH]; intros r; cbn; [by destruct (redeliver c fresh r)|].
  destruct (redeliver c fresh r) as [r'|]; [|done]. apply IH.
Qed.

Lemma redelivered_retries c fresh t r k :
  text_ok fresh → received 0 0 r → retry_topic c = Some t → k_max_retries c ≤ U32_MAX →
  N.of_nat k ≤ 2 * k_max_retries c →
  ∃ r', redelivered c fresh k r = Some r' ∧ received (N.of_nat k / 2) ((N.of_nat k + 1) / 2) r' ∧
    ((0 < k)%nat → k_topic r' = topic_name c t).
Proof.
  intros Hf Hr Ht Hm. induction k as [|k IH]; intros Hk; [exists r; split; [done|]; split; [exact Hr|lia]|].
  destruct IH as (r' & Hred & Hrec & _); [lia|]. rewrite redelivered_next, Hred.
  destruct (redeliver_retry c fresh t _ _ r' Hf Hrec) as (r'' & Hr'' & Hrec'' & Ht''); [div_lia|done|done|].
  exists r''. split; [done|]. split; [|done].
  replace (N.of_nat (S k) / 2) with ((N.of_nat k + 1) / 2) by (f_equal; lia).
  replace ((N.of_nat (S k) + 1) / 2) with (N.of_nat k / 2 + 1) by div_lia. done.
Qed.

(** C36: A rejected record is retried twice as often as [max_retries] says. Hypotheses: a
    retry topic and a dead-letter topic are configured, [max_retries] is not 0 (and is a
    [u32]), and the record is valid and arrives with attempt 0 and the header
    [roze-attempt: 0] ([received 0 0]). If it is rejected at every delivery, its [k]-th
    redelivery is on the retry topic with attempt [k / 2]: a retried record is read
    back with the attempt header it had before, so that its attempt advances at
    every other delivery only. The rejection after [2 * max_retries] redeliveries
    publishes it to the dead-letter topic with attempt 0; it is never retried for ever. *)
Theorem rejected_record_recovers c fresh t dead r k :
  text_ok fresh → received 0 0 r → retry_topic c = Some t → config_dead_letter_topic c = Some dead →
  0 < k_max_retries c ≤ U32_MAX →
  N.of_nat k ≤ 2 * k_max_retries c →
  ∃ r', redelivered c fresh k r = Some r' ∧ k_attempt r' = N.of_nat k / 2 ∧
    ((0 < k)%nat → k_topic r' = topic_name c t) ∧
    (N.of_nat k < 2 * k_max_retries c → ∃ pause p, publish_recover c r' = Some (pause, p) ∧ k_topic p = t ∧ k_attempt p = N.of_nat k / 2 + 1) ∧
    (N.of_nat k = 2 * k_max_retries c → ∃ pause p, publish_recover c r' = Some (pause, p) ∧ k_topic p = dead ∧ k_attempt p = 0).
Proof.
  intros Hf Hr Ht Hd Hm Hk.
  destruct (redelivered_retries c fresh t r k) as (r' & Hred & Hrec & Htop); [done..|lia|done|].
  destruct Hrec as (_ & Ha & _). exists r'. split; [done|]. split; [done|]. split; [done|].
  unfold publish_recover, recover_action, should_retry. rewrite Ha, Ht, Hd.
  destruct (N.eqb_spec (k_max_retries c) 0) as [|_]; [lia|]. cbn [negb andb]. split; intros Hlast.
  - rewrite (proj2 (N.ltb_lt _ _)) by div_lia. eexists _, _. split; [done|]. split; [done|].
    cbn [with_route k_attempt]. apply sat_add_small. div_lia.
  - rewrite (proj2 (N.ltb_ge _ _)) by div_lia. eexists _, _. by split.
Qed.
End wire.

(** ** Records and messages *)

(** Transport keeps a header that is not one of its own, when the trace context is
    part of the headers. *)
Lemma transport_keeps (e : EventEnvelope Value) k :
  (∀ v, env_trace_context e !! k = Some v → env_headers e !! k = Some v) → k ∉ reserved_names →
  transport_headers e !! k = env_headers e !! k.
Proof.
  intros Ht Hk. destruct (env_trace_context e !! k) as [v|] eqn:E; [|by apply transport_headers_other].
  unfold transport_headers. rewrite (lookup_union_Some_l _ _ _ v E). symmetry. by apply Ht.
Qed.

(** A record that becomes a message of roze-mq and a record again keeps its topic, key,
    payload, attempt, time, place, group and dead-letter topic, and every header that
    is not one in which the transport writes the message's own metadata. *)
Theorem record_message_roundtrip now seq now' r :
  let r' := from_mq_message now' (to_mq_message now seq r).1 in
  k_topic r' = k_topic r ∧ k_key r' = k_key r ∧ k_payload r' = k_payload r ∧ k_attempt r' = k_attempt r ∧
  k_timestamp_millis r' = k_timestamp_millis r ∧ k_partition r' = k_partition r ∧ k_offset r' = k_offset r ∧
  k_group r' = k_group r ∧ k_dead_letter_topic r' = k_dead_letter_topic r ∧
  ∀ k, k ∉ reserved_names → k_headers r' !! k = k_headers r !! k.
Proof.
  unfold to_mq_message, to_event. destruct (from_transport _ _ _ _ _ _ _) as [e seq'] eqn:E.
  assert (env_topic e = k_topic r ∧ env_key e = k_key r ∧ env_payload e = k_payload r ∧ env_attempt e = k_attempt r ∧
    env_headers e = k_headers r ∧ ∀ k v, env_trace_context e !! k = Some v → k_headers r !! k = Some v)
    as (Ht & Hk & Hp & Ha & Hh & Htr).
  { unfold from_transport, EventEnvelope_new, next_event_id in E.
    destruct (required_header (k_headers r) (lit "x-roze-event-id")); injection E as <- _;
      (split_and!; [done..|]); intros k v Hv; by apply map_lookup_filter_Some in Hv as [? _]. }
  split_and!; try done. intros k Hn. cbn [fst].
  assert (transport_headers e !! k = k_headers r !! k) as Hth
    by (rewrite <- Hh; apply transport_keeps; [rewrite Hh; apply Htr|done]).
  rewrite <- Hth. apply transport_keeps; [|done]. intros v Hv. change (transport_headers e !! k = Some v).
  rewrite Hth. by apply Htr.
Qed.

(** ** Partitions of the pure-Rust producer *)

Definition stable_partition_hash (key : list N) : N :=
  foldl (λ hash byte, wrap 64 (N.lxor hash byte * 1099511628211)) 14695981039346656037 key.

(** A topic of the cluster with its partitions, in their order. *)
Record TopicMetadata := { tm_name : rstr; tm_partitions : list Z }.

Definition resolve_partition (topics : list TopicMetadata) (topic : rstr) (r : KafkaRecord) : result rstr Z :=
  let no_partitions := quoted_topic topic (lit " has no partitions") in
  match find_map (λ m, if str_eqb (tm_name m) topic then Some m else None) topics with
  | None => Err (quoted_topic topic (lit " was not found"))
  | Some m =>
      match tm_partitions m with
      | [] => Err no_partitions
      | (first :: _) as ps =>
          match k_partition r, k_key r with
          | Some p, _ =>
              if bool_decide (p ∈ ps) then Ok p
              else Err (quoted_topic topic (lit " does not contain partition " ++ dec_Z p))
          | None, Some key =>
              ok_or (ps !! N.to_nat (stable_partition_hash (as_bytes key) mod N.of_nat (length ps))) no_partitions
          | None, None => Ok first
          end
      end
  end.

(** The producer sends to a partition the topic has: the one asked for, or one that
    the key alone decides, or the first; and it refuses exactly when the topic is
    unknown or without partitions, or does not have the one that was asked for. *)
Theorem partition_resolved topics topic r :
  match resolve_partition topics topic r with
  | Ok p => ∃ m, m ∈ topics ∧ tm_name m = topic ∧ p ∈ tm_partitions m ∧
      (∀ q, k_partition r = Some q → p = q) ∧
      (k_partition r = None → ∀ r', k_partition r' = None → k_key r' = k_key r → resolve_partition topics topic r' = Ok p)
  | Err _ =>
      (∀ m, m ∈ topics → tm_name m ≠ topic) ∨
      ∃ m, m ∈ topics ∧ tm_name m = topic ∧
        (tm_partitions m = [] ∨ ∃ q, k_partition r = Some q ∧ q ∉ tm_partitions m)
  end.
Proof.
  unfold resolve_partition. destruct (find_map _ topics) as [m|] eqn:E.
  - apply find_map_Some in E as (m' & Hm & Hf). destruct (str_eqb_spec (tm_name m') topic) as [Hn|]; [|done].
    injection Hf as ->. destruct (tm_partitions m) as [|first ps] eqn:Ep; [right; exists m; split_and!; by auto|].
    destruct (k_partition r) as [p|].
    + case_bool_decide; [|right; exists m; split_and!; [done|done|right; exists p; by rewrite Ep]].
      exists m. rewrite Ep. split_and!; [done|done|done|by intros q [= ->]|done].
    + destruct (k_key r) as [key|].
      * set (i := N.to_nat _). destruct ((first :: ps) !! i) as [p|] eqn:Ei; cbn [ok_or].
        -- exists m. rewrite Ep. split_and!; [done|done|by eapply list_elem_of_lookup_2|done|].
           intros _ r' -> ->. fold i. by rewrite Ei.
        -- exfalso. apply lookup_ge_None in Ei. subst i. cbn [length] in Ei.
           pose proof (N.mod_lt (stable_partition_hash (as_bytes key)) (N.of_nat (S (length ps))) ltac:(lia)). lia.
      * exists m. rewrite Ep. split_and!; [done|done|by left|done|]. by intros _ r' -> ->.
  - left. intros m Hm Hn. revert E. induction Hm as [|m' m0 topics Hm IH]; cbn.
    + rewrite Hn. by rewrite str_eqb_refl.
    + destruct (str_eqb _ _); [done|]. auto.
Qed.
End kafka.
Arguments KafkaRecord : clear implicits.

(** ** Runtimes *)

(** A runtime is of the resolved provider, which is compiled in, can subscribe and
    settles by hand; a publisher can be had of any provider that is compiled in; and
    an error names the resolved provider and why it was refused. *)
Theorem runtime_capable f create connect c :
  let p := resolved_provider f c in
  match build_runtime f create c with
  | Ok (p', caps) => p' = p ∧ (provider_feature f p).2 = true ∧ caps = capabilities p ∧
      can_publish caps && can_subscribe caps && manual_ack caps = true ∧ (p = Rdkafka → normalized_brokers c ≠ [])
  | Err (FeatureDisabled p' feature) => p' = p ∧ provider_feature f p = (feature, false)
  | Err (UnsupportedCapability p' _) => p' = p ∧ can_subscribe (capabilities p) = false ∧
      build_publisher f create connect c = (_ ← map_err (Initialization p) (new_client connect c); Ok p)
  | Err (Initialization p' message) => p' = p ∧ p = Rdkafka ∧ new_client create c = Err message
  end.
Proof.
  intros p. unfold build_runtime, build_publisher. fold p.
  destruct (provider_feature f p) as [feature enabled] eqn:Ef. destruct enabled; cbn [negb]; [|done].
  destruct p eqn:Ep; cbn; [done| |done].
  unfold new_client. destruct (normalized_brokers c) eqn:En; cbn; [done|].
  by destruct (create c).
Qed.

(** ** Examples *)

Definition ex_kafka (max_retries : N) : KafkaConfig :=
  {| k_provider := None; brokers := [lit "k1:9092"]; bootstrap := None; bootstrap_servers := None;
     client_id := None; group_id := None; k_group_name := None; topic_prefix := lit "app";
     enable_manual_ack := true; enable_auto_commit := false; retry_backoff_ms := 1000;
     k_max_retries := max_retries; retry_topic := Some (lit "retry"); config_dead_letter_topic := Some (lit "dead") |}.

Definition ex_kafka_record (h : gmap rstr rstr) : KafkaRecord N :=
  {| k_topic := lit "orders"; k_key := Some (lit "k"); k_headers := h; k_timestamp_millis := 0;
     k_partition := None; k_offset := None; k_group := None; k_payload := 7; k_attempt := 0;
     k_dead_letter_topic := None |}.

Lemma lit_ok s : forallb (λ c, c <? 55296) (lit s) = true → text_ok (lit s).
Proof. intros H. apply forallb_Forall in H. eapply Forall_impl; [exact H|]. intros c Hc. left. by apply N.ltb_lt. Qed.

Lemma ex_record_valid h :
  headers_valid h → record_valid (Value := N) (λ v, [v]) head (ex_kafka_record h).
Proof.
  intros Hh. split; [done|]. split; [intros k [= <-]; by apply lit_ok|]. by split.
Qed.

Lemma wire_roundtrip_witness :
  let r := ex_kafka_record {[ lit "a" := lit "b" ]} in
  let got := rd_decode head (λ _, 0) (λ _, []) (ex_kafka 3) 5 1 2 (rd_encode map_to_list (λ v, [v]) (ex_kafka 3) (lit "t") r) in
  k_topic got = lit "app.orders" ∧ k_attempt got = 0 ∧ k_payload got = 7 ∧
  k_headers got = <[ATTEMPT_HEADER := dec 0]> (k_headers (k_ensure_trace_id r (lit "t"))).
Proof.
  intros r got. unfold got.
  rewrite (wire_roundtrip map_to_list (λ v, [v]) head (λ _, 0) (λ _, [])); [by repeat split|done|by apply lit_ok| |done].
  apply ex_record_valid, map_Forall_singleton. by apply lit_ok.
Defined.

(** With [max_retries = 3], seven deliveries and not four. *)
Lemma rejected_record_recovers_witness :
  let r := ex_kafka_record {[ ATTEMPT_HEADER := dec 0 ]} in
  let run k := redelivered map_to_list (λ v, [v]) head (λ _, 0) (λ _, []) (ex_kafka 3) (lit "t") k r in
  (k_attempt <$> run 5%nat) = Some 2 ∧
  ∃ r6 pause p, run 6%nat = Some r6 ∧ publish_recover (ex_kafka 3) r6 = Some (pause, p) ∧ k_topic p = lit "dead".
Proof.
  intros r run.
  assert (received (λ v, [v]) head 0 0 r) as Hr.
  { split; [|by repeat split]. apply ex_record_valid, map_Forall_singleton, dec_valid. }
  pose proof (λ k, rejected_record_recovers map_to_list (λ v, [v]) head (λ _, 0) (λ _, []) (λ _, reflexivity _)
    (ex_kafka 3) (lit "t") (lit "retry") (lit "dead") r k (lit_ok "t" eq_refl) Hr eq_refl eq_refl) as H.
  split.
  - destruct (H 5%nat) as (r5 & Hrun & Ha & _); [done..|]. unfold run. rewrite Hrun. cbn [fmap option_fmap option_map].
    by rewrite Ha.
  - destruct (H 6%nat) as (r6 & Hrun & _ & _ & _ & Hlast); [done..|].
    destruct Hlast as (pause & p & Hp & Ht & _); [reflexivity|].
    exists r6, pause, p. exact (conj Hrun (conj Hp Ht)).
Defined.
