(* ===== verification/KafkaBroker.v ===== *)
(** * The in-memory Kafka broker and consumers (crates/roze-kafka/src/lib.rs)

    The broker's shared state is one record; its clones share it. A [Delivery] and its
    clones, one per receiver of the topic's [broadcast] channel, share two flags, an
    entry of [deliveries]; settling is an action of the clone that asks for it, so it
    can happen more than once. What a channel receives is appended to [k_sent].
    The clock, the sequence of event ids and fresh trace ids are arguments. *)

From S2P Require Import Prelude Text Eventbus Mq Kafka.

Section broker.
Context {Value : Type}.
Abbreviation KafkaRecord := (KafkaRecord Value).

Record KDelivery := { kd_message : KafkaRecord; kd_acked : bool; kd_nacked : bool }.

Record InMemoryKafkaBroker :=
  { k_topics : gset rstr; k_topic_offsets : gmap rstr Z; k_dead_letters : list (DeadLetterRecord Value);
    k_broker_dead_letter_topic : option rstr; k_max_attempts : N; k_next_dead_letter_id : N;
    k_counters : MqCounters; deliveries : list KDelivery; k_sent : list (rstr * nat) }.

Definition InMemoryKafkaBroker_new : InMemoryKafkaBroker :=
  {| k_topics := ∅; k_topic_offsets := ∅; k_dead_letters := []; k_broker_dead_letter_topic := None;
     k_max_attempts := 3; k_next_dead_letter_id := 1; k_counters := MqCounters_zero; deliveries := []; k_sent := [] |}.
Definition kafka_with_dead_letter (topic : rstr) (max_attempts : N) : InMemoryKafkaBroker :=
  {| k_topics := ∅; k_topic_offsets := ∅; k_dead_letters := []; k_broker_dead_letter_topic := Some topic;
     k_max_attempts := N.max max_attempts 1; k_next_dead_letter_id := 1; k_counters := MqCounters_zero;
     deliveries := []; k_sent := [] |}.

Implicit Types (b : InMemoryKafkaBroker) (r : KafkaRecord).

(** Brokers with some fields assigned. *)
Definition k_count b (c : MqCounter) : InMemoryKafkaBroker :=
  {| k_topics := k_topics b; k_topic_offsets := k_topic_offsets b; k_dead_letters := k_dead_letters b;
     k_broker_dead_letter_topic := k_broker_dead_letter_topic b; k_max_attempts := k_max_attempts b;
     k_next_dead_letter_id := k_next_dead_letter_id b; k_counters := fetch_add c (k_counters b);
     deliveries := deliveries b; k_sent := k_sent b |}.
Definition k_set_dead b (l : list (DeadLetterRecord Value)) (next : N) : InMemoryKafkaBroker :=
  {| k_topics := k_topics b; k_topic_offsets := k_topic_offsets b; k_dead_letters := l;
     k_broker_dead_letter_topic := k_broker_dead_letter_topic b; k_max_attempts := k_max_attempts b;
     k_next_dead_letter_id := next; k_counters := k_counters b; deliveries := deliveries b; k_sent := k_sent b |}.
Definition k_set_offsets b (o : gmap rstr Z) : InMemoryKafkaBroker :=
  {| k_topics := k_topics b; k_topic_offsets := o; k_dead_letters := k_dead_letters b;
     k_broker_dead_letter_topic := k_broker_dead_letter_topic b; k_max_attempts := k_max_attempts b;
     k_next_dead_letter_id := k_next_dead_letter_id b; k_counters := k_counters b;
     deliveries := deliveries b; k_sent := k_sent b |}.
Definition k_set_channels b (t : gset rstr) (ds : list KDelivery) (s : list (rstr * nat)) : InMemoryKafkaBroker :=
  {| k_topics := t; k_topic_offsets := k_topic_offsets b; k_dead_letters := k_dead_letters b;
     k_broker_dead_letter_topic := k_broker_dead_letter_topic b; k_max_attempts := k_max_attempts b;
     k_next_dead_letter_id := k_next_dead_letter_id b; k_counters := k_counters b; deliveries := ds; k_sent := s |}.

Definition k_sender_for b (topic : rstr) : InMemoryKafkaBroker :=
  k_set_channels b ({[ topic ]} ∪ k_topics b) (deliveries b) (k_sent b).

(** [sender_for(topic).send(make_delivery(record))] *)
Definition k_send b (topic : rstr) r : InMemoryKafkaBroker :=
  let b := k_sender_for b topic in
  k_set_channels b (k_topics b) (deliveries b ++ [{| kd_message := r; kd_acked := false; kd_nacked := false |}])
    (k_sent b ++ [(topic, length (deliveries b))]).

Definition k_push_dead_letter b r (why : rstr) (now seq : N) : InMemoryKafkaBroker :=
  let record := {| dl_id := k_next_dead_letter_id b; original_topic := k_topic r; reason := why;
                   failed_at_millis := now; replay_count := 0; dl_message := (to_mq_message now seq r).1 |} in
  k_count (k_set_dead b (k_dead_letters b ++ [record]) (wrap 64 (k_next_dead_letter_id b + 1))) DeadLettered.

Definition k_place r (ts : N) (part off : option Z) : KafkaRecord :=
  {| k_topic := k_topic r; k_key := k_key r; k_headers := k_headers r; k_timestamp_millis := ts;
     k_partition := part; k_offset := off; k_group := k_group r; k_payload := k_payload r;
     k_attempt := k_attempt r; k_dead_letter_topic := k_dead_letter_topic r |}.

Definition k_prepare_delivery_metadata b r (now : N) : KafkaRecord * InMemoryKafkaBroker :=
  let ts := if k_timestamp_millis r =? 0 then now else k_timestamp_millis r in
  let part := match k_partition r with None => Some 0%Z | p => p end in
  match k_offset r with
  | None =>
      let offset := default 0%Z (k_topic_offsets b !! k_topic r) in
      (k_place r ts part (Some offset),
       k_set_offsets b (<[k_topic r := Z.min (offset + 1) I64_MAX]> (k_topic_offsets b)))
  | Some off => (k_place r ts part (Some off), b)
  end.

Definition route_or_dead_letter b r (now seq : N) : PublishResult * InMemoryKafkaBroker :=
  let '(r, b) := k_prepare_delivery_metadata b r now in
  let result := from_record r in
  let r := with_route r (k_topic r) (sat_add U32_MAX (k_attempt r) 1) in
  (result,
   if k_max_attempts b <? k_attempt r then
     let b := k_push_dead_letter b r (lit "max_attempts_exceeded") now seq in
     match (match k_dead_letter_topic r with Some t => Some t | None => k_broker_dead_letter_topic b end) with
     | Some t => k_send b t (with_route r t 0)
     | None => b
     end
   else k_count (k_send b (k_topic r) r) Delivered).

Definition kafka_publish b r (now seq : N) (fresh : rstr) : PublishResult * InMemoryKafkaBroker :=
  let r := k_ensure_trace_id r fresh in
  route_or_dead_letter (k_count b Published) r now seq.

(** A clone of the delivery stores its flag and runs its action, each time. *)
Definition set_delivery b (i : nat) (f : KDelivery → KDelivery) : InMemoryKafkaBroker :=
  k_set_channels b (k_topics b) (alter f i (deliveries b)) (k_sent b).
Definition kafka_ack b (i : nat) : InMemoryKafkaBroker :=
  match deliveries b !! i with
  | None => b
  | Some _ => k_count (set_delivery b i (λ d, {| kd_message := kd_message d; kd_acked := true; kd_nacked := kd_nacked d |})) Acked
  end.
Definition kafka_nack b (i : nat) (now seq : N) : InMemoryKafkaBroker :=
  match deliveries b !! i with
  | None => b
  | Some d =>
      let b := set_delivery b i (λ d, {| kd_message := kd_message d; kd_acked := kd_acked d; kd_nacked := true |}) in
      (route_or_dead_letter (k_count b Nacked) (kd_message d) now seq).2
  end.
Definition k_is_acked b (i : nat) : bool := match deliveries b !! i with Some d => kd_acked d | None => false end.
Definition k_is_nacked b (i : nat) : bool := match deliveries b !! i with Some d => kd_nacked d | None => false end.

(** ** [MqAdmin] *)

Definition kafka_stats b : MqStats :=
  {| stat_counters := k_counters b; dead_letter_pending := N.of_nat (length (k_dead_letters b)) |}.
Definition kafka_dead_letters b (skip limit : N) : list (DeadLetterRecord Value) :=
  take (N.to_nat (N.min (N.max limit 1) 500)) (drop (N.to_nat skip) (k_dead_letters b)).

Definition kafka_replay_message (d : DeadLetterRecord Value) : Message Value :=
  set_route (dl_message d) (original_topic d) (timestamp_millis (dl_message d)) (partition (dl_message d))
    (offset (dl_message d)) 0 (idempotency_key (dl_message d)) None.

Definition kafka_replay b (id now seq : N) (fresh : rstr) : option (Message Value) * InMemoryKafkaBroker :=
  match list_find (λ d, dl_id d = id) (k_dead_letters b) with
  | None => (None, b)
  | Some (i, d) =>
      let b := k_set_dead b (<[i := count_replay d]> (k_dead_letters b)) (k_next_dead_letter_id b) in
      let message := (ensure_trace_id (kafka_replay_message d) fresh).2 in
      (Some message, (route_or_dead_letter (k_count b Replayed) (from_mq_message now message) now seq).2)
  end.
Definition kafka_purge b (id : N) : option (DeadLetterRecord Value) * InMemoryKafkaBroker :=
  match list_find (λ d, dl_id d = id) (k_dead_letters b) with
  | None => (None, b)
  | Some (i, d) => (Some d, k_set_dead b (delete i (k_dead_letters b)) (k_next_dead_letter_id b))
  end.
Definition kafka_clear b : N * InMemoryKafkaBroker :=
  (N.of_nat (length (k_dead_letters b)), k_set_dead b [] (k_next_dead_letter_id b)).

(** ** Consumers *)

(** One delivery in the loop of a consumer: [handler] is what its handler does to the
    broker and whether it succeeds. *)
Definition consume b (i : nat) (now seq : N) (auto_ack : bool) (handler : InMemoryKafkaBroker → bool * InMemoryKafkaBroker)
    : InMemoryKafkaBroker :=
  let '(ok, b) := handler b in
  if ok then
    if auto_ack && negb (k_is_acked b i) && negb (k_is_nacked b i) then kafka_ack b i else b
  else kafka_nack b i now seq.

(** ** Executions *)

Inductive kafka_call :=
| KPublish (r : KafkaRecord) (fresh : rstr)
| KSubscribe (topic : rstr)
| KAck (i : nat)
| KNack (i : nat)
| KReplay (id : N) (fresh : rstr)
| KPurge (id : N)
| KClear.

(** One call at a time, with the result of a publish. *)
Definition kafka_step b (now seq : N) (c : kafka_call) : option PublishResult * InMemoryKafkaBroker :=
  match c with
  | KPublish r fresh => let '(p, b) := kafka_publish b r now seq fresh in (Some p, b)
  | KSubscribe topic => (None, k_sender_for b topic)
  | KAck i => (None, kafka_ack b i)
  | KNack i => (None, kafka_nack b i now seq)
  | KReplay id fresh => (None, (kafka_replay b id now seq fresh).2)
  | KPurge id => (None, (kafka_purge b id).2)
  | KClear => (None, (kafka_clear b).2)
  end.

Fixpoint kafka_run b (cs : list (N * N * kafka_call)) : list (option PublishResult) * InMemoryKafkaBroker :=
  match cs with
  | [] => ([], b)
  | (now, seq, c) :: cs' =>
      let '(p, b) := kafka_step b now seq c in
      let '(ps, b) := kafka_run b cs' in (p :: ps, b)
  end.
End broker.
Arguments InMemoryKafkaBroker : clear implicits.
Arguments kafka_call : clear implicits.
Arguments KDelivery : clear implicits.

(** ** Accounts, attempts and places *)

Section accounting.
Context {Value : Type}.
Implicit Types (b : InMemoryKafkaBroker Value) (r : KafkaRecord Value).

(** A delivery within the attempts, and a dead letter past them; both were placed. *)
Definition deliverable (max : N) (d : KDelivery Value) : Prop :=
  k_attempt (kd_message d) ≤ max ∧ is_Some (k_offset (kd_message d)).
Definition dead (max : N) (l : DeadLetterRecord Value) : Prop :=
  max < attempt (dl_message l) ∧ is_Some (offset (dl_message l)).

(** The records of the deliveries, and how many of them are no dead letters' copies,
    whose attempt is 0. *)
Definition delivered_records b : list (KafkaRecord Value) := kd_message <$> deliveries b.
Definition live_records (l : list (KafkaRecord Value)) : N := N.of_nat (length (filter (λ r, k_attempt r ≠ 0) l)).
(** Each delivery went to the channel of its record's topic. *)
Definition sends_of (l : list (KafkaRecord Value)) : list (rstr * nat) := imap (λ i r, (k_topic r, i)) l.

(** [sound k u b]: the broker counted [u], with [k] records in hand that the call
    under way still has to route. *)
Record sound (k : N) (u : MqCounters) b : Prop :=
  { snd_counters : k_counters b = wrap_counters u;
    snd_unique : duplicated u = 0;
    snd_next : k_next_dead_letter_id b = wrap 64 (1 + dead_lettered u);
    snd_delivered : delivered u = live_records (delivered_records b);
    snd_sent : k_sent b = sends_of (delivered_records b);
    snd_records : delivered u + dead_lettered u + k = published u + replayed u + nacked u;
    snd_deliveries : Forall (deliverable (k_max_attempts b)) (deliveries b);
    snd_letters : Forall (dead (k_max_attempts b)) (k_dead_letters b) }.

Lemma to_mq_message_keeps (now seq : N) r :
  attempt (to_mq_message now seq r).1 = k_attempt r ∧ offset (to_mq_message now seq r).1 = k_offset r.
Proof.
  unfold to_mq_message, to_event, from_transport, EventEnvelope_new, next_event_id.
  by destruct (required_header (k_headers r) (lit "x-roze-event-id")).
Qed.

Lemma k_ensure_trace_id_keeps r fresh :
  k_topic (k_ensure_trace_id r fresh) = k_topic r ∧ k_offset (k_ensure_trace_id r fresh) = k_offset r.
Proof. unfold k_ensure_trace_id. by destruct (find_header _ _). Qed.

Lemma live_records_app l1 l2 : live_records (l1 ++ l2) = live_records l1 + live_records l2.
Proof. unfold live_records. rewrite filter_app, length_app. lia. Qed.

Lemma live_one r : live_records [r] = if k_attempt r =? 0 then 0 else 1.
Proof.
  unfold live_records. rewrite filter_cons. destruct (N.eqb_spec (k_attempt r) 0) as [Ha|Ha].
  - by rewrite decide_False by (intros Hn; by apply Hn).
  - by rewrite decide_True.
Qed.

Lemma sent_records b r : k_sent b = sends_of (delivered_records b) →
  k_sent (k_send b (k_topic r) r) = sends_of (delivered_records (k_send b (k_topic r) r)).
Proof.
  intros Hs. unfold delivered_records, sends_of. cbn. rewrite Hs, fmap_app, imap_app, length_fmap. cbn.
  by rewrite Nat.add_0_r.
Qed.

(** Sending a copy of a dead letter keeps the accounts of what is in hand. *)
Lemma sound_send k u b r :
  sound k u b → k_attempt r = 0 → is_Some (k_offset r) → sound k u (k_send b (k_topic r) r).
Proof.
  intros Hb Ha Ho. pose proof (sent_records b r (snd_sent _ _ _ Hb)) as Hs. destruct Hb. split; try done.
  - rewrite snd_delivered0. unfold delivered_records. cbn. rewrite fmap_app, live_records_app.
    cbn [fmap list_fmap kd_message]. rewrite live_one, Ha. cbn. lia.
  - cbn. apply Forall_app. split; [done|]. apply Forall_singleton. split; [cbn; rewrite Ha; apply N.le_0_l|done].
Qed.

Lemma sound_count_in k u b c :
  sound k u b → (c = Published ∨ c = Replayed ∨ c = Nacked) → sound (k + 1) (bump c u) (k_count b c).
Proof.
  intros [] Hc. destruct Hc as [->|[->| ->]];
    (split; cbn; [by rewrite snd_counters0, fetch_add_wrap|done|done|done|done|lia|done|done]).
Qed.

Lemma sound_delivered k u b r :
  sound (k + 1) u b → 0 < k_attempt r ≤ k_max_attempts b → is_Some (k_offset r) →
  sound k (bump Delivered u) (k_count (k_send b (k_topic r) r) Delivered).
Proof.
  intros Hb Ha Ho. pose proof (sent_records b r (snd_sent _ _ _ Hb)) as Hs. destruct Hb.
  split; [cbn; by rewrite snd_counters0, fetch_add_wrap|done|done| |exact Hs|cbn; lia| |done].
  - unfold delivered_records. cbn. rewrite fmap_app, live_records_app, snd_delivered0.
    cbn [fmap list_fmap kd_message]. rewrite live_one, (proj2 (N.eqb_neq _ _)) by lia. done.
  - cbn. apply Forall_app. split; [done|]. apply Forall_singleton. by split; [cbn; lia|].
Qed.

Lemma sound_acked k u b : sound k u b → sound k (bump Acked u) (k_count b Acked).
Proof. intros []. split; cbn; [by rewrite snd_counters0, fetch_add_wrap|done|done|done|done|lia|done|done]. Qed.

Lemma sound_dead_letter k u b r why now seq :
  sound (k + 1) u b → k_max_attempts b < k_attempt r → is_Some (k_offset r) →
  sound k (bump DeadLettered u) (k_push_dead_letter b r why now seq).
Proof.
  intros [] Hm Ho. destruct (to_mq_message_keeps now seq r) as [Ha Hoff].
  split; cbn; [by rewrite snd_counters0, fetch_add_wrap|done| |done|done|lia|done|].
  - by rewrite snd_next0, (N.add_comm (wrap 64 _)), (N.add_comm 1 (wrap 64 _)), wrap_succ, N.add_assoc.
  - apply Forall_app. split; [done|]. constructor; [|constructor]. split; cbn; [by rewrite Ha|by rewrite Hoff].
Qed.

(** Placing a record gives it an offset: the one it has, or the next of its topic. *)
Lemma prepared b r now :
  let '(r', b') := k_prepare_delivery_metadata b r now in
  is_Some (k_offset r') ∧ k_topic r' = k_topic r ∧ k_attempt r' = k_attempt r ∧
  b' = k_set_offsets b (match k_offset r with
    | None => <[k_topic r := Z.min (default 0%Z (k_topic_offsets b !! k_topic r) + 1) I64_MAX]> (k_topic_offsets b)
    | Some _ => k_topic_offsets b end) ∧
  k_offset r' = match k_offset r with None => Some (default 0%Z (k_topic_offsets b !! k_topic r)) | o => o end.
Proof. unfold k_prepare_delivery_metadata. destruct (k_offset r); split_and!; try done. by destruct b. Qed.

(** What a call brought in, apart from where it went. *)
Definition entered (u : MqCounters) : N * N * N * N := (published u, acked u, nacked u, replayed u).

Lemma sound_route k u b r now seq :
  sound (k + 1) u b → ∃ u', let b' := (route_or_dead_letter b r now seq).2 in
    sound k u' b' ∧ entered u' = entered u ∧
    dead_lettered u' + N.of_nat (length (k_dead_letters b)) = dead_lettered u + N.of_nat (length (k_dead_letters b')).
Proof.
  intros Hb. unfold route_or_dead_letter. pose proof (prepared b r now) as Hp.
  destruct (k_prepare_delivery_metadata b r now) as [r' b']. destruct Hp as (Ho & Ht & Ha & -> & _).
  set (b' := k_set_offsets b _). assert (sound (k + 1) u b') as Hb' by by destruct Hb.
  cbn [snd]. destruct (N.ltb_spec (k_max_attempts b') (k_attempt (with_route r' (k_topic r') (sat_add U32_MAX (k_attempt r') 1))))
    as [Hlt|Hge].
  - pose proof (sound_dead_letter k u b' _ (lit "max_attempts_exceeded") now seq Hb' Hlt Ho) as Hd.
    exists (bump DeadLettered u).
    destruct (match k_dead_letter_topic _ with Some t => Some t | None => _ end) as [t|]; cbv zeta;
      (split; [|split; [done|cbn; rewrite length_app; cbn; lia]]); [|exact Hd].
    exact (sound_send _ _ _ (with_route _ t 0) Hd eq_refl Ho).
  - exists (bump Delivered u). cbv zeta. split; [|split; [done|cbn; lia]].
    apply (sound_delivered k u b' (with_route r' (k_topic r') (sat_add U32_MAX (k_attempt r') 1))); [done| |done].
    split; [|exact Hge]. cbn [with_route k_attempt]. unfold sat_add. change U32_MAX with 4294967295. lia.
Qed.

(** What a call enters in the accounts: a publication, or the settlement of a delivery
    or the replay of a dead letter that are there. *)
Definition kafka_enters b (c : kafka_call Value) : option MqCounter :=
  match c with
  | KPublish _ _ => Some Published
  | KAck i => if deliveries b !! i is Some _ then Some Acked else None
  | KNack i => if deliveries b !! i is Some _ then Some Nacked else None
  | KReplay id _ => if list_find (λ d, dl_id d = id) (k_dead_letters b) is Some _ then Some Replayed else None
  | _ => None
  end.
(** How many dead letters a call removes. *)
Definition kafka_removes b (c : kafka_call Value) : N :=
  match c with
  | KPurge id => if list_find (λ d, dl_id d = id) (k_dead_letters b) is Some _ then 1 else 0
  | KClear => N.of_nat (length (k_dead_letters b))
  | _ => 0
  end.

Definition bump_entered (o : option MqCounter) (u : MqCounters) : MqCounters := if o is Some c then bump c u else u.

Lemma altered_records f i (ds : list (KDelivery Value)) :
  (∀ d, kd_message (f d) = kd_message d) → kd_message <$> alter f i ds = kd_message <$> ds.
Proof.
  intros Hf. revert i. induction ds as [|d ds IH]; intros [|i]; [done..| |]; cbn; [by rewrite Hf|]. f_equal. apply IH.
Qed.

Lemma sound_settled k u b i f :
  (∀ d, kd_message (f d) = kd_message d) → sound k u b → sound k u (set_delivery b i f).
Proof.
  intros Hf []. split; unfold delivered_records; cbn; rewrite ?altered_records by done; try done.
  apply Forall_alter; [done|]. intros d _. unfold deliverable. by rewrite Hf.
Qed.

Lemma sound_step u b now seq c :
  sound 0 u b → ∃ u', let b' := (kafka_step b now seq c).2 in
    sound 0 u' b' ∧ entered u' = entered (bump_entered (kafka_enters b c) u) ∧
    dead_lettered u' + N.of_nat (length (k_dead_letters b)) =
      dead_lettered u + N.of_nat (length (k_dead_letters b')) + kafka_removes b c.
Proof.
  intros Hb. destruct c as [r fresh|topic|i|i|id fresh|id|]; cbn [kafka_step kafka_enters kafka_removes].
  - unfold kafka_publish. destruct (route_or_dead_letter _ _ _ _) as [p b'] eqn:E. cbn [snd].
    change b' with (p, b').2. rewrite <- E. rewrite N.add_0_r.
    exact (sound_route 0 _ _ _ now seq (sound_count_in 0 u b Published Hb (or_introl eq_refl))).
  - exists u. split; [by destruct Hb|]. split; [done|]. cbn. lia.
  - unfold kafka_ack. destruct (deliveries b !! i); [|exists u; split_and!; [done..|cbn; lia]].
    exists (bump Acked u). split; [by apply sound_acked, sound_settled|]. split; [done|]. cbn. lia.
  - unfold kafka_nack. destruct (deliveries b !! i); [|exists u; split_and!; [done..|cbn; lia]].
    cbn [snd]. rewrite N.add_0_r. set (b1 := set_delivery b i _).
    assert (sound 0 u b1) as Hb1 by by apply sound_settled.
    exact (sound_route 0 _ _ _ now seq (sound_count_in 0 u b1 Nacked Hb1 (or_intror (or_intror eq_refl)))).
  - unfold kafka_replay. destruct (list_find _ _) as [[i d]|] eqn:E; [|exists u; split_and!; [done..|cbn; lia]].
    cbn [snd]. rewrite N.add_0_r. apply list_find_Some in E as (Hi & _ & _).
    set (b1 := k_set_dead b _ _). assert (sound 0 u b1) as Hb1.
    { destruct Hb. split; cbn; try done. apply Forall_insert; [done|]. by apply (Forall_lookup_1 _ _ _ _ snd_letters0 Hi). }
    destruct (sound_route 0 (bump Replayed u) (k_count b1 Replayed) (from_mq_message now
      (ensure_trace_id (kafka_replay_message d) fresh).2) now seq) as (u' & H1 & H2 & H3);
      [by apply sound_count_in; [|right; left]|].
    exists u'. split_and!; [done..|]. cbn in H3. by rewrite length_insert in H3.
  - exists u. unfold kafka_purge. destruct (list_find _ _) as [[i d]|] eqn:E; [|split_and!; [done..|cbn; lia]].
    apply list_find_Some in E as (Hi%lookup_lt_Some & _ & _).
    split; [destruct Hb; split; cbn; try done; by apply Forall_delete|]. split; [done|].
    cbn. rewrite length_delete by (by apply lookup_lt_is_Some). lia.
  - exists u. split; [destruct Hb; split; cbn; done|]. split; [done|]. cbn. lia.
Qed.

Lemma kafka_run_cons b now seq c cs :
  kafka_run b ((now, seq, c) :: cs) =
  ((kafka_step b now seq c).1 :: (kafka_run (kafka_step b now seq c).2 cs).1, (kafka_run (kafka_step b now seq c).2 cs).2).
Proof. cbn. destruct (kafka_step b now seq c) as [p b']. cbn. by destruct (kafka_run b' cs). Qed.

Lemma sound_run u b cs : sound 0 u b → ∃ u', sound 0 u' (kafka_run b cs).2.
Proof.
  revert u b. induction cs as [|[[now seq] c] cs IH]; intros u b Hb; [by exists u|].
  rewrite kafka_run_cons. destruct (sound_step u b now seq c Hb) as (u' & Hb' & _). by apply (IH u').
Qed.

(** What the calls of an execution entered, and how many dead letters they removed. *)
Fixpoint kafka_entered b (cs : list (N * N * kafka_call Value)) : list (option MqCounter) :=
  match cs with
  | [] => []
  | (now, seq, c) :: cs => kafka_enters b c :: kafka_entered (kafka_step b now seq c).2 cs
  end.
Fixpoint kafka_removed b (cs : list (N * N * kafka_call Value)) : N :=
  match cs with
  | [] => 0
  | (now, seq, c) :: cs => kafka_removes b c + kafka_removed (kafka_step b now seq c).2 cs
  end.

#[export] Instance MqCounter_eq_dec : EqDecision MqCounter.
Proof. solve_decision. Defined.
Definition times (c : MqCounter) (l : list (option MqCounter)) : N := N.of_nat (length (filter (λ o, o = Some c) l)).

(** The exact counts of an execution. *)
Definition kafka_counts b (cs : list (N * N * kafka_call Value)) : MqCounters :=
  let b' := (kafka_run b cs).2 in
  {| published := times Published (kafka_entered b cs); delivered := live_records (delivered_records b');
     acked := times Acked (kafka_entered b cs); nacked := times Nacked (kafka_entered b cs); duplicated := 0;
     dead_lettered := N.of_nat (length (k_dead_letters b')) + kafka_removed b cs;
     replayed := times Replayed (kafka_entered b cs) |}.

Lemma times_cons c o l : times c (o :: l) = (if decide (o = Some c) then 1 else 0) + times c l.
Proof. unfold times. rewrite filter_cons. destruct (decide (o = Some c)); cbn [length]; lia. Qed.

Lemma counts_run u b cs :
  sound 0 u b → ∃ u', sound 0 u' (kafka_run b cs).2 ∧
    published u' = published u + times Published (kafka_entered b cs) ∧
    acked u' = acked u + times Acked (kafka_entered b cs) ∧ nacked u' = nacked u + times Nacked (kafka_entered b cs) ∧
    replayed u' = replayed u + times Replayed (kafka_entered b cs) ∧
    dead_lettered u' + N.of_nat (length (k_dead_letters b)) =
      dead_lettered u + N.of_nat (length (k_dead_letters (kafka_run b cs).2)) + kafka_removed b cs.
Proof.
  revert u b. induction cs as [|[[now seq] c] cs IH]; intros u b Hb.
  { exists u. cbn. unfold times. cbn. split_and!; [done|lia..]. }
  rewrite kafka_run_cons. destruct (sound_step u b now seq c Hb) as (u1 & Hb1 & He & Hd).
  destruct (IH u1 _ Hb1) as (u' & Hb' & Hp & Ha & Hn & Hr & Hd'). exists u'. cbn [kafka_entered kafka_removed snd].
  rewrite !times_cons. injection He as He1 He2 He3 He4. split; [done|].
  destruct (kafka_enters b c) as [[]|]; cbn in He1, He2, He3, He4 |- *; repeat case_decide; try done; split_and!; lia.
Qed.

(** A new broker, with or without a dead-letter topic. *)
Definition new_broker b : Prop := b = InMemoryKafkaBroker_new ∨ ∃ topic max, b = kafka_with_dead_letter topic max.

Lemma new_broker_sound b : new_broker b → sound 0 MqCounters_zero b.
Proof. intros [->|(topic & max & ->)]; split; cbn; done. Qed.

(** C37: The broker keeps its accounts. Whatever is published, acknowledged, rejected (any
    delivery, any number of times), replayed, purged and cleared, the counters of a new
    broker hold modulo 2^64 exactly: the number of publications; of deliveries sent on
    within the limit, each to the channel of its record's topic; of acknowledgements
    and of rejections of deliveries there are; of replays of dead letters there are;
    and of dead letters, those kept and those since removed. Every record published,
    replayed or rejected was delivered or dead-lettered; no delivery has an attempt above the
    limit, every dead letter has one, and all of them have a place. *)
Theorem kafka_accounting b cs :
  new_broker b →
  let b' := (kafka_run b cs).2 in
  let u := kafka_counts b cs in
  k_counters b' = wrap_counters u ∧
  delivered u + dead_lettered u = published u + replayed u + nacked u ∧
  k_sent b' = sends_of (delivered_records b') ∧
  k_next_dead_letter_id b' = wrap 64 (1 + dead_lettered u) ∧
  Forall (λ d, k_attempt (kd_message d) ≤ k_max_attempts b' ∧ is_Some (k_offset (kd_message d))) (deliveries b') ∧
  Forall (λ l, k_max_attempts b' < attempt (dl_message l) ∧ is_Some (offset (dl_message l))) (k_dead_letters b').
Proof.
  intros Hb b' u0. destruct (counts_run MqCounters_zero b cs (new_broker_sound b Hb)) as (u & [] & Hp & Ha & Hn & Hr & Hd).
  assert (u = u0) as <-.
  { destruct u as [p d a n du de re]. unfold u0, kafka_counts. cbn in *.
    destruct Hb as [->|(topic & max & ->)]; cbn in Hd; f_equal; try done; lia. }
  split_and!; try done. lia.
Qed.

(** ** Offsets *)

Definition next_of b (topic : rstr) : Z := default 0%Z (k_topic_offsets b !! topic).

(** The topic and the offset of what is published without an offset. *)
Definition assigned (topic : rstr) (cs : list (N * N * kafka_call Value)) (ps : list (option PublishResult))
    : list (option Z) :=
  omap (λ cp, match cp with
              | (_, _, KPublish r _, p) =>
                  if bool_decide (k_topic r = topic ∧ k_offset r = None) then Some (p ≫= pr_offset) else None
              | _ => None end) (zip cs ps).

Lemma route_offsets b r now seq :
  k_topic_offsets (route_or_dead_letter b r now seq).2 =
  match k_offset r with
  | None => <[k_topic r := Z.min (next_of b (k_topic r) + 1) I64_MAX]> (k_topic_offsets b)
  | Some _ => k_topic_offsets b end ∧
  pr_offset (route_or_dead_letter b r now seq).1 =
  match k_offset r with None => Some (next_of b (k_topic r)) | o => o end.
Proof.
  unfold route_or_dead_letter. pose proof (prepared b r now) as Hp.
  destruct (k_prepare_delivery_metadata b r now) as [r' b']. destruct Hp as (_ & _ & _ & -> & Ho).
  cbn [fst snd]. split; [|exact Ho]. destruct (_ <? _); [|done].
  by destruct (match k_dead_letter_topic _ with Some t => Some t | None => _ end).
Qed.

(** Only publishing without an offset takes one. *)
Lemma step_offsets u b now seq c :
  sound 0 u b →
  k_topic_offsets (kafka_step b now seq c).2 =
  match c with
  | KPublish r _ => match k_offset r with
      | None => <[k_topic r := Z.min (next_of b (k_topic r) + 1) I64_MAX]> (k_topic_offsets b)
      | Some _ => k_topic_offsets b end
  | _ => k_topic_offsets b end.
Proof.
  intros Hb. destruct c as [r fresh|topic|i|i|id fresh|id|]; cbn [kafka_step]; try done.
  - unfold kafka_publish. pose proof (route_offsets (k_count b Published) (k_ensure_trace_id r fresh) now seq) as [H _].
    destruct (route_or_dead_letter _ _ _ _) as [p b']. cbn [snd] in *. rewrite H.
    destruct (k_ensure_trace_id_keeps r fresh) as [-> ->]. done.
  - unfold kafka_ack. by destruct (deliveries b !! i).
  - unfold kafka_nack. destruct (deliveries b !! i) as [d|] eqn:E; [|done]. cbn [snd].
    destruct (Forall_lookup_1 _ _ _ _ (snd_deliveries _ _ _ Hb) E) as [_ [o Ho]].
    rewrite (proj1 (route_offsets _ _ _ _)), Ho. done.
  - unfold kafka_replay. destruct (list_find _ _) as [[i d]|] eqn:E; [|done]. cbn [snd].
    apply list_find_Some in E as (Hi & _ & _).
    destruct (Forall_lookup_1 _ _ _ _ (snd_letters _ _ _ Hb) Hi) as [_ [o Ho]].
    assert (k_offset (from_mq_message now (ensure_trace_id (kafka_replay_message d) fresh).2) = Some o) as Hoff
      by (unfold ensure_trace_id; destruct (find_header _ _) as [[??]|]; exact Ho).
    by rewrite (proj1 (route_offsets _ _ _ _)), Hoff.
  - unfold kafka_purge. by destruct (list_find _ _) as [[i d]|].
Qed.

(** Whether a call takes an offset of [topic]. *)
Definition takes (topic : rstr) (c : kafka_call Value) : bool :=
  match c with KPublish r _ => bool_decide (k_topic r = topic ∧ k_offset r = None) | _ => false end.

Lemma assigned_cons topic now seq c cs p ps :
  assigned topic ((now, seq, c) :: cs) (p :: ps) =
  (if takes topic c then [p ≫= pr_offset] else []) ++ assigned topic cs ps.
Proof. unfold assigned. destruct c; cbn; try done. by case_bool_decide. Qed.

Lemma step_takes u b now seq c topic :
  sound 0 u b →
  next_of (kafka_step b now seq c).2 topic = (if takes topic c then Z.min (next_of b topic + 1) I64_MAX else next_of b topic) ∧
  (takes topic c = true → (kafka_step b now seq c).1 ≫= pr_offset = Some (next_of b topic)).
Proof.
  intros Hb. unfold next_of at 1. rewrite (step_offsets u b now seq c Hb). split.
  - destruct c as [r fresh|?|?|?|? ?|?|]; cbn [takes]; try done.
    case_bool_decide as Ht; [destruct Ht as [<- ->]; by rewrite lookup_insert_eq|].
    destruct (k_offset r) eqn:Eo; [done|]. rewrite lookup_insert_ne; [done|]. intros <-. by apply Ht.
  - destruct c as [r fresh|?|?|?|? ?|?|]; cbn [takes]; try done. intros [<- Eo]%bool_decide_eq_true.
    cbn [kafka_step]. unfold kafka_publish.
    pose proof (proj2 (route_offsets (k_count b Published) (k_ensure_trace_id r fresh) now seq)) as H.
    destruct (route_or_dead_letter _ _ _ _) as [p b']. cbn. cbn in H. rewrite H.
    destruct (k_ensure_trace_id_keeps r fresh) as [-> ->]. by rewrite Eo.
Qed.

Lemma assigned_run u b cs topic i o :
  sound 0 u b → (next_of b topic ≤ I64_MAX)%Z →
  assigned topic cs (kafka_run b cs).1 !! i = Some o →
  o = Some (Z.min (next_of b topic + Z.of_nat i) I64_MAX).
Proof.
  revert u b i. induction cs as [|[[now seq] c] cs IH]; intros u b i Hb Hn; [done|].
  rewrite kafka_run_cons. cbn [fst]. rewrite assigned_cons.
  destruct (step_takes u b now seq c topic Hb) as [Hnext Hres]. destruct (sound_step u b now seq c Hb) as (u' & Hb' & _).
  destruct (takes topic c).
  - destruct i as [|i]; cbn; [intros [= <-]; rewrite Hres by done; f_equal; lia|].
    intros Hi%(IH u'); [|done|rewrite Hnext; lia]. rewrite Hi, Hnext. f_equal. lia.
  - intros Hi%(IH u'); [|done|by rewrite Hnext]. by rewrite Hi, Hnext.
Qed.

(** Whatever else happens in between (records with an offset, rejections, replays,
    other topics), the records published to a topic without an offset are told the
    offsets 0, 1, 2, ... in the order they were published, up to the largest [i64]. *)
Theorem kafka_offsets_sequential b cs topic i o :
  new_broker b →
  assigned topic cs (kafka_run b cs).1 !! i = Some o → o = Some (Z.min (Z.of_nat i) I64_MAX).
Proof.
  intros Hb Hi. assert (next_of b topic = 0%Z) as Hn by by destruct Hb as [->|(? & ? & ->)].
  rewrite (assigned_run _ _ _ _ _ _ (new_broker_sound b Hb)) with (2 := Hi); rewrite Hn; done.
Qed.

(** ** Rejecting a delivery and its redeliveries *)

Definition placed r : Prop := k_timestamp_millis r ≠ 0 ∧ is_Some (k_partition r) ∧ is_Some (k_offset r).

Lemma placed_again b r now : placed r → k_prepare_delivery_metadata b r now = (r, b).
Proof.
  intros (Ht & [part Hp] & [off Ho]). unfold k_prepare_delivery_metadata, k_place.
  rewrite (proj2 (N.eqb_neq _ _) Ht), Hp, Ho. destruct r; cbn in *. by subst.
Qed.

(** [n] rejections, each of the newest delivery. *)
Fixpoint reject_newest (n : nat) b (now seq : N) : InMemoryKafkaBroker Value :=
  match n with
  | O => b
  | S n => let b := reject_newest n b now seq in kafka_nack b (pred (length (deliveries b))) now seq
  end.

Definition fresh_delivery r : KDelivery Value := {| kd_message := r; kd_acked := false; kd_nacked := false |}.

Lemma reject_last b prior r now seq :
  deliveries b = prior ++ [fresh_delivery r] → placed r → k_attempt r < U32_MAX →
  let b' := kafka_nack b (pred (length (deliveries b))) now seq in
  let r' := with_route r (k_topic r) (k_attempt r + 1) in
  k_max_attempts b' = k_max_attempts b ∧ k_broker_dead_letter_topic b' = k_broker_dead_letter_topic b ∧
  if k_max_attempts b <? k_attempt r + 1 then
    (∃ l, k_dead_letters b' = k_dead_letters b ++ [l] ∧ dl_message l = (to_mq_message now seq r').1 ∧
      original_topic l = k_topic r) ∧
    length (deliveries b') = (length (deliveries b) +
      match k_dead_letter_topic r, k_broker_dead_letter_topic b with None, None => 0 | _, _ => 1 end)%nat
  else
    k_dead_letters b' = k_dead_letters b ∧
    ∃ prior', deliveries b' = prior' ++ [fresh_delivery r'] ∧ length prior' = S (length prior).
Proof.
  intros Hd Hp Ha b' r'. subst b' r'. unfold kafka_nack. rewrite Hd, length_app. cbn [length].
  replace (pred (length prior + 1)) with (length prior) by lia. rewrite list_lookup_middle by done.
  cbn [kd_message fresh_delivery]. unfold route_or_dead_letter. rewrite (placed_again _ r now Hp).
  rewrite sat_add_small by lia. cbn [snd]. set (b1 := k_count (set_delivery b _ _) Nacked).
  assert (length (deliveries b1) = S (length prior)) as Hl.
  { cbn. rewrite Hd, length_alter, length_app. cbn. lia. }
  change (k_max_attempts b1) with (k_max_attempts b).
  change (k_attempt (with_route r (k_topic r) (k_attempt r + 1))) with (k_attempt r + 1).
  destruct (k_max_attempts b <? k_attempt r + 1) eqn:E; cbn [k_dead_letter_topic with_route].
  - change (k_broker_dead_letter_topic (k_push_dead_letter b1 (with_route r (k_topic r) (k_attempt r + 1)) (lit "max_attempts_exceeded") now seq))
      with (k_broker_dead_letter_topic b).
    set (o := match k_dead_letter_topic r with Some t => Some t | None => k_broker_dead_letter_topic b end).
    split; [by destruct o|]. split; [by destruct o|]. split.
    + eexists. split; [by destruct o|]. done.
    + subst o. destruct (k_dead_letter_topic r), (k_broker_dead_letter_topic b);
        cbn [k_send k_set_channels deliveries k_push_dead_letter k_count k_set_dead k_sender_for];
        rewrite ?length_app, Hl; cbn [length]; lia.
  - split_and!; [done..|]. eexists. split; [reflexivity|]. exact Hl.
Qed.

Lemma reject_chain b prior r now seq j :
  deliveries b = prior ++ [fresh_delivery r] → placed r → k_attempt r = 1 →
  N.of_nat j < k_max_attempts b → k_max_attempts b < U32_MAX →
  let b' := reject_newest j b now seq in
  k_dead_letters b' = k_dead_letters b ∧ k_max_attempts b' = k_max_attempts b ∧
  k_broker_dead_letter_topic b' = k_broker_dead_letter_topic b ∧
  ∃ prior', deliveries b' = prior' ++ [fresh_delivery (with_route r (k_topic r) (N.of_nat j + 1))] ∧
    length prior' = (length prior + j)%nat.
Proof.
  intros Hd Hp Ha Hj HM. cbv zeta. induction j as [|j IH].
  - split_and!; [done..|]. exists prior. split; [|cbn; lia]. cbn. rewrite Hd. destruct r; cbn in *. by subst.
  - destruct IH as (Hl & Hm & Ht & prior' & Hd' & Hlen); [lia|]. cbn [reject_newest].
    pose proof (reject_last _ prior' _ now seq Hd' Hp) as H. cbn [with_route k_attempt k_topic k_dead_letter_topic] in H.
    destruct H as (Hm' & Ht' & H); [lia|]. rewrite Hm, (proj2 (N.ltb_ge _ _)) in H by lia.
    destruct H as (Hl' & prior'' & Hd'' & Hlen').
    rewrite Hl', Hm', Ht'. split_and!; [done..|]. exists prior''. split; [|lia]. rewrite Hd''.
    by replace (N.of_nat (S j) + 1) with (N.of_nat j + 1 + 1) by lia.
Qed.

(** A record whose every delivery is rejected is delivered [max_attempts] times, at
    attempts 1, 2, ..., with its place unchanged, and no dead letter is written until
    then; the rejection of the last writes exactly one, of the record at the attempt
    after, and sends it on only if the record or the broker names a dead-letter topic. *)
Theorem kafka_rejections_end b prior r now seq :
  deliveries b = prior ++ [fresh_delivery r] → placed r → k_attempt r = 1 → 0 < k_max_attempts b < U32_MAX →
  let M := k_max_attempts b in
  (∀ j, N.of_nat j < M →
     last (deliveries (reject_newest j b now seq)) = Some (fresh_delivery (with_route r (k_topic r) (N.of_nat j + 1))) ∧
     k_dead_letters (reject_newest j b now seq) = k_dead_letters b) ∧
  let b' := reject_newest (N.to_nat M) b now seq in
  ∃ l, k_dead_letters b' = k_dead_letters b ++ [l] ∧ original_topic l = k_topic r ∧
    dl_message l = (to_mq_message now seq (with_route r (k_topic r) (M + 1))).1 ∧
    length (deliveries b') = (length (deliveries b) + N.to_nat M - 1 +
      match k_dead_letter_topic r, k_broker_dead_letter_topic b with None, None => 0 | _, _ => 1 end)%nat.
Proof.
  intros Hd Hp Ha HM M. split.
  - intros j Hj. destruct (reject_chain b prior r now seq j) as (Hl & _ & _ & prior' & -> & _); try done; [lia|].
    by rewrite last_snoc.
  - destruct (N.to_nat M) as [|j] eqn:EM; [lia|]. cbn [reject_newest].
    destruct (reject_chain b prior r now seq j) as (Hl & Hm & Ht & prior' & Hd' & Hlen); try done; [lia..|].
    pose proof (reject_last _ prior' _ now seq Hd' Hp) as H. cbn [with_route k_attempt k_topic k_dead_letter_topic] in H.
    destruct H as (_ & _ & H); [lia|]. rewrite Hm, (proj2 (N.ltb_lt _ _)) in H by lia.
    destruct H as ((l & Hl' & Hmsg & Hot) & Hlen'). exists l. rewrite Hl', Hl, Hlen', Ht. split_and!; [done|done| |].
    + rewrite Hmsg. by replace (N.of_nat j + 1 + 1) with (M + 1) by lia.
    + rewrite Hd, Hd', !length_app, Hlen. cbn [length]. lia.
Qed.
End accounting.

(** ** Examples *)

Definition ex_kafka_broker : InMemoryKafkaBroker N := kafka_with_dead_letter (lit "dead") 2.
Definition ex_published : N * N * kafka_call N := (5, 0, KPublish (ex_kafka_record ∅) (lit "t")).

(** The receivers of a topic share the flags of a delivery but not its settlement:
    when each of two rejects the one delivery of a record, it is sent twice more. *)
Lemma shared_delivery_requeued_twice :
  let b := (kafka_run ex_kafka_broker [ex_published; (6, 0, KNack 0); (7, 0, KNack 0)]).2 in
  published (k_counters b) = 1 ∧ nacked (k_counters b) = 2 ∧
  (λ d, k_attempt (kd_message d)) <$> deliveries b = [1; 2; 2].
Proof. vm_compute. repeat split. Qed.

(** A consumer rejects what its handler acknowledged before it failed: the record that
    was acknowledged is delivered again. *)
Lemma acknowledged_then_rejected :
  let b := (kafka_run ex_kafka_broker [ex_published]).2 in
  let b' := consume b 0 6 0 true (λ b, (false, kafka_ack b 0)) in
  acked (k_counters b') = 1 ∧ nacked (k_counters b') = 1 ∧ length (deliveries b') = 2%nat.
Proof. vm_compute. repeat split. Qed.

Lemma kafka_accounting_witness :
  let b' := (kafka_run ex_kafka_broker [ex_published; (6, 0, KNack 0); (7, 0, KNack 1); (8, 0, KAck 9); (9, 0, KReplay 1 [])]).2 in
  published (k_counters b') = 1 ∧ delivered (k_counters b') = 3 ∧ acked (k_counters b') = 0 ∧ nacked (k_counters b') = 2 ∧
  dead_lettered (k_counters b') = 1 ∧ replayed (k_counters b') = 1.
Proof.
  pose proof (kafka_accounting ex_kafka_broker
    [ex_published; (6, 0, KNack 0); (7, 0, KNack 1); (8, 0, KAck 9); (9, 0, KReplay 1 [])]) as H.
  destruct H as [H _]; [right; exists (lit "dead"), 2; reflexivity|]. cbv zeta. rewrite H. vm_compute. repeat split.
Defined.

Lemma kafka_offsets_sequential_witness :
  assigned (lit "orders") [ex_published; ex_published] (kafka_run ex_kafka_broker [ex_published; ex_published]).1 !! 1%nat
    = Some (Some 1%Z).
Proof.
  destruct (assigned (lit "orders") [ex_published; ex_published] (kafka_run ex_kafka_broker [ex_published; ex_published]).1 !! 1%nat)
    as [o|] eqn:E; [|vm_compute in E; discriminate E].
  rewrite (kafka_offsets_sequential ex_kafka_broker _ _ _ _ (or_intror (ex_intro _ (lit "dead") (ex_intro _ 2 eq_refl))) E).
  reflexivity.
Defined.

Lemma kafka_rejections_end_witness :
  let b := (kafka_run ex_kafka_broker [ex_published]).2 in
  k_dead_letters (reject_newest 1 b 9 0) = [] ∧ length (k_dead_letters (reject_newest 2 b 9 0)) = 1%nat.
Proof.
  destruct (kafka_rejections_end (kafka_run ex_kafka_broker [ex_published]).2 []
    (with_route (k_place (k_ensure_trace_id (ex_kafka_record ∅) (lit "t")) 5 (Some 0%Z) (Some 0%Z)) (lit "orders") 1) 9 0)
    as [H1 H2].
  - vm_compute. reflexivity.
  - split; [discriminate|]. split; eexists; reflexivity.
  - reflexivity.
  - vm_compute. split; reflexivity.
  - split; [exact (proj2 (H1 1%nat eq_refl))|].
    destruct H2 as (l & Hl & _). change (N.to_nat _) with 2%nat in Hl. rewrite Hl. reflexivity.
Defined.
