(* ===== verification/OpenApi.v ===== *)
(** * The OpenAPI document of a contract (apps/rozectl/src/generator/mod.rs)

    [openapi_document]: paths with their operations, parameters and bodies, schemas
    of types with the constraints of their validation rules, embedded types expanded.
    The numbers of JSON are a parameter, with the numbers that are read from integers
    and from the text of floating-point numbers. *)

From S2P Require Import Prelude Text Scan ConfigDiff ApiParser ApiFormat Naming Contract.

Section openapi.
Context {Number : Type} (of_Z : Z → Number).
Abbreviation Value := (@Value Number).
(** [str::parse::<f64>]; nothing inside is a value that is not finite. *)
Context (parse_f64 : rstr → option (option Number)).
Implicit Types (spec : ApiSpec) (ty rules : rstr) (field : Field) (route : RestRoute).

(** ** Rules *)

Definition openapi_has_rule rules (name : rstr) : bool :=
  existsb (λ rule, str_eqb rule name) (trim <$> split_on (N.eqb 44) rules).

Definition openapi_rule_value rules (name : rstr) : option rstr :=
  find_map (λ rule, kv ← split_once (lit "=") rule; if str_eqb (trim kv.1) name then Some (trim kv.2) else None)
    (trim <$> split_on (N.eqb 44) rules).

(** [parse::<f64>().ok().map(Value::from)] *)
Definition f64_value (s : rstr) : option Value :=
  (λ n, match n with Some n => VNumber n | None => VNull end) <$> parse_f64 s.

Definition openapi_rule_number rules (name : rstr) : option Value :=
  value ← openapi_rule_value rules name;
  match parse_i64 value with
  | Some z => Some (VNumber (of_Z z))
  | None => f64_value value
  end.

Definition openapi_enum_value (value : rstr) (schema_type : option rstr) : Value :=
  let given (o : option Value) := default (VString value) o in
  match schema_type with
  | Some t =>
      if str_eqb t (lit "integer") then given ((λ z, VNumber (of_Z z)) <$> parse_i64 value)
      else if str_eqb t (lit "number") then given (f64_value value)
      else if str_eqb t (lit "boolean") then
        (if str_eqb value (lit "true") then VBool true
         else if str_eqb value (lit "false") then VBool false else VString value)
      else VString value
  | None => VString value
  end.

Abbreviation object := (gmap rstr Value).
(** [if let Some(value) = .. { object.insert(key, value) }] *)
Definition insert_some (key : rstr) (o : option Value) (m : object) : object :=
  match o with Some v => <[key := v]> m | None => m end.

Definition first_of {A} (os : list (option A)) : option A := find_map id os.

Definition apply_openapi_size_rules (m : object) rules (minimum maximum : rstr) : object :=
  let number name := openapi_rule_number rules name in
  let min := first_of [number (lit "min_items"); number (lit "min"); number (lit "gte")] in
  let max := first_of [number (lit "max_items"); number (lit "max"); number (lit "lte")] in
  match number (lit "len") with
  | Some len => <[maximum := len]> (<[minimum := len]> m)
  | None => insert_some maximum max (insert_some minimum min m)
  end.

Definition apply_openapi_string_rules (m : object) rules : object :=
  let m := apply_openapi_size_rules m rules (lit "minLength") (lit "maxLength") in
  let m := match openapi_rule_number rules (lit "len") with
           | Some len => <[lit "maxLength" := len]> (<[lit "minLength" := len]> m)
           | None => m
           end in
  let format := find_map (λ rf, if openapi_has_rule rules rf.1 then Some rf.2 else None)
    [(lit "uuid", lit "uuid"); (lit "email", lit "email"); (lit "url", lit "uri");
     (lit "ipv4", lit "ipv4"); (lit "ipv6", lit "ipv6")] in
  match format with
  | Some f => <[lit "format" := VString f]> m
  | None =>
      if openapi_has_rule rules (lit "ip")
      then <[lit "oneOf" := VArray [json_object [(lit "format", VString (lit "ipv4"))];
                                    json_object [(lit "format", VString (lit "ipv6"))]]]> m
      else m
  end.

Definition apply_openapi_numeric_rules (m : object) rules : object :=
  let number name := openapi_rule_number rules name in
  let m := foldl (λ m rk, insert_some rk.2 (number rk.1) m) m
    [(lit "gte", lit "minimum"); (lit "min", lit "minimum"); (lit "lte", lit "maximum"); (lit "max", lit "maximum")] in
  let exclusive rule keyword flag m :=
    match number rule with Some v => <[flag := VBool true]> (<[keyword := v]> m) | None => m end in
  let m := exclusive (lit "gt") (lit "minimum") (lit "exclusiveMinimum") m in
  let m := exclusive (lit "lt") (lit "maximum") (lit "exclusiveMaximum") m in
  let minimum rule (z : Z) m :=
    if openapi_has_rule rules rule then <[lit "minimum" := VNumber (of_Z z)]> m else m in
  minimum (lit "limit") 1%Z (minimum (lit "page") 1%Z (minimum (lit "nonnegative") 0%Z m)).

Definition split_openapi_map_rules rules : option rstr * rstr :=
  match strip_prefix (lit "keys,") rules with
  | None => (None, rules)
  | Some key_rules =>
      match split_once (lit ",endkeys,") key_rules with
      | Some (keys, values) => (Some keys, values)
      | None => match strip_suffix (lit ",endkeys") key_rules with
                | Some keys => (Some keys, [])
                | None => (None, rules)
                end
      end
  end.

Definition as_str (v : Value) : option rstr := match v with VString s => Some s | _ => None end.

(** The constraints of [rules] on a schema of type [schema_type]; [inner] is what the
    recursive calls do to the schemas inside it. *)
Definition constrain (inner : Value → rstr → Value) (m : object) rules (schema_type : option rstr) : object :=
  let outer_rules := match split_once (lit ",dive") rules with Some (outer, _) => outer | None => rules end in
  let inner_rules := snd <$> split_once (lit "dive,") rules in
  let is_type names := match schema_type with Some t => str_in (lit <$> names) t | None => false end in
  if is_type ["string"%string] then apply_openapi_string_rules m outer_rules
  else if is_type ["integer"; "number"]%string then apply_openapi_numeric_rules m outer_rules
  else if is_type ["array"%string] then
    let m := apply_openapi_size_rules m outer_rules (lit "minItems") (lit "maxItems") in
    match inner_rules, m !! lit "items" with
    | Some rs, Some items => <[lit "items" := inner items rs]> m
    | _, _ => m
    end
  else if is_type ["object"%string] then
    let m := apply_openapi_size_rules m outer_rules (lit "minProperties") (lit "maxProperties") in
    match inner_rules with
    | None => m
    | Some rs =>
        let '(key_rules, value_rules) := split_openapi_map_rules rs in
        let m := match key_rules with
                 | Some ks => <[lit "x-roze-map-key-schema" :=
                                  inner (json_object [(lit "type", VString (lit "string"))]) ks]> m
                 | None => m
                 end in
        match m !! lit "additionalProperties" with
        | Some values => <[lit "additionalProperties" := inner values value_rules]> m
        | None => m
        end
    end
  else m.

(** One level of [apply_openapi_rules]. *)
Definition apply_rules_step (inner : Value → rstr → Value) (schema : Value) rules : Value :=
  match schema with
  | VObject m =>
      let schema_type := (m !! lit "type") ≫= as_str in
      let outer_rules := match split_once (lit ",dive") rules with Some (outer, _) => outer | None => rules end in
      let m := constrain inner m rules schema_type in
      VObject match (λ values, (λ v, openapi_enum_value v schema_type) <$> split_whitespace values)
                      <$> openapi_rule_value outer_rules (lit "oneof") with
              | Some ((_ :: _) as values) => <[lit "enum" := VArray values]> m
              | _ => m
              end
  | _ => schema
  end.

Fixpoint apply_rules (fuel : nat) (schema : Value) rules : Value :=
  match fuel with O => schema | S fuel => apply_rules_step (apply_rules fuel) schema rules end.
(** Rules of inner schemas are shorter. *)
Definition apply_openapi_rules (schema : Value) rules : Value := apply_rules (S (length rules)) schema rules.

(** ** Schemas *)

Definition collection_element_type ty : option rstr :=
  let ty := trim ty in
  let element inner := trim (trim_start_matches (N.eqb 42) inner) in
  match strip_prefix (lit "[]") ty with
  | Some inner => Some (element inner)
  | None => element <$> (strip_prefix (lit "Vec<") ty ≫= strip_suffix (lit ">"))
  end.

Definition map_key_value_types ty : option (rstr * rstr) :=
  let ty := trim ty in
  let both (kv : rstr * rstr) := (trim kv.1, trim kv.2) in
  match strip_prefix (lit "map[") ty with
  | Some rest => both <$> split_once (lit "]") rest
  | None => inner ← strip_prefix (lit "HashMap<") ty ≫= strip_suffix (lit ">"); both <$> split_once (lit ",") inner
  end.

Definition typed (t : rstr) : Value := json_object [(lit "type", VString t)].
Definition formatted (t f : rstr) : Value := json_object [(lit "type", VString t); (lit "format", VString f)].
Definition REF : rstr := lit "$ref".
Definition schema_path (name : rstr) : rstr := lit "#/components/schemas/" ++ name.
Definition schema_ref (name : rstr) : Value := json_object [(REF, VString (schema_path name))].

(** The schemas of the types that are known by name. *)
Definition known_schemas : list (list String.string * Value) :=
  [(["String"; "string"]%string, typed (lit "string")); (["bool"; "boolean"]%string, typed (lit "boolean"));
   (["i32"; "int32"]%string, formatted (lit "integer") (lit "int32"));
   (["i64"; "int"; "int64"]%string, formatted (lit "integer") (lit "int64"));
   (["u32"; "uint32"]%string, formatted (lit "integer") (lit "uint32"));
   (["u64"; "uint"; "uint64"]%string, formatted (lit "integer") (lit "uint64"));
   (["f32"; "float"]%string, formatted (lit "number") (lit "float"));
   (["f64"; "double"]%string, formatted (lit "number") (lit "double"));
   (["json"; "any"; "serde_json::Value"]%string, json_object [])].

Definition known_schema ty : option Value :=
  find_map (λ ns, if str_in (lit <$> ns.1) ty then Some ns.2 else None) known_schemas.

Fixpoint schema_of (fuel : nat) ty : Value :=
  match fuel with
  | O => VNull
  | S fuel =>
      match map_key_value_types ty with
      | Some (_, value) =>
          json_object [(lit "type", VString (lit "object")); (lit "additionalProperties", schema_of fuel value)]
      | None =>
          match collection_element_type ty with
          | Some inner => json_object [(lit "type", VString (lit "array")); (lit "items", schema_of fuel inner)]
          | None => default (schema_ref ty) (known_schema ty)
          end
      end
  end.
(** The types inside of a type are shorter. *)
Definition openapi_schema ty : Value := schema_of (S (length ty)) ty.

Definition openapi_field_is_optional field : bool :=
  match fd_validate field with
  | Some rules => openapi_has_rule rules (lit "optional") || openapi_has_rule rules (lit "omitempty")
  | None => false
  end.

Definition openapi_field_schema field : Value :=
  let schema := openapi_schema (fd_ty field) in
  match fd_validate field with
  | None => schema
  | Some rules =>
      match apply_openapi_rules schema rules with
      | VObject m => VObject (<[lit "x-roze-validator" := VString rules]> m)
      | v => v
      end
  end.

(** ** Embedded types *)

Definition find_type spec (name : rstr) : option TypeDef :=
  find_map (λ t, if str_eqb (td_name t) name then Some t else None) (types spec).

Fixpoint expand_api_fields (fuel : nat) spec (t : TypeDef) (stack : gset rstr) : list Field :=
  match fuel with
  | O => []
  | S fuel =>
      if bool_decide (td_name t ∈ stack) then []
      else
        let stack := {[ td_name t ]} ∪ stack in
        td_fields t ≫= λ field,
          match (if fd_embedded field then find_type spec (fd_ty field) else None) with
          | Some nested => expand_api_fields fuel spec nested stack
          | None => [field]
          end
  end.
(** The stack holds names of declared types, and that of the type itself. *)
Definition expanded_api_fields spec (t : TypeDef) : list Field :=
  expand_api_fields (S (S (length (types spec)))) spec t ∅.

(** ** Operations *)

Definition normalize_ident (input : rstr) : rstr := replace_char (N.eqb 45) (lit "_") input.

Definition push_param (name : rstr) : list rstr := match name with [] => [] | _ => [normalize_ident name] end.
Fixpoint path_params_from (mode : param_mode) (chars : rstr) : list rstr :=
  match chars with
  | [] => match mode with Outside => [] | AfterColon name | InBraces name => push_param name end
  | c :: chars =>
      match mode with
      | Outside =>
          path_params_from (if c =? 58 then AfterColon [] else if c =? 123 then InBraces [] else Outside) chars
      | AfterColon name =>
          if c =? 47 then push_param name ++ path_params_from Outside chars
          else path_params_from (AfterColon (name ++ [c])) chars
      | InBraces name =>
          if c =? 125 then push_param name ++ path_params_from Outside chars
          else path_params_from (InBraces (name ++ [c])) chars
      end
  end.
Definition route_path_params (path : rstr) : list rstr := path_params_from Outside path.

(** After a colon, [name] is what follows it so far. *)
Definition placeholder (name : rstr) : rstr := match name with [] => lit ":" | _ => lit "{" ++ name ++ lit "}" end.
Fixpoint path_from (name : option rstr) (chars : rstr) : rstr :=
  match chars, name with
  | [], None => []
  | [], Some name => placeholder name
  | c :: chars, None => if c =? 58 then path_from (Some []) chars else c :: path_from None chars
  | c :: chars, Some name =>
      if c =? 47 then placeholder name ++ c :: path_from None chars else path_from (Some (name ++ [c])) chars
  end.
Definition openapi_path (path : rstr) : rstr := path_from None path.

Definition openapi_field_source field route : FieldSource :=
  match fd_source field with
  | Auto =>
      if str_in (route_path_params (rt_path route)) (normalize_ident (field_wire_name field)) then PathSource
      else match rt_method route with Get | Head | Delete => Query | _ => Json end
  | other => other
  end.

Definition strings (l : list rstr) : Value := VArray (VString <$> l).

Definition properties_of (fields : list Field) : Value :=
  VObject (foldl (λ m f, <[field_wire_name f := openapi_field_schema f]> m) ∅ fields).
Definition object_schema (fields : list Field) : Value :=
  json_object [(lit "type", VString (lit "object")); (lit "properties", properties_of fields);
               (lit "required", strings (field_wire_name <$> filter (λ f, openapi_field_is_optional f = false) fields))].

Definition openapi_type_schema_for_spec spec (t : TypeDef) : Value := object_schema (expanded_api_fields spec t).

Definition openapi_parameter field (location : rstr) (required : bool) : Value :=
  json_object [(lit "name", VString (field_wire_name field)); (lit "in", VString location);
               (lit "required", VBool (required || negb (openapi_field_is_optional field)));
               (lit "schema", openapi_field_schema field)].

Definition body_of (content_type : rstr) (schema : Value) : Value :=
  json_object [(lit "required", VBool true);
               (lit "content", json_object [(content_type, json_object [(lit "schema", schema)])])].
Definition openapi_request_body (content_type : rstr) (fields : list Field) : Value :=
  body_of content_type (object_schema fields).

Definition route_has_jwt spec route : bool :=
  match rt_server route ≫= sv_jwt with Some _ => true | None => bool_decide (is_Some (server spec ≫= sv_jwt)) end.

Definition response_of (content_type : rstr) (schema : Value) : Value :=
  json_object [(lit "200", json_object
    [(lit "description", VString (lit "OK"));
     (lit "content", json_object [(content_type, json_object [(lit "schema", schema)])])])].
Definition openapi_responses route : Value :=
  if rt_maud route then response_of (lit "text/html") (typed (lit "string"))
  else response_of (lit "application/json") (json_object
    [(lit "type", VString (lit "object")); (lit "required", strings (lit <$> ["code"; "msg"; "data"]%string));
     (lit "properties", json_object
       [(lit "code", json_object [(lit "type", VString (lit "integer")); (lit "format", VString (lit "int32"));
                                  (lit "enum", VArray [VNumber (of_Z 0)])]);
        (lit "msg", typed (lit "string")); (lit "data", schema_ref (rt_response route))])]).

Definition openapi_parameters route (fields : list Field) : list Value :=
  fields ≫= λ f, match openapi_field_source f route with
                 | PathSource => [openapi_parameter f (lit "path") true]
                 | Query => [openapi_parameter f (lit "query") false]
                 | Header => [openapi_parameter f (lit "header") false]
                 | _ => []
                 end.

Definition openapi_body route (fields : list Field) : option Value :=
  match filter (λ f, openapi_field_source f route = Form) fields,
        filter (λ f, openapi_field_source f route = Json) fields with
  | (_ :: _) as form, _ => Some (openapi_request_body (lit "application/x-www-form-urlencoded") form)
  | [], (_ :: _) as json => Some (openapi_request_body (lit "application/json") json)
  | [], [] =>
      match fields, rt_method route with
      | _ :: _, (Post | Put | Patch) => Some (body_of (lit "application/json") (schema_ref (rt_request route)))
      | _, _ => None
      end
  end.

Definition if_some {A B} (f : A → B) (l : list A) : option (list B) := match l with [] => None | _ => Some (f <$> l) end.

Definition openapi_operation spec route : Value :=
  let fields := match find_type spec (rt_request route) with Some t => expanded_api_fields spec t | None => [] end in
  let secured := route_has_jwt spec route || existsb (str_in (lit <$> ["auth"; "jwt"]%string)) (rt_middlewares route) in
  VObject (
    insert_some (lit "requestBody") (openapi_body route fields)
    (insert_some (lit "parameters") (VArray <$> if_some id (openapi_parameters route fields))
    (insert_some (lit "x-roze-permissions") (VArray <$> if_some VString (rt_permissions route))
    (insert_some (lit "security")
       (if secured then Some (VArray [json_object [(lit "bearerAuth", VArray [])]]) else None)
    (insert_some (lit "summary") (VString <$> rt_doc route)
    (list_to_map
      [(lit "operationId", VString (default (validation_handler_name (rt_method route) (rt_path route)) (rt_handler route)));
       (lit "tags", strings [service spec]); (lit "responses", openapi_responses route)])))))).

(** ** The document *)

Fixpoint unseen (seen : gset rstr) (l : list rstr) : list rstr :=
  match l with
  | [] => []
  | s :: l => if bool_decide (s ∈ seen) then unseen seen l else s :: unseen ({[ s ]} ∪ seen) l
  end.
Definition openapi_servers spec : Value :=
  let prefixes := option_list (server spec ≫= sv_prefix) ++
                  (rest_routes spec ≫= λ r, option_list (rt_server r ≫= sv_prefix)) in
  VArray ((λ url, json_object [(lit "url", VString url)]) <$>
          match unseen ∅ prefixes with [] => [lit "/"] | servers => servers end).

Definition doc_path spec route : rstr := openapi_path (full_route_path_for_route spec route).
(** A path's item is added when its first operation is. *)
Definition add_operation spec (paths : gmap rstr object) route : gmap rstr object :=
  let item := default ∅ (paths !! doc_path spec route) in
  <[doc_path spec route := <[format_api_http_method (rt_method route) := openapi_operation spec route]> item]> paths.
Definition openapi_paths spec : gmap rstr object :=
  foldl (λ paths route, if rt_websocket route then paths else add_operation spec paths route) ∅ (rest_routes spec).

Definition openapi_schemas spec : object :=
  foldl (λ m t, <[td_name t := openapi_type_schema_for_spec spec t]> m) ∅ (types spec).

Definition openapi_components spec : object :=
  insert_some (lit "securitySchemes")
    (if existsb (λ route, negb (rt_websocket route) && route_has_jwt spec route) (rest_routes spec)
     then Some (json_object [(lit "bearerAuth", json_object
       [(lit "type", VString (lit "http")); (lit "scheme", VString (lit "bearer"));
        (lit "bearerFormat", VString (lit "JWT"))])])
     else None)
    {[ lit "schemas" := VObject (openapi_schemas spec) ]}.

Definition openapi_document spec : Value :=
  json_object
    [(lit "openapi", VString (lit "3.0.0"));
     (lit "info", json_object [(lit "title", VString (service spec)); (lit "version", VString (lit "0.1.0"))]);
     (lit "servers", openapi_servers spec); (lit "paths", VObject (VObject <$> openapi_paths spec));
     (lit "components", VObject (openapi_components spec))].
End openapi.

(** ** The recursions end *)

Section recursions.
Context {Number : Type} (of_Z : Z → Number) (parse_f64 : rstr → option (option Number)).
Abbreviation Value := (@Value Number).
Implicit Types (spec : ApiSpec) (rules ty : rstr) (schema : Value).

Lemma split_once_length pat s a b : split_once pat s = Some (a, b) → (length a + length pat + length b = length s)%nat.
Proof. intros ->%split_once_Some. rewrite !length_app. lia. Qed.
Lemma strip_prefix_length pre s r : strip_prefix pre s = Some r → (length pre + length r = length s)%nat.
Proof. intros ->%strip_prefix_Some. by rewrite length_app. Qed.
Lemma strip_suffix_length suf s r : strip_suffix suf s = Some r → (length r + length suf = length s)%nat.
Proof. intros ->%strip_suffix_Some. by rewrite length_app. Qed.

(** The lengths of literal texts, computed. *)
Ltac literal_lengths := repeat match goal with
  | H : context [length (lit ?t)] |- _ => let n := eval vm_compute in (length (lit t)) in change (length (lit t)) with n in H
  end.
Ltac shorter := literal_lengths; cbn [length] in *; lia.

Lemma split_map_rules_shorter rules :
  let '(ks, vs) := split_openapi_map_rules rules in
  (length vs ≤ length rules)%nat ∧ match ks with Some k => (length k ≤ length rules)%nat | None => True end.
Proof.
  unfold split_openapi_map_rules. destruct (strip_prefix _ rules) as [r|] eqn:E; [|done].
  apply strip_prefix_length in E. destruct (split_once _ r) as [[a b]|] eqn:E1.
  - apply split_once_length in E1. split; shorter.
  - destruct (strip_suffix _ r) as [a|] eqn:E2; [|done]. apply strip_suffix_length in E2. cbn [length]. shorter.
Qed.

Lemma constrain_ext (f g : Value → rstr → Value) m rules t :
  (∀ v rs, (length rs < length rules)%nat → f v rs = g v rs) →
  constrain of_Z parse_f64 f m rules t = constrain of_Z parse_f64 g m rules t.
Proof.
  intros Hfg. unfold constrain. destruct (split_once (lit "dive,") rules) as [[a rs]|] eqn:E; [|done].
  apply split_once_length in E. cbn [fmap option_fmap option_map snd length] in *.
  pose proof (split_map_rules_shorter rs) as Hs. destruct (split_openapi_map_rules rs) as [ks vs].
  destruct Hs as [Hv Hk].
  assert (∀ v rs', (length rs' ≤ length rs)%nat → f v rs' = g v rs') as Hfg'
    by (intros v rs' Hl; apply Hfg; shorter).
  repeat case_match; rewrite ?Hfg' in * by done; congruence.
Qed.

Lemma apply_rules_step_ext (f g : Value → rstr → Value) schema rules :
  (∀ v rs, (length rs < length rules)%nat → f v rs = g v rs) →
  apply_rules_step of_Z parse_f64 f schema rules = apply_rules_step of_Z parse_f64 g schema rules.
Proof. intros Hfg. unfold apply_rules_step. destruct schema; [done..|]. by rewrite (constrain_ext f g). Qed.

Lemma apply_rules_fuel n k schema rules :
  (length rules < n)%nat → (length rules < k)%nat →
  apply_rules of_Z parse_f64 n schema rules = apply_rules of_Z parse_f64 k schema rules.
Proof.
  revert k schema rules. induction n as [|n IH]; intros [|k] schema rules Hn Hk; [lia..|]. cbn.
  apply apply_rules_step_ext. intros v rs Hl. apply IH; lia.
Qed.

Lemma map_types_shorter ty k v : map_key_value_types ty = Some (k, v) → (length v < length ty)%nat.
Proof.
  unfold map_key_value_types. pose proof (trim_matches_length is_whitespace ty) as Ht. fold (trim ty) in Ht.
  destruct (strip_prefix (lit "map[") (trim ty)) as [r|] eqn:E.
  - apply strip_prefix_length in E. destruct (split_once (lit "]") r) as [[a b]|] eqn:E1; [|done]. intros [= _ <-].
    apply split_once_length in E1. pose proof (trim_matches_length is_whitespace b). unfold trim. shorter.
  - destruct (strip_prefix (lit "HashMap<") (trim ty)) as [r|] eqn:E0; [|done]. apply strip_prefix_length in E0. cbn [mbind option_bind].
    destruct (strip_suffix (lit ">") r) as [r'|] eqn:E2; cbn [mbind option_bind]; [|done]. apply strip_suffix_length in E2.
    destruct (split_once (lit ",") r') as [[a b]|] eqn:E1; [|done]. intros [= _ <-].
    apply split_once_length in E1. pose proof (trim_matches_length is_whitespace b). unfold trim.
    shorter.
Qed.

Lemma element_shorter ty inner : collection_element_type ty = Some inner → (length inner < length ty)%nat.
Proof.
  assert (∀ s, (length (trim (trim_start_matches (N.eqb 42) s)) ≤ length s)%nat) as Hel.
  { intros s. pose proof (trim_matches_length is_whitespace (trim_start_matches (N.eqb 42) s)). unfold trim.
    destruct (drop_while_suffix (N.eqb 42) s) as (k & Hs & _). unfold trim_start_matches in *.
    apply (f_equal length) in Hs. rewrite length_app in Hs. lia. }
  unfold collection_element_type. pose proof (trim_matches_length is_whitespace ty) as Ht. fold (trim ty) in Ht.
  destruct (strip_prefix (lit "[]") (trim ty)) as [r|] eqn:E.
  - apply strip_prefix_length in E. intros [= <-]. pose proof (Hel r). shorter.
  - destruct (strip_prefix (lit "Vec<") (trim ty)) as [r|] eqn:E0; [|done]. apply strip_prefix_length in E0. cbn [mbind option_bind].
    destruct (strip_suffix (lit ">") r) as [r'|] eqn:E2; cbn [mbind option_bind]; [|done]. apply strip_suffix_length in E2. intros [= <-].
    pose proof (Hel r'). shorter.
Qed.

Lemma schema_of_fuel n k ty :
  (length ty < n)%nat → (length ty < k)%nat → @schema_of Number n ty = schema_of k ty.
Proof.
  revert k ty. induction n as [|n IH]; intros [|k] ty Hn Hk; [lia..|]. cbn.
  destruct (map_key_value_types ty) as [[key v]|] eqn:E; [apply map_types_shorter in E; by rewrite (IH k) by lia|].
  destruct (collection_element_type ty) as [inner|] eqn:E'; [|done].
  apply element_shorter in E'. by rewrite (IH k) by lia.
Qed.

(** How many declared types an expansion can still enter. *)
Definition enterable spec (t : TypeDef) (stack : gset rstr) : nat :=
  size (({[ td_name t ]} ∪ type_name_set spec) ∖ stack).

Lemma find_type_name spec name t : find_type spec name = Some t → t ∈ types spec ∧ td_name t = name.
Proof.
  intros (t' & Hin & Hf)%find_map_Some. destruct (str_eqb_spec (td_name t') name) as [He|]; [|done].
  injection Hf as <-. by split.
Qed.

Lemma enterable_nested spec t nested stack :
  td_name t ∉ stack → nested ∈ types spec →
  (enterable spec nested ({[ td_name t ]} ∪ stack) < enterable spec t stack)%nat.
Proof.
  intros Ht Hn. apply subset_size.
  assert (td_name nested ∈ type_name_set spec) as Hin by (apply elem_of_list_to_set, list_elem_of_fmap; by exists nested).
  split; [set_solver|]. intros Hsub.
  assert (td_name t ∈ ({[ td_name t ]} ∪ type_name_set spec) ∖ stack) as Hx by set_solver.
  specialize (Hsub _ Hx). set_solver.
Qed.

Lemma expand_fuel spec n k t stack :
  (enterable spec t stack < n)%nat → (enterable spec t stack < k)%nat →
  expand_api_fields n spec t stack = expand_api_fields k spec t stack.
Proof.
  revert k t stack. induction n as [|n IH]; intros [|k] t stack Hn Hk; [lia..|]. cbn.
  destruct (bool_decide_reflect (td_name t ∈ stack)) as [|Hs]; [done|].
  apply list_bind_ext; [|done]. intros f.
  destruct (if fd_embedded f then find_type spec (fd_ty f) else None) as [nested|] eqn:E; [|done].
  destruct (fd_embedded f); [|done]. apply find_type_name in E as [Hin _].
  pose proof (enterable_nested spec t nested stack Hs Hin). apply IH; lia.
Qed.

Lemma size_names (l : list rstr) : (size (list_to_set l : gset rstr) ≤ length l)%nat.
Proof.
  induction l as [|x l IH]; [done|]. cbn [list_to_set length]. rewrite size_union_alt, size_singleton.
  assert (size (list_to_set l ∖ {[ x ]} : gset rstr) ≤ size (list_to_set l : gset rstr))%nat by (apply subseteq_size; set_solver).
  lia.
Qed.

Lemma enterable_root spec t : (enterable spec t ∅ < S (S (length (types spec))))%nat.
Proof.
  unfold enterable. rewrite difference_empty_L, size_union_alt, size_singleton.
  assert (size (type_name_set spec ∖ {[ td_name t ]}) ≤ size (type_name_set spec))%nat by (apply subseteq_size; set_solver).
  assert (size (type_name_set spec) ≤ length (types spec))%nat.
  { unfold type_name_set. etransitivity; [apply size_names|]. by rewrite length_fmap. }
  lia.
Qed.

Lemma rules_equation schema rules :
  apply_openapi_rules of_Z parse_f64 schema rules =
  apply_rules_step of_Z parse_f64 (apply_openapi_rules of_Z parse_f64) schema rules.
Proof.
  unfold apply_openapi_rules at 1. cbn [apply_rules]. apply apply_rules_step_ext.
  intros v rs Hl. apply apply_rules_fuel; lia.
Qed.

Lemma schema_equation ty :
  @openapi_schema Number ty =
  match map_key_value_types ty, collection_element_type ty with
  | Some (_, value), _ =>
      json_object [(lit "type", VString (lit "object")); (lit "additionalProperties", openapi_schema value)]
  | None, Some inner => json_object [(lit "type", VString (lit "array")); (lit "items", openapi_schema inner)]
  | None, None => default (schema_ref ty) (known_schema ty)
  end.
Proof.
  unfold openapi_schema at 1. cbn [schema_of].
  destruct (map_key_value_types ty) as [[key v]|] eqn:E.
  - apply map_types_shorter in E. by rewrite (schema_of_fuel _ (S (length v))) by lia.
  - destruct (collection_element_type ty) as [inner|] eqn:E'; [|done].
    apply element_shorter in E'. by rewrite (schema_of_fuel _ (S (length inner))) by lia.
Qed.

(** Making the document ends. Its three recursions, into the rules of inner schemas, into
    the types inside a type's name and through types that embed each other, perhaps
    in a cycle, satisfy the equations of the code, whose recursive calls are on shorter
    texts or fewer types, so that more fuel changes nothing. *)
Theorem openapi_recursions_end :
  (∀ schema rules, apply_openapi_rules of_Z parse_f64 schema rules =
     apply_rules_step of_Z parse_f64 (apply_openapi_rules of_Z parse_f64) schema rules) ∧
  (∀ ty, @openapi_schema Number ty =
     match map_key_value_types ty, collection_element_type ty with
     | Some (_, value), _ =>
         json_object [(lit "type", VString (lit "object")); (lit "additionalProperties", openapi_schema value)]
     | None, Some inner => json_object [(lit "type", VString (lit "array")); (lit "items", openapi_schema inner)]
     | None, None => default (schema_ref ty) (known_schema ty)
     end) ∧
  (∀ spec t n, (S (S (length (types spec))) ≤ n)%nat → expand_api_fields n spec t ∅ = expanded_api_fields spec t).
Proof.
  split; [exact rules_equation|]. split; [exact schema_equation|].
  intros spec t n Hn. pose proof (enterable_root spec t). apply expand_fuel; lia.
Qed.
End recursions.

(** ** Paths *)

Section paths.
Context {Number : Type} (of_Z : Z → Number) (parse_f64 : rstr → option (option Number)).
Implicit Types (spec : ApiSpec) (route : RestRoute).

Definition documented spec (p : rstr) (m : HttpMethod) route : bool :=
  negb (rt_websocket route) && str_eqb (doc_path spec route) p && bool_decide (rt_method route = m).

Lemma method_name_inj m m' : format_api_http_method m = format_api_http_method m' → m = m'.
Proof. by destruct m, m'. Qed.

(** The document describes each method of each path by the last route that is written
    for it, and nothing else: an item's entries are named after the methods of the
    plain HTTP routes whose path, with its placeholders in braces, is the item's. *)
Theorem openapi_paths_exact spec p :
  (∀ m, (openapi_paths of_Z parse_f64 spec !! p) ≫= (.!! format_api_http_method m) =
     openapi_operation of_Z parse_f64 spec <$> last (filter (λ r, documented spec p m r = true) (rest_routes spec))) ∧
  (is_Some (openapi_paths of_Z parse_f64 spec !! p) ↔ ∃ r m, r ∈ rest_routes spec ∧ documented spec p m r = true) ∧
  ∀ item k, openapi_paths of_Z parse_f64 spec !! p = Some item → is_Some (item !! k) → ∃ m, k = format_api_http_method m.
Proof.
  unfold openapi_paths. induction (rest_routes spec) as [|r l IH] using rev_ind.
  { split_and!; [done| |done]. split; [by intros []|]. by intros (r & m & ?%not_elem_of_nil & _). }
  rewrite foldl_app. cbn [foldl]. set (paths := foldl _ _ l) in *. destruct IH as (IHm & IHp & IHk).
  destruct (rt_websocket r) eqn:Ew.
  - assert (∀ m, documented spec p m r = false) as Hd by (intros m; unfold documented; by rewrite Ew).
    split_and!; [| |done].
    + intros m. rewrite filter_app, filter_cons_False, app_nil_r by by rewrite Hd. apply IHm.
    + rewrite IHp. split; intros (r' & m & Hin & Hm); exists r', m; (split; [|done]).
      * apply elem_of_app. by left.
      * apply elem_of_app in Hin as [Hin| ->%list_elem_of_singleton]; [done|]. by rewrite Hd in Hm.
  - unfold add_operation. destruct (str_eqb_spec (doc_path spec r) p) as [<-|Hp].
    + assert (∀ m, documented spec (doc_path spec r) m r = bool_decide (rt_method r = m)) as Hd
        by (intros m; unfold documented; by rewrite Ew, str_eqb_refl).
      rewrite lookup_insert_eq. split_and!.
      * intros m. cbn [mbind option_bind]. destruct (decide (rt_method r = m)) as [<-|Hm].
        -- rewrite lookup_insert_eq, filter_app, filter_cons_True by by rewrite Hd, bool_decide_eq_true_2.
           by rewrite filter_nil, last_snoc.
        -- rewrite lookup_insert_ne by by intros ?%method_name_inj.
           rewrite filter_app, filter_cons_False, app_nil_r by by rewrite Hd, bool_decide_eq_false_2.
           rewrite <- IHm. by destruct (paths !! _).
      * split; [|by eexists]. intros _. exists r, (rt_method r). rewrite Hd, bool_decide_eq_true_2 by done.
        split; [|done]. apply elem_of_app. right. by left.
      * intros item k [= <-]. destruct (decide (k = format_api_http_method (rt_method r))) as [->|Hk]; [by eexists|].
        rewrite lookup_insert_ne by done. destruct (paths !! _) as [item|] eqn:E; [by apply IHk|]. by intros [? ?].
    + assert (∀ m, documented spec p m r = false) as Hd
        by (intros m; unfold documented; rewrite (proj2 (str_eqb_neq _ _) Hp), andb_false_r; done).
      rewrite lookup_insert_ne by done. split_and!; [| |done].
      * intros m. rewrite filter_app, filter_cons_False, app_nil_r by by rewrite Hd. apply IHm.
      * rewrite IHp. split; intros (r' & m & Hin & Hm); exists r', m; (split; [|done]).
        -- apply elem_of_app. by left.
        -- apply elem_of_app in Hin as [Hin| ->%list_elem_of_singleton]; [done|]. by rewrite Hd in Hm.
Qed.
Lemma dom_schemas spec : dom (openapi_schemas of_Z parse_f64 spec) = type_name_set spec.
Proof.
  unfold openapi_schemas, type_name_set. generalize (openapi_type_schema_for_spec of_Z parse_f64 spec). intros g.
  induction (types spec) as [|t l IH] using rev_ind; [done|].
  rewrite foldl_app, fmap_app, list_to_set_app_L, <- IH. cbn. rewrite dom_insert_L. set_solver.
Qed.
End paths.

(** ** References *)

Section refs.
Context {Number : Type} (of_Z : Z → Number) (parse_f64 : rstr → option (option Number)).
Abbreviation Value := (@Value Number).
Context (names : gset rstr).
Implicit Types (spec : ApiSpec) (rules ty k : rstr) (m : gmap rstr Value).

(** Every reference inside a value names one of [names]. *)
Inductive refs_in : Value → Prop :=
| refs_null : refs_in VNull
| refs_bool b : refs_in (VBool b)
| refs_number n : refs_in (VNumber n)
| refs_string s : refs_in (VString s)
| refs_array l : (∀ v, v ∈ l → refs_in v) → refs_in (VArray l)
| refs_object m :
    (∀ k v, m !! k = Some v → refs_in v) →
    (∀ s, m !! REF = Some (VString s) → ∃ n, n ∈ names ∧ s = schema_path n) → refs_in (VObject m).

Definition is_string (v : Value) : bool := match v with VString _ => true | _ => false end.
(** What may stand under a name. *)
Definition entry k (v : Value) : Prop := refs_in v ∧ (str_eqb k REF && is_string v = false).

Lemma refs_insert m k v : refs_in (VObject m) → entry k v → refs_in (VObject (<[k:=v]> m)).
Proof.
  intros Hm [Hv Hk]. inversion Hm as [| | | | |? Hall Href]; subst. constructor.
  - intros k' v'. rewrite lookup_insert_Some. intros [[<- <-]|[_ ?]]; [done|by eapply Hall].
  - intros s. rewrite lookup_insert_Some. intros [[-> ->]|[_ ?]]; [|by apply Href].
    rewrite str_eqb_refl in Hk. done.
Qed.

Lemma refs_empty : refs_in (VObject ∅).
Proof. constructor; intros *; by rewrite lookup_empty. Qed.

Lemma refs_json l : Forall (λ kv, entry kv.1 kv.2) l → refs_in (json_object l).
Proof. induction 1 as [|[k v] l Hkv _ IH]; [apply refs_empty|]. by apply refs_insert. Qed.

Lemma refs_some m k o : refs_in (VObject m) → (∀ v, o = Some v → entry k v) → refs_in (VObject (insert_some k o m)).
Proof. intros Hm Ho. destruct o as [v|]; [|done]. apply refs_insert; auto. Qed.

Lemma refs_strings l : refs_in (strings l).
Proof. constructor. intros v (s & -> & _)%list_elem_of_fmap. constructor. Qed.

Lemma refs_foldl {A} (f : A → rstr) (g : A → Value) l :
  Forall (λ a, refs_in (g a) ∧ is_string (g a) = false) l → refs_in (VObject (foldl (λ m a, <[f a := g a]> m) ∅ l)).
Proof.
  induction l as [|a l IH] using rev_ind; [intros _; apply refs_empty|].
  intros [Hl [Ha _]%Forall_cons]%Forall_app. rewrite foldl_app. apply refs_insert; [by apply IH|].
  destruct Ha as [Hr Hs]. split; [done|]. by rewrite Hs, andb_false_r.
Qed.

Lemma rule_number_leaf rules name v k : openapi_rule_number of_Z parse_f64 rules name = Some v → entry k v.
Proof.
  unfold openapi_rule_number, f64_value. destruct (openapi_rule_value rules name) as [s|]; [|done]. cbn.
  destruct (parse_i64 s); [intros [= <-]; split; [constructor|by rewrite andb_false_r]|].
  destruct (parse_f64 s) as [[n|]|]; [| |done]; intros [= <-]; (split; [constructor|by rewrite andb_false_r]).
Qed.

Lemma first_number_leaf rules a b c v k :
  first_of (openapi_rule_number of_Z parse_f64 rules <$> [a; b; c]) = Some v → entry k v.
Proof.
  intros (o & Hin & Ho)%find_map_Some. apply list_elem_of_fmap in Hin as (name & -> & _).
  by apply (rule_number_leaf rules name).
Qed.

Lemma refs_size m rules lo hi :
  refs_in (VObject m) → str_eqb lo REF = false → str_eqb hi REF = false →
  refs_in (VObject (apply_openapi_size_rules of_Z parse_f64 m rules lo hi)).
Proof.
  intros Hm Hlo Hhi. unfold apply_openapi_size_rules. cbv zeta.
  destruct (openapi_rule_number of_Z parse_f64 rules (lit "len")) as [len|] eqn:E.
  - pose proof (rule_number_leaf rules _ len lo E). pose proof (rule_number_leaf rules _ len hi E).
    by repeat apply refs_insert.
  - apply refs_some; [apply refs_some; [done|]|]; intros v; apply first_number_leaf.
Qed.

Lemma refs_text m rules : refs_in (VObject m) → refs_in (VObject (apply_openapi_string_rules of_Z parse_f64 m rules)).
Proof.
  intros Hm. unfold apply_openapi_string_rules. cbv zeta.
  pose proof (refs_size m rules (lit "minLength") (lit "maxLength") Hm eq_refl eq_refl) as Hs.
  set (m0 := apply_openapi_size_rules _ _ _ _ _ _) in *.
  assert (refs_in (VObject (match openapi_rule_number of_Z parse_f64 rules (lit "len") with
    | Some len => <[lit "maxLength" := len]> (<[lit "minLength" := len]> m0) | None => m0 end))) as Hl.
  { destruct (openapi_rule_number of_Z parse_f64 rules (lit "len")) as [len|] eqn:E; [|done].
    apply refs_insert; [apply refs_insert; [done|]|]; by eapply rule_number_leaf. }
  set (m1 := match openapi_rule_number _ _ _ _ with Some _ => _ | None => _ end) in *.
  destruct (find_map _ _); [apply refs_insert; [done|split; [constructor|done]]|].
  destruct (openapi_has_rule _ _); [|done]. apply refs_insert; [done|]. split; [|done]. constructor.
  intros v Hv. repeat (apply elem_of_cons in Hv as [->|Hv]); [| |by apply not_elem_of_nil in Hv];
    apply refs_json; repeat constructor.
Qed.

Lemma refs_numeric m rules :
  refs_in (VObject m) → refs_in (VObject (apply_openapi_numeric_rules of_Z parse_f64 m rules)).
Proof.
  intros Hm. unfold apply_openapi_numeric_rules. cbv zeta. cbn [foldl fst snd].
  assert (∀ m r k, refs_in (VObject m) → refs_in (VObject (insert_some k (openapi_rule_number of_Z parse_f64 rules r) m))) as H1
    by (intros m' r k Hm'; apply refs_some; [done|]; intros v; apply rule_number_leaf).
  assert (∀ m r k flag, refs_in (VObject m) → refs_in (VObject
    (match openapi_rule_number of_Z parse_f64 rules r with Some v => <[flag := VBool true]> (<[k := v]> m) | None => m end))) as H2.
  { intros m' r k flag Hm'. destruct (openapi_rule_number of_Z parse_f64 rules r) as [v|] eqn:E; [|done].
    apply refs_insert; [apply refs_insert; [done|by eapply rule_number_leaf]|]. split; [constructor|by rewrite andb_false_r]. }
  assert (∀ m r z, refs_in (VObject m) → refs_in (VObject
    (if openapi_has_rule rules r then <[lit "minimum" := VNumber (of_Z z)]> m else m))) as H3.
  { intros m' r z Hm'. destruct (openapi_has_rule rules r); [|done]. apply refs_insert; [done|]. split; [constructor|done]. }
  do 3 apply H3. do 2 apply H2. do 4 apply H1. done.
Qed.

Lemma refs_lookup m k v : refs_in (VObject m) → m !! k = Some v → refs_in v.
Proof. inversion 1; subst. eauto. Qed.

Lemma refs_enum_value value t : refs_in (openapi_enum_value of_Z parse_f64 value t).
Proof.
  unfold openapi_enum_value, f64_value. destruct t as [t|]; [|constructor].
  destruct (str_eqb t (lit "integer")); [destruct (parse_i64 value); constructor|].
  destruct (str_eqb t (lit "number")); [destruct (parse_f64 value) as [[]|]; constructor|].
  destruct (str_eqb t (lit "boolean")); [|constructor].
  destruct (str_eqb value (lit "true")); [constructor|]. destruct (str_eqb value (lit "false")); constructor.
Qed.

Lemma refs_apply fuel schema rules :
  refs_in schema → refs_in (apply_rules of_Z parse_f64 fuel schema rules) ∧
  is_string (apply_rules of_Z parse_f64 fuel schema rules) = is_string schema.
Proof.
  revert schema rules. induction fuel as [|fuel IH]; intros schema rules Hs; [done|]. cbn [apply_rules].
  destruct schema as [| | | | |m]; try done. split; [|done]. unfold apply_rules_step. cbv zeta.
  set (t := (m !! lit "type") ≫= as_str).
  assert (refs_in (VObject (constrain of_Z parse_f64 (apply_rules of_Z parse_f64 fuel) m rules t))) as Hc.
  { unfold constrain. set (outer := match split_once _ _ with Some _ => _ | None => _ end).
    destruct (match t with Some t => str_in (lit <$> ["string"]) t | None => false end); [by apply refs_text|].
    destruct (match t with Some t => str_in (lit <$> ["integer"; "number"]) t | None => false end); [by apply refs_numeric|].
    destruct (match t with Some t => str_in (lit <$> ["array"]) t | None => false end).
    - pose proof (refs_size m outer (lit "minItems") (lit "maxItems") Hs eq_refl eq_refl) as Hsz.
      destruct (snd <$> split_once _ rules) as [rs|]; [|done].
      set (m0 := apply_openapi_size_rules _ _ _ _ _ _) in *.
      destruct (m0 !! lit "items") as [items|] eqn:Ei; [|done]. apply refs_insert; [done|].
      split; [|done]. apply IH. by eapply refs_lookup.
    - destruct (match t with Some t => str_in (lit <$> ["object"]) t | None => false end); [|done].
      pose proof (refs_size m outer (lit "minProperties") (lit "maxProperties") Hs eq_refl eq_refl) as Hsz.
      destruct (snd <$> split_once _ rules) as [rs|]; [|done].
      set (m0 := apply_openapi_size_rules _ _ _ _ _ _) in *.
      destruct (split_openapi_map_rules rs) as [ks vs].
      assert (refs_in (VObject match ks with
        | Some ks => <[lit "x-roze-map-key-schema" := apply_rules of_Z parse_f64 fuel
              (json_object [(lit "type", VString (lit "string"))]) ks]> m0 | None => m0 end)) as Hk.
      { destruct ks as [ks|]; [|done]. apply refs_insert; [done|]. split; [|done]. apply IH, refs_json. by repeat constructor. }
      set (m1 := match ks with Some _ => _ | None => _ end) in *. cbv zeta.
      destruct (m1 !! lit "additionalProperties") as [values|] eqn:Ei; [|done]. apply refs_insert; [done|].
      split; [|done]. apply IH. by eapply refs_lookup. }
  set (m1 := constrain _ _ _ _ _ _) in *.
  match goal with |- refs_in (VObject match ?o with _ => _ end) => destruct o as [[|v vs]|] eqn:Eo end; [done| |done].
  apply refs_insert; [done|]. split; [|done]. constructor. intros v' Hin.
  destruct (openapi_rule_value _ _) as [values|]; [|done]. injection Eo as Eo. rewrite <- Eo in Hin.
  apply list_elem_of_fmap in Hin as (w & -> & _). apply refs_enum_value.
Qed.

(** Types whose schema is known by name or declared, and maps and lists of them. *)
Inductive covered : rstr → Prop :=
| covered_map ty key value : map_key_value_types ty = Some (key, value) → covered value → covered ty
| covered_list ty inner :
    map_key_value_types ty = None → collection_element_type ty = Some inner → covered inner → covered ty
| covered_name ty :
    map_key_value_types ty = None → collection_element_type ty = None →
    is_Some (@known_schema Number ty) ∨ ty ∈ names → covered ty.

Ltac json_fields := apply refs_json; repeat (apply Forall_cons; split; [split; [|done]|]); try exact (Forall_nil_2 _);
  try first [apply refs_string | apply refs_bool | apply refs_number | apply refs_null].

Lemma refs_json_1 k v : refs_in v → is_string v = false → refs_in (json_object [(k, v)]).
Proof. intros Hv Hs. apply refs_json, Forall_singleton. split; [done|]. cbn [fst snd]. by rewrite Hs, andb_false_r. Qed.

Lemma refs_list (l : list Value) : Forall refs_in l → refs_in (VArray l).
Proof. intros Hl. constructor. by apply Forall_forall. Qed.

Lemma known_refs ty v : @known_schema Number ty = Some v → refs_in v ∧ is_string v = false.
Proof.
  intros (ns & Hin & Hv)%find_map_Some. destruct (str_in _ ty); [|done]. injection Hv as <-.
  assert (Forall (λ ns, refs_in (snd ns) ∧ is_string (snd ns) = false) (@known_schemas Number)) as Hall.
  { unfold known_schemas, typed, formatted.
    repeat (apply Forall_cons; split; [split; [json_fields|done]|]). exact (Forall_nil_2 _). }
  by apply (proj1 (Forall_forall _ _) Hall).
Qed.

Lemma refs_schema_ref name : name ∈ names → refs_in (schema_ref name).
Proof.
  intros Hn. change (schema_ref name) with (VObject (<[REF := @VString Number (schema_path name)]> ∅)). constructor.
  - intros k v [[_ <-]|[_ Hv]]%lookup_insert_Some; [constructor|]. by rewrite lookup_empty in Hv.
  - intros s. rewrite lookup_insert_eq. intros [= <-]. by exists name.
Qed.

Lemma refs_schema ty : covered ty → refs_in (@openapi_schema Number ty) ∧ is_string (@openapi_schema Number ty) = false.
Proof.
  induction 1 as [ty key value E _ [IH Hs]|ty inner E E' _ [IH Hs]|ty E E' Hty]; rewrite schema_equation, E, ?E'.
  - split; [|done]. json_fields; done.
  - split; [|done]. json_fields; done.
  - destruct (known_schema ty) as [v|] eqn:Ek; [by apply known_refs in Ek|].
    destruct Hty as [[]|Hty]; [done|]. split; [by apply refs_schema_ref|done].
Qed.

Lemma refs_field f :
  covered (fd_ty f) →
  refs_in (openapi_field_schema of_Z parse_f64 f) ∧ is_string (openapi_field_schema of_Z parse_f64 f) = false.
Proof.
  intros [Hs Hn]%refs_schema. unfold openapi_field_schema. destruct (fd_validate f) as [rules|]; [|done].
  destruct (refs_apply (S (length rules)) _ rules Hs) as [Hr Hk]. rewrite Hn in Hk. unfold apply_openapi_rules.
  destruct (apply_rules _ _ _ _ _); try done. split; [|done]. apply refs_insert; [done|]. by split; [constructor|].
Qed.

Definition fields_covered (fs : list Field) : Prop := Forall (λ f, covered (fd_ty f)) fs.

Lemma refs_object_schema fs : fields_covered fs → refs_in (object_schema of_Z parse_f64 fs).
Proof.
  intros Hfs. json_fields.
  - apply refs_foldl. eapply Forall_impl; [exact Hfs|]. intros f. apply refs_field.
  - apply refs_strings.
Qed.

Lemma refs_content content_type schema :
  refs_in schema → is_string schema = false →
  refs_in (json_object [(content_type, json_object [(lit "schema", schema)])]).
Proof. intros Hs Hn. apply refs_json_1; [|done]. by apply refs_json_1. Qed.

Lemma refs_body content_type schema : refs_in schema → is_string schema = false → refs_in (body_of content_type schema).
Proof. intros Hs Hn. json_fields. by apply refs_content. Qed.

Lemma refs_response content_type schema :
  refs_in schema → is_string schema = false → refs_in (response_of content_type schema).
Proof. intros Hs Hn. apply refs_json_1; [|done]. json_fields. by apply refs_content. Qed.

Lemma refs_responses route : rt_response route ∈ names → refs_in (openapi_responses of_Z route).
Proof.
  intros Hr. unfold openapi_responses. destruct (rt_maud route).
  - apply refs_response; [|done]. unfold typed. json_fields.
  - apply refs_response; [|done]. json_fields; [apply refs_strings|].
    json_fields; [|unfold typed; json_fields|by apply refs_schema_ref].
    json_fields. apply refs_list, Forall_singleton. constructor.
Qed.

Lemma refs_parameters route fs v :
  fields_covered fs → v ∈ openapi_parameters of_Z parse_f64 route fs → refs_in v.
Proof.
  intros Hfs (f & Hin & Hf)%list_elem_of_bind. apply (proj1 (Forall_forall _ _) Hfs) in Hf as [Hc Hs]%refs_field.
  assert (∀ loc req, refs_in (openapi_parameter of_Z parse_f64 f loc req)) as Hp by (intros loc req; json_fields; done).
  destruct (openapi_field_source f route); try (by apply not_elem_of_nil in Hin);
    apply list_elem_of_singleton in Hin as ->; apply Hp.
Qed.

Lemma refs_request_body route fs v :
  fields_covered fs → rt_request route ∈ names → openapi_body of_Z parse_f64 route fs = Some v → refs_in v.
Proof.
  intros Hfs Hr. unfold openapi_body.
  assert (∀ src, fields_covered (filter (λ f, openapi_field_source f route = src) fs)) as Hf
    by (intros src; apply Forall_forall; intros f [_ Hin]%list_elem_of_filter; by apply (proj1 (Forall_forall _ _) Hfs)).
  pose proof (Hf Form) as Hform. pose proof (Hf Json) as Hjson.
  destruct (filter _ fs); [|intros [= <-]; apply refs_body; [by apply refs_object_schema|done]].
  destruct (filter _ fs); [|intros [= <-]; apply refs_body; [by apply refs_object_schema|done]].
  destruct fs; [done|]. destruct (rt_method route); try done; intros [= <-]; (apply refs_body; [by apply refs_schema_ref|done]).
Qed.

Lemma refs_if_some {A} (f : A → Value) l v :
  VArray <$> if_some f l = Some v → (∀ a, a ∈ l → refs_in (f a)) → refs_in v.
Proof.
  destruct l as [|a l]; [done|]. intros [= <-] Hl. constructor.
  intros v (a' & -> & ?)%(list_elem_of_fmap f (a :: l)). by apply Hl.
Qed.

Lemma expand_covered spec n t stack :
  (∀ t, t ∈ types spec → fields_covered (td_fields t)) → fields_covered (td_fields t) →
  fields_covered (expand_api_fields n spec t stack).
Proof.
  intros Hall. revert t stack. induction n as [|n IH]; intros t stack Ht; [constructor|]. cbn.
  destruct (bool_decide _); [constructor|]. apply Forall_forall. intros f (g & Hin & Hg)%list_elem_of_bind.
  destruct (if fd_embedded g then find_type spec (fd_ty g) else None) as [nested|] eqn:E.
  - destruct (fd_embedded g); [|done]. apply find_type_name in E as [E _].
    by apply (proj1 (Forall_forall _ _) (IH nested ({[td_name t]} ∪ stack) (Hall nested E))) in Hin.
  - apply list_elem_of_singleton in Hin as ->. by apply (proj1 (Forall_forall _ _) Ht).
Qed.

Lemma refs_operation spec route :
  (∀ t, t ∈ types spec → fields_covered (td_fields t)) → rt_request route ∈ names → rt_response route ∈ names →
  refs_in (openapi_operation of_Z parse_f64 spec route).
Proof.
  intros Hall Hreq Hres. unfold openapi_operation. set (fs := match find_type _ _ with Some _ => _ | None => _ end).
  assert (fields_covered fs) as Hfs.
  { subst fs. destruct (find_type spec (rt_request route)) as [t|] eqn:E; [|constructor].
    apply find_type_name in E as [E _]. apply expand_covered; auto. }
  repeat apply refs_some.
  - json_fields; [apply refs_strings|by apply refs_responses].
  - intros v Hv. split; [|done]. destruct (rt_doc route); [|done]. injection Hv as <-. constructor.
  - intros v Hv. split; [|done]. destruct (_ || _); [|done]. injection Hv as <-. apply refs_list, Forall_singleton.
    apply refs_json_1; [|done]. exact (refs_list _ (Forall_nil_2 _)).
  - intros v Hv. split; [|done]. eapply refs_if_some; [exact Hv|]. constructor.
  - intros v Hv. split; [|done]. eapply refs_if_some; [exact Hv|]. intros a. by apply refs_parameters.
  - intros v Hv. split; [|done]. by eapply refs_request_body.
Qed.

Lemma refs_map_entries m : (∀ k v, m !! k = Some v → refs_in v ∧ is_string v = false) → refs_in (VObject m).
Proof.
  intros Hm. constructor; [by intros k v [? _]%Hm|]. intros s [_ Hs]%Hm. done.
Qed.

Lemma refs_document spec :
  (∀ t, t ∈ types spec → fields_covered (td_fields t)) →
  (∀ r, r ∈ rest_routes spec → rt_request r ∈ names ∧ rt_response r ∈ names) →
  refs_in (openapi_document of_Z parse_f64 spec).
Proof.
  intros Hall Hroutes.
  json_fields.
  - json_fields.
  - apply refs_list. apply Forall_fmap, Forall_true. intros url. cbn. json_fields.
  - apply refs_map_entries. intros p v. rewrite lookup_fmap. intros (item & E & ->)%fmap_Some. split; [|done].
    apply refs_map_entries. intros k op Hop.
    destruct (openapi_paths_exact of_Z parse_f64 spec p) as (Hm & _ & Hk).
    destruct (Hk item k E) as [m ->]; [by eexists|]. specialize (Hm m). rewrite E in Hm. cbn in Hm. rewrite Hop in Hm.
    destruct (last _) as [r|] eqn:El; [|done]. injection Hm as ->. split; [|done].
    apply last_Some_elem_of, list_elem_of_filter in El as [_ El]. destruct (Hroutes r El). by apply refs_operation.
  - apply refs_some; [apply refs_map_entries|].
    + intros k v [_ <-]%lookup_singleton_Some. split; [|done]. apply refs_foldl, Forall_forall. intros t Ht.
      split; [|done]. apply refs_object_schema, expand_covered; auto.
    + intros v Hv. split; [|done]. destruct (existsb _ _); [|done]. injection Hv as <-.
      apply refs_json_1; [|done]. json_fields.
Qed.
End refs.

(** C40: The references of the document resolve. When the contract's references are valid
    and every field is of a type that the document knows by name, of a declared type,
    or of maps and lists of such types, every [$ref] in the document is the path of one
    of its own schemas, and there is one schema for each declared type. *)
Theorem openapi_refs_resolve {Number} (of_Z : Z → Number) parse_f64 spec :
  validate_referenced_types spec = [] →
  (∀ t f, t ∈ types spec → f ∈ td_fields t → covered (Number := Number) (type_name_set spec) (fd_ty f)) →
  refs_in (type_name_set spec) (openapi_document of_Z parse_f64 spec) ∧
  dom (openapi_schemas of_Z parse_f64 spec) = type_name_set spec.
Proof.
  intros Hv Hc. set (names := type_name_set spec).
  apply references_spec in Hv as (Hreq & Hres & _).
  assert (∀ t, t ∈ types spec → fields_covered (Number := Number) names (td_fields t)) as Hall
    by (intros t Ht; apply Forall_forall; intros f Hf; by apply (Hc t)).
  assert (∀ r, r ∈ rest_routes spec → rt_request r ∈ names ∧ rt_response r ∈ names) as Hroutes.
  { intros r Hr. split; apply elem_of_list_to_set.
    - apply Hreq. unfold request_types. apply elem_of_app. left. by apply list_elem_of_fmap_2.
    - apply Hres. unfold response_types. apply elem_of_app. left. by apply list_elem_of_fmap_2. }
  split.
  2: apply dom_schemas.
  by apply refs_document.
Qed.

(** ** Examples *)

Abbreviation ex_document := (openapi_document (Number := Z) id (λ _, None)).

Definition ex_api : ApiSpec :=
  ex_with_fields
    [ex_field (lit "id") (lit "u64") PathSource None;
     ex_field (lit "codes") (lit "[]string") Json (Some (lit "min_items=1,max_items=3,dive,min=2,max=8"));
     ex_field (lit "next") (lit "map[string]Req") Json (Some (lit "omitempty"))].

(** The constraints of a list and of its elements. *)
Lemma ex_constraints :
  openapi_field_schema (Number := Z) id (λ _, None)
    (ex_field (lit "codes") (lit "[]string") Json (Some (lit "min_items=1,max_items=3,dive,min=2,max=8"))) =
  json_object
    [(lit "type", VString (lit "array")); (lit "minItems", VNumber 1%Z); (lit "maxItems", VNumber 3%Z);
     (lit "items", json_object [(lit "type", VString (lit "string")); (lit "minLength", VNumber 2%Z);
                                (lit "maxLength", VNumber 8%Z)]);
     (lit "x-roze-validator", VString (lit "min_items=1,max_items=3,dive,min=2,max=8"))].
Proof. vm_compute. reflexivity. Qed.

Lemma openapi_refs_resolve_witness :
  refs_in (type_name_set ex_api) (ex_document ex_api) ∧
  dom (openapi_schemas (Number := Z) id (λ _, None) ex_api) = type_name_set ex_api.
Proof.
  apply (openapi_refs_resolve id (λ _, None) ex_api); [vm_compute; reflexivity|].
  intros t f Ht Hf. apply list_elem_of_singleton in Ht as ->.
  repeat (apply elem_of_cons in Hf as [->|Hf]); [| | |by apply not_elem_of_nil in Hf].
  - apply covered_name; [vm_compute; reflexivity..|]. left. vm_compute. eexists. reflexivity.
  - eapply covered_list; [vm_compute; reflexivity..|].
    apply covered_name; [vm_compute; reflexivity..|]. left. vm_compute. eexists. reflexivity.
  - eapply covered_map; [vm_compute; reflexivity|].
    apply covered_name; [vm_compute; reflexivity..|]. right. apply elem_of_list_to_set. by left.
Defined.

(** Types the validator and the generator know but the document does not, as [bytes] and
    options, become references to schemas that it does not have. *)
Lemma undocumented_types_dangle :
  let spec := ex_with_fields [ex_field (lit "id") (lit "u64") PathSource None;
                              ex_field (lit "raw") (lit "bytes") Json None;
                              ex_field (lit "level") (lit "int16") Json None;
                              ex_field (lit "note") (lit "Option<string>") Json None] in
  validate_api_spec spec = [] ∧
  Forall (λ ty, @openapi_schema Z ty = schema_ref ty ∧
                @openapi_schemas Z id (λ _, None) spec !! ty = None) (lit <$> ["bytes"; "int16"; "Option<string>"]%string).
Proof. split; [vm_compute; reflexivity|]. repeat constructor. Qed.

Definition ex_prefixed : ApiSpec :=
  {| service := lit "users"; rpc_package := None;
     server := Some {| sv_prefix := Some (lit "/api"); sv_group := None; sv_middlewares := []; sv_jwt := None |};
     info := []; types := [{| td_name := lit "Req"; td_fields := [ex_field (lit "user_id") (lit "u64") PathSource None] |}];
     rest_routes := [{| rt_handler := Some (lit "get"); rt_doc := None; rt_websocket := false; rt_maud := false;
                        rt_middlewares := []; rt_permissions := []; rt_server := None; rt_method := Get;
                        rt_path := lit "/users/:user-id"; rt_request := lit "Req"; rt_response := lit "Req" |}];
     rpc_methods := [] |}.

(** The prefix of the server is part of the document's paths and of the URL they are
    relative to; and a placeholder keeps a hyphen that its parameter's name may not have. *)
Lemma prefix_and_placeholder :
  validate_api_spec ex_prefixed = [] ∧
  openapi_servers (Number := Z) ex_prefixed = VArray [json_object [(lit "url", VString (lit "/api"))]] ∧
  dom (openapi_paths (Number := Z) id (λ _, None) ex_prefixed) = {[ lit "/api/users/{user-id}" ]} ∧
  (route ← head (rest_routes ex_prefixed);
   head (openapi_parameters (Number := Z) id (λ _, None) route (expanded_api_fields ex_prefixed
     {| td_name := lit "Req"; td_fields := [ex_field (lit "user_id") (lit "u64") PathSource None] |}))) =
  Some (openapi_parameter id (λ _, None) (ex_field (lit "user_id") (lit "u64") PathSource None) (lit "path") true).
Proof. split_and!; vm_compute; reflexivity. Qed.
