(* ===== verification/SearchSchema.v ===== *)
(** * Search schemas (apps/rozectl/src/generator/search.rs)

    The two notations of a search index, a line-oriented one and JSON, what they are
    read as, and the normalization that both end in. Parsing JSON text is a parameter. *)

From S2P Require Import Prelude Text Scan Naming ConfigDiff.

(** What succeeds after a [?] did so with the value before it. *)
Inductive SearchFieldType := Keyword | SText | I32 | I64 | U64 | F64 | SBool | DateTime | SJson.
#[export] Instance SearchFieldType_eq_dec : EqDecision SearchFieldType.
Proof. solve_decision. Defined.

Record SearchFieldSpec :=
  { sf_name : rstr; source_name : option rstr; sf_ty : SearchFieldType; searchable : bool; filterable : bool;
    sortable : bool; sf_primary : bool }.
Record SearchIndexSpec := { si_name : rstr; primary : rstr; si_fields : list SearchFieldSpec }.

Definition search_types : list (list String.string * SearchFieldType) :=
  [(["keyword"; "string"]%string, Keyword); (["text"]%string, SText); (["i32"; "int"; "integer"]%string, I32);
   (["i64"; "long"]%string, I64); (["u64"; "uint64"; "unsigned_long"]%string, U64);
   (["f64"; "float"; "double"; "number"]%string, F64); (["bool"; "boolean"]%string, SBool);
   (["datetime"; "date"]%string, DateTime); (["json"; "object"]%string, SJson)].

Definition parse_search_type (value : rstr) : result rstr SearchFieldType :=
  ok_or (find_map (λ nt, if str_in (lit <$> nt.1) value then Some nt.2 else None) search_types)
    (lit "unsupported search field type `" ++ value ++ lit "`").

Section schema.
Context `{UnicodeCase}.
Implicit Types (spec : SearchIndexSpec) (field : SearchFieldSpec) (fields : list SearchFieldSpec).

Definition search_source_name (name : rstr) : option rstr :=
  if str_eqb name (to_snake_case name) then None else Some name.

(** ** Normalization *)

Definition is_valid_search_rust_type (name : rstr) : bool :=
  match name with
  | [] => false
  | first :: chars =>
      if str_eqb name (lit "_") then false
      else ((first =? 95) || is_ascii_uppercase first) && identifier_tail chars
  end.

Definition is_valid_search_rust_ident (name : rstr) : bool :=
  match name with
  | [] => false
  | first :: chars =>
      if str_eqb name (lit "_") then false
      else ((first =? 95) || is_ascii_lowercase first) && identifier_tail chars && str_eqb (rust_identifier name) name
  end.

Definition set_primary field : SearchFieldSpec :=
  {| sf_name := sf_name field; source_name := source_name field; sf_ty := sf_ty field; searchable := searchable field;
     filterable := filterable field; sortable := sortable field; sf_primary := true |}.

Definition written_name field : rstr := default (sf_name field) (source_name field).

(** [generated] holds the names so far with the names they were written as. *)
Fixpoint normalize_fields (primary : rstr) (generated : gmap rstr rstr) fields : result rstr (list SearchFieldSpec) :=
  match fields with
  | [] => Ok []
  | field :: fields =>
      if negb (is_valid_search_rust_ident (sf_name field)) then
        Err (lit "search field `" ++ written_name field ++ lit "` generates invalid Rust field `" ++ sf_name field ++ lit "`")
      else
        match generated !! sf_name field with
        | Some previous =>
            Err (lit "duplicate generated search field `" ++ sf_name field ++ lit "`: " ++ previous ++ lit " and " ++
                 written_name field)
        | None =>
            rest ← normalize_fields primary (<[sf_name field := written_name field]> generated) fields;
            Ok ((if str_eqb (sf_name field) primary then set_primary field else field) :: rest)
        end
  end.

Definition normalize_search_spec spec : result rstr SearchIndexSpec :=
  match si_fields spec with
  | [] => Err (lit "search schema requires at least one field")
  | fields =>
      let module := to_snake_case (si_name spec) in
      let pascal := to_pascal_case (si_name spec) in
      let invalid what name :=
        Err (lit "search index `" ++ si_name spec ++ lit "` generates invalid Rust " ++ what ++ lit " `" ++ name ++ lit "`") in
      if negb (is_valid_search_rust_ident module) then invalid (lit "module") module
      else if negb (is_valid_search_rust_type pascal) then invalid (lit "type") pascal
      else
        fields ← normalize_fields (primary spec) ∅ fields;
        if existsb sf_primary fields
        then Ok {| si_name := si_name spec; primary := primary spec; si_fields := fields |}
        else Err (lit "search schema primary field `" ++ primary spec ++ lit "` not found")
  end.

(** ** Lines *)

Record dsl_state := { ds_name : option rstr; ds_primary : option rstr; ds_fields : list SearchFieldSpec }.

Definition at_line {A} (line_no : N) (message : rstr) : result rstr A :=
  Err (lit "line " ++ dec line_no ++ lit ": " ++ message).

Definition has_flag (flags : list rstr) (flag : rstr) : bool := str_in flags flag.

Definition dsl_line (line_no : N) (raw : rstr) (st : dsl_state) : result rstr dsl_state :=
  let line := trim (match split_once (lit "#") raw with Some (before, _) => before | None => raw end) in
  match split_whitespace line with
  | [] => Ok st
  | directive :: parts =>
      if str_eqb directive (lit "index") then
        match parts with
        | name :: _ => Ok {| ds_name := Some name; ds_primary := ds_primary st; ds_fields := ds_fields st |}
        | [] => at_line line_no (lit "index requires a name")
        end
      else if str_eqb directive (lit "primary") then
        match parts with
        | name :: _ => Ok {| ds_name := ds_name st; ds_primary := Some (to_snake_case name); ds_fields := ds_fields st |}
        | [] => at_line line_no (lit "primary requires a field name")
        end
      else if str_eqb directive (lit "field") then
        match parts with
        | [] => at_line line_no (lit "field requires a name")
        | [_] => at_line line_no (lit "field requires a type")
        | name :: ty_name :: flags =>
            ty ← parse_search_type ty_name;
            let field :=
              {| sf_name := to_snake_case name; source_name := search_source_name name; sf_ty := ty;
                 searchable := has_flag flags (lit "searchable") || bool_decide (ty = SText);
                 filterable := has_flag flags (lit "filterable"); sortable := has_flag flags (lit "sortable");
                 sf_primary := has_flag flags (lit "primary") |} in
            Ok {| ds_name := ds_name st; ds_primary := ds_primary st; ds_fields := ds_fields st ++ [field] |}
        end
      else at_line line_no (lit "unknown search schema directive `" ++ directive ++ lit "`")
  end.

Fixpoint dsl_lines (line_no : N) (lines : list rstr) (st : dsl_state) : result rstr dsl_state :=
  match lines with
  | [] => Ok st
  | raw :: lines => st ← dsl_line line_no raw st; dsl_lines (line_no + 1) lines st
  end.

Definition parse_dsl_search_schema (source : rstr) : result rstr SearchIndexSpec :=
  st ← dsl_lines 1 (str_lines source) {| ds_name := None; ds_primary := None; ds_fields := [] |};
  name ← ok_or (ds_name st) (lit "search schema requires `index <name>`");
  normalize_search_spec
    {| si_name := name; primary := default (lit "id") (ds_primary st); si_fields := ds_fields st |}.

(** ** JSON *)

Context {Number : Type} (from_str : rstr → result rstr (@Value Number)).

Definition get (v : @Value Number) (key : rstr) : option Value := match v with VObject m => m !! key | _ => None end.
Definition get_str (o : option (@Value Number)) : option rstr := match o with Some (VString s) => Some s | _ => None end.
Definition get_bool (o : option (@Value Number)) : option bool := match o with Some (VBool b) => Some b | _ => None end.
Definition or_else {A} (o o' : option A) : option A := match o with Some a => Some a | None => o' end.

Definition json_field (primary_rust : rstr) (field : @Value Number) : result rstr SearchFieldSpec :=
  name ← ok_or (get_str (get field (lit "name"))) (lit "search field requires `name`");
  ty ← match get_str (or_else (get field (lit "type")) (get field (lit "kind"))) with
       | Some t => parse_search_type t
       | None => Ok SJson
       end;
  Ok {| sf_name := to_snake_case name; source_name := search_source_name name; sf_ty := ty;
        searchable := default (bool_decide (ty = SText)) (get_bool (get field (lit "searchable")));
        filterable := default false (get_bool (get field (lit "filterable")));
        sortable := default false (get_bool (get field (lit "sortable")));
        sf_primary := default (str_eqb (to_snake_case name) primary_rust) (get_bool (get field (lit "primary"))) |}.

Definition parse_json_search_schema (source : rstr) : result rstr SearchIndexSpec :=
  value ← from_str source;
  name ← ok_or (get_str (or_else (get value (lit "index")) (get value (lit "name")))) (lit "search schema JSON requires `index`");
  let primary_rust := to_snake_case (default (lit "id") (get_str (get value (lit "primary")))) in
  fields ← ok_or (match get value (lit "fields") with Some (VArray l) => Some l | _ => None end)
             (lit "search schema JSON requires `fields` array");
  fields ← collect (json_field primary_rust) fields;
  normalize_search_spec {| si_name := name; primary := primary_rust; si_fields := fields |}.

Definition parse_search_schema (source : rstr) : result rstr SearchIndexSpec :=
  let trimmed := trim source in
  if starts_with (lit "{") trimmed then parse_json_search_schema trimmed else parse_dsl_search_schema trimmed.

(** ** What is accepted *)

(** A schema from which code can be generated. *)
Record schema_ok spec : Prop :=
  { ok_module : is_valid_search_rust_ident (to_snake_case (si_name spec)) = true;
    ok_type : is_valid_search_rust_type (to_pascal_case (si_name spec)) = true;
    ok_idents : Forall (λ f, is_valid_search_rust_ident (sf_name f) = true) (si_fields spec);
    ok_distinct : NoDup (sf_name <$> si_fields spec);
    ok_primary : ∃ f, f ∈ si_fields spec ∧ sf_primary f = true;
    ok_named : ∀ f, f ∈ si_fields spec → sf_name f = primary spec → sf_primary f = true }.

Lemma normalize_fields_spec primary generated fields :
  match normalize_fields primary generated fields with
  | Ok fs => fs = (λ f, if str_eqb (sf_name f) primary then set_primary f else f) <$> fields ∧
      Forall (λ f, is_valid_search_rust_ident (sf_name f) = true) fields ∧ NoDup (sf_name <$> fields) ∧
      Forall (λ f, generated !! sf_name f = None) fields
  | Err _ => ∃ f l1 l2, fields = l1 ++ f :: l2 ∧
      (is_valid_search_rust_ident (sf_name f) = false ∨ is_Some (generated !! sf_name f) ∨ sf_name f ∈ sf_name <$> l1)
  end.
Proof.
  revert generated. induction fields as [|f fields IH]; intros generated; [split_and!; constructor|].
  cbn [normalize_fields]. destruct (is_valid_search_rust_ident (sf_name f)) eqn:Ei; cbn [negb].
  2: { exists f, [], fields. by split; [|left]. }
  destruct (generated !! sf_name f) as [previous|] eqn:Eg.
  { exists f, [], fields. split; [done|]. right. left. by eexists. }
  specialize (IH (<[sf_name f := written_name f]> generated)).
  destruct (normalize_fields primary _ fields) as [fs|e]; cbn [mbind result_bind].
  - destruct IH as (-> & Hi & Hn & Hf). split_and!; [done|by constructor| |].
    + rewrite fmap_cons. constructor; [|done]. intros (g & Hk & Hin)%list_elem_of_fmap.
      apply (proj1 (Forall_forall _ _) Hf) in Hin. rewrite <- Hk, lookup_insert_eq in Hin. done.
    + constructor; [done|]. eapply Forall_impl; [exact Hf|]. intros g. by intros [? _]%lookup_insert_None.
  - destruct IH as (g & l1 & l2 & -> & Hg). exists g, (f :: l1), l2. split; [done|].
    destruct Hg as [Hg|[[v Hg]|Hg]]; [by left| |by right; right; right].
    apply lookup_insert_Some in Hg as [[Hk _]|[_ Hg]]; [right; right; rewrite fmap_cons, Hk; by left|].
    right. left. by eexists.
Qed.

(** What normalization accepts and does, and when it refuses. *)
Lemma normalize_spec spec :
  match normalize_search_spec spec with
  | Ok s => schema_ok s ∧ si_name s = si_name spec ∧ primary s = primary spec ∧
      si_fields s = (λ f, if str_eqb (sf_name f) (primary spec) then set_primary f else f) <$> si_fields spec
  | Err _ => ¬ schema_ok {| si_name := si_name spec; primary := primary spec; si_fields :=
      (λ f, if str_eqb (sf_name f) (primary spec) then set_primary f else f) <$> si_fields spec |}
  end.
Proof.
  unfold normalize_search_spec. destruct (si_fields spec) as [|f0 fields0] eqn:Ef.
  { intros []. cbn [si_name primary si_fields] in *. destruct ok_primary0 as (f & Hf & _). by apply not_elem_of_nil in Hf. }
  rewrite <- Ef. clear f0 fields0 Ef.
  destruct (is_valid_search_rust_ident (to_snake_case (si_name spec))) eqn:Em; cbn [negb]; [|by intros []; cbn [si_name primary si_fields] in *; congruence].
  destruct (is_valid_search_rust_type (to_pascal_case (si_name spec))) eqn:Et; cbn [negb]; [|by intros []; cbn [si_name primary si_fields] in *; congruence].
  pose proof (normalize_fields_spec (primary spec) ∅ (si_fields spec)) as Hs.
  set (mark := λ f, if str_eqb (sf_name f) (primary spec) then set_primary f else f) in *.
  assert (∀ l : list SearchFieldSpec, sf_name <$> (mark <$> l) = sf_name <$> l) as Hnames.
  { intros l. rewrite <- list_fmap_compose. apply list_fmap_ext. intros ? f _. cbn. unfold mark. by destruct (str_eqb _ _). }
  destruct (normalize_fields (primary spec) ∅ (si_fields spec)) as [fs|e]; cbn [mbind result_bind].
  - destruct Hs as (-> & Hi & Hn & _). destruct (existsb sf_primary (mark <$> si_fields spec)) eqn:Ep.
    + split; [|done]. split; cbn; [done|done| |by rewrite Hnames| |].
      * apply Forall_fmap. eapply Forall_impl; [exact Hi|]. intros f. cbn. unfold mark. by destruct (str_eqb _ _).
      * apply existsb_exists in Ep as (f & Hf & Hp). exists f. split; [by apply list_elem_of_In|done].
      * intros f (g & -> & _)%list_elem_of_fmap. unfold mark. destruct (str_eqb (sf_name g) (primary spec)) eqn:E; [done|].
        apply str_eqb_neq in E. done.
    + intros []. cbn [si_name primary si_fields] in *. destruct ok_primary0 as (f & Hf & Hp).
      assert (existsb sf_primary (mark <$> si_fields spec) = true) as Hx; [|congruence].
      apply existsb_exists. exists f. split; [by apply list_elem_of_In|done].
  - destruct Hs as (f & l1 & l2 & Hl & Hf). intros []. cbn [si_name primary si_fields] in *. rewrite Hnames in ok_distinct0.
    destruct Hf as [Hf|[[v Hv]|Hf]].
    + apply Forall_fmap in ok_idents0. rewrite Hl in ok_idents0. apply Forall_app in ok_idents0 as [_ Hc].
      apply Forall_cons in Hc as [Hc _]. cbn in Hc. unfold mark in Hc. destruct (str_eqb _ _); cbn in Hc; congruence.
    + by rewrite lookup_empty in Hv.
    + rewrite Hl, fmap_app, NoDup_app in ok_distinct0. destruct ok_distinct0 as (_ & Hd & _).
      apply (Hd _ Hf). rewrite fmap_cons. by left.
Qed.

(** A search schema that is accepted, in either notation, names an index from which a
    module and a type can be generated and fields with distinct names that are
    identifiers and no keywords, at least one of them primary; the field that the
    schema names as primary is, if there is one. *)
Theorem search_schema_sound source spec : parse_search_schema source = Ok spec → schema_ok spec.
Proof.
  assert (∀ s, normalize_search_spec s = Ok spec → schema_ok spec) as Hn.
  { intros s Hs. pose proof (normalize_spec s) as H1. rewrite Hs in H1. by destruct H1. }
  unfold parse_search_schema, parse_json_search_schema, parse_dsl_search_schema. destruct (starts_with _ _).
  - intros (v & _ & (name & _ & (fs & _ & (fs' & _ & Hs)%bind_Ok)%bind_Ok)%bind_Ok)%bind_Ok. by apply Hn in Hs.
  - intros (st & _ & (name & _ & Hs)%bind_Ok)%bind_Ok. by apply Hn in Hs.
Qed.
End schema.

(** ** Schemas as lines *)

Section lines.
Context `{UnicodeCase}.

(** What a line can say, with the words as they are written. *)
Inductive Directive :=
| DIndex (name : rstr)
| DPrimary (name : rstr)
| DField (name ty_name : rstr) (flags : list rstr).

Definition words (d : Directive) : list rstr :=
  match d with
  | DIndex name => [lit "index"; name]
  | DPrimary name => [lit "primary"; name]
  | DField name ty_name flags => lit "field" :: name :: ty_name :: flags
  end.
Definition written (d : Directive) : rstr := join (lit " ") (words d).

(** Words without blanks, line ends or the mark of a comment. *)
Definition word_ok (w : rstr) : Prop :=
  nonempty w = true ∧ forallb (λ c, negb (is_whitespace c)) w = true ∧ lacks 35 w = true.

(** What the lines of a schema say together. *)
Definition says (st : dsl_state) (d : Directive) : option dsl_state :=
  match d with
  | DIndex name => Some {| ds_name := Some name; ds_primary := ds_primary st; ds_fields := ds_fields st |}
  | DPrimary name =>
      Some {| ds_name := ds_name st; ds_primary := Some (to_snake_case name); ds_fields := ds_fields st |}
  | DField name ty_name flags =>
      match parse_search_type ty_name with
      | Ok ty => Some {| ds_name := ds_name st; ds_primary := ds_primary st;
          ds_fields := ds_fields st ++
            [{| sf_name := to_snake_case name; source_name := search_source_name name; sf_ty := ty;
                searchable := has_flag flags (lit "searchable") || bool_decide (ty = SText);
                filterable := has_flag flags (lit "filterable"); sortable := has_flag flags (lit "sortable");
                sf_primary := has_flag flags (lit "primary") |}] |}
      | Err _ => None
      end
  end.

Lemma split_words ws : Forall word_ok ws → split_whitespace (join (lit " ") ws) = ws.
Proof.
  induction 1 as [|w ws (Hn & Hw & _) Hws IH]; [done|]. destruct ws as [|w' ws]; [by apply split_whitespace_one|].
  change (join (lit " ") (w :: w' :: ws)) with (w ++ 32 :: join (lit " ") (w' :: ws)).
  by rewrite split_whitespace_cons, IH.
Qed.

Lemma word_solid w : word_ok w → starts_solid w = true ∧ ends_solid w = true.
Proof.
  intros (Hn & Hw & _). split; [destruct w; [done|]; by apply andb_true_iff in Hw as [? _]|].
  destruct w as [|c w _] using rev_ind; [done|]. unfold ends_solid. rewrite last_snoc.
  rewrite forallb_app in Hw. apply andb_true_iff in Hw as [_ Hw]. by apply andb_true_iff in Hw as [? _].
Qed.

Lemma join_solid w ws :
  Forall word_ok (w :: ws) →
  starts_solid (join (lit " ") (w :: ws)) = true ∧ ends_solid (join (lit " ") (w :: ws)) = true ∧
  lacks 35 (join (lit " ") (w :: ws)) = true.
Proof.
  revert w. induction ws as [|w' ws IH]; intros w [Hw Hws]%Forall_cons; pose proof (word_solid w Hw) as [Hs He].
  - split_and!; [done..|]. by destruct Hw as (_ & _ & ?).
  - change (join (lit " ") (w :: w' :: ws)) with (w ++ 32 :: join (lit " ") (w' :: ws)).
    destruct (IH w' Hws) as (_ & He' & Hl). split_and!.
    + by apply starts_solid_app.
    + apply ends_solid_app. by apply ends_solid_cons.
    + rewrite lacks_app. destruct Hw as (_ & _ & ->). exact Hl.
Qed.

(** A line that says [d]: it may be indented, and end in blanks and a comment. *)
Definition line_says (raw : rstr) (d : option Directive) : Prop :=
  ∃ pre text post comment, raw = pre ++ text ++ post ++ comment ∧ blank pre ∧ blank post ∧
    (comment = [] ∨ ∃ t, comment = 35 :: t) ∧
    match d with Some d => text = written d ∧ Forall word_ok (words d) | None => text = [] end.

Lemma blank_lacks s : blank s → lacks 35 s = true.
Proof.
  intros Hs. apply lacks_not_in. intros Hin. apply (proj1 (Forall_forall _ _) Hs) in Hin. done.
Qed.

Lemma blank_app a b : blank a → blank b → blank (a ++ b).
Proof. intros Ha Hb. by apply Forall_app. Qed.

Lemma trim_blank s : blank s → trim s = [].
Proof.
  intros Hs. pose proof (trim_matches_Forall is_whitespace (λ c, is_whitespace c = true) s Hs) as Hf. unfold trim.
  destruct (trim_matches is_whitespace s) as [|c t] eqn:E; [done|]. apply trim_matches_head in E.
  apply Forall_cons in Hf as [Hc _]. congruence.
Qed.

(** What is left of a line is its text. *)
Lemma line_text raw d :
  line_says raw d →
  trim (match split_once (lit "#") raw with Some (before, _) => before | None => raw end) =
  match d with Some d => written d | None => [] end.
Proof.
  intros (pre & text & post & comment & -> & Hpre & Hpost & Hc & Hd).
  assert (lacks 35 text = true ∧ trim (pre ++ text ++ post) = match d with Some d => written d | None => [] end) as [Hl Ht].
  { destruct d as [d|].
    - destruct Hd as [-> Hw]. unfold written. destruct (words d) as [|w ws] eqn:E; [by destruct d|].
      destruct (join_solid w ws Hw) as (Hs & He & Hl). split; [done|]. by apply trim_pad.
    - subst text. split; [done|]. apply trim_blank. by apply blank_app. }
  assert (lacks 35 (pre ++ text ++ post) = true) as Hlacks
    by (rewrite !lacks_app, Hl, !blank_lacks; done).
  replace (pre ++ text ++ post ++ comment) with ((pre ++ text ++ post) ++ comment) by by rewrite <- !app_assoc.
  destruct Hc as [->|[t ->]].
  - change (lit "#") with [35]. rewrite app_nil_r, split_once_char_none by done. done.
  - change (lit "#") with [35]. by rewrite split_once_char.
Qed.

Lemma dsl_line_says line_no raw d st :
  line_says raw d →
  match d with
  | None => dsl_line line_no raw st = Ok st
  | Some d => match says st d with
              | Some st' => dsl_line line_no raw st = Ok st'
              | None => is_ok (dsl_line line_no raw st) = false
              end
  end.
Proof.
  intros Hl. pose proof (line_text raw d Hl) as Ht. unfold dsl_line. rewrite Ht.
  destruct d as [d|]; [|done]. destruct Hl as (? & ? & ? & ? & _ & _ & _ & _ & _ & Hw).
  unfold written. rewrite split_words by done.
  destruct d as [name|name|name ty flags]; [done..|]. cbn [words says].
  change (str_eqb (lit "field") (lit "index")) with false. change (str_eqb (lit "field") (lit "primary")) with false.
  change (str_eqb (lit "field") (lit "field")) with true. cbn iota. by destruct (parse_search_type ty).
Qed.

Fixpoint all_say (st : dsl_state) (ds : list (option Directive)) : option dsl_state :=
  match ds with
  | [] => Some st
  | None :: ds => all_say st ds
  | Some d :: ds => st ← says st d; all_say st ds
  end.

(** Lines are read as they are meant: whatever blanks, empty lines and comments there
    are, a schema whose lines are directives of plain words is what the directives
    declare together, normalized, and it is refused when a type is unknown or there is
    no index; the last of several [index] and [primary] lines counts. *)
Theorem dsl_reads_lines lines ds :
  Forall (λ l, line_ok l = true) lines → Forall2 line_says lines ds →
  let st := all_say {| ds_name := None; ds_primary := None; ds_fields := [] |} ds in
  match st with
  | Some st => parse_dsl_search_schema (unlines lines) =
      (name ← ok_or (ds_name st) (lit "search schema requires `index <name>`");
       normalize_search_spec {| si_name := name; primary := default (lit "id") (ds_primary st); si_fields := ds_fields st |})
  | None => is_ok (parse_dsl_search_schema (unlines lines)) = false
  end.
Proof.
  intros Hlines Hsays st. unfold parse_dsl_search_schema. rewrite str_lines_unlines by done. subst st.
  assert (∀ no st, match all_say st ds with
    | Some st' => dsl_lines no lines st = Ok st' | None => is_ok (dsl_lines no lines st) = false end) as Hrun.
  { clear Hlines. induction Hsays as [|raw d lines ds Hd _ IH]; intros no st; [done|]. cbn [all_say dsl_lines].
    pose proof (dsl_line_says no raw d st Hd) as Hl. destruct d as [d|]; [|rewrite Hl; apply IH].
    destruct (says st d) as [st'|]; cbn [mbind option_bind]; [rewrite Hl; apply IH|].
    by destruct (dsl_line no raw st). }
  specialize (Hrun 1 {| ds_name := None; ds_primary := None; ds_fields := [] |}).
  destruct (all_say _ ds) as [st|]; [by rewrite Hrun|]. by destruct (dsl_lines _ _ _).
Qed.
End lines.

(** ** Examples *)

Definition ex_lines : list rstr :=
  lit <$> ["index products # of the shop"; ""; "  primary Sku"; "field Sku keyword filterable"; "field title text"]%string.
Definition ex_directives : list (option Directive) :=
  [Some (DIndex (lit "products")); None; Some (DPrimary (lit "Sku"));
   Some (DField (lit "Sku") (lit "keyword") [lit "filterable"]); Some (DField (lit "title") (lit "text") [])].

Definition ex_schema : SearchIndexSpec :=
  {| si_name := lit "products"; primary := lit "sku"; si_fields :=
      [{| sf_name := lit "sku"; source_name := Some (lit "Sku"); sf_ty := Keyword; searchable := false;
          filterable := true; sortable := false; sf_primary := true |};
       {| sf_name := lit "title"; source_name := None; sf_ty := SText; searchable := true;
          filterable := false; sortable := false; sf_primary := false |}] |}.

Ltac plain_words := repeat (apply Forall_cons; split; [split_and!; reflexivity|]); exact (Forall_nil_2 _).

Lemma ex_lines_say : Forall2 line_says ex_lines ex_directives.
Proof.
  unfold ex_lines, ex_directives. cbn [fmap list_fmap].
  constructor; [|constructor; [|constructor; [|constructor; [|constructor; [|constructor]]]]].
  - exists [], (lit "index products"), [32], (lit "# of the shop").
    split_and!; [reflexivity|constructor|repeat constructor|right; eexists; reflexivity|reflexivity|plain_words].
  - exists [], [], [], []. split_and!; [reflexivity|constructor|constructor|left; reflexivity|reflexivity].
  - exists (lit "  "), (lit "primary Sku"), [], [].
    split_and!; [reflexivity|repeat constructor|constructor|left; reflexivity|reflexivity|plain_words].
  - exists [], (lit "field Sku keyword filterable"), [], [].
    split_and!; [reflexivity|constructor|constructor|left; reflexivity|reflexivity|plain_words].
  - exists [], (lit "field title text"), [], [].
    split_and!; [reflexivity|constructor|constructor|left; reflexivity|reflexivity|plain_words].
Qed.

Lemma dsl_reads_lines_witness : parse_dsl_search_schema (unlines ex_lines) = Ok ex_schema.
Proof.
  assert (Forall (λ l, line_ok l = true) ex_lines) as Hl by (repeat (constructor; [reflexivity|]); constructor).
  pose proof (dsl_reads_lines ex_lines ex_directives Hl ex_lines_say) as H. vm_compute in H |- *. exact H.
Defined.

Lemma search_schema_sound_witness : schema_ok ex_schema.
Proof.
  apply (search_schema_sound (Number := N) (λ _, Err []) (unlines ex_lines) ex_schema). vm_compute. reflexivity.
Defined.

(** A flagged field is enough: the field that [primary] names need not exist, and when
    another is flagged before it, both are primary. *)
Lemma named_primary_missing :
  (∃ spec, parse_search_schema (Number := N) (λ _, Err [])
     (lit "index products" ++ [10] ++ lit "primary uuid" ++ [10] ++ lit "field sku keyword primary") = Ok spec ∧
     primary spec = lit "uuid" ∧ sf_name <$> si_fields spec = [lit "sku"]) ∧
  (∃ spec, parse_search_schema (Number := N) (λ _, Err [])
     (lit "index products" ++ [10] ++ lit "primary uuid" ++ [10] ++ lit "field sku keyword primary" ++ [10] ++
      lit "field uuid keyword") = Ok spec ∧ primary spec = lit "uuid" ∧
     (λ f, (sf_name f, sf_primary f)) <$> si_fields spec = [(lit "sku", true); (lit "uuid", true)]).
Proof. split; eexists; (split; [vm_compute; reflexivity|]); split; reflexivity. Qed.
