(* ===== verification/GateDiff.v ===== *)
(** * What the release gate compares (apps/rozectl/src/gate.rs)

    Contracts, search schemas and SQL models of two versions, and the issues their
    differences are. The models of SQL sources are made by roze-ent, which is not under
    src/: of its records there are the fields the gate reads. The texts of [{:?}] for
    strings and of JSON values are parameters. *)

From S2P Require Import Prelude Text Scan Naming ConfigDiff ApiParser ApiFormat Contract OpenApi SearchSchema.

(** ** Issues *)

Inductive GateSeverity := Additive | Safe | Behavioral | OnlineRisk | BreakingChange | Destructive.
Definition blocks_release (s : GateSeverity) : bool :=
  match s with OnlineRisk | BreakingChange | Destructive => true | _ => false end.

Record GateIssue :=
  { gi_code : rstr; gi_domain : rstr; severity : GateSeverity; gi_path : rstr; before : option rstr;
    after : option rstr; remediation : rstr; acknowledged_by : option rstr }.

Definition issue (code domain : rstr) (s : GateSeverity) (path : rstr) (before after : option rstr)
    (remediation : rstr) : GateIssue :=
  {| gi_code := code; gi_domain := domain; severity := s; gi_path := path; before := before; after := after;
     remediation := remediation; acknowledged_by := None |}.

(** Walking two sorted maps: what each old entry became, then what is new. *)
Definition diff_maps {V} (removed : rstr → V → list GateIssue) (compare : rstr → V → V → list GateIssue)
    (added : rstr → V → list GateIssue) (old new : gmap rstr V) : list GateIssue :=
  (btree_iter old ≫= λ kv, match new !! kv.1 with
                            | None => removed kv.1 kv.2
                            | Some v => compare kv.1 kv.2 v
                            end)
  ++ (btree_iter new ≫= λ kv, match old !! kv.1 with None => added kv.1 kv.2 | Some _ => [] end).

Definition diff_named_maps (domain kind : rstr) (old new : gmap rstr rstr) : list GateIssue :=
  let code what := domain ++ lit "." ++ kind ++ lit "." ++ what in
  let path name := kind ++ lit "s." ++ name in
  diff_maps
    (λ name v, [issue (code (lit "removed")) domain BreakingChange (path name) (Some v) None
                  (lit "restore or version the removed surface")])
    (λ name v w, if str_eqb w v then []
                 else [issue (code (lit "changed")) domain BreakingChange (path name) (Some v) (Some w)
                         (lit "stage a new surface and migrate callers")])
    (λ name w, [issue (code (lit "added")) domain Additive (path name) None (Some w) (lit "no migration required")])
    old new.

Section gate.
Context `{UnicodeCase} {Number : Type} (of_Z : Z → Number) (parse_f64 : rstr → option (option Number)).
(** [{:?}] of a string, and [serde_json::to_string]. *)
Context (debug : rstr → rstr) (canonical_json : @Value Number → rstr).
Implicit Types (spec : ApiSpec) (field : Field) (ty : rstr).

Definition debug_list (l : list rstr) : rstr := lit "[" ++ join (lit ", ") (debug <$> l) ++ lit "]".
Definition debug_option (o : option rstr) : rstr :=
  match o with Some s => lit "Some(" ++ debug s ++ lit ")" | None => lit "None" end.

(** ** Contracts *)

Definition described (request response : rstr) (permissions middlewares : list rstr) : rstr :=
  request ++ lit " -> " ++ response ++ lit "; permissions=" ++ debug_list permissions ++ lit "; middleware=" ++
  debug_list middlewares.

Definition api_route spec (r : RestRoute) : rstr :=
  lit "transport=" ++ (if rt_websocket r then lit "websocket" else lit "http") ++ lit "; " ++
  described (rt_request r) (rt_response r) (rt_permissions r) (rt_middlewares r).
Definition api_method (m : RpcMethod) : rstr :=
  described (rpc_request m) (rpc_response m) (rpc_permissions m) (rpc_middlewares m).
Definition rpc_key (m : RpcMethod) : rstr := lit "RPC " ++ rpc_name m.

Definition api_routes spec : gmap rstr rstr :=
  foldl (λ routes m, <[rpc_key m := api_method m]> routes)
    (foldl (λ routes r, <[rest_route_key spec r := api_route spec r]> routes) ∅ (rest_routes spec)) (rpc_methods spec).

Definition field_key field : rstr := field_wire_name field.
Definition field_signature field : rstr :=
  fd_ty field ++ lit " " ++ source_debug (fd_source field) ++ lit " validate=" ++ debug_option (fd_validate field).

Definition is_optional_api_field field : bool :=
  match fd_validate field with
  | Some rules => existsb (λ rule, str_eqb rule (lit "optional") || str_eqb rule (lit "omitempty"))
                    (trim <$> split_on (N.eqb 44) rules)
  | None => false
  end.

Definition diff_fields (name : rstr) (old_ty new_ty : TypeDef) : list GateIssue :=
  let path f := lit "types." ++ name ++ lit ".fields." ++ f in
  diff_maps
    (λ f old, [issue (lit "api.field.removed") (lit "api") BreakingChange (path f) (Some (field_signature old)) None
                 (lit "restore the field or stage a versioned contract")])
    (λ f old new,
       (if bool_decide (fd_ty old = fd_ty new ∧ fd_source old = fd_source new) then []
        else [issue (lit "api.field.shape_changed") (lit "api") BreakingChange (path f) (Some (field_signature old))
                (Some (field_signature new)) (lit "add a new field and migrate clients before removing the old field")]) ++
       (if bool_decide (fd_validate old = fd_validate new) then []
        else [issue (lit "api.field.validation_changed") (lit "api")
                (match fd_validate new with Some _ => BreakingChange | None => Behavioral end) (path f)
                (fd_validate old) (fd_validate new) (lit "stage validation changes and document rejected inputs")]))
    (λ f new,
       if is_optional_api_field new
       then [issue (lit "api.field.optional_added") (lit "api") Additive (path f) None (Some (field_signature new))
               (lit "no migration required")]
       else [issue (lit "api.field.required_added") (lit "api") BreakingChange (path f) None (Some (field_signature new))
               (lit "make the field optional for a staged rollout")])
    (by_key field_key (td_fields old_ty)) (by_key field_key (td_fields new_ty)).

Definition diff_types (old new : ApiSpec) : list GateIssue :=
  diff_maps
    (λ name _, [issue (lit "api.type.removed") (lit "api") BreakingChange (lit "types." ++ name)
                  (Some (lit "present")) None (lit "restore the type or stage a versioned contract")])
    diff_fields
    (λ name _, [issue (lit "api.type.added") (lit "api") Additive (lit "types." ++ name) None
                  (Some (lit "present")) (lit "no migration required")])
    (by_key td_name (types old)) (by_key td_name (types new)).

Definition diff_api (old new : ApiSpec) : list GateIssue :=
  diff_named_maps (lit "api") (lit "route") (api_routes old) (api_routes new) ++ diff_types old new.

Definition object_at (v : @Value Number) (name : rstr) : gmap rstr Value :=
  match v with VObject m => match m !! name with Some (VObject m) => m | _ => ∅ end | _ => ∅ end.

Definition openapi_surfaces spec : gmap rstr rstr :=
  let document := openapi_document of_Z parse_f64 spec in
  let paths := foldl (λ s nv, <[lit "paths." ++ nv.1 := canonical_json nv.2]> s) ∅
                 (btree_iter (object_at document (lit "paths"))) in
  foldl (λ s nv, match nv.2 with
                 | VObject schemas =>
                     foldl (λ s kv, <[lit "components." ++ nv.1 ++ lit "." ++ kv.1 := canonical_json kv.2]> s) s
                       (btree_iter schemas)
                 | _ => s
                 end)
    paths (btree_iter (object_at document (lit "components"))).

Definition diff_openapi (old new : ApiSpec) : list GateIssue :=
  diff_maps
    (λ path v, [issue (lit "openapi.surface.removed") (lit "openapi") BreakingChange path (Some v) None
                  (lit "restore the OpenAPI surface or version the endpoint")])
    (λ path v w, if str_eqb w v then []
                 else [issue (lit "openapi.surface.changed") (lit "openapi") Behavioral path (Some v) (Some w)
                         (lit "review generated OpenAPI consumer impact")])
    (λ path w, [issue (lit "openapi.surface.added") (lit "openapi") Additive path None (Some w)
                  (lit "no migration required")])
    (openapi_surfaces old) (openapi_surfaces new).

(** The specifications of the two versions, compared. *)
Definition diff_api_specs (old new : ApiSpec) : list GateIssue := diff_api old new ++ diff_openapi old new.

(** ** Search schemas *)

Definition bool_text (b : bool) : rstr := if b then lit "true" else lit "false".
Definition search_type_name (t : SearchFieldType) : rstr :=
  match t with
  | Keyword => lit "Keyword" | SText => lit "Text" | I32 => lit "I32" | I64 => lit "I64" | U64 => lit "U64"
  | F64 => lit "F64" | SBool => lit "Bool" | DateTime => lit "DateTime" | SJson => lit "Json"
  end.
Definition search_field_signature (f : SearchFieldSpec) : rstr :=
  search_type_name (sf_ty f) ++ lit "; searchable=" ++ bool_text (searchable f) ++ lit "; filterable=" ++
  bool_text (filterable f) ++ lit "; sortable=" ++ bool_text (sortable f).

Definition capability_issue (path capability : rstr) (b a : bool) : list GateIssue :=
  if Bool.eqb b a then []
  else [issue (lit "search.field.capability_changed") (lit "search") (if b then BreakingChange else Behavioral)
          (path ++ lit "." ++ capability) (Some (bool_text b)) (Some (bool_text a))
          (lit "reindex when required by the target search engine and update query clients")].

Definition diff_search_fields (old new : SearchIndexSpec) : list GateIssue :=
  let path f := lit "fields." ++ f in
  diff_maps
    (λ f old, [issue (lit "search.field.removed") (lit "search") BreakingChange (path f)
                 (Some (search_field_signature old)) None (lit "create and backfill a versioned index")])
    (λ f old new,
       (if bool_decide (sf_ty old = sf_ty new) then []
        else [issue (lit "search.field.type_changed") (lit "search") BreakingChange (path f)
                (Some (search_field_signature old)) (Some (search_field_signature new))
                (lit "create and backfill a versioned index")]) ++
       capability_issue (path f) (lit "searchable") (searchable old) (searchable new) ++
       capability_issue (path f) (lit "filterable") (filterable old) (filterable new) ++
       capability_issue (path f) (lit "sortable") (sortable old) (sortable new))
    (λ f new, [issue (lit "search.field.added") (lit "search") Additive (path f) None
                 (Some (search_field_signature new)) (lit "backfill the field when existing documents require a value")])
    (by_key sf_name (si_fields old)) (by_key sf_name (si_fields new)).

Definition diff_search_specs (old new : SearchIndexSpec) : list GateIssue :=
  (if str_eqb (si_name old) (si_name new) then []
   else [issue (lit "search.index.changed") (lit "search") BreakingChange (lit "index") (Some (si_name old))
           (Some (si_name new)) (lit "create and backfill a versioned index before switching aliases")]) ++
  (if str_eqb (primary old) (primary new) then []
   else [issue (lit "search.primary.changed") (lit "search") BreakingChange (lit "primary") (Some (primary old))
           (Some (primary new)) (lit "reindex into a new index with the new primary field")]) ++
  diff_search_fields old new.

(** ** SQL models *)

Record ModelField :=
  { mf_name : rstr; mf_source_name : option rstr; mf_ty : rstr; default_value : option rstr }.
Record ModelIndex := { ix_name : rstr; ix_fields : list rstr; ix_unique : bool }.
Record ModelEdge := { ed_name : rstr; ed_target : rstr; ed_field : rstr; ed_required : bool; ed_unique : bool }.
Record ModelSpec :=
  { ms_table : rstr; ms_fields : list ModelField; ms_indexes : list ModelIndex; ms_edges : list ModelEdge }.

Definition model_field_signature (f : ModelField) : rstr :=
  mf_ty f ++ lit "; default=" ++ debug_option (default_value f).
Definition is_optional_model_type ty : bool := starts_with (lit "Option<") (trim_start ty).

Definition normalized_scalar_type ty : rstr :=
  str_to_ascii_lowercase
    (default (trim ty) (strip_prefix (lit "Option<") (trim ty) ≫= strip_suffix (lit ">"))).

Definition widths : list (String.string * N) :=
  [("i8", 8); ("u8", 8); ("i16", 16); ("u16", 16); ("i32", 32); ("u32", 32); ("i64", 64); ("u64", 64);
   ("f32", 32); ("f64", 64)]%string.
Definition width ty : option N := find_map (λ w, if str_eqb (lit w.1) ty then Some w.2 else None) widths.

Definition classify_sql_type_change (old new : rstr) : GateSeverity :=
  match width (normalized_scalar_type old), width (normalized_scalar_type new) with
  | Some o, Some n => if o <=? n then OnlineRisk else Destructive
  | _, _ => Destructive
  end.

Definition sql_issue (code : rstr) (s : GateSeverity) (path : rstr) (before after : option rstr) (remediation : rstr) :=
  issue (lit "sql." ++ code) (lit "sql") s path before after remediation.

Definition column_name (f : ModelField) : rstr := default (mf_name f) (mf_source_name f).

Definition diff_columns (table : rstr) (old new : ModelSpec) : list GateIssue :=
  let path c := lit "tables." ++ table ++ lit ".columns." ++ c in
  diff_maps
    (λ c old, [sql_issue (lit "column.removed") Destructive (path c) (Some (model_field_signature old)) None
                 (lit "stop reads and writes, back up data, then remove the column in a later release")])
    (λ c old new,
       (if str_eqb (mf_ty old) (mf_ty new) then []
        else [sql_issue (lit "column.type_changed") (classify_sql_type_change (mf_ty old) (mf_ty new)) (path c)
                (Some (mf_ty old)) (Some (mf_ty new)) (lit "use an online expand/backfill/contract migration")]) ++
       (if is_optional_model_type (mf_ty old) && negb (is_optional_model_type (mf_ty new))
        then [sql_issue (lit "column.nullability_narrowed") Destructive (path c) (Some (lit "nullable"))
                (Some (lit "not_null")) (lit "backfill NULL values and validate before adding NOT NULL")]
        else []) ++
       (if bool_decide (default_value old = default_value new) then []
        else [sql_issue (lit "column.default_changed") Behavioral (path c) (default_value old) (default_value new)
                (lit "verify write behavior for old and new service versions")]))
    (λ c new,
       let safe := is_optional_model_type (mf_ty new) || bool_decide (is_Some (default_value new)) in
       [sql_issue (lit "column.added") (if safe then Safe else Destructive) (path c) None
          (Some (model_field_signature new))
          (if safe then lit "verify the online DDL behavior of the target database"
           else lit "add the column as nullable, backfill it, then enforce NOT NULL")])
    (by_key column_name (ms_fields old)) (by_key column_name (ms_fields new)).

Definition index_text (i : ModelIndex) : rstr := debug_list (ix_fields i) ++ lit "; unique=" ++ bool_text (ix_unique i).

Definition diff_indexes (table : rstr) (old new : list ModelIndex) : list GateIssue :=
  let path n := lit "tables." ++ table ++ lit ".indexes." ++ n in
  diff_maps
    (λ n old, [sql_issue (lit "index.removed") OnlineRisk (path n) (Some (index_text old)) None
                 (lit "verify query plans and remove the index with an online operation")])
    (λ n old new,
       if bool_decide (ix_fields old = ix_fields new ∧ ix_unique old = ix_unique new) then []
       else [sql_issue (lit "index.changed") OnlineRisk (path n) (Some (index_text old)) (Some (index_text new))
               (lit "create the replacement index online before dropping the old index")])
    (λ n new, [sql_issue (lit "index.added") OnlineRisk (path n) None (Some (index_text new))
                 (lit "use concurrent/online index creation and estimate lock duration")])
    (by_key ix_name old) (by_key ix_name new).

Definition edge_text (e : ModelEdge) : rstr := ed_target e ++ lit ":" ++ ed_field e.
Definition edge_detail (e : ModelEdge) : rstr :=
  edge_text e ++ lit " required=" ++ bool_text (ed_required e) ++ lit " unique=" ++ bool_text (ed_unique e).

Definition diff_edges (table : rstr) (old new : list ModelEdge) : list GateIssue :=
  let path n := lit "tables." ++ table ++ lit ".constraints." ++ n in
  diff_maps
    (λ n old, [sql_issue (lit "foreign_key.removed") OnlineRisk (path n) (Some (edge_text old)) None
                 (lit "verify orphan behavior before removing the constraint")])
    (λ n old new,
       if bool_decide (ed_target old = ed_target new ∧ ed_field old = ed_field new ∧
                       ed_required old = ed_required new ∧ ed_unique old = ed_unique new) then []
       else [sql_issue (lit "foreign_key.changed") Destructive (path n) (Some (edge_detail old)) (Some (edge_detail new))
               (lit "stage and validate the replacement constraint before removing the old constraint")])
    (λ n new, [sql_issue (lit "foreign_key.added") OnlineRisk (path n) None (Some (edge_text new))
                 (lit "validate existing rows before adding the constraint")])
    (by_key ed_name old) (by_key ed_name new).

Definition diff_sql_models (old new : list ModelSpec) : list GateIssue :=
  diff_maps
    (λ t _, [sql_issue (lit "table.removed") Destructive (lit "tables." ++ t) (Some (lit "present")) None
               (lit "use an expand/migrate/contract sequence with a verified backup")])
    (λ t old new, diff_columns t old new ++ diff_indexes t (ms_indexes old) (ms_indexes new) ++
                  diff_edges t (ms_edges old) (ms_edges new))
    (λ t _, [sql_issue (lit "table.added") Safe (lit "tables." ++ t) None (Some (lit "present"))
               (lit "verify creation privileges and storage policy")])
    (by_key ms_table old) (by_key ms_table new).
End gate.

(** ** What passes *)

Definition passes (issues : list GateIssue) : Prop := Forall (λ i, blocks_release (severity i) = false) issues.

Lemma passes_app l1 l2 : passes (l1 ++ l2) ↔ passes l1 ∧ passes l2.
Proof. apply Forall_app. Qed.
Lemma passes_nil : passes [] ↔ True.
Proof. split; [done|constructor]. Qed.
Lemma passes_one i : passes [i] ↔ blocks_release (severity i) = false.
Proof. unfold passes. by rewrite Forall_singleton. Qed.
Lemma passes_if (b : bool) l : passes (if b then [] else l) ↔ b = true ∨ passes l.
Proof. destruct b; rewrite ?passes_nil; naive_solver. Qed.
Lemma passes_bind {A} (f : A → list GateIssue) l : passes (l ≫= f) ↔ ∀ a, a ∈ l → passes (f a).
Proof.
  unfold passes. setoid_rewrite Forall_forall. split.
  - intros H a Ha i Hi. apply H, list_elem_of_bind. by exists a.
  - intros H i (a & Hi & Ha)%list_elem_of_bind. by apply (H a).
Qed.

Lemma diff_maps_passes {V} (removed added : rstr → V → list GateIssue) (compare : rstr → V → V → list GateIssue) (old new : gmap rstr V) :
  passes (diff_maps removed compare added old new) ↔
  (∀ k v, old !! k = Some v → match new !! k with None => passes (removed k v) | Some w => passes (compare k v w) end) ∧
  (∀ k w, new !! k = Some w → old !! k = None → passes (added k w)).
Proof.
  unfold diff_maps. rewrite passes_app, !passes_bind. split; intros [H1 H2]; split.
  - intros k v Hk. specialize (H1 (k, v) (proj2 (elem_of_btree_iter _ _ _) Hk)). cbn in H1. by destruct (new !! k).
  - intros k w Hk Hn. specialize (H2 (k, w) (proj2 (elem_of_btree_iter _ _ _) Hk)). cbn in H2. by rewrite Hn in H2.
  - intros [k v] Hk%elem_of_btree_iter. cbn. specialize (H1 k v Hk). by destruct (new !! k).
  - intros [k w] Hk%elem_of_btree_iter. cbn. destruct (old !! k) eqn:E; [by apply passes_nil|by apply H2].
Qed.

(** Nothing may be removed; what stays is related and what is new is harmless. *)
Lemma diff_maps_exact {V} (removed added : rstr → V → list GateIssue) (compare : rstr → V → V → list GateIssue) (R : V → V → Prop) (N : V → Prop)
    (old new : gmap rstr V) :
  (∀ k v, ¬ passes (removed k v)) → (∀ k v w, passes (compare k v w) ↔ R v w) → (∀ k w, passes (added k w) ↔ N w) →
  passes (diff_maps removed compare added old new) ↔
  (∀ k v, old !! k = Some v → ∃ w, new !! k = Some w ∧ R v w) ∧ (∀ k w, new !! k = Some w → old !! k = None → N w).
Proof.
  intros Hr Hc Ha. rewrite diff_maps_passes. setoid_rewrite Ha. split; intros [H1 H2]; (split; [|done]).
  - intros k v Hk. specialize (H1 k v Hk). destruct (new !! k) as [w|]; [|by apply Hr in H1]. exists w. by rewrite Hc in H1.
  - intros k v Hk. destruct (H1 k v Hk) as (w & -> & HR). by apply Hc.
Qed.

Section exact.
Context `{UnicodeCase} {Number : Type} (of_Z : Z → Number) (parse_f64 : rstr → option (option Number)).
Context (debug : rstr → rstr) (canonical_json : @Value Number → rstr).

(** Fields keep their types and sources, and their rules unless they are dropped; what is
    new is optional. *)
Definition fields_kept (old new : TypeDef) : Prop :=
  (∀ k f, by_key field_key (td_fields old) !! k = Some f →
     ∃ f', by_key field_key (td_fields new) !! k = Some f' ∧ fd_ty f' = fd_ty f ∧ fd_source f' = fd_source f ∧
       (fd_validate f' = fd_validate f ∨ fd_validate f' = None)) ∧
  (∀ k f', by_key field_key (td_fields new) !! k = Some f' → by_key field_key (td_fields old) !! k = None →
     is_optional_api_field f' = true).

Record api_kept (old new : ApiSpec) : Prop :=
  { kept_routes k v : api_routes debug old !! k = Some v → api_routes debug new !! k = Some v;
    kept_types n t : by_key td_name (types old) !! n = Some t →
      ∃ t', by_key td_name (types new) !! n = Some t' ∧ fields_kept t t';
    kept_surfaces p : is_Some (openapi_surfaces of_Z parse_f64 canonical_json old !! p) →
      is_Some (openapi_surfaces of_Z parse_f64 canonical_json new !! p) }.

Lemma diff_named_maps_exact domain kind old new :
  passes (diff_named_maps domain kind old new) ↔ ∀ k v, old !! k = Some v → new !! k = Some v.
Proof.
  unfold diff_named_maps. rewrite (diff_maps_exact _ _ _ (λ v w, w = v) (λ _, True)).
  - split; [intros [H1 _] k v Hk; by destruct (H1 k v Hk) as (w & ? & ->)|]. intros H1. split; [|done].
    intros k v Hk. exists v. split; [by apply H1|done].
  - intros k v Hp%passes_one. done.
  - intros k v w. rewrite passes_if, passes_one, str_eqb_eq. cbn. naive_solver.
  - intros k w. by rewrite passes_one.
Qed.

Lemma diff_fields_exact name old new : passes (diff_fields debug name old new) ↔ fields_kept old new.
Proof.
  unfold diff_fields. rewrite (diff_maps_exact _ _ _
    (λ f f', fd_ty f' = fd_ty f ∧ fd_source f' = fd_source f ∧ (fd_validate f' = fd_validate f ∨ fd_validate f' = None))
    (λ f', is_optional_api_field f' = true)).
  - done.
  - intros k v Hp%passes_one. done.
  - intros k f f'. rewrite passes_app, !passes_if, !passes_one, !bool_decide_eq_true. cbn.
    destruct (fd_validate f'); cbn; naive_solver.
  - intros k f'. destruct (is_optional_api_field f'); rewrite passes_one; done.
Qed.

(** C39: A new version of a contract passes the gate without acknowledgements exactly when
    every route and method is described as before, every type and every field (under
    its wire name) is still there with its type, source and rules, or without its
    rules, every new field is optional, and no surface of the OpenAPI document is gone. *)
Theorem api_gate_exact old new :
  passes (diff_api_specs of_Z parse_f64 debug canonical_json old new) ↔ api_kept old new.
Proof.
  unfold diff_api_specs, diff_api. rewrite !passes_app, diff_named_maps_exact.
  unfold diff_types. rewrite (diff_maps_exact _ _ _ fields_kept (λ _, True)).
  2: { intros k v Hp%passes_one. done. }
  2: { intros k v w. apply diff_fields_exact. }
  2: { intros k w. by rewrite passes_one. }
  unfold diff_openapi. rewrite (diff_maps_exact _ _ _ (λ _ _, True) (λ _, True)).
  2: { intros k v Hp%passes_one. done. }
  2: { intros k v w. rewrite passes_if, passes_one. naive_solver. }
  2: { intros k w. by rewrite passes_one. }
  split.
  - intros [[Hr [Ht _]] [Hs _]]. split; [done..|]. intros p [v Hv]. destruct (Hs p v Hv) as (w & Hw & _). by eexists.
  - intros [Hr Ht Hs]. split; [split; [done|split; [done|done]]|split; [|done]].
    intros p v Hv. destruct (Hs p) as [w Hw]; [by eexists|]. by exists w.
Qed.

(** Fields keep their type and the capabilities they had. *)
Definition search_field_kept (f f' : SearchFieldSpec) : Prop :=
  sf_ty f = sf_ty f' ∧ (searchable f = true → searchable f' = true) ∧
  (filterable f = true → filterable f' = true) ∧ (sortable f = true → sortable f' = true).

Lemma capability_passes path c b a : passes (capability_issue path c b a) ↔ (b = true → a = true).
Proof. unfold capability_issue. rewrite passes_if, passes_one. destruct b, a; cbn; naive_solver. Qed.

(** A new version of a search schema passes exactly when the index and its primary
    field are named as before and every field is there with its type and at least the
    capabilities it had. *)
Theorem search_gate_exact old new :
  passes (diff_search_specs old new) ↔
  si_name old = si_name new ∧ primary old = primary new ∧
  ∀ k f, by_key sf_name (si_fields old) !! k = Some f →
    ∃ f', by_key sf_name (si_fields new) !! k = Some f' ∧ search_field_kept f f'.
Proof.
  unfold diff_search_specs, diff_search_fields. rewrite !passes_app, !passes_if, !passes_one, !str_eqb_eq.
  rewrite (diff_maps_exact _ _ _ search_field_kept (λ _, True)).
  - cbn. naive_solver.
  - intros k v Hp%passes_one. done.
  - intros k f f'. rewrite !passes_app, !capability_passes, passes_if, passes_one, bool_decide_eq_true.
    unfold search_field_kept. cbn. naive_solver.
  - intros k w. by rewrite passes_one.
Qed.

(** Columns keep their types; what is new may be left out; indexes and foreign keys are
    the same. *)
Record table_kept (old new : ModelSpec) : Prop :=
  { kept_columns c f : by_key column_name (ms_fields old) !! c = Some f →
      ∃ f', by_key column_name (ms_fields new) !! c = Some f' ∧ mf_ty f = mf_ty f';
    new_columns c f' : by_key column_name (ms_fields new) !! c = Some f' →
      by_key column_name (ms_fields old) !! c = None →
      is_optional_model_type (mf_ty f') = true ∨ is_Some (default_value f');
    same_indexes : by_key ix_name (ms_indexes old) = by_key ix_name (ms_indexes new);
    same_edges : by_key ed_name (ms_edges old) = by_key ed_name (ms_edges new) }.

Lemma by_key_named {A} (key : A → rstr) l k a : by_key key l !! k = Some a → key a = k ∧ a ∈ l.
Proof.
  unfold by_key. induction l as [|x l IH] using rev_ind; [done|]. rewrite foldl_app. cbn.
  rewrite lookup_insert_Some. intros [[<- <-]|[_ ?%IH]]; [|set_solver]. split; [done|]. apply elem_of_app. right. by left.
Qed.

(** Nothing may be removed, changed or added. *)
Lemma diff_maps_same {A} (key : A → rstr) (removed added : rstr → A → list GateIssue) (compare : rstr → A → A → list GateIssue) (l l' : list A) :
  (∀ k v, ¬ passes (removed k v)) → (∀ k v w, key v = key w → passes (compare k v w) ↔ v = w) →
  (∀ k w, ¬ passes (added k w)) →
  passes (diff_maps removed compare added (by_key key l) (by_key key l')) ↔ by_key key l = by_key key l'.
Proof.
  intros Hr Hc Ha. rewrite diff_maps_passes. split.
  - intros [H1 H2]. apply map_eq. intros k. destruct (by_key key l !! k) as [v|] eqn:E.
    + pose proof (H1 k v E) as Hv. destruct (by_key key l' !! k) as [w|] eqn:E'; [|by apply Hr in Hv].
      apply by_key_named in E as [E _]. apply by_key_named in E' as [E' _].
      f_equal. apply (Hc k v w); congruence.
    + destruct (by_key key l' !! k) as [w|] eqn:E'; [|done]. by destruct (Ha k w (H2 k w E' E)).
  - intros Heq. rewrite <- Heq. split.
    + intros k v Hk. rewrite Hk. by apply Hc.
    + intros k w Hk Hn. congruence.
Qed.

Lemma type_change_blocks old new : blocks_release (classify_sql_type_change old new) = true.
Proof. unfold classify_sql_type_change. by repeat case_match. Qed.

(** A new version of an SQL schema passes exactly when every table is there with all its
    columns and their types, new columns of old tables are nullable or have a default,
    and the indexes and foreign keys of every old table are the same. *)
Theorem sql_gate_exact old new :
  passes (diff_sql_models debug old new) ↔
  ∀ t m, by_key ms_table old !! t = Some m → ∃ m', by_key ms_table new !! t = Some m' ∧ table_kept m m'.
Proof.
  unfold diff_sql_models. rewrite (diff_maps_exact _ _ _ table_kept (λ _, True)); [naive_solver|..].
  - intros k v Hp%passes_one. done.
  - intros t m m'. rewrite !passes_app. unfold diff_columns.
    rewrite (diff_maps_exact _ _ _ (λ f f', mf_ty f = mf_ty f')
      (λ f', is_optional_model_type (mf_ty f') = true ∨ is_Some (default_value f'))).
    2: { intros k v Hp%passes_one. done. }
    2: { intros k f f'. rewrite !passes_app, !passes_if, !passes_one, str_eqb_eq. cbn. rewrite type_change_blocks.
         split; [naive_solver|]. intros He. rewrite He. split; [by left|]. split; [|by right].
         destruct (is_optional_model_type (mf_ty f')); by apply passes_nil. }
    2: { intros k f'. rewrite passes_one. destruct (is_optional_model_type (mf_ty f')); [naive_solver|].
         destruct (default_value f'); cbn; [naive_solver|]. split; [done|]. by intros [|[]]. }
    unfold diff_indexes. rewrite diff_maps_same.
    2, 4: intros k v Hp%passes_one; done.
    2: { intros k v w Hk. rewrite passes_if, passes_one, bool_decide_eq_true. destruct v, w; cbn in *. naive_solver. }
    unfold diff_edges. rewrite diff_maps_same.
    2, 4: intros k v Hp%passes_one; done.
    2: { intros k v w Hk. rewrite passes_if, passes_one, bool_decide_eq_true. destruct v, w; cbn in *. naive_solver. }
    split; [intros ([H1 H2] & H3 & H4); by split|intros []; by repeat split].
  - intros k w. by rewrite passes_one.
Qed.
End exact.

(** ** Examples *)

Abbreviation ex_api_gate := (diff_api_specs (Number := Z) id (λ _, None) id (λ _, [])).
Definition ex_id : Field := ex_field (lit "id") (lit "u64") PathSource None.

(** Dropping the rule that makes a field optional makes it required, and passes. *)
Lemma required_change_passes :
  let old := ex_with_fields [ex_id; ex_field (lit "note") (lit "string") Json (Some (lit "optional"))] in
  let new := ex_with_fields [ex_id; ex_field (lit "note") (lit "string") Json None] in
  forallb (λ i, negb (blocks_release (severity i))) (ex_api_gate old new) = true ∧
  forallb (λ i, negb (blocks_release (severity i))) (ex_api_gate (ex_with_fields [ex_id]) new) = false ∧
  is_optional_api_field (ex_field (lit "note") (lit "string") Json (Some (lit "optional"))) = true ∧
  is_optional_api_field (ex_field (lit "note") (lit "string") Json None) = false.
Proof. split_and!; vm_compute; reflexivity. Qed.

(** Of two fields with one wire name, in the header and in the body, only the last is seen:
    removing the first is no change of the types at all. *)
Lemma hidden_field_removed :
  let header := ex_field (lit "token") (lit "string") Header None in
  let body := ex_field (lit "token") (lit "string") Json None in
  let old := ex_with_fields [ex_id; header; {| fd_name := lit "body_token"; fd_ty := fd_ty body; fd_embedded := false;
    fd_json_name := fd_json_name body; fd_source := Json; fd_wire_name := fd_wire_name body; fd_validate := None |}] in
  let new := ex_with_fields [ex_id; body] in
  validate_api_spec old = [] ∧ validate_api_spec new = [] ∧ diff_api id old new = [].
Proof. split_and!; vm_compute; reflexivity. Qed.

Definition ex_search_field (name : rstr) (source : option rstr) (primary : bool) : SearchFieldSpec :=
  {| sf_name := name; source_name := source; sf_ty := Keyword; searchable := false; filterable := false;
     sortable := false; sf_primary := primary |}.

(** Neither the name a field has in the index nor which field is marked primary is compared. *)
Lemma search_changes_unseen :
  let schema a b := {| si_name := lit "products"; primary := lit "uuid"; si_fields := [a; b] |} in
  diff_search_specs
    (schema (ex_search_field (lit "sku") None true) (ex_search_field (lit "title") (Some (lit "Title")) false))
    (schema (ex_search_field (lit "sku") None false) (ex_search_field (lit "title") None true)) = [].
Proof. vm_compute. reflexivity. Qed.
