(* ===== verification/Gate.v ===== *)
(** * The release gate (apps/rozectl/src/gate.rs)

    A manifest's checks, the acknowledgements of their issues with the dates until which
    they hold, and the report. Files and YAML are parameters: reading a path, and what
    the acknowledgement at a path says; so are SHA-256 and the current day. *)

From S2P Require Import Prelude Text Scan Naming ConfigDiff ApiParser Contract OpenApi SearchSchema GateDiff.

(** ** Dates *)

(** [i64] division truncates. *)
Definition days_from_civil (year month day : Z) : Z :=
  let year := (year - (if month <=? 2 then 1 else 0))%Z in
  let era := Z.quot (if 0 <=? year then year else year - 399)%Z 400 in
  let year_of_era := (year - era * 400)%Z in
  let adjusted_month := (month + (if 2 <? month then -3 else 9))%Z in
  let day_of_year := (Z.quot (153 * adjusted_month + 2) 5 + day - 1)%Z in
  let day_of_era := (year_of_era * 365 + Z.quot year_of_era 4 - Z.quot year_of_era 100 + day_of_year)%Z in
  (era * 146097 + day_of_era - 719468)%Z.

(** [value.get(..n)]: the prefix of [n] bytes, if they are whole characters. *)
Fixpoint byte_prefix (n : nat) (s : rstr) : option rstr :=
  match n, s with
  | O, _ => Some []
  | _, [] => None
  | _, c :: s => let k := length (utf8_char c) in if (k <=? n)%nat then cons c <$> byte_prefix (n - k) s else None
  end.

Definition parse_expiry_date (value : rstr) : option Z :=
  date ← byte_prefix 10 value;
  match split_on (N.eqb 45) date with
  | [y; m; d] =>
      year ← parse_i64 y; month ← parse_i64 m; day ← parse_i64 d;
      if (negb (1 <=? month) || negb (month <=? 12) || negb (1 <=? day) || negb (day <=? 31))%Z then None
      else Some (days_from_civil year month day)
  | _ => None
  end.

(** ** Acknowledgements *)

Inductive GateDomain := GateApi | GateSearch | GateSql.
#[export] Instance GateDomain_eq_dec : EqDecision GateDomain.
Proof. solve_decision. Defined.

Record GateAcknowledgement :=
  { ack_version : N; ack_id : rstr; scope : GateDomain; old_digest : rstr; new_digest : rstr; owner : rstr;
    reason : rstr; migration_plan : rstr; rollback_plan : rstr; expires_at : rstr }.

Definition GATE_MANIFEST_VERSION : N := 1.

Definition is_sha256 (value : rstr) : bool :=
  (length (as_bytes value) =? 64)%nat &&
  forallb (λ b, is_ascii_digit b || ((97 <=? b) && (b <=? 102))) (as_bytes value).

Definition blank_field (ack : GateAcknowledgement) : option rstr :=
  find_map (λ nv, if str_is_empty (trim nv.2) then Some nv.1 else None)
    [(lit "id", ack_id ack); (lit "owner", owner ack); (lit "reason", reason ack);
     (lit "migration_plan", migration_plan ack); (lit "rollback_plan", rollback_plan ack)].

Definition ack_error {A} (ack : GateAcknowledgement) (what : rstr) : result rstr A :=
  Err (lit "acknowledgement " ++ ack_id ack ++ lit " " ++ what).

Definition validate_acknowledgement (today : Z) (ack : GateAcknowledgement) : result rstr unit :=
  if negb (ack_version ack =? GATE_MANIFEST_VERSION) then
    ack_error ack (lit "has unsupported version " ++ dec (ack_version ack))
  else match blank_field ack with
  | Some name => ack_error ack (lit "requires non-empty " ++ name)
  | None =>
      if negb (is_sha256 (old_digest ack)) || negb (is_sha256 (new_digest ack)) then
        ack_error ack (lit "requires lowercase SHA-256 digests")
      else match parse_expiry_date (expires_at ack) with
      | None => ack_error ack (lit "expires_at must start with YYYY-MM-DD")
      | Some expiry =>
          if (expiry <? today)%Z then ack_error ack (lit "expired at " ++ expires_at ack) else Ok tt
      end
  end.

(** ** The gate *)

Record GateCheck := { gc_domain : GateDomain; gc_old : rstr; gc_new : rstr }.
Record GateManifest := { gm_version : N; checks : list GateCheck; acknowledgements : list rstr }.

Record GateCheckReport :=
  { rp_domain : GateDomain; rp_old : rstr; rp_new : rstr; rp_old_digest : rstr; rp_new_digest : rstr;
    issues : list GateIssue }.
Record GateReport := { passed : bool; blocking_issues : nat; reports : list GateCheckReport }.

Definition domain_rank (d : GateDomain) : N := match d with GateApi => 0 | GateSearch => 1 | GateSql => 2 end.

(** The order of tuples of strings, and stable sorting. *)
Definition issue_le (a b : GateIssue) : bool :=
  if negb (str_eqb (gi_domain a) (gi_domain b)) then str_leb (gi_domain a) (gi_domain b)
  else if negb (str_eqb (gi_path a) (gi_path b)) then str_leb (gi_path a) (gi_path b)
  else str_leb (gi_code a) (gi_code b).
Definition report_le (a b : GateCheckReport) : bool :=
  if negb (domain_rank (rp_domain a) =? domain_rank (rp_domain b)) then domain_rank (rp_domain a) <=? domain_rank (rp_domain b)
  else if negb (str_eqb (rp_old a) (rp_old b)) then str_leb (rp_old a) (rp_old b)
  else str_leb (rp_new a) (rp_new b).

Fixpoint insert_after {A} (le : A → A → bool) (x : A) (l : list A) : list A :=
  match l with
  | [] => [x]
  | y :: l' => if le y x then y :: insert_after le x l' else x :: l
  end.
Definition stable_sort {A} (le : A → A → bool) (l : list A) : list A := foldl (λ s x, insert_after le x s) [] l.

Definition acknowledge (id : option rstr) (i : GateIssue) : GateIssue :=
  if blocks_release (severity i) then
    {| gi_code := gi_code i; gi_domain := gi_domain i; severity := severity i; gi_path := gi_path i;
       before := before i; after := after i; remediation := remediation i; acknowledged_by := id |}
  else i.

Definition unacknowledged (i : GateIssue) : bool :=
  blocks_release (severity i) && match acknowledged_by i with None => true | Some _ => false end.

(** [resolve(base, path)]: [Path::join] on Unix. *)
Definition resolve (base path : rstr) : rstr :=
  if starts_with (lit "/") path || str_is_empty base then path
  else if ends_with (lit "/") base then base ++ path else base ++ lit "/" ++ path.

Section gate.
Context `{UnicodeCase} {Number : Type} (of_Z : Z → Number) (parse_f64 : rstr → option (option Number)).
Context (debug : rstr → rstr) (canonical_json : @Value Number → rstr) (from_str : rstr → result rstr (@Value Number)).
Context (parse_models : rstr → result rstr (list ModelSpec)).
Context (read : rstr → result rstr rstr) (load_ack : rstr → result rstr GateAcknowledgement).
Context (sha256_hex : list N → rstr) (today : Z).

Definition content_digest (content : rstr) : rstr := sha256_hex (as_bytes content).

(** A parse that needs more fuel than it has never happens; it counts as a failure. *)
Definition parsed_api (what source : rstr) : result rstr ApiSpec :=
  match parse_api source with
  | Some (Ok spec) => Ok spec
  | _ => Err (lit "invalid " ++ what ++ lit " API")
  end.

Definition diff_sources (domain : GateDomain) (old new : rstr) : result rstr (list GateIssue) :=
  match domain with
  | GateApi =>
      old ← parsed_api (lit "old") old; new ← parsed_api (lit "new") new;
      Ok (diff_api_specs of_Z parse_f64 debug canonical_json old new)
  | GateSearch =>
      old ← map_err (λ e, lit "invalid old search schema: " ++ e) (parse_search_schema from_str old);
      new ← map_err (λ e, lit "invalid new search schema: " ++ e) (parse_search_schema from_str new);
      Ok (diff_search_specs old new)
  | GateSql =>
      old ← map_err (λ e, lit "invalid old SQL schema: " ++ e) (parse_models old);
      new ← map_err (λ e, lit "invalid new SQL schema: " ++ e) (parse_models new);
      Ok (diff_sql_models debug old new)
  end.

Definition covers (ack : GateAcknowledgement) (domain : GateDomain) (old new : rstr) : bool :=
  bool_decide (scope ack = domain) && str_eqb (old_digest ack) old && str_eqb (new_digest ack) new.

Definition run_check (acks : list GateAcknowledgement) (base : rstr) (c : GateCheck) : result rstr GateCheckReport :=
  old ← read (resolve base (gc_old c));
  new ← read (resolve base (gc_new c));
  let old_digest := content_digest old in
  let new_digest := content_digest new in
  issues ← diff_sources (gc_domain c) old new;
  let id := find_map (λ a, if covers a (gc_domain c) old_digest new_digest then Some (ack_id a) else None) acks in
  let slashes := replace_char (N.eqb 92) (lit "/") in
  Ok {| rp_domain := gc_domain c; rp_old := slashes (gc_old c); rp_new := slashes (gc_new c);
        rp_old_digest := old_digest; rp_new_digest := new_digest;
        issues := stable_sort issue_le (acknowledge id <$> issues) |}.

Definition load_acknowledgement (base path : rstr) : result rstr GateAcknowledgement :=
  ack ← load_ack (resolve base path);
  _ ← map_err (λ e, lit "invalid acknowledgement " ++ resolve base path ++ lit ": " ++ e)
        (validate_acknowledgement today ack);
  Ok ack.

Definition run_manifest (base : rstr) (manifest : GateManifest) : result rstr GateReport :=
  if negb (gm_version manifest =? GATE_MANIFEST_VERSION) then
    Err (lit "unsupported manifest version " ++ dec (gm_version manifest) ++ lit "; expected 1")
  else match checks manifest with
  | [] => Err (lit "manifest must contain at least one check")
  | cs =>
      acks ← collect (load_acknowledgement base) (acknowledgements manifest);
      reports ← collect (run_check acks base) cs;
      let reports := stable_sort report_le reports in
      let blocking := length (filter (λ i, unacknowledged i = true) (reports ≫= issues)) in
      Ok {| passed := bool_decide (blocking = 0%nat); blocking_issues := blocking; reports := reports |}
  end.

(** [render_markdown]; [severity_text] is [{:?}] of a severity. *)
Definition domain_label (d : GateDomain) : rstr :=
  match d with GateApi => lit "api" | GateSearch => lit "search" | GateSql => lit "sql" end.
Definition severity_text (s : GateSeverity) : rstr :=
  match s with
  | Additive => lit "Additive" | Safe => lit "Safe" | Behavioral => lit "Behavioral" | OnlineRisk => lit "OnlineRisk"
  | BreakingChange => lit "Breaking" | Destructive => lit "Destructive"
  end.
Definition md_issue (i : GateIssue) : rstr :=
  lit "- `" ++ severity_text (severity i) ++ lit "` `" ++ gi_code i ++ lit "` `" ++ gi_path i ++ lit "`" ++
  match acknowledged_by i with Some id => lit "; acknowledged by `" ++ id ++ lit "`" | None => [] end ++
  lit ": " ++ default (lit "<missing>") (before i) ++ lit " -> " ++ default (lit "<missing>") (after i) ++ [10].
Definition md_check (c : GateCheckReport) : rstr :=
  lit "## " ++ domain_label (rp_domain c) ++ lit ": `" ++ rp_old c ++ lit "` -> `" ++ rp_new c ++ lit "`" ++ [10; 10] ++
  lit "- Old digest: `" ++ rp_old_digest c ++ lit "`" ++ [10] ++
  lit "- New digest: `" ++ rp_new_digest c ++ lit "`" ++ [10] ++
  match issues c with
  | [] => lit "- No semantic changes" ++ [10; 10]
  | found => (found ≫= md_issue) ++ [10]
  end.
Definition render_markdown (r : GateReport) : rstr :=
  lit "# Roze Release Gate Report" ++ [10; 10] ++
  lit "Status: **" ++ (if passed r then lit "pass" else lit "blocked") ++ lit "**" ++ [10; 10] ++
  lit "Blocking issues: " ++ dec (N.of_nat (blocking_issues r)) ++ [10; 10] ++ (reports r ≫= md_check).
End gate.

(** ** Dates count days *)

Definition leap (y : Z) : bool := ((y mod 4 =? 0) && (negb (y mod 100 =? 0) || (y mod 400 =? 0)))%Z.
Definition days_in_month (y m : Z) : Z :=
  if bool_decide (m = 2)%Z then (if leap y then 29 else 28)
  else if bool_decide (m = 4 ∨ m = 6 ∨ m = 9 ∨ m = 11)%Z then 30 else 31.
Definition civil (y m d : Z) : Prop := (1 ≤ m ≤ 12 ∧ 1 ≤ d ≤ days_in_month y m)%Z.
(** The day after a day, by the calendar. *)
Definition next_day (y m d : Z) : Z * Z * Z :=
  if (d <? days_in_month y m)%Z then (y, m, d + 1)%Z
  else if (m <? 12)%Z then (y, m + 1, 1)%Z else (y + 1, 1, 1)%Z.

Lemma leap_spec y : (y mod 4 = 0 ∧ (y mod 100 ≠ 0 ∨ y mod 400 = 0) ↔ leap y = true)%Z.
Proof. unfold leap. rewrite andb_true_iff, orb_true_iff, negb_true_iff, !Z.eqb_eq, Z.eqb_neq. done. Qed.

Lemma era_floor y : Z.quot (if 0 <=? y then y else y - 399)%Z 400 = (y / 400)%Z.
Proof.
  destruct (Z.leb_spec 0 y); [by rewrite Z.quot_div_nonneg by lia|].
  rewrite <- (Z.opp_involutive (y - 399)), Z.quot_opp_l, Z.quot_div_nonneg by lia.
  Z.div_mod_to_equations. lia.
Qed.

(** The days before the 1st of March of a year. *)
Definition year_days (y : Z) : Z := (365 * y + y / 4 - y / 100 + y / 400)%Z.
Lemma days_from_civil_unfold year month day :
  days_from_civil year month day =
  (year_days (year - (if month <=? 2 then 1 else 0)) +
   (Z.quot (153 * (month + (if 2 <? month then -3 else 9)) + 2) 5 + day - 1) - 719468)%Z.
Proof.
  unfold days_from_civil, year_days. rewrite era_floor. set (y := (year - _)%Z).
  rewrite !(Z.quot_div_nonneg (y - _)) by (Z.div_mod_to_equations; lia).
  generalize (Z.quot (153 * (month + (if 2 <? month then -3 else 9)) + 2) 5)%Z. intros q.
  clearbody y. clear year month. Z.div_mod_to_equations. lia.
Qed.

Lemma year_days_next y : year_days y = (year_days (y - 1) + 365 + (if leap y then 1 else 0))%Z.
Proof.
  unfold year_days. pose proof (leap_spec y). destruct (leap y); Z.div_mod_to_equations; lia.
Qed.

(** Sums and quotients of numbers are computed. *)
Ltac eval_months :=
  repeat match goal with
  | |- context [Z.add (Zpos ?a) (Zpos ?b)] =>
      let v := eval vm_compute in (Z.add (Zpos a) (Zpos b)) in change (Z.add (Zpos a) (Zpos b)) with v
  | |- context [Z.quot ?a 5] => let v := eval vm_compute in (Z.quot a 5) in change (Z.quot a 5) with v
  end.

(** Days are counted by the calendar: the day after a day of any year has the next
    number, and the 1st of January 1970 has number 0. *)
Theorem days_follow_calendar y m d :
  days_from_civil 1970 1 1 = 0%Z ∧
  (civil y m d → let '(y', m', d') := next_day y m d in
     civil y' m' d' ∧ days_from_civil y' m' d' = (days_from_civil y m d + 1)%Z).
Proof.
  split; [reflexivity|]. intros [Hm Hd]. unfold next_day. destruct (Z.ltb_spec d (days_in_month y m)) as [Hl|Hl].
  { split; [unfold civil; lia|]. rewrite !days_from_civil_unfold. lia. }
  assert (d = days_in_month y m) as -> by lia. clear Hd Hl.
  assert (m = 1 ∨ m = 2 ∨ m = 3 ∨ m = 4 ∨ m = 5 ∨ m = 6 ∨ m = 7 ∨ m = 8 ∨ m = 9 ∨ m = 10 ∨ m = 11 ∨ m = 12)%Z
    as Hc by lia. clear Hm.
  rewrite days_from_civil_unfold. pose proof (year_days_next y) as Hy.
  repeat (destruct Hc as [-> |Hc]); [..|subst m]; cbn [Z.ltb Z.compare Pos.compare Pos.compare_cont];
    eval_months; rewrite days_from_civil_unfold;
    (split; [unfold civil, days_in_month; cbn; repeat case_match; lia|]);
    cbn; eval_months; rewrite ?Z.sub_0_r, ?Z.add_simpl_r; unfold days_in_month;
    repeat case_bool_decide; try destruct (leap y); lia.
Qed.

Lemma days_follow_calendar_witness :
  days_from_civil 2024 3 1 = (days_from_civil 2024 2 29 + 1)%Z.
Proof.
  assert (civil 2024 2 29) as H by (split; vm_compute; split; intros ?; discriminate).
  exact (proj2 (proj2 (days_follow_calendar 2024 2 29) H)).
Defined.

(** ** Sorting keeps the elements *)

Lemma insert_after_perm {A} (le : A → A → bool) x l : insert_after le x l ≡ₚ x :: l.
Proof. induction l as [|y l IH]; cbn; [done|]. destruct (le y x); [|done]. rewrite IH. apply perm_swap. Qed.
Lemma stable_sort_perm {A} (le : A → A → bool) l : stable_sort le l ≡ₚ l.
Proof.
  unfold stable_sort. induction l as [|x l IH] using rev_ind; [done|]. rewrite foldl_app. cbn.
  by rewrite insert_after_perm, IH, Permutation_cons_append.
Qed.

Lemma find_map_is_Some {A B} (f : A → option B) l : is_Some (find_map f l) ↔ ∃ a, a ∈ l ∧ is_Some (f a).
Proof.
  split; [intros [b Hb]; destruct (find_map_Some f l b Hb) as (a & ? & ?); by eexists|].
  intros (a & Ha & Hf). induction l as [|x l IH]; [by apply elem_of_nil in Ha|]. cbn.
  destruct (f x) as [b|] eqn:E; [by eexists|]. apply elem_of_cons in Ha as [->|Ha]; [|by apply IH].
  rewrite E in Hf. by destruct Hf.
Qed.

(** ** What an acknowledgement must say *)

Lemma no_blank `{UnicodeCase} (l : list (rstr * rstr)) :
  find_map (λ nv, if str_is_empty (trim nv.2) then Some nv.1 else None) l = None ↔ Forall (λ nv, trim nv.2 ≠ []) l.
Proof.
  induction l as [|[n v] l IH]; [by split; constructor|]. rewrite Forall_cons, <- IH. cbn [find_map fst snd].
  destruct (trim v); cbn [str_is_empty]; naive_solver.
Qed.

(** An acknowledgement is accepted exactly when it is of the known version, its id,
    owner, reason, migration plan and rollback plan are not blank, its digests are 64
    lowercase hexadecimal digits, and the day it expires at is today or later. *)
Theorem acknowledgement_accepted `{UnicodeCase} today ack :
  validate_acknowledgement today ack = Ok tt ↔
  ack_version ack = GATE_MANIFEST_VERSION ∧
  Forall (λ text, trim text ≠ []) [ack_id ack; owner ack; reason ack; migration_plan ack; rollback_plan ack] ∧
  is_sha256 (old_digest ack) = true ∧ is_sha256 (new_digest ack) = true ∧
  ∃ expiry, parse_expiry_date (expires_at ack) = Some expiry ∧ (today ≤ expiry)%Z.
Proof.
  unfold validate_acknowledgement, ack_error. destruct (N.eqb_spec (ack_version ack) GATE_MANIFEST_VERSION) as [Hv|]; cbn [negb].
  2: by split; [|intros []].
  assert (blank_field ack = None ↔
    Forall (λ text, trim text ≠ []) [ack_id ack; owner ack; reason ack; migration_plan ack; rollback_plan ack]) as Hb.
  { unfold blank_field. rewrite no_blank, !Forall_cons. cbn [fst snd]. by rewrite !Forall_nil. }
  destruct (blank_field ack).
  { split; [done|]. intros (_ & HF%Hb & _). done. }
  destruct (is_sha256 (old_digest ack)) eqn:?, (is_sha256 (new_digest ack)) eqn:?; cbn [negb orb];
    [|split; [done|by intros (_ & _ & ? & ? & _)]..].
  destruct (parse_expiry_date (expires_at ack)) as [e|]; [|split; [done|by intros (_ & _ & _ & _ & ? & ? & _)]].
  destruct (Z.ltb_spec e today); split; [done| |intros _|done].
  - intros (_ & _ & _ & _ & e' & [= <-] & ?). lia.
  - split_and!; [done|by apply Hb|done..|]. by exists e.
Qed.

(** ** What the gate decides *)

Section decides.
Context `{UnicodeCase} {Number : Type} (of_Z : Z → Number) (parse_f64 : rstr → option (option Number)).
Context (debug : rstr → rstr) (canonical_json : @Value Number → rstr) (from_str : rstr → result rstr (@Value Number)).
Context (parse_models : rstr → result rstr (list ModelSpec)).
Context (read : rstr → result rstr rstr) (load_ack : rstr → result rstr GateAcknowledgement).
Context (sha256_hex : list N → rstr) (today : Z).

Abbreviation diff := (diff_sources of_Z parse_f64 debug canonical_json from_str parse_models).
Abbreviation digest := (content_digest sha256_hex).
Abbreviation load := (load_acknowledgement load_ack today).
Abbreviation check_of := (run_check of_Z parse_f64 debug canonical_json from_str parse_models read sha256_hex).
Abbreviation run := (run_manifest of_Z parse_f64 debug canonical_json from_str parse_models read load_ack sha256_hex today).

(** The findings that block a release. *)
#[local] Instance GateSeverity_eq_dec : EqDecision GateSeverity.
Proof. solve_decision. Defined.
Definition release_blockers (l : list GateIssue) : nat :=
  length (filter (λ i, severity i = OnlineRisk ∨ severity i = BreakingChange ∨ severity i = Destructive) l).

(** An acknowledgement in force today. *)
Definition in_force (ack : GateAcknowledgement) : Prop :=
  ack_version ack = GATE_MANIFEST_VERSION ∧
  Forall (λ text, trim text ≠ []) [ack_id ack; owner ack; reason ack; migration_plan ack; rollback_plan ack] ∧
  is_sha256 (old_digest ack) = true ∧ is_sha256 (new_digest ack) = true ∧
  ∃ expiry, parse_expiry_date (expires_at ack) = Some expiry ∧ (today ≤ expiry)%Z.

(** One of the listed acknowledgements is in force and is for these very contents. *)
Definition acknowledged (base : rstr) (paths : list rstr) (domain : GateDomain) (old new : rstr) : Prop :=
  ∃ path ack, path ∈ paths ∧ load_ack (resolve base path) = Ok ack ∧ in_force ack ∧
    scope ack = domain ∧ old_digest ack = sha256_hex (as_bytes old) ∧ new_digest ack = sha256_hex (as_bytes new).

(** A check blocks with [n] of its findings: with none if its contents are acknowledged. *)
Definition check_blocks (base : rstr) (paths : list rstr) (c : GateCheck) (n : nat) : Prop :=
  ∃ old new found, read (resolve base (gc_old c)) = Ok old ∧ read (resolve base (gc_new c)) = Ok new ∧
    diff (gc_domain c) old new = Ok found ∧
    (acknowledged base paths (gc_domain c) old new → n = 0%nat) ∧
    (¬ acknowledged base paths (gc_domain c) old new → n = release_blockers found).

Lemma unacknowledged_acknowledge id i :
  unacknowledged (acknowledge id i) = true ↔ blocks_release (severity i) = true ∧ (id = None).
Proof.
  unfold unacknowledged, acknowledge. destruct (blocks_release (severity i)) eqn:E; cbn [severity acknowledged_by]; rewrite E.
  - destruct id; cbn; split; [done|by intros [_ ?]|done|done].
  - split; [done|by intros [? _]].
Qed.

Definition blocking (l : list GateIssue) : nat := length (filter (λ i, unacknowledged i = true) l).

Lemma severity_blocks s : blocks_release s = true ↔ s = OnlineRisk ∨ s = BreakingChange ∨ s = Destructive.
Proof. destruct s; cbn; (split; [auto|]); try done; by intros [|[|]]. Qed.

Lemma blocking_acknowledge id found :
  blocking (acknowledge id <$> found) = match id with None => release_blockers found | Some _ => 0%nat end.
Proof.
  unfold blocking, release_blockers. induction found as [|i found IH]; [by destruct id|].
  rewrite fmap_cons, !filter_cons. pose proof (unacknowledged_acknowledge id i) as Hi. destruct id as [id|].
  - rewrite decide_False by (by intros [_ ?]%Hi). exact IH.
  - rewrite severity_blocks in Hi. destruct (decide (unacknowledged (acknowledge None i) = true)) as [Hd|Hd].
    + rewrite decide_True by by apply Hi. cbn [length]. by rewrite IH.
    + rewrite decide_False by (intros Hs; by apply Hd, Hi). exact IH.
Qed.

Lemma blocking_reports rs : blocking (rs ≫= issues) = sum_list ((λ r, blocking (issues r)) <$> rs).
Proof.
  unfold blocking. induction rs as [|r rs IH]; [done|]. cbn. rewrite filter_app, length_app. by rewrite <- IH.
Qed.

Lemma blocking_sorted {A} (le : A → A → bool) f (l : list A) : blocking (stable_sort le l ≫= f) = blocking (l ≫= f).
Proof. unfold blocking. by rewrite stable_sort_perm. Qed.

Lemma load_Ok base path ack :
  load base path = Ok ack ↔ load_ack (resolve base path) = Ok ack ∧ validate_acknowledgement today ack = Ok tt.
Proof.
  unfold load_acknowledgement. destruct (load_ack (resolve base path)) as [a|]; [|by split; [|intros [??]]].
  cbn [mbind result_bind]. destruct (validate_acknowledgement today a) as [[]|] eqn:E; split.
  - intros [= <-]. done.
  - by intros [[= <-] _].
  - done.
  - intros [[= <-] Hv]. congruence.
Qed.

Lemma loaded base paths acks ack :
  collect (load base) paths = Ok acks → ack ∈ acks ↔ ∃ path, path ∈ paths ∧ load base path = Ok ack.
Proof.
  intros HF%collect_Forall2. induction HF as [|path a paths acks Ha HF IH].
  - split; [by intros ?%elem_of_nil|]. by intros (p & ?%elem_of_nil & _).
  - rewrite elem_of_cons, IH. setoid_rewrite elem_of_cons. split.
    + intros [->|(p & ? & ?)]; [by exists path; eauto|by exists p; eauto].
    + intros (p & [->|Hp] & Hl); [left; congruence|right; eauto].
Qed.

Lemma covering_acknowledged base paths acks domain old new :
  collect (load base) paths = Ok acks →
  is_Some (find_map (λ a, if covers a domain (digest old) (digest new) then Some (ack_id a) else None) acks) ↔
  acknowledged base paths domain old new.
Proof.
  intros Hacks. rewrite find_map_is_Some. unfold acknowledged. split.
  - intros (a & Ha & Hs). destruct (covers a domain _ _) eqn:Hc; [|by destruct Hs].
    apply (loaded _ _ _ _ Hacks) in Ha as (path & ? & [? Hv]%load_Ok). exists path, a.
    unfold covers in Hc. apply andb_true_iff in Hc as [[Hs' Ho]%andb_true_iff Hn].
    apply bool_decide_eq_true in Hs'. apply str_eqb_eq in Ho, Hn. split_and!; try done. by apply acknowledgement_accepted.
  - intros (path & a & Hp & Hl & Hv & Hs & Ho & Hn). exists a.
    split; [apply (loaded _ _ _ _ Hacks); exists path; split; [done|by apply load_Ok; split; [|apply acknowledgement_accepted]]|].
    unfold covers, content_digest. rewrite bool_decide_true, Ho, Hn, !str_eqb_refl by done. done.
Qed.

Lemma check_of_blocks base paths acks c r :
  collect (load base) paths = Ok acks → check_of acks base c = Ok r → check_blocks base paths c (blocking (issues r)).
Proof.
  intros Hacks (old & Ho & (new & Hn & (found & Hd & [= <-])%bind_Ok)%bind_Ok)%bind_Ok. cbn [issues].
  exists old, new, found. do 3 (split; [done|]).
  unfold blocking at 1 2. rewrite stable_sort_perm. fold (blocking (acknowledge (find_map
    (λ a, if covers a (gc_domain c) (digest old) (digest new) then Some (ack_id a) else None) acks) <$> found)).
  rewrite blocking_acknowledge.
  rewrite <- (covering_acknowledged base paths acks) by done. split.
  - by intros [id ->].
  - intros Hno. by destruct (find_map _ acks); [destruct Hno|].
Qed.

(** C38: When a manifest can be run, the gate counts exactly what blocks: for each check,
    the findings between its two contents that are online risks, breaking or destructive,
    or none of them if a listed acknowledgement in force today is for the check's domain
    and the SHA-256 digests of these very contents. It passes exactly when that is none
    for every check. The report has one entry per check. *)
Theorem gate_decides base manifest report :
  run base manifest = Ok report →
  (∃ ns, Forall2 (check_blocks base (acknowledgements manifest)) (checks manifest) ns ∧
     blocking_issues report = sum_list ns ∧ (passed report = true ↔ Forall (λ n, n = 0%nat) ns)) ∧
  (passed report = true ↔ blocking_issues report = 0%nat) ∧
  length (reports report) = length (checks manifest).
Proof.
  unfold run_manifest. destruct (gm_version manifest =? _); [|done]. cbn [negb].
  destruct (checks manifest) as [|c0 cs0] eqn:Ec; [done|]. rewrite <- Ec. clear c0 cs0 Ec.
  intros (acks & Hacks & (rs & Hrs & [= <-])%bind_Ok)%bind_Ok. cbn [passed blocking_issues reports].
  rewrite bool_decide_eq_true, stable_sort_perm. fold (blocking (stable_sort report_le rs ≫= issues)).
  rewrite blocking_sorted, blocking_reports. apply collect_Forall2 in Hrs. split_and!; [|done|by apply Forall2_length in Hrs].
  exists ((λ r, blocking (issues r)) <$> rs). split_and!; [|done|].
  - apply Forall2_fmap_r. eapply Forall2_impl; [exact Hrs|]. intros c r Hr. by eapply check_of_blocks.
  - rewrite bool_decide_eq_true. generalize ((λ r, blocking (issues r)) <$> rs). clear. intros ns.
    induction ns as [|n ns IH]; [by split; [constructor|]|]. rewrite Forall_cons, <- IH. cbn. lia.
Qed.
End decides.

(** ** Examples *)

Definition ex_gate_read (path : rstr) : result rstr rstr :=
  if str_eqb path (lit "release/old.search")
  then Ok (lit "index products" ++ [10] ++ lit "primary id" ++ [10] ++ lit "field id keyword" ++ [10] ++ lit "field title text")
  else if str_eqb path (lit "release/new.search")
  then Ok (lit "index products" ++ [10] ++ lit "primary id" ++ [10] ++ lit "field id keyword")
  else Err (lit "no file").
Definition ex_digest : rstr := repeat 97 64.
Definition ex_ack (date : rstr) : GateAcknowledgement :=
  {| ack_version := 1; ack_id := lit "drop-title"; scope := GateSearch; old_digest := ex_digest; new_digest := ex_digest;
     owner := lit "search"; reason := lit "unused"; migration_plan := lit "none"; rollback_plan := lit "reindex";
     expires_at := date |}.
Definition ex_gate_load (path : rstr) : result rstr GateAcknowledgement :=
  if str_eqb path (lit "release/ack.yaml") then Ok (ex_ack (lit "2026-02-01T00:00:00Z")) else Err (lit "no file").
Definition ex_manifest (acks : list rstr) : GateManifest :=
  {| gm_version := 1; acknowledgements := acks;
     checks := [{| gc_domain := GateSearch; gc_old := lit "old.search"; gc_new := lit "new.search" |}] |}.
Abbreviation ex_run today acks :=
  (run_manifest (Number := N) Z.to_N (λ _, None) id (λ _, []) (λ _, Err []) (λ _, Err []) ex_gate_read ex_gate_load
     (λ _, ex_digest) today (lit "release") (ex_manifest acks)).

(** The release is blocked, or acknowledged until the day it expires. *)
Lemma ex_acknowledged :
  (∃ r, ex_run 20485%Z [] = Ok r ∧ passed r = false ∧ blocking_issues r = 1%nat) ∧
  (∃ r, ex_run 20485%Z [lit "ack.yaml"] = Ok r ∧ passed r = true) ∧
  is_ok (ex_run 20486%Z [lit "ack.yaml"]) = false.
Proof. split_and!; [eexists; split; [vm_compute; reflexivity|split; reflexivity]..|vm_compute; reflexivity]. Qed.

Definition ex_report : GateReport :=
  match ex_run 20485%Z [lit "ack.yaml"] with
  | Ok r => r
  | Err _ => {| passed := false; blocking_issues := 0; reports := [] |}
  end.

Lemma gate_decides_witness :
  Forall (λ c, check_blocks (Number := N) Z.to_N (λ _, None) id (λ _, []) (λ _, Err []) (λ _, Err []) ex_gate_read ex_gate_load
            (λ _, ex_digest) 20485%Z (lit "release") [lit "ack.yaml"] c 0) (checks (ex_manifest [])).
Proof.
  assert (ex_run 20485%Z [lit "ack.yaml"] = Ok ex_report) as H by (vm_compute; reflexivity).
  pose proof (gate_decides _ _ _ _ _ _ _ _ _ _ _ _ _ H) as [(ns & HF & _ & [Hp _]) _].
  specialize (Hp eq_refl). cbn in HF. inversion HF as [|c n cs ns' Hc Hcs]; subst. inversion Hcs; subst.
  apply Forall_cons in Hp as [-> _]. constructor; [exact Hc|constructor].
Defined.

(** What the report says of it, as Markdown. *)
Lemma ex_report_text :
  firstn 3 (split_on (N.eqb 10) (render_markdown ex_report)) =
  [lit "# Roze Release Gate Report"; []; lit "Status: **pass**"].
Proof. vm_compute. reflexivity. Qed.

(** A day that no month has is a date, of the month after. *)
Lemma date_past_month :
  parse_expiry_date (lit "2026-02-31") = parse_expiry_date (lit "2026-03-03") ∧
  is_Some (parse_expiry_date (lit "2026-02-31")).
Proof. split; [vm_compute; reflexivity|eexists; vm_compute; reflexivity]. Qed.
