(* ===== verification/Jump.v ===== *)
(** * Jump consistent hashing (roze-db/src/lib.rs)

    [fnv1a64] and [jump_consistent_hash], whose step multiplies and divides [f64]
    numbers. The rounding of these operations is analysed below: below 2^22 buckets
    the truncated quotients are exactly the integer ones. *)

From S2P Require Import Prelude Text Float64.
From Stdlib Require Import SpecFloat.

(** ** Definitions *)

Definition FNV_OFFSET : N := 0xcbf29ce484222325.
Definition FNV_PRIME : N := 0x100000001b3.
Definition fnv1a64 (bytes : list N) : N :=
  foldl (λ hash byte, wrap 64 (N.lxor hash byte * FNV_PRIME)) FNV_OFFSET bytes.

(** [as f64] on an [i64], and [as i64] on an [f64]: truncation, saturating. *)
Definition f64_of_Z (z : Z) : f64 := binary_normalize f64_prec f64_emax z 0 false.
Definition f64_trunc (m : positive) (e : Z) : Z := if (0 <=? e)%Z then (Zpos m * 2 ^ e)%Z else (Zpos m / 2 ^ (- e))%Z.
Definition f64_to_i64 (x : f64) : Z :=
  match x with
  | S754_zero _ | S754_nan => 0%Z
  | S754_infinity s => if s then I64_MIN else I64_MAX
  | S754_finite s m e =>
      let t := f64_trunc m e in
      if s then Z.max I64_MIN (- t) else Z.min I64_MAX t
  end.

Definition next_key (key : N) : N := wrap 64 (wrap 64 (key * 2862933555777941757) + 1).
Definition next_candidate (key : N) (previous : Z) : Z :=
  f64_to_i64 (f64_div (f64_mul (f64_of_Z (previous + 1)) (f64_of_N (N.shiftl 1 31))) (f64_of_N (N.shiftr key 33 + 1))).

Fixpoint jump_loop (step : N → Z → Z) (fuel : nat) (key : N) (previous candidate buckets : Z) : option Z :=
  match fuel with
  | O => None
  | S fuel =>
      if (candidate <? buckets)%Z
      then let key := next_key key in jump_loop step fuel key candidate (step key candidate) buckets
      else Some previous
  end.

(** The candidates increase, so that there are at most [buckets] rounds. *)
Definition jump_consistent_hash (key : N) (buckets : Z) : option Z :=
  jump_loop next_candidate (S (Z.to_nat buckets)) key (-1) 0 buckets.

(** The same with integer division. *)
Definition exact_candidate (key : N) (previous : Z) : Z := ((previous + 1) * 2 ^ 31 / (Z.of_N (N.shiftr key 33) + 1))%Z.
Definition jump_exact (key : N) (buckets : Z) : option Z :=
  jump_loop exact_candidate (S (Z.to_nat buckets)) key (-1) 0 buckets.


(** ** Rounding *)

Section rounding.
Local Open Scope Z_scope.

Lemma digits_log2 p : Zpos (digits2_pos p) = Z.log2 (Zpos p) + 1.
Proof.
  assert (digits2_pos p = Pos.size p) as -> by (induction p; cbn; congruence).
  destruct p; cbn; lia.
Qed.
Lemma Zdigits_log2 q : 0 < q → Zdigits2 q = Z.log2 q + 1.
Proof. destruct q as [|p|p]; [lia|intros _; apply digits_log2|lia]. Qed.
Lemma digits_of q d : 2 ^ (d - 1) ≤ q < 2 ^ d → 0 < d → Zdigits2 q = d.
Proof.
  intros Hq Hd. assert (0 < q) by (pose proof (Z.pow_pos_nonneg 2 (d - 1)); lia).
  rewrite Zdigits_log2 by done. rewrite (Z.log2_unique q (d - 1)); [lia|lia|].
  by replace (Z.succ (d - 1)) with d by lia.
Qed.

(** A quotient of 53 binary digits is rounded by its location alone; one of 54 loses a digit. *)
Definition up (l : location) : Prop := l = loc_Inexact Eq ∨ l = loc_Inexact Gt.

Lemma shr_fexp_none q e l :
  2 ^ 52 ≤ q < 2 ^ 53 → -1074 ≤ e → shr_fexp f64_prec f64_emax q e l = (shr_record_of_loc q l, e).
Proof.
  intros Hq He. unfold shr_fexp. rewrite (digits_of q 53) by lia. unfold fexp, emin, f64_prec, f64_emax.
  replace (Z.max (53 + e - 53) (3 - 1024 - 53) - e) with 0 by lia. done.
Qed.
Lemma shr_fexp_one q e l :
  2 ^ 53 ≤ q < 2 ^ 54 → -1074 ≤ e → shr_fexp f64_prec f64_emax q e l = (shr_1 (shr_record_of_loc q l), e + 1).
Proof.
  intros Hq He. unfold shr_fexp. rewrite (digits_of q 54) by lia. unfold fexp, emin, f64_prec, f64_emax.
  replace (Z.max (54 + e - 53) (3 - 1024 - 53) - e) with 1 by lia. done.
Qed.

Lemma loc_record q l : shr_m (shr_record_of_loc q l) = q ∧ loc_of_shr_record (shr_record_of_loc q l) = l.
Proof. by destruct l as [|[]]. Qed.

(** The second rounding step only carries. *)
Lemma round_carry M e :
  2 ^ 52 ≤ M ≤ 2 ^ 53 → -1074 ≤ e → e < 970 →
  ∃ m e'', (let '(mrs, e'') := shr_fexp f64_prec f64_emax M e loc_Exact in
            match shr_m mrs with
            | Z0 => S754_zero false
            | Zpos m => if Z.leb e'' (f64_emax - f64_prec) then S754_finite false m e'' else S754_infinity false
            | Zneg _ => S754_nan
            end) = S754_finite false m e'' ∧
    2 ^ 52 ≤ Zpos m < 2 ^ 53 ∧ e ≤ e'' ≤ e + 1 ∧ Zpos m * 2 ^ (e'' - e) = M.
Proof.
  intros HM He He'. destruct (Z.eq_dec M (2 ^ 53)) as [->|Hn].
  - exists 4503599627370496%positive, (e + 1). rewrite shr_fexp_one by lia. cbn.
    rewrite (proj2 (Z.leb_le _ _)) by (unfold f64_emax, f64_prec; lia).
    split_and!; [done|lia..|]. replace (e + 1 - e) with 1 by lia. done.
  - rewrite shr_fexp_none by lia. cbn. destruct M as [|m|m]; [lia| |lia]. exists m, e.
    rewrite (proj2 (Z.leb_le _ _)) by (unfold f64_emax, f64_prec; lia).
    split_and!; [done|lia..|]. rewrite Z.sub_diag. lia.
Qed.

Lemma shr_1_parity q l (mrs := shr_1 (shr_record_of_loc q l)) :
  0 < q → shr_m mrs = q / 2 ∧
  (loc_of_shr_record mrs = loc_Exact ∨ loc_of_shr_record mrs = loc_Inexact Lt ∨
   Z.odd q = true ∧ up (loc_of_shr_record mrs)).
Proof.
  intros Hq. subst mrs. unfold up. destruct q as [|[p|p|]|]; try lia; (split; [|destruct l as [|[]]; cbn; tauto]).
  - transitivity (Zpos p); [by destruct l as [|[]]|]. rewrite Pos2Z.inj_xI. Z.div_mod_to_equations. lia.
  - transitivity (Zpos p); [by destruct l as [|[]]|]. rewrite Pos2Z.inj_xO. Z.div_mod_to_equations. lia.
  - by destruct l as [|[]].
Qed.

Lemma rounded_near m l : (round_nearest_even m l = m) ∨ (round_nearest_even m l = m + 1 ∧ up l).
Proof. unfold up. destruct l as [|[]]; cbn; [tauto| |tauto|tauto]. destruct (Z.even m); tauto. Qed.

Definition rounded (q : Z) (l : location) (W : Z) : Prop :=
  (q < 2 ^ 53 ∧ (W = q ∨ (W = q + 1 ∧ up l))) ∨
  (2 ^ 53 ≤ q ∧ (W = 2 * (q / 2) ∨ (W = q + 1 ∧ Z.odd q = true))).

Lemma binary_round_near q e l :
  2 ^ 52 ≤ q < 2 ^ 54 → -1074 ≤ e → e < 960 →
  ∃ m e'', binary_round_aux f64_prec f64_emax false q e l = S754_finite false m e'' ∧
    2 ^ 52 ≤ Zpos m < 2 ^ 53 ∧ e ≤ e'' ∧ rounded q l (Zpos m * 2 ^ (e'' - e)).
Proof.
  intros Hq He He'. unfold binary_round_aux, rounded. destruct (Z_lt_le_dec q (2 ^ 53)) as [Hl|Hl].
  - rewrite shr_fexp_none by lia. destruct (loc_record q l) as [-> ->].
    destruct (round_carry (round_nearest_even q l) e) as (m & e'' & -> & ? & ? & HW); [|done|lia|].
    { destruct (rounded_near q l) as [->|[-> _]]; lia. }
    exists m, e''. split_and!; [done|lia..|]. left. split; [done|]. rewrite HW. apply rounded_near.
  - rewrite shr_fexp_one by lia. destruct (shr_1_parity q l) as [-> Hloc]; [lia|].
    assert (2 ^ 52 ≤ q / 2 < 2 ^ 53) as Hh by (Z.div_mod_to_equations; lia).
    set (lc := loc_of_shr_record _) in *.
    destruct (round_carry (round_nearest_even (q / 2) lc) (e + 1)) as (m & e'' & -> & ? & ? & HW); [|lia..|].
    { destruct (rounded_near (q / 2) lc) as [->|[-> _]]; lia. }
    exists m, e''. split_and!; [done|lia..|]. right. split; [done|].
    replace (e'' - e) with (1 + (e'' - (e + 1))) by lia. rewrite Z.pow_add_r by lia.
    replace (Zpos m * (2 ^ 1 * 2 ^ (e'' - (e + 1)))) with (2 * (Zpos m * 2 ^ (e'' - (e + 1)))) by ring. rewrite HW.
    destruct Hloc as [Hloc|[Hloc|[Ho Hup]]]; [rewrite Hloc; cbn; tauto..|].
    destruct (rounded_near (q / 2) lc) as [->|[-> _]]; [tauto|]. right. split; [|done].
    apply Z.odd_spec in Ho as [k ->]. Z.div_mod_to_equations. lia.
Qed.

(** ** Integers as numbers *)

Definition scaled (n : Z) (x : f64) : Prop :=
  ∃ m a, x = S754_finite false m (- a) ∧ 0 ≤ a ≤ 52 ∧ Zpos m = n * 2 ^ a ∧ 2 ^ 52 ≤ Zpos m < 2 ^ 53.

Lemma round_exact m e :
  2 ^ 52 ≤ Zpos m < 2 ^ 53 → -1074 ≤ e → e < 960 →
  binary_round_aux f64_prec f64_emax false (Zpos m) e loc_Exact = S754_finite false m e.
Proof.
  intros Hm He He'. unfold binary_round_aux. rewrite shr_fexp_none by lia. cbn -[shr_fexp].
  rewrite shr_fexp_none by lia. cbn. rewrite (proj2 (Z.leb_le _ _)) by (unfold f64_emax, f64_prec; lia). done.
Qed.

Lemma iter_xO m k : Zpos (Pos.iter xO m k) = Zpos m * 2 ^ Zpos k.
Proof.
  induction k as [|k IH] using Pos.peano_ind; [cbn; lia|]. rewrite Pos.iter_succ, Pos2Z.inj_xO, IH.
  rewrite Pos2Z.inj_succ, Z.pow_succ_r by lia. ring.
Qed.

Lemma f64_of_Z_scaled n : 0 < n < 2 ^ 53 → scaled n (f64_of_Z n).
Proof.
  intros Hn. unfold scaled, f64_of_Z. destruct n as [|n|n]; [lia| |lia]. cbn [binary_normalize]. unfold binary_round.
  set (d := Z.log2 (Zpos n)). rewrite digits_log2. fold d.
  assert (0 ≤ d < 53) as Hd by (subst d; pose proof (Z.log2_nonneg (Zpos n)); pose proof (Z.log2_lt_pow2 (Zpos n) 53); lia).
  assert (2 ^ d ≤ Zpos n < 2 ^ (d + 1)) as Hnd by (subst d; apply Z.log2_spec; lia).
  unfold fexp, emin, f64_prec, f64_emax. rewrite Z.add_0_r, Z.max_l by lia.
  unfold shl_align. rewrite Z.sub_0_r. destruct (Z.eq_dec d 52) as [H52|H52].
  - replace (d + 1 - 53) with 0 by lia. exists n, 0. rewrite H52 in Hnd.
    pose proof (round_exact n 0) as Hr. unfold f64_prec, f64_emax in Hr. rewrite Hr by lia.
    split_and!; [done|lia..].
  - destruct (d + 1 - 53) as [|k|k] eqn:Ek; [lia|lia|].
    assert (Zpos k = 52 - d) as Hk by lia.
    assert (Zpos (Pos.iter xO n k) = Zpos n * 2 ^ (52 - d)) as Hm by (by rewrite iter_xO, Hk).
    assert (2 ^ 52 ≤ Zpos (Pos.iter xO n k) < 2 ^ 53) as Hb.
    { rewrite Hm. replace (2 ^ 52) with (2 ^ d * 2 ^ (52 - d)) by (rewrite <- Z.pow_add_r by lia; f_equal; lia).
      replace (2 ^ 53) with (2 ^ (d + 1) * 2 ^ (52 - d)) by (rewrite <- Z.pow_add_r by lia; f_equal; lia).
      pose proof (Z.pow_pos_nonneg 2 (52 - d)). nia. }
    pose proof (round_exact (Pos.iter xO n k) (Zneg k)) as Hr. unfold f64_prec, f64_emax in Hr.
    exists (Pos.iter xO n k), (52 - d). rewrite Hr by lia. split_and!; [f_equal; lia|lia..].
Qed.

(** ** The product by 2^31 *)

Lemma shr_shifted m k :
  iter_pos shr_1 k {| shr_m := Zpos (Pos.iter xO m k); shr_r := false; shr_s := false |} =
  {| shr_m := Zpos m; shr_r := false; shr_s := false |}.
Proof.
  assert (∀ A (f : A → A) n x, SpecFloat.iter_pos f n x = Pos.iter f x n) as Hiter.
  { intros A f n. induction n as [n IH|n IH|]; intros x; cbn; rewrite ?IH; [|done..].
    by rewrite <- !Pos.iter_swap. }
  rewrite Hiter. induction k as [|k IH] using Pos.peano_ind; [done|].
  rewrite Pos.iter_succ_r, Pos.iter_succ. cbn. exact IH.
Qed.

Lemma mul_shift m a :
  2 ^ 52 ≤ Zpos m < 2 ^ 53 → 0 ≤ a ≤ 52 →
  f64_mul (S754_finite false m (- a)) (f64_of_N (N.shiftl 1 31)) = S754_finite false m (31 - a).
Proof.
  intros Hm Ha. assert (f64_of_N (N.shiftl 1 31) = S754_finite false 4503599627370496 (-21)) as -> by reflexivity.
  unfold f64_mul, SFmul. cbn [xorb].
  assert (Zpos (m * 4503599627370496) = Zpos (Pos.iter xO m 52)) as -> by (rewrite iter_xO; lia).
  unfold binary_round_aux. unfold shr_fexp at 1.
  rewrite (digits_of (Zpos (Pos.iter xO m 52)) 105) by (rewrite ?iter_xO; lia).
  unfold fexp, emin. unfold f64_prec at 1, f64_emax at 1.
  replace (Z.max _ _ - _) with 52 by (unfold f64_prec, f64_emax; lia).
  unfold shr. cbn [shr_record_of_loc]. rewrite shr_shifted. cbn [shr_m loc_of_shr_record round_nearest_even].
  rewrite shr_fexp_none by lia. cbn. rewrite (proj2 (Z.leb_le _ _)) by (unfold f64_emax, f64_prec; lia).
  f_equal. lia.
Qed.

(** ** The quotient *)

Lemma location_up d r : 0 < d → 0 ≤ r → up (new_location d r) → d ≤ 2 * r.
Proof.
  intros Hd Hr. unfold up, new_location, new_location_even, new_location_odd.
  destruct (Z.even d) eqn:Ee, (Z.eqb_spec r 0); try by intros [|].
  - destruct (Z.compare_spec (2 * r) d); intros [[=]|[=]]; lia.
  - destruct (Z.compare_spec (2 * r + 1) d); intros [[=]|[=]]; lia.
Qed.

Lemma div_near m1 m2 a b :
  2 ^ 52 ≤ Zpos m1 < 2 ^ 53 → 2 ^ 52 ≤ Zpos m2 < 2 ^ 53 → 0 ≤ a ≤ 52 → 0 ≤ b ≤ 52 →
  ∃ m e l q r, f64_div (S754_finite false m1 (31 - a)) (S754_finite false m2 (- b)) = S754_finite false m e ∧
    Zpos m1 * 2 ^ 53 = q * Zpos m2 + r ∧ 0 ≤ r < Zpos m2 ∧ 2 ^ 52 ≤ q ∧ (up l → Zpos m2 ≤ 2 * r) ∧
    2 ^ 52 ≤ Zpos m < 2 ^ 53 ∧ b - a - 22 ≤ e ∧ rounded q l (Zpos m * 2 ^ (e - (b - a - 22))).
Proof.
  intros Hm1 Hm2 Ha Hb. unfold f64_div, SFdiv, SFdiv_core_binary. cbn [xorb].
  rewrite (digits_of (Zpos m1) 53), (digits_of (Zpos m2) 53) by lia.
  unfold fexp, emin, f64_prec, f64_emax.
  replace (Z.min _ _) with (b - a - 22) by lia.
  replace (31 - a - - b - (b - a - 22)) with 53 by lia.
  rewrite Z.shiftl_mul_pow2 by lia.
  pose proof (Z_div_mod (Zpos m1 * 2 ^ 53) (Zpos m2) ltac:(lia)) as Hqr.
  destruct (Z.div_eucl (Zpos m1 * 2 ^ 53) (Zpos m2)) as [q r]. destruct Hqr as [Hqr Hr].
  assert (2 ^ 52 ≤ q < 2 ^ 54) as Hq by nia.
  pose proof (binary_round_near q (b - a - 22) (new_location (Zpos m2) r)) as (m & e'' & Hround & ? & ? & ?); [lia..|].
  unfold f64_prec, f64_emax in Hround. rewrite Hround.
  exists m, e'', (new_location (Zpos m2) r), q, r. split_and!; try done; try lia.
  intros Hup. apply location_up; [lia..|done].
Qed.

Lemma trunc_scaled m e e0 : e0 ≤ e → e0 ≤ 0 → f64_trunc m e = Zpos m * 2 ^ (e - e0) / 2 ^ (- e0).
Proof.
  intros He H0. unfold f64_trunc. destruct (Z.leb_spec 0 e).
  - replace (e - e0) with (e + - e0) by lia. rewrite Z.pow_add_r, Z.mul_assoc, Z.div_mul by lia. done.
  - replace (2 ^ (- e0)) with (2 ^ (- e) * 2 ^ (e - e0)) by (rewrite <- Z.pow_add_r by lia; f_equal; lia).
    rewrite Z.div_mul_cancel_r; [done| |]; apply Z.pow_nonzero; lia.
Qed.

Section quotient.
Context (n D a b q r : Z) (m2 : positive) (l : location) (m : positive) (e : Z).
Context (Ha : 0 ≤ a ≤ 52) (Hb : 0 ≤ b ≤ 52) (Hn : 0 < n) (HD : 0 < D).
Context (Hm2 : Zpos m2 = D * 2 ^ b) (Hqr : n * 2 ^ a * 2 ^ 53 = q * Zpos m2 + r) (Hr : 0 ≤ r < Zpos m2).
Context (Hq : 2 ^ 52 ≤ q) (Hup : up l → Zpos m2 ≤ 2 * r) (He : b - a - 22 ≤ e).
Context (HW : rounded q l (Zpos m * 2 ^ (e - (b - a - 22)))).

(** In units of [2 ^ (b - a - 22)], the quotient is between [q] and [q + 1]. *)
Lemma unit_power : b - a - 22 ≤ 0 → 2 ^ (- (b - a - 22)) * 2 ^ b = 2 ^ (a + 22).
Proof. intros H. rewrite <- Z.pow_add_r by lia. f_equal. lia. Qed.
Lemma dividend_power : n * 2 ^ a * 2 ^ 53 = n * 2 ^ 31 * 2 ^ (a + 22).
Proof. rewrite Z.pow_add_r by lia. rewrite <- !Z.mul_assoc. f_equal. change (2 ^ 53) with (2 ^ 31 * 2 ^ 22). ring. Qed.

Lemma trunc_lower K : K < 2 ^ 53 → K * D ≤ n * 2 ^ 31 → K ≤ f64_trunc m e.
Proof.
  intros HK HKD. set (W := Zpos m * 2 ^ (e - (b - a - 22))) in *.
  assert (2 ^ 52 ≤ W) as HW52 by (destruct HW as [[? [|[]]]|[? [|[]]]]; Z.div_mod_to_equations; lia).
  destruct (Z_lt_le_dec 0 (b - a - 22)) as [He0|He0].
  - unfold f64_trunc. rewrite (proj2 (Z.leb_le _ _)) by lia.
    replace e with ((e - (b - a - 22)) + (b - a - 22)) by lia. rewrite Z.pow_add_r, Z.mul_assoc by lia. fold W.
    pose proof (Z.pow_le_mono_r 2 1 (b - a - 22)). nia.
  - rewrite (trunc_scaled m e (b - a - 22)) by lia. fold W.
    apply Z.div_le_lower_bound; [apply Z.pow_pos_nonneg; lia|].
    set (P := 2 ^ (- (b - a - 22))). pose proof (unit_power He0) as HP. fold P in HP.
    assert (P * K ≤ q) as HKq.
    { apply Z.lt_succ_r, (Z.mul_lt_mono_pos_r (Zpos m2)); [lia|].
      assert (P * K * Zpos m2 = K * D * 2 ^ (a + 22)) as -> by (rewrite Hm2, <- HP; ring).
      rewrite dividend_power in Hqr. pose proof (Z.pow_pos_nonneg 2 (a + 22)). nia. }
    destruct HW as [[? [->|[-> _]]]|[H53 [->|[-> _]]]]; [lia..| |lia].
    destruct (Z.eq_dec (b - a - 22) 0) as [E0|E0].
    + assert (P = 1) as -> by (subst P; rewrite E0; done). Z.div_mod_to_equations; lia.
    + assert (P = 2 * 2 ^ (- (b - a - 22) - 1)) as ->.
      { subst P. rewrite <- (Z.pow_succ_r 2) by lia. f_equal. lia. }
      Z.div_mod_to_equations. nia.
Qed.

Lemma trunc_upper K : 0 ≤ K < 2 ^ 22 → D ≤ 2 ^ 31 → n * 2 ^ 31 < (K + 1) * D → f64_trunc m e ≤ K.
Proof.
  intros HK HD31 HKD. pose proof dividend_power as Hdiv. rewrite Hqr in Hdiv.
  pose proof (Z.pow_pos_nonneg 2 (a + 22)) as Hpos.
  assert (b - a - 22 ≤ 0) as He0.
  { apply Z.nlt_ge. intros Hgt.
    assert (2 ^ (a + 22) ≤ 2 ^ b) by (apply Z.pow_le_mono_r; lia). nia. }
  set (P := 2 ^ (- (b - a - 22))). pose proof (unit_power He0) as HP. fold P in HP.
  assert (0 < P) as HPpos by (apply Z.pow_pos_nonneg; lia).
  set (L := (K + 1) * P).
  assert (q * Zpos m2 + r + 2 ^ (a + 22) ≤ L * Zpos m2) as Hgap.
  { assert (L * Zpos m2 = (K + 1) * D * 2 ^ (a + 22)) as -> by (subst L; rewrite Hm2, <- HP; ring). nia. }
  assert (q < L) as HqL by nia.
  rewrite (trunc_scaled m e (b - a - 22)) by lia. apply Z.lt_succ_r, Z.div_lt_upper_bound; [done|]. fold P.
  replace (P * Z.succ K) with L by (subst L; ring).
  (** A quotient that is rounded up is not close to [K + 1]. *)
  assert (2 ^ 30 < P) as HP30 by (subst L; nia).
  assert (31 ≤ - (b - a - 22)) as H31.
  { apply Z.nlt_ge. intros Hlt. pose proof (Z.pow_le_mono_r 2 (- (b - a - 22)) 30). subst P. lia. }
  assert (Zpos m2 ≤ 2 ^ (a + 22)) as Hsmall.
  { rewrite Hm2. transitivity (2 ^ 31 * 2 ^ b); [pose proof (Z.pow_pos_nonneg 2 b); nia|].
    rewrite <- Z.pow_add_r by lia. apply Z.pow_le_mono_r; lia. }
  destruct HW as [[? [->|[-> Hu]]]|[H53 [->|[-> _]]]].
  - done.
  - specialize (Hup Hu). nia.
  - Z.div_mod_to_equations. lia.
  - assert (2 ^ 31 < P) as HP31 by (subst L; nia).
    assert (32 ≤ - (b - a - 22)) as H32.
    { apply Z.nlt_ge. intros Hlt. pose proof (Z.pow_le_mono_r 2 (- (b - a - 22)) 31). subst P. lia. }
    assert (2 * Zpos m2 ≤ 2 ^ (a + 22)).
    { rewrite Hm2. transitivity (2 ^ 32 * 2 ^ b); [pose proof (Z.pow_pos_nonneg 2 b); nia|].
      rewrite <- Z.pow_add_r by lia. apply Z.pow_le_mono_r; lia. }
    nia.
Qed.
End quotient.

(** ** Candidates *)

Lemma candidate_bounds key previous :
  (key < 2 ^ 64)%N → -1 ≤ previous < 2 ^ 53 - 2 →
  (∀ K, 0 ≤ K < 2 ^ 53 → K ≤ exact_candidate key previous → K ≤ next_candidate key previous) ∧
  (exact_candidate key previous < 2 ^ 22 → next_candidate key previous ≤ exact_candidate key previous) ∧
  previous + 1 ≤ exact_candidate key previous.
Proof.
  intros Hkey Hp. unfold exact_candidate.
  set (n := previous + 1). set (D := Z.of_N (N.shiftr key 33) + 1).
  assert (1 ≤ D ≤ 2 ^ 31) as HD.
  { subst D. rewrite N.shiftr_div_pow2. assert (key / 2 ^ 33 < 2 ^ 31)%N as Hd by (apply N.Div0.div_lt_upper_bound; exact Hkey).
    generalize dependent (key / 2 ^ 33)%N. intros d Hd. change (2 ^ 31)%N with 2147483648%N in Hd.
    change (2 ^ 31)%Z with 2147483648%Z. lia. }
  assert (n ≤ n * 2 ^ 31 / D) as Hn.
  { apply Z.div_le_lower_bound; [lia|]. rewrite Z.mul_comm. apply Z.mul_le_mono_nonneg_l; lia. }
  destruct (Z.eq_dec n 0) as [E0|E0].
  { assert (next_candidate key previous = 0) as ->.
    { unfold next_candidate. fold n. rewrite E0. change (f64_of_Z 0) with (S754_zero false).
      assert (f64_of_N (N.shiftr key 33 + 1) = f64_of_Z D) as -> by (unfold f64_of_N, f64_of_Z; f_equal; lia).
      destruct (f64_of_Z_scaled D) as (m2 & b & -> & _); [lia|]. reflexivity. }
    rewrite E0. change (0 * 2 ^ 31 / D) with 0. split_and!; [lia|lia|lia]. }
  assert (∃ m e, next_candidate key previous = Z.min I64_MAX (f64_trunc m e) ∧
    (∀ K, K < 2 ^ 53 → K * D ≤ n * 2 ^ 31 → K ≤ f64_trunc m e) ∧
    (∀ K, 0 ≤ K < 2 ^ 22 → n * 2 ^ 31 < (K + 1) * D → f64_trunc m e ≤ K)) as (m & e & -> & Hlow & Hhigh).
  { unfold next_candidate. fold n.
    assert (f64_of_N (N.shiftr key 33 + 1) = f64_of_Z D) as -> by (unfold f64_of_N, f64_of_Z; f_equal; lia).
    destruct (f64_of_Z_scaled n) as (m1 & a & -> & Ha & Hm1 & Hb1); [lia|].
    destruct (f64_of_Z_scaled D) as (m2 & b & -> & Hb & Hm2 & Hb2); [lia|].
    rewrite mul_shift by done.
    destruct (div_near m1 m2 a b) as (m & e & l & q & r & -> & Hqr & Hr & Hq & Hup & Hm & He & HW); [done..|].
    exists m, e. split; [done|]. rewrite Hm1 in Hqr.
    split; [intros K ? ?; apply (trunc_lower n D a b q r m2 l m e); (done || lia)|].
    intros K ? ?. apply (trunc_upper n D a b q r m2 l m e); (done || lia). }
  assert (0 < I64_MAX ∧ 2 ^ 53 < I64_MAX) as [? ?] by (split; reflexivity).
  pose proof (Z.mul_div_le (n * 2 ^ 31) D). pose proof (Z.mul_succ_div_gt (n * 2 ^ 31) D).
  split_and!.
  - intros K HK HKe. apply Z.min_glb; [lia|]. apply Hlow; [lia|]. nia.
  - intros Hsmall. etransitivity; [apply Z.le_min_r|]. apply Hhigh; [lia|]. lia.
  - done.
Qed.
End rounding.

(** ** The loop *)

Lemma next_key_bound key : next_key key < 2 ^ 64.
Proof. unfold next_key, wrap. apply N.mod_lt. done. Qed.

Section loop.
Local Open Scope Z_scope.
Context (step : N → Z → Z) (buckets : Z).
Context (Hstep : ∀ key p, (key < 2 ^ 64)%N → 0 ≤ p < buckets → p + 1 ≤ step key p).

Lemma loop_total fuel key previous candidate :
  0 ≤ candidate → (Z.to_nat (buckets - candidate) < fuel)%nat →
  (0 ≤ previous < buckets ∨ candidate < buckets) →
  ∃ b, jump_loop step fuel key previous candidate buckets = Some b ∧ 0 ≤ b < buckets.
Proof.
  revert key previous candidate. induction fuel as [|fuel IH]; intros key previous candidate Hc Hf Hp; [lia|]. cbn.
  destruct (Z.ltb_spec candidate buckets) as [Hl|Hl]; [|by exists previous; split; [done|destruct Hp; lia]].
  pose proof (Hstep (next_key key) candidate (next_key_bound key)) as Hs. apply IH; lia.
Qed.

Lemma loop_more_fuel fuel fuel' key previous candidate b :
  jump_loop step fuel key previous candidate buckets = Some b → (fuel ≤ fuel')%nat →
  jump_loop step fuel' key previous candidate buckets = Some b.
Proof.
  revert fuel' key previous candidate. induction fuel as [|fuel IH]; intros [|fuel'] key previous candidate Hj Hf; [done|done|lia|].
  cbn in *. destruct (candidate <? buckets); [|done]. apply IH; [done|lia].
Qed.

(** One more bucket: the loop goes on only from the new one. *)
Lemma loop_next fuel key previous candidate b b' :
  (∀ k, (k < 2 ^ 64)%N → buckets + 1 ≤ step k buckets) →
  jump_loop step fuel key previous candidate buckets = Some b →
  jump_loop step fuel key previous candidate (buckets + 1) = Some b' → b' = b ∨ b' = buckets.
Proof.
  intros Hlast. revert key previous candidate. induction fuel as [|fuel IH]; intros key previous candidate Hb Hb'; [done|].
  cbn in *. destruct (Z.ltb_spec candidate buckets) as [Hl|Hl].
  - rewrite (proj2 (Z.ltb_lt _ _)) in Hb' by lia. by apply (IH (next_key key) candidate (step (next_key key) candidate)).
  - injection Hb as <-. destruct (Z.ltb_spec candidate (buckets + 1)) as [Hl'|Hl']; [|left; congruence].
    assert (candidate = buckets) as -> by lia. right. destruct fuel as [|fuel]; [done|]. cbn in Hb'.
    rewrite (proj2 (Z.ltb_ge _ _)) in Hb' by apply Hlast, next_key_bound. congruence.
Qed.
End loop.

(** Candidates that differ only when both are out of range. *)
Lemma loop_agree step step' buckets fuel key previous candidate :
  (∀ k p, (k < 2 ^ 64)%N → (0 ≤ p < buckets)%Z →
     (0 ≤ step k p)%Z ∧ (step k p = step' k p ∨ (buckets ≤ step k p ∧ buckets ≤ step' k p)%Z)) →
  (0 ≤ candidate)%Z → (Z.to_nat (buckets - candidate) < fuel)%nat →
  (∀ k p, (k < 2 ^ 64)%N → (0 ≤ p < buckets)%Z → (p + 1 ≤ step k p)%Z) →
  jump_loop step fuel key previous candidate buckets = jump_loop step' fuel key previous candidate buckets.
Proof.
  intros Hagree Hc Hf Hstep. revert key previous candidate Hc Hf.
  induction fuel as [|fuel IH]; intros key previous candidate Hc Hf; [done|]. cbn.
  destruct (Z.ltb_spec candidate buckets) as [Hl|Hl]; [|done].
  pose proof (Hstep (next_key key) candidate (next_key_bound key) ltac:(lia)) as Hs.
  destruct (Hagree (next_key key) candidate (next_key_bound key) ltac:(lia)) as [H0 [<-|[Hb Hb']]].
  - apply IH; lia.
  - destruct fuel as [|fuel]; [lia|]. cbn. rewrite !(proj2 (Z.ltb_ge _ _)) by lia. done.
Qed.

Lemma candidate_progress key p : key < 2 ^ 64 → (0 ≤ p < 2 ^ 53 - 2)%Z → (p + 1 ≤ next_candidate key p)%Z.
Proof.
  intros Hk Hp. destruct (candidate_bounds key p) as (Hlow & _ & Hge); [done|lia|]. apply Hlow; lia.
Qed.

(** A hash is a bucket: for any number of buckets up to 2^53 - 2 the loop ends within
    as many rounds as there are buckets, in spite of rounding, with an index in range. *)
Theorem jump_in_range key buckets :
  (0 < buckets ≤ 2 ^ 53 - 2)%Z → ∃ b, jump_consistent_hash key buckets = Some b ∧ (0 ≤ b < buckets)%Z.
Proof.
  intros Hb. apply loop_total; [|lia..].
  intros k p Hk Hp. apply candidate_progress; [done|lia].
Qed.

Lemma jump_in_range_witness : ∃ b, jump_consistent_hash 42 3 = Some b ∧ (0 ≤ b < 3)%Z.
Proof. apply (jump_in_range 42 3). lia. Defined.

(** Up to 2^22 buckets the rounding of the quotients changes no hash: the function is
    the one with exact integer division, and so the same wherever division is correct. *)
Theorem jump_is_exact key buckets :
  (0 < buckets ≤ 2 ^ 22)%Z → jump_consistent_hash key buckets = jump_exact key buckets.
Proof.
  intros Hb. apply loop_agree; [|lia..|].
  - intros k p Hk Hp. destruct (candidate_bounds k p) as (Hlow & Hhigh & Hge); [done|lia|].
    assert (p + 1 ≤ next_candidate k p)%Z by (apply candidate_progress; [done|lia]). split; [lia|].
    destruct (Z_lt_le_dec (exact_candidate k p) (2 ^ 22)) as [Hs|Hs].
    + left. apply Z.le_antisymm; [by apply Hhigh|]. apply Hlow; lia.
    + right. split; [|lia]. transitivity (2 ^ 22)%Z; [lia|]. apply Hlow; lia.
  - intros k p Hk Hp. apply candidate_progress; [done|lia].
Qed.

Lemma jump_is_exact_witness : jump_consistent_hash 42 1000 = jump_exact 42 1000.
Proof. apply jump_is_exact. lia. Defined.

(** One more bucket moves a key to the new bucket or not at all. *)
Theorem jump_moves_to_new key buckets b b' :
  (0 < buckets < 2 ^ 53 - 2)%Z → jump_consistent_hash key buckets = Some b →
  jump_consistent_hash key (buckets + 1) = Some b' → b' = b ∨ b' = buckets.
Proof.
  intros Hb Hj Hj'. unfold jump_consistent_hash in *.
  apply (loop_more_fuel _ _ _ (S (Z.to_nat (buckets + 1)))) in Hj; [|lia].
  eapply loop_next; [|exact Hj|exact Hj'].
  intros k Hk. apply candidate_progress; [done|lia].
Qed.

Lemma jump_moves_to_new_witness : jump_consistent_hash 42 572 = jump_consistent_hash 42 571 ∨ jump_consistent_hash 42 572 = Some 571%Z.
Proof.
  assert (jump_consistent_hash 42 571 = Some 43%Z ∧ jump_consistent_hash 42 572 = Some 571%Z) as [E1 E2] by (vm_compute; split; reflexivity).
  destruct (jump_moves_to_new 42 571 43 571) as [H|H]; [lia|exact E1|exact E2|discriminate H|right; exact E2].
Defined.
