(* ===== verification/Shard.v ===== *)
(** * Databases and their shards (roze-db/src/lib.rs, with the configuration of
    roze-config/src/lib.rs)

    Primaries and replicas, the router from keys to shards, sharded databases and the
    transactions pinned to one shard. Opening a connection, pinging it and running a
    transaction on it are the drivers' and are parameters. *)

From S2P Require Import Prelude Text Scan Balance Jump.

(** ** Configuration *)

Inductive DatabaseMode := Direct | ProxyMode | Sharded.
Inductive DatabaseReadPolicy := RoundRobin | Random.
Record DatabaseShardConfig := { sc_id : rstr; sc_primary : rstr; sc_replicas : list rstr }.
Record DatabaseTopologyConfig := { tp_name : rstr; tp_shards : list DatabaseShardConfig }.
Record DatabaseConfig :=
  { db_mode : DatabaseMode; db_url : rstr; db_replicas : list rstr; db_topology : option DatabaseTopologyConfig;
    db_policy : DatabaseReadPolicy }.

(** ** Keys *)

(** The bytes of an integer of [n] bytes, in two's complement. *)
Fixpoint to_le_bytes (n : nat) (z : Z) : list N :=
  match n with O => [] | S n => Z.to_N (z mod 256) :: to_le_bytes n (z / 256) end.

(** A key is a text, bytes, or an integer of a width in bytes; [isize] and [usize] are of 8. *)
Inductive ShardKey := KeyStr (s : rstr) | KeyBytes (bs : list N) | KeyInt (bytes : nat) (z : Z).
Definition key_bytes (key : ShardKey) : list N :=
  match key with KeyStr s => as_bytes s | KeyBytes bs => bs | KeyInt n z => to_le_bytes n z end.
Definition stable_hash (key : ShardKey) : N := fnv1a64 (key_bytes key).

(** ** Routers *)

Definition supported (c : N) : bool := is_ascii_alphanumeric c || (c =? 45) || (c =? 95).
Definition quoted (name : rstr) : rstr := lit "`" ++ name ++ lit "`".

Definition ShardId_new (value : rstr) : result rstr rstr :=
  match trim value with
  | [] => Err (lit "database shard id must not be empty")
  | trimmed =>
      if negb (forallb supported trimmed)
      then Err (lit "database shard id " ++ quoted trimmed ++ lit " contains unsupported characters")
      else Ok trimmed
  end.

Record ShardRouter := { topology : rstr; shard_ids : list rstr }.

Fixpoint adjacent_equal (l : list rstr) : bool :=
  match l with
  | a :: ((b :: _) as l') => str_eqb a b || adjacent_equal l'
  | _ => false
  end.

Definition ShardRouter_new (name : rstr) (ids : list rstr) : result rstr ShardRouter :=
  match trim name with
  | [] => Err (lit "database topology name must not be empty")
  | name =>
      if negb (forallb supported name) then Err (lit "database topology name " ++ quoted name ++ lit " contains unsupported characters")
      else match merge_sort str_le ids with
      | [] => Err (lit "database topology " ++ quoted name ++ lit " must contain at least one shard")
      | sorted =>
          if adjacent_equal sorted then Err (lit "database topology " ++ quoted name ++ lit " contains duplicate shard ids")
          else Ok {| topology := name; shard_ids := sorted |}
      end
  end.

(** [None] where indexing would panic. *)
Definition route (r : ShardRouter) (key : ShardKey) : option rstr :=
  index ← jump_consistent_hash (stable_hash key) (Z.of_nat (length (shard_ids r)));
  shard_ids r !! Z.to_nat index.

(** ** Connections *)

Section connections.
Context {Conn : Type} (connect_url : rstr → result rstr Conn) (ping : Conn → result rstr unit).

(** The cursor is shared by the clones. *)
Record DatabaseConnections := { cn_primary : Conn; cn_replicas : list Conn; cn_policy : DatabaseReadPolicy; read_cursor : N }.

Definition with_cursor (c : DatabaseConnections) (cursor : N) : DatabaseConnections :=
  {| cn_primary := cn_primary c; cn_replicas := cn_replicas c; cn_policy := cn_policy c; read_cursor := cursor |}.

(** The time is the nanoseconds since 1970, [None] before. *)
Definition random_index (time : option N) (len : N) : N :=
  match time with Some nanos => wrap 64 nanos mod len | None => 0 end.

Definition db_write (c : DatabaseConnections) : Conn := cn_primary c.
Definition db_read (time : option N) (c : DatabaseConnections) : option Conn * DatabaseConnections :=
  match cn_replicas c with
  | [] => (Some (cn_primary c), c)
  | replicas =>
      match cn_policy c with
      | RoundRobin => let '(conn, cursor) := cursor_pick replicas (read_cursor c) in (conn, with_cursor c cursor)
      | Random => (replicas !! N.to_nat (random_index time (N.of_nat (length replicas))), c)
      end
  end.

Fixpoint ping_all (l : list Conn) : result rstr unit :=
  match l with [] => Ok tt | c :: l => _ ← ping c; ping_all l end.
Definition connections_health (c : DatabaseConnections) : result rstr unit :=
  _ ← ping (cn_primary c); ping_all (cn_replicas c).

Definition connect (config : DatabaseConfig) : result rstr Conn :=
  match db_mode config with
  | Sharded => Err (lit "database.mode=sharded requires connect_sharded or connect_runtime")
  | _ =>
      if str_is_empty (trim (db_url config)) then Err (lit "database.url must not be empty for direct or proxy mode")
      else connect_url (db_url config)
  end.

Definition open_connections (policy : DatabaseReadPolicy) (primary : result rstr Conn) (replicas : list rstr) :
    result rstr DatabaseConnections :=
  primary ← primary;
  replicas ← collect connect_url replicas;
  Ok {| cn_primary := primary; cn_replicas := replicas; cn_policy := policy; read_cursor := 0 |}.

Definition connect_connections (config : DatabaseConfig) : result rstr DatabaseConnections :=
  match db_mode config with
  | Sharded => Err (lit "database.mode=sharded does not expose one implicit connection; route with ShardedDatabase")
  | _ => open_connections (db_policy config) (connect config) (db_replicas config)
  end.

Definition connect_shard_connections (config : DatabaseConfig) (shard : DatabaseShardConfig) : result rstr DatabaseConnections :=
  open_connections (db_policy config) (connect_url (sc_primary shard)) (sc_replicas shard).

(** ** Sharded databases *)

Fixpoint validate_shards (name : rstr) (ids : gset rstr) (shards : list DatabaseShardConfig) : result rstr unit :=
  match shards with
  | [] => Ok tt
  | shard :: shards =>
      id ← ShardId_new (sc_id shard);
      if bool_decide (id ∈ ids)
      then Err (lit "database topology " ++ quoted name ++ lit " contains duplicate shard id " ++ quoted id)
      else if str_is_empty (trim (sc_primary shard))
      then Err (lit "database shard " ++ quoted id ++ lit " primary URL must not be empty")
      else if existsb (λ url, str_is_empty (trim url)) (sc_replicas shard)
      then Err (lit "database shard " ++ quoted id ++ lit " contains an empty replica URL")
      else validate_shards name ({[ id ]} ∪ ids) shards
  end.

Definition validate_topology (t : DatabaseTopologyConfig) : result rstr unit :=
  if str_is_empty (trim (tp_name t)) then Err (lit "database.topology.name must not be empty")
  else match tp_shards t with
  | [] => Err (lit "database topology " ++ quoted (tp_name t) ++ lit " must contain at least one shard")
  | shards => validate_shards (tp_name t) ∅ shards
  end.

Record ShardedDatabase := { router : ShardRouter; shards : gmap rstr DatabaseConnections }.

Fixpoint connect_shards (config : DatabaseConfig) (l : list DatabaseShardConfig) (opened : gmap rstr DatabaseConnections) :
    result rstr (gmap rstr DatabaseConnections) :=
  match l with
  | [] => Ok opened
  | shard :: l =>
      id ← ShardId_new (sc_id shard);
      connections ← connect_shard_connections config shard;
      connect_shards config l (<[id := connections]> opened)
  end.

Definition connect_sharded (config : DatabaseConfig) : result rstr ShardedDatabase :=
  match db_mode config with
  | Sharded =>
      if negb (str_is_empty (trim (db_url config))) || negb (match db_replicas config with [] => true | _ => false end)
      then Err (lit "database.mode=sharded must configure topology.shards instead of database.url or database.replicas")
      else
        t ← ok_or (db_topology config) (lit "database.mode=sharded requires database.topology");
        _ ← validate_topology t;
        shards ← connect_shards config (tp_shards t) ∅;
        router ← ShardRouter_new (tp_name t) (btree_keys shards);
        Ok {| router := router; shards := shards |}
  | _ => Err (lit "connect_sharded requires database.mode=sharded")
  end.

Inductive DatabaseRuntime := RtDirect (c : DatabaseConnections) | RtSharded (d : ShardedDatabase).
Definition connect_runtime (config : DatabaseConfig) : result rstr DatabaseRuntime :=
  match db_mode config with
  | Sharded => RtSharded <$> connect_sharded config
  | _ => RtDirect <$> connect_connections config
  end.

Record ShardRoute := { ro_topology : rstr; ro_shard : rstr; ro_connections : DatabaseConnections }.
(** [None] where the code would panic. *)
Definition db_route (d : ShardedDatabase) (key : ShardKey) : option ShardRoute :=
  id ← route (router d) key;
  connections ← shards d !! id;
  Some {| ro_topology := topology (router d); ro_shard := id; ro_connections := connections |}.

(** [route(key).read()]: a route's connections are clones that share their cursor with
    the database's. *)
Definition read_for_key (time : option N) (d : ShardedDatabase) (key : ShardKey) : option (option Conn * ShardedDatabase) :=
  r ← db_route d key;
  let '(conn, connections) := db_read time (ro_connections r) in
  Some (conn, {| router := router d; shards := <[ro_shard r := connections]> (shards d) |}).

Definition database_health (d : ShardedDatabase) : result rstr unit :=
  foldl (λ r c, _ ← r; connections_health c) (Ok tt) (btree_values (shards d)).

(** What an operation in a transaction is given. *)
Record ShardTransaction := { tx_router : ShardRouter; tx_shard : rstr; tx_connection : Conn }.

Definition ensure_key (t : ShardTransaction) (key : ShardKey) : option (result rstr unit) :=
  resolved ← route (tx_router t) key;
  Some (if str_eqb resolved (tx_shard t) then Ok tt
        else Err (lit "cross-shard transaction is not supported: transaction is pinned to " ++ quoted (tx_shard t) ++
                  lit ", key resolves to " ++ quoted resolved)).

(** [transaction conn f] runs [f] in a transaction on [conn]. *)
Definition transaction_for_key {T} (transaction : Conn → (Conn → result rstr T) → result rstr T)
    (d : ShardedDatabase) (key : ShardKey) (operation : ShardTransaction → result rstr T) : option (result rstr T) :=
  r ← db_route d key;
  Some (transaction (db_write (ro_connections r))
          (λ c, operation {| tx_router := router d; tx_shard := ro_shard r; tx_connection := c |})).
End connections.

(** ** Routers route *)

Lemma adjacent_equal_NoDup l : StronglySorted str_le l → adjacent_equal l = false ↔ NoDup l.
Proof.
  induction 1 as [|a l Hl IH Ha]; [by split; [constructor|]|]. rewrite NoDup_cons. destruct l as [|b l]; cbn [adjacent_equal].
  { split; [|done]. intros _. split; [apply not_elem_of_nil|constructor]. }
  rewrite orb_false_iff, IH. apply Forall_cons in Ha as [Hab Hal].
  assert (str_eqb a b = false ↔ a ∉ b :: l) as ->; [|done]. rewrite str_eqb_neq, not_elem_of_cons. split; [|tauto].
  intros Hne. split; [done|]. intros Hin. apply Hne, (anti_symm str_le); [done|].
  apply StronglySorted_inv in Hl as [_ Hb]. by apply (proj1 (Forall_forall _ _) Hb).
Qed.

Lemma router_new_spec name ids r :
  ShardRouter_new name ids = Ok r ↔
  trim name ≠ [] ∧ forallb supported (trim name) = true ∧ ids ≠ [] ∧ NoDup ids ∧
  r = {| topology := trim name; shard_ids := merge_sort str_le ids |}.
Proof.
  unfold ShardRouter_new. destruct (trim name) as [|c n]; [by split; [|intros []]|].
  destruct (forallb supported (c :: n)); cbn [negb]; [|by split; [|intros (_ & ? & _)]].
  pose proof (merge_sort_Permutation str_le ids) as Hp.
  destruct (merge_sort str_le ids) as [|a l] eqn:E.
  { split; [done|]. intros (_ & _ & Hne & _). by apply Permutation_nil_l in Hp. }
  assert (ids ≠ []) as Hne by (intros ->; by apply Permutation_nil_r in Hp).
  assert (adjacent_equal (a :: l) = false ↔ NoDup ids) as Hd.
  { rewrite adjacent_equal_NoDup, Hp; [done|]. rewrite <- E. apply StronglySorted_merge_sort; apply _. }
  destruct (adjacent_equal (a :: l)).
  - split; [done|]. intros (_ & _ & _ & HN & _). by apply Hd in HN.
  - split; [intros [= <-]; split_and!; [done..|by apply Hd|done]|]. by intros (_ & _ & _ & _ & ->).
Qed.

Lemma route_in r key :
  shard_ids r ≠ [] → (Z.of_nat (length (shard_ids r)) ≤ 9007199254740990)%Z →
  ∃ b id, jump_consistent_hash (stable_hash key) (Z.of_nat (length (shard_ids r))) = Some b ∧
    route r key = Some id ∧ shard_ids r !! Z.to_nat b = Some id.
Proof.
  intros Hne Hl. destruct (jump_in_range (stable_hash key) (Z.of_nat (length (shard_ids r)))) as (b & Hb & Hr).
  { assert (0 < length (shard_ids r))%nat by (destruct (shard_ids r); [done|cbn; lia]). lia. }
  unfold route. rewrite Hb. cbn. destruct (lookup_lt_is_Some_2 (shard_ids r) (Z.to_nat b)) as [id Hid]; [lia|].
  by exists b, id.
Qed.

(** The order in which shards are configured does not matter. *)
Theorem router_order_irrelevant name ids ids' : ids ≡ₚ ids' → ShardRouter_new name ids = ShardRouter_new name ids'.
Proof.
  intros Hp. unfold ShardRouter_new. destruct (trim name); [done|]. destruct (forallb _ _); [|done]. cbn [negb].
  assert (merge_sort str_le ids = merge_sort str_le ids') as ->; [|done].
  apply (StronglySorted_unique str_le); [apply StronglySorted_merge_sort; apply _..|].
  by rewrite !merge_sort_Permutation.
Qed.

Lemma router_order_irrelevant_witness :
  ShardRouter_new (lit "commerce") [lit "b"; lit "a"] = ShardRouter_new (lit "commerce") [lit "a"; lit "b"].
Proof. apply router_order_irrelevant. apply perm_swap. Defined.

Lemma sort_append ids id :
  (∀ i, i ∈ ids → str_le i id) → merge_sort str_le (ids ++ [id]) = merge_sort str_le ids ++ [id].
Proof.
  intros Hle. apply (StronglySorted_unique str_le); [apply StronglySorted_merge_sort; apply _| |by rewrite !merge_sort_Permutation].
  pose proof (merge_sort_Permutation str_le ids) as Hp. pose proof (StronglySorted_merge_sort str_le ids) as Hs.
  assert (∀ i, i ∈ merge_sort str_le ids → str_le i id) as Hle' by (intros i Hi; apply Hle; by rewrite <- Hp).
  clear Hp Hle. induction Hs as [|a l Hl IH Ha]; cbn; [repeat constructor|]. constructor.
  - apply IH. intros i Hi. apply Hle'. by right.
  - apply Forall_app. split; [done|]. constructor; [|constructor]. apply Hle'. by left.
Qed.

(** A shard whose id sorts after all others only takes keys: each key stays on its shard
    or moves to the new one. *)
Theorem appended_shard_takes_keys name ids id r r' key :
  (Z.of_nat (length ids) < 9007199254740990)%Z → (∀ i, i ∈ ids → str_le i id) →
  ShardRouter_new name ids = Ok r → ShardRouter_new name (ids ++ [id]) = Ok r' →
  route r' key = route r key ∨ route r' key = Some id.
Proof.
  intros Hlen Hle (Hn & Hs & Hne & HN & ->)%router_new_spec (_ & _ & _ & HN' & ->)%router_new_spec.
  rewrite sort_append by done. set (l := merge_sort str_le ids).
  assert (length l = length ids) as Hl by (apply Permutation_length, merge_sort_Permutation).
  assert (l ≠ []) as Hnel by (intros E; rewrite E in Hl; destruct ids; [done|discriminate Hl]).
  destruct (route_in {| topology := trim name; shard_ids := l |} key) as (b & i & Hb & Hr & Hi); [done|cbn; lia|].
  destruct (route_in {| topology := trim name; shard_ids := l ++ [id] |} key) as (b' & i' & Hb' & Hr' & Hi').
  { cbn. by destruct l. }
  { cbn. rewrite length_app. cbn. lia. }
  rewrite Hr, Hr'. cbn in *. rewrite length_app in Hb'. cbn [length] in Hb'.
  replace (Z.of_nat (length l + 1)) with (Z.of_nat (length l) + 1)%Z in Hb' by lia.
  assert (0 < length l)%nat by (destruct l; [done|cbn; lia]).
  destruct (jump_moves_to_new (stable_hash key) (Z.of_nat (length l)) b b') as [->| ->]; [lia|done..| |].
  - left. rewrite lookup_app_l in Hi' by by eapply lookup_lt_Some. congruence.
  - right. rewrite Nat2Z.id, list_lookup_middle in Hi' by done. congruence.
Qed.

(** ** Sharded databases route *)

Section databases.
Context {Conn : Type} (connect_url : rstr → result rstr Conn).

(** What a shard's connections are, but for the cursor. *)
Definition opened (config : DatabaseConfig) (shard : DatabaseShardConfig) (c : DatabaseConnections (Conn := Conn)) : Prop :=
  connect_url (sc_primary shard) = Ok (cn_primary c) ∧
  Forall2 (λ url conn, connect_url url = Ok conn) (sc_replicas shard) (cn_replicas c) ∧ cn_policy c = db_policy config.

Lemma connect_shard_opened config shard c : connect_shard_connections connect_url config shard = Ok c → opened config shard c.
Proof.
  unfold connect_shard_connections, open_connections. destruct (connect_url (sc_primary shard)) as [p|] eqn:E; [|done]. cbn.
  destruct (collect connect_url (sc_replicas shard)) as [rs|] eqn:Er; [|done]. cbn. intros [= <-].
  split_and!; [done|by apply collect_Forall2|done].
Qed.

Lemma connect_shards_spec config l m0 m :
  connect_shards connect_url config l m0 = Ok m →
  (∀ id c, m !! id = Some c → m0 !! id = Some c ∨ ∃ shard, shard ∈ l ∧ ShardId_new (sc_id shard) = Ok id ∧ opened config shard c) ∧
  (∀ id, is_Some (m0 !! id) ∨ (∃ shard, shard ∈ l ∧ ShardId_new (sc_id shard) = Ok id) → is_Some (m !! id)).
Proof.
  revert m0. induction l as [|shard l IH]; intros m0; cbn.
  - intros [= <-]. split; [tauto|]. intros id [?|(s & Hs & _)]; [done|by apply elem_of_nil in Hs].
  - destruct (ShardId_new (sc_id shard)) as [id0|] eqn:Eid; [|done]. cbn.
    destruct (connect_shard_connections connect_url config shard) as [c0|] eqn:Ec; [|done]. cbn.
    intros (H1 & H2)%IH. split.
    + intros id c [Hm|(s & Hs & ?)]%H1; [|right; exists s; split; [by right|done]].
      apply lookup_insert_Some in Hm as [[<- <-]|[_ ?]]; [|by left].
      right. exists shard. split_and!; [by left|done|by apply connect_shard_opened].
    + intros id Hid. apply H2. destruct Hid as [[c Hc]|(s & [->|Hs]%elem_of_cons & He)].
      * left. destruct (decide (id0 = id)) as [->|]; [rewrite lookup_insert_eq|rewrite lookup_insert_ne by done]; by eexists.
      * left. assert (id = id0) as -> by congruence. rewrite lookup_insert_eq. by eexists.
      * right. by exists s.
Qed.

Lemma length_omap_le {A B} (f : A → option B) l : (length (omap f l) ≤ length l)%nat.
Proof. induction l as [|a l IH]; cbn; [done|]. destruct (f a); cbn; lia. Qed.

(** In a sharded database that could be connected, every key has a route, which is to the
    connections that were opened for one shard of the configuration, under its id. *)
Theorem connected_database_routes config d key t :
  connect_sharded connect_url config = Ok d → db_topology config = Some t →
  (Z.of_nat (length (tp_shards t)) ≤ 9007199254740990)%Z →
  ∃ r shard, db_route d key = Some r ∧ shard ∈ tp_shards t ∧ ShardId_new (sc_id shard) = Ok (ro_shard r) ∧
    opened config shard (ro_connections r) ∧ route (router d) key = Some (ro_shard r).
Proof.
  unfold connect_sharded. destruct (db_mode config); [done..|]. destruct (_ || _); [done|]. intros Hd Ht. rewrite Ht in Hd.
  cbn in Hd. destruct (validate_topology t); [|done]. cbn in Hd.
  destruct (connect_shards connect_url config (tp_shards t) ∅) as [m|] eqn:Em; [|done]. cbn in Hd.
  destruct (ShardRouter_new (tp_name t) (btree_keys m)) as [r|] eqn:Er; [|done]. cbn in Hd. injection Hd as <-.
  intros Hlen. apply connect_shards_spec in Em as [H1 _].
  apply router_new_spec in Er as (_ & _ & Hne & HN & ->). cbn [router shards].
  pose proof (merge_sort_Permutation str_le (btree_keys m)) as Hp.
  set (sorted := merge_sort str_le (btree_keys m)) in *.
  assert (length sorted ≤ length (tp_shards t))%nat as Hle.
  { rewrite (Permutation_length Hp).
    assert (btree_keys m ⊆ omap (λ s, match ShardId_new (sc_id s) with Ok id => Some id | Err _ => None end) (tp_shards t)) as Hsub.
    { intros id [c Hc]%elem_of_btree_keys. apply list_elem_of_omap.
      destruct (H1 id c Hc) as [?|(s & Hs & He & _)]; [done|]. exists s. by rewrite He. }
    etransitivity; [by apply (submseteq_length), NoDup_submseteq; [exact HN|exact Hsub]|]. apply length_omap_le. }
  destruct (route_in {| topology := trim (tp_name t); shard_ids := sorted |} key) as (b & id & _ & Hr & Hid).
  { cbn. intros E. rewrite E in Hp. by apply Permutation_nil_l in Hp. }
  { cbn. lia. }
  assert (id ∈ btree_keys m) as [c Hc]%elem_of_btree_keys by (rewrite <- Hp; by eapply list_elem_of_lookup_2).
  destruct (H1 id c Hc) as [?|(s & Hs & He & Ho)]; [done|].
  exists {| ro_topology := trim (tp_name t); ro_shard := id; ro_connections := c |}, s.
  unfold db_route. cbn [router shards]. rewrite Hr. cbn. rewrite Hc. cbn. done.
Qed.

(** A transaction is pinned to one shard: it is run on the primary of the key's shard, and
    there a key is accepted exactly when it routes to that shard. *)
Theorem transaction_pinned {T} transaction (d : ShardedDatabase (Conn := Conn)) key (operation : ShardTransaction (Conn := Conn) → result rstr T) out :
  transaction_for_key transaction d key operation = Some out →
  ∃ r, db_route d key = Some r ∧ route (router d) key = Some (ro_shard r) ∧
    out = transaction (cn_primary (ro_connections r))
            (λ c, operation {| tx_router := router d; tx_shard := ro_shard r; tx_connection := c |}) ∧
    ∀ (c : Conn) key', let tx := {| tx_router := router d; tx_shard := ro_shard r; tx_connection := c |} in
      ensure_key tx key = Some (Ok tt) ∧ (ensure_key tx key' = Some (Ok tt) ↔ route (router d) key' = route (router d) key).
Proof.
  unfold transaction_for_key. destruct (db_route d key) as [r|] eqn:Er; [|done]. cbn [mbind option_bind]. intros [= <-]. exists r.
  unfold db_route in Er. destruct (route (router d) key) as [id|] eqn:Ei; [|done]. cbn [mbind option_bind] in Er.
  destruct (shards d !! id) as [c|] eqn:Ec; [|done]. cbn [mbind option_bind] in Er. injection Er as <-. cbn [ro_shard ro_connections].
  split_and!; [done..|]. intros conn key'. cbv zeta. unfold ensure_key. cbn [tx_router tx_shard]. rewrite Ei. cbn [mbind option_bind]. rewrite str_eqb_refl.
  split; [done|]. destruct (route (router d) key') as [id'|]; cbn [mbind option_bind]; [|done].
  destruct (str_eqb_spec id' id) as [->|Hn]; [done|]. split; [done|congruence].
Qed.

(** Reads go to the primary when there is no replica, and otherwise a full turn of the
    cursor reads once from each replica, wherever it starts. *)
Theorem reads_rotate (c : DatabaseConnections (Conn := Conn)) :
  cn_policy c = RoundRobin → read_cursor c + N.of_nat (length (cn_replicas c)) ≤ 2 ^ 64 →
  (cn_replicas c = [] → ∀ time, db_read time c = (Some (cn_primary c), c)) ∧
  picks (λ cursor, let '(r, c') := db_read None (with_cursor c cursor) in (r, read_cursor c'))
    (length (cn_replicas c)) (read_cursor c) ≡ₚ Some <$> cn_replicas c.
Proof.
  intros Hp Hc. split; [intros Hr time; unfold db_read; by rewrite Hr|].
  destruct (cn_replicas c) as [|x l] eqn:E; [done|]. rewrite <- E in *.
  rewrite (picks_ext _ (cursor_pick (cn_replicas c))); [by apply picks_permutation|].
  intros n. unfold db_read. cbn [with_cursor cn_replicas cn_policy read_cursor]. rewrite Hp.
  by rewrite E.
Qed.
End databases.

(** ** Examples *)

Definition ex_open (url : rstr) : result rstr rstr := if str_eqb url (lit "down") then Err (lit "refused") else Ok url.
Definition ex_shard (id primary : rstr) (replicas : list rstr) : DatabaseShardConfig :=
  {| sc_id := id; sc_primary := primary; sc_replicas := replicas |}.
Definition ex_topology : DatabaseTopologyConfig :=
  {| tp_name := lit "commerce";
     tp_shards := [ex_shard (lit "shard-01") (lit "p1") []; ex_shard (lit " shard-00") (lit "p0") [lit "r0"; lit "r1"]] |}.
Definition ex_config (t : DatabaseTopologyConfig) : DatabaseConfig :=
  {| db_mode := Sharded; db_url := []; db_replicas := []; db_topology := Some t; db_policy := RoundRobin |}.
Definition ex_empty : ShardedDatabase (Conn := rstr) := {| router := {| topology := []; shard_ids := [] |}; shards := ∅ |}.
Definition ex_database : ShardedDatabase (Conn := rstr) :=
  match connect_sharded ex_open (ex_config ex_topology) with Ok d => d | Err _ => ex_empty end.

Lemma ex_connected : connect_sharded ex_open (ex_config ex_topology) = Ok ex_database.
Proof. vm_compute. reflexivity. Qed.

Lemma connected_database_routes_witness :
  ∃ r shard, db_route ex_database (KeyInt 8 42) = Some r ∧ shard ∈ tp_shards ex_topology ∧
    ShardId_new (sc_id shard) = Ok (ro_shard r) ∧ opened ex_open (ex_config ex_topology) shard (ro_connections r) ∧
    route (router ex_database) (KeyInt 8 42) = Some (ro_shard r).
Proof. apply connected_database_routes; [exact ex_connected|reflexivity|vm_compute; discriminate]. Defined.

Definition ex_ids : list rstr := [lit "shard-00"; lit "shard-02"].
Definition ex_router (ids : list rstr) : ShardRouter := {| topology := lit "commerce"; shard_ids := ids |}.

Lemma appended_shard_takes_keys_witness :
  let after := ex_router (ex_ids ++ [lit "shard-03"]) in
  route after (KeyInt 8 7) = route (ex_router ex_ids) (KeyInt 8 7) ∨ route after (KeyInt 8 7) = Some (lit "shard-03").
Proof.
  apply (appended_shard_takes_keys (lit "commerce") ex_ids (lit "shard-03")); [reflexivity| |vm_compute; reflexivity..].
  intros i Hi. repeat (apply elem_of_cons in Hi as [->|Hi]; [reflexivity|]). by apply elem_of_nil in Hi.
Defined.

(** An id that sorts between others moves keys from an old shard to another old one. *)
Lemma inserted_shard_reshuffles :
  is_ok (ShardRouter_new (lit "commerce") (ex_ids ++ [lit "shard-01"])) = true ∧
  ∃ key, route (ex_router ex_ids) key = Some (lit "shard-00") ∧
    route (ex_router [lit "shard-00"; lit "shard-01"; lit "shard-02"]) key = Some (lit "shard-02").
Proof. split; [vm_compute; reflexivity|]. exists (KeyInt 8 7). split; vm_compute; reflexivity. Qed.

(** Integers of one value and different widths are different keys. *)
Lemma width_is_part_of_key : stable_hash (KeyInt 4 42) ≠ stable_hash (KeyInt 8 42).
Proof. vm_compute. discriminate. Qed.

Lemma transaction_pinned_witness :
  ∃ r, db_route ex_database (KeyInt 8 42) = Some r ∧
    ∀ conn : rstr, ensure_key {| tx_router := router ex_database; tx_shard := ro_shard r; tx_connection := conn |} (KeyInt 8 42)
      = Some (Ok tt).
Proof.
  destruct (transaction_pinned (Conn := rstr) (λ c f, f c) ex_database (KeyInt 8 42) (λ tx, Ok (tx_connection tx))
    (Ok (match db_route ex_database (KeyInt 8 42) with Some r => cn_primary (ro_connections r) | None => [] end)))
    as (r & Hr & Hi & _ & Htx); [vm_compute; reflexivity|]. exists r. split; [exact Hr|].
  intros conn. exact (proj1 (Htx conn (KeyInt 8 42))).
Defined.

Definition ex_connections : DatabaseConnections (Conn := rstr) :=
  {| cn_primary := lit "p0"; cn_replicas := [lit "r0"; lit "r1"; lit "r2"]; cn_policy := RoundRobin; read_cursor := 7 |}.
Lemma reads_rotate_witness :
  picks (λ cursor, let '(r, c') := db_read None (with_cursor ex_connections cursor) in (r, read_cursor c')) 3 7 ≡ₚ
  Some <$> [lit "r0"; lit "r1"; lit "r2"].
Proof. apply (reads_rotate ex_connections); [reflexivity|vm_compute; discriminate]. Defined.
