(* ===== verification/Query.v ===== *)
(** * Query composition (crates/roze-query/src/lib.rs)

    [QueryComposer::execute] runs named calls at once under a semaphore, a timeout per call
    and a total one. Its tasks and the collecting loop are the steps of a machine: calls
    wait for a permit, run, and end by their own result, their timeout or a panic; the
    loop joins what has ended in any order. *)

From S2P Require Import Prelude Text.

(** ** Data *)

Inductive PartialFailurePolicy := Strict | Allow.
#[export] Instance PartialFailurePolicy_eq_dec : EqDecision PartialFailurePolicy.
Proof. solve_decision. Defined.
Record QueryCompositionConfig :=
  { total_timeout : N; per_call_timeout : N; max_fanout : nat; max_concurrency : nat; partial_failure : PartialFailurePolicy }.
Definition query_default : QueryCompositionConfig :=
  {| total_timeout := from_secs 3; per_call_timeout := from_secs 1; max_fanout := 16; max_concurrency := 8;
     partial_failure := Strict |}.

Inductive QueryFailureKind := TimeoutFailure | Upstream | Cancelled.
Record QueryFailure := { qf_kind : QueryFailureKind; qf_message : rstr }.

Inductive QueryCompositionError :=
| FanoutLimit (actual limit : nat)
| TotalTimeout (completed : nat)
| StrictFailure (name message : rstr).

Section query.
Context {T : Type} (cfg : QueryCompositionConfig).

Record QueryOutcome := { oc_name : rstr; oc_value : option T; oc_failure : option QueryFailure }.
Definition is_success (o : QueryOutcome) : bool := match oc_failure o with None => true | Some _ => false end.

Definition is_complete (outcomes : list QueryOutcome) : bool := forallb is_success outcomes.
Definition successes (outcomes : list QueryOutcome) : list (rstr * T) :=
  omap (λ o, pair (oc_name o) <$> oc_value o) outcomes.
Definition failures (outcomes : list QueryOutcome) : list (rstr * QueryFailure) :=
  omap (λ o, pair (oc_name o) <$> oc_failure o) outcomes.

(** How [timeout(per_call_timeout, task.future)] ends. *)
Inductive ended := Value (v : T) | Error (message : rstr) | Elapsed.
Definition outcome_of (name : rstr) (e : ended) : QueryOutcome :=
  let failed kind message := {| oc_name := name; oc_value := None; oc_failure := Some {| qf_kind := kind; qf_message := message |} |} in
  match e with
  | Value v => {| oc_name := name; oc_value := Some v; oc_failure := None |}
  | Error message => failed Upstream message
  | Elapsed => failed TimeoutFailure (lit "upstream call exceeded " ++ dec (per_call_timeout cfg / 1000000) ++ lit " ms")
  end.

(** ** Execution *)

(** A task that panicked has no outcome. *)
Inductive call := Waiting | Running (since : N) | Finished (o : option QueryOutcome) | Joined (o : option QueryOutcome).
Record composer := { calls : list call; permits : nat; clock : N }.

Definition concurrency : nat := max_concurrency cfg `max` 1.
Definition spawn (n : nat) (now : N) : composer := {| calls := repeat Waiting n; permits := concurrency; clock := now |}.

Definition set_call (i : nat) (c : call) (permits : nat) (s : composer) : composer :=
  {| calls := <[i := c]> (calls s); permits := permits; clock := clock s |}.

(** One step of a task, of the collecting loop, or of time. *)
Inductive step (names : list rstr) : composer → composer → Prop :=
| Acquire s i : calls s !! i = Some Waiting → (0 < permits s)%nat →
    step names s (set_call i (Running (clock s)) (permits s - 1) s)
| Return s i name since e : calls s !! i = Some (Running since) → names !! i = Some name →
    (e = Elapsed → since + per_call_timeout cfg ≤ clock s) →
    step names s (set_call i (Finished (Some (outcome_of name e))) (permits s + 1) s)
| Panic s i since : calls s !! i = Some (Running since) →
    step names s (set_call i (Finished None) (permits s + 1) s)
| Join s i o : calls s !! i = Some (Finished o) → step names s (set_call i (Joined o) (permits s) s)
| Tick s now : clock s < now → step names s {| calls := calls s; permits := permits s; clock := now |}.

Definition joined (c : call) : bool := match c with Joined _ => true | _ => false end.
Definition outcomes (s : composer) : list QueryOutcome := omap (λ c, match c with Joined o => o | _ => None end) (calls s).

(** What is returned once all outcomes are in. *)
Definition conclude (outcomes : list QueryOutcome) : result QueryCompositionError (list QueryOutcome) :=
  match partial_failure cfg with
  | Strict =>
      match find (λ o, negb (is_success o)) outcomes with
      | Some o => Err (StrictFailure (oc_name o) (match oc_failure o with Some f => qf_message f | None => [] end))
      | None => Ok outcomes
      end
  | Allow => Ok outcomes
  end.

(** [execute]: refused, nothing to do, or a run that is collected, or cut off at its deadline. *)
Inductive execute (names : list rstr) (start : N) : result QueryCompositionError (list QueryOutcome) → Prop :=
| Refused : (max_fanout cfg < length names)%nat → execute names start (Err (FanoutLimit (length names) (max_fanout cfg)))
| Nothing : (length names ≤ max_fanout cfg)%nat → names = [] → execute names start (Ok [])
| Collected s : (length names ≤ max_fanout cfg)%nat → names ≠ [] →
    rtc (step names) (spawn (length names) start) s → forallb joined (calls s) = true →
    execute names start (conclude (outcomes s))
| CutOff s : (length names ≤ max_fanout cfg)%nat → names ≠ [] →
    rtc (step names) (spawn (length names) start) s → forallb joined (calls s) = false →
    start + total_timeout cfg ≤ clock s →
    execute names start (Err (TotalTimeout (length (filter (λ c, joined c = true) (calls s))))).
End query.

(** ** The machine keeps its accounts *)

Definition running {T} (c : call (T := T)) : nat := match c with Running _ => 1 | _ => 0 end.
Definition weight {T} (c : call (T := T)) : nat :=
  match c with Waiting => 3 | Running _ => 2 | Finished _ => 1 | Joined _ => 0 end.

Lemma sum_insert {A} (f : A → nat) l i a b :
  l !! i = Some a → (sum_list_with f (<[i := b]> l) + f a = sum_list_with f l + f b)%nat.
Proof.
  revert i. induction l as [|x l IH]; intros [|i] Hi; [done|done|injection Hi as ->; cbn; lia|].
  change (<[S i := b]> (x :: l)) with (x :: <[i := b]> l). cbn. specialize (IH i Hi). lia.
Qed.
Lemma sum_repeat {A} (f : A → nat) n a : sum_list_with f (repeat a n) = (n * f a)%nat.
Proof. induction n as [|n IH]; cbn; [done|]. rewrite IH. done. Qed.
Lemma sum_zero {A} (f : A → nat) l : sum_list_with f l = 0%nat ↔ ∀ a, a ∈ l → f a = 0%nat.
Proof.
  induction l as [|x l IH]; cbn; [split; [intros _ a Ha; by apply elem_of_nil in Ha|done]|].
  setoid_rewrite elem_of_cons. rewrite Nat.eq_add_0, IH. naive_solver.
Qed.

Section machine.
Context {T : Type} (cfg : QueryCompositionConfig) (names : list rstr) (start : N).
Implicit Types (s : composer (T := T)) (c : call (T := T)).

(** What has ended, ended as an outcome of its own task, and in time. *)
Definition call_ok (clock : N) (name : rstr) (c : call (T := T)) : Prop :=
  match c with
  | Waiting => True
  | Running since => start ≤ since ≤ clock
  | Finished o | Joined o => ∀ outcome, o = Some outcome →
      ∃ e, outcome = outcome_of cfg name e ∧ (e = Elapsed → start + per_call_timeout cfg ≤ clock)
  end.

Record inv s : Prop :=
  { inv_calls : Forall2 (call_ok (clock s)) names (calls s);
    inv_permits : (permits s + sum_list_with running (calls s) = concurrency cfg)%nat;
    inv_clock : start ≤ clock s }.

Lemma call_ok_later now now' name c : now ≤ now' → call_ok now name c → call_ok now' name c.
Proof.
  intros Hn. destruct c; cbn; [done|lia|..]; intros H out Ho; destruct (H out Ho) as (e & He & Ht); exists e; (split; [done|]);
    intros E; specialize (Ht E); lia.
Qed.

Lemma call_at s i c : inv s → calls s !! i = Some c → ∃ name, names !! i = Some name ∧ call_ok (clock s) name c.
Proof. intros [Hc _ _] Hi. destruct (Forall2_lookup_r _ _ _ _ _ Hc Hi) as (name & ? & ?). by exists name. Qed.

Lemma inv_set s i c c' p name :
  inv s → calls s !! i = Some c → names !! i = Some name → call_ok (clock s) name c' →
  (p + running c' = permits s + running c)%nat → inv (set_call i c' p s).
Proof.
  intros [Hc Hp Ht] Hi Hn Hok Hr. split; cbn; [| |done].
  - rewrite <- (list_insert_id names i name) by done. by apply Forall2_insert.
  - pose proof (sum_insert running (calls s) i c c' Hi). lia.
Qed.

Lemma inv_spawn : inv (spawn cfg (length names) start).
Proof.
  split; cbn; [|rewrite sum_repeat; cbn; lia|lia].
  induction names as [|n l IH]; cbn; constructor; done.
Qed.

Lemma inv_step s s' : inv s → step cfg names s s' → inv s'.
Proof.
  intros Hinv Hs. destruct Hs as [s i Hi Hp|s i name since e Hi Hn He|s i since Hi|s i o Hi|s now Hnow];
    try (destruct (call_at s i _ Hinv Hi) as (nm & Hnm & Hok)).
  - apply (inv_set s i Waiting _ _ nm); [done..| |cbn; lia]. cbn. pose proof (inv_clock s Hinv). lia.
  - apply (inv_set s i (Running since) _ _ name); [done..| |cbn; lia]. cbn. intros out [= <-]. exists e. split; [done|].
    intros E. specialize (He E). cbn in Hok. lia.
  - apply (inv_set s i (Running since) _ _ nm); [done..|cbn; done|cbn; lia].
  - by apply (inv_set s i (Finished o) _ _ nm).
  - destruct Hinv as [Hc Hp Ht]. split; cbn; [|done|lia].
    eapply Forall2_impl; [exact Hc|]. intros nm c. apply call_ok_later. lia.
Qed.

Lemma inv_reachable s : rtc (step cfg names) (spawn cfg (length names) start) s → inv s.
Proof. apply (rtc_ind_r inv); [exact inv_spawn|]. intros x y _ Hs Hx. by apply (inv_step x y). Qed.

(** Every step of a task or of the collecting loop brings the end nearer; only time may pass
    without. *)
Lemma step_weight s s' :
  step cfg names s s' →
  (sum_list_with weight (calls s') < sum_list_with weight (calls s))%nat ∧ clock s' = clock s ∨
  calls s' = calls s ∧ permits s' = permits s ∧ clock s < clock s'.
Proof.
  intros [s0 i Hi Hp|s0 i name since e Hi Hn He|s0 i since Hi|s0 i o Hi|s0 now Hnow]; [left..|by right]; (split; [|done]); cbn;
    match goal with |- context [<[i := ?c]> _] => pose proof (sum_insert weight (calls s0) i _ c Hi) end; cbn in *; lia.
Qed.

(** What has not ended can go on, if need be by waiting for a timeout. *)
Lemma can_go_on s :
  inv s → forallb joined (calls s) = false →
  ∃ s', rtc (step cfg names) s s' ∧ (sum_list_with weight (calls s') < sum_list_with weight (calls s))%nat.
Proof.
  intros Hinv Hj.
  assert (∃ i c, calls s !! i = Some c ∧ joined c = false) as (i & c & Hi & Hc).
  { clear Hinv. induction (calls s) as [|c l IH]; [done|]. cbn in Hj. destruct (joined c) eqn:E.
    - destruct (IH Hj) as (i & d & ? & ?). by exists (S i), d.
    - by exists 0%nat, c. }
  assert (∀ s0 i since, inv s0 → calls s0 !! i = Some (Running since) →
    ∃ s', rtc (step cfg names) s0 s' ∧ (sum_list_with weight (calls s') < sum_list_with weight (calls s0))%nat) as Hrun.
  { intros s0 j since Hinv0 Hjr. destruct (call_at s0 j _ Hinv0 Hjr) as (name & Hn & _).
    set (s1 := {| calls := calls s0; permits := permits s0; clock := clock s0 + since + per_call_timeout cfg + 1 |}).
    exists (set_call j (Finished (Some (outcome_of cfg name Elapsed))) (permits s1 + 1) s1). split.
    - eapply rtc_l; [apply (Tick cfg names s0 (clock s1)); cbn; lia|]. apply rtc_once.
      apply (Return cfg names s1 j name since Elapsed); [done..|]. intros _. cbn. lia.
    - cbn. pose proof (sum_insert weight (calls s0) j _ (Finished (Some (outcome_of cfg name Elapsed))) Hjr). cbn in *. lia. }
  destruct c as [|since|o|o]; [|by apply (Hrun s i since)| |done].
  - destruct (decide (0 < permits s)%nat) as [Hp|Hp].
    + eexists. split; [apply rtc_once; by apply (Acquire cfg names s i)|]. cbn.
      pose proof (sum_insert weight (calls s) i _ (Running (clock s)) Hi). cbn in *. lia.
    + assert (sum_list_with running (calls s) ≠ 0)%nat as Hr.
      { pose proof (inv_permits s Hinv). unfold concurrency in *. lia. }
      assert (∃ j since, calls s !! j = Some (Running since)) as (j & since & Hjr); [|by apply (Hrun s j since)].
      clear Hinv Hj Hi Hp Hrun. induction (calls s) as [|c l IH]; [done|]. cbn in Hr.
      destruct c as [|since|o|o]; cbn in Hr; [destruct IH as (j & t & Hj); [done|by exists (S j), t]|by exists 0%nat, since|
        destruct IH as (j & t & Hj); [done|by exists (S j), t]..].
  - eexists. split; [apply rtc_once; by apply (Join cfg names s i o)|]. cbn.
    pose proof (sum_insert weight (calls s) i _ (Joined o) Hi). cbn in *. lia.
Qed.

Lemma can_end s : inv s → ∃ s', rtc (step cfg names) s s' ∧ forallb joined (calls s') = true.
Proof.
  remember (sum_list_with weight (calls s)) as n eqn:En. revert s En.
  induction n as [n IH] using lt_wf_ind. intros s -> Hinv.
  destruct (forallb joined (calls s)) eqn:E; [by exists s|].
  destruct (can_go_on s Hinv E) as (s1 & Hs1 & Hlt).
  assert (inv s1) as Hinv1 by (clear -Hs1 Hinv; induction Hs1 as [|x y z Hxy Hyz IHr]; [done|by apply IHr, (inv_step x y)]).
  destruct (IH _ Hlt s1 eq_refl Hinv1) as (s2 & Hs2 & Hj). exists s2. split; [by transitivity s1|done].
Qed.
End machine.

Section results.
Context {T : Type} (cfg : QueryCompositionConfig) (names : list rstr) (start : N).

(** The outcomes of a run, one place for each task in order; a place is empty when its task
    panicked. *)
Definition outcome_places (os : list (option (QueryOutcome (T := T)))) : Prop :=
  Forall2 (λ name o, ∀ outcome, o = Some outcome → ∃ e, outcome = outcome_of cfg name e) names os.

Lemma joined_places s :
  inv cfg names start s → forallb joined (calls s) = true → ∃ os, outcome_places os ∧ outcomes s = omap id os.
Proof.
  intros [Hc _ _] Hj. unfold outcomes, outcome_places. set (place := λ c : call (T := T), match c with Joined o => o | _ => None end).
  exists (place <$> calls s). split.
  - apply Forall2_fmap_r. eapply Forall2_impl; [exact Hc|]. intros name c Hok out Ho.
    destruct c as [| |o|o]; [done..|]. destruct (Hok out Ho) as (e & ? & _). by exists e.
  - clear. induction (calls s) as [|c l IH]; [done|]. cbn. rewrite IH. by destruct (place c).
Qed.

(** However its calls are scheduled, the composer never has more of them in flight than it
    may, at least one; a permit is held by exactly the calls that run. *)
Theorem query_concurrency_bounded s :
  rtc (step (T := T) cfg names) (spawn cfg (length names) start) s →
  (permits s + sum_list_with running (calls s) = max_concurrency cfg `max` 1)%nat.
Proof. intros Hs. apply (inv_permits cfg names start s), inv_reachable, Hs. Qed.

(** A composition returns, in the order of its tasks and whatever the order they end in, the
    outcomes of the calls that did not panic, each a value or a failure of its own task; in
    strict mode all succeeded, and an error names the first outcome that failed. More
    tasks than the limit are refused, and a total timeout comes not before its time,
    with fewer calls completed than there are. *)
Theorem query_results r :
  execute (T := T) cfg names start r →
  match r with
  | Ok outs => ∃ os, outcome_places os ∧ outs = omap id os ∧ (partial_failure cfg = Strict → is_complete outs = true)
  | Err (StrictFailure name message) =>
      partial_failure cfg = Strict ∧
      ∃ os pre o post f, outcome_places os ∧ omap id os = pre ++ o :: post ∧ is_complete pre = true ∧
        oc_name o = name ∧ oc_failure o = Some f ∧ qf_message f = message
  | Err (FanoutLimit actual limit) => actual = length names ∧ limit = max_fanout cfg ∧ (limit < actual)%nat
  | Err (TotalTimeout completed) => (completed < length names)%nat
  end.
Proof.
  intros [Hf|Hf En|s Hf Hne Hs Hj|s Hf Hne Hs Hj Ht].
  - done.
  - exists []. unfold outcome_places. rewrite En. split_and!; [constructor|done|done].
  - pose proof (inv_reachable cfg names start s Hs) as Hinv. destruct (joined_places s Hinv Hj) as (os & Hos & Ho).
    unfold conclude. rewrite Ho. destruct (partial_failure cfg) eqn:Ep; [|by exists os].
    destruct (find _ (omap id os)) as [o|] eqn:Ef.
    + split; [done|]. assert (∃ pre post, omap id os = pre ++ o :: post ∧ is_complete pre = true ∧ is_success o = false)
        as (pre & post & Ho' & Hpre & Hfail).
      { clear -Ef. induction (omap id os) as [|x l IH]; [done|]. cbn in Ef. destruct (is_success x) eqn:E.
        - destruct (IH Ef) as (pre & post & -> & ? & ?). exists (x :: pre), post. cbn. by rewrite E.
        - injection Ef as ->. by exists [], l. }
      unfold is_success in Hfail. destruct (oc_failure o) as [f|] eqn:Eo; [|done]. by exists os, pre, o, post, f.
    + exists os. split_and!; [done..|]. intros _. clear -Ef. unfold is_complete.
      induction (omap id os) as [|x l IH]; [done|]. cbn in *. destruct (is_success x); [by apply IH|done].
  - pose proof (inv_calls _ _ _ _ (inv_reachable cfg names start s Hs)) as Hc. rewrite (Forall2_length _ _ _ Hc).
    clear -Hj. induction (calls s) as [|c l IH]; [done|]. cbn in Hj. rewrite filter_cons. destruct (joined c) eqn:E.
    + rewrite decide_True by done. cbn in *. specialize (IH Hj). lia.
    + rewrite decide_False by done. pose proof (length_filter (λ c, joined c = true) l). cbn. lia.
Qed.

(** A composition ends. Each call takes three steps at most; from every state all calls can
    end and be joined, with no more help from the calls than their timeouts; and once
    the total timeout is over there is a result. *)
Theorem query_ends s :
  rtc (step (T := T) cfg names) (spawn cfg (length names) start) s →
  (sum_list_with weight (calls s) ≤ 3 * length names)%nat ∧
  (∀ s', step cfg names s s' →
     (sum_list_with weight (calls s') < sum_list_with weight (calls s))%nat ∧ clock s' = clock s ∨
     calls s' = calls s ∧ permits s' = permits s ∧ clock s < clock s') ∧
  (∃ s', rtc (step cfg names) s s' ∧ forallb joined (calls s') = true) ∧
  ((length names ≤ max_fanout cfg)%nat → start + total_timeout cfg ≤ clock s → ∃ r, execute (T := T) cfg names start r).
Proof.
  intros Hs. pose proof (inv_reachable cfg names start s Hs) as Hinv. split_and!.
  - rewrite (Forall2_length _ _ _ (inv_calls _ _ _ _ Hinv)). clear.
    induction (calls s) as [|c l IH]; cbn; [lia|]. destruct c; cbn; lia.
  - intros s'. apply step_weight.
  - by apply (can_end cfg names start).
  - intros Hf Ht. destruct (decide (names = [])) as [E|E]; [eexists; by apply Nothing|].
    destruct (forallb joined (calls s)) eqn:Ej; eexists; [by apply (Collected cfg names start s)|by apply (CutOff cfg names start s)].
Qed.
End results.

(** ** Examples *)

Definition ex_names : list rstr := [lit "catalog"; lit "inventory"].
Definition ex_outcome (name : rstr) (v : N) : QueryOutcome (T := N) := {| oc_name := name; oc_value := Some v; oc_failure := None |}.

(** The second call ends first. *)
Lemma ex_composed :
  execute (T := N) query_default ex_names 0 (Ok [ex_outcome (lit "catalog") 1; ex_outcome (lit "inventory") 2]).
Proof.
  set (s calls permits := {| calls := calls; permits := permits; clock := 0 |} : composer (T := N)).
  set (o0 := Some (ex_outcome (lit "catalog") 1)). set (o1 := Some (ex_outcome (lit "inventory") 2)).
  apply (Collected query_default ex_names 0 (s [Joined o0; Joined o1] 8%nat)); [cbn; lia|done| |reflexivity].
  eapply rtc_l; [apply (Acquire query_default ex_names _ 0); [reflexivity|cbn; lia]|].
  eapply rtc_l; [apply (Acquire query_default ex_names _ 1); [reflexivity|cbn; lia]|].
  eapply rtc_l; [apply (Return query_default ex_names _ 1 (lit "inventory") 0 (Value 2)); [reflexivity..|done]|].
  eapply rtc_l; [apply (Join query_default ex_names _ 1 o1); reflexivity|].
  eapply rtc_l; [apply (Return query_default ex_names _ 0 (lit "catalog") 0 (Value 1)); [reflexivity..|done]|].
  eapply rtc_l; [apply (Join query_default ex_names _ 0 o0); reflexivity|]. apply rtc_refl.
Qed.

Lemma query_results_witness :
  ∃ os, outcome_places (T := N) query_default ex_names os ∧
    [ex_outcome (lit "catalog") 1; ex_outcome (lit "inventory") 2] = omap id os.
Proof. destruct (query_results (T := N) query_default ex_names 0 _ ex_composed) as (os & ? & ? & _). by exists os. Defined.

Lemma query_concurrency_bounded_witness :
  (8 + sum_list_with running (repeat (Waiting (T := N)) 2) = 8 `max` 1)%nat.
Proof. exact (query_concurrency_bounded (T := N) query_default ex_names 0 _ (rtc_refl _ _)). Defined.

Lemma query_ends_witness :
  ∃ s', rtc (step (T := N) query_default ex_names) (spawn query_default 2 0) s' ∧ forallb joined (calls s') = true.
Proof. exact (proj1 (proj2 (proj2 (query_ends (T := N) query_default ex_names 0 _ (rtc_refl _ _))))). Defined.

(** A call that panics is left out, and a strict composition without it is complete. *)
Lemma panicked_call_vanishes :
  execute (T := N) query_default ex_names 0 (Ok [ex_outcome (lit "inventory") 2]) ∧
  partial_failure query_default = Strict ∧ is_complete [ex_outcome (lit "inventory") 2] = true.
Proof.
  split; [|done]. set (s calls permits := {| calls := calls; permits := permits; clock := 0 |} : composer (T := N)).
  set (o1 := Some (ex_outcome (lit "inventory") 2)).
  apply (Collected query_default ex_names 0 (s [Joined None; Joined o1] 8%nat)); [cbn; lia|done| |reflexivity].
  eapply rtc_l; [apply (Acquire query_default ex_names _ 0); [reflexivity|cbn; lia]|].
  eapply rtc_l; [apply (Acquire query_default ex_names _ 1); [reflexivity|cbn; lia]|].
  eapply rtc_l; [apply (Panic query_default ex_names _ 0 0); reflexivity|].
  eapply rtc_l; [apply (Return query_default ex_names _ 1 (lit "inventory") 0 (Value 2)); [reflexivity..|done]|].
  eapply rtc_l; [apply (Join query_default ex_names _ 0 None); reflexivity|].
  eapply rtc_l; [apply (Join query_default ex_names _ 1 o1); reflexivity|]. apply rtc_refl.
Qed.
