(* ===== verification/Job.v ===== *)
(** * Jobs (crates/roze-job/src/lib.rs)

    [execute_governed_job] puts the gates, the retry loop and the settlement that
    Governed.v describes around a job's run; the service starts its jobs one by one and
    hands what is delayed or repeated to spawned tasks. A job is a function of its own
    state and the instant it runs at, giving its result, how long it ran and its state.
    The timer decides when spawned tasks run. Metrics and logging are not modelled. *)

From S2P Require Import Prelude Text Breaker Resilience Governed.

Section job.
Context {Value St : Type}.

Record Job := { j_name : rstr; j_run : St → N → result rstr unit * N * St }.
Inductive Schedule := Once | After (delay : N) | Every (interval : N).
Record ScheduledJob := { sj_job : Job; sj_schedule : Schedule; sj_policy : option (GovernancePolicy Value) }.

(** ** One execution *)

Definition job_key (name : rstr) : rstr := OperationKey_new name Resilience.Job name.

Definition job_message (e : DeliveryError rstr) : rstr :=
  match e with
  | RejectedByRateLimit => lit "job rejected by rate limit"
  | RejectedByBreaker => lit "job rejected by open circuit breaker"
  | RejectedByShedding => lit "job rejected by load shedding"
  | HandlerTimedOut => lit "job timed out"
  | HandlerFailed e => e
  end.

(** The static registries are [g]. *)
Definition execute_governed_job (job : Job) (policy : option (GovernancePolicy Value)) (g : Governance) (st : St) (now : N)
    : result rstr unit * Governance * St * N :=
  let policy := default (GovernancePolicy_default Value) policy in
  let '(r, g, st, now) := execute_governed_delivery policy (j_run job) (job_key (j_name job)) g st now in
  (map_err job_message r, g, st, now).

(** What an execution has taken when it awaits its job for the first time; a task that is
    aborted there, or whose job panics, leaves just this behind. *)
Definition admitted (job : Job) (policy : GovernancePolicy Value) (g : Governance) (now : N) : bool * Governance :=
  let key := job_key (j_name job) in
  let '(allowed, g) := rate_limit_gate policy key g now in
  if negb allowed then (false, g)
  else
    let '(permit, g) := breaker_gate policy key g now in
    match permit with
    | None => (false, g)
    | Some permit =>
        let '(allowed, g) := shedding_gate policy key g now in
        if negb allowed then (false, cancel_permit policy key g permit now)
        else (true, set_budgets g (RetryBudgetRegistry_record_call (retry_budgets g) key now) (jitter_state g))
    end.

(** ** The service *)

(** [svc_tasks] are the spawned tasks. *)
Record JobService :=
  { svc_name : rstr; svc_jobs : option (list ScheduledJob); svc_tasks : list ScheduledJob }.
Record World := { w_gov : Governance; w_st : St; w_now : N }.

Definition JobService_new (name : rstr) : JobService := {| svc_name := name; svc_jobs := Some []; svc_tasks := [] |}.
(** [None] where adding to a started service panics. *)
Definition add_governed (job : Job) (schedule : Schedule) (policy : option (GovernancePolicy Value)) (s : JobService) : option JobService :=
  jobs ← svc_jobs s;
  Some {| svc_name := svc_name s;
          svc_jobs := Some (jobs ++ [{| sj_job := job; sj_schedule := schedule; sj_policy := policy |}]);
          svc_tasks := svc_tasks s |}.
Definition add (job : Job) (schedule : Schedule) (s : JobService) : option JobService := add_governed job schedule None s.

Definition run_scheduled (j : ScheduledJob) (w : World) : result rstr unit * World :=
  let '(r, g, st, now) := execute_governed_job (sj_job j) (sj_policy j) (w_gov w) (w_st w) (w_now w) in
  (r, {| w_gov := g; w_st := st; w_now := now |}).

(** [spawn_with_governance]: a job to run once is run by the caller. *)
Definition spawn_with_governance (j : ScheduledJob) (tasks : list ScheduledJob) (w : World)
    : result rstr unit * list ScheduledJob * World :=
  match sj_schedule j with
  | Once => let '(r, w) := run_scheduled j w in (r, tasks, w)
  | _ => (Ok tt, tasks ++ [j], w)
  end.

Fixpoint start_jobs (l : list ScheduledJob) (tasks : list ScheduledJob) (w : World) : result rstr unit * list ScheduledJob * World :=
  match l with
  | [] => (Ok tt, tasks, w)
  | j :: l =>
      let '(r, tasks, w) := spawn_with_governance j tasks w in
      match r with Ok _ => start_jobs l tasks w | Err e => (Err e, tasks, w) end
  end.

(** [start], up to waiting for the shutdown. *)
Definition service_start (s : JobService) (w : World) : result rstr unit * JobService * World :=
  match svc_jobs s with
  | None => (Err (lit "job service " ++ svc_name s ++ lit " already started"), s, w)
  | Some jobs =>
      let '(r, tasks, w) := start_jobs jobs (svc_tasks s) w in
      (r, {| svc_name := svc_name s; svc_jobs := None; svc_tasks := tasks |}, w)
  end.

(** The timer of a spawned task fires: its result is only logged, and a delayed job has had
    its run. *)
Definition fire (i : nat) (s : JobService) (w : World) : JobService * World :=
  match svc_tasks s !! i with
  | None => (s, w)
  | Some j =>
      let '(_, w) := run_scheduled j w in
      (match sj_schedule j with
       | Every _ => s
       | _ => {| svc_name := svc_name s; svc_jobs := svc_jobs s; svc_tasks := delete i (svc_tasks s) |}
       end, w)
  end.

Definition service_stop (s : JobService) : JobService :=
  {| svc_name := svc_name s; svc_jobs := svc_jobs s; svc_tasks := [] |}.
End job.

(** ** Executions *)

Section theorems.
Context {Value St : Type}.
Implicit Types (job : Job (St := St)) (g : Governance) (st : St).

(** An execution of a job settles what it was granted, whatever its policy is and the job
    does: the breaker of the job is not left half-open, unless it was, the shedder counts
    the executions in flight as before, and the job ran at most [max_attempts.max(1)]
    times. [calls] is any counter in the job's state that a run increments at most once. *)
Theorem governed_job_settles job (policy : option (GovernancePolicy Value)) (calls : St → N) g st now r g' st' now' :
  (∀ p config, policy = Some p → shedding p = Some config → concurrency config ≤ U64_MAX) →
  (∀ st now, calls (j_run job st now).2 ≤ calls st + 1) →
  execute_governed_job job policy g st now = (r, g', st', now') →
  let key := job_key (j_name job) in
  (phase (breaker_entry (breakers g) key) ≠ HalfOpen → phase (breaker_entry (breakers g') key) ≠ HalfOpen) ∧
  in_flight (shed_entry (shedders g') key) = in_flight (shed_entry (shedders g) key) ∧
  calls st' ≤ calls st + N.max (max_attempts (default RetryPolicy_default (policy ≫= retry))) 1.
Proof.
  intros Hconc Hcalls. unfold execute_governed_job.
  destruct (execute_governed_delivery _ _ _ _ _ _) as [[[r0 g0] st0] now0] eqn:E. intros [= <- <- <- <-].
  apply (execution_settles _ _ calls) in E as (H1 & H2 & H3 & _);
    [|destruct policy as [p|]; [intros config; by apply Hconc|by intros config]|done].
  split_and!; [done..|]. by destruct policy.
Qed.

(** Executions begin with their admission, and go no further when it is refused. *)
Lemma admission_begins job (policy : GovernancePolicy Value) g st now :
  match admitted job policy g now with
  | (false, g1) => ∃ e, execute_governed_job job (Some policy) g st now = (Err e, g1, st, now)
  | (true, g1) =>
      let retry := default RetryPolicy_default (retry policy) in
      ∃ permit, execute_governed_job job (Some policy) g st now =
        let '(result, g, st, now') := attempt_loop policy (j_run job) (job_key (j_name job))
          (N.to_nat (N.max (max_attempts retry) 1 - 1)) retry 1 g1 st now in
        (map_err job_message result,
         settle_shedding policy (job_key (j_name job))
           (settle_permit policy (job_key (j_name job)) g permit (is_ok result) now') (is_ok result) (now' - now) now', st, now')
  end.
Proof.
  unfold admitted, execute_governed_job, execute_governed_delivery. cbn [default].
  destruct (rate_limit_gate _ _ _ _) as [[] g1]; cbn [negb]; [|by eexists].
  destruct (breaker_gate _ _ _ _) as [[permit|] g2]; [|by eexists].
  destruct (shedding_gate _ _ _ _) as [[] g3]; cbn [negb]; [|by eexists].
  exists permit. by destruct (attempt_loop _ _ _ _ _ _ _ _ _) as [[[? ?] ?] ?].
Qed.

(** An execution that is aborted at an await, or whose job panics, is never settled: it has
    taken a slot of the shedder, and once as many slots are lost as the policy has, every
    later execution of a job of that name is refused and takes no slot back. *)
Theorem aborted_jobs_exhaust job (policy : GovernancePolicy Value) config g now :
  shedding policy = Some config → concurrency config ≤ U64_MAX →
  let flying g := in_flight (shed_entry (shedders g) (job_key (j_name job))) in
  (∀ g', admitted job policy g now = (true, g') → flying g' = flying g + 1) ∧
  (N.max (concurrency config) 1 ≤ flying g →
   ∀ st, let '(r, g', st', _) := execute_governed_job job (Some policy) g st now in
         is_ok r = false ∧ st' = st ∧ flying g' = flying g).
Proof.
  intros Hs Hc flying.
  assert (match admitted job policy g now with
          | (ok, g') => (ok = true → flying g' = flying g + 1) ∧
                        (N.max (concurrency config) 1 ≤ flying g → ok = false ∧ flying g' = flying g)
          end) as Hadm.
  { unfold admitted. destruct (rate_limit_gate_frame policy (job_key (j_name job)) g now) as [_ Hs1].
    destruct (rate_limit_gate _ _ g now) as [[] g1]; cbn [negb fst snd] in *; [|split; [done|intros _; subst flying; by cbn; rewrite Hs1]].
    pose proof (breaker_gate_spec policy (job_key (j_name job)) g1 now) as Hb.
    destruct (breaker_gate _ _ g1 now) as [[permit|] g2]; destruct Hb as [Hs2 _];
      [|split; [done|intros _; subst flying; cbn; by rewrite Hs2, Hs1]].
    unfold shedding_gate. rewrite Hs.
    destruct (SheddingRegistry_allow_spec (shedders g2) (job_key (j_name job)) config now) as (H1 & H2 & _).
    destruct (SheddingRegistry_allow _ _ _ _) as [ok reg]. cbn [fst snd] in *. rewrite Hs2, Hs1 in H1, H2. rewrite <- H1 in H2.
    destruct ok; cbn [negb].
    - symmetry in H1. apply andb_true_iff in H1 as [_ H1]. guard_prop.
      split; [intros _; subst flying; cbn in *; rewrite H2; apply sat_add_small; lia|subst flying; cbn; lia].
    - split; [done|]. intros _. split; [done|]. subst flying. cbn. rewrite cancel_permit_shedders. cbn. rewrite H2. done. }
  pose proof (admission_begins job policy g) as Hbegin. destruct (admitted job policy g now) as [ok g1] eqn:E. destruct Hadm as [Hok Hno].
  split; [intros g' [= -> ->]; by apply Hok|]. intros Hfull st. destruct (Hno Hfull) as [-> Hg1].
  specialize (Hbegin st now). rewrite E in Hbegin. destruct Hbegin as [e ->]. done.
Qed.

(** ** The service *)

Implicit Types (l tasks : list (ScheduledJob (Value := Value) (St := St))) (w : World (St := St)).

Definition is_once (j : ScheduledJob (Value := Value) (St := St)) : bool := match sj_schedule j with Once => true | _ => false end.

(** The jobs that run once, run one after the other, all with success. *)
Inductive all_run : list (ScheduledJob (Value := Value) (St := St)) → World → World → Prop :=
| RunNone w : all_run [] w w
| RunLater j l w w' : is_once j = false → all_run l w w' → all_run (j :: l) w w'
| RunOnce j l w w1 w' : is_once j = true → run_scheduled j w = (Ok tt, w1) → all_run l w1 w' → all_run (j :: l) w w'.

Lemma start_jobs_course l tasks w r tasks' w' :
  start_jobs l tasks w = (r, tasks', w') →
  match r with
  | Ok _ => all_run l w w' ∧ tasks' = tasks ++ filter (λ j, is_once j = false) l
  | Err e => ∃ l1 j l2 w1, l = l1 ++ j :: l2 ∧ is_once j = true ∧ all_run l1 w w1 ∧ run_scheduled j w1 = (Err e, w') ∧
      tasks' = tasks ++ filter (λ j, is_once j = false) l1
  end.
Proof.
  revert tasks w. induction l as [|j l IH]; intros tasks w; cbn [start_jobs].
  { intros [= <- <- <-]. split; [constructor|by rewrite app_nil_r]. }
  unfold spawn_with_governance. destruct (is_once j) eqn:Ej.
  - unfold is_once in Ej. destruct (sj_schedule j) eqn:Es; [|done..]. destruct (run_scheduled j w) as [[[]|e] w1] eqn:Er.
    + intros H%IH. destruct r as [u|e].
      * destruct H as [H ->]. split; [eapply RunOnce; [unfold is_once; by rewrite Es|done|done]|].
        rewrite filter_cons_False; [done|]. unfold is_once. by rewrite Es.
      * destruct H as (l1 & j' & l2 & w2 & -> & ? & Hrun & ? & ->). exists (j :: l1), j', l2, w2.
        split_and!; [done..|eapply RunOnce; [unfold is_once; by rewrite Es|done|done]|done|].
        rewrite filter_cons_False; [done|]. unfold is_once. by rewrite Es.
    + intros [= <- <- <-]. exists [], j, l, w. unfold is_once; rewrite Es; split_and!; [done..|constructor|done|by rewrite filter_nil, app_nil_r].
  - assert (filter (λ j, is_once j = false) (j :: l) = j :: filter (λ j, is_once j = false) l) as Hf by by rewrite filter_cons_True.
    unfold is_once in Ej. destruct (sj_schedule j) eqn:Es; [done|..]; intros H%IH;
      (destruct r as [u|e];
       [destruct H as [H ->]; split; [apply RunLater; [unfold is_once; by rewrite Es|done]|by rewrite Hf, <- app_assoc]
       |destruct H as (l1 & j' & l2 & w2 & -> & ? & Hrun & ? & ->); exists (j :: l1), j', l2, w2;
        split_and!; [done..|apply RunLater; [unfold is_once; by rewrite Es|done]|done|];
        rewrite filter_cons_True by (unfold is_once; by rewrite Es); by rewrite <- app_assoc]).
Qed.

(** A service starts once. Starting it runs its jobs that run once, in their order, each
    after the one before has ended, and hands the others to tasks in their order; the
    first error of a job that runs once is the start's, and the jobs behind it are
    neither run nor handed on. A second start is an error that changes nothing. *)
Theorem service_starts_in_order s w r s' w' jobs :
  svc_jobs s = Some jobs → service_start s w = (r, s', w') →
  svc_jobs s' = None ∧
  (∀ w2, service_start s' w2 = (Err (lit "job service " ++ svc_name s ++ lit " already started"), s', w2)) ∧
  match r with
  | Ok _ => all_run jobs w w' ∧ svc_tasks s' = svc_tasks s ++ filter (λ j, is_once j = false) jobs
  | Err e => ∃ l1 j l2 w1, jobs = l1 ++ j :: l2 ∧ is_once j = true ∧ all_run l1 w w1 ∧ run_scheduled j w1 = (Err e, w') ∧
      svc_tasks s' = svc_tasks s ++ filter (λ j, is_once j = false) l1
  end.
Proof.
  unfold service_start. intros ->. destruct (start_jobs jobs (svc_tasks s) w) as [[r0 tasks'] w0] eqn:E. intros [= <- <- <-].
  split_and!; [done|done|]. exact (start_jobs_course _ _ _ _ _ _ E).
Qed.
End theorems.

(** ** Examples *)

Definition ex_job (name : rstr) (fails : bool) : Job (St := list rstr) :=
  {| j_name := name; j_run st now := (if fails then Err (name ++ lit " failed") else Ok tt, 5, st ++ [name]) |}.
Definition ex_scheduled (name : rstr) (fails : bool) (schedule : Schedule) : ScheduledJob (Value := unit) :=
  {| sj_job := ex_job name fails; sj_schedule := schedule; sj_policy := None |}.
Definition ex_world : World (St := list rstr) := {| w_gov := ex_governance; w_st := []; w_now := 20 |}.
Definition ex_service : JobService (Value := unit) (St := list rstr) :=
  {| svc_name := lit "jobs"; svc_tasks := [];
     svc_jobs := Some [ex_scheduled (lit "tick") false (Every 100); ex_scheduled (lit "seed") false Once;
                       ex_scheduled (lit "check") true Once; ex_scheduled (lit "report") false (After 100)] |}.

Lemma service_starts_in_order_witness :
  let out := service_start ex_service ex_world in
  out.1.1 = Err (lit "check failed") ∧ w_st out.2 = [lit "seed"; lit "check"] ∧ svc_jobs out.1.2 = None ∧
  length (svc_tasks out.1.2) = 1%nat.
Proof.
  destruct (service_start ex_service ex_world) as [[r s'] w'] eqn:E.
  pose proof (service_starts_in_order ex_service ex_world r s' w' _ eq_refl E) as (H & _ & _).
  vm_compute in E. injection E as <- <- <-. cbn. split_and!; [reflexivity|reflexivity|exact H|reflexivity].
Defined.

Definition ex_job_policy : GovernancePolicy unit :=
  {| timeout := None; retry := Some {| max_attempts := 2; backoff := 100; max_backoff := 1000; budget_percent := None |};
     rate_limit := None; breaker := Some {| failure_threshold := 1; reset_timeout := from_secs 3 |};
     shedding := Some ex_shedding; fallback := None |}.

Lemma governed_job_settles_witness :
  let out := execute_governed_job (ex_job (lit "k") true) (Some ex_job_policy) ex_governance [] 20 in
  in_flight (shed_entry (shedders out.1.1.2) (job_key (lit "k"))) = 0.
Proof.
  destruct (execute_governed_job (ex_job (lit "k") true) (Some ex_job_policy) ex_governance [] 20) as [[[r g'] st'] now'] eqn:E.
  refine (proj1 (proj2 (governed_job_settles _ _ (λ st, N.of_nat (length st)) _ _ _ _ _ _ _ _ _ E))).
  - intros p config [= <-] [= <-]. vm_compute. discriminate.
  - intros st now. cbn. rewrite length_app. cbn. lia.
Defined.

(** The one slot is lost with an aborted run. *)
Lemma aborted_jobs_exhaust_witness :
  let g := (admitted (ex_job (lit "k") true) ex_job_policy ex_governance 20).2 in
  is_ok (execute_governed_job (ex_job (lit "k") true) (Some ex_job_policy) g [] 1000000000000).1.1.1 = false.
Proof.
  cbv zeta. set (g := (admitted _ _ ex_governance 20).2).
  assert (N.max (concurrency ex_shedding) 1 ≤ in_flight (shed_entry (shedders g) (job_key (lit "k")))) as H
    by (vm_compute; discriminate).
  pose proof (proj2 (aborted_jobs_exhaust (ex_job (lit "k") true) ex_job_policy ex_shedding g 1000000000000 eq_refl
    ltac:(vm_compute; discriminate)) H []) as Hr.
  destruct (execute_governed_job _ _ g [] _) as [[[r g'] st'] now']. exact (proj1 Hr).
Defined.
